(* ===== verification/_CoqProject ===== *)
-Q . S2P
Prelude.v
Coding.v
CRC32C.v
Log.v
LogSpec.v
Persist.v
Locks.v
RTM.v
Arena.v
CCM.v
HashTable.v
HashTableInv.v
QuickSort.v
TXMemStore.v
Random.v
LFSkipList.v
LFSkipListInv.v
LFSkipListSpec.v
LFSkipListCalls.v
SkipListSeq.v
InternalKey.v
Bloom.v
FilterBlock.v
Block.v
Iterators.v
TwoLevel.v
Merger.v
TableFormat.v
TableBuilder.v
Table.v
MemTable.v
DBIter.v
WriteBatch.v
WriteAhead.v
DBTransaction.v
DBTransactionInv.v
OBJPool.v
RCU.v
MemStore.v
LinkTable.v
SkipList.v
SkipListInv.v
SkipListSpec.v
SkipListTable.v
SkipListIter.v
SkipListAlt.v
TxSets.v
BPlusTree.v
BPlusTreeInv.v
BPlusTreeSpec.v
SecondIndex.v
DBTables.v
Catalog.v
EpochGC.v
DBTX.v
DBROTX.v
SecondTX.v
Serial.v
SerialInv.v
DBTXIter.v
