(* ===== verification/Prelude.v ===== *)
(** * Eunomia: a verification of its in-memory transactional store

    The program is the transactional key-value store under
    src/AE/Code/euno_ycsb: worker threads run optimistic transactions over
    in-memory tables; hardware transactions (RTM) make the critical pieces
    atomic.  The store grew out of LevelDB, whose logging, memory tables and
    table files are in the same directory.  All paths below are relative to it.

    ** The parts of the program and the files that model them

    - [Prelude]: machine integers with their wrap-around ([u64], [u32]), the
      error type [result] (a null dereference, an access out of bounds, a call
      of [exit], exhausted fuel are values [Fault _]), tactics, hints, and
      linked lists in memory ([chain]).
    - [Coding]: util/coding.h and .cc, silo_benchmark/varint.h.
    - [Persist]: persistent/lbuf.h, pbuf, tbuf and log: the log buffers of the
      workers, the hand-over to the logger threads, the log file, the safe
      epoch.
    - [Locks]: util/spinlock.h and util/rwlock: threads that take and release the
      locks, access by access (modules [SpinLock] and [RWLock]).
    - [RTM]: util/rtm.h and util/rtmScope.h: the retry policies of the two scopes,
      and regions of several threads on transactional hardware with the fallback
      lock.
    - [Arena]: util/arena and util/rtm_arena, one definition over block size and
      alignment.
    - [CCM]: util/ccm.h: mark bits, conflict counters and locks of a leaf.
    - [HashTable], [HashTableInv]: db/hashtable_template.h: the hash table of
      sequence numbers, with its calls as state machines and their interleavings.
    - [Random]: util/random.h and the random heights of the skip lists.
    - [TXMemStore]: db/txmemstore_template.h, over the interface of an ordered table
      (classes [OrdTable], [OrdTableLaws]); [LFSkipList], [LFSkipListInv],
      [LFSkipListSpec], [LFSkipListCalls]: db/lockfreeSkiplist.h, the table it
      uses, its interleaved runs, their invariant, and the refinement of an atomic
      sorted list, which satisfies the interface.
    - [DBTransaction], [DBTransactionInv]: db/dbtransaction_template.h, the earlier
      transactions over the hash table and the multi-version store; [QuickSort]:
      its two sorting routines.
    - [OBJPool]: db/objpool: pools of reusable objects; class [Pool] with
      [PoolLaws] is what the transactions rely on.
    - [RCU]: db/rcu: grace periods, as a step relation of a waiting thread and
      threads that begin and end transactions.
    - [MemStore]: memstore/memstore.h: the records ([MemNode]) and the interface
      of tables and iterators, as the classes [Memstore], [MemstoreLaws],
      [MemIterator], [MemIteratorLaws] and [LinkLaws], with a finite map as an
      implementation; [LinkTable] implements all of them together.
    - [SkipList], [SkipListInv], [SkipListSpec], [SkipListTable],
      [SkipListIter], [SkipListAlt]: memstore/memstore_skiplist, the table whose
      source is in the repository, with util/random.h and the lock of
      util/spinlock.h.  [SkipList] is the model; [SkipListInv] the interleaved
      runs of the build's insertion routine and their invariant;
      [SkipListSpec] the proof that each access keeps it; [SkipListTable] and
      [SkipListIter] what follows for the calls; [SkipListAlt] the two
      insertion routines that the build does not select.
    - [TxSets]: the read set and the write set of db/dbtx and db/delset.
    - [BPlusTree], [BPlusTreeInv], [BPlusTreeSpec], [SecondIndex]:
      memstore/secondindex*: the two B+ trees of the secondary indexes as one
      definition over a key order (class [KeyOrder]), their invariant, insertion
      with splits, the iterator, and the lists of records of a secondary key.
    - [DBTables]: db/dbtables and db/rmpool: the shared store, the per-thread
      pools, the delayed removal of records; [Catalog]: the constructors, the
      set-up of tables and the background threads.
    - [EpochGC]: db/epoch, db/gcqueue, db/nodebuf, db/rmqueue.
    - [DBTX]: db/dbtx: Begin, Get, Add, Delete, End and Abort of a read-write
      transaction; [DBTXIter]: its table iterator.
    - [DBROTX]: db/dbrotx: read-only transactions on a snapshot.
    - [SecondTX]: the operations of both kinds of transaction that go through a
      secondary index: the indexed Adds, GetByIndex, the two
      SecondaryIndexIterators.
    - [Serial], [SerialInv]: the threads of the store, interleaved.
    - [CRC32C]: util/crc32c; [Log], [LogSpec]: db/log_writer and db/log_reader, the
      log of LevelDB, and what the reader makes of what the writer wrote.
    - [SkipListSeq]: db/skiplist.h and [FineGrainLockInsert] of
      db/lockfreeSkiplist.h, for callers that exclude each other.
    - [InternalKey]: slices, comparators and db/dbformat (class [ComparatorSpec] is
      the contract of include/leveldb/comparator.h); [MemTable]: db/memtable;
      [WriteBatch]: db/write_batch.cc.
    - [WriteAhead]: of db/db_impl.cc the writers' queue with its groups, and the
      recovery of a log file.
    - [Bloom], [FilterBlock]: util/hash.cc, util/bloom.cc and table/filter_block
      (class [FilterPolicySpec] is the contract of a filter policy); [Block]:
      table/block_builder and table/block.
    - [Iterators]: include/leveldb/iterator.h and the wrapper of iterators (class
      [IteratorSpec] is what every iterator promises, against which its clients are
      proved); [TwoLevel], [Merger]: table/two_level_iterator.cc, table/merger.cc;
      [DBIter]: db/db_iter.cc.
    - [TableFormat], [TableBuilder], [Table]: table/format, table/table_builder.cc and
      table/table.cc, with the random-access files of util/env_posix.cc; the contracts
      of the Snappy library and of a block cache are the classes [SnappySpec] and
      [CacheSpec].

    A transaction ([DBTX]) finds its records through the table interface
    ([MemStore], [DBTables]), collects reads and writes in its sets ([TxSets]),
    and commits in one RTM region, which validates the reads and installs the
    writes; replaced versions go to the pools ([OBJPool]), deleted records to
    the removal list ([DBTables]), both are reused after a grace period
    ([RCU]).  Range scans ([DBTXIter]) record the links they pass, read-only
    transactions ([DBROTX]) read the versions that commits keep.  The earlier
    transactions ([DBTransaction]) validate sequence numbers in the hash table and
    keep all versions in the multi-version store.  In the LevelDB part a writer
    ([WriteAhead]) appends a batch ([WriteBatch]) of its group to the log ([Log],
    with checksums from [CRC32C]) and to the memory table ([MemTable]), a skip list
    ([SkipListSeq]) of internal keys ([InternalKey]); recovery reads the log back.
    Table files ([TableBuilder], [Table]) are blocks ([Block]) with filters
    ([FilterBlock]); a two-level iterator goes through a file, the merging one through
    several sequences of versions, and [DBIter] shows a snapshot of them.

    ** What the theorems show

    - Transactions: every interleaving of table accesses, RTM regions,
      collections and delayed removals is a serial run of the committed
      transactions in commit order ([dbtx_serializable]); [Get] returns the
      committed value, a scan returns the committed rows and sees no phantoms;
      a commit does not change what an open snapshot shows; a delayed removal
      removes no live value.
    - Earlier transactions: those that validate are serializable for all reads that
      are recorded; reads of empty nodes are not, with write skew as the result
      ([empty_node_unvalidated]); batches are sorted and answered.
    - Hardware transactions: regions are atomic whatever the hardware aborts, the
      lock excludes them, some thread can always move, and the number of retries
      is the stated one ([RTM]); this is what lets the other files take a region as
      one step.
    - Secondary indexes: what is put into an index is found by [GetByIndex],
      which records what a later insertion changes; the index iterators stand
      at the right key with exactly its visible rows; the arrays for the rows
      are long enough unless the node changes while they are allocated.
    - Memory: grace periods wait for every transaction that was running, and
      end; pools lose, duplicate and hand out twice no object; epochs compare
      soundly and queues free exactly what is over; arenas hand out disjoint
      pieces.
    - Tables: concurrent insertions into the skip list are linearizable, never
      fault and do not deadlock, an undisturbed call returns within a stated
      number of accesses, lookups and iterators answer from the table in key
      order; the hash table and the lock-free skip list are linearizable too; the
      reader-writer lock excludes; the B+ trees refine sorted association lists
      through all splits, their iterators survive insertions.
    - Log: records and integers are read back as they were written, the file
      holds every frozen buffer once and in order, the safe epoch stays behind
      every thread that publishes.
    - LevelDB: the checksum is the remainder by its polynomial; a log that is cut
      off anywhere gives back the records that are complete in it, and changed
      fragments are dropped; batches and blocks give back what was put into them;
      memory tables answer with the newest version a snapshot sees; filters reject
      no key they hold; table files give back their entries by iterators and single
      lookups ([table_roundtrip], [table_lookup]); merged sequences are in order, and an
      iterator over a snapshot shows the newest visible versions; writes are atomic and durable across a crash at any byte of
      the log ([crash_recovery]).
    - Errors: what happens on full rings and sets, on uninitialised locks and
      predecessors, and where the code loses a version, a record or a value;
      the examples of [SecondTX] run the paths on which the index iterators
      miss a key, do not move, or see a phantom.

    ** Modelling choices and bounds

    - Addresses are integers, null is 0; memory is a finite map per kind of
      object.  The allocator returns an address that is not in use; what fresh
      memory holds is a parameter where code reads it.  Memory of records that
      were removed is not given to other records in [Serial.step].
    - An RTM region is one atomic step, except in [RTM].  There the hardware keeps
      read and write sets, aborts a transaction when another thread writes to them,
      and may abort at any time with any status.  The accesses outside of regions
      are separate steps; memory is sequentially consistent.
    - Loops have fuel; the theorems show that the stated fuel is enough (the
      size of the table or heap, see [search_fuel], [insert_fuel]) or quantify
      over it.
    - Sequence numbers wrap at [2 ^ 64]; the runs of [Serial] are those with
      fewer than [max_writes] writes.
    - [RWLock] is correct for at most 16383 threads, the readers its counter can
      hold ([rwlock_wraps]); [DBTransaction] for fewer than [2 ^ 64] writes.  The
      hash function may collide; the comparator is a total order, and equal keys
      are equal values.
    - [LFSkipList] marks predecessors that were not set; the runs in which no thread
      lowers [max_height_] never read one ([height_race] is a run that does).
    - The build defines [NDEBUG], so assertions are absent; compile-time
      switches have the values of the source, except [PERSISTENT] for the log.
    - [LinkLaws] is what scans need of the links of a table; the tables with
      range scans are binary libraries, so the laws are assumed of them.
    - A secondary index is the state as one thread uses it: its preallocated
      node and wrapper are part of it.  Its lists are assumed shorter than
      [2 ^ 31], the range of the [int] that the arrays are allocated with.
    - Files of LevelDB are lists of bytes, whose calls may fail at any point where
      [Log] says so; strings are below 4 GB, batches hold fewer than [2 ^ 31]
      updates, sequence numbers stay below [2 ^ 56] and blocks below 2 GB; the
      entries of a table weigh at most [2 ^ 29] (keys, values and 64 bytes each), its
      file is below 4 GB.
    - Skip list runs assume that the allocator returns memory with a free lock
      word; [uninitialised_lock_hangs] shows that the code needs this.

    ** Not modelled

    The Eunomia tree and the HTM B+ tree (memstore/libmemstore_*.a are binaries
    without source); the variants of the hash table and of the transactions for byte
    strings (db/hashtable.cc, db/dbtransaction.cc, db/txmemstore.cc), which the
    templates replaced; of LevelDB compaction, versions, caches and the rest of the
    environment (the rest of db/db_impl.cc, db/version_set.cc, util/cache.cc,
    util/env_posix.cc); benchmarks, tests and boost headers.
    Printing, profiling and cache simulation are left out throughout. *)

From stdpp Require Export base numbers list gmap fin_maps sets relations.

#[global] Open Scope Z_scope.
#[global] Set Default Goal Selector "!".
#[global] Unset Program Cases.

(** ** Machine integers

    The C++ code computes on [uint64_t] and [uint32_t]; both are [Z] with the
    wrap-around written out. *)

Definition u64_modulus : Z := 2 ^ 64.

Definition u64 (z : Z) : Z := z mod u64_modulus.

Definition u32 (z : Z) : Z := z mod 2 ^ 32.

(** Conversion to a 32-bit [int]. *)
Definition s32 (z : Z) : Z := let z := u32 z in if z <? 2 ^ 31 then z else z - 2 ^ 32.

(** Addresses are 64-bit words, the null pointer is [0]. *)
Abbreviation addr := Z (only parsing).

Definition NULL : addr := 0.

(** ** Error monad

    A C++ operation that would crash, exit or read out of bounds returns
    [Fault]. *)

Inductive fault :=
  | NullDeref
  | OutOfBounds
  | UseOfFreed
  | ExitCall
  | Undefined
  | OutOfFuel.

Inductive result (A : Type) :=
  | Ok (a : A)
  | Fault (f : fault).

Arguments Ok {A} a.
Arguments Fault {A} f.

#[export] Instance result_ret : MRet result := fun A a => Ok a.

#[export] Instance result_bind : MBind result := fun A B k m =>
  match m with
  | Ok a => k a
  | Fault f => Fault f
  end.

Definition from_opt {A} (f : fault) (o : option A) : result A :=
  match o with
  | Some a => Ok a
  | None => Fault f
  end.

#[export] Instance fault_eq_dec : EqDecision fault.
Proof. solve_decision. Defined.

#[export] Instance result_eq_dec {A} `{EqDecision A} : EqDecision (result A).
Proof. solve_decision. Defined.

(** ** Proof automation *)

Create HintDb euno.

(** Decompose a successful run of monadic code. *)
Ltac inv_ok :=
  repeat match goal with
  | H : context [mbind _ _] |- _ => unfold mbind, result_bind in H
  | H : context [mret _] |- _ => unfold mret, result_ret in H
  | H : Ok _ = Ok _ |- _ => injection H as H
  | H : Fault _ = Ok _ |- _ => discriminate H
  | H : Ok _ = Fault _ |- _ => discriminate H
  | H : from_opt _ ?o = Ok _ |- _ =>
      let E := fresh "E" in destruct o eqn:E; simpl in H
  | H : match ?m with Ok _ => _ | Fault _ => _ end = Ok _ |- _ =>
      let E := fresh "E" in destruct m eqn:E
  end; try done.

(** ** Lemmas on machine integers *)

Lemma u64_range z : 0 <= u64 z < 2 ^ 64.
Proof. apply Z.mod_pos_bound. done. Qed.

Lemma u64_small z : 0 <= z < 2 ^ 64 -> u64 z = z.
Proof. intros ?. by apply Z.mod_small. Qed.

Lemma u64_idemp z : u64 (u64 z) = u64 z.
Proof. apply Z.mod_mod. done. Qed.

#[export] Hint Resolve u64_range u64_small : euno.

Lemma s32_small z : 0 <= z < 2 ^ 31 -> s32 z = z.
Proof. intros Hz. unfold s32, u32. rewrite Z.mod_small by lia. by rewrite (proj2 (Z.ltb_lt _ _)) by lia. Qed.

Lemma land_lnot c m : Z.land c (Z.lnot m) = c - Z.land c m.
Proof.
  rewrite Z.sub_nocarry_ldiff; (apply Z.bits_inj'; intros n Hn).
  - rewrite Z.land_spec, Z.lnot_spec, Z.ldiff_spec, Z.land_spec by done. by destruct (Z.testbit c n), (Z.testbit m n).
  - rewrite Z.ldiff_spec, Z.land_spec, Z.bits_0. by destruct (Z.testbit c n), (Z.testbit m n).
Qed.

Lemma land_range a b : 0 <= b -> 0 <= Z.land a b <= b.
Proof.
  intros Hb. split; [apply Z.land_nonneg; by right|].
  assert (0 <= Z.land b (Z.lnot a)) by (apply Z.land_nonneg; by left). rewrite land_lnot in *. rewrite Z.land_comm. lia.
Qed.

(** ** Lemmas on arrays *)

Section arrays.
Context {A : Type}.
Implicit Types (l : list A).

Lemma take_insert_snoc l (i : nat) x :
  (i < length l)%nat -> take (S i) (<[i := x]> l) = take i l ++ [x].
Proof.
  intros Hi. rewrite (take_S_r _ _ x).
  - by rewrite take_insert_ge.
  - by apply list_lookup_insert_eq.
Qed.

Lemma take_app_exact l l' : take (length l) (l ++ l') = l.
Proof. by rewrite take_app_length. Qed.

Lemma take_resize l (n k : nat) x :
  (n <= length l)%nat -> take n (take n l ++ replicate k x) = take n l.
Proof.
  intros Hn. rewrite take_app_le by (rewrite length_take; lia).
  by rewrite take_take, Nat.min_id.
Qed.

Lemma length_resize l (n m : nat) x :
  (n <= length l)%nat -> (n <= m)%nat -> length (take n l ++ replicate (m - n) x) = m.
Proof. intros. rewrite length_app, length_take, length_replicate. lia. Qed.

End arrays.

(** ** Linked lists in memory

    [chain nxt p xs q]: following the link [nxt] from [p] visits exactly the
    non-null cells [xs], in this order, and arrives at [q]. *)

Fixpoint chain (nxt : addr -> option addr) (p : addr) (xs : list addr) (q : addr) : Prop :=
  match xs with
  | [] => p = q
  | x :: xs' => p = x /\ x <> NULL /\ exists n, nxt x = Some n /\ chain nxt n xs' q
  end.

Lemma chain_ext nxt nxt' p xs q :
  (forall x, x ∈ xs -> nxt x = nxt' x) -> chain nxt p xs q -> chain nxt' p xs q.
Proof.
  revert p. induction xs as [|x xs IH]; intros p Hext; simpl; [done|].
  intros (-> & Hx & n & Hn & Hc). split_and!; [done..|].
  exists n. rewrite <- Hext by set_solver. split; [done|].
  apply IH; [|done]. intros y Hy. apply Hext. set_solver.
Qed.

Lemma chain_app nxt p xs ys q :
  chain nxt p (xs ++ ys) q <-> exists r, chain nxt p xs r /\ chain nxt r ys q.
Proof.
  revert p. induction xs as [|x xs IH]; intros p; simpl.
  - naive_solver.
  - setoid_rewrite IH. naive_solver.
Qed.

Lemma chain_non_null nxt p xs q : chain nxt p xs q -> NULL ∉ xs.
Proof.
  revert p. induction xs as [|x xs IH]; intros p; simpl; [set_solver|].
  intros (-> & Hx & n & _ & Hc). apply IH in Hc. set_solver.
Qed.

Lemma chain_null_nil nxt xs : chain nxt NULL xs NULL -> xs = [].
Proof. destruct xs; simpl; [done|]. naive_solver. Qed.

Lemma chain_head nxt p xs : chain nxt p xs NULL -> p <> NULL -> exists xs', xs = p :: xs'.
Proof. destruct xs; simpl; [done|]. intros (-> & _) _. eauto. Qed.

Lemma chain_insert (m : gmap addr addr) p xs q a v :
  a ∉ xs -> chain (m !!.) p xs q -> chain (<[a := v]> m !!.) p xs q.
Proof.
  intros Ha. apply chain_ext. intros x Hx. rewrite lookup_insert_ne; [done|].
  set_solver.
Qed.

Lemma chain_delete (m : gmap addr addr) p xs q a :
  a ∉ xs -> chain (m !!.) p xs q -> chain (delete a m !!.) p xs q.
Proof.
  intros Ha. apply chain_ext. intros x Hx. rewrite lookup_delete_ne; [done|].
  set_solver.
Qed.

Lemma chain_det nxt p xs ys : chain nxt p xs NULL -> chain nxt p ys NULL -> xs = ys.
Proof.
  revert p ys. induction xs as [|x xs IH]; intros p [|y ys]; simpl; [done|naive_solver..|].
  intros (-> & _ & n & Hn & Hc) (-> & _ & n' & Hn' & Hc'). simplify_eq. f_equal. eauto.
Qed.

(** A list that ends has no cycle. *)
Lemma chain_NoDup nxt p xs : chain nxt p xs NULL -> NoDup xs.
Proof.
  revert p. induction xs as [|x xs IH]; intros p Hc; [constructor|].
  pose proof Hc as (-> & Hx & n & Hn & Hc'). constructor; [|eauto].
  intros (l1 & l2 & ->)%list_elem_of_split.
  apply chain_app in Hc' as (r & _ & Hr). pose proof Hr as (-> & _).
  pose proof (f_equal length (chain_det _ _ _ _ Hc Hr)) as E. simpl in E. rewrite length_app in E. simpl in E. lia.
Qed.

(** A cell is linked in behind [p]. *)
Lemma chain_splice f g a zs p ys q x succ :
  chain f a (zs ++ p :: ys) q -> f p = Some succ -> g p = Some x -> g x = Some succ -> x <> NULL ->
  x ∉ zs ++ p :: ys -> p ∉ zs -> p ∉ ys -> (forall b, b <> p -> b <> x -> g b = f b) ->
  chain g a (zs ++ p :: x :: ys) q.
Proof.
  intros Hc Hp Hgp Hgx Hx Hxo Hpz Hpy Hg. apply chain_app in Hc as (r & Hz & Hr). destruct Hr as (-> & Hp0 & n & Hn & Hy).
  simplify_eq. assert (Hext : forall l : list addr, p ∉ l -> x ∉ l -> forall b, b ∈ l -> f b = g b).
  { intros l Hpl Hxl b Hb. symmetry. apply Hg; set_solver. }
  apply chain_app. exists p. split; [eapply chain_ext; [apply Hext; [done|set_solver]|done]|].
  cbn. split_and!; [done..|]. exists x. split; [done|]. split_and!; [done..|]. exists n. split; [done|].
  eapply chain_ext; [apply Hext; [done|set_solver]|done].
Qed.
