(* ===== verification/Coding.v ===== *)
(** * Encodings of integers

    util/coding.h and util/coding.cc (fixed-width and variable-length integers,
    length-prefixed slices), silo_benchmark/varint.h (variable-length 32-bit
    integers) and [write_uvint64] of persistent/lbuf.h.  A byte is a [Z] from 0
    to 255, a buffer or a [Slice] the list of its bytes; a function that writes
    through a pointer returns the bytes it writes, one that reads returns the
    value and the bytes after it. *)

From S2P Require Import Prelude.

Definition byte_of (v : Z) : Z := v mod 256.

(** A buffer of bytes. *)
Abbreviation bytes := (Forall (fun b : Z => 0 <= b < 256)).

(** ** util/coding: fixed width *)

(** The bytes of a little-endian integer, as [memcpy] stores them. *)
Fixpoint le_bytes (n : nat) (v : Z) : list Z :=
  match n with
  | O => []
  | S n => byte_of v :: le_bytes n (Z.shiftr v 8)
  end.

Fixpoint le_value (l : list Z) : Z :=
  match l with
  | [] => 0
  | b :: l => Z.lor b (Z.shiftl (le_value l) 8)
  end.

Definition EncodeFixed32 (value : Z) : list Z := le_bytes 4 value.
Definition EncodeFixed64 (value : Z) : list Z := le_bytes 8 value.

Definition PutFixed32 (dst : list Z) (value : Z) : list Z := dst ++ EncodeFixed32 value.
Definition PutFixed64 (dst : list Z) (value : Z) : list Z := dst ++ EncodeFixed64 value.

(** Reading past the buffer is a fault. *)
Definition DecodeFixed (n : nat) (p : list Z) : result Z :=
  if (n <=? length p)%nat then Ok (le_value (take n p)) else Fault OutOfBounds.

Definition DecodeFixed32 (p : list Z) : result Z := DecodeFixed 4 p.
Definition DecodeFixed64 (p : list Z) : result Z := DecodeFixed 8 p.

(** ** util/coding: variable length *)

Definition EncodeVarint32 (v : Z) : list Z :=
  let B := 128 in
  if v <? Z.shiftl 1 7 then [byte_of v]
  else if v <? Z.shiftl 1 14 then [byte_of (Z.lor v B); byte_of (Z.shiftr v 7)]
  else if v <? Z.shiftl 1 21 then
    [byte_of (Z.lor v B); byte_of (Z.lor (Z.shiftr v 7) B); byte_of (Z.shiftr v 14)]
  else if v <? Z.shiftl 1 28 then
    [byte_of (Z.lor v B); byte_of (Z.lor (Z.shiftr v 7) B); byte_of (Z.lor (Z.shiftr v 14) B);
     byte_of (Z.shiftr v 21)]
  else
    [byte_of (Z.lor v B); byte_of (Z.lor (Z.shiftr v 7) B); byte_of (Z.lor (Z.shiftr v 14) B);
     byte_of (Z.lor (Z.shiftr v 21) B); byte_of (Z.shiftr v 28)].

Definition PutVarint32 (dst : list Z) (v : Z) : list Z := dst ++ EncodeVarint32 v.

(** The loop has written at most nine bytes when the value is below 128. *)
Fixpoint EncodeVarint64_loop (fuel : nat) (v : Z) : result (list Z) :=
  if 128 <=? v then
    match fuel with
    | O => Fault OutOfFuel
    | S fuel =>
        l ← EncodeVarint64_loop fuel (Z.shiftr v 7);
        Ok (Z.lor (Z.land v 127) 128 :: l)
    end
  else Ok [byte_of v].

Definition EncodeVarint64 (v : Z) : result (list Z) := EncodeVarint64_loop 9 v.

(** The local array [buf] has ten bytes. *)
Definition PutVarint64 (dst : list Z) (v : Z) : result (list Z) :=
  l ← EncodeVarint64 v;
  if (length l <=? 10)%nat then Ok (dst ++ l) else Fault OutOfBounds.

Fixpoint VarintLength_loop (fuel : nat) (v : Z) (len : Z) : result Z :=
  if 128 <=? v then
    match fuel with
    | O => Fault OutOfFuel
    | S fuel => VarintLength_loop fuel (Z.shiftr v 7) (len + 1)
    end
  else Ok len.

Definition VarintLength (v : Z) : result Z := VarintLength_loop 9 v 1.

(** [PutVarint32(dst, value.size())] narrows the size. *)
Definition PutLengthPrefixedSlice (dst value : list Z) : list Z :=
  PutVarint32 dst (u32 (Z.of_nat (length value))) ++ value.

(** The loop of [GetVarint32PtrFallback] and [GetVarint64Ptr] for results of
    [width] bits; [None] is the null pointer. *)
Fixpoint GetVarint_loop (width last : Z) (p : list Z) (shift res : Z) : option (Z * list Z) :=
  if shift <=? last then
    match p with
    | [] => None
    | byte :: p =>
        if Z.land byte 128 =? 0
        then Some (Z.lor res (Z.shiftl byte shift mod 2 ^ width), p)
        else GetVarint_loop width last p (shift + 7)
               (Z.lor res (Z.shiftl (Z.land byte 127) shift mod 2 ^ width))
    end
  else None.

Definition GetVarint32PtrFallback (p : list Z) : option (Z * list Z) := GetVarint_loop 32 28 p 0 0.

Definition GetVarint32Ptr (p : list Z) : option (Z * list Z) :=
  match p with
  | byte :: rest => if Z.land byte 128 =? 0 then Some (byte, rest) else GetVarint32PtrFallback p
  | [] => GetVarint32PtrFallback p
  end.

Definition GetVarint64Ptr (p : list Z) : option (Z * list Z) := GetVarint_loop 64 63 p 0 0.

(** The [Slice] versions move the input on success. *)
Definition GetVarint32 (input : list Z) : option (Z * list Z) := GetVarint32Ptr input.
Definition GetVarint64 (input : list Z) : option (Z * list Z) := GetVarint64Ptr input.

Definition GetLengthPrefixedSlice (input : list Z) : option (list Z * list Z) :=
  match GetVarint32 input with
  | Some (len, input) =>
      if len <=? Z.of_nat (length input)
      then Some (take (Z.to_nat len) input, drop (Z.to_nat len) input)
      else None
  | None => None
  end.

(** ** silo_benchmark/varint.h *)

Fixpoint write_uvint32_loop (fuel : nat) (value : Z) : result (list Z) :=
  if 127 <? value then
    match fuel with
    | O => Fault OutOfFuel
    | S fuel =>
        l ← write_uvint32_loop fuel (Z.shiftr value 7);
        Ok (Z.lor (Z.land (byte_of value) 127) 128 :: l)
    end
  else Ok [Z.land (byte_of value) 127].

Definition write_uvint32 (value : Z) : result (list Z) := write_uvint32_loop 4 value.

Definition size_uvint32 (value : Z) : Z :=
  if value <=? 127 then 1
  else if value <=? Z.lor (Z.shiftl 127 7) 127 then 2
  else if value <=? Z.lor (Z.lor (Z.shiftl 127 14) (Z.shiftl 127 7)) 127 then 3
  else if value <=? Z.lor (Z.lor (Z.lor (Z.shiftl 127 21) (Z.shiftl 127 14)) (Z.shiftl 127 7)) 127 then 4
  else 5.

(** One line of [read_uvint32_slow]: the byte is read and the result is either
    complete or goes to the next line. *)
Definition uvint_line (mask shift : Z) (res : Z) (p : list Z)
    (k : Z -> list Z -> result (Z * list Z)) : result (Z * list Z) :=
  match p with
  | [] => Fault OutOfBounds
  | b :: p =>
      let res := Z.lor res (u32 (Z.shiftl (Z.land b mask) shift)) in
      if b <? 128 then Ok (res, p) else k res p
  end.

Definition read_uvint32_slow (buf : list Z) : result (Z * list Z) :=
  uvint_line 127 0 0 buf (fun res p =>
  uvint_line 127 7 res p (fun res p =>
  uvint_line 127 14 res p (fun res p =>
  uvint_line 127 21 res p (fun res p =>
  uvint_line 255 28 res p (fun res p => Fault ExitCall))))).

Definition read_uvint32 (buf : list Z) : result (Z * list Z) :=
  match buf with
  | [] => Fault OutOfBounds
  | b :: p => if b <? 128 then Ok (b, p) else read_uvint32_slow buf
  end.

(** The failsafe versions are given the [nbytes] that may be read; [None] is
    the null pointer.  A fifth byte with the high bit set is accepted. *)
Definition failsafe_line (mask shift : Z) (res : Z) (nbytes : nat) (p : list Z)
    (k : Z -> nat -> list Z -> result (option (Z * list Z))) : result (option (Z * list Z)) :=
  match nbytes with
  | O => Ok None
  | S nbytes =>
      match p with
      | [] => Fault OutOfBounds
      | b :: p =>
          let res := Z.lor res (u32 (Z.shiftl (Z.land b mask) shift)) in
          if b <? 128 then Ok (Some (res, p)) else k res nbytes p
      end
  end.

Definition failsafe_read_uvint32_slow (buf : list Z) (nbytes : nat) : result (option (Z * list Z)) :=
  failsafe_line 127 0 0 nbytes buf (fun res nbytes p =>
  failsafe_line 127 7 res nbytes p (fun res nbytes p =>
  failsafe_line 127 14 res nbytes p (fun res nbytes p =>
  failsafe_line 127 21 res nbytes p (fun res nbytes p =>
  failsafe_line 255 28 res nbytes p (fun res _ p => Ok (Some (res, p))))))).

Definition failsafe_read_uvint32 (stream : list Z) (nbytes : nat) : result (option (Z * list Z)) :=
  match nbytes, stream with
  | O, _ => Ok None
  | S _, [] => Fault OutOfBounds
  | S _, ch :: p => if ch <? 128 then Ok (Some (ch, p)) else failsafe_read_uvint32_slow stream nbytes
  end.

(** [skip_uvint32]: the count of bytes and, when [rawv] is given, its bytes. *)
Fixpoint skip_lines (n : nat) (stream : list Z) (rawv : list Z) : result (list Z) :=
  match n with
  | O => Fault ExitCall
  | S n =>
      match stream with
      | [] => Fault OutOfBounds
      | b :: stream => if b <? 128 then Ok (rawv ++ [b]) else skip_lines n stream (rawv ++ [b])
      end
  end.

Definition skip_uvint32 (stream : list Z) : result (Z * list Z) :=
  raw ← skip_lines 5 stream [];
  Ok (Z.of_nat (length raw), raw).

(** [failsafe_skip_uvint32]: 0 when the bytes run out. *)
Fixpoint failsafe_skip_lines (n : nat) (stream : list Z) (nbytes : nat) (rawv : list Z) : result (Z * list Z) :=
  match n with
  | O => Fault ExitCall
  | S n =>
      match nbytes with
      | O => Ok (0, rawv)
      | S nbytes =>
          match stream with
          | [] => Fault OutOfBounds
          | b :: stream =>
              if b <? 128 then Ok (Z.of_nat (length (rawv ++ [b])), rawv ++ [b])
              else failsafe_skip_lines n stream nbytes (rawv ++ [b])
          end
      end
  end.

Definition failsafe_skip_uvint32 (stream : list Z) (nbytes : nat) : result (Z * list Z) :=
  failsafe_skip_lines 5 stream nbytes [].

(** ** persistent/lbuf.h *)

Fixpoint write_uvint64_loop (fuel : nat) (value : Z) : result (list Z) :=
  if 127 <? value then
    match fuel with
    | O => Fault OutOfFuel
    | S fuel =>
        l ← write_uvint64_loop fuel (Z.shiftr value 7);
        Ok (Z.lor (Z.land (byte_of value) 127) 128 :: l)
    end
  else Ok [Z.land (byte_of value) 127].

Definition write_uvint64 (value : Z) : result (list Z) := write_uvint64_loop 9 value.

(** ** Bits of bytes *)

(** A property of bytes can be tested on all of them. *)
Lemma byte_case (P : Z -> bool) :
  forallb P (Z.of_nat <$> seq 0 256) = true -> forall b, 0 <= b < 256 -> P b = true.
Proof.
  intros Hall b Hb. rewrite forallb_forall in Hall. apply Hall.
  apply list_elem_of_In, list_elem_of_fmap. exists (Z.to_nat b). split; [lia|].
  apply elem_of_seq. lia.
Qed.

Lemma byte_high b : 0 <= b < 256 -> (Z.land b 128 =? 0) = (b <? 128).
Proof. intros Hb. apply eqb_prop. revert b Hb. apply byte_case. vm_compute. done. Qed.

Lemma land_127 v : Z.land v 127 = v mod 128.
Proof. exact (Z.land_ones v 7 ltac:(lia)). Qed.

Lemma shiftr_7 v : Z.shiftr v 7 = v / 128.
Proof. exact (Z.shiftr_div_pow2 v 7 ltac:(lia)). Qed.

Lemma byte_mod v : byte_of v mod 128 = v mod 128.
Proof. unfold byte_of. rewrite (Z.mod_mod_divide v 256 128); [done|by exists 2]. Qed.

(** Two numbers without common bits. *)
Lemma lor_add a b : Z.land a b = 0 -> Z.lor a b = a + b.
Proof. intros E. by rewrite Z.add_nocarry_lxor, Z.lxor_lor by done. Qed.

Lemma lor_shiftl a b n : 0 <= n -> 0 <= a < 2 ^ n -> Z.lor a (Z.shiftl b n) = a + b * 2 ^ n.
Proof.
  intros Hn Ha. rewrite lor_add; [by rewrite Z.shiftl_mul_pow2|].
  apply Z.bits_inj'. intros i Hi. rewrite Z.land_spec, Z.bits_0.
  destruct (Z.lt_ge_cases i n).
  - by rewrite Z.shiftl_spec_low, andb_false_r.
  - rewrite <- (Z.mod_small a (2 ^ n)), Z.mod_pow2_bits_high by lia. done.
Qed.

Lemma cont_byte v : Z.lor (v mod 128) 128 = v mod 128 + 128.
Proof.
  change 128 with (Z.shiftl 1 7) at 2. rewrite lor_shiftl; [done|lia|].
  apply Z.mod_pos_bound. lia.
Qed.

(** [v | B] cut to a byte *)
Lemma cont_byte' v : byte_of (Z.lor v 128) = v mod 128 + 128.
Proof.
  rewrite <- cont_byte. unfold byte_of. change 256 with (2 ^ 8). change 128 with (2 ^ 7) at 2.
  rewrite <- !Z.land_ones by lia. rewrite Z.land_lor_distr_l. change (Z.land 128 (Z.ones 8)) with 128.
  apply Z.bits_inj'. intros i Hi. rewrite !Z.lor_spec, !Z.land_spec, !Z.testbit_ones by lia.
  destruct (Z.eq_dec i 7) as [->|]; [by rewrite orb_true_r, orb_true_r|].
  replace (0 <=? i) with true by lia. simpl.
  replace (i <? 8) with (i <? 7); [done|].
  destruct (Z.ltb_spec i 7), (Z.ltb_spec i 8); lia.
Qed.

(** ** Variable-length encodings

    Seven bits per byte, low bits first, the high bit set on all but the last
    byte. *)

Inductive varint : Z -> list Z -> Prop :=
  | varint_last v : 0 <= v < 128 -> varint v [v]
  | varint_more v l : 128 <= v -> varint (v / 128) l -> varint v (v mod 128 + 128 :: l).

Lemma varint_det v l l' : varint v l -> varint v l' -> l = l'.
Proof.
  intros Hl. revert l'. induction Hl as [v Hv|v l Hv Hl IH]; intros l' Hl'; inversion Hl'; subst; try lia.
  - done.
  - f_equal. by apply IH.
Qed.

Lemma varint_nonneg v l : varint v l -> 0 <= v.
Proof. destruct 1; lia. Qed.

Lemma pow_128 n : 128 ^ Z.of_nat (S n) = 128 * 128 ^ Z.of_nat n.
Proof. rewrite Nat2Z.inj_succ, Z.pow_succ_r by lia. done. Qed.

(** The length of an encoding. *)
Lemma varint_length v l : varint v l ->
  (1 <= length l)%nat /\ v < 128 ^ Z.of_nat (length l) /\
  ((length l = 1%nat /\ v < 128) \/ 128 ^ Z.of_nat (length l - 1) <= v).
Proof.
  induction 1 as [v Hv|v l Hv Hl (H1l & Hlt & Hge)]; cbn [length].
  - change (128 ^ Z.of_nat 1) with 128. split_and!; lia.
  - rewrite pow_128. pose proof (Z.div_mod v 128 ltac:(lia)) as E.
    pose proof (Z.mod_pos_bound v 128 ltac:(lia)) as Hm. split_and!; [lia|nia|right].
    replace (S (length l) - 1)%nat with (length l) by lia. destruct Hge as [[-> Hlt']|Hge]; [done|].
    destruct (length l) as [|n]; [lia|]. rewrite pow_128. replace (S n - 1)%nat with n in Hge by lia. nia.
Qed.

(** Longer than [n] bytes means [7 * n] bits are not enough. *)
Lemma varint_length_le v l n : (1 <= n)%nat -> varint v l ->
  (length l <= n)%nat <-> v < 128 ^ Z.of_nat n.
Proof.
  intros Hn Hl. destruct (varint_length v l Hl) as (H1l & Hlt & Hge). split; intros Hle.
  - eapply Z.lt_le_trans; [exact Hlt|]. apply Z.pow_le_mono_r; lia.
  - destruct (le_gt_dec (length l) n) as [|Hgt]; [done|]. exfalso.
    assert (128 ^ Z.of_nat n <= 128 ^ Z.of_nat (length l - 1)) by (apply Z.pow_le_mono_r; lia).
    assert (128 <= 128 ^ Z.of_nat n).
    { change 128 with (128 ^ 1) at 1. apply Z.pow_le_mono_r; lia. }
    lia.
Qed.

(** *** The encoders *)

Lemma EncodeVarint64_loop_varint : forall fuel v, 0 <= v < 128 ^ Z.of_nat (S fuel) ->
  exists l, EncodeVarint64_loop fuel v = Ok l /\ varint v l.
Proof.
  induction fuel as [|fuel IH]; intros v Hv; cbn [EncodeVarint64_loop];
    destruct (Z.leb_spec 128 v) as [Hge|Hlt].
  - change (128 ^ Z.of_nat 1) with 128 in Hv. lia.
  - exists [v]. unfold byte_of. rewrite Z.mod_small by lia. split; [done|apply varint_last; lia].
  - rewrite shiftr_7. rewrite pow_128 in Hv. destruct (IH (v / 128)) as (l & -> & Hl).
    { split; [apply Z.div_pos; lia|]. apply Z.div_lt_upper_bound; lia. }
    unfold mbind, result_bind. rewrite land_127, cont_byte. eexists. split; [done|]. by apply varint_more.
  - exists [v]. unfold byte_of. rewrite Z.mod_small by lia. split; [done|apply varint_last; lia].
Qed.

Lemma write_uvint64_loop_varint : forall fuel v, 0 <= v < 128 ^ Z.of_nat (S fuel) ->
  exists l, write_uvint64_loop fuel v = Ok l /\ varint v l.
Proof.
  induction fuel as [|fuel IH]; intros v Hv; cbn [write_uvint64_loop];
    destruct (Z.ltb_spec 127 v) as [Hge|Hlt].
  - change (128 ^ Z.of_nat 1) with 128 in Hv. lia.
  - exists [v]. rewrite land_127, byte_mod, Z.mod_small by lia. split; [done|apply varint_last; lia].
  - rewrite shiftr_7. rewrite pow_128 in Hv. destruct (IH (v / 128)) as (l & -> & Hl).
    { split; [apply Z.div_pos; lia|]. apply Z.div_lt_upper_bound; lia. }
    unfold mbind, result_bind. rewrite land_127, byte_mod, cont_byte. eexists. split; [done|].
    apply varint_more; [lia|done].
  - exists [v]. rewrite land_127, byte_mod, Z.mod_small by lia. split; [done|apply varint_last; lia].
Qed.

(** The two [write_uvint]s are the same loop. *)
Lemma write_uvint32_loop_eq fuel v : write_uvint32_loop fuel v = write_uvint64_loop fuel v.
Proof. revert v. induction fuel as [|fuel IH]; intros v; simpl; [done|]. by rewrite IH. Qed.

Lemma EncodeVarint64_varint v : 0 <= v < 2 ^ 64 -> exists l, EncodeVarint64 v = Ok l /\ varint v l.
Proof. intros Hv. apply EncodeVarint64_loop_varint. change (128 ^ Z.of_nat 10) with (2 ^ 70). lia. Qed.

Lemma write_uvint64_varint v : 0 <= v < 2 ^ 64 -> exists l, write_uvint64 v = Ok l /\ varint v l.
Proof. intros Hv. apply write_uvint64_loop_varint. change (128 ^ Z.of_nat 10) with (2 ^ 70). lia. Qed.

Lemma write_uvint32_varint v : 0 <= v < 2 ^ 32 -> exists l, write_uvint32 v = Ok l /\ varint v l.
Proof.
  intros Hv. unfold write_uvint32. rewrite write_uvint32_loop_eq. apply write_uvint64_loop_varint.
  change (128 ^ Z.of_nat 5) with (2 ^ 35). lia.
Qed.

Lemma byte_of_small v : 0 <= v < 128 -> byte_of v = v.
Proof. intros. apply Z.mod_small. lia. Qed.

Lemma EncodeVarint32_varint v : 0 <= v < 2 ^ 32 -> varint v (EncodeVarint32 v).
Proof.
  intros Hv. unfold EncodeVarint32.
  change (Z.shiftl 1 7) with 128. change (Z.shiftl 1 14) with 16384. change (Z.shiftl 1 21) with 2097152.
  change (Z.shiftl 1 28) with 268435456. rewrite !cont_byte'.
  assert (Z.shiftr v 14 = v / 128 / 128) as E14 by (rewrite Z.shiftr_div_pow2, Z.div_div by lia; done).
  assert (Z.shiftr v 21 = v / 128 / 128 / 128) as E21
    by (rewrite Z.shiftr_div_pow2, !Z.div_div by lia; done).
  assert (Z.shiftr v 28 = v / 128 / 128 / 128 / 128) as E28
    by (rewrite Z.shiftr_div_pow2, !Z.div_div by lia; done).
  rewrite E14, E21, E28, shiftr_7.
  destruct (Z.ltb_spec v 128); [rewrite byte_of_small by lia; apply varint_last; lia|].
  destruct (Z.ltb_spec v 16384); [|destruct (Z.ltb_spec v 2097152); [|destruct (Z.ltb_spec v 268435456)]];
    rewrite byte_of_small by (Z.to_euclidean_division_equations; lia);
    repeat (apply varint_more; [Z.to_euclidean_division_equations; lia|]);
    apply varint_last; Z.to_euclidean_division_equations; lia.
Qed.

(** *** The decoders *)

Lemma varint_byte v b l : varint v (b :: l) -> 0 <= b < 256 /\ (b < 128 -> v = b /\ l = []) /\
  (128 <= b -> 128 <= v /\ b mod 128 = v mod 128 /\ varint (v / 128) l).
Proof.
  intros Hl. inversion Hl as [v' Hv|v' l' Hv Hl']; subst.
  - split; [lia|]. split; [done|lia].
  - pose proof (Z.mod_pos_bound v 128 ltac:(lia)). split; [lia|]. split; [lia|]. intros _. split_and!; try done.
    rewrite <- Z.add_mod_idemp_r, Z_mod_same_full, Z.add_0_r, Z.mod_mod by lia. done.
Qed.

(** Adding the next seven bits to a partial result. *)
Lemma lor_digit width d shift res :
  0 <= shift -> 0 <= res < 2 ^ shift -> 0 <= d -> d * 2 ^ shift < 2 ^ width -> 0 <= width ->
  Z.lor res (Z.shiftl d shift mod 2 ^ width) = res + d * 2 ^ shift.
Proof.
  intros Hs Hr Hd Hlt Hw. rewrite Z.mod_small; [by apply lor_shiftl|].
  rewrite Z.shiftl_mul_pow2 by done. nia.
Qed.

(** What is left after one byte. *)
Lemma digit_step v shift res :
  0 <= shift -> 0 <= res < 2 ^ shift -> 0 <= v ->
  0 <= res + v mod 128 * 2 ^ shift < 2 ^ (shift + 7) /\
  res + v mod 128 * 2 ^ shift + v / 128 * 2 ^ (shift + 7) = res + v * 2 ^ shift.
Proof.
  intros Hs Hr Hv. pose proof (Z.mod_pos_bound v 128 ltac:(lia)).
  pose proof (Z.div_mod v 128 ltac:(lia)). rewrite Z.pow_add_r by lia. change (2 ^ 7) with 128.
  set (p := 2 ^ shift) in *. split; nia.
Qed.

Lemma digit_fits width v shift res :
  0 <= shift -> 0 <= res -> 0 <= v -> res + v * 2 ^ shift < 2 ^ width -> v mod 128 * 2 ^ shift < 2 ^ width.
Proof.
  intros Hs Hr Hv Hlt. assert (v mod 128 <= v) by (by apply Z.mod_le; lia).
  assert (0 < 2 ^ shift) by (apply Z.pow_pos_nonneg; lia). nia.
Qed.

Lemma GetVarint_loop_varint width last rest : 0 <= width -> forall l v shift res,
  varint v l -> 0 <= shift -> shift + 7 * (Z.of_nat (length l) - 1) <= last ->
  0 <= res < 2 ^ shift -> res + v * 2 ^ shift < 2 ^ width ->
  GetVarint_loop width last (l ++ rest) shift res = Some (res + v * 2 ^ shift, rest).
Proof.
  intros Hw. induction l as [|b l IH]; intros v shift res Hl Hs Hlast Hres Hfit; [inversion Hl|].
  cbn [length] in Hlast. simpl. replace (shift <=? last) with true by lia.
  pose proof (varint_nonneg _ _ Hl) as Hv. destruct (varint_byte v b l Hl) as (Hb & Hlow & Hhigh).
  rewrite byte_high by done. destruct (Z.ltb_spec b 128) as [Hlt|Hge].
  - destruct (Hlow Hlt) as [-> ->]. simpl. rewrite lor_digit; try done; lia.
  - destruct (Hhigh Hge) as (Hv' & Hm & Hl'). rewrite land_127, Hm.
    destruct (digit_step v shift res Hs Hres Hv) as [Hres' Heq].
    assert (0 <= v mod 128) by (apply Z.mod_pos_bound; lia).
    rewrite lor_digit; try done; [|apply (digit_fits width v shift res); lia].
    rewrite (IH (v / 128)); try done; try lia. by rewrite Heq.
Qed.

Lemma GetVarint64_varint v l rest :
  varint v l -> v < 2 ^ 64 -> GetVarint64 (l ++ rest) = Some (v, rest).
Proof.
  intros Hl Hv. unfold GetVarint64, GetVarint64Ptr. pose proof (varint_nonneg _ _ Hl).
  assert (length l <= 10)%nat.
  { apply (varint_length_le v l 10); [lia|done|]. change (128 ^ Z.of_nat 10) with (2 ^ 70). lia. }
  rewrite (GetVarint_loop_varint 64 63 rest ltac:(lia) l v 0 0); try done; try lia.
  do 2 f_equal. lia.
Qed.

Lemma GetVarint32_varint v l rest :
  varint v l -> v < 2 ^ 32 -> GetVarint32 (l ++ rest) = Some (v, rest).
Proof.
  intros Hl Hv. unfold GetVarint32, GetVarint32Ptr, GetVarint32PtrFallback. pose proof (varint_nonneg _ _ Hl).
  assert (length l <= 5)%nat.
  { apply (varint_length_le v l 5); [lia|done|]. change (128 ^ Z.of_nat 5) with (2 ^ 35). lia. }
  assert (GetVarint_loop 32 28 (l ++ rest) 0 0 = Some (v, rest)) as E.
  { rewrite (GetVarint_loop_varint 32 28 rest ltac:(lia) l v 0 0); try done; try lia.
    do 2 f_equal. lia. }
  destruct l as [|b l]; [inversion Hl|]. cbn [app] in *. destruct (varint_byte v b l Hl) as (Hb & Hlow & _).
  rewrite byte_high by done. destruct (Z.ltb_spec b 128) as [Hlt|]; [|exact E].
  by destruct (Hlow Hlt) as [-> ->].
Qed.

(** The lines of the unrolled loops. *)
Lemma line_digit v b l shift res :
  varint v (b :: l) -> 0 <= shift -> 0 <= res < 2 ^ shift -> res + v * 2 ^ shift < 2 ^ 32 ->
  (b < 128 -> forall mask, mask = 127 \/ mask = 255 ->
     Z.lor res (u32 (Z.shiftl (Z.land b mask) shift)) = res + v * 2 ^ shift) /\
  (128 <= b -> Z.lor res (u32 (Z.shiftl (Z.land b 127) shift)) = res + v mod 128 * 2 ^ shift).
Proof.
  intros Hl Hs Hres Hfit. pose proof (varint_nonneg _ _ Hl) as Hv.
  destruct (varint_byte v b l Hl) as (Hb & Hlow & Hhigh). unfold u32. split.
  - intros Hlt mask Hmask. destruct (Hlow Hlt) as [-> ->].
    assert (Z.land b mask = b) as ->.
    { destruct Hmask as [->| ->]; [rewrite land_127|change 255 with (Z.ones 8); rewrite Z.land_ones by lia];
        apply Z.mod_small; lia. }
    apply lor_digit; lia.
  - intros Hge. destruct (Hhigh Hge) as (Hv' & Hm & Hl'). rewrite land_127, Hm.
    assert (0 <= v mod 128) by (apply Z.mod_pos_bound; lia).
    apply lor_digit; try lia. apply (digit_fits 32 v shift res); lia.
Qed.

(** A reader of [n] more bytes. *)
Definition reads (n : nat) (shift : Z) (k : Z -> list Z -> result (Z * list Z)) : Prop :=
  forall v l res rest, varint v l -> (length l <= n)%nat -> 0 <= res < 2 ^ shift ->
  res + v * 2 ^ shift < 2 ^ 32 -> k res (l ++ rest) = Ok (res + v * 2 ^ shift, rest).

Lemma uvint_line_last mask shift k :
  0 <= shift -> mask = 127 \/ mask = 255 -> reads 1 shift (fun res p => uvint_line mask shift res p k).
Proof.
  intros Hs Hm v l res rest Hl Hn Hres Hfit. destruct l as [|b [|]]; simpl in Hn; [inversion Hl| |lia].
  destruct (line_digit v b [] shift res Hl Hs Hres Hfit) as [Hlow _].
  assert (b < 128) as Hlt.
  { inversion Hl as [|? ? ? Hnil]; subst; [lia|inversion Hnil]. }
  simpl. replace (b <? 128) with true by lia. by rewrite Hlow.
Qed.

Lemma uvint_line_more n shift k :
  0 <= shift -> reads n (shift + 7) k -> reads (S n) shift (fun res p => uvint_line 127 shift res p k).
Proof.
  intros Hs Hk v l res rest Hl Hn Hres Hfit. destruct l as [|b l]; [inversion Hl|].
  destruct (line_digit v b l shift res Hl Hs Hres Hfit) as [Hlow Hhigh].
  destruct (varint_byte v b l Hl) as (Hb & Hblow & Hbhigh). pose proof (varint_nonneg _ _ Hl) as Hv.
  simpl. destruct (Z.ltb_spec b 128) as [Hlt|Hge].
  - rewrite Hlow by (try done; by left). by destruct (Hblow Hlt) as [_ ->].
  - rewrite Hhigh by done. destruct (Hbhigh Hge) as (_ & _ & Hl').
    destruct (digit_step v shift res Hs Hres Hv) as [Hres' Heq].
    rewrite (Hk (v / 128) l); try done; [by rewrite Heq|simpl in Hn; lia|lia].
Qed.

Lemma slow_lines_read : reads 5 0 (fun res p =>
  uvint_line 127 0 res p (fun res p =>
  uvint_line 127 7 res p (fun res p =>
  uvint_line 127 14 res p (fun res p =>
  uvint_line 127 21 res p (fun res p =>
  uvint_line 255 28 res p (fun _ _ => Fault ExitCall)))))).
Proof. do 4 (apply uvint_line_more; [lia|]). apply uvint_line_last; [lia|by right]. Qed.

Lemma read_uvint32_varint v l rest :
  varint v l -> v < 2 ^ 32 -> read_uvint32 (l ++ rest) = Ok (v, rest).
Proof.
  intros Hl Hv. pose proof (varint_nonneg _ _ Hl).
  assert (length l <= 5)%nat as Hn.
  { apply (varint_length_le v l 5); [lia|done|]. change (128 ^ Z.of_nat 5) with (2 ^ 35). lia. }
  assert (read_uvint32_slow (l ++ rest) = Ok (v, rest)) as E.
  { etrans; [apply (slow_lines_read v l 0 rest Hl Hn); lia|]. do 2 f_equal. lia. }
  destruct l as [|b l]; [inversion Hl|]. cbn [app read_uvint32] in *.
  destruct (varint_byte v b l Hl) as (Hb & Hlow & _).
  destruct (Z.ltb_spec b 128) as [Hlt|]; [|exact E]. by destruct (Hlow Hlt) as [-> ->].
Qed.

(** *** Failing safely

    The failsafe reader on at most [nbytes] bytes: the answer of the plain
    reader when the encoding fits, the null pointer when it does not. *)

Definition reads_within (n : nat) (shift : Z) (k : Z -> nat -> list Z -> result (option (Z * list Z))) : Prop :=
  forall v l res rest nbytes, varint v l -> (length l <= n)%nat -> 0 <= res < 2 ^ shift ->
  res + v * 2 ^ shift < 2 ^ 32 ->
  k res nbytes (l ++ rest) =
    Ok (if (length l <=? nbytes)%nat then Some (res + v * 2 ^ shift, rest) else None).

Lemma failsafe_line_last mask shift k :
  0 <= shift -> mask = 127 \/ mask = 255 ->
  reads_within 1 shift (fun res nbytes p => failsafe_line mask shift res nbytes p k).
Proof.
  intros Hs Hm v l res rest nbytes Hl Hn Hres Hfit.
  destruct l as [|b [|]]; simpl in Hn; [inversion Hl| |lia].
  destruct (line_digit v b [] shift res Hl Hs Hres Hfit) as [Hlow _].
  assert (b < 128) as Hlt.
  { inversion Hl as [|? ? ? Hnil]; subst; [lia|inversion Hnil]. }
  destruct nbytes as [|nbytes]; [done|]. simpl. replace (b <? 128) with true by lia. by rewrite Hlow.
Qed.

Lemma failsafe_line_more n shift k :
  0 <= shift -> reads_within n (shift + 7) k ->
  reads_within (S n) shift (fun res nbytes p => failsafe_line 127 shift res nbytes p k).
Proof.
  intros Hs Hk v l res rest nbytes Hl Hn Hres Hfit. destruct l as [|b l]; [inversion Hl|].
  destruct (line_digit v b l shift res Hl Hs Hres Hfit) as [Hlow Hhigh].
  destruct (varint_byte v b l Hl) as (Hb & Hblow & Hbhigh). pose proof (varint_nonneg _ _ Hl) as Hv.
  destruct nbytes as [|nbytes]; [done|]. simpl. destruct (Z.ltb_spec b 128) as [Hlt|Hge].
  - rewrite Hlow by (try done; by left). by destruct (Hblow Hlt) as [_ ->].
  - rewrite Hhigh by done. destruct (Hbhigh Hge) as (_ & _ & Hl').
    destruct (digit_step v shift res Hs Hres Hv) as [Hres' Heq].
    rewrite (Hk (v / 128) l); try done; [by rewrite Heq|simpl in Hn; lia|lia].
Qed.

Lemma failsafe_lines_read : reads_within 5 0 (fun res nbytes p =>
  failsafe_line 127 0 res nbytes p (fun res nbytes p =>
  failsafe_line 127 7 res nbytes p (fun res nbytes p =>
  failsafe_line 127 14 res nbytes p (fun res nbytes p =>
  failsafe_line 127 21 res nbytes p (fun res nbytes p =>
  failsafe_line 255 28 res nbytes p (fun res _ p => Ok (Some (res, p)))))))).
Proof. do 4 (apply failsafe_line_more; [lia|]). apply failsafe_line_last; [lia|by right]. Qed.

Lemma failsafe_read_uvint32_varint v l rest nbytes :
  varint v l -> v < 2 ^ 32 ->
  failsafe_read_uvint32 (l ++ rest) nbytes =
    Ok (if (length l <=? nbytes)%nat then Some (v, rest) else None).
Proof.
  intros Hl Hv. pose proof (varint_nonneg _ _ Hl).
  assert (length l <= 5)%nat as Hn.
  { apply (varint_length_le v l 5); [lia|done|]. change (128 ^ Z.of_nat 5) with (2 ^ 35). lia. }
  assert (failsafe_read_uvint32_slow (l ++ rest) nbytes =
    Ok (if (length l <=? nbytes)%nat then Some (v, rest) else None)) as E.
  { etrans; [apply (failsafe_lines_read v l 0 rest nbytes Hl Hn); lia|].
    case_match; [|done]. do 3 f_equal. lia. }
  destruct l as [|b l]; [inversion Hl|]. cbn [app] in *.
  destruct nbytes as [|nbytes]; [done|]. unfold failsafe_read_uvint32. destruct (varint_byte v b l Hl) as (Hb & Hlow & _).
  destruct (Z.ltb_spec b 128) as [Hlt|]; [|exact E]. by destruct (Hlow Hlt) as [-> ->].
Qed.

Lemma skip_lines_varint rest : forall n v l raw,
  varint v l -> (length l <= n)%nat -> skip_lines n (l ++ rest) raw = Ok (raw ++ l).
Proof.
  induction n as [|n IH]; intros v l raw Hl Hn; (destruct l as [|b l]; [inversion Hl|]); simpl in Hn; [lia|].
  simpl. destruct (varint_byte v b l Hl) as (Hb & Hlow & Hhigh). destruct (Z.ltb_spec b 128) as [Hlt|Hge].
  - by destruct (Hlow Hlt) as [_ ->].
  - destruct (Hhigh Hge) as (_ & _ & Hl'). rewrite (IH (v / 128)) by (try done; lia). by rewrite <- app_assoc.
Qed.

Lemma VarintLength_loop_varint : forall l fuel v len,
  varint v l -> (length l <= S fuel)%nat -> VarintLength_loop fuel v len = Ok (len + Z.of_nat (length l) - 1).
Proof.
  induction l as [|b l IH]; intros fuel v len Hl Hn; [inversion Hl|].
  inversion Hl as [v' Hv|v' l' Hv Hl']; subst.
  - destruct fuel; simpl; replace (128 <=? b) with false by lia; f_equal; lia.
  - destruct fuel as [|fuel]; [destruct l; simpl in Hn; [inversion Hl'|lia]|].
    cbn [VarintLength_loop]. replace (128 <=? v) with true by lia. rewrite shiftr_7.
    rewrite (IH fuel (v / 128)) by (try done; simpl in Hn; lia). f_equal. simpl. lia.
Qed.

(** ** Results *)

Lemma le_value_bytes : forall n v, 0 <= v < 256 ^ Z.of_nat n -> le_value (le_bytes n v) = v.
Proof.
  induction n as [|n IH]; intros v Hv; simpl; [change (256 ^ Z.of_nat 0) with 1 in Hv; lia|].
  rewrite Nat2Z.inj_succ, Z.pow_succ_r in Hv by lia.
  rewrite Z.shiftr_div_pow2 by lia. change (2 ^ 8) with 256. rewrite IH.
  - unfold byte_of. change 256 with (2 ^ 8).
    rewrite lor_shiftl by (try apply Z.mod_pos_bound; lia). pose proof (Z.div_mod v (2 ^ 8) ltac:(lia)). lia.
  - split; [apply Z.div_pos; lia|]. apply Z.div_lt_upper_bound; lia.
Qed.

Lemma length_le_bytes n v : length (le_bytes n v) = n.
Proof. revert v. induction n; intros v; simpl; auto. Qed.

Lemma DecodeFixed_le n v rest :
  0 <= v < 256 ^ Z.of_nat n -> DecodeFixed n (le_bytes n v ++ rest) = Ok v.
Proof.
  intros Hv. unfold DecodeFixed. rewrite length_app, length_le_bytes.
  replace (n <=? n + length rest)%nat with true by (symmetry; apply Nat.leb_le; lia).
  rewrite take_app_length' by (by rewrite length_le_bytes). by rewrite le_value_bytes.
Qed.

Lemma le_bytes_bytes n v : bytes (le_bytes n v).
Proof. revert v. induction n as [|n IH]; intros v; cbn; constructor; [apply Z.mod_pos_bound; lia|apply IH]. Qed.

Lemma varint_bytes v l : varint v l -> bytes l.
Proof. induction 1 as [v Hv|v l Hv Hl IH]; constructor; [lia|constructor| |done]. pose proof (Z.mod_pos_bound v 128). lia. Qed.

(** An array of words. *)
Lemma word_at ws i w rest : ws !! i = Some w -> 0 <= w < 2 ^ 32 -> DecodeFixed32 (drop (4 * i) (concat (map EncodeFixed32 ws) ++ rest)) = Ok w.
Proof.
  revert i. induction ws as [|v ws IH]; intros i Hi Hw; [done|]. cbn [map concat]. destruct i as [|i]; cbn [lookup list_lookup] in Hi.
  - injection Hi as ->. cbn [Nat.mul drop]. rewrite <- app_assoc. by apply (DecodeFixed_le 4).
  - assert (H4 : length (EncodeFixed32 v) = 4%nat) by apply length_le_bytes. rewrite <- app_assoc.
    replace (4 * S i)%nat with (length (EncodeFixed32 v) + 4 * i)%nat by lia. rewrite drop_app_add. by apply IH.
Qed.

Lemma length_words ws : length (concat (map EncodeFixed32 ws)) = (4 * length ws)%nat.
Proof. induction ws as [|w ws IH]; [done|]. cbn [map concat length]. rewrite length_app, IH. unfold EncodeFixed32. rewrite length_le_bytes. lia. Qed.

Lemma slice_read s rest : Z.of_nat (length s) < 2 ^ 32 ->
  GetLengthPrefixedSlice (PutLengthPrefixedSlice [] s ++ rest) = Some (s, rest).
Proof.
  intros Hs. unfold PutLengthPrefixedSlice, PutVarint32, GetLengthPrefixedSlice, u32. cbn [app].
  rewrite Z.mod_small, <- app_assoc by lia.
  rewrite (GetVarint32_varint (Z.of_nat (length s))) by (try (apply EncodeVarint32_varint); lia).
  rewrite length_app, (proj2 (Z.leb_le _ _)) by lia.
  by rewrite Nat2Z.id, take_app_length, drop_app_length.
Qed.

(** An encoding that is cut off is not read. *)
Lemma GetVarint_loop_cut width last v l : varint v l -> forall n shift res, (n < length l)%nat ->
  GetVarint_loop width last (take n l) shift res = None.
Proof.
  induction 1 as [v Hv|v l Hv Hl IH]; intros n shift res Hn.
  - destruct n as [|n]; [|cbn in Hn; lia]. cbn. by destruct (shift <=? last).
  - destruct n as [|n]; cbn [take GetVarint_loop]; destruct (shift <=? last); [done..| |done].
    pose proof (Z.mod_pos_bound v 128 ltac:(lia)). rewrite byte_high by lia. rewrite (proj2 (Z.ltb_ge _ _)) by lia.
    apply IH. cbn in Hn. lia.
Qed.

Lemma GetVarint32_cut v l n : varint v l -> (n < length l)%nat -> GetVarint32 (take n l) = None.
Proof.
  intros Hl Hn. pose proof (GetVarint_loop_cut 32 28 v l Hl n 0 0 Hn) as Hc. unfold GetVarint32, GetVarint32Ptr, GetVarint32PtrFallback.
  destruct Hl as [v Hv|v l Hv Hl]; [destruct n; [done|cbn in Hn; lia]|]. destruct n as [|n]; [done|]. cbn [take] in *.
  pose proof (Z.mod_pos_bound v 128 ltac:(lia)). rewrite byte_high by lia. rewrite (proj2 (Z.ltb_ge _ _)) by lia. done.
Qed.

Lemma slice_cut s n : Z.of_nat (length s) < 2 ^ 32 -> (n < length (PutLengthPrefixedSlice [] s))%nat ->
  GetLengthPrefixedSlice (take n (PutLengthPrefixedSlice [] s)) = None.
Proof.
  intros Hs. unfold PutLengthPrefixedSlice, PutVarint32, GetLengthPrefixedSlice, u32. cbn [app]. rewrite Z.mod_small by lia.
  pose proof (EncodeVarint32_varint (Z.of_nat (length s)) ltac:(lia)) as Hl. set (l := EncodeVarint32 _) in *.
  rewrite length_app, take_app. intros Hn. destruct (le_lt_dec (length l) n) as [Hle|Hlt].
  - rewrite take_ge, (GetVarint32_varint _ _ _ Hl) by lia. rewrite length_take, (proj2 (Z.leb_gt _ _)) by lia. done.
  - replace (n - length l)%nat with 0%nat by lia. rewrite take_0, app_nil_r. by rewrite (GetVarint32_cut _ _ _ Hl).
Qed.

(** C39: What [PutVarint64], [PutVarint32], [PutFixed64], [PutFixed32] and
    [PutLengthPrefixedSlice] append, the corresponding [Get] and [Decode]
    functions read back, leaving the input just behind it, for every 64-bit or
    32-bit value and every slice of less than 4 GB. *)
Theorem coding_roundtrip :
  (forall v rest, 0 <= v < 2 ^ 64 -> exists l, PutVarint64 [] v = Ok l /\ GetVarint64 (l ++ rest) = Some (v, rest)) /\
  (forall v rest, 0 <= v < 2 ^ 32 -> GetVarint32 (PutVarint32 [] v ++ rest) = Some (v, rest)) /\
  (forall v rest, 0 <= v < 2 ^ 64 -> DecodeFixed64 (PutFixed64 [] v ++ rest) = Ok v) /\
  (forall v rest, 0 <= v < 2 ^ 32 -> DecodeFixed32 (PutFixed32 [] v ++ rest) = Ok v) /\
  (forall s rest, Z.of_nat (length s) < 2 ^ 32 ->
     GetLengthPrefixedSlice (PutLengthPrefixedSlice [] s ++ rest) = Some (s, rest)).
Proof.
  split_and!.
  - intros v rest Hv. destruct (EncodeVarint64_varint v Hv) as (l & E & Hl). exists l.
    unfold PutVarint64. rewrite E. unfold mbind, result_bind.
    replace (length l <=? 10)%nat with true; [split; [done|]; apply GetVarint64_varint; [done|lia]|].
    symmetry. apply Nat.leb_le, (varint_length_le v l 10); [lia|done|].
    change (128 ^ Z.of_nat 10) with (2 ^ 70). lia.
  - intros v rest Hv. apply GetVarint32_varint; [by apply EncodeVarint32_varint|lia].
  - intros v rest Hv. by apply (DecodeFixed_le 8).
  - intros v rest Hv. by apply (DecodeFixed_le 4).
  - apply slice_read.
Qed.

(** C40: The three ways to write a variable-length integer in the repository
    agree: the unrolled [EncodeVarint32], silo's [write_uvint32] loop and the
    64-bit loops of coding.cc and lbuf.h produce the same bytes; silo's readers
    invert them, [failsafe_read_uvint32] returns the null pointer exactly when
    the bytes it may read do not hold the whole encoding, and
    [skip_uvint32], [size_uvint32] and [VarintLength] are the number of bytes. *)
Theorem varint_codecs_agree v rest nbytes :
  0 <= v < 2 ^ 32 ->
  let l := EncodeVarint32 v in
  EncodeVarint64 v = Ok l /\ write_uvint32 v = Ok l /\ write_uvint64 v = Ok l /\
  read_uvint32 (l ++ rest) = Ok (v, rest) /\
  failsafe_read_uvint32 (l ++ rest) nbytes = Ok (if (length l <=? nbytes)%nat then Some (v, rest) else None) /\
  skip_uvint32 (l ++ rest) = Ok (Z.of_nat (length l), l) /\
  VarintLength v = Ok (Z.of_nat (length l)) /\ size_uvint32 v = Z.of_nat (length l).
Proof.
  intros Hv l. pose proof (EncodeVarint32_varint v Hv) as Hl. fold l in Hl.
  assert (length l <= 5)%nat as Hn.
  { apply (varint_length_le v l 5); [lia|done|]. change (128 ^ Z.of_nat 5) with (2 ^ 35). lia. }
  split_and!.
  - destruct (EncodeVarint64_varint v) as (l' & -> & Hl'); [lia|]. by rewrite (varint_det v l l').
  - destruct (write_uvint32_varint v Hv) as (l' & -> & Hl'). by rewrite (varint_det v l l').
  - destruct (write_uvint64_varint v) as (l' & -> & Hl'); [lia|]. by rewrite (varint_det v l l').
  - apply read_uvint32_varint; [done|lia].
  - apply failsafe_read_uvint32_varint; [done|lia].
  - unfold skip_uvint32. rewrite (skip_lines_varint rest 5 v l [] Hl Hn). done.
  - unfold VarintLength. rewrite (VarintLength_loop_varint l 9 v 1 Hl) by lia. f_equal. lia.
  - pose proof (varint_length_le v l 1 ltac:(lia) Hl). pose proof (varint_length_le v l 2 ltac:(lia) Hl).
    pose proof (varint_length_le v l 3 ltac:(lia) Hl). pose proof (varint_length_le v l 4 ltac:(lia) Hl).
    destruct (varint_length v l Hl) as (H1l & _).
    unfold size_uvint32. change (Z.lor (Z.shiftl 127 7) 127) with 16383.
    change (Z.lor (Z.lor (Z.shiftl 127 14) (Z.shiftl 127 7)) 127) with 2097151.
    change (Z.lor (Z.lor (Z.lor (Z.shiftl 127 21) (Z.shiftl 127 14)) (Z.shiftl 127 7)) 127) with 268435455.
    change (128 ^ Z.of_nat 1) with 128 in *. change (128 ^ Z.of_nat 2) with 16384 in *.
    change (128 ^ Z.of_nat 3) with 2097152 in *. change (128 ^ Z.of_nat 4) with 268435456 in *.
    destruct (Z.leb_spec v 127), (Z.leb_spec v 16383), (Z.leb_spec v 2097151), (Z.leb_spec v 268435455); lia.
Qed.

Lemma coding_roundtrip_witness :
  PutVarint64 [] 300 = Ok [172; 2] /\
  exists l, PutVarint64 [] 300 = Ok l /\ GetVarint64 (l ++ [9]) = Some (300, [9]).
Proof.
  split; [reflexivity|]. apply (proj1 coding_roundtrip 300 [9]). vm_compute. split; congruence.
Defined.

Lemma varint_codecs_agree_witness :
  EncodeVarint64 300 = Ok [172; 2] /\ write_uvint32 300 = Ok [172; 2] /\ write_uvint64 300 = Ok [172; 2] /\
  failsafe_read_uvint32 [172; 2] 1 = Ok None.
Proof.
  destruct (varint_codecs_agree 300 [] 1) as (E1 & E2 & E3 & _ & E4 & _); [vm_compute; split; congruence|].
  exact (conj E1 (conj E2 (conj E3 E4))).
Defined.
