(* ===== verification/Log.v ===== *)
(** * The log of LevelDB (db/log_format.h, db/log_writer, db/log_reader)

    [Writer] cuts records into fragments that do not cross blocks of 32 KB and
    gives each a header with a checksum, the length and the type; [Reader] puts
    them together again and reports what it has to drop.  A file is the list of
    its bytes with the statuses of the coming calls; a [Slice] is the list of its
    bytes and the address of the first.  [LogSpec] holds the proofs. *)

From S2P Require Import Prelude Coding CRC32C.

Abbreviation zlen l := (Z.of_nat (length l)).

(** ** db/log_format.h *)

Definition kZeroType : Z := 0.
Definition kFullType : Z := 1.
Definition kFirstType : Z := 2.
Definition kMiddleType : Z := 3.
Definition kLastType : Z := 4.
Definition kMaxRecordType : Z := kLastType.

Definition kBlockSize : Z := 32768.
Definition kHeaderSize : Z := 7.

(** ** The writer *)

(** A file that is appended to.  A call that fails may have written some bytes:
    [Some n] is the failure of a call after [n] bytes. *)
Record WritableFile := mkWFile { wf_data : list Z; wf_calls : list (option nat) }.

Definition wf_status (f : WritableFile) : option nat := default None (head (wf_calls f)).

Definition Append (f : WritableFile) (data : list Z) : bool * WritableFile :=
  match wf_status f with
  | None => (true, mkWFile (wf_data f ++ data) (tail (wf_calls f)))
  | Some n => (false, mkWFile (wf_data f ++ take n data) (tail (wf_calls f)))
  end.

Definition Flush (f : WritableFile) : bool * WritableFile :=
  (bool_decide (wf_status f = None), mkWFile (wf_data f) (tail (wf_calls f))).

Record Writer := mkWriter { dest_ : WritableFile; block_offset_ : Z; type_crc_ : list Z }.

Definition set_dest (f : WritableFile) (w : Writer) : Writer := mkWriter f (block_offset_ w) (type_crc_ w).
Definition set_offset (o : Z) (w : Writer) : Writer := mkWriter (dest_ w) o (type_crc_ w).

(** [for (int i = 0; i <= kMaxRecordType; i++)], with [n] iterations left; [t] is
    the address of the local variable. *)
Fixpoint Writer_loop (n : nat) (i : Z) (t : addr) : result (list Z) :=
  match n with
  | O => Ok []
  | S n => c ← Value t [byte_of i]; l ← Writer_loop n (i + 1) t; Ok (c :: l)
  end.

Definition Writer_new (dest : WritableFile) (t : addr) : result Writer :=
  crcs ← Writer_loop (Z.to_nat (kMaxRecordType + 1)) 0 t;
  Ok (mkWriter dest 0 crcs).

(** The status is [true] for ok; [data] are the [n] bytes at [ptr]. *)
Definition EmitPhysicalRecord (t : Z) (ptr : addr) (data : list Z) (w : Writer) : result (bool * Writer) :=
  let n := zlen data in
  type_crc ← from_opt OutOfBounds (type_crc_ w !! Z.to_nat t);
  crc ← Extend type_crc ptr data;
  let buf := EncodeFixed32 (Mask crc) ++ [byte_of (Z.land n 0xff); byte_of (Z.shiftr n 8); byte_of t] in
  let '(s, f) := Append (dest_ w) buf in
  let '(s, f) := if s : bool then
                   let '(s, f) := Append f data in
                   if s : bool then Flush f else (s, f)
                 else (s, f) in
  Ok (s, set_offset (block_offset_ w + (kHeaderSize + n)) (set_dest f w)).

(** Switching to a new block; the status of the trailer is dropped. *)
Definition switch_block (w : Writer) : Writer :=
  let leftover := kBlockSize - block_offset_ w in
  if leftover <? kHeaderSize then
    let w := if 0 <? leftover
             then set_dest (Append (dest_ w) (take (Z.to_nat leftover) (replicate 6 0))).2 w else w in
    set_offset 0 w
  else w.

Definition record_type (begin end_ : bool) : Z :=
  if begin && end_ then kFullType else if begin then kFirstType else if end_ then kLastType else kMiddleType.

(** The do-while loop; [data] are the bytes left at [ptr]. *)
Fixpoint AddRecord_loop (fuel : nat) (begin : bool) (ptr : addr) (data : list Z) (w : Writer) : result (bool * Writer) :=
  match fuel with
  | O => Fault OutOfFuel
  | S fuel =>
      let w := switch_block w in
      let left := zlen data in
      let avail := u64 (kBlockSize - block_offset_ w - kHeaderSize) in
      let fragment_length := if left <? avail then left else avail in
      let type := record_type begin (left =? fragment_length) in
      '(s, w) ← EmitPhysicalRecord type ptr (take (Z.to_nat fragment_length) data) w;
      let data := drop (Z.to_nat fragment_length) data in
      if s && (0 <? zlen data) then AddRecord_loop fuel false (ptr + fragment_length) data w else Ok (s, w)
  end.

Definition AddRecord (ptr : addr) (slice : list Z) (w : Writer) : result (bool * Writer) :=
  AddRecord_loop (length slice + 2) true ptr slice w.

(** ** The reader *)

(** A file that is read from the front; [Some n] is a call that fails, after [n]
    bytes when it reads. *)
Record SequentialFile := mkSFile { sf_data : list Z; sf_calls : list (option nat) }.

Definition sf_status (f : SequentialFile) : option nat := default None (head (sf_calls f)).

(** [Read]: the status and the bytes. *)
Definition Read (n : Z) (f : SequentialFile) : bool * list Z * SequentialFile :=
  let k := match sf_status f with None => Z.to_nat n | Some k => Nat.min k (Z.to_nat n) end in
  (bool_decide (sf_status f = None), take k (sf_data f), mkSFile (drop k (sf_data f)) (tail (sf_calls f))).

Definition Skip (n : Z) (f : SequentialFile) : bool * SequentialFile :=
  match sf_status f with
  | None => (true, mkSFile (drop (Z.to_nat n) (sf_data f)) (tail (sf_calls f)))
  | Some _ => (false, mkSFile (sf_data f) (tail (sf_calls f)))
  end.

(** The reasons that are given to [Reporter::Corruption]. *)
Inductive reason :=
  | IOError
  | PartialRecord (n : Z)
  | MissingStart (n : Z)
  | ErrorInMiddle
  | UnknownType (t : Z)
  | TruncatedAtEof
  | BadLength
  | ChecksumMismatch.

Record Reader := mkReader {
  file_ : SequentialFile;
  has_reporter : bool;
  reports : list (Z * reason);
  checksum_ : bool;
  backing_store_ : addr;
  buffer_ : list Z;
  buffer_data : addr;
  eof_ : bool;
  last_record_offset_ : Z;
  end_of_buffer_offset_ : Z;
  initial_offset_ : Z }.

Definition Reader_new (file : SequentialFile) (reporter checksum : bool) (store : addr) (initial_offset : Z) : Reader :=
  mkReader file reporter [] checksum store [] NULL false 0 0 initial_offset.

Definition set_file f r := mkReader f (has_reporter r) (reports r) (checksum_ r) (backing_store_ r) (buffer_ r)
  (buffer_data r) (eof_ r) (last_record_offset_ r) (end_of_buffer_offset_ r) (initial_offset_ r).
Definition set_reports l r := mkReader (file_ r) (has_reporter r) l (checksum_ r) (backing_store_ r) (buffer_ r)
  (buffer_data r) (eof_ r) (last_record_offset_ r) (end_of_buffer_offset_ r) (initial_offset_ r).
Definition set_buffer b a r := mkReader (file_ r) (has_reporter r) (reports r) (checksum_ r) (backing_store_ r) b
  a (eof_ r) (last_record_offset_ r) (end_of_buffer_offset_ r) (initial_offset_ r).
Definition set_eof e r := mkReader (file_ r) (has_reporter r) (reports r) (checksum_ r) (backing_store_ r) (buffer_ r)
  (buffer_data r) e (last_record_offset_ r) (end_of_buffer_offset_ r) (initial_offset_ r).
Definition set_last o r := mkReader (file_ r) (has_reporter r) (reports r) (checksum_ r) (backing_store_ r) (buffer_ r)
  (buffer_data r) (eof_ r) o (end_of_buffer_offset_ r) (initial_offset_ r).
Definition set_end o r := mkReader (file_ r) (has_reporter r) (reports r) (checksum_ r) (backing_store_ r) (buffer_ r)
  (buffer_data r) (eof_ r) (last_record_offset_ r) o (initial_offset_ r).

(** [buffer_.clear()] *)
Definition clear_buffer (r : Reader) : Reader := set_buffer [] NULL r.

Definition ReportDrop (n : Z) (why : reason) (r : Reader) : Reader :=
  if has_reporter r && (initial_offset_ r <=? u64 (end_of_buffer_offset_ r - zlen (buffer_ r) - n))
  then set_reports (reports r ++ [(n, why)]) r else r.

Definition ReportCorruption (n : Z) (why : reason) (r : Reader) : Reader := ReportDrop n why r.

Definition SkipToInitialBlock (r : Reader) : bool * Reader :=
  let offset_in_block := initial_offset_ r mod kBlockSize in
  let start := initial_offset_ r - offset_in_block in
  let start := if kBlockSize - 6 <? offset_in_block then u64 (start + kBlockSize) else start in
  let r := set_end start r in
  if 0 <? start then
    let '(ok, f) := Skip start (file_ r) in
    let r := set_file f r in
    if ok : bool then (true, r) else (false, ReportDrop start IOError r)
  else (true, r).

Definition kEof : Z := kMaxRecordType + 1.
Definition kBadRecord : Z := kMaxRecordType + 2.

(** [const unsigned int type = header[6]], where [char] is signed. *)
Definition unsigned_of_char (c : Z) : Z := if c <? 128 then c else u32 (c - 256).

(** The part of the loop of [ReadPhysicalRecord] after the buffer was filled:
    the type and, when it is set, the fragment. *)
Definition parse_record (r : Reader) (fragment : list Z) : result (Z * list Z * Reader) :=
  let size := zlen (buffer_ r) in
  a ← from_opt OutOfBounds (buffer_ r !! 4%nat);
  b ← from_opt OutOfBounds (buffer_ r !! 5%nat);
  c ← from_opt OutOfBounds (buffer_ r !! 6%nat);
  let type := unsigned_of_char c in
  let length := Z.lor (Z.land a 0xff) (Z.shiftl (Z.land b 0xff) 8) in
  if size <? kHeaderSize + length then
    Ok (kBadRecord, fragment, ReportCorruption size BadLength (clear_buffer r))
  else if (type =? kZeroType) && (length =? 0) then
    Ok (kBadRecord, fragment, clear_buffer r)
  else
    valid ← (if checksum_ r then
               masked ← DecodeFixed32 (buffer_ r);
               actual_crc ← Value (buffer_data r + 6) (take (Z.to_nat (1 + length)) (drop 6 (buffer_ r)));
               Ok (actual_crc =? Unmask masked)
             else Ok true);
    if negb valid then
      Ok (kBadRecord, fragment, ReportCorruption size ChecksumMismatch (clear_buffer r))
    else
      let payload := take (Z.to_nat length) (drop (Z.to_nat kHeaderSize) (buffer_ r)) in
      let r := set_buffer (drop (Z.to_nat (kHeaderSize + length)) (buffer_ r))
                 (buffer_data r + kHeaderSize + length) r in
      if u64 (end_of_buffer_offset_ r - zlen (buffer_ r) - kHeaderSize - length) <? initial_offset_ r
      then Ok (kBadRecord, [], r) else Ok (type, payload, r).

(** The loop goes round again after each [Read]. *)
Fixpoint ReadPhysicalRecord_loop (fuel : nat) (r : Reader) (fragment : list Z) : result (Z * list Z * Reader) :=
  match fuel with
  | O => Fault OutOfFuel
  | S fuel =>
      if zlen (buffer_ r) <? kHeaderSize then
        if negb (eof_ r) then
          let '(ok, b, f) := Read kBlockSize (file_ r) in
          let r := set_end (u64 (end_of_buffer_offset_ r + zlen b)) (set_buffer b (backing_store_ r) (set_file f r)) in
          if negb ok then Ok (kEof, fragment, set_eof true (ReportDrop kBlockSize IOError (clear_buffer r)))
          else ReadPhysicalRecord_loop fuel (if zlen b <? kBlockSize then set_eof true r else r) fragment
        else if zlen (buffer_ r) =? 0 then Ok (kEof, fragment, r)
        else Ok (kEof, fragment, ReportCorruption (zlen (buffer_ r)) TruncatedAtEof (clear_buffer r))
      else parse_record r fragment
  end.

(** A second round finds a header or the end of the file. *)
Definition ReadPhysicalRecord (r : Reader) (fragment : list Z) : result (Z * list Z * Reader) :=
  ReadPhysicalRecord_loop 2 r fragment.

(** The loop of [ReadRecord]; [None] is the result [false]. *)
Fixpoint ReadRecord_loop (fuel : nat) (in_fragmented : bool) (prospective : Z) (scratch fragment : list Z) (r : Reader)
    : result (option (list Z) * Reader) :=
  match fuel with
  | O => Fault OutOfFuel
  | S fuel =>
      let offset := u64 (end_of_buffer_offset_ r - zlen (buffer_ r)) in
      '(type, fragment, r) ← ReadPhysicalRecord r fragment;
      let partial n r := if in_fragmented && (0 <? zlen scratch)
                         then ReportCorruption (zlen scratch) (PartialRecord n) r else r in
      if type =? kFullType then Ok (Some fragment, set_last offset (partial 1 r))
      else if type =? kFirstType then ReadRecord_loop fuel true offset fragment fragment (partial 2 r)
      else if type =? kMiddleType then
        if negb in_fragmented
        then ReadRecord_loop fuel in_fragmented prospective scratch fragment
               (ReportCorruption (zlen fragment) (MissingStart 1) r)
        else ReadRecord_loop fuel in_fragmented prospective (scratch ++ fragment) fragment r
      else if type =? kLastType then
        if negb in_fragmented
        then ReadRecord_loop fuel in_fragmented prospective scratch fragment
               (ReportCorruption (zlen fragment) (MissingStart 2) r)
        else Ok (Some (scratch ++ fragment), set_last prospective r)
      else if type =? kEof then
        Ok (None, if in_fragmented then ReportCorruption (zlen scratch) (PartialRecord 3) r else r)
      else if type =? kBadRecord then
        if in_fragmented
        then ReadRecord_loop fuel false prospective [] fragment (ReportCorruption (zlen scratch) ErrorInMiddle r)
        else ReadRecord_loop fuel in_fragmented prospective scratch fragment r
      else
        ReadRecord_loop fuel false prospective [] fragment
          (ReportCorruption (zlen fragment + (if in_fragmented then zlen scratch else 0)) (UnknownType type) r)
  end.

(** Every record that is not the last takes bytes from the buffer or the file. *)
Definition unread (r : Reader) : nat := (length (buffer_ r) + length (sf_data (file_ r)))%nat.

Definition ReadRecord (r : Reader) : result (option (list Z) * Reader) :=
  let start := if last_record_offset_ r <? initial_offset_ r then SkipToInitialBlock r else (true, r) in
  if start.1 then ReadRecord_loop (S (unread start.2)) false 0 [] [] start.2 else Ok (None, start.2).

Definition LastRecordOffset (r : Reader) : Z := last_record_offset_ r.

(** A client that reads until [ReadRecord] returns [false]. *)
Fixpoint read_all (fuel : nat) (r : Reader) : result (list (list Z) * Reader) :=
  match fuel with
  | O => Fault OutOfFuel
  | S fuel =>
      '(o, r) ← ReadRecord r;
      match o with
      | Some x => '(l, r) ← read_all fuel r; Ok (x :: l, r)
      | None => Ok ([], r)
      end
  end.

(** A client that adds records from the given addresses, as long as the writer
    reports success. *)
Fixpoint add_all (l : list (addr * list Z)) (w : Writer) : result (bool * Writer) :=
  match l with
  | [] => Ok (true, w)
  | (ptr, x) :: l => '(s, w) ← AddRecord ptr x w; if s : bool then add_all l w else Ok (false, w)
  end.
