(* ===== verification/LogSpec.v ===== *)
(** * What the log keeps

    The layout of the file that [Writer] produces, the reader's way through it,
    and through any part of it that a crash left; the reader on arbitrary bytes. *)

From S2P Require Import Prelude Coding CRC32C Log.

#[local] Arguments Z.to_nat : simpl never.
#[local] Arguments Z.of_nat : simpl never.
#[local] Arguments EncodeFixed32 : simpl never.

(** ** The layout of a log *)

(** The trailer that is skipped at position [pos]. *)
Definition pad (pos : Z) : list Z :=
  let left := kBlockSize - pos mod kBlockSize in
  if left <? kHeaderSize then replicate (Z.to_nat left) 0 else [].

(** The bytes of a fragment. *)
Definition enc (t : Z) (d : list Z) : list Z :=
  EncodeFixed32 (Mask (crc32c 0 (t :: d))) ++ [zlen d mod 256; zlen d / 256; t] ++ d.

(** The room for the data of a fragment that is written at [pos]. *)
Definition avail (pos : Z) : Z := kBlockSize - kHeaderSize - (pos + zlen (pad pos)) mod kBlockSize.

(** The bytes of a record, or of its rest, written at [pos]. *)
Inductive layout : Z -> bool -> list Z -> list Z -> Prop :=
  | lay_last pos begin d : zlen d <= avail pos ->
      layout pos begin d (pad pos ++ enc (record_type begin true) d)
  | lay_more pos begin d1 d2 bs : zlen d1 = avail pos -> d2 <> [] ->
      layout (pos + zlen (pad pos) + kHeaderSize + zlen d1) false d2 bs ->
      layout pos begin (d1 ++ d2) (pad pos ++ enc (record_type begin false) d1 ++ bs).

Inductive log_layout : Z -> list (list Z) -> list Z -> Prop :=
  | log_nil pos : log_layout pos [] []
  | log_cons pos x rs b bs : layout pos true x b -> log_layout (pos + zlen b) rs bs -> log_layout pos (x :: rs) (b ++ bs).

Lemma pad_cases pos : 0 <= pos ->
  (pad pos = [] /\ 7 <= kBlockSize - pos mod kBlockSize) \/
  (0 < zlen (pad pos) < 7 /\ (pos + zlen (pad pos)) mod kBlockSize = 0).
Proof.
  intros Hp. unfold pad, kHeaderSize. pose proof (Z.mod_pos_bound pos kBlockSize ltac:(done)) as Hm.
  destruct (Z.ltb_spec (kBlockSize - pos mod kBlockSize) 7); [right|left; split; [done|lia]].
  rewrite length_replicate, Z2Nat.id by lia. split; [lia|].
  replace (pos + (kBlockSize - pos mod kBlockSize)) with ((pos / kBlockSize + 1) * kBlockSize).
  - by apply Z_mod_mult.
  - pose proof (Z.div_mod pos kBlockSize ltac:(done)). lia.
Qed.

Lemma avail_range pos : 0 <= pos -> 0 <= avail pos < 32768 - 6.
Proof.
  intros Hp. unfold avail, kHeaderSize. pose proof (Z.mod_pos_bound pos kBlockSize ltac:(done)).
  destruct (pad_cases pos Hp) as [[-> Hl]|[_ ->]]; [|done]. change (zlen []) with 0 in *. rewrite Z.add_0_r in *.
  unfold kBlockSize in *. lia.
Qed.

(** A fragment that fills the room ends at a block boundary. *)
Lemma block_full pos (d : list Z) : 0 <= pos -> zlen d = avail pos ->
  let pos' := pos + zlen (pad pos) + kHeaderSize + zlen d in pad pos' = [] /\ avail pos' <> 0.
Proof.
  intros Hp Hd. cbv zeta. rewrite Hd. unfold avail.
  replace (pos + zlen (pad pos) + kHeaderSize + (kBlockSize - kHeaderSize - (pos + zlen (pad pos)) mod kBlockSize))
    with (((pos + zlen (pad pos)) / kBlockSize + 1) * kBlockSize).
  2: { pose proof (Z.div_mod (pos + zlen (pad pos)) kBlockSize ltac:(done)). lia. }
  set (q := _ / _ + 1). assert (pad (q * kBlockSize) = []) as -> by (unfold pad; by rewrite Z_mod_mult).
  split; [done|]. change (zlen []) with 0. rewrite Z.add_0_r, Z_mod_mult. done.
Qed.

Lemma length_enc t d : zlen (enc t d) = kHeaderSize + zlen d.
Proof. unfold enc, EncodeFixed32. rewrite !length_app, length_le_bytes. cbn [length]. unfold kHeaderSize. lia. Qed.

Lemma layout_nonempty pos begin d bs : layout pos begin d bs -> bs <> [].
Proof.
  intros Hl E. assert (7 <= zlen bs) as H7; [|by rewrite E in H7].
  destruct Hl; rewrite !length_app, !Nat2Z.inj_add, length_enc; unfold kHeaderSize; lia.
Qed.

(** ** The writer *)

Definition all_ok (calls : list (option nat)) : Prop := Forall (fun c => c = None) calls.

Record writer_ok (w : Writer) : Prop := {
  wo_calls : all_ok (wf_calls (dest_ w));
  wo_crc : type_crc_ w = (fun t => crc32c 0 [t]) <$> [0; 1; 2; 3; 4];
  wo_range : 0 <= block_offset_ w <= kBlockSize;
  wo_offset : block_offset_ w mod kBlockSize = zlen (wf_data (dest_ w)) mod kBlockSize }.

Lemma Writer_new_ok dest t : all_ok (wf_calls dest) -> wf_data dest = [] ->
  exists w, Writer_new dest t = Ok w /\ writer_ok w /\ dest_ w = dest.
Proof.
  intros Hc Hd. assert (E : forall i, 0 <= i < 256 -> Value t [byte_of i] = Ok (crc32c 0 [i])).
  { intros i Hi. unfold Value, byte_of. rewrite Z.mod_small by lia. apply Extend_ok; [lia|by apply Forall_singleton]. }
  unfold Writer_new. change (Z.to_nat (kMaxRecordType + 1)) with 5%nat. cbn [Writer_loop]. rewrite !E by lia.
  eexists. split; [done|]. split; [|done]. split; simpl; try done. by rewrite Hd.
Qed.

Lemma Append_ok f data : all_ok (wf_calls f) ->
  exists f', Append f data = (true, f') /\ wf_data f' = wf_data f ++ data /\ all_ok (wf_calls f').
Proof.
  unfold all_ok, Append, wf_status. destruct (wf_calls f) as [|c calls]; [intros _|intros [-> Hc]%Forall_cons];
    simpl; eexists; (split; [done|]); by split.
Qed.

Lemma Flush_ok f : all_ok (wf_calls f) ->
  exists f', Flush f = (true, f') /\ wf_data f' = wf_data f /\ all_ok (wf_calls f').
Proof.
  unfold all_ok, Flush, wf_status. destruct (wf_calls f) as [|c calls]; [intros _|intros [-> Hc]%Forall_cons];
    simpl; eexists; (split; [done|]); by split.
Qed.

Lemma switch_block_ok w : writer_ok w ->
  let w' := switch_block w in
  writer_ok w' /\ wf_data (dest_ w') = wf_data (dest_ w) ++ pad (zlen (wf_data (dest_ w))) /\
  kBlockSize - block_offset_ w' - kHeaderSize = avail (zlen (wf_data (dest_ w))).
Proof.
  intros [Hc Hcrc Hr Ho] w'. set (pos := zlen (wf_data (dest_ w))) in *.
  assert (Hmod : block_offset_ w = kBlockSize /\ pos mod kBlockSize = 0 \/
                 block_offset_ w < kBlockSize /\ pos mod kBlockSize = block_offset_ w).
  { destruct (decide (block_offset_ w = kBlockSize)) as [E|E]; [left; split; [done|]; rewrite <- Ho, E; done|right].
    rewrite <- Ho, Z.mod_small; lia. }
  unfold w', switch_block, avail, kHeaderSize.
  assert (Hpad : wf_data (dest_ w) ++ [] = wf_data (dest_ w)) by apply app_nil_r.
  destruct (Z.ltb_spec (kBlockSize - block_offset_ w) 7) as [Hlt|Hge].
  - destruct (Z.ltb_spec 0 (kBlockSize - block_offset_ w)) as [Hpos|Hpos].
    + destruct Hmod as [[? _]|[_ Hmod]]; [lia|].
      assert (Epad : pad pos = take (Z.to_nat (kBlockSize - block_offset_ w)) (replicate 6 0)).
      { unfold pad, kHeaderSize. rewrite Hmod, (proj2 (Z.ltb_lt _ _)) by lia. rewrite take_replicate. f_equal. lia. }
      rewrite <- Epad. destruct (Append_ok (dest_ w) (pad pos) Hc) as (f & -> & Hf & Hcf). simpl.
      destruct (pad_cases pos) as [[E _]|[Hl Hm]]; [lia| |].
      { apply (f_equal length) in E. rewrite Epad, length_take, length_replicate in E. simpl in E. lia. }
      rewrite Hm. split; [|by split]. split; simpl; try done. rewrite Hf, length_app, Nat2Z.inj_add. fold pos. by rewrite Hm.
    + assert (Em : pos mod kBlockSize = 0) by (destruct Hmod as [[_ ?]|[? _]]; [done|lia]).
      assert (Epad : pad pos = []) by (unfold pad; by rewrite Em). rewrite Epad, Hpad. simpl.
      rewrite Z.add_0_r, Em. split; [|done]. split; simpl; try done.
  - destruct Hmod as [[? _]|[_ Hmod]]; [lia|]. assert (Epad : pad pos = []).
    { unfold pad, kHeaderSize. rewrite Hmod, (proj2 (Z.ltb_ge _ _)) by lia. done. }
    rewrite Epad, Hpad. simpl. rewrite Z.add_0_r, Hmod. split; [by split|]. split; [done|lia].
Qed.

Lemma EmitPhysicalRecord_ok t ptr d w :
  writer_ok w -> 0 <= t <= 4 -> bytes d -> zlen d <= kBlockSize - block_offset_ w - kHeaderSize ->
  exists w', EmitPhysicalRecord t ptr d w = Ok (true, w') /\ writer_ok w' /\
    wf_data (dest_ w') = wf_data (dest_ w) ++ enc t d.
Proof.
  intros [Hc Hcrc Hr Ho] Ht Hd Hlen. unfold EmitPhysicalRecord.
  assert (Etc : type_crc_ w !! Z.to_nat t = Some (crc32c 0 [t])).
  { rewrite Hcrc. assert (t = 0 \/ t = 1 \/ t = 2 \/ t = 3 \/ t = 4) as [->|[->|[->|[->| ->]]]] by lia; done. }
  rewrite Etc. cbn [from_opt mbind result_bind].
  rewrite Extend_ok; [|apply crc32c_range; [repeat constructor; lia|lia]|done]. cbn [mbind result_bind].
  rewrite crc32c_app. cbn [app].
  assert (Ebuf : (EncodeFixed32 (Mask (crc32c 0 (t :: d))) ++ [byte_of (Z.land (zlen d) 255); byte_of (Z.shiftr (zlen d) 8); byte_of t])
                 ++ d = enc t d).
  { unfold enc. rewrite <- app_assoc. cbn [app]. unfold kBlockSize, kHeaderSize in *.
    change 255 with (Z.ones 8). rewrite Z.land_ones, Z.shiftr_div_pow2 by lia. change (2 ^ 8) with 256. unfold byte_of.
    rewrite Z.mod_mod, (Z.mod_small t), (Z.mod_small (zlen d / 256)) by (Z.to_euclidean_division_equations; lia). done. }
  set (buf := EncodeFixed32 _ ++ _) in *.
  destruct (Append_ok (dest_ w) buf Hc) as (f1 & -> & Hf1 & Hc1).
  destruct (Append_ok f1 d Hc1) as (f2 & -> & Hf2 & Hc2). destruct (Flush_ok f2 Hc2) as (f3 & -> & Hf3 & Hc3).
  eexists. split; [done|]. simpl. assert (Hdata : wf_data f3 = wf_data (dest_ w) ++ enc t d).
  { rewrite Hf3, Hf2, Hf1, <- app_assoc, Ebuf. done. }
  split; [|done]. split; simpl; try done.
  - pose proof (length_enc t d). unfold kBlockSize, kHeaderSize in *. lia.
  - rewrite Hdata, length_app, Nat2Z.inj_add, length_enc. rewrite <- Zplus_mod_idemp_l, Ho, Zplus_mod_idemp_l. done.
Qed.

Lemma record_type_range b e : 1 <= record_type b e <= 4.
Proof. destruct b, e; cbv; split; discriminate. Qed.

Lemma AddRecord_loop_ok fuel : forall begin ptr d w,
  writer_ok w -> bytes d ->
  (length d + (if (avail (zlen (wf_data (dest_ w))) =? 0)%Z then 1 else 0) < fuel)%nat ->
  exists w' bs, AddRecord_loop fuel begin ptr d w = Ok (true, w') /\ writer_ok w' /\
    wf_data (dest_ w') = wf_data (dest_ w) ++ bs /\ layout (zlen (wf_data (dest_ w))) begin d bs.
Proof.
  induction fuel as [|fuel IH]; intros begin ptr d w Hw Hd Hf; [lia|]. cbn [AddRecord_loop].
  destruct (switch_block_ok w Hw) as (Hw1 & Hdata1 & Hav). set (pos := zlen (wf_data (dest_ w))) in *.
  set (w1 := switch_block w) in *. rewrite Hav. pose proof (avail_range pos ltac:(lia)) as Hr. rewrite u64_small by lia.
  destruct (Z.ltb_spec (zlen d) (avail pos)) as [Hlt|Hge].
  - rewrite Z.eqb_refl, Nat2Z.id, firstn_all, skipn_all.
    destruct (EmitPhysicalRecord_ok (record_type begin true) ptr d w1) as (w2 & -> & Hw2 & Hdata2); try done;
      [pose proof (record_type_range begin true); lia|lia|].
    cbn [mbind result_bind]. simpl. exists w2, (pad pos ++ enc (record_type begin true) d). split_and!; [done..| |].
    + by rewrite Hdata2, Hdata1, <- app_assoc.
    + apply lay_last. lia.
  - set (d1 := take (Z.to_nat (avail pos)) d). set (d2 := drop (Z.to_nat (avail pos)) d).
    assert (Hd12 : d = d1 ++ d2) by (symmetry; apply take_drop).
    assert (Hl1 : zlen d1 = avail pos) by (unfold d1; rewrite length_take; lia).
    assert (Hl2 : zlen d2 = zlen d - avail pos) by (unfold d2; rewrite length_drop; lia).
    pose proof (proj1 (Forall_app _ d1 d2) ltac:(by rewrite <- Hd12)) as [Hb1 Hb2].
    destruct (EmitPhysicalRecord_ok (record_type begin (zlen d =? avail pos)) ptr d1 w1) as (w2 & -> & Hw2 & Hdata2); try done;
      [pose proof (record_type_range begin (zlen d =? avail pos)); lia|lia|].
    cbn [mbind result_bind andb]. rewrite Hl2. destruct (Z.eqb_spec (zlen d) (avail pos)) as [E|E].
    + rewrite (proj2 (Z.ltb_ge _ _)) by lia. assert (d2 = []) as E2 by (destruct d2; [done|simpl in Hl2; lia]).
      rewrite E2, app_nil_r in Hd12. rewrite <- Hd12 in Hdata2. exists w2, (pad pos ++ enc (record_type begin true) d).
      split_and!; [done..| |]; [by rewrite Hdata2, Hdata1, <- app_assoc|]. apply lay_last. lia.
    + rewrite (proj2 (Z.ltb_lt _ _)) by lia.
      assert (Hpos2 : zlen (wf_data (dest_ w2)) = pos + zlen (pad pos) + kHeaderSize + zlen d1).
      { rewrite Hdata2, Hdata1, !length_app, !Nat2Z.inj_add, length_enc. fold pos. lia. }
      destruct (IH false (ptr + avail pos) d2 w2 Hw2 Hb2) as (w3 & bs & E3 & Hw3 & Hdata3 & Hlay).
      { rewrite Hpos2. assert (Hz : pad (pos + zlen (pad pos) + kHeaderSize + zlen d1) = [] /\
          avail (pos + zlen (pad pos) + kHeaderSize + zlen d1) <> 0) by (apply block_full; [lia|done]).
        destruct Hz as [_ Hz]. rewrite (proj2 (Z.eqb_neq _ _) Hz).
        destruct (Z.eqb_spec (avail pos) 0); lia. }
      exists w3, (pad pos ++ enc (record_type begin false) d1 ++ bs). rewrite E3. split_and!; [done..| |].
      * by rewrite Hdata3, Hdata2, Hdata1, <- !app_assoc.
      * rewrite Hd12. apply lay_more; [done| |by rewrite <- Hpos2]. intros E2. rewrite E2 in Hl2. simpl in Hl2. lia.
Qed.

Lemma AddRecord_ok ptr d w : writer_ok w -> bytes d ->
  exists w' bs, AddRecord ptr d w = Ok (true, w') /\ writer_ok w' /\
    wf_data (dest_ w') = wf_data (dest_ w) ++ bs /\ layout (zlen (wf_data (dest_ w))) true d bs.
Proof. intros Hw Hd. apply AddRecord_loop_ok; [done..|]. case_match; lia. Qed.

Lemma add_all_ok l w : writer_ok w -> Forall bytes l.*2 ->
  exists w' bs, add_all l w = Ok (true, w') /\ writer_ok w' /\
    wf_data (dest_ w') = wf_data (dest_ w) ++ bs /\ log_layout (zlen (wf_data (dest_ w))) l.*2 bs.
Proof.
  revert w. induction l as [|[ptr x] l IH]; intros w Hw Hl.
  { exists w, []. rewrite app_nil_r. split_and!; [done..|constructor]. }
  cbn in Hl. apply Forall_cons in Hl as [Hx Hl]. cbn [add_all].
  destruct (AddRecord_ok ptr x w Hw Hx) as (w1 & b & -> & Hw1 & Hd1 & Hlay). cbn [mbind result_bind].
  destruct (IH w1 Hw1 Hl) as (w2 & bs & E & Hw2 & Hd2 & Hlog). exists w2, (b ++ bs). split_and!; [done..| |].
  - by rewrite Hd2, Hd1, <- app_assoc.
  - cbn. apply log_cons; [done|]. by rewrite Hd1, length_app, Nat2Z.inj_add in Hlog.
Qed.

(** ** The reader on a log *)

(** The reader stands at position [pos] of the file [F]; the block it has in its
    buffer ends at [e]. *)
Record reader_at (F : list Z) (pos e : Z) (r : Reader) : Prop := {
  ra_block : e mod kBlockSize = 0;
  ra_range : 0 <= pos <= e /\ e - pos <= kBlockSize;
  ra_buffer : buffer_ r = take (Z.to_nat (e - pos)) (drop (Z.to_nat pos) F);
  ra_file : sf_data (file_ r) = drop (Z.to_nat e) F;
  ra_calls : all_ok (sf_calls (file_ r));
  ra_eof : eof_ r = (zlen F <? e);
  ra_initial : initial_offset_ r = 0 }.

(** What a call leaves alone. *)
Definition same_log (r r' : Reader) : Prop :=
  has_reporter r' = has_reporter r /\ checksum_ r' = checksum_ r /\ last_record_offset_ r' = last_record_offset_ r.

Lemma Read_ok n f : all_ok (sf_calls f) ->
  exists f', Read n f = (true, take (Z.to_nat n) (sf_data f), f') /\
    sf_data f' = drop (Z.to_nat n) (sf_data f) /\ all_ok (sf_calls f').
Proof.
  unfold all_ok, Read, sf_status. destruct (sf_calls f) as [|c calls]; [intros _|intros [-> Hc]%Forall_cons];
    simpl; eexists; (split; [done|]); by split.
Qed.

(** The positions at which less than a header is left of the block. *)
Lemma block_end pos e : e mod kBlockSize = 0 -> 0 <= pos <= e -> e - pos <= kBlockSize ->
  (7 <= e - pos /\ pad pos = []) \/ (e - pos < 7 /\ pos + zlen (pad pos) = e).
Proof.
  intros He Hp Hb. unfold pad, kHeaderSize. assert (HB : 0 < kBlockSize) by done.
  assert (Hm : pos mod kBlockSize = 0 \/ pos mod kBlockSize = kBlockSize - (e - pos)).
  { pose proof (Z.div_mod e kBlockSize ltac:(lia)) as E. rewrite He, Z.add_0_r in E.
    destruct (decide (e - pos = kBlockSize)); [left|destruct (decide (e = pos)) as [->|]; [by left|right]].
    - replace pos with ((e / kBlockSize - 1) * kBlockSize) by lia. by apply Z_mod_mult.
    - replace pos with (kBlockSize - (e - pos) + (e / kBlockSize - 1) * kBlockSize) at 1 by lia.
      rewrite Z_mod_plus_full. apply Z.mod_small. lia. }
  unfold kBlockSize in *. destruct Hm as [Hm|Hm]; rewrite Hm.
  - change (32768 - 0 <? 7) with false. destruct (Z.ltb_spec (e - pos) 7); [right|left; by split].
    change (zlen []) with 0. Z.to_euclidean_division_equations; lia.
  - destruct (Z.ltb_spec (32768 - (32768 - (e - pos))) 7); [right|left; split; [lia|done]].
    rewrite length_replicate. lia.
Qed.

(** The reader goes to the block that holds the next fragment. *)
Lemma fill_block F pos e r frag : reader_at F pos e r -> pos + zlen (pad pos) < zlen F ->
  exists e1 r1, reader_at F (pos + zlen (pad pos)) e1 r1 /\ 7 <= e1 - (pos + zlen (pad pos)) /\
    same_log r r1 /\ reports r1 = reports r /\ (unread r1 <= unread r)%nat /\
    ReadPhysicalRecord r frag =
      (if zlen (buffer_ r1) <? kHeaderSize
       then Ok (kEof, frag, ReportCorruption (zlen (buffer_ r1)) TruncatedAtEof (clear_buffer r1))
       else parse_record r1 frag).
Proof.
  intros [Hb (Hp & Hk) Hbuf Hfile Hcalls Heof Hinit] Hlt. unfold ReadPhysicalRecord, kHeaderSize.
  destruct (block_end pos e Hb Hp Hk) as [[H7 Epad]|[H7 Epad]].
  - rewrite Epad in *. change (zlen []) with 0 in *. rewrite Z.add_0_r in *. exists e, r.
    split_and!; try done. cbn [ReadPhysicalRecord_loop]. unfold kHeaderSize.
    destruct (Z.ltb_spec (zlen (buffer_ r)) 7) as [Hs|]; [|done].
    assert (Hlen : zlen (buffer_ r) = Z.min (e - pos) (zlen F - pos)) by (rewrite Hbuf, length_take, length_drop; lia).
    rewrite Heof, (proj2 (Z.ltb_lt _ _)) by lia. cbn [negb]. by rewrite (proj2 (Z.eqb_neq _ _)) by lia.
  - rewrite Epad in *. assert (Hlen : zlen (buffer_ r) = e - pos) by (rewrite Hbuf, length_take, length_drop; lia).
    cbn [ReadPhysicalRecord_loop]. unfold kHeaderSize. rewrite (proj2 (Z.ltb_lt _ _)) by lia.
    rewrite Heof, (proj2 (Z.ltb_ge _ _)) by lia. cbn [negb].
    destruct (Read_ok kBlockSize (file_ r) Hcalls) as (f & -> & Hf & Hcf). cbn [negb]. rewrite Hfile in Hf |- *.
    set (b := take (Z.to_nat kBlockSize) (drop (Z.to_nat e) F)).
    assert (Hbl : zlen b = Z.min kBlockSize (zlen F - e)).
    { unfold b. rewrite length_take, length_drop. unfold kBlockSize. lia. }
    set (r0 := set_end _ _). set (r1 := if zlen b <? kBlockSize then set_eof true r0 else r0).
    assert (Hr1 : reader_at F e (e + kBlockSize) r1).
    { split.
      - rewrite <- (Z.add_mod_idemp_l e kBlockSize kBlockSize), Hb by done. done.
      - unfold kBlockSize. lia.
      - unfold r1. destruct (zlen b <? kBlockSize); simpl; unfold b; do 2 f_equal; lia.
      - unfold r1. destruct (zlen b <? kBlockSize); simpl; rewrite Hf, drop_drop; f_equal; unfold kBlockSize; lia.
      - unfold r1. destruct (zlen b <? kBlockSize); done.
      - unfold r1. destruct (Z.ltb_spec (zlen b) kBlockSize); simpl; [|rewrite Heof]; symmetry;
          [apply Z.ltb_lt; lia|]. rewrite (proj2 (Z.ltb_ge _ _)) by lia. symmetry. apply Z.ltb_ge. lia.
      - unfold r1. destruct (zlen b <? kBlockSize); done. }
    assert (Hbuf1 : buffer_ r1 = b) by (unfold r1; destruct (zlen b <? kBlockSize); done).
    exists (e + kBlockSize), r1. split_and!; try done; [unfold kBlockSize; lia|..].
    + unfold r1. destruct (zlen b <? kBlockSize); done.
    + unfold r1. destruct (zlen b <? kBlockSize); done.
    + unfold unread. rewrite Hbuf1, Hfile. assert (file_ r1 = f) as -> by (unfold r1; destruct (zlen b <? kBlockSize); done).
      rewrite Hf, !length_drop. unfold b. rewrite length_take, length_drop. lia.
    + rewrite Hbuf1. destruct (Z.ltb_spec (zlen b) 7) as [Hs|]; [|done].
      destruct Hr1 as [_ _ _ _ _ He1 _]. fold r1. rewrite He1, (proj2 (Z.ltb_lt _ _)) by (unfold kBlockSize in *; lia).
      cbn [negb]. by rewrite (proj2 (Z.eqb_neq _ _)) by (unfold kBlockSize in *; lia).
Qed.

(** What [ReadPhysicalRecord] makes of a header with length [n] and type [c]. *)
Lemma parse_buffer r frag m n c rest :
  buffer_ r = EncodeFixed32 m ++ [n mod 256; n / 256; c] ++ rest ->
  0 <= m < 2 ^ 32 -> 0 <= n < 65536 -> bytes (c :: rest) ->
  parse_record r frag =
    if zlen rest <? n then Ok (kBadRecord, frag, ReportCorruption (7 + zlen rest) BadLength (clear_buffer r))
    else if (unsigned_of_char c =? kZeroType) && (n =? 0) then Ok (kBadRecord, frag, clear_buffer r)
    else if checksum_ r && negb (crc32c 0 (c :: take (Z.to_nat n) rest) =? Unmask m)
    then Ok (kBadRecord, frag, ReportCorruption (7 + zlen rest) ChecksumMismatch (clear_buffer r))
    else
      let r' := set_buffer (drop (Z.to_nat n) rest) (buffer_data r + kHeaderSize + n) r in
      if u64 (end_of_buffer_offset_ r - zlen (drop (Z.to_nat n) rest) - kHeaderSize - n) <? initial_offset_ r
      then Ok (kBadRecord, [], r') else Ok (unsigned_of_char c, take (Z.to_nat n) rest, r').
Proof.
  intros Hbuf Hm Hn Hb. unfold parse_record, kHeaderSize.
  assert (Hsize : zlen (buffer_ r) = 7 + zlen rest).
  { rewrite Hbuf. unfold EncodeFixed32. rewrite !length_app, length_le_bytes. cbn [length]. lia. }
  assert (E4 : buffer_ r !! 4%nat = Some (n mod 256) /\ buffer_ r !! 5%nat = Some (n / 256) /\ buffer_ r !! 6%nat = Some c)
    by (rewrite Hbuf; done).
  destruct E4 as (-> & -> & ->). cbn [from_opt mbind result_bind]. rewrite Hsize.
  assert (En : Z.lor (Z.land (n mod 256) 255) (Z.shiftl (Z.land (n / 256) 255) 8) = n).
  { change 255 with (Z.ones 8). rewrite !Z.land_ones by lia. change (2 ^ 8) with 256.
    rewrite Z.mod_mod, (Z.mod_small (n / 256)) by (Z.to_euclidean_division_equations; lia).
    rewrite (lor_shiftl _ _ 8) by (try apply (Z.mod_pos_bound n 256); lia). change (2 ^ 8) with 256.
    pose proof (Z.div_mod n 256 ltac:(lia)). lia. }
  rewrite En. assert (Elt : (7 + zlen rest <? 7 + n) = (zlen rest <? n)) by lia. rewrite Elt.
  destruct (zlen rest <? n); [done|]. destruct ((unsigned_of_char c =? kZeroType) && (n =? 0)); [done|].
  assert (Hdec : DecodeFixed32 (buffer_ r) = Ok m) by (rewrite Hbuf; by apply (DecodeFixed_le 4)).
  assert (Hval : Value (buffer_data r + 6) (take (Z.to_nat (1 + n)) (drop 6 (buffer_ r))) =
                 Ok (crc32c 0 (c :: take (Z.to_nat n) rest))).
  { assert (drop 6 (buffer_ r) = c :: rest) as -> by (rewrite Hbuf; done).
    replace (Z.to_nat (1 + n)) with (S (Z.to_nat n)) by lia. cbn [take]. apply Extend_ok; [lia|].
    apply Forall_cons in Hb as [Hc Hr]. apply Forall_cons. split; [done|by apply Forall_take]. }
  rewrite Hdec. cbn [mbind result_bind]. rewrite Hval. cbn [mbind result_bind].
  assert (Edrop : drop (Z.to_nat (7 + n)) (buffer_ r) = drop (Z.to_nat n) rest).
  { replace (Z.to_nat (7 + n)) with (7 + Z.to_nat n)%nat by lia. rewrite <- drop_drop. by rewrite Hbuf. }
  assert (Etake : drop (Z.to_nat 7) (buffer_ r) = rest) by (by rewrite Hbuf). rewrite Edrop, Etake.
  destruct (checksum_ r); cbn [mbind result_bind andb negb]; [|done]. by destruct (crc32c 0 _ =? Unmask m).
Qed.

Lemma unsigned_of_char_type t : 0 <= t <= 4 -> unsigned_of_char t = t.
Proof. intros Ht. unfold unsigned_of_char. by rewrite (proj2 (Z.ltb_lt _ _)) by lia. Qed.

Lemma bytes_app_inv l l' : bytes (l ++ l') -> bytes l /\ bytes l'.
Proof. apply Forall_app. Qed.

(** A whole fragment is read. *)
Lemma parse_whole F p e r frag t d F2 :
  reader_at F p e r -> drop (Z.to_nat p) F = enc t d ++ F2 -> 7 + zlen d <= e - p -> 1 <= t <= 4 -> bytes d -> bytes F2 ->
  exists r', parse_record r frag = Ok (t, d, r') /\ reader_at F (p + kHeaderSize + zlen d) e r' /\
    same_log r r' /\ reports r' = reports r /\ (unread r' < unread r)%nat.
Proof.
  intros Hr HF Hfit Ht Hd HF2. pose proof Hr as [Hb (Hp & Hk) Hbuf Hfile Hcalls Heof Hinit].
  set (X := take (Z.to_nat (e - p - 7 - zlen d)) F2).
  assert (EX : buffer_ r = enc t d ++ X).
  { rewrite Hbuf, HF, take_app. pose proof (length_enc t d) as Hl. unfold kHeaderSize in Hl.
    rewrite firstn_all2 by lia. f_equal. unfold X. f_equal. lia. }
  rewrite (parse_buffer r frag (Mask (crc32c 0 (t :: d))) (zlen d) t (d ++ X)); cycle 1.
  { rewrite EX. unfold enc. by rewrite <- !app_assoc. }
  { apply Mask_range. }
  { unfold kBlockSize in *. lia. }
  { apply Forall_cons. split; [lia|]. apply Forall_app. split; [done|by apply Forall_take]. }
  rewrite (proj2 (Z.ltb_ge _ _)) by (rewrite length_app; lia). rewrite unsigned_of_char_type by lia.
  rewrite (proj2 (Z.eqb_neq t kZeroType)) by (unfold kZeroType; lia). cbn [andb].
  rewrite Nat2Z.id, take_app_length, drop_app_length, Unmask_Mask.
  2: { apply crc32c_range; [apply Forall_cons; split; [lia|done]|lia]. }
  rewrite Z.eqb_refl. cbn [negb]. rewrite andb_false_r, Hinit.
  rewrite (proj2 (Z.ltb_ge _ _)) by apply u64_range. eexists. split; [done|]. split_and!; try done.
  - split; simpl; try done; unfold kHeaderSize; [lia|].
    unfold X. replace (Z.to_nat (p + 7 + zlen d)) with (Z.to_nat p + length (enc t d))%nat
      by (pose proof (length_enc t d); unfold kHeaderSize in *; lia).
    rewrite <- drop_drop, HF, drop_app_length. f_equal. lia.
  - unfold unread. simpl. rewrite EX, length_app. pose proof (length_enc t d). unfold kHeaderSize in *. lia.
Qed.

Lemma reader_at_bytes F p e r : bytes F -> reader_at F p e r -> bytes (buffer_ r).
Proof. intros HF Hr. rewrite (ra_buffer _ _ _ _ Hr). by apply Forall_take, Forall_drop. Qed.

Lemma drop_zlen (F1 F2 : list Z) pos : zlen F1 = pos -> drop (Z.to_nat pos) (F1 ++ F2) = F2.
Proof. intros <-. by rewrite Nat2Z.id, drop_app_length. Qed.

(** The next fragment of a log. *)
Lemma read_fragment F1 F2 pos e r frag t d :
  let F := F1 ++ pad pos ++ enc t d ++ F2 in
  reader_at F pos e r -> zlen F1 = pos -> zlen d <= avail pos -> 1 <= t <= 4 -> bytes d -> bytes F2 ->
  exists e' r', ReadPhysicalRecord r frag = Ok (t, d, r') /\
    reader_at F (pos + zlen (pad pos) + kHeaderSize + zlen d) e' r' /\
    same_log r r' /\ reports r' = reports r /\ (unread r' < unread r)%nat.
Proof.
  intros F Hr HF1 Hd Ht Hbd HbF. pose proof (length_enc t d) as Hle. unfold kHeaderSize in Hle.
  destruct (fill_block F pos e r frag Hr) as (e1 & r1 & Hr1 & H7 & Hs1 & Hrep1 & Hu1 & E).
  { unfold F. rewrite !length_app, !Nat2Z.inj_add. lia. }
  assert (HFd : drop (Z.to_nat (pos + zlen (pad pos))) F = enc t d ++ F2).
  { unfold F. rewrite app_assoc. apply drop_zlen. rewrite length_app. lia. }
  assert (Hroom : 7 + zlen d <= e1 - (pos + zlen (pad pos))).
  { destruct Hr1 as [Hb1 (Hp1 & Hk1) _ _ _ _ _]. unfold avail, kHeaderSize in Hd.
    set (p' := pos + zlen (pad pos)) in *. unfold kBlockSize in *. Z.to_euclidean_division_equations; lia. }
  destruct (parse_whole F _ e1 r1 frag t d F2 Hr1 HFd Hroom Ht Hbd HbF) as (r2 & E2 & Hr2 & Hs2 & Hrep2 & Hu2).
  rewrite (proj2 (Z.ltb_ge _ _)) in E.
  2: { rewrite (ra_buffer _ _ _ _ Hr1), HFd, length_take, length_app. unfold kHeaderSize. lia. }
  exists e1, r2. rewrite E, E2. split_and!; try done; [|congruence|lia].
  destruct Hs1 as (? & ? & ?), Hs2 as (? & ? & ?). unfold same_log. split_and!; congruence.
Qed.

(** ** The reader where a crash cut the log *)

Lemma report_same n why r :
  buffer_ (ReportCorruption n why r) = buffer_ r /\ eof_ (ReportCorruption n why r) = eof_ r /\
  file_ (ReportCorruption n why r) = file_ r.
Proof. unfold ReportCorruption, ReportDrop. by case_match. Qed.

(** Nothing is left to be read. *)
Definition at_eof (r : Reader) : Prop := buffer_ r = [] /\ eof_ r = true.

Lemma read_at_eof r frag : at_eof r -> ReadPhysicalRecord r frag = Ok (kEof, frag, r).
Proof. intros [Hb He]. unfold ReadPhysicalRecord. cbn [ReadPhysicalRecord_loop]. by rewrite Hb, He. Qed.

Lemma read_end F pos e r frag : reader_at F pos e r -> pos <= zlen F <= pos + zlen (pad pos) ->
  exists r', ReadPhysicalRecord r frag = Ok (kEof, frag, r') /\ (zlen F = pos -> reports r' = reports r).
Proof.
  intros [Hb (Hp & Hk) Hbuf Hfile Hcalls Heof Hinit] HF. unfold ReadPhysicalRecord.
  assert (Hlen : zlen (buffer_ r) = Z.min (e - pos) (zlen F - pos)) by (rewrite Hbuf, length_take, length_drop; lia).
  assert (H7 : zlen (buffer_ r) < 7 /\ (zlen F < e \/ zlen F = e)).
  { destruct (block_end pos e Hb Hp Hk) as [[H7 Epad]|[H7 Epad]]; [rewrite Epad in HF; change (zlen []) with 0 in HF|]; lia. }
  destruct H7 as [H7 HFe]. cbn [ReadPhysicalRecord_loop]. unfold kHeaderSize. rewrite (proj2 (Z.ltb_lt _ _)) by lia.
  rewrite Heof. destruct HFe as [HFe|HFe].
  - rewrite (proj2 (Z.ltb_lt _ _)) by lia. cbn [negb]. destruct (Z.eqb_spec (zlen (buffer_ r)) 0); [by exists r|].
    eexists. split; [done|]. lia.
  - rewrite (proj2 (Z.ltb_ge _ _)) by lia. cbn [negb].
    destruct (Read_ok kBlockSize (file_ r) Hcalls) as (f & -> & Hf & Hcf). cbn [negb]. rewrite Hfile.
    rewrite drop_ge, take_nil by lia. change (zlen [] <? kBlockSize) with true. cbv iota. cbn. eexists. by split.
Qed.

(** A fragment that is not complete is dropped. *)
Lemma read_cut F1 C C' pos e r frag t d :
  let F := F1 ++ C in
  reader_at F pos e r -> zlen F1 = pos -> pad pos ++ enc t d = C ++ C' -> C' <> [] ->
  zlen d <= avail pos -> 0 <= t <= 4 -> bytes d ->
  exists r', (ReadPhysicalRecord r frag = Ok (kEof, frag, r') /\ (C = [] -> reports r' = reports r)) \/
    (ReadPhysicalRecord r frag = Ok (kBadRecord, frag, r') /\ at_eof r' /\ C <> [] /\ (0 < unread r)%nat).
Proof.
  intros F Hr HF1 HC HC' Hd Ht Hbd. assert (HlF : zlen F = pos + zlen C) by (unfold F; rewrite length_app; lia).
  destruct (Z.le_gt_cases (zlen C) (zlen (pad pos))) as [Hle|Hgt].
  { destruct (read_end F pos e r frag Hr) as (r' & E & Hrep); [lia|]. exists r'. left. split; [done|].
    intros ->. apply Hrep. change (zlen []) with 0 in HlF. lia. }
  assert (HD : exists D, C = pad pos ++ D /\ enc t d = D ++ C').
  { apply app_eq_app in HC as (D & [[H1 H2]|[H1 H2]]); [|by exists D].
    rewrite H1, length_app in Hgt. assert (D = []) as -> by (destruct D; [done|simpl in Hgt; lia]).
    exists []. rewrite app_nil_r in H1 |- *. by rewrite H1. }
  destruct HD as (D & EC & HD). pose proof (f_equal length HD) as Hl. rewrite length_app in Hl.
  pose proof (length_enc t d) as Hle. unfold kHeaderSize in Hle.
  assert (HC'l : (0 < length C')%nat) by (destruct C'; [done|simpl; lia]).
  assert (HlC : zlen C = zlen (pad pos) + zlen D) by (rewrite EC, length_app; lia).
  destruct (fill_block F pos e r frag Hr) as (e1 & r1 & Hr1 & H7 & _ & _ & Hu1 & E); [lia|].
  set (p := pos + zlen (pad pos)) in *.
  assert (HFd : drop (Z.to_nat p) F = D).
  { unfold F. rewrite EC, app_assoc. apply drop_zlen. rewrite length_app. lia. }
  pose proof Hr1 as [Hb1 (Hp1 & Hk1) Hbuf1 _ _ Heof1 _].
  assert (Hroom : 7 + zlen d <= e1 - p).
  { unfold avail, kHeaderSize in Hd. fold p in Hd. unfold kBlockSize in *. Z.to_euclidean_division_equations; lia. }
  rewrite HFd, firstn_all2 in Hbuf1 by lia. rewrite Hbuf1 in E. unfold kHeaderSize in E.
  assert (HCne : C <> []) by (intros ->; change (zlen []) with 0 in *; lia).
  destruct (Z.ltb_spec (zlen D) 7) as [Hs|Hs]; [eexists; left; split; [exact E|done]|].
  set (H := EncodeFixed32 (Mask (crc32c 0 (t :: d))) ++ [zlen d mod 256; zlen d / 256; t]).
  assert (Henc : enc t d = H ++ d) by (unfold H, enc; by rewrite <- app_assoc).
  assert (HDd : D = H ++ take (length D - 7) d).
  { apply (f_equal (take (length D))) in HD. rewrite take_app_length, Henc, take_app in HD.
    assert (HlH : length H = 7%nat) by (unfold H, EncodeFixed32; rewrite length_app, length_le_bytes; done).
    rewrite firstn_all2, HlH in HD by lia. by rewrite HD. }
  rewrite (parse_buffer r1 frag (Mask (crc32c 0 (t :: d))) (zlen d) t (take (length D - 7) d)) in E; cycle 1.
  { rewrite Hbuf1, HDd at 1. unfold H. by rewrite <- app_assoc. }
  { apply Mask_range. }
  { unfold kBlockSize in *. lia. }
  { apply Forall_cons. split; [lia|by apply Forall_take]. }
  rewrite (proj2 (Z.ltb_lt _ _)) in E by (rewrite length_take; lia). eexists. right. split; [exact E|]. split_and!; [|done|].
  - destruct (report_same (7 + zlen (take (length D - 7) d)) BadLength (clear_buffer r1)) as (R1 & R2 & _).
    split; [by rewrite R1|]. rewrite R2. simpl. rewrite Heof1. apply Z.ltb_lt. lia.
  - unfold unread in *. rewrite Hbuf1 in Hu1. lia.
Qed.

(** ** Whole records *)

Lemma same_log_trans r1 r2 r3 : same_log r1 r2 -> same_log r2 r3 -> same_log r1 r3.
Proof. intros (? & ? & ?) (? & ? & ?). unfold same_log. split_and!; congruence. Qed.

Lemma bytes_layout pos begin d bs : layout pos begin d bs -> bytes d -> bytes bs.
Proof.
  assert (Hpad : forall pos, bytes (pad pos)).
  { intros p. unfold pad. case_match; [|constructor]. apply Forall_replicate. lia. }
  assert (Hle : forall n v, bytes (le_bytes n v)).
  { induction n as [|n IH]; intros v; constructor; [apply Z.mod_pos_bound; lia|apply IH]. }
  assert (Henc : forall t x pos, 0 <= t <= 4 -> bytes x -> 0 <= zlen x < 65536 -> bytes (pad pos ++ enc t x)).
  { intros t x p Ht Hx Hl. unfold enc, EncodeFixed32. rewrite !Forall_app. split_and!; try done.
    repeat constructor; try lia; try (apply Z.mod_pos_bound; lia); Z.to_euclidean_division_equations; lia. }
  assert (Hpos : forall p, avail p < 65536).
  { intros p. unfold avail. pose proof (Z.mod_pos_bound (p + zlen (pad p)) kBlockSize ltac:(done)).
    unfold kBlockSize, kHeaderSize in *. lia. }
  assert (Hty : forall b e, 0 <= record_type b e <= 4) by (intros b e; pose proof (record_type_range b e); lia).
  induction 1 as [pos begin d Hd|pos begin d1 d2 bs Hd1 Hd2 Hl IH]; intros Hb.
  - pose proof (Hpos pos). apply Henc; [done..|lia].
  - pose proof (Hpos pos). apply Forall_app in Hb as [Hb1 Hb2]. rewrite app_assoc. apply Forall_app.
    split; [apply Henc; [done..|lia]|by apply IH].
Qed.

Lemma log_bytes pos rs bs : log_layout pos rs bs -> Forall bytes rs -> forall D C', bs = D ++ C' -> bytes D.
Proof.
  intros Hl Hb D C' E. apply (bytes_app_inv D C'). rewrite <- E. clear E D C'.
  induction Hl as [|pos x rs b bs Hlay Hl IH]; [constructor|]. apply Forall_cons in Hb as [Hx Hb].
  apply Forall_app. split; [by eapply bytes_layout|by apply IH].
Qed.

Lemma read_layout pos begin d bs : layout pos begin d bs -> forall F1 F2 e r fuel prosp scratch frag,
  reader_at (F1 ++ bs ++ F2) pos e r -> zlen F1 = pos -> bytes d -> bytes F2 -> (begin = true -> scratch = []) ->
  0 <= prosp -> (unread r < fuel)%nat ->
  exists e' r', ReadRecord_loop fuel (negb begin) prosp scratch frag r = Ok (Some (scratch ++ d), r') /\
    reader_at (F1 ++ bs ++ F2) (pos + zlen bs) e' r' /\ reports r' = reports r /\ 0 <= last_record_offset_ r'.
Proof.
  induction 1 as [pos begin d Hd|pos begin d1 d2 bs Hd1 Hd2 Hlay IH]; intros F1 F2 e r fuel prosp scratch frag Hr HF1 Hb HbF Hscr Hpr Hf;
    (destruct fuel as [|fuel]; [lia|]); cbn [ReadRecord_loop].
  - rewrite <- app_assoc in Hr |- *.
    destruct (read_fragment F1 F2 pos e r frag (record_type begin true) d Hr HF1 Hd (record_type_range _ _) Hb HbF)
      as (e1 & r1 & -> & Hr1 & Hs1 & Hrep1 & Hu1).
    cbn [mbind result_bind]. rewrite length_app, Nat2Z.inj_add, length_enc.
    replace (pos + (zlen (pad pos) + (kHeaderSize + zlen d))) with (pos + zlen (pad pos) + kHeaderSize + zlen d) by lia.
    destruct begin; cbn [negb record_type andb].
    + rewrite (Hscr eq_refl). change (kFullType =? kFullType) with true. cbv iota.
      exists e1. eexists. split; [done|]. split; [by destruct Hr1; split|]. split; [done|]. apply u64_range.
    + exists e1. eexists. split; [done|]. split; [by destruct Hr1; split|]. by split.
  - apply Forall_app in Hb as [Hb1 Hb2]. rewrite <- !app_assoc in Hr |- *.
    destruct (read_fragment F1 (bs ++ F2) pos e r frag (record_type begin false) d1 Hr HF1 ltac:(lia) (record_type_range _ _) Hb1)
      as (e1 & r1 & -> & Hr1 & Hs1 & Hrep1 & Hu1).
    { apply Forall_app. split; [by eapply bytes_layout|done]. }
    cbn [mbind result_bind]. specialize (IH (F1 ++ pad pos ++ enc (record_type begin false) d1) F2 e1).
    rewrite <- !app_assoc in IH. rewrite !length_app, !Nat2Z.inj_add, length_enc in IH |- *.
    replace (pos + (zlen (pad pos) + (kHeaderSize + zlen d1 + zlen bs)))
      with (pos + zlen (pad pos) + kHeaderSize + zlen d1 + zlen bs) by lia.
    destruct begin; cbn [negb record_type andb].
    + rewrite (Hscr eq_refl). change (kFirstType =? kFullType) with false. change (kFirstType =? kFirstType) with true.
      cbv iota. destruct (IH r1 fuel (u64 (end_of_buffer_offset_ r - zlen (buffer_ r))) d1 d1) as (e2 & r2 & E & Hr2 & Hrep2 & Hi2);
        try done; try lia; [apply u64_range|].
      exists e2, r2. rewrite <- Hrep1. done.
    + change (kMiddleType =? kFullType) with false. change (kMiddleType =? kFirstType) with false.
      change (kMiddleType =? kMiddleType) with true. cbv iota.
      destruct (IH r1 fuel prosp (scratch ++ d1) d1) as (e2 & r2 & E & Hr2 & Hrep2 & Hi2); try done; try lia.
      exists e2, r2. rewrite <- Hrep1, (app_assoc scratch). done.
Qed.

(** The first fragment is cut. *)
Lemma read_piece_cut pos t d C C' F1 e r fuel inf prosp scratch frag :
  reader_at (F1 ++ C) pos e r -> pad pos ++ enc t d = C ++ C' -> C' <> [] -> zlen F1 = pos -> zlen d <= avail pos ->
  0 <= t <= 4 -> bytes d -> (unread r < fuel)%nat ->
  exists r', ReadRecord_loop fuel inf prosp scratch frag r = Ok (None, r') /\
    (C = [] -> inf = false -> reports r' = reports r).
Proof.
  intros Hr HC HC' HF1 Hd Ht Hb Hf. destruct fuel as [|fuel]; [lia|].
  cbn [ReadRecord_loop].
  destruct (read_cut F1 C C' pos e r frag t d Hr HF1 HC HC' Hd Ht Hb) as (r1 & [[-> Hrep]|(-> & Heof & HCne & Hu)]);
    cbn [mbind result_bind].
  - destruct inf; eexists; (split; [done|]); [done|]. intros ? _. by apply Hrep.
  - change (kBadRecord =? kFullType) with false. change (kBadRecord =? kFirstType) with false.
    change (kBadRecord =? kMiddleType) with false. change (kBadRecord =? kLastType) with false.
    change (kBadRecord =? kEof) with false. change (kBadRecord =? kBadRecord) with true. cbv iota.
    destruct fuel as [|fuel]; [lia|].
    destruct inf; cbn [ReadRecord_loop]; (rewrite read_at_eof; [eexists; split; [done|done]|]); [|done].
    destruct (report_same (zlen scratch) ErrorInMiddle r1) as (R1 & R2 & _), Heof. split; congruence.
Qed.

(** A record that is not complete is not returned. *)
Lemma read_layout_cut pos begin d bs : layout pos begin d bs -> forall F1 C C' e r fuel prosp scratch frag,
  reader_at (F1 ++ C) pos e r -> bs = C ++ C' -> C' <> [] -> zlen F1 = pos -> bytes d -> (unread r < fuel)%nat ->
  exists r', ReadRecord_loop fuel (negb begin) prosp scratch frag r = Ok (None, r') /\
    (C = [] -> begin = true -> reports r' = reports r).
Proof.
  assert (Hty : forall b e, 0 <= record_type b e <= 4) by (intros b e; pose proof (record_type_range b e); lia).
  induction 1 as [pos begin d Hd|pos begin d1 d2 bs Hd1 Hd2 Hlay IH];
    intros F1 C C' e r fuel prosp scratch frag Hr HC HC' HF1 Hb Hf.
  - destruct (read_piece_cut pos (record_type begin true) d C C' F1 e r fuel (negb begin) prosp scratch frag) as (r' & E & Hrep); try done.
    exists r'. split; [done|]. intros ? ->. by apply Hrep.
  - apply Forall_app in Hb as [Hb1 Hb2]. set (piece := pad pos ++ enc (record_type begin false) d1).
    assert (HCs : (exists D, D <> [] /\ piece = C ++ D) \/ (exists D, C = piece ++ D /\ bs = D ++ C')).
    { rewrite app_assoc in HC. apply app_eq_app in HC as (D & [[H1 H2]|[H1 H2]]); [|right; by exists D].
      destruct (decide (D = [])) as [->|]; [right; exists []|left; by exists D]. rewrite app_nil_r in H1 |- *. done. }
    destruct HCs as [(D & HDne & H1)|(D & -> & H2)].
    { destruct (read_piece_cut pos (record_type begin false) d1 C D F1 e r fuel (negb begin) prosp scratch frag)
        as (r' & E & Hrep); try done; [lia|]. exists r'. split; [done|]. intros ? ->. by apply Hrep. }
    pose proof (bytes_layout _ _ _ _ Hlay Hb2) as HbD. rewrite H2 in HbD. apply bytes_app_inv in HbD as [HbD _].
    destruct fuel as [|fuel]; [lia|]. cbn [ReadRecord_loop]. unfold piece in *. rewrite <- app_assoc in Hr.
    destruct (read_fragment F1 D pos e r frag (record_type begin false) d1 Hr HF1 ltac:(lia) (record_type_range _ _) Hb1 HbD)
      as (e1 & r1 & -> & Hr1 & Hs1 & Hrep1 & Hu1).
    cbn [mbind result_bind]. specialize (IH (F1 ++ pad pos ++ enc (record_type begin false) d1) D C' e1).
    rewrite <- !app_assoc in IH. rewrite !length_app, !Nat2Z.inj_add, length_enc in IH.
    assert (Hne : (pad pos ++ enc (record_type begin false) d1) ++ D <> []).
    { intros E. apply (f_equal length) in E. rewrite !length_app in E. pose proof (length_enc (record_type begin false) d1).
      unfold kHeaderSize in *. simpl in E. lia. }
    destruct begin; cbn [negb record_type andb].
    + change (kFirstType =? kFullType) with false. change (kFirstType =? kFirstType) with true. cbv iota.
      destruct (IH r1 fuel (u64 (end_of_buffer_offset_ r - zlen (buffer_ r))) d1 d1) as (r2 & E & _); try done; try lia.
      by exists r2.
    + change (kMiddleType =? kFullType) with false. change (kMiddleType =? kFirstType) with false.
      change (kMiddleType =? kMiddleType) with true. cbv iota.
      destruct (IH r1 fuel prosp (scratch ++ d1) d1) as (r2 & E & _); try done; try lia. by exists r2.
Qed.

Lemma layout_det pos begin d bs bs' : layout pos begin d bs -> layout pos begin d bs' -> bs = bs'.
Proof.
  intros Hl. revert bs'. induction Hl as [pos begin d Hd|pos begin d1 d2 bs Hd1 Hd2 Hl IH]; intros bs' Hl'.
  - inversion Hl' as [|? ? d1 d2 bs2 Hd1 Hd2]; subst; [done|].
    rewrite length_app in Hd. assert (0 < length d2)%nat by (destruct d2; [done|simpl; lia]). lia.
  - assert (H2 : (0 < length d2)%nat) by (destruct d2; [done|simpl; lia]).
    inversion Hl' as [? ? ? Hd|? ? d1' d2' bs2 Hd1' Hd2' Hl2 E1 E2 E3]; subst.
    { rewrite length_app in Hd. lia. }
    apply app_inj_1 in E3 as [-> ->]; [|lia]. by rewrite (IH _ Hl2).
Qed.

Lemma log_layout_det pos rs bs bs' : log_layout pos rs bs -> log_layout pos rs bs' -> bs = bs'.
Proof.
  intros Hl. revert bs'. induction Hl as [pos|pos x rs b bs Hb Hl IH]; intros bs' Hl'; inversion Hl' as [|? ? ? b' ? Hb' Hl2]; [done|].
  subst. rewrite (layout_det _ _ _ _ _ Hb Hb') in *. f_equal. by apply IH.
Qed.

Lemma ReadRecord_start r : initial_offset_ r = 0 -> 0 <= last_record_offset_ r ->
  ReadRecord r = ReadRecord_loop (S (unread r)) false 0 [] [] r.
Proof. intros Hi Hl. unfold ReadRecord. rewrite Hi, (proj2 (Z.ltb_ge _ _)) by lia. done. Qed.

(** Reading what is left of a log until the reader gives up. *)
Lemma read_all_cut pos rs bs : log_layout pos rs bs -> forall F1 C C' e r,
  bs = C ++ C' -> reader_at (F1 ++ C) pos e r -> zlen F1 = pos -> Forall bytes rs -> 0 <= last_record_offset_ r ->
  exists k r' b, read_all (S (length rs)) r = Ok (take k rs, r') /\ (k <= length rs)%nat /\
    log_layout pos (take k rs) b /\ zlen b <= zlen C /\
    ((k < length rs)%nat -> exists b', log_layout pos (take (S k) rs) b' /\ zlen C < zlen b') /\
    (C' = [] -> k = length rs /\ reports r' = reports r).
Proof.
  induction 1 as [pos|pos x rs b bs Hlay Hlog IH]; intros F1 C C' e r HC Hr HF1 Hb Hl; cbn [read_all];
    (rewrite ReadRecord_start; [|apply (ra_initial _ _ _ _ Hr)|done]).
  - symmetry in HC. apply app_eq_nil in HC as [-> ->].
    assert (Hnext : layout pos true [] (pad pos ++ enc (record_type true true) [])).
    { apply lay_last. change (zlen []) with 0. apply avail_range. lia. }
    destruct (read_layout_cut _ _ _ _ Hnext F1 [] (pad pos ++ enc (record_type true true) []) e r (S (unread r)) 0 [] [])
      as (r' & E & Hrep); try done; [by apply layout_nonempty in Hnext|lia|].
    cbn [negb] in E. rewrite E. exists 0%nat, r', []. split_and!; try done; [constructor|simpl; lia|]. intros _. split; [done|by apply Hrep].
  - apply Forall_cons in Hb as [Hbx Hbs]. pose proof (bytes_layout _ _ _ _ Hlay Hbx) as Hbb.
    assert (HCs : (exists D, D <> [] /\ b = C ++ D) \/ (exists D, C = b ++ D /\ bs = D ++ C')).
    { apply app_eq_app in HC as (D & [[H1 H2]|[H1 H2]]); [|right; by exists D].
      destruct (decide (D = [])) as [->|]; [right; exists []|left; by exists D]. rewrite app_nil_r in H1 |- *. done. }
    destruct HCs as [(D & HDne & H1)|(D & -> & H2)].
    + destruct (read_layout_cut _ _ _ _ Hlay F1 C D e r (S (unread r)) 0 [] []) as (r' & E & _); try done; [lia|].
      cbn [negb] in E. rewrite E. cbn [mbind result_bind]. exists 0%nat, r', []. split_and!; try done; [lia|constructor|simpl; lia| |].
      * intros _. exists (b ++ []). split; [apply log_cons; [done|constructor]|]. rewrite app_nil_r, H1, length_app.
        destruct D; [done|simpl; lia].
      * intros ->. rewrite app_nil_r in HC. rewrite H1 in HC. apply (f_equal length) in HC.
        rewrite !length_app in HC. destruct D; [done|simpl in HC; lia].
    + assert (HbD : bytes D) by (by apply (log_bytes _ _ _ Hlog Hbs D C')).
      destruct (read_layout _ _ _ _ Hlay F1 D e r (S (unread r)) 0 [] []) as (e1 & r1 & E & Hr1 & Hrep1 & Hl1); try done; [lia|].
      cbn [negb] in E. rewrite E. cbn [mbind result_bind]. rewrite app_assoc in Hr1.
      destruct (IH (F1 ++ b) D C' e1 r1 H2 Hr1) as (k & r2 & b1 & E2 & Hk & Hlog1 & Hle & Hmax & Hend); try done.
      { rewrite length_app. lia. }
      fold (read_all). change (S (length (x :: rs))) with (S (S (length rs))) in *. cbn [length].
      rewrite E2. cbn [mbind result_bind]. exists (S k), r2, (b ++ b1). split_and!; try done; [lia|by apply log_cons| | |].
      * rewrite !length_app. lia.
      * intros Hk'. destruct Hmax as (b2 & Hb2 & Hlt); [lia|]. exists (b ++ b2). split; [by apply log_cons|].
        rewrite !length_app. lia.
      * intros HC'. destruct (Hend HC') as [-> Hrep2]. split; [done|congruence].
Qed.

(** ** The reader on arbitrary bytes *)

Definition reader_bytes (r : Reader) : Prop := bytes (buffer_ r) /\ bytes (sf_data (file_ r)).

Lemma le_bytes_value l : bytes l -> le_bytes (length l) (le_value l) = l.
Proof.
  induction 1 as [|b l Hb _ IH]; [done|]. cbn [length le_bytes le_value]. unfold byte_of.
  rewrite (lor_shiftl b (le_value l) 8) by (try done; lia). rewrite Z.shiftr_div_pow2 by lia. change (2 ^ 8) with 256.
  rewrite Z_mod_plus_full, Z.mod_small, Z.div_add, Z.div_small by lia. by rewrite Z.add_0_l, IH.
Qed.

Lemma report_bytes n why r : reader_bytes r -> reader_bytes (ReportCorruption n why r).
Proof. destruct (report_same n why r) as (E1 & _ & E2). unfold reader_bytes. by rewrite E1, E2. Qed.

Lemma report_unread n why r : unread (ReportCorruption n why r) = unread r.
Proof. destruct (report_same n why r) as (E1 & _ & E2). unfold unread. by rewrite E1, E2. Qed.

Lemma clear_bytes r : reader_bytes r -> reader_bytes (clear_buffer r).
Proof. intros [_ ?]. by split. Qed.

#[local] Hint Resolve report_bytes clear_bytes : euno.

Lemma parse_total r frag : reader_bytes r -> 7 <= zlen (buffer_ r) ->
  exists t f r', parse_record r frag = Ok (t, f, r') /\ reader_bytes r' /\ (unread r' < unread r)%nat.
Proof.
  intros Hr H7. pose proof Hr as [Hb Hf]. destruct (buffer_ r) as [|b0 [|b1 [|b2 [|b3 [|a [|b [|c rest]]]]]]] eqn:E;
    simpl in H7; try lia.
  assert (Hb' : bytes [b0; b1; b2; b3] /\ 0 <= a < 256 /\ 0 <= b < 256 /\ bytes (c :: rest)).
  { change (bytes ([b0; b1; b2; b3] ++ [a; b] ++ c :: rest)) in Hb. rewrite !Forall_app in Hb.
    destruct Hb as (? & Hab & ?). apply Forall_cons in Hab as [? Hab]. apply Forall_cons in Hab as [? _]. done. }
  destruct Hb' as (Hb4 & Ha & Hb5 & Hrest).
  rewrite (parse_buffer r frag (le_value [b0; b1; b2; b3]) (a + b * 256) c rest); cycle 1.
  { rewrite E. unfold EncodeFixed32. change 4%nat with (length [b0; b1; b2; b3]). rewrite le_bytes_value by done.
    rewrite Z_mod_plus_full, Z.mod_small, Z.div_add, Z.div_small by lia. done. }
  { apply (le_value_range _ Hb4). }
  { lia. }
  { done. }
  assert (Hclear : forall n why, (unread (ReportCorruption n why (clear_buffer r)) < unread r)%nat).
  { intros. rewrite report_unread. unfold unread. simpl. rewrite E. simpl. lia. }
  assert (Hclear' : (unread (clear_buffer r) < unread r)%nat) by (unfold unread; simpl; rewrite E; simpl; lia).
  apply Forall_cons in Hrest as [Hc Hrest].
  repeat (case_match; [eexists _, _, _; split; [done|]; split; [by auto with euno|done]|]).
  cbv zeta. case_match; (eexists _, _, _; split; [done|]; split; [split; [by apply Forall_drop|done]|]);
    unfold unread; simpl; rewrite E, length_drop; simpl; lia.
Qed.

Lemma Read_total n r : reader_bytes r ->
  exists ok b f, Read n (file_ r) = (ok, b, f) /\ bytes b /\ bytes (sf_data f) /\
    (length b + length (sf_data f) = length (sf_data (file_ r)))%nat.
Proof.
  intros [_ Hf]. unfold Read. eexists _, _, _. split; [done|]. simpl.
  split; [by apply Forall_take|]. split; [by apply Forall_drop|]. rewrite length_take, length_drop. lia.
Qed.

Lemma ReadPhysicalRecord_total r frag : reader_bytes r ->
  exists t f r', ReadPhysicalRecord r frag = Ok (t, f, r') /\ reader_bytes r' /\ (unread r' <= unread r)%nat /\
    (t = kEof \/ (unread r' < unread r)%nat).
Proof.
  intros Hr. unfold ReadPhysicalRecord. cbn [ReadPhysicalRecord_loop]. unfold kHeaderSize.
  destruct (Z.ltb_spec (zlen (buffer_ r)) 7) as [Hs|Hs].
  2: { destruct (parse_total r frag Hr Hs) as (t & f & r' & -> & Hr' & Hu). exists t, f, r'. split_and!; try done; [lia|by right]. }
  assert (Heof : forall r1, reader_bytes r1 -> (unread r1 <= unread r)%nat -> exists t f r',
    (if zlen (buffer_ r1) =? 0 then Ok (kEof, frag, r1)
     else Ok (kEof, frag, ReportCorruption (zlen (buffer_ r1)) TruncatedAtEof (clear_buffer r1))) = Ok (t, f, r') /\
    reader_bytes r' /\ (unread r' <= unread r)%nat /\ (t = kEof \/ (unread r' < unread r)%nat)).
  { intros r1 Hr1 Hu. case_match; (eexists _, _, _; split; [done|]; split; [by auto with euno|]); [by split; [|left]|].
    rewrite report_unread. unfold unread in *. simpl. split; [lia|by left]. }
  destruct (eof_ r) eqn:He; cbn [negb]; [by apply Heof|].
  destruct (Read_total kBlockSize r Hr) as (ok & b & f & -> & Hb & Hf & Hlen).
  destruct ok; cbn [negb].
  - set (r0 := set_end _ _). set (r1 := if zlen b <? kBlockSize then set_eof true r0 else r0).
    assert (Hr1 : reader_bytes r1 /\ buffer_ r1 = b /\ sf_data (file_ r1) = sf_data f).
    { unfold r1. by destruct (zlen b <? kBlockSize). }
    destruct Hr1 as (Hr1 & Hb1 & Hf1). assert (Hu1 : (unread r1 <= unread r)%nat) by (unfold unread; rewrite Hb1, Hf1; lia).
    destruct (Z.ltb_spec (zlen (buffer_ r1)) 7) as [Hs1|Hs1].
    + assert (eof_ r1 = true) as ->; [|by apply Heof].
      unfold r1. rewrite (proj2 (Z.ltb_lt _ _)); [done|]. rewrite Hb1 in Hs1. unfold kBlockSize. lia.
    + destruct (parse_total r1 frag Hr1 Hs1) as (t & f' & r' & -> & Hr' & Hu). exists t, f', r'. split_and!; try done; [lia|right; lia].
  - eexists _, _, _. split; [done|]. set (r0 := clear_buffer _).
    assert (Hr0 : reader_bytes r0 /\ (unread r0 <= unread r)%nat).
    { split; [by split|]. unfold unread, r0. simpl. lia. }
    destruct Hr0 as [Hr0 Hu0]. pose proof (report_bytes kBlockSize IOError r0 Hr0) as Hr1.
    pose proof (report_unread kBlockSize IOError r0) as Hu1. unfold ReportCorruption in *.
    split; [done|]. split; [|by left]. change (unread (ReportDrop kBlockSize IOError r0) <= unread r)%nat. lia.
Qed.

Lemma ReadRecord_loop_total fuel : forall inf prosp scratch frag r, reader_bytes r -> (unread r < fuel)%nat ->
  exists o r', ReadRecord_loop fuel inf prosp scratch frag r = Ok (o, r') /\ reader_bytes r' /\
    (unread r' <= unread r)%nat /\ (o <> None -> (unread r' < unread r)%nat).
Proof.
  induction fuel as [|fuel IH]; intros inf prosp scratch frag r Hr Hf; [lia|]. cbn [ReadRecord_loop].
  destruct (ReadPhysicalRecord_total r frag Hr) as (t & f & r1 & -> & Hr1 & Hu & Ht). cbn [mbind result_bind].
  assert (Hgo : t <> kEof -> forall inf prosp scratch frag r', reader_bytes r' -> unread r' = unread r1 ->
    exists o r2, ReadRecord_loop fuel inf prosp scratch frag r' = Ok (o, r2) /\ reader_bytes r2 /\
      (unread r2 <= unread r)%nat /\ (o <> None -> (unread r2 < unread r)%nat)).
  { intros Hne inf' p' s' f' r' Hb' Hu'. destruct Ht as [|Ht]; [done|].
    destruct (IH inf' p' s' f' r' Hb') as (o & r2 & E & Hr2 & Hu2 & Ho2); [lia|]. exists o, r2. split_and!; try done; lia. }
  assert (Hpart : forall n, reader_bytes (if inf && (0 <? zlen scratch) then ReportCorruption (zlen scratch) (PartialRecord n) r1 else r1)
    /\ unread (if inf && (0 <? zlen scratch) then ReportCorruption (zlen scratch) (PartialRecord n) r1 else r1) = unread r1).
  { intros n. destruct (inf && (0 <? zlen scratch)); [split; [by auto with euno|apply report_unread]|done]. }
  assert (Hrep : forall n why, reader_bytes (ReportCorruption n why r1) /\ unread (ReportCorruption n why r1) = unread r1).
  { intros. split; [by auto with euno|apply report_unread]. }
  assert (Hlast : forall x o r', t <> kEof -> reader_bytes r' -> unread r' = unread r1 ->
    exists o' r2, Ok (Some x : option (list Z), set_last o r') = Ok (o', r2) /\ reader_bytes r2 /\
      (unread r2 <= unread r)%nat /\ (o' <> None -> (unread r2 < unread r)%nat)).
  { intros x o r' Hne Hb' Hu'. eexists _, _. split; [done|]. change (reader_bytes (set_last o r')) with (reader_bytes r').
    change (unread (set_last o r')) with (unread r'). destruct Ht as [|Ht]; [done|]. split_and!; try done; lia. }
  destruct (Z.eqb_spec t kFullType) as [->|]; [by apply Hlast; [|apply Hpart..]|].
  destruct (Z.eqb_spec t kFirstType) as [->|]; [by apply Hgo; [|apply Hpart..]|].
  destruct (Z.eqb_spec t kMiddleType) as [->|]; [destruct inf; by apply Hgo; [|auto; apply Hrep..]|].
  destruct (Z.eqb_spec t kLastType) as [->|]; [destruct inf; [by apply Hlast|by apply Hgo; [|apply Hrep..]]|].
  destruct (Z.eqb_spec t kEof) as [->|].
  { destruct inf; (eexists _, _; split; [done|]); [destruct (Hrep (zlen scratch) (PartialRecord 3)) as [? E]; rewrite E|]; done. }
  destruct (Z.eqb_spec t kBadRecord) as [->|]; [destruct inf; by apply Hgo; [|auto; apply Hrep..]|].
  by apply Hgo; [|apply Hrep..].
Qed.

Lemma SkipToInitialBlock_bytes r : reader_bytes r ->
  reader_bytes (SkipToInitialBlock r).2 /\ (unread (SkipToInitialBlock r).2 <= unread r)%nat.
Proof.
  intros Hr. unfold SkipToInitialBlock. cbv zeta. match goal with |- context [set_end ?s r] => set (start := s) end.
  destruct (0 <? start); [|done]. unfold Skip. simpl. destruct (sf_status (file_ r)); simpl.
  - unfold ReportDrop. case_match; done.
  - destruct Hr as [Hb Hf]. split; [split; [done|by apply Forall_drop]|]. unfold unread. simpl. rewrite length_drop. lia.
Qed.

(** ** Results *)

Lemma Reader_new_at F rep chk store : reader_at F 0 0 (Reader_new (mkSFile F []) rep chk store 0).
Proof. split; simpl; try done; [constructor|]. symmetry. apply Z.ltb_ge. lia. Qed.

(** C11: A log survives a crash at any byte: of the file that [AddRecord] wrote,
    whatever the lengths of the records, the first [m] bytes give back exactly the
    records that are complete in them, in order and each once; the whole file
    gives back all records, and then nothing is reported as dropped. *)
Theorem log_crash_prefix (t store : addr) (rep chk : bool) (l : list (addr * list Z)) (m : nat) :
  Forall bytes l.*2 ->
  exists w0 w, Writer_new (mkWFile [] []) t = Ok w0 /\ add_all l w0 = Ok (true, w) /\
  exists k r, read_all (S (length l)) (Reader_new (mkSFile (take m (wf_data (dest_ w))) []) rep chk store 0)
                = Ok ((take k l).*2, r) /\
    (exists w1, add_all (take k l) w0 = Ok (true, w1) /\ (length (wf_data (dest_ w1)) <= m)%nat) /\
    ((k < length l)%nat -> exists w2, add_all (take (S k) l) w0 = Ok (true, w2) /\ (m < length (wf_data (dest_ w2)))%nat) /\
    ((length (wf_data (dest_ w)) <= m)%nat -> k = length l /\ reports r = []).
Proof.
  intros Hb. destruct (Writer_new_ok (mkWFile [] []) t) as (w0 & E0 & Hw0 & Hd0); [constructor|done|].
  assert (Hadd : forall l', Forall bytes l'.*2 -> exists w, add_all l' w0 = Ok (true, w) /\ log_layout 0 l'.*2 (wf_data (dest_ w))).
  { intros l' Hl'. destruct (add_all_ok l' w0 Hw0 Hl') as (w & bs & E & _ & Hd & Hlog). exists w. split; [done|].
    rewrite Hd0 in Hd, Hlog. simpl in Hd. by rewrite Hd. }
  destruct (Hadd l Hb) as (w & E & Hlog). exists w0, w. split_and!; [done..|].
  set (F := wf_data (dest_ w)) in *.
  destruct (read_all_cut 0 l.*2 F Hlog [] (take m F) (drop m F) 0 (Reader_new (mkSFile (take m F) []) rep chk store 0))
    as (k & r & b & Er & Hk & Hlogk & Hle & Hmax & Hend); try done; [by rewrite take_drop|apply Reader_new_at|].
  rewrite length_fmap in Er, Hk, Hmax, Hend. rewrite <- fmap_take in Er, Hlogk. exists k, r. split; [done|]. split_and!.
  - destruct (Hadd (take k l)) as (w1 & E1 & Hlog1); [rewrite fmap_take; by apply Forall_take|]. exists w1. split; [done|].
    rewrite (log_layout_det _ _ _ _ Hlog1 Hlogk). rewrite length_take in Hle. lia.
  - intros Hk'. destruct (Hmax Hk') as (b' & Hb' & Hlt). rewrite <- fmap_take in Hb'.
    destruct (Hadd (take (S k) l)) as (w2 & E2 & Hlog2); [rewrite fmap_take; by apply Forall_take|]. exists w2. split; [done|].
    rewrite (log_layout_det _ _ _ _ Hlog2 Hb'). rewrite length_take in Hlt.
    destruct (le_gt_dec (length F) m); [|lia]. exfalso. destruct Hend as [-> _]; [by apply drop_ge|lia].
  - intros Hm. destruct Hend as [-> Hrep]; [by apply drop_ge|done].
Qed.

Lemma log_crash_prefix_witness :
  exists w0 w, Writer_new (mkWFile [] []) 4096 = Ok w0 /\ add_all [(100, [1; 2]); (200, [])] w0 = Ok (true, w) /\
  exists k r, read_all 3 (Reader_new (mkSFile (take 10 (wf_data (dest_ w))) []) true true 8192 0)
                = Ok ((take k [(100, [1; 2]); (200, [])]).*2, r) /\
    (exists w1, add_all (take k [(100, [1; 2]); (200, [])]) w0 = Ok (true, w1) /\ (length (wf_data (dest_ w1)) <= 10)%nat) /\
    ((k < 2)%nat -> exists w2, add_all (take (S k) [(100, [1; 2]); (200, [])]) w0 = Ok (true, w2) /\
       (10 < length (wf_data (dest_ w2)))%nat) /\
    ((length (wf_data (dest_ w)) <= 10)%nat -> k = 2%nat /\ reports r = []).
Proof.
  apply (log_crash_prefix 4096 8192 true true [(100, [1; 2]); (200, [])] 10).
  repeat constructor; lia.
Defined.


(** A full record of two bytes, the second one changed. *)
Definition corrupted_reader : Reader :=
  set_buffer (take 6 (enc kFullType [1; 2]) ++ ([kFullType; 1] ++ [3] ++ []) ++ [9]) 64 (Reader_new (mkSFile [] []) true true 64 0).


(** The failure of the trailer is not noticed: every [AddRecord] reports success,
    and the second record cannot be read back. *)
Definition unnoticed_trailer : result (bool * list (list Z)) :=
  w ← Writer_new (mkWFile [] [None; None; None; Some 0%nat]) 0;
  '(s, w) ← add_all [(0, replicate (Z.to_nat (kBlockSize - 7 - 3)) 1); (0, [2; 3])] w;
  '(l, _) ← read_all 5 (Reader_new (mkSFile (wf_data (dest_ w)) []) true true 0 0);
  Ok (s, drop 1 l).

Example trailer_failure_unnoticed : unnoticed_trailer = Ok (true, []).
Proof. vm_compute. reflexivity. Qed.
