(* ===== verification/Persist.v ===== *)
(** * Persistence: the log buffers

    persistent/lbuf.h, persistent/pbuf.h and .cc, persistent/tbuf.h and .cc,
    persistent/log.h and .cc.  Every worker thread fills a [LocalPBuf] with the
    records of an epoch and hands it to one of two [TBuf]s when the epoch
    changes; the logger thread of a [TBuf] writes the frozen buffers to its
    file, gives them back for reuse and publishes the epoch up to which all is
    safe.  Buffers live in a heap and are linked through their [next] fields, as
    in the code.  The build defines [NDEBUG], so the [assert]s are absent. *)

From S2P Require Import Prelude Coding.

(** ** LocalPBuf *)

Definition BSIZE : Z := 128 * 1024 * 1024.

(** [lb_data] is the content of [buf[0 .. cur)]. *)
Record LocalPBuf := mkLBuf {
  lb_sn : Z;
  lb_data : list Z;
  lb_txns : Z;
  lb_earliest : Z;
  lb_next : addr
}.

Definition LocalPBuf_new : LocalPBuf := mkLBuf 0 [] 0 0 NULL.

Definition lb_cur (b : LocalPBuf) : Z := Z.of_nat (length (lb_data b)).

Definition EmptySlotNum (b : LocalPBuf) : Z := BSIZE - lb_cur b.

(** [now] is what [cur_usec] returns. *)
Definition SetSN (s now : Z) (b : LocalPBuf) : LocalPBuf :=
  mkLBuf s (lb_data b) (lb_txns b) (if lb_txns b =? 0 then now else lb_earliest b) (lb_next b).

Definition Reset (b : LocalPBuf) : LocalPBuf := mkLBuf 0 [] 0 0 NULL.

(** [memcpy] to [buf[cur]] *)
Definition append (l : list Z) (b : LocalPBuf) : result LocalPBuf :=
  if lb_cur b + Z.of_nat (length l) <=? BSIZE
  then Ok (mkLBuf (lb_sn b) (lb_data b ++ l) (lb_txns b) (lb_earliest b) (lb_next b))
  else Fault OutOfBounds.

(** The value part of a record copies [vlen] bytes from [&value], that is the
    pointer. *)
Definition PutRecord (tabid key seqno : Z) (value : addr) (vlen : Z) (b : LocalPBuf) : result LocalPBuf :=
  b ← append (EncodeFixed64 key) b;
  temp ← write_uvint64 seqno;
  if (8 <? length temp)%nat then Fault OutOfBounds
  else
    b ← append temp b;
    if value =? NULL then append (EncodeFixed64 (2 ^ 64 - 1)) b
    else if (vlen <? 0) || (8 <? vlen) then Fault OutOfBounds
    else append (take (Z.to_nat vlen) (EncodeFixed64 value)) b.

Definition set_next (n : addr) (b : LocalPBuf) : LocalPBuf :=
  mkLBuf (lb_sn b) (lb_data b) (lb_txns b) (lb_earliest b) n.

(** ** TBuf *)

Abbreviation heap := (gmap Z LocalPBuf) (only parsing).

(** [tb_log] is the content of the log file. *)
Record TBuf := mkTBuf {
  tb_frozenbufs : list addr;
  tb_frozennum : Z;
  tb_freebufs : addr;
  tb_flushbufs : list addr;
  tb_localsn : list Z;
  tb_safe_sn : Z;
  tb_log : list Z
}.

(** The constructor leaves [flushbufs] as it was allocated. *)
Definition TBuf_new (thr : nat) (flushbufs : list addr) : TBuf :=
  mkTBuf (replicate thr NULL) 0 NULL flushbufs (replicate thr 0) 0 [].

Definition get_buf (h : heap) (a : addr) : result LocalPBuf := from_opt NullDeref (h !! a).

Definition PublishLocalBuffer (tid : nat) (lbuf : addr) (tb : TBuf) (h : heap) : result (TBuf * heap) :=
  b ← get_buf h lbuf;
  old ← from_opt OutOfBounds (tb_frozenbufs tb !! tid);
  Ok (mkTBuf (<[tid := lbuf]> (tb_frozenbufs tb)) (tb_frozennum tb + 1) (tb_freebufs tb)
        (tb_flushbufs tb) (tb_localsn tb) (tb_safe_sn tb) (tb_log tb),
      <[lbuf := set_next old b]> h).

Definition GetFreeBuf (tb : TBuf) (h : heap) : result (addr * TBuf * heap) :=
  let lbuf := tb_freebufs tb in
  if lbuf =? NULL then Ok (NULL, tb, h)
  else
    b ← get_buf h lbuf;
    Ok (lbuf, mkTBuf (tb_frozenbufs tb) (tb_frozennum tb) (lb_next b) (tb_flushbufs tb)
                (tb_localsn tb) (tb_safe_sn tb) (tb_log tb),
        <[lbuf := Reset b]> h).

(** *** Writer *)

(** First part, under [frozenlock]: take the frozen buffers over. *)
Fixpoint grab_loop (h : heap) (frozen flush : list addr) (localsn : list Z) : result (list addr * list Z) :=
  match frozen, flush, localsn with
  | [], _, _ => Ok (flush, localsn)
  | f :: frozen, x :: flush, sn :: localsn =>
      '(x', sn') ← (if f =? NULL then Ok (x, sn) else b ← get_buf h f; Ok (f, lb_sn b));
      '(flush, localsn) ← grab_loop h frozen flush localsn;
      Ok (x' :: flush, sn' :: localsn)
  | _, _, _ => Fault OutOfBounds
  end.

Definition Writer_grab (tb : TBuf) (h : heap) : result (Z * TBuf) :=
  '(flush, localsn) ← grab_loop h (tb_frozenbufs tb) (tb_flushbufs tb) (tb_localsn tb);
  Ok (tb_frozennum tb,
      mkTBuf (replicate (length (tb_frozenbufs tb)) NULL) 0 (tb_freebufs tb) flush localsn
        (tb_safe_sn tb) (tb_log tb)).

Definition IOV_MAX : nat := 1024.

(** The output: the vectors collected and the file.  [writev] writes all of
    them. *)
Definition out : Type := list (list Z) * list Z.

Definition put_iov (data : list Z) (o : out) : out :=
  if (length data =? 0)%nat then o
  else
    let iovs := o.1 ++ [data] in
    if (length iovs =? IOV_MAX)%nat then ([], o.2 ++ concat iovs) else (iovs, o.2).

(** The inner loop over one thread's buffers, with the last one it saw. *)
Fixpoint walk (fuel : nat) (h : heap) (cur tail : addr) (o : out) : result (addr * out) :=
  if cur =? NULL then Ok (tail, o)
  else
    match fuel with
    | O => Fault OutOfFuel
    | S fuel => b ← get_buf h cur; walk fuel h (lb_next b) cur (put_iov (lb_data b) o)
    end.

Definition link_tail (tail cur : addr) (h : heap) : result heap :=
  if tail =? NULL then Ok h else b ← get_buf h tail; Ok (<[tail := set_next cur b]> h).

(** The loop over the threads: the buffers become one list from [lsbufs] to
    [tail]. *)
Fixpoint flush_loop (flush : list addr) (h : heap) (lsbufs tail : addr) (o : out) :
    result (heap * addr * addr * out) :=
  match flush with
  | [] => Ok (h, lsbufs, tail, o)
  | cur :: flush =>
      if cur =? NULL then flush_loop flush h lsbufs tail o
      else
        let lsbufs := if lsbufs =? NULL then cur else lsbufs in
        h ← link_tail tail cur h;
        '(tail, o) ← walk (size h) h cur cur o;
        flush_loop flush h lsbufs tail o
  end.

(** The last vectors are written and the file is synchronised. *)
Definition Writer_flush (tb : TBuf) (h : heap) : result (TBuf * heap * addr * addr) :=
  '(h, lsbufs, tail, o) ← flush_loop (tb_flushbufs tb) h NULL NULL ([], tb_log tb);
  Ok (mkTBuf (tb_frozenbufs tb) (tb_frozennum tb) (tb_freebufs tb)
        (replicate (length (tb_flushbufs tb)) NULL) (tb_localsn tb) (tb_safe_sn tb)
        (o.2 ++ concat o.1), h, lsbufs, tail).

(** Under [freelock]: the written buffers go in front of the free list. *)
Definition Writer_free (lsbufs tail : addr) (tb : TBuf) (h : heap) : result (TBuf * heap) :=
  if tail =? NULL then Ok (tb, h)
  else
    h ← link_tail tail (tb_freebufs tb) h;
    Ok (mkTBuf (tb_frozenbufs tb) (tb_frozennum tb) lsbufs (tb_flushbufs tb) (tb_localsn tb)
          (tb_safe_sn tb) (tb_log tb), h).

Definition min_sn (localsn : list Z) : Z :=
  fold_left (fun minsn sn => if sn =? 0 then minsn
                             else if (minsn =? 0) || (sn <? minsn) then sn else minsn) localsn 0.

Definition Writer_safe (tb : TBuf) : TBuf :=
  let minsn := min_sn (tb_localsn tb) in
  mkTBuf (tb_frozenbufs tb) (tb_frozennum tb) (tb_freebufs tb) (tb_flushbufs tb) (tb_localsn tb)
    (if 0 <? minsn then minsn - 1 else 0) (tb_log tb).

Definition Writer (tb : TBuf) (h : heap) : result (TBuf * heap) :=
  '(num, tb) ← Writer_grab tb h;
  '(tb, h, lsbufs, tail) ← Writer_flush tb h;
  '(tb, h) ← Writer_free lsbufs tail tb h;
  Ok (Writer_safe tb, h).

(** ** PBuf *)

Definition g_max_lag_epochs : Z := 8096.

Record per_epoch_stats := mkStats { pe_ntxns : Z; pe_earliest : Z }.

(** [pb_stats]: per thread, the statistics of the epochs. *)
Record PBuf := mkPBuf {
  pb_lbuf : list addr;
  pb_tbufs : list TBuf;
  pb_heap : gmap Z LocalPBuf;
  pb_brk : addr;
  pb_stats : list (gmap Z per_epoch_stats);
  pb_safe_sn : Z
}.

Definition buf_size : Z := 64.

Definition new_LocalPBuf (h : heap) (brk : addr) : addr * heap * addr :=
  (brk, <[brk := LocalPBuf_new]> h, brk + buf_size).

Fixpoint new_lbufs (n : nat) (h : heap) (brk : addr) : list addr * heap * addr :=
  match n with
  | O => ([], h, brk)
  | S n =>
      let '(a, h, brk) := new_LocalPBuf h brk in
      let '(l, h, brk) := new_lbufs n h brk in
      (a :: l, h, brk)
  end.

(** The constructor; [fl0] and [fl1] are the uninitialised arrays. *)
Definition PBuf_new (thr : nat) (fl0 fl1 : list addr) (brk : addr) : PBuf :=
  let '(l, h, brk) := new_lbufs thr ∅ brk in
  mkPBuf l [TBuf_new thr fl0; TBuf_new thr fl1] h brk (replicate thr ∅) 0.

Definition upd_stats (snidx : Z) (b : LocalPBuf) (m : gmap Z per_epoch_stats) : gmap Z per_epoch_stats :=
  let e := default (mkStats 0 0) (m !! snidx) in
  <[snidx := mkStats (u64 (pe_ntxns e + lb_txns b))
     (if (pe_earliest e =? 0) || (lb_earliest b <? pe_earliest e) then lb_earliest b else pe_earliest e)]> m.

(** The free buffer [FrozeLocalBuffer] continues with. *)
Definition next_buf (tbs : list TBuf) (h : heap) (brk : addr) : result (addr * list TBuf * heap * addr) :=
  t0 ← from_opt OutOfBounds (tbs !! 0%nat);
  '(a, t0, h) ← GetFreeBuf t0 h;
  let tbs := <[0%nat := t0]> tbs in
  if a =? NULL then
    t1 ← from_opt OutOfBounds (tbs !! 1%nat);
    '(a, t1, h) ← GetFreeBuf t1 h;
    let tbs := <[1%nat := t1]> tbs in
    if a =? NULL then let '(a, h, brk) := new_LocalPBuf h brk in Ok (a, tbs, h, brk)
    else Ok (a, tbs, h, brk)
  else Ok (a, tbs, h, brk).

Definition FrozeLocalBuffer (idx : nat) (p : PBuf) : result PBuf :=
  a ← from_opt OutOfBounds (pb_lbuf p !! idx);
  b ← get_buf (pb_heap p) a;
  st ← from_opt OutOfBounds (pb_stats p !! idx);
  let st := upd_stats (lb_sn b mod g_max_lag_epochs) b st in
  tb ← from_opt OutOfBounds (pb_tbufs p !! (idx mod 2)%nat);
  '(tb, h) ← PublishLocalBuffer idx a tb (pb_heap p);
  '(a, tbs, h, brk) ← next_buf (<[(idx mod 2)%nat := tb]> (pb_tbufs p)) h (pb_brk p);
  Ok (mkPBuf (<[idx := a]> (pb_lbuf p)) tbs h brk (<[idx := st]> (pb_stats p)) (pb_safe_sn p)).

Definition upd_lbuf (tid : nat) (f : LocalPBuf -> result LocalPBuf) (p : PBuf) : result PBuf :=
  a ← from_opt OutOfBounds (pb_lbuf p !! tid);
  b ← get_buf (pb_heap p) a;
  b ← f b;
  Ok (mkPBuf (pb_lbuf p) (pb_tbufs p) (<[a := b]> (pb_heap p)) (pb_brk p) (pb_stats p) (pb_safe_sn p)).

Definition count_txn (b : LocalPBuf) : result LocalPBuf :=
  Ok (mkLBuf (lb_sn b) (lb_data b) (lb_txns b + 1) (lb_earliest b) (lb_next b)).

(** [recnum] is the number of bytes [WriteUpdateRecords] has computed. *)
Definition RecordTX (tid : nat) (sn recnum now : Z) (p : PBuf) : result PBuf :=
  if recnum =? 0 then Ok p
  else
    a ← from_opt OutOfBounds (pb_lbuf p !! tid);
    b ← get_buf (pb_heap p) a;
    p ← (if (EmptySlotNum b <? recnum) || negb (lb_sn b =? sn) then
           p ← FrozeLocalBuffer tid p;
           upd_lbuf tid (fun b => Ok (SetSN sn now b)) p
         else Ok p);
    upd_lbuf tid count_txn p.

Definition WriteRecord (tid : nat) (tabid key seqno : Z) (value : addr) (vlen : Z) (p : PBuf) : result PBuf :=
  upd_lbuf tid (PutRecord tabid key seqno value vlen) p.

Fixpoint FrozeAll_loop (idxs : list nat) (p : PBuf) : result PBuf :=
  match idxs with
  | [] => Ok p
  | i :: idxs => p ← FrozeLocalBuffer i p; FrozeAll_loop idxs p
  end.

Definition FrozeAllBuffer (p : PBuf) : result PBuf := FrozeAll_loop (seq 0 (length (pb_lbuf p))) p.

(** A round of the logger thread of [TBuf] number [k] ([TBuf::loggerThread]). *)
Definition logger_round (k : nat) (p : PBuf) : result PBuf :=
  tb ← from_opt OutOfBounds (pb_tbufs p !! k);
  '(tb, h) ← Writer tb (pb_heap p);
  Ok (mkPBuf (pb_lbuf p) (<[k := tb]> (pb_tbufs p)) h (pb_brk p) (pb_stats p) (pb_safe_sn p)).

(** [Sync]: both logger threads see [sync_] and run once more. *)
Definition Sync (p : PBuf) : result PBuf :=
  p ← FrozeAllBuffer p;
  p ← logger_round 0 p;
  logger_round 1 p.

Definition GetSafeSN (p : PBuf) : result (Z * PBuf) :=
  t0 ← from_opt OutOfBounds (pb_tbufs p !! 0%nat);
  t1 ← from_opt OutOfBounds (pb_tbufs p !! 1%nat);
  let s := if (1 <? length (pb_lbuf p))%nat then
             if tb_safe_sn t0 <? tb_safe_sn t1 then tb_safe_sn t0 else tb_safe_sn t1
           else tb_safe_sn t0 in
  Ok (s, mkPBuf (pb_lbuf p) (pb_tbufs p) (pb_heap p) (pb_brk p) (pb_stats p) s).

(** [DBTables::WriteUpdateRecords]: the writes of a committed transaction, as
    (table, key, sequence number, value, value length). *)
Definition LogRec : Type := Z * Z * Z * addr * Z.

Fixpoint write_records (tid : nat) (l : list LogRec) (p : PBuf) : result PBuf :=
  match l with
  | [] => Ok p
  | (tabid, key, seqno, value, vlen) :: l =>
      p ← WriteRecord tid tabid key seqno value vlen p; write_records tid l p
  end.

Definition record_bytes (l : list LogRec) : Z := fold_right (fun r n => 4 + 8 + 8 + r.2 + n) 0 l.

Definition WriteUpdateRecords (tid : nat) (sn now : Z) (l : list LogRec) (p : PBuf) : result PBuf :=
  match l with
  | [] => Ok p
  | _ => p ← RecordTX tid sn (record_bytes l) now p; write_records tid l p
  end.

(** ** Records *)

Lemma append_ok l b :
  lb_cur b + Z.of_nat (length l) <= BSIZE ->
  append l b = Ok (mkLBuf (lb_sn b) (lb_data b ++ l) (lb_txns b) (lb_earliest b) (lb_next b)).
Proof. intros Hle. unfold append. by rewrite (proj2 (Z.leb_le _ _) Hle). Qed.

(** The bytes of the value part. *)
Definition value_bytes (value : addr) (vlen : Z) : list Z :=
  if value =? NULL then EncodeFixed64 (2 ^ 64 - 1) else take (Z.to_nat vlen) (EncodeFixed64 value).

Lemma length_value_bytes value vlen : (length (value_bytes value vlen) <= 8)%nat.
Proof.
  unfold value_bytes, EncodeFixed64. case_match; rewrite ?length_take, length_le_bytes; lia.
Qed.

Lemma PutRecord_spec tabid key seqno value vlen b :
  0 <= seqno < 2 ^ 64 -> 0 <= vlen <= 8 -> lb_cur b + 26 <= BSIZE ->
  exists temp, varint seqno temp /\
    PutRecord tabid key seqno value vlen b =
      if 2 ^ 56 <=? seqno then Fault OutOfBounds
      else Ok (mkLBuf (lb_sn b) (lb_data b ++ EncodeFixed64 key ++ temp ++ value_bytes value vlen)
                 (lb_txns b) (lb_earliest b) (lb_next b)).
Proof.
  intros Hs Hv Hroom. destruct (write_uvint64_varint seqno Hs) as (temp & Et & Ht). exists temp. split; [done|].
  assert (length (EncodeFixed64 key) = 8%nat) as Hk by apply length_le_bytes.
  assert (length temp <= 10)%nat as Ht10.
  { apply (varint_length_le seqno temp 10); [lia|done|]. change (128 ^ Z.of_nat 10) with (2 ^ 70). lia. }
  pose proof (varint_length_le seqno temp 8 ltac:(lia) Ht) as Ht8.
  change (128 ^ Z.of_nat 8) with (2 ^ 56) in Ht8.
  unfold PutRecord. rewrite append_ok by (rewrite Hk; lia). unfold mbind, result_bind. rewrite Et.
  destruct (Z.leb_spec (2 ^ 56) seqno) as [Hbig|Hsmall].
  - replace (8 <? length temp)%nat with true; [done|]. symmetry. apply Nat.ltb_lt. lia.
  - replace (8 <? length temp)%nat with false by (symmetry; apply Nat.ltb_ge; lia).
    pose proof (length_value_bytes value vlen) as Hvb.
    rewrite append_ok by (unfold lb_cur in *; simpl; rewrite length_app, Hk; lia).
    replace ((vlen <? 0) || (8 <? vlen)) with false by lia.
    assert (forall l, l = value_bytes value vlen -> append l
      (mkLBuf (lb_sn b) ((lb_data b ++ EncodeFixed64 key) ++ temp) (lb_txns b) (lb_earliest b) (lb_next b)) =
      Ok (mkLBuf (lb_sn b) (lb_data b ++ EncodeFixed64 key ++ temp ++ value_bytes value vlen)
           (lb_txns b) (lb_earliest b) (lb_next b))) as Happ.
    { intros l ->. rewrite append_ok; [cbn [lb_data]; by rewrite <- !app_assoc|].
      unfold lb_cur in *. simpl. rewrite !length_app, Hk. lia. }
    cbn [lb_sn lb_data lb_txns lb_earliest lb_next]. unfold value_bytes in *.
    destruct (value =? NULL); by apply Happ.
Qed.

(** The log record of a write is readable up to its value: the eight bytes
    of the key and the variable-length sequence number are decoded by the
    functions of util/coding, and what follows are the first [vlen] bytes of the
    value {e pointer} (eight bytes [0xff] for a deletion). *)
Lemma log_record_roundtrip tabid key seqno value vlen b :
  0 <= key < 2 ^ 64 -> 0 <= seqno < 2 ^ 56 -> 0 <= vlen <= 8 -> lb_cur b + 26 <= BSIZE ->
  exists rec b', PutRecord tabid key seqno value vlen b = Ok b' /\ lb_data b' = lb_data b ++ rec /\
    DecodeFixed64 rec = Ok key /\ GetVarint64 (drop 8 rec) = Some (seqno, value_bytes value vlen).
Proof.
  intros Hk Hs Hv Hroom. destruct (PutRecord_spec tabid key seqno value vlen b) as (temp & Ht & ->); try lia.
  replace (2 ^ 56 <=? seqno) with false by lia. do 2 eexists. split; [done|]. split; [done|].
  split; [exact (DecodeFixed_le 8 key _ Hk)|].
  rewrite drop_app_length' by (symmetry; apply length_le_bytes). apply GetVarint64_varint; [done|lia].
Qed.

(** [PutRecord] overruns its eight-byte array [temp] exactly when the
    sequence number needs more than 56 bits; below that bound a record takes at
    most 24 bytes and stays inside the buffer. *)
Lemma log_record_bounds tabid key seqno value vlen b :
  0 <= seqno < 2 ^ 64 -> 0 <= vlen <= 8 -> lb_cur b + 26 <= BSIZE ->
  (2 ^ 56 <= seqno -> PutRecord tabid key seqno value vlen b = Fault OutOfBounds) /\
  (seqno < 2 ^ 56 -> exists b', PutRecord tabid key seqno value vlen b = Ok b' /\
     lb_cur b' <= lb_cur b + 24 /\ lb_cur b' < BSIZE).
Proof.
  intros Hs Hv Hroom. destruct (PutRecord_spec tabid key seqno value vlen b) as (temp & Ht & ->); try lia. split.
  - intros Hbig. by rewrite (proj2 (Z.leb_le _ _) Hbig).
  - intros Hsmall. replace (2 ^ 56 <=? seqno) with false by lia. eexists. split; [done|].
    pose proof (varint_length_le seqno temp 8 ltac:(lia) Ht) as Ht8.
    change (128 ^ Z.of_nat 8) with (2 ^ 56) in Ht8. pose proof (length_value_bytes value vlen).
    unfold lb_cur in *. cbn [lb_data]. rewrite !length_app.
    assert (length (EncodeFixed64 key) = 8%nat) as -> by apply length_le_bytes. lia.
Qed.

(** ** The buffers of a TBuf *)

Lemma concat_replicate_nil {A} n : concat (replicate n (@nil A)) = [].
Proof. by induction n. Qed.

Definition bnext (h : heap) (a : addr) : option addr := lb_next <$> h !! a.

Definition buf_data (h : heap) (a : addr) : list Z := default [] (lb_data <$> h !! a).

Definition all_data (h : heap) (l : list addr) : list Z := concat (buf_data h <$> l).

(** [fr] are the buffers frozen by each thread, newest first, and [free] those
    to be used again. *)
Record tb_rep (h : heap) (tb : TBuf) (fr : list (list addr)) (free : list addr) : Prop := {
  tr_frozen : Forall2 (fun p xs => chain (bnext h) p xs NULL) (tb_frozenbufs tb) fr;
  tr_free : chain (bnext h) (tb_freebufs tb) free NULL;
  tr_nodup : NoDup (concat fr ++ free);
  tr_flush : tb_flushbufs tb = replicate (length fr) NULL;
  tr_localsn : length (tb_localsn tb) = length fr
}.

Lemma bnext_set h a b n x : h !! a = Some b ->
  bnext (<[a := set_next n b]> h) x = if decide (x = a) then Some n else bnext h x.
Proof.
  intros Ha. unfold bnext. case_decide as E; [subst; by rewrite lookup_insert_eq|].
  by rewrite lookup_insert_ne.
Qed.

Lemma buf_data_set h a b n x : h !! a = Some b -> buf_data (<[a := set_next n b]> h) x = buf_data h x.
Proof.
  intros Ha. unfold buf_data. destruct (decide (x = a)) as [->|].
  - by rewrite lookup_insert_eq, Ha.
  - by rewrite lookup_insert_ne.
Qed.

Lemma all_data_ext h h' l :
  (forall x, x ∈ l -> buf_data h' x = buf_data h x) -> all_data h' l = all_data h l.
Proof.
  intros Hext. unfold all_data. induction l as [|x l IH]; [done|]. cbn. rewrite Hext by left.
  f_equal. apply IH. intros y Hy. apply Hext. by right.
Qed.

Lemma all_data_app h l l' : all_data h (l ++ l') = all_data h l ++ all_data h l'.
Proof. unfold all_data. by rewrite fmap_app, concat_app. Qed.

Lemma chain_bnext_get h a l q : chain (bnext h) a l q ->
  forall x, x ∈ l -> exists b, h !! x = Some b.
Proof.
  revert a. induction l as [|y l IH]; intros a Hc x Hx; [by apply elem_of_nil in Hx|].
  destruct Hc as (-> & _ & n & Hn & Hc). apply elem_of_cons in Hx as [->|Hx]; [|by eapply IH].
  unfold bnext in Hn. destruct (h !! y) as [b|]; eauto. done.
Qed.

(** The output so far. *)
Definition written (o : out) : list Z := o.2 ++ concat o.1.

Lemma put_iov_written data o : written (put_iov data o) = written o ++ data.
Proof.
  unfold put_iov, written. destruct data as [|x data]; simpl; [by rewrite app_nil_r|].
  case_match; simpl; rewrite ?concat_app; simpl; by rewrite ?app_nil_r, <- ?app_assoc.
Qed.

Lemma walk_spec h : forall l fuel cur tail o,
  chain (bnext h) cur l NULL -> (length l <= fuel)%nat ->
  exists o', walk fuel h cur tail o = Ok (default tail (last l), o') /\ written o' = written o ++ all_data h l.
Proof.
  induction l as [|x l IH]; intros fuel cur tail o Hc Hf.
  - simpl in Hc. subst cur. exists o. split; [by destruct fuel|]. by rewrite app_nil_r.
  - destruct Hc as (-> & Hx & n & Hn & Hc). destruct fuel as [|fuel]; simpl in Hf; [lia|].
    cbn [walk]. rewrite (proj2 (Z.eqb_neq _ _) Hx). unfold get_buf, bnext in *.
    destruct (h !! x) as [b|] eqn:Eb; [|done]. simpl in Hn. injection Hn as <-.
    unfold from_opt, mbind, result_bind.
    destruct (IH fuel (lb_next b) x (put_iov (lb_data b) o) Hc) as (o' & -> & Ho'); [lia|].
    exists o'. split; [rewrite last_cons; by destruct (last l)|].
    rewrite Ho', put_iov_written, <- app_assoc. f_equal. unfold all_data, buf_data. simpl. by rewrite Eb.
Qed.

(** The list built so far: from [ls] to [tail], the end of the list. *)
Definition listed (h : heap) (ls tail : addr) (dn : list addr) : Prop :=
  chain (bnext h) ls dn NULL /\ tail = default NULL (last dn).

Lemma listed_null h ls tail dn : listed h ls tail dn -> (ls =? NULL) = true <-> dn = [].
Proof.
  intros [Hc _]. rewrite Z.eqb_eq. destruct dn as [|x dn]; simpl in Hc; [by subst|].
  destruct Hc as (-> & Hx & _). by split.
Qed.

Lemma chain_set h a b n p l : a ∉ l -> h !! a = Some b ->
  chain (bnext h) p l NULL -> chain (bnext (<[a := set_next n b]> h)) p l NULL.
Proof.
  intros Ha Hb. apply chain_ext. intros x Hx. rewrite (bnext_set h a b n x Hb).
  case_decide; [|done]. subst. done.
Qed.

(** Linking a list behind another. *)
Lemma chain_link h p l t b q l' :
  chain (bnext h) p (l ++ [t]) NULL -> h !! t = Some b -> chain (bnext h) q l' NULL ->
  NoDup (l ++ [t]) -> t ∉ l' ->
  chain (bnext (<[t := set_next q b]> h)) p ((l ++ [t]) ++ l') NULL.
Proof.
  intros Hc Hb Hc' Hnd Ht. apply chain_app in Hc as (r & Hl & Hr). destruct Hr as (-> & Ht0 & _).
  apply NoDup_app in Hnd as (_ & Hdisj & _). rewrite <- app_assoc. apply chain_app. exists t. split.
  - eapply chain_ext; [|exact Hl]. intros x Hx. rewrite (bnext_set h t b q x Hb).
    case_decide; [|done]. subst. exfalso. apply (Hdisj t Hx). by left.
  - simpl. split_and!; try done. exists q. rewrite (bnext_set h t b q t Hb), decide_True by done.
    split; [done|]. by apply chain_set.
Qed.

(** The heaps differ in the links only, and not outside [l]. *)
Definition relinked (l : list addr) (h h' : heap) : Prop :=
  (forall x, set_next NULL <$> h' !! x = set_next NULL <$> h !! x) /\
  (forall x, x ∉ l -> h' !! x = h !! x).

Lemma relinked_refl l h : relinked l h h.
Proof. by split. Qed.

Lemma relinked_trans l l1 l2 h1 h2 h3 :
  (forall x, x ∈ l1 \/ x ∈ l2 -> x ∈ l) ->
  relinked l1 h1 h2 -> relinked l2 h2 h3 -> relinked l h1 h3.
Proof.
  intros Hl [A1 B1] [A2 B2]. split; [intros x; by rewrite A2, A1|].
  intros x Hx. rewrite B2, B1; [done|naive_solver..].
Qed.

Lemma relinked_set l h a b n : a ∈ l -> h !! a = Some b -> relinked l h (<[a := set_next n b]> h).
Proof.
  intros Ha Hb. split.
  - intros x. destruct (decide (x = a)) as [->|]; [by rewrite lookup_insert_eq, Hb|by rewrite lookup_insert_ne].
  - intros x Hx. rewrite lookup_insert_ne; [done|]. by intros ->.
Qed.

Lemma relinked_data l h h' x : relinked l h h' -> buf_data h' x = buf_data h x.
Proof.
  intros [A _]. specialize (A x). unfold buf_data.
  destruct (h !! x) as [b|], (h' !! x) as [b'|]; simpl in *; try done. by injection A.
Qed.

Lemma relinked_all_data l h h' xs : relinked l h h' -> all_data h' xs = all_data h xs.
Proof. intros Hr. apply all_data_ext. intros x _. by eapply relinked_data. Qed.

Lemma relinked_chain l h h' p xs :
  relinked l h h' -> (forall x, x ∈ xs -> x ∉ l) -> chain (bnext h) p xs NULL -> chain (bnext h') p xs NULL.
Proof. intros [_ B] Hx. apply chain_ext. intros x Hin. unfold bnext. by rewrite B by auto. Qed.

Lemma chains_ext h h' ps xss :
  (forall x, x ∈ concat xss -> bnext h x = bnext h' x) ->
  Forall2 (fun p xs => chain (bnext h) p xs NULL) ps xss ->
  Forall2 (fun p xs => chain (bnext h') p xs NULL) ps xss.
Proof.
  intros Hx Hall. induction Hall as [|p xs ps xss Hc Hall IH]; constructor.
  - eapply chain_ext; [|exact Hc]. intros x Hin. apply Hx. simpl. apply elem_of_app. by left.
  - apply IH. intros x Hin. apply Hx. simpl. apply elem_of_app. by right.
Qed.

Lemma relinked_chains l h h' ps xss :
  relinked l h h' -> (forall x, x ∈ concat xss -> x ∉ l) ->
  Forall2 (fun p xs => chain (bnext h) p xs NULL) ps xss ->
  Forall2 (fun p xs => chain (bnext h') p xs NULL) ps xss.
Proof. intros [_ B] Hx. apply chains_ext. intros x Hin. unfold bnext. by rewrite B by auto. Qed.

Lemma chain_size h p l : chain (bnext h) p l NULL -> (length l <= size h)%nat.
Proof.
  intros Hc. pose proof (chain_NoDup _ _ _ Hc) as Hnd.
  rewrite <- size_dom, <- (size_list_to_set (C := gset Z) l) by done.
  apply subseteq_size. intros x Hx%elem_of_list_to_set.
  destruct (chain_bnext_get h p l NULL Hc x Hx) as [b Hb]. apply elem_of_dom. eauto.
Qed.

(** One thread's buffers are put behind the list. *)
Lemma link_tail_spec h ls tail dn cur xs :
  listed h ls tail dn -> chain (bnext h) cur xs NULL -> xs <> [] -> NoDup (dn ++ xs) ->
  exists h', link_tail tail cur h = Ok h' /\ relinked dn h h' /\
    chain (bnext h') cur xs NULL /\
    listed h' (if ls =? NULL then cur else ls) (default cur (last xs)) (dn ++ xs).
Proof.
  intros Hlist Hc Hne Hnd. pose proof (listed_null _ _ _ _ Hlist) as Hnull. destruct Hlist as [Hls ->].
  assert (default cur (last xs) = default NULL (last (dn ++ xs))) as Hlast.
  { rewrite last_app. destruct (last xs) as [y|] eqn:E; [done|]. by apply last_None in E. }
  unfold link_tail. destruct dn as [|t dn _] using rev_ind.
  - simpl in Hls. subst ls. exists h. simpl. split; [done|]. split; [apply relinked_refl|].
    split; [done|]. by split.
  - rewrite last_snoc. simpl. assert (t <> NULL) as Ht.
    { apply chain_non_null in Hls. intros ->. apply Hls, elem_of_app. right. by left. }
    rewrite (proj2 (Z.eqb_neq _ _) Ht).
    destruct (chain_bnext_get _ _ _ _ Hls t) as [b Hb]; [apply elem_of_app; right; by left|].
    unfold get_buf. rewrite Hb. unfold from_opt, mbind, result_bind. eexists. split; [done|].
    assert (t ∉ xs) as Htx.
    { apply NoDup_app in Hnd as (_ & Hd & _). apply Hd, elem_of_app. right. by left. }
    split; [apply relinked_set; [apply elem_of_app; right; by left|done]|].
    split; [by apply chain_set|]. split; [|done].
    destruct (ls =? NULL); [by destruct dn; discriminate (proj1 Hnull eq_refl)|].
    apply chain_link; try done. by apply NoDup_app in Hnd as (? & _ & _).
Qed.

Lemma flush_loop_spec : forall ps xss h ls tail o dn,
  Forall2 (fun p xs => chain (bnext h) p xs NULL) ps xss -> listed h ls tail dn ->
  NoDup (dn ++ concat xss) ->
  exists h' ls' tail' o', flush_loop ps h ls tail o = Ok (h', ls', tail', o') /\
    listed h' ls' tail' (dn ++ concat xss) /\ written o' = written o ++ all_data h (concat xss) /\
    relinked (dn ++ concat xss) h h'.
Proof.
  induction ps as [|cur ps IH]; intros xss h ls tail o dn Hall Hlist Hnd; inversion Hall as [|? xs ? xss' Hc Hall']; subst.
  - exists h, ls, tail, o. simpl. rewrite !app_nil_r. split; [done|]. split; [done|]. split; [by rewrite ?app_nil_r|apply relinked_refl].
  - cbn [flush_loop concat] in *. destruct (Z.eqb_spec cur NULL) as [->|Hcur].
    { apply chain_null_nil in Hc as ->. by apply IH. }
    destruct (chain_head _ _ _ Hc Hcur) as (xs' & ->).
    assert (NoDup ((dn ++ cur :: xs') ++ concat xss')) as Hnd' by (by rewrite <- app_assoc).
    apply NoDup_app in Hnd' as (Hnd1 & Hdisj & _).
    destruct (link_tail_spec h ls tail dn cur (cur :: xs')) as (h1 & -> & Hr1 & Hc1 & Hlist1); try done.
    unfold mbind, result_bind.
    destruct (walk_spec h1 (cur :: xs') (size h1) cur cur o Hc1 (chain_size _ _ _ Hc1)) as (o1 & -> & Ho1).
    destruct (IH xss' h1 (if ls =? NULL then cur else ls) (default cur (last (cur :: xs'))) o1 (dn ++ cur :: xs'))
      as (h' & ls' & tail' & o' & -> & Hl & Ho & Hr); try done.
    { eapply relinked_chains; [exact Hr1| |done]. intros x Hx Hd. apply (Hdisj x); [|done].
      apply elem_of_app. by left. }
    { by rewrite <- app_assoc. }
    exists h', ls', tail', o'. rewrite <- app_assoc in Hl, Hr. split_and!; try done.
    + rewrite Ho, Ho1, <- app_assoc. f_equal.
      rewrite !(relinked_all_data _ _ _ _ Hr1), <- all_data_app. done.
    + eapply relinked_trans; [|exact Hr1|exact Hr]. intros x. rewrite !elem_of_app. tauto.
Qed.

(** *** The parts of Writer *)

(** The newest frozen buffer's epoch. *)
Definition head_sn (h : heap) (p : addr) (sn : Z) : Z :=
  if p =? NULL then sn else default 0 (lb_sn <$> h !! p).

Lemma grab_loop_spec h : forall frozen xss localsn,
  Forall2 (fun p xs => chain (bnext h) p xs NULL) frozen xss -> length localsn = length frozen ->
  grab_loop h frozen (replicate (length xss) NULL) localsn = Ok (frozen, zip_with (head_sn h) frozen localsn).
Proof.
  induction frozen as [|p frozen IH]; intros xss localsn Hall Hlen;
    inversion Hall as [|? xs ? xss' Hc Hall']; subst.
  { by destruct localsn; simpl in *. }
  destruct localsn as [|sn localsn]; simpl in Hlen; [lia|]. cbn [length replicate grab_loop zip_with].
  rewrite (IH xss' localsn Hall') by lia. unfold head_sn at 2.
  destruct (Z.eqb_spec p NULL) as [->|Hp]; [done|].
  destruct (chain_head _ _ _ Hc Hp) as (xs' & ->).
  destruct (chain_bnext_get _ _ _ _ Hc p) as [b Hb]; [by left|].
  unfold get_buf. by rewrite Hb.
Qed.

(** The written buffers become the front of the free list. *)
Lemma Writer_free_spec h ls tail dn tb free :
  listed h ls tail dn -> chain (bnext h) (tb_freebufs tb) free NULL -> NoDup (dn ++ free) ->
  exists h' fb, Writer_free ls tail tb h =
      Ok (mkTBuf (tb_frozenbufs tb) (tb_frozennum tb) fb (tb_flushbufs tb) (tb_localsn tb)
            (tb_safe_sn tb) (tb_log tb), h') /\
    chain (bnext h') fb (dn ++ free) NULL /\ relinked dn h h'.
Proof.
  intros [Hc ->] Hfree Hnd. unfold Writer_free, link_tail. destruct dn as [|t dn _] using rev_ind.
  - exists h, (tb_freebufs tb). destruct tb. split; [done|]. split; [done|apply relinked_refl].
  - rewrite last_snoc. simpl. assert (t ∈ dn ++ [t]) as Htin by (apply elem_of_app; right; by left).
    assert (t <> NULL) as Ht by (intros ->; by apply chain_non_null in Hc).
    rewrite (proj2 (Z.eqb_neq _ _) Ht).
    destruct (chain_bnext_get _ _ _ _ Hc t Htin) as [b Hb]. unfold get_buf. rewrite Hb.
    apply NoDup_app in Hnd as (Hnd1 & Hdisj & _). do 2 eexists. split; [done|]. split.
    + apply chain_link; try done. by apply Hdisj.
    + by apply relinked_set.
Qed.

(** Everything frozen goes to the log and its buffers to the free list. *)
Lemma Writer_spec h tb fr free :
  tb_rep h tb fr free ->
  exists tb' h', Writer tb h = Ok (tb', h') /\
    tb_rep h' tb' (replicate (length fr) []) (concat fr ++ free) /\
    tb_log tb' = tb_log tb ++ all_data h (concat fr) /\
    tb_frozenbufs tb' = replicate (length fr) NULL /\
    tb_localsn tb' = zip_with (head_sn h) (tb_frozenbufs tb) (tb_localsn tb) /\
    tb_safe_sn tb' = (let m := min_sn (tb_localsn tb') in if 0 <? m then m - 1 else 0) /\
    relinked (concat fr) h h'.
Proof.
  intros [Hfr Hfree Hnd Hfl Hls]. pose proof (Forall2_length _ _ _ Hfr) as Hlen.
  pose proof Hnd as (Hnd1 & Hdisj & _)%NoDup_app.
  unfold Writer, Writer_grab. rewrite Hfl, (grab_loop_spec h _ fr) by (done || lia).
  unfold mbind, result_bind, Writer_flush. cbn [tb_flushbufs tb_log tb_frozenbufs].
  destruct (flush_loop_spec (tb_frozenbufs tb) fr h NULL NULL ([], tb_log tb) [] Hfr)
    as (h1 & ls & tail & o & -> & Hlist & Ho & Hr); [done..|].
  cbn [app] in *. unfold written in Ho. cbn in Ho. rewrite app_nil_r in Ho.
  unfold mbind, result_bind. match goal with |- context [Writer_free _ _ ?x h1] => set (tb1 := x) end.
  destruct (Writer_free_spec h1 ls tail (concat fr) tb1 free Hlist) as (h2 & fb & -> & Hc2 & Hr2); [|done|].
  { eapply relinked_chain; [exact Hr| |exact Hfree]. intros x Hx Hd. by apply (Hdisj x). }
  do 2 eexists. split; [done|]. split.
  2:{ split; [done|]. split; [by rewrite <- Hlen|]. do 2 (split; [done|]). eapply relinked_trans; [|exact Hr|exact Hr2]. tauto. }
  split; cbn [tb_frozenbufs tb_freebufs tb_flushbufs tb_localsn Writer_safe tb1]; try done.
  - rewrite Hlen. by apply Forall2_replicate.
  - by rewrite concat_replicate_nil.
  - by rewrite length_replicate, Hlen.
  - rewrite length_replicate, length_zip_with. lia.
Qed.

(** ** Runs of a TBuf

    The threads publish buffers and take free ones, the logger runs [Writer].
    [own] are the buffers the [TBuf] holds; a thread changes only others.  A
    published buffer is recorded in [pub] with its thread, epoch and content;
    the epochs of a thread do not go back ([RecordTX] asserts it). *)

Definition pubrec : Type := nat * Z * list Z.

Inductive tb_run (thr : nat) : TBuf -> heap -> gset Z -> list pubrec -> Prop :=
  | run_new h : tb_run thr (TBuf_new thr (replicate thr NULL)) h ∅ []
  | run_fill tb h own pub a b :
      tb_run thr tb h own pub -> a ∉ own -> tb_run thr tb (<[a := b]> h) own pub
  | run_publish tb h own pub tid a b tb' h' :
      tb_run thr tb h own pub -> a ∉ own -> a <> NULL -> h !! a = Some b -> 0 <= lb_sn b ->
      (forall sn d, (tid, sn, d) ∈ pub -> sn <= lb_sn b) ->
      PublishLocalBuffer tid a tb h = Ok (tb', h') ->
      tb_run thr tb' h' ({[a]} ∪ own) (pub ++ [(tid, lb_sn b, lb_data b)])
  | run_take tb h own pub a tb' h' :
      tb_run thr tb h own pub -> GetFreeBuf tb h = Ok (a, tb', h') -> tb_run thr tb' h' (own ∖ {[a]}) pub
  | run_write tb h own pub tb' h' :
      tb_run thr tb h own pub -> Writer tb h = Ok (tb', h') -> tb_run thr tb' h' own pub.

(** What a buffer publishes. *)
Definition rec_of (h : heap) (i : nat) (a : addr) : pubrec :=
  (i, default 0 (lb_sn <$> h !! a), buf_data h a).

Fixpoint recs_of (h : heap) (i : nat) (fr : list (list addr)) : list pubrec :=
  match fr with
  | [] => []
  | xs :: fr => (rec_of h i <$> xs) ++ recs_of h (S i) fr
  end.

Lemma elem_of_concat_lookup {A} (ll : list (list A)) i l x : ll !! i = Some l -> x ∈ l -> x ∈ concat ll.
Proof.
  intros Hl Hx. apply list_elem_of_In, in_concat. exists l.
  split; apply list_elem_of_In; [by eapply list_elem_of_lookup_2|done].
Qed.

Lemma recs_of_ext h h' fr : forall i,
  (forall x, x ∈ concat fr -> set_next NULL <$> h' !! x = set_next NULL <$> h !! x) ->
  recs_of h' i fr = recs_of h i fr.
Proof.
  induction fr as [|xs fr IH]; intros i Hext; [done|]. simpl. f_equal.
  - apply list_fmap_ext. intros j x Hx. unfold rec_of, buf_data.
    specialize (Hext x). cbn [concat] in Hext. rewrite elem_of_app in Hext.
    specialize (Hext (or_introl (list_elem_of_lookup_2 _ _ _ Hx))).
    destruct (h !! x) as [b|], (h' !! x) as [b'|]; simpl in *; try done. by injection Hext as -> -> _ _.
  - apply IH. intros x Hx. apply Hext. simpl. apply elem_of_app. by right.
Qed.

Lemma recs_of_data h fr : forall i, concat (snd <$> recs_of h i fr) = all_data h (concat fr).
Proof.
  induction fr as [|xs fr IH]; intros i; [done|]. simpl. rewrite fmap_app, concat_app, all_data_app, IH.
  f_equal. unfold all_data. by rewrite <- list_fmap_compose.
Qed.

Lemma recs_of_replicate h n i : recs_of h i (replicate n []) = [].
Proof. revert i. induction n; intros i; simpl; auto. Qed.

Lemma recs_of_push h fr : forall i tid xs a,
  fr !! tid = Some xs -> recs_of h i (<[tid := a :: xs]> fr) ≡ₚ rec_of h (i + tid) a :: recs_of h i fr.
Proof.
  induction fr as [|ys fr IH]; intros i [|tid] xs a Hl; simpl in *; try done.
  - simplify_eq. simpl. by rewrite Nat.add_0_r.
  - rewrite (IH (S i) tid xs a Hl). rewrite <- Permutation_middle.
    replace (S i + tid)%nat with (i + S tid)%nat by lia. done.
Qed.

Lemma concat_push (fr : list (list addr)) : forall tid xs a,
  fr !! tid = Some xs -> concat (<[tid := a :: xs]> fr) ≡ₚ a :: concat fr.
Proof.
  induction fr as [|ys fr IH]; intros [|tid] xs a Hl; simpl in *; try done.
  - by simplify_eq.
  - rewrite (IH tid xs a Hl). by rewrite <- Permutation_middle.
Qed.

Lemma min_sn_le l :
  Forall (fun sn => 0 <= sn) l -> forall sn, sn ∈ l -> sn <> 0 -> 0 < min_sn l <= sn.
Proof.
  unfold min_sn. intros Hpos.
  assert (forall acc, 0 <= acc ->
    let m := fold_left (fun minsn sn => if sn =? 0 then minsn
      else if (minsn =? 0) || (sn <? minsn) then sn else minsn) l acc in
    0 <= m /\ (acc <> 0 -> 0 < m <= acc) /\ forall sn, sn ∈ l -> sn <> 0 -> 0 < m <= sn) as Hgen.
  { induction Hpos as [|x l Hx Hpos IH]; intros acc Hacc; simpl.
    { split_and!; [done|lia|]. intros sn Hin. by apply elem_of_nil in Hin. }
    set (acc' := if x =? 0 then acc else if (acc =? 0) || (x <? acc) then x else acc).
    destruct (IH acc') as (Hm & Hacc' & Hall); [unfold acc'; repeat case_match; lia|].
    assert ((acc <> 0 -> 0 < acc' <= acc) /\ (x <> 0 -> 0 < acc' <= x)) as [Ha Hb].
    { unfold acc'. destruct (Z.eqb_spec x 0), (Z.eqb_spec acc 0), (Z.ltb_spec x acc); simpl; lia. }
    split_and!; [done|lia|]. intros sn [->|Hin]%elem_of_cons Hne; [lia|]. by apply Hall. }
  intros sn Hin Hne. destruct (Hgen 0) as (_ & _ & Hall); [lia|]. by apply Hall.
Qed.

(** *** The invariant *)

(** The epoch of the last buffer each thread has published. *)
Definition latest (h : heap) (tb : TBuf) : list Z :=
  zip_with (head_sn h) (tb_frozenbufs tb) (tb_localsn tb).

(** The log holds the records [fl], the frozen buffers the others. *)
Record tb_inv (thr : nat) (tb : TBuf) (h : heap) (own : gset Z) (pub fl : list pubrec)
    (fr : list (list addr)) (free : list addr) : Prop := {
  ti_rep : tb_rep h tb fr free;
  ti_thr : length fr = thr;
  ti_own a : a ∈ own <-> a ∈ concat fr ++ free;
  ti_log : tb_log tb = concat (snd <$> fl);
  ti_pub : fl ++ recs_of h 0 fr ≡ₚ pub;
  ti_pos : Forall (fun sn => 0 <= sn) (latest h tb);
  ti_max i sn d : (i, sn, d) ∈ pub -> exists m, latest h tb !! i = Some m /\ sn <= m;
  ti_last i m : latest h tb !! i = Some m -> m = 0 \/ exists d, (i, m, d) ∈ pub
}.

Lemma latest_ext h h' ps xss (l : list Z) :
  Forall2 (fun p xs => chain (bnext h) p xs NULL) ps xss ->
  (forall x, x ∈ concat xss -> set_next NULL <$> h' !! x = set_next NULL <$> h !! x) ->
  zip_with (head_sn h') ps l = zip_with (head_sn h) ps l.
Proof.
  intros Hall. revert l. induction Hall as [|p xs ps xss Hc Hall IH]; intros [|sn l] Hext; try done.
  simpl. f_equal.
  - unfold head_sn. destruct (Z.eqb_spec p NULL) as [|Hp]; [done|].
    destruct (chain_head _ _ _ Hc Hp) as (xs' & ->). specialize (Hext p ltac:(simpl; left)).
    destruct (h !! p), (h' !! p); simpl in *; try done. by injection Hext as -> _ _ _.
  - apply IH. intros x Hx. apply Hext. simpl. apply elem_of_app. by right.
Qed.

(** A change of the heap outside the buffers of the [TBuf]. *)
Lemma tb_inv_frame thr tb h h' own pub fl fr free :
  (forall a, a ∈ own -> h' !! a = h !! a) ->
  tb_inv thr tb h own pub fl fr free -> tb_inv thr tb h' own pub fl fr free.
Proof.
  intros Hext [[Hfr Hfree Hnd Hfl Hls] Hthr Hown Hlog Hpub Hpos Hmax Hlast].
  assert (forall x, x ∈ concat fr \/ x ∈ free -> h' !! x = h !! x) as Hx.
  { intros x Hx. by apply Hext, Hown, elem_of_app. }
  assert (latest h' tb = latest h tb) as Hla.
  { eapply latest_ext; [exact Hfr|]. intros x Hin. by rewrite Hx by auto. }
  split; rewrite ?Hla; try done.
  - split; try done.
    + eapply chains_ext; [|exact Hfr]. intros x Hin. unfold bnext. by rewrite Hx by auto.
    + eapply chain_ext; [|exact Hfree]. intros x Hin. unfold bnext. by rewrite Hx by auto.
  - rewrite (recs_of_ext h); [done|]. intros x Hin. by rewrite Hx by auto.
Qed.

Lemma tb_inv_new thr h : tb_inv thr (TBuf_new thr (replicate thr NULL)) h ∅ [] [] (replicate thr []) [].
Proof.
  assert (latest h (TBuf_new thr (replicate thr NULL)) = replicate thr 0) as Hla.
  { unfold latest. simpl. by induction thr; simpl; f_equal. }
  pose proof (concat_replicate_nil (A := Z) thr) as Hc.
  split; rewrite ?Hla; try done.
  - split; simpl; try done; rewrite ?length_replicate; try done; [by apply Forall2_replicate|].
    rewrite Hc. constructor.
  - by rewrite length_replicate.
  - intros a. rewrite Hc. set_solver.
  - by rewrite recs_of_replicate.
  - by apply Forall_replicate.
  - intros i sn d Hin. by apply elem_of_nil in Hin.
  - intros i m [-> _]%lookup_replicate. by left.
Qed.

Lemma tb_inv_publish thr tb h own pub fl fr free tid a b tb' h' :
  tb_inv thr tb h own pub fl fr free -> a ∉ own -> a <> NULL -> h !! a = Some b -> 0 <= lb_sn b ->
  (forall sn d, (tid, sn, d) ∈ pub -> sn <= lb_sn b) ->
  PublishLocalBuffer tid a tb h = Ok (tb', h') ->
  exists xs, tb_inv thr tb' h' ({[a]} ∪ own) (pub ++ [(tid, lb_sn b, lb_data b)]) fl (<[tid := a :: xs]> fr) free.
Proof.
  intros [[Hfr Hfree Hnd Hfl Hls] Hthr Hown Hlog Hpub Hpos Hmax Hlast] Ha Ha0 Hb Hb0 Hmono Hrun.
  unfold PublishLocalBuffer, get_buf in Hrun. rewrite Hb in Hrun. unfold from_opt, mbind, result_bind in Hrun.
  destruct (tb_frozenbufs tb !! tid) as [old|] eqn:Hold; [|done]. injection Hrun as <- <-.
  destruct (Forall2_lookup_l _ _ _ _ _ Hfr Hold) as (xs & Hxs & Hc). exists xs.
  rewrite Hown, elem_of_app in Ha. apply Decidable.not_or in Ha as [Ha1 Ha2].
  set (h' := <[a := set_next old b]> h).
  assert (relinked [a] h h') as Hr by (apply relinked_set; [by left|done]).
  assert (forall x, x ∈ concat fr \/ x ∈ free -> x ∉ [a]) as Hne.
  { intros x Hx ->%list_elem_of_singleton. tauto. }
  pose proof (concat_push fr tid xs a Hxs) as Hperm.
  assert (latest h' (mkTBuf (<[tid := a]> (tb_frozenbufs tb)) (tb_frozennum tb + 1) (tb_freebufs tb)
    (tb_flushbufs tb) (tb_localsn tb) (tb_safe_sn tb) (tb_log tb)) = <[tid := lb_sn b]> (latest h tb)) as Hla.
  { unfold latest. simpl. rewrite <- (latest_ext h h' _ fr _ Hfr) by (intros x _; apply Hr).
    apply list_eq. intros i. rewrite !list_lookup_insert, !lookup_zip_with.
    destruct (decide (tid = i)) as [<-|Hti].
    - rewrite list_lookup_insert, decide_True by (split; [done|by eapply lookup_lt_Some]). simpl.
      destruct (lookup_lt_is_Some_2 (tb_localsn tb) tid) as [sn Hsn].
      { rewrite Hls. by eapply lookup_lt_Some. }
      rewrite Hsn. simpl. unfold head_sn at 1. rewrite (proj2 (Z.eqb_neq _ _) Ha0).
      unfold h'. rewrite lookup_insert_eq. simpl. rewrite decide_True; [done|]. split; [done|].
      rewrite length_zip_with. apply lookup_lt_Some in Hsn, Hold. lia.
    - rewrite list_lookup_insert, !decide_False by tauto. done. }
  assert (tid < length (latest h tb))%nat as Hlt.
  { unfold latest. rewrite length_zip_with. apply lookup_lt_Some in Hold, Hxs. lia. }
  split; rewrite ?Hla; try done.
  - split; simpl; try done.
    + apply Forall2_insert; [by eapply relinked_chains; [exact Hr|intros; apply Hne; by left|]|].
      simpl. split_and!; try done. exists old. split; [unfold bnext, h'; by rewrite lookup_insert_eq|].
      apply (relinked_chain [a] h); [done| |done]. intros x Hx. apply Hne. left.
      by eapply elem_of_concat_lookup.
    + eapply relinked_chain; [exact Hr| |done]. intros x Hx. apply Hne. by right.
    + rewrite Hperm. simpl. constructor; [by rewrite elem_of_app; intros [?|?]|done].
    + by rewrite length_insert.
    + by rewrite length_insert.
  - by rewrite length_insert.
  - intros x. rewrite Hperm. simpl. rewrite elem_of_union, elem_of_singleton, elem_of_cons, Hown. done.
  - rewrite (recs_of_push h' fr 0 tid xs a Hxs), (recs_of_ext h) by (intros x _; apply Hr).
    rewrite <- Permutation_middle, Hpub, Permutation_app_comm. simpl. f_equiv.
    unfold rec_of, buf_data, h'. by rewrite lookup_insert_eq.
  - by apply Forall_insert.
  - intros i sn d. rewrite elem_of_app, list_elem_of_singleton, list_lookup_insert. intros Hin.
    case_decide as E.
    + destruct E as [<- _]. exists (lb_sn b). split; [done|]. destruct Hin as [Hin|[= <- _]]; [by eapply Hmono|lia].
    + destruct Hin as [Hin|[= -> -> ->]]; [by eapply Hmax|]. tauto.
  - intros i m. rewrite list_lookup_insert. case_decide as E.
    + intros [= <-]. right. exists (lb_data b). destruct E as [<- _]. apply elem_of_app. right. by left.
    + intros [->|[d Hd]]%Hlast; [by left|]. right. exists d. apply elem_of_app. by left.
Qed.

Lemma tb_inv_take thr tb h own pub fl fr free a tb' h' :
  tb_inv thr tb h own pub fl fr free -> GetFreeBuf tb h = Ok (a, tb', h') ->
  exists free', tb_inv thr tb' h' (own ∖ {[a]}) pub fl fr free'.
Proof.
  intros Hinv Hrun. pose proof Hinv as [[Hfr Hfree Hnd Hfl Hls] Hthr Hown Hlog Hpub Hpos Hmax Hlast].
  unfold GetFreeBuf in Hrun. destruct (Z.eqb_spec (tb_freebufs tb) NULL) as [E|E].
  - injection Hrun as <- <- <-. exists free. replace (own ∖ {[NULL]}) with own; [done|].
    assert (NULL ∉ concat fr ++ free) as Hnn; [|rewrite <- Hown in Hnn; set_solver].
    rewrite elem_of_app. intros [Hin|Hin]; [|by apply chain_non_null in Hfree].
    apply list_elem_of_In, in_concat in Hin as (xs & Hxs & Hin). apply list_elem_of_In in Hxs, Hin.
    apply list_elem_of_lookup_1 in Hxs as [i Hi]. destruct (Forall2_lookup_r _ _ _ _ _ Hfr Hi) as (p & _ & Hc).
    by apply chain_non_null in Hc.
  - destruct (chain_head _ _ _ Hfree E) as (free' & ->). destruct Hfree as (_ & _ & n & Hn & Hc).
    unfold get_buf, bnext in *. destruct (h !! tb_freebufs tb) as [b|] eqn:Hb; [|done].
    unfold from_opt, mbind, result_bind in Hrun. injection Hrun as <- <- <-. injection Hn as <-.
    exists free'. apply NoDup_app in Hnd as (Hnd1 & Hdisj & Hnd2). apply NoDup_cons in Hnd2 as [Hx Hnd2].
    apply (tb_inv_frame _ _ h).
    { intros x [_ Hx']%elem_of_difference. rewrite lookup_insert_ne; [done|]. set_solver. }
    split; try done.
    + split; try done. apply NoDup_app. split_and!; try done. intros x Hin Hf. apply (Hdisj x Hin). by right.
    + intros x. rewrite elem_of_difference, elem_of_singleton, Hown, !elem_of_app, elem_of_cons.
      split; [tauto|]. intros [Hin|Hin]; (split; [tauto|]); intros ->; [|done].
      apply (Hdisj (tb_freebufs tb)); [done|by left].
Qed.

Lemma zip_head_null h (l : list Z) : zip_with (head_sn h) (replicate (length l) NULL) l = l.
Proof. induction l as [|x l IH]; simpl; [done|]. by rewrite IH. Qed.

Lemma tb_inv_write thr tb h own pub fl fr free tb' h' :
  tb_inv thr tb h own pub fl fr free -> Writer tb h = Ok (tb', h') ->
  tb_inv thr tb' h' own pub (fl ++ recs_of h 0 fr) (replicate thr []) (concat fr ++ free) /\
  tb_safe_sn tb' = (let m := min_sn (latest h' tb') in if 0 <? m then m - 1 else 0).
Proof.
  intros [Hrep Hthr Hown Hlog Hpub Hpos Hmax Hlast] Hrun.
  destruct (Writer_spec h tb fr free Hrep) as (tb1 & h1 & E & Hrep' & Hlog' & Hfz & Hls' & Hsafe & Hr).
  rewrite E in Hrun. injection Hrun as -> ->. fold (latest h tb) in Hls'.
  assert (latest h' tb' = tb_localsn tb') as Hla.
  { unfold latest. rewrite Hfz. pose proof (tr_localsn _ _ _ _ Hrep') as Hlen.
    rewrite length_replicate in Hlen. rewrite <- Hlen. apply zip_head_null. }
  split; [|by rewrite Hla]. rewrite Hthr in Hrep'. rewrite Hls' in Hla.
  split; rewrite ?Hla; try done.
  - by rewrite length_replicate.
  - intros a. by rewrite concat_replicate_nil, Hown.
  - rewrite Hlog', Hlog, fmap_app, concat_app, recs_of_data. done.
  - by rewrite recs_of_replicate, app_nil_r.
Qed.

Lemma tb_run_inv thr tb h own pub : tb_run thr tb h own pub -> exists fl fr free, tb_inv thr tb h own pub fl fr free.
Proof.
  induction 1 as [h|tb h own pub a b _ (fl & fr & free & IH) Ha
    |tb h own pub tid a b tb' h' _ (fl & fr & free & IH) Ha Ha0 Hb Hb0 Hm Hrun
    |tb h own pub a tb' h' _ (fl & fr & free & IH) Hrun|tb h own pub tb' h' _ (fl & fr & free & IH) Hrun].
  - do 3 eexists. apply tb_inv_new.
  - exists fl, fr, free. eapply tb_inv_frame; [|exact IH]. intros x Hx. rewrite lookup_insert_ne; [done|]. by intros ->.
  - edestruct tb_inv_publish as [xs Hi]; [exact IH|done..|]. eauto.
  - edestruct tb_inv_take as [free' Hi]; [exact IH|done|]. eauto.
  - edestruct tb_inv_write as [Hi _]; [exact IH|done|]. eauto.
Qed.

(** The logger loses nothing and writes nothing twice.  Whatever the
    threads publish and take back and however often the logger has run, a run of
    [Writer] ends without a fault, and then the log file is the
    concatenation of all the buffers published so far, each once. *)
Theorem log_complete thr tb h own pub :
  tb_run thr tb h own pub ->
  exists tb' h' fl, Writer tb h = Ok (tb', h') /\ fl ≡ₚ pub /\ tb_log tb' = concat (snd <$> fl).
Proof.
  intros (fl & fr & free & Hinv)%tb_run_inv.
  destruct (Writer_spec h tb fr free (ti_rep _ _ _ _ _ _ _ _ Hinv)) as (tb' & h' & E & _).
  destruct (tb_inv_write _ _ _ _ _ _ _ _ _ _ Hinv E) as [Hinv' _].
  exists tb', h', (fl ++ recs_of h 0 fr). split; [done|]. split; [apply Hinv|apply Hinv'].
Qed.

(** The safe epoch is behind every thread that has published an epoch:
    after [Writer], such a thread has published a buffer of a later epoch than
    [safe_sn], so that (its epochs do not go back) all its buffers up to
    [safe_sn] are in the log and it will publish none of them later. *)
Theorem safe_sn_behind thr tb h own pub tb' h' tid sn d :
  tb_run thr tb h own pub -> Writer tb h = Ok (tb', h') -> (tid, sn, d) ∈ pub -> 0 < sn ->
  exists sn' d', (tid, sn', d') ∈ pub /\ tb_safe_sn tb' < sn'.
Proof.
  intros (fl & fr & free & Hinv)%tb_run_inv Hrun Hin Hsn.
  destruct (tb_inv_write _ _ _ _ _ _ _ _ _ _ Hinv Hrun) as [[_ _ _ _ _ Hpos Hmax Hlast] Hsafe].
  destruct (Hmax tid sn d Hin) as (m & Hm & Hle).
  destruct (Hlast tid m Hm) as [->|[d' Hd']]; [lia|]. exists m, d'. split; [done|].
  destruct (min_sn_le _ Hpos m) as [Hmin Hml]; [by eapply list_elem_of_lookup_2|lia|].
  rewrite Hsafe. simpl. replace (0 <? _) with true by lia. lia.
Qed.

(** ** Runs *)

Definition wp_heap : heap := {[100 := mkLBuf 5 [1; 2] 0 0 NULL; 200 := mkLBuf 7 [3] 0 0 NULL]}.
Definition wp_tb0 : TBuf := TBuf_new 3 (replicate 3 NULL).
Definition wp_pub (tid : nat) (a : addr) (s : TBuf * heap) : TBuf * heap :=
  match PublishLocalBuffer tid a s.1 s.2 with Ok s' => s' | Fault _ => s end.
Definition wp1 : TBuf * heap := wp_pub 0 100 (wp_tb0, wp_heap).
Definition wp2 : TBuf * heap := wp_pub 2 200 wp1.
Definition wp3 : TBuf * heap := match Writer wp2.1 wp2.2 with Ok s => s | Fault _ => wp2 end.

Lemma wp_run : tb_run 3 wp2.1 wp2.2 ({[200]} ∪ ({[100]} ∪ ∅)) [(0%nat, 5, [1; 2]); (2%nat, 7, [3])].
Proof.
  apply (run_publish 3 wp1.1 wp1.2 ({[100]} ∪ ∅) [(0%nat, 5, [1; 2])] 2 200 (mkLBuf 7 [3] 0 0 NULL));
    [|set_solver|done|done|done|intros sn d Hin; set_solver|vm_compute; reflexivity].
  apply (run_publish 3 wp_tb0 wp_heap ∅ [] 0 100 (mkLBuf 5 [1; 2] 0 0 NULL));
    [apply run_new|set_solver|done|done|done|intros sn d Hin; by apply elem_of_nil in Hin|vm_compute; reflexivity].
Qed.

Lemma log_complete_witness :
  tb_log wp3.1 = [1; 2; 3] /\
  exists tb' h' fl, Writer wp2.1 wp2.2 = Ok (tb', h') /\
    fl ≡ₚ [(0%nat, 5, [1; 2]); (2%nat, 7, [3])] /\ tb_log tb' = concat (snd <$> fl).
Proof. split; [vm_compute; reflexivity|]. exact (log_complete _ _ _ _ _ wp_run). Defined.

Lemma safe_sn_behind_witness :
  tb_safe_sn wp3.1 = 4 /\
  exists sn' d', (2%nat, sn', d') ∈ [(0%nat, 5, [1; 2]); (2%nat, 7, [3])] /\ tb_safe_sn wp3.1 < sn'.
Proof.
  split; [vm_compute; reflexivity|].
  apply (safe_sn_behind 3 wp2.1 wp2.2 ({[200]} ∪ ({[100]} ∪ ∅)) [(0%nat, 5, [1; 2]); (2%nat, 7, [3])]
    wp3.1 wp3.2 2 7 [3]); [exact wp_run|vm_compute; reflexivity|right; left|vm_compute; reflexivity].
Defined.



(** Thread 2 writes a record in epoch 5 and then rests; threads 0 and 1 go from
    epoch 9 to epoch 10 and the loggers run. *)
Definition lag_run : result (Z * PBuf) :=
  let p := PBuf_new 3 (replicate 3 NULL) (replicate 3 NULL) 4096 in
  p ← WriteUpdateRecords 2 5 1 [(0, 77, 9, 1000, 8)] p;
  p ← WriteUpdateRecords 0 9 1 [(0, 1, 1, 1000, 8)] p;
  p ← WriteUpdateRecords 1 9 1 [(0, 1, 1, 1000, 8)] p;
  p ← RecordTX 0 10 28 1 p;
  p ← RecordTX 1 10 28 1 p;
  p ← logger_round 0 p;
  p ← logger_round 1 p;
  GetSafeSN p.

(** The safe epoch does not wait for a thread that has not published yet.
    In a run of three threads [GetSafeSN] answers 8 while a record that thread 2 wrote in
    epoch 5 is in its local buffer only: both log files hold just the records
    of the other threads. *)
Lemma safe_sn_skips_silent_thread :
  exists p a b, lag_run = Ok (8, p) /\
    pb_lbuf p !! 2%nat = Some a /\ pb_heap p !! a = Some b /\ lb_sn b = 5 /\
    DecodeFixed64 (lb_data b) = Ok 77 /\
    (tb_log <$> pb_tbufs p) = replicate 2 (EncodeFixed64 1 ++ [1] ++ EncodeFixed64 1000).
Proof.
  destruct lag_run as [[s p]|] eqn:E; [|vm_compute in E; discriminate].
  vm_compute in E. injection E as <- <-.
  do 3 eexists. split; [reflexivity|]. split; [reflexivity|]. split; [reflexivity|].
  vm_compute. done.
Qed.
