(* ===== verification/Locks.v ===== *)
(** * Locks (util/spinlock.h, util/rwlock)

    [SpinLock] has three lock words of 16 bits, taken by an atomic exchange;
    [RWLock] is a reader-writer lock in one 16-bit counter.  Both are modelled
    access by access for any number of threads; the theorems are mutual
    exclusion, with the bound that the width of the counter sets, and that a free
    lock is obtained. *)

From S2P Require Import Prelude.

(** How many elements of a list satisfy a predicate. *)
Fixpoint cnt {A} (P : A -> bool) (l : list A) : Z :=
  match l with [] => 0 | x :: l => Z.b2z (P x) + cnt P l end.

Lemma cnt_bounds {A} (P : A -> bool) l : 0 <= cnt P l <= Z.of_nat (length l).
Proof. induction l as [|x l IH]; simpl; [lia|]. destruct (P x); simpl; lia. Qed.

Lemma cnt_insert {A} (P : A -> bool) l j x y :
  l !! j = Some x -> cnt P (<[j := y]> l) = cnt P l - Z.b2z (P x) + Z.b2z (P y).
Proof. revert j. induction l as [|z l IH]; intros [|j]; simpl; [done..|intros [= ->]; lia|]. intros H. rewrite (IH j H). lia. Qed.

Lemma cnt_pos {A} (P : A -> bool) l j x : l !! j = Some x -> P x = true -> 0 < cnt P l.
Proof.
  revert j. induction l as [|z l IH]; intros [|j]; simpl; try done.
  - intros [= ->] ->. simpl. pose proof (cnt_bounds P l). lia.
  - intros H E. specialize (IH j H E). destruct (P z); simpl; lia.
Qed.

Lemma cnt_two {A} (P : A -> bool) l i j x y :
  i <> j -> l !! i = Some x -> l !! j = Some y -> P x = true -> P y = true -> 2 <= cnt P l.
Proof.
  intros Hne Hi Hj Px Py. assert (H : 0 < cnt P (delete i l)).
  { destruct (decide (i < j)%nat).
    - apply (cnt_pos P _ (j - 1)%nat y); [|done]. rewrite list_lookup_delete_ge by lia. by replace (S (j - 1)) with j by lia.
    - apply (cnt_pos P _ j y); [|done]. by rewrite list_lookup_delete_lt by lia. }
  rewrite (delete_take_drop l i) in H. rewrite <- (take_drop_middle l i x Hi).
  assert (Happ : forall l1 l2, cnt P (l1 ++ l2) = cnt P l1 + cnt P l2) by (induction l1; simpl; intros; [lia|rewrite IHl1; lia]).
  rewrite Happ in *. cbn [cnt]. rewrite Px. simpl. lia.
Qed.

Lemma cnt_le {A} (P Q : A -> bool) l : (forall x, P x = true -> Q x = true) -> cnt P l <= cnt Q l.
Proof.
  intros H. induction l as [|x l IH]; simpl; [done|]. specialize (H x). destruct (P x), (Q x); simpl; lia || by specialize (H eq_refl).
Qed.

Lemma cnt_room {A} (P : A -> bool) l j x : l !! j = Some x -> P x = false -> cnt P l < Z.of_nat (length l).
Proof.
  revert j. induction l as [|z l IH]; intros [|j]; simpl; try done.
  - intros [= ->] ->. pose proof (cnt_bounds P l). simpl. lia.
  - intros H E. specialize (IH j H E). destruct (P z); simpl; lia.
Qed.

Lemma cnt_false {A} (P : A -> bool) l : (forall j x, l !! j = Some x -> P x = false) -> cnt P l = 0.
Proof.
  induction l as [|x l IH]; intros H; simpl; [done|]. rewrite (H 0%nat x eq_refl), IH; [done|]. intros j y. apply (H (S j)).
Qed.

Lemma cnt_exists {A} (P : A -> bool) l : 0 < cnt P l -> exists j x, l !! j = Some x /\ P x = true.
Proof.
  induction l as [|x l IH]; simpl; [lia|]. destruct (P x) eqn:E; [by exists 0%nat, x|]. intros H.
  destruct (IH H) as (j & y & Hj & Hy). by exists (S j), y.
Qed.

(** A 16-bit word. *)
Definition u16 (z : Z) : Z := z mod 2 ^ 16.

(** ** RWLock *)

Module RWLock.

Definition TBB_WPENDING : Z := 1.
Definition TBB_WRITER : Z := 2.
(** [~0x1], which the 16-bit counter is masked with. *)
Definition TBB_CRITICAL : Z := -2.
Definition TBB_RINC : Z := 4.

(** Where a thread is; [WCas] has the value it expects. *)
Inductive phase :=
  | Idle
  | RTest
  | RAdd
  | RUndo
  | RIn
  | WTest
  | WOr
  | WSpin
  | WRead
  | WCas (tmp : Z)
  | WIn.

#[export] Instance phase_eq_dec : EqDecision phase.
Proof. solve_decision. Defined.

(** One access of a thread: the counter and where it is afterwards.  An idle
    thread starts to write or to read ([w]); in the critical section it ends. *)
Definition access (w : bool) (counter : Z) (ph : phase) : Z * phase :=
  match ph with
  | Idle => (counter, if w then WTest else RTest)
  (* StartRead *)
  | RTest => (counter, if Z.land counter (Z.lor TBB_WPENDING TBB_WRITER) =? 0 then RAdd else RTest)
  | RAdd =>
      let lval := counter in
      (u16 (counter + TBB_RINC), if Z.land lval (Z.lor TBB_WPENDING TBB_WRITER) =? 0 then RIn else RUndo)
  | RUndo => (u16 (counter - TBB_RINC), RTest)
  (* EndRead *)
  | RIn => (u16 (counter - TBB_RINC), Idle)
  (* StartWrite *)
  | WTest => (counter, if negb (Z.land counter TBB_CRITICAL =? 0) then WOr else WRead)
  | WOr => (Z.lor counter TBB_WPENDING, WSpin)
  | WSpin => (counter, if negb (Z.land counter TBB_CRITICAL =? 0) then WSpin else WRead)
  | WRead => (counter, WCas (Z.land counter TBB_WPENDING))
  | WCas tmp => if counter =? tmp then (TBB_WRITER, WIn) else (counter, WTest)
  (* EndWrite *)
  | WIn => (Z.land counter (u16 (Z.lnot (Z.lor TBB_WPENDING TBB_WRITER))), Idle)
  end.

Record state := mkState { counter : Z; phases : list phase }.

Definition step_of (j : nat) (w : bool) (s : state) : state :=
  match phases s !! j with
  | Some ph => let '(c, ph) := access w (counter s) ph in mkState c (<[j := ph]> (phases s))
  | None => s
  end.

Definition init (n : nat) : state := mkState 0 (replicate n Idle).

Definition run (sched : list (nat * bool)) (s : state) : state := fold_left (fun s e => step_of e.1 e.2 s) sched s.

(** ** Invariant *)

Definition reading (ph : phase) : bool := match ph with RIn => true | _ => false end.
Definition counted (ph : phase) : bool := match ph with RIn | RUndo => true | _ => false end.
Definition writing (ph : phase) : bool := match ph with WIn => true | _ => false end.
Definition waiting (ph : phase) : bool := match ph with WTest | WOr | WSpin | WRead | WCas _ => true | _ => false end.

Definition cas_ok (ph : phase) : Prop := match ph with WCas tmp => tmp = 0 \/ tmp = 1 | _ => True end.

(** The counter counts the readers inside and those that will step back, with the
    writer in bit 1 and the pending bit in bit 0. *)
Record inv (s : state) : Prop := {
  inv_counter : exists p, (p = 0 \/ p = 1) /\
    counter s = 4 * cnt counted (phases s) + 2 * cnt writing (phases s) + p /\
    (p = 1 -> 0 < cnt waiting (phases s));
  inv_writing : cnt writing (phases s) <= 1;
  inv_excl : cnt writing (phases s) = 1 -> cnt reading (phases s) = 0;
  inv_cas j ph : phases s !! j = Some ph -> cas_ok ph
}.

(** Masking a 16-bit word with a truncated mask. *)
Lemma land_u16 c m : 0 <= c < 2 ^ 16 -> Z.land c (u16 m) = Z.land c m.
Proof.
  intros Hc. unfold u16. rewrite <- !Z.land_ones by done. rewrite (Z.land_comm m), Z.land_assoc.
  by rewrite Z.land_ones, Z.mod_small.
Qed.

(** The bits of a counter. *)
Lemma counter_bits k w p c :
  c = 4 * k + 2 * w + p -> (w = 0 \/ w = 1) -> (p = 0 \/ p = 1) ->
  Z.land c 3 = 2 * w + p /\ Z.land c 1 = p /\ Z.land c (-2) = 4 * k + 2 * w /\ Z.lor c 1 = 4 * k + 2 * w + 1.
Proof.
  intros E Hw Hp.
  assert (E1 : Z.land c 1 = p) by (change 1 with (Z.ones 1); rewrite Z.land_ones by done; Z.to_euclidean_division_equations; lia).
  assert (E3 : Z.land c 3 = 2 * w + p) by (change 3 with (Z.ones 2); rewrite Z.land_ones by done; Z.to_euclidean_division_equations; lia).
  split_and!; [done..| |].
  - change (-2) with (Z.lnot 1). rewrite land_lnot, E1. lia.
  - pose proof (Z.add_lor_land c 1). lia.
Qed.

Definition max_threads : Z := 16383.

Section step.
Context (s : state) (j : nat) (ph : phase).
Hypotheses (Hj : phases s !! j = Some ph) (Hi : inv s).

(** How a count changes when thread [j] moves to [ph']. *)
Definition moved (P : phase -> bool) (ph' : phase) : Z := cnt P (phases s) - Z.b2z (P ph) + Z.b2z (P ph').

Lemma inv_update c' ph' p' :
  cas_ok ph' -> (p' = 0 \/ p' = 1) -> c' = 4 * moved counted ph' + 2 * moved writing ph' + p' ->
  (p' = 1 -> 0 < moved waiting ph') -> moved writing ph' <= 1 ->
  (moved writing ph' = 1 -> moved reading ph' = 0) -> inv (mkState c' (<[j := ph']> (phases s))).
Proof using Hj Hi.
  intros Hcas Hp Hc Hpend Hw He. split; cbn [phases counter]; rewrite ?(cnt_insert _ _ _ _ _ Hj); [|done..|].
  - by exists p'.
  - intros i q [(_ & -> & _)|[_ Hq]]%list_lookup_insert_Some; [done|]. by apply (inv_cas _ Hi i).
Qed.

Hypothesis Hlen : Z.of_nat (length (phases s)) <= max_threads.

Lemma rw_step_inv w : inv (let '(c, ph') := access w (counter s) ph in mkState c (<[j := ph']> (phases s))).
Proof using Hj Hi Hlen.
  unfold max_threads in Hlen. pose proof (inv_cas _ Hi j ph Hj) as Hcas. pose proof inv_update as Hup.
  destruct Hi as [(p & Hp & Hc & Hpend) Hw He _].
  pose proof (cnt_bounds counted (phases s)) as Bc. pose proof (cnt_bounds writing (phases s)) as Bw.
  pose proof (cnt_le reading counted (phases s) ltac:(by intros [])) as Brc.
  pose proof (cnt_bounds reading (phases s)) as Br. pose proof (cnt_bounds waiting (phases s)) as Bwt.
  assert (Hpos : forall P : phase -> bool, P ph = true -> 0 < cnt P (phases s)) by (intros P; by apply (cnt_pos P _ j)).
  assert (Hroom : counted ph = false -> cnt counted (phases s) < Z.of_nat (length (phases s))) by (by apply (cnt_room _ _ j)).
  destruct (counter_bits (cnt counted (phases s)) (cnt writing (phases s)) p (counter s) Hc ltac:(lia) Hp) as (B3 & B1 & Bm & Bo).
  unfold moved in Hup. destruct ph; cbn [access]; change (Z.lor TBB_WPENDING TBB_WRITER) with 3;
    change TBB_CRITICAL with (-2); change TBB_WPENDING with 1; change TBB_RINC with 4; change TBB_WRITER with 2;
    rewrite ?B3, ?B1, ?Bm, ?Bo.
  - destruct w; apply (Hup _ _ p); simpl; try done; lia.
  - destruct (_ =? 0); apply (Hup _ _ p); simpl; try done; lia.
  - specialize (Hroom eq_refl). unfold u16. rewrite Z.mod_small by lia.
    destruct (Z.eqb_spec (2 * cnt writing (phases s) + p) 0); apply (Hup _ _ p); simpl; try done; lia.
  - pose proof (Hpos counted eq_refl). unfold u16. rewrite Z.mod_small by lia. apply (Hup _ _ p); simpl; try done; lia.
  - pose proof (Hpos reading eq_refl). pose proof (Hpos counted eq_refl). unfold u16. rewrite Z.mod_small by lia. apply (Hup _ _ p); simpl; try done; lia.
  - destruct (negb _); apply (Hup _ _ p); simpl; try done; lia.
  - pose proof (Hpos waiting eq_refl). apply (Hup _ _ 1); simpl; try done; lia.
  - destruct (negb _); apply (Hup _ _ p); simpl; try done; lia.
  - apply (Hup _ _ p); simpl; try done; lia.
  - cbn in Hcas. destruct (Z.eqb_spec (counter s) tmp) as [E|E].
    + apply (Hup _ _ 0); simpl; try done; lia.
    + apply (Hup _ _ p); simpl; try done; lia.
  - pose proof (Hpos writing eq_refl). rewrite land_u16 by lia. rewrite land_lnot, B3.
    apply (Hup _ _ 0); simpl; try done; lia.
Qed.
End step.

Lemma init_inv n : inv (init n).
Proof.
  assert (E : forall P : phase -> bool, P Idle = false -> cnt P (replicate n Idle) = 0).
  { intros P HP. apply cnt_false. intros j x [-> _]%lookup_replicate. done. }
  split; cbn; rewrite ?E by done; try done.
  - exists 0. split_and!; [by left|done..].
  - intros j ph [-> _]%lookup_replicate. done.
Qed.

Lemma step_length j w s : length (phases (step_of j w s)) = length (phases s).
Proof.
  unfold step_of. destruct (phases s !! j) as [ph|]; [|done]. destruct (access w (counter s) ph). cbn. apply length_insert.
Qed.

Lemma run_inv sched s :
  Z.of_nat (length (phases s)) <= max_threads -> inv s -> inv (run sched s) /\ length (phases (run sched s)) = length (phases s).
Proof.
  unfold run. revert s. induction sched as [|[j w] sched IH]; intros s Hl Hi; [done|]. cbn [fold_left fst snd].
  rewrite <- (step_length j w s). apply IH; rewrite ?step_length; [done|].
  unfold step_of. destruct (phases s !! j) as [ph|] eqn:Hj; [|done]. by apply (rw_step_inv s j ph).
Qed.

Lemma rw_reach_inv n sched : Z.of_nat n <= max_threads -> inv (run sched (init n)).
Proof. intros Hn. apply run_inv; [|apply init_inv]. cbn. by rewrite length_replicate. Qed.

Lemma run_cons j w sched s : run ((j, w) :: sched) s = run sched (step_of j w s).
Proof. done. Qed.

Lemma step_at j w s ph :
  phases s !! j = Some ph ->
  step_of j w s = mkState (access w (counter s) ph).1 (<[j := (access w (counter s) ph).2]> (phases s)).
Proof. intros Hj. unfold step_of. rewrite Hj. by destruct (access w (counter s) ph). Qed.

(** Running one thread alone is iterating its accesses. *)
Lemma run_alone j w k s ph :
  phases s !! j = Some ph ->
  let '(c, ph') := Nat.iter k (fun q => access w q.1 q.2) (counter s, ph) in
  counter (run (replicate k (j, w)) s) = c /\ phases (run (replicate k (j, w)) s) !! j = Some ph'.
Proof.
  revert s ph. induction k as [|k IH]; intros s ph Hj; [done|]. rewrite Nat.iter_succ_r. cbn [replicate]. rewrite run_cons.
  rewrite (step_at j w s ph Hj). cbn [fst snd]. destruct (access w (counter s) ph) as [c ph'].
  apply (IH (mkState c _)). cbn. apply list_lookup_insert_eq. by eapply lookup_lt_Some.
Qed.

(** Nobody is inside, nobody is about to step back. *)
Definition free (s : state) : Prop :=
  forall i ph, phases s !! i = Some ph -> reading ph = false /\ writing ph = false /\ ph <> RUndo.

(** C32: [RWLock] with up to 16383 threads: in every interleaving a writer is alone
    in the critical section.  When nobody is inside and no reader has to step
    back, a thread in [StartWrite] that runs alone enters within five accesses;
    when moreover no thread is in [StartWrite], so does a thread in [StartRead]:
    no pending bit is left behind that would keep readers out. *)
Theorem rwlock_exclusion n sched :
  Z.of_nat n <= max_threads ->
  let s := run sched (init n) in
  (forall i j ph, i <> j -> phases s !! i = Some WIn -> phases s !! j = Some ph -> writing ph = false /\ reading ph = false) /\
  (free s -> forall j ph w, phases s !! j = Some ph -> waiting ph = true ->
     exists k, (k <= 5)%nat /\ phases (run (replicate k (j, w)) s) !! j = Some WIn) /\
  (free s -> (forall i ph, phases s !! i = Some ph -> waiting ph = false) ->
     forall j ph w, phases s !! j = Some ph -> ph = RTest \/ ph = RAdd ->
       exists k, (k <= 5)%nat /\ phases (run (replicate k (j, w)) s) !! j = Some RIn).
Proof.
  intros Hn s. pose proof (rw_reach_inv n sched Hn) as Hi. change (run sched (init n)) with s in Hi. clearbody s.
  destruct (inv_counter _ Hi) as (p & Hp & Hc & Hpend).
  assert (Hfree : free s -> cnt counted (phases s) = 0 /\ cnt writing (phases s) = 0).
  { intros Hf. split; apply cnt_false; intros j ph Hj; destruct (Hf j ph Hj) as (E1 & E2 & E3); by destruct ph. }
  split_and!.
  - intros i j ph Hne Hiw Hj. pose proof (inv_writing _ Hi) as Hw. pose proof (cnt_pos writing _ i _ Hiw eq_refl) as Hpos. split.
    + destruct (writing ph) eqn:E; [|done]. pose proof (cnt_two writing _ i j _ _ Hne Hiw Hj eq_refl E). lia.
    + destruct (reading ph) eqn:E; [|done]. pose proof (cnt_pos reading _ j _ Hj E). pose proof (inv_excl _ Hi ltac:(lia)). lia.
  - intros Hf j ph w Hj Hwait. destruct (Hfree Hf) as [Ec Ew]. pose proof (inv_cas _ Hi j ph Hj) as Hcas.
    assert (Hal := fun k => run_alone j w k s ph Hj). rewrite Ec, Ew in Hc.
    destruct ph; try done; cbn in Hcas; destruct Hp as [-> | ->]; simpl in Hc; rewrite Hc in Hal.
    all: try (exists 3%nat; split; [lia|]; exact (proj2 (Hal 3%nat))).
    all: try (exists 4%nat; split; [lia|]; exact (proj2 (Hal 4%nat))).
    all: try (exists 2%nat; split; [lia|]; exact (proj2 (Hal 2%nat))).
    all: destruct Hcas as [-> | ->].
    all: try (exists 1%nat; split; [lia|]; exact (proj2 (Hal 1%nat))).
    all: exists 4%nat; split; [lia|]; exact (proj2 (Hal 4%nat)).
  - intros Hf Hnw j ph w Hj Hph. destruct (Hfree Hf) as [Ec Ew]. rewrite (cnt_false _ _ Hnw) in Hpend.
    assert (Hal := fun k => run_alone j w k s ph Hj). rewrite Ec, Ew in Hc. destruct Hp as [-> | ->]; [|lia].
    simpl in Hc; rewrite Hc in Hal. destruct Hph as [-> | ->].
    + exists 2%nat. split; [lia|]. exact (proj2 (Hal 2%nat)).
    + exists 1%nat. split; [lia|]. exact (proj2 (Hal 1%nat)).
Qed.

(** ** The bound is exact *)

(** [k] readers have entered one after the other, out of [n] threads. *)
Definition readers_in (k n : nat) : state := mkState (u16 (4 * Z.of_nat k)) (replicate k RIn ++ replicate (n - k) Idle).

Lemma reader_enters k n : (k < n)%nat -> run (replicate 3 (k, false)) (readers_in k n) = readers_in (S k) n.
Proof.
  intros Hk. unfold readers_in. replace (n - k)%nat with (S (n - S k)) by lia. cbn [replicate].
  set (l := replicate k RIn). assert (Hl : length l = k) by apply length_replicate.
  assert (Hb : Z.land (u16 (4 * Z.of_nat k)) 3 = 0).
  { unfold u16. change 3 with (Z.ones 2). rewrite Z.land_ones by done. Z.to_euclidean_division_equations. lia. }
  assert (Hat : forall x c r, step_of k false (mkState c (l ++ x :: r)) =
            mkState (access false c x).1 (l ++ (access false c x).2 :: r)).
  { intros x c r. rewrite (step_at _ _ _ x); cbn [phases counter].
    - f_equal. rewrite insert_app_r_alt by lia. by rewrite Hl, Nat.sub_diag.
    - by rewrite lookup_app_r, Hl, Nat.sub_diag by lia. }
  rewrite !run_cons, !Hat. cbn [access fst snd]. change (Z.lor TBB_WPENDING TBB_WRITER) with 3. rewrite !Hb. cbn [Z.eqb access fst snd].
  change (Z.lor TBB_WPENDING TBB_WRITER) with 3. rewrite !Hb. cbn [Z.eqb fst snd run fold_left].
  f_equal; [unfold u16, TBB_RINC; rewrite Zplus_mod_idemp_l; f_equal; lia|]. subst l.
  change (RIn :: replicate k RIn) with (replicate (S k) RIn). by rewrite (replicate_S_end k RIn), <- app_assoc.
Qed.

Lemma readers_enter k n : (k <= n)%nat -> exists sched, run sched (init n) = readers_in k n.
Proof.
  induction k as [|k IH]; intros Hk.
  - exists []. unfold readers_in. by rewrite Nat.sub_0_r.
  - destruct (IH ltac:(lia)) as [sched E]. exists (sched ++ replicate 3 (k, false)).
    unfold run in *. by rewrite fold_left_app, E, <- (reader_enters k n) by lia.
Qed.

(** With 16384 readers inside the counter has wrapped to 0 and a writer joins
    them. *)
Lemma rwlock_wraps n : Z.of_nat n = 16384 -> exists sched, let s := run sched (init (S n)) in
  phases s !! 0%nat = Some RIn /\ phases s !! n = Some WIn.
Proof.
  intros Hn.
  destruct (readers_enter n (S n) ltac:(lia)) as [sched E]. exists (sched ++ replicate 4 (n, true)).
  unfold run. rewrite fold_left_app. fold (run sched (init (S n))). rewrite E. fold (run (replicate 4 (n, true))).
  assert (Hj : phases (readers_in n (S n)) !! n = Some Idle).
  { cbn [readers_in phases]. rewrite lookup_app_r, length_replicate by (rewrite length_replicate; lia). by replace (S n - n)%nat with 1%nat by lia; rewrite Nat.sub_diag. }
  split.
  - assert (Hne : forall k s, phases s !! 0%nat = Some RIn ->
              phases (run (replicate k (n, true)) s) !! 0%nat = Some RIn).
    { induction k as [|k IH]; intros s Hs; [done|]. cbn [replicate]. rewrite run_cons. apply IH. unfold step_of.
      destruct (phases s !! n) as [ph|]; [|done]. destruct (access true (counter s) ph). cbn.
      rewrite list_lookup_insert_ne by lia. done. }
    apply Hne. cbn [readers_in phases]. rewrite lookup_app_l by (rewrite length_replicate; lia). apply lookup_replicate_2. lia.
  - pose proof (run_alone n true 4 _ Idle Hj) as Ha. cbn [readers_in counter] in Ha. rewrite Hn in Ha. exact (proj2 Ha).
Qed.

(** A writer waits for a reader; when the reader has left, it enters. *)
Definition w_sched : list (nat * bool) :=
  [(0%nat, false); (0%nat, false); (0%nat, false); (1%nat, true); (1%nat, true); (1%nat, true); (0%nat, false)].

Lemma rwlock_exclusion_witness :
  exists k, (k <= 5)%nat /\ phases (run (replicate k (1%nat, true)) (run w_sched (init 2))) !! 1%nat = Some WIn.
Proof.
  refine (proj1 (proj2 (rwlock_exclusion 2 w_sched ltac:(done))) _ 1%nat WSpin true eq_refl eq_refl).
  intros [|[|i]] ph; vm_compute; [intros [= <-]; split_and!; done..|done].
Defined.

End RWLock.

(** ** SpinLock *)

Module SpinLock.

(** The lock words. *)
Inductive word := WLock | WReadLock | WWriteLock.

#[export] Instance word_eq_dec : EqDecision word.
Proof. solve_decision. Defined.

(** The word that a routine spins on after a failed exchange: [write_Lock] looks
    at [read_lock]. *)
Definition spin_word (w : word) : word :=
  match w with WLock => WLock | WReadLock => WReadLock | WWriteLock => WReadLock end.

(** [Idle], then [Lock] of one of the words, then inside, then [Unlock]. *)
Inductive phase :=
  | Idle
  | Xchg (w : word)
  | Spin (w : word)
  | In (w : word).

Record state := mkState { words : word -> Z; phases : list phase }.

Definition set_word (w : word) (v : Z) (m : word -> Z) : word -> Z := fun w' => if decide (w' = w) then v else m w'.

(** One access; an idle thread calls a lock routine. *)
Definition access (call : word) (m : word -> Z) (ph : phase) : (word -> Z) * phase :=
  match ph with
  | Idle => (m, Xchg call)
  | Xchg w => (set_word w 1 m, if m w =? 0 then In w else Spin w)
  | Spin w => (m, if m (spin_word w) =? 0 then Xchg w else Spin w)
  | In w => (set_word w 0 m, Idle)
  end.

Definition step_of (j : nat) (call : word) (s : state) : state :=
  match phases s !! j with
  | Some ph => let '(m, ph) := access call (words s) ph in mkState m (<[j := ph]> (phases s))
  | None => s
  end.

(** What [Trylock] returns (0 when it got the lock) and the words afterwards. *)
Definition Trylock (m : word -> Z) : Z * (word -> Z) := (m WLock, set_word WLock 1 m).

(** The constructor initialises [lock] only; [rl] and [wl] are what memory held. *)
Definition init (rl wl : Z) (n : nat) : state :=
  mkState (fun w => match w with WLock => 0 | WReadLock => rl | WWriteLock => wl end) (replicate n Idle).

Definition run (sched : list (nat * word)) (s : state) : state := fold_left (fun s e => step_of e.1 e.2 s) sched s.

Definition inside (w : word) (ph : phase) : bool := match ph with In w' => bool_decide (w' = w) | _ => false end.

(** At most one thread is inside of a word, and then the word is taken; a word
    that is taken has a holder unless it was never initialised. *)
Definition inv (bad : word -> bool) (s : state) : Prop :=
  forall w, cnt (inside w) (phases s) <= 1 /\ (cnt (inside w) (phases s) = 1 -> words s w <> 0) /\
    (bad w = true -> cnt (inside w) (phases s) = 0 /\ words s w <> 0) /\
    (bad w = false -> words s w <> 0 -> cnt (inside w) (phases s) = 1).

Lemma spin_step_inv bad j call s : inv bad s -> inv bad (step_of j call s).
Proof.
  intros Hi. unfold step_of. destruct (phases s !! j) as [ph|] eqn:Hj; [|done].
  assert (Hpos : forall w, inside w ph = true -> 0 < cnt (inside w) (phases s)) by (intros w; by apply (cnt_pos _ _ j)).
  destruct ph as [|v|v|v]; cbn [access]; intros w; cbn [phases words]; rewrite (cnt_insert _ _ _ _ _ Hj);
    destruct (Hi w) as (Hle & Hone & Hbad & Hgood); cbn [inside Z.b2z].
  - rewrite Z.sub_0_r, Z.add_0_r. done.
  - unfold set_word. pose proof (cnt_bounds (inside w) (phases s)). destruct (decide (w = v)) as [->|Hne].
    + destruct (Z.eqb_spec (words s v) 0) as [E|E]; cbn [inside]; rewrite ?bool_decide_true by done; cbn [Z.b2z].
      * split_and!; try lia; try done; intros Hb; destruct (Hbad Hb); lia.
      * split_and!; try lia; try done; intros Hb; [destruct (Hbad Hb); lia|specialize (Hgood Hb); lia].
    + assert (Hin : inside w (if words s v =? 0 then In v else Spin v) = false)
        by (destruct (words s v =? 0); cbn; [by apply bool_decide_false; congruence|done]).
      rewrite Hin. cbn. rewrite Z.sub_0_r, Z.add_0_r. done.
  - destruct (words s (spin_word v) =? 0); cbn; rewrite Z.sub_0_r, Z.add_0_r; done.
  - unfold set_word. specialize (Hpos w). cbn [inside] in Hpos. destruct (decide (w = v)) as [->|Hne].
    + rewrite bool_decide_true in * by done. specialize (Hpos eq_refl). cbn. split_and!; try lia; try done. intros Hb. destruct (Hbad Hb); lia.
    + rewrite bool_decide_false by congruence. cbn. rewrite Z.sub_0_r, Z.add_0_r. done.
Qed.

Lemma inv_exclusive bad s w i j :
  inv bad s -> i <> j -> phases s !! i = Some (In w) -> phases s !! j <> Some (In w).
Proof.
  intros Hi Hne Hpi Hpj. destruct (Hi w) as [Hle _]. assert (Hin : inside w (In w) = true) by by apply bool_decide_true.
  pose proof (cnt_two _ _ _ _ _ _ Hne Hpi Hpj Hin Hin). lia.
Qed.

Definition bad_words (rl wl : Z) (w : word) : bool :=
  match w with WLock => false | WReadLock => negb (rl =? 0) | WWriteLock => negb (wl =? 0) end.

Lemma spin_reach_inv rl wl n sched : inv (bad_words rl wl) (run sched (init rl wl n)).
Proof.
  unfold run. assert (H0 : inv (bad_words rl wl) (init rl wl n)).
  { intros w. cbn [init phases words]. rewrite cnt_false by (by intros j x [-> _]%lookup_replicate). split_and!; try done.
    - destruct w; cbn; [done|by destruct (Z.eqb_spec rl 0)|by destruct (Z.eqb_spec wl 0)].
    - destruct w; cbn; [done|by destruct (Z.eqb_spec rl 0)|by destruct (Z.eqb_spec wl 0)]. }
  revert H0. generalize (init rl wl n). induction sched as [|[j c] sched IH]; intros s Hs; [done|]. by apply IH, spin_step_inv.
Qed.

Lemma step_phase j call s ph :
  phases s !! j = Some ph -> phases (step_of j call s) !! j = Some (access call (words s) ph).2.
Proof.
  intros Hj. unfold step_of. rewrite Hj. destruct (access call (words s) ph). cbn. apply list_lookup_insert_eq. by eapply lookup_lt_Some.
Qed.

(** [SpinLock]: no two threads are inside of the same lock word, for any
    number of threads and any interleaving.  A word that is taken has a holder
    when memory held 0 in it at the start; the constructor does not write
    [read_lock] and [write_lock], and when memory held another value no thread
    ever gets in.  A thread that runs alone gets a free lock in two accesses,
    except that [write_Lock] may spin on [read_lock] instead. *)
Lemma spinlock_exclusion rl wl n sched w :
  let s := run sched (init rl wl n) in
  (forall i j, i <> j -> phases s !! i = Some (In w) -> phases s !! j <> Some (In w)) /\
  (bad_words rl wl w = false -> words s w <> 0 -> exists j, phases s !! j = Some (In w)) /\
  (bad_words rl wl w = true -> forall j, phases s !! j <> Some (In w)) /\
  (words s w = 0 -> forall j call,
     (phases s !! j = Some (Xchg w) -> phases (step_of j call s) !! j = Some (In w)) /\
     (phases s !! j = Some (Spin w) -> words s (spin_word w) = 0 ->
        phases (step_of j call (step_of j call s)) !! j = Some (In w)) /\
     (phases s !! j = Some (Spin w) -> words s (spin_word w) <> 0 -> phases (step_of j call s) !! j = Some (Spin w))).
Proof.
  intros s. destruct (spin_reach_inv rl wl n sched w) as (_ & _ & Hbad & Hgood). fold s in Hbad, Hgood.
  assert (Hin : inside w (In w) = true) by by apply bool_decide_true. split_and!.
  - intros i j. apply (inv_exclusive _ _ _ _ _ (spin_reach_inv rl wl n sched)).
  - intros Hb Hw. specialize (Hgood Hb Hw).
    destruct (cnt_exists (inside w) (phases s) ltac:(lia)) as (j & ph & Hj & Hph). exists j.
    destruct ph; try done. by apply bool_decide_eq_true in Hph as ->.
  - intros Hb j Hj. pose proof (cnt_pos _ _ _ _ Hj Hin). destruct (Hbad Hb). lia.
  - intros E0 j call. split_and!.
    + intros Hj. rewrite (step_phase _ _ _ _ Hj). cbn. by rewrite E0.
    + intros Hj Hs. pose proof (step_phase j call _ _ Hj) as H1. cbn in H1. rewrite Hs in H1. cbn in H1.
      rewrite (step_phase _ _ _ _ H1). cbn. unfold step_of. rewrite Hj. cbn. by rewrite E0.
    + intros Hj Hs. rewrite (step_phase _ _ _ _ Hj). cbn. by rewrite (proj2 (Z.eqb_neq _ _) Hs).
Qed.

(** A writer that met another writer is kept out by a reader when the lock it
    wants is free. *)
Example write_Lock_blocked :
  let s := run [(0, WWriteLock); (0, WWriteLock); (1, WWriteLock); (1, WWriteLock); (2, WReadLock); (2, WReadLock); (0, WLock)]%nat
             (init 0 0 3) in
  words s WWriteLock = 0 /\ forall k, phases (run (replicate k (1%nat, WLock)) s) !! 1%nat = Some (Spin WWriteLock).
Proof.
  split; [reflexivity|]. set (s := run _ _). intros k.
  assert (H : forall s, words s WReadLock <> 0 -> phases s !! 1%nat = Some (Spin WWriteLock) ->
            phases (run (replicate k (1%nat, WLock)) s) !! 1%nat = Some (Spin WWriteLock)); [|by apply H].
  clear s. induction k as [|k IH]; intros s Hr Hj; [done|]. apply IH.
  - cbn. unfold step_of. by rewrite Hj.
  - rewrite (step_phase _ _ _ _ Hj). cbn. by rewrite (proj2 (Z.eqb_neq _ _) Hr).
Qed.

End SpinLock.
