(* ===== verification/RTM.v ===== *)
(** * RTM regions with a fallback lock (util/rtm.h, util/rtmScope.h)

    [RTMScope] and [RTMArenaScope] run the code between their constructor and
    their destructor as a hardware transaction, and under a spin lock when the
    hardware has refused too often.  The first part is the retry policy of the
    two constructors; the second part is threads that run such regions at the
    same time, access by access, on hardware as Intel documents it; the theorems
    show that the regions are atomic, which is how the rest of the development
    uses them. *)

From S2P Require Import Prelude.

(** ** Abort status *)

(** Bits of the status of [_xbegin] (immintrin.h). *)
Definition XABORT_EXPLICIT (stat : Z) : bool := Z.testbit stat 0.
Definition XABORT_CONFLICT (stat : Z) : bool := Z.testbit stat 2.
Definition XABORT_CAPACITY (stat : Z) : bool := Z.testbit stat 3.
Definition XABORT_NESTED (stat : Z) : bool := Z.testbit stat 5.
Definition XABORT_CODE (stat : Z) : Z := Z.land (Z.shiftr stat 24) 255.

(** The status after [_xabort(code)], and after a conflict. *)
Definition explicit_stat (code : Z) : Z := Z.lor (Z.shiftl code 24) 1.
Definition conflict_stat : Z := 6.

(** ** The constructors' policies *)

Definition MAXNEST : Z := 0.
Definition MAXZERO : Z := 3.
Definition MAXCAPACITY : Z := 16.
Definition MAXCONFLICT : Z := 128.
Definition MAXWRITE : Z := 64.
Definition MAXREAD : Z := 128.

Record Counters := mkCounters {
  c_retry : Z;
  c_conflict : Z;
  c_capacity : Z;
  c_nested : Z;
  c_explict : Z;
  c_zero : Z
}.

Definition Counters_0 : Counters := mkCounters 0 0 0 0 0 0.

(** What follows an abort: whether the constructor waits for the lock to be
    free, and whether it leaves the loop. *)
Record verdict := mkVerdict { v_wait : bool; v_break : bool }.

(** The [else if] chain of [RTMScope]. *)
Definition RTMScope_count (stat : Z) (c : Counters) : Counters :=
  let retry := c_retry c + 1 in
  if stat =? 0 then
    mkCounters retry (c_conflict c) (c_capacity c) (c_nested c) (c_explict c) (c_zero c + 1)
  else if XABORT_CONFLICT stat then
    mkCounters retry (c_conflict c + 1) (c_capacity c) (c_nested c) (c_explict c) (c_zero c)
  else if XABORT_CAPACITY stat then
    mkCounters retry (c_conflict c) (c_capacity c + 1) (c_nested c) (c_explict c) (c_zero c)
  else if XABORT_NESTED stat then
    mkCounters retry (c_conflict c) (c_capacity c) (c_nested c + 1) (c_explict c) (c_zero c)
  else mkCounters retry (c_conflict c) (c_capacity c) (c_nested c) (c_explict c) (c_zero c).

Definition RTMScope_step (read write : Z) : Z :=
  let step := (read + write) ÷ 64 in if step =? 0 then 1 else step.

Definition RTMScope_abort (read write : Z) (c : Counters) (stat : Z) : Counters * verdict :=
  let c := RTMScope_count stat c in
  let step := RTMScope_step read write in
  (c, mkVerdict (XABORT_EXPLICIT stat && (XABORT_CODE stat =? 255))
        ((MAXNEST <? c_nested c) || (MAXZERO <? c_zero c) ||
         (MAXCAPACITY ÷ step <? c_capacity c) || (MAXCONFLICT ÷ step <? c_conflict c))).

(** [RTMScope] takes the lock at once for a large region. *)
Definition RTMScope_direct (read write : Z) : bool := (MAXREAD <? read) || (MAXWRITE <? write).

(** The chain of [RTMArenaScope]; code [0xf0] makes it allocate a block for the
    arena of the thread. *)
Definition RTMArenaScope_count (stat : Z) (c : Counters) : Counters :=
  let retry := c_retry c + 1 in
  if XABORT_CONFLICT stat then
    mkCounters retry (c_conflict c + 1) (c_capacity c) (c_nested c) (c_explict c) (c_zero c)
  else if XABORT_CAPACITY stat then
    mkCounters retry (c_conflict c) (c_capacity c + 1) (c_nested c) (c_explict c) (c_zero c)
  else if XABORT_EXPLICIT stat && (XABORT_CODE stat =? 240) then
    mkCounters retry (c_conflict c) (c_capacity c) (c_nested c) (c_explict c + 1) (c_zero c)
  else if stat =? 0 then
    mkCounters retry (c_conflict c) (c_capacity c) (c_nested c) (c_explict c) (c_zero c + 1)
  else mkCounters retry (c_conflict c) (c_capacity c) (c_nested c) (c_explict c) (c_zero c).

Definition RTMArenaScope_allocates (stat : Z) : bool :=
  negb (XABORT_CONFLICT stat) && negb (XABORT_CAPACITY stat) &&
  XABORT_EXPLICIT stat && (XABORT_CODE stat =? 240).

Definition RTMArenaScope_abort (c : Counters) (stat : Z) : Counters * verdict :=
  let c := RTMArenaScope_count stat c in
  (c, mkVerdict (negb (XABORT_CONFLICT stat) && negb (XABORT_CAPACITY stat) &&
                 XABORT_EXPLICIT stat && (XABORT_CODE stat =? 255))
        ((2 <? c_zero c) || (4 <? c_capacity c) || (8 <? c_conflict c) || (32 <? c_retry c))).

(** The loop of a constructor over the statuses of failed attempts: the
    counters, and whether the loop was left for the lock. *)
Fixpoint abort_loop (on_abort : Counters -> Z -> Counters * verdict) (c : Counters) (stats : list Z) :
    Counters * bool :=
  match stats with
  | [] => (c, false)
  | stat :: stats =>
      let '(c, v) := on_abort c stat in
      if v_break v then (c, true) else abort_loop on_abort c stats
  end.

(** ** Regions on the hardware *)

(** The code of a region: reads, and writes that depend on them. *)
Inductive prog :=
  | Done
  | Rd (a : addr) (k : Z -> prog)
  | Wr (a : addr) (v : Z) (p : prog).

Abbreviation mem := (gmap Z Z) (only parsing).

Definition word (m : mem) (a : addr) : Z := default 0 (m !! a).

(** Running the region alone. *)
Fixpoint exec (p : prog) (m : mem) : mem :=
  match p with
  | Done => m
  | Rd a k => exec (k (word m a)) m
  | Wr a v p => exec p (<[a := v]> m)
  end.

Record region := mkRegion { rg_read : Z; rg_write : Z; rg_body : prog }.

(** Where a thread is in its region.  A hardware transaction keeps the addresses
    it has read and buffers its writes; once it has tested the lock, the lock
    word is among the addresses. *)
Inductive phase :=
  | POut
  | PBegin (c : Counters)
  | PCheck (c : Counters)
  | PTx (c : Counters) (p : prog) (rs : gset Z) (ws : mem)
  | PAborted (c : Counters) (stat : Z)
  | PSpin (c : Counters) (brk : bool)
  | PLock
  | PHold (p : prog).

(** The regions a thread has to run, with the one it is in first. *)
Record thread := mkThread { th_todo : list region; th_phase : phase }.

Record sys := mkSys {
  y_mem : mem;
  y_lock : Z;
  y_thr : list thread;
  y_log : list (nat * region)
}.

(** The hardware aborts the other transactions that have accessed a word that is
    written; a write of the lock word aborts all that have tested the lock. *)
Definition hit (written : gset Z) (rs : gset Z) (ws : mem) : bool :=
  negb (bool_decide (written ∩ (rs ∪ dom ws) = ∅)).

Definition kill (lockword : bool) (written : gset Z) (t : thread) : thread :=
  match th_phase t with
  | PTx c p rs ws => if lockword || hit written rs ws then mkThread (th_todo t) (PAborted c conflict_stat) else t
  | _ => t
  end.

Definition kill_others (lockword : bool) (written : gset Z) (j : nat) (ts : list thread) : list thread :=
  imap (fun i t => if (i =? j)%nat then t else kill lockword written t) ts.

Section machine.
(** The policy of the scope. *)
Context (direct : region -> bool) (on_abort : region -> Counters -> Z -> Counters * verdict).
Implicit Types (s : sys).

Definition set_thr (j : nat) (t : thread) s : sys :=
  mkSys (y_mem s) (y_lock s) (<[j := t]> (y_thr s)) (y_log s).

(** The destructor at the end of region [r] of thread [j], which has the buffered
    writes [tx] when it is in a transaction: a lock that is taken is released,
    otherwise the transaction is committed.  [_xend] outside of a transaction and
    releasing the lock from inside of one are faults. *)
Definition destructor (j : nat) (r : region) (todo : list region) (tx : option mem) s : result sys :=
  let t := mkThread todo POut in
  if negb (y_lock s =? 0) then
    match tx with
    | Some _ => Fault Undefined
    | None => Ok (mkSys (y_mem s) 0 (<[j := t]> (kill_others true ∅ j (y_thr s))) (y_log s ++ [(j, r)]))
    end
  else
    match tx with
    | None => Fault Undefined
    | Some ws => Ok (mkSys (ws ∪ y_mem s) 0 (<[j := t]> (kill_others false (dom ws) j (y_thr s))) (y_log s ++ [(j, r)]))
    end.

(** One step of thread [j]; [None] when it cannot move ([Lock] and the wait spin
    while the lock is taken) or has nothing to do. *)
Definition thread_step (j : nat) s : result (option sys) :=
  match y_thr s !! j with
  | Some (mkThread (r :: todo) ph) =>
      let go ph := Ok (Some (set_thr j (mkThread (r :: todo) ph) s)) in
      match ph with
      | POut => go (if direct r then PLock else PBegin Counters_0)
      | PBegin c => go (PCheck c)
      | PCheck c =>
          go (if negb (y_lock s =? 0) then PAborted c (explicit_stat 255) else PTx c (rg_body r) ∅ ∅)
      | PTx c (Rd a k) rs ws =>
          go (PTx c (k (word (ws ∪ y_mem s) a)) ({[a]} ∪ rs) ws)
      | PTx c (Wr a v p) rs ws => go (PTx c p rs (<[a := v]> ws))
      | PTx c Done rs ws => s ← destructor j r todo (Some ws) s; Ok (Some s)
      | PAborted c stat =>
          let '(c, v) := on_abort r c stat in
          go (if v_wait v then PSpin c (v_break v) else if v_break v then PLock else PBegin c)
      | PSpin c brk =>
          if negb (y_lock s =? 0) then Ok None else go (if brk then PLock else PBegin c)
      | PLock =>
          if negb (y_lock s =? 0) then Ok None
          else Ok (Some (mkSys (y_mem s) 1 (<[j := mkThread (r :: todo) (PHold (rg_body r))]> (kill_others true ∅ j (y_thr s))) (y_log s)))
      | PHold (Rd a k) => go (PHold (k (word (y_mem s) a)))
      | PHold (Wr a v p) =>
          Ok (Some (mkSys (<[a := v]> (y_mem s)) (y_lock s)
                      (<[j := mkThread (r :: todo) (PHold p)]> (kill_others false {[a]} j (y_thr s))) (y_log s)))
      | PHold Done => s ← destructor j r todo None s; Ok (Some s)
      end
  | _ => Ok None
  end.

(** The hardware aborts the transaction of thread [j] for reasons of its own. *)
Definition hw_abort (j : nat) (stat : Z) s : option sys :=
  match y_thr s !! j with
  | Some (mkThread todo (PCheck c | PTx c _ _ _)) => Some (set_thr j (mkThread todo (PAborted c stat)) s)
  | _ => None
  end.

Inductive step s : sys -> Prop :=
  | step_thread j s' : thread_step j s = Ok (Some s') -> step s s'
  | step_abort j stat s' : hw_abort j stat s = Some s' -> step s s'.

Definition start (m : mem) (todo : list (list region)) : sys :=
  mkSys m 0 ((fun rs => mkThread rs POut) <$> todo) [].

Inductive reachable (m : mem) (todo : list (list region)) : sys -> Prop :=
  | reach_start : reachable m todo (start m todo)
  | reach_step s s' : reachable m todo s -> step s s' -> reachable m todo s'.

End machine.

(** ** Invariant of the runs *)

(** The memory after the regions of the log, one after the other. *)
Definition run_log (m : mem) (log : list (nat * region)) : mem :=
  fold_left (fun m e => exec (rg_body e.2) m) log m.

(** The regions of thread [j] in the log. *)
Definition log_of (j : nat) (log : list (nat * region)) : list region :=
  snd <$> filter (fun e => e.1 = j) log.

Lemma run_log_snoc m log e : run_log m (log ++ [e]) = exec (rg_body e.2) (run_log m log).
Proof. unfold run_log. by rewrite fold_left_app. Qed.

Lemma log_of_snoc i log j r : log_of i (log ++ [(j, r)]) = log_of i log ++ (if decide (j = i) then [r] else []).
Proof.
  unfold log_of. rewrite filter_app, fmap_app. f_equal. rewrite filter_cons, filter_nil. simpl.
  by destruct (decide (j = i)).
Qed.

Definition agree (rs : gset Z) (m m' : mem) : Prop := forall a, a ∈ rs -> word m' a = word m a.

Definition is_hold (ph : phase) : bool := match ph with PHold _ => true | _ => false end.

(** A transaction that has not been aborted has done a part of its region, on any
    memory that agrees with what it has read; the holder of the lock has done a
    part of its region on the committed memory [c]. *)
Definition phase_ok (m : mem) (lock : Z) (c : mem) (r : region) (ph : phase) : Prop :=
  match ph with
  | PTx _ p rs ws => lock = 0 /\ forall m', agree rs m m' -> exec (rg_body r) m' = exec p (ws ∪ m')
  | PHold p => lock <> 0 /\ exec p m = exec (rg_body r) c
  | _ => True
  end.

Definition thr_ok (m : mem) (lock : Z) (c : mem) (t : thread) : Prop :=
  match th_todo t with r :: _ => phase_ok m lock c r (th_phase t) | [] => th_phase t = POut end.

Record inv (m0 : mem) (todo0 : list (list region)) (s : sys) : Prop := {
  inv_thr j t : y_thr s !! j = Some t -> thr_ok (y_mem s) (y_lock s) (run_log m0 (y_log s)) t;
  inv_free : y_lock s = 0 -> y_mem s = run_log m0 (y_log s);
  inv_held : y_lock s <> 0 -> exists j t, y_thr s !! j = Some t /\ is_hold (th_phase t) = true;
  inv_one i j t t' : y_thr s !! i = Some t -> y_thr s !! j = Some t' ->
    is_hold (th_phase t) = true -> is_hold (th_phase t') = true -> i = j;
  inv_order j rs : todo0 !! j = Some rs ->
    exists t, y_thr s !! j = Some t /\ log_of j (y_log s) ++ th_todo t = rs
}.

Lemma kill_todo lw A t : th_todo (kill lw A t) = th_todo t.
Proof. unfold kill. destruct (th_phase t); try done. by destruct (_ || _). Qed.

Lemma kill_hold lw A t : is_hold (th_phase (kill lw A t)) = is_hold (th_phase t).
Proof. unfold kill. destruct (th_phase t) eqn:E; rewrite ?E; try done. destruct (_ || _); simpl; by rewrite ?E. Qed.

(** The threads after thread [j] has moved and the hardware has reacted. *)
Lemma lookup_kill lw A j t' ts i t :
  (<[j := t']> (kill_others lw A j ts)) !! i = Some t ->
  (i = j /\ t = t' /\ (j < length ts)%nat) \/ (i <> j /\ exists t0, ts !! i = Some t0 /\ t = kill lw A t0).
Proof.
  intros Ht. destruct (decide (i = j)) as [->|Hne].
  - left. pose proof (lookup_lt_Some _ _ _ Ht) as Hlt. rewrite length_insert in Hlt. unfold kill_others in *.
    rewrite list_lookup_insert_eq in Ht by done. rewrite length_imap in Hlt. naive_solver.
  - right. split; [done|]. rewrite list_lookup_insert_ne in Ht by done. unfold kill_others in Ht.
    rewrite list_lookup_imap in Ht. destruct (ts !! i) as [t0|]; [|done]. simpl in Ht.
    rewrite (proj2 (Nat.eqb_neq _ _) Hne) in Ht. exists t0. by injection Ht as <-.
Qed.

Lemma lookup_kill_some lw A j t' ts i t0 :
  ts !! i = Some t0 ->
  (<[j := t']> (kill_others lw A j ts)) !! i = Some (if decide (i = j) then t' else kill lw A t0).
Proof.
  intros Ht. pose proof (lookup_lt_Some _ _ _ Ht) as Hlt. destruct (decide (i = j)) as [->|Hne].
  - apply list_lookup_insert_eq. unfold kill_others. by rewrite length_imap.
  - rewrite list_lookup_insert_ne by done. unfold kill_others. rewrite list_lookup_imap, Ht. simpl.
    by rewrite (proj2 (Nat.eqb_neq _ _) Hne).
Qed.

(** Only the phase of one thread changes. *)
Lemma inv_go m0 todo0 s j r todo ph ph' :
  inv m0 todo0 s -> y_thr s !! j = Some (mkThread (r :: todo) ph) -> is_hold ph' = is_hold ph ->
  phase_ok (y_mem s) (y_lock s) (run_log m0 (y_log s)) r ph' -> inv m0 todo0 (set_thr j (mkThread (r :: todo) ph') s).
Proof.
  intros [Ht Hf Hh H1 Ho] Hj Hho Hok.
  assert (Hl : forall i t, (<[j := mkThread (r :: todo) ph']> (y_thr s)) !! i = Some t ->
            (i = j /\ t = mkThread (r :: todo) ph') \/ (i <> j /\ y_thr s !! i = Some t)).
  { intros i t Hi. apply list_lookup_insert_Some in Hi as [(-> & -> & _)|[? ?]]; auto. }
  assert (Hs : forall i t, y_thr s !! i = Some t -> exists t', (<[j := mkThread (r :: todo) ph']> (y_thr s)) !! i = Some t' /\
            is_hold (th_phase t') = is_hold (th_phase t) /\ th_todo t' = th_todo t).
  { intros i t Hi. destruct (decide (i = j)) as [->|Hne].
    - rewrite list_lookup_insert_eq by (by eapply lookup_lt_Some). eexists. split; [done|]. by simplify_eq.
    - rewrite list_lookup_insert_ne by done. eauto. }
  split; simpl; try done.
  - intros i t [[-> ->]|[? ?]]%Hl; [done|eauto].
  - intros Hlk. destruct (Hh Hlk) as (i & t & Hi & Hit). destruct (Hs i t Hi) as (t' & ? & ? & _). exists i, t'. by split; [|congruence].
  - intros i i' t t' Hi Hi' Ht1 Ht2.
    assert (Hold : forall i t, (<[j := mkThread (r :: todo) ph']> (y_thr s)) !! i = Some t -> is_hold (th_phase t) = true ->
              exists t0, y_thr s !! i = Some t0 /\ is_hold (th_phase t0) = true).
    { intros k t0 Hk Hk1. apply Hl in Hk as [[-> ->]|[_ Hk]]; [|eauto]. eexists. split; [exact Hj|]. simpl in *. congruence. }
    destruct (Hold _ _ Hi Ht1) as (? & ? & ?), (Hold _ _ Hi' Ht2) as (? & ? & ?). eauto.
  - intros i rs Hi. destruct (Ho i rs Hi) as (t & Ht' & Hlog). destruct (Hs i t Ht') as (t' & ? & _ & Htd). exists t'. by rewrite Htd.
Qed.

(** Steps that change the memory, the lock or the log: thread [j] moves to [t'],
    the others react. *)
Lemma inv_global m0 todo0 s j t t' lw A m' lock' log' :
  inv m0 todo0 s -> y_thr s !! j = Some t ->
  (forall i t0, i <> j -> y_thr s !! i = Some t0 -> thr_ok m' lock' (run_log m0 log') (kill lw A t0)) ->
  thr_ok m' lock' (run_log m0 log') t' ->
  (lock' = 0 -> m' = run_log m0 log') ->
  (forall i t0, i <> j -> y_thr s !! i = Some t0 -> is_hold (th_phase t0) = false) ->
  (lock' <> 0 -> is_hold (th_phase t') = true) ->
  (forall i, log_of i log' ++ (if decide (i = j) then th_todo t' else []) =
             log_of i (y_log s) ++ (if decide (i = j) then th_todo t else [])) ->
  inv m0 todo0 (mkSys m' lock' (<[j := t']> (kill_others lw A j (y_thr s))) log').
Proof.
  intros [Ht Hf Hh H1 Ho] Hj Hoth Hok Hmem Hno Hhold Hlog.
  assert (Hone : forall i t0, (<[j := t']> (kill_others lw A j (y_thr s))) !! i = Some t0 -> is_hold (th_phase t0) = true -> i = j).
  { intros i t0 [(-> & _)|(Hne & t1 & Hi & ->)]%lookup_kill; [done|]. rewrite kill_hold, (Hno i) by done. done. }
  split; simpl; try done.
  - intros i t0 [(-> & -> & _)|(Hne & t1 & Hi & ->)]%lookup_kill; [done|eauto].
  - intros Hlk. exists j, t'. split; [|auto]. rewrite (lookup_kill_some _ _ _ _ _ _ t Hj). by rewrite decide_True.
  - intros i i' t1 t2 Hi Hi' Hh1 Hh2. rewrite (Hone _ _ Hi Hh1), (Hone _ _ Hi' Hh2). done.
  - intros i rs Hi. destruct (Ho i rs Hi) as (t0 & Ht0 & <-). eexists. split; [by apply lookup_kill_some|].
    specialize (Hlog i). destruct (decide (i = j)) as [->|Hne]; [by simplify_eq|].
    rewrite !app_nil_r in Hlog. by rewrite kill_todo, Hlog.
Qed.

(** *** Reading and writing in a transaction *)

Lemma agree_sub (rs rs' : gset Z) m m' : rs ⊆ rs' -> agree rs' m m' -> agree rs m m'.
Proof. unfold agree. set_solver. Qed.

Lemma word_union (ws m : mem) a : word (ws ∪ m) a = match ws !! a with Some v => v | None => word m a end.
Proof. unfold word. rewrite lookup_union. by destruct (ws !! a), (m !! a). Qed.

Lemma phase_ok_Rd m lock c r k a cn rs ws :
  phase_ok m lock c r (PTx cn (Rd a k) rs ws) ->
  phase_ok m lock c r (PTx cn (k (word (ws ∪ m) a)) ({[a]} ∪ rs) ws).
Proof.
  intros [Hl Hp]. split; [done|]. intros m' Hag. rewrite Hp; [|eapply agree_sub; [|exact Hag]; set_solver].
  simpl. do 2 f_equal. rewrite !word_union. destruct (ws !! a); [done|]. apply Hag. set_solver.
Qed.

Lemma phase_ok_Wr m lock c r p a v cn rs ws :
  phase_ok m lock c r (PTx cn (Wr a v p) rs ws) -> phase_ok m lock c r (PTx cn p rs (<[a := v]> ws)).
Proof. intros [Hl Hp]. split; [done|]. intros m' Hag. rewrite Hp by done. simpl. by rewrite insert_union_l. Qed.

(** A commit that writes nothing a transaction has read is invisible to it. *)
Lemma agree_commit (rs : gset Z) (ws m m' : mem) : dom ws ∩ rs = ∅ -> agree rs (ws ∪ m) m' -> agree rs m m'.
Proof.
  intros Hd Hag a Ha. rewrite (Hag a Ha), word_union. destruct (ws !! a) eqn:E; [|done].
  apply elem_of_dom_2 in E. set_solver.
Qed.

Lemma kill_commit m c c' ws t :
  thr_ok m 0 c t -> is_hold (th_phase t) = false -> thr_ok (ws ∪ m) 0 c' (kill false (dom ws) t).
Proof.
  unfold thr_ok. rewrite kill_todo. intros Ht Hh. destruct (th_todo t) as [|r td].
  - unfold kill. by rewrite Ht.
  - unfold kill. destruct (th_phase t) as [|c0|c0|c0 p rs ws0|c0 st|c0 b| |p] eqn:E; rewrite ?E; try done.
    unfold hit. case_bool_decide as Hd; simpl; rewrite ?E; [|done].
    destruct Ht as [_ Hp]. split; [done|]. intros m' Hag. apply Hp. eapply agree_commit; [|exact Hag]. set_solver.
Qed.

(** While the lock is held, or when it is written, no transaction survives. *)
Lemma kill_locked m m' lock lock' c c' lw A t :
  thr_ok m lock c t -> is_hold (th_phase t) = false -> (lock <> 0 \/ lw = true) -> thr_ok m' lock' c' (kill lw A t).
Proof.
  unfold thr_ok. rewrite kill_todo. intros Ht Hh Hor. destruct (th_todo t) as [|r td].
  - unfold kill. by rewrite Ht.
  - unfold kill. destruct (th_phase t) as [|c0|c0|c0 p rs ws0|c0 st|c0 b| |p] eqn:E; rewrite ?E; try done.
    destruct Ht as [-> _], Hor as [?| ->]; [done|]. done.
Qed.

(** ** Every step keeps the invariant *)

Section preservation.
Context (direct : region -> bool) (on_abort : region -> Counters -> Z -> Counters * verdict).
Context (m0 : mem) (todo0 : list (list region)).
Implicit Types (s : sys).

(** The phase of a thread inside a region. *)
Lemma inv_phase s j r todo ph :
  inv m0 todo0 s -> y_thr s !! j = Some (mkThread (r :: todo) ph) ->
  phase_ok (y_mem s) (y_lock s) (run_log m0 (y_log s)) r ph.
Proof. intros Hi Hj. exact (inv_thr _ _ _ Hi _ _ Hj). Qed.

(** Besides the holder no thread holds the lock, and nobody does while it is free. *)
Lemma inv_others s j t :
  inv m0 todo0 s -> y_thr s !! j = Some t -> (y_lock s = 0 \/ is_hold (th_phase t) = true) ->
  forall i t0, i <> j -> y_thr s !! i = Some t0 -> is_hold (th_phase t0) = false.
Proof.
  intros Hi Hj Hor i t0 Hne Ht0. destruct (is_hold (th_phase t0)) eqn:E; [|done]. exfalso. destruct Hor as [H0|Hh].
  - pose proof (inv_thr _ _ _ Hi _ _ Ht0) as Hok. unfold thr_ok in Hok. destruct (th_todo t0); [by rewrite Hok in E|].
    destruct (th_phase t0); try done. by destruct Hok.
  - apply Hne. by eapply (inv_one _ _ _ Hi).
Qed.

Lemma log_done j r todo ph ph' log :
  forall i, log_of i (log ++ [(j, r)]) ++ (if decide (i = j) then th_todo (mkThread todo ph') else []) =
    log_of i log ++ (if decide (i = j) then th_todo (mkThread (r :: todo) ph) else []).
Proof.
  intros i. rewrite log_of_snoc. destruct (decide (j = i)) as [->|Hne].
  - rewrite !decide_True by done. by rewrite <- app_assoc.
  - rewrite !decide_False by congruence. by rewrite !app_nil_r.
Qed.

(** The commit of a transaction. *)
Lemma inv_commit s j c rs ws r todo :
  inv m0 todo0 s -> y_thr s !! j = Some (mkThread (r :: todo) (PTx c Done rs ws)) ->
  exists s', destructor j r todo (Some ws) s = Ok s' /\ inv m0 todo0 s' /\ y_log s' = y_log s ++ [(j, r)].
Proof.
  intros Hi Hj. pose proof (inv_phase _ _ _ _ _ Hi Hj) as [H0 Hp]. unfold destructor. rewrite H0. simpl.
  eexists. split; [reflexivity|]. split; [|done]. pose proof (inv_free _ _ _ Hi H0) as Hm.
  assert (Hc : ws ∪ y_mem s = run_log m0 (y_log s ++ [(j, r)])).
  { rewrite run_log_snoc, <- Hm. symmetry. by apply (Hp (y_mem s)). }
  eapply (inv_global _ _ _ _ _ _ _ _ _ _ _ Hi Hj); try done.
  - intros i t0 Hne Ht0. eapply kill_commit; [rewrite <- H0; by apply (inv_thr _ _ _ Hi i)|].
    eapply (inv_others _ _ _ Hi Hj); eauto.
  - unfold thr_ok. simpl. by destruct todo.
  - eapply (inv_others _ _ _ Hi Hj). by left.
  - apply log_done.
Qed.

(** The release of the lock. *)
Lemma inv_release s j r todo :
  inv m0 todo0 s -> y_thr s !! j = Some (mkThread (r :: todo) (PHold Done)) ->
  exists s', destructor j r todo None s = Ok s' /\ inv m0 todo0 s' /\ y_log s' = y_log s ++ [(j, r)].
Proof.
  intros Hi Hj. pose proof (inv_phase _ _ _ _ _ Hi Hj) as [H1 Hp]. unfold destructor.
  rewrite (proj2 (Z.eqb_neq _ _) H1). simpl. eexists. split; [reflexivity|]. split; [|done].
  assert (Hno : forall i t0, i <> j -> y_thr s !! i = Some t0 -> is_hold (th_phase t0) = false).
  { eapply (inv_others _ _ _ Hi Hj). by right. }
  eapply (inv_global _ _ _ _ _ _ _ _ _ _ _ Hi Hj); try done.
  - intros i t0 Hne Ht0. eapply kill_locked; [by apply (inv_thr _ _ _ Hi i)|by eapply Hno|by right].
  - unfold thr_ok. simpl. by destruct todo.
  - intros _. rewrite run_log_snoc. exact Hp.
  - apply log_done.
Qed.

(** Taking the lock. *)
Lemma inv_acquire s j r todo :
  inv m0 todo0 s -> y_thr s !! j = Some (mkThread (r :: todo) PLock) -> y_lock s = 0 ->
  inv m0 todo0 (mkSys (y_mem s) 1 (<[j := mkThread (r :: todo) (PHold (rg_body r))]> (kill_others true ∅ j (y_thr s))) (y_log s)).
Proof.
  intros Hi Hj H0.
  assert (Hno : forall i t0, i <> j -> y_thr s !! i = Some t0 -> is_hold (th_phase t0) = false).
  { eapply (inv_others _ _ _ Hi Hj). by left. }
  eapply (inv_global _ _ _ _ _ _ _ _ _ _ _ Hi Hj); try done.
  - intros i t0 Hne Ht0. eapply kill_locked; [by apply (inv_thr _ _ _ Hi i)|by eapply Hno|by right].
  - split; [done|]. by rewrite (inv_free _ _ _ Hi H0).
Qed.

(** A write under the lock. *)
Lemma inv_write s j r todo a v p :
  inv m0 todo0 s -> y_thr s !! j = Some (mkThread (r :: todo) (PHold (Wr a v p))) ->
  inv m0 todo0 (mkSys (<[a := v]> (y_mem s)) (y_lock s)
                  (<[j := mkThread (r :: todo) (PHold p)]> (kill_others false {[a]} j (y_thr s))) (y_log s)).
Proof.
  intros Hi Hj. pose proof (inv_phase _ _ _ _ _ Hi Hj) as [H1 Hp].
  assert (Hno : forall i t0, i <> j -> y_thr s !! i = Some t0 -> is_hold (th_phase t0) = false).
  { eapply (inv_others _ _ _ Hi Hj). by right. }
  eapply (inv_global _ _ _ _ _ _ _ _ _ _ _ Hi Hj); try done.
  intros i t0 Hne Ht0. eapply kill_locked; [by apply (inv_thr _ _ _ Hi i)|by eapply Hno|by left].
Qed.

(** A thread that is in a region either moves, without a fault and keeping the
    invariant, or waits for the lock that another thread holds. *)
Lemma thread_step_ok s j r todo ph :
  inv m0 todo0 s -> y_thr s !! j = Some (mkThread (r :: todo) ph) ->
  (exists s', thread_step direct on_abort j s = Ok (Some s') /\ inv m0 todo0 s') \/
  (thread_step direct on_abort j s = Ok None /\ y_lock s <> 0 /\ is_hold ph = false).
Proof.
  intros Hi Hj. pose proof (inv_phase _ _ _ _ _ Hi Hj) as Hok. unfold thread_step. rewrite Hj.
  assert (Hgo : forall ph', is_hold ph' = is_hold ph ->
            phase_ok (y_mem s) (y_lock s) (run_log m0 (y_log s)) r ph' ->
            inv m0 todo0 (set_thr j (mkThread (r :: todo) ph') s)) by (intros; by eapply inv_go).
  destruct ph as [|c|c|c p rs ws|c st|c b| |p].
  - left. eexists. split; [reflexivity|]. apply Hgo; by destruct (direct r).
  - left. eexists. split; [reflexivity|]. by apply Hgo.
  - left. eexists. split; [reflexivity|]. destruct (Z.eqb_spec (y_lock s) 0) as [H0|H0]; apply Hgo; try done.
    split; [done|]. intros m' _. by rewrite map_empty_union.
  - destruct p as [|a k|a v p].
    + destruct (inv_commit _ _ _ _ _ _ _ Hi Hj) as (s' & -> & Hi' & _). left. by exists s'.
    + left. eexists. split; [reflexivity|]. apply Hgo; [done|]. by apply phase_ok_Rd.
    + left. eexists. split; [reflexivity|]. apply Hgo; [done|]. by apply phase_ok_Wr.
  - left. destruct (on_abort r c st) as [c' v]. eexists. split; [reflexivity|].
    apply Hgo; by destruct (v_wait v), (v_break v).
  - destruct (Z.eqb_spec (y_lock s) 0) as [H0|H0]; simpl; [left|by right].
    eexists. split; [reflexivity|]. apply Hgo; by destruct b.
  - destruct (Z.eqb_spec (y_lock s) 0) as [H0|H0]; simpl; [left|by right].
    eexists. split; [reflexivity|]. by apply inv_acquire.
  - left. destruct p as [|a k|a v p].
    + destruct (inv_release _ _ _ _ Hi Hj) as (s' & -> & Hi' & _). by exists s'.
    + eexists. split; [reflexivity|]. by apply Hgo.
    + eexists. split; [reflexivity|]. by apply inv_write.
Qed.

Lemma rtm_step_inv s s' : inv m0 todo0 s -> step direct on_abort s s' -> inv m0 todo0 s'.
Proof.
  intros Hi [j s1 Hst|j stat s1 Hst].
  - destruct (y_thr s !! j) as [[[|r todo] ph]|] eqn:Hj; [by unfold thread_step in Hst; rewrite Hj in Hst| |by unfold thread_step in Hst; rewrite Hj in Hst].
    destruct (thread_step_ok s j r todo ph Hi Hj) as [(s2 & E & Hi')|[E _]]; rewrite E in Hst; by simplify_eq.
  - unfold hw_abort in Hst. destruct (y_thr s !! j) as [[todo ph]|] eqn:Hj; [|done].
    assert (Htd : ph <> POut -> exists r todo', todo = r :: todo').
    { intros Hne. pose proof (inv_thr _ _ _ Hi _ _ Hj) as Hok. unfold thr_ok in Hok. simpl in Hok. destruct todo; [done|eauto]. }
    destruct ph; try done; injection Hst as <-; destruct Htd as (r & todo' & ->); try done; by eapply inv_go.
Qed.

Lemma rtm_start_inv : inv m0 todo0 (start m0 todo0).
Proof.
  assert (Hl : forall j t, ((fun rs => mkThread rs POut) <$> todo0) !! j = Some t -> th_phase t = POut).
  { intros j t Ht. rewrite list_lookup_fmap in Ht. by destruct (todo0 !! j); simplify_eq/=. }
  split; simpl; try done.
  - intros j t Ht. unfold thr_ok. rewrite (Hl _ _ Ht). by destruct (th_todo t).
  - intros i j t t' Hi Hj Hh. by rewrite (Hl _ _ Hi) in Hh.
  - intros j rs Hj. exists (mkThread rs POut). by rewrite list_lookup_fmap, Hj.
Qed.

Lemma rtm_reachable_inv s : reachable direct on_abort m0 todo0 s -> inv m0 todo0 s.
Proof. induction 1; eauto using rtm_start_inv, rtm_step_inv. Qed.

End preservation.

(** C5: RTM regions are atomic.  Whatever the hardware does, the memory that is
    visible while the lock is free is the memory after the finished regions, run
    one after the other in the order they ended; every thread's regions end in
    its program order, each once; and when all threads are done every region has
    been run exactly once. *)
Theorem rtm_regions_atomic direct on_abort m todo s :
  reachable direct on_abort m todo s ->
  (y_lock s = 0 -> y_mem s = run_log m (y_log s)) /\
  (forall j rs, todo !! j = Some rs -> exists t, y_thr s !! j = Some t /\ log_of j (y_log s) ++ th_todo t = rs) /\
  ((forall j t, y_thr s !! j = Some t -> th_todo t = []) ->
     y_mem s = run_log m (y_log s) /\ forall j rs, todo !! j = Some rs -> log_of j (y_log s) = rs).
Proof.
  intros Hr. pose proof (rtm_reachable_inv _ _ _ _ _ Hr) as Hi. split; [apply Hi|]. split; [apply Hi|].
  intros Hdone. split.
  - apply Hi. destruct (Z.eq_dec (y_lock s) 0) as [|Hne]; [done|].
    destruct (inv_held _ _ _ Hi Hne) as (j & t & Hj & Hh). pose proof (inv_thr _ _ _ Hi _ _ Hj) as Hok.
    unfold thr_ok in Hok. rewrite (Hdone _ _ Hj) in Hok. by rewrite Hok in Hh.
  - intros j rs Hj. destruct (inv_order _ _ _ Hi j rs Hj) as (t & Ht & <-). by rewrite (Hdone _ _ Ht), app_nil_r.
Qed.

(** C31: The destructor never ends a transaction that is not there nor releases a
    lock from inside of one: no step of a thread faults.  While the lock is taken
    one thread holds it and no transaction runs, and as long as a region is
    unfinished some thread can move. *)
Theorem rtm_lock_excludes direct on_abort m todo s :
  reachable direct on_abort m todo s ->
  (forall j f, thread_step direct on_abort j s <> Fault f) /\
  (y_lock s <> 0 -> exists j t, y_thr s !! j = Some t /\ is_hold (th_phase t) = true /\
     forall i t', y_thr s !! i = Some t' -> (forall c p rs ws, th_phase t' <> PTx c p rs ws) /\
       (i <> j -> is_hold (th_phase t') = false)) /\
  (forall j t, y_thr s !! j = Some t -> th_todo t <> [] -> exists i s', thread_step direct on_abort i s = Ok (Some s')).
Proof.
  intros Hr. pose proof (rtm_reachable_inv _ _ _ _ _ Hr) as Hi.
  assert (Hin : forall j t, y_thr s !! j = Some t -> is_hold (th_phase t) = true -> exists r td, t = mkThread (r :: td) (th_phase t)).
  { intros j t Hj Hh. pose proof (inv_thr _ _ _ Hi _ _ Hj) as Hok. unfold thr_ok in Hok.
    destruct t as [[|r td] ph]; [simpl in *; by rewrite Hok in Hh|]. eauto. }
  split_and!.
  - intros j f. destruct (y_thr s !! j) as [[[|r td] ph]|] eqn:Hj; [by unfold thread_step; rewrite Hj| |by unfold thread_step; rewrite Hj].
    destruct (thread_step_ok direct on_abort _ _ s j r td ph Hi Hj) as [(s' & -> & _)|[-> _]]; done.
  - intros Hne. destruct (inv_held _ _ _ Hi Hne) as (j & t & Hj & Hh). exists j, t. split_and!; try done.
    intros i t' Ht'. split.
    + intros c p rs ws E. pose proof (inv_thr _ _ _ Hi _ _ Ht') as Hok. unfold thr_ok in Hok. rewrite E in Hok.
      destruct (th_todo t'); [done|]. by destruct Hok.
    + intros Hij. eapply (inv_others _ _ _ _ _ Hi Hj); eauto.
  - intros j [[|r td] ph] Hj Htd; [done|].
    destruct (thread_step_ok direct on_abort _ _ s j r td ph Hi Hj) as [(s' & E & _)|(_ & Hlk & _)]; [eauto|].
    destruct (inv_held _ _ _ Hi Hlk) as (i & t & Hit & Hh). destruct (Hin i t Hit Hh) as (r' & td' & Et). rewrite Et in Hit.
    destruct (thread_step_ok direct on_abort _ _ s i r' td' (th_phase t) Hi Hit) as [(s' & E & _)|(_ & _ & Hf)]; [eauto|congruence].
Qed.

(** ** The retry loops *)

(** How often an abort of one kind occurs. *)
Definition count (P : Z -> bool) (stats : list Z) : Z := Z.of_nat (length (filter (fun x => P x = true) stats)).

(** The kinds of [RTMScope]'s chain. *)
Definition is_zero (x : Z) : bool := x =? 0.
Definition is_conflict (x : Z) : bool := negb (x =? 0) && XABORT_CONFLICT x.
Definition is_capacity (x : Z) : bool := negb (x =? 0) && negb (XABORT_CONFLICT x) && XABORT_CAPACITY x.
Definition is_nested (x : Z) : bool :=
  negb (x =? 0) && negb (XABORT_CONFLICT x) && negb (XABORT_CAPACITY x) && XABORT_NESTED x.

(** One kind of abort has occurred more often than the policy allows. *)
Definition exceeds (read write : Z) (stats : list Z) : Prop :=
  let step := RTMScope_step read write in
  MAXNEST < count is_nested stats \/ MAXZERO < count is_zero stats \/
  MAXCAPACITY ÷ step < count is_capacity stats \/ MAXCONFLICT ÷ step < count is_conflict stats.

Lemma count_cons P x l : count P (x :: l) = (if P x then 1 else 0) + count P l.
Proof. unfold count. rewrite filter_cons. destruct (P x); simpl; [|done]. rewrite Nat2Z.inj_succ. lia. Qed.

Lemma count_nonneg P l : 0 <= count P l.
Proof. unfold count. lia. Qed.

(** The counters are the numbers of aborts of each kind. *)
Lemma RTMScope_count_spec x c :
  let c' := RTMScope_count x c in
  c_zero c' = c_zero c + (if is_zero x then 1 else 0) /\
  c_conflict c' = c_conflict c + (if is_conflict x then 1 else 0) /\
  c_capacity c' = c_capacity c + (if is_capacity x then 1 else 0) /\
  c_nested c' = c_nested c + (if is_nested x then 1 else 0).
Proof.
  unfold RTMScope_count, is_zero, is_conflict, is_capacity, is_nested.
  destruct (x =? 0), (XABORT_CONFLICT x), (XABORT_CAPACITY x), (XABORT_NESTED x); simpl; lia.
Qed.

Lemma abort_loop_cons f c x l :
  (abort_loop f c (x :: l)).2 = let '(c', v) := f c x in if v_break v then true else (abort_loop f c' l).2.
Proof. cbn [abort_loop]. destruct (f c x) as [c' v]. by destruct (v_break v). Qed.

Lemma RTMScope_loop_spec read write stats c :
  let step := RTMScope_step read write in
  c_nested c <= MAXNEST -> c_zero c <= MAXZERO -> c_capacity c <= MAXCAPACITY ÷ step -> c_conflict c <= MAXCONFLICT ÷ step ->
  (abort_loop (RTMScope_abort read write) c stats).2 = true <->
  (MAXNEST < c_nested c + count is_nested stats \/ MAXZERO < c_zero c + count is_zero stats \/
   MAXCAPACITY ÷ step < c_capacity c + count is_capacity stats \/ MAXCONFLICT ÷ step < c_conflict c + count is_conflict stats).
Proof.
  intros step. revert c. induction stats as [|x l IH]; intros c Hn Hz Hca Hco.
  { cbn [abort_loop]. unfold count. cbn [filter list_filter length]. split; [done|]. simpl. lia. }
  rewrite !count_cons, abort_loop_cons. pose proof (RTMScope_count_spec x c) as Hcs. unfold RTMScope_abort at 1.
  cbn [v_break]. fold step.
  destruct (RTMScope_count x c) as [rt co ca ne ex ze]. cbn [c_zero c_conflict c_capacity c_nested] in *.
  destruct Hcs as (-> & -> & -> & ->).
  pose proof (count_nonneg is_nested l). pose proof (count_nonneg is_zero l).
  pose proof (count_nonneg is_capacity l). pose proof (count_nonneg is_conflict l).
  destruct (_ || _ || _ || _) eqn:E.
  - rewrite !orb_true_iff, !Z.ltb_lt in E. split; [intros _; lia|done].
  - rewrite !orb_false_iff, !Z.ltb_ge in E. destruct E as [[[E1 E2] E3] E4].
    rewrite IH by (cbn [c_zero c_conflict c_capacity c_nested]; lia). cbn [c_zero c_conflict c_capacity c_nested].
    rewrite !Z.add_assoc. done.
Qed.

Lemma RTMArenaScope_loop_spec stats c :
  33 <= c_retry c + Z.of_nat (length stats) -> c_retry c <= 32 -> (abort_loop RTMArenaScope_abort c stats).2 = true.
Proof.
  revert c. induction stats as [|x l IH]; intros c Hlen Hc; [simpl in Hlen; lia|].
  rewrite abort_loop_cons. unfold RTMArenaScope_abort at 1. cbn [v_break].
  assert (Hr : c_retry (RTMArenaScope_count x c) = c_retry c + 1).
  { unfold RTMArenaScope_count. by destruct (XABORT_CONFLICT x), (XABORT_CAPACITY x), (XABORT_EXPLICIT x && (XABORT_CODE x =? 240)), (x =? 0). }
  destruct (_ || _ || _ || _) eqn:E; [done|]. rewrite !orb_false_iff, !Z.ltb_ge in E. destruct E as [_ E].
  apply IH; [|done]. rewrite Hr. cbn [length] in Hlen. lia.
Qed.

(** How long the constructors retry.  [RTMScope] takes the lock exactly when
    one kind of abort has occurred more often than its limit (0 nested, 3 with
    status 0, 16 and 128 over the step for capacity and conflict); aborts with
    other statuses are retried for ever.  [RTMArenaScope] takes the lock after at
    most 33 aborts of any kind. *)
Theorem scope_retries read write stats :
  0 <= read -> 0 <= write ->
  ((abort_loop (RTMScope_abort read write) Counters_0 stats).2 = true <-> exceeds read write stats) /\
  ((33 <= length stats)%nat -> (abort_loop RTMArenaScope_abort Counters_0 stats).2 = true).
Proof.
  intros Hr Hw. split; [|intros Hlen; apply RTMArenaScope_loop_spec; [|done]; cbn [c_retry Counters_0]; lia].
  assert (Hst : 0 < RTMScope_step read write).
  { unfold RTMScope_step. pose proof (Z.quot_pos (read + write) 64). destruct (Z.eqb_spec ((read + write) ÷ 64) 0); lia. }
  apply (RTMScope_loop_spec read write stats Counters_0); try done; by apply Z.quot_pos.
Qed.

(** ** Examples *)

(** A schedule: thread numbers, with a status where the hardware aborts. *)
Fixpoint run_schedule (es : list (nat * option Z)) (s : sys) : sys :=
  match es with
  | [] => s
  | (j, None) :: es =>
      run_schedule es (match thread_step (fun r => RTMScope_direct (rg_read r) (rg_write r))
                               (fun r => RTMScope_abort (rg_read r) (rg_write r)) j s with
                       | Ok (Some s) => s
                       | _ => s
                       end)
  | (j, Some stat) :: es => run_schedule es (default s (hw_abort j stat s))
  end.

Lemma rtm_run_schedule_reachable m todo es s :
  reachable (fun r => RTMScope_direct (rg_read r) (rg_write r)) (fun r => RTMScope_abort (rg_read r) (rg_write r)) m todo s ->
  reachable (fun r => RTMScope_direct (rg_read r) (rg_write r)) (fun r => RTMScope_abort (rg_read r) (rg_write r)) m todo (run_schedule es s).
Proof.
  revert s. induction es as [|[j [stat|]] es IH]; intros s Hr; [done|..]; cbn [run_schedule]; apply IH.
  - destruct (hw_abort j stat s) as [s'|] eqn:E; [|done]. simpl. eapply reach_step; [exact Hr|]. by eapply step_abort.
  - destruct (thread_step _ _ j s) as [[s'|]|] eqn:E; try done. eapply reach_step; [exact Hr|]. by eapply step_thread.
Qed.

(** Two threads that increment word 5; the second region of thread 1 is too large
    for a transaction. *)
Definition incr : prog := Rd 5 (fun v => Wr 5 (v + 1) Done).

Definition w_todo : list (list region) := [[mkRegion 1 1 incr]; [mkRegion 1 1 incr; mkRegion 200 1 incr]].

(** Both start, thread 0 commits and so aborts thread 1, which retries; then it
    takes the lock for its second region. *)
Definition w_sched : list (nat * option Z) :=
  (fun j => (j, None)) <$> [0; 1; 0; 1; 0; 1; 0; 1; 0; 1; 0; 1; 1; 1; 1; 1; 1; 1; 1; 1]%nat.

Definition w_run : sys := run_schedule w_sched (start ∅ w_todo).
Definition w_end : sys := run_schedule (replicate 4 (1%nat, None)) w_run.

Lemma w_end_mem : y_mem w_end = {[5 := 3]} /\ y_lock w_run = 1 /\ length (y_log w_end) = 3%nat.
Proof. split_and!; vm_compute; reflexivity. Qed.

Definition w_reachable : sys -> Prop :=
  reachable (fun r => RTMScope_direct (rg_read r) (rg_write r)) (fun r => RTMScope_abort (rg_read r) (rg_write r)) ∅ w_todo.

Lemma rtm_w_run_reachable : w_reachable w_run.
Proof. apply rtm_run_schedule_reachable. constructor. Qed.

Lemma w_end_reachable : w_reachable w_end.
Proof. apply rtm_run_schedule_reachable, rtm_w_run_reachable. Qed.

Lemma w_end_done j t : y_thr w_end !! j = Some t -> th_todo t = [].
Proof. destruct j as [|[|]]; vm_compute; intros E; [by injection E as <-..|done]. Qed.

Lemma rtm_regions_atomic_witness : y_mem w_end = run_log ∅ (y_log w_end) /\ log_of 0 (y_log w_end) = [mkRegion 1 1 incr].
Proof.
  destruct (rtm_regions_atomic _ _ _ _ _ w_end_reachable) as (_ & _ & Hd). destruct (Hd w_end_done) as [Hm Ho].
  exact (conj Hm (Ho 0%nat _ eq_refl)).
Defined.

Lemma rtm_lock_excludes_witness :
  y_lock w_run <> 0 /\ exists j t, y_thr w_run !! j = Some t /\ is_hold (th_phase t) = true.
Proof.
  assert (Hl : y_lock w_run <> 0) by (rewrite (proj1 (proj2 w_end_mem)); done). split; [exact Hl|].
  destruct (rtm_lock_excludes _ _ _ _ _ rtm_w_run_reachable) as (_ & Hh & _).
  destruct (Hh Hl) as (j & t & Hj & Ht & _). exact (ex_intro _ j (ex_intro _ t (conj Hj Ht))).
Defined.

(** Four aborts with status 0 are too many, aborts with status 2 (the retry bit
    alone) never are. *)
Lemma scope_retries_witness :
  exceeds 1 1 [0; 0; 0; 0] /\ forall n, ~ exceeds 1 1 (replicate n 2).
Proof.
  split.
  - apply (proj1 (scope_retries 1 1 [0; 0; 0; 0] ltac:(done) ltac:(done))). vm_compute. reflexivity.
  - intros n Hx. apply (proj1 (scope_retries 1 1 (replicate n 2) ltac:(done) ltac:(done))) in Hx. revert Hx.
    assert (Hn : forall c, c_nested c = 0 -> c_zero c = 0 -> c_capacity c = 0 -> c_conflict c = 0 ->
              (abort_loop (RTMScope_abort 1 1) c (replicate n 2)).2 <> true); [|by apply Hn].
    induction n as [|n IH]; intros c En Ez Ec Ek; cbn [replicate]; [done|]. rewrite abort_loop_cons.
    destruct c; cbn in En, Ez, Ec, Ek; subst. unfold RTMScope_abort at 1. cbn. apply IH; reflexivity.
Defined.
