(* ===== verification/Arena.v ===== *)
(** * Arenas (util/arena, util/rtm_arena)

    Both arenas hand out pieces of blocks they get from [new char[]]; the
    [RTMArena] aligns to cache lines and aborts an RTM region instead of calling
    the allocator inside of it, so that [RTMArenaScope] ([RTM]) gets the block
    before it tries again.  The theorems: pieces never overlap, and the retry
    succeeds. *)

From S2P Require Import Prelude RTM.

(** A range of memory: start and length. *)
Abbreviation range := (Z * Z)%type (only parsing).

Definition disjoint_range (x y : range) : Prop := x.1 + x.2 <= y.1 \/ y.1 + y.2 <= x.1.

Definition inside (x b : range) : Prop := b.1 <= x.1 /\ 0 <= x.2 /\ x.1 + x.2 <= b.1 + b.2.

(** The fields of [Arena]; for each block the length given to [new char[]] is
    kept with its address. *)
Record Arena := mkArena {
  alloc_ptr_ : addr;
  alloc_bytes_remaining_ : Z;
  blocks_ : list range;
  blocks_memory_ : Z
}.

Definition Arena_ctor : Arena := mkArena NULL 0 [] 0.

(** In the definitions [p] is the address that [new char[]] returns if it is
    called. *)
Definition AllocateNewBlock (p block_bytes : Z) (a : Arena) : addr * Arena :=
  (p, mkArena (alloc_ptr_ a) (alloc_bytes_remaining_ a) (blocks_ a ++ [(p, block_bytes)])
        (u64 (blocks_memory_ a + block_bytes))).

(** The destructor gives all blocks back. *)
Definition Arena_dtor (a : Arena) : list addr := fst <$> blocks_ a.

Section arena.
(** The constants that differ: the block size and the alignment. *)
Context (kBlockSize align : Z).

Definition AllocateFallback (p bytes : Z) (a : Arena) : addr * Arena :=
  if kBlockSize ÷ 4 <? bytes then AllocateNewBlock p bytes a
  else
    let '(b, a) := AllocateNewBlock p kBlockSize a in
    let a := mkArena b kBlockSize (blocks_ a) (blocks_memory_ a) in
    let result := alloc_ptr_ a in
    (result, mkArena (u64 (alloc_ptr_ a + bytes)) (u64 (alloc_bytes_remaining_ a - bytes)) (blocks_ a) (blocks_memory_ a)).

Definition Allocate (p bytes : Z) (a : Arena) : addr * Arena :=
  if bytes <=? alloc_bytes_remaining_ a then
    (alloc_ptr_ a,
     mkArena (u64 (alloc_ptr_ a + bytes)) (u64 (alloc_bytes_remaining_ a - bytes)) (blocks_ a) (blocks_memory_ a))
  else AllocateFallback p bytes a.

Definition slop (a : Arena) : Z :=
  let current_mod := Z.land (alloc_ptr_ a) (align - 1) in
  if current_mod =? 0 then 0 else align - current_mod.

(** [aborts] says whether the fallback aborts an RTM region; [None] is the
    abort. *)
Definition AllocateAligned (aborts : bool) (p bytes : Z) (a : Arena) : option (addr * Arena) :=
  let needed := u64 (bytes + slop a) in
  if needed <=? alloc_bytes_remaining_ a then
    Some (u64 (alloc_ptr_ a + slop a),
          mkArena (u64 (alloc_ptr_ a + needed)) (u64 (alloc_bytes_remaining_ a - needed)) (blocks_ a) (blocks_memory_ a))
  else if aborts then None
  else Some (AllocateFallback p bytes a).

(** The parameterless [AllocateFallback], which [RTMArenaScope] calls outside of
    the region, and the addresses it writes a zero to. *)
Definition AllocateFallback_block (p : Z) (a : Arena) : list addr * Arena :=
  let '(b, a) := AllocateNewBlock p kBlockSize a in
  ((fun i => b + 4096 * Z.of_nat i) <$> seq 0 (Z.to_nat ((kBlockSize + 4095) ÷ 4096)),
   mkArena b kBlockSize (blocks_ a) (blocks_memory_ a)).

(** ** Runs *)

Inductive op :=
  | OpAllocate (bytes : Z)
  | OpAligned (xtest : bool) (bytes : Z)
  | OpBlock.

Definition op_bytes (o : op) : Z := match o with OpAllocate n | OpAligned _ n => n | OpBlock => 0 end.

(** Zero bytes are not asked for, nor sizes so large that [needed] wraps. *)
Definition op_ok (o : op) : Prop :=
  match o with OpAllocate n | OpAligned _ n => 0 < n /\ n + align < u64_modulus | OpBlock => True end.

(** The piece that is handed out, if any, and the arena afterwards. *)
Definition do_op (o : op) (p : Z) (a : Arena) : option range * Arena :=
  match o with
  | OpAllocate n => let '(r, a) := Allocate p n a in (Some (r, n), a)
  | OpAligned x n =>
      match AllocateAligned x p n a with
      | Some (r, a) => (Some (r, n), a)
      | None => (None, a)
      end
  | OpBlock => (None, (AllocateFallback_block p a).2)
  end.

(** [new char[n]] returns memory that is not part of a live block, below the end
    of the address space, aligned to 16 bytes. *)
Definition fresh_block (p n : Z) (a : Arena) : Prop :=
  0 < p /\ p + n < u64_modulus /\ p mod 16 = 0 /\ Forall (disjoint_range (p, n)) (blocks_ a).

(** The length of the block that the operation allocates. *)
Definition block_len (bytes : Z) : Z := if kBlockSize ÷ 4 <? bytes then bytes else kBlockSize.

(** The states of an arena with the pieces it has handed out, newest first. *)
Inductive arena_run : Arena -> list range -> Prop :=
  | run_new : arena_run Arena_ctor []
  | run_op a out o p : arena_run a out -> op_ok o ->
      fresh_block p (block_len (op_bytes o)) a ->
      arena_run (do_op o p a).2 (option_list (do_op o p a).1 ++ out).

(** ** Invariant *)

(** The unused rest of the current block and the pieces handed out lie in blocks
    and are pairwise disjoint. *)
Record arena_ok (a : Arena) (out : list range) : Prop := {
  ok_rest : 0 <= alloc_bytes_remaining_ a < u64_modulus;
  ok_in : (alloc_ptr_ a = 0 /\ alloc_bytes_remaining_ a = 0) \/ exists b, b ∈ blocks_ a /\ inside (alloc_ptr_ a, alloc_bytes_remaining_ a) b;
  ok_end : alloc_ptr_ a + alloc_bytes_remaining_ a < u64_modulus;
  ok_out x : x ∈ out -> (exists b, b ∈ blocks_ a /\ inside x b) /\
    (disjoint_range x (alloc_ptr_ a, alloc_bytes_remaining_ a));
  ok_blocks b : b ∈ blocks_ a -> 0 < b.1;
  ok_disjoint : ForallOrdPairs disjoint_range out
}.

Lemma u64_id z : 0 <= z < u64_modulus -> u64 z = z.
Proof. apply Z.mod_small. Qed.

(** A piece is cut from the front of the rest. *)
Lemma bump_ok a out s n :
  arena_ok a out -> 0 <= s -> 0 < n -> s + n <= alloc_bytes_remaining_ a ->
  arena_ok (mkArena (u64 (alloc_ptr_ a + (s + n))) (u64 (alloc_bytes_remaining_ a - (s + n))) (blocks_ a) (blocks_memory_ a))
    ((u64 (alloc_ptr_ a + s), n) :: out) .
Proof.
  intros [Hr Hin He Ho Hb Hd] Hs Hn Hle.
  destruct Hin as [[E1 E2]|(b & Hbin & Hi)]; [lia|]. pose proof (Hb _ Hbin). unfold inside in Hi; cbn in Hi.
  rewrite !u64_id by lia. split; cbn.
  - lia.
  - right. exists b. split; [done|]. unfold inside; cbn; lia.
  - lia.
  - intros x [->|Hx]%elem_of_cons.
    + split; [exists b; split; [done|]; unfold inside; cbn; lia|]. left; cbn; lia.
    + destruct (Ho _ Hx) as [? [Hx1|Hx1]]; (split; [done|]); unfold disjoint_range in *; cbn in *; lia.
  - done.
  - constructor; [|done]. apply Forall_forall. intros x Hx. destruct (Ho _ Hx) as [_ Hx1].
    unfold disjoint_range in *; cbn in *; lia.
Qed.

Lemma inside_disjoint x y b c : inside x b -> inside y c -> disjoint_range b c -> disjoint_range x y.
Proof. unfold inside, disjoint_range. lia. Qed.

Lemma fresh_out p n a out x :
  arena_ok a out -> 0 < n -> fresh_block p n a -> x ∈ out -> disjoint_range (p, n) x.
Proof.
  intros Hok Hn (_ & _ & _ & Hf) Hx. destruct (ok_out _ _ Hok x Hx) as [(b & Hb & Hi) _].
  rewrite Forall_forall in Hf. eapply inside_disjoint; [|exact Hi|by apply Hf]. unfold inside; cbn; lia.
Qed.

(** A block for one large piece. *)
Lemma large_ok a out p n m :
  arena_ok a out -> 0 < n -> fresh_block p n a ->
  arena_ok (mkArena (alloc_ptr_ a) (alloc_bytes_remaining_ a) (blocks_ a ++ [(p, n)]) m) ((p, n) :: out).
Proof.
  intros Hok Hn Hf. pose proof (fun x => fresh_out p n a out x Hok Hn Hf) as Hdis. destruct Hok as [Hr Hin He Ho Hb Hd].
  destruct Hf as (Hp & Hend & _ & Hf). rewrite Forall_forall in Hf. split; cbn.
  - done.
  - destruct Hin as [?|(b & ? & ?)]; [by left|]. right. exists b. split; [set_solver|done].
  - done.
  - intros x [->|Hx]%elem_of_cons.
    + split; [exists (p, n); split; [set_solver|]; unfold inside; cbn; lia|].
      destruct Hin as [[E1 E2]|(b & Hbin & Hi)]; [right; cbn; lia|].
      eapply inside_disjoint; [|exact Hi|by apply Hf]. unfold inside; cbn; lia.
    + destruct (Ho _ Hx) as [(b & ? & ?) ?]. split; [|done]. exists b. split; [set_solver|done].
  - intros b [?| ->%list_elem_of_singleton]%elem_of_app; [auto|done].
  - constructor; [|done]. apply Forall_forall. auto.
Qed.

(** A new current block; the rest of the old one is wasted. *)
Lemma block_ok a out p n m :
  arena_ok a out -> 0 < n < u64_modulus -> fresh_block p n a ->
  arena_ok (mkArena p n (blocks_ a ++ [(p, n)]) m) out.
Proof.
  intros Hok Hn Hf. pose proof (fun x => fresh_out p n a out x Hok (proj1 Hn) Hf) as Hdis. destruct Hok as [Hr Hin He Ho Hb Hd].
  destruct Hf as (Hp & Hend & _ & Hf). split; cbn.
  - lia.
  - right. exists (p, n). split; [set_solver|]. unfold inside; cbn; lia.
  - lia.
  - intros x Hx. split.
    + destruct (Ho _ Hx) as [(b & ? & ?) ?]. exists b. split; [set_solver|done].
    + specialize (Hdis x Hx). unfold disjoint_range in *; cbn in *; lia.
  - intros b [?| ->%list_elem_of_singleton]%elem_of_app; [auto|done].
  - done.
Qed.

Hypothesis Hblock : 64 <= kBlockSize < u64_modulus.
Hypothesis Halign : exists k, 0 <= k <= 6 /\ align = 2 ^ k.

Lemma align_bounds : 0 < align <= 64.
Proof using Halign.
  destruct Halign as (k & Hk & ->). split; [apply Z.pow_pos_nonneg; lia|].
  transitivity (2 ^ 6); [apply Z.pow_le_mono_r; lia|done].
Qed.

Lemma land_align x : 0 <= x -> Z.land x (align - 1) = x mod align.
Proof using Halign.
  destruct Halign as (k & Hk & ->). intros Hx. rewrite <- Z.land_ones by lia. by rewrite Z.ones_equiv, <- Z.sub_1_r.
Qed.

(** The slop brings the pointer to the next multiple of the alignment. *)
Lemma slop_spec a : 0 <= alloc_ptr_ a -> 0 <= slop a < align /\ (alloc_ptr_ a + slop a) mod align = 0.
Proof using Halign.
  intros Hp. pose proof align_bounds. unfold slop. rewrite land_align by done.
  pose proof (Z.mod_pos_bound (alloc_ptr_ a) align). case (Z.eqb_spec (alloc_ptr_ a mod align) 0) as [E|E].
  - rewrite Z.add_0_r. lia.
  - split; [lia|]. rewrite (Z.div_mod (alloc_ptr_ a) align) at 1 by lia.
    replace (_ + _ + _) with ((alloc_ptr_ a / align + 1) * align) by lia. apply Z.mod_mul. lia.
Qed.

Lemma ok_ptr a out : arena_ok a out -> 0 <= alloc_ptr_ a.
Proof.
  intros [Hr [[-> _]|(b & Hb & Hi)] _ _ Hb' _]; [done|]. specialize (Hb' _ Hb). unfold inside in Hi. cbn in Hi. lia.
Qed.

Lemma AllocateFallback_ok a out p n :
  arena_ok a out -> 0 < n < u64_modulus -> fresh_block p (block_len n) a ->
  let '(r, a') := AllocateFallback p n a in r = p /\ arena_ok a' ((r, n) :: out).
Proof using Hblock.
  intros Hok Hn Hf. unfold AllocateFallback, block_len in *. destruct (Z.ltb_spec (kBlockSize ÷ 4) n) as [Hl|Hl].
  - cbn. split; [done|]. apply large_ok; [done|lia|done].
  - cbn. split; [done|]. pose proof (Z.quot_div_nonneg kBlockSize 4).
    assert (kBlockSize / 4 <= kBlockSize) by (apply Z.div_le_upper_bound; lia).
    pose proof (bump_ok _ _ 0 n (block_ok a out p kBlockSize (u64 (blocks_memory_ a + kBlockSize)) Hok ltac:(lia) Hf)) as Hbump.
    cbn in Hbump. rewrite Z.add_0_r, (u64_id p) in Hbump by (destruct Hf as (? & ? & _); lia). apply Hbump; lia.
Qed.

Lemma do_op_ok a out o p :
  arena_ok a out -> op_ok o -> fresh_block p (block_len (op_bytes o)) a ->
  arena_ok (do_op o p a).2 (option_list (do_op o p a).1 ++ out).
Proof using Hblock Halign.
  intros Hok Ho Hf. pose proof align_bounds as Ha. pose proof (ok_rest _ _ Hok) as Hr.
  destruct o as [n|x n|]; cbn [op_ok op_bytes] in *.
  - cbn [do_op]. unfold Allocate. destruct (Z.leb_spec n (alloc_bytes_remaining_ a)) as [Hl|Hl].
    + cbn. pose proof (bump_ok _ _ 0 n Hok) as Hb. rewrite Z.add_0_r, (u64_id (alloc_ptr_ a)) in Hb.
      * apply Hb; lia.
      * pose proof (ok_ptr _ _ Hok). pose proof (ok_end _ _ Hok). lia.
    + pose proof (AllocateFallback_ok _ _ p n Hok ltac:(lia) Hf) as H. by destruct (AllocateFallback p n a) as [r a'], H.
  - pose proof (slop_spec a (ok_ptr _ _ Hok)) as [Hs _]. cbn [do_op]. unfold AllocateAligned. rewrite (u64_id (n + _)) by lia.
    destruct (Z.leb_spec (n + slop a) (alloc_bytes_remaining_ a)) as [Hl|Hl]; [|destruct x; [done|]].
    + cbn. rewrite (Z.add_comm n). apply bump_ok; [done|lia..].
    + pose proof (AllocateFallback_ok _ _ p n Hok ltac:(lia) Hf) as H. by destruct (AllocateFallback p n a) as [r a'], H.
  - cbn. apply block_ok; [done|lia|]. revert Hf. unfold block_len. destruct (Z.ltb_spec (kBlockSize ÷ 4) 0); [|done].
    pose proof (Z.quot_pos kBlockSize 4). lia.
Qed.

Lemma arena_run_ok a out : arena_run a out -> arena_ok a out.
Proof using Hblock Halign.
  induction 1 as [|a out o p _ IH Ho Hf]; [|by apply do_op_ok].
  split; cbn; [done|by left|done|set_solver..|constructor].
Qed.

(** Memory from the fast path is aligned, memory from the fallback as far as that
    of [new char[]] is. *)
Lemma AllocateAligned_aligned a out x p n r a' :
  arena_ok a out -> op_ok (OpAligned x n) -> p mod align = 0 ->
  AllocateAligned x p n a = Some (r, a') -> r mod align = 0.
Proof using Hblock Halign.
  intros Hok [Hn Hn'] Hp. pose proof align_bounds as Ha. pose proof (ok_ptr _ _ Hok) as Hptr. pose proof (ok_end _ _ Hok).
  pose proof (slop_spec a Hptr) as [Hs Hal]. unfold AllocateAligned. rewrite (u64_id (n + _)) by lia.
  destruct (Z.leb_spec (n + slop a) (alloc_bytes_remaining_ a)) as [Hl|Hl]; [|destruct x; [done|]].
  - intros [= <- _]. by rewrite u64_id by lia.
  - unfold AllocateFallback, AllocateNewBlock. intros E. destruct (_ <? _) in E; by injection E as <- _.
Qed.

End arena.

(** ** The two arenas *)

Module ArenaConst.
Definition kBlockSize : Z := 4096.
(** The size of a pointer. *)
Definition align : Z := 8.
End ArenaConst.

Module RTMArenaConst.
Definition kBlockSize : Z := 16 * 4096.
Definition align : Z := 64.
End RTMArenaConst.

Lemma Arena_params : 64 <= ArenaConst.kBlockSize < u64_modulus /\ exists k, 0 <= k <= 6 /\ ArenaConst.align = 2 ^ k.
Proof. split; [done|]. by exists 3. Qed.

Lemma RTMArena_params : 64 <= RTMArenaConst.kBlockSize < u64_modulus /\ exists k, 0 <= k <= 6 /\ RTMArenaConst.align = 2 ^ k.
Proof. split; [done|]. by exists 6. Qed.

(** What a run of either arena has handed out. *)
Definition pieces_ok (a : Arena) (out : list range) : Prop :=
  ForallOrdPairs disjoint_range out /\
  forall x, x ∈ out -> 0 < x.1 /\ (exists b, b ∈ blocks_ a /\ inside x b) /\
    disjoint_range x (alloc_ptr_ a, alloc_bytes_remaining_ a).

Lemma arena_ok_pieces a out : arena_ok a out -> pieces_ok a out.
Proof.
  intros Hok. split; [apply Hok|]. intros x Hx. destruct (ok_out _ _ Hok x Hx) as [(b & Hb & Hi) Hr].
  split_and!; [|eauto|done]. pose proof (ok_blocks _ _ Hok b Hb). unfold inside in Hi. lia.
Qed.

(** C33: Whatever is allocated, in whichever order, the pieces that an arena has
    handed out do not overlap, are not null, lie in blocks of the arena and
    outside of what it still has to give; this holds for [Arena] and for
    [RTMArena], with its aborted regions and the blocks that [RTMArenaScope] adds.
    [Arena] aligns to pointers; [RTMArena] returns cache-line aligned memory when
    the block that it may have to allocate is so aligned. *)
Theorem arena_pieces_disjoint a out :
  (arena_run ArenaConst.kBlockSize ArenaConst.align a out ->
     pieces_ok a out /\
     forall x p n r a', op_ok ArenaConst.align (OpAligned x n) -> fresh_block p (block_len ArenaConst.kBlockSize n) a ->
       AllocateAligned ArenaConst.kBlockSize ArenaConst.align x p n a = Some (r, a') -> r mod 8 = 0) /\
  (arena_run RTMArenaConst.kBlockSize RTMArenaConst.align a out ->
     pieces_ok a out /\
     forall x p n r a', op_ok RTMArenaConst.align (OpAligned x n) -> p mod 64 = 0 ->
       AllocateAligned RTMArenaConst.kBlockSize RTMArenaConst.align x p n a = Some (r, a') -> r mod 64 = 0).
Proof.
  destruct Arena_params as [Hb Ha], RTMArena_params as [Hb' Ha'].
  split; intros Hrun; (apply arena_run_ok in Hrun; [|done..]); (split; [by apply arena_ok_pieces|]); intros x p n r a' Hop Hp Hal.
  - change 8 with ArenaConst.align. eapply (AllocateAligned_aligned _ _ Hb Ha); [done..| |done]. destruct Hp as (_ & _ & Hp & _). unfold ArenaConst.align. clear - Hp.
    Z.to_euclidean_division_equations. lia.
  - by eapply (AllocateAligned_aligned _ _ Hb' Ha').
Qed.

(** The retry of [RTMArenaScope] succeeds.  When [AllocateAligned] aborts the
    region, the scope recognises the status and allocates a block outside of the
    region; all of the pages it touches are in that block, and the same call in
    the next attempt takes its memory from the block without another abort, for
    all sizes that can fit (up to 65536 less the possible slop). *)
Lemma arena_retry_succeeds a out p n :
  arena_run RTMArenaConst.kBlockSize RTMArenaConst.align a out ->
  0 < n <= 65488 -> fresh_block p RTMArenaConst.kBlockSize a ->
  let '(touched, a') := AllocateFallback_block RTMArenaConst.kBlockSize p a in
  RTMArenaScope_allocates (explicit_stat 240) = true /\
  (forall x, x ∈ touched -> p <= x < p + RTMArenaConst.kBlockSize) /\
  exists r a'', AllocateAligned RTMArenaConst.kBlockSize RTMArenaConst.align true 0 n a' = Some (r, a'') /\
    inside (r, n) (p, RTMArenaConst.kBlockSize) /\ r mod 64 = 0.
Proof.
  intros Hrun Hn (Hp & Hend & Hmod & Hf). cbn [AllocateFallback_block AllocateNewBlock].
  destruct RTMArena_params as [Hb Ha].
  set (a' := mkArena p _ _ _). split; [done|]. split.
  { intros x (i & -> & [_ Hi]%elem_of_seq)%list_elem_of_fmap. change (Z.to_nat _) with 16%nat in Hi. cbn in Hi.
    unfold RTMArenaConst.kBlockSize. lia. }
  pose proof (slop_spec _ Ha a' (Z.lt_le_incl _ _ Hp)) as [Hs Hal].
  assert (Hs' : slop RTMArenaConst.align a' <= 48).
  { cbn [alloc_ptr_ a'] in Hal. unfold RTMArenaConst.align in *. clear - Hal Hmod Hs. Z.to_euclidean_division_equations. lia. }
  unfold RTMArenaConst.kBlockSize in *.
  unfold AllocateAligned. rewrite (u64_id (n + _)) by (unfold u64_modulus; lia).
  destruct (Z.leb_spec (n + slop RTMArenaConst.align a') (alloc_bytes_remaining_ a')) as [Hl|Hl]; [|cbn in Hl; lia].
  eexists _, _. split; [done|]. cbn [alloc_ptr_ a']. rewrite u64_id by lia. split; [|done]. unfold inside; cbn; lia.
Qed.

(** ** Examples *)

(** Blocks at 4096 and 69648: the second is only 16-byte aligned, and so is the
    memory that [RTMArena] returns from it. *)
Definition w_arena : Arena :=
  (do_op RTMArenaConst.kBlockSize RTMArenaConst.align (OpAligned false 100) 4096 Arena_ctor).2.

Lemma w_arena_run : arena_run RTMArenaConst.kBlockSize RTMArenaConst.align w_arena [(4096, 100)].
Proof.
  apply (run_op RTMArenaConst.kBlockSize RTMArenaConst.align Arena_ctor [] (OpAligned false 100) 4096); [constructor|done|].
  repeat split; by constructor.
Qed.

Example RTMArena_unaligned :
  exists a, AllocateAligned RTMArenaConst.kBlockSize RTMArenaConst.align false 69648 20000 w_arena = Some (4224, a) /\
    exists a', AllocateAligned RTMArenaConst.kBlockSize RTMArenaConst.align false 69648 60000 a = Some (69648, a') /\ 69648 mod 64 = 16.
Proof. eexists. split; [reflexivity|]. eexists. split; reflexivity. Qed.

Lemma arena_pieces_disjoint_witness : pieces_ok w_arena [(4096, 100)].
Proof. exact (proj1 (proj2 (arena_pieces_disjoint w_arena [(4096, 100)]) w_arena_run)). Defined.

Lemma arena_retry_succeeds_witness :
  RTMArenaScope_allocates (explicit_stat 240) = true /\
  AllocateAligned RTMArenaConst.kBlockSize RTMArenaConst.align true 0 65488 w_arena = None.
Proof.
  split; [|reflexivity].
  refine (proj1 (arena_retry_succeeds w_arena [(4096, 100)] 69648 65488 w_arena_run ltac:(lia) _)).
  repeat split. constructor; [|constructor]. right. vm_compute. discriminate.
Defined.
