(* ===== verification/CCM.v ===== *)
(** * The conflict control module (util/ccm.h)

    A leaf of the Eunomia tree has a [CCM]: 32 spin locks that its slots share, a
    64-bit filter of the keys that may be in the leaf, and counters that switch
    the locks and the filter on and off.  The theorems: the filter answers from
    the last mark of the slot, slots and lock numbers are in range; the examples
    show where the counters do not count what they mean to. *)

From Stdlib Require Import QArith.QArith_base.
From S2P Require Import Prelude Locks.

#[local] Open Scope Z_scope.

(** The macros, on [uint64_t]. *)
Definition ISBIT (bits index : Z) : bool := negb (Z.land (Z.shiftr bits index) 1 =? 0).
Definition SETBIT (bits index : Z) : Z := Z.lor bits (u64 (Z.shiftl 1 index)).
Definition UNSETBIT (bits index : Z) : Z := Z.land bits (u64 (u64 (-1) - u64 (Z.shiftl 1 index))).

Definition SEEDCOUNT : nat := 6.
Definition LEN : nat := 5.
Definition LEAF_THRESHOLD : Z := 12.

Record CCM := mkCCM {
  mark_bits : Z;
  operation : Z;
  skip_lock : bool;
  conflict_count : Z;
  mark_count : Z
}.

(** The constructor writes [skip_lock] only; the rest is what memory held. *)
Definition CCM_ctor (m o c k : Z) : CCM := mkCCM m o false c k.

(** ** Hashing *)

Fixpoint RSHash_loop (n : nat) (str a hash : Z) : Z :=
  match n with
  | O => hash
  | S n => RSHash_loop n (u64 (str + 1)) (u32 (a * 378551)) (u32 (u64 (u32 (hash * a) + str)))
  end.

Definition RSHash (str : Z) (len : nat) : Z := RSHash_loop len str 63689 0.

Fixpoint JSHash_loop (n : nat) (str hash : Z) : Z :=
  match n with
  | O => hash
  | S n =>
      JSHash_loop n (u64 (str + 1))
        (u32 (Z.lxor hash (u64 (u32 (Z.shiftl hash 5) + str + Z.shiftr hash 2))))
  end.

Definition JSHash (str : Z) (len : nat) : Z := JSHash_loop len str 1315423911.

Definition GenerateHashValue_at (str : Z) (len : nat) (hasFunIndex : nat) : Z :=
  match hasFunIndex with
  | 0%nat => s32 (RSHash str len)
  | 1%nat => s32 (JSHash str len)
  | _ => s32 (RSHash str len)
  end.

(** The array [Ret], or [-1] for too many values. *)
Definition GenerateHashValue (key : Z) (len retLen : nat) : Z * list Z :=
  if (SEEDCOUNT <? retLen)%nat then (-1, [])
  else (Z.of_nat retLen, GenerateHashValue_at key len <$> seq 0 retLen).

Definition getIndex (key : Z) : Z :=
  let '(_, Ret) := GenerateHashValue key LEN SEEDCOUNT in
  let temp := fold_left (fun temp r => s32 (temp + r)) Ret 0 in
  Z.rem (Z.rem temp 64 + 64) 64.

(** ** Marks *)

Definition add_mark_bit (index : Z) (c : CCM) : CCM :=
  mkCCM (SETBIT (mark_bits c) index) (operation c) (skip_lock c) (conflict_count c) (mark_count c).

Definition delete_mark_bit (index : Z) (c : CCM) : CCM :=
  mkCCM (UNSETBIT (mark_bits c) index) (operation c) (skip_lock c) (conflict_count c) (mark_count c).

Definition set_mark_count (n : Z) (c : CCM) : CCM :=
  mkCCM (mark_bits c) (operation c) (skip_lock c) (conflict_count c) (u32 n).

Definition set_mark_bits (key slot : Z) (c : CCM) : CCM :=
  let c := if negb (ISBIT key slot) then set_mark_count (mark_count c + 1) c else c in
  add_mark_bit slot c.

Definition unset_mark_bits (key : Z) (c : CCM) : CCM :=
  let slot := getIndex key in
  let c := if ISBIT key slot then set_mark_count (mark_count c - 1) c else c in
  delete_mark_bit slot c.

Definition isfound (key : Z) (c : CCM) : bool := ISBIT (mark_bits c) (getIndex key).

Definition clearMarkCount (c : CCM) : CCM := mkCCM 0 (operation c) (skip_lock c) (conflict_count c) 0.

Definition skipBF (c : CCM) : bool := LEAF_THRESHOLD <=? mark_count c.

(** ** Conflicts *)

Definition clear_conflict (c : CCM) : CCM := mkCCM (mark_bits c) (operation c) (skip_lock c) 0 (mark_count c).

Definition add_conflict_num (add_num : Z) (c : CCM) : CCM :=
  mkCCM (mark_bits c) (operation c) (skip_lock c) (u32 (conflict_count c + add_num)) (mark_count c).

Definition get_conflict_num (c : CCM) : Z := s32 (conflict_count c).

Definition add_operation_num (c : CCM) : CCM :=
  mkCCM (mark_bits c) (u64 (operation c + 1)) (skip_lock c) (conflict_count c) (mark_count c).

Definition getOperation (c : CCM) : Z := operation c.

Definition is_conflict (c : CCM) : bool * CCM :=
  if skip_lock c then (true, c)
  else if 100 <? get_conflict_num c then
    (true, mkCCM (mark_bits c) (operation c) true (conflict_count c) (mark_count c))
  else (false, c).

(** The value of [skip_lock ^ 1] is dropped. *)
Definition set_conflict (c : CCM) : CCM := c.

(** The rate, before it is rounded to a [double]. *)
Definition get_conflict (c : CCM) : Q :=
  if 10 <? operation c then (conflict_count c # Z.to_pos (operation c))%Q else (1 # 2)%Q.

(** ** Locks *)

(** The number of the lock that [read_Lock] and [read_Unlock] (an unsigned
    index), respectively [write_Lock] and [write_Unlock] (an [int]) use. *)
Definition read_index (index : Z) : Z := if 32 <=? index then index mod 32 else index.

Definition write_index (index : Z) : result Z :=
  let i := if 32 <=? index then Z.rem index 32 else index in
  if (0 <=? i) && (i <? 32) then Ok i else Fault OutOfBounds.

(** One access of thread [j] in a lock routine of the module. *)
Definition lock_access (w : SpinLock.word) (index : Z) (j : nat) (locks : list SpinLock.state) : result (list SpinLock.state) :=
  i ← match w with SpinLock.WReadLock => Ok (read_index index) | _ => write_index index end;
  match locks !! Z.to_nat i with
  | Some s => Ok (<[Z.to_nat i := SpinLock.step_of j w s]> locks)
  | None => Fault OutOfBounds
  end.

(** ** Runs *)

Inductive op :=
  | OpMark (key slot : Z)
  | OpUnmark (key : Z)
  | OpClearMarks
  | OpAddConflict (n : Z)
  | OpClearConflict
  | OpOperation
  | OpIsConflict
  | OpSetConflict.

Definition do_op (c : CCM) (o : op) : CCM :=
  match o with
  | OpMark key slot => set_mark_bits key slot c
  | OpUnmark key => unset_mark_bits key c
  | OpClearMarks => clearMarkCount c
  | OpAddConflict n => add_conflict_num n c
  | OpClearConflict => clear_conflict c
  | OpOperation => add_operation_num c
  | OpIsConflict => (is_conflict c).2
  | OpSetConflict => set_conflict c
  end.

Definition run (ops : list op) (c : CCM) : CCM := fold_left do_op ops c.

(** What the filter is to answer for a slot: whether it was marked since it was
    last unmarked or cleared. *)
Definition marked (slot : Z) (b : bool) (o : op) : bool :=
  match o with
  | OpMark _ s => if s =? slot then true else b
  | OpUnmark k => if getIndex k =? slot then false else b
  | OpClearMarks => false
  | _ => b
  end.

Definition slot_ok (o : op) : Prop := match o with OpMark _ s => 0 <= s < 64 | _ => True end.

(** ** Facts about bits and hashes *)

Lemma ISBIT_testbit bits i : 0 <= i -> ISBIT bits i = Z.testbit bits i.
Proof.
  intros Hi. unfold ISBIT. change 1 with (Z.ones 1). rewrite Z.land_ones by done. change (2 ^ 1) with 2.
  rewrite Z.shiftr_div_pow2, <- Z.testbit_spec' by done. by destruct (Z.testbit bits i).
Qed.

Lemma pow2_u64 i : 0 <= i < 64 -> u64 (Z.shiftl 1 i) = 2 ^ i.
Proof.
  intros Hi. rewrite Z.shiftl_1_l. apply Z.mod_small. unfold u64_modulus. split; [apply Z.pow_nonneg; lia|].
  apply Z.pow_lt_mono_r; lia.
Qed.

Lemma SETBIT_testbit bits i j : 0 <= i < 64 -> 0 <= j -> Z.testbit (SETBIT bits i) j = (i =? j) || Z.testbit bits j.
Proof.
  intros Hi Hj. unfold SETBIT. rewrite pow2_u64, Z.lor_spec, Z.pow2_bits_eqb, orb_comm by lia. done.
Qed.

Lemma UNSETBIT_testbit bits i j : 0 <= i < 64 -> 0 <= j < 64 -> Z.testbit (UNSETBIT bits i) j = negb (i =? j) && Z.testbit bits j.
Proof.
  intros Hi Hj. unfold UNSETBIT. rewrite pow2_u64 by done.
  assert (E : u64 (u64 (-1) - 2 ^ i) = Z.land (Z.lnot (2 ^ i)) (Z.ones 64)).
  { rewrite Z.land_ones by done. unfold u64. rewrite Zminus_mod_idemp_l. f_equal. unfold Z.lnot. lia. }
  rewrite E, !Z.land_spec, Z.lnot_spec, Z.pow2_bits_eqb, Z.ones_spec_low by lia. by rewrite andb_true_r, andb_comm.
Qed.

Lemma getIndex_range key : 0 <= getIndex key < 64.
Proof.
  unfold getIndex. destruct (GenerateHashValue key LEN SEEDCOUNT) as [n Ret]. set (temp := fold_left _ _ _).
  pose proof (Z.rem_bound_abs temp 64). rewrite Z.rem_mod_nonneg by lia. apply Z.mod_pos_bound. done.
Qed.

Lemma read_index_range index : 0 <= index -> 0 <= read_index index < 32.
Proof. intros H. unfold read_index. destruct (Z.leb_spec 32 index); [apply Z.mod_pos_bound; done|lia]. Qed.

Lemma write_index_spec index :
  write_index index = if 0 <=? index then Ok (read_index index) else Fault OutOfBounds.
Proof.
  unfold write_index, read_index. destruct (Z.leb_spec 32 index).
  - rewrite Z.rem_mod_nonneg by lia. pose proof (Z.mod_pos_bound index 32 ltac:(done)).
    rewrite (proj2 (Z.leb_le 0 (index mod 32))), (proj2 (Z.ltb_lt (index mod 32) 32)), (proj2 (Z.leb_le 0 index)) by lia. done.
  - rewrite (proj2 (Z.ltb_lt index 32)), andb_true_r by lia. done.
Qed.

Lemma set_mark_count_bits (b : bool) n c : mark_bits (if b then set_mark_count n c else c) = mark_bits c.
Proof. by destruct b. Qed.

Lemma do_op_bit c o slot :
  slot_ok o -> 0 <= slot < 64 -> Z.testbit (mark_bits (do_op c o)) slot = marked slot (Z.testbit (mark_bits c) slot) o.
Proof.
  intros Ho Hs. destruct o as [k s|k| | | | | |]; cbn [do_op marked]; try done.
  - unfold set_mark_bits. cbn [add_mark_bit mark_bits].
    rewrite set_mark_count_bits, SETBIT_testbit by (done || lia). by destruct (s =? slot).
  - unfold unset_mark_bits. cbn [delete_mark_bit mark_bits].
    rewrite set_mark_count_bits, UNSETBIT_testbit by (done || apply getIndex_range). by destruct (getIndex k =? slot).
  - cbn. apply Z.bits_0.
  - unfold is_conflict. destruct (skip_lock c); [done|]. by destruct (100 <? _).
Qed.

Lemma run_bit ops c slot :
  Forall slot_ok ops -> 0 <= slot < 64 ->
  Z.testbit (mark_bits (run ops c)) slot = fold_left (marked slot) ops (Z.testbit (mark_bits c) slot).
Proof.
  unfold run. intros Hops Hs. revert c. induction Hops as [|o ops Ho _ IH]; intros c; [done|]. cbn [fold_left].
  rewrite IH. f_equal. by apply do_op_bit.
Qed.

(** A slot stays marked when it is neither unmarked nor cleared. *)
Lemma fold_marked_true slot ops :
  Forall (fun o => match o with OpUnmark k => getIndex k <> slot | OpClearMarks => False | _ => True end) ops ->
  fold_left (marked slot) ops true = true.
Proof.
  induction 1 as [|o ops Ho _ IH]; [done|]. cbn [fold_left]. destruct o; cbn [marked]; try done.
  - by destruct (_ =? slot).
  - by rewrite (proj2 (Z.eqb_neq _ _) Ho).
Qed.

Lemma fold_marked_after slot ops1 key ops2 b :
  Forall (fun o => match o with OpUnmark k => getIndex k <> slot | OpClearMarks => False | _ => True end) ops2 ->
  fold_left (marked slot) (ops1 ++ OpMark key slot :: ops2) b = true.
Proof.
  intros Hno. rewrite fold_left_app. cbn [fold_left marked]. rewrite Z.eqb_refl. by apply fold_marked_true.
Qed.

Lemma run_found key ops c :
  Forall slot_ok ops -> isfound key (run ops (clearMarkCount c)) = fold_left (marked (getIndex key)) ops false.
Proof.
  intros Hops. unfold isfound. pose proof (getIndex_range key) as Hr. revert Hr. generalize (getIndex key) as slot. intros slot Hr.
  rewrite ISBIT_testbit, run_bit by (done || lia). change (mark_bits (clearMarkCount c)) with 0. by rewrite Z.bits_0.
Qed.

(** The conflict flag is never taken back. *)
Lemma skip_lock_run ops c : skip_lock c = true -> skip_lock (run ops c) = true.
Proof.
  unfold run. revert c. induction ops as [|o ops IH]; intros c Hc; [done|]. cbn [fold_left]. apply IH.
  destruct o; cbn [do_op]; try done.
  - unfold set_mark_bits. by destruct (negb _).
  - unfold unset_mark_bits. by destruct (ISBIT _ _).
  - unfold is_conflict. by rewrite Hc.
Qed.

(** The filter of a leaf.  After any operations on a cleared module [isfound]
    answers whether the slot of the key was marked after it was last unmarked or
    cleared; in particular it has no false negatives for a key that was marked
    in its slot as long as no key of the same slot is unmarked and the marks are
    not cleared.  The slot of every key is below 64. *)
Theorem ccm_filter_exact c ops key :
  Forall slot_ok ops ->
  0 <= getIndex key < 64 /\
  isfound key (run ops (clearMarkCount c)) = fold_left (marked (getIndex key)) ops false /\
  (forall ops1 ops2, ops = ops1 ++ OpMark key (getIndex key) :: ops2 ->
     Forall (fun o => match o with OpUnmark k => getIndex k <> getIndex key | OpClearMarks => False | _ => True end) ops2 ->
     isfound key (run ops (clearMarkCount c)) = true).
Proof.
  intros Hops. split; [apply getIndex_range|]. rewrite (run_found key ops c Hops). split; [reflexivity|].
  intros ops1 ops2 ->. apply fold_marked_after.
Qed.

Definition locks_ok (locks : list SpinLock.state) : Prop := Forall (SpinLock.inv (SpinLock.bad_words 0 0)) locks.

Lemma lock_access_ok w index j locks locks' : locks_ok locks -> lock_access w index j locks = Ok locks' -> locks_ok locks'.
Proof.
  intros Hok. unfold lock_access. destruct (match w with SpinLock.WReadLock => _ | _ => _ end) as [i|]; [|done]. cbn.
  destruct (locks !! Z.to_nat i) as [s|] eqn:Hs; [|done]. intros [= <-].
  apply Forall_insert; [done|]. apply SpinLock.spin_step_inv. by eapply (Forall_lookup_1 _ _ _ _ Hok).
Qed.

(** A sequence of accesses by threads to the locks of a module. *)
Definition lock_run (es : list (SpinLock.word * Z * nat)) (locks : list SpinLock.state) : result (list SpinLock.state) :=
  foldl (fun r '(w, index, j) => locks ← r; lock_access w index j locks) (Ok locks) es.

Lemma lock_run_ok es locks locks' : locks_ok locks -> lock_run es locks = Ok locks' -> locks_ok locks'.
Proof.
  unfold lock_run. revert locks'. induction es as [|[[w index] j] es IH] using rev_ind; intros locks' Hok; [by intros [= <-]|].
  rewrite foldl_snoc. destruct (foldl _ _ es) as [l|] eqn:E; [|done]. cbn. apply lock_access_ok. by apply IH.
Qed.

(** The locks of a leaf.  For every slot that is not negative the lock routines
    use one of the 32 locks, slots that differ by 32 the same one; threads move in
    that lock only, so that no two threads are inside of the same word of it.
    Once [is_conflict] has answered yes it does so for ever: neither
    [clear_conflict] nor [set_conflict] takes the answer back. *)
Lemma ccm_locks n es c ops :
  (forall w index j locks, 0 <= index -> length locks = 32%nat ->
     exists i s, i = Z.to_nat (read_index index) /\ locks !! i = Some s /\
       lock_access w index j locks = Ok (<[i := SpinLock.step_of j w s]> locks)) /\
  (forall locks, lock_run es (replicate 32 (SpinLock.init 0 0 n)) = Ok locks ->
     forall i s w j k, locks !! i = Some s -> j <> k ->
       SpinLock.phases s !! j = Some (SpinLock.In w) -> SpinLock.phases s !! k <> Some (SpinLock.In w)) /\
  ((is_conflict c).1 = true -> (is_conflict (run ops (is_conflict c).2)).1 = true).
Proof.
  split_and!.
  - intros w index j locks Hi Hlen. pose proof (read_index_range index Hi) as Hr.
    destruct (lookup_lt_is_Some_2 locks (Z.to_nat (read_index index)) ltac:(lia)) as [s Hs].
    exists (Z.to_nat (read_index index)), s. split_and!; [done..|].
    unfold lock_access. rewrite write_index_spec, (proj2 (Z.leb_le 0 index)) by done. by destruct w; cbn; rewrite Hs.
  - intros locks Hrun i s w j k Hs. assert (Hok : locks_ok locks).
    { eapply lock_run_ok; [|exact Hrun]. apply Forall_replicate, (SpinLock.spin_reach_inv 0 0 n []). }
    apply (SpinLock.inv_exclusive _ _ _ _ _ (Forall_lookup_1 _ _ _ _ Hok Hs)).
  - intros Hc. assert (Hs : skip_lock (is_conflict c).2 = true).
    { revert Hc. unfold is_conflict. destruct (skip_lock c) eqn:E; [done|]. by destruct (100 <? _). }
    unfold is_conflict at 1. by rewrite (skip_lock_run _ _ Hs).
Qed.

(** ** Examples *)

(** Keys 7 and 22 have the same slot: unmarking one hides the other. *)
Example false_negative :
  isfound 7 (run [OpMark 7 (getIndex 7); OpUnmark 22] (clearMarkCount (CCM_ctor 0 0 0 0))) = false.
Proof. vm_compute. reflexivity. Qed.

(** [set_mark_bits] and [unset_mark_bits] look at a bit of the key instead of the
    mark: marking and unmarking one key does not bring the number of marks back,
    for any key. *)
Lemma mark_count_drifts key c :
  mark_count c = 0 -> let c' := unset_mark_bits key (set_mark_bits key (getIndex key) c) in
  (ISBIT key (getIndex key) = false -> mark_count c' = 1) /\
  (ISBIT key (getIndex key) = true -> mark_count c' = 2 ^ 32 - 1 /\ skipBF c' = true).
Proof.
  intros Hc. cbv zeta. unfold unset_mark_bits, set_mark_bits. generalize (getIndex key) as slot. intros slot.
  split; intros E; rewrite E; cbn [negb]; unfold set_mark_count, add_mark_bit, delete_mark_bit, skipBF; cbn [mark_count]; rewrite Hc; done.
Qed.

Example ccm_filter_exact_witness :
  isfound 7 (run [OpMark 7 (getIndex 7); OpAddConflict 3; OpUnmark 8] (clearMarkCount (CCM_ctor 5 5 5 5))) = true.
Proof.
  refine (proj2 (proj2 (ccm_filter_exact (CCM_ctor 5 5 5 5) [OpMark 7 (getIndex 7); OpAddConflict 3; OpUnmark 8] 7 _))
            [] [OpAddConflict 3; OpUnmark 8] eq_refl _).
  - repeat constructor; vm_compute; discriminate.
  - repeat constructor. vm_compute. discriminate.
Defined.
