(* ===== verification/HashTable.v ===== *)
(** * The hash table (db/hashtable_template.h)

    [HashTable] maps keys to nodes that hold the newest sequence number of the
    key; [DBTransaction] validates against it.  Nodes are only ever put at the
    front of the list of their slot, by compare-and-swap.  The model has one
    step per access to shared memory; the main theorem is that every step is a
    step of an atomic map from keys to nodes, or invisible. *)

From S2P Require Import Prelude.

(** The template parameters: a hash function and a comparator. *)
Class HashKey (K : Type) := {
  hashfunc_ : K -> Z;
  compare_ : K -> K -> Z
}.

Class HashKeyLaws (K : Type) `{HashKey K} : Prop := {
  hash_range k : 0 <= hashfunc_ k < 2 ^ 64;
  compare_eq k k' : compare_ k k' = 0 <-> k = k'
}.

Record Node (K : Type) := mkNode { n_hash : Z; n_next : addr; n_key : K; n_seq : Z }.
Arguments mkNode {K}.
Arguments n_hash {K}.
Arguments n_next {K}.
Arguments n_key {K}.
Arguments n_seq {K}.

Section hashtable.
Context {K : Type} `{HashKey K}.
Abbreviation nodes := (gmap addr (Node K)).

(** The array of heads (a slot that is not in the map is empty) and the nodes. *)
Record table := mkTable { length_ : Z; elems_ : Z; list_ : gmap Z addr; ht_nodes : nodes }.

(** ** Slots *)

(** [hash & (length_ - 1)] *)
Definition slot_of (t : table) (hash : Z) : Z := Z.land hash (length_ t - 1).

Definition head (t : table) (i : Z) : result addr :=
  if (0 <=? i) && (i <? length_ t) then Ok (default NULL (list_ t !! i)) else Fault OutOfBounds.

Definition set_head (i : Z) (p : addr) (t : table) : table :=
  mkTable (length_ t) (elems_ t) (<[i := p]> (list_ t)) (ht_nodes t).

Definition set_node (a : addr) (n : Node K) (t : table) : table :=
  mkTable (length_ t) (elems_ t) (list_ t) (<[a := n]> (ht_nodes t)).

Definition deref (t : table) (p : addr) : result (Node K) :=
  if p =? NULL then Fault NullDeref else from_opt UseOfFreed (ht_nodes t !! p).

(** The loops go on at a node with another hash or key. *)
Definition other (hash : Z) (k : K) (n : Node K) : bool :=
  negb (n_hash n =? hash) || negb (compare_ (n_key n) k =? 0).

(** ** The routines that run inside of RTM regions, or alone *)

Fixpoint find_loop (fuel : nat) (t : table) (hash : Z) (k : K) (ptr : addr) : result addr :=
  match fuel with
  | O => Fault OutOfFuel
  | S fuel =>
      if ptr =? NULL then Ok ptr
      else
        n ← deref t ptr;
        if other hash k n then find_loop fuel t hash k (n_next n) else Ok ptr
  end.

Definition walk_fuel (t : table) : nat := S (size (ht_nodes t)).

Definition GetNode (t : table) (k : K) : result addr :=
  let hash := hashfunc_ k in
  ptr ← head t (slot_of t hash);
  find_loop (walk_fuel t) t hash k ptr.

Fixpoint max_loop (fuel : nat) (t : table) (hash max : Z) (ptr : addr) : result Z :=
  match fuel with
  | O => Fault OutOfFuel
  | S fuel =>
      if ptr =? NULL then Ok max
      else
        n ← deref t ptr;
        max_loop fuel t hash (if n_hash n =? hash then (if max <? n_seq n then n_seq n else max) else max) (n_next n)
  end.

(** [Some m] when it returns true and writes [m] to [*seq_ptr]. *)
Definition GetMaxWithHash (t : table) (hash : Z) : result (option Z) :=
  ptr ← head t (slot_of t hash);
  max ← max_loop (walk_fuel t) t hash 0 ptr;
  Ok (if max =? 0 then None else Some max).

Fixpoint update_loop (fuel : nat) (t : table) (hash seq : Z) (ptr : addr) : result table :=
  match fuel with
  | O => Fault OutOfFuel
  | S fuel =>
      if ptr =? NULL then Ok t
      else
        n ← deref t ptr;
        let t := if n_hash n =? hash then set_node ptr (mkNode (n_hash n) (n_next n) (n_key n) seq) t else t in
        update_loop fuel t hash seq (n_next n)
  end.

Definition UpdateWithHash (t : table) (hash seq : Z) : result table :=
  ptr ← head t (slot_of t hash);
  update_loop (walk_fuel t) t hash seq ptr.

(** [a] is the address that the arena returns for the node; [gh] and [gs] are what
    its memory held. *)
Definition NewNode (a gh gs : Z) (k : K) (t : table) : table := set_node a (mkNode gh NULL k gs) t.

(** The parameter [seq] is not used. *)
Definition InsertInRTM (a gh gs : Z) (k : K) (seq : Z) (t : table) : result (addr * table) :=
  let hash := hashfunc_ k in
  let t := NewNode a gh gs k t in
  h ← head t (slot_of t hash);
  Ok (a, set_head (slot_of t hash) a (set_node a (mkNode hash h k 0) t)).

(** ** Resize *)

(** The lengths tried; the loop ends when the length holds the elements.  At
    [2 ^ 32] the doubling wraps. *)
Fixpoint new_length_loop (fuel : nat) (len elems : Z) : result Z :=
  match fuel with
  | O => Fault OutOfFuel
  | S fuel => if len <? u32 elems then new_length_loop fuel (u32 (len * 2)) elems else Ok len
  end.

Definition initial_length : Z := 16384000.

(** Moving the nodes of one slot: [Head ptr = new_list[...]] is a copy of the head,
    so that the new list keeps its null. *)
Fixpoint move_loop (fuel : nat) (new_list : gmap Z addr) (new_length : Z) (t : table) (h : addr) : result table :=
  match fuel with
  | O => Fault OutOfFuel
  | S fuel =>
      if h =? NULL then Ok t
      else
        n ← deref t h;
        let next := n_next n in
        let hash := u32 (n_hash n) in
        let ptr := default NULL (new_list !! Z.land hash (new_length - 1)) in
        move_loop fuel new_list new_length (set_node h (mkNode (n_hash n) ptr (n_key n) (n_seq n)) t) next
  end.

Fixpoint move_slots (slots : list Z) (fuel : nat) (new_list : gmap Z addr) (new_length : Z) (t : table) : result table :=
  match slots with
  | [] => Ok t
  | i :: slots =>
      h ← head t i;
      t ← move_loop fuel new_list new_length t h;
      move_slots slots fuel new_list new_length t
  end.

Definition Resize (t : table) : result table :=
  new_length ← new_length_loop 33 initial_length (elems_ t);
  t ← move_slots (Z.of_nat <$> seq 0 (Z.to_nat (length_ t))) (walk_fuel t) ∅ new_length t;
  Ok (mkTable new_length (elems_ t) ∅ (ht_nodes t)).

Definition HashTable_ctor : result table := Resize (mkTable 0 0 ∅ ∅).

(** ** Threads *)

Inductive call :=
  | CGetNode (k : K)
  | CGetNodeWithInsert (k : K)
  | CInsert (k : K) (seq : Z)
  | CInsertInRTM (k : K) (seq : Z).

(** Where a thread is.  [PScan] has the new node of [GetNodeWithInsert]; [PDone]
    is about to return. *)
Inductive phase :=
  | Idle
  | PCalled (c : call)
  | PHead (k : K) (tmp : addr)
  | PScan (tmp : option addr) (k : K) (oldv ptr : addr)
  | PFill (k : K) (tmp oldv : addr)
  | PCas (k : K) (tmp oldv : addr)
  | PLoad (k : K) (seq : Z) (tmp : addr)
  | PPush (k : K) (seq : Z) (tmp nxt : addr)
  | PDone (r : addr).

(** What the environment provides for a step: the next call, fresh memory. *)
Record input := mkInput { in_call : call; in_addr : addr; in_gh : Z; in_gs : Z }.

(** One access of a thread to shared memory, with the private work after it. *)
Definition access (e : input) (t : table) (ph : phase) : result (table * phase) :=
  match ph with
  | Idle => Ok (t, PCalled (in_call e))
  | PCalled (CGetNode k) =>
      h ← head t (slot_of t (hashfunc_ k));
      Ok (t, PScan None k h h)
  | PCalled (CGetNodeWithInsert k) => Ok (NewNode (in_addr e) (in_gh e) (in_gs e) k t, PHead k (in_addr e))
  | PCalled (CInsert k seq) =>
      Ok (set_node (in_addr e) (mkNode (hashfunc_ k) NULL k seq) t, PLoad k seq (in_addr e))
  | PCalled (CInsertInRTM k seq) =>
      '(a, t) ← InsertInRTM (in_addr e) (in_gh e) (in_gs e) k seq t;
      Ok (t, PDone a)
  (* GetNodeWithInsert *)
  | PHead k tmp =>
      h ← head t (slot_of t (hashfunc_ k));
      Ok (t, PScan (Some tmp) k h h)
  | PScan tmp k oldv ptr =>
      if ptr =? NULL then
        Ok (t, match tmp with Some tmp => PFill k tmp oldv | None => PDone NULL end)
      else
        n ← deref t ptr;
        Ok (t, if other (hashfunc_ k) k n then PScan tmp k oldv (n_next n) else PDone ptr)
  | PFill k tmp oldv =>
      n ← deref t tmp;
      h ← head t (slot_of t (hashfunc_ k));
      Ok (set_node tmp (mkNode (hashfunc_ k) h (n_key n) 0) t, PCas k tmp oldv)
  | PCas k tmp oldv =>
      h ← head t (slot_of t (hashfunc_ k));
      Ok (if h =? oldv then (set_head (slot_of t (hashfunc_ k)) tmp t, PDone tmp) else (t, PHead k tmp))
  (* Insert *)
  | PLoad k seq tmp =>
      n ← deref t tmp;
      h ← head t (slot_of t (hashfunc_ k));
      Ok (set_node tmp (mkNode (n_hash n) h (n_key n) (n_seq n)) t, PPush k seq tmp h)
  | PPush k seq tmp nxt =>
      h ← head t (slot_of t (hashfunc_ k));
      Ok (if h =? nxt then (set_head (slot_of t (hashfunc_ k)) tmp t, PDone tmp) else (t, PLoad k seq tmp))
  | PDone _ => Ok (t, Idle)
  end.

(** A call without interference. *)
Fixpoint run_alone (fuel : nat) (e : input) (t : table) (ph : phase) : result (addr * table) :=
  match fuel with
  | O => Fault OutOfFuel
  | S fuel =>
      match ph with
      | PDone r => Ok (r, t)
      | _ => '(t, ph) ← access e t ph; run_alone fuel e t ph
      end
  end.

Definition GetNodeWithInsert (a gh gs : Z) (k : K) (t : table) : result (addr * table) :=
  run_alone (walk_fuel t + 8) (mkInput (CGetNodeWithInsert k) a gh gs) t (PCalled (CGetNodeWithInsert k)).

Record sys := mkSys { y_table : table; y_phases : list phase }.

(** A step of a thread; a transaction changes a sequence number. *)
Inductive step (s : sys) : sys -> Prop :=
  | step_thread j ph e t' ph' :
      y_phases s !! j = Some ph -> in_addr e <> NULL -> ht_nodes (y_table s) !! in_addr e = None ->
      access e (y_table s) ph = Ok (t', ph') -> step s (mkSys t' (<[j := ph']> (y_phases s)))
  | step_seq a n v :
      ht_nodes (y_table s) !! a = Some n ->
      step s (mkSys (set_node a (mkNode (n_hash n) (n_next n) (n_key n) v) (y_table s)) (y_phases s)).

Definition start (n : nat) : sys := mkSys (mkTable initial_length 0 ∅ ∅) (replicate n Idle).

Inductive reachable (n : nat) : sys -> Prop :=
  | reach_start : reachable n (start n)
  | reach_step s s' : reachable n s -> step s s' -> reachable n s'.

End hashtable.

Arguments walk_fuel {K} t : simpl never.
