(* ===== verification/HashTableInv.v ===== *)
(** * Linearizability of the hash table

    The specification of [HashTable]: an atomic map from keys to nodes.  The
    invariant of the interleaved runs and the refinement mapping: every step of
    the table is a step of the map or changes nothing that the map shows. *)

From S2P Require Import Prelude HashTable.

(** ** The atomic map *)

(** A call has been made, or has taken effect and is about to return. *)
Inductive status (K : Type) :=
  | SIdle
  | SPending (c : call (K := K))
  | SDone (r : addr).
Arguments SIdle {K}.
Arguments SPending {K} c.
Arguments SDone {K} r.

Section spec.
Context {K : Type} `{EqDecision K}.

Definition fresh_for (m : K -> option addr) (p : addr) : Prop := p <> NULL /\ forall k, m k <> Some p.

(** A call takes effect. *)
Inductive effect (m : K -> option addr) : call -> addr -> (K -> option addr) -> Prop :=
  | eff_get k : effect m (CGetNode k) (default NULL (m k)) m
  | eff_hit k p : m k = Some p -> effect m (CGetNodeWithInsert k) p m
  | eff_new k p : m k = None -> fresh_for m p ->
      effect m (CGetNodeWithInsert k) p (fun k' => if decide (k' = k) then Some p else m k')
  | eff_insert k seq p : fresh_for m p ->
      effect m (CInsert k seq) p (fun k' => if decide (k' = k) then Some p else m k')
  | eff_insert_rtm k seq p : fresh_for m p ->
      effect m (CInsertInRTM k seq) p (fun k' => if decide (k' = k) then Some p else m k').

Inductive spec_step (m : K -> option addr) (sts : list (status K)) : (K -> option addr) -> list (status K) -> Prop :=
  | sp_call j c : sts !! j = Some SIdle -> spec_step m sts m (<[j := SPending c]> sts)
  | sp_effect j c r m' : sts !! j = Some (SPending c) -> effect m c r m' -> spec_step m sts m' (<[j := SDone r]> sts)
  | sp_return j r : sts !! j = Some (SDone r) -> spec_step m sts m (<[j := SIdle]> sts).

End spec.

Section refinement.
Context {K : Type} `{EqDecision K} `{HashKeyLaws K}.
Implicit Types (t : table (K := K)) (ph : phase (K := K)) (ch : Z -> list addr).

(** ** Refinement mapping *)

Definition abs t (k : K) : option addr :=
  match GetNode t k with
  | Ok p => if p =? NULL then None else Some p
  | Fault _ => None
  end.

(** A scan has taken effect when it will find the key, or only looks it up. *)
Definition stat t ph : status K :=
  match ph with
  | Idle => SIdle
  | PCalled c => SPending c
  | PHead k _ | PFill k _ _ | PCas k _ _ => SPending (CGetNodeWithInsert k)
  | PScan tmp k _ ptr =>
      match find_loop (walk_fuel t) t (hashfunc_ k) k ptr with
      | Ok p =>
          if p =? NULL then match tmp with Some _ => SPending (CGetNodeWithInsert k) | None => SDone NULL end
          else SDone p
      | Fault _ => SIdle
      end
  | PLoad k seq _ | PPush k seq _ _ => SPending (CInsert k seq)
  | PDone r => SDone r
  end.

(** ** Chains *)

Definition nxt t (x : addr) : option addr := n_next <$> ht_nodes t !! x.

(** What the loops find in the nodes [xs]. *)
Fixpoint find_in t (hash : Z) (k : K) (xs : list addr) : addr :=
  match xs with
  | [] => NULL
  | x :: xs =>
      match ht_nodes t !! x with
      | Some n => if other hash k n then find_in t hash k xs else x
      | None => NULL
      end
  end.

Lemma find_loop_chain t hash k fuel p xs :
  chain (nxt t) p xs NULL -> (length xs < fuel)%nat -> find_loop fuel t hash k p = Ok (find_in t hash k xs).
Proof.
  revert p fuel. induction xs as [|x xs IH]; intros p [|fuel]; simpl; try lia.
  - by intros ->.
  - intros (-> & Hx & q & Hq & Hc) Hlen. unfold nxt in Hq. apply fmap_Some in Hq as (n & Hn & ->).
    rewrite (proj2 (Z.eqb_neq _ _) Hx). unfold deref. rewrite (proj2 (Z.eqb_neq _ _) Hx), Hn. simpl.
    destruct (other hash k n); [|done]. apply IH; [done|lia].
Qed.

Lemma chain_nodes t p xs x : chain (nxt t) p xs NULL -> x ∈ xs -> exists n, ht_nodes t !! x = Some n.
Proof.
  revert p. induction xs as [|y xs IH]; intros p; simpl; [set_solver|]. intros (-> & _ & q & Hq & Hc) [->|Hx]%elem_of_cons.
  - unfold nxt in Hq. apply fmap_Some in Hq as (n & Hn & _). eauto.
  - by eapply IH.
Qed.

Lemma nodes_chain_length t p xs : chain (nxt t) p xs NULL -> (length xs < walk_fuel t)%nat.
Proof.
  intros Hc. unfold walk_fuel. apply Nat.lt_succ_r.
  assert (E : size (list_to_set xs : gset Z) = length xs) by (apply size_list_to_set; by eapply chain_NoDup).
  rewrite <- E, <- size_dom. apply subseteq_size. intros x Hx%elem_of_list_to_set. destruct (chain_nodes _ _ _ _ Hc Hx) as [n Hn]. by apply elem_of_dom.
Qed.

Lemma find_walk t hash k p xs :
  chain (nxt t) p xs NULL -> find_loop (walk_fuel t) t hash k p = Ok (find_in t hash k xs).
Proof. intros Hc. apply find_loop_chain; [done|by eapply nodes_chain_length]. Qed.

(** All nodes of [xs] are passed over. *)
Definition no_key t (k : K) (xs : list addr) : Prop :=
  forall x, x ∈ xs -> exists n, ht_nodes t !! x = Some n /\ other (hashfunc_ k) k n = true.

Lemma find_in_app t k xs ys :
  no_key t k xs -> find_in t (hashfunc_ k) k (xs ++ ys) = find_in t (hashfunc_ k) k ys.
Proof.
  induction xs as [|x xs IH]; intros Hno; simpl; [done|]. destruct (Hno x) as (n & -> & ->); [set_solver|].
  apply IH. intros y Hy. apply Hno. set_solver.
Qed.

Lemma find_in_null t k p xs :
  chain (nxt t) p xs NULL -> find_in t (hashfunc_ k) k xs = NULL <-> no_key t k xs.
Proof.
  revert p. induction xs as [|x xs IH]; intros p; simpl; [intros _; split; [intros _ y; set_solver|done]|].
  intros (-> & Hx & q & Hq & Hc). unfold nxt in Hq. apply fmap_Some in Hq as (n & Hn & ->). rewrite Hn.
  destruct (other (hashfunc_ k) k n) eqn:E.
  - rewrite (IH _ Hc). split.
    + intros Hno y [->|Hy]%elem_of_cons; eauto.
    + intros Hno y Hy. apply Hno. set_solver.
  - split; [done|]. intros Hno. destruct (Hno x) as (n' & Hn' & E'); [set_solver|]. congruence.
Qed.

(** ** Invariant *)

(** A node that its thread has not published. *)
Definition private t ch (k : K) (a : addr) : Prop :=
  a <> NULL /\ (exists n, ht_nodes t !! a = Some n /\ n_key n = k) /\ forall i, a ∉ ch i.

(** The list of the slot ends with the nodes [xs], which start at [p]. *)
Definition tail_at t ch (i : Z) (p : addr) (xs : list addr) : Prop :=
  chain (nxt t) p xs NULL /\ exists pre, ch i = pre ++ xs.

Definition key_slot t (k : K) : Z := slot_of t (hashfunc_ k).

Definition phase_ok t ch ph : Prop :=
  match ph with
  | PHead k tmp => private t ch k tmp
  | PScan tmp k oldv ptr =>
      (forall a, tmp = Some a -> private t ch k a) /\
      exists xs ys, tail_at t ch (key_slot t k) oldv (xs ++ ys) /\ no_key t k xs /\ tail_at t ch (key_slot t k) ptr ys
  | PFill k tmp oldv => private t ch k tmp /\ exists ys, tail_at t ch (key_slot t k) oldv ys /\ no_key t k ys
  | PCas k tmp oldv =>
      private t ch k tmp /\ (exists n, ht_nodes t !! tmp = Some n /\ n_hash n = hashfunc_ k /\
        exists ys zs, tail_at t ch (key_slot t k) oldv ys /\ no_key t k ys /\ tail_at t ch (key_slot t k) (n_next n) (zs ++ ys))
  | PLoad k _ tmp => private t ch k tmp /\ exists n, ht_nodes t !! tmp = Some n /\ n_hash n = hashfunc_ k
  | PPush k _ tmp nx => private t ch k tmp /\ exists n, ht_nodes t !! tmp = Some n /\ n_hash n = hashfunc_ k /\ n_next n = nx
  | Idle | PCalled _ | PDone _ => True
  end.

Definition tmp_of ph : option addr :=
  match ph with
  | PHead _ a | PFill _ a _ | PCas _ a _ | PLoad _ _ a | PPush _ _ a _ => Some a
  | PScan a _ _ _ => a
  | _ => None
  end.

Record inv_at (s : sys) ch : Prop := {
  inv_len : 0 < length_ (y_table s);
  inv_chain i : chain (nxt (y_table s)) (default NULL (list_ (y_table s) !! i)) (ch i) NULL;
  inv_phase j ph : y_phases s !! j = Some ph -> phase_ok (y_table s) ch ph;
  inv_tmp i j ph ph' a : y_phases s !! i = Some ph -> y_phases s !! j = Some ph' ->
    tmp_of ph = Some a -> tmp_of ph' = Some a -> i = j
}.

Definition inv (s : sys) : Prop := exists ch, inv_at s ch.

Lemma head_ok t k : 0 < length_ t -> head t (key_slot t k) = Ok (default NULL (list_ t !! key_slot t k)).
Proof.
  intros Hl. unfold head, key_slot, slot_of. pose proof (land_range (hashfunc_ k) (length_ t - 1) ltac:(lia)).
  rewrite (proj2 (Z.leb_le 0 _)), (proj2 (Z.ltb_lt _ (length_ t))) by lia. done.
Qed.

Lemma abs_chain t ch k :
  0 < length_ t -> (forall i, chain (nxt t) (default NULL (list_ t !! i)) (ch i) NULL) ->
  abs t k = let p := find_in t (hashfunc_ k) k (ch (key_slot t k)) in if p =? NULL then None else Some p.
Proof.
  intros Hl Hc. unfold abs, GetNode. fold (key_slot t k). rewrite head_ok by done. unfold mbind, result_bind. by rewrite (find_walk _ _ _ _ _ (Hc _)).
Qed.

(** ** What one step may change *)

Definition same_node (n n' : Node K) : Prop := n_hash n' = n_hash n /\ n_next n' = n_next n /\ n_key n' = n_key n.

(** Nodes outside of [A] keep everything but their sequence number; only nodes of
    [A], which were not published, come to the front of lists. *)
Record evolves (A : addr -> Prop) t ch t' ch' : Prop := {
  ev_len : length_ t' = length_ t;
  ev_nodes x n : ht_nodes t !! x = Some n -> ~ A x -> exists n', ht_nodes t' !! x = Some n' /\ same_node n n';
  ev_front i : exists pre, ch' i = pre ++ ch i /\ forall x, x ∈ pre -> A x;
  ev_private i x : A x -> x ∉ ch i
}.

Section evolution.
Context (A : addr -> Prop) (t t' : table (K := K)) (ch ch' : Z -> list addr).
Hypothesis Hev : evolves A t ch t' ch'.

Lemma ev_slot k : key_slot t' k = key_slot t k.
Proof. unfold key_slot, slot_of. by rewrite (ev_len _ _ _ _ _ Hev). Qed.

Lemma ev_sub i pre xs x : ch i = pre ++ xs -> x ∈ xs -> ~ A x.
Proof. intros E Hx Ha. apply (ev_private _ _ _ _ _ Hev i x Ha). rewrite E. set_solver. Qed.

Lemma ev_tail i p xs : tail_at t ch i p xs -> tail_at t' ch' i p xs.
Proof.
  intros [Hc [pre E]]. split.
  - eapply chain_ext; [|exact Hc]. intros x Hx. destruct (chain_nodes _ _ _ _ Hc Hx) as [n Hn].
    destruct (ev_nodes _ _ _ _ _ Hev x n Hn (ev_sub _ _ _ _ E Hx)) as (n' & Hn' & _ & En & _).
    unfold nxt. by rewrite Hn, Hn'; simpl; rewrite En.
  - destruct (ev_front _ _ _ _ _ Hev i) as (pre' & E' & _). exists (pre' ++ pre). by rewrite E', E, app_assoc.
Qed.

Lemma other_same hash k n n' : same_node n n' -> other hash k n' = other hash k n.
Proof. intros (E1 & _ & E3). unfold other. by rewrite E1, E3. Qed.

Lemma ev_find i pre xs hash k :
  ch i = pre ++ xs -> (forall x, x ∈ xs -> exists n, ht_nodes t !! x = Some n) ->
  find_in t' hash k xs = find_in t hash k xs.
Proof.
  revert pre. induction xs as [|x xs IH]; intros pre E Hn; simpl; [done|]. destruct (Hn x) as [n Hx]; [set_solver|].
  destruct (ev_nodes _ _ _ _ _ Hev x n Hx) as (n' & Hx' & Hs); [eapply ev_sub; [exact E|set_solver]|].
  rewrite Hx, Hx', (other_same _ _ _ _ Hs). rewrite (IH (pre ++ [x])); [done|by rewrite <- app_assoc|]. intros y Hy. apply Hn. set_solver.
Qed.

Lemma ev_no_key i pre k xs : ch i = pre ++ xs -> no_key t k xs -> no_key t' k xs.
Proof.
  intros E Hno x Hx. destruct (Hno x Hx) as (n & Hn & Ho).
  destruct (ev_nodes _ _ _ _ _ Hev x n Hn (ev_sub _ _ _ _ E Hx)) as (n' & Hn' & Hs). exists n'. by rewrite (other_same _ _ _ _ Hs).
Qed.

Lemma ev_priv k a : private t ch k a -> ~ A a -> private t' ch' k a.
Proof.
  intros (Hnn & (n & Hn & Hk) & Hout) Ha. split; [done|]. split.
  - destruct (ev_nodes _ _ _ _ _ Hev a n Hn Ha) as (n' & Hn' & _ & _ & Ek). exists n'. by rewrite Ek.
  - intros i. destruct (ev_front _ _ _ _ _ Hev i) as (pre & -> & Hpre). specialize (Hout i). specialize (Hpre a). set_solver.
Qed.

Lemma ev_phase ph : (forall a, tmp_of ph = Some a -> ~ A a) -> phase_ok t ch ph -> phase_ok t' ch' ph.
Proof.
  destruct ph as [|c|k a|a k o p|k a o|k a o|k v a|k v a x|r]; cbn [tmp_of phase_ok]; try done; rewrite ?ev_slot; intros Ha.
  - intros Hp. by apply ev_priv; auto.
  - intros (Hp & xs & ys & Ht & Hno & Hty). split; [intros b Eb; apply ev_priv; auto|].
    exists xs, ys. pose proof Ht as [_ [pre E]]. destruct Hty as [Hc [pre2 E2]]. split_and!; [by apply ev_tail| |].
    + intros x Hx. destruct (Hno x Hx) as (n & Hn & Ho).
      destruct (ev_nodes _ _ _ _ _ Hev x n Hn) as (n' & Hn' & Hs); [eapply ev_sub; [exact E|set_solver]|].
      exists n'. by rewrite (other_same _ _ _ _ Hs).
    + apply ev_tail. by split; [|exists pre2].
  - intros (Hp & ys & Ht & Hno). split; [apply ev_priv; auto|]. exists ys. pose proof Ht as [_ [pre E]].
    split; [by apply ev_tail|by eapply ev_no_key].
  - intros (Hp & n & Hn & Hh & ys & zs & Ht & Hno & Ht2). split; [apply ev_priv; auto|]. pose proof Ht as [_ [pre E]].
    destruct (ev_nodes _ _ _ _ _ Hev a n Hn (Ha a eq_refl)) as (n' & Hn' & E1 & E2 & _). exists n'. rewrite E1, E2.
    split_and!; [done..|]. exists ys, zs. split_and!; [by apply ev_tail|by eapply ev_no_key|by apply ev_tail].
  - intros (Hp & n & Hn & Hh). split; [apply ev_priv; auto|].
    destruct (ev_nodes _ _ _ _ _ Hev a n Hn (Ha a eq_refl)) as (n' & Hn' & E1 & _). exists n'. by rewrite E1.
  - intros (Hp & n & Hn & Hh & Hx). split; [apply ev_priv; auto|].
    destruct (ev_nodes _ _ _ _ _ Hev a n Hn (Ha a eq_refl)) as (n' & Hn' & E1 & E2 & _). exists n'. by rewrite E1, E2.
Qed.

Lemma ev_stat ph : phase_ok t ch ph -> stat t' ph = stat t ph.
Proof.
  destruct ph; try done. cbn [stat phase_ok]. intros (_ & xs & ys & _ & _ & Hty). pose proof (ev_tail _ _ _ Hty) as [Hc' _].
  destruct Hty as [Hc [pre E]]. rewrite (find_walk _ _ _ _ _ Hc), (find_walk _ _ _ _ _ Hc').
  rewrite (ev_find _ _ _ _ _ E); [done|]. intros x Hx. by eapply chain_nodes.
Qed.

End evolution.

Definition stats (s : sys (K := K)) : list (status K) := stat (y_table s) <$> y_phases s.

(** The step changes nothing that the map shows, or is a step of the map. *)
Definition simulates (s s' : sys (K := K)) : Prop :=
  ((forall k, abs (y_table s') k = abs (y_table s) k) /\ stats s' = stats s) \/
  (exists m', spec_step (abs (y_table s)) (stats s) m' (stats s') /\ forall k, abs (y_table s') k = m' k).

Lemma ht_evolves_refl t ch : evolves (fun _ => False) t ch t ch.
Proof.
  split; [done| | |done].
  - intros x n Hn _. by exists n.
  - intros i. exists []. split; [done|]. set_solver.
Qed.

(** The map is the same when no list has changed. *)
Lemma ev_abs A t ch t' :
  0 < length_ t -> (forall i, chain (nxt t) (default NULL (list_ t !! i)) (ch i) NULL) -> list_ t' = list_ t ->
  evolves A t ch t' ch -> forall k, abs t' k = abs t k.
Proof.
  intros Hl Hc El Hev k.
  assert (Hc' : forall i, chain (nxt t') (default NULL (list_ t' !! i)) (ch i) NULL).
  { intros i. rewrite El. by apply (ev_tail _ _ _ _ _ Hev i _ (ch i)); split; [|exists []]. }
  rewrite (abs_chain t ch k Hl Hc), (abs_chain t' ch k) by (rewrite ?(ev_len _ _ _ _ _ Hev); done).
  rewrite (ev_slot _ _ _ _ _ Hev). cbv zeta. rewrite (ev_find _ _ _ _ _ Hev (key_slot t k) [] (ch (key_slot t k))); [done|done|].
  intros x. by apply (chain_nodes _ _ _ _ (Hc _)).
Qed.

(** Thread [j] moves: the invariant and the other threads. *)
Lemma inv_thread s ch j ph A t' ph' ch' :
  inv_at s ch -> y_phases s !! j = Some ph -> evolves A (y_table s) ch t' ch' ->
  (forall a, A a -> tmp_of ph = Some a \/ ht_nodes (y_table s) !! a = None) ->
  (forall a, tmp_of ph' = Some a -> tmp_of ph = Some a \/ ht_nodes (y_table s) !! a = None) ->
  (forall i, chain (nxt t') (default NULL (list_ t' !! i)) (ch' i) NULL) -> phase_ok t' ch' ph' ->
  inv_at (mkSys t' (<[j := ph']> (y_phases s))) ch' /\
  stats (mkSys t' (<[j := ph']> (y_phases s))) = <[j := stat t' ph']> (stats s).
Proof.
  intros Hi Hj Hev HA Htmp Hc Hok.
  assert (Hpriv : forall i q a, y_phases s !! i = Some q -> tmp_of q = Some a -> exists n, ht_nodes (y_table s) !! a = Some n).
  { intros i q a Hq Ha. pose proof (inv_phase _ _ Hi i q Hq) as Hp. unfold private in Hp.
    destruct q; cbn in Ha, Hp; simplify_eq; try (destruct Hp as (_ & (n & Hn & _) & _); by exists n).
    - destruct Hp as [Hp _]. destruct (Hp a eq_refl) as (_ & (n & Hn & _) & _). by exists n.
    - destruct Hp as [(_ & (n & Hn & _) & _) _]. by exists n.
    - destruct Hp as [(_ & (n & Hn & _) & _) _]. by exists n.
    - destruct Hp as [(_ & (n & Hn & _) & _) _]. by exists n.
    - destruct Hp as [(_ & (n & Hn & _) & _) _]. by exists n. }
  assert (Hother : forall i q a, i <> j -> y_phases s !! i = Some q -> tmp_of q = Some a ->
            ~ (tmp_of ph = Some a \/ ht_nodes (y_table s) !! a = None)).
  { intros i q a Hne Hq Ha [Hp|Hn]; [apply Hne; by eapply (inv_tmp _ _ Hi)|].
    destruct (Hpriv _ _ _ Hq Ha) as [n Hn']. congruence. }
  split.
  - split; cbn [y_table y_phases].
    + rewrite (ev_len _ _ _ _ _ Hev). apply Hi.
    + done.
    + intros i q [(-> & -> & _)|[Hne Hq]]%list_lookup_insert_Some; [done|].
      apply (ev_phase _ _ _ _ _ Hev); [|by eapply (inv_phase _ _ Hi)]. intros a Ha Ha'. eapply Hother; eauto.
    + intros i1 i2 q1 q2 a H1' H2' E1 E2.
      apply list_lookup_insert_Some in H1' as [(<- & <- & _)|[N1 H1']]; apply list_lookup_insert_Some in H2' as [(<- & <- & _)|[N2 H2']].
      * done.
      * exfalso. eapply (Hother i2); eauto.
      * exfalso. eapply (Hother i1); eauto.
      * by eapply (inv_tmp _ _ Hi).
  - unfold stats. cbn [y_table y_phases]. apply list_eq. intros i. rewrite list_lookup_fmap.
    destruct (decide (i = j)) as [->|Hne].
    + pose proof (lookup_lt_Some _ _ _ Hj). rewrite !list_lookup_insert_eq by (rewrite ?length_fmap; done). done.
    + rewrite !list_lookup_insert_ne, list_lookup_fmap by done. destruct (y_phases s !! i) as [q|] eqn:Hq; [|done]. simpl. f_equal.
      apply (ev_stat _ _ _ _ _ Hev). by eapply (inv_phase _ _ Hi).
Qed.

(** The move is invisible: no list changes, and the status stays. *)
Lemma invisible s ch j ph A t' ph' :
  inv_at s ch -> y_phases s !! j = Some ph -> evolves A (y_table s) ch t' ch -> list_ t' = list_ (y_table s) ->
  (forall a, A a -> tmp_of ph = Some a \/ ht_nodes (y_table s) !! a = None) ->
  (forall a, tmp_of ph' = Some a -> tmp_of ph = Some a \/ ht_nodes (y_table s) !! a = None) ->
  phase_ok t' ch ph' -> stat t' ph' = stat (y_table s) ph ->
  inv (mkSys t' (<[j := ph']> (y_phases s))) /\ simulates s (mkSys t' (<[j := ph']> (y_phases s))).
Proof.
  intros Hi Hj Hev El HA Htmp Hok Est.
  destruct (inv_thread s ch j ph A t' ph' ch Hi Hj Hev HA Htmp) as [Hi' Hst]; [|done|].
  { intros i. rewrite El. apply (ev_tail _ _ _ _ _ Hev i _ (ch i)). split; [apply Hi|by exists []]. }
  split; [by exists ch|]. left. split.
  - cbn [y_table]. eapply (ev_abs A _ ch); [apply Hi..|done|done].
  - rewrite Hst, Est. apply list_insert_id. unfold stats. by rewrite list_lookup_fmap, Hj.
Qed.

(** The move has an effect on the status only, or on the map. *)
Lemma visible s ch j ph A t' ph' ch' m' :
  inv_at s ch -> y_phases s !! j = Some ph -> evolves A (y_table s) ch t' ch' ->
  (forall a, A a -> tmp_of ph = Some a \/ ht_nodes (y_table s) !! a = None) ->
  (forall a, tmp_of ph' = Some a -> tmp_of ph = Some a \/ ht_nodes (y_table s) !! a = None) ->
  (forall i, chain (nxt t') (default NULL (list_ t' !! i)) (ch' i) NULL) -> phase_ok t' ch' ph' ->
  (forall sts, sts !! j = Some (stat (y_table s) ph) -> spec_step (abs (y_table s)) sts m' (<[j := stat t' ph']> sts)) ->
  (forall k, abs t' k = m' k) ->
  inv (mkSys t' (<[j := ph']> (y_phases s))) /\ simulates s (mkSys t' (<[j := ph']> (y_phases s))).
Proof.
  intros Hi Hj Hev HA Htmp Hc Hok Hsp Hm.
  destruct (inv_thread s ch j ph A t' ph' ch' Hi Hj Hev HA Htmp Hc Hok) as [Hi' Hst].
  split; [by exists ch'|]. right. exists m'. split; [|done]. rewrite Hst. apply Hsp. unfold stats. by rewrite list_lookup_fmap, Hj.
Qed.

(** A private node is written. *)
Lemma evolves_set t ch a n : (forall i, a ∉ ch i) -> evolves (eq a) t ch (set_node a n t) ch.
Proof.
  intros Ha. split; cbn.
  - done.
  - intros x m Hm Hne. exists m. by rewrite lookup_insert_ne.
  - intros i. exists []. split; [done|]. set_solver.
  - by intros i x <-.
Qed.

(** A private node is put at the front of list [i]. *)
Definition push (i : Z) (a : addr) ch : Z -> list addr := fun i' => if decide (i' = i) then a :: ch i else ch i'.

Lemma evolves_push t ch a i : (forall i, a ∉ ch i) -> evolves (eq a) t ch (set_head i a t) (push i a ch).
Proof.
  intros Ha. split; cbn.
  - done.
  - intros x m Hm Hne. by exists m.
  - intros i'. unfold push. destruct (decide (i' = i)) as [->|]; [exists [a]|exists []]; (split; [done|]); set_solver.
  - by intros i' x <-.
Qed.

Lemma chain_push t ch a n i :
  (forall i, chain (nxt t) (default NULL (list_ t !! i)) (ch i) NULL) -> a <> NULL ->
  ht_nodes t !! a = Some n -> n_next n = default NULL (list_ t !! i) ->
  forall i', chain (nxt (set_head i a t)) (default NULL (list_ (set_head i a t) !! i')) (push i a ch i') NULL.
Proof.
  intros Hc Ha Hn En i'. unfold push. cbn [set_head list_]. destruct (decide (i' = i)) as [->|Hne].
  - rewrite lookup_insert_eq. simpl. split_and!; [done..|]. exists (n_next n). unfold nxt. cbn. rewrite Hn. split; [done|].
    rewrite En. apply (Hc i).
  - rewrite lookup_insert_ne by done. apply (Hc i').
Qed.

Lemma find_in_elem t hash k xs : find_in t hash k xs = NULL \/ find_in t hash k xs ∈ xs.
Proof.
  induction xs as [|x xs IH]; simpl; [by left|]. destruct (ht_nodes t !! x) as [n|]; [|by left].
  destruct (other hash k n); [|right; set_solver]. destruct IH; [by left|right; set_solver].
Qed.

Lemma abs_fresh t ch a :
  0 < length_ t -> (forall i, chain (nxt t) (default NULL (list_ t !! i)) (ch i) NULL) -> a <> NULL ->
  (forall i, a ∉ ch i) -> fresh_for (abs t) a.
Proof.
  intros Hl Hc Ha Hout. split; [done|]. intros k. rewrite (abs_chain t ch k Hl Hc). cbv zeta.
  destruct (find_in_elem t (hashfunc_ k) k (ch (key_slot t k))) as [->|Hin]; [done|].
  destruct (_ =? NULL); [done|]. intros [= E]. rewrite E in Hin. by apply (Hout (key_slot t k)).
Qed.

Lemma other_eq k k' n : n_hash n = hashfunc_ k -> n_key n = k -> other (hashfunc_ k') k' n = negb (bool_decide (k' = k)).
Proof.
  intros E1 E2. unfold other. rewrite E1, E2. destruct (decide (k' = k)) as [->|Hne].
  - rewrite Z.eqb_refl, (proj2 (compare_eq k k) eq_refl), bool_decide_true by done. done.
  - rewrite bool_decide_false by done. assert (compare_ k k' <> 0) by (rewrite compare_eq; congruence).
    rewrite (proj2 (Z.eqb_neq _ _) H1), orb_true_r. done.
Qed.

(** The map after a node has been put at the front of its list. *)
Lemma abs_push t ch a n k :
  0 < length_ t -> (forall i, chain (nxt t) (default NULL (list_ t !! i)) (ch i) NULL) -> a <> NULL -> (forall i, a ∉ ch i) ->
  ht_nodes t !! a = Some n -> n_next n = default NULL (list_ t !! key_slot t k) -> n_hash n = hashfunc_ k -> n_key n = k ->
  forall k', abs (set_head (key_slot t k) a t) k' = if decide (k' = k) then Some a else abs t k'.
Proof.
  intros Hl Hc Ha Hout Hn En Eh Ek k'. set (t' := set_head _ _ _).
  assert (Hfind : forall xs, find_in t' (hashfunc_ k') k' xs = find_in t (hashfunc_ k') k' xs) by (induction xs as [|x xs IH]; cbn; by rewrite ?IH).
  rewrite (abs_chain t' (push (key_slot t k) a ch) k' Hl (chain_push t ch a n _ Hc Ha Hn En)), (abs_chain t ch k' Hl Hc).
  change (key_slot t' k') with (key_slot t k'). unfold push. destruct (decide (key_slot t k' = key_slot t k)) as [E|E].
  - rewrite <- E. cbn [find_in]. change (ht_nodes t') with (ht_nodes t). rewrite Hn, (other_eq k k' n Eh Ek).
    destruct (decide (k' = k)) as [->|Hne].
    + rewrite bool_decide_true by done. cbn [negb]. cbv zeta. by rewrite (proj2 (Z.eqb_neq _ _) Ha).
    + rewrite bool_decide_false by done. cbn [negb]. by rewrite Hfind.
  - rewrite decide_False by (intros ->; done). by rewrite Hfind.
Qed.

(** ** Every access of a thread *)

Section step.
Context (s : sys (K := K)) (ch : Z -> list addr) (j : nat) (e : input (K := K)).
Hypotheses (Hi : inv_at s ch) (Hnull : in_addr e <> NULL) (Hfresh : ht_nodes (y_table s) !! in_addr e = None).
Let t := y_table s.

(** Thread [j], in phase [ph], moves without a fault, as the map allows. *)
Definition moves ph : Prop :=
  exists t' ph', access e t ph = Ok (t', ph') /\
    inv (mkSys t' (<[j := ph']> (y_phases s))) /\ simulates s (mkSys t' (<[j := ph']> (y_phases s))).

Lemma fresh_not_listed i : in_addr e ∉ ch i.
Proof. intros Hin. destruct (chain_nodes _ _ _ _ (inv_chain _ _ Hi i) Hin) as [n Hn]. congruence. Qed.

Lemma list_tail k : tail_at t ch (key_slot t k) (default NULL (list_ t !! key_slot t k)) (ch (key_slot t k)).
Proof. split; [apply Hi|by exists []]. Qed.

Lemma abs_list k :
  abs t k = let p := find_in t (hashfunc_ k) k (ch (key_slot t k)) in if p =? NULL then None else Some p.
Proof. apply abs_chain; apply Hi. Qed.

Lemma head_list k : head t (slot_of t (hashfunc_ k)) = Ok (default NULL (list_ t !! key_slot t k)).
Proof. apply head_ok, Hi. Qed.

(** The status of a scan from the head of the list. *)
Lemma stat_scan tmp k :
  stat t (PScan tmp k (default NULL (list_ t !! key_slot t k)) (default NULL (list_ t !! key_slot t k))) =
  match abs t k with
  | Some p => SDone p
  | None => match tmp with Some _ => SPending (CGetNodeWithInsert k) | None => SDone NULL end
  end.
Proof.
  cbn [stat]. rewrite (find_walk _ _ _ _ _ (inv_chain _ _ Hi (key_slot t k))), abs_list. cbv zeta.
  by destruct (_ =? NULL).
Qed.

Lemma scan_start_ok tmp k :
  (forall a, tmp = Some a -> private t ch k a) ->
  phase_ok t ch (PScan tmp k (default NULL (list_ t !! key_slot t k)) (default NULL (list_ t !! key_slot t k))).
Proof.
  intros Hp. split; [done|]. exists [], (ch (key_slot t k)). split_and!; [apply list_tail| |apply list_tail].
  intros x. set_solver.
Qed.

Lemma move_getnode k : y_phases s !! j = Some (PCalled (CGetNode k)) -> moves (PCalled (CGetNode k)).
Proof.
  intros Hj. unfold moves. cbn [access]. rewrite head_list. cbn. eexists _, _. split; [done|].
  eapply (visible s ch j _ _ t _ ch (abs t)); [done..|apply ht_evolves_refl|done|done|apply Hi|by apply scan_start_ok| |done].
  intros sts Hs. fold t. rewrite stat_scan.
  assert (E : match abs t k with Some p => SDone p | None => SDone NULL end = SDone (K := K) (default NULL (abs t k))) by by destruct (abs t k).
  rewrite E. eapply sp_effect; [exact Hs|]. apply eff_get.
Qed.

Lemma move_head k tmp : y_phases s !! j = Some (PHead k tmp) -> moves (PHead k tmp).
Proof.
  intros Hj. pose proof (inv_phase _ _ Hi _ _ Hj) as Hp. unfold moves. cbn [access]. rewrite head_list. cbn. eexists _, _. split; [done|].
  assert (Hok : phase_ok t ch (PScan (Some tmp) k (default NULL (list_ t !! key_slot t k)) (default NULL (list_ t !! key_slot t k))))
    by (apply scan_start_ok; by intros a [= <-]).
  pose proof (stat_scan (Some tmp) k) as Est. destruct (abs t k) as [p|] eqn:Ek.
  - eapply (visible s ch j _ _ t _ ch (abs t)); [done..|apply ht_evolves_refl|done| |apply Hi|done| |done].
    + intros a [= <-]. by left.
    + intros sts Hs. rewrite Est. eapply sp_effect; [exact Hs|]. by apply eff_hit.
  - eapply (invisible s ch j _ _ t); [done..|apply ht_evolves_refl|done|done| |done|by rewrite Est].
    intros a [= <-]. by left.
Qed.

Lemma move_scan tmp k oldv ptr : y_phases s !! j = Some (PScan tmp k oldv ptr) -> moves (PScan tmp k oldv ptr).
Proof.
  intros Hj. pose proof (inv_phase _ _ Hi _ _ Hj) as (Hp & xs & ys & Ht & Hno & Hty). fold t in Hp, Ht, Hno, Hty.
  pose proof Hty as [Hc _]. unfold moves. cbn [access]. destruct (Z.eqb_spec ptr NULL) as [->|Hne].
  - apply chain_null_nil in Hc as ->. rewrite app_nil_r in Ht. eexists _, _. split; [done|].
    eapply (invisible s ch j _ _ t); [done..|apply ht_evolves_refl|done|done| | |].
    + intros a. destruct tmp; [|done]. intros [= <-]. by left.
    + destruct tmp as [a|]; [|done]. cbn. split; [auto|]. by exists xs.
    + fold t. cbn [stat]. rewrite (find_walk _ _ _ NULL []) by done. by destruct tmp.
  - destruct (chain_head _ _ _ Hc Hne) as [ys' ->]. pose proof Hc as (_ & _ & q & Hq & Hc'). unfold nxt in Hq.
    apply fmap_Some in Hq as (n & Hn & ->). unfold deref. rewrite (proj2 (Z.eqb_neq _ _) Hne). unfold t at 1. fold t. rewrite Hn.
    cbn [from_opt mbind result_bind]. eexists _, _. split; [done|].
    eapply (invisible s ch j _ _ t); [done..|apply ht_evolves_refl|done|done| | |].
    + intros a. destruct (other _ _ _); [|done]. cbn. intros ->. by left.
    + destruct (other (hashfunc_ k) k n) eqn:Eo; [|done]. cbn [phase_ok]. split; [done|]. exists (xs ++ [ptr]), ys'.
      rewrite <- app_assoc. split_and!; [done| |].
      * intros x [Hx| ->%list_elem_of_singleton]%elem_of_app; eauto.
      * split; [done|]. destruct Hty as [_ [pre E]]. exists (pre ++ [ptr]). by rewrite <- app_assoc.
    + fold t. cbn [stat]. rewrite (find_walk _ _ _ _ _ Hc). cbn [find_in]. rewrite Hn.
      destruct (other (hashfunc_ k) k n); cbn [stat]; [by rewrite (find_walk _ _ _ _ _ Hc')|].
      by rewrite (proj2 (Z.eqb_neq _ _) Hne).
Qed.

(** A new private node. *)
Lemma move_alloc ph ph' n k :
  y_phases s !! j = Some ph -> access e t ph = Ok (set_node (in_addr e) n t, ph') -> n_key n = k ->
  tmp_of ph' = Some (in_addr e) -> stat (set_node (in_addr e) n t) ph' = stat t ph ->
  (private (set_node (in_addr e) n t) ch k (in_addr e) -> ht_nodes (set_node (in_addr e) n t) !! in_addr e = Some n ->
     phase_ok (set_node (in_addr e) n t) ch ph') -> moves ph.
Proof.
  intros Hj Ha Ek Etmp Est Hok. unfold moves. eexists _, _. split; [exact Ha|].
  assert (Hn : ht_nodes (set_node (in_addr e) n t) !! in_addr e = Some n) by apply lookup_insert_eq.
  eapply (invisible s ch j ph); [done..|apply evolves_set, fresh_not_listed|done| | | |done].
  - intros a <-. by right.
  - rewrite Etmp. intros a [= <-]. by right.
  - apply Hok; [|done]. split; [done|]. split; [by exists n|]. apply fresh_not_listed.
Qed.

(** A private node is written before it is published. *)
Lemma move_write ph ph' tmp n k :
  y_phases s !! j = Some ph -> tmp_of ph = Some tmp -> private t ch k tmp -> access e t ph = Ok (set_node tmp n t, ph') ->
  n_key n = k -> tmp_of ph' = Some tmp -> stat (set_node tmp n t) ph' = stat t ph ->
  (private (set_node tmp n t) ch k tmp -> ht_nodes (set_node tmp n t) !! tmp = Some n ->
     evolves (eq tmp) t ch (set_node tmp n t) ch -> phase_ok (set_node tmp n t) ch ph') -> moves ph.
Proof.
  intros Hj Et (Hnn & _ & Hout) Ha Ek Etmp Est Hok. unfold moves. eexists _, _. split; [exact Ha|].
  assert (Hn : ht_nodes (set_node tmp n t) !! tmp = Some n) by apply lookup_insert_eq.
  eapply (invisible s ch j ph); [done..|by apply evolves_set|done| | | |done].
  - intros a <-. by left.
  - rewrite Etmp. intros a [= <-]. by left.
  - apply Hok; [|done|by apply evolves_set]. split; [done|]. split; [by exists n|done].
Qed.

(** A private node whose link is the head of the list is published. *)
Lemma move_push ph tmp n k c :
  y_phases s !! j = Some ph -> tmp_of ph = Some tmp -> private t ch k tmp -> ht_nodes t !! tmp = Some n ->
  n_hash n = hashfunc_ k -> n_next n = default NULL (list_ t !! key_slot t k) ->
  access e t ph = Ok (set_head (slot_of t (hashfunc_ k)) tmp t, PDone tmp) -> stat t ph = SPending c ->
  (fresh_for (abs t) tmp -> effect (abs t) c tmp (fun k' => if decide (k' = k) then Some tmp else abs t k')) -> moves ph.
Proof.
  intros Hj Et (Hnn & (n0 & Hn0 & Ek) & Hout) Hn Eh En Ha Est Heff. assert (n0 = n) as -> by congruence. unfold moves. eexists _, _. split; [exact Ha|].
  eapply (visible s ch j ph); [done..|by apply evolves_push| |done| |done| |].
  - intros a <-. by left.
  - apply (chain_push t ch tmp n); [apply Hi|done..].
  - intros sts Hs. fold t in Hs. rewrite Est in Hs. eapply sp_effect; [exact Hs|]. apply Heff, (abs_fresh t ch); [apply Hi|apply Hi|done..].
  - apply (abs_push t ch tmp n); [apply Hi|apply Hi|done..].
Qed.

(** Two lists that end in the list at the head of the slot: nothing was put in
    front of it. *)
Lemma tail_head k h xs ys :
  tail_at t ch (key_slot t k) (default NULL (list_ t !! key_slot t k)) xs ->
  tail_at t ch (key_slot t k) h (ys ++ xs) -> ch (key_slot t k) = xs /\ h = default NULL (list_ t !! key_slot t k).
Proof.
  intros [Hc _] [Hc' [pre E]]. pose proof (chain_det _ _ _ _ Hc (inv_chain _ _ Hi (key_slot t k))) as Exs.
  rewrite <- Exs in E. pose proof (f_equal length E) as El. rewrite !length_app in El.
  assert (ys = []) as -> by (apply length_zero_iff_nil; lia). split; [done|]. cbn [app] in Hc'.
  destruct xs as [|x xs]; cbn in Hc, Hc'; [congruence|]. destruct Hc as [-> _], Hc' as [-> _]. done.
Qed.

Lemma move_fill k tmp oldv : y_phases s !! j = Some (PFill k tmp oldv) -> moves (PFill k tmp oldv).
Proof.
  intros Hj. pose proof (inv_phase _ _ Hi _ _ Hj) as [Hp (ys & Ht & Hno)]. fold t in Hp, Ht, Hno.
  pose proof Hp as (Hnn & (n & Hn & Ek) & _).
  eapply (move_write _ (PCas k tmp oldv) tmp (mkNode (hashfunc_ k) (default NULL (list_ t !! key_slot t k)) k 0) k Hj eq_refl Hp); try done.
  - cbn [access]. unfold deref. rewrite (proj2 (Z.eqb_neq _ _) Hnn), Hn. unfold from_opt, mbind, result_bind.
    rewrite head_list. by rewrite Ek.
  - intros Hp' Hn' Hev. split; [done|]. eexists. split; [exact Hn'|]. split; [done|]. cbn [n_next].
    pose proof Ht as [_ [pre E]]. exists ys, pre. rewrite (ev_slot _ _ _ _ _ Hev). split_and!.
    + by apply (ev_tail _ _ _ _ _ Hev).
    + by eapply (ev_no_key _ _ _ _ _ Hev).
    + rewrite <- E. apply (ev_tail _ _ _ _ _ Hev), list_tail.
Qed.

Lemma move_cas k tmp oldv : y_phases s !! j = Some (PCas k tmp oldv) -> moves (PCas k tmp oldv).
Proof.
  intros Hj. pose proof (inv_phase _ _ Hi _ _ Hj) as [Hp (n & Hn & Eh & ys & zs & Ht & Hno & Ht2)]. fold t in Hp, Hn, Ht, Hno, Ht2.
  assert (Ha := head_list k). destruct (Z.eqb_spec (default NULL (list_ t !! key_slot t k)) oldv) as [E|E].
  - rewrite <- E in Ht. destruct (tail_head k _ _ _ Ht Ht2) as [Ech En].
    eapply (move_push _ tmp n k (CGetNodeWithInsert k)); try done.
    + cbn [access]. rewrite Ha. unfold mbind, result_bind. by rewrite (proj2 (Z.eqb_eq _ _) E).
    + intros Hf. apply eff_new; [|done]. rewrite abs_list, Ech. cbv zeta. destruct Ht as [Hc _].
      by rewrite (proj2 (find_in_null _ _ _ _ Hc) Hno).
  - unfold moves. cbn [access]. rewrite Ha. unfold mbind, result_bind. rewrite (proj2 (Z.eqb_neq _ _) E).
    eexists _, _. split; [done|]. eapply (invisible s ch j _ _ t); [done..|apply ht_evolves_refl|done|done| |done|done].
    intros a [= <-]. by left.
Qed.

Lemma move_load k seq tmp : y_phases s !! j = Some (PLoad k seq tmp) -> moves (PLoad k seq tmp).
Proof.
  intros Hj. pose proof (inv_phase _ _ Hi _ _ Hj) as [Hp (n & Hn & Eh)]. fold t in Hp, Hn.
  pose proof Hp as (Hnn & (n0 & Hn' & Ek) & _). assert (n0 = n) as -> by congruence.
  eapply (move_write _ (PPush k seq tmp (default NULL (list_ t !! key_slot t k))) tmp
            (mkNode (n_hash n) (default NULL (list_ t !! key_slot t k)) k (n_seq n)) k Hj eq_refl Hp); try done.
  - cbn [access]. unfold deref. rewrite (proj2 (Z.eqb_neq _ _) Hnn), Hn. unfold from_opt, mbind, result_bind. by rewrite head_list, Ek.
  - intros Hp' Hm _. split; [done|]. eexists. split; [exact Hm|]. done.
Qed.

Lemma move_pushing k seq tmp nx : y_phases s !! j = Some (PPush k seq tmp nx) -> moves (PPush k seq tmp nx).
Proof.
  intros Hj. pose proof (inv_phase _ _ Hi _ _ Hj) as [Hp (n & Hn & Eh & Enx)]. fold t in Hp, Hn.
  assert (Ha := head_list k). destruct (Z.eqb_spec (default NULL (list_ t !! key_slot t k)) nx) as [E|E].
  - eapply (move_push _ tmp n k (CInsert k seq)); try done.
    + congruence.
    + cbn [access]. rewrite Ha. unfold mbind, result_bind. by rewrite (proj2 (Z.eqb_eq _ _) E).
    + intros Hf. by apply eff_insert.
  - unfold moves. cbn [access]. rewrite Ha. unfold mbind, result_bind. rewrite (proj2 (Z.eqb_neq _ _) E).
    eexists _, _. split; [done|]. eapply (invisible s ch j _ _ t); [done..|apply ht_evolves_refl|done|done| | |done].
    + intros a [= <-]. by left.
    + split; [done|]. by exists n.
Qed.

Lemma evolves_insert_rtm k h :
  let n := mkNode (hashfunc_ k) h k 0 in
  evolves (eq (in_addr e)) t ch (set_head (key_slot t k) (in_addr e) (set_node (in_addr e) n t)) (push (key_slot t k) (in_addr e) ch).
Proof.
  intros n. split; cbn.
  - done.
  - intros x m Hm Hne. exists m. by rewrite lookup_insert_ne.
  - intros i'. unfold push. destruct (decide (i' = key_slot t k)) as [->|]; [exists [in_addr e]|exists []]; (split; [done|]); set_solver.
  - intros i' x <-. apply fresh_not_listed.
Qed.

Lemma move_rtm k seq : y_phases s !! j = Some (PCalled (CInsertInRTM k seq)) -> moves (PCalled (CInsertInRTM k seq)).
Proof.
  intros Hj. set (n := mkNode (hashfunc_ k) (default NULL (list_ t !! key_slot t k)) k 0).
  set (t1 := set_node (in_addr e) n t).
  assert (Hc1 : forall i, chain (nxt t1) (default NULL (list_ t1 !! i)) (ch i) NULL).
  { intros i. apply (ev_tail _ _ _ _ _ (evolves_set t ch (in_addr e) n fresh_not_listed) i _ (ch i)). split; [apply Hi|by exists []]. }
  assert (Hn : ht_nodes t1 !! in_addr e = Some n) by apply lookup_insert_eq.
  unfold moves. exists (set_head (key_slot t k) (in_addr e) t1), (PDone (in_addr e)). split.
  { cbn [access]. unfold InsertInRTM, NewNode. change (slot_of (set_node _ _ t) (hashfunc_ k)) with (slot_of t (hashfunc_ k)).
    change (head (set_node _ _ t)) with (head t). rewrite head_list. unfold mbind, result_bind, set_node. cbn.
    by rewrite insert_insert_eq. }
  eapply (visible s ch j); [done..|apply evolves_insert_rtm| |done| |done| |].
  - intros a <-. by right.
  - apply (chain_push t1 ch (in_addr e) n); done.
  - intros sts Hs. eapply sp_effect; [exact Hs|]. apply eff_insert_rtm, (abs_fresh t ch); [apply Hi|apply Hi|done|apply fresh_not_listed].
  - intros k'. rewrite (abs_push t1 ch (in_addr e) n k); [|apply Hi|done|done|apply fresh_not_listed|done..].
    destruct (decide (k' = k)); [done|]. apply (ev_abs (eq (in_addr e)) t ch); [apply Hi|apply Hi|done|apply evolves_set, fresh_not_listed].
Qed.

Lemma ht_thread_moves ph : y_phases s !! j = Some ph -> moves ph.
Proof.
  destruct ph as [|[k|k|k seq|k seq]|k a|a k o p|k a o|k a o|k v a|k v a x|r]; intros Hj.
  - eexists _, _. split; [done|]. eapply (visible s ch j _ _ t _ ch (abs t)); [done..|apply ht_evolves_refl|done|done|apply Hi|done| |done].
    intros sts Hs. by apply sp_call.
  - by apply move_getnode.
  - eapply (move_alloc _ (PHead k (in_addr e)) (mkNode (in_gh e) NULL k (in_gs e))); try done.
  - eapply (move_alloc _ (PLoad k seq (in_addr e)) (mkNode (hashfunc_ k) NULL k seq)); try done.
    intros Hp Hn. split; [done|]. by eexists.
  - by apply move_rtm.
  - by apply move_head.
  - by apply move_scan.
  - by apply move_fill.
  - by apply move_cas.
  - by apply move_load.
  - by apply move_pushing.
  - eexists _, _. split; [done|]. eapply (visible s ch j _ _ t _ ch (abs t)); [done..|apply ht_evolves_refl|done|done|apply Hi|done| |done].
    intros sts Hs. by eapply sp_return.
Qed.

End step.

(** A transaction writes a sequence number. *)
Lemma evolves_seq t ch a n v :
  ht_nodes t !! a = Some n -> evolves (fun _ => False) t ch (set_node a (mkNode (n_hash n) (n_next n) (n_key n) v) t) ch.
Proof.
  intros Hn. split; cbn.
  - done.
  - intros x m Hm _. destruct (decide (x = a)) as [->|Hne].
    + rewrite lookup_insert_eq. assert (m = n) as -> by congruence. eexists. split; [done|]. done.
    + exists m. by rewrite lookup_insert_ne.
  - intros i. exists []. split; [done|]. set_solver.
  - done.
Qed.

Lemma evolves_lists t ch t' :
  evolves (fun _ => False) t ch t' ch -> list_ t' = list_ t ->
  (forall i, chain (nxt t) (default NULL (list_ t !! i)) (ch i) NULL) ->
  forall i, chain (nxt t') (default NULL (list_ t' !! i)) (ch i) NULL.
Proof. intros Hev El Hc i. rewrite El. apply (ev_tail _ _ _ _ _ Hev i _ (ch i)). split; [done|by exists []]. Qed.

Lemma step_sim s s' : inv s -> step s s' -> inv s' /\ simulates s s'.
Proof.
  intros [ch Hi] [j ph e t' ph' Hj Hnull Hfresh Ha|a n v Hn].
  - destruct (ht_thread_moves s ch j e Hi Hnull Hfresh ph Hj) as (t1 & ph1 & Ha1 & Hgood). rewrite Ha in Ha1. by injection Ha1 as <- <-.
  - pose proof (evolves_seq (y_table s) ch a n v Hn) as Hev. set (t' := set_node _ _ _) in *. split.
    + exists ch. split; cbn [y_table y_phases].
      * apply Hi.
      * apply (evolves_lists (y_table s) ch t' Hev eq_refl). apply Hi.
      * intros j ph Hj. apply (ev_phase _ _ _ _ _ Hev); [by intros ? _ []|]. by eapply (inv_phase _ _ Hi).
      * intros i j ph ph' b. apply (inv_tmp _ _ Hi).
    + left. split; [cbn [y_table]; eapply (ev_abs _ _ ch); [apply Hi..|done|done]|].
      unfold stats. cbn [y_table y_phases]. apply list_fmap_ext. intros i ph Hph. apply (ev_stat _ _ _ _ _ Hev). by eapply (inv_phase _ _ Hi).
Qed.

Lemma ht_start_inv n : inv (start (K := K) n).
Proof.
  exists (fun _ => []). split; cbn [start y_table y_phases].
  - done.
  - done.
  - intros j ph [-> _]%lookup_replicate. done.
  - intros i j ph ph' a [-> _]%lookup_replicate. done.
Qed.

Lemma ht_reachable_inv n s : reachable n s -> inv s.
Proof. induction 1 as [|s s' _ IH Hs]; [apply ht_start_inv|]. by apply (step_sim s s'). Qed.

(** C7: The hash table is linearizable: in every interleaving of calls of
    [GetNode], [GetNodeWithInsert], [Insert] and [InsertInRTM] with commits that
    write sequence numbers, no access faults, and every access is invisible or is
    one step of an atomic map from keys to nodes.  The node of a key changes only
    when an [Insert] of that key takes effect, so that with [GetNodeWithInsert]
    alone all callers get the same node. *)
Theorem hashtable_linearizable n (s : sys (K := K)) :
  reachable n s ->
  (forall j ph e, y_phases s !! j = Some ph -> in_addr e <> NULL -> ht_nodes (y_table s) !! in_addr e = None ->
     exists t' ph', access e (y_table s) ph = Ok (t', ph')) /\
  (forall s', step s s' -> simulates s s' /\
     forall k p, abs (y_table s) k = Some p -> abs (y_table s') k = Some p \/
       exists j seq, stats s !! j = Some (SPending (CInsert k seq)) \/ stats s !! j = Some (SPending (CInsertInRTM k seq))).
Proof.
  intros Hr. pose proof (ht_reachable_inv n s Hr) as Hinv. split.
  - intros j ph e Hj Hnull Hf. destruct Hinv as [ch Hi].
    destruct (ht_thread_moves s ch j e Hi Hnull Hf ph Hj) as (t' & ph' & Ha & _). eauto.
  - intros s' Hs. destruct (step_sim s s' Hinv Hs) as [_ Hsim]. split; [done|]. intros k p Hk.
    destruct Hsim as [[Habs _]|(m' & Hsp & Hm)]; [left; by rewrite Habs|]. rewrite Hm.
    destruct Hsp as [|j c r m' Hj He|]; [by left| |by left].
    destruct He as [| |k0 p0 Hnone Hf|k0 seq p0 Hf|k0 seq p0 Hf]; [by left..| | |]; (destruct (decide (k = k0)) as [->|]; [|by left]).
    + congruence.
    + right. exists j, seq. by left.
    + right. exists j, seq. by right.
Qed.

(** ** The scans by hash *)

(** The largest sequence number of the nodes [xs] with the hash. *)
Fixpoint max_in t (hash max : Z) (xs : list addr) : Z :=
  match xs with
  | [] => max
  | x :: xs =>
      match ht_nodes t !! x with
      | Some n => max_in t hash (if n_hash n =? hash then (if max <? n_seq n then n_seq n else max) else max) xs
      | None => max
      end
  end.

Lemma max_loop_chain t hash fuel max p xs :
  chain (nxt t) p xs NULL -> (length xs < fuel)%nat -> max_loop fuel t hash max p = Ok (max_in t hash max xs).
Proof.
  revert p fuel max. induction xs as [|x xs IH]; intros p [|fuel] max; simpl; try lia.
  - by intros ->.
  - intros (-> & Hx & q & Hq & Hc) Hlen. unfold nxt in Hq. apply fmap_Some in Hq as (n & Hn & ->).
    rewrite (proj2 (Z.eqb_neq _ _) Hx). unfold deref. rewrite (proj2 (Z.eqb_neq _ _) Hx), Hn. simpl. apply IH; [done|lia].
Qed.

Lemma max_in_spec t hash p xs max :
  chain (nxt t) p xs NULL -> max <= max_in t hash max xs /\
  (forall x n, x ∈ xs -> ht_nodes t !! x = Some n -> n_hash n = hash -> n_seq n <= max_in t hash max xs) /\
  (max_in t hash max xs = max \/ exists x n, x ∈ xs /\ ht_nodes t !! x = Some n /\ n_hash n = hash /\ n_seq n = max_in t hash max xs).
Proof.
  revert p max. induction xs as [|x xs IH]; intros p max; simpl; [intros _; split_and!; [done|set_solver|by left]|].
  intros (-> & Hx & q & Hq & Hc). unfold nxt in Hq. apply fmap_Some in Hq as (n & Hn & ->). rewrite Hn.
  set (m := if n_hash n =? hash then _ else max). destruct (IH _ m Hc) as (Hle & Hall & Hex).
  assert (Hm : max <= m /\ (n_hash n = hash -> n_seq n <= m) /\ (m = max \/ (n_hash n = hash /\ n_seq n = m))).
  { subst m. destruct (Z.eqb_spec (n_hash n) hash); [|split_and!; [done|done|by left]].
    destruct (Z.ltb_spec max (n_seq n)); split_and!; lia. }
  destruct Hm as (Hm1 & Hm2 & Hm3). split_and!; [lia| |].
  - intros y n' [->|Hy]%elem_of_cons Hn' Eh; [assert (n' = n) as -> by congruence; specialize (Hm2 Eh); lia|by eapply Hall].
  - destruct Hex as [->|(y & n' & Hy & Hn' & Eh & Es)].
    + destruct Hm3 as [->|[Eh Es]]; [by left|]. right. exists x, n. split_and!; [set_solver|done..].
    + right. exists y, n'. split_and!; [set_solver|done..].
Qed.

(** What [UpdateWithHash] does to the nodes. *)
Definition seq_to (hash seq : Z) (n : Node K) : Node K :=
  if n_hash n =? hash then mkNode (n_hash n) (n_next n) (n_key n) seq else n.

Lemma update_loop_chain t hash seq fuel p xs :
  chain (nxt t) p xs NULL -> (length xs < fuel)%nat ->
  exists t', update_loop fuel t hash seq p = Ok t' /\ length_ t' = length_ t /\ list_ t' = list_ t /\
    forall x, ht_nodes t' !! x = if bool_decide (x ∈ xs) then seq_to hash seq <$> ht_nodes t !! x else ht_nodes t !! x.
Proof.
  revert t p fuel. induction xs as [|x xs IH]; intros t p [|fuel] Hc Hlen; try (simpl in Hlen; lia).
  - cbn in Hc. subst p. exists t. split_and!; [done..|]. intros y. by rewrite bool_decide_false by set_solver.
  - pose proof (chain_NoDup _ _ _ Hc) as [Hni _]%NoDup_cons. destruct Hc as (-> & Hx & q & Hq & Hc). unfold nxt in Hq.
    apply fmap_Some in Hq as (n & Hn & ->).
    cbn [update_loop]. unfold deref. rewrite (proj2 (Z.eqb_neq _ _) Hx), Hn. unfold from_opt, mbind, result_bind.
    set (t1 := if n_hash n =? hash then _ else t).
    assert (Ht1 : ht_nodes t1 = <[x := seq_to hash seq n]> (ht_nodes t) /\ length_ t1 = length_ t /\ list_ t1 = list_ t).
    { subst t1. unfold seq_to. destruct (n_hash n =? hash); [done|]. by rewrite insert_id. }
    destruct Ht1 as (En & El & Els).
    destruct (IH t1 (n_next n) fuel) as (t' & Et & El' & Els' & Hall); [|simpl in Hlen; lia|].
    { eapply chain_ext; [|exact Hc]. intros y Hy. unfold nxt. rewrite En, lookup_insert_ne by set_solver. done. }
    exists t'. split_and!; [done|congruence|congruence|]. intros y. rewrite Hall, En. destruct (decide (y = x)) as [->|Hne].
    + rewrite bool_decide_false, lookup_insert_eq, bool_decide_true, Hn by set_solver. done.
    + rewrite lookup_insert_ne by done. destruct (decide (y ∈ xs)) as [Hy|Hy].
      * by rewrite !bool_decide_true by set_solver.
      * by rewrite !bool_decide_false by set_solver.
Qed.

Lemma find_in_match t hash k xs p :
  find_in t hash k xs = p -> p <> NULL -> p ∈ xs /\ exists n, ht_nodes t !! p = Some n /\ n_hash n = hash /\ n_key n = k.
Proof.
  induction xs as [|x xs IH]; simpl; [by intros <-|]. destruct (ht_nodes t !! x) as [n|] eqn:Hn; [|by intros <-].
  destruct (other hash k n) eqn:Eo.
  - intros E Hp. destruct (IH E Hp) as [? ?]. split; [set_solver|done].
  - intros <- _. split; [set_solver|]. exists n. split; [done|]. unfold other in Eo.
    apply orb_false_iff in Eo as [Eh%negb_false_iff%Z.eqb_eq Ek%negb_false_iff%Z.eqb_eq]. split; [done|]. by apply compare_eq.
Qed.

Section by_hash.
Context (t : table (K := K)) (ch : Z -> list addr) (hash : Z).
Hypotheses (Hl : 0 < length_ t) (Hc : forall i, chain (nxt t) (default NULL (list_ t !! i)) (ch i) NULL).

Lemma head_hash : head t (slot_of t hash) = Ok (default NULL (list_ t !! slot_of t hash)).
Proof.
  unfold head. pose proof (land_range hash (length_ t - 1) ltac:(lia)). fold (slot_of t hash) in *.
  rewrite (proj2 (Z.leb_le 0 _)), (proj2 (Z.ltb_lt _ (length_ t))) by lia. done.
Qed.

Lemma abs_by_hash k p :
  abs t k = Some p -> hashfunc_ k = hash -> p ∈ ch (slot_of t hash) /\ exists n, ht_nodes t !! p = Some n /\ n_hash n = hash /\ n_key n = k.
Proof.
  intros Hk Eh. rewrite (abs_chain t ch k Hl Hc) in Hk. cbv zeta in Hk. unfold key_slot in Hk. rewrite Eh in Hk.
  destruct (Z.eqb_spec (find_in t hash k (ch (slot_of t hash))) NULL) as [E|E]; [done|]. injection Hk as <-. by eapply find_in_match.
Qed.

Lemma GetMaxWithHash_chain :
  GetMaxWithHash t hash = let m := max_in t hash 0 (ch (slot_of t hash)) in Ok (if m =? 0 then None else Some m).
Proof.
  unfold GetMaxWithHash. rewrite head_hash. unfold mbind, result_bind.
  by rewrite (max_loop_chain _ _ _ _ _ _ (Hc _) (nodes_chain_length _ _ _ (Hc _))).
Qed.

End by_hash.

(** What validation and recovery read by hash.  In every reachable state
    [GetMaxWithHash] returns the largest sequence number of the nodes with that
    hash, or nothing when none has one; in particular that of the node of every
    key with the hash is not larger.  After [UpdateWithHash] it returns the number
    that was written, if there is a node with the hash. *)
Lemma hashtable_seqs n (s : sys (K := K)) hash seq :
  reachable n s -> 0 < seq ->
  (exists m, GetMaxWithHash (y_table s) hash = Ok (if m =? 0 then None else Some m) /\ 0 <= m /\
     forall k p nd, abs (y_table s) k = Some p -> hashfunc_ k = hash -> ht_nodes (y_table s) !! p = Some nd -> n_seq nd <= m) /\
  (exists t', UpdateWithHash (y_table s) hash seq = Ok t' /\ (forall k, abs t' k = abs (y_table s) k) /\
     forall k p, abs (y_table s) k = Some p -> hashfunc_ k = hash -> GetMaxWithHash t' hash = Ok (Some seq)).
Proof.
  intros Hr Hseq. destruct (ht_reachable_inv n s Hr) as [ch Hi]. set (t := y_table s).
  assert (Hl : 0 < length_ t) by apply Hi. assert (Hc : forall i, chain (nxt t) (default NULL (list_ t !! i)) (ch i) NULL) by apply Hi.
  destruct (max_in_spec t hash _ _ 0 (Hc (slot_of t hash))) as (Hm & Hall & _). split.
  - exists (max_in t hash 0 (ch (slot_of t hash))). split_and!; [by apply GetMaxWithHash_chain|done|].
    intros k p nd Hk Eh Hn. destruct (abs_by_hash t ch hash Hl Hc k p Hk Eh) as [Hin (n0 & Hn0 & En & _)]. eapply Hall; [done|done|congruence].
  - destruct (update_loop_chain t hash seq _ _ _ (Hc (slot_of t hash)) (nodes_chain_length _ _ _ (Hc _))) as (t' & Et & El & Els & Hn').
    assert (Hev : evolves (fun _ => False) t ch t' ch).
    { split; [done| | |done].
      - intros x nd Hx _. rewrite Hn', Hx. cbn. destruct (bool_decide _); [|by exists nd]. eexists. split; [done|].
        unfold seq_to. by destruct (_ =? _).
      - intros i. exists []. split; [done|]. set_solver. }
    pose proof (evolves_lists t ch t' Hev Els Hc) as Hc'. exists t'. split_and!.
    + unfold UpdateWithHash. rewrite head_hash by done. exact Et.
    + eapply (ev_abs _ _ ch); done.
    + intros k p Hk Eh. destruct (abs_by_hash t ch hash Hl Hc k p Hk Eh) as [Hin (n0 & Hn0 & En & _)].
      rewrite (GetMaxWithHash_chain t' ch hash) by (rewrite ?El; done). cbv zeta.
      replace (slot_of t' hash) with (slot_of t hash) by (unfold slot_of; by rewrite El).
      destruct (max_in_spec t' hash _ _ 0 (Hc' (slot_of t hash))) as (_ & Hall' & Hex).
      assert (Hs : forall x nd, x ∈ ch (slot_of t hash) -> ht_nodes t' !! x = Some nd -> n_hash nd = hash -> n_seq nd = seq).
      { intros x nd Hx. rewrite Hn', bool_decide_true by done. intros (n1 & Hn1 & ->)%fmap_Some. unfold seq_to.
        destruct (Z.eqb_spec (n_hash n1) hash); done. }
      assert (Hp : exists nd, ht_nodes t' !! p = Some nd /\ n_hash nd = hash).
      { rewrite Hn', bool_decide_true, Hn0 by done. eexists. split; [done|]. unfold seq_to. by destruct (_ =? _). }
      destruct Hp as (nd & Hnd & End). pose proof (Hall' p nd Hin Hnd End) as Hle. rewrite (Hs p nd Hin Hnd End) in Hle.
      destruct Hex as [E|(x & nx & Hx & Hnx & Ex & E)]; [lia|]. rewrite <- E, (Hs x nx Hx Hnx Ex). by rewrite (proj2 (Z.eqb_neq _ _)) by lia.
Qed.

(** ** Calls without interference *)

Definition chains t ch : Prop := forall i, chain (nxt t) (default NULL (list_ t !! i)) (ch i) NULL.

Definition table_ok t : Prop := 0 < length_ t /\ exists ch, chains t ch.

Lemma GetNode_abs t k : table_ok t -> GetNode t k = Ok (default NULL (abs t k)).
Proof.
  intros [Hl [ch Hc]]. rewrite (abs_chain t ch k Hl Hc). unfold GetNode. fold (key_slot t k). rewrite head_ok by done.
  unfold mbind, result_bind. rewrite (find_walk _ _ _ _ _ (Hc _)). cbv zeta.
  by destruct (Z.eqb_spec (find_in t (hashfunc_ k) k (ch (key_slot t k))) NULL) as [->|].
Qed.

(** The node of a key has the key. *)
Lemma abs_node t k p : table_ok t -> abs t k = Some p -> p <> NULL /\ exists n, ht_nodes t !! p = Some n /\ n_hash n = hashfunc_ k /\ n_key n = k.
Proof.
  intros [Hl [ch Hc]] Hk. rewrite (abs_chain t ch k Hl Hc) in Hk. cbv zeta in Hk.
  destruct (Z.eqb_spec (find_in t (hashfunc_ k) k (ch (key_slot t k))) NULL) as [E|E]; [done|]. injection Hk as <-.
  split; [done|]. by eapply find_in_match.
Qed.

Lemma abs_inj t k k' p : table_ok t -> abs t k = Some p -> abs t k' = Some p -> k = k'.
Proof.
  intros Ht Hk Hk'. destruct (abs_node t k p Ht Hk) as (_ & n & Hn & _ & <-), (abs_node t k' p Ht Hk') as (_ & n' & Hn' & _ & <-).
  congruence.
Qed.

(** What [GetMaxWithHash] says about the keys with the hash. *)
Lemma GetMaxWithHash_abs t hash :
  table_ok t -> exists r, GetMaxWithHash t hash = Ok r /\
    forall k p n, abs t k = Some p -> hashfunc_ k = hash -> ht_nodes t !! p = Some n -> n_seq n <= default 0 r.
Proof.
  intros [Hl [ch Hc]]. rewrite (GetMaxWithHash_chain t ch hash Hl Hc). cbv zeta. eexists. split; [done|].
  destruct (max_in_spec t hash _ _ 0 (Hc (slot_of t hash))) as (Hm & Hall & _).
  intros k p n Hk Eh Hn. destruct (abs_by_hash t ch hash Hl Hc k p Hk Eh) as [Hin (n0 & Hn0 & En & _)].
  assert (n0 = n) as -> by congruence. specialize (Hall p n Hin Hn0 En). destruct (Z.eqb_spec (max_in t hash 0 (ch (slot_of t hash))) 0); cbn; lia.
Qed.

(** Writing a sequence number. *)
Lemma abs_set_seq t a n v : table_ok t -> ht_nodes t !! a = Some n ->
  let t' := set_node a (mkNode (n_hash n) (n_next n) (n_key n) v) t in table_ok t' /\ forall k, abs t' k = abs t k.
Proof.
  intros [Hl [ch Hc]] Hn t'. pose proof (evolves_seq t ch a n v Hn) as Hev. split.
  - split; [done|]. exists ch. intros i. by apply (evolves_lists t).
  - by apply (ev_abs (fun _ => False) t ch).
Qed.

Lemma scan_alone t e tmp k oldv ptr ys fuel :
  chain (nxt t) ptr ys NULL -> (length ys < fuel)%nat ->
  exists fuel', (fuel - length ys <= S fuel')%nat /\
    run_alone fuel e t (PScan tmp k oldv ptr) =
    run_alone fuel' e t (if find_in t (hashfunc_ k) k ys =? NULL
                         then match tmp with Some tmp => PFill k tmp oldv | None => PDone NULL end
                         else PDone (find_in t (hashfunc_ k) k ys)).
Proof.
  revert ptr fuel. induction ys as [|y ys IH]; intros ptr [|fuel] Hc Hf; try (simpl in Hf; lia).
  - cbn in Hc. subst ptr. exists fuel. split; [simpl; lia|]. done.
  - destruct Hc as (-> & Hy & q & Hq & Hc). unfold nxt in Hq. apply fmap_Some in Hq as (n & Hn & ->).
    cbn [run_alone access]. rewrite (proj2 (Z.eqb_neq _ _) Hy). unfold deref. rewrite (proj2 (Z.eqb_neq _ _) Hy), Hn.
    unfold from_opt, mbind, result_bind. cbn [find_in]. rewrite Hn. destruct (other (hashfunc_ k) k n).
    + destruct (IH (n_next n) fuel Hc) as (fuel' & Hf' & E); [simpl in Hf; lia|]. exists fuel'. split; [simpl; lia|exact E].
    + exists fuel. split; [simpl; lia|]. by rewrite (proj2 (Z.eqb_neq _ _) Hy).
Qed.

(** An undisturbed [GetNodeWithInsert] returns the node of the key or inserts an
    empty one. *)
Lemma GetNodeWithInsert_spec t k a gh gs :
  table_ok t -> a <> NULL -> ht_nodes t !! a = None ->
  exists r t', GetNodeWithInsert a gh gs k t = Ok (r, t') /\ table_ok t' /\ abs t' k = Some r /\
    (forall k', k' <> k -> abs t' k' = abs t k') /\ (forall p, abs t k = Some p -> r = p) /\
    (forall x n, ht_nodes t !! x = Some n -> ht_nodes t' !! x = Some n) /\
    (abs t k = None -> exists n, ht_nodes t' !! r = Some n /\ n_seq n = 0).
Proof.
  intros [Hl [ch Hc]] Ha Hf. set (n1 := mkNode gh NULL k gs). set (t1 := set_node a n1 t).
  assert (Hout : forall i, a ∉ ch i) by (intros i Hin; destruct (chain_nodes _ _ _ _ (Hc i) Hin); congruence).
  pose proof (evolves_set t ch a n1 Hout) as Hev. fold t1 in Hev.
  assert (Hc1 : chains t1 ch) by (intros i; apply (ev_tail _ _ _ _ _ Hev i _ (ch i)); split; [apply Hc|by exists []]).
  assert (Habs1 : forall k', abs t1 k' = abs t k') by (by apply (ev_abs (eq a) t ch)).
  assert (Hn1 : ht_nodes t1 !! a = Some n1) by apply lookup_insert_eq.
  assert (Hsub : forall x n, ht_nodes t !! x = Some n -> x <> a) by (intros x n Hx ->; congruence).
  assert (Hwf : walk_fuel t1 = S (walk_fuel t)) by (unfold walk_fuel, t1; cbn; by rewrite map_size_insert_None).
  pose proof (nodes_chain_length t1 _ _ (Hc1 (key_slot t1 k))) as Hlen. rewrite Hwf in Hlen.
  assert (E0 : forall f e, run_alone (S f) e t1 (PHead k a) =
            run_alone f e t1 (PScan (Some a) k (default NULL (list_ t1 !! key_slot t1 k)) (default NULL (list_ t1 !! key_slot t1 k)))).
  { intros f e. cbn [run_alone access]. fold (key_slot t1 k). by rewrite head_ok. }
  unfold GetNodeWithInsert. set (e := mkInput _ a gh gs). replace (walk_fuel t + 8)%nat with (S (S (walk_fuel t + 6))) by lia.
  assert (E1 : forall f, run_alone (S f) e t (PCalled (CGetNodeWithInsert k)) = run_alone f e t1 (PHead k a)) by done.
  rewrite E1, E0.
  destruct (scan_alone t1 e (Some a) k (default NULL (list_ t1 !! key_slot t1 k)) _ _ (walk_fuel t + 6) (Hc1 (key_slot t1 k)) ltac:(lia)) as (f' & Hf' & ->).
  assert (Hf5 : exists f, f' = S (S (S f))) by (exists (f' - 3)%nat; lia). destruct Hf5 as [f ->].
  pose proof (abs_chain t1 ch k Hl Hc1) as Hk. cbv zeta in Hk. rewrite Habs1 in Hk.
  destruct (Z.eqb_spec (find_in t1 (hashfunc_ k) k (ch (key_slot t1 k))) NULL) as [E|E].
  - set (n2 := mkNode (hashfunc_ k) (default NULL (list_ t1 !! key_slot t1 k)) k 0). set (t2 := set_node a n2 t1).
    pose proof (evolves_set t1 ch a n2 Hout) as Hev2. fold t2 in Hev2.
    assert (Hc2 : chains t2 ch) by (intros i; apply (ev_tail _ _ _ _ _ Hev2 i _ (ch i)); split; [apply Hc1|by exists []]).
    assert (Hn2 : ht_nodes t2 !! a = Some n2) by apply lookup_insert_eq.
    pose proof (abs_push t2 ch a n2 k Hl Hc2 Ha Hout Hn2 eq_refl eq_refl eq_refl) as Hpush.
    exists a, (set_head (key_slot t2 k) a t2). split_and!.
    + assert (E2 : access e t1 (PFill k a (default NULL (list_ t1 !! key_slot t1 k))) = Ok (t2, PCas k a (default NULL (list_ t1 !! key_slot t1 k)))).
      { cbn [access]. unfold deref. rewrite (proj2 (Z.eqb_neq _ _) Ha), Hn1. unfold from_opt, mbind, result_bind.
        fold (key_slot t1 k). by rewrite (head_ok t1 k Hl). }
      assert (E3 : access e t2 (PCas k a (default NULL (list_ t1 !! key_slot t1 k))) = Ok (set_head (key_slot t2 k) a t2, PDone a)).
      { cbn [access]. fold (key_slot t2 k). rewrite (head_ok t2 k Hl). unfold mbind, result_bind.
        change (list_ t2 !! key_slot t2 k) with (list_ t1 !! key_slot t1 k). by rewrite Z.eqb_refl. }
      cbn [run_alone]. rewrite E2. unfold mbind, result_bind. by rewrite E3.
    + split; [done|]. exists (push (key_slot t2 k) a ch). intros i. by apply (chain_push t2 ch a n2).
    + by rewrite Hpush, decide_True.
    + intros k' Hne. rewrite Hpush, decide_False by done. rewrite <- Habs1. by apply (ev_abs (eq a) t1 ch).
    + intros p Hp. congruence.
    + intros x n Hx. cbn. by rewrite !lookup_insert_ne by (symmetry; by eapply Hsub).
    + intros _. exists n2. done.
  - exists (find_in t1 (hashfunc_ k) k (ch (key_slot t1 k))), t1. split_and!; try done.
    + split; [done|]. by exists ch.
    + rewrite Habs1. done.
    + intros p Hp. congruence.
    + intros x n Hx. cbn. by rewrite lookup_insert_ne by (symmetry; by eapply Hsub).
    + congruence.
Qed.

End refinement.

(** ** Examples *)

#[export] Instance Z_hashkey : HashKey Z := { hashfunc_ := u64; compare_ := Z.sub }.

#[export] Instance Z_hashkey_laws : HashKeyLaws Z.
Proof. split; [apply u64_range|]. intros k k'. cbn. lia. Qed.

(** The length 16384000 is not a power of two: the mask has two zero bits, so that
    three quarters of the slots are never used. *)
Lemma slots_wasted (t : table (K := Z)) hash :
  length_ t = initial_length -> Z.testbit (slot_of t hash) 17 = false /\ Z.testbit (slot_of t hash) 18 = false.
Proof.
  intros El. unfold slot_of. rewrite El, !Z.land_spec.
  change (Z.testbit (initial_length - 1) 17) with false. change (Z.testbit (initial_length - 1) 18) with false.
  by rewrite !andb_false_r.
Qed.

(** [Resize] of a table that holds a node loses it. *)
Definition small_table : table (K := Z) := mkTable 4 1 {[1 := 100]} {[100 := mkNode 5 NULL 5 7]}.

Lemma resize_loses_nodes :
  GetNode small_table 5 = Ok 100 /\ exists t, Resize small_table = Ok t /\ GetNode t 5 = Ok NULL.
Proof. split; [vm_compute; reflexivity|]. eexists. split; vm_compute; reflexivity. Qed.

Lemma ctor_spec : HashTable_ctor (K := Z) = Ok (y_table (start 0)).
Proof. vm_compute. reflexivity. Qed.

(** [InsertInRTM] drops the sequence number it is given. *)
Example insert_in_rtm_seq :
  exists t, InsertInRTM 200 0 0 6 9 small_table = Ok (200, t) /\ (n_seq <$> ht_nodes t !! 200) = Some 0.
Proof. eexists. split; vm_compute; reflexivity. Qed.

(** A schedule: the thread and what it is given. *)
Fixpoint run_schedule (es : list (nat * input (K := Z))) (s : sys) : sys :=
  match es with
  | [] => s
  | (j, e) :: es =>
      run_schedule es
        (match y_phases s !! j with
         | Some ph =>
             if bool_decide (in_addr e <> NULL /\ ht_nodes (y_table s) !! in_addr e = None) then
               match access e (y_table s) ph with
               | Ok (t, ph) => mkSys t (<[j := ph]> (y_phases s))
               | Fault _ => s
               end
             else s
         | None => s
         end)
  end.

Lemma ht_run_schedule_reachable n es s : reachable n s -> reachable n (run_schedule es s).
Proof.
  revert s. induction es as [|[j e] es IH]; intros s Hr; [done|]. cbn [run_schedule]. apply IH.
  destruct (y_phases s !! j) as [ph|] eqn:Hj; [|done]. case_bool_decide as Hb; [|done].
  destruct (access e (y_table s) ph) as [[t ph']|] eqn:Ha; [|done]. eapply reach_step; [exact Hr|].
  destruct Hb. by eapply (step_thread s j ph e).
Qed.

(** Two threads call [GetNodeWithInsert] of key 5; the second one loses the
    compare-and-swap and returns the node of the first. *)
Definition w_sched : list (nat * input (K := Z)) :=
  (fun p : nat * Z => (p.1, mkInput (CGetNodeWithInsert 5) p.2 0 0)) <$>
  zip [0; 1; 0; 1; 0; 1; 0; 1; 0; 1; 0; 1; 1; 1]%nat [1; 1; 64; 128; 1; 1; 1; 1; 1; 1; 1; 1; 1; 1].

Definition w_run : sys := run_schedule w_sched (start 2).

Lemma w_run_done : y_phases w_run = [PDone 64; PDone 64] /\ abs (y_table w_run) 5 = Some 64.
Proof. split; vm_compute; reflexivity. Qed.

Lemma ht_w_run_reachable : reachable 2 w_run.
Proof. apply ht_run_schedule_reachable. constructor. Qed.

Lemma hashtable_linearizable_witness :
  exists t' ph', access (mkInput (CGetNode 5) 256 0 0) (y_table w_run) (PDone 64) = Ok (t', ph').
Proof.
  refine (proj1 (hashtable_linearizable 2 w_run ht_w_run_reachable) 0%nat (PDone 64) _ _ _ _); [|discriminate|reflexivity].
  rewrite (proj1 w_run_done). reflexivity.
Defined.

Lemma hashtable_seqs_witness : exists t', UpdateWithHash (y_table w_run) 5 9 = Ok t' /\ GetMaxWithHash t' 5 = Ok (Some 9).
Proof.
  destruct (proj2 (hashtable_seqs 2 w_run 5 9 ht_w_run_reachable ltac:(lia))) as (t' & Et & _ & Hmax).
  exact (ex_intro _ t' (conj Et (Hmax 5 64 (proj2 w_run_done) eq_refl))).
Defined.
