(* ===== verification/QuickSort.v ===== *)
(** * The quicksort of [DBTransaction] (db/dbtransaction_template.h)

    [SortBatch] sorts the keys of a batch read, [SortWS] the write set: the same
    algorithm on an array of structures, respectively on two arrays that are
    swapped together (here a list of pairs).  Both end, stay in bounds and leave
    a sorted permutation. *)

From S2P Require Import Prelude.

Section quicksort.
Context {A : Type} (comp : A -> A -> Z).
Implicit Types (l : list A).

(** Array accesses; indices are [int]s. *)
Definition get l (i : Z) : result A :=
  if 0 <=? i then from_opt OutOfBounds (l !! Z.to_nat i) else Fault OutOfBounds.

Definition set (i : Z) (x : A) l : result (list A) :=
  _ ← get l i; Ok (<[Z.to_nat i := x]> l).

Definition Swap (i j : Z) l : result (list A) :=
  if i =? j then Ok l
  else
    tmp ← get l i;
    y ← get l j;
    l ← set i y l;
    set j tmp l.

(** The loop of the partition, with [n] iterations to go. *)
Fixpoint Partition_loop (n : nat) (i storeIndex : Z) (pivotValue : A) l : result (Z * list A) :=
  match n with
  | O => Ok (storeIndex, l)
  | S n =>
      x ← get l i;
      if comp x pivotValue <=? 0 then
        l ← Swap storeIndex i l;
        Partition_loop n (i + 1) (storeIndex + 1) pivotValue l
      else Partition_loop n (i + 1) storeIndex pivotValue l
  end.

Definition Partition (left right pivotIndex : Z) l : result (Z * list A) :=
  pivotValue ← get l pivotIndex;
  l ← Swap pivotIndex right l;
  '(storeIndex, l) ← Partition_loop (Z.to_nat (right - left)) left left pivotValue l;
  l ← Swap right storeIndex l;
  Ok (storeIndex, l).

Fixpoint Sort (fuel : nat) (left right : Z) l : result (list A) :=
  match fuel with
  | O => Fault OutOfFuel
  | S fuel =>
      if left <? right then
        let pivotIndex := (left + right) ÷ 2 in
        '(pivotNewIndex, l) ← Partition left right pivotIndex l;
        l ← Sort fuel left (pivotNewIndex - 1) l;
        Sort fuel (pivotNewIndex + 1) right l
      else Ok l
  end.

(** ** Rearranging a segment *)

(** The element at an [int] index. *)
Definition at_ l (i : Z) : option A := if 0 <=? i then l !! Z.to_nat i else None.

(** [l'] is [l] with the elements of the segment from [a] to [b] rearranged. *)
Record rearranged (a b : Z) l l' : Prop := {
  re_perm : l' ≡ₚ l;
  re_outside k : k < a \/ b < k -> at_ l' k = at_ l k;
  re_inside k x : a <= k <= b -> at_ l' k = Some x -> exists k', a <= k' <= b /\ at_ l k' = Some x
}.

Lemma rearranged_refl a b l : rearranged a b l l.
Proof. split; [done|done|]. intros k x Hk Hx. by exists k. Qed.

Lemma rearranged_trans a b l1 l2 l3 : rearranged a b l1 l2 -> rearranged a b l2 l3 -> rearranged a b l1 l3.
Proof.
  intros [P1 O1 I1] [P2 O2 I2]. split.
  - by rewrite P2.
  - intros k Hk. by rewrite O2, O1.
  - intros k x Hk Hx. destruct (I2 k x Hk Hx) as (k' & Hk' & Hx'). by apply (I1 k').
Qed.

Lemma rearranged_weaken a b a' b' l l' : a' <= a -> b <= b' -> rearranged a b l l' -> rearranged a' b' l l'.
Proof.
  intros Ha Hb [P O I]. split; [done| |].
  - intros k Hk. apply O. lia.
  - intros k x Hk Hx. destruct (decide (a <= k <= b)) as [Hin|Hout].
    + destruct (I k x Hin Hx) as (k' & Hk' & Hx'). exists k'. split; [lia|done].
    + exists k. split; [done|]. rewrite <- O by lia. done.
Qed.

Lemma re_length a b l l' : rearranged a b l l' -> length l' = length l.
Proof. intros Hre. apply Permutation_length, Hre. Qed.

Lemma at_bounds l i x : at_ l i = Some x -> 0 <= i < Z.of_nat (length l).
Proof. unfold at_. destruct (Z.leb_spec 0 i); [|done]. intros Hx%lookup_lt_Some. lia. Qed.

Lemma at_some l i : 0 <= i < Z.of_nat (length l) -> exists x, at_ l i = Some x.
Proof.
  intros Hi. unfold at_. rewrite (proj2 (Z.leb_le 0 i)) by lia. apply lookup_lt_is_Some. lia.
Qed.

Lemma get_at l i x : at_ l i = Some x -> get l i = Ok x.
Proof. unfold at_, get. destruct (0 <=? i); [|done]. by intros ->. Qed.

Lemma at_insert l i x k : 0 <= i < Z.of_nat (length l) -> at_ (<[Z.to_nat i := x]> l) k = if decide (k = i) then Some x else at_ l k.
Proof.
  intros Hi. unfold at_. destruct (decide (k = i)) as [->|Hne].
  - rewrite (proj2 (Z.leb_le 0 i)) by lia. apply list_lookup_insert_eq. lia.
  - destruct (Z.leb_spec 0 k); [|done]. apply list_lookup_insert_ne. lia.
Qed.

Lemma Swap_spec a b i j l x y :
  a <= i <= b -> a <= j <= b -> at_ l i = Some x -> at_ l j = Some y ->
  exists l', Swap i j l = Ok l' /\ rearranged a b l l' /\
    forall k, at_ l' k = if decide (k = j) then Some x else if decide (k = i) then Some y else at_ l k.
Proof.
  intros Hi Hj Hx Hy. unfold Swap. destruct (Z.eqb_spec i j) as [->|Hne].
  - exists l. split_and!; [done|apply rearranged_refl|]. intros k. destruct (decide (k = j)) as [->|]; [congruence|]. done.
  - rewrite (get_at _ _ _ Hx), (get_at _ _ _ Hy). unfold mbind, result_bind, set. rewrite (get_at _ _ _ Hx). unfold mbind, result_bind.
    pose proof (at_bounds _ _ _ Hx) as Bi. pose proof (at_bounds _ _ _ Hy) as Bj.
    set (l1 := <[Z.to_nat i := y]> l). assert (Bj1 : 0 <= j < Z.of_nat (length l1)) by (unfold l1; by rewrite length_insert).
    destruct (at_some l1 j Bj1) as [z Hz]. rewrite (get_at _ _ _ Hz). eexists. split; [done|].
    assert (Hat : forall k, at_ (<[Z.to_nat j := x]> l1) k = if decide (k = j) then Some x else if decide (k = i) then Some y else at_ l k).
    { intros k. rewrite at_insert by done. unfold l1. destruct (decide (k = j)); [done|]. by rewrite at_insert. }
    split; [|done]. split.
    + unfold l1. assert (Hxn : l !! Z.to_nat i = Some x) by (unfold at_ in Hx; by rewrite (proj2 (Z.leb_le 0 i)) in Hx by lia).
      assert (Hyn : l !! Z.to_nat j = Some y) by (unfold at_ in Hy; by rewrite (proj2 (Z.leb_le 0 j)) in Hy by lia).
      by apply Permutation_insert_swap.
    + intros k Hk. rewrite Hat, !decide_False by lia. done.
    + intros k z' Hk. rewrite Hat. destruct (decide (k = j)) as [->|]; [intros [= <-]; by exists i|].
      destruct (decide (k = i)) as [->|]; [intros [= <-]; by exists j|]. intros Hz'. by exists k.
Qed.

(** The elements from [a] up to [b] (excluded) satisfy [P]. *)
Definition seg (P : A -> Prop) l (a b : Z) : Prop := forall k x, a <= k < b -> at_ l k = Some x -> P x.

Definition small (p x : A) : Prop := comp x p <= 0.
Definition large (p x : A) : Prop := 0 < comp x p.

Lemma Partition_loop_spec n i store p l left right :
  0 <= left <= store -> store <= i -> i + Z.of_nat n = right -> right < Z.of_nat (length l) ->
  seg (small p) l left store -> seg (large p) l store i ->
  exists store' l', Partition_loop n i store p l = Ok (store', l') /\ store <= store' <= right /\
    rearranged left (right - 1) l l' /\ seg (small p) l' left store' /\ seg (large p) l' store' right.
Proof.
  revert i store l. induction n as [|n IH]; intros i store l Hls Hsi Hn Hlen Hsm Hla.
  { exists store, l. cbn. assert (i = right) as -> by lia. split_and!; try done; try lia. apply rearranged_refl. }
  destruct (at_some l i) as [x Hx]; [lia|]. destruct (at_some l store) as [y Hy]; [lia|].
  cbn [Partition_loop]. rewrite (get_at _ _ _ Hx). unfold mbind, result_bind. destruct (Z.leb_spec (comp x p) 0) as [Hc|Hc].
  - destruct (Swap_spec left (right - 1) store i l y x ltac:(lia) ltac:(lia) Hy Hx) as (l1 & -> & Hre & Hat).
    destruct (IH (i + 1) (store + 1) l1) as (st & l' & -> & Hst & Hre' & Hs' & Hl'); try lia.
    + rewrite (re_length _ _ _ _ Hre). lia.
    + intros k z Hk. rewrite Hat. destruct (decide (k = i)) as [->|].
      * intros [= <-]. assert (store = i) as -> by lia. by assert (y = x) as -> by congruence.
      * destruct (decide (k = store)) as [->|]; [by intros [= <-]|]. apply Hsm. lia.
    + intros k z Hk. rewrite Hat. destruct (decide (k = i)) as [->|].
      * intros [= <-]. destruct (decide (store = i)) as [->|]; [lia|]. apply (Hla store); [lia|done].
      * rewrite decide_False by lia. apply Hla. lia.
    + exists st, l'. split_and!; try done; try lia. by eapply rearranged_trans.
  - destruct (IH (i + 1) store l) as (st & l' & -> & Hst & Hre' & Hs' & Hl'); try done; try lia.
    + intros k z Hk Hz. destruct (decide (k = i)) as [->|]; [assert (z = x) as -> by congruence; done|]. apply (Hla k); [lia|done].
    + exists st, l'. split_and!; (done || lia).
Qed.

Lemma Partition_spec left right piv l :
  0 <= left -> left <= piv <= right -> right < Z.of_nat (length l) ->
  exists s p l', Partition left right piv l = Ok (s, l') /\ left <= s <= right /\ rearranged left right l l' /\
    at_ l' s = Some p /\ seg (small p) l' left s /\ seg (large p) l' (s + 1) (right + 1).
Proof.
  intros Hl Hpiv Hr. destruct (at_some l piv) as [p Hp]; [lia|]. destruct (at_some l right) as [r Hr']; [lia|].
  unfold Partition. rewrite (get_at _ _ _ Hp). unfold mbind, result_bind.
  destruct (Swap_spec left right piv right l p r ltac:(lia) ltac:(lia) Hp Hr') as (l1 & -> & Hre1 & Hat1).
  destruct (Partition_loop_spec (Z.to_nat (right - left)) left left p l1 left right) as (s & l2 & -> & Hs & Hre2 & Hsm & Hla); try lia.
  { rewrite (re_length _ _ _ _ Hre1). lia. } { intros k x Hk. lia. } { intros k x Hk. lia. }
  assert (Hpr : at_ l2 right = Some p) by (rewrite (re_outside _ _ _ _ Hre2) by lia; rewrite Hat1, decide_True; done).
  assert (Hlen2 : length l2 = length l) by (rewrite (re_length _ _ _ _ Hre2); apply (re_length _ _ _ _ Hre1)).
  destruct (at_some l2 s) as [q Hq]; [lia|].
  destruct (Swap_spec left right right s l2 p q ltac:(lia) ltac:(lia) Hpr Hq) as (l3 & -> & Hre3 & Hat3).
  exists s, p, l3. split_and!; try done; try lia.
  - eapply rearranged_trans; [exact Hre1|]. eapply rearranged_trans; [|exact Hre3]. apply (rearranged_weaken left (right - 1)); [lia..|done].
  - by rewrite Hat3, decide_True.
  - intros k x Hk. rewrite Hat3, !decide_False by lia. apply Hsm. lia.
  - intros k x Hk. rewrite Hat3, decide_False by lia. destruct (decide (k = right)) as [->|].
    + intros [= <-]. apply (Hla s); [lia|done].
    + apply Hla. lia.
Qed.

(** ** Sorting *)

Definition sorted l (a b : Z) : Prop :=
  forall i j x y, a <= i -> i < j -> j <= b -> at_ l i = Some x -> at_ l j = Some y -> comp x y <= 0.

Hypothesis comp_total : forall x y, 0 < comp x y -> comp y x <= 0.
Hypothesis comp_trans : forall x y z, comp x y <= 0 -> comp y z <= 0 -> comp x z <= 0.

Lemma seg_rearranged P a b l l' : rearranged a b l l' -> seg P l a (b + 1) -> seg P l' a (b + 1).
Proof.
  intros Hre Hs k x Hk Hx. destruct (re_inside _ _ _ _ Hre k x ltac:(lia) Hx) as (k' & Hk' & Hx'). apply (Hs k'); [lia|done].
Qed.

Lemma Sort_spec fuel left right l :
  0 <= left -> right < Z.of_nat (length l) -> right - left < Z.of_nat fuel ->
  (0 < fuel)%nat -> exists l', Sort fuel left right l = Ok l' /\ rearranged left right l l' /\ sorted l' left right.
Proof using comp_total comp_trans.
  revert left right l. induction fuel as [|fuel IH]; intros left right l Hl Hr Hf Hf0; [lia|]. cbn [Sort].
  destruct (Z.ltb_spec left right) as [Hlt|Hge].
  2:{ exists l. split_and!; [done|apply rearranged_refl|]. intros i j x y. lia. }
  assert (Hpiv : left <= (left + right) ÷ 2 <= right) by (Z.to_euclidean_division_equations; lia).
  destruct (Partition_spec left right _ l Hl Hpiv Hr) as (s & p & l1 & -> & Hs & Hre1 & Hp & Hsm & Hla).
  unfold mbind, result_bind. pose proof (re_length _ _ _ _ Hre1) as Hlen1.
  destruct (IH left (s - 1) l1) as (l2 & -> & Hre2 & Hso2); try lia.
  pose proof (re_length _ _ _ _ Hre2) as Hlen2.
  destruct (IH (s + 1) right l2) as (l3 & -> & Hre3 & Hso3); try lia.
  exists l3. split_and!; [done| |].
  - eapply rearranged_trans; [exact Hre1|]. eapply rearranged_trans;
      [apply (rearranged_weaken left (s - 1) left right); [lia..|exact Hre2]|apply (rearranged_weaken (s + 1) right left right); [lia..|exact Hre3]].
  - assert (Hsm3 : forall k x, left <= k < s -> at_ l3 k = Some x -> comp x p <= 0).
    { intros k x Hk. rewrite (re_outside _ _ _ _ Hre3) by lia. replace s with (s - 1 + 1) in Hsm by lia.
      intros Hx. apply (seg_rearranged _ _ _ _ _ Hre2 Hsm k x); [lia|done]. }
    assert (Hp3 : at_ l3 s = Some p).
    { rewrite (re_outside _ _ _ _ Hre3), (re_outside _ _ _ _ Hre2) by lia. done. }
    assert (Hla3 : forall k x, s < k <= right -> at_ l3 k = Some x -> comp p x <= 0).
    { intros k x Hk Hx. apply comp_total. destruct (re_inside _ _ _ _ Hre3 k x ltac:(lia) Hx) as (k' & Hk' & Hx').
      rewrite (re_outside _ _ _ _ Hre2) in Hx' by lia. apply (Hla k'); [lia|done]. }
    intros i j x y Hi Hij Hj Hx Hy. destruct (decide (j < s)), (decide (s < i)).
    + lia.
    + rewrite (re_outside _ _ _ _ Hre3) in Hx, Hy by lia. eapply (Hso2 i j); [lia..|done|done].
    + eapply (Hso3 i j); [lia..|done|done].
    + destruct (decide (i = s)) as [->|]; [assert (x = p) as -> by congruence|].
      * apply (Hla3 j); [lia|done].
      * assert (Hxp : comp x p <= 0) by (apply (Hsm3 i); [lia|done]). destruct (decide (j = s)) as [->|].
        { by assert (y = p) as -> by congruence. }
        { apply (comp_trans x p y Hxp), (Hla3 j); [lia|done]. }
Qed.

End quicksort.
