(* ===== verification/TXMemStore.v ===== *)
(** * The multi-version store (db/txmemstore_template.h)

    [TXMemStore] keeps every version of every key in an ordered table, newest
    version first.  The table is an interface: what [Insert] and the [Seek] of an
    iterator promise. *)

From Stdlib Require Import Sorted.
From S2P Require Import Prelude.

(** ** Ordered tables *)

(** [Insert] and the key at which an iterator stands after [Seek]. *)
Class OrdTable (E T : Type) := {
  Table_Insert : E -> T -> T;
  Table_Seek : E -> T -> option E
}.

Class OrdTableLaws (E T : Type) (compare : E -> E -> Z) `{OrdTable E T} := {
  ot_wf : T -> Prop;
  ot_in : E -> T -> Prop;
  ot_insert_wf e t : ot_wf t -> ot_wf (Table_Insert e t);
  ot_insert e t x : ot_wf t ->
    ot_in x (Table_Insert e t) <-> ot_in x t \/ (x = e /\ forall y, ot_in y t -> compare y e <> 0);
  ot_unique t x y : ot_wf t -> ot_in x t -> ot_in y t -> compare x y = 0 -> x = y;
  ot_seek t e : ot_wf t ->
    match Table_Seek e t with
    | Some x => ot_in x t /\ 0 <= compare x e /\ forall y, ot_in y t -> 0 <= compare y e -> compare x y <= 0
    | None => forall y, ot_in y t -> compare y e < 0
    end
}.

(** A sorted list is such a table. *)
Section sorted_list.
Context {E : Type} (compare : E -> E -> Z).

Fixpoint sl_insert (e : E) (l : list E) : list E :=
  match l with
  | [] => [e]
  | x :: l' => if compare x e <? 0 then x :: sl_insert e l' else if compare x e =? 0 then l else e :: l
  end.

Fixpoint sl_seek (e : E) (l : list E) : option E :=
  match l with
  | [] => None
  | x :: l => if compare x e <? 0 then sl_seek e l else Some x
  end.

Definition sorted_list_table : OrdTable E (list E) := {| Table_Insert := sl_insert; Table_Seek := sl_seek |}.

Class CompareOrder : Prop := {
  co_refl x : compare x x = 0;
  co_sym x y : compare x y < 0 <-> 0 < compare y x;
  co_trans x y z : compare x y < 0 -> compare y z <= 0 -> compare x z < 0
}.

Context `{!CompareOrder}.

Lemma sl_insert_in e l x :
  StronglySorted (fun a b => compare a b < 0) l ->
  x ∈ sl_insert e l <-> x ∈ l \/ (x = e /\ forall y, y ∈ l -> compare y e <> 0).
Proof.
  induction 1 as [|z l Hs IH Hz]; cbn [sl_insert]; [set_solver|]. rewrite Forall_forall in Hz.
  destruct (Z.ltb_spec (compare z e) 0) as [Hlt|Hge]; [|destruct (Z.eqb_spec (compare z e) 0) as [Heq|Hne]].
  - rewrite !elem_of_cons, IH. split.
    + intros [->|[Hx|[-> Hno]]]; [by left; left|by left; right|right]. split; [done|]. intros y [->|Hy]%elem_of_cons; [lia|by apply Hno].
    + intros [[->|Hx]|[-> Hno]]; [by left|by right; left|right; right]. split; [done|]. intros y Hy. apply Hno. set_solver.
  - split; [by left|]. intros [|[-> Hno]]; [done|]. exfalso. apply (Hno z); [set_solver|done].
  - rewrite elem_of_cons. split; intros [Hx|Hx].
    + right. split; [done|]. intros y [->|Hy]%elem_of_cons; [done|]. intros E0.
      pose proof (co_trans z y e (Hz y Hy) ltac:(lia)). lia.
    + by left.
    + by right.
    + by left; destruct Hx.
Qed.

Lemma sl_insert_sorted e l :
  StronglySorted (fun a b => compare a b < 0) l -> StronglySorted (fun a b => compare a b < 0) (sl_insert e l).
Proof.
  induction 1 as [|z l Hs IH Hz]; cbn [sl_insert]; [by repeat constructor|].
  destruct (Z.ltb_spec (compare z e) 0) as [Hlt|Hge]; [|destruct (Z.eqb_spec (compare z e) 0) as [Heq|Hne]].
  - constructor; [done|]. rewrite Forall_forall in Hz. apply Forall_forall. intros x [Hx|[-> _]]%(sl_insert_in e l x Hs); [by apply Hz|done].
  - by constructor.
  - assert (He : compare e z < 0) by (apply co_sym; lia). constructor; [by constructor|]. constructor; [done|].
    eapply Forall_impl; [exact Hz|]. intros y Hy. cbn in Hy. eapply co_trans; [exact He|lia].
Qed.

Lemma sl_unique l x y : StronglySorted (fun a b => compare a b < 0) l -> x ∈ l -> y ∈ l -> compare x y = 0 -> x = y.
Proof.
  induction 1 as [|z l Hs IH Hz]; [set_solver|]. rewrite Forall_forall in Hz.
  intros [->|Hx]%elem_of_cons [->|Hy]%elem_of_cons E0; [done| | |by apply IH].
  - specialize (Hz y Hy). lia.
  - specialize (Hz x Hx). apply co_sym in Hz. lia.
Qed.

Lemma sl_seek_spec l e :
  StronglySorted (fun a b => compare a b < 0) l ->
  match sl_seek e l with
  | Some x => x ∈ l /\ 0 <= compare x e /\ forall y, y ∈ l -> 0 <= compare y e -> compare x y <= 0
  | None => forall y, y ∈ l -> compare y e < 0
  end.
Proof.
  induction 1 as [|z l Hs IH Hz]; cbn [sl_seek]; [set_solver|]. rewrite Forall_forall in Hz.
  destruct (Z.ltb_spec (compare z e) 0) as [Hlt|Hge].
  - destruct (sl_seek e l) as [x|].
    + destruct IH as (Hx & Hge & Hmin). split_and!; [set_solver|done|]. intros y [->|Hy]%elem_of_cons Hy'; [lia|by apply Hmin].
    + intros y [->|Hy]%elem_of_cons; [done|by apply IH].
  - split_and!; [set_solver|done|]. intros y [->|Hy]%elem_of_cons _; [by rewrite co_refl|]. specialize (Hz y Hy). lia.
Qed.

(** Insertion and search at a known place. *)
Lemma sl_insert_split e xs ys :
  Forall (fun x => compare x e < 0) xs -> match ys with [] => True | y :: _ => 0 < compare y e end ->
  sl_insert e (xs ++ ys) = xs ++ e :: ys.
Proof.
  intros Hxs Hys. induction Hxs as [|x xs Hx _ IH]; cbn.
  - destruct ys as [|y ys]; [done|]. cbn. by rewrite (proj2 (Z.ltb_ge _ _)), (proj2 (Z.eqb_neq _ _)) by lia.
  - by rewrite (proj2 (Z.ltb_lt _ _) Hx), IH.
Qed.

Lemma sl_insert_present e xs y ys :
  Forall (fun x => compare x e < 0) xs -> compare y e = 0 -> sl_insert e (xs ++ y :: ys) = xs ++ y :: ys.
Proof.
  intros Hxs Hy. induction Hxs as [|x xs Hx _ IH]; cbn.
  - by rewrite Hy.
  - by rewrite (proj2 (Z.ltb_lt _ _) Hx), IH.
Qed.

Lemma sl_seek_split e xs ys :
  Forall (fun x => compare x e < 0) xs -> match ys with [] => True | y :: _ => 0 <= compare y e end ->
  sl_seek e (xs ++ ys) = head ys.
Proof.
  intros Hxs Hys. induction Hxs as [|x xs Hx _ IH]; cbn.
  - destruct ys as [|y ys]; [done|]. cbn. by rewrite (proj2 (Z.ltb_ge _ _)) by lia.
  - by rewrite (proj2 (Z.ltb_lt _ _) Hx).
Qed.

Definition sorted_list_laws : OrdTableLaws E (list E) compare (H := sorted_list_table).
Proof.
  refine {| ot_wf := StronglySorted (fun a b => compare a b < 0); ot_in x l := x ∈ l |}.
  - intros e t. apply sl_insert_sorted.
  - intros e t x. apply sl_insert_in.
  - intros t x y. apply sl_unique.
  - intros t e. apply sl_seek_spec.
Defined.

End sorted_list.

(** ** TXMemStore *)

Section txmemstore.
Context {K : Type} (user_comparator_ : K -> K -> Z).

Record TableKey := mkTableKey { tk_k : K; tk_v : addr; tk_seq : Z }.

Definition Compare (a b : TableKey) : Z :=
  let r := user_comparator_ (tk_k a) (tk_k b) in
  if r =? 0 then
    if tk_seq b <? tk_seq a then -1 else if tk_seq a <? tk_seq b then 1 else 0
  else r.

Context {T : Type} `{OrdTable TableKey T}.

Definition Put (k : K) (val : addr) (seq : Z) (table_ : T) : T := Table_Insert (mkTableKey k val seq) table_.

(** [None] is [NotFound]. *)
Definition Get (k : K) (seq : Z) (table_ : T) : option addr :=
  match Table_Seek (mkTableKey k NULL seq) table_ with
  | Some res => if user_comparator_ k (tk_k res) =? 0 then if negb (seq =? tk_seq res) then None else Some (tk_v res) else None
  | None => None
  end.

Definition GetMaxSeq (k : K) (table_ : T) : option Z :=
  match Table_Seek (mkTableKey k NULL (u64 (-1))) table_ with
  | Some res => if user_comparator_ k (tk_k res) =? 0 then Some (tk_seq res) else None
  | None => None
  end.

(** ** Laws *)

Hypothesis cmp_eq : forall a b, user_comparator_ a b = 0 <-> a = b.
Context `{!OrdTableLaws TableKey T Compare}.

Lemma Compare_same k v v' s s' : Compare (mkTableKey k v s) (mkTableKey k v' s') = if s' <? s then -1 else if s <? s' then 1 else 0.
Proof using cmp_eq. unfold Compare. cbn. by rewrite (proj2 (cmp_eq k k) eq_refl). Qed.

Lemma Compare_eq a b : Compare a b = 0 <-> tk_k a = tk_k b /\ tk_seq a = tk_seq b.
Proof using cmp_eq.
  destruct a as [k v s], b as [k' v' s']. cbn [tk_k tk_seq]. split.
  - unfold Compare. cbn. destruct (Z.eqb_spec (user_comparator_ k k') 0) as [E|E]; [|done]. apply cmp_eq in E as ->.
    destruct (Z.ltb_spec s' s); [done|]. destruct (Z.ltb_spec s s'); [done|]. intros _. split; [done|lia].
  - intros [-> ->]. rewrite Compare_same, Z.ltb_irrefl. done.
Qed.

(** There is one value per key and version. *)
Lemma version_unique t k v v' s : ot_wf t -> ot_in (mkTableKey k v s) t -> ot_in (mkTableKey k v' s) t -> v = v'.
Proof using cmp_eq.
  intros Hwf Hv Hv'. assert (E : mkTableKey k v s = mkTableKey k v' s); [|by injection E].
  eapply (ot_unique t); [done..|]. by apply Compare_eq.
Qed.

Lemma Get_iff t k s v : ot_wf t -> Get k s t = Some v <-> ot_in (mkTableKey k v s) t.
Proof using cmp_eq.
  intros Hwf. unfold Get. pose proof (ot_seek t (mkTableKey k NULL s) Hwf) as Hs.
  destruct (Table_Seek (mkTableKey k NULL s) t) as [[k' v' s']|]; cbn [tk_k tk_v tk_seq].
  - destruct Hs as (Hin & Hge & Hmin). split.
    + destruct (Z.eqb_spec (user_comparator_ k k') 0) as [E|]; [|done]. apply cmp_eq in E as <-.
      destruct (Z.eqb_spec s s') as [<-|]; [|done]. by intros [= <-].
    + intros Hv. assert (Hle : Compare (mkTableKey k' v' s') (mkTableKey k v s) <= 0).
      { apply Hmin; [done|]. rewrite Compare_same, Z.ltb_irrefl. done. }
      assert (Hge' : 0 <= Compare (mkTableKey k' v' s') (mkTableKey k v s)) by exact Hge.
      assert (E : Compare (mkTableKey k' v' s') (mkTableKey k v s) = 0) by lia.
      apply Compare_eq in E as [Ek Es]. cbn in Ek, Es. subst k' s'.
      rewrite (proj2 (cmp_eq k k) eq_refl), !Z.eqb_refl. cbn. f_equal. by eapply version_unique.
  - split; [done|]. intros Hv. specialize (Hs _ Hv). rewrite Compare_same, Z.ltb_irrefl in Hs. lia.
Qed.

Lemma Put_in t k v s k' v' s' : ot_wf t ->
  ot_in (mkTableKey k' v' s') (Put k v s t) <->
  ot_in (mkTableKey k' v' s') t \/ (k' = k /\ v' = v /\ s' = s /\ forall w, ~ ot_in (mkTableKey k w s) t).
Proof using cmp_eq.
  intros Hwf. unfold Put. rewrite ot_insert by done. split; (intros [Hin|Hn]; [by left|right]).
  - destruct Hn as [[= -> -> ->] Hno]. split_and!; [done..|]. intros w Hw. apply (Hno _ Hw). by apply Compare_eq.
  - destruct Hn as (-> & -> & -> & Hno). split; [done|]. intros [k' v' s'] Hy [Ek Es]%Compare_eq. cbn in Ek, Es. subst. by apply (Hno v').
Qed.

Lemma Put_wf t k v s : ot_wf t -> ot_wf (Put k v s t).
Proof. apply ot_insert_wf. Qed.

(** What the store promises: [Get] after [Put] returns the value that the
    version was first written with, other versions are not touched, and
    [GetMaxSeq] is the newest version. *)
Theorem txmemstore_versions t k v s :
  ot_wf t ->
  Get k s (Put k v s t) = Some (default v (Get k s t)) /\
  (forall k' s', (k', s') <> (k, s) -> Get k' s' (Put k v s t) = Get k' s' t) /\
  match GetMaxSeq k t with
  | Some m => is_Some (Get k m t) /\ forall s', s' <= u64 (-1) -> is_Some (Get k s' t) -> s' <= m
  | None => forall s', s' <= u64 (-1) -> Get k s' t = None
  end.
Proof using cmp_eq.
  intros Hwf. pose proof (Put_wf t k v s Hwf) as Hwf'. split_and!.
  - apply Get_iff; [done|]. apply Put_in; [done|]. destruct (Get k s t) as [w|] eqn:E; cbn.
    + left. by apply Get_iff.
    + right. split_and!; [done..|]. intros w Hw. apply (Get_iff t) in Hw; [congruence|done].
  - intros k' s' Hne. destruct (Get k' s' t) as [w|] eqn:E.
    + apply Get_iff; [done|]. apply Put_in; [done|]. left. by apply Get_iff.
    + destruct (Get k' s' (Put k v s t)) as [w|] eqn:E'; [|done]. apply Get_iff in E'; [|done]. apply Put_in in E'; [|done].
      destruct E' as [Hin|(-> & _ & -> & _)]; [apply Get_iff in Hin; [congruence|done]|done].
  - unfold GetMaxSeq. pose proof (ot_seek t (mkTableKey k NULL (u64 (-1))) Hwf) as Hs.
    destruct (Table_Seek _ t) as [[k' v' m]|]; cbn [tk_k tk_seq].
    + destruct Hs as (Hin & Hge & Hmin). assert (Hle : forall s' w, s' <= u64 (-1) -> Get k s' t = Some w ->
        Compare (mkTableKey k' v' m) (mkTableKey k w s') <= 0).
      { intros s' w Hs' Hw. apply Hmin; [by apply Get_iff|]. rewrite Compare_same. rewrite (proj2 (Z.ltb_ge _ _)) by lia. by destruct (_ <? _). }
      destruct (Z.eqb_spec (user_comparator_ k k') 0) as [E|E].
      * apply cmp_eq in E as <-. split; [exists v'; by apply Get_iff|]. intros s' Hs' [w Hw]. specialize (Hle s' w Hs' Hw).
        rewrite Compare_same in Hle. destruct (Z.ltb_spec s' m); [lia|]. destruct (Z.ltb_spec m s'); lia.
      * intros s' Hs'. destruct (Get k s' t) as [w|] eqn:Hw; [|done]. exfalso. specialize (Hle s' w Hs' Hw).
        unfold Compare in Hge, Hle. cbn in Hge, Hle. assert (Hne : user_comparator_ k' k <> 0) by (rewrite cmp_eq; rewrite cmp_eq in E; congruence).
        rewrite (proj2 (Z.eqb_neq _ _) Hne) in Hge, Hle. lia.
    + intros s' Hs'. destruct (Get k s' t) as [w|] eqn:Hw; [|done]. apply Get_iff in Hw; [|done]. specialize (Hs _ Hw).
      rewrite Compare_same in Hs. rewrite (proj2 (Z.ltb_ge _ _)) in Hs by lia. destruct (_ <? _) in Hs; lia.
Qed.

End txmemstore.

Arguments TableKey : clear implicits.
Arguments mkTableKey {K}.
Arguments tk_k {K}.
Arguments tk_v {K}.
Arguments tk_seq {K}.

(** ** Examples *)

#[export] Instance Z_Compare_order : CompareOrder (Compare (K := Z) Z.sub).
Proof.
  split; [intros [k v s]|intros [k v s] [k' v' s']|intros [k v s] [k' v' s'] [k'' v'' s'']]; unfold Compare; cbn.
  - by rewrite Z.sub_diag, Z.eqb_refl, Z.ltb_irrefl.
  - destruct (Z.eqb_spec (k - k') 0), (Z.eqb_spec (k' - k) 0), (Z.ltb_spec s' s), (Z.ltb_spec s s'); lia.
  - destruct (Z.eqb_spec (k - k') 0), (Z.eqb_spec (k' - k'') 0), (Z.eqb_spec (k - k'') 0),
      (Z.ltb_spec s' s), (Z.ltb_spec s s'), (Z.ltb_spec s'' s'), (Z.ltb_spec s' s''), (Z.ltb_spec s'' s), (Z.ltb_spec s s''); lia.
Qed.

#[export] Instance Z_store : OrdTable (TableKey Z) (list (TableKey Z)) := sorted_list_table (Compare Z.sub).

#[export] Instance Z_store_laws : OrdTableLaws (TableKey Z) (list (TableKey Z)) (Compare Z.sub) := sorted_list_laws _.

Definition w_store : list (TableKey Z) := Put 5 100 1 (Put 5 101 2 (Put 3 90 1 [])).

Lemma w_store_wf : ot_wf w_store.
Proof. repeat apply Put_wf. constructor. Qed.

Lemma txmemstore_versions_witness :
  Get Z.sub 5 3 (Put 5 102 3 w_store) = Some 102 /\ Get Z.sub 5 1 (Put 5 102 3 w_store) = Some 100.
Proof.
  destruct (txmemstore_versions (K := Z) Z.sub ltac:(intros; lia) w_store 5 102 3 w_store_wf) as (H1 & H2 & _).
  split; [exact H1|]. exact (H2 5 1 ltac:(discriminate)).
Defined.
