(* ===== verification/Random.v ===== *)
(** * Random numbers (util/random.h)

    The generator behind the random heights of the skip lists, and the loop that
    draws a height. *)

From S2P Require Import Prelude.

(** ** The generator *)

Definition Random_M : Z := 2147483647.
Definition Random_A : Z := 16807.

Definition Random_new (s : Z) : Z := Z.land s 0x7fffffff.

(** [Random::Next]: the number returned is the new seed. *)
Definition Random_Next (seed_ : Z) : Z :=
  let product := u64 (seed_ * Random_A) in
  let seed_ := u32 (Z.shiftr product 31 + Z.land product Random_M) in
  if Random_M <? seed_ then u32 (seed_ - Random_M) else seed_.

(** [Random::Uniform] and [Random::OneIn]. *)
Definition Random_Uniform (n seed_ : Z) : Z * Z := (Random_Next seed_ mod n, Random_Next seed_).

Definition Random_OneIn (n seed_ : Z) : bool * Z :=
  (Random_Next seed_ mod n =? 0, Random_Next seed_).

(** [Random::Skewed] *)
Definition Random_Skewed (max_log seed_ : Z) : Z * Z :=
  let '(base, seed_) := Random_Uniform (max_log + 1) seed_ in
  Random_Uniform (Z.shiftl 1 base) seed_.

(** ** Random heights

    The loop of [RandomHeight] in both skip lists; [n] bounds it by
    [kMaxHeight - height]. *)
Fixpoint RandomHeight_loop (n : nat) (height : nat) (rnd_ : Z) : nat * Z :=
  match n with
  | O => (height, rnd_)
  | S n => let r := Random_Next rnd_ in
      if r mod 4 =? 0 then RandomHeight_loop n (S height) r else (height, r)
  end.

(** ** Lemmas on Random *)

Lemma Random_product_not_0 seed_ : 0 < seed_ < Random_M -> (seed_ * Random_A) mod Random_M <> 0.
Proof.
  intros Hs E. apply Z.mod_divide in E; [|done]. rewrite Z.mul_comm in E.
  apply Z.gauss in E; [|vm_compute; reflexivity]. apply Z.divide_pos_le in E; lia.
Qed.

(** [Random::Next] multiplies by [A] modulo [M] without a division: the sum of
    the high and the low 31 bits is congruent to the product, and one
    subtraction brings it into range; the seed never becomes 0 or [M]. *)
Lemma Random_Next_spec seed_ : 0 < seed_ < Random_M ->
  Random_Next seed_ = (seed_ * Random_A) mod Random_M /\ 0 < Random_Next seed_ < Random_M.
Proof.
  intros Hs. pose proof (Random_product_not_0 seed_ Hs) as Hnz.
  unfold Random_Next. set (p := seed_ * Random_A) in *.
  assert (0 <= p < 2 ^ 46) as Hp by (unfold p, Random_A, Random_M in *; lia).
  rewrite (u64_small p) by lia.
  replace (Z.land p Random_M) with (p mod 2 ^ 31) by (symmetry; apply (Z.land_ones p 31); lia).
  rewrite Z.shiftr_div_pow2 by lia.
  pose proof (Z.div_mod p (2 ^ 31) ltac:(lia)) as Hdm. pose proof (Z.mod_pos_bound p (2 ^ 31) ltac:(lia)) as Hlow.
  set (q := p / 2 ^ 31 + p mod 2 ^ 31).
  assert (0 <= p / 2 ^ 31 < 2 ^ 15) as Hhigh.
  { split; [apply Z.div_pos; lia|]. apply Z.div_lt_upper_bound; lia. }
  assert (p mod Random_M = q mod Random_M) as Hmod.
  { replace p with (q + p / 2 ^ 31 * Random_M) at 1 by (unfold q, Random_M; lia). apply Z.mod_add. done. }
  assert (q <> 0 /\ q <> Random_M) as [Hq0 HqM].
  { split; intros E; apply Hnz; rewrite Hmod, E; done. }
  assert (0 <= q < 2 * Random_M) as Hq by (unfold q, Random_M; lia).
  assert (u32 q = q) as -> by (apply Z.mod_small; unfold Random_M in Hq; lia).
  rewrite Hmod. destruct (Z.ltb_spec Random_M q) as [Hlt|Hge].
  - assert (u32 (q - Random_M) = q - Random_M) as -> by (apply Z.mod_small; unfold Random_M in *; lia).
    split; [|lia]. apply Z.mod_unique with 1; lia.
  - split; [|lia]. symmetry. apply Z.mod_small. lia.
Qed.

Lemma RandomHeight_loop_range n height rnd :
  (height <= (RandomHeight_loop n height rnd).1 <= height + n)%nat.
Proof.
  revert height rnd. induction n as [|n IH]; intros height rnd; cbn; [lia|].
  destruct (Random_Next rnd mod 4 =? 0); [|cbn; lia].
  specialize (IH (S height) (Random_Next rnd)). lia.
Qed.
