(* ===== verification/LFSkipList.v ===== *)
(** * LockfreeSkipList (db/lockfreeSkiplist.h)

    The table under the multi-version store: a skip list without locks, whose
    [Insert] links a node level by level with compare-and-swap.  [Insert] and
    [Seek] are state machines whose steps are their accesses to shared memory;
    the runs interleave them.  [LFSkipListInv] and [LFSkipListSpec] hold the
    proofs.  [FineGrainLockInsert] is in [SkipListSeq]. *)

From S2P Require Import Prelude Random.

Section lfskiplist.
Context {E : Type} (compare_ : E -> E -> Z).

(** ** Nodes *)

Definition kMaxHeight : nat := 12.

(** [next_] has [height] elements. *)
Record Node := mkNode { nd_key : E; nd_height : nat; nd_next : list addr }.

Abbreviation heap := (gmap Z Node) (only parsing).

Record skiplist := mkSkipList { sl_heap : heap; head_ : addr; max_height_ : nat }.
Implicit Types (h : heap) (s : skiplist).

Definition set_heap h s : skiplist := mkSkipList h (head_ s) (max_height_ s).

Definition node h (a : addr) : result Node := from_opt NullDeref (h !! a).

(** [a->Next(i)] *)
Definition Next h (a : addr) (i : nat) : result addr :=
  n ← node h a; from_opt OutOfBounds (nd_next n !! i).

(** [a->SetNext(i, x)] *)
Definition SetNext h (a : addr) (i : nat) (x : addr) : result heap :=
  n ← node h a;
  if (i <? length (nd_next n))%nat then
    Ok (<[a := mkNode (nd_key n) (nd_height n) (<[i := x]> (nd_next n))]> h)
  else Fault OutOfBounds.

(** The links of a new node are what was in memory, [junk]. *)
Definition NewNode (key : E) (height : nat) (junk : nat -> addr) : Node :=
  mkNode key height (map junk (seq 0 height)).

(** The constructor; the key of the head is never initialised. *)
Definition LockfreeSkipList_new (a : addr) (junk_key : E) (junk_height : nat) : skiplist :=
  mkSkipList {[a := mkNode junk_key junk_height (replicate kMaxHeight NULL)]} a 1.

(** [key > n->key], where [NULL] is infinite. *)
Definition KeyIsAfterNode h (key : E) (n : addr) : result bool :=
  if n =? NULL then Ok false else n ← node h n; Ok (compare_ (nd_key n) key <? 0).

Definition Equal (a b : E) : bool := compare_ a b =? 0.

Definition RandomHeight (rnd_ : Z) : nat * Z := RandomHeight_loop (kMaxHeight - 1) 1 rnd_.

(** ** Searches of one thread *)

Fixpoint FindGreaterOrEqual_loop (fuel : nat) h (key : E) (x : addr) (level : nat) : result addr :=
  match fuel with
  | O => Fault OutOfFuel
  | S fuel =>
      next ← Next h x level;
      after ← KeyIsAfterNode h key next;
      if (after : bool) then FindGreaterOrEqual_loop fuel h key next level
      else match level with O => Ok next | S level => FindGreaterOrEqual_loop fuel h key x level end
  end.

Fixpoint FindLessThan_loop (fuel : nat) h (key : E) (x : addr) (level : nat) : result addr :=
  match fuel with
  | O => Fault OutOfFuel
  | S fuel =>
      next ← Next h x level;
      stop ← (if next =? NULL then Ok true else n ← node h next; Ok (0 <=? compare_ (nd_key n) key));
      if (stop : bool) then match level with O => Ok x | S level => FindLessThan_loop fuel h key x level end
      else FindLessThan_loop fuel h key next level
  end.

Fixpoint FindLast_loop (fuel : nat) h (x : addr) (level : nat) : result addr :=
  match fuel with
  | O => Fault OutOfFuel
  | S fuel =>
      next ← Next h x level;
      if next =? NULL then match level with O => Ok x | S level => FindLast_loop fuel h x level end
      else FindLast_loop fuel h next level
  end.

Definition search_fuel s : nat := (size (sl_heap s) + max_height_ s)%nat.

Definition FindGreaterOrEqual s (key : E) : result addr :=
  FindGreaterOrEqual_loop (search_fuel s) (sl_heap s) key (head_ s) (max_height_ s - 1).

Definition FindLessThan s (key : E) : result addr :=
  FindLessThan_loop (search_fuel s) (sl_heap s) key (head_ s) (max_height_ s - 1).

Definition FindLast s : result addr := FindLast_loop (search_fuel s) (sl_heap s) (head_ s) (max_height_ s - 1).

Definition Contains s (key : E) : result bool :=
  x ← FindGreaterOrEqual s key;
  if x =? NULL then Ok false else n ← node (sl_heap s) x; Ok (Equal key (nd_key n)).

(** ** Iterator: the node it stands at *)

Definition Iter_Seek s (target : E) : result addr := FindGreaterOrEqual s target.
Definition Iter_SeekToFirst s : result addr := Next (sl_heap s) (head_ s) 0.
Definition Iter_Next s (node_ : addr) : result addr := Next (sl_heap s) node_ 0.

Definition Iter_Prev s (node_ : addr) : result addr :=
  n ← node (sl_heap s) node_;
  x ← FindLessThan s (nd_key n);
  Ok (if x =? head_ s then NULL else x).

Definition Iter_SeekToLast s : result addr :=
  x ← FindLast s;
  Ok (if x =? head_ s then NULL else x).

(** ** Insert and Seek, access by access *)

(** The local variables of [Insert]; [None] in [preds] is not initialised. *)
Record locals := mkLocals { lo_key : E; lo_height : nat; lo_preds : list (option addr) }.

Definition set_preds (p : list (option addr)) (l : locals) : locals := mkLocals (lo_key l) (lo_height l) p.

Inductive call :=
  | CInsert (key : E)
  | CSeek (key : E).

(** Where a thread is.  [ITest], [IFill] and [IStore] adapt [max_height_];
    [IFind] is the search; [INew] allocates; [IScan], [ISet] and [ICas] link
    level [i]; [SStart] and [SFind] belong to [Seek]. *)
Inductive phase :=
  | Idle
  | ITest (l : locals)
  | IFill (l : locals)
  | IStore (l : locals)
  | IStart (l : locals)
  | IFind (l : locals) (level : nat) (x : addr)
  | INew (l : locals)
  | IScan (l : locals) (x : addr) (i : nat)
  | ISet (l : locals) (x : addr) (i : nat) (succ : addr)
  | ICas (l : locals) (x : addr) (i : nat) (succ : addr)
  | IDone (key : E) (linked : bool)
  | SStart (key : E)
  | SFind (key : E) (level : nat) (x : addr)
  | SDone (key : E) (x : addr).

Record thread := mkThread { t_rnd : Z; t_phase : phase }.

(** What is chosen outside: the next call, and the memory that an allocation
    returns. *)
Record input := mkInput { in_call : call; in_addr : addr; in_junk : nat -> addr }.

(** [preds[i] = head_] for the levels [from] to [height - 1]. *)
Definition fill_preds (hd : addr) (from height : nat) (preds : list (option addr)) : list (option addr) :=
  imap (fun i p => if (from <=? i)%nat && (i <? height)%nat then Some hd else p) preds.

Definition pred_at (l : locals) (i : nat) : result addr :=
  p ← from_opt OutOfBounds (lo_preds l !! i); from_opt Undefined p.

Definition access (e : input) s (rnd : Z) (ph : phase) : result (skiplist * Z * phase) :=
  let h := sl_heap s in
  let go ph := Ok (s, rnd, ph) in
  match ph with
  | Idle | IDone _ _ | SDone _ _ =>
      match in_call e with
      | CInsert key =>
          let '(height, rnd) := RandomHeight rnd in
          Ok (s, rnd, ITest (mkLocals key height (replicate kMaxHeight None)))
      | CSeek key => go (SStart key)
      end
  | ITest l => go (if (max_height_ s <? lo_height l)%nat then IFill l else IStart l)
  | IFill l => go (IStore (set_preds (fill_preds (head_ s) (max_height_ s) (lo_height l) (lo_preds l)) l))
  | IStore l => Ok (mkSkipList h (head_ s) (lo_height l), rnd, IStart l)
  | IStart l => go (IFind l (max_height_ s - 1) (head_ s))
  | IFind l level x =>
      next ← Next h x level;
      after ← KeyIsAfterNode h (lo_key l) next;
      if (after : bool) then go (IFind l level next)
      else
        let l := set_preds (<[level := Some x]> (lo_preds l)) l in
        match level with
        | S level => go (IFind l level x)
        | O =>
            if next =? NULL then go (INew l)
            else n ← node h next; go (if Equal (lo_key l) (nd_key n) then IDone (lo_key l) false else INew l)
        end
  | INew l =>
      Ok (set_heap (<[in_addr e := NewNode (lo_key l) (lo_height l) (in_junk e)]> h) s, rnd, IScan l (in_addr e) 0)
  | IScan l x i =>
      p ← pred_at l i;
      succ ← Next h p i;
      after ← KeyIsAfterNode h (lo_key l) succ;
      if (after : bool) then go (IScan (set_preds (<[i := Some succ]> (lo_preds l)) l) x i)
      else if succ =? NULL then go (ISet l x i succ)
      else n ← node h succ; go (if Equal (lo_key l) (nd_key n) then IDone (lo_key l) false else ISet l x i succ)
  | ISet l x i succ =>
      p ← pred_at l i;
      next ← Next h p i;
      h ← SetNext h x i next;
      Ok (set_heap h s, rnd, ICas l x i succ)
  | ICas l x i succ =>
      p ← pred_at l i;
      old ← Next h p i;
      if old =? succ then
        h ← SetNext h p i x;
        Ok (set_heap h s, rnd, if (S i <? lo_height l)%nat then IScan l x (S i) else IDone (lo_key l) true)
      else go (IScan l x i)
  | SStart key => go (SFind key (max_height_ s - 1) (head_ s))
  | SFind key level x =>
      next ← Next h x level;
      after ← KeyIsAfterNode h key next;
      if (after : bool) then go (SFind key level next)
      else match level with S level => go (SFind key level x) | O => go (SDone key next) end
  end.

(** ** Runs *)

Record sys := mkSys { y_list : skiplist; y_thr : list thread }.

(** With [mono] the runs are those in which no thread lowers [max_height_]. *)
Inductive step (mono : bool) (y : sys) : sys -> Prop :=
  | step_thread j t e s' rnd' ph' :
      y_thr y !! j = Some t -> in_addr e <> NULL -> sl_heap (y_list y) !! in_addr e = None ->
      access e (y_list y) (t_rnd t) (t_phase t) = Ok (s', rnd', ph') ->
      (mono = true -> (max_height_ (y_list y) <= max_height_ s')%nat) ->
      step mono y (mkSys s' (<[j := mkThread rnd' ph']> (y_thr y))).

Definition start (a : addr) (junk_key : E) (junk_height n : nat) : sys :=
  mkSys (LockfreeSkipList_new a junk_key junk_height)
    (replicate n (mkThread (Random_new 0xdeadbeef) Idle)).

Inductive reachable (mono : bool) : sys -> Prop :=
  | reach_start a k jh n : a <> NULL -> reachable mono (start a k jh n)
  | reach_step y y' : reachable mono y -> step mono y y' -> reachable mono y'.

(** A call of a thread that is not disturbed. *)
Fixpoint run_alone (fuel : nat) (e : input) s (rnd : Z) (ph : phase) : result (skiplist * Z * phase) :=
  match ph with
  | IDone _ _ | SDone _ _ => Ok (s, rnd, ph)
  | _ =>
      match fuel with
      | O => Fault OutOfFuel
      | S fuel => '(s, rnd, ph) ← access e s rnd ph; run_alone fuel e s rnd ph
      end
  end.

End lfskiplist.
