(* ===== verification/LFSkipListInv.v ===== *)
(** * The invariant of LockfreeSkipList

    What holds in all runs of [LFSkipList]: the levels are sorted lists, each a
    part of the one below; what every thread relies on at each place; and what a
    step of one thread may change for the others. *)

From Stdlib Require Import Sorted.
From S2P Require Import Prelude Random TXMemStore LFSkipList.

Section inv.
Context {E : Type} (compare_ : E -> E -> Z) `{!CompareOrder compare_}.
Abbreviation levels := (nat -> list (addr * E)) (only parsing).
Implicit Types (h : gmap Z (Node (E := E))) (lv : levels) (l : locals (E := E)) (ph : phase (E := E)).

(** ** The levels

    [lv i] are the nodes of level [i] with their keys, in order. *)

Definition nxt h (i : nat) (a : addr) : option addr := h !! a ≫= fun n => nd_next n !! i.

Definition cmp2 (p q : addr * E) : Z := compare_ p.2 q.2.

#[export] Instance cmp2_order : CompareOrder cmp2.
Proof.
  split; unfold cmp2.
  - intros x. by apply (co_refl compare_).
  - intros x y. by apply (co_sym compare_).
  - intros x y z. by apply (co_trans compare_).
Qed.

Record list_ok h (hd : addr) lv : Prop := {
  lk_null : h !! NULL = None;
  lk_chain i : (i < kMaxHeight)%nat -> chain (nxt h i) hd (hd :: (lv i).*1) NULL;
  lk_node i a k : (a, k) ∈ lv i -> exists n, h !! a = Some n /\ nd_key n = k;
  lk_sorted i : StronglySorted (fun p q => cmp2 p q < 0) (lv i);
  lk_sub i : lv (S i) ⊆ lv i
}.

(** [x] is the head or a node of level [i], and before [k]. *)
Definition on_level lv (hd : addr) (i : nat) (x : addr) (k : E) : Prop :=
  x = hd \/ exists kx, (x, kx) ∈ lv i /\ compare_ kx k < 0.

(** ** The threads *)

Section thread.
Context (mono : bool) (h : gmap Z (Node (E := E))) (hd : addr) (max : nat) (lv : levels).

Definition preds_ok l : Prop :=
  length (lo_preds l) = kMaxHeight /\ (1 <= lo_height l <= kMaxHeight)%nat /\
  forall j p, lo_preds l !! j = Some (Some p) -> on_level lv hd j p (lo_key l).

Definition filled l (from : nat) : Prop :=
  mono = true -> forall j, (from <= j < lo_height l)%nat -> exists p, lo_preds l !! j = Some (Some p).

(** [x] is the node of the thread, linked below level [i]. *)
Definition new_node l (x : addr) (i : nat) : Prop :=
  x <> hd /\ (exists n, h !! x = Some n /\ nd_key n = lo_key l /\ length (nd_next n) = lo_height l) /\
  forall j, x ∈ (lv j).*1 <-> (j < i)%nat.

Definition succ_ok (i : nat) (k : E) (succ : addr) : Prop :=
  succ = NULL \/ exists ks, (succ, ks) ∈ lv i /\ 0 < compare_ ks k.

Definition linking l (x : addr) (i : nat) : Prop :=
  preds_ok l /\ (i < lo_height l)%nat /\ new_node l x i /\ filled l 0.

Definition phase_ok ph : Prop :=
  match ph with
  | Idle | IDone _ _ | SStart _ => True
  | SDone _ x => x = NULL \/ exists n, h !! x = Some n
  | ITest l | IFill l | IStore l => preds_ok l
  | IStart l => preds_ok l /\ (mono = true -> (lo_height l <= max)%nat)
  | IFind l level x =>
      preds_ok l /\ (level < kMaxHeight)%nat /\ on_level lv hd level x (lo_key l) /\ filled l (S level)
  | INew l => preds_ok l /\ filled l 0
  | IScan l x i => linking l x i
  | ISet l x i succ =>
      linking l x i /\ succ_ok i (lo_key l) succ /\ exists p, lo_preds l !! i = Some (Some p)
  | ICas l x i succ =>
      linking l x i /\ succ_ok i (lo_key l) succ /\
      exists p r, lo_preds l !! i = Some (Some p) /\ nxt h i x = Some r /\ (r = succ \/ nxt h i p <> Some succ)
  | SFind k level x => (level < kMaxHeight)%nat /\ on_level lv hd level x k
  end.

End thread.

(** The node a thread is linking. *)
Definition own ph : option addr :=
  match ph with IScan _ x _ | ISet _ x _ _ | ICas _ x _ _ => Some x | _ => None end.

Record inv (mono : bool) (y : sys (E := E)) lv : Prop := {
  inv_list : list_ok (sl_heap (y_list y)) (head_ (y_list y)) lv;
  inv_max : (1 <= max_height_ (y_list y) <= kMaxHeight)%nat;
  inv_thr j t : y_thr y !! j = Some t ->
    phase_ok mono (sl_heap (y_list y)) (head_ (y_list y)) (max_height_ (y_list y)) lv (t_phase t);
  inv_own i j t u x : y_thr y !! i = Some t -> y_thr y !! j = Some u ->
    own (t_phase t) = Some x -> own (t_phase u) = Some x -> i = j
}.

(** ** What one thread may change

    A step of a thread that owns [o] keeps the nodes with their keys, adds at
    most its own node to a level, writes a link of a level only to a node that
    was not on it, and otherwise only links of its own node. *)
Record evolves (hd : addr) (o : option addr) h lv h' lv' : Prop := {
  ev_null : h' !! NULL = None;
  ev_node a n : h !! a = Some n ->
    exists n', h' !! a = Some n' /\ nd_key n' = nd_key n /\ length (nd_next n') = length (nd_next n);
  ev_sub i : lv i ⊆ lv' i;
  ev_new i a : a ∈ (lv' i).*1 -> a ∈ (lv i).*1 \/ o = Some a;
  ev_next i a n : h !! a = Some n ->
    nxt h' i a = nxt h i a \/
    ((a = hd \/ a ∈ (lv i).*1) /\ exists y, nxt h' i a = Some y /\ (y ∉ (lv i).*1) /\ y <> NULL) \/
    (o = Some a /\ (a ∉ (lv i).*1) /\ a <> hd)
}.

(** ** Lemmas on the levels *)

Section facts.
Context (h : gmap Z (Node (E := E))) (hd : addr) (lv : levels).
Context (Hl : list_ok h hd lv).

Lemma lk_hd_null : hd <> NULL.
Proof using Hl. destruct (lk_chain _ _ _ Hl 0) as (_ & Hn & _); [unfold kMaxHeight; lia|done]. Qed.

Lemma lk_hd_out i : (i < kMaxHeight)%nat -> hd ∉ (lv i).*1.
Proof using Hl.
  intros Hi. pose proof (chain_NoDup _ _ _ (lk_chain _ _ _ Hl i Hi)) as Hnd. by apply NoDup_cons in Hnd as [? _].
Qed.

Lemma lf_lk_mono i j : (i <= j)%nat -> lv j ⊆ lv i.
Proof using Hl. induction 1 as [|j _ IH]; [done|]. etrans; [apply (lk_sub _ _ _ Hl)|done]. Qed.

Lemma lf_on_level_mono i j x k : (i <= j)%nat -> on_level lv hd j x k -> on_level lv hd i x k.
Proof using Hl. intros Hij [->|(kx & Hx & Hk)]; [by left|]. right. exists kx. split; [|done]. by apply (lf_lk_mono i j). Qed.

Lemma lk_fst i a : a ∈ (lv i).*1 -> exists n, h !! a = Some n /\ (a, nd_key n) ∈ lv i.
Proof using Hl.
  intros ([a' k] & -> & Hin)%list_elem_of_fmap. destruct (lk_node _ _ _ Hl i a' k Hin) as (n & Hn & <-). eauto.
Qed.

Lemma chain_first f p xs : chain f p xs NULL -> p = default NULL (head xs).
Proof. destruct xs; [done|]. by intros (-> & _). Qed.

(** A node of a level, the ones up to it, and the ones behind it. *)
Lemma link_any i x : (i < kMaxHeight)%nat -> x = hd \/ x ∈ (lv i).*1 ->
  exists xs ys, lv i = xs ++ ys /\ list.last (hd :: xs.*1) = Some x /\ nxt h i x = Some (default NULL (head ys.*1)).
Proof using Hl.
  intros Hi Hx. pose proof (lk_chain _ _ _ Hl i Hi) as Hc. destruct Hx as [->|Hx].
  - exists [], (lv i). destruct Hc as (_ & _ & n & Hn & Hc). apply chain_first in Hc as ->. done.
  - destruct (lk_fst i x Hx) as (n & _ & Hin). apply list_elem_of_split in Hin as (xs & ys & Hs).
    exists (xs ++ [(x, nd_key n)]), ys. rewrite <- app_assoc. split; [done|]. split.
    + rewrite fmap_app, app_comm_cons. cbn [fmap list_fmap]. by rewrite last_snoc.
    + rewrite Hs, fmap_app, app_comm_cons in Hc. apply chain_app in Hc as (r & _ & Hr). cbn [fmap list_fmap] in Hr.
      destruct Hr as (-> & _ & m & Hm & Hc). apply chain_first in Hc as ->. done.
Qed.

Lemma sorted_before (xs : list (addr * E)) q ys :
  StronglySorted (fun p q => cmp2 p q < 0) (xs ++ q :: ys) -> Forall (fun p => cmp2 p q < 0) xs.
Proof.
  induction xs as [|p xs IH]; [constructor|]. intros [Hs Hf]%StronglySorted_inv. constructor; [|by apply IH].
  apply Forall_app in Hf as [_ Hf]. by apply Forall_cons in Hf as [? _].
Qed.

Lemma link_spec i x k : (i < kMaxHeight)%nat -> on_level lv hd i x k ->
  exists xs ys, lv i = xs ++ ys /\ Forall (fun p => compare_ p.2 k < 0) xs /\
    list.last (hd :: xs.*1) = Some x /\ nxt h i x = Some (default NULL (head ys.*1)).
Proof using Hl CompareOrder0.
  intros Hi Hx. destruct (link_any i x Hi) as (xs & ys & Hs & Hlast & Hn).
  { destruct Hx as [->|(kx & Hx & _)]; [by left|right]. apply list_elem_of_fmap. by exists (x, kx). }
  exists xs, ys. split; [done|]. split; [|done]. destruct xs as [|[x' k'] xs _] using rev_ind; [constructor|].
  rewrite fmap_app, app_comm_cons in Hlast. cbn [fmap list_fmap fst] in Hlast. rewrite last_snoc in Hlast. injection Hlast as ->.
  assert (Hk : compare_ k' k < 0).
  { assert (Hin : (x, k') ∈ lv i) by (rewrite Hs; set_solver). destruct Hx as [->|(kx & Hx & Hk)].
    - exfalso. apply (lk_hd_out i Hi). apply list_elem_of_fmap. by exists (hd, k').
    - destruct (lk_node _ _ _ Hl i x kx Hx) as (n & Hn1 & <-), (lk_node _ _ _ Hl i x k' Hin) as (n' & Hn2 & <-). by simplify_eq. }
  pose proof (lk_sorted _ _ _ Hl i) as Hsort. rewrite Hs, <- app_assoc in Hsort. apply sorted_before in Hsort.
  apply Forall_app. split; [|by repeat constructor]. eapply Forall_impl; [exact Hsort|]. intros p Hp. cbn in Hp.
  eapply (co_trans compare_); [exact Hp|]. cbn. lia.
Qed.

Lemma nxt_Next i x b : nxt h i x = Some b -> Next h x i = Ok b.
Proof. unfold nxt, Next, node. destruct (h !! x) as [n|]; [|done]. cbn. by intros ->. Qed.

(** Reading a link and comparing the key of the next node. *)
Lemma read_spec i x k : (i < kMaxHeight)%nat -> on_level lv hd i x k ->
  exists xs ys next, lv i = xs ++ ys /\ Forall (fun p => compare_ p.2 k < 0) xs /\
    list.last (hd :: xs.*1) = Some x /\ nxt h i x = Some next /\ Next h x i = Ok next /\
    ((ys = [] /\ next = NULL /\ KeyIsAfterNode compare_ h k next = Ok false) \/
     (exists kn ys' n, ys = (next, kn) :: ys' /\ next <> NULL /\ h !! next = Some n /\ nd_key n = kn /\
        KeyIsAfterNode compare_ h k next = Ok (compare_ kn k <? 0))).
Proof using Hl CompareOrder0.
  intros Hi Hx. destruct (link_spec i x k Hi Hx) as (xs & ys & Hs & Hb & Hlast & Hn).
  exists xs, ys, (default NULL (head ys.*1)). split_and!; [done..|by apply nxt_Next|].
  destruct ys as [|[next kn] ys]; [by left|right]. change (default NULL (head ((next, kn) :: ys).*1)) with next.
  assert (Hin : (next, kn) ∈ lv i) by (rewrite Hs; set_solver).
  destruct (lk_node _ _ _ Hl i next kn Hin) as (n & Hnn & Hk). exists kn, ys, n.
  assert (Hne : next <> NULL) by (intros ->; by rewrite (lk_null _ _ _ Hl) in Hnn).
  split_and!; [done..|]. unfold KeyIsAfterNode, node. rewrite (proj2 (Z.eqb_neq _ _)) by done. by rewrite Hnn; cbn; rewrite Hk.
Qed.

End facts.

(** ** Stability under the steps of other threads *)

Section stable.
Context (mono : bool) (h : gmap Z (Node (E := E))) (hd : addr) (lv : levels) (h' : gmap Z (Node (E := E))) (lv' : levels) (o : option addr).
Context (Hev : evolves hd o h lv h' lv').

Lemma lf_on_level_stable i x k : on_level lv hd i x k -> on_level lv' hd i x k.
Proof using Hev. intros [->|(kx & Hx & Hk)]; [by left|right]. exists kx. split; [|done]. by apply (ev_sub _ _ _ _ _ _ Hev). Qed.

Lemma preds_ok_stable l : preds_ok hd lv l -> preds_ok hd lv' l.
Proof using Hev. intros (Hlen & Hh & Hp). split; [done|]. split; [done|]. intros j p Hj. apply lf_on_level_stable. by apply Hp. Qed.

Lemma succ_ok_stable i k succ : succ_ok lv i k succ -> succ_ok lv' i k succ.
Proof using Hev. intros [->|(ks & Hs & Hk)]; [by left|right]. exists ks. split; [|done]. by apply (ev_sub _ _ _ _ _ _ Hev). Qed.

Lemma fst_sub i a : a ∈ (lv i).*1 -> a ∈ (lv' i).*1.
Proof using Hev. intros (p & -> & Hp)%list_elem_of_fmap. apply list_elem_of_fmap. exists p. split; [done|]. by apply (ev_sub _ _ _ _ _ _ Hev). Qed.

Lemma lf_new_node_stable l x i : o <> Some x -> new_node h hd lv l x i -> new_node h' hd lv' l x i.
Proof using Hev.
  intros Ho (Hhd & (n & Hn & Hk & Hlen) & Hj). destruct (ev_node _ _ _ _ _ _ Hev x n Hn) as (n' & Hn' & Hk' & Hlen').
  split; [done|]. split; [exists n'; split_and!; congruence|]. intros j. rewrite <- Hj. split; [|apply fst_sub].
  intros [?|?]%(ev_new _ _ _ _ _ _ Hev); [done|congruence].
Qed.

Lemma linking_stable l x i : o <> Some x -> linking mono h hd lv l x i -> linking mono h' hd lv' l x i.
Proof using Hev. intros Ho (Hp & Hi & Hn & Hf). split_and!; [by apply preds_ok_stable|done|by apply lf_new_node_stable|done]. Qed.

Lemma on_level_in i p k : on_level lv hd i p k -> p = hd \/ p ∈ (lv i).*1.
Proof. intros [->|(kx & Hx & _)]; [by left|right]. apply list_elem_of_fmap. by exists (p, kx). Qed.

Lemma succ_ok_in i k succ : succ_ok lv i k succ -> succ = NULL \/ succ ∈ (lv i).*1.
Proof. intros [->|(ks & Hs & _)]; [by left|right]. apply list_elem_of_fmap. by exists (succ, ks). Qed.

Lemma lf_on_level_node i p k : (i < kMaxHeight)%nat -> list_ok h hd lv -> on_level lv hd i p k -> exists n, h !! p = Some n.
Proof using CompareOrder0.
  intros Hi Hl Hp. destruct (link_spec h hd lv Hl i p k Hi Hp) as (? & ? & _ & _ & _ & Hn). unfold nxt in Hn.
  destruct (h !! p); [eauto|done].
Qed.

Lemma phase_ok_stable max max' ph :
  list_ok h hd lv -> (forall x, own ph = Some x -> o <> Some x) -> (mono = true -> (max <= max')%nat) ->
  phase_ok mono h hd max lv ph -> phase_ok mono h' hd max' lv' ph.
Proof using Hev CompareOrder0.
  intros Hl Ho Hm. destruct ph as [|l|l|l|l|l level x|l|l x i|l x i succ|l x i succ|k b|k|k level x|k x];
    cbn [phase_ok own] in *; try done; try apply preds_ok_stable.
  - intros (Hp & Hh). split; [by apply preds_ok_stable|]. intros Et. specialize (Hh Et). specialize (Hm Et). lia.
  - intros (Hp & Hlv & Hx & Hf). split_and!; [by apply preds_ok_stable|done|by apply lf_on_level_stable|done].
  - intros (Hp & Hf). split; [by apply preds_ok_stable|done].
  - apply linking_stable. by apply Ho.
  - intros (Hk & Hs & Hp). split_and!; [|by apply succ_ok_stable|done]. apply linking_stable; [by apply Ho|done].
  - intros (Hk & Hs & p & r & Hp & Hr & Hc). pose proof (Ho x eq_refl) as Hox. split_and!; [by apply linking_stable|by apply succ_ok_stable|].
    exists p, r. destruct Hk as ((_ & Hht & Hpl) & Hi & (Hxhd & (n & Hn & _) & Hxj) & _).
    assert (Hxi : x ∉ (lv i).*1) by (rewrite Hxj; lia). split_and!; [done| |].
    + destruct (ev_next _ _ _ _ _ _ Hev i x n Hn) as [->|[([?|?] & _)|(? & _)]]; done.
    + destruct Hc as [->|Hc]; [by left|right]. pose proof (Hpl i p Hp) as Hop.
      destruct (lf_on_level_node i p (lo_key l) ltac:(lia) Hl Hop) as (np & Hnp).
      destruct (ev_next _ _ _ _ _ _ Hev i p np Hnp) as [->|[(_ & y & -> & Hy & Hy0)|(_ & Hpi & Hph)]]; [done| |].
      * intros [= ->]. by destruct (succ_ok_in i _ _ Hs).
      * by destruct (on_level_in i p _ Hop).
  - intros (Hlv & Hx). split; [done|by apply lf_on_level_stable].
  - intros [->|[n Hn]]; [by left|right]. destruct (ev_node _ _ _ _ _ _ Hev x n Hn) as (n' & Hn' & _). eauto.
Qed.

End stable.

End inv.
