(* ===== verification/LFSkipListSpec.v ===== *)
(** * LockfreeSkipList is linearizable

    Every access of [Insert] and [Seek] keeps the invariant of [LFSkipListInv]
    and is invisible or one step of an atomic sorted list, the table that the
    multi-version store is specified with. *)

From Stdlib Require Import Sorted.
From S2P Require Import Prelude Random TXMemStore LFSkipList LFSkipListInv.

(** ** The atomic table *)

Section spec.
Context {E : Type} (compare_ : E -> E -> Z).

(** What a thread is doing, seen from outside. *)
Inductive status :=
  | SIdle
  | SPending (c : call (E := E))
  | SInserted (k : E) (linked : bool)
  | SFound (k : E) (answer : option E).

Definition absent (k : E) (l : list E) : bool := forallb (fun x => negb (compare_ x k =? 0)) l.

(** A call starts, or takes effect. *)
Inductive th_spec (l : list E) : status -> list E -> status -> Prop :=
  | sp_call st c : (forall c', st <> SPending c') -> th_spec l st l (SPending c)
  | sp_insert k : th_spec l (SPending (CInsert k)) (sl_insert compare_ k l) (SInserted k (absent k l))
  | sp_seek k : th_spec l (SPending (CSeek k)) l (SFound k (sl_seek compare_ k l)).

Inductive spec_step (l : list E) (sts : list status) : list E -> list status -> Prop :=
  | spec_thread j st l' st' :
      sts !! j = Some st -> th_spec l st l' st' -> spec_step l sts l' (<[j := st']> sts).

End spec.

Section steps.
Context {E : Type} (compare_ : E -> E -> Z) `{!CompareOrder compare_}.
Abbreviation levels := (nat -> list (addr * E)) (only parsing).
Implicit Types (h : gmap Z (Node (E := E))) (lv : levels) (l : locals (E := E)) (ph : phase (E := E)).

Definition stat h ph : status :=
  match ph with
  | Idle => SIdle
  | ITest l | IFill l | IStore l | IStart l | IFind l _ _ | INew l
  | IScan l _ O | ISet l _ O _ | ICas l _ O _ => SPending (CInsert (lo_key l))
  | IScan l _ (S _) | ISet l _ (S _) _ | ICas l _ (S _) _ => SInserted (lo_key l) true
  | IDone k b => SInserted k b
  | SStart k | SFind k _ _ => SPending (CSeek k)
  | SDone k x => SFound k (nd_key <$> h !! x)
  end.

(** ** Writing a link *)

Lemma SetNext_spec h a i v old : nxt h i a = Some old ->
  exists h', SetNext h a i v = Ok h' /\
    (forall j b, nxt h' j b = if decide (b = a /\ j = i) then Some v else nxt h j b) /\
    (forall b n, h !! b = Some n -> exists n', h' !! b = Some n' /\ nd_key n' = nd_key n /\ length (nd_next n') = length (nd_next n)) /\
    (forall b, h !! b = None -> h' !! b = None).
Proof.
  unfold nxt at 1, SetNext, node. destruct (h !! a) as [n|] eqn:Hn; [|done]. cbn [from_opt mbind result_bind option_bind]. intros Hi.
  pose proof (lookup_lt_Some _ _ _ Hi) as Hlt. rewrite (proj2 (Nat.ltb_lt _ _) Hlt). eexists. split; [done|]. split; [|split].
  - intros j b. unfold nxt. destruct (decide (b = a)) as [->|Hne].
    + rewrite lookup_insert_eq, Hn. cbn. destruct (decide (j = i)) as [->|Hj].
      * rewrite decide_True by done. by apply list_lookup_insert_eq.
      * rewrite decide_False by naive_solver. by apply list_lookup_insert_ne.
    + rewrite lookup_insert_ne by done. by rewrite decide_False by naive_solver.
  - intros b nb Hb. destruct (decide (b = a)) as [->|Hne].
    + rewrite lookup_insert_eq. simplify_eq. eexists. split; [done|]. cbn. by rewrite length_insert.
    + rewrite lookup_insert_ne by done. eauto.
  - intros b Hb. rewrite lookup_insert_ne; [done|]. intros ->. congruence.
Qed.

Lemma sl_insert_snd a k (xs : list (addr * E)) : (sl_insert (cmp2 compare_) (a, k) xs).*2 = sl_insert compare_ k xs.*2.
Proof.
  induction xs as [|[b kb] xs IH]; [done|]. cbn [sl_insert fmap list_fmap snd].
  change (cmp2 compare_ (b, kb) (a, k)) with (compare_ kb k).
  destruct (compare_ kb k <? 0); [cbn; f_equal; apply IH|]. by destruct (compare_ kb k =? 0).
Qed.

Lemma cmp0_sym (a b : E) : compare_ a b = 0 <-> compare_ b a = 0.
Proof using CompareOrder0.
  pose proof (co_sym compare_ a b). pose proof (co_sym compare_ b a). lia.
Qed.

Lemma th_insert (t : list E) k t' b : t' = sl_insert compare_ k t -> b = absent compare_ k t ->
  th_spec compare_ t (SPending (CInsert k)) t' (SInserted k b).
Proof. intros -> ->. constructor. Qed.

Lemma tail_after k (xs ys : list (addr * E)) :
  StronglySorted (fun p q => cmp2 compare_ p q < 0) (xs ++ ys) ->
  match ys with [] => True | y :: _ => 0 < compare_ y.2 k end -> Forall (fun p => 0 < compare_ p.2 k) ys.
Proof using CompareOrder0.
  intros Hs Hh. assert (Hs' : StronglySorted (fun p q => cmp2 compare_ p q < 0) ys).
  { induction xs; [done|]. inversion_clear Hs. auto. }
  destruct ys as [|y ys]; [done|]. inversion_clear Hs'. constructor; [done|]. eapply Forall_impl; [done|]. intros z Hz. cbn in Hz.
  assert (Hky : compare_ k y.2 < 0) by (by apply (co_sym compare_)).
  apply (co_sym compare_). eapply (co_trans compare_); [done|]. unfold cmp2 in Hz. lia.
Qed.

Lemma absent_between k (xs ys : list (addr * E)) :
  Forall (fun p => compare_ p.2 k < 0) xs -> Forall (fun p => 0 < compare_ p.2 k) ys -> absent compare_ k (xs ++ ys).*2 = true.
Proof.
  intros Hxs Hys. apply forallb_forall. intros x Hx%list_elem_of_In. apply list_elem_of_fmap in Hx as (p & -> & Hp).
  rewrite Forall_forall in Hxs, Hys. apply negb_true_iff, Z.eqb_neq.
  apply elem_of_app in Hp as [Hp|Hp]; [specialize (Hxs p Hp)|specialize (Hys p Hp)]; lia.
Qed.

(** ** What a step of a thread establishes *)

Section step.
Context (mono : bool) (s : skiplist (E := E)) (lv : levels).
Context (Hl : list_ok compare_ (sl_heap s) (head_ s) lv).
Context (Hmax : (1 <= max_height_ s <= kMaxHeight)%nat).
Abbreviation hd := (head_ s).
Abbreviation ab := (fun lv : levels => (lv 0%nat).*2).

Record good ph (s' : skiplist) lv' ph' : Prop := {
  gd_head : head_ s' = head_ s;
  gd_max : (1 <= max_height_ s' <= kMaxHeight)%nat;
  gd_list : list_ok compare_ (sl_heap s') (head_ s) lv';
  gd_phase : phase_ok compare_ mono (sl_heap s') (head_ s) (max_height_ s') lv' ph';
  gd_ev : evolves (head_ s) (own ph) (sl_heap s) lv (sl_heap s') lv';
  gd_own x : own ph' = Some x -> own ph = Some x \/ sl_heap s !! x = None;
  gd_sim : (ab lv' = ab lv /\ stat (sl_heap s') ph' = stat (sl_heap s) ph) \/
    th_spec compare_ (ab lv) (stat (sl_heap s) ph) (ab lv') (stat (sl_heap s') ph')
}.

Lemma lf_evolves_refl o : evolves hd o (sl_heap s) lv (sl_heap s) lv.
Proof using Hl. split; [apply (lk_null _ _ _ _ Hl)|eauto|done|auto|auto]. Qed.

(** The memory does not change. *)
Lemma lf_good_same ph ph' max :
  (1 <= max <= kMaxHeight)%nat -> phase_ok compare_ mono (sl_heap s) hd max lv ph' ->
  (forall x, own ph' = Some x -> own ph = Some x) ->
  (stat (sl_heap s) ph' = stat (sl_heap s) ph \/ th_spec compare_ (ab lv) (stat (sl_heap s) ph) (ab lv) (stat (sl_heap s) ph')) ->
  good ph (mkSkipList (sl_heap s) hd max) lv ph'.
Proof using Hl.
  intros Hm Hp Ho Hs. split; cbn; [done..|apply lf_evolves_refl| |].
  - intros x Hx. left. by apply Ho.
  - destruct Hs; [by left|by right].
Qed.

(** An insertion that finds its key takes effect. *)
Lemma th_present k xs b kb ys :
  lv 0%nat = xs ++ (b, kb) :: ys -> Forall (fun p => compare_ p.2 k < 0) xs -> compare_ kb k = 0 ->
  th_spec compare_ (ab lv) (SPending (CInsert k)) (ab lv) (SInserted k false).
Proof.
  intros Hs Hxs Hk. apply th_insert; rewrite Hs, fmap_app.
  - symmetry. apply sl_insert_present; [by apply Forall_fmap|done].
  - unfold absent. rewrite forallb_app. cbn. rewrite Hk. cbn. by rewrite andb_false_r.
Qed.

(** The levels keep their links. *)
Lemma list_ok_ext h' : h' !! NULL = None ->
  (forall i a, (i < kMaxHeight)%nat -> a = hd \/ a ∈ (lv i).*1 -> nxt h' i a = nxt (sl_heap s) i a) ->
  (forall a n, sl_heap s !! a = Some n -> exists n', h' !! a = Some n' /\ nd_key n' = nd_key n) ->
  list_ok compare_ h' hd lv.
Proof using Hl.
  intros Hn Hx Hk. destruct Hl as [_ Hc Hnd Hs Hsub]. split; [done| | |done|done].
  - intros i Hi. eapply chain_ext; [|by apply Hc]. intros a Ha. symmetry. apply Hx; [done|]. by apply elem_of_cons in Ha.
  - intros i a k Ha. destruct (Hnd i a k Ha) as (n & Hn' & <-). by apply Hk.
Qed.

Lemma good_new l x junk :
  phase_ok compare_ mono (sl_heap s) hd (max_height_ s) lv (INew l) -> x <> NULL -> sl_heap s !! x = None ->
  good (INew l) (set_heap (<[x := NewNode (lo_key l) (lo_height l) junk]> (sl_heap s)) s) lv (IScan l x 0).
Proof using Hl Hmax CompareOrder0.
  intros [Hp Hf] Hx Hxn. set (h' := <[x := _]> (sl_heap s)).
  assert (Hne : forall a n, sl_heap s !! a = Some n -> h' !! a = Some n).
  { intros a n Ha. unfold h'. rewrite lookup_insert_ne; [done|]. intros ->. congruence. }
  assert (Hnx : forall i a n, sl_heap s !! a = Some n -> nxt h' i a = nxt (sl_heap s) i a).
  { intros i a n Ha. unfold nxt. by rewrite (Hne a n Ha), Ha. }
  assert (Hnull : h' !! NULL = None) by (unfold h'; rewrite lookup_insert_ne by done; apply (lk_null _ _ _ _ Hl)).
  assert (Hxl : forall j, x ∉ (lv j).*1).
  { intros j Hj. destruct (lk_fst _ _ _ _ Hl j x Hj) as (n & Hn & _). congruence. }
  assert (Hhd : exists n, sl_heap s !! hd = Some n).
  { apply (lf_on_level_node compare_ (sl_heap s) hd lv 0 hd (lo_key l)); [unfold kMaxHeight; lia|done|by left]. }
  split; cbn; [done|lia| | | | |].
  - apply list_ok_ext; [done| |intros a n Ha; exists n; eauto].
    intros i a _ [->|Ha]; [destruct Hhd as [n Hn]; eauto|]. destruct (lk_fst _ _ _ _ Hl i a Ha) as (n & Hn & _). eauto.
  - destruct Hp as (Hlen & Hh & Hpp). split; [done|]. split; [lia|]. split; [|done]. split; [|split].
    + intros ->. destruct Hhd as [n Hn]. congruence.
    + eexists. split; [apply lookup_insert_eq|]. cbn. by rewrite length_map, length_seq.
    + intros j. split; [by intros ?%Hxl|lia].
  - split; [done|intros a n Ha; exists n; eauto|done|auto|]. intros i a n Ha. left. eauto.
  - intros y [= <-]. by right.
  - by left.
Qed.

(** The predecessor on level [i] of a node that is being linked. *)
Lemma pred_spec l x i p : linking compare_ mono (sl_heap s) hd lv l x i -> lo_preds l !! i = Some (Some p) ->
  pred_at l i = Ok p /\ (i < kMaxHeight)%nat /\ on_level compare_ lv hd i p (lo_key l).
Proof.
  intros ((_ & Hh & Hp) & Hi & _) Hpi. split_and!; [|lia|by apply Hp]. unfold pred_at. by rewrite Hpi.
Qed.

Lemma own_link l x i : new_node (sl_heap s) hd lv l x i -> (i < lo_height l)%nat -> exists r, nxt (sl_heap s) i x = Some r.
Proof.
  intros (_ & (n & Hn & _ & Hlen) & _) Hi. unfold nxt. rewrite Hn. cbn. apply lookup_lt_is_Some. lia.
Qed.

Lemma good_set l x i succ :
  phase_ok compare_ mono (sl_heap s) hd (max_height_ s) lv (ISet l x i succ) ->
  exists p next h', pred_at l i = Ok p /\ Next (sl_heap s) p i = Ok next /\ SetNext (sl_heap s) x i next = Ok h' /\
    good (ISet l x i succ) (set_heap h' s) lv (ICas l x i succ).
Proof using Hl Hmax CompareOrder0.
  intros (Hk & Hs & p & Hpi). destruct (pred_spec l x i p Hk Hpi) as (Hp & Hi12 & Hop).
  destruct (read_spec compare_ _ _ _ Hl i p (lo_key l) Hi12 Hop) as (_ & _ & next & _ & _ & _ & Hnp & Hnext & _).
  pose proof Hk as (Hpo & Hi & Hnew & Hf). destruct (own_link l x i Hnew Hi) as (old & Hold).
  destruct (SetNext_spec (sl_heap s) x i next old Hold) as (h' & Hset & Hnx & Hnd & Hnone).
  exists p, next, h'. split_and!; [done..|]. pose proof Hnew as (Hxhd & (n & Hn & Hkn & Hlen) & Hxj).
  assert (Hxi : x ∉ (lv i).*1) by (rewrite Hxj; lia).
  assert (Hpx : p <> x) by (intros ->; by destruct (on_level_in compare_ hd lv i x _ Hop)).
  split; cbn; [done|lia| | | |auto|left; by destruct i].
  - apply list_ok_ext; [apply Hnone, (lk_null _ _ _ _ Hl)| |].
    + intros j a Hj Ha. rewrite Hnx, decide_False; [done|]. intros [-> ->]. by destruct Ha.
    + intros a na Ha. destruct (Hnd a na Ha) as (n' & Hn' & Hk' & _). eauto.
  - split; [|split; [done|]].
    + destruct (Hnd x n Hn) as (n' & Hn' & Hk' & Hl'). split_and!; [done..| |done].
      split; [done|]. split; [|done]. exists n'. split_and!; congruence.
    + exists p, next. rewrite !Hnx, decide_True, decide_False by naive_solver. split_and!; [done..|].
      destruct (decide (next = succ)); [by left|right]. rewrite Hnp. congruence.
  - split; [apply Hnone, (lk_null _ _ _ _ Hl)|done|done|auto|]. intros j a na Ha. rewrite Hnx.
    destruct (decide (a = x /\ j = i)) as [[-> ->]|Hne]; [right; right; done|by left].
Qed.

(** Level [i] with the node [x]. *)
Definition link (i : nat) (x : addr) (k : E) : levels :=
  fun j => if decide (j = i) then sl_insert (cmp2 compare_) (x, k) (lv i) else lv j.

Section link.
Context (l : locals (E := E)) (x : addr) (i : nat) (p succ : addr).
Context (Hk : linking compare_ mono (sl_heap s) hd lv l x i) (Hpi : lo_preds l !! i = Some (Some p)).
Context (Hs : succ_ok compare_ lv i (lo_key l) succ).
Context (Hx : nxt (sl_heap s) i x = Some succ) (Hp : nxt (sl_heap s) i p = Some succ).
Abbreviation k := (lo_key l).

(** The place of the new node. *)
Lemma link_place : exists xs ys, lv i = xs ++ ys /\ Forall (fun q => compare_ q.2 k < 0) xs /\
  Forall (fun q => 0 < compare_ q.2 k) ys /\ list.last (hd :: xs.*1) = Some p /\ succ = default NULL (head ys.*1) /\
  sl_insert (cmp2 compare_) (x, k) (lv i) = xs ++ (x, k) :: ys.
Proof using All.
  destruct (pred_spec l x i p Hk Hpi) as (_ & Hi & Hop).
  destruct (link_spec compare_ _ _ _ Hl i p k Hi Hop) as (xs & ys & Hlv & Hxs & Hlast & Hn).
  assert (Hsucc : succ = default NULL (head ys.*1)) by congruence.
  assert (Hhead : match ys with [] => True | y :: _ => 0 < compare_ y.2 k end).
  { destruct ys as [|[b kb] ys]; [done|]. cbn in Hsucc |- *. subst b.
    assert (Hin : (succ, kb) ∈ lv i) by (rewrite Hlv; set_solver).
    destruct (lk_node _ _ _ _ Hl i succ kb Hin) as (n & Hnn & <-).
    destruct Hs as [->|(ks & Hks & Hlt)]; [by rewrite (lk_null _ _ _ _ Hl) in Hnn|].
    destruct (lk_node _ _ _ _ Hl i succ ks Hks) as (n' & Hn' & <-). by simplify_eq. }
  pose proof (lk_sorted _ _ _ _ Hl i) as Hsort. rewrite Hlv in Hsort.
  exists xs, ys. split_and!; [done..|by apply (tail_after k xs ys)|done|done|].
  rewrite Hlv. apply sl_insert_split; [done|]. by destruct ys.
Qed.

Lemma link_in j q : q ∈ link i x k j <-> q ∈ lv j \/ (j = i /\ q = (x, k)).
Proof using All.
  unfold link. destruct (decide (j = i)) as [->|Hne]; [|naive_solver].
  destruct link_place as (xs & ys & Hlv & _ & _ & _ & _ & ->). rewrite Hlv. set_solver.
Qed.

Lemma link_fst j a : a ∈ (link i x k j).*1 <-> a ∈ (lv j).*1 \/ (j = i /\ a = x).
Proof using All.
  rewrite !list_elem_of_fmap. setoid_rewrite link_in. split.
  - intros (q & -> & [Hq|[-> ->]]); [left; eauto|by right].
  - intros [(q & -> & Hq)|[-> ->]]; [eauto|]. exists (x, k). auto.
Qed.

Lemma link_list_ok h' : h' !! NULL = None ->
  (forall j b, nxt h' j b = if decide (b = p /\ j = i) then Some x else nxt (sl_heap s) j b) ->
  (forall b n, sl_heap s !! b = Some n -> exists n', h' !! b = Some n' /\ nd_key n' = nd_key n) ->
  list_ok compare_ h' hd (link i x k).
Proof using All.
  intros Hn0 Hnx Hnd. pose proof Hk as (_ & Hi & (Hxhd & (n & Hn & Hkn & _) & Hxj) & _).
  destruct (pred_spec l x i p Hk Hpi) as (_ & Hi12 & Hop).
  assert (Hx0 : x <> NULL) by (intros ->; by rewrite (lk_null _ _ _ _ Hl) in Hn). split; [done| | | |].
  - intros j Hj. unfold link. destruct (decide (j = i)) as [->|Hne].
    + destruct link_place as (xs & ys & Hlv & _ & _ & Hlast & _ & ->).
      pose proof (lk_chain _ _ _ _ Hl i Hj) as Hc. pose proof (chain_NoDup _ _ _ Hc) as Hnodup.
      assert (Hxo : x ∉ hd :: (lv i).*1) by (rewrite elem_of_cons, Hxj; naive_solver lia).
      rewrite Hlv, fmap_app, app_comm_cons in Hc, Hnodup, Hxo. rewrite fmap_app, app_comm_cons.
      apply last_Some in Hlast as (zs & Hz). rewrite Hz, <- app_assoc in Hc, Hnodup, Hxo. rewrite Hz, <- app_assoc.
      apply NoDup_app in Hnodup as (_ & Hd & [Hpy _]%NoDup_cons).
      eapply chain_splice; [exact Hc|exact Hp| | |done|done| |done|].
      * by rewrite Hnx, decide_True.
      * rewrite Hnx, decide_False; [done|]. intros [Hxp _]. cbn in Hxp. apply Hxo. rewrite Hxp. set_solver.
      * intros Hpz. apply (Hd p Hpz). set_solver.
      * intros b Hb _. rewrite Hnx, decide_False; naive_solver.
    + eapply chain_ext; [|by apply (lk_chain _ _ _ _ Hl)]. intros b _. rewrite Hnx, decide_False; naive_solver.
  - intros j a ka [Ha|[-> [= -> ->]]]%link_in.
    + destruct (lk_node _ _ _ _ Hl j a ka Ha) as (na & Hna & <-). by apply Hnd.
    + destruct (Hnd x n Hn) as (n' & Hn' & Hk'). exists n'. split; [done|congruence].
  - intros j. unfold link. destruct (decide (j = i)) as [->|]; [|apply (lk_sorted _ _ _ _ Hl)].
    apply sl_insert_sorted; [apply _|apply (lk_sorted _ _ _ _ Hl)].
  - intros j q Hq. apply link_in. apply link_in in Hq as [Hq|[<- ->]]; [left; by apply (lk_sub _ _ _ _ Hl)|].
    left. assert (Hxin : x ∈ (lv j).*1) by (apply Hxj; lia).
    destruct (lk_fst _ _ _ _ Hl j x Hxin) as (n' & Hn' & Hin). rewrite Hn in Hn'. injection Hn' as <-. by rewrite Hkn in Hin.
Qed.

Lemma good_cas : exists h', SetNext (sl_heap s) p i x = Ok h' /\
  good (ICas l x i succ) (set_heap h' s) (link i x k) (if (S i <? lo_height l)%nat then IScan l x (S i) else IDone k true).
Proof using All.
  destruct (SetNext_spec (sl_heap s) p i x succ Hp) as (h' & Hset & Hnx & Hnd & Hnone). exists h'. split; [done|].
  pose proof Hk as (Hpo & Hi & (Hxhd & (n & Hn & Hkn & Hlen) & Hxj) & Hf).
  destruct (pred_spec l x i p Hk Hpi) as (_ & Hi12 & Hop).
  assert (Hx0 : x <> NULL) by (intros ->; by rewrite (lk_null _ _ _ _ Hl) in Hn).
  pose proof (Hnone NULL (lk_null _ _ _ _ Hl)) as Hn0.
  assert (Hev : evolves hd (Some x) (sl_heap s) lv h' (link i x k)).
  { split; [done|done| | |].
    - intros j q Hq. apply link_in. by left.
    - intros j a [?|[_ ->]]%link_fst; auto.
    - intros j a na Ha. rewrite Hnx. destruct (decide (a = p /\ j = i)) as [[-> ->]|]; [|by left]. right. left.
      split; [by apply (on_level_in compare_ hd lv i p k)|]. exists x. split_and!; [done| |done]. rewrite Hxj. lia. }
  assert (Hlist : list_ok compare_ h' hd (link i x k)).
  { apply link_list_ok; [done..|]. intros b nb Hb. destruct (Hnd b nb Hb) as (n' & Hn' & Hk' & _). eauto. }
  assert (Hsim : forall ph', stat h' ph' = SInserted k true ->
    (ab (link i x k) = ab lv /\ stat h' ph' = stat (sl_heap s) (ICas l x i succ)) \/
    th_spec compare_ (ab lv) (stat (sl_heap s) (ICas l x i succ)) (ab (link i x k)) (stat h' ph')).
  { intros ph' ->. destruct (decide (0%nat = i)) as [E0|E0].
    - right. replace (stat (sl_heap s) (ICas l x i succ)) with (SPending (CInsert k)) by (by destruct i). apply th_insert.
      + unfold link. rewrite decide_True by done. rewrite <- E0. apply sl_insert_snd.
      + destruct link_place as (xs & ys & Hlv & Hxs & Hys & _). rewrite E0, Hlv. symmetry. by apply absent_between.
    - left. split; [|by destruct i]. unfold link. by rewrite decide_False. }
  destruct (S i <? lo_height l)%nat eqn:Hb; (split; cbn [set_heap head_ max_height_ sl_heap]; [done..| |done| |by apply Hsim]); [|auto|done|done].
  apply Nat.ltb_lt in Hb. split; [by apply (preds_ok_stable compare_ _ _ _ _ _ _ Hev)|]. split; [lia|]. split; [|done]. split; [done|]. split.
  - destruct (Hnd x n Hn) as (n' & Hn' & Hk' & Hlen'). exists n'. split_and!; congruence.
  - intros j. rewrite link_fst, Hxj. naive_solver lia.
Qed.

End link.

(** One round of a search for [k] that stands at [x]. *)
Lemma round_spec i x k : (i < kMaxHeight)%nat -> on_level compare_ lv hd i x k ->
  exists next, Next (sl_heap s) x i = Ok next /\ nxt (sl_heap s) i x = Some next /\
    ((KeyIsAfterNode compare_ (sl_heap s) k next = Ok true /\ on_level compare_ lv hd i next k /\
      exists xs kn ys, lv i = xs ++ (next, kn) :: ys /\ list.last (hd :: xs.*1) = Some x) \/
     (KeyIsAfterNode compare_ (sl_heap s) k next = Ok false /\
      exists xs ys, lv i = xs ++ ys /\ Forall (fun p => compare_ p.2 k < 0) xs /\ list.last (hd :: xs.*1) = Some x /\
        ((ys = [] /\ next = NULL) \/
         exists n ys', ys = (next, nd_key n) :: ys' /\ next <> NULL /\ sl_heap s !! next = Some n /\ 0 <= compare_ (nd_key n) k))).
Proof using Hl Hmax CompareOrder0.
  intros Hi Hx. destruct (read_spec compare_ _ _ _ Hl i x k Hi Hx) as (xs & ys & next & Hs & Hxs & Hlast & Hnx & Hnext & Hc).
  exists next. split; [done|]. split; [done|]. destruct Hc as [(-> & -> & Hka)|(kn & ys' & n & -> & Hn0 & Hn & <- & Hka)].
  - right. split; [done|]. exists xs, []. auto 10.
  - rewrite Hka. destruct (Z.ltb_spec (compare_ (nd_key n) k) 0) as [Hlt|Hge].
    + left. split; [done|]. split; [|eauto]. right. exists (nd_key n). split; [|done]. rewrite Hs. set_solver.
    + right. split; [done|]. exists xs, ((next, nd_key n) :: ys'). split_and!; [done..|]. right. eauto 10.
Qed.

Lemma Equal_iff a b : Equal compare_ a b = true <-> compare_ b a = 0.
Proof using CompareOrder0. unfold Equal. rewrite Z.eqb_eq. apply cmp0_sym. Qed.

(** A thread cannot fault, except on a predecessor it has not set. *)
Definition safe_step (ph : phase) (r : result (skiplist (E := E) * Z * phase)) : Prop :=
  (exists s' rnd' ph' lv', r = Ok (s', rnd', ph') /\ good ph s' lv' ph') \/ (mono = false /\ r = Fault Undefined).

Lemma safe_same ph ph' max rnd :
  (1 <= max <= kMaxHeight)%nat -> phase_ok compare_ mono (sl_heap s) hd max lv ph' ->
  (forall x, own ph' = Some x -> own ph = Some x) ->
  (stat (sl_heap s) ph' = stat (sl_heap s) ph \/ th_spec compare_ (ab lv) (stat (sl_heap s) ph) (ab lv) (stat (sl_heap s) ph')) ->
  safe_step ph (Ok (mkSkipList (sl_heap s) hd max, rnd, ph')).
Proof using Hl. intros. left. eexists _, _, _, lv. split; [done|]. by apply lf_good_same. Qed.

Lemma same_state : s = mkSkipList (sl_heap s) hd (max_height_ s).
Proof. by destruct s. Qed.

Lemma set_preds_ok l j x : (j < kMaxHeight)%nat -> preds_ok compare_ hd lv l -> on_level compare_ lv hd j x (lo_key l) ->
  preds_ok compare_ hd lv (set_preds (<[j := Some x]> (lo_preds l)) l).
Proof.
  intros Hj (Hlen & Hh & Hp) Hx. split; [by cbn; rewrite length_insert|]. split; [done|]. cbn. intros j' p' Hj'.
  apply list_lookup_insert_Some in Hj' as [(<- & [= ->] & _)|(_ & ?)]; [done|by apply Hp].
Qed.

Lemma filled_set l j x from : (j < length (lo_preds l))%nat -> filled mono l (S from) \/ filled mono l from ->
  j = from \/ filled mono l from -> filled mono (set_preds (<[j := Some x]> (lo_preds l)) l) from.
Proof.
  intros Hj Hf Hor Hm j' Hj'. cbn in *. destruct (decide (j' = j)) as [->|Hne].
  - exists x. by apply list_lookup_insert_eq.
  - rewrite list_lookup_insert_ne by done. destruct Hor as [<-|Hor]; [|by apply (Hor Hm)].
    destruct Hf as [Hf|Hf]; apply (Hf Hm); lia.
Qed.

(** What follows a step of the search. *)
Definition find_next l (level : nat) (x : addr) ph : Prop :=
  match ph with
  | IFind l' level' x' =>
      lo_key l' = lo_key l /\
      ((level' = level /\ exists xs kn ys, lv level = xs ++ (x', kn) :: ys /\ list.last (hd :: xs.*1) = Some x) \/
       (level = S level' /\ x' = x))
  | INew l' => lo_key l' = lo_key l
  | IDone k b => k = lo_key l
  | _ => False
  end.

Lemma find_step e rnd l level x :
  phase_ok compare_ mono (sl_heap s) hd (max_height_ s) lv (IFind l level x) ->
  exists ph', access compare_ e s rnd (IFind l level x) = Ok (s, rnd, ph') /\
    phase_ok compare_ mono (sl_heap s) hd (max_height_ s) lv ph' /\ own ph' = None /\ find_next l level x ph' /\
    (stat (sl_heap s) ph' = SPending (CInsert (lo_key l)) \/
     th_spec compare_ (ab lv) (SPending (CInsert (lo_key l))) (ab lv) (stat (sl_heap s) ph')).
Proof using Hl Hmax CompareOrder0.
  intros (Hp & Hlv & Hx & Hf). cbn [access]. destruct (round_spec level x (lo_key l) Hlv Hx) as (next & -> & Hnx & Hc).
  unfold mbind, result_bind. destruct Hc as [(-> & Hnext & Hmove)|(-> & xs & ys & Hs & Hxs & Hlast & Hy)].
  { eexists. split; [done|]. split; [done|]. split; [done|]. split; [|by left]. split; [done|]. by left. }
  assert (Hp' : preds_ok compare_ hd lv (set_preds (<[level := Some x]> (lo_preds l)) l)) by (by apply set_preds_ok).
  assert (Hf' : filled mono (set_preds (<[level := Some x]> (lo_preds l)) l) level).
  { destruct Hp as (Hlen & _). apply filled_set; [lia|by left|by left]. }
  destruct level as [|level].
  - destruct Hy as [(-> & ->)|(n & ys' & -> & Hn0 & Hn & Hge)]; [eexists; split; [done|]; split; [done|]; split; [done|]; split; [done|by left]|].
    rewrite (proj2 (Z.eqb_neq _ _) Hn0). unfold node. rewrite Hn. cbn [from_opt]. cbn [set_preds lo_key].
    destruct (Equal compare_ (lo_key l) (nd_key n)) eqn:Heq; eexists; (split; [done|]; split; [done|]; split; [done|]; split; [done|]); [|by left].
    right. apply Equal_iff in Heq. by apply (th_present (lo_key l) xs next (nd_key n) ys').
  - eexists. split; [done|]. split; [|split; [done|]; split; [split; [done|by right]|by left]].
    split; [done|]. split; [lia|]. split; [|done]. apply (lf_on_level_mono compare_ _ _ _ Hl level (S level)); [lia|done].
Qed.

Lemma find_safe e rnd l level x :
  phase_ok compare_ mono (sl_heap s) hd (max_height_ s) lv (IFind l level x) ->
  safe_step (IFind l level x) (access compare_ e s rnd (IFind l level x)).
Proof using Hl Hmax CompareOrder0.
  intros Hp. destruct (find_step e rnd l level x Hp) as (ph' & -> & Hp' & Ho & _ & Hst).
  rewrite same_state at 1. apply safe_same; [done..| |done]. intros y Hy. congruence.
Qed.

Lemma pred_cases l x i : linking compare_ mono (sl_heap s) hd lv l x i ->
  (exists p, lo_preds l !! i = Some (Some p)) \/ (mono = false /\ pred_at l i = Fault Undefined).
Proof.
  intros ((Hlen & Hh & _) & Hi & _ & Hf). destruct (lookup_lt_is_Some_2 (lo_preds l) i ltac:(lia)) as [[p|] Hp]; [eauto|].
  right. destruct mono; [|unfold pred_at; by rewrite Hp]. destruct (Hf eq_refl i ltac:(lia)) as [q Hq]. congruence.
Qed.

(** What follows a step that looks for the successor on level [i]. *)
Definition scan_next l (x : addr) (i : nat) (p : addr) ph : Prop :=
  match ph with
  | IScan l' x' i' =>
      lo_key l' = lo_key l /\ lo_height l' = lo_height l /\ x' = x /\ i' = i /\ exists succ, lo_preds l' !! i = Some (Some succ) /\
        exists xs kn ys, lv i = xs ++ (succ, kn) :: ys /\ list.last (hd :: xs.*1) = Some p
  | ISet l' x' i' succ => l' = l /\ x' = x /\ i' = i /\ nxt (sl_heap s) i p = Some succ
  | IDone k b => k = lo_key l
  | _ => False
  end.

(** The node of the thread is the only one with its key. *)
Lemma own_key_absent l x i succ n : new_node (sl_heap s) hd lv l x (S i) -> sl_heap s !! succ = Some n ->
  (succ, nd_key n) ∈ lv (S i) -> compare_ (nd_key n) (lo_key l) = 0 -> False.
Proof using Hl Hmax CompareOrder0.
  intros (_ & (nx & Hnx & Hkx & _) & Hxj) Hn Hin Heq. assert (Hx0 : x ∈ (lv 0%nat).*1) by (apply Hxj; lia).
  destruct (lk_fst _ _ _ _ Hl 0 x Hx0) as (nx' & Hnx' & Hxin). simplify_eq.
  assert (E0 : (x, nd_key nx) = (succ, nd_key n)).
  { apply (sl_unique (cmp2 compare_) (lv 0%nat)); [apply (lk_sorted _ _ _ _ Hl)|done| |].
    - by apply (lf_lk_mono _ _ _ _ Hl 0 (S i)); [lia|].
    - unfold cmp2. cbn. rewrite Hkx. by apply cmp0_sym. }
  injection E0 as -> _. assert (Hbad : (S i < S i)%nat); [|lia]. apply Hxj. apply list_elem_of_fmap. by exists (succ, nd_key n).
Qed.

Lemma scan_step e rnd l x i p :
  phase_ok compare_ mono (sl_heap s) hd (max_height_ s) lv (IScan l x i) -> lo_preds l !! i = Some (Some p) ->
  exists ph', access compare_ e s rnd (IScan l x i) = Ok (s, rnd, ph') /\
    phase_ok compare_ mono (sl_heap s) hd (max_height_ s) lv ph' /\ (own ph' = Some x \/ own ph' = None) /\ scan_next l x i p ph' /\
    (stat (sl_heap s) ph' = stat (sl_heap s) (IScan l x i) \/
     th_spec compare_ (ab lv) (stat (sl_heap s) (IScan l x i)) (ab lv) (stat (sl_heap s) ph')).
Proof using Hl Hmax CompareOrder0.
  intros Hk Hpi. cbn [phase_ok] in Hk. cbn [access]. destruct (pred_spec l x i p Hk Hpi) as (-> & Hi12 & Hop). unfold mbind, result_bind.
  destruct (round_spec i p (lo_key l) Hi12 Hop) as (succ & -> & Hnx & Hc). pose proof Hk as (Hp & Hi & Hnew & Hf).
  destruct Hc as [(-> & Hnext & Hmove)|(-> & xs & ys & Hs & Hxs & Hlast & Hy)].
  { destruct Hp as (Hlen & Hh & Hpp). eexists. split; [done|]. split; [|split; [by left|split; [|left; by destruct i]]].
    - split; [by apply set_preds_ok|]. split; [done|]. split; [done|]. apply filled_set; [lia|by right|by right].
    - cbn. do 4 (split; [done|]). exists succ. split; [|done]. apply list_lookup_insert_eq. lia. }
  assert (Hset : succ_ok compare_ lv i (lo_key l) succ ->
    phase_ok compare_ mono (sl_heap s) hd (max_height_ s) lv (ISet l x i succ) /\ scan_next l x i p (ISet l x i succ)).
  { intros Hso. split; [|done]. split; [done|]. split; [done|]. by exists p. }
  assert (Est : stat (sl_heap s) (ISet l x i succ) = stat (sl_heap s) (IScan l x i)) by (by destruct i).
  destruct Hy as [(-> & ->)|(n & ys' & -> & Hn0 & Hn & Hge)].
  { destruct (Hset ltac:(by left)). eexists. split; [done|]. split; [done|]. split; [by left|]. split; [done|by left]. }
  rewrite (proj2 (Z.eqb_neq _ _) Hn0). unfold node. rewrite Hn. cbn [from_opt].
  assert (Hin : (succ, nd_key n) ∈ lv i) by (rewrite Hs; set_solver).
  destruct (Equal compare_ (lo_key l) (nd_key n)) eqn:Heq; eexists; (split; [done|]).
  - apply Equal_iff in Heq. do 3 (split; [done || by right|]). right.
    destruct i as [|i']; [by apply (th_present (lo_key l) xs succ (nd_key n) ys')|]. exfalso. by apply (own_key_absent l x i' succ n).
  - assert (Hne : compare_ (nd_key n) (lo_key l) <> 0) by (intros E0; apply Equal_iff in E0; congruence).
    destruct Hset; [right; exists (nd_key n); split; [done|lia]|]. split; [done|]. split; [by left|]. split; [done|by left].
Qed.

Lemma scan_safe e rnd l x i :
  phase_ok compare_ mono (sl_heap s) hd (max_height_ s) lv (IScan l x i) ->
  safe_step (IScan l x i) (access compare_ e s rnd (IScan l x i)).
Proof using Hl Hmax CompareOrder0.
  intros Hk. destruct (pred_cases l x i Hk) as [[p Hpi]|[Hm Hu]]; [|right; cbn [access]; by rewrite Hu].
  destruct (scan_step e rnd l x i p Hk Hpi) as (ph' & -> & Hp' & Ho & _ & Hst).
  rewrite same_state at 1. apply safe_same; [done..| |done]. intros y Hy. destruct Ho; cbn; congruence.
Qed.

Lemma cas_safe e rnd l x i succ :
  phase_ok compare_ mono (sl_heap s) hd (max_height_ s) lv (ICas l x i succ) ->
  safe_step (ICas l x i succ) (access compare_ e s rnd (ICas l x i succ)).
Proof using Hl Hmax CompareOrder0.
  intros (Hk & Hs & p & r & Hpi & Hr & Hc). cbn [access]. destruct (pred_spec l x i p Hk Hpi) as (-> & Hi12 & Hop).
  unfold mbind, result_bind. destruct (read_spec compare_ _ _ _ Hl i p (lo_key l) Hi12 Hop) as (_ & _ & old & _ & _ & _ & Hnp & -> & _).
  destruct (Z.eqb_spec old succ) as [->|Hne].
  - destruct Hc as [->|Hc]; [|done]. destruct (good_cas l x i p succ Hk Hpi Hs Hr Hnp) as (h' & -> & Hg).
    left. eexists _, _, _, _. split; [done|exact Hg].
  - rewrite same_state at 1. apply safe_same; [done..|left; by destruct i].
Qed.

(** Every access is safe and keeps what the threads rely on. *)
Lemma access_safe e rnd ph :
  phase_ok compare_ mono (sl_heap s) hd (max_height_ s) lv ph -> in_addr e <> NULL -> sl_heap s !! in_addr e = None ->
  safe_step ph (access compare_ e s rnd ph).
Proof using Hl Hmax CompareOrder0.
  intros Hp Ha Hn. assert (Hcall : forall ph0, (forall c, stat (sl_heap s) ph0 <> SPending c) -> own ph0 = None ->
    safe_step ph0 (match in_call e with
      | CInsert key => let '(height, rnd) := RandomHeight rnd in Ok (s, rnd, ITest (mkLocals key height (replicate kMaxHeight None)))
      | CSeek key => Ok (s, rnd, SStart key) end)).
  { intros ph0 Hst Ho. destruct (in_call e) as [k|k].
    - pose proof (RandomHeight_loop_range (kMaxHeight - 1) 1 rnd) as Hr. unfold RandomHeight.
      destruct (RandomHeight_loop (kMaxHeight - 1) 1 rnd) as [height rnd']. cbn [fst] in Hr.
      rewrite same_state at 1. apply safe_same; [done| |done|right; by constructor].
      split; [apply length_replicate|]. split; [unfold kMaxHeight in *; cbn; lia|]. cbn [lo_preds]. intros j q Hq.
      apply lookup_replicate in Hq as [? _]. done.
    - rewrite same_state at 1. apply safe_same; [done..|right; by constructor]. }
  destruct ph as [|l|l|l|l|l level x|l|l x i|l x i succ|l x i succ|k b|k|k level x|k x].
  - by apply Hcall.
  - cbn [access phase_ok] in *. rewrite same_state at 1. destruct (Nat.ltb_spec (max_height_ s) (lo_height l)) as [Hlt|Hge].
    + apply safe_same; [done..|by left].
    + apply safe_same; [done| |done|by left]. by split.
  - cbn [access phase_ok] in *. rewrite same_state at 1. apply safe_same; [done| |done|by left].
    destruct Hp as (Hlen & Hh & Hp). split; [by unfold fill_preds; cbn [set_preds lo_preds]; rewrite length_imap|]. split; [done|]. cbn. intros j q Hq.
    unfold fill_preds in Hq. rewrite list_lookup_imap in Hq. destruct (lo_preds l !! j) as [o|] eqn:Ho; [|done]. cbn in Hq.
    destruct (_ && _)%bool; [injection Hq as <-; by left|]. simplify_eq. by apply Hp.
  - cbn [access phase_ok] in *. apply safe_same; [by destruct Hp as (_ & ? & _)| |done|by left]. split; [done|lia].
  - cbn [access phase_ok] in *. destruct Hp as (Hp & Hm). rewrite same_state at 1. apply safe_same; [done| |done|by left].
    split; [done|]. split; [lia|]. split; [by left|]. intros Em j Hj. specialize (Hm Em). lia.
  - by apply find_safe.
  - left. eexists _, _, _, _. split; [done|]. by apply good_new.
  - by apply scan_safe.
  - cbn [access]. destruct (good_set l x i succ Hp) as (p & next & h' & Hpa & Hnx & Hset & Hg).
    rewrite Hpa. unfold mbind, result_bind. rewrite Hnx, Hset. left. eexists _, _, _, _. split; [done|exact Hg].
  - by apply cas_safe.
  - by apply Hcall.
  - cbn [access]. rewrite same_state at 1. apply safe_same; [done| |done|by left]. split; [lia|by left].
  - destruct Hp as (Hlv & Hx). cbn [access]. destruct (round_spec level x k Hlv Hx) as (next & -> & Hnx & Hc).
    unfold mbind, result_bind. destruct Hc as [(-> & Hnext & Hmove)|(-> & xs & ys & Hs & Hxs & Hlast & Hy)].
    { rewrite same_state at 1. apply safe_same; [done..|by left]. }
    destruct level as [|level]; rewrite same_state at 1.
    + apply safe_same; [done| |done|].
      * destruct Hy as [(_ & ->)|(n & ys' & _ & _ & Hn' & _)]; [by left|right; eauto].
      * right. cbn [stat]. replace (nd_key <$> sl_heap s !! next) with (sl_seek compare_ k (ab lv)); [constructor|].
        rewrite Hs, fmap_app. destruct Hy as [(-> & ->)|(n & ys' & -> & _ & Hn' & Hge)].
        -- rewrite (lk_null _ _ _ _ Hl). rewrite sl_seek_split; [done|by apply Forall_fmap|done].
        -- rewrite Hn'. rewrite sl_seek_split; [done|by apply Forall_fmap|done].
    + apply safe_same; [done| |done|by left]. split; [lia|]. apply (lf_on_level_mono compare_ _ _ _ Hl level (S level)); [lia|done].
  - by apply Hcall.
Qed.

End step.

(** ** The contents *)

(** The keys along the lowest level. *)
Fixpoint keys_from (fuel : nat) h (a : addr) : list E :=
  match fuel with
  | O => []
  | S fuel =>
      match h !! a with
      | Some n => nd_key n :: keys_from fuel h (default NULL (head (nd_next n)))
      | None => []
      end
  end.

Definition contents (s : skiplist (E := E)) : list E :=
  keys_from (size (sl_heap s)) (sl_heap s) (default NULL (nxt (sl_heap s) 0 (head_ s))).

Lemma keys_from_spec fuel h hd lv a (ps : list (addr * E)) :
  list_ok compare_ h hd lv -> (length ps <= fuel)%nat -> ps ⊆ lv 0%nat -> chain (nxt h 0) a ps.*1 NULL ->
  keys_from fuel h a = ps.*2.
Proof.
  intros Hl. revert a ps. induction fuel as [|fuel IH]; intros a ps Hlen Hsub Hc; (destruct ps as [|[b kb] ps]; [|cbn in Hlen]).
  - done.
  - lia.
  - cbn in Hc |- *. subst a. by rewrite (lk_null _ _ _ _ Hl).
  - destruct Hc as (-> & _ & n & Hn & Hc). destruct (lk_node _ _ _ _ Hl 0 b kb) as (nb & Hb & <-); [apply Hsub; set_solver|].
    cbn [keys_from fmap list_fmap]. change (b, nd_key nb).1 with b. change (b, nd_key nb).2 with (nd_key nb). rewrite Hb. f_equal.
    unfold nxt in Hn. cbn [fst] in Hn. rewrite Hb in Hn. cbn in Hn. destruct (nd_next nb) as [|nx rest]; [done|]. cbn in Hn |- *. simplify_eq.
    apply IH; [lia|set_solver|done].
Qed.

Lemma level_size h hd lv i : (i < kMaxHeight)%nat -> list_ok compare_ h hd lv -> (length (lv i) < size h)%nat.
Proof.
  intros Hi Hl. pose proof (lk_chain _ _ _ _ Hl i Hi) as Hc. pose proof (chain_NoDup _ _ _ Hc) as Hnd.
  assert (Hsub : (list_to_set (hd :: (lv i).*1) : gset Z) ⊆ dom h).
  { intros a Ha%elem_of_list_to_set. apply elem_of_dom. apply elem_of_cons in Ha as [->|Ha].
    - destruct Hc as (_ & _ & n & Hn & _). unfold nxt in Hn. by destruct (h !! hd).
    - destruct (lk_fst _ _ _ _ Hl i a Ha) as (n & Hn & _). by rewrite Hn. }
  apply subseteq_size in Hsub. rewrite size_list_to_set in Hsub by done. rewrite size_dom in Hsub. cbn in Hsub. rewrite length_fmap in Hsub. lia.
Qed.

Lemma contents_spec s lv : list_ok compare_ (sl_heap s) (head_ s) lv -> contents s = (lv 0%nat).*2.
Proof.
  intros Hl. assert (H0 : (0 < kMaxHeight)%nat) by (unfold kMaxHeight; lia). unfold contents.
  destruct (lk_chain _ _ _ _ Hl 0 H0) as (_ & _ & n & Hn & Hc). rewrite Hn. cbn [default from_option id].
  pose proof (level_size _ _ _ 0 H0 Hl). eapply keys_from_spec; [done|lia|done|done].
Qed.

(** ** Runs *)

Definition stats (y : sys (E := E)) : list status := (fun t => stat (sl_heap (y_list y)) (t_phase t)) <$> y_thr y.

(** An access is invisible, or a step of the atomic table. *)
Definition simulates (y y' : sys (E := E)) : Prop :=
  (contents (y_list y') = contents (y_list y) /\ stats y' = stats y) \/
  spec_step compare_ (contents (y_list y)) (stats y) (contents (y_list y')) (stats y').

Lemma stat_stable mono h hd max lv h' lv' o ph :
  evolves hd o h lv h' lv' -> list_ok compare_ h hd lv -> phase_ok compare_ mono h hd max lv ph -> stat h' ph = stat h ph.
Proof.
  intros Hev Hl Hp. destruct ph; try done. cbn in *. destruct Hp as [->|[n Hn]].
  - by rewrite (ev_null _ _ _ _ _ _ Hev), (lk_null _ _ _ _ Hl).
  - destruct (ev_node _ _ _ _ _ _ Hev _ n Hn) as (n' & -> & Hk & _). rewrite Hn. cbn. by rewrite Hk.
Qed.

Lemma lf_step_inv mono y y' lv : inv compare_ mono y lv -> step compare_ mono y y' ->
  (exists lv', inv compare_ mono y' lv') /\ simulates y y'.
Proof using CompareOrder0.
  intros [Hl Hmax Hthr Hown] [j t e s' rnd' ph' Hj Ha Hfresh Hacc Hmono].
  destruct (access_safe mono (y_list y) lv Hl Hmax e (t_rnd t) (t_phase t) (Hthr j t Hj) Ha Hfresh)
    as [(s1 & rnd1 & ph1 & lv' & E1 & Hg)|[_ E1]]; [|congruence].
  rewrite Hacc in E1. injection E1 as <- <- <-. destruct Hg as [Hhd Hmax' Hl' Hp' Hev Ho Hsim].
  assert (Hne : forall i u x, i <> j -> y_thr y !! i = Some u -> own (t_phase u) = Some x -> own (t_phase t) <> Some x).
  { intros i u x Hij Hu Hx Hx'. apply Hij. by eapply Hown. }
  assert (Hst : stats (mkSys s' (<[j := mkThread rnd' ph']> (y_thr y))) = <[j := stat (sl_heap s') ph']> (stats y)).
  { unfold stats. cbn [y_thr y_list]. rewrite list_fmap_insert. cbn [t_phase]. apply list_eq. intros i.
    destruct (decide (i = j)) as [->|Hij].
    - rewrite !list_lookup_insert_eq; [done|rewrite length_fmap; by eapply lookup_lt_Some..].
    - rewrite !list_lookup_insert_ne, !list_lookup_fmap by done. destruct (y_thr y !! i) as [u|] eqn:Hu; [|done]. cbn. f_equal.
      eapply stat_stable; [exact Hev|done|by eapply Hthr]. }
  split.
  - exists lv'. split; cbn [y_list y_thr]; rewrite ?Hhd; [done..| |].
    + intros i u Hu. apply list_lookup_insert_Some in Hu as [(-> & <- & _)|(Hij & Hu)]; [done|].
      eapply (phase_ok_stable compare_ mono _ _ _ _ _ _ Hev); [done| |exact Hmono|by eapply Hthr]. intros x Hx. eapply Hne; [|exact Hu|done]. done.
    + assert (Hx1 : forall i u x, i <> j -> y_thr y !! i = Some u -> own (t_phase u) = Some x -> own ph' <> Some x).
      { intros i u x Hij Hu Hx Hx'. destruct (Ho x Hx') as [Hx''|Hno]; [by eapply Hne|].
        pose proof (Hthr i u Hu) as Hpu.
        assert (Hin : exists n, sl_heap (y_list y) !! x = Some n).
        { destruct (t_phase u) as [| | | | | | |l x0 i0|l x0 i0 su|l x0 i0 su| | | |]; try done; cbn in Hx, Hpu; injection Hx as ->.
          - destruct Hpu as (_ & _ & (_ & (n & Hn & _) & _) & _). eauto.
          - destruct Hpu as ((_ & _ & (_ & (n & Hn & _) & _) & _) & _). eauto.
          - destruct Hpu as ((_ & _ & (_ & (n & Hn & _) & _) & _) & _). eauto. }
        destruct Hin. congruence. }
      intros i i' u u' x Hu Hu' Hx Hx'.
      apply list_lookup_insert_Some in Hu as [(Hij & <- & _)|(Hij & Hu)]; apply list_lookup_insert_Some in Hu' as [(Hij' & <- & _)|(Hij' & Hu')].
      * congruence.
      * exfalso. eapply (Hx1 i' u' x); [congruence|done..].
      * exfalso. eapply (Hx1 i u x); [congruence|done..].
      * by eapply Hown.
  - unfold simulates. rewrite Hst. cbn [y_list]. rewrite (contents_spec _ _ Hl). rewrite (contents_spec s' lv') by (by rewrite Hhd).
    destruct Hsim as [[-> Hsame]|Hsp].
    + left. split; [done|]. rewrite Hsame. apply list_insert_id. unfold stats. by rewrite list_lookup_fmap, Hj.
    + right. econstructor; [|exact Hsp]. unfold stats. by rewrite list_lookup_fmap, Hj.
Qed.

Lemma start_inv mono a k jh n : a <> NULL -> inv compare_ mono (start a k jh n) (fun _ => []).
Proof.
  intros Ha. assert (Hidle : forall j t, y_thr (start a k jh n) !! j = Some t -> t_phase t = Idle).
  { intros j t Hj. cbn in Hj. by apply lookup_replicate in Hj as [-> _]. }
  split.
  - cbn. split; [by rewrite lookup_singleton_ne| |by intros i b kb Hb%elem_of_nil|constructor|done].
    intros i Hi. split_and!; [done..|]. exists NULL. split; [|done]. unfold nxt. rewrite lookup_singleton_eq.
    apply (lookup_replicate_2 kMaxHeight NULL i Hi).
  - cbn. unfold kMaxHeight. lia.
  - intros j t Hj. by rewrite (Hidle j t Hj).
  - intros i j t u x Ht _ Hx. by rewrite (Hidle i t Ht) in Hx.
Qed.

Lemma lf_reachable_inv mono y : reachable compare_ mono y -> exists lv, inv compare_ mono y lv.
Proof using CompareOrder0.
  induction 1 as [a k jh n Ha|y y' _ [lv Hi] Hs]; [eexists; by apply start_inv|]. by apply (lf_step_inv mono y y' lv).
Qed.

(** C9: [LockfreeSkipList] is linearizable: in every interleaving of [Insert] and
    [Seek] calls the keys are strictly sorted and every access is invisible or is
    one step of an atomic sorted list.  No access faults, except that [Insert] may
    use a predecessor that it has not set; this needs a thread that lowers
    [max_height_], and without one no access faults at all. *)
Theorem lfskiplist_linearizable mono y :
  reachable compare_ mono y ->
  StronglySorted (fun a b => compare_ a b < 0) (contents (y_list y)) /\
  (forall y', step compare_ mono y y' -> simulates y y') /\
  (forall j t e, y_thr y !! j = Some t -> in_addr e <> NULL -> sl_heap (y_list y) !! in_addr e = None ->
     (exists r, access compare_ e (y_list y) (t_rnd t) (t_phase t) = Ok r) \/
     (mono = false /\ access compare_ e (y_list y) (t_rnd t) (t_phase t) = Fault Undefined)).
Proof using CompareOrder0.
  intros [lv Hi]%lf_reachable_inv. pose proof Hi as [Hl Hmax Hthr _]. split; [|split].
  - rewrite (contents_spec _ _ Hl). pose proof (lk_sorted _ _ _ _ Hl 0) as Hs. clear -Hs.
    induction Hs as [|p ps _ IH Hp]; [constructor|]. constructor; [done|]. by apply Forall_fmap.
  - intros y' Hs. by apply (lf_step_inv mono y y' lv).
  - intros j t e Hj Ha Hf. destruct (access_safe mono (y_list y) lv Hl Hmax e (t_rnd t) (t_phase t) (Hthr j t Hj) Ha Hf)
      as [(s1 & rnd1 & ph1 & lv' & E1 & _)|?]; [left; eauto|by right].
Qed.

End steps.

(** ** Examples *)

#[export] Instance Zsub_order : CompareOrder Z.sub.
Proof. split; intros; lia. Qed.

Lemma fold_left_ind {A B} (R : A -> Prop) (f : A -> B -> A) l y :
  (forall a b, R a -> R (f a b)) -> R y -> R (fold_left f l y).
Proof. intros Hf. revert y. induction l as [|b l IH]; cbn; auto. Qed.

(** One access of thread [j]; the allocator returns the next unused address. *)
Definition z_step (mono : bool) (j : nat) (c : call (E := Z)) (y : sys) : sys :=
  match y_thr y !! j with
  | Some t =>
      let e := mkInput c (100 + Z.of_nat (size (sl_heap (y_list y)))) (fun _ => 0) in
      if bool_decide (sl_heap (y_list y) !! in_addr e = None) then
        match access Z.sub e (y_list y) (t_rnd t) (t_phase t) with
        | Ok (s, rnd, ph) =>
            if mono && (max_height_ s <? max_height_ (y_list y))%nat then y
            else mkSys s (<[j := mkThread rnd ph]> (y_thr y))
        | Fault _ => y
        end
      else y
  | None => y
  end.

Lemma z_step_reachable mono j c y : reachable Z.sub mono y -> reachable Z.sub mono (z_step mono j c y).
Proof.
  intros Hr. unfold z_step. destruct (y_thr y !! j) as [t|] eqn:Hj; [|done]. set (e := mkInput c _ _).
  case_bool_decide as Hf; [|done]. destruct (access _ _ _ _ _) as [[[s rnd] ph]|] eqn:Ha; [|done].
  destruct (mono && _) eqn:Hm; [done|]. eapply reach_step; [exact Hr|]. eapply step_thread; [exact Hj| |exact Hf|exact Ha|].
  - cbn. unfold NULL. lia.
  - intros ->. cbn in Hm. apply Nat.ltb_ge in Hm. done.
Qed.

Definition z_run (mono : bool) (sched : list (nat * call (E := Z))) (y : sys) : sys :=
  fold_left (fun y p => z_step mono p.1 p.2 y) sched y.

Lemma z_run_reachable mono sched y : reachable Z.sub mono y -> reachable Z.sub mono (z_run mono sched y).
Proof. unfold z_run. apply fold_left_ind. intros a p. apply z_step_reachable. Qed.

(** Two threads insert 5 and 3 in turns, then a third one seeks 4. *)
Definition lf_run : sys :=
  z_run true (concat (replicate 20 [(0%nat, CInsert 5); (1%nat, CInsert 3)]) ++ replicate 4 (2%nat, CSeek 4)) (start 1 0 0 3).

Lemma lf_run_reachable : reachable Z.sub true lf_run.
Proof. apply z_run_reachable. by constructor. Qed.

Lemma lf_run_contents : contents (y_list lf_run) = [3; 5].
Proof. vm_compute. reflexivity. Qed.

Lemma lfskiplist_linearizable_witness : StronglySorted (fun a b => a - b < 0) [3; 5].
Proof.
  exact (eq_ind _ (fun l => StronglySorted (fun a b => a - b < 0) l)
    (proj1 (lfskiplist_linearizable Z.sub true lf_run lf_run_reachable)) _ lf_run_contents).
Defined.

(** A call of thread [j], to its end. *)
Fixpoint z_call (fuel : nat) (j : nat) (c : call (E := Z)) (y : sys) : sys :=
  match fuel with
  | O => y
  | S fuel =>
      let y := z_step false j c y in
      match t_phase <$> y_thr y !! j with
      | Some (IDone _ _ | SDone _ _) => y
      | _ => z_call fuel j c y
      end
  end.

Lemma z_call_reachable fuel j c y : reachable Z.sub false y -> reachable Z.sub false (z_call fuel j c y).
Proof.
  revert y. induction fuel as [|fuel IH]; intros y Hr; [done|]. cbn. pose proof (z_step_reachable false j c y Hr) as Hs.
  destruct (t_phase <$> _) as [[]|]; auto.
Qed.

Definition z_calls (j : nat) (ks : list Z) (y : sys) : sys := fold_left (fun y k => z_call 200 j (CInsert k) y) ks y.

Lemma z_calls_reachable j ks y : reachable Z.sub false y -> reachable Z.sub false (z_calls j ks y).
Proof. unfold z_calls. apply fold_left_ind. intros a k. apply z_call_reachable. Qed.

(** Thread 0 decides to raise [max_height_] to 2; thread 1 raises it to 3; thread
    2, whose node has height 3, sees 3; thread 0 stores 2; thread 2 starts its
    search, which then sets two predecessors only. *)
Definition race_run : sys :=
  let y := z_run false [(0%nat, CInsert 7); (0%nat, CInsert 7)] (start 1 0 0 3) in
  let y := z_calls 1 (seqZ 10 17) y in
  let y := z_calls 2 (seqZ 30 16) y in
  let y := z_run false [(2%nat, CInsert 46); (2%nat, CInsert 46); (0%nat, CInsert 7); (0%nat, CInsert 7)] y in
  z_run false (replicate 100 (2%nat, CInsert 46)) y.

Lemma race_run_reachable : reachable Z.sub false race_run.
Proof.
  unfold race_run. cbv zeta. apply z_run_reachable. apply z_run_reachable. apply z_calls_reachable. apply z_calls_reachable.
  apply z_run_reachable. constructor. discriminate.
Qed.

(** The race on [max_height_] makes [Insert] use an uninitialised predecessor. *)
Example height_race :
  reachable Z.sub false race_run /\
  (t ← from_opt Undefined (y_thr race_run !! 2%nat);
   r ← access Z.sub (mkInput (CInsert 46) 1000 (fun _ => 0)) (y_list race_run) (t_rnd t) (t_phase t); Ok tt) = Fault Undefined /\
  match t_phase <$> y_thr race_run !! 2%nat with Some (IScan l x 2) => lo_height l = 3%nat | _ => False end.
Proof. split; [exact race_run_reachable|]. split; vm_compute; reflexivity. Qed.
