(* ===== verification/LFSkipListCalls.v ===== *)
(** * Calls of LockfreeSkipList that return

    The searches and the iterator of one thread end within their fuel and answer
    from the contents, in every reachable state; an [Insert] that is not
    disturbed returns and inserts. *)

From Stdlib Require Import Sorted.
From S2P Require Import Prelude Random TXMemStore LFSkipList LFSkipListInv LFSkipListSpec.

(** ** How far a search still has to go *)

Fixpoint behind (x : addr) (l : list addr) : nat :=
  match l with
  | [] => O
  | y :: l => if y =? x then length l else behind x l
  end.

Lemma behind_app x zs ys : x ∉ zs -> behind x (zs ++ ys) = behind x ys.
Proof.
  induction zs as [|z zs IH]; [done|]. intros [Hz Hx]%not_elem_of_cons. cbn.
  rewrite (proj2 (Z.eqb_neq _ _)) by done. by apply IH.
Qed.

Lemma behind_lt x l : x ∈ l -> (behind x l < length l)%nat.
Proof.
  induction l as [|y l IH]; [by intros ?%not_elem_of_nil|]. cbn. destruct (Z.eqb_spec y x) as [->|Hne]; [lia|].
  intros [->|Hx]%elem_of_cons; [done|]. specialize (IH Hx). lia.
Qed.

Lemma NoDup_split_unique {A} (q : A) xs ys us vs :
  NoDup (xs ++ q :: ys) -> xs ++ q :: ys = us ++ q :: vs -> us = xs /\ vs = ys.
Proof.
  revert us. induction xs as [|x xs IH]; intros [|u us] Hnd Heq; cbn in *.
  - by injection Heq as ->.
  - injection Heq as -> ->. apply NoDup_cons in Hnd as [Hn _]. set_solver.
  - injection Heq as -> _. apply NoDup_cons in Hnd as [Hn _]. set_solver.
  - injection Heq as -> Heq. apply NoDup_cons in Hnd as [_ Hnd]. by destruct (IH us Hnd Heq) as [-> ->].
Qed.

Section calls.
Context {E : Type} (compare_ : E -> E -> Z) `{!CompareOrder compare_}.
Abbreviation levels := (nat -> list (addr * E)) (only parsing).
Implicit Types (h : gmap Z (Node (E := E))) (lv : levels) (l : locals (E := E)) (ph : phase (E := E)).

Section state.
Context (s : skiplist (E := E)) (lv : levels).
Context (Hl : list_ok compare_ (sl_heap s) (head_ s) lv).
Abbreviation hd := (head_ s).

Definition rank (x : addr) : nat := behind x (hd :: (lv 0%nat).*1).

Lemma lowest_nodup : NoDup (hd :: (lv 0%nat).*1).
Proof using Hl. eapply chain_NoDup, (lk_chain _ _ _ _ Hl). unfold kMaxHeight. lia. Qed.

Lemma rank_next i xs b kb ys x : (i < kMaxHeight)%nat -> lv i = xs ++ (b, kb) :: ys -> list.last (hd :: xs.*1) = Some x ->
  (rank b < rank x)%nat.
Proof using Hl CompareOrder0.
  intros Hi Hs Hlast. pose proof lowest_nodup as Hnd. pose proof Hnd as [Hhd Hnd']%NoDup_cons.
  assert (Hb : (b, kb) ∈ lv 0%nat) by (apply (lf_lk_mono _ _ _ _ Hl 0 i); [lia|]; rewrite Hs; set_solver).
  assert (Hb1 : b ∈ (lv 0%nat).*1) by (apply list_elem_of_fmap; by exists (b, kb)).
  assert (Hbh : b <> hd) by (by intros ->). unfold rank.
  destruct xs as [|[x' kx] xs _] using rev_ind.
  - injection Hlast as <-. cbn [behind]. rewrite Z.eqb_refl, (proj2 (Z.eqb_neq _ _)) by done. by apply behind_lt.
  - rewrite fmap_app, app_comm_cons in Hlast. cbn [fmap list_fmap fst] in Hlast. rewrite last_snoc in Hlast. injection Hlast as ->.
    assert (Hx : (x, kx) ∈ lv 0%nat) by (apply (lf_lk_mono _ _ _ _ Hl 0 i); [lia|]; rewrite Hs; set_solver).
    assert (Hlt : compare_ kx kb < 0).
    { pose proof (lk_sorted _ _ _ _ Hl i) as Hsort. rewrite Hs in Hsort. apply sorted_before in Hsort.
      rewrite Forall_forall in Hsort. apply (Hsort (x, kx)). set_solver. }
    apply list_elem_of_split in Hx as (us & vs & Hus). pose proof (lk_sorted _ _ _ _ Hl 0) as Hsort.
    rewrite Hus, fmap_app in Hnd. rewrite Hus in Hsort, Hb. rewrite Hus, fmap_app. cbn [fmap list_fmap fst] in *.
    assert (Hbv : (b, kb) ∈ vs).
    { apply elem_of_app in Hb as [Hb|[[= -> ->]|Hb]%elem_of_cons]; [exfalso|exfalso; by rewrite (co_refl compare_) in Hlt|done].
      apply sorted_before in Hsort. rewrite Forall_forall in Hsort. specialize (Hsort (b, kb) Hb).
      apply (co_sym compare_) in Hsort. cbn in Hsort. lia. }
    assert (Hbv1 : b ∈ vs.*1) by (apply list_elem_of_fmap; by exists (b, kb)).
    rewrite app_comm_cons in Hnd. apply NoDup_app in Hnd as (_ & Hdis & Hnv). apply NoDup_cons in Hnv as [Hxv _].
    assert (Hxz : x ∉ hd :: us.*1) by (intros Hx; apply (Hdis x Hx); set_solver).
    assert (Hbz : b ∉ hd :: us.*1) by (intros Hx; apply (Hdis b Hx); set_solver).
    rewrite app_comm_cons, !behind_app by done. cbn [behind]. rewrite Z.eqb_refl, (proj2 (Z.eqb_neq _ _)).
    + by apply behind_lt.
    + intros ->. done.
Qed.

Context (Hmax : (1 <= max_height_ s <= kMaxHeight)%nat).

Lemma rank_hd : rank hd = length (lv 0%nat).
Proof. unfold rank. cbn. by rewrite Z.eqb_refl, length_fmap. Qed.

(** Where a search for [k] ends: [x] is the last node before [k], [next] the
    first one that is not. *)
Definition found (k : E) (x next : addr) : Prop :=
  exists xs ys, lv 0%nat = xs ++ ys /\ Forall (fun p => compare_ p.2 k < 0) xs /\ list.last (hd :: xs.*1) = Some x /\
    match ys with [] => next = NULL | (b, kb) :: _ => next = b /\ 0 <= compare_ kb k end.

Lemma find_loops fuel k x i : (i < kMaxHeight)%nat -> on_level compare_ lv hd i x k -> (rank x + i < fuel)%nat ->
  exists x' next, found k x' next /\ FindGreaterOrEqual_loop compare_ fuel (sl_heap s) k x i = Ok next /\
    FindLessThan_loop compare_ fuel (sl_heap s) k x i = Ok x'.
Proof using Hl Hmax CompareOrder0.
  revert x i. induction fuel as [|fuel IH]; intros x i Hi Hx Hf; [lia|].
  destruct (read_spec compare_ _ _ _ Hl i x k Hi Hx) as (xs & ys & next & Hs & Hxs & Hlast & _ & Hnext & Hc).
  cbn [FindGreaterOrEqual_loop FindLessThan_loop]. rewrite Hnext. unfold mbind, result_bind.
  assert (Hdown : match ys with [] => next = NULL | (b, kb) :: _ => next = b /\ 0 <= compare_ kb k end ->
    exists x' next', found k x' next' /\
      match i with O => Ok next | S i => FindGreaterOrEqual_loop compare_ fuel (sl_heap s) k x i end = Ok next' /\
      match i with O => Ok x | S i => FindLessThan_loop compare_ fuel (sl_heap s) k x i end = Ok x').
  { intros Hy. destruct i as [|i].
    - exists x, next. split; [|done]. by exists xs, ys.
    - apply IH; [lia| |lia]. apply (lf_on_level_mono compare_ _ _ _ Hl i (S i)); [lia|done]. }
  destruct Hc as [(-> & -> & ->)|(kn & ys' & n & -> & Hn0 & Hn & <- & ->)]; [by apply Hdown|].
  rewrite (proj2 (Z.eqb_neq _ _) Hn0). unfold node. rewrite Hn. cbn [from_opt].
  destruct (Z.ltb_spec (compare_ (nd_key n) k) 0) as [Hlt|Hge].
  - rewrite (proj2 (Z.leb_gt _ _)) by done. apply IH; [done| |].
    + right. exists (nd_key n). split; [|done]. rewrite Hs. set_solver.
    + pose proof (rank_next i xs next (nd_key n) ys' x Hi Hs Hlast). lia.
  - rewrite (proj2 (Z.leb_le _ _)) by done. by apply Hdown.
Qed.

Lemma fuel_enough : (rank hd + (max_height_ s - 1) < search_fuel s)%nat.
Proof using Hl Hmax.
  rewrite rank_hd. unfold search_fuel. pose proof (level_size compare_ _ _ lv 0 ltac:(unfold kMaxHeight; lia) Hl). lia.
Qed.

Lemma find_spec k : exists x next, found k x next /\
  FindGreaterOrEqual compare_ s k = Ok next /\ FindLessThan compare_ s k = Ok x.
Proof using Hl Hmax CompareOrder0.
  apply (find_loops (search_fuel s) k hd (max_height_ s - 1)); [lia|by left|apply fuel_enough].
Qed.

Lemma found_seek k x next : found k x next -> nd_key <$> sl_heap s !! next = sl_seek compare_ k (contents s).
Proof using All.
  intros (xs & ys & Hs & Hxs & _ & Hy). rewrite (contents_spec compare_ s lv Hl), Hs, fmap_app.
  destruct ys as [|[b kb] ys].
  - subst next. rewrite (lk_null _ _ _ _ Hl), sl_seek_split; [done|by apply Forall_fmap|done].
  - destruct Hy as [-> Hge]. rewrite sl_seek_split; [|by apply Forall_fmap|done].
    destruct (lk_node _ _ _ _ Hl 0 b kb) as (n & Hn & <-); [rewrite Hs; set_solver|]. by rewrite Hn.
Qed.

Lemma last_loop fuel x i : (i < kMaxHeight)%nat -> x = hd \/ x ∈ (lv i).*1 -> (rank x + i < fuel)%nat ->
  FindLast_loop fuel (sl_heap s) x i = Ok (default hd (list.last (lv 0%nat).*1)).
Proof using All.
  revert x i. induction fuel as [|fuel IH]; intros x i Hi Hx Hf; [lia|].
  destruct (link_any compare_ _ _ _ Hl i x Hi Hx) as (xs & ys & Hs & Hlast & Hn).
  cbn [FindLast_loop]. rewrite (nxt_Next _ _ _ _ Hn). unfold mbind, result_bind. destruct ys as [|[b kb] ys].
  - cbn. destruct i as [|i].
    + rewrite app_nil_r in Hs. rewrite Hs. destruct xs as [|q xs _] using rev_ind; [cbn in Hlast |- *; congruence|].
      rewrite fmap_app in Hlast |- *. rewrite app_comm_cons in Hlast. cbn [fmap list_fmap] in *. rewrite last_snoc in *. cbn. congruence.
    + apply IH; [lia| |lia]. destruct Hx as [->|Hx]; [by left|right]. apply list_elem_of_fmap in Hx as (q & -> & Hq).
      apply list_elem_of_fmap. exists q. split; [done|]. by apply (lk_sub _ _ _ _ Hl).
  - change (default NULL (head ((b, kb) :: ys).*1)) with b.
    assert (Hin : (b, kb) ∈ lv i) by (rewrite Hs; set_solver). destruct (lk_node _ _ _ _ Hl i b kb Hin) as (n & Hnn & _).
    rewrite (proj2 (Z.eqb_neq _ _)) by (intros ->; by rewrite (lk_null _ _ _ _ Hl) in Hnn).
    apply IH; [done| |].
    + right. apply list_elem_of_fmap. by exists (b, kb).
    + pose proof (rank_next i xs b kb ys x Hi Hs Hlast). lia.
Qed.

Lemma last_spec : FindLast s = Ok (default hd (list.last (lv 0%nat).*1)).
Proof using All. apply last_loop; [lia|by left|apply fuel_enough]. Qed.

(** The key an iterator stands at. *)
Definition key_at (x : addr) : option E := nd_key <$> sl_heap s !! x.

Lemma key_at_fst (p : addr * E) : p ∈ lv 0%nat -> key_at p.1 = Some p.2.
Proof using All.
  destruct p as [a k]. intros Hp. destruct (lk_node _ _ _ _ Hl 0 a k Hp) as (n & Hn & <-). unfold key_at. cbn. by rewrite Hn.
Qed.

Lemma key_at_null : key_at NULL = None.
Proof using All. unfold key_at. by rewrite (lk_null _ _ _ _ Hl). Qed.

Lemma key_at_head (ps : list (addr * E)) : ps ⊆ lv 0%nat -> key_at (default NULL (head ps.*1)) = head ps.*2.
Proof using All.
  destruct ps as [|p ps]; intros Hs; [apply key_at_null|]. apply key_at_fst. apply Hs. set_solver.
Qed.

(** The head stands for the invalid position. *)
Lemma key_at_last (ps : list (addr * E)) x : ps ⊆ lv 0%nat -> list.last (hd :: ps.*1) = Some x ->
  key_at (if x =? hd then NULL else x) = list.last ps.*2.
Proof using All.
  intros Hs Hx. destruct ps as [|p ps _] using rev_ind.
  - injection Hx as <-. rewrite Z.eqb_refl. apply key_at_null.
  - rewrite fmap_app, app_comm_cons in Hx. cbn [fmap list_fmap] in Hx. rewrite last_snoc in Hx. injection Hx as <-.
    assert (Hp : p ∈ lv 0%nat) by (apply Hs; set_solver).
    rewrite (proj2 (Z.eqb_neq _ _)).
    + rewrite key_at_fst by done. rewrite fmap_app. cbn [fmap list_fmap]. by rewrite last_snoc.
    + intros Hph. apply (lk_hd_out _ _ _ _ Hl 0); [unfold kMaxHeight; lia|]. rewrite <- Hph. by apply list_elem_of_fmap_2.
Qed.

Lemma lf_Seek_spec k : exists x, Iter_Seek compare_ s k = Ok x /\ key_at x = sl_seek compare_ k (contents s).
Proof using All.
  destruct (find_spec k) as (x & next & Hf & Hg & _). exists next. split; [done|]. by apply (found_seek k x).
Qed.

Lemma Contains_spec k : Contains compare_ s k = Ok (negb (absent compare_ k (contents s))).
Proof using All.
  destruct (find_spec k) as (x & next & (xs & ys & Hs & Hxs & _ & Hy) & Hg & _). unfold Contains. rewrite Hg. unfold mbind, result_bind.
  pose proof (lk_sorted _ _ _ _ Hl 0) as Hsort. rewrite (contents_spec compare_ s lv Hl), Hs. rewrite Hs in Hsort.
  destruct ys as [|[b kb] ys].
  - subst next. cbn. by rewrite absent_between.
  - destruct Hy as [-> Hge]. destruct (lk_node _ _ _ _ Hl 0 b kb) as (n & Hn & <-); [rewrite Hs; set_solver|].
    rewrite (proj2 (Z.eqb_neq _ _)) by (intros ->; by rewrite (lk_null _ _ _ _ Hl) in Hn). unfold node. rewrite Hn. cbn [from_opt]. f_equal.
    destruct (Equal compare_ k (nd_key n)) eqn:He.
    + apply (Equal_iff compare_) in He. unfold absent. rewrite fmap_app, forallb_app. cbn. rewrite He. cbn. by rewrite andb_false_r.
    + assert (Hne : compare_ (nd_key n) k <> 0) by (intros E0; apply (Equal_iff compare_) in E0; congruence).
      rewrite absent_between; [done..|]. apply (tail_after compare_ k xs); [done|]. cbn. lia.
Qed.

Lemma ends_spec : exists a b, Iter_SeekToFirst s = Ok a /\ key_at a = head (contents s) /\
  Iter_SeekToLast s = Ok b /\ key_at b = list.last (contents s).
Proof using All.
  rewrite (contents_spec compare_ s lv Hl).
  destruct (link_any compare_ _ _ _ Hl 0 hd) as (xs & ys & Hs & Hlast & Hn); [unfold kMaxHeight; lia|by left|].
  assert (Hn0 : nxt (sl_heap s) 0 hd = Some (default NULL (head (lv 0%nat).*1))).
  { destruct (lk_chain _ _ _ _ Hl 0) as (_ & _ & n & Hn0 & Hc); [unfold kMaxHeight; lia|]. rewrite Hn0. f_equal. by apply chain_first in Hc. }
  eexists _, _. split; [apply (nxt_Next _ _ _ _ Hn0)|]. split; [by apply key_at_head|].
  unfold Iter_SeekToLast. rewrite last_spec. split; [done|].
  destruct (list.last (lv 0%nat).*1) as [x|] eqn:El; cbn [default from_option id].
  - apply key_at_last; [done|]. by rewrite last_cons, El.
  - apply key_at_last; [done|]. by rewrite last_cons, El.
Qed.

Lemma lowest_split p xs ys us vs : p ∈ lv 0%nat -> lv 0%nat = xs ++ p :: ys -> lv 0%nat = us ++ p :: vs -> us = xs /\ vs = ys.
Proof using All.
  intros _ Hs Hs'. pose proof (lowest_nodup) as [_ Hnd]%NoDup_cons. apply NoDup_fmap_1 in Hnd.
  apply (NoDup_split_unique p); congruence.
Qed.

(** The search for a key that is there ends at its node. *)
Lemma found_present x kx xs ys x' next : lv 0%nat = xs ++ (x, kx) :: ys -> found kx x' next ->
  next = x /\ list.last (hd :: xs.*1) = Some x'.
Proof using All.
  intros Hs (us & vs & Hs' & Hus & Hlast & Hv). assert (Hin : (x, kx) ∈ lv 0%nat) by (rewrite Hs; set_solver).
  assert (Hvs : exists vs', vs = (x, kx) :: vs').
  { pose proof Hin as Hin'. rewrite Hs' in Hin'. rewrite Forall_forall in Hus. apply elem_of_app in Hin' as [Hin'|Hin'].
    { specialize (Hus _ Hin'). cbn in Hus. rewrite (co_refl compare_) in Hus. lia. }
    destruct vs as [|[b kb] vs]; [by apply not_elem_of_nil in Hin'|]. destruct Hv as [_ Hge].
    apply elem_of_cons in Hin' as [<-|Hin']; [eauto|exfalso]. pose proof (lk_sorted _ _ _ _ Hl 0) as Hsort.
    apply list_elem_of_split in Hin' as (ws & zs & ->). rewrite Hs', app_comm_cons, app_assoc in Hsort. apply sorted_before in Hsort.
    rewrite Forall_forall in Hsort. specialize (Hsort (b, kb) ltac:(set_solver)). unfold cmp2 in Hsort. cbn in Hsort. lia. }
  destruct Hvs as [vs' ->]. destruct (lowest_split (x, kx) xs ys us vs' Hin Hs Hs') as [-> ->]. split; [by destruct Hv|done].
Qed.

Lemma next_present x kx xs ys : lv 0%nat = xs ++ (x, kx) :: ys -> nxt (sl_heap s) 0 x = Some (default NULL (head ys.*1)).
Proof using All.
  intros Hs. assert (Hin : (x, kx) ∈ lv 0%nat) by (rewrite Hs; set_solver). assert (H0 : (0 < kMaxHeight)%nat) by (unfold kMaxHeight; lia).
  pose proof (lk_chain _ _ _ _ Hl 0 H0) as Hc. rewrite Hs, fmap_app, app_comm_cons in Hc. apply chain_app in Hc as (r & _ & Hr).
  destruct Hr as (-> & _ & m & Hm & Hc). apply chain_first in Hc as ->. done.
Qed.

(** [Next] and [Prev] move to the neighbours in the contents. *)
Lemma moves_spec ks k ks' : contents s = ks ++ k :: ks' ->
  exists x a b, Iter_Seek compare_ s k = Ok x /\ key_at x = Some k /\
    Iter_Next s x = Ok a /\ key_at a = head ks' /\ Iter_Prev compare_ s x = Ok b /\ key_at b = list.last ks.
Proof using All.
  rewrite (contents_spec compare_ s lv Hl). intros Hc. apply fmap_app_inv in Hc as (xs & ys & -> & Hy & Hs).
  destruct ys as [|[x kx] ys]; [done|]. injection Hy as -> ->. cbn [snd] in *.
  assert (Hin : (x, kx) ∈ lv 0%nat) by (rewrite Hs; set_solver).
  destruct (lk_node _ _ _ _ Hl 0 x kx Hin) as (n & Hn & Hk).
  destruct (find_spec kx) as (x' & next & Hf & Hg & Hlt). destruct (found_present x kx xs ys x' next Hs Hf) as [-> Hlast].
  exists x. eexists _, _. split; [exact Hg|]. split; [by apply (key_at_fst (x, kx))|].
  split; [apply (nxt_Next _ _ _ _ (next_present x kx xs ys Hs))|]. split; [apply key_at_head; rewrite Hs; set_solver|].
  unfold Iter_Prev, node. rewrite Hn. unfold mbind, result_bind. cbn [from_opt].
  rewrite Hk, Hlt. split; [done|]. apply key_at_last; [rewrite Hs; set_solver|done].
Qed.

End state.

(** ** An insertion that is not disturbed *)

Section alone.
Context (e : input (E := E)) (k : E) (l0 : list E).

Definition quiet ph : bool := match ph with Idle | IDone _ _ | SDone _ _ => true | _ => false end.

Abbreviation cfg := (skiplist (E := E) * Z * phase (E := E))%type.

Definition alone (a b : cfg) : Prop := quiet a.2 = false /\ access compare_ e a.1.1 a.1.2 a.2 = Ok b.

Lemma run_alone_rtc (a b : cfg) : rtc alone a b -> quiet b.2 = true -> b.2 <> Idle ->
  exists fuel, run_alone compare_ fuel e a.1.1 a.1.2 a.2 = Ok b.
Proof.
  intros Hr Hq Hi. induction Hr as [[[s rnd] ph]|[[s rnd] ph] [[s1 rnd1] ph1] b [Hqa Ha] _ IH].
  - exists 0%nat. by destruct ph.
  - destruct (IH Hq Hi) as [fuel Hf]. exists (S fuel). cbn in Ha, Hqa, Hf |- *. rewrite Ha. by destruct ph.
Qed.

(** The insertion of [k] into [l0] is pending, or has taken effect. *)
Definition progress (ls : list E) (st : status) : Prop :=
  (st = SPending (CInsert k) /\ ls = l0) \/ (st = SInserted k (absent compare_ k l0) /\ ls = sl_insert compare_ k l0).

Record Good (s : skiplist (E := E)) lv ph : Prop := {
  go_list : list_ok compare_ (sl_heap s) (head_ s) lv;
  go_max : (1 <= max_height_ s <= kMaxHeight)%nat;
  go_phase : phase_ok compare_ true (sl_heap s) (head_ s) (max_height_ s) lv ph;
  go_progress : progress (lv 0%nat).*2 (stat (sl_heap s) ph)
}.

Lemma progress_step ls st ls' st' : progress ls st -> (ls' = ls /\ st' = st) \/ th_spec compare_ ls st ls' st' ->
  ((exists c, st = SPending c) \/ forall c, st' <> SPending c) -> progress ls' st'.
Proof.
  intros Hp [[-> ->]|Hs] Hc; [done|]. destruct Hp as [[-> ->]|[-> ->]].
  - inversion Hs as [st0 c Hne| |]; subst; [by destruct (Hne (CInsert k))|]. by right.
  - inversion Hs as [st0 c Hne| |]; subst. destruct Hc as [[c' Hc]|Hc]; [done|by destruct (Hc c)].
Qed.

Lemma Good_good s lv ph s' lv' ph' : Good s lv ph -> good compare_ true s lv ph s' lv' ph' ->
  ((exists c, stat (sl_heap s) ph = SPending c) \/ forall c, stat (sl_heap s') ph' <> SPending c) -> Good s' lv' ph'.
Proof.
  intros [Hl Hm Hp Hj] [Hhd Hm' Hl' Hp' _ _ Hs] Hc. split; rewrite ?Hhd; [done..|]. by eapply progress_step.
Qed.

(** A step before the node is linked. *)
Lemma pending_step s rnd lv ph s' rnd' ph' :
  Good s lv ph -> (exists c, stat (sl_heap s) ph = SPending c) -> in_addr e <> NULL -> sl_heap s !! in_addr e = None ->
  access compare_ e s rnd ph = Ok (s', rnd', ph') -> exists lv', Good s' lv' ph'.
Proof using CompareOrder0.
  intros Hg Hc Ha Hf Hacc. pose proof Hg as [Hl Hm Hp _].
  destruct (access_safe compare_ true s lv Hl Hm e rnd ph Hp Ha Hf) as [(s1 & rnd1 & ph1 & lv' & E1 & Hgd)|[Hbad _]]; [|done].
  rewrite Hacc in E1. injection E1 as <- <- <-. exists lv'. eapply Good_good; [exact Hg|exact Hgd|by left].
Qed.

Definition finished (b : cfg) : Prop := exists lv' bb, Good b.1.1 lv' b.2 /\ b.2 = IDone k bb.

Lemma find_alone m s rnd lv l level x : Good s lv (IFind l level x) -> (rank s lv x + level <= m)%nat ->
  exists ph', rtc alone (s, rnd, IFind l level x) (s, rnd, ph') /\ Good s lv ph' /\ ((exists b, ph' = IDone k b) \/ exists l', ph' = INew l').
Proof using CompareOrder0.
  revert l level x. induction m as [m IH] using lt_wf_ind. intros l level x Hg Hm. pose proof Hg as [Hl Hmax Hp Hj].
  assert (Hkey : lo_key l = k) by (destruct Hj as [[[= ->] _]|[? _]]; done).
  destruct (find_step compare_ true s lv Hl Hmax e rnd l level x Hp) as (ph' & Hacc & Hp' & _ & Hn & Hst).
  assert (Hg' : Good s lv ph').
  { split; [done..|]. eapply progress_step; [exact Hj| |left; by exists (CInsert (lo_key l))]. destruct Hst as [Hst|Hst]; [by left|by right]. }
  assert (Hone : alone (s, rnd, IFind l level x) (s, rnd, ph')) by done.
  destruct ph' as [| | | | |l' level' x'|l'| | | |k' b| | |]; try done; cbn [find_next] in Hn.
  - destruct Hn as (Hkey' & Hn). assert (Hlt : (rank s lv x' + level' < rank s lv x + level)%nat).
    { destruct Hp as (_ & Hlv & _). destruct Hn as [(-> & xs & kn & ys & Hs & Hlast)|(-> & ->)]; [|lia].
      pose proof (rank_next s lv Hl level xs x' kn ys x Hlv Hs Hlast). lia. }
    destruct (IH (rank s lv x' + level')%nat ltac:(lia) l' level' x' Hg' ltac:(lia)) as (ph'' & Hr & Hg'' & He).
    exists ph''. split; [by eapply rtc_l|done].
  - exists (INew l'). split; [by apply rtc_once|]. split; [done|]. right. by exists l'.
  - exists (IDone k' b). split; [by apply rtc_once|]. split; [done|]. left. exists b. by rewrite Hn, Hkey.
Qed.

(** Linking one level: the compare-and-swap succeeds. *)
Lemma set_alone s rnd lv l x i succ p : Good s lv (ISet l x i succ) -> lo_preds l !! i = Some (Some p) ->
  nxt (sl_heap s) i p = Some succ ->
  exists s' lv', rtc alone (s, rnd, ISet l x i succ) (s', rnd, if (S i <? lo_height l)%nat then IScan l x (S i) else IDone (lo_key l) true) /\
    Good s' lv' (if (S i <? lo_height l)%nat then IScan l x (S i) else IDone (lo_key l) true).
Proof using CompareOrder0.
  intros Hg Hpi Hnp. pose proof Hg as [Hl Hmax Hp Hj].
  destruct (good_set compare_ true s lv Hl Hmax l x i succ Hp) as (p' & next & h' & Hpa & Hnx & Hset & Hgd).
  pose proof Hp as (Hk & _). destruct (pred_spec compare_ true s lv Hmax l x i p Hk Hpi) as (Hpa' & Hi12 & Hop).
  rewrite Hpa in Hpa'. injection Hpa' as ->. rewrite (nxt_Next _ _ _ _ Hnp) in Hnx. injection Hnx as <-.
  assert (Hg1 : Good (set_heap h' s) lv (ICas l x i succ)).
  { eapply Good_good; [exact Hg|exact Hgd|]. destruct i; [left; eauto|by right]. }
  pose proof Hk as (_ & Hi & Hnew & _). destruct (own_link s lv Hmax l x i Hnew Hi) as (old & Hold).
  destruct (SetNext_spec (sl_heap s) x i succ old Hold) as (h'' & Hset' & Hnx' & _). rewrite Hset in Hset'. injection Hset' as <-.
  pose proof Hg1 as [Hl1 Hmax1 Hp1 _]. destruct Hp1 as (Hk1 & Hs1 & _).
  assert (Hpx : p <> x).
  { intros ->. destruct Hnew as (Hxhd & _ & Hxj). destruct (on_level_in compare_ _ _ _ _ _ Hop) as [?|Hx]; [done|]. apply Hxj in Hx. lia. }
  assert (Hr1 : nxt h' i x = Some succ) by (by rewrite Hnx', decide_True).
  assert (Hp1 : nxt h' i p = Some succ) by (rewrite Hnx', decide_False; [done|naive_solver]).
  destruct (good_cas compare_ true (set_heap h' s) lv Hl1 Hmax1 l x i p succ Hk1 Hpi Hs1 Hr1 Hp1) as (h2 & Hset2 & Hgd2).
  eexists _, _. split; [|eapply Good_good; [exact Hg1|exact Hgd2|]].
  - eapply rtc_l; [|apply rtc_once].
    + split; [done|]. cbn [access fst snd]. rewrite Hpa. unfold mbind, result_bind. rewrite (nxt_Next _ _ _ _ Hnp), Hset. done.
    + split; [done|]. cbn [access fst snd]. rewrite Hpa. unfold mbind, result_bind. cbn [set_heap sl_heap] in Hset2 |- *.
      rewrite (nxt_Next _ _ _ _ Hp1), Z.eqb_refl, Hset2. done.
  - right. intros c. by destruct (_ <? _)%nat.
Qed.

Lemma lf_scan_alone d m s rnd lv l x i p : Good s lv (IScan l x i) -> (lo_height l - i <= d)%nat ->
  lo_preds l !! i = Some (Some p) -> (rank s lv p <= m)%nat ->
  exists b, rtc alone (s, rnd, IScan l x i) b /\ finished b.
Proof using CompareOrder0.
  revert m s rnd lv l x i p. induction d as [d IHd] using lt_wf_ind. induction m as [m IHm] using lt_wf_ind.
  intros s rnd lv l x i p Hg Hd Hpi Hm. pose proof Hg as [Hl Hmax Hp Hj].
  assert (Hkey : lo_key l = k) by (destruct i; destruct Hj as [[[=] _]|[[=] _]]; done).
  destruct (scan_step compare_ true s lv Hl Hmax e rnd l x i p Hp Hpi) as (ph' & Hacc & Hp' & _ & Hn & Hst).
  assert (Hg' : Good s lv ph').
  { split; [done..|]. eapply progress_step; [exact Hj| |].
    - destruct Hst as [Hst|Hst]; [by left|by right].
    - destruct i; [left; by exists (CInsert (lo_key l))|right]. intros c Hc.
      destruct ph' as [| | | | | | |l' x' i'|l' x' i' su| |k' b| | |]; try done; cbn [scan_next] in Hn.
      + destruct Hn as (_ & _ & _ & -> & _). done.
      + destruct Hn as (_ & _ & -> & _). done. }
  assert (Hone : alone (s, rnd, IScan l x i) (s, rnd, ph')) by done.
  destruct ph' as [| | | | | | |l' x' i'|l' x' i' su| |k' b| | |]; try done; cbn [scan_next] in Hn.
  - destruct Hn as (_ & Hh & -> & -> & succ & Hsucc & xs & kn & ys & Hs & Hlast).
    destruct Hp as ((_ & Hht & _) & Hi & _). assert (Hlt : (rank s lv succ < rank s lv p)%nat).
    { apply (rank_next s lv Hl i xs succ kn ys p); [lia|done..]. }
    destruct (IHm (rank s lv succ) ltac:(lia) s rnd lv l' x i succ Hg' ltac:(lia) Hsucc ltac:(lia)) as (b & Hr & Hf).
    exists b. split; [by eapply rtc_l|done].
  - destruct Hn as (-> & -> & -> & Hnx). destruct (set_alone s rnd lv l x i su p Hg' Hpi Hnx) as (s' & lv' & Hr & Hgs).
    destruct (Nat.ltb_spec (S i) (lo_height l)) as [Hlt|Hge].
    + pose proof Hgs as [Hl' _ (_ & _ & _ & Hf) _]. destruct (Hf eq_refl (S i) ltac:(lia)) as [p' Hp'i].
      destruct (IHd (lo_height l - S i)%nat ltac:(lia) (rank s' lv' p') s' rnd lv' l x (S i) p' Hgs ltac:(lia) Hp'i ltac:(lia)) as (b & Hr' & Hfin).
      exists b. split; [|done]. eapply rtc_l; [exact Hone|]. by etrans.
    + eexists. split; [eapply rtc_l; [exact Hone|exact Hr]|]. exists lv', true. split; [exact Hgs|]. cbn. by rewrite Hkey.
  - eexists. split; [by apply rtc_once|]. exists lv, b. split; [done|]. cbn. by rewrite Hn, Hkey.
Qed.

(** From the start of the search. *)
Lemma start_alone s rnd lv l : Good s lv (IStart l) -> in_addr e <> NULL -> sl_heap s !! in_addr e = None ->
  exists b, rtc alone (s, rnd, IStart l) b /\ finished b.
Proof using CompareOrder0.
  intros Hg Ha Hf. assert (Hone : alone (s, rnd, IStart l) (s, rnd, IFind l (max_height_ s - 1) (head_ s))) by done.
  destruct (pending_step s rnd lv (IStart l) _ _ _ Hg ltac:(eauto) Ha Hf (proj2 Hone)) as (lv1 & Hg1).
  destruct (find_alone _ s rnd lv1 l _ _ Hg1 (le_n _)) as (ph' & Hr & Hg2 & [[b ->]|[l' ->]]).
  - eexists. split; [by eapply rtc_l|]. by exists lv1, b.
  - pose (s1 := set_heap (<[in_addr e := NewNode (lo_key l') (lo_height l') (in_junk e)]> (sl_heap s)) s).
    assert (Hnew : alone (s, rnd, INew l') (s1, rnd, IScan l' (in_addr e) 0)) by done.
    destruct (pending_step s rnd lv1 (INew l') _ _ _ Hg2 ltac:(eauto) Ha Hf (proj2 Hnew)) as (lv2 & Hg3).
    pose proof Hg3 as [_ _ ((_ & Hh & _) & _ & _ & Hfl) _]. destruct (Hfl eq_refl 0%nat ltac:(lia)) as [p Hp].
    destruct (lf_scan_alone _ _ s1 rnd lv2 l' (in_addr e) 0 p Hg3 (le_n _) Hp (le_n _)) as (b & Hr' & Hfin).
    exists b. split; [|done]. eapply rtc_l; [exact Hone|]. etrans; [exact Hr|]. by eapply rtc_l.
Qed.

End alone.

Lemma insert_alone s rnd lv e k : list_ok compare_ (sl_heap s) (head_ s) lv -> (1 <= max_height_ s <= kMaxHeight)%nat ->
  in_call e = CInsert k -> in_addr e <> NULL -> sl_heap s !! in_addr e = None ->
  exists fuel s' rnd', run_alone compare_ fuel e s rnd Idle = Ok (s', rnd', IDone k (absent compare_ k (contents s))) /\
    contents s' = sl_insert compare_ k (contents s).
Proof using CompareOrder0.
  intros Hl Hmax Hc Ha Hf. rewrite (contents_spec compare_ s lv Hl). set (l0 := (lv 0%nat).*2).
  pose (l := mkLocals k (RandomHeight rnd).1 (replicate kMaxHeight None)). set (rnd1 := (RandomHeight rnd).2).
  assert (Hfirst : access compare_ e s rnd Idle = Ok (s, rnd1, ITest l)).
  { cbn [access]. rewrite Hc. unfold l, rnd1. by destruct (RandomHeight rnd). }
  assert (Hg : Good k l0 s lv (ITest l)).
  { destruct (access_safe compare_ true s lv Hl Hmax e rnd Idle I Ha Hf) as [(s1 & r1 & ph1 & lv' & E1 & Hgd)|[? _]]; [|done].
    rewrite Hfirst in E1. injection E1 as <- <- <-. destruct Hgd as [_ _ _ Hp _ _ _].
    split; [done..| |by left]. cbn. pose proof (RandomHeight_loop_range (kMaxHeight - 1) 1 rnd) as Hr.
    split; [apply length_replicate|]. split; [unfold l, RandomHeight, kMaxHeight in *; cbn in Hr |- *; lia|].
    intros j q Hq. by apply lookup_replicate in Hq as [? _]. }
  assert (Hend : exists b, rtc (alone e) (s, rnd1, ITest l) b /\ finished k l0 b).
  { destruct (max_height_ s <? lo_height l)%nat eqn:Hlt.
    - pose (l' := set_preds (fill_preds (head_ s) (max_height_ s) (lo_height l) (lo_preds l)) l).
      pose (s1 := mkSkipList (sl_heap s) (head_ s) (lo_height l)).
      assert (H1 : alone e (s, rnd1, ITest l) (s, rnd1, IFill l)) by (split; [done|]; cbn [access fst snd]; by rewrite Hlt).
      assert (H2 : alone e (s, rnd1, IFill l) (s, rnd1, IStore l')) by done.
      assert (H3 : alone e (s, rnd1, IStore l') (s1, rnd1, IStart l')) by done.
      destruct (pending_step e k l0 s rnd1 lv _ _ _ _ Hg ltac:(cbn; eauto) Ha Hf (proj2 H1)) as (lv1 & Hg1).
      destruct (pending_step e k l0 s rnd1 lv1 _ _ _ _ Hg1 ltac:(cbn; eauto) Ha Hf (proj2 H2)) as (lv2 & Hg2).
      destruct (pending_step e k l0 s rnd1 lv2 _ _ _ _ Hg2 ltac:(cbn; eauto) Ha Hf (proj2 H3)) as (lv3 & Hg3).
      destruct (start_alone e k l0 s1 rnd1 lv3 l' Hg3 Ha Hf) as (b & Hr & Hfin). exists b. split; [|done].
      eapply rtc_l; [exact H1|]. eapply rtc_l; [exact H2|]. by eapply rtc_l.
    - assert (H1 : alone e (s, rnd1, ITest l) (s, rnd1, IStart l)) by (split; [done|]; cbn [access fst snd]; by rewrite Hlt).
      destruct (pending_step e k l0 s rnd1 lv _ _ _ _ Hg ltac:(cbn; eauto) Ha Hf (proj2 H1)) as (lv1 & Hg1).
      destruct (start_alone e k l0 s rnd1 lv1 l Hg1 Ha Hf) as (b & Hr & Hfin). exists b. split; [|done]. by eapply rtc_l. }
  destruct Hend as ([[s' rnd'] ph'] & Hr & lv' & bb & [Hl' _ _ Hj] & Hph). cbn in Hl', Hj, Hph. subst ph'. cbn in Hj.
  destruct Hj as [[? _]|[[= ->] Hls]]; [done|].
  destruct (run_alone_rtc e _ _ Hr eq_refl ltac:(done)) as [fuel Hrun]. exists (S fuel), s', rnd'. split.
  - cbn [run_alone]. rewrite Hfirst. exact Hrun.
  - by rewrite (contents_spec compare_ s' lv' Hl').
Qed.

(** C35: The calls of [LockfreeSkipList] return.  In every state that concurrent
    calls reach, searches end within their fuel: [Seek] stands at the least key not
    below the target, [Contains] says whether the key is there, [SeekToFirst] and
    [SeekToLast] stand at the ends, [Next] and [Prev] move to the neighbours of a
    key, and are invalid where there is none.  An [Insert] that is not disturbed
    returns, reports whether the key was absent and inserts it in order. *)
Theorem lfskiplist_calls mono y :
  reachable compare_ mono y ->
  let s := y_list y in
  (forall k, exists x, Iter_Seek compare_ s k = Ok x /\ key_at s x = sl_seek compare_ k (contents s)) /\
  (forall k, Contains compare_ s k = Ok (negb (absent compare_ k (contents s)))) /\
  (exists a b, Iter_SeekToFirst s = Ok a /\ key_at s a = head (contents s) /\
     Iter_SeekToLast s = Ok b /\ key_at s b = list.last (contents s)) /\
  (forall ks k ks', contents s = ks ++ k :: ks' -> exists x a b, Iter_Seek compare_ s k = Ok x /\ key_at s x = Some k /\
     Iter_Next s x = Ok a /\ key_at s a = head ks' /\ Iter_Prev compare_ s x = Ok b /\ key_at s b = list.last ks) /\
  (forall e rnd k, in_call e = CInsert k -> in_addr e <> NULL -> sl_heap s !! in_addr e = None ->
     exists fuel s' rnd', run_alone compare_ fuel e s rnd Idle = Ok (s', rnd', IDone k (absent compare_ k (contents s))) /\
       contents s' = sl_insert compare_ k (contents s)).
Proof using CompareOrder0.
  intros [lv [Hl Hmax _ _]]%lf_reachable_inv; [|done]. cbv zeta. split; [|split; [|split; [|split]]].
  - intros k. by apply (lf_Seek_spec (y_list y) lv).
  - intros k. by apply (Contains_spec (y_list y) lv).
  - by apply (ends_spec (y_list y) lv).
  - intros ks k ks'. by apply (moves_spec (y_list y) lv).
  - intros e rnd k. by apply (insert_alone (y_list y) rnd lv).
Qed.

End calls.

Lemma lfskiplist_calls_witness :
  Contains Z.sub (y_list lf_run) 5 = Ok (negb (absent Z.sub 5 (contents (y_list lf_run)))) /\
  exists fuel s' rnd', run_alone Z.sub fuel (mkInput (CInsert 4) 200 (fun _ => 0)) (y_list lf_run) 1 Idle =
    Ok (s', rnd', IDone 4 (absent Z.sub 4 (contents (y_list lf_run)))) /\ contents s' = sl_insert Z.sub 4 (contents (y_list lf_run)).
Proof.
  pose proof (lfskiplist_calls Z.sub true lf_run lf_run_reachable) as (_ & Hc & _ & _ & Hi). split; [exact (Hc 5)|].
  exact (Hi (mkInput (CInsert 4) 200 (fun _ => 0)) 1 4 eq_refl ltac:(discriminate) eq_refl).
Defined.
