(* ===== verification/SkipListSeq.v ===== *)
(** * Insertions of one thread into skip lists

    [SkipList::Insert] of db/skiplist.h, which the memory tables use and whose
    callers exclude each other, and [FineGrainLockInsert] of
    db/lockfreeSkiplist.h, which locks the predecessors, as one thread runs it.
    Nodes, searches and iterators of the two classes are the same, see
    [LFSkipList]. *)

From Stdlib Require Import Sorted.
From S2P Require Import Prelude Random TXMemStore LFSkipList LFSkipListInv LFSkipListSpec LFSkipListCalls.

Section model.
Context {E : Type} (compare_ : E -> E -> Z).
Abbreviation heap := (gmap Z (Node (E := E))) (only parsing).
Implicit Types (h : heap) (s : skiplist (E := E)).

(** [FindGreaterOrEqual] with an array [prev]. *)
Fixpoint find_prev (fuel : nat) h (key : E) (x : addr) (level : nat) (prev : list (option addr))
    : result (addr * list (option addr)) :=
  match fuel with
  | O => Fault OutOfFuel
  | S fuel =>
      next ← Next h x level;
      after ← KeyIsAfterNode compare_ h key next;
      if (after : bool) then find_prev fuel h key next level prev
      else
        let prev := <[level := Some x]> prev in
        match level with O => Ok (next, prev) | S level => find_prev fuel h key x level prev end
  end.

(** [array[i]], where an element may not be initialised. *)
Definition elem (l : list (option addr)) (i : nat) : result addr :=
  p ← from_opt OutOfBounds (l !! i); from_opt Undefined p.

(** [x->SetNext(i, prev[i]->Next(i)); prev[i]->SetNext(i, x)] for [n] levels from
    [i] on. *)
Fixpoint link_levels (n i : nat) (x : addr) (prev : list (option addr)) h : result heap :=
  match n with
  | O => Ok h
  | S n =>
      p ← elem prev i;
      next ← Next h p i;
      h ← SetNext h x i next;
      h ← SetNext h p i x;
      link_levels n (S i) x prev h
  end.

(** ** db/skiplist.h *)

(** [a] is the memory of the new node, [junk] what it holds. *)
Definition SkipList_Insert (key : E) (a : addr) (junk : nat -> addr) s (rnd_ : Z) : result (skiplist * Z) :=
  '(_, prev) ← find_prev (search_fuel s) (sl_heap s) key (head_ s) (max_height_ s - 1) (replicate kMaxHeight None);
  let '(height, rnd_) := RandomHeight rnd_ in
  let prev := if (max_height_ s <? height)%nat then fill_preds (head_ s) (max_height_ s) height prev else prev in
  let max := if (max_height_ s <? height)%nat then height else max_height_ s in
  h ← link_levels height 0 a prev (<[a := NewNode key height junk]> (sl_heap s));
  Ok (mkSkipList h (head_ s) max, rnd_).

Definition SkipList_new (a : addr) (any_key : E) (junk_height : nat) : skiplist :=
  LockfreeSkipList_new a any_key junk_height.

(** ** FineGrainLockInsert *)

(** The loop that moves [preds[i]] up to the last node before the key. *)
Fixpoint scan_level (fuel : nat) h (key : E) (p : addr) (i : nat) : result (addr * addr) :=
  match fuel with
  | O => Fault OutOfFuel
  | S fuel =>
      succ ← Next h p i;
      after ← KeyIsAfterNode compare_ h key succ;
      if (after : bool) then scan_level fuel h key succ i else Ok (p, succ)
  end.

Fixpoint scan_levels (n i : nat) (fuel : nat) h (key : E) (preds succs : list (option addr))
    : result (list (option addr) * list (option addr)) :=
  match n with
  | O => Ok (preds, succs)
  | S n =>
      p ← elem preds i;
      '(p, succ) ← scan_level fuel h key p i;
      scan_levels n (S i) fuel h key (<[i := Some p]> preds) (<[i := Some succ]> succs)
  end.

(** [locked] are the nodes whose lock is held.  A lock that is held is never
    released while the thread waits for it. *)
Fixpoint lock_levels (n i : nat) h (preds succs : list (option addr)) (prevpred : addr) (highestLocked : Z) (locked : gset Z)
    : result (bool * Z * gset Z) :=
  match n with
  | O => Ok (true, highestLocked, locked)
  | S n =>
      pred ← elem preds i;
      succ ← elem succs i;
      '(prevpred, highestLocked, locked) ←
        (if negb (pred =? prevpred) then
           if bool_decide (pred ∈ locked) then Fault OutOfFuel else Ok (pred, Z.of_nat i, {[pred]} ∪ locked)
         else Ok (prevpred, highestLocked, locked));
      next ← Next h pred i;
      if succ =? next then lock_levels n (S i) h preds succs prevpred highestLocked locked
      else Ok (false, highestLocked, locked)
  end.

Fixpoint unlock_levels (n i : nat) (preds : list (option addr)) (prevpred : addr) (locked : gset Z) : result (gset Z) :=
  match n with
  | O => Ok locked
  | S n =>
      pred ← elem preds i;
      if negb (pred =? prevpred) then unlock_levels n (S i) preds pred (locked ∖ {[pred]})
      else unlock_levels n (S i) preds prevpred locked
  end.

(** The outer loop. *)
Fixpoint FineGrain_loop (fuel : nat) (key : E) (height : nat) (a : addr) (junk : nat -> addr)
    (preds : list (option addr)) (highestLocked : Z) s (locked : gset Z) : result (skiplist * gset Z) :=
  match fuel with
  | O => Fault OutOfFuel
  | S fuel =>
      '(_, preds) ← find_prev (search_fuel s) (sl_heap s) key (head_ s) (max_height_ s - 1) preds;
      '(preds, succs) ← scan_levels height 0 (search_fuel s) (sl_heap s) key preds (replicate kMaxHeight None);
      '(valid, highestLocked, locked) ← lock_levels height 0 (sl_heap s) preds succs NULL highestLocked locked;
      if negb valid then
        locked ← unlock_levels (Z.to_nat (highestLocked + 1)) 0 preds NULL locked;
        FineGrain_loop fuel key height a junk preds highestLocked s locked
      else
        h ← link_levels height 0 a preds (<[a := NewNode key height junk]> (sl_heap s));
        locked ← unlock_levels height 0 preds NULL locked;
        Ok (mkSkipList h (head_ s) (max_height_ s), locked)
  end.

(** The result is always [true]. *)
Definition FineGrainLockInsert (fuel : nat) (key : E) (a : addr) (junk : nat -> addr) s (rnd_ : Z) (locked : gset Z)
    : result (skiplist * Z * gset Z) :=
  let '(height, rnd_) := RandomHeight rnd_ in
  let preds := replicate kMaxHeight None in
  let preds := if (max_height_ s <? height)%nat then fill_preds (head_ s) (max_height_ s) height preds else preds in
  let s := mkSkipList (sl_heap s) (head_ s) (if (max_height_ s <? height)%nat then height else max_height_ s) in
  '(s, locked) ← FineGrain_loop fuel key height a junk preds (-1) s locked;
  Ok (s, rnd_, locked).

End model.

(** ** Proofs *)

Section proofs.
Context {E : Type} (compare_ : E -> E -> Z) `{!CompareOrder compare_}.
Abbreviation levels := (nat -> list (addr * E)) (only parsing).
Implicit Types (s : skiplist (E := E)) (lv : levels).

(** A list at rest: no level above [max_height_] is used. *)
Record at_rest s lv : Prop := {
  ar_list : list_ok compare_ (sl_heap s) (head_ s) lv;
  ar_max : (1 <= max_height_ s <= kMaxHeight)%nat;
  ar_empty i : (max_height_ s <= i)%nat -> lv i = [] }.

(** [p] is the last node of level [i] before [k]. *)
Definition exact (hd : addr) lv (i : nat) (k : E) (p : addr) : Prop :=
  exists xs ys, lv i = xs ++ ys /\ Forall (fun q => compare_ q.2 k < 0) xs /\ list.last (hd :: xs.*1) = Some p /\
    match ys with [] => True | q :: _ => 0 <= compare_ q.2 k end.

Lemma exact_on_level hd lv i k p : exact hd lv i k p -> on_level compare_ lv hd i p k.
Proof.
  intros (xs & ys & Hs & Hxs & Hlast & _). destruct xs as [|[b kb] xs _] using rev_ind.
  - injection Hlast as <-. by left.
  - rewrite fmap_app, app_comm_cons in Hlast. cbn [fmap list_fmap fst] in Hlast. rewrite last_snoc in Hlast. injection Hlast as <-.
    right. exists kb. rewrite Hs. split; [set_solver|]. rewrite Forall_forall in Hxs. apply (Hxs (b, kb)). set_solver.
Qed.

Lemma find_prev_spec s lv : list_ok compare_ (sl_heap s) (head_ s) lv -> forall fuel k x i prev,
  (i < kMaxHeight)%nat -> on_level compare_ lv (head_ s) i x k -> (rank s lv x + i < fuel)%nat -> length prev = kMaxHeight ->
  exists next prev', find_prev compare_ fuel (sl_heap s) k x i prev = Ok (next, prev') /\ length prev' = kMaxHeight /\
    (forall j, (j <= i)%nat -> exists p, prev' !! j = Some (Some p) /\ exact (head_ s) lv j k p) /\
    (forall j, (i < j)%nat -> prev' !! j = prev !! j).
Proof using CompareOrder0.
  intros Hl. induction fuel as [|fuel IH]; intros k x i prev Hi Hx Hf Hlen; [lia|]. cbn [find_prev].
  destruct (read_spec compare_ _ _ _ Hl i x k Hi Hx) as (xs & ys & next & Hs & Hxs & Hlast & _ & -> & Hc).
  cbn [mbind result_bind].
  assert (Hdown : match ys with [] => True | q :: _ => 0 <= compare_ q.2 k end -> exists next' prev',
    match i with O => Ok (next, <[i := Some x]> prev)
    | S level => find_prev compare_ fuel (sl_heap s) k x level (<[i := Some x]> prev) end = Ok (next', prev') /\
    length prev' = kMaxHeight /\
    (forall j, (j <= i)%nat -> exists p, prev' !! j = Some (Some p) /\ exact (head_ s) lv j k p) /\
    (forall j, (i < j)%nat -> prev' !! j = prev !! j)).
  { intros Hy. assert (Hex : exact (head_ s) lv i k x) by (by exists xs, ys). destruct i as [|i].
    - eexists _, _. split; [done|]. split; [by rewrite length_insert|]. split.
      + intros j Hj. assert (j = 0%nat) as -> by lia. exists x. split; [apply list_lookup_insert_eq; lia|done].
      + intros j Hj. apply list_lookup_insert_ne. lia.
    - destruct (IH k x i (<[S i := Some x]> prev)) as (next' & prev' & E1 & Hl' & Hle & Hgt); [lia| |lia|by rewrite length_insert|].
      { apply (lf_on_level_mono compare_ _ _ _ Hl i (S i)); [lia|done]. }
      exists next', prev'. split_and!; [done..| |].
      + intros j Hj. destruct (decide (j = S i)) as [->|]; [|apply Hle; lia]. exists x. rewrite Hgt by lia.
        split; [apply list_lookup_insert_eq; lia|done].
      + intros j Hj. rewrite Hgt by lia. apply list_lookup_insert_ne. lia. }
  destruct Hc as [(-> & -> & ->)|(kn & ys' & n & -> & Hn0 & Hn & <- & ->)]; [by apply Hdown|]. cbn [mbind result_bind].
  destruct (Z.ltb_spec (compare_ (nd_key n) k) 0) as [Hlt|Hge]; [|by apply Hdown].
  apply IH; [done| | |done].
  - right. exists (nd_key n). split; [|done]. rewrite Hs. set_solver.
  - pose proof (rank_next compare_ s lv Hl i xs next (nd_key n) ys' x Hi Hs Hlast). lia.
Qed.

Lemma elem_Some (l : list (option addr)) i p : l !! i = Some (Some p) -> elem l i = Ok p.
Proof. intros Hp. unfold elem. by rewrite Hp. Qed.

(** The place of a node in a list without repetitions is unique. *)
Lemma exact_split (hd : addr) (xs ys xs' ys' : list (addr * E)) p :
  NoDup (hd :: (xs ++ ys).*1) -> xs ++ ys = xs' ++ ys' ->
  list.last (hd :: xs.*1) = Some p -> list.last (hd :: xs'.*1) = Some p -> xs = xs' /\ ys = ys'.
Proof.
  assert (Hone : forall xs ys zs : list (addr * E), NoDup (hd :: (xs ++ zs ++ ys).*1) ->
    list.last (hd :: xs.*1) = Some p -> list.last (hd :: (xs ++ zs).*1) = Some p -> zs = []).
  { intros us vs zs Hnd H1 H2. destruct zs as [|z zs _] using rev_ind; [done|exfalso].
    rewrite !fmap_app, app_assoc, app_comm_cons in H2. cbn [fmap list_fmap] in H2. rewrite last_snoc in H2. injection H2 as <-.
    apply last_Some_elem_of in H1. rewrite !fmap_app, app_comm_cons in Hnd. apply NoDup_app in Hnd as (_ & Hd & _).
    apply (Hd z.1 H1). set_solver. }
  intros Hnd Heq H1 H2. apply app_eq_app in Heq as (zs & [[-> ->]|[-> ->]]).
  - rewrite <- app_assoc in Hnd. rewrite (Hone xs' ys zs Hnd H2 H1) in *. by rewrite app_nil_r.
  - rewrite (Hone xs ys' zs Hnd H1 H2) in *. by rewrite app_nil_r.
Qed.

(** Linking the levels from [i] on. *)
Lemma link_levels_ok l x : forall n i s lv,
  list_ok compare_ (sl_heap s) (head_ s) lv -> (1 <= max_height_ s <= kMaxHeight)%nat ->
  (i + n = lo_height l)%nat -> preds_ok compare_ (head_ s) lv l -> filled true l 0 ->
  new_node (sl_heap s) (head_ s) lv l x i ->
  (forall j p, (i <= j < lo_height l)%nat -> lo_preds l !! j = Some (Some p) -> exact (head_ s) lv j (lo_key l) p) ->
  (forall q, q ∈ lv i -> compare_ q.2 (lo_key l) <> 0) ->
  exists h' lv', link_levels n i x (lo_preds l) (sl_heap s) = Ok h' /\ list_ok compare_ h' (head_ s) lv' /\
    (forall j, (j < i)%nat \/ (lo_height l <= j)%nat -> lv' j = lv j) /\
    (forall j, (i <= j < lo_height l)%nat -> lv' j = sl_insert (cmp2 compare_) (x, lo_key l) (lv j)).
Proof using CompareOrder0.
  induction n as [|n IH]; intros i s lv Hl Hmax Hn Hp Hf Hnew Hex Habs; cbn [link_levels].
  { exists (sl_heap s), lv. split_and!; [done..|]. lia. }
  destruct (Hf eq_refl i ltac:(lia)) as [p Hpi]. rewrite (elem_Some _ _ _ Hpi). cbn [mbind result_bind].
  assert (Hi12 : (i < kMaxHeight)%nat) by (destruct Hp as (_ & ? & _); lia).
  pose proof (Hex i p ltac:(lia) Hpi) as (xs & ys & Hlv & Hxs & Hlast & Hys).
  assert (Hop : on_level compare_ lv (head_ s) i p (lo_key l)) by (apply Hp; done).
  destruct (link_spec compare_ _ _ _ Hl i p (lo_key l) Hi12 Hop) as (xs' & ys' & Hlv' & _ & Hlast' & Hnp).
  set (succ := default NULL (head ys'.*1)) in *.
  assert (Hsucc : succ_ok compare_ lv i (lo_key l) succ).
  { assert (xs' = xs /\ ys' = ys) as [-> ->].
    { apply (exact_split (head_ s) xs' ys' xs ys p); [|congruence|done..]. rewrite <- Hlv'.
      by apply (chain_NoDup _ _ _ (lk_chain _ _ _ _ Hl i Hi12)). }
    unfold succ. destruct ys as [|[b kb] ys]; [by left|right]. exists kb. rewrite Hlv. split; [set_solver|].
    cbn in Hys. specialize (Habs (b, kb)). rewrite Hlv in Habs. specialize (Habs ltac:(set_solver)). cbn in Habs. lia. }
  rewrite (nxt_Next _ _ _ _ Hnp). cbn [mbind result_bind].
  assert (Hk : linking compare_ true (sl_heap s) (head_ s) lv l x i) by (split_and!; [done|lia|done|done]).
  pose proof Hnew as (Hxhd & (nx & Hnx & _) & Hxj). assert (Hxi : x ∉ (lv i).*1) by (rewrite Hxj; lia).
  assert (Hpx : p <> x) by (intros ->; by destruct (on_level_in compare_ _ _ _ _ _ Hop)).
  destruct (own_link s lv Hmax l x i Hnew ltac:(lia)) as (old & Hold).
  destruct (SetNext_spec (sl_heap s) x i succ old Hold) as (h1 & E1 & Hnx1 & _).
  destruct (good_set compare_ true s lv Hl Hmax l x i succ) as (p' & next & h1' & Ep & En & E1' & Hg1).
  { split_and!; [done..|]. by exists p. }
  assert (p' = p) as -> by (unfold pred_at in Ep; rewrite Hpi in Ep; cbn in Ep; congruence).
  assert (next = succ) as -> by (rewrite (nxt_Next _ _ _ _ Hnp) in En; congruence).
  assert (h1' = h1) as -> by congruence. rewrite E1. cbn [mbind result_bind].
  destruct Hg1 as [_ _ Hl1 (Hk1 & Hs1 & _) _ _ _]. cbn [set_heap sl_heap head_ max_height_] in *.
  destruct (good_cas compare_ true (set_heap h1 s) lv Hl1 Hmax l x i p succ Hk1 Hpi Hs1) as (h2 & E2 & Hg2).
  { cbn. by rewrite Hnx1, decide_True. }
  { cbn. rewrite Hnx1, decide_False; [done|]. by intros [? _]. }
  cbn [set_heap sl_heap] in E2. rewrite E2. cbn [mbind result_bind].
  destruct Hg2 as [_ _ Hl2 Hph2 _ _ _]. cbn [set_heap sl_heap head_ max_height_] in *.
  assert (Hlk : forall j, j <> i -> link compare_ lv i x (lo_key l) j = lv j) by (intros j Hj; unfold link; by rewrite decide_False).
  assert (Hlki : link compare_ lv i x (lo_key l) i = sl_insert (cmp2 compare_) (x, lo_key l) (lv i)) by (unfold link; by rewrite decide_True).
  destruct (Nat.ltb_spec (S i) (lo_height l)) as [Hlt|Hge].
  - destruct Hph2 as (Hp2 & _ & Hn2 & _).
    destruct (IH (S i) (set_heap h2 s) (link compare_ lv i x (lo_key l))) as (h' & lv' & E3 & Hl3 & Hout & Hin); try done; [lia|..].
    { intros j q Hj Hq. specialize (Hex j q ltac:(lia) Hq). unfold exact in *. by rewrite Hlk by lia. }
    { intros q Hq. rewrite Hlk in Hq by lia. apply Habs. by apply (lk_sub _ _ _ _ Hl). }
    exists h', lv'. split_and!; [done..| |].
    + intros j Hj. rewrite Hout by lia. apply Hlk. lia.
    + intros j Hj. destruct (decide (j = i)) as [->|]; [rewrite Hout by lia; done|]. rewrite Hin, Hlk by lia. done.
  - assert (n = 0%nat) as -> by lia. exists h2, (link compare_ lv i x (lo_key l)). split_and!; [done..| |].
    + intros j Hj. apply Hlk. lia.
    + intros j Hj. by replace j with i by lia.
Qed.

(** The array of predecessors that linking needs. *)
Definition all_exact (hd : addr) lv (k : E) (height : nat) (prev : list (option addr)) : Prop :=
  length prev = kMaxHeight /\ (forall j p, prev !! j = Some (Some p) -> exact hd lv j k p) /\
  forall j, (j < height)%nat -> exists p, prev !! j = Some (Some p).

(** A new node is linked behind its predecessors. *)
Lemma link_new s lv k a junk height prev :
  at_rest s lv -> (1 <= height <= max_height_ s)%nat -> all_exact (head_ s) lv k height prev ->
  a <> NULL -> sl_heap s !! a = None -> absent compare_ k (contents s) = true ->
  exists h' lv', link_levels height 0 a prev (<[a := NewNode k height junk]> (sl_heap s)) = Ok h' /\
    at_rest (mkSkipList h' (head_ s) (max_height_ s)) lv' /\
    contents (mkSkipList h' (head_ s) (max_height_ s)) = sl_insert compare_ k (contents s).
Proof using CompareOrder0.
  intros [Hl Hmax Hemp] Hh (Hlen & Hex & Hfill) Ha Hfresh Habs. set (l := mkLocals k height prev).
  assert (Hp : preds_ok compare_ (head_ s) lv l).
  { split; [done|]. split; [cbn; lia|]. cbn. intros j p Hj. by apply exact_on_level, Hex. }
  destruct (good_new compare_ true s lv Hl Hmax l a junk) as [_ _ Hl1 (Hp1 & _ & Hn1 & Hf1) _ _ _]; [|done..|].
  { split; [done|]. intros _ j Hj. apply Hfill. cbn in Hj. lia. }
  cbn [set_heap sl_heap head_ max_height_ lo_key lo_height l] in *.
  destruct (link_levels_ok l a height 0 (set_heap (<[a := NewNode k height junk]> (sl_heap s)) s) lv) as (h' & lv' & E1 & Hl' & Hout & Hin);
    try done.
  { intros j p _ Hj. by apply Hex. }
  { rewrite (contents_spec compare_ s lv Hl) in Habs. unfold absent in Habs. rewrite forallb_forall in Habs.
    intros q Hq. specialize (Habs q.2). rewrite <- list_elem_of_In in Habs. specialize (Habs ltac:(by apply list_elem_of_fmap_2)).
    by apply negb_true_iff, Z.eqb_neq in Habs. }
  exists h', lv'. split; [done|]. split.
  - split; [done..|]. cbn. intros i Hi. rewrite Hout by (cbn; lia). by apply Hemp.
  - rewrite (contents_spec compare_ (mkSkipList h' (head_ s) (max_height_ s)) lv' Hl'), (contents_spec compare_ s lv Hl), Hin by (cbn; lia).
    apply (sl_insert_snd compare_).
Qed.

Lemma fill_preds_lookup hd from height (prev : list (option addr)) j :
  fill_preds hd from height prev !! j =
    (fun p => if (from <=? j)%nat && (j <? height)%nat then Some hd else p) <$> prev !! j.
Proof. unfold fill_preds. apply list_lookup_imap. Qed.

Lemma exact_empty hd lv i k : lv i = [] -> exact hd lv i k hd.
Proof. intros Hi. exists [], []. by rewrite Hi. Qed.

Lemma seq_RandomHeight_range rnd : (1 <= (RandomHeight rnd).1 <= kMaxHeight)%nat.
Proof. pose proof (RandomHeight_loop_range (kMaxHeight - 1) 1 rnd). unfold RandomHeight, kMaxHeight in *. cbn in *. lia. Qed.

(** What the search leaves in the array. *)
Lemma search_prev s lv k prev : at_rest s lv -> length prev = kMaxHeight ->
  exists next prev', find_prev compare_ (search_fuel s) (sl_heap s) k (head_ s) (max_height_ s - 1) prev = Ok (next, prev') /\
    length prev' = kMaxHeight /\
    (forall j, (j < max_height_ s)%nat -> exists p, prev' !! j = Some (Some p) /\ exact (head_ s) lv j k p) /\
    (forall j, (max_height_ s <= j)%nat -> prev' !! j = prev !! j).
Proof using CompareOrder0.
  intros [Hl Hmax Hemp] Hlen.
  destruct (find_prev_spec s lv Hl (search_fuel s) k (head_ s) (max_height_ s - 1) prev) as (next & prev' & E1 & Hl' & Hle & Hgt);
    [lia|by left|by apply (fuel_enough compare_)|done|].
  exists next, prev'. split_and!; [done..| |]; intros j Hj; [apply Hle|apply Hgt]; lia.
Qed.

Lemma SkipList_Insert_spec s lv k a junk rnd :
  at_rest s lv -> a <> NULL -> sl_heap s !! a = None -> absent compare_ k (contents s) = true ->
  exists s' rnd' lv', SkipList_Insert compare_ k a junk s rnd = Ok (s', rnd') /\ at_rest s' lv' /\
    contents s' = sl_insert compare_ k (contents s) /\ head_ s' = head_ s.
Proof using CompareOrder0.
  intros Hr Ha Hfresh Habs. pose proof Hr as [Hl Hmax Hemp]. unfold SkipList_Insert.
  destruct (search_prev s lv k (replicate kMaxHeight None) Hr) as (next & prev & -> & Hlen & Hle & Hgt); [apply length_replicate|].
  cbn [mbind result_bind]. pose proof (seq_RandomHeight_range rnd) as Hh. destruct (RandomHeight rnd) as [height rnd']. cbn [fst] in Hh.
  assert (Hnone : forall j p, (max_height_ s <= j)%nat -> prev !! j <> Some (Some p)).
  { intros j p Hj Hp. rewrite Hgt in Hp by lia. by apply lookup_replicate in Hp as [? _]. }
  set (max := if (max_height_ s <? height)%nat then height else max_height_ s).
  set (prev' := if (max_height_ s <? height)%nat then fill_preds _ _ _ _ else prev).
  assert (Hmx : (height <= max <= kMaxHeight)%nat /\ (max_height_ s <= max)%nat).
  { unfold max. destruct (Nat.ltb_spec (max_height_ s) height); lia. }
  assert (Hex : all_exact (head_ s) lv k height prev').
  { unfold prev'. destruct (Nat.ltb_spec (max_height_ s) height) as [Hlt|Hge].
    - split; [unfold fill_preds; by rewrite length_imap|]. split.
      + intros j p Hj. rewrite fill_preds_lookup in Hj. destruct (Nat.leb_spec (max_height_ s) j) as [Hmj|Hmj].
        * destruct (prev !! j) as [o|] eqn:Eo; [|done]. cbn [fmap option_fmap option_map andb] in Hj. destruct (Nat.ltb_spec j height); [assert (p = head_ s) as -> by congruence; by apply exact_empty, Hemp|].
          exfalso. apply (Hnone j p Hmj). congruence.
        * cbn in Hj. destruct (Hle j Hmj) as (q & Hq & Hx). rewrite Hq in Hj. cbn in Hj. by assert (p = q) as -> by congruence.
      + intros j Hj. rewrite fill_preds_lookup. destruct (lookup_lt_is_Some_2 prev j ltac:(lia)) as [o Ho]. rewrite Ho. cbn [fmap option_fmap option_map].
        destruct (Nat.leb_spec (max_height_ s) j) as [Hmj|Hmj]; cbn [andb]; [rewrite (proj2 (Nat.ltb_lt _ _) Hj); eauto|].
        destruct (Hle j Hmj) as (q & Hq & _). rewrite Hq in Ho. injection Ho as <-. eauto.
    - split; [done|]. split.
      + intros j p Hj. destruct (le_gt_dec (max_height_ s) j) as [Hmj|Hmj]; [by destruct (Hnone j p Hmj)|].
        destruct (Hle j Hmj) as (q & Hq & Hx). congruence.
      + intros j Hj. destruct (Hle j ltac:(lia)) as (q & Hq & _). eauto. }
  destruct (link_new (mkSkipList (sl_heap s) (head_ s) max) lv k a junk height prev') as (h' & lv' & E1 & Hr' & Hc); try done.
  { split; cbn; [done|lia|]. intros i Hi. apply Hemp. lia. }
  { cbn. lia. }
  cbn [sl_heap head_ max_height_] in *. rewrite E1. cbn [mbind result_bind]. eexists _, rnd', lv'. done.
Qed.

(** ** Locking the predecessors *)

Section fine.
Context s lv (Hl : list_ok compare_ (sl_heap s) (head_ s) lv).

Lemma rank_before i us b kb ws x : (i < kMaxHeight)%nat -> lv i = us ++ (b, kb) :: ws -> x ∈ head_ s :: us.*1 ->
  (rank s lv b < rank s lv x)%nat.
Proof using Hl CompareOrder0.
  intros Hi. revert b kb ws. induction us as [|[y ky] us IH] using rev_ind; intros b kb ws Hs Hx.
  - apply list_elem_of_singleton in Hx as ->. by apply (rank_next compare_ s lv Hl i [] b kb ws).
  - assert (Hy : (rank s lv b < rank s lv y)%nat).
    { apply (rank_next compare_ s lv Hl i (us ++ [(y, ky)]) b kb ws y); [done..|].
      rewrite fmap_app, app_comm_cons. cbn [fmap list_fmap fst]. by rewrite last_snoc. }
    rewrite fmap_app, app_comm_cons in Hx. apply elem_of_app in Hx as [Hx|Hx%list_elem_of_singleton]; [|by subst x].
    rewrite <- app_assoc in Hs. specialize (IH y ky _ Hs Hx). lia.
Qed.

(** Going up, the predecessor stays or moves towards the head. *)
Lemma exact_up i k p p' : (S i < kMaxHeight)%nat -> exact (head_ s) lv i k p -> exact (head_ s) lv (S i) k p' ->
  p' = p \/ (rank s lv p < rank s lv p')%nat.
Proof using Hl CompareOrder0.
  intros Hi (xs & ys & Hs & Hxs & Hlast & Hys) Hp'. apply exact_on_level in Hp'.
  assert (Hin : p' ∈ head_ s :: xs.*1).
  { destruct Hp' as [->|(kp & Hp & Hk)]; [set_solver|]. apply (lk_sub _ _ _ _ Hl) in Hp. pose proof Hp as Hp0. rewrite Hs in Hp.
    apply elem_of_app in Hp as [Hp|Hp]; [apply elem_of_cons; right; apply list_elem_of_fmap; by exists (p', kp)|exfalso].
    destruct ys as [|[b kb] ys]; [by apply not_elem_of_nil in Hp|]. cbn in Hys. apply elem_of_cons in Hp as [[= -> ->]|Hp]; [lia|].
    pose proof (lk_sorted _ _ _ _ Hl i) as Hsort. apply list_elem_of_split in Hp as (vs & ws & ->).
    rewrite Hs, app_comm_cons, app_assoc in Hsort. apply sorted_before in Hsort. rewrite Forall_forall in Hsort.
    specialize (Hsort (b, kb) ltac:(set_solver)). unfold cmp2 in Hsort. cbn in Hsort.
    pose proof (co_trans compare_ _ _ k Hsort ltac:(lia)). lia. }
  destruct xs as [|[q kq] xs _] using rev_ind.
  { injection Hlast as <-. apply list_elem_of_singleton in Hin as ->. by left. }
  rewrite fmap_app, app_comm_cons in Hlast, Hin. cbn [fmap list_fmap fst] in Hlast, Hin. rewrite last_snoc in Hlast. injection Hlast as ->.
  apply elem_of_app in Hin as [Hin|Hin%list_elem_of_singleton]; [right|by left].
  rewrite <- app_assoc in Hs. apply (rank_before i xs p kq ys p'); [lia|done..].
Qed.

Lemma exact_link i k p : (i < kMaxHeight)%nat -> exact (head_ s) lv i k p ->
  exists succ, nxt (sl_heap s) i p = Some succ /\ Next (sl_heap s) p i = Ok succ /\
    KeyIsAfterNode compare_ (sl_heap s) k succ = Ok false.
Proof using Hl CompareOrder0.
  intros Hi Hp. pose proof (exact_on_level _ _ _ _ _ Hp) as Hop.
  destruct (read_spec compare_ _ _ _ Hl i p k Hi Hop) as (xs & ys & next & Hs & _ & Hlast & Hnx & Hnext & Hc).
  exists next. split; [done|]. split; [done|]. destruct Hp as (xs' & ys' & Hs' & _ & Hlast' & Hys).
  destruct (exact_split (head_ s) xs ys xs' ys' p) as [-> ->]; [|congruence|done..|].
  { rewrite <- Hs. by apply (chain_NoDup _ _ _ (lk_chain _ _ _ _ Hl i Hi)). }
  destruct Hc as [(-> & -> & Hc)|(kn & ys0 & n & -> & _ & _ & _ & ->)]; [done|]. cbn in Hys.
  by rewrite (proj2 (Z.ltb_ge _ _)) by lia.
Qed.

Context (k : E) (preds : list (option addr)) (height : nat).
Context (Hh : (height <= kMaxHeight)%nat) (Hex : all_exact (head_ s) lv k height preds).

Lemma scan_levels_exact fuel : (0 < fuel)%nat -> forall n i succs, (i + n = height)%nat -> length succs = kMaxHeight ->
  exists succs', scan_levels compare_ n i fuel (sl_heap s) k preds succs = Ok (preds, succs') /\
    (forall j, (j < i)%nat -> succs' !! j = succs !! j) /\
    forall j p, (i <= j < height)%nat -> preds !! j = Some (Some p) ->
      exists succ, succs' !! j = Some (Some succ) /\ Next (sl_heap s) p j = Ok succ.
Proof using Hl Hh Hex CompareOrder0.
  destruct Hex as (Hlen & Hx & Hfill). intros Hf. induction n as [|n IH]; intros i succs Hin Hls; cbn [scan_levels].
  { exists succs. split_and!; [done..|]. lia. }
  destruct (Hfill i ltac:(lia)) as [p Hp]. rewrite (elem_Some _ _ _ Hp). cbn [mbind result_bind].
  destruct (exact_link i k p ltac:(lia) (Hx i p Hp)) as (succ & _ & Hn & Ha).
  destruct fuel as [|fuel]; [lia|]. cbn [scan_level]. rewrite Hn. cbn [mbind result_bind]. rewrite Ha. cbn [mbind result_bind].
  rewrite list_insert_id by done.
  destruct (IH (S i) (<[i := Some succ]> succs)) as (succs' & -> & Hlow & Hhigh); [lia|by rewrite length_insert|].
  exists succs'. split; [done|]. split.
  - intros j Hj. rewrite Hlow by lia. apply list_lookup_insert_ne. lia.
  - intros j q Hj Hq. destruct (decide (j = i)) as [->|]; [|apply Hhigh; [lia|done]].
    assert (q = p) as -> by congruence. exists succ. rewrite Hlow by lia. split; [apply list_lookup_insert_eq; lia|done].
Qed.

(** The nodes in the array from level [i] on. *)
Definition from_level (i : nat) (y : addr) : Prop := exists j, (i <= j < height)%nat /\ preds !! j = Some (Some y).

Lemma pred_nonnull j p : (j < kMaxHeight)%nat -> preds !! j = Some (Some p) -> p <> NULL.
Proof using Hl Hex CompareOrder0.
  destruct Hex as (_ & Hx & _). intros Hj Hp. destruct (exact_link j k p Hj (Hx j p Hp)) as (succ & Hn & _) .
  intros ->. unfold nxt in Hn. by rewrite (lk_null _ _ _ _ Hl) in Hn.
Qed.

Lemma lock_levels_ok succs :
  (forall j p, (j < height)%nat -> preds !! j = Some (Some p) ->
     exists succ, succs !! j = Some (Some succ) /\ Next (sl_heap s) p j = Ok succ) ->
  forall n i pp hl (X : gset Z), (i + n = height)%nat ->
  (forall y, y ∈ X -> (exists p, preds !! i = Some (Some p) /\ y = pp /\ p = pp) \/
     forall p, preds !! i = Some (Some p) -> (rank s lv y < rank s lv p)%nat) ->
  (pp = NULL \/ pp ∈ X) ->
  exists hl' X', lock_levels n i (sl_heap s) preds succs pp hl X = Ok (true, hl', X') /\
    forall y, y ∈ X' <-> y ∈ X \/ from_level i y.
Proof using Hl Hh Hex CompareOrder0.
  intros Hsucc. pose proof Hex as (Hlen & Hx & Hfill). induction n as [|n IH]; intros i pp hl X Hin HX Hpp; cbn [lock_levels].
  { exists hl, X. split; [done|]. intros y. split; [by left|]. intros [|(j & Hj & _)]; [done|lia]. }
  destruct (Hfill i ltac:(lia)) as [p Hp]. rewrite (elem_Some _ _ _ Hp). cbn [mbind result_bind].
  destruct (Hsucc i p ltac:(lia) Hp) as (succ & Hs & Hn). rewrite (elem_Some _ _ _ Hs). cbn [mbind result_bind].
  assert (Hfrom : forall y, from_level i y <-> y = p \/ from_level (S i) y).
  { intros y. split.
    - intros (j & Hj & Hy). destruct (decide (j = i)) as [->|]; [left; congruence|right; exists j; split; [lia|done]].
    - intros [->|(j & Hj & Hy)]; [exists i; split; [lia|done]|exists j; split; [lia|done]]. }
  assert (Hup : forall q, preds !! S i = Some (Some q) -> q = p \/ (rank s lv p < rank s lv q)%nat).
  { intros q Hq. destruct (decide (S i < kMaxHeight)%nat); [|apply lookup_lt_Some in Hq; lia].
    by apply (exact_up i k p q); [|apply Hx..]. }
  assert (Hgo : forall hl (X : gset Z), p ∈ X -> (forall y, y ∈ X -> y = p \/ (rank s lv y < rank s lv p)%nat) ->
    exists hl' X', lock_levels n (S i) (sl_heap s) preds succs p hl X = Ok (true, hl', X') /\
      forall y, y ∈ X' <-> y ∈ X \/ from_level i y).
  { intros hl1 X1 Hp1 HX1. destruct (IH (S i) p hl1 X1) as (hl' & X' & E1 & HX'); [lia| |by right|].
    - intros y Hy. destruct (preds !! S i) as [[q|]|] eqn:Eq; [|right; done..].
      destruct (Hup q eq_refl) as [->|Hlt].
      + destruct (HX1 y Hy) as [->|Hlt]; [left; by exists p|right]. by intros ? [= <-].
      + right. intros ? [= <-]. destruct (HX1 y Hy) as [->|?]; lia.
    - exists hl', X'. split; [done|]. intros y. rewrite HX', Hfrom. split; [naive_solver|].
      intros [?|[->|?]]; auto. }
  destruct (Z.eqb_spec p pp) as [->|Hne]; cbn [negb mbind result_bind].
  - rewrite Hn. cbn [mbind result_bind]. rewrite Z.eqb_refl.
    destruct Hpp as [->|Hpp]; [by destruct (pred_nonnull i NULL ltac:(lia) Hp)|]. apply Hgo; [done|].
    intros y Hy. destruct (HX y Hy) as [(q & _ & -> & _)|Hlt]; [by left|right; by apply Hlt].
  - assert (HpX : p ∉ X).
    { intros HpX. destruct (HX p HpX) as [(q & Hq & -> & _)|Hlt]; [done|]. specialize (Hlt p Hp). lia. }
    rewrite bool_decide_eq_false_2 by done. cbn [mbind result_bind]. rewrite Hn. cbn [mbind result_bind]. rewrite Z.eqb_refl.
    destruct (Hgo (Z.of_nat i) ({[p]} ∪ X)) as (hl' & X' & E1 & HX'); [set_solver| |].
    { intros y [->%elem_of_singleton|Hy]%elem_of_union; [by left|right].
      destruct (HX y Hy) as [(q & Hq & -> & ->)|Hlt]; [congruence|by apply Hlt]. }
    exists hl', X'. split; [done|]. intros y. rewrite HX', Hfrom. set_solver.
Qed.

Lemma unlock_levels_ok : forall n i pp (X : gset Z), (i + n = height)%nat -> pp ∉ X ->
  exists X', unlock_levels n i preds pp X = Ok X' /\ forall y, y ∈ X' <-> y ∈ X /\ ~ from_level i y.
Proof using Hl Hh Hex CompareOrder0.
  pose proof Hex as (Hlen & Hx & Hfill). induction n as [|n IH]; intros i pp X Hin Hpp; cbn [unlock_levels].
  { exists X. split; [done|]. intros y. split; [|by intros [? _]]. intros Hy. split; [done|]. intros (j & Hj & _). lia. }
  destruct (Hfill i ltac:(lia)) as [p Hp]. rewrite (elem_Some _ _ _ Hp). cbn [mbind result_bind].
  assert (Hfrom : forall y, from_level i y <-> y = p \/ from_level (S i) y).
  { intros y. split.
    - intros (j & Hj & Hy). destruct (decide (j = i)) as [->|]; [left; congruence|right; exists j; split; [lia|done]].
    - intros [->|(j & Hj & Hy)]; [exists i; split; [lia|done]|exists j; split; [lia|done]]. }
  destruct (Z.eqb_spec p pp) as [->|Hne]; cbn [negb].
  - destruct (IH (S i) pp X) as (X' & E1 & HX'); [lia|done|]. exists X'. split; [done|]. intros y. rewrite HX', Hfrom.
    split; [|naive_solver]. intros [Hy Hn]. split; [done|]. intros [->|?]; done.
  - destruct (IH (S i) p (X ∖ {[p]})) as (X' & E1 & HX'); [lia|set_solver|]. exists X'. split; [done|].
    intros y. rewrite HX', Hfrom, elem_of_difference, elem_of_singleton. naive_solver.
Qed.

End fine.

Lemma FineGrainLockInsert_spec fuel s lv k a junk rnd :
  at_rest s lv -> a <> NULL -> sl_heap s !! a = None -> absent compare_ k (contents s) = true -> (0 < fuel)%nat ->
  exists s' rnd' lv', FineGrainLockInsert compare_ fuel k a junk s rnd ∅ = Ok (s', rnd', ∅) /\ at_rest s' lv' /\
    contents s' = sl_insert compare_ k (contents s).
Proof using CompareOrder0.
  intros Hr Ha Hfresh Habs Hfuel. pose proof Hr as [Hl Hmax Hemp]. unfold FineGrainLockInsert.
  pose proof (seq_RandomHeight_range rnd) as Hh. destruct (RandomHeight rnd) as [height rnd']. cbn [fst] in Hh.
  set (max := if (max_height_ s <? height)%nat then height else max_height_ s).
  set (preds0 := if (max_height_ s <? height)%nat then fill_preds _ _ _ _ else _). set (s1 := mkSkipList _ _ max).
  assert (Hmx : (height <= max <= kMaxHeight)%nat /\ (max_height_ s <= max)%nat).
  { unfold max. destruct (Nat.ltb_spec (max_height_ s) height); lia. }
  assert (Hr1 : at_rest s1 lv). { split; cbn; [done|lia|]. intros i Hi. apply Hemp. lia. }
  assert (Hlen0 : length preds0 = kMaxHeight).
  { unfold preds0. case_match; [unfold fill_preds; rewrite length_imap|]; apply length_replicate. }
  assert (Hnone : forall j p, (max <= j)%nat -> preds0 !! j <> Some (Some p)).
  { intros j p Hj Hp. unfold preds0, max in *. destruct (Nat.ltb_spec (max_height_ s) height) as [Hlt|Hge].
    - rewrite fill_preds_lookup, (proj2 (Nat.ltb_ge j height)), andb_false_r in Hp by lia.
      destruct (replicate kMaxHeight None !! j) as [o|] eqn:Eo; [|done]. apply lookup_replicate in Eo as [-> _]. done.
    - by apply lookup_replicate in Hp as [? _]. }
  destruct fuel as [|fuel]; [lia|]. cbn [FineGrain_loop].
  destruct (search_prev s1 lv k preds0 Hr1 Hlen0) as (next & preds & E1 & Hlen & Hle & Hgt).
  cbn [s1 sl_heap head_ max_height_] in *. rewrite E1. cbn [mbind result_bind].
  assert (Hex : all_exact (head_ s) lv k height preds).
  { split; [done|]. split.
    - intros j p Hj. destruct (le_gt_dec max j) as [Hmj|Hmj]; [exfalso; rewrite Hgt in Hj by lia; by apply (Hnone j p)|].
      destruct (Hle j Hmj) as (q & Hq & Hx). congruence.
    - intros j Hj. destruct (Hle j ltac:(lia)) as (q & Hq & _). eauto. }
  destruct (scan_levels_exact s lv Hl k preds height ltac:(lia) Hex (search_fuel s1)) with (n := height) (i := 0%nat)
    (succs := replicate kMaxHeight (None : option addr)) as (succs & E2 & _ & Hsucc);
    [unfold search_fuel; cbn; lia|lia|apply length_replicate|].
  rewrite E2. cbn [mbind result_bind].
  destruct (lock_levels_ok s lv Hl k preds height ltac:(lia) Hex succs) with (n := height) (i := 0%nat) (pp := NULL)
    (hl := -1) (X := ∅ : gset Z) as (hl & X & E3 & HX).
  { intros j p Hj. apply Hsucc. lia. }
  { lia. }
  { set_solver. }
  { by left. }
  rewrite E3. cbn [mbind result_bind negb].
  destruct (link_new s1 lv k a junk height preds Hr1) as (h' & lv' & E4 & Hr' & Hc); try done; [cbn; lia|].
  cbn [s1 sl_heap head_ max_height_] in *. rewrite E4. cbn [mbind result_bind].
  destruct (unlock_levels_ok s lv Hl k preds height ltac:(lia) Hex height 0 NULL X) as (X' & E5 & HX'); [lia| |].
  { rewrite HX. intros [?|(j & Hj & Hp)]; [set_solver|].
    by apply (pred_nonnull s lv Hl k preds height Hex j NULL ltac:(lia) Hp). }
  rewrite E5. cbn [mbind result_bind]. assert (X' = ∅) as -> by (apply set_eq; intros y; rewrite HX', HX; set_solver).
  by eexists _, rnd', lv'.
Qed.

Lemma SkipList_new_rest a k jh : a <> NULL -> at_rest (SkipList_new a k jh) (fun _ => []).
Proof using CompareOrder0.
  intros Ha. destruct (start_inv compare_ false a k jh 0 Ha) as [Hl Hmax _ _]. by split.
Qed.

Lemma contents_sorted s lv : at_rest s lv -> StronglySorted (fun x y => compare_ x y < 0) (contents s).
Proof using CompareOrder0.
  intros [Hl _ _]. rewrite (contents_spec compare_ s lv Hl).
  pose proof (lk_sorted _ _ _ _ Hl 0) as Hs. induction Hs as [|[b kb] l Hs IH Hf]; cbn; [constructor|]. constructor; [done|].
  by apply Forall_fmap.
Qed.

Lemma absent_spec k (l : list E) : absent compare_ k l = true <-> forall x, x ∈ l -> compare_ x k <> 0.
Proof.
  unfold absent. rewrite forallb_forall. split; intros Hx x.
  - intros Hin%list_elem_of_In%Hx. by apply negb_true_iff, Z.eqb_neq in Hin.
  - intros Hin%list_elem_of_In. by apply negb_true_iff, Z.eqb_neq, Hx.
Qed.

(** ** Sequences of insertions *)

(** [alloc] is the memory the arena hands out for a node, [fine] chooses between
    the two routines. *)
Fixpoint insert_all (fuel : nat) (alloc : gmap Z (Node (E := E)) -> addr) (junk : nat -> addr) (ops : list (bool * E))
    s (rnd : Z) (locked : gset Z) : result (skiplist * Z * gset Z) :=
  match ops with
  | [] => Ok (s, rnd, locked)
  | (fine, k) :: ops =>
      '(s, rnd, locked) ←
        (if (fine : bool) then FineGrainLockInsert compare_ fuel k (alloc (sl_heap s)) junk s rnd locked
         else '(s, rnd) ← SkipList_Insert compare_ k (alloc (sl_heap s)) junk s rnd; Ok (s, rnd, locked));
      insert_all fuel alloc junk ops s rnd locked
  end.

Lemma insert_all_ok fuel alloc junk : (0 < fuel)%nat -> (forall h, alloc h <> NULL /\ h !! alloc h = None) ->
  forall ops s lv rnd, at_rest s lv -> ForallOrdPairs (fun x y => compare_ x y <> 0) ops.*2 ->
  Forall (fun k => absent compare_ k (contents s) = true) ops.*2 ->
  exists s' rnd' lv', insert_all fuel alloc junk ops s rnd ∅ = Ok (s', rnd', ∅) /\ at_rest s' lv' /\
    contents s' = foldl (fun l k => sl_insert compare_ k l) (contents s) ops.*2.
Proof using CompareOrder0.
  intros Hf Halloc. induction ops as [|[fine k] ops IH]; intros s lv rnd Hr Hd Ha; cbn [insert_all]; [by eexists _, _, _|].
  inversion_clear Hd as [|? ? Hk Hd']. inversion_clear Ha as [|? ? Hka Ha']. cbn [snd] in Hk, Hka.
  destruct (Halloc (sl_heap s)) as [Hn Hfresh].
  assert (Hone : exists s' rnd' lv',
    (if (fine : bool) then FineGrainLockInsert compare_ fuel k (alloc (sl_heap s)) junk s rnd ∅
     else '(s, rnd) ← SkipList_Insert compare_ k (alloc (sl_heap s)) junk s rnd; Ok (s, rnd, ∅)) = Ok (s', rnd', ∅) /\
    at_rest s' lv' /\ contents s' = sl_insert compare_ k (contents s)).
  { destruct fine; [by apply (FineGrainLockInsert_spec fuel s lv)|].
    destruct (SkipList_Insert_spec s lv k (alloc (sl_heap s)) junk rnd) as (s' & rnd' & lv' & -> & Hr' & Hc & _); [done..|].
    by eexists _, _, _. }
  destruct Hone as (s1 & rnd1 & lv1 & -> & Hr1 & Hc1). cbn [mbind result_bind].
  destruct (IH s1 lv1 rnd1 Hr1 Hd') as (s' & rnd' & lv' & E1 & Hr' & Hc); [|eexists _, _, _; split; [done|]; split; [done|]].
  - rewrite Forall_forall in Ha', Hk |- *. intros k' Hk'. rewrite Hc1. apply absent_spec. intros x Hx.
    apply (sl_insert_in compare_) in Hx as [Hx|[-> _]]; [|by apply Hk|by eapply contents_sorted].
    specialize (Ha' k' Hk'). by apply (proj1 (absent_spec _ _) Ha').
  - by rewrite Hc, Hc1.
Qed.

Lemma foldl_insert_in (ks l : list E) x : StronglySorted (fun a b => compare_ a b < 0) l ->
  ForallOrdPairs (fun x y => compare_ x y <> 0) ks -> Forall (fun k => absent compare_ k l = true) ks ->
  x ∈ foldl (fun l k => sl_insert compare_ k l) l ks <-> x ∈ l \/ x ∈ ks.
Proof using CompareOrder0.
  revert l. induction ks as [|k ks IH]; intros l Hs Hd Ha; cbn [foldl]; [set_solver|].
  inversion_clear Hd as [|? ? Hk Hd']. inversion_clear Ha as [|? ? Hka Ha']. rewrite IH; [| |done|].
  - rewrite (sl_insert_in compare_) by done. pose proof (proj1 (absent_spec _ _) Hka). set_solver.
  - by apply (sl_insert_sorted compare_).
  - rewrite Forall_forall in Ha', Hk |- *. intros k' Hk'. apply absent_spec. intros y Hy.
    apply (sl_insert_in compare_) in Hy as [Hy|[-> _]]; [|by apply Hk|done].
    specialize (Ha' k' Hk'). by apply (proj1 (absent_spec _ _) Ha').
Qed.

(** A skip list of db/skiplist.h or db/lockfreeSkiplist.h that one thread at a
    time inserts distinct keys into, by [SkipList::Insert] or by
    [FineGrainLockInsert] in any mixture: every insertion returns, no lock stays
    held, the list holds exactly the inserted keys in strict order, and [Contains]
    and [Seek] answer from it. *)
Theorem undisturbed_inserts fuel alloc junk a jk jh rnd ops :
  (0 < fuel)%nat -> a <> NULL -> (forall h, alloc h <> NULL /\ h !! alloc h = None) ->
  ForallOrdPairs (fun x y => compare_ x y <> 0) ops.*2 ->
  exists s rnd', insert_all fuel alloc junk ops (SkipList_new a jk jh) rnd ∅ = Ok (s, rnd', ∅) /\
    StronglySorted (fun x y => compare_ x y < 0) (contents s) /\ (forall x, x ∈ contents s <-> x ∈ ops.*2) /\
    (forall k, Contains compare_ s k = Ok (negb (absent compare_ k (contents s)))) /\
    (forall k, exists x, Iter_Seek compare_ s k = Ok x /\ key_at s x = sl_seek compare_ k (contents s)).
Proof using CompareOrder0.
  intros Hf Ha Halloc Hd. pose proof (SkipList_new_rest a jk jh Ha) as Hr.
  assert (Hc0 : contents (SkipList_new a jk jh) = []) by (rewrite (contents_spec compare_ _ _ (ar_list _ _ Hr)); done).
  destruct (insert_all_ok fuel alloc junk Hf Halloc ops _ _ rnd Hr Hd) as (s & rnd' & lv & E1 & Hr' & Hc);
    [rewrite Hc0; by apply Forall_forall|].
  exists s, rnd'. split; [done|]. split; [by eapply contents_sorted|]. pose proof Hr' as [Hl Hmax _]. split; [|split].
  - intros x. rewrite Hc, Hc0, foldl_insert_in; [set_solver|constructor|done|by apply Forall_forall].
  - intros k. by apply (Contains_spec compare_ s lv).
  - intros k. by apply (lf_Seek_spec compare_ s lv).
Qed.

End proofs.

(** Memory above everything in use. *)
Definition bump_alloc {E} (h : gmap Z (Node (E := E))) : addr := map_fold (fun k _ m => Z.max (k + 1) m) 1 h.

Lemma bump_alloc_fresh {E} (h : gmap Z (Node (E := E))) : bump_alloc h <> NULL /\ h !! bump_alloc h = None.
Proof.
  unfold bump_alloc.
  assert (Hb : 1 <= map_fold (fun k _ m => Z.max (k + 1) m) 1 h /\ forall k n, h !! k = Some n -> k < map_fold (fun k _ m => Z.max (k + 1) m) 1 h).
  { apply (map_fold_weak_ind (fun m h => 1 <= m /\ forall k n, h !! k = Some n -> k < m)); [set_solver|].
    intros k n h' m Hk [H1 Hm]. split; [lia|]. intros k' n' [[-> _]|[_ Hk']]%lookup_insert_Some; [lia|]. specialize (Hm k' n' Hk'). lia. }
  destruct Hb as [H1 Hm]. split; [unfold NULL; lia|]. destruct (h !! _) eqn:E1; [|done]. apply Hm in E1. lia.
Qed.

#[local] Instance zsub_order : CompareOrder Z.sub.
Proof. split; intros *; lia. Qed.

Lemma undisturbed_inserts_witness :
  exists s rnd', insert_all Z.sub 1 bump_alloc (fun _ => 0) [(true, 5); (false, 3); (true, 9)] (SkipList_new 7 0 0) 1 ∅ = Ok (s, rnd', ∅) /\
    contents s = [3; 5; 9].
Proof.
  destruct (undisturbed_inserts Z.sub 1 bump_alloc (fun _ => 0) 7 0 0 1 [(true, 5); (false, 3); (true, 9)])
    as (s & rnd' & E1 & _); [lia|done|apply bump_alloc_fresh|repeat constructor; cbn; lia|].
  exists s, rnd'. split; [exact E1|]. vm_compute in E1. injection E1 as <- _. vm_compute. reflexivity.
Defined.
