(* ===== verification/InternalKey.v ===== *)
(** * Statuses, comparators and internal keys

    The statuses of include/leveldb/status.h, [Slice::compare] of include/leveldb/slice.h, the interface of
    include/leveldb/comparator.h with its two implementations (util/comparator.cc
    and the [InternalKeyComparator] of db/dbformat.cc, which orders the versions
    of a user key), and the formats of db/dbformat.h: internal keys and
    [LookupKey].  Slices and strings are the lists of their bytes and shorter than
    [2 ^ 31]; a key too short for its tag is read out of bounds. *)

From S2P Require Import Prelude Coding CRC32C TXMemStore.

(** ** Statuses *)

(** The messages that come with a corruption: those of write_batch.cc, of the reader
    of the log (which are not told apart), of the table files, and of db_iter.cc. *)
Inductive message :=
  | TooSmall | BadPut | BadDelete | UnknownTag | WrongCount
  | LogDrop
  | BadEntry | BadContents | TruncatedBlock | BlockChecksum | BadBlockType | BadCompressed | BadHandle
  | BadInternalKey.

Inductive Status := StOK | StNotFound | StCorruption (msg : message) | StInvalidArgument | StIOError.

Definition status_ok (s : Status) : bool := match s with StOK => true | _ => false end.

(** ** Slices *)

(** [memcmp]: the sign of the first difference. *)
Fixpoint memcmp (n : nat) (a b : list Z) : Z :=
  match n, a, b with
  | S n, x :: a, y :: b => if x <? y then -1 else if y <? x then 1 else memcmp n a b
  | _, _, _ => 0
  end.

Definition Slice_compare (a b : list Z) : Z :=
  let min_len := if (length a <? length b)%nat then length a else length b in
  let r := memcmp min_len a b in
  if r =? 0 then
    if (length a <? length b)%nat then -1 else if (length b <? length a)%nat then 1 else r
  else r.

Definition Slice_eqb (x y : list Z) : bool := (length x =? length y)%nat && (memcmp (length x) x y =? 0).

Definition starts_with (s x : list Z) : bool := (length x <=? length s)%nat && (memcmp (length x) s x =? 0).

(** ** Comparators *)

Record Comparator := mkComparator {
  Compare : list Z -> list Z -> result Z;
  FindShortestSeparator : list Z -> list Z -> result (list Z);
  FindShortSuccessor : list Z -> result (list Z) }.

(** The index of the first difference, or the length of the shorter string. *)
Fixpoint diff_index (start limit : list Z) : nat :=
  match start, limit with
  | x :: start, y :: limit => if x =? y then S (diff_index start limit) else O
  | _, _ => O
  end.

Definition bytewise_separator (start limit : list Z) : list Z :=
  let min_length := Nat.min (length start) (length limit) in
  let d := diff_index start limit in
  if (min_length <=? d)%nat then start
  else
    match start !! d, limit !! d with
    | Some diff_byte, Some l =>
        if (diff_byte <? 255) && (diff_byte + 1 <? l) then take d start ++ [byte_of (diff_byte + 1)] else start
    | _, _ => start
    end.

Fixpoint bytewise_successor (key : list Z) : list Z :=
  match key with
  | [] => []
  | byte :: key => if negb (byte =? 255) then [byte_of (byte + 1)] else byte :: bytewise_successor key
  end.

Definition BytewiseComparator : Comparator :=
  mkComparator (fun a b => Ok (Slice_compare a b)) (fun start limit => Ok (bytewise_separator start limit))
    (fun key => Ok (bytewise_successor key)).

(** ** db/dbformat *)

Definition kTypeDeletion : Z := 0.
Definition kTypeValue : Z := 1.
Definition kValueTypeForSeek : Z := kTypeValue.
Definition kMaxSequenceNumber : Z := Z.shiftl 1 56 - 1.

Record ParsedInternalKey := mkParsed { pk_user_key : list Z; pk_sequence : Z; pk_type : Z }.

Definition PackSequenceAndType (seq t : Z) : Z := Z.lor (u64 (Z.shiftl seq 8)) t.

Definition AppendInternalKey (result : list Z) (key : ParsedInternalKey) : list Z :=
  PutFixed64 (result ++ pk_user_key key) (PackSequenceAndType (pk_sequence key) (pk_type key)).

Definition ExtractUserKey (internal_key : list Z) : result (list Z) :=
  if (8 <=? length internal_key)%nat then Ok (take (length internal_key - 8) internal_key) else Fault OutOfBounds.

(** [DecodeFixed64(key.data() + key.size() - 8)]. *)
Definition key_tag (internal_key : list Z) : result Z :=
  if (8 <=? length internal_key)%nat then DecodeFixed64 (drop (length internal_key - 8) internal_key)
  else Fault OutOfBounds.

Definition ExtractValueType (internal_key : list Z) : result Z :=
  num ← key_tag internal_key; Ok (Z.land num 255).

(** The result and what [*result] becomes. *)
Definition ParseInternalKey (internal_key : list Z) (result : ParsedInternalKey) : bool * ParsedInternalKey :=
  match key_tag internal_key with
  | Ok num =>
      let c := Z.land num 255 in
      (c <=? kTypeValue, mkParsed (take (length internal_key - 8) internal_key) (Z.shiftr num 8) c)
  | Fault _ => (false, result)
  end.

Definition InternalKey_compare (c : Comparator) (akey bkey : list Z) : result Z :=
  ua ← ExtractUserKey akey;
  ub ← ExtractUserKey bkey;
  r ← Compare c ua ub;
  if r =? 0 then
    anum ← key_tag akey;
    bnum ← key_tag bkey;
    Ok (if bnum <? anum then -1 else if anum <? bnum then 1 else r)
  else Ok r.

(** The earliest internal key of a user key. *)
Definition earliest (tmp : list Z) : list Z := PutFixed64 tmp (PackSequenceAndType kMaxSequenceNumber kValueTypeForSeek).

Definition InternalKey_separator (c : Comparator) (start limit : list Z) : result (list Z) :=
  user_start ← ExtractUserKey start;
  user_limit ← ExtractUserKey limit;
  tmp ← FindShortestSeparator c user_start user_limit;
  if (length tmp <? length user_start)%nat then
    r ← Compare c user_start tmp;
    Ok (if r <? 0 then earliest tmp else start)
  else Ok start.

Definition InternalKey_successor (c : Comparator) (key : list Z) : result (list Z) :=
  user_key ← ExtractUserKey key;
  tmp ← FindShortSuccessor c user_key;
  if (length tmp <? length user_key)%nat then
    r ← Compare c user_key tmp;
    Ok (if r <? 0 then earliest tmp else key)
  else Ok key.

Definition InternalKeyComparator (c : Comparator) : Comparator :=
  mkComparator (InternalKey_compare c) (InternalKey_separator c) (InternalKey_successor c).

(** The bytes from [start_] to [end_], where [kstart_] is, and how many bytes were
    allocated. *)
Record LookupKey := mkLookupKey { lk_bytes : list Z; lk_kstart : nat; lk_room : nat }.

Definition LookupKey_new (user_key : list Z) (s : Z) : LookupKey :=
  let usize := length user_key in
  let needed := (usize + 13)%nat in
  let klength := EncodeVarint32 (u32 (Z.of_nat usize + 8)) in
  mkLookupKey (klength ++ user_key ++ EncodeFixed64 (PackSequenceAndType s kValueTypeForSeek)) (length klength)
    (if (needed <=? 200)%nat then 200 else needed).

Definition memtable_key (k : LookupKey) : list Z := lk_bytes k.
Definition internal_key (k : LookupKey) : list Z := drop (lk_kstart k) (lk_bytes k).
Definition user_key (k : LookupKey) : list Z :=
  take (length (lk_bytes k) - lk_kstart k - 8) (drop (lk_kstart k) (lk_bytes k)).

(** ** What comparators promise

    include/leveldb/comparator.h: a total order, and strings between two keys or
    after a key.  [ok] are the keys that may be given, [ord] is the order. *)

Class ComparatorSpec (c : Comparator) (ok : list Z -> Prop) (ord : list Z -> list Z -> Z) : Prop := {
  cs_order :: CompareOrder ord;
  cs_compare a b : ok a -> ok b -> Compare c a b = Ok (ord a b);
  cs_separator start limit : ok start -> ok limit ->
    exists s, FindShortestSeparator c start limit = Ok s /\ ok s /\ (length s <= length start)%nat /\
      (ord start limit < 0 -> ord start s <= 0 /\ ord s limit < 0) /\ (0 <= ord start limit -> s = start);
  cs_successor key : ok key ->
    exists s, FindShortSuccessor c key = Ok s /\ ok s /\ (length s <= length key)%nat /\ ord key s <= 0 }.

(** ** Orders *)

Section orders.
Context {A B C : Type} (ca : A -> A -> Z) (cb : B -> B -> Z) `{!CompareOrder ca, !CompareOrder cb}.

Definition then_by (f : C -> A) (g : C -> B) (x y : C) : Z :=
  if ca (f x) (f y) =? 0 then cb (g x) (g y) else ca (f x) (f y).

Lemma co_eq_trans x y z : ca x y = 0 -> ca y z = 0 -> ca x z = 0.
Proof using CompareOrder0.
  intros H1 H2. pose proof (co_sym ca x z). pose proof (co_sym ca z x). pose proof (co_sym ca x y). pose proof (co_sym ca y x).
  pose proof (co_trans ca x z y). pose proof (co_trans ca z x y). pose proof (co_sym ca y z). pose proof (co_sym ca z y). lia.
Qed.

Lemma co_le_lt x y z : ca x y <= 0 -> ca y z < 0 -> ca x z < 0.
Proof using CompareOrder0.
  intros H1 H2. pose proof (co_sym ca x z). pose proof (co_sym ca z x). pose proof (co_sym ca x y). pose proof (co_sym ca y x).
  pose proof (co_trans ca y z x). pose proof (co_trans ca z x y). pose proof (co_trans ca x y z). lia.
Qed.

#[export] Instance then_by_order f g : CompareOrder (then_by f g).
Proof using CompareOrder0 CompareOrder1.
  split; unfold then_by.
  - intros x. rewrite (co_refl ca). cbn. apply (co_refl cb).
  - intros x y. pose proof (co_sym ca (f x) (f y)). pose proof (co_sym ca (f y) (f x)). pose proof (co_sym cb (g x) (g y)).
    destruct (Z.eqb_spec (ca (f x) (f y)) 0), (Z.eqb_spec (ca (f y) (f x)) 0); lia.
  - intros x y z. pose proof (co_trans ca (f x) (f y) (f z)). pose proof (co_le_lt (f x) (f y) (f z)).
    pose proof (co_eq_trans (f x) (f y) (f z)). pose proof (co_trans cb (g x) (g y) (g z)).
    destruct (Z.eqb_spec (ca (f x) (f y)) 0), (Z.eqb_spec (ca (f y) (f z)) 0), (Z.eqb_spec (ca (f x) (f z)) 0); lia.
Qed.

(** Values that do not exist come first. *)
Definition option_cmp (x y : option A) : Z :=
  match x, y with Some a, Some b => ca a b | Some _, None => 1 | None, Some _ => -1 | None, None => 0 end.

#[export] Instance option_cmp_order : CompareOrder option_cmp.
Proof using CompareOrder0.
  split.
  - intros [x|]; [apply (co_refl ca)|done].
  - intros [x|] [y|]; cbn; [apply (co_sym ca)|lia..].
  - intros [x|] [y|] [z|]; cbn; [apply (co_trans ca)|lia..].
Qed.

#[export] Instance proj_order (f : C -> A) : CompareOrder (fun x y => ca (f x) (f y)).
Proof using CompareOrder0.
  split; intros *; [apply (co_refl ca)|apply (co_sym ca)|apply (co_trans ca)].
Qed.

End orders.

(** ** Bytewise order *)

Fixpoint lex (a b : list Z) : Z :=
  match a, b with
  | [], [] => 0
  | [], _ :: _ => -1
  | _ :: _, [] => 1
  | x :: a, y :: b => if x <? y then -1 else if y <? x then 1 else lex a b
  end.

Lemma memcmp_sign n a b : memcmp n a b = -1 \/ memcmp n a b = 0 \/ memcmp n a b = 1.
Proof. revert a b. induction n as [|n IH]; intros [|x a] [|y b]; cbn; auto. repeat case_match; auto. Qed.

Lemma Slice_compare_lex a b : Slice_compare a b = lex a b.
Proof.
  unfold Slice_compare. revert b. induction a as [|x a IH]; intros [|y b]; [done..|]. cbn [length lex].
  specialize (IH b). change (S (length a) <? S (length b))%nat with (length a <? length b)%nat.
  change (S (length b) <? S (length a))%nat with (length b <? length a)%nat.
  replace (if (length a <? length b)%nat then S (length a) else S (length b)) with
    (S (if (length a <? length b)%nat then length a else length b)) by (by destruct (length a <? length b)%nat).
  cbn [memcmp]. destruct (Z.ltb_spec x y); [done|]. destruct (Z.ltb_spec y x); [done|]. exact IH.
Qed.

#[export] Instance lex_order : CompareOrder lex.
Proof.
  split.
  - induction x as [|x l IH]; cbn; [done|]. by rewrite Z.ltb_irrefl.
  - intros x. induction x as [|x l IH]; intros [|y l']; cbn; [lia..|]. specialize (IH l').
    destruct (Z.ltb_spec x y), (Z.ltb_spec y x); lia.
  - intros x. induction x as [|x l IH]; intros [|y l'] [|z l'']; cbn; try lia. specialize (IH l' l'').
    destruct (Z.ltb_spec x y), (Z.ltb_spec y x), (Z.ltb_spec y z), (Z.ltb_spec z y), (Z.ltb_spec x z), (Z.ltb_spec z x); lia.
Qed.

#[export] Instance Slice_compare_order : CompareOrder Slice_compare.
Proof.
  split; intros *; rewrite !Slice_compare_lex; [apply (co_refl lex)|apply (co_sym lex)|apply (co_trans lex)].
Qed.

Lemma lex_eq a b : lex a b = 0 -> a = b.
Proof.
  revert b. induction a as [|x a IH]; intros [|y b]; cbn; [done..|]. destruct (Z.ltb_spec x y), (Z.ltb_spec y x); try lia.
  intros Hl. f_equal; [lia|by apply IH].
Qed.

Lemma lex_app p a b : lex (p ++ a) (p ++ b) = lex a b.
Proof. induction p as [|x p IH]; [done|]. cbn. by rewrite Z.ltb_irrefl. Qed.

Lemma diff_index_split start limit :
  exists a b, start = take (diff_index start limit) start ++ a /\ limit = take (diff_index start limit) start ++ b /\
    match a, b with x :: _, y :: _ => x <> y | _, _ => True end.
Proof.
  revert limit. induction start as [|x start IH]; intros [|y limit]; cbn [diff_index]; [by eexists _, _..|].
  destruct (Z.eqb_spec x y) as [->|Hne]; [|by exists (x :: start), (y :: limit)].
  destruct (IH limit) as (a & b & E1 & E2 & Hab). exists a, b. cbn [take app]. rewrite <- E1, <- E2. done.
Qed.

(** A string that differs first in [d < l], and the string cut off behind a byte
    between. *)
Lemma separator_cut p d a l b :
  d < l -> d + 1 < l -> lex (p ++ d :: a) (p ++ [d + 1]) < 0 /\ lex (p ++ [d + 1]) (p ++ l :: b) < 0.
Proof.
  intros. rewrite !lex_app. cbn. destruct (Z.ltb_spec d (d + 1)), (Z.ltb_spec (d + 1) l); lia.
Qed.

Lemma bytewise_separator_spec start limit : bytes start -> bytes limit ->
  let s := bytewise_separator start limit in
  bytes s /\ (length s <= length start)%nat /\
  (lex start limit < 0 -> lex start s <= 0 /\ lex s limit < 0) /\ (0 <= lex start limit -> s = start).
Proof.
  intros Hs Hl. cbv zeta. unfold bytewise_separator. pose proof (co_refl lex start) as Hrefl.
  destruct (Nat.leb_spec (Nat.min (length start) (length limit)) (diff_index start limit)) as [Hd|Hd];
    [split_and!; [done..|lia|done]|].
  destruct (diff_index_split start limit) as (a & b & E1 & E2 & Hab). set (d := diff_index start limit) in *.
  assert (Hlen : length (take d start) = d) by (rewrite length_take; lia).
  destruct a as [|x a]; [rewrite E1, app_nil_r, Hlen in Hd; lia|]. destruct b as [|y b]; [rewrite E2, app_nil_r, Hlen in Hd; lia|].
  assert (Ex : start !! d = Some x) by (rewrite E1, lookup_app_r, Hlen, Nat.sub_diag by lia; done).
  assert (Ey : limit !! d = Some y) by (rewrite E2, lookup_app_r, Hlen, Nat.sub_diag by lia; done).
  rewrite Ex, Ey. pose proof (Forall_lookup_1 _ _ _ _ Hs Ex) as Bx. pose proof (Forall_lookup_1 _ _ _ _ Hl Ey) as By'. cbn in Bx, By'.
  destruct (Z.ltb_spec x 255), (Z.ltb_spec (x + 1) y); cbn [andb]; try (split_and!; [done..|lia|done]).
  unfold byte_of. rewrite Z.mod_small by lia. destruct (separator_cut (take d start) x a y b) as [H1 H2]; [lia..|].
  rewrite <- E1 in H1. rewrite <- E2 in H2. split_and!.
  - apply Forall_app. split; [by apply Forall_take|]. repeat constructor; lia.
  - rewrite length_app, Hlen. cbn. lia.
  - intros _. split; [lia|done].
  - intros Hge. exfalso. pose proof (co_trans lex _ _ limit H1 ltac:(lia)). lia.
Qed.

Lemma bytewise_successor_spec key : bytes key ->
  let s := bytewise_successor key in bytes s /\ (length s <= length key)%nat /\ lex key s <= 0.
Proof.
  cbv zeta. induction 1 as [|x key Hx Hk IH]; cbn [bytewise_successor]; [done|]. cbn in Hx.
  destruct (Z.eqb_spec x 255) as [->|Hne]; cbn [negb].
  - destruct IH as (H1 & H2 & H3). split_and!; [by constructor|cbn; lia|cbn; done].
  - unfold byte_of. rewrite Z.mod_small by lia. split_and!; [repeat constructor; lia|cbn; lia|].
    cbn. by rewrite (proj2 (Z.ltb_lt x (x + 1))) by lia.
Qed.

#[export] Instance BytewiseComparator_spec : ComparatorSpec BytewiseComparator bytes Slice_compare.
Proof.
  split; [apply _|done|..]; cbn [FindShortestSeparator FindShortSuccessor BytewiseComparator].
  - intros start limit Hs Hl. destruct (bytewise_separator_spec start limit Hs Hl) as (H1 & H2 & H3 & H4).
    eexists. rewrite !Slice_compare_lex. by split_and!.
  - intros key Hk. destruct (bytewise_successor_spec key Hk) as (H1 & H2 & H3).
    eexists. rewrite !Slice_compare_lex. by split_and!.
Qed.

(** ** Internal keys *)

(** The tag and the user key of an internal key; newer tags come first. *)
Definition ik_split (k : list Z) : option (list Z * Z) :=
  if (8 <=? length k)%nat then Some (take (length k - 8) k, le_value (drop (length k - 8) k)) else None.

Definition tag_cmp (x y : Z) : Z := if y <? x then -1 else if x <? y then 1 else 0.

#[export] Instance tag_cmp_order : CompareOrder tag_cmp.
Proof.
  split; unfold tag_cmp.
  - intros x. by rewrite Z.ltb_irrefl.
  - intros x y. destruct (Z.ltb_spec x y), (Z.ltb_spec y x); lia.
  - intros x y z. destruct (Z.ltb_spec x y), (Z.ltb_spec y x), (Z.ltb_spec y z), (Z.ltb_spec z y), (Z.ltb_spec x z), (Z.ltb_spec z x); lia.
Qed.

Section internal.
Context (c : Comparator) (ok : list Z -> Prop) (ord : list Z -> list Z -> Z) `{Hc : !ComparatorSpec c ok ord}.

(** Internal keys whose user key the comparator takes. *)
Definition ik_ok (k : list Z) : Prop := match ik_split k with Some (u, _) => ok u | None => False end.

Definition ik_ord (a b : list Z) : Z := option_cmp (then_by ord tag_cmp fst snd) (ik_split a) (ik_split b).

#[export] Instance ik_ord_order : CompareOrder ik_ord.
Proof using Hc. apply (proj_order (option_cmp (then_by ord tag_cmp fst snd)) ik_split). Qed.

Lemma ik_split_ok k u t : ik_split k = Some (u, t) ->
  ExtractUserKey k = Ok u /\ key_tag k = Ok t /\ (length k = length u + 8)%nat.
Proof.
  unfold ik_split, ExtractUserKey, key_tag. destruct (Nat.leb_spec 8 (length k)) as [Hk|]; [|done]. intros [= <- <-].
  split_and!; [done| |rewrite length_take; lia]. unfold DecodeFixed64, DecodeFixed.
  assert (Hd : length (drop (length k - 8) k) = 8%nat) by (rewrite length_drop; lia). rewrite Hd. cbn [Nat.leb].
  by rewrite take_ge by lia.
Qed.

Lemma ik_split_app u t : 0 <= t < 2 ^ 64 -> ik_split (u ++ EncodeFixed64 t) = Some (u, t).
Proof.
  intros Ht. unfold ik_split. assert (Hlen : length (EncodeFixed64 t) = 8%nat) by apply length_le_bytes.
  rewrite length_app, Hlen, (proj2 (Nat.leb_le _ _)) by lia.
  replace (length u + 8 - 8)%nat with (length u) by lia. rewrite take_app_length, drop_app_length.
  by rewrite (le_value_bytes 8).
Qed.

Lemma ik_compare_ok a b : ik_ok a -> ik_ok b -> InternalKey_compare c a b = Ok (ik_ord a b).
Proof using Hc.
  unfold ik_ok, ik_ord, InternalKey_compare. destruct (ik_split a) as [[ua ta]|] eqn:Ea; [|done].
  destruct (ik_split b) as [[ub tb]|] eqn:Eb; [|done]. intros Ha Hb.
  apply ik_split_ok in Ea as (-> & -> & _), Eb as (-> & -> & _). cbn [mbind result_bind].
  rewrite (cs_compare ua ub) by done. cbn [mbind result_bind option_cmp]. unfold then_by, tag_cmp. cbn [fst snd].
  by destruct (Z.eqb_spec (ord ua ub) 0) as [->|].
Qed.

Lemma pack_range : 0 <= PackSequenceAndType kMaxSequenceNumber kValueTypeForSeek < 2 ^ 64.
Proof. done. Qed.

Lemma earliest_split tmp : ik_split (earliest tmp) = Some (tmp, PackSequenceAndType kMaxSequenceNumber kValueTypeForSeek).
Proof. apply ik_split_app, pack_range. Qed.

(** A user key strictly between decides, whatever the tags are. *)
Lemma ik_ord_user a b ua ta ub tb : ik_split a = Some (ua, ta) -> ik_split b = Some (ub, tb) -> ord ua ub < 0 -> ik_ord a b < 0.
Proof. unfold ik_ord. intros -> -> Hlt. cbn. unfold then_by. cbn [fst snd]. by rewrite (proj2 (Z.eqb_neq _ _)) by lia. Qed.

Lemma ik_separator_ok start limit : ik_ok start -> ik_ok limit ->
  exists s, InternalKey_separator c start limit = Ok s /\ ik_ok s /\ (length s <= length start)%nat /\
    (ik_ord start limit < 0 -> ik_ord start s <= 0 /\ ik_ord s limit < 0) /\ (0 <= ik_ord start limit -> s = start).
Proof using Hc.
  intros Hs Hl. pose proof Hs as Hs'. pose proof Hl as Hl'. unfold ik_ok in Hs', Hl'. unfold InternalKey_separator.
  destruct (ik_split start) as [[us ts]|] eqn:Es; [|done]. destruct (ik_split limit) as [[ul tl]|] eqn:El; [|done].
  destruct (ik_split_ok _ _ _ Es) as (-> & _ & Hlen). destruct (ik_split_ok _ _ _ El) as (-> & _ & _). cbn [mbind result_bind].
  destruct (cs_separator us ul Hs' Hl') as (tmp & -> & Hok & _ & Hlt & Hge). cbn [mbind result_bind].
  assert (Hsame : exists s, @Ok (list Z) start = Ok s /\ ik_ok s /\ (length s <= length start)%nat /\
    (ik_ord start limit < 0 -> ik_ord start s <= 0 /\ ik_ord s limit < 0) /\ (0 <= ik_ord start limit -> s = start)).
  { exists start. rewrite (co_refl ik_ord). by split_and!. }
  destruct (Nat.ltb_spec (length tmp) (length us)) as [Hsh|]; [|done]. rewrite (cs_compare us tmp) by done. cbn [mbind result_bind].
  destruct (Z.ltb_spec (ord us tmp) 0) as [Hus|]; [|done].
  assert (Hul : ord us ul < 0). { destruct (Z_lt_le_dec (ord us ul) 0); [done|]. rewrite Hge in Hus by done. rewrite (co_refl ord) in Hus. lia. }
  pose proof (ik_ord_user _ _ _ _ _ _ Es El Hul) as Hsl.
  exists (earliest tmp). split; [done|]. split; [unfold ik_ok; by rewrite earliest_split|]. split.
  { unfold earliest, PutFixed64. rewrite length_app, (length_le_bytes 8). lia. }
  split; [|lia]. intros _. split; [apply Z.lt_le_incl|]; (eapply ik_ord_user; [try done; apply earliest_split..|]); [done|apply (Hlt Hul)].
Qed.

Lemma ik_successor_ok key : ik_ok key ->
  exists s, InternalKey_successor c key = Ok s /\ ik_ok s /\ (length s <= length key)%nat /\ ik_ord key s <= 0.
Proof using Hc.
  intros Hs. pose proof Hs as Hs'. unfold ik_ok in Hs'. unfold InternalKey_successor.
  destruct (ik_split key) as [[us ts]|] eqn:Es; [|done].
  destruct (ik_split_ok _ _ _ Es) as (-> & _ & Hlen). cbn [mbind result_bind].
  destruct (cs_successor us Hs') as (tmp & -> & Hok & _ & Hle). cbn [mbind result_bind].
  assert (Hsame : exists s, @Ok (list Z) key = Ok s /\ ik_ok s /\ (length s <= length key)%nat /\ ik_ord key s <= 0).
  { exists key. rewrite (co_refl ik_ord). by split_and!. }
  destruct (Nat.ltb_spec (length tmp) (length us)) as [Hsh|]; [|done]. rewrite (cs_compare us tmp) by done. cbn [mbind result_bind].
  destruct (Z.ltb_spec (ord us tmp) 0) as [Hus|]; [|done].
  exists (earliest tmp). split; [done|]. split; [unfold ik_ok; by rewrite earliest_split|]. split.
  { unfold earliest, PutFixed64. rewrite length_app, (length_le_bytes 8). lia. }
  apply Z.lt_le_incl. eapply ik_ord_user; [done|apply earliest_split|done].
Qed.

#[export] Instance InternalKeyComparator_spec : ComparatorSpec (InternalKeyComparator c) ik_ok ik_ord.
Proof using Hc.
  split; [apply _|apply ik_compare_ok|apply ik_separator_ok|apply ik_successor_ok].
Qed.

End internal.

(** ** Formats *)

(** Keys the program writes. *)
Definition key_valid (k : ParsedInternalKey) : Prop :=
  0 <= pk_sequence k <= kMaxSequenceNumber /\ (pk_type k = kTypeDeletion \/ pk_type k = kTypeValue).

Lemma pack_value s t : 0 <= s <= kMaxSequenceNumber -> 0 <= t < 256 -> PackSequenceAndType s t = s * 256 + t.
Proof.
  intros Hs Ht. unfold PackSequenceAndType, u64, u64_modulus. change kMaxSequenceNumber with (2 ^ 56 - 1) in Hs.
  rewrite (Z.mod_small (Z.shiftl s 8)) by (rewrite Z.shiftl_mul_pow2 by lia; lia).
  rewrite Z.lor_comm, lor_shiftl by lia. lia.
Qed.

Lemma pack_bounds s t : 0 <= s <= kMaxSequenceNumber -> 0 <= t < 256 -> 0 <= PackSequenceAndType s t < 2 ^ 64.
Proof. intros Hs Ht. rewrite pack_value by done. change kMaxSequenceNumber with (2 ^ 56 - 1) in Hs. lia. Qed.

Lemma pack_parts s t : 0 <= s <= kMaxSequenceNumber -> 0 <= t < 256 ->
  Z.land (PackSequenceAndType s t) 255 = t /\ Z.shiftr (PackSequenceAndType s t) 8 = s.
Proof.
  intros Hs Ht. rewrite pack_value by done. change 255 with (Z.ones 8). rewrite Z.land_ones, Z.shiftr_div_pow2 by lia.
  change (2 ^ 8) with 256. Z.to_euclidean_division_equations. lia.
Qed.

Lemma valid_type k : key_valid k -> 0 <= pk_type k < 256.
Proof. intros [_ [-> | ->]]; done. Qed.

Lemma append_split k : key_valid k ->
  ik_split (AppendInternalKey [] k) = Some (pk_user_key k, PackSequenceAndType (pk_sequence k) (pk_type k)).
Proof. intros Hk. pose proof Hk as [Hs _]. apply ik_split_app. apply pack_bounds; [done|by apply valid_type]. Qed.

Lemma parse_append k r : key_valid k -> ParseInternalKey (AppendInternalKey [] k) r = (true, k).
Proof.
  intros Hk. pose proof Hk as [Hs Ht]. pose proof (valid_type k Hk) as Hb.
  destruct (ik_split_ok _ _ _ (append_split k Hk)) as (Hu & Htag & Hlen). unfold ParseInternalKey. rewrite Htag.
  destruct (pack_parts _ _ Hs Hb) as [-> ->]. unfold ExtractUserKey in Hu.
  destruct (8 <=? length (AppendInternalKey [] k))%nat; [|done]. injection Hu as Hu. rewrite Hu.
  rewrite (proj2 (Z.leb_le _ _)) by (destruct Ht as [-> | ->]; done). by destruct k.
Qed.

Lemma lookup_key_parts u s : Z.of_nat (length u) + 8 < 2 ^ 32 ->
  let k := LookupKey_new u s in
  internal_key k = AppendInternalKey [] (mkParsed u s kValueTypeForSeek) /\
  memtable_key k = PutLengthPrefixedSlice [] (internal_key k) /\ user_key k = u /\ (length (lk_bytes k) <= lk_room k)%nat.
Proof.
  intros Hu. cbv zeta. set (tag := EncodeFixed64 (PackSequenceAndType s kValueTypeForSeek)).
  assert (Ht : length tag = 8%nat) by apply length_le_bytes.
  assert (Ek : internal_key (LookupKey_new u s) = u ++ tag) by (unfold internal_key; cbn; apply drop_app_length).
  set (kl := EncodeVarint32 (u32 (Z.of_nat (length u) + 8))).
  assert (Hkl : (length kl <= 5)%nat).
  { unfold kl, u32. eapply (varint_length_le _ _ 5); [lia|apply EncodeVarint32_varint; rewrite Z.mod_small; lia|].
    rewrite Z.mod_small by lia. change (128 ^ Z.of_nat 5) with (2 ^ 35). lia. }
  split; [done|]. split.
  { rewrite Ek. unfold memtable_key, PutLengthPrefixedSlice, PutVarint32. cbn [lk_bytes LookupKey_new app].
    rewrite length_app, Ht. fold tag. do 3 f_equal. lia. }
  split.
  - unfold user_key. cbn [lk_bytes lk_kstart LookupKey_new]. fold kl tag. rewrite drop_app_length, !length_app, Ht.
    replace (length kl + (length u + 8) - length kl - 8)%nat with (length u) by lia. apply take_app_length.
  - cbn [lk_bytes lk_room LookupKey_new]. fold kl tag. rewrite !length_app, Ht. destruct (Nat.leb_spec (length u + 13) 200); lia.
Qed.

Lemma ik_ord_append ord `{!CompareOrder ord} a b : key_valid a -> key_valid b ->
  (ik_ord ord (AppendInternalKey [] a) (AppendInternalKey [] b) < 0 <->
   ord (pk_user_key a) (pk_user_key b) < 0 \/
   (ord (pk_user_key a) (pk_user_key b) = 0 /\ (pk_sequence b < pk_sequence a \/
      (pk_sequence b = pk_sequence a /\ pk_type b < pk_type a)))).
Proof.
  intros Ha Hb. unfold ik_ord. rewrite !append_split by done. cbn [option_cmp]. unfold then_by, tag_cmp. cbn [fst snd].
  pose proof Ha as [Has _]. pose proof Hb as [Hbs _]. pose proof (valid_type a Ha). pose proof (valid_type b Hb).
  rewrite !pack_value by done. destruct (Z.eqb_spec (ord (pk_user_key a) (pk_user_key b)) 0) as [E|E]; [|lia].
  repeat case_match; lia.
Qed.

(** C20: Internal keys, for any comparator of user keys that keeps the promises of
    comparator.h.  [InternalKeyComparator] keeps them too: a total order, separators in
    [[start, limit)] and successors, none longer than the key.  On the keys that
    [AppendInternalKey] writes it orders by user key, then newest first, then values
    before deletions; [ParseInternalKey] reads such a key back; a [LookupKey] is the
    first internal key of its user key that is not newer than the snapshot, and never
    overruns its space. *)
Theorem internal_keys c ok ord :
  ComparatorSpec c ok ord ->
  ComparatorSpec (InternalKeyComparator c) (ik_ok ok) (ik_ord ord) /\
  (forall a b, key_valid a -> key_valid b -> ok (pk_user_key a) -> ok (pk_user_key b) ->
     exists r, InternalKey_compare c (AppendInternalKey [] a) (AppendInternalKey [] b) = Ok r /\
       (r < 0 <-> ord (pk_user_key a) (pk_user_key b) < 0 \/
          (ord (pk_user_key a) (pk_user_key b) = 0 /\ (pk_sequence b < pk_sequence a \/
             (pk_sequence b = pk_sequence a /\ pk_type b < pk_type a))))) /\
  (forall k r, key_valid k -> ParseInternalKey (AppendInternalKey [] k) r = (true, k)) /\
  (forall u s, Z.of_nat (length u) + 8 < 2 ^ 32 ->
     let k := LookupKey_new u s in
     internal_key k = AppendInternalKey [] (mkParsed u s kValueTypeForSeek) /\
     memtable_key k = PutLengthPrefixedSlice [] (internal_key k) /\ user_key k = u /\ (length (lk_bytes k) <= lk_room k)%nat).
Proof.
  intros Hc. split; [by apply InternalKeyComparator_spec|]. split; [|split; [apply parse_append|apply lookup_key_parts]].
  intros a b Ha Hb Hua Hub. exists (ik_ord ord (AppendInternalKey [] a) (AppendInternalKey [] b)).
  split; [apply (ik_compare_ok c ok ord); unfold ik_ok; by rewrite append_split|]. by apply ik_ord_append; [apply _|..].
Qed.

Lemma internal_keys_witness :
  (exists s, InternalKey_separator BytewiseComparator
     (AppendInternalKey [] (mkParsed [97; 98; 99; 100] 7 1)) (AppendInternalKey [] (mkParsed [97; 120] 3 1)) = Ok s /\
     (length s <= 12)%nat) /\
  ParseInternalKey (AppendInternalKey [] (mkParsed [97] 7 1)) (mkParsed [] 0 0) = (true, mkParsed [97] 7 1).
Proof.
  destruct (internal_keys BytewiseComparator bytes Slice_compare BytewiseComparator_spec) as ([_ _ Hsep _] & _ & Hp & _). split.
  - destruct (Hsep (AppendInternalKey [] (mkParsed [97; 98; 99; 100] 7 1)) (AppendInternalKey [] (mkParsed [97; 120] 3 1)))
      as (s & E & _ & Hlen & _); [repeat (constructor; try lia)..|]. by exists s.
  - apply Hp. split; [done|]. by right.
Defined.

Example separator_example :
  InternalKey_separator BytewiseComparator
    (AppendInternalKey [] (mkParsed [97; 98; 99; 100] 7 1)) (AppendInternalKey [] (mkParsed [97; 120] 3 1)) =
  Ok [97; 99; 1; 255; 255; 255; 255; 255; 255; 255].
Proof. reflexivity. Qed.
