(* ===== verification/Bloom.v ===== *)
(** * Hash functions and Bloom filters

    util/hash.cc, the interface of include/leveldb/filter_policy.h with its two
    implementations (util/bloom.cc, and [InternalFilterPolicy] of db/dbformat.cc, which
    filters by user key), and the filters of a table, table/filter_block.cc.  A filter
    may answer yes for a key it was not built for, never no for one it was.  [char] is
    signed, as on x86; slices are the lists of their bytes. *)

From S2P Require Import Prelude Coding CRC32C TXMemStore InternalKey.

(** ** util/hash.cc *)

(** A [char] as an [int]. *)
Definition schar (b : Z) : Z := if b <? 128 then b else b - 256.

(** Four bytes at a time; the hash and the bytes that are left. *)
Fixpoint Hash_loop (fuel : nat) (data : list Z) (h : Z) : result (Z * list Z) :=
  if (4 <=? length data)%nat then
    match fuel with
    | O => Fault OutOfFuel
    | S fuel =>
        w ← DecodeFixed32 data;
        let h := u32 (h + w) in
        let h := u32 (h * 0xc6a4a793) in
        let h := Z.lxor h (Z.shiftr h 16) in
        Hash_loop fuel (drop 4 data) h
    end
  else Ok (h, data).

(** The [switch] on the number of bytes left, with its fall-through. *)
Definition Hash_tail (data : list Z) (h : Z) : Z :=
  let last (d0 h : Z) := let h := u32 (h + schar d0) in let h := u32 (h * 0xc6a4a793) in Z.lxor h (Z.shiftr h 24) in
  match data with
  | [d0; d1; d2] => last d0 (u32 (u32 (h + Z.shiftl (schar d2) 16) + Z.shiftl (schar d1) 8))
  | [d0; d1] => last d0 (u32 (h + Z.shiftl (schar d1) 8))
  | [d0] => last d0 h
  | _ => h
  end.

Definition Hash (data : list Z) (seed : Z) : result Z :=
  let h := Z.lxor seed (u32 (Z.of_nat (length data) * 0xc6a4a793)) in
  '(h, rest) ← Hash_loop (length data) data h;
  Ok (Hash_tail rest h).

Fixpoint Murmur_loop (fuel : nat) (data : list Z) (h : Z) : result (Z * list Z) :=
  if (8 <=? length data)%nat then
    match fuel with
    | O => Fault OutOfFuel
    | S fuel =>
        k ← DecodeFixed64 data;
        let m := 0xc6a4a7935bd1e995 in
        let k := u64 (k * m) in
        let k := Z.lxor k (Z.shiftr k 47) in
        let k := u64 (k * m) in
        Murmur_loop fuel (drop 8 data) (u64 (Z.lxor h k * m))
    end
  else Ok (h, data).

(** [h ^= uint64_t(data2[i]) << 8 * i] for the bytes that are left, from the last. *)
Fixpoint Murmur_tail (data2 : list Z) (i : Z) : Z :=
  match data2 with [] => 0 | b :: data2 => Z.lxor (Murmur_tail data2 (i + 1)) (Z.shiftl b (8 * i)) end.

Definition MurmurHash64A (key : list Z) (seed : Z) : result Z :=
  let m := 0xc6a4a7935bd1e995 in
  let h := Z.lxor seed (u64 (Z.of_nat (length key) * m)) in
  '(h, rest) ← Murmur_loop (length key) key h;
  let h := match rest with [] => h | _ => u64 (Z.lxor h (Murmur_tail rest 0) * m) end in
  let h := Z.lxor h (Z.shiftr h 47) in
  let h := u64 (h * m) in
  Ok (Z.lxor h (Z.shiftr h 47)).

(** ** Filter policies *)

Record FilterPolicy := mkFilterPolicy {
  CreateFilter : list (list Z) -> list Z -> result (list Z);
  KeyMayMatch : list Z -> list Z -> result bool }.

(** What include/leveldb/filter_policy.h asks for, for at most [n] keys; filters have a
    sensible size. *)
Class FilterPolicySpec (p : FilterPolicy) (ok : list Z -> Prop) (n : nat) : Prop := {
  fp_create keys dst : Forall ok keys -> (length keys <= n)%nat ->
    exists f, CreateFilter p keys dst = Ok (dst ++ f) /\ (bytes f /\ Z.of_nat (length f) <= 2 ^ 40) /\
      forall key, key ∈ keys -> KeyMayMatch p key f = Ok true }.

(** *** util/bloom.cc *)

Definition BloomHash (key : list Z) : result Z := Hash key 0xbc9f1d34.

Record BloomFilterPolicy := mkBloom { bits_per_key_ : Z; k_ : Z }.

(** [scaled] is [bits_per_key * 0.69], rounded down. *)
Definition BloomFilterPolicy_new (bits_per_key scaled : Z) : BloomFilterPolicy :=
  let k := u64 scaled in
  let k := if k <? 1 then 1 else k in
  let k := if 30 <? k then 30 else k in
  mkBloom (u64 bits_per_key) k.

(** [(h >> 17) | (h << 15)]. *)
Definition rotate17 (h : Z) : Z := Z.lor (Z.shiftr h 17) (u32 (Z.shiftl h 15)).

(** [array[bitpos / 8] |= (1 << (bitpos % 8))]. *)
Definition set_bit (array : list Z) (bitpos : Z) : result (list Z) :=
  b ← from_opt OutOfBounds (array !! Z.to_nat (bitpos / 8));
  Ok (<[Z.to_nat (bitpos / 8) := byte_of (Z.lor b (Z.shiftl 1 (bitpos mod 8)))]> array).

Fixpoint set_probes (j : nat) (h delta bits : Z) (array : list Z) : result (list Z) :=
  match j with
  | O => Ok array
  | S j => array ← set_bit array (h mod bits); set_probes j (u32 (h + delta)) delta bits array
  end.

Fixpoint add_keys (k bits : Z) (keys : list (list Z)) (array : list Z) : result (list Z) :=
  match keys with
  | [] => Ok array
  | key :: keys =>
      h ← BloomHash key;
      array ← set_probes (Z.to_nat k) h (rotate17 h) bits array;
      add_keys k bits keys array
  end.

(** [bits] and [bytes] for [n] keys. *)
Definition filter_bytes (p : BloomFilterPolicy) (n : nat) : Z :=
  let bits := u64 (Z.of_nat n * bits_per_key_ p) in
  let bits := if bits <? 64 then 64 else bits in
  u64 (bits + 7) / 8.

Definition Bloom_CreateFilter (p : BloomFilterPolicy) (keys : list (list Z)) (dst : list Z) : result (list Z) :=
  let bytes := filter_bytes p (length keys) in
  array ← add_keys (k_ p) (u64 (bytes * 8)) keys (replicate (Z.to_nat bytes) 0);
  Ok (dst ++ array ++ [byte_of (k_ p)]).

Fixpoint test_probes (j : nat) (h delta bits : Z) (array : list Z) : result bool :=
  match j with
  | O => Ok true
  | S j =>
      let bitpos := h mod bits in
      b ← from_opt OutOfBounds (array !! Z.to_nat (bitpos / 8));
      if Z.land b (Z.shiftl 1 (bitpos mod 8)) =? 0 then Ok false
      else test_probes j (u32 (h + delta)) delta bits array
  end.

Definition Bloom_KeyMayMatch (key filter : list Z) : result bool :=
  let len := length filter in
  if (len <? 2)%nat then Ok false
  else
    let bits := (Z.of_nat len - 1) * 8 in
    c ← from_opt OutOfBounds (filter !! (len - 1)%nat);
    let k := u64 (schar c) in
    if 30 <? k then Ok true
    else
      h ← BloomHash key;
      test_probes (Z.to_nat k) h (rotate17 h) bits filter.

Definition NewBloomFilterPolicy (bits_per_key scaled : Z) : FilterPolicy :=
  mkFilterPolicy (Bloom_CreateFilter (BloomFilterPolicy_new bits_per_key scaled)) Bloom_KeyMayMatch.

(** *** InternalFilterPolicy *)

Fixpoint user_keys (keys : list (list Z)) : result (list (list Z)) :=
  match keys with
  | [] => Ok []
  | k :: keys => u ← ExtractUserKey k; us ← user_keys keys; Ok (u :: us)
  end.

Definition InternalFilterPolicy (user_policy_ : FilterPolicy) : FilterPolicy :=
  mkFilterPolicy
    (fun keys dst => mkeys ← user_keys keys; CreateFilter user_policy_ mkeys dst)
    (fun key f => u ← ExtractUserKey key; KeyMayMatch user_policy_ u f).

(** ** Proofs: hashing is total *)

Lemma DecodeFixed_total n p : (n <= length p)%nat -> exists v, DecodeFixed n p = Ok v.
Proof. intros Hn. unfold DecodeFixed. rewrite (proj2 (Nat.leb_le _ _)) by done. by eexists. Qed.

Lemma Hash_loop_total fuel data h : (length data <= fuel)%nat -> exists r, Hash_loop fuel data h = Ok r.
Proof.
  revert data h. induction fuel as [|fuel IH]; intros data h Hf; cbn [Hash_loop]; destruct (Nat.leb_spec 4 (length data)); try (by eexists); [lia|].
  destruct (DecodeFixed_total 4 data) as [w Ew]; [done|]. unfold DecodeFixed32. rewrite Ew. cbn [mbind result_bind]. apply IH. rewrite length_drop. lia.
Qed.

Lemma BloomHash_total key : exists h, BloomHash key = Ok h.
Proof.
  unfold BloomHash, Hash. destruct (Hash_loop_total (length key) key (Z.lxor 0xbc9f1d34 (u32 (Z.of_nat (length key) * 0xc6a4a793)))) as [[h rest] ->]; [done|].
  by eexists.
Qed.

(** ** Proofs: bits that are set stay set *)

Definition bit_at (array : list Z) (p : Z) : Prop := exists b, array !! Z.to_nat (p / 8) = Some b /\ Z.testbit b (p mod 8) = true.

Definition keeps_bits (a a' : list Z) : Prop := forall q, bit_at a q -> bit_at a' q.

Lemma testbit_land b i : 0 <= i -> (Z.land b (Z.shiftl 1 i) =? 0) = negb (Z.testbit b i).
Proof.
  intros Hi. rewrite Z.shiftl_1_l. destruct (Z.testbit b i) eqn:E; cbn [negb].
  - apply Z.eqb_neq. intros H0. assert (Hb : Z.testbit (Z.land b (2 ^ i)) i = true) by (by rewrite Z.land_spec, Z.pow2_bits_true, E).
    rewrite H0, Z.bits_0 in Hb. done.
  - apply Z.eqb_eq, Z.bits_inj_0. intros n. rewrite Z.land_spec, Z.pow2_bits_eqb by done.
    destruct (Z.eqb_spec i n) as [<-|]; [by rewrite E|by rewrite andb_false_r].
Qed.

Lemma byte_bit b r i : 0 <= i < 8 -> Z.testbit (byte_of (Z.lor b (Z.shiftl 1 r))) i = Z.testbit b i || Z.testbit (Z.shiftl 1 r) i.
Proof. intros Hi. unfold byte_of. change 256 with (2 ^ 8). by rewrite Z.mod_pow2_bits_low, Z.lor_spec by lia. Qed.

Lemma set_bit_ok array p : bytes array -> 0 <= p < 8 * Z.of_nat (length array) ->
  exists array', set_bit array p = Ok array' /\ length array' = length array /\ bytes array' /\ bit_at array' p /\ keeps_bits array array'.
Proof.
  intros Hb Hp. pose proof (Z.mod_pos_bound p 8 ltac:(lia)) as Hm. pose proof (Z.div_mod p 8 ltac:(lia)) as Hd.
  destruct (lookup_lt_is_Some_2 array (Z.to_nat (p / 8))) as [b Eb]; [lia|]. unfold set_bit. rewrite Eb. cbn [from_opt mbind result_bind].
  eexists. split; [done|]. split; [apply length_insert|]. split; [apply Forall_insert; [done|apply Z.mod_pos_bound; lia]|]. split.
  - eexists. split; [apply list_lookup_insert_eq; lia|]. rewrite byte_bit, Z.shiftl_1_l, Z.pow2_bits_true by lia. by rewrite orb_true_r.
  - intros q (b' & Eb' & Hq). pose proof (Z.mod_pos_bound q 8 ltac:(lia)). destruct (decide (Z.to_nat (q / 8) = Z.to_nat (p / 8))) as [E|E].
    + exists (byte_of (Z.lor b (Z.shiftl 1 (p mod 8)))). rewrite E in *. split; [apply list_lookup_insert_eq; lia|].
      rewrite Eb in Eb'. injection Eb' as <-. by rewrite byte_bit, Hq by lia.
    + exists b'. by rewrite list_lookup_insert_ne.
Qed.

Lemma test_probes_keeps j h delta bits a a' : keeps_bits a a' -> test_probes j h delta bits a = Ok true -> test_probes j h delta bits a' = Ok true.
Proof.
  intros Hk. revert h. induction j as [|j IH]; intros h; cbn [test_probes]; [done|].
  pose proof (Z.mod_pos_bound (h mod bits) 8 ltac:(lia)) as Hm.
  destruct (a !! Z.to_nat (h mod bits / 8)) as [b|] eqn:Eb; cbn [from_opt mbind result_bind]; [|done].
  rewrite testbit_land by lia. destruct (Z.testbit b ((h mod bits) mod 8)) eqn:Et; cbn [negb]; [|done].
  destruct (Hk (h mod bits)) as (b' & Eb' & Et'); [by exists b|]. rewrite Eb'. cbn [from_opt mbind result_bind].
  rewrite testbit_land, Et' by lia. cbn [negb]. apply IH.
Qed.

Lemma set_probes_ok delta bits : 0 < bits -> forall j h array, bytes array -> bits = 8 * Z.of_nat (length array) ->
  exists array', set_probes j h delta bits array = Ok array' /\ length array' = length array /\ bytes array' /\
    keeps_bits array array' /\ test_probes j h delta bits array' = Ok true.
Proof.
  intros Hbits. induction j as [|j IH]; intros h array Hb Hlen; cbn [set_probes test_probes].
  { exists array. split_and!; [done..|by intros q|done]. }
  pose proof (Z.mod_pos_bound h bits Hbits) as Hm. destruct (set_bit_ok array (h mod bits)) as (a1 & -> & Hl1 & Hb1 & Hbit & Hk1); [done|lia|].
  cbn [mbind result_bind]. destruct (IH (u32 (h + delta)) a1) as (a2 & E2 & Hl2 & Hb2 & Hk2 & Ht); [done|by rewrite Hl1|].
  exists a2. split; [done|]. split; [congruence|]. split; [done|]. split; [intros q Hq; by apply Hk2, Hk1|].
  destruct (Hk2 _ Hbit) as (b & Eb & Et). rewrite Eb. cbn [from_opt mbind result_bind].
  pose proof (Z.mod_pos_bound (h mod bits) 8 ltac:(lia)). by rewrite testbit_land, Et by lia.
Qed.

Lemma add_keys_ok k bits : 0 < bits -> forall keys array, bytes array -> bits = 8 * Z.of_nat (length array) ->
  exists array', add_keys k bits keys array = Ok array' /\ length array' = length array /\ bytes array' /\ keeps_bits array array' /\
    forall key, key ∈ keys -> exists h, BloomHash key = Ok h /\ test_probes (Z.to_nat k) h (rotate17 h) bits array' = Ok true.
Proof.
  intros Hbits. induction keys as [|key keys IH]; intros array Hb Hlen; cbn [add_keys].
  { exists array. split_and!; [done..|by intros q|]. intros key Hk. by apply elem_of_nil in Hk. }
  destruct (BloomHash_total key) as [h Eh]. rewrite Eh. cbn [mbind result_bind].
  destruct (set_probes_ok (rotate17 h) bits Hbits (Z.to_nat k) h array Hb Hlen) as (a1 & -> & Hl1 & Hb1 & Hk1 & Ht1). cbn [mbind result_bind].
  destruct (IH a1) as (a2 & E2 & Hl2 & Hb2 & Hk2 & Ht2); [done|by rewrite Hl1|]. exists a2. split; [done|]. split; [congruence|]. split; [done|].
  split; [intros q Hq; by apply Hk2, Hk1|]. intros key' [->|Hin]%elem_of_cons; [|by apply Ht2]. exists h. split; [done|]. by eapply test_probes_keeps.
Qed.

Lemma keeps_bits_app a l : keeps_bits a (a ++ l).
Proof. intros q (b & Eb & Hb). exists b. split; [by apply lookup_app_l_Some|done]. Qed.

Lemma bloom_k bits_per_key scaled : 1 <= k_ (BloomFilterPolicy_new bits_per_key scaled) <= 30.
Proof. unfold BloomFilterPolicy_new. cbn [k_]. repeat case_match; lia. Qed.

#[export] Instance Bloom_spec bits_per_key scaled n : Z.of_nat n * u64 bits_per_key < 2 ^ 40 ->
  FilterPolicySpec (NewBloomFilterPolicy bits_per_key scaled) (fun _ => True) n.
Proof.
  intros Hn. split. intros keys dst _ Hkeys. cbn [CreateFilter KeyMayMatch NewBloomFilterPolicy]. unfold Bloom_CreateFilter.
  pose proof (bloom_k bits_per_key scaled) as Hk. set (p := BloomFilterPolicy_new bits_per_key scaled) in *.
  assert (Hb : 8 <= filter_bytes p (length keys) < 2 ^ 40).
  { unfold filter_bytes. change (bits_per_key_ p) with (u64 bits_per_key). assert (Hu : 0 <= u64 bits_per_key) by (apply Z.mod_pos_bound; done).
    assert (Hle : Z.of_nat (length keys) * u64 bits_per_key <= Z.of_nat n * u64 bits_per_key) by nia.
    set (x := Z.of_nat (length keys) * u64 bits_per_key) in *. assert (Hx : 0 <= x) by (unfold x; nia). clearbody x.
    assert (Ex : u64 x = x) by (apply Z.mod_small; unfold u64_modulus; lia). rewrite Ex.
    assert (Hy : 64 <= (if x <? 64 then 64 else x) < 2 ^ 40) by (destruct (Z.ltb_spec x 64); lia). set (y := if x <? 64 then 64 else x) in *.
    unfold u64, u64_modulus. rewrite Z.mod_small by lia. Z.to_euclidean_division_equations. lia. }
  set (nb := filter_bytes p (length keys)) in *. assert (Eb : u64 (nb * 8) = nb * 8) by (apply Z.mod_small; unfold u64_modulus; lia). rewrite Eb.
  destruct (add_keys_ok (k_ p) (nb * 8) ltac:(lia) keys (replicate (Z.to_nat nb) 0)) as (array & -> & Hlen & Hbytes & _ & Hall).
  { apply Forall_replicate. lia. }
  { rewrite length_replicate. lia. }
  cbn [mbind result_bind]. rewrite length_replicate in Hlen. exists (array ++ [byte_of (k_ p)]). split; [done|].
  split; [split; [apply Forall_app; split; [done|]; repeat constructor; apply Z.mod_pos_bound; lia|rewrite length_app; cbn; lia]|].
  intros key Hkey. destruct (Hall key Hkey) as (h & Eh & Ht). unfold Bloom_KeyMayMatch.
  rewrite length_app. cbn [length]. rewrite (proj2 (Nat.ltb_ge _ _)) by lia. rewrite lookup_app_r by lia.
  replace (length array + 1 - 1 - length array)%nat with 0%nat by lia. cbn [lookup list_lookup from_opt mbind result_bind].
  assert (Ek : u64 (schar (byte_of (k_ p))) = k_ p).
  { unfold byte_of. rewrite Z.mod_small by lia. unfold schar. rewrite (proj2 (Z.ltb_lt _ _)) by lia. apply Z.mod_small. unfold u64_modulus. lia. }
  rewrite Ek, (proj2 (Z.ltb_ge _ _)) by lia. rewrite Eh. cbn [mbind result_bind].
  replace ((Z.of_nat (length array + 1) - 1) * 8) with (nb * 8) by lia. eapply test_probes_keeps; [apply keeps_bits_app|done].
Qed.

(** A Bloom filter answers whatever its bytes are. *)
Lemma Bloom_total bits_per_key scaled key f : exists b, KeyMayMatch (NewBloomFilterPolicy bits_per_key scaled) key f = Ok b.
Proof.
  cbn [KeyMayMatch NewBloomFilterPolicy]. unfold Bloom_KeyMayMatch. destruct (Nat.ltb_spec (length f) 2) as [|Hl]; [by eexists|].
  destruct (lookup_lt_is_Some_2 f (length f - 1)) as [c ->]; [lia|]. cbn [from_opt mbind result_bind]. destruct (30 <? _); [by eexists|].
  destruct (BloomHash_total key) as [h ->]. cbn [mbind result_bind]. set (bits := (Z.of_nat (length f) - 1) * 8). set (d := rotate17 h). clearbody d. revert h.
  induction (Z.to_nat (u64 (schar c))) as [|j IH]; intros h; cbn [test_probes]; [by eexists|].
  pose proof (Z.mod_pos_bound h bits ltac:(lia)) as Hm. destruct (lookup_lt_is_Some_2 f (Z.to_nat (h mod bits / 8))) as [b ->].
  { assert (h mod bits / 8 < Z.of_nat (length f) - 1) by (apply Z.div_lt_upper_bound; lia). pose proof (Z.div_pos (h mod bits) 8). lia. }
  cbn [from_opt mbind result_bind]. destruct (_ =? 0); [by eexists|apply IH].
Qed.

Lemma user_keys_ok keys : Forall (fun k => (8 <= length k)%nat) keys ->
  exists us, user_keys keys = Ok us /\ length us = length keys /\ forall k, k ∈ keys -> exists u, ExtractUserKey k = Ok u /\ u ∈ us.
Proof.
  induction 1 as [|k keys Hk Hks (us & IH & Hl & Hin)]; cbn [user_keys]; [by exists []; split_and!; [..|intros k ?%elem_of_nil]|].
  unfold ExtractUserKey at 1. rewrite (proj2 (Nat.leb_le _ _)) by done. cbn [mbind result_bind]. rewrite IH. cbn [mbind result_bind].
  eexists. split; [done|]. split; [cbn; by rewrite Hl|]. intros k' [->|Hk']%elem_of_cons.
  - eexists. unfold ExtractUserKey. rewrite (proj2 (Nat.leb_le _ _)) by done. split; [done|]. set_solver.
  - destruct (Hin k' Hk') as (u & Eu & Hu). exists u. split; [done|]. set_solver.
Qed.

#[export] Instance InternalFilterPolicy_spec p n : FilterPolicySpec p (fun _ => True) n ->
  FilterPolicySpec (InternalFilterPolicy p) (fun k => (8 <= length k)%nat) n.
Proof.
  intros Hp. split. intros keys dst Hok Hn. cbn [CreateFilter KeyMayMatch InternalFilterPolicy].
  destruct (user_keys_ok keys Hok) as (us & -> & Hl & Hin). cbn [mbind result_bind].
  destruct (fp_create us dst) as (f & -> & Hb & Hall); [by apply Forall_forall|by rewrite Hl|]. exists f. split; [done|]. split; [done|].
  intros key Hk. destruct (Hin key Hk) as (u & -> & Hu). cbn [mbind result_bind]. by apply Hall.
Qed.
