(* ===== verification/FilterBlock.v ===== *)
(** * The filters of a table

    table/filter_block.cc: one filter for every 2 KB of data blocks, in one string with
    an array of offsets.  The theorem is proved for any filter policy that keeps its
    promise ([FilterPolicySpec]). *)

From S2P Require Import Prelude Coding CRC32C TXMemStore InternalKey Bloom.

Definition kFilterBaseLg : Z := 11.
Definition kFilterBase : Z := Z.shiftl 1 kFilterBaseLg.

Record FilterBlockBuilder := mkFBB {
  keys_ : list Z;
  start_ : list nat;
  result_ : list Z;
  filter_offsets_ : list Z }.

Definition FilterBlockBuilder_new : FilterBlockBuilder := mkFBB [] [] [] [].

(** [tmp_keys_]: the slices between consecutive starts. *)
Fixpoint tmp_keys (keys : list Z) (start : list nat) : list (list Z) :=
  match start with
  | a :: ((b :: _) as rest) => take (b - a) (drop a keys) :: tmp_keys keys rest
  | _ => []
  end.

Section model.
Context (policy_ : FilterPolicy).

Definition GenerateFilter (s : FilterBlockBuilder) : result FilterBlockBuilder :=
  let offsets := filter_offsets_ s ++ [u32 (Z.of_nat (length (result_ s)))] in
  match start_ s with
  | [] => Ok (mkFBB (keys_ s) [] (result_ s) offsets)
  | _ =>
      r ← CreateFilter policy_ (tmp_keys (keys_ s) (start_ s ++ [length (keys_ s)])) (result_ s);
      Ok (mkFBB [] [] r offsets)
  end.

(** [n] rounds of the loop of [StartBlock]; every round appends an offset. *)
Fixpoint generate (n : nat) (s : FilterBlockBuilder) : result FilterBlockBuilder :=
  match n with O => Ok s | S n => s ← GenerateFilter s; generate n s end.

Definition StartBlock (block_offset : Z) (s : FilterBlockBuilder) : result FilterBlockBuilder :=
  let filter_index := block_offset / kFilterBase in
  generate (Z.to_nat (filter_index - Z.of_nat (length (filter_offsets_ s)))) s.

Definition AddKey (key : list Z) (s : FilterBlockBuilder) : FilterBlockBuilder :=
  mkFBB (keys_ s ++ key) (start_ s ++ [length (keys_ s)]) (result_ s) (filter_offsets_ s).

Definition Finish (s : FilterBlockBuilder) : result (list Z) :=
  s ← (match start_ s with [] => Ok s | _ => GenerateFilter s end);
  let array_offset := u32 (Z.of_nat (length (result_ s))) in
  let r := foldl PutFixed32 (result_ s) (filter_offsets_ s) in
  Ok (PutFixed32 r array_offset ++ [kFilterBaseLg]).

(** [offset_] is given by its distance from [data_]; [num_] is 0 where the pointers are
    null. *)
Record FilterBlockReader := mkFBR { fr_contents : list Z; fr_offset : Z; fr_num : Z; base_lg_ : Z }.

Definition FilterBlockReader_new (contents : list Z) : result FilterBlockReader :=
  let n := Z.of_nat (length contents) in
  if n <? 5 then Ok (mkFBR contents 0 0 0)
  else
    c ← from_opt OutOfBounds (contents !! (length contents - 1)%nat);
    last_word ← DecodeFixed32 (drop (length contents - 5) contents);
    if n - 5 <? last_word then Ok (mkFBR contents 0 0 (u64 (schar c)))
    else Ok (mkFBR contents last_word ((n - 5 - last_word) / 4) (u64 (schar c))).

Definition FilterBlockReader_KeyMayMatch (r : FilterBlockReader) (block_offset : Z) (key : list Z) : result bool :=
  if base_lg_ r <? 64 then
    let index := Z.shiftr block_offset (base_lg_ r) in
    if index <? fr_num r then
      start ← DecodeFixed32 (drop (Z.to_nat (fr_offset r + index * 4)) (fr_contents r));
      limit ← DecodeFixed32 (drop (Z.to_nat (fr_offset r + index * 4 + 4)) (fr_contents r));
      if (start <=? limit) && (limit <=? fr_offset r) then
        KeyMayMatch policy_ key (take (Z.to_nat (limit - start)) (drop (Z.to_nat start) (fr_contents r)))
      else if start =? limit then Ok false
      else Ok true
    else Ok true
  else Fault Undefined.

(** The calls [(StartBlock AddKey* )*]. *)
Fixpoint add_blocks (blocks : list (Z * list (list Z))) (s : FilterBlockBuilder) : result FilterBlockBuilder :=
  match blocks with
  | [] => Ok s
  | (off, ks) :: blocks => s ← StartBlock off s; add_blocks blocks (foldl (fun s k => AddKey k s) s ks)
  end.

End model.

(** ** Offsets of strings in their concatenation *)

Fixpoint offs (base : nat) (l : list (list Z)) : list nat :=
  match l with [] => [] | x :: l => base :: offs (base + length x) l end.

Lemma offs_app b l l' : offs b (l ++ l') = offs b l ++ offs (b + length (concat l)) l'.
Proof.
  revert b. induction l as [|x l IH]; intros b; cbn [offs app concat]; [by rewrite Nat.add_0_r|].
  rewrite IH, length_app. do 3 f_equal. lia.
Qed.

Lemma concat_snoc {A} (l : list (list A)) x : concat (l ++ [x]) = concat l ++ x.
Proof. rewrite concat_app. cbn [concat]. by rewrite app_nil_r. Qed.

Lemma length_offs b l : length (offs b l) = length l.
Proof. revert b. induction l as [|x l IH]; intros b; cbn; auto. Qed.

Lemma tmp_keys_offs pre ks : tmp_keys (pre ++ concat ks) (offs (length pre) ks ++ [length (pre ++ concat ks)]) = ks.
Proof.
  revert pre. induction ks as [|k ks IH]; intros pre; [done|]. cbn [offs concat app].
  assert (E : tmp_keys (pre ++ k ++ concat ks) (length pre :: offs (length pre + length k) ks ++ [length (pre ++ k ++ concat ks)]) =
    take (length k) (drop (length pre) (pre ++ k ++ concat ks)) :: tmp_keys (pre ++ k ++ concat ks) (offs (length pre + length k) ks ++ [length (pre ++ k ++ concat ks)])).
  { destruct ks as [|k' ks]; cbn [offs app concat tmp_keys].
    - rewrite app_nil_r. do 2 f_equal. rewrite length_app. lia.
    - do 2 f_equal. lia. }
  rewrite E, drop_app_length, take_app_length. f_equal. specialize (IH (pre ++ k)). rewrite length_app, <- !app_assoc in IH. exact IH.
Qed.

(** ** The builder *)

Section proofs.
Context (policy_ : FilterPolicy) (ok : list Z -> Prop) (most : nat) `{Hp : !FilterPolicySpec policy_ ok most}.

(** The filters [fs] are done, the keys [ps] are pending. *)
Record built (s : FilterBlockBuilder) (fs ps : list (list Z)) : Prop := {
  bu_keys : keys_ s = concat ps;
  bu_start : start_ s = offs 0 ps;
  bu_result : result_ s = concat fs;
  bu_offsets : filter_offsets_ s = (fun n => u32 (Z.of_nat n)) <$> offs 0 fs;
  bu_bytes : Forall (fun f => bytes f /\ Z.of_nat (length f) <= 2 ^ 40) fs;
  bu_ok : Forall ok ps;
  bu_most : (length ps <= most)%nat }.

(** A filter matches its keys. *)
Definition matches (f : list Z) (ks : list (list Z)) : Prop := forall key, key ∈ ks -> KeyMayMatch policy_ key f = Ok true.

Lemma GenerateFilter_built s fs ps : built s fs ps ->
  exists s' f, GenerateFilter policy_ s = Ok s' /\ built s' (fs ++ [f]) [] /\ matches f ps.
Proof using Hp.
  intros [Hk Hs Hr Ho Hb Hok Hm]. unfold GenerateFilter. rewrite Hs, Ho, Hr, Hk.
  assert (Eoff : ((fun n => u32 (Z.of_nat n)) <$> offs 0 fs) ++ [u32 (Z.of_nat (length (concat fs)))] = (fun n => u32 (Z.of_nat n)) <$> offs 0 (fs ++ [[]] )).
  { rewrite offs_app, fmap_app. done. }
  assert (Eoff' : forall f, offs 0 (fs ++ [f]) = offs 0 (fs ++ [[]])) by (intros f; by rewrite !offs_app).
  destruct ps as [|p ps]; cbn [offs].
  - eexists _, []. split; [done|]. split; [|by intros key ?%elem_of_nil]. rewrite Eoff.
    split; cbn; [done..|by rewrite concat_snoc, app_nil_r|done|apply Forall_app; split; [done|]; repeat constructor; cbn; lia|done|lia].
  - pose proof (tmp_keys_offs [] (p :: ps) :
      tmp_keys (concat (p :: ps)) ((0%nat :: offs (0 + length p) ps) ++ [length (concat (p :: ps))]) = p :: ps) as Ht. rewrite Ht.
    destruct (fp_create (p :: ps) (concat fs)) as (f & -> & Hf & Hmt); [done..|]. cbn [mbind result_bind].
    eexists _, f. split; [done|]. split; [|done]. rewrite Eoff.
    split; cbn [keys_ start_ result_ filter_offsets_ concat offs length]; [done..|by rewrite concat_snoc|by rewrite (Eoff' f)|
      apply Forall_app; split; [done|]; by constructor|constructor|lia].
Qed.

Lemma generate_built n : forall s fs ps, built s fs ps -> (1 <= n)%nat ->
  exists s' f rest, generate policy_ n s = Ok s' /\ built s' (fs ++ f :: rest) [] /\ length rest = (n - 1)%nat /\ matches f ps.
Proof using Hp.
  induction n as [|n IH]; intros s fs ps Hs Hn; [lia|]. cbn [generate].
  destruct (GenerateFilter_built s fs ps Hs) as (s1 & f & -> & Hs1 & Hf). cbn [mbind result_bind]. destruct n as [|n].
  - exists s1, f, []. split_and!; [done..|]. done.
  - destruct (IH s1 (fs ++ [f]) [] Hs1) as (s' & f' & rest & E & Hs' & Hl & _); [lia|]. exists s', f, (f' :: rest).
    split_and!; [done|by rewrite <- app_assoc in Hs'|cbn; lia|done].
Qed.

(** Every key that was added is in a filter of its block or pending for it. *)
Definition covered (fs ps : list (list Z)) (hist : list (Z * list Z)) : Prop :=
  forall i key, (i, key) ∈ hist -> (exists f, 0 <= i /\ fs !! Z.to_nat i = Some f /\ KeyMayMatch policy_ key f = Ok true) \/
    (i = Z.of_nat (length fs) /\ key ∈ ps).

Lemma covered_more fs ps f rest hist : matches f ps -> covered fs ps hist -> covered (fs ++ f :: rest) [] hist.
Proof.
  intros Hf Hc i key Hi. left. destruct (Hc i key Hi) as [(g & H0 & Hg & Hm)|[-> Hk]].
  - exists g. split_and!; [done|by apply lookup_app_l_Some|done].
  - exists f. split; [lia|]. rewrite Nat2Z.id. split; [by apply list_lookup_middle|by apply Hf].
Qed.

Lemma StartBlock_built off s fs ps hist : built s fs ps -> covered fs ps hist -> Z.of_nat (length fs) <= off / kFilterBase ->
  exists s' fs' ps', StartBlock policy_ off s = Ok s' /\ built s' fs' ps' /\ covered fs' ps' hist /\ off / kFilterBase = Z.of_nat (length fs') /\
    (ps' = ps \/ ps' = []).
Proof using Hp.
  intros Hs Hc Hoff. unfold StartBlock. rewrite (bu_offsets _ _ _ Hs), length_fmap, length_offs.
  destruct (Z.to_nat (off / kFilterBase - Z.of_nat (length fs))) as [|n] eqn:En.
  - exists s, fs, ps. cbn. split_and!; [done..|lia|by left].
  - destruct (generate_built (S n) s fs ps Hs) as (s' & f & rest & -> & Hs' & Hl & Hf); [lia|].
    exists s', (fs ++ f :: rest), []. split_and!; [done|done|by eapply covered_more|rewrite length_app; cbn; lia|by right].
Qed.

Lemma AddKeys_built ks : forall s fs ps hist, built s fs ps -> covered fs ps hist -> Forall ok ks -> (length ps + length ks <= most)%nat ->
  built (foldl (fun s k => AddKey k s) s ks) fs (ps ++ ks) /\ covered fs (ps ++ ks) (hist ++ map (fun k => (Z.of_nat (length fs), k)) ks).
Proof.
  induction ks as [|k ks IH]; intros s fs ps hist Hs Hc Hok Hm; cbn [foldl map]; [by rewrite !app_nil_r|].
  inversion_clear Hok as [|? ? Hk Hok']. cbn [length] in Hm. replace (ps ++ k :: ks) with ((ps ++ [k]) ++ ks) by (by rewrite <- app_assoc).
  replace (hist ++ (Z.of_nat (length fs), k) :: map (fun k => (Z.of_nat (length fs), k)) ks) with
    ((hist ++ [(Z.of_nat (length fs), k)]) ++ map (fun k => (Z.of_nat (length fs), k)) ks) by (by rewrite <- app_assoc).
  apply IH; [|..|done|rewrite length_app; cbn; lia].
  - destruct Hs as [Hkk Hst Hr Ho Hb Hps Hmo]. split; cbn; [by rewrite Hkk, concat_snoc|by rewrite Hst, Hkk, offs_app|done..| |].
    + apply Forall_app. split; [done|by constructor].
    + rewrite length_app. cbn. lia.
  - intros i key [Hi|Hi%list_elem_of_singleton]%elem_of_app.
    + destruct (Hc i key Hi) as [?|[-> ?]]; [by left|right]. split; [done|set_solver].
    + injection Hi as -> ->. right. split; [done|set_solver].
Qed.

(** Offsets never decrease. *)
Fixpoint ascending (lo : Z) (blocks : list (Z * list (list Z))) : Prop :=
  match blocks with [] => True | (off, _) :: blocks => lo <= off /\ ascending off blocks end.

(** Which filter a key belongs to. *)
Definition block_keys (b : Z * list (list Z)) : list (Z * list Z) := map (fun k => (b.1 / kFilterBase, k)) b.2.

Lemma add_blocks_built blocks : forall lo s fs ps hist, built s fs ps -> covered fs ps hist -> Z.of_nat (length fs) = lo / kFilterBase ->
  ascending lo blocks -> Forall ok (concat blocks.*2) -> (length ps + length (concat blocks.*2) <= most)%nat ->
  exists s' fs' ps', add_blocks policy_ blocks s = Ok s' /\ built s' fs' ps' /\ covered fs' ps' (hist ++ concat (map block_keys blocks)).
Proof using Hp.
  induction blocks as [|[off ks] blocks IH]; intros lo s fs ps hist Hs Hc Hlo Ha Hok Hm; cbn [add_blocks map concat].
  { exists s, fs, ps. by rewrite app_nil_r. }
  cbn [fmap list_fmap concat snd ascending] in Hok, Hm, Ha. destruct Ha as [Hle Ha]. apply Forall_app in Hok as [Hk Hok]. rewrite length_app in Hm.
  destruct (StartBlock_built off s fs ps hist Hs Hc) as (s1 & fs1 & ps1 & -> & Hs1 & Hc1 & Hoff & Hps).
  { rewrite Hlo. by apply Z.div_le_mono. }
  cbn [mbind result_bind]. assert (Hl1 : (length ps1 <= length ps)%nat) by (destruct Hps as [-> | ->]; cbn; lia).
  destruct (AddKeys_built ks s1 fs1 ps1 hist Hs1 Hc1 Hk) as [Hs2 Hc2]; [lia|].
  destruct (IH off _ fs1 (ps1 ++ ks) (hist ++ block_keys (off, ks)) Hs2) as (s' & fs' & ps' & E & Hs' & Hc'); [|done..|rewrite length_app; lia|].
  { unfold block_keys. cbn [fst snd]. by rewrite Hoff. }
  exists s', fs', ps'. split; [done|]. split; [done|]. by rewrite app_assoc.
Qed.

Lemma filter_Finish_built s fs ps hist : built s fs ps -> covered fs ps hist ->
  exists fs', Finish policy_ s = Ok (concat fs' ++ concat (map EncodeFixed32 (((fun n => u32 (Z.of_nat n)) <$> offs 0 fs') ++ [u32 (Z.of_nat (length (concat fs')))])) ++ [kFilterBaseLg]) /\
    Forall (fun f => bytes f /\ Z.of_nat (length f) <= 2 ^ 40) fs' /\ covered fs' [] hist /\ (length fs' <= S (length fs))%nat.
Proof using Hp.
  intros Hs Hc.
  assert (Hput : forall ws r, foldl PutFixed32 r ws = r ++ concat (map EncodeFixed32 ws)).
  { induction ws as [|w ws IH]; intros r; cbn [foldl map concat]; [by rewrite app_nil_r|]. rewrite IH. unfold PutFixed32. by rewrite <- app_assoc. }
  assert (Hend : forall s' fs', built s' fs' [] ->
    Ok (PutFixed32 (foldl PutFixed32 (result_ s') (filter_offsets_ s')) (u32 (Z.of_nat (length (result_ s')))) ++ [kFilterBaseLg]) =
    Ok (concat fs' ++ concat (map EncodeFixed32 (((fun n => u32 (Z.of_nat n)) <$> offs 0 fs') ++ [u32 (Z.of_nat (length (concat fs')))])) ++ [kFilterBaseLg])).
  { intros s' fs' [_ _ Hr Ho _ _ _]. rewrite Hr, Ho, Hput. unfold PutFixed32. rewrite map_app, concat_app. cbn [map concat].
    by rewrite app_nil_r, <- !app_assoc. }
  unfold Finish. destruct ps as [|p ps].
  - rewrite (bu_start _ _ _ Hs). cbn [offs mbind result_bind]. exists fs. cbv zeta. rewrite (Hend s fs Hs). split; [done|]. split; [apply (bu_bytes _ _ _ Hs)|]. split; [done|lia].
  - destruct (GenerateFilter_built s fs (p :: ps) Hs) as (s' & f & E & Hs' & Hf). rewrite (bu_start _ _ _ Hs). cbn [offs]. rewrite E. cbn [mbind result_bind].
    exists (fs ++ [f]). cbv zeta. rewrite (Hend s' _ Hs'). split; [done|]. split; [apply (bu_bytes _ _ _ Hs')|]. split; [by eapply covered_more|rewrite length_app; cbn; lia].
Qed.

End proofs.

(** ** The reader *)

(** Where a filter starts and ends. *)
Lemma offs_lookup fs j : (j <= length fs)%nat -> (offs 0 fs ++ [length (concat fs)]) !! j = Some (length (concat (take j fs))).
Proof.
  intros Hj. rewrite <- (take_drop j fs) at 1. rewrite offs_app. cbn [Nat.add].
  assert (Hl : length (offs 0 (take j fs)) = j) by (rewrite length_offs, length_take; lia).
  rewrite <- app_assoc, lookup_app_r, Hl, Nat.sub_diag by lia. destruct (drop j fs) as [|f l] eqn:Ed; [|done].
  assert (Hall : (length fs <= j)%nat) by (apply (f_equal length) in Ed; rewrite length_drop in Ed; cbn in Ed; lia).
  by rewrite take_ge by lia.
Qed.

Section reader.
Context (policy_ : FilterPolicy) (fs : list (list Z)).

Abbreviation words := (((fun n => u32 (Z.of_nat n)) <$> offs 0 fs) ++ [u32 (Z.of_nat (length (concat fs)))]) (only parsing).

Definition block_contents : list Z := concat fs ++ concat (map EncodeFixed32 words) ++ [kFilterBaseLg].

Context (Hsize : Z.of_nat (length block_contents) < 2 ^ 32).

Lemma contents_length : length block_contents = (length (concat fs) + 4 * length fs + 5)%nat.
Proof. unfold block_contents. rewrite !length_app, length_words, length_app, length_fmap, length_offs. cbn. lia. Qed.

Lemma words_lookup j : (j <= length fs)%nat ->
  words !! j = Some (Z.of_nat (length (concat (take j fs)))) /\ Z.of_nat (length (concat (take j fs))) <= Z.of_nat (length (concat fs)).
Proof using Hsize.
  intros Hj. assert (Hle : (length (concat (take j fs)) <= length (concat fs))%nat).
  { rewrite <- (take_drop j fs) at 2. rewrite concat_app, length_app. lia. }
  split; [|lia]. pose proof (offs_lookup fs j Hj) as Ho. apply (f_equal (fmap (fun n => u32 (Z.of_nat n)))) in Ho.
  rewrite <- list_lookup_fmap, fmap_app in Ho. cbn [fmap list_fmap option_fmap option_map] in Ho. rewrite Ho. f_equal.
  apply Z.mod_small. rewrite contents_length in Hsize. lia.
Qed.

Lemma read_word j : (j <= length fs)%nat ->
  DecodeFixed32 (drop (length (concat fs) + 4 * j) block_contents) = Ok (Z.of_nat (length (concat (take j fs)))).
Proof using Hsize.
  intros Hj. unfold block_contents. rewrite drop_app_add. destruct (words_lookup j Hj) as [Hw Hle]. apply word_at; [done|].
  rewrite contents_length in Hsize. lia.
Qed.

Lemma reader_new : FilterBlockReader_new block_contents =
  Ok (mkFBR block_contents (Z.of_nat (length (concat fs))) (Z.of_nat (length fs)) kFilterBaseLg).
Proof using Hsize.
  pose proof Hsize as Hs. rewrite contents_length in Hs. unfold FilterBlockReader_new. rewrite contents_length. rewrite (proj2 (Z.ltb_ge _ _)) by lia.
  assert (Hlast : block_contents !! (length (concat fs) + 4 * length fs + 5 - 1)%nat = Some kFilterBaseLg).
  { pose proof contents_length as Hl. unfold block_contents in *. rewrite app_assoc in *. rewrite length_app in Hl. cbn [length] in Hl.
    rewrite lookup_app_r by lia. replace (_ - _)%nat with 0%nat by lia. done. }
  rewrite Hlast. cbn [from_opt mbind result_bind].
  replace (length (concat fs) + 4 * length fs + 5 - 5)%nat with (length (concat fs) + 4 * length fs)%nat by lia.
  rewrite read_word by lia. cbn [mbind result_bind]. rewrite firstn_all. rewrite (proj2 (Z.ltb_ge _ _)) by lia.
  do 2 f_equal. replace (_ - 5 - _) with (Z.of_nat (length fs) * 4) by lia. by rewrite Z.div_mul.
Qed.

Lemma reader_matches i f off key : fs !! i = Some f -> Z.shiftr off kFilterBaseLg = Z.of_nat i -> KeyMayMatch policy_ key f = Ok true ->
  FilterBlockReader_KeyMayMatch policy_ (mkFBR block_contents (Z.of_nat (length (concat fs))) (Z.of_nat (length fs)) kFilterBaseLg) off key = Ok true.
Proof using Hsize.
  intros Hf Hi Hm. pose proof (lookup_lt_Some _ _ _ Hf) as Hlt. unfold FilterBlockReader_KeyMayMatch. cbn [base_lg_ fr_num fr_offset fr_contents].
  change (kFilterBaseLg <? 64) with true. cbn iota. rewrite Hi, (proj2 (Z.ltb_lt _ _)) by lia.
  replace (Z.to_nat (Z.of_nat (length (concat fs)) + Z.of_nat i * 4)) with (length (concat fs) + 4 * i)%nat by lia.
  replace (Z.to_nat (Z.of_nat (length (concat fs)) + Z.of_nat i * 4 + 4)) with (length (concat fs) + 4 * S i)%nat by lia.
  rewrite !read_word by lia. cbn [mbind result_bind]. rewrite (take_S_r fs i f Hf), concat_snoc, length_app.
  assert (Hcat : concat fs = concat (take i fs) ++ f ++ concat (drop (S i) fs)).
  { rewrite <- (take_drop_middle fs i f Hf) at 1. rewrite concat_app. done. }
  rewrite (proj2 (Z.leb_le _ _)) by lia. rewrite (proj2 (Z.leb_le _ _)) by (rewrite Hcat, !length_app; lia). cbn [andb].
  rewrite Nat2Z.id. replace (Z.to_nat (_ - _)) with (length f) by lia. unfold block_contents. rewrite Hcat at 1.
  rewrite <- !app_assoc, drop_app_length, take_app_length. done.
Qed.

(** The reader answers for every key and offset. *)
Lemma reader_total off key : 0 <= off -> (forall f, exists b, KeyMayMatch policy_ key f = Ok b) ->
  exists b, FilterBlockReader_KeyMayMatch policy_ (mkFBR block_contents (Z.of_nat (length (concat fs))) (Z.of_nat (length fs)) kFilterBaseLg) off key = Ok b.
Proof using Hsize.
  intros Hoff Hall. unfold FilterBlockReader_KeyMayMatch. cbn [base_lg_ fr_num fr_offset fr_contents]. change (kFilterBaseLg <? 64) with true. cbn iota.
  set (i := Z.shiftr off kFilterBaseLg). assert (Hi : 0 <= i) by (by apply Z.shiftr_nonneg). destruct (Z.ltb_spec i (Z.of_nat (length fs))) as [Hlt|]; [|by eexists].
  replace (Z.to_nat (Z.of_nat (length (concat fs)) + i * 4)) with (length (concat fs) + 4 * Z.to_nat i)%nat by lia.
  replace (Z.to_nat (Z.of_nat (length (concat fs)) + i * 4 + 4)) with (length (concat fs) + 4 * S (Z.to_nat i))%nat by lia.
  rewrite !read_word by lia. cbn [mbind result_bind]. destruct (_ && _); [apply Hall|]. destruct (_ =? _); by eexists.
Qed.

End reader.

(** C19: The filters of a table reject no key of theirs: whatever blocks are started, at
    offsets that never decrease, and whatever keys are added to them, the reader of what
    [Finish] returns answers yes for every key at the offset of its block, when the
    filter policy keeps its promise (as Bloom filters do, on user keys or internal keys)
    and the string is shorter than 4 GB. *)
Theorem filter_block_no_false_negatives policy_ ok most blocks :
  FilterPolicySpec policy_ ok most -> ascending 0 blocks -> Forall ok (concat blocks.*2) -> (length (concat blocks.*2) <= most)%nat ->
  exists s contents, add_blocks policy_ blocks FilterBlockBuilder_new = Ok s /\ Finish policy_ s = Ok contents /\
    (Z.of_nat (length contents) < 2 ^ 32 -> exists r, FilterBlockReader_new contents = Ok r /\
       forall off ks key, (off, ks) ∈ blocks -> key ∈ ks -> FilterBlockReader_KeyMayMatch policy_ r off key = Ok true).
Proof.
  intros Hp Ha Hok Hm. assert (H0 : built ok most FilterBlockBuilder_new [] []) by (split; cbn; try done; lia).
  destruct (add_blocks_built policy_ ok most blocks 0 FilterBlockBuilder_new [] [] [] H0) as (s & fs & ps & E1 & Hs & Hc); try done; [by intros i key ?%elem_of_nil|].
  destruct (filter_Finish_built policy_ ok most s fs ps _ Hs Hc) as (fs' & E2 & _ & Hc' & _). exists s, (block_contents fs'). split; [done|]. split; [done|].
  intros Hsize. eexists. split; [by apply reader_new|]. intros off ks key Hb Hk.
  assert (Hin : (off / kFilterBase, key) ∈ [] ++ concat (map block_keys blocks)).
  { cbn [app]. apply list_elem_of_In, in_concat. exists (block_keys (off, ks)). split; [by apply in_map, list_elem_of_In|].
    unfold block_keys. cbn [fst snd]. apply in_map_iff. exists key. split; [done|by apply list_elem_of_In]. }
  destruct (Hc' _ _ Hin) as [(f & Hpos & Hf & Hmt)|[_ []%elem_of_nil]]. eapply reader_matches; [done|done| |done].
  rewrite Z.shiftr_div_pow2 by done. change (2 ^ kFilterBaseLg) with kFilterBase. lia.
Qed.

(** Internal keys through a Bloom filter. *)
Definition sample_blocks : list (Z * list (list Z)) :=
  [(0, [AppendInternalKey [] (mkParsed [97; 98; 99] 7 1)]); (5000, [AppendInternalKey [] (mkParsed [100] 8 1); AppendInternalKey [] (mkParsed [101] 9 0)])].

Lemma filter_block_no_false_negatives_witness :
  exists s contents, add_blocks (InternalFilterPolicy (NewBloomFilterPolicy 10 6)) sample_blocks FilterBlockBuilder_new = Ok s /\
    Finish (InternalFilterPolicy (NewBloomFilterPolicy 10 6)) s = Ok contents /\
    exists r, FilterBlockReader_new contents = Ok r /\
      FilterBlockReader_KeyMayMatch (InternalFilterPolicy (NewBloomFilterPolicy 10 6)) r 5000 (AppendInternalKey [] (mkParsed [101] 9 0)) = Ok true.
Proof.
  destruct (filter_block_no_false_negatives (InternalFilterPolicy (NewBloomFilterPolicy 10 6)) (fun k => (8 <= length k)%nat) 3 sample_blocks)
    as (s & contents & E1 & E2 & Hr).
  - apply InternalFilterPolicy_spec, Bloom_spec. done.
  - cbn. lia.
  - repeat (apply Forall_cons_2; [cbn; lia|]). apply Forall_nil_2.
  - cbn. lia.
  - exists s, contents. split; [exact E1|]. split; [exact E2|]. destruct Hr as (r & E3 & Hall).
    { vm_compute in E1. injection E1 as <-. vm_compute in E2. injection E2 as <-. done. }
    exists r. split; [exact E3|]. eapply Hall; [apply elem_of_cons; right; apply elem_of_cons; left; reflexivity|].
    apply elem_of_cons. right. apply elem_of_cons. left. reflexivity.
Defined.
