(* ===== verification/Block.v ===== *)
(** * Blocks of a table

    table/block_builder.cc and table/block.cc: entries with prefix-compressed keys, the
    offsets of restart points where keys are stored whole, and the iterator that finds a
    key by binary search over the restart points.  A block is the list of its bytes, a
    pointer into it an offset. *)

From Stdlib Require Import Sorted.
From S2P Require Import Prelude Coding CRC32C TXMemStore InternalKey.

(** ** BlockBuilder *)

Record BlockBuilder := mkBB {
  buffer_ : list Z;
  restarts_ : list Z;
  counter_ : Z;
  finished_ : bool;
  last_key_ : list Z }.

Definition BlockBuilder_new : BlockBuilder := mkBB [] [0] 0 false [].

Definition Reset : BlockBuilder := mkBB [] [0] 0 false [].

Definition CurrentSizeEstimate (s : BlockBuilder) : Z :=
  Z.of_nat (length (buffer_ s)) + Z.of_nat (length (restarts_ s)) * 4 + 4.

Definition Add (block_restart_interval : Z) (key value : list Z) (s : BlockBuilder) : BlockBuilder :=
  let '(shared, restarts, counter) :=
    if counter_ s <? block_restart_interval then (diff_index (last_key_ s) key, restarts_ s, counter_ s)
    else (O, restarts_ s ++ [u32 (Z.of_nat (length (buffer_ s)))], 0) in
  let non_shared := (length key - shared)%nat in
  let buffer := PutVarint32 (buffer_ s) (u32 (Z.of_nat shared)) in
  let buffer := PutVarint32 buffer (u32 (Z.of_nat non_shared)) in
  let buffer := PutVarint32 buffer (u32 (Z.of_nat (length value))) in
  let buffer := buffer ++ drop shared key ++ value in
  mkBB buffer restarts (counter + 1) (finished_ s) (take shared (last_key_ s) ++ drop shared key).

Definition Finish (s : BlockBuilder) : list Z :=
  PutFixed32 (foldl PutFixed32 (buffer_ s) (restarts_ s)) (u32 (Z.of_nat (length (restarts_ s)))).

(** ** Block *)

Record Block := mkBlock { data_ : list Z; size_ : Z; restart_offset_ : Z }.

Definition NumRestarts (data : list Z) (size : Z) : result Z :=
  if 4 <=? size then DecodeFixed32 (drop (Z.to_nat (size - 4)) data) else Fault OutOfBounds.

Definition Block_new (contents : list Z) : result Block :=
  let size := Z.of_nat (length contents) in
  if size <? 4 then Ok (mkBlock contents 0 0)
  else
    n ← NumRestarts contents size;
    let restart_offset := u32 (u64 (size - u64 (u32 (1 + n) * 4))) in
    if size - 4 <? restart_offset then Ok (mkBlock contents 0 restart_offset)
    else Ok (mkBlock contents size restart_offset).

(** The values at [p] and where the key delta starts; [None] is the null pointer. *)
Definition DecodeEntry (data : list Z) (p limit : Z) : option (Z * Z * Z * Z) :=
  let q := take (Z.to_nat (limit - p)) (drop (Z.to_nat p) data) in
  match q with
  | a :: b :: c :: rest =>
      r ← (if Z.lor (Z.lor a b) c <? 128 then Some (a, b, c, rest)
           else '(shared, q) ← GetVarint32Ptr q;
                '(non_shared, q) ← GetVarint32Ptr q;
                '(value_length, q) ← GetVarint32Ptr q;
                Some (shared, non_shared, value_length, q));
      let '(shared, non_shared, value_length, q) := r in
      if u32 (Z.of_nat (length q)) <? u32 (non_shared + value_length) then None
      else Some (shared, non_shared, value_length, limit - Z.of_nat (length q))
  | _ => None
  end.

(** [value_] as offset and length; [None] where it does not point into the block. *)
Record Iter := mkIter {
  current_ : Z;
  restart_index_ : Z;
  key_ : list Z;
  value_ : option (Z * Z);
  corrupted : bool }.

Section iterator.
Context (comparator_ : Comparator) (data : list Z) (restarts num_restarts : Z).

Definition Iter_new : Iter := mkIter restarts num_restarts [] None false.

Definition Valid (it : Iter) : bool := current_ it <? restarts.

Definition value (it : Iter) : result (list Z) :=
  '(off, n) ← from_opt Undefined (value_ it);
  if off + n <=? Z.of_nat (length data) then Ok (take (Z.to_nat n) (drop (Z.to_nat off) data)) else Fault OutOfBounds.

Definition NextEntryOffset (it : Iter) : result Z :=
  '(off, n) ← from_opt Undefined (value_ it); Ok (u32 (off + n)).

Definition GetRestartPoint (index : Z) : result Z := DecodeFixed32 (drop (Z.to_nat (restarts + index * 4)) data).

Definition SeekToRestartPoint (index : Z) (it : Iter) : result Iter :=
  offset ← GetRestartPoint index;
  Ok (mkIter (current_ it) index [] (Some (offset, 0)) (corrupted it)).

Definition CorruptionError (it : Iter) : Iter := mkIter restarts num_restarts [] None true.

(** [while (restart_index_ + 1 < num_restarts_ && GetRestartPoint(restart_index_ + 1) < current_)]. *)
Fixpoint advance (fuel : nat) (current index : Z) : result Z :=
  if index + 1 <? num_restarts then
    r ← GetRestartPoint (index + 1);
    if r <? current then match fuel with O => Fault OutOfFuel | S fuel => advance fuel current (index + 1) end
    else Ok index
  else Ok index.

Definition ParseNextKey (it : Iter) : result (bool * Iter) :=
  current ← NextEntryOffset it;
  if restarts <=? current then Ok (false, mkIter restarts num_restarts (key_ it) (value_ it) (corrupted it))
  else
    match DecodeEntry data current restarts with
    | None => Ok (false, CorruptionError it)
    | Some (shared, non_shared, value_length, p) =>
        if Z.of_nat (length (key_ it)) <? shared then Ok (false, CorruptionError it)
        else if p + non_shared <=? Z.of_nat (length data) then
          let key := take (Z.to_nat shared) (key_ it) ++ take (Z.to_nat non_shared) (drop (Z.to_nat p) data) in
          index ← advance (Z.to_nat num_restarts) current (restart_index_ it);
          Ok (true, mkIter current index key (Some (p + non_shared, value_length)) (corrupted it))
        else Fault OutOfBounds
    end.

Definition Next (it : Iter) : result Iter := '(_, it) ← ParseNextKey it; Ok it.

(** The first loop of [Prev]; [None]: there are no more entries. *)
Fixpoint prev_restart (fuel : nat) (original index : Z) : result (option Z) :=
  r ← GetRestartPoint index;
  if original <=? r then
    if index =? 0 then Ok None
    else match fuel with O => Fault OutOfFuel | S fuel => prev_restart fuel original (index - 1) end
  else Ok (Some index).

(** [do {} while (ParseNextKey() && NextEntryOffset() < original)]; an entry is at least
    one byte long. *)
Fixpoint parse_until (fuel : nat) (original : Z) (it : Iter) : result Iter :=
  match fuel with
  | O => Fault OutOfFuel
  | S fuel =>
      '(b, it) ← ParseNextKey it;
      if (b : bool) then
        next ← NextEntryOffset it;
        if next <? original then parse_until fuel original it else Ok it
      else Ok it
  end.

Definition Prev (it : Iter) : result Iter :=
  let original := current_ it in
  o ← prev_restart (Z.to_nat num_restarts) original (restart_index_ it);
  match o with
  | None => Ok (mkIter restarts num_restarts (key_ it) (value_ it) (corrupted it))
  | Some index => it ← SeekToRestartPoint index it; parse_until (S (length data)) original it
  end.

(** The binary search of [Seek]; [None]: a restart point is corrupt. *)
Fixpoint bsearch (fuel : nat) (target : list Z) (left right : Z) : result (option Z) :=
  if left <? right then
    match fuel with
    | O => Fault OutOfFuel
    | S fuel =>
        let mid := u32 (left + right + 1) / 2 in
        region_offset ← GetRestartPoint mid;
        match DecodeEntry data region_offset restarts with
        | Some (shared, non_shared, _, key_ptr) =>
            if negb (shared =? 0) then Ok None
            else if key_ptr + non_shared <=? Z.of_nat (length data) then
              r ← Compare comparator_ (take (Z.to_nat non_shared) (drop (Z.to_nat key_ptr) data)) target;
              if r <? 0 then bsearch fuel target mid right else bsearch fuel target left (mid - 1)
            else Fault OutOfBounds
        | None => Ok None
        end
    end
  else Ok (Some left).

Fixpoint linear (fuel : nat) (target : list Z) (it : Iter) : result Iter :=
  match fuel with
  | O => Fault OutOfFuel
  | S fuel =>
      '(b, it) ← ParseNextKey it;
      if negb b then Ok it
      else
        r ← Compare comparator_ (key_ it) target;
        if 0 <=? r then Ok it else linear fuel target it
  end.

Definition Seek (target : list Z) (it : Iter) : result Iter :=
  o ← bsearch (Z.to_nat num_restarts) target 0 (u32 (num_restarts - 1));
  match o with
  | None => Ok (CorruptionError it)
  | Some index => it ← SeekToRestartPoint index it; linear (S (length data)) target it
  end.

Definition SeekToFirst (it : Iter) : result Iter := it ← SeekToRestartPoint 0 it; Next it.

Definition SeekToLast (it : Iter) : result Iter :=
  it ← SeekToRestartPoint (num_restarts - 1) it; parse_until (S (length data)) restarts it.

End iterator.

(** [NewIterator]: the offset and the number of the restart points of an iterator over
    the block, or an error iterator ([inl true]) or an empty one ([inl false]). *)
Definition NewIterator (b : Block) : result (bool + Z * Z) :=
  if size_ b <? 8 then Ok (inl true)
  else
    n ← NumRestarts (data_ b) (size_ b);
    if n =? 0 then Ok (inl false) else Ok (inr (restart_offset_ b, n)).

(** ** Entries and restart points *)

Record entry := mkEntry { e_shared : nat; e_key : list Z; e_value : list Z }.

Definition enc (e : entry) : list Z :=
  EncodeVarint32 (Z.of_nat (e_shared e)) ++ EncodeVarint32 (Z.of_nat (length (e_key e) - e_shared e)) ++
  EncodeVarint32 (Z.of_nat (length (e_value e))) ++ drop (e_shared e) (e_key e) ++ e_value e.

(** The bytes before the key delta. *)
Definition head_len (e : entry) : nat :=
  (length (EncodeVarint32 (Z.of_nat (e_shared e))) + length (EncodeVarint32 (Z.of_nat (length (e_key e) - e_shared e))) +
   length (EncodeVarint32 (Z.of_nat (length (e_value e)))))%nat.

Definition entries_bytes (l : list entry) : list Z := concat (map enc l).

(** The prefix shared with the key before. *)
Definition shares (prev : list Z) (e : entry) : Prop :=
  (e_shared e <= length prev)%nat /\ (e_shared e <= length (e_key e))%nat /\ take (e_shared e) prev = take (e_shared e) (e_key e).

Fixpoint compressed (prev : list Z) (l : list entry) : Prop :=
  match l with [] => True | e :: l => shares prev e /\ compressed (e_key e) l end.

Lemma enc_length e : (e_shared e <= length (e_key e))%nat ->
  length (enc e) = (head_len e + (length (e_key e) - e_shared e) + length (e_value e))%nat.
Proof. intros Hs. unfold enc, head_len. rewrite !length_app, length_drop. lia. Qed.

Lemma enc_parts e : enc e = (EncodeVarint32 (Z.of_nat (e_shared e)) ++ EncodeVarint32 (Z.of_nat (length (e_key e) - e_shared e)) ++
  EncodeVarint32 (Z.of_nat (length (e_value e)))) ++ drop (e_shared e) (e_key e) ++ e_value e.
Proof. unfold enc. by rewrite <- !app_assoc. Qed.

Lemma lor_low a b c : 0 <= a -> 0 <= b -> 0 <= c -> Z.lor (Z.lor a b) c < 128 -> a < 128 /\ b < 128 /\ c < 128.
Proof.
  intros Ha Hb Hc Hl. assert (Hab : 0 <= Z.lor a b) by (by apply Z.lor_nonneg).
  assert (Hlow : forall x y, 0 <= x -> 0 <= y -> Z.lor x y < 128 -> x < 128 /\ y < 128).
  { intros x y Hx Hy Hxy. destruct (Z.eq_dec (Z.lor x y) 0) as [[-> ->]%Z.lor_eq_0_iff|Hne]; [lia|].
    assert (Hp : 0 < Z.lor x y) by (pose proof (proj2 (Z.lor_nonneg x y) (conj Hx Hy)); lia).
    apply (Z.log2_lt_pow2 _ 7 Hp) in Hxy. rewrite Z.log2_lor in Hxy by done.
    split; [destruct (Z.eq_dec x 0); [lia|]|destruct (Z.eq_dec y 0); [lia|]]; apply (Z.log2_lt_pow2 _ 7); lia. }
  destruct (Hlow _ _ Hab Hc Hl) as [H1 H2]. destruct (Hlow _ _ Ha Hb H1). done.
Qed.

Lemma varint_head v l : varint v l -> exists b l', l = b :: l' /\ 0 <= b < 256 /\ (b < 128 -> v = b /\ l' = []).
Proof. intros Hl. destruct l as [|b l']; [inversion Hl|]. exists b, l'. split; [done|]. by destruct (varint_byte v b l' Hl) as (? & ? & _). Qed.

(** Reading the head of an entry, by either path. *)
Lemma decode_head v1 v2 v3 rest :
  0 <= v1 < 2 ^ 32 -> 0 <= v2 < 2 ^ 32 -> 0 <= v3 < 2 ^ 32 ->
  let q := EncodeVarint32 v1 ++ EncodeVarint32 v2 ++ EncodeVarint32 v3 ++ rest in
  exists a b c q', q = a :: b :: c :: q' /\
    (if Z.lor (Z.lor a b) c <? 128 then Some (a, b, c, q')
     else '(shared, q) ← GetVarint32Ptr q; '(non_shared, q) ← GetVarint32Ptr q; '(value_length, q) ← GetVarint32Ptr q;
          Some (shared, non_shared, value_length, q)) = Some (v1, v2, v3, rest).
Proof.
  intros H1 H2 H3. cbv zeta.
  pose proof (EncodeVarint32_varint v1 H1) as L1. pose proof (EncodeVarint32_varint v2 H2) as L2. pose proof (EncodeVarint32_varint v3 H3) as L3.
  set (l1 := EncodeVarint32 v1) in *. set (l2 := EncodeVarint32 v2) in *. set (l3 := EncodeVarint32 v3) in *.
  assert (Hslow : ('(shared, q) ← GetVarint32Ptr (l1 ++ l2 ++ l3 ++ rest); '(non_shared, q) ← GetVarint32Ptr q; '(value_length, q) ← GetVarint32Ptr q;
    Some (shared, non_shared, value_length, q)) = Some (v1, v2, v3, rest)).
  { rewrite (GetVarint32_varint v1 l1) by (done || lia). cbn [mbind option_bind]. rewrite (GetVarint32_varint v2 l2) by (done || lia).
    cbn [mbind option_bind]. by rewrite (GetVarint32_varint v3 l3) by (done || lia). }
  destruct (varint_head v1 l1 L1) as (a & l1' & E1 & Ba & Ha). destruct (varint_head v2 l2 L2) as (b & l2' & E2 & Bb & Hb).
  destruct (varint_head v3 l3 L3) as (c & l3' & E3 & Bc & Hcc).
  assert (Hlen : (3 <= length (l1 ++ l2 ++ l3 ++ rest))%nat) by (rewrite E1, E2, E3, !length_app; cbn; lia).
  destruct (l1 ++ l2 ++ l3 ++ rest) as [|x [|y [|z q']]] eqn:Eq; try (cbn in Hlen; lia). exists x, y, z, q'. split; [done|].
  destruct (Z.ltb_spec (Z.lor (Z.lor x y) z) 128) as [Hfast|]; [|done].
  assert (Hby : bytes (l1 ++ l2 ++ l3)) by (repeat (apply Forall_app; split); by eapply varint_bytes).
  assert (Hxyz : 0 <= x /\ 0 <= y /\ 0 <= z).
  { assert (Hl3 : (3 <= length (l1 ++ l2 ++ l3))%nat) by (rewrite E1, E2, E3, !length_app; cbn; lia).
    assert (Epre : l1 ++ l2 ++ l3 ++ rest = (l1 ++ l2 ++ l3) ++ rest) by (by rewrite <- !app_assoc). rewrite Epre in Eq.
    destruct (l1 ++ l2 ++ l3) as [|x' [|y' [|z' r]]]; try (cbn in Hl3; lia). injection Eq as -> -> -> _.
    inversion_clear Hby as [|? ? Hx Hby']. inversion_clear Hby' as [|? ? Hy Hby'']. inversion_clear Hby'' as [|? ? Hz _]. lia. }
  destruct (lor_low x y z) as (Hx & Hy & Hz); [lia..|]. rewrite E1 in Eq. injection Eq as -> Eq. destruct (Ha Hx) as [-> ->].
  rewrite E2 in Eq. injection Eq as -> Eq. destruct (Hb Hy) as [-> ->]. rewrite E3 in Eq. injection Eq as -> Eq. destruct (Hcc Hz) as [-> ->].
  cbn in Eq. by rewrite <- Eq.
Qed.

(** ** Reading a block *)

Section block.
Context (lay : list entry) (rs : list nat).

Definition off (i : nat) : nat := length (entries_bytes (take i lay)).
Definition points : list Z := map (fun r => Z.of_nat (off r)) rs.
Definition block_bytes : list Z := entries_bytes lay ++ concat (map EncodeFixed32 points) ++ EncodeFixed32 (Z.of_nat (length rs)).

Abbreviation limit := (Z.of_nat (length (entries_bytes lay))).
Abbreviation num := (Z.of_nat (length rs)).

Record block_ok : Prop := {
  bk_compressed : compressed [] lay;
  bk_size : Z.of_nat (length block_bytes) < 2 ^ 31;
  bk_first : rs !! 0%nat = Some 0%nat;
  bk_points j r : rs !! j = Some r -> (exists e, lay !! r = Some e /\ e_shared e = 0%nat) \/ (lay = [] /\ rs = [0%nat]) }.

Context (Hok : block_ok).

Lemma compressed_lookup prev l i e : compressed prev l -> l !! i = Some e ->
  shares (match i with O => prev | S i => match l !! i with Some e' => e_key e' | None => [] end end) e.
Proof.
  revert prev l. induction i as [|i IH]; intros prev [|x l] Hc Hi; try done; destruct Hc as [Hs Hc].
  - injection Hi as ->. done.
  - cbn [lookup list_lookup] in Hi |- *. specialize (IH _ _ Hc Hi). by destruct i.
Qed.

Lemma entry_shared i e : lay !! i = Some e -> (e_shared e <= length (e_key e))%nat.
Proof using Hok. intros Hi. by destruct (compressed_lookup _ _ _ _ (bk_compressed Hok) Hi) as (_ & ? & _). Qed.

Lemma entries_split i e : lay !! i = Some e ->
  entries_bytes lay = entries_bytes (take i lay) ++ enc e ++ entries_bytes (drop (S i) lay).
Proof. intros Hi. unfold entries_bytes. rewrite <- (take_drop_middle lay i e Hi) at 1. by rewrite map_app, concat_app. Qed.

Lemma enc_nonempty e : (1 <= length (enc e))%nat.
Proof.
  unfold enc. rewrite length_app. assert (H1 : (1 <= length (EncodeVarint32 (Z.of_nat (e_shared e))))%nat); [|lia].
  unfold EncodeVarint32. repeat case_match; cbn; lia.
Qed.

Lemma off_S i e : lay !! i = Some e -> off (S i) = (off i + length (enc e))%nat.
Proof. intros Hi. unfold off, entries_bytes. rewrite (take_S_r lay i e Hi), map_app, concat_app, length_app. cbn. by rewrite app_nil_r. Qed.

Lemma off_lt i j : (i < j <= length lay)%nat -> (off i < off j)%nat.
Proof.
  intros [Hij Hj]. induction j as [|j IH]; [lia|]. destruct (lookup_lt_is_Some_2 lay j Hj) as [e He].
  rewrite (off_S j e He). pose proof (enc_nonempty e). destruct (decide (i = j)) as [->|]; [lia|]. specialize (IH ltac:(lia) ltac:(lia)). lia.
Qed.

Lemma off_end : off (length lay) = length (entries_bytes lay).
Proof. unfold off. by rewrite firstn_all. Qed.

Lemma sizes : Z.of_nat (length block_bytes) = limit + 4 * num + 4.
Proof.
  unfold block_bytes, points. rewrite !length_app, length_words, length_map. unfold EncodeFixed32. rewrite length_le_bytes. lia.
Qed.

Lemma drop_off i e : lay !! i = Some e -> forall rest, drop (off i) (entries_bytes lay ++ rest) = enc e ++ entries_bytes (drop (S i) lay) ++ rest.
Proof. intros Hi rest. unfold off. rewrite (entries_split i e Hi), <- !app_assoc. apply drop_app_length. Qed.

Lemma small_of_size e i : lay !! i = Some e ->
  Z.of_nat (length (e_key e)) - Z.of_nat (e_shared e) + Z.of_nat (length (e_value e)) < 2 ^ 31 /\ (off i + length (enc e) <= length (entries_bytes lay))%nat.
Proof using Hok.
  intros Hi. pose proof (bk_size Hok) as Hs. rewrite sizes in Hs. pose proof (entry_shared i e Hi). pose proof (enc_length e ltac:(done)).
  assert (Hle : (off (S i) <= length (entries_bytes lay))%nat).
  { pose proof (lookup_lt_Some _ _ _ Hi). destruct (decide (S i = length lay)) as [->|]; [by rewrite off_end|]. rewrite <- off_end.
    pose proof (off_lt (S i) (length lay)). lia. }
  rewrite (off_S i e Hi) in Hle. lia.
Qed.

(** The keys are not longer than the block: what is shared was stored before. *)
Lemma shared_small i e : lay !! i = Some e -> Z.of_nat (length (e_key e)) < 2 ^ 31.
Proof using Hok.
  assert (Hgen : forall i e, lay !! i = Some e -> (length (e_key e) <= off (S i))%nat).
  { clear i e. intros n. induction n as [|j IH]; intros e' Hj; rewrite (off_S _ _ Hj); pose proof (entry_shared _ _ Hj); pose proof (enc_length e' ltac:(done));
      destruct (compressed_lookup _ _ _ _ (bk_compressed Hok) Hj) as (Hs & _ & _).
    - cbn in Hs. lia.
    - destruct (lay !! j) as [e''|] eqn:Ej; [|apply lookup_lt_Some in Hj; apply lookup_ge_None in Ej; lia]. specialize (IH e'' eq_refl). lia. }
  intros Hi. specialize (Hgen i e Hi). rewrite (off_S i e Hi) in Hgen. destruct (small_of_size e i Hi) as [_ Hle].
  pose proof (bk_size Hok) as Hs. rewrite sizes in Hs. lia.
Qed.

Lemma decode_at i e : lay !! i = Some e -> DecodeEntry block_bytes (Z.of_nat (off i)) limit =
  Some (Z.of_nat (e_shared e), Z.of_nat (length (e_key e) - e_shared e), Z.of_nat (length (e_value e)), Z.of_nat (off i + head_len e)).
Proof using Hok.
  intros Hi. pose proof (entry_shared i e Hi) as Hsh. destruct (small_of_size e i Hi) as [Hsm Hle]. pose proof (shared_small i e Hi) as Hk.
  pose proof (bk_size Hok) as Hsz. rewrite sizes in Hsz. pose proof (enc_length e Hsh) as Hel.
  unfold DecodeEntry, block_bytes. rewrite Nat2Z.id, (drop_off i e Hi). set (tail := concat (map EncodeFixed32 points) ++ EncodeFixed32 num).
  assert (Eq : take (Z.to_nat (limit - Z.of_nat (off i))) (enc e ++ entries_bytes (drop (S i) lay) ++ tail) = enc e ++ entries_bytes (drop (S i) lay)).
  { rewrite app_assoc. apply take_app_length'. assert (Hspl := f_equal length (entries_split i e Hi)). rewrite !length_app in *. unfold off in *. lia. }
  rewrite Eq. unfold enc. rewrite <- !app_assoc.
  destruct (decode_head (Z.of_nat (e_shared e)) (Z.of_nat (length (e_key e) - e_shared e)) (Z.of_nat (length (e_value e)))
    (drop (e_shared e) (e_key e) ++ e_value e ++ entries_bytes (drop (S i) lay))) as (a & b & c & q' & E & Hd); [lia..|].
  rewrite E in *. rewrite Hd. cbn [mbind option_bind].
  rewrite !length_app, length_drop. assert (Hspl := f_equal length (entries_split i e Hi)). rewrite !length_app in Hspl. unfold u32.
  rewrite !Z.mod_small by lia. rewrite (proj2 (Z.ltb_ge _ _)) by lia. do 2 f_equal. unfold off. lia.
Qed.

Lemma point_at j r : rs !! j = Some r -> GetRestartPoint block_bytes limit (Z.of_nat j) = Ok (Z.of_nat (off r)).
Proof using Hok.
  intros Hj. unfold GetRestartPoint, block_bytes. replace (Z.to_nat (limit + Z.of_nat j * 4)) with (length (entries_bytes lay) + 4 * j)%nat by lia.
  rewrite drop_app_add. apply word_at; [unfold points; change (map ?f ?l) with (f <$> l); by rewrite list_lookup_fmap, Hj|].
  assert (Hle : (off r <= length (entries_bytes lay))%nat).
  { rewrite <- off_end. destruct (le_lt_dec (length lay) r); [unfold off; by rewrite !take_ge by lia|]. pose proof (off_lt r (length lay)). lia. }
  pose proof (bk_size Hok) as Hs. rewrite sizes in Hs. lia.
Qed.

(** *** The iterator *)

(** The iterator stands at entry [i], or is invalid when there is none. *)
Definition stands (it : Iter) (i : nat) : Prop :=
  corrupted it = false /\
  match lay !! i with
  | Some e => current_ it = Z.of_nat (off i) /\ key_ it = e_key e /\
      value_ it = Some (Z.of_nat (off i + head_len e + (length (e_key e) - e_shared e)), Z.of_nat (length (e_value e))) /\
      0 <= restart_index_ it < num
  | None => current_ it = limit
  end.

(** [ParseNextKey] will find entry [i]. *)
Definition before (it : Iter) (i : nat) : Prop :=
  corrupted it = false /\ (i <= length lay)%nat /\ 0 <= restart_index_ it < num /\
  (exists v l, value_ it = Some (v, l) /\ v + l = Z.of_nat (off i)) /\
  match lay !! i with Some e => (e_shared e <= length (key_ it))%nat /\ take (e_shared e) (key_ it) = take (e_shared e) (e_key e) | None => True end.

Lemma off_small i : Z.of_nat (off i) <= limit /\ limit < 2 ^ 31.
Proof using Hok.
  pose proof (bk_size Hok) as Hs. rewrite sizes in Hs. split; [|lia].
  rewrite <- off_end. destruct (le_lt_dec (length lay) i); [unfold off; rewrite !take_ge by lia; lia|]. pose proof (off_lt i (length lay)). lia.
Qed.

Lemma advance_ok fuel current index : 0 <= index < num -> num - index <= Z.of_nat fuel ->
  exists index', advance block_bytes limit num fuel current index = Ok index' /\ 0 <= index' < num.
Proof using Hok.
  revert index. induction fuel as [|fuel IH]; intros index Hi Hf; [lia|]. cbn [advance].
  destruct (Z.ltb_spec (index + 1) num) as [Hlt|]; [|by eexists].
  destruct (lookup_lt_is_Some_2 rs (Z.to_nat (index + 1))) as [r Hr]; [lia|]. pose proof (point_at _ _ Hr) as Hp. rewrite Z2Nat.id in Hp by lia.
  rewrite Hp. cbn [mbind result_bind]. destruct (Z.ltb_spec (Z.of_nat (off r)) current); [|by eexists]. apply IH; lia.
Qed.

Lemma parse_ok it i : before it i ->
  exists it', ParseNextKey block_bytes limit num it = Ok (bool_decide (i < length lay)%nat, it') /\ stands it' i.
Proof using Hok.
  intros (Hc & Hi & Hidx & (v & l & Ev & Hvl) & Hpre). unfold ParseNextKey, NextEntryOffset. rewrite Ev. cbn [from_opt mbind result_bind].
  destruct (off_small i) as [Hle Hsm]. assert (Eu : u32 (v + l) = Z.of_nat (off i)) by (rewrite Hvl; apply Z.mod_small; lia). rewrite Eu.
  destruct (lay !! i) as [e|] eqn:Ei.
  - pose proof (lookup_lt_Some _ _ _ Ei) as Hlt. rewrite bool_decide_eq_true_2 by done.
    pose proof (off_lt i (length lay) ltac:(lia)) as Hoff. rewrite off_end in Hoff. rewrite (proj2 (Z.leb_gt _ _)) by lia.
    rewrite (decode_at i e Ei). destruct Hpre as [Hlen Hpre]. rewrite (proj2 (Z.ltb_ge _ _)) by lia.
    pose proof (entry_shared i e Ei) as Hsh. pose proof (enc_length e Hsh) as Hel. destruct (small_of_size e i Ei) as [_ Hend].
    pose proof (sizes) as Hsz. rewrite (proj2 (Z.leb_le _ _)) by lia.
    destruct (advance_ok (Z.to_nat num) (Z.of_nat (off i)) (restart_index_ it)) as (idx & -> & Hidx'); [lia..|]. cbn [mbind result_bind].
    eexists. split; [done|]. split; [done|]. rewrite Ei. cbn [current_ key_ value_ restart_index_]. split; [done|].
    assert (Hkey : take (Z.to_nat (Z.of_nat (length (e_key e) - e_shared e))) (drop (Z.to_nat (Z.of_nat (off i + head_len e))) block_bytes) = drop (e_shared e) (e_key e)).
    { rewrite !Nat2Z.id. unfold block_bytes. rewrite <- drop_drop, (drop_off i e Ei), enc_parts, <- app_assoc, drop_app_length' by (rewrite !length_app; unfold head_len; lia).
      rewrite <- app_assoc. apply take_app_length'. rewrite length_drop. lia. }
    rewrite Hkey, Nat2Z.id, Hpre, take_drop. split; [done|]. split; [do 2 f_equal; lia|done].
  - apply lookup_ge_None in Ei as Hge. rewrite bool_decide_eq_false_2 by lia. assert (i = length lay) as -> by lia.
    rewrite off_end, (proj2 (Z.leb_le _ _)) by lia. eexists. split; [done|]. split; [done|]. rewrite Ei. done.
Qed.

Lemma stands_before it i e : lay !! i = Some e -> stands it i -> before it (S i).
Proof using Hok.
  intros Hi [Hc Hs]. rewrite Hi in Hs. destruct Hs as (Hcur & Hkey & Hval & Hidx). pose proof (lookup_lt_Some _ _ _ Hi).
  pose proof (entry_shared i e Hi) as Hsh. pose proof (enc_length e Hsh) as Hel.
  split; [done|]. split; [lia|]. split; [done|]. split.
  - eexists _, _. split; [done|]. rewrite (off_S i e Hi). lia.
  - destruct (lay !! S i) as [e'|] eqn:E'; [|done]. destruct (compressed_lookup _ _ _ _ (bk_compressed Hok) E') as (H1 & _ & H2).
    rewrite Hi in H1, H2. by rewrite Hkey.
Qed.

Lemma restart_before it j r : rs !! j = Some r -> corrupted it = false ->
  exists it', SeekToRestartPoint block_bytes limit (Z.of_nat j) it = Ok it' /\ before it' r.
Proof using Hok.
  intros Hj Hc. unfold SeekToRestartPoint. rewrite (point_at j r Hj). cbn [mbind result_bind]. eexists. split; [done|].
  pose proof (lookup_lt_Some _ _ _ Hj). split; [done|]. cbn [restart_index_ value_ key_ current_]. destruct (bk_points Hok j r Hj) as [(e & He & Hs)|[Hnil Hr0]].
  - pose proof (lookup_lt_Some _ _ _ He). split; [lia|]. split; [lia|]. split; [eexists _, _; split; [done|]; lia|]. rewrite He, Hs. cbn. split; [lia|done].
  - rewrite Hr0 in Hj. assert (r = 0%nat) as -> by (destruct j; [by injection Hj as <-|done]).
    split; [lia|]. split; [lia|]. split; [eexists _, _; split; [done|]; lia|]. by rewrite Hnil.
Qed.

(** Parsing up to the entry before [t]. *)
Lemma parse_until_ok t : (1 <= t <= length lay)%nat -> forall fuel it i, before it i -> (i < t)%nat -> (t - i < fuel)%nat ->
  exists it', parse_until block_bytes limit num fuel (Z.of_nat (off t)) it = Ok it' /\ stands it' (t - 1).
Proof using Hok.
  intros Ht. induction fuel as [|fuel IH]; intros it i Hb Hit Hf; [lia|]. cbn [parse_until].
  destruct (parse_ok it i Hb) as (it1 & -> & Hst). cbn [mbind result_bind]. rewrite bool_decide_eq_true_2 by lia.
  destruct (lookup_lt_is_Some_2 lay i) as [e He]; [lia|]. pose proof (stands_before it1 i e He Hst) as Hb1.
  destruct Hb1 as (Hc1 & Hi1 & Hidx1 & (v & l & Ev & Hvl) & Hpre1) eqn:Eb. clear Eb. unfold NextEntryOffset. rewrite Ev. cbn [from_opt mbind result_bind].
  destruct (off_small (S i)) as [Hle Hsm]. rewrite Hvl. unfold u32. rewrite Z.mod_small by lia.
  destruct (decide (S i = t)) as [<-|Hne].
  - rewrite Z.ltb_irrefl. exists it1. split; [done|]. by replace (S i - 1)%nat with i by lia.
  - pose proof (off_lt (S i) t ltac:(lia)). rewrite (proj2 (Z.ltb_lt _ _)) by lia. apply (IH it1 (S i)); [|lia|lia].
    apply (stands_before it1 i e He Hst).
Qed.

Lemma entries_fuel : (length lay < S (length block_bytes))%nat.
Proof using Hok.
  assert (Hn : forall n, (n <= length lay)%nat -> (n <= off n)%nat).
  { induction n as [|n IH]; intros Hn; [lia|]. pose proof (off_lt n (S n) ltac:(lia)). specialize (IH ltac:(lia)). lia. }
  specialize (Hn (length lay) (le_n _)). rewrite off_end in Hn. pose proof sizes. lia.
Qed.

Lemma SeekToLast_ok it : corrupted it = false ->
  exists it', SeekToLast block_bytes limit num it = Ok it' /\ stands it' (length lay - 1).
Proof using Hok.
  intros Hc. unfold SeekToLast. pose proof (lookup_lt_Some _ _ _ (bk_first Hok)). destruct (lookup_lt_is_Some_2 rs (length rs - 1)) as [r Hr]; [lia|].
  destruct (restart_before it _ r Hr Hc) as (it1 & E1 & Hb). replace (Z.of_nat (length rs - 1)) with (num - 1) in E1 by lia. rewrite E1. cbn [mbind result_bind].
  destruct (decide (length lay = 0%nat)) as [H0|Hne].
  - cbn [parse_until]. destruct (parse_ok it1 r Hb) as (it2 & -> & Hst). cbn [mbind result_bind]. rewrite bool_decide_eq_false_2 by lia.
    destruct Hb as (_ & Hle & _). exists it2. split; [done|]. by replace (length lay - 1)%nat with r by lia.
  - destruct (parse_until_ok (length lay) ltac:(lia) (S (length block_bytes)) it1 r Hb) as (it2 & E2 & Hst).
    + destruct (bk_points Hok _ r Hr) as [(e & He & _)|[Hnil _]]; [by apply lookup_lt_Some in He|by rewrite Hnil in Hne].
    + pose proof entries_fuel. lia.
    + rewrite off_end in E2. by exists it2.
Qed.

Lemma SeekToFirst_ok it : corrupted it = false -> exists it', SeekToFirst block_bytes limit num it = Ok it' /\ stands it' 0.
Proof using Hok.
  intros Hc. unfold SeekToFirst. destruct (restart_before it 0 0 (bk_first Hok) Hc) as (it1 & E1 & Hb). change (Z.of_nat 0) with 0 in E1. rewrite E1.
  cbn [mbind result_bind]. unfold Next. destruct (parse_ok it1 0 Hb) as (it2 & -> & Hst). by exists it2.
Qed.

Lemma Next_ok it i : (i < length lay)%nat -> stands it i -> exists it', Next block_bytes limit num it = Ok it' /\ stands it' (S i).
Proof using Hok.
  intros Hi Hs. destruct (lookup_lt_is_Some_2 lay i Hi) as [e He]. unfold Next.
  destruct (parse_ok it (S i) (stands_before it i e He Hs)) as (it2 & -> & Hst). by exists it2.
Qed.

Lemma prev_restart_ok i fuel index : (i < length lay)%nat -> 0 <= index < num -> index < Z.of_nat fuel ->
  (i = 0%nat /\ prev_restart block_bytes limit fuel (Z.of_nat (off i)) index = Ok None) \/
  (exists j r, rs !! j = Some r /\ (r < i)%nat /\ prev_restart block_bytes limit fuel (Z.of_nat (off i)) index = Ok (Some (Z.of_nat j))).
Proof using Hok.
  intros Hi. revert index. induction fuel as [|fuel IH]; intros index Hidx Hf; [lia|]. cbn [prev_restart].
  destruct (lookup_lt_is_Some_2 rs (Z.to_nat index)) as [r Hr]; [lia|]. pose proof (point_at _ _ Hr) as Hp. rewrite Z2Nat.id in Hp by lia.
  rewrite Hp. cbn [mbind result_bind]. destruct (Z.leb_spec (Z.of_nat (off i)) (Z.of_nat (off r))) as [Hle|Hlt].
  - destruct (Z.eqb_spec index 0) as [->|Hne]; [|apply IH; lia]. left. split; [|done].
    pose proof (bk_first Hok) as Hf0. change (Z.to_nat 0) with 0%nat in Hr. rewrite Hf0 in Hr. injection Hr as <-.
    destruct i as [|i]; [done|]. pose proof (off_lt 0 (S i)). lia.
  - right. exists (Z.to_nat index), r. rewrite Z2Nat.id by lia. split; [done|]. split; [|done].
    destruct (le_lt_dec i r) as [Hir|]; [|done]. destruct (decide (i = r)) as [->|]; [lia|].
    destruct (le_lt_dec r (length lay)) as [Hrl|Hrl]; [pose proof (off_lt i r); lia|].
    destruct (bk_points Hok _ r Hr) as [(e & He & _)|[Hnil _]]; [apply lookup_lt_Some in He; lia|rewrite Hnil in Hi; cbn in Hi; lia].
Qed.

Lemma Prev_ok it i : (i < length lay)%nat -> stands it i ->
  exists it', Prev block_bytes limit num it = Ok it' /\ stands it' (match i with O => length lay | S i => i end).
Proof using Hok.
  intros Hi [Hc Hs]. destruct (lookup_lt_is_Some_2 lay i Hi) as [e He]. rewrite He in Hs. destruct Hs as (Hcur & Hkey & Hval & Hidx). unfold Prev. rewrite Hcur.
  destruct (prev_restart_ok i (Z.to_nat num) (restart_index_ it) Hi Hidx) as [[-> ->]|(j & r & Hj & Hr & ->)]; [lia|..]; cbn [mbind result_bind].
  - eexists. split; [done|]. split; [done|]. by rewrite (proj2 (lookup_ge_None lay (length lay))).
  - destruct (restart_before it j r Hj Hc) as (it1 & -> & Hb). cbn [mbind result_bind].
    destruct (parse_until_ok i ltac:(lia) (S (length block_bytes)) it1 r Hb Hr) as (it2 & -> & Hst); [pose proof entries_fuel; lia|].
    exists it2. split; [done|]. destruct i as [|i]; [lia|]. by replace (S i - 1)%nat with i in Hst by lia.
Qed.

Lemma value_ok it i e : lay !! i = Some e -> stands it i -> value block_bytes it = Ok (e_value e).
Proof using Hok.
  intros Hi [_ Hs]. rewrite Hi in Hs. destruct Hs as (_ & _ & Hval & _). unfold value. rewrite Hval. cbn [from_opt mbind result_bind].
  pose proof (entry_shared i e Hi) as Hsh. pose proof (enc_length e Hsh) as Hel. destruct (small_of_size e i Hi) as [_ Hend]. pose proof sizes as Hsz.
  rewrite (proj2 (Z.leb_le _ _)) by lia. rewrite !Nat2Z.id. unfold block_bytes.
  rewrite <- Nat.add_assoc, <- drop_drop, (drop_off i e Hi). f_equal. rewrite enc_parts, (app_assoc _ (drop _ _)).
  rewrite <- (app_assoc (_ ++ drop _ _)), drop_app_length'; [apply take_app_length|]. rewrite !length_app, length_drop. unfold head_len. lia.
Qed.

(** *** Searching *)

Context (c : Comparator) (ok : list Z -> Prop) (ord : list Z -> list Z -> Z) `{Ho : !CompareOrder ord}.
Context (Hc : forall a b, ok a -> ok b -> Compare c a b = Ok (ord a b)) (Hkeys : Forall (fun e => ok (e_key e)) lay).
Context (Hsorted : StronglySorted (fun e e' => ord (e_key e) (e_key e') < 0) lay).

Lemma key_ok i e : lay !! i = Some e -> ok (e_key e).
Proof using Hkeys. intros He. rewrite Forall_forall in Hkeys. by apply Hkeys, (list_elem_of_lookup_2 _ i). Qed.

Lemma linear_ok target : ok target -> forall fuel it i, before it i -> (length lay - i < fuel)%nat ->
  exists it' t, linear c block_bytes limit num fuel target it = Ok it' /\ stands it' t /\ (i <= t <= length lay)%nat /\
    (forall m e, (i <= m < t)%nat -> lay !! m = Some e -> ord (e_key e) target < 0) /\
    (forall e, lay !! t = Some e -> 0 <= ord (e_key e) target).
Proof using Hok Hc Hkeys.
  intros Htgt. induction fuel as [|fuel IH]; intros it i Hb Hf; [lia|]. cbn [linear]. pose proof Hb as (_ & Hi & _).
  destruct (parse_ok it i Hb) as (it1 & -> & Hst). cbn [mbind result_bind]. destruct (lay !! i) as [e|] eqn:Ei.
  - pose proof (lookup_lt_Some _ _ _ Ei) as Hlt. rewrite bool_decide_eq_true_2 by done. cbn [negb].
    pose proof Hst as [_ Hs]. rewrite Ei in Hs. destruct Hs as (_ & Hkey & _). rewrite Hkey, Hc by (done || by eapply key_ok). cbn [mbind result_bind].
    destruct (Z.leb_spec 0 (ord (e_key e) target)) as [Hge|Hltt].
    + exists it1, i. split_and!; [done..|lia|lia| |]; [intros; lia|]. intros e' He'. rewrite Ei in He'. by injection He' as <-.
    + destruct (IH it1 (S i) (stands_before it1 i e Ei Hst)) as (it' & t & E & Hs' & Ht & Hlow & Hge); [lia|]. exists it', t. split_and!; [done..|lia|lia| |done].
      intros m e' Hm He'. destruct (decide (m = i)) as [->|]; [rewrite Ei in He'; by injection He' as <-|]. apply (Hlow m e'); [lia|done].
  - apply lookup_ge_None in Ei as Hge. rewrite bool_decide_eq_false_2 by lia. cbn [negb]. exists it1, i. split_and!; [done..|lia|lia|intros; lia|].
    intros e' He'. congruence.
Qed.

Lemma bsearch_ok target fuel : ok target -> forall lo hi, 0 <= lo <= hi -> hi < num -> hi - lo <= Z.of_nat fuel ->
  (lo = 0 \/ exists r e, rs !! Z.to_nat lo = Some r /\ lay !! r = Some e /\ ord (e_key e) target < 0) ->
  exists l, bsearch c block_bytes limit fuel target lo hi = Ok (Some l) /\ 0 <= l < num /\
    (l = 0 \/ exists r e, rs !! Z.to_nat l = Some r /\ lay !! r = Some e /\ ord (e_key e) target < 0).
Proof using Hok Hc Hkeys.
  intros Htgt. induction fuel as [|fuel IH]; intros lo hi Hlo Hhi Hf Hinv; cbn [bsearch]; (destruct (Z.ltb_spec lo hi) as [Hlt|]; [|exists lo; split_and!; [done|lia|lia|done]]); [lia|].
  pose proof (bk_size Hok) as Hsz. rewrite sizes in Hsz. unfold u32. rewrite (Z.mod_small (lo + hi + 1)) by lia.
  set (mid := (lo + hi + 1) / 2). assert (Hmid : lo < mid <= hi) by (unfold mid; Z.to_euclidean_division_equations; lia). clearbody mid.
  destruct (lookup_lt_is_Some_2 rs (Z.to_nat mid)) as [r Hr]; [lia|]. pose proof (point_at _ _ Hr) as Hp. rewrite Z2Nat.id in Hp by lia. rewrite Hp. cbn [mbind result_bind].
  destruct (bk_points Hok _ r Hr) as [(e & He & Hs)|[_ Hr0]]; [|rewrite Hr0 in Hhi; cbn in Hhi; lia].
  rewrite (decode_at r e He), Hs. cbn [negb Z.of_nat Z.eqb]. pose proof (entry_shared r e He) as Hsh. pose proof (enc_length e Hsh) as Hel.
  destruct (small_of_size e r He) as [_ Hend]. pose proof sizes as Hlen. rewrite (proj2 (Z.leb_le _ _)) by lia.
  assert (Hkey : take (Z.to_nat (Z.of_nat (length (e_key e) - 0))) (drop (Z.to_nat (Z.of_nat (off r + head_len e))) block_bytes) = e_key e).
  { rewrite !Nat2Z.id. unfold block_bytes. rewrite <- drop_drop, (drop_off r e He), enc_parts, <- app_assoc, drop_app_length' by (rewrite !length_app; unfold head_len; lia).
    rewrite Hs, drop_0, <- app_assoc. apply take_app_length'. lia. }
  rewrite Hkey, Hc by (done || by eapply key_ok). cbn [mbind result_bind]. destruct (Z.ltb_spec (ord (e_key e) target) 0).
  - apply IH; [lia..|]. right. by exists r, e.
  - apply IH; [lia..|done].
Qed.

Lemma Seek_ok target it : ok target -> corrupted it = false ->
  exists it' t, Seek c block_bytes limit num target it = Ok it' /\ stands it' t /\ (t <= length lay)%nat /\
    (forall m e, (m < t)%nat -> lay !! m = Some e -> ord (e_key e) target < 0) /\
    (forall e, lay !! t = Some e -> 0 <= ord (e_key e) target).
Proof using Hok Hc Hkeys Ho Hsorted.
  intros Htgt Hcor. pose proof (lookup_lt_Some _ _ _ (bk_first Hok)) as Hn. pose proof (bk_size Hok) as Hsz. rewrite sizes in Hsz.
  unfold Seek. unfold u32. rewrite (Z.mod_small (num - 1)) by lia.
  destruct (bsearch_ok target (Z.to_nat num) Htgt 0 (num - 1)) as (l & -> & Hl & Hinv); [lia..|by left|]. cbn [mbind result_bind].
  destruct (lookup_lt_is_Some_2 rs (Z.to_nat l)) as [r Hr]; [lia|]. destruct (restart_before it _ r Hr Hcor) as (it1 & E1 & Hb). rewrite Z2Nat.id in E1 by lia.
  rewrite E1. cbn [mbind result_bind]. destruct (linear_ok target Htgt (S (length block_bytes)) it1 r Hb) as (it' & t & E & Hst & Ht & Hlow & Hge); [pose proof entries_fuel; lia|].
  exists it', t. split_and!; [done|done|lia| |done]. intros m e Hm He. destruct (le_lt_dec r m) as [Hrm|Hmr]; [apply (Hlow m e); [lia|done]|].
  destruct Hinv as [->|(r' & e' & Hr' & He' & Hlt)].
  - pose proof (bk_first Hok) as Hf0. change (Z.to_nat 0) with 0%nat in Hr. rewrite Hf0 in Hr. injection Hr as <-. lia.
  - rewrite Hr in Hr'. injection Hr' as <-. assert (Hme : ord (e_key e) (e_key e') < 0).
    { clear -Hsorted He He' Hmr. revert m r Hmr He He'. induction Hsorted as [|x l Hs IH Hx]; intros m r Hmr He He'; [done|]. destruct r as [|r]; [lia|].
      cbn in He'. destruct m as [|m]; cbn in He; [|apply (IH Hs m r); [lia|done..]]. injection He as <-. rewrite Forall_forall in Hx.
      apply (Hx e'). by apply list_elem_of_lookup_2 in He'. }
    apply (co_trans ord _ _ target Hme). lia.
Qed.

End block.

(** ** Building a block *)

Lemma diff_index_prefix a b : (diff_index a b <= length a)%nat /\ (diff_index a b <= length b)%nat /\ take (diff_index a b) a = take (diff_index a b) b.
Proof.
  revert b. induction a as [|x a IH]; intros [|y b]; cbn [diff_index length]; [split_and!; [lia|lia|done]..|].
  destruct (Z.eqb_spec x y) as [->|]; [|split_and!; [lia|lia|done]]. destruct (IH b) as (H1 & H2 & H3). cbn [take]. rewrite H3. split_and!; [lia|lia|done].
Qed.

Definition last_key (l : list entry) : list Z := match list.last l with Some e => e_key e | None => [] end.

Lemma compressed_snoc prev l e : compressed prev (l ++ [e]) <-> compressed prev l /\ shares (match list.last l with Some x => e_key x | None => prev end) e.
Proof.
  revert prev. induction l as [|x l IH]; intros prev; cbn [app compressed]; [cbn; tauto|]. rewrite IH. destruct l as [|y l]; cbn [list.last]; [cbn; tauto|].
  change (list.last (x :: y :: l)) with (list.last (y :: l)). destruct (list.last (y :: l)) as [z|] eqn:El; [tauto|]. by apply last_None in El.
Qed.

Record built (s : BlockBuilder) (lay : list entry) (rs : list nat) : Prop := {
  bt_buffer : buffer_ s = entries_bytes lay;
  bt_restarts : restarts_ s = map (fun r => u32 (Z.of_nat (off lay r))) rs;
  bt_last : last_key_ s = last_key lay;
  bt_compressed : compressed [] lay;
  bt_first : rs !! 0%nat = Some 0%nat;
  bt_points j r : rs !! j = Some r -> (exists e, lay !! r = Some e /\ e_shared e = 0%nat) \/ (lay = [] /\ rs = [0%nat]);
  bt_counter : 0 <= counter_ s /\ (counter_ s = 0 -> lay = []) }.

Lemma off_prefix lay e r : (r <= length lay)%nat -> off (lay ++ [e]) r = off lay r.
Proof. intros Hr. unfold off. by rewrite take_app_le. Qed.

Lemma Add_built interval k v s lay rs : 1 <= interval -> built s lay rs -> Z.of_nat (length k) < 2 ^ 31 -> Z.of_nat (length v) < 2 ^ 31 ->
  exists e rs', e_key e = k /\ e_value e = v /\ built (Add interval k v s) (lay ++ [e]) rs'.
Proof.
  intros Hint [Hb Hr Hl Hcomp Hf Hp [Hc0 Hc1]] Hk Hv.
  assert (Hbuf : forall sh, (sh <= length k)%nat -> PutVarint32 (PutVarint32 (PutVarint32 (buffer_ s) (u32 (Z.of_nat sh))) (u32 (Z.of_nat (length k - sh)))) (u32 (Z.of_nat (length v))) ++
    drop sh k ++ v = entries_bytes (lay ++ [mkEntry sh k v])).
  { intros sh Hsh. unfold u32. rewrite !Z.mod_small by lia. unfold PutVarint32, entries_bytes. rewrite Hb, map_app, concat_app. cbn [map concat]. rewrite app_nil_r.
    unfold enc. cbn [e_shared e_key e_value]. by rewrite <- !app_assoc. }
  assert (Hrl : forall j r, rs !! j = Some r -> (r <= length lay)%nat).
  { intros j r Hj. destruct (Hp j r Hj) as [(e & He & _)|[_ Hr0]]; [apply lookup_lt_Some in He; lia|]. rewrite Hr0 in Hj. destruct j; [injection Hj as <-; lia|done]. }
  assert (Hres : forall e, restarts_ s = map (fun r => u32 (Z.of_nat (off (lay ++ [e]) r))) rs).
  { intros e. rewrite Hr. apply map_ext_in. intros r (j & Hj)%list_elem_of_In%list_elem_of_lookup_1. by rewrite off_prefix by (by eapply Hrl). }
  assert (Hlast : forall sh, last_key (lay ++ [mkEntry sh k v]) = k) by (intros sh; unfold last_key; by rewrite last_snoc).
  unfold Add. destruct (Z.ltb_spec (counter_ s) interval) as [Hlt|Hge].
  - destruct (diff_index_prefix (last_key_ s) k) as (H1 & H2 & H3). set (sh := diff_index (last_key_ s) k) in *.
    exists (mkEntry sh k v), rs. split; [done|]. split; [done|]. split; cbn [buffer_ restarts_ last_key_ counter_].
    + by apply Hbuf.
    + apply Hres.
    + by rewrite H3, take_drop, Hlast.
    + apply compressed_snoc. split; [done|]. unfold shares. cbn [e_shared e_key]. rewrite Hl in H1, H3. unfold last_key in H1, H3. destruct (list.last lay); done.
    + done.
    + intros j r Hj. left. destruct (Hp j r Hj) as [(e & He & Hs)|[-> Hr0]]; [exists e; split; [by apply lookup_app_l_Some|done]|].
      rewrite Hr0 in Hj. destruct j; [|done]. injection Hj as <-. exists (mkEntry sh k v). split; [done|]. cbn [e_shared]. unfold sh. rewrite Hl. done.
    + split; [lia|]. intros. lia.
  - exists (mkEntry 0 k v), (rs ++ [length lay]). split; [done|]. split; [done|]. split; cbn [buffer_ restarts_ last_key_ counter_].
    + apply (Hbuf 0%nat). lia.
    + rewrite map_app. f_equal; [apply Hres|]. cbn [map]. rewrite off_prefix by lia. by rewrite off_end, Hb.
    + by rewrite Hlast.
    + apply compressed_snoc. split; [done|]. unfold shares. cbn [e_shared e_key]. split_and!; [lia|lia|by rewrite !take_0].
    + by apply lookup_app_l_Some.
    + intros j r Hj. left. apply lookup_app_Some in Hj as [Hj|[Hj1 Hj]].
      * destruct (Hp j r Hj) as [(e & He & Hs)|[-> Hr0]]; [exists e; split; [by apply lookup_app_l_Some|done]|].
        rewrite Hr0 in Hj. destruct j; [|done]. injection Hj as <-. by exists (mkEntry 0 k v).
      * apply list_lookup_singleton_Some in Hj as [_ <-]. exists (mkEntry 0 k v). split; [|done]. by rewrite lookup_app_r, Nat.sub_diag by lia.
    + split; [lia|]. intros. lia.
Qed.

Definition build (interval : Z) (es : list (list Z * list Z)) : BlockBuilder :=
  foldl (fun s kv => Add interval kv.1 kv.2 s) BlockBuilder_new es.

Lemma build_built interval es : 1 <= interval -> Forall (fun kv => Z.of_nat (length kv.1) < 2 ^ 31 /\ Z.of_nat (length kv.2) < 2 ^ 31) es ->
  exists lay rs, built (build interval es) lay rs /\ (fun e => (e_key e, e_value e)) <$> lay = es.
Proof.
  intros Hint Hes. induction es as [|[k v] es IH] using rev_ind.
  - exists [], [0%nat]. split; [|done]. split; cbn; try done. intros [|j] r Hj; [|done]. by right.
  - apply Forall_app in Hes as [Hes [[Hk Hv] _]%Forall_cons]. destruct (IH Hes) as (lay & rs & Hb & El). unfold build in *. rewrite foldl_app. cbn [foldl fst snd].
    destruct (Add_built interval k v _ lay rs Hint Hb Hk Hv) as (e & rs' & Ek & Ev & Hb'). exists (lay ++ [e]), rs'. split; [done|].
    rewrite fmap_app, El. cbn. by rewrite Ek, Ev.
Qed.

Lemma Finish_built s lay rs : built s lay rs -> Z.of_nat (length (Finish s)) < 2 ^ 31 ->
  Finish s = block_bytes lay rs /\ block_ok lay rs.
Proof.
  intros [Hb Hr Hl Hcomp Hf Hp _] Hsize.
  assert (Hput : forall ws r, foldl PutFixed32 r ws = r ++ concat (map EncodeFixed32 ws)).
  { induction ws as [|w ws IH]; intros r; cbn [foldl map concat]; [by rewrite app_nil_r|]. rewrite IH. unfold PutFixed32. by rewrite <- app_assoc. }
  unfold Finish in *. rewrite Hput in *. unfold PutFixed32 in *. rewrite Hb, Hr, <- app_assoc in *. rewrite length_map in *.
  assert (Hlen := Hsize). rewrite !length_app, length_words, length_map in Hlen. unfold EncodeFixed32 in Hlen. rewrite length_le_bytes in Hlen.
  assert (Hpts : map (fun r => u32 (Z.of_nat (off lay r))) rs = points lay rs).
  { apply map_ext. intros r. apply Z.mod_small. assert (Hle : (off lay r <= length (entries_bytes lay))%nat); [|lia].
    rewrite <- off_end. destruct (le_lt_dec (length lay) r); [unfold off; rewrite !take_ge by lia; lia|]. pose proof (off_lt lay r (length lay)). lia. }
  assert (Hn : u32 (Z.of_nat (length rs)) = Z.of_nat (length rs)) by (apply Z.mod_small; lia). rewrite Hpts, Hn in *.
  split; [done|]. by split.
Qed.

Lemma Block_new_ok lay rs : block_ok lay rs -> exists b, Block_new (block_bytes lay rs) = Ok b /\ data_ b = block_bytes lay rs /\
  NewIterator b = Ok (inr (Z.of_nat (length (entries_bytes lay)), Z.of_nat (length rs))).
Proof.
  intros Hok. pose proof (bk_size _ _ Hok) as Hs. pose proof (sizes lay rs) as Hl. pose proof (lookup_lt_Some _ _ _ (bk_first _ _ Hok)) as Hn. rewrite Hl in Hs.
  assert (Hnum : NumRestarts (block_bytes lay rs) (Z.of_nat (length (block_bytes lay rs))) = Ok (Z.of_nat (length rs))).
  { unfold NumRestarts. rewrite (proj2 (Z.leb_le _ _)) by lia. replace (Z.to_nat (Z.of_nat (length (block_bytes lay rs)) - 4)) with (length (entries_bytes lay) + 4 * length rs)%nat by lia.
    unfold block_bytes. rewrite drop_app_add. replace (4 * length rs)%nat with (length (concat (map EncodeFixed32 (points lay rs)))) by (rewrite length_words; unfold points; by rewrite length_map).
    rewrite drop_app_length. rewrite <- (app_nil_r (EncodeFixed32 _)). apply (DecodeFixed_le 4). lia. }
  unfold Block_new. rewrite (proj2 (Z.ltb_ge _ _)) by lia. rewrite Hnum. cbn [mbind result_bind].
  assert (Eoff : u32 (u64 (Z.of_nat (length (block_bytes lay rs)) - u64 (u32 (1 + Z.of_nat (length rs)) * 4))) = Z.of_nat (length (entries_bytes lay))).
  { rewrite Hl. unfold u32, u64, u64_modulus. rewrite (Z.mod_small (1 + Z.of_nat (length rs))) by lia. rewrite (Z.mod_small ((1 + Z.of_nat (length rs)) * 4)) by lia.
    rewrite (Z.mod_small _ (2 ^ 64)) by lia. rewrite Z.mod_small by lia. lia. }
  rewrite Eoff, (proj2 (Z.ltb_ge _ _)) by lia. eexists. split; [done|]. split; [done|]. unfold NewIterator. cbn [size_ data_ restart_offset_].
  rewrite (proj2 (Z.ltb_ge _ _)) by lia. rewrite Hnum. cbn [mbind result_bind]. by rewrite (proj2 (Z.eqb_neq _ _)) by lia.
Qed.

(** Blocks hold what was added.  For entries in strictly increasing order of keys, any
    restart interval and a block below 2 GB, the iterator over the finished block moves
    over exactly these entries: [SeekToFirst] and [SeekToLast] stand at the ends, [Seek] at
    the first key that is not less than the target, [Next] and [Prev] move by one and are
    invalid behind the ends; no call faults, runs out of steps or reports corruption. *)
Theorem block_roundtrip c ok ord interval es :
  ComparatorSpec c ok ord -> 1 <= interval -> Forall (fun kv => ok kv.1) es ->
  Forall (fun kv => Z.of_nat (length kv.1) < 2 ^ 31 /\ Z.of_nat (length kv.2) < 2 ^ 31) es ->
  StronglySorted (fun x y => ord x.1 y.1 < 0) es -> Z.of_nat (length (Finish (build interval es))) < 2 ^ 31 ->
  let data := Finish (build interval es) in
  exists b restarts num (at_ : Iter -> nat -> Prop), Block_new data = Ok b /\ NewIterator b = Ok (inr (restarts, num)) /\
    (forall it i, at_ it i -> corrupted it = false /\
       match es !! i with
       | Some (k, v) => Valid restarts it = true /\ key_ it = k /\ value data it = Ok v
       | None => Valid restarts it = false
       end) /\
    (forall it, corrupted it = false ->
       (exists it', SeekToFirst data restarts num it = Ok it' /\ at_ it' 0%nat) /\
       (exists it', SeekToLast data restarts num it = Ok it' /\ at_ it' (length es - 1)%nat) /\
       (forall target, ok target -> exists it' t, Seek c data restarts num target it = Ok it' /\ at_ it' t /\ (t <= length es)%nat /\
          (forall m k v, (m < t)%nat -> es !! m = Some (k, v) -> ord k target < 0) /\ (forall k v, es !! t = Some (k, v) -> 0 <= ord k target))) /\
    (forall it i, at_ it i -> (i < length es)%nat ->
       (exists it', Next data restarts num it = Ok it' /\ at_ it' (S i)) /\
       (exists it', Prev data restarts num it = Ok it' /\ at_ it' (match i with O => length es | S i => i end))).
Proof.
  intros Hc Hint Hk Hes Hsort Hsize. cbv zeta. destruct (build_built interval es Hint Hes) as (lay & rs & Hb & <-).
  destruct (Finish_built _ lay rs Hb Hsize) as [-> Hok]. destruct (Block_new_ok lay rs Hok) as (b & Eb & _ & Ei).
  exists b, (Z.of_nat (length (entries_bytes lay))), (Z.of_nat (length rs)), (stands lay rs). split; [done|]. split; [done|]. rewrite length_fmap.
  assert (Hlk : forall i k v, ((fun e => (e_key e, e_value e)) <$> lay) !! i = Some (k, v) -> exists e, lay !! i = Some e /\ e_key e = k /\ e_value e = v).
  { intros i k v (e & [= -> ->] & He)%list_lookup_fmap_Some_1. by exists e. }
  split; [|split].
  - intros it i Hst. pose proof Hst as [Hcor Hs]. split; [done|]. rewrite list_lookup_fmap. destruct (lay !! i) as [e|] eqn:Ei'; cbn [fmap option_fmap option_map].
    + destruct Hs as (Hcur & Hkey & _). split; [|split; [done|by apply (value_ok lay rs Hok it i e)]]. unfold Valid. rewrite Hcur. apply Z.ltb_lt.
      pose proof (lookup_lt_Some _ _ _ Ei'). pose proof (off_lt lay i (length lay)) as Hlt. rewrite off_end in Hlt. lia.
    + unfold Valid. rewrite Hs. apply Z.ltb_irrefl.
  - intros it Hcor. split; [by apply SeekToFirst_ok|]. split; [by apply SeekToLast_ok|]. intros target Htgt.
    destruct (Seek_ok lay rs Hok c ok ord (cs_compare (ord := ord))) with (target := target) (it := it)
      as (it' & t & E & Hst & Ht & Hlow & Hge); [by apply (proj1 (Forall_fmap _ _ _)) in Hk| |exact Htgt|exact Hcor|].
    { clear -Hsort. induction lay as [|e l IH]; [constructor|]. cbn in Hsort. inversion_clear Hsort as [|? ? Hs Hf]. constructor; [by apply IH|]. by apply Forall_fmap in Hf. }
    exists it', t. split_and!; [done..| |].
    + intros m k v Hm (e & He & <- & _)%Hlk. by eapply Hlow.
    + intros k v (e & He & <- & _)%Hlk. by apply Hge.
  - intros it i Hst Hi. split; [by apply Next_ok|by apply Prev_ok].
Qed.

Definition sample_entries : list (list Z * list Z) := [([97; 98], [1]); ([97; 98; 99], [2; 3]); ([98], [])].

Lemma block_roundtrip_witness :
  exists restarts num it' t, Seek BytewiseComparator (Finish (build 2 sample_entries)) restarts num [97; 98; 98] (Iter_new restarts num) = Ok it' /\
    (t <= 3)%nat /\ (forall k v, sample_entries !! t = Some (k, v) -> 0 <= Slice_compare k [97; 98; 98]).
Proof.
  destruct (block_roundtrip BytewiseComparator bytes Slice_compare 2 sample_entries) as (b & restarts & num & at_ & _ & _ & _ & Hseek & _);
    [apply _|done|repeat (apply Forall_cons_2; [repeat (apply Forall_cons_2; [done|]); apply Forall_nil_2|]); apply Forall_nil_2|repeat (apply Forall_cons_2; [done|]); apply Forall_nil_2|repeat constructor|done|].
  destruct (Hseek (Iter_new restarts num) eq_refl) as (_ & _ & Hs). destruct (Hs [97; 98; 98]) as (it' & t & E & _ & Ht & _ & Hge); [repeat (apply Forall_cons_2; [done|]); apply Forall_nil_2|].
  exists restarts, num, it', t. split; [exact E|]. split; [exact Ht|exact Hge].
Defined.

(** The test of the constructor is on 32 bits: with [2 ^ 31] restart points in eight bytes
    it passes, and the iterator reads far outside. *)
Example restart_count_unchecked :
  let data := [0; 0; 0; 0; 0; 0; 0; 128] in
  exists b, Block_new data = Ok b /\ size_ b = 8 /\ NewIterator b = Ok (inr (4, 2 ^ 31)) /\
    SeekToLast data 4 (2 ^ 31) (Iter_new 4 (2 ^ 31)) = Fault OutOfBounds.
Proof. eexists. split; [reflexivity|]. split; [reflexivity|]. split; reflexivity. Qed.

(** The lengths of an entry are added on 32 bits: a value of [2 ^ 32 - 1] bytes and a key of
    one byte pass the test. *)
Example entry_lengths_wrap :
  let data := [0; 1; 255; 255; 255; 255; 15; 65] ++ EncodeFixed32 0 ++ EncodeFixed32 1 in
  exists it, SeekToFirst data 8 1 (Iter_new 8 1) = Ok it /\ Valid 8 it = true /\ corrupted it = false /\ key_ it = [65] /\ value data it = Fault OutOfBounds.
Proof. eexists. split; [reflexivity|]. split; [reflexivity|]. split; [reflexivity|]. split; reflexivity. Qed.
