(* ===== verification/Iterators.v ===== *)
(** * Iterators

    The interface of include/leveldb/iterator.h as a record of operations over a state,
    what an iterator over a sorted sequence of entries promises ([IteratorSpec]), the
    empty iterator of table/iterator.cc and the caching wrapper of
    table/iterator_wrapper.h.  Registered clean-up functions only free memory and are
    left out. *)

From Stdlib Require Import Sorted.
From S2P Require Import Prelude Coding CRC32C TXMemStore InternalKey.

Record Iterator (S : Type) := mkIterator {
  it_Valid : S -> bool;
  it_key : S -> result (list Z);
  it_value : S -> result (list Z);
  it_status : S -> result Status;
  it_Seek : list Z -> S -> result S;
  it_SeekToFirst : S -> result S;
  it_SeekToLast : S -> result S;
  it_Next : S -> result S;
  it_Prev : S -> result S }.
Arguments it_Valid {S}. Arguments it_key {S}. Arguments it_value {S}. Arguments it_status {S}. Arguments it_Seek {S}.
Arguments it_SeekToFirst {S}. Arguments it_SeekToLast {S}. Arguments it_Next {S}. Arguments it_Prev {S}.

Abbreviation entries := (list (list Z * list Z)) (only parsing).

(** The first entry that is not less than [target] is the one at [t]. *)
Definition seeks (ord : list Z -> list Z -> Z) (es : entries) (target : list Z) (t : nat) : Prop :=
  (t <= length es)%nat /\ (forall m k v, (m < t)%nat -> es !! m = Some (k, v) -> ord k target < 0) /\
  (forall k v, es !! t = Some (k, v) -> 0 <= ord k target).

(** An iterator over [es]: [at_ s i] says that it stands at entry [i] (behind the last
    one when there is none), [ready s] that it may be positioned; [ok] are the targets
    that may be sought. *)
Class IteratorSpec {S} (I : Iterator S) (ok : list Z -> Prop) (ord : list Z -> list Z -> Z) (es : entries)
    (ready : S -> Prop) (at_ : S -> nat -> Prop) : Prop := {
  is_ready s i : at_ s i -> ready s;
  is_status s : ready s -> it_status I s = Ok StOK;
  is_entry s i : at_ s i ->
    match es !! i with
    | Some (k, v) => it_Valid I s = true /\ it_key I s = Ok k /\ it_value I s = Ok v
    | None => it_Valid I s = false
    end;
  is_first s : ready s -> exists s', it_SeekToFirst I s = Ok s' /\ at_ s' 0%nat;
  is_last s : ready s -> exists s', it_SeekToLast I s = Ok s' /\ at_ s' (length es - 1)%nat;
  is_seek s target : ready s -> ok target -> exists s' t, it_Seek I target s = Ok s' /\ at_ s' t /\ seeks ord es target t;
  is_next s i : at_ s i -> (i < length es)%nat -> exists s', it_Next I s = Ok s' /\ at_ s' (Datatypes.S i);
  is_prev s i : at_ s i -> (i < length es)%nat ->
    exists s', it_Prev I s = Ok s' /\ at_ s' (match i with O => length es | Datatypes.S i => i end) }.

(** The directions in which merger.cc and db_iter.cc move. *)
Inductive Direction := kForward | kReverse.

(** ** EmptyIterator *)

(** [NewEmptyIterator] and [NewErrorIterator]; the state is the status. *)
Definition EmptyIterator : Iterator Status :=
  mkIterator _ (fun _ => false) (fun _ => Ok []) (fun _ => Ok []) (fun s => Ok s)
    (fun _ s => Ok s) (fun s => Ok s) (fun s => Ok s) (fun s => Ok s) (fun s => Ok s).

(** ** IteratorWrapper *)

Record Wrapper (S : Type) := mkWrapper { w_iter : option S; w_valid : bool; w_key : list Z }.
Arguments mkWrapper {S}. Arguments w_iter {S}. Arguments w_valid {S}. Arguments w_key {S}.

Section wrapper.
Context {S : Type} (I : Iterator S).

Definition Wrapper_new : Wrapper S := mkWrapper None false [].

Definition Update (s : S) (w : Wrapper S) : result (Wrapper S) :=
  if it_Valid I s then k ← it_key I s; Ok (mkWrapper (Some s) true k) else Ok (mkWrapper (Some s) false (w_key w)).

Definition Wrapper_Set (iter : option S) (w : Wrapper S) : result (Wrapper S) :=
  match iter with None => Ok (mkWrapper None false (w_key w)) | Some s => Update s w end.

Definition wrapped (f : S -> result S) (w : Wrapper S) : result (Wrapper S) :=
  s ← from_opt NullDeref (w_iter w); s ← f s; Update s w.

Definition WrapperIterator : Iterator (Wrapper S) :=
  mkIterator _ w_valid (fun w => Ok (w_key w)) (fun w => s ← from_opt NullDeref (w_iter w); it_value I s)
    (fun w => s ← from_opt NullDeref (w_iter w); it_status I s)
    (fun k => wrapped (it_Seek I k)) (wrapped (it_SeekToFirst I)) (wrapped (it_SeekToLast I))
    (wrapped (it_Next I)) (wrapped (it_Prev I)).

(** The wrapper answers as the iterator in it does. *)
Context {ok : list Z -> Prop} {ord : list Z -> list Z -> Z} {es : entries} {ready : S -> Prop} {at_ : S -> nat -> Prop}.
Context `{Hi : !IteratorSpec I ok ord es ready at_}.

Definition w_ready (w : Wrapper S) : Prop := exists s, w_iter w = Some s /\ ready s.

Definition w_at (w : Wrapper S) (i : nat) : Prop :=
  exists s, w_iter w = Some s /\ at_ s i /\ w_valid w = it_Valid I s /\ match es !! i with Some (k, _) => w_key w = k | None => True end.

Lemma Update_at s i w : at_ s i -> exists w', Update s w = Ok w' /\ w_at w' i.
Proof using Hi.
  intros Ha. unfold Update. pose proof (is_entry s i Ha) as He. destruct (es !! i) as [[k v]|] eqn:E.
  - destruct He as (Hv & Hk & _). rewrite Hv, Hk. eexists. split; [done|]. exists s. rewrite E. by cbn.
  - rewrite He. eexists. split; [done|]. exists s. rewrite E. by cbn.
Qed.

Lemma wrapped_at f s s' i w : w_iter w = Some s -> f s = Ok s' -> at_ s' i -> exists w', wrapped f w = Ok w' /\ w_at w' i.
Proof using Hi. intros Ew Ef Ha. unfold wrapped. rewrite Ew. cbn [from_opt mbind result_bind]. rewrite Ef. cbn [mbind result_bind]. by apply Update_at. Qed.

#[export] Instance Wrapper_spec : IteratorSpec WrapperIterator ok ord es w_ready w_at.
Proof using Hi.
  split; cbn [it_Valid it_key it_value it_status it_Seek it_SeekToFirst it_SeekToLast it_Next it_Prev WrapperIterator].
  - intros w i (s & Ew & Ha & _). exists s. split; [done|by eapply is_ready].
  - intros w (s & -> & Hr). cbn. by apply is_status.
  - intros w i (s & Ew & Ha & Hv & Hk). pose proof (is_entry s i Ha) as He. rewrite Hv. destruct (es !! i) as [[k v]|]; [|done].
    destruct He as (-> & _ & Hval). rewrite Hk, Ew. by cbn.
  - intros w (s & Ew & Hr). destruct (is_first s Hr) as (s' & E & Ha). by eapply wrapped_at.
  - intros w (s & Ew & Hr). destruct (is_last s Hr) as (s' & E & Ha). by eapply wrapped_at.
  - intros w target (s & Ew & Hr) Ht. destruct (is_seek s target Hr Ht) as (s' & t & E & Ha & Hs).
    destruct (wrapped_at (it_Seek I target) s s' t w Ew E Ha) as (w' & E' & Hw'). by exists w', t.
  - intros w i (s & Ew & Ha & _) Hlt. destruct (is_next s i Ha Hlt) as (s' & E & Ha'). by eapply wrapped_at.
  - intros w i (s & Ew & Ha & _) Hlt. destruct (is_prev s i Ha Hlt) as (s' & E & Ha'). by eapply wrapped_at.
Qed.

End wrapper.

(** ** A list as an iterator

    The position is the state; it shows that the contract can be kept. *)

Section list_iterator.
Context (ord : list Z -> list Z -> Z) (es : entries).

Fixpoint first_from (target : list Z) (l : entries) : nat :=
  match l with (k, _) :: l => if ord k target <? 0 then S (first_from target l) else O | [] => O end.

Definition ListIterator : Iterator nat :=
  mkIterator _ (fun i => (i <? length es)%nat) (fun i => Ok (default [] (fst <$> es !! i))) (fun i => Ok (default [] (snd <$> es !! i)))
    (fun _ => Ok StOK) (fun target _ => Ok (first_from target es)) (fun _ => Ok O) (fun _ => Ok (length es - 1)%nat)
    (fun i => Ok (S i)) (fun i => Ok (match i with O => length es | S i => i end)).

Lemma first_from_seeks target l : StronglySorted (fun x y => ord x.1 y.1 < 0) l -> seeks ord l target (first_from target l).
Proof.
  unfold seeks. induction 1 as [|[k v] l Hs IH Hk]; cbn [first_from length]; [split_and!; [lia|done|done]|]. destruct (Z.ltb_spec (ord k target) 0) as [Hlt|Hge].
  - destruct IH as (H1 & H2 & H3). split_and!; [lia| |done]. intros [|m] k' v' Hm E; cbn in E; [by injection E as <- <-|]. apply (H2 m k' v'); [lia|done].
  - split_and!; [lia|lia|]. intros k' v' E. by injection E as <- <-.
Qed.

#[export] Instance ListIterator_spec (ok : list Z -> Prop) : StronglySorted (fun x y => ord x.1 y.1 < 0) es ->
  IteratorSpec ListIterator ok ord es (fun _ => True) eq.
Proof.
  intros Hs. split; cbn [it_Valid it_key it_value it_status it_Seek it_SeekToFirst it_SeekToLast it_Next it_Prev ListIterator]; try done.
  - intros s i <-. destruct (es !! s) as [[k v]|] eqn:E; [|apply Nat.ltb_ge; by apply lookup_ge_None in E].
    split; [|done]. apply Nat.ltb_lt. by eapply lookup_lt_Some.
  - intros s _. by eexists.
  - intros s _. by eexists.
  - intros s target _ _. exists (first_from target es), (first_from target es). split; [done|]. split; [done|]. by apply first_from_seeks.
  - intros s i -> Hlt. by eexists.
  - intros s i -> Hlt. by eexists.
Qed.

End list_iterator.
