(* ===== verification/TwoLevel.v ===== *)
(** * Two-level iterators

    table/two_level_iterator.cc: an index iterator whose values are handles of blocks, a
    function that opens a block, and the iterator that goes through all blocks.  It is
    proved for any iterators that keep the contract of [Iterators]. *)

From Stdlib Require Import Sorted.
From S2P Require Import Prelude Coding CRC32C TXMemStore InternalKey Iterators.

Record TwoLevelState (S1 S2 : Type) := mkTL {
  status_ : Status;
  index_iter_ : Wrapper S1;
  data_iter_ : Wrapper S2;
  data_block_handle_ : list Z }.
Arguments mkTL {S1 S2}. Arguments status_ {S1 S2}. Arguments index_iter_ {S1 S2}. Arguments data_iter_ {S1 S2}.
Arguments data_block_handle_ {S1 S2}.

Section model.
Context {S1 S2 : Type} (I1 : Iterator S1) (I2 : Iterator S2) (block_function_ : list Z -> result S2).

#[local] Abbreviation TwoLevel := (TwoLevelState S1 S2).

Definition set_index (w : Wrapper S1) (t : TwoLevel) : TwoLevel := mkTL (status_ t) w (data_iter_ t) (data_block_handle_ t).
Definition set_data (w : Wrapper S2) (t : TwoLevel) : TwoLevel := mkTL (status_ t) (index_iter_ t) w (data_block_handle_ t).

Definition TwoLevel_new (index_iter : S1) : result TwoLevel :=
  w ← Wrapper_Set I1 (Some index_iter) Wrapper_new; Ok (mkTL StOK w Wrapper_new []).

Definition SaveError (s : Status) (t : TwoLevel) : TwoLevel :=
  if status_ok (status_ t) && negb (status_ok s) then mkTL s (index_iter_ t) (data_iter_ t) (data_block_handle_ t) else t.

Definition SetDataIterator (data_iter : option S2) (t : TwoLevel) : result TwoLevel :=
  t ← (match w_iter (data_iter_ t) with Some d => s ← it_status I2 d; Ok (SaveError s t) | None => Ok t end);
  w ← Wrapper_Set I2 data_iter (data_iter_ t);
  Ok (set_data w t).

Definition InitDataBlock (t : TwoLevel) : result TwoLevel :=
  if negb (w_valid (index_iter_ t)) then SetDataIterator None t
  else
    handle ← it_value (WrapperIterator I1) (index_iter_ t);
    if match w_iter (data_iter_ t) with Some _ => Slice_compare handle (data_block_handle_ t) =? 0 | None => false end then Ok t
    else
      iter ← block_function_ handle;
      SetDataIterator (Some iter) (mkTL (status_ t) (index_iter_ t) (data_iter_ t) handle).

(** [if (data_iter_.iter() != NULL) data_iter_.f()] *)
Definition move_data (f : Wrapper S2 -> result (Wrapper S2)) (t : TwoLevel) : result TwoLevel :=
  match w_iter (data_iter_ t) with Some _ => w ← f (data_iter_ t); Ok (set_data w t) | None => Ok t end.

(** The two loops that skip empty blocks; [moving] steps the index, [entering] positions
    in the block. *)
Fixpoint SkipEmpty (fuel : nat) (moving : Wrapper S1 -> result (Wrapper S1)) (entering : Wrapper S2 -> result (Wrapper S2))
    (t : TwoLevel) : result TwoLevel :=
  match fuel with
  | O => Fault OutOfFuel
  | S fuel =>
      if match w_iter (data_iter_ t) with Some _ => negb (w_valid (data_iter_ t)) | None => true end then
        if negb (w_valid (index_iter_ t)) then SetDataIterator None t
        else
          w ← moving (index_iter_ t);
          t ← InitDataBlock (set_index w t);
          t ← move_data entering t;
          SkipEmpty fuel moving entering t
      else Ok t
  end.

(** More than the number of blocks. *)
Context (fuel : nat).

Definition SkipEmptyDataBlocksForward : TwoLevel -> result TwoLevel :=
  SkipEmpty fuel (it_Next (WrapperIterator I1)) (it_SeekToFirst (WrapperIterator I2)).

Definition SkipEmptyDataBlocksBackward : TwoLevel -> result TwoLevel :=
  SkipEmpty fuel (it_Prev (WrapperIterator I1)) (it_SeekToLast (WrapperIterator I2)).

Definition TL_Seek (target : list Z) (t : TwoLevel) : result TwoLevel :=
  w ← it_Seek (WrapperIterator I1) target (index_iter_ t);
  t ← InitDataBlock (set_index w t);
  t ← move_data (it_Seek (WrapperIterator I2) target) t;
  SkipEmptyDataBlocksForward t.

Definition TL_SeekToFirst (t : TwoLevel) : result TwoLevel :=
  w ← it_SeekToFirst (WrapperIterator I1) (index_iter_ t);
  t ← InitDataBlock (set_index w t);
  t ← move_data (it_SeekToFirst (WrapperIterator I2)) t;
  SkipEmptyDataBlocksForward t.

Definition TL_SeekToLast (t : TwoLevel) : result TwoLevel :=
  w ← it_SeekToLast (WrapperIterator I1) (index_iter_ t);
  t ← InitDataBlock (set_index w t);
  t ← move_data (it_SeekToLast (WrapperIterator I2)) t;
  SkipEmptyDataBlocksBackward t.

Definition TL_Next (t : TwoLevel) : result TwoLevel :=
  w ← it_Next (WrapperIterator I2) (data_iter_ t); SkipEmptyDataBlocksForward (set_data w t).

Definition TL_Prev (t : TwoLevel) : result TwoLevel :=
  w ← it_Prev (WrapperIterator I2) (data_iter_ t); SkipEmptyDataBlocksBackward (set_data w t).

Definition TL_status (t : TwoLevel) : result Status :=
  s ← it_status (WrapperIterator I1) (index_iter_ t);
  if negb (status_ok s) then Ok s
  else
    match w_iter (data_iter_ t) with
    | Some _ => s ← it_status (WrapperIterator I2) (data_iter_ t); Ok (if negb (status_ok s) then s else status_ t)
    | None => Ok (status_ t)
    end.

Definition TwoLevelIterator : Iterator TwoLevel :=
  mkIterator _ (fun t => w_valid (data_iter_ t)) (fun t => it_key (WrapperIterator I2) (data_iter_ t))
    (fun t => it_value (WrapperIterator I2) (data_iter_ t)) TL_status TL_Seek TL_SeekToFirst TL_SeekToLast TL_Next TL_Prev.

End model.

(** ** Going through all blocks *)

Section proofs.
Context {S1 S2 : Type} (I1 : Iterator S1) (I2 : Iterator S2) (block_function_ : list Z -> result S2) (fuel : nat).
Context (ok : list Z -> Prop) (ord : list Z -> list Z -> Z) `{Ho : !CompareOrder ord}.
Context (idx : list (list Z * list Z)) (ready1 : S1 -> Prop) (at1 : S1 -> nat -> Prop).
Context `{H1 : !IteratorSpec I1 ok ord idx ready1 at1}.

#[local] Abbreviation TwoLevel := (TwoLevelState S1 S2).

(** The entries of the block of a handle, and its iterators. *)
Context (content : list Z -> list (list Z * list Z)) (ready2 : list Z -> S2 -> Prop) (at2 : list Z -> S2 -> nat -> Prop).
Context (H2 : forall h, h ∈ idx.*2 -> IteratorSpec I2 ok ord (content h) (ready2 h) (at2 h)).
Context (Hopen : forall h, h ∈ idx.*2 -> exists s, block_function_ h = Ok s /\ ready2 h s /\ it_Valid I2 s = false).

(** The key of a block separates it from the blocks behind it. *)
Context (Hlow : forall j sep h k v, idx !! j = Some (sep, h) -> (k, v) ∈ content h -> ord k sep <= 0).
Context (Hhigh : forall j j' sep h sep' h' k v, (j < j')%nat -> idx !! j = Some (sep, h) -> idx !! j' = Some (sep', h') ->
  (k, v) ∈ content h' -> ord sep k < 0).

Definition all_entries : list (list Z * list Z) := concat (map content idx.*2).

(** Where block [j] begins. *)
Definition start (j : nat) : nat := length (concat (map content (take j idx.*2))).

(** The position before [p]. *)
Definition before (p : nat) : nat := match p with O => length all_entries | S p => p end.

#[local] Abbreviation at_index := (w_at I1 (es := idx) (at_ := at1)).
#[local] Abbreviation at_data h := (w_at I2 (es := content h) (at_ := at2 h)).

Definition data_ready (t : TwoLevel) : Prop :=
  w_iter (data_iter_ t) = None \/ (data_block_handle_ t ∈ idx.*2 /\ w_ready (ready := ready2 (data_block_handle_ t)) (data_iter_ t)).

Definition tl_ready (t : TwoLevel) : Prop := status_ t = StOK /\ w_ready (ready := ready1) (index_iter_ t) /\ data_ready t.

(** In block [j], which is open. *)
Definition in_block (t : TwoLevel) (j : nat) (h : list Z) : Prop :=
  status_ t = StOK /\ (exists sep, idx !! j = Some (sep, h)) /\ at_index (index_iter_ t) j /\ data_block_handle_ t = h.

Definition tl_at (t : TwoLevel) (p : nat) : Prop :=
  (exists j h i, in_block t j h /\ at_data h (data_iter_ t) i /\ (i < length (content h))%nat /\ p = (start j + i)%nat) \/
  (tl_ready t /\ w_iter (data_iter_ t) = None /\ w_valid (data_iter_ t) = false /\ p = length all_entries).

Lemma handle_in j sep h : idx !! j = Some (sep, h) -> h ∈ idx.*2.
Proof. intros E. apply list_elem_of_fmap. exists (sep, h). split; [done|]. by eapply list_elem_of_lookup_2. Qed.

Lemma start_S j sep h : idx !! j = Some (sep, h) -> start (S j) = (start j + length (content h))%nat.
Proof.
  intros E. unfold start. assert (Eh : idx.*2 !! j = Some h) by (by rewrite list_lookup_fmap, E).
  rewrite (take_S_r _ _ _ Eh), map_app, concat_app, length_app. cbn. by rewrite app_nil_r.
Qed.

Lemma start_mono j j' : (j <= j')%nat -> (start j <= start j')%nat.
Proof.
  intros Hj. unfold start. replace j' with (j + (j' - j))%nat by lia. generalize (j' - j)%nat as n. intros n.
  rewrite <- (take_take_drop (idx.*2) j n), map_app, concat_app, length_app. lia.
Qed.

Lemma start_end : start (length idx) = length all_entries.
Proof. unfold start, all_entries. by rewrite take_ge by (by rewrite length_fmap). Qed.

Lemma lookup_all j sep h i : idx !! j = Some (sep, h) -> (i < length (content h))%nat -> all_entries !! (start j + i)%nat = content h !! i.
Proof.
  intros E Hi. unfold all_entries, start. assert (Eh : idx.*2 !! j = Some h) by (by rewrite list_lookup_fmap, E).
  assert (Ea : concat (map content idx.*2) = concat (map content (take j idx.*2)) ++ content h ++ concat (map content (drop (S j) idx.*2))).
  { rewrite <- (take_drop_middle _ _ _ Eh) at 1. by rewrite map_app, concat_app. }
  rewrite Ea, lookup_app_r by lia. rewrite lookup_app_l by lia. f_equal. lia.
Qed.

(** Every entry is in a block. *)
Lemma find_block p kv : all_entries !! p = Some kv -> exists j sep h i, idx !! j = Some (sep, h) /\ content h !! i = Some kv /\ p = (start j + i)%nat.
Proof.
  intros Hp. assert (Hgo : forall n, (n <= length idx)%nat -> (start n <= p)%nat \/ exists j sep h i, idx !! j = Some (sep, h) /\ (i < length (content h))%nat /\ p = (start j + i)%nat).
  { induction n as [|n IH]; intros Hn; [left; apply Nat.le_0_l|]. destruct (IH ltac:(lia)) as [Hle|?]; [|by right].
    destruct (lookup_lt_is_Some_2 idx n ltac:(lia)) as [[sep h] E]. rewrite (start_S _ _ _ E).
    destruct (le_lt_dec (start n + length (content h)) p); [by left|]. right. exists n, sep, h, (p - start n)%nat. split_and!; [done|lia|lia]. }
  destruct (Hgo (length idx) (le_n _)) as [Hle|(j & sep & h & i & E & Hi & ->)].
  - rewrite start_end in Hle. apply lookup_lt_Some in Hp. lia.
  - exists j, sep, h, i. split; [done|]. split; [|done]. by rewrite <- (lookup_all j sep h i E Hi).
Qed.

(** *** Opening and leaving blocks *)

Lemma SaveError_ok (t : TwoLevel) : SaveError StOK t = t.
Proof. unfold SaveError. by rewrite andb_false_r. Qed.

Lemma clear_data t : status_ t = StOK -> data_ready t ->
  SetDataIterator I2 None t = Ok (mkTL StOK (index_iter_ t) (mkWrapper None false (w_key (data_iter_ t))) (data_block_handle_ t)).
Proof using H2.
  intros Hs Hd. unfold SetDataIterator. destruct Hd as [->|[Hin (d & -> & Hr)]]; cbn [mbind result_bind Wrapper_Set].
  - unfold set_data. by rewrite Hs.
  - rewrite (is_status (IteratorSpec := H2 _ Hin) d Hr). cbn [mbind result_bind]. rewrite SaveError_ok. unfold set_data. by rewrite Hs.
Qed.

Lemma init_open t j sep h : status_ t = StOK -> data_ready t -> idx !! j = Some (sep, h) -> at_index (index_iter_ t) j ->
  exists t', InitDataBlock I1 I2 block_function_ t = Ok t' /\ in_block t' j h /\ w_ready (ready := ready2 h) (data_iter_ t').
Proof using H1 H2 Hopen.
  intros Hs Hd Ej Hat. pose proof (handle_in _ _ _ Ej) as Hin. unfold InitDataBlock.
  pose proof (is_entry (IteratorSpec := Wrapper_spec I1) _ _ Hat) as He. rewrite Ej in He. destruct He as (Hv & _ & Hval). cbn [it_Valid WrapperIterator] in Hv.
  rewrite Hv, Hval. cbn [negb mbind result_bind]. case_match eqn:Ec.
  - destruct Hd as [Hn|[Hin' Hr]]; [by rewrite Hn in Ec|]. destruct (w_iter (data_iter_ t)) as [d|] eqn:Ed; [|done].
    apply Z.eqb_eq in Ec. rewrite Slice_compare_lex in Ec. apply lex_eq in Ec. subst h. exists t. split; [done|]. split; [|done].
    split_and!; [done|by exists sep|done|done].
  - destruct (Hopen h Hin) as (s & -> & Hr & Hnv). cbn [mbind result_bind]. unfold SetDataIterator. cbn [data_iter_ Wrapper_Set].
    assert (Hu : Update I2 s (data_iter_ t) = Ok (mkWrapper (Some s) false (w_key (data_iter_ t)))) by (unfold Update; by rewrite Hnv).
    assert (Hin_block : forall w, in_block (mkTL StOK (index_iter_ t) w h) j h) by (intros w; split_and!; [done|by exists sep|done|done]).
    assert (Hready : w_ready (ready := ready2 h) (mkWrapper (Some s) false (w_key (data_iter_ t)))) by (by exists s).
    destruct Hd as [Hn|[Hin' (d & Ed & Hrd)]].
    + rewrite Hn. cbn [mbind result_bind data_iter_]. rewrite Hu. cbn [mbind result_bind]. eexists. split; [done|]. unfold set_data. cbn. by rewrite Hs.
    + rewrite Ed, (is_status (IteratorSpec := H2 _ Hin') d Hrd). cbn [mbind result_bind]. rewrite SaveError_ok. cbn [data_iter_]. rewrite Hu. cbn [mbind result_bind]. eexists. split; [done|]. unfold set_data. cbn. by rewrite Hs.
Qed.

Lemma init_end t : tl_ready t -> w_valid (index_iter_ t) = false ->
  exists t', InitDataBlock I1 I2 block_function_ t = Ok t' /\ tl_at t' (length all_entries) /\ w_iter (data_iter_ t') = None /\ index_iter_ t' = index_iter_ t.
Proof using H2.
  intros (Hs & Hi & Hd) Hv. unfold InitDataBlock. rewrite Hv. cbn [negb]. rewrite (clear_data t Hs Hd). eexists. split; [done|].
  split; [|done]. right. split_and!; [|done..]. split_and!; [done..|by left].
Qed.

Lemma index_ready w j : at_index w j -> w_ready (ready := ready1) w.
Proof using H1. apply (is_ready (IteratorSpec := Wrapper_spec I1)). Qed.

Lemma index_valid w j : at_index w j -> w_valid w = bool_decide (j < length idx)%nat.
Proof using H1.
  intros Hat. pose proof (is_entry (IteratorSpec := Wrapper_spec I1) _ _ Hat) as He. destruct (idx !! j) as [[sep h]|] eqn:Ej.
  - destruct He as (He & _). cbn in He. rewrite He. symmetry. by apply bool_decide_eq_true_2, (lookup_lt_Some _ _ _ Ej).
  - cbn in He. rewrite He. symmetry. apply bool_decide_eq_false_2. apply lookup_ge_None in Ej. lia.
Qed.

Lemma data_valid h w i : h ∈ idx.*2 -> at_data h w i -> w_valid w = bool_decide (i < length (content h))%nat.
Proof using H2.
  intros Hin Hat. pose proof (is_entry (IteratorSpec := Wrapper_spec I2 (Hi := H2 h Hin)) _ _ Hat) as He. destruct (content h !! i) as [[k v]|] eqn:Ej.
  - destruct He as (He & _). cbn in He. rewrite He. symmetry. by apply bool_decide_eq_true_2, (lookup_lt_Some _ _ _ Ej).
  - cbn in He. rewrite He. symmetry. apply bool_decide_eq_false_2. apply lookup_ge_None in Ej. lia.
Qed.

Lemma in_block_data t j h w : in_block t j h -> in_block (set_data w t) j h.
Proof. by intros (? & ? & ? & ?). Qed.

Lemma in_block_ready t j h : in_block t j h -> w_ready (ready := ready2 h) (data_iter_ t) -> tl_ready t.
Proof using H1.
  intros (Hs & (sep & Ej) & Hat & Hh) Hr. split_and!; [done|by eapply index_ready|]. right. rewrite Hh. split; [by eapply handle_in|done].
Qed.

Lemma data_ready_at h w i : h ∈ idx.*2 -> at_data h w i -> w_ready (ready := ready2 h) w.
Proof using H2. intros Hin. apply (is_ready (IteratorSpec := Wrapper_spec I2 (Hi := H2 h Hin))). Qed.

(** *** Skipping empty blocks *)

#[local] Abbreviation skip_fwd n := (SkipEmpty I1 I2 block_function_ n (it_Next (WrapperIterator I1)) (it_SeekToFirst (WrapperIterator I2))).
#[local] Abbreviation skip_bwd n := (SkipEmpty I1 I2 block_function_ n (it_Prev (WrapperIterator I1)) (it_SeekToLast (WrapperIterator I2))).

Lemma skip_done n f g t : tl_ready t -> w_iter (data_iter_ t) = None -> w_valid (index_iter_ t) = false ->
  exists t', SkipEmpty I1 I2 block_function_ (S n) f g t = Ok t' /\ tl_at t' (length all_entries).
Proof using H2.
  intros (Hs & Hi & Hd) Hn Hv. cbn [SkipEmpty]. rewrite Hn, Hv. cbn [negb]. rewrite (clear_data t Hs Hd). eexists. split; [done|].
  right. split_and!; [|done..]. split_and!; [done..|by left].
Qed.

(** Behind the last block, in either direction. *)
Lemma skip_out (t : TwoLevel) w j : status_ t = StOK -> data_ready t -> at_index w j -> (length idx <= j)%nat ->
  exists t1, InitDataBlock I1 I2 block_function_ (set_index w t) = Ok t1 /\ (forall g, move_data g t1 = Ok t1) /\
    forall n f g, exists t', SkipEmpty I1 I2 block_function_ (S n) f g t1 = Ok t' /\ tl_at t' (length all_entries).
Proof using H1 H2.
  intros Hs Hd Hat Hj. assert (Hv : w_valid w = false) by (rewrite (index_valid w j Hat); apply bool_decide_eq_false_2; lia).
  destruct (init_end (set_index w t)) as (t1 & E & Hat1 & Hn & Hidx); [split_and!; [done|by eapply index_ready|done]|done|].
  exists t1. split; [done|]. split; [intros g; unfold move_data; by rewrite Hn|]. intros n f g. apply skip_done; [|done|by rewrite Hidx].
  destruct Hat1 as [(j' & h & i & _ & (d & Hd' & _) & _)|(Hr & _)]; [congruence|done].
Qed.

(** Stepping into block [j] and positioning in it with [g]. *)
Lemma step_in g (t : TwoLevel) w j sep h i : status_ t = StOK -> data_ready t -> at_index w j -> idx !! j = Some (sep, h) ->
  (forall d, w_ready (ready := ready2 h) d -> exists d', g d = Ok d' /\ at_data h d' i) ->
  exists t1 t2, InitDataBlock I1 I2 block_function_ (set_index w t) = Ok t1 /\ move_data g t1 = Ok t2 /\ in_block t2 j h /\ at_data h (data_iter_ t2) i.
Proof using H1 H2 Hopen.
  intros Hs Hd Hat Ej Hg. destruct (init_open (set_index w t) j sep h) as (t1 & E & Hb & Hr); [done..|].
  destruct (Hg _ Hr) as (d' & Eg & Hd'). destruct Hr as (d & Ed & _). exists t1, (set_data d' t1). split; [done|].
  split; [unfold move_data; rewrite Ed, Eg; done|]. split; [by apply in_block_data|done].
Qed.

Lemma data_step t j h i : in_block t j h -> at_data h (data_iter_ t) i -> data_ready t.
Proof using H2.
  intros (Hs & (sep & Ej) & Hat & Hh) Hd. right. rewrite Hh. pose proof (handle_in _ _ _ Ej). split; [done|by eapply data_ready_at].
Qed.

Lemma skip_forward n : forall t j h i, in_block t j h -> at_data h (data_iter_ t) i -> (i <= length (content h))%nat -> (length idx - j < n)%nat ->
  exists t', skip_fwd n t = Ok t' /\ tl_at t' (start j + i).
Proof using H1 H2 Hopen.
  induction n as [|n IH]; intros t j h i Hb Hd Hi Hn; [lia|]. pose proof Hb as (Hs & (sep & Ej) & Hat & Hh). pose proof (handle_in _ _ _ Ej) as Hin.
  pose proof (lookup_lt_Some _ _ _ Ej) as Hj. cbn [SkipEmpty]. pose proof Hd as (d & Ed & _). rewrite Ed, (data_valid h _ i Hin Hd).
  destruct (decide (i < length (content h))%nat) as [Hlt|Hge].
  { rewrite bool_decide_eq_true_2 by done. cbn [negb]. exists t. split; [done|]. left. by exists j, h, i. }
  rewrite bool_decide_eq_false_2 by done. cbn [negb]. rewrite (index_valid _ j Hat), bool_decide_eq_true_2 by done. cbn [negb].
  destruct (is_next (IteratorSpec := Wrapper_spec I1) _ _ Hat Hj) as (w & Ew & Hw). rewrite Ew. cbn [mbind result_bind].
  assert (Est : (start j + i)%nat = start (S j)) by (rewrite (start_S _ _ _ Ej); lia). rewrite Est.
  pose proof (data_step t j h i Hb Hd) as Hdr. destruct (idx !! S j) as [[sep' h']|] eqn:Ej'.
  - destruct (step_in (it_SeekToFirst (WrapperIterator I2)) t w (S j) sep' h' 0 Hs Hdr Hw Ej') as (t1 & t2 & E1 & E2 & Hb2 & Hd2).
    { intros d' Hr'. apply (is_first (IteratorSpec := Wrapper_spec I2 (Hi := H2 h' (handle_in _ _ _ Ej'))) d' Hr'). }
    rewrite E1. cbn [mbind result_bind]. rewrite E2. cbn [mbind result_bind]. rewrite <- (Nat.add_0_r (start (S j))). apply IH with (h := h'); [done|done|lia|].
    apply lookup_lt_Some in Ej'. lia.
  - apply lookup_ge_None in Ej' as Hge'. destruct n as [|n]; [lia|].
    destruct (skip_out t w (S j) Hs Hdr Hw Hge') as (t1 & E1 & E2 & E3).
    destruct (E3 n (it_Next (WrapperIterator I1)) (it_SeekToFirst (WrapperIterator I2))) as (t' & E4 & Ht').
    rewrite E1. cbn [mbind result_bind]. rewrite E2. cbn [mbind result_bind]. exists t'. split; [done|].
    replace (S j) with (length idx) by lia. by rewrite start_end.
Qed.

(** Backward, [t] stands before the first entry of block [j]. *)
Lemma skip_backward n : forall t j h i, in_block t j h -> at_data h (data_iter_ t) i -> (length (content h) <= i)%nat -> (j + 1 < n)%nat ->
  exists t', skip_bwd n t = Ok t' /\ tl_at t' (before (start j)).
Proof using H1 H2 Hopen.
  induction n as [|n IH]; intros t j h i Hb Hd Hi Hn; [lia|]. pose proof Hb as (Hs & (sep & Ej) & Hat & Hh). pose proof (handle_in _ _ _ Ej) as Hin.
  pose proof (lookup_lt_Some _ _ _ Ej) as Hj. cbn [SkipEmpty]. pose proof Hd as (d & Ed & _). rewrite Ed, (data_valid h _ i Hin Hd).
  rewrite bool_decide_eq_false_2 by lia. cbn [negb]. rewrite (index_valid _ j Hat), bool_decide_eq_true_2 by done. cbn [negb].
  destruct (is_prev (IteratorSpec := Wrapper_spec I1) _ _ Hat Hj) as (w & Ew & Hw). rewrite Ew. cbn [mbind result_bind].
  pose proof (data_step t j h i Hb Hd) as Hdr. destruct j as [|j].
  - destruct n as [|n]; [lia|].
    destruct (skip_out t w (length idx) Hs Hdr Hw (le_n _)) as (t1 & E1 & E2 & E3).
    destruct (E3 n (it_Prev (WrapperIterator I1)) (it_SeekToLast (WrapperIterator I2))) as (t' & E4 & Ht').
    rewrite E1. cbn [mbind result_bind]. rewrite E2. cbn [mbind result_bind]. by exists t'.
  - destruct (lookup_lt_is_Some_2 idx j ltac:(lia)) as [[sep' h'] Ej'].
    destruct (step_in (it_SeekToLast (WrapperIterator I2)) t w j sep' h' (length (content h') - 1) Hs Hdr Hw Ej') as (t1 & t2 & E1 & E2 & Hb2 & Hd2).
    { intros d' Hr'. apply (is_last (IteratorSpec := Wrapper_spec I2 (Hi := H2 h' (handle_in _ _ _ Ej'))) d' Hr'). }
    rewrite E1. cbn [mbind result_bind]. rewrite E2. cbn [mbind result_bind]. rewrite (start_S _ _ _ Ej').
    destruct (decide (length (content h') = 0%nat)) as [H0|Hne].
    + rewrite H0, Nat.add_0_r in *. apply (IH t2 j h' 0%nat); [done|exact Hd2|lia|lia].
    + destruct n as [|n]; [lia|]. cbn [SkipEmpty]. pose proof Hd2 as (d2 & Ed2 & _). rewrite Ed2, (data_valid h' _ _ (handle_in _ _ _ Ej') Hd2).
      rewrite bool_decide_eq_true_2 by lia. cbn [negb]. exists t2. split; [done|]. left. exists j, h', (length (content h') - 1)%nat. split_and!; [done|done|lia|].
      unfold before. destruct (start j + length (content h'))%nat eqn:E; lia.
Qed.

(** *** The operations *)

Context (Hfuel : (length idx + 1 < fuel)%nat).

Lemma tl_at_ready t p : tl_at t p -> tl_ready t.
Proof using H1 H2.
  intros [(j & h & i & Hb & Hd & _ & _)|(Hr & _)]; [|done]. pose proof Hb as (Hs & (sep & Ej) & _).
  apply (in_block_ready t j h Hb), (data_ready_at h _ i (handle_in _ _ _ Ej) Hd).
Qed.

Lemma TL_first t : tl_ready t -> exists t', TL_SeekToFirst I1 I2 block_function_ fuel t = Ok t' /\ tl_at t' 0.
Proof using H1 H2 Hopen Hfuel.
  intros (Hs & Hi & Hd). unfold TL_SeekToFirst. destruct (is_first (IteratorSpec := Wrapper_spec I1) _ Hi) as (w & -> & Hw). cbn [mbind result_bind].
  destruct (idx !! 0%nat) as [[sep h]|] eqn:E0.
  - destruct (step_in (it_SeekToFirst (WrapperIterator I2)) t w 0 sep h 0 Hs Hd Hw E0) as (t1 & t2 & E1 & E2 & Hb2 & Hd2).
    { intros d' Hr'. apply (is_first (IteratorSpec := Wrapper_spec I2 (Hi := H2 h (handle_in _ _ _ E0))) d' Hr'). }
    rewrite E1. cbn [mbind result_bind]. rewrite E2. cbn [mbind result_bind]. destruct (skip_forward fuel t2 0 h 0 Hb2 Hd2) as (t' & E3 & Ht'); [lia|lia|]. by exists t'.
  - apply lookup_ge_None in E0 as Hge. destruct fuel as [|n]; [lia|].
    destruct (skip_out t w 0 Hs Hd Hw Hge) as (t1 & E1 & E2 & E3).
    destruct (E3 n (it_Next (WrapperIterator I1)) (it_SeekToFirst (WrapperIterator I2))) as (t' & E4 & Ht').
    rewrite E1. cbn [mbind result_bind]. rewrite E2. cbn [mbind result_bind]. exists t'. split; [done|].
    rewrite <- start_end in Ht'. by replace (length idx) with 0%nat in Ht' by lia.
Qed.

Lemma TL_last t : tl_ready t -> exists t', TL_SeekToLast I1 I2 block_function_ fuel t = Ok t' /\ tl_at t' (length all_entries - 1).
Proof using H1 H2 Hopen Hfuel.
  intros (Hs & Hi & Hd). unfold TL_SeekToLast. destruct (is_last (IteratorSpec := Wrapper_spec I1) _ Hi) as (w & -> & Hw). cbn [mbind result_bind].
  destruct (idx !! (length idx - 1)%nat) as [[sep h]|] eqn:E0.
  - destruct (step_in (it_SeekToLast (WrapperIterator I2)) t w _ sep h (length (content h) - 1) Hs Hd Hw E0) as (t1 & t2 & E1 & E2 & Hb2 & Hd2).
    { intros d' Hr'. apply (is_last (IteratorSpec := Wrapper_spec I2 (Hi := H2 h (handle_in _ _ _ E0))) d' Hr'). }
    rewrite E1. cbn [mbind result_bind]. rewrite E2. cbn [mbind result_bind]. pose proof (lookup_lt_Some _ _ _ E0) as Hlt.
    assert (Hend : length all_entries = (start (length idx - 1) + length (content h))%nat)
      by (rewrite <- start_end, <- (start_S _ _ _ E0); f_equal; lia).
    destruct (decide (length (content h) = 0%nat)) as [H0|Hne].
    + destruct (skip_backward fuel t2 _ h _ Hb2 Hd2) as (t' & E3 & Ht'); [lia|lia|]. exists t'. split; [done|]. rewrite Hend, H0, Nat.add_0_r in *.
      unfold before in Ht'. destruct (start (length idx - 1)) as [|q]; [by rewrite Hend in Ht'|]. by replace (S q - 1)%nat with q by lia.
    + exists t2. unfold SkipEmptyDataBlocksBackward. destruct fuel as [|n]; [lia|]. cbn [SkipEmpty]. pose proof Hd2 as (d2 & Ed2 & _).
      rewrite Ed2, (data_valid h _ _ (handle_in _ _ _ E0) Hd2), bool_decide_eq_true_2 by lia. split; [done|]. left.
      eexists _, h, _. split; [done|]. split; [done|]. lia.
  - apply lookup_ge_None in E0 as Hge. destruct fuel as [|n]; [lia|].
    destruct (skip_out t w _ Hs Hd Hw Hge) as (t1 & E1 & E2 & E3).
    destruct (E3 n (it_Prev (WrapperIterator I1)) (it_SeekToLast (WrapperIterator I2))) as (t' & E4 & Ht').
    rewrite E1. cbn [mbind result_bind]. rewrite E2. cbn [mbind result_bind]. exists t'. split; [done|].
    assert (H0 : length all_entries = 0%nat) by (rewrite <- start_end; by replace (length idx) with 0%nat by lia). by rewrite H0 in *.
Qed.

Lemma TL_seek t target : tl_ready t -> ok target ->
  exists t' p, TL_Seek I1 I2 block_function_ fuel target t = Ok t' /\ tl_at t' p /\ seeks ord all_entries target p.
Proof using H1 H2 Hopen Hfuel Ho Hlow Hhigh.
  intros (Hs & Hi & Hd) Hok. unfold TL_Seek. destruct (is_seek (IteratorSpec := Wrapper_spec I1) _ target Hi Hok) as (w & j & -> & Hw & Hj & Hlt & Hge). cbn [mbind result_bind].
  (* entries of blocks before [j] are below the target *)
  assert (Hbelow : forall j' sep h k v, (j' < j)%nat -> idx !! j' = Some (sep, h) -> (k, v) ∈ content h -> ord k target < 0).
  { intros j' sep h k v Hj' Ej' Hin. pose proof (Hlow _ _ _ _ _ Ej' Hin). apply (co_le_lt ord _ sep); [done|]. by eapply Hlt. }
  destruct (idx !! j) as [[sep h]|] eqn:E0.
  - pose proof (handle_in _ _ _ E0) as Hin. assert (Hsep : 0 <= ord sep target) by (by eapply Hge).
    destruct (init_open (set_index w t) j sep h) as (t1 & E1 & Hb1 & Hr1); [done..|].
    destruct (is_seek (IteratorSpec := Wrapper_spec I2 (Hi := H2 h Hin)) _ target Hr1 Hok) as (d2 & i & E2 & Hd2 & Hil & Hilt & Hige).
    rewrite E1. cbn [mbind result_bind]. destruct Hr1 as (d1 & Ed1 & _). unfold move_data. rewrite Ed1, E2. cbn [mbind result_bind].
    destruct (skip_forward fuel (set_data d2 t1) j h i) as (t' & E3 & Ht'); [by apply in_block_data|done|done|lia|].
    exists t', (start j + i)%nat. split; [done|]. split; [done|]. split_and!.
    + rewrite <- start_end. apply lookup_lt_Some in E0 as Hjl. transitivity (start (S j)); [rewrite (start_S _ _ _ E0); lia|by apply start_mono].
    + intros m k v Hm Ek. destruct (find_block m (k, v) Ek) as (j' & sep' & h' & i' & E' & Ei' & ->).
      destruct (decide (j' < j)%nat) as [Hjj|Hjj]; [eapply Hbelow; [done..|by eapply list_elem_of_lookup_2]|].
      destruct (decide (j' = j)) as [->|]; [rewrite E0 in E'; injection E' as <- <-; apply (Hilt i' k v); [lia|done]|].
      pose proof (start_mono (S j) j' ltac:(lia)). rewrite (start_S _ _ _ E0) in *. lia.
    + intros k v Ek. destruct (find_block _ (k, v) Ek) as (j' & sep' & h' & i' & E' & Ei' & Ep). pose proof (lookup_lt_Some _ _ _ Ei') as Hi'.
      destruct (lt_eq_lt_dec j' j) as [[Hjj| ->]|Hjj].
      * pose proof (start_mono (S j') j ltac:(lia)) as Hm. rewrite (start_S _ _ _ E') in Hm. lia.
      * rewrite E0 in E'. injection E' as <- <-. apply (Hige k v). by replace i with i' by lia.
      * pose proof (Hhigh j j' sep h sep' h' k v Hjj E0 E' ltac:(by eapply list_elem_of_lookup_2)) as Hsk.
        destruct (Z.le_gt_cases 0 (ord k target)); [done|]. pose proof (co_trans ord sep k target Hsk ltac:(lia)). lia.
  - apply lookup_ge_None in E0 as Hge'. destruct fuel as [|n]; [lia|].
    destruct (skip_out t w j Hs Hd Hw Hge') as (t1 & E1 & E2 & E3).
    destruct (E3 n (it_Next (WrapperIterator I1)) (it_SeekToFirst (WrapperIterator I2))) as (t' & E4 & Ht').
    rewrite E1. cbn [mbind result_bind]. rewrite E2. cbn [mbind result_bind]. exists t', (length all_entries). split; [done|]. split; [done|]. split_and!; [lia| |].
    + intros m k v Hm Ek. destruct (find_block m (k, v) Ek) as (j' & sep' & h' & i' & E' & Ei' & ->).
      apply (Hbelow j' sep' h' k v); [apply lookup_lt_Some in E'; lia|done|by eapply list_elem_of_lookup_2].
    + intros k v Ek. apply lookup_lt_Some in Ek. lia.
Qed.

Lemma TL_next t p : tl_at t p -> (p < length all_entries)%nat -> exists t', TL_Next I1 I2 block_function_ fuel t = Ok t' /\ tl_at t' (S p).
Proof using H1 H2 Hopen Hfuel.
  intros [(j & h & i & Hb & Hd & Hi & ->)|(_ & _ & _ & ->)] Hp; [|lia]. pose proof Hb as (_ & (sep & Ej) & _). unfold TL_Next.
  destruct (is_next (IteratorSpec := Wrapper_spec I2 (Hi := H2 h (handle_in _ _ _ Ej))) _ i Hd Hi) as (w & -> & Hw). cbn [mbind result_bind].
  destruct (skip_forward fuel (set_data w t) j h (S i)) as (t' & E & Ht'); [by apply in_block_data|done|lia|lia|].
  exists t'. split; [done|]. by rewrite <- Nat.add_succ_r.
Qed.

Lemma TL_prev t p : tl_at t p -> (p < length all_entries)%nat -> exists t', TL_Prev I1 I2 block_function_ fuel t = Ok t' /\ tl_at t' (before p).
Proof using H1 H2 Hopen Hfuel.
  intros [(j & h & i & Hb & Hd & Hi & ->)|(_ & _ & _ & ->)] Hp; [|lia]. pose proof Hb as (_ & (sep & Ej) & _). pose proof (handle_in _ _ _ Ej) as Hin.
  pose proof (lookup_lt_Some _ _ _ Ej). unfold TL_Prev. destruct (is_prev (IteratorSpec := Wrapper_spec I2 (Hi := H2 h Hin)) _ i Hd Hi) as (w & -> & Hw). cbn [mbind result_bind].
  destruct i as [|i].
  - rewrite Nat.add_0_r. destruct (skip_backward fuel (set_data w t) j h (length (content h))) as (t' & E & Ht'); [by apply in_block_data|done|lia|lia|]. by exists t'.
  - exists (set_data w t). unfold SkipEmptyDataBlocksBackward. destruct fuel as [|n]; [lia|]. cbn [SkipEmpty]. pose proof Hw as (d & Ed & _). cbn [set_data data_iter_].
    rewrite Ed, (data_valid h _ _ Hin Hw), bool_decide_eq_true_2 by lia. split; [done|]. left. exists j, h, i. split; [by apply in_block_data|]. split; [done|].
    split; [lia|]. unfold before. destruct (start j + S i)%nat eqn:E; lia.
Qed.

#[export] Instance TwoLevel_spec : IteratorSpec (TwoLevelIterator I1 I2 block_function_ fuel) ok ord all_entries tl_ready tl_at.
Proof using H1 H2 Hopen Hfuel Ho Hlow Hhigh.
  split; cbn [it_Valid it_key it_value it_status it_Seek it_SeekToFirst it_SeekToLast it_Next it_Prev TwoLevelIterator].
  - intros s i. apply tl_at_ready.
  - intros t (Hs & Hi & Hd). unfold TL_status. rewrite (is_status (IteratorSpec := Wrapper_spec I1) _ Hi). cbn [mbind result_bind status_ok negb].
    destruct Hd as [->|[Hin Hr]]; [by rewrite Hs|]. rewrite (is_status (IteratorSpec := Wrapper_spec I2 (Hi := H2 _ Hin)) _ Hr). destruct Hr as (d & -> & _). cbn. by rewrite Hs.
  - intros t p [(j & h & i & Hb & Hd & Hi & ->)|(_ & _ & Hv & ->)]; [|by rewrite lookup_ge_None_2 by lia]. pose proof Hb as (_ & (sep & Ej) & _).
    rewrite (lookup_all j sep h i Ej Hi). pose proof (is_entry (IteratorSpec := Wrapper_spec I2 (Hi := H2 h (handle_in _ _ _ Ej))) _ _ Hd) as He.
    destruct (lookup_lt_is_Some_2 _ _ Hi) as [[k v] E]. by rewrite E in *.
  - apply TL_first.
  - apply TL_last.
  - apply TL_seek.
  - apply TL_next.
  - apply TL_prev.
Qed.

(** A new iterator over an index iterator that stands nowhere. *)
Lemma TwoLevel_new_ready s : ready1 s -> it_Valid I1 s = false -> exists t, TwoLevel_new I1 s = Ok t /\ tl_ready t /\ w_valid (data_iter_ t) = false.
Proof.
  intros Hr Hv. unfold TwoLevel_new, Wrapper_Set, Update. rewrite Hv. eexists. split; [done|]. split; [|done]. split_and!; [done|by exists s|by left].
Qed.

End proofs.
