(* ===== verification/Merger.v ===== *)
(** * Merging iterators

    table/merger.cc: an iterator over the union of the entries of its children, which
    turns round without losing or repeating an entry. *)

From Stdlib Require Import Sorted.
From S2P Require Import Prelude Coding CRC32C TXMemStore InternalKey Iterators.

(** [current_] is the index of a child. *)
Record Merging (S : Type) := mkMerging { children_ : list (Wrapper S); current_ : option nat; direction_ : Direction }.
Arguments mkMerging {S}. Arguments children_ {S}. Arguments current_ {S}. Arguments direction_ {S}.

Section model.
Context {S : Type} (I : Iterator S) (comparator_ : Comparator).
#[local] Abbreviation WI := (WrapperIterator I).

(** The loops over the children. *)
Fixpoint each_child (f : nat -> Wrapper S -> result (Wrapper S)) (i : nat) (l : list (Wrapper S)) : result (list (Wrapper S)) :=
  match l with
  | [] => Ok []
  | w :: l => w ← f i w; l ← each_child f (Datatypes.S i) l; Ok (w :: l)
  end.

Definition MergingIterator_new (children : list S) : result (Merging S) :=
  l ← each_child (fun i w => Wrapper_Set I (children !! i) w) 0 (replicate (length children) Wrapper_new);
  Ok (mkMerging l None kForward).

(** The loops of [FindSmallest] and [FindLargest] over [(index, child)]; [better] is the
    test on the result of [Compare]. *)
Fixpoint find_best (better : Z -> bool) (l : list (nat * Wrapper S)) (best : option (nat * Wrapper S)) : result (option nat) :=
  match l with
  | [] => Ok (fst <$> best)
  | (i, child) :: l =>
      if w_valid child then
        match best with
        | None => find_best better l (Some (i, child))
        | Some (b, w) =>
            r ← Compare comparator_ (w_key child) (w_key w);
            find_best better l (if better r then Some (i, child) else Some (b, w))
        end
      else find_best better l best
  end.

Definition indexed (l : list (Wrapper S)) : list (nat * Wrapper S) := zip (seq 0 (length l)) l.

Definition FindSmallest (l : list (Wrapper S)) : result (option nat) := find_best (fun r => r <? 0) (indexed l) None.
Definition FindLargest (l : list (Wrapper S)) : result (option nat) := find_best (fun r => 0 <? r) (rev (indexed l)) None.

Definition MI_Valid (m : Merging S) : bool := match current_ m with Some _ => true | None => false end.

(** The loops of the positioning calls. *)
Definition position (f : Wrapper S -> result (Wrapper S)) (find : list (Wrapper S) -> result (option nat)) (d : Direction) (m : Merging S)
    : result (Merging S) :=
  l ← each_child (fun _ => f) 0 (children_ m); c ← find l; Ok (mkMerging l c d).

Definition MI_SeekToFirst : Merging S -> result (Merging S) := position (it_SeekToFirst WI) FindSmallest kForward.
Definition MI_SeekToLast : Merging S -> result (Merging S) := position (it_SeekToLast WI) FindLargest kReverse.
Definition MI_Seek (target : list Z) : Merging S -> result (Merging S) := position (it_Seek WI target) FindSmallest kForward.

(** A child that is not [current_] when the direction changes. *)
Definition turn_forward (key : list Z) (child : Wrapper S) : result (Wrapper S) :=
  child ← it_Seek WI key child;
  if w_valid child then
    r ← Compare comparator_ key (w_key child);
    if r =? 0 then it_Next WI child else Ok child
  else Ok child.

Definition turn_back (key : list Z) (child : Wrapper S) : result (Wrapper S) :=
  child ← it_Seek WI key child;
  if w_valid child then it_Prev WI child else it_SeekToLast WI child.

Definition turn_others (f : list Z -> Wrapper S -> result (Wrapper S)) (cur : nat) (l : list (Wrapper S)) : result (list (Wrapper S)) :=
  w ← from_opt OutOfBounds (l !! cur);
  each_child (fun i child => if (i =? cur)%nat then Ok child else f (w_key w) child) 0 l.

Definition step_current (f : Wrapper S -> result (Wrapper S)) (cur : nat) (l : list (Wrapper S)) : result (list (Wrapper S)) :=
  w ← from_opt OutOfBounds (l !! cur); w ← f w; Ok (<[cur := w]> l).

Definition MI_Next (m : Merging S) : result (Merging S) :=
  cur ← from_opt NullDeref (current_ m);
  l ← (match direction_ m with kForward => Ok (children_ m) | kReverse => turn_others turn_forward cur (children_ m) end);
  l ← step_current (it_Next WI) cur l;
  c ← FindSmallest l;
  Ok (mkMerging l c kForward).

Definition MI_Prev (m : Merging S) : result (Merging S) :=
  cur ← from_opt NullDeref (current_ m);
  l ← (match direction_ m with kReverse => Ok (children_ m) | kForward => turn_others turn_back cur (children_ m) end);
  l ← step_current (it_Prev WI) cur l;
  c ← FindLargest l;
  Ok (mkMerging l c kReverse).

Definition current_child (m : Merging S) : result (Wrapper S) :=
  cur ← from_opt NullDeref (current_ m); from_opt OutOfBounds (children_ m !! cur).

Fixpoint children_status (l : list (Wrapper S)) (status : Status) : result Status :=
  match l with
  | [] => Ok status
  | w :: l => s ← it_status WI w; if negb (status_ok s) then Ok s else children_status l s
  end.

Definition MergingIterator : Iterator (Merging S) :=
  mkIterator _ MI_Valid (fun m => w ← current_child m; it_key WI w) (fun m => w ← current_child m; it_value WI w)
    (fun m => children_status (children_ m) StOK) MI_Seek MI_SeekToFirst MI_SeekToLast MI_Next MI_Prev.

End model.

(** ** Cuts through sorted lists *)

Section cuts.
Context (ord : list Z -> list Z -> Z) `{Ho : !CompareOrder ord}.
#[local] Abbreviation entries := (list (list Z * list Z)) (only parsing).
#[local] Abbreviation sorted := (StronglySorted (fun x y : list Z * list Z => ord x.1 y.1 < 0)).

(** The entries up to the first that is not [P]. *)
Fixpoint cut (P : list Z -> bool) (l : entries) : nat :=
  match l with (k, _) :: l => if P k then S (cut P l) else O | [] => O end.

Definition down_closed (P : list Z -> bool) : Prop := forall x y, ord x y < 0 -> P y = true -> P x = true.

Lemma cut_le P l : (cut P l <= length l)%nat.
Proof. induction l as [|[k v] l IH]; cbn; [lia|]. destruct (P k); lia. Qed.

Lemma cut_unique P l t : (t <= length l)%nat -> (forall m k v, (m < t)%nat -> l !! m = Some (k, v) -> P k = true) ->
  (forall k v, l !! t = Some (k, v) -> P k = false) -> t = cut P l.
Proof.
  revert t. induction l as [|[k v] l IH]; intros t Ht Hlow Hge; cbn in *; [lia|]. destruct t as [|t].
  - by rewrite (Hge k v eq_refl).
  - rewrite (Hlow 0%nat k v ltac:(lia) eq_refl). f_equal. apply IH; [lia| |done]. intros m k' v' Hm E. apply (Hlow (S m) k' v'); [lia|done].
Qed.

Lemma cut_spec P l m k v : sorted l -> down_closed P -> l !! m = Some (k, v) -> (P k = true <-> (m < cut P l)%nat).
Proof.
  intros Hs Hd. revert m. induction Hs as [|[k0 v0] l Hs IH Hx]; intros m E; [done|]. cbn. destruct m as [|m].
  - injection E as -> ->. destruct (P k); (split; [lia|]); [done|lia].
  - cbn in E. specialize (IH m E). destruct (P k0) eqn:E0; [rewrite IH; lia|]. split; [|lia]. intros Hk.
    rewrite Forall_forall in Hx. specialize (Hx (k, v) ltac:(by eapply list_elem_of_lookup_2)). cbn in Hx. rewrite (Hd k0 k Hx Hk) in E0. done.
Qed.

Lemma sorted_lookup l i j x y : sorted l -> l !! i = Some x -> l !! j = Some y -> (i < j)%nat -> ord x.1 y.1 < 0.
Proof.
  intros Hs. revert i j. induction Hs as [|z l Hs IH Hz]; intros i j Ei Ej Hij; [done|]. destruct j as [|j]; [lia|]. cbn in Ej. destruct i as [|i]; cbn in Ei.
  - injection Ei as ->. rewrite Forall_forall in Hz. apply Hz. by eapply list_elem_of_lookup_2.
  - apply (IH i j); [done..|lia].
Qed.

Lemma sorted_index l i j x y : sorted l -> l !! i = Some x -> l !! j = Some y -> ord x.1 y.1 < 0 -> (i < j)%nat.
Proof using Ho.
  intros Hs Ei Ej Hxy. destruct (lt_eq_lt_dec i j) as [[?| ->]|Hji]; [done| |].
  - rewrite Ei in Ej. injection Ej as ->. rewrite (co_refl ord) in Hxy. lia.
  - pose proof (sorted_lookup l j i y x Hs Ej Ei Hji) as Hyx. apply (co_sym ord) in Hyx. lia.
Qed.

Lemma seeks_cut l target t : seeks ord l target t -> t = cut (fun k => ord k target <? 0) l.
Proof.
  intros (Ht & Hlow & Hge). apply cut_unique; [done| |]; intros *; rewrite ?Z.ltb_lt, ?Z.ltb_ge; eauto.
Qed.

Lemma cut_ext P Q l : (forall k v, (k, v) ∈ l -> P k = Q k) -> cut P l = cut Q l.
Proof.
  induction l as [|[k v] l IH]; intros H; [done|]. cbn. rewrite (H k v) by (apply elem_of_cons; by left). destruct (Q k); [|done]. f_equal.
  apply IH. intros k' v' Hin. apply (H k' v'), elem_of_cons. by right.
Qed.

Lemma down_lt key : down_closed (fun k => ord k key <? 0).
Proof using Ho. intros x y Hxy Hy. apply Z.ltb_lt in Hy. apply Z.ltb_lt. apply (co_trans ord x y); [done|lia]. Qed.

Lemma down_le key : down_closed (fun k => ord k key <=? 0).
Proof using Ho. intros x y Hxy Hy. apply Z.leb_le in Hy. apply Z.leb_le. pose proof (co_trans ord x y key Hxy Hy). lia. Qed.

End cuts.

(** ** The union of the children *)

Section proofs.
Context {S : Type} (I : Iterator S) (c : Comparator) (ok : list Z -> Prop) (ord : list Z -> list Z -> Z) `{Ho : !CompareOrder ord}.
Context (Hc : forall a b, ok a -> ok b -> Compare c a b = Ok (ord a b)).
#[local] Abbreviation entries := (list (list Z * list Z)) (only parsing).
#[local] Abbreviation sorted := (StronglySorted (fun x y : list Z * list Z => ord x.1 y.1 < 0)).
Context (ess : list entries) (ready : nat -> S -> Prop) (at_ : nat -> S -> nat -> Prop).
Context (Hi : forall i es, ess !! i = Some es -> IteratorSpec I ok ord es (ready i) (at_ i)) (Hess : Forall sorted ess).
Context (merged : entries) (Hsorted : sorted merged) (Hperm : merged ≡ₚ concat ess) (Hok : Forall (fun kv => ok kv.1) merged).

Lemma child_in i es kv : ess !! i = Some es -> kv ∈ es -> kv ∈ merged.
Proof using Hperm.
  intros Ei Hk. rewrite Hperm. apply list_elem_of_In, in_concat. exists es. split; [apply list_elem_of_In; by eapply list_elem_of_lookup_2|by apply list_elem_of_In].
Qed.

Lemma in_child kv : kv ∈ merged -> exists i es, ess !! i = Some es /\ kv ∈ es.
Proof using Hperm.
  rewrite Hperm. intros Hin. apply list_elem_of_In, in_concat in Hin as (es & He & Hk). apply list_elem_of_In, list_elem_of_lookup in He as [i He].
  exists i, es. split; [done|by apply list_elem_of_In].
Qed.

Lemma child_sorted i es : ess !! i = Some es -> sorted es.
Proof using Hess. intros Ei. rewrite Forall_forall in Hess. apply Hess. by eapply list_elem_of_lookup_2. Qed.

Lemma merged_ok kv : kv ∈ merged -> ok kv.1.
Proof using Hok. rewrite Forall_forall in Hok. apply Hok. Qed.

Lemma NoDup_merged : NoDup merged.
Proof using Ho Hsorted.
  apply NoDup_alt. intros i j x Ei Ej. destruct (lt_eq_lt_dec i j) as [[Hij|Hij]|Hij]; [|done|].
  - pose proof (sorted_lookup ord merged i j x x Hsorted Ei Ej Hij) as Hx. rewrite (co_refl ord) in Hx. lia.
  - pose proof (sorted_lookup ord merged j i x x Hsorted Ej Ei Hij) as Hx. rewrite (co_refl ord) in Hx. lia.
Qed.

(** An entry is in one child only. *)
Lemma child_unique i j es es' kv : ess !! i = Some es -> ess !! j = Some es' -> kv ∈ es -> kv ∈ es' -> i = j.
Proof using Ho Hsorted Hperm.
  pose proof NoDup_merged as Hnd. rewrite Hperm in Hnd. clear -Hnd. revert i j. induction ess as [|e l IH]; intros i j Ei Ej Hk Hk'; [done|].
  cbn in Hnd. apply NoDup_app in Hnd as (_ & Hdis & Hnd).
  assert (Hcat : forall n x, l !! n = Some x -> kv ∈ x -> kv ∈ concat l).
  { intros n x En Hx. apply list_elem_of_In, in_concat. exists x. split; [apply list_elem_of_In; by eapply list_elem_of_lookup_2|by apply list_elem_of_In]. }
  destruct i as [|i], j as [|j]; cbn in Ei, Ej; [done| | |f_equal; by apply IH].
  - injection Ei as ->. exfalso. apply (Hdis kv Hk). by eapply Hcat.
  - injection Ej as ->. exfalso. apply (Hdis kv Hk'). by eapply Hcat.
Qed.

(** *** Where the children stand *)

Definition bef (es : entries) (n : nat) : nat := match n with O => length es | Datatypes.S n => n end.

(** The children stand at the first entries that are not [P], or at the last ones that are. *)
Definition pos (d : Direction) (P : list Z -> bool) (es : entries) : nat :=
  match d with kForward => cut P es | kReverse => bef es (cut P es) end.

Definition placed (f : entries -> nat) (l : list (Wrapper S)) : Prop :=
  length l = length ess /\ forall i es w, ess !! i = Some es -> l !! i = Some w -> w_at I (es := es) (at_ := at_ i) w (f es).

Lemma pos_true P d es kv : sorted es -> down_closed ord P -> es !! pos d P es = Some kv -> P kv.1 = match d with kForward => false | kReverse => true end.
Proof.
  intros Hs Hd E. destruct kv as [k v]. pose proof (cut_spec ord P es _ k v Hs Hd E) as Hcut. cbn [fst]. destruct d; cbn [pos] in *.
  - destruct (P k); [|done]. lia.
  - apply Hcut. destruct (cut P es) as [|n] eqn:En; cbn [bef] in *; [|lia]. by rewrite lookup_ge_None_2 in E by lia.
Qed.

(** The entry of [merged] is at the position of its child. *)
Lemma winner_here d P kv i es : down_closed ord P -> merged !! pos d P merged = Some kv -> ess !! i = Some es -> kv ∈ es ->
  es !! pos d P es = Some kv.
Proof using Ho Hess Hperm Hsorted.
  intros Hd Em Ei Hk. apply list_elem_of_lookup in Hk as [q Eq]. pose proof (child_sorted i es Ei) as Hs.
  pose proof (pos_true P d merged kv Hsorted Hd Em) as HP. destruct kv as [k v]. pose proof (cut_spec ord P es q k v Hs Hd Eq) as Hq. cbn [fst] in HP.
  pose proof (lookup_lt_Some _ _ _ Eq) as Hql.
  destruct d; cbn [pos] in *.
  - destruct (decide (q = cut P es)) as [<-|Hne]; [done|]. exfalso. rewrite HP in Hq. destruct (lookup_lt_is_Some_2 es (cut P es)) as [[k' v'] E']; [lia|].
    pose proof (sorted_lookup ord es _ q _ _ Hs E' Eq ltac:(lia)) as Hlt. pose proof (cut_spec ord P es _ k' v' Hs Hd E') as HP'.
    apply list_elem_of_lookup_2 in E' as Hin. apply (child_in i es _ Ei), list_elem_of_lookup in Hin as [p' Ep'].
    pose proof (sorted_index ord merged _ _ _ _ Hsorted Ep' Em Hlt) as Hp. pose proof (cut_spec ord P merged p' k' v' Hsorted Hd Ep') as Hm. apply Hm, HP' in Hp. lia.
  - apply Hq in HP. destruct (cut P es) as [|n] eqn:En; [lia|]. cbn [bef]. destruct (decide (q = n)) as [<-|Hne]; [done|]. exfalso.
    destruct (lookup_lt_is_Some_2 es n) as [[k' v'] E']; [pose proof (cut_le P es); lia|].
    pose proof (sorted_lookup ord es q n _ _ Hs Eq E' ltac:(lia)) as Hlt. pose proof (cut_spec ord P es _ k' v' Hs Hd E') as HP'. rewrite En in HP'.
    apply list_elem_of_lookup_2 in E' as Hin. apply (child_in i es _ Ei), list_elem_of_lookup in Hin as [p' Ep'].
    pose proof (sorted_index ord merged _ _ _ _ Hsorted Em Ep' Hlt) as Hp. pose proof (cut_spec ord P merged p' k' v' Hsorted Hd Ep') as Hm.
    destruct (cut P merged) as [|m]; cbn [bef] in *; [by rewrite lookup_ge_None_2 in Em by lia|]. assert (Hn : (n < Datatypes.S n)%nat) by lia. apply HP', Hm in Hn. lia.
Qed.

(** The other children stand further away. *)
Lemma others_away d P kv i es kv' : down_closed ord P -> merged !! pos d P merged = Some kv -> ess !! i = Some es -> es !! pos d P es = Some kv' ->
  kv' = kv \/ match d with kForward => ord kv.1 kv'.1 < 0 | kReverse => ord kv'.1 kv.1 < 0 end.
Proof using Ho Hess Hperm Hsorted.
  intros Hd Em Ei E. pose proof (pos_true P d es kv' (child_sorted i es Ei) Hd E) as HP. apply list_elem_of_lookup_2 in E as Hin.
  apply (child_in i es _ Ei), list_elem_of_lookup in Hin as [p' Ep']. destruct kv' as [k' v']. pose proof (cut_spec ord P merged p' k' v' Hsorted Hd Ep') as Hm. cbn [fst] in HP.
  destruct d; cbn [pos] in *; rewrite HP in Hm.
  - destruct (decide (p' = cut P merged)) as [->|]; [left; congruence|]. right. apply (sorted_lookup ord merged _ p' _ _ Hsorted Em Ep'). lia.
  - destruct (cut P merged) as [|m] eqn:Ec; cbn [bef] in *; [by rewrite lookup_ge_None_2 in Em by lia|].
    destruct (decide (p' = m)) as [->|]; [left; congruence|]. right. apply (sorted_lookup ord merged p' m _ _ Hsorted Ep' Em). lia.
Qed.

Lemma all_away d P i es : down_closed ord P -> merged !! pos d P merged = None -> ess !! i = Some es -> es !! pos d P es = None.
Proof using Ho Hess Hperm Hsorted.
  intros Hd Em Ei. destruct (es !! pos d P es) as [kv'|] eqn:E; [|done]. exfalso.
  pose proof (pos_true P d es kv' (child_sorted i es Ei) Hd E) as HP. apply list_elem_of_lookup_2 in E as Hin.
  apply (child_in i es _ Ei), list_elem_of_lookup in Hin as [p' Ep']. destruct kv' as [k' v']. pose proof (cut_spec ord P merged p' k' v' Hsorted Hd Ep') as Hm. cbn [fst] in HP.
  apply lookup_lt_Some in Ep' as Hlt. apply lookup_ge_None in Em. pose proof (cut_le P merged). destruct d; cbn [pos] in *; rewrite HP in Hm; [lia|].
  destruct (cut P merged) as [|m]; cbn [bef] in *; lia.
Qed.

(** *** Choosing a child *)

Lemma elem_of_indexed (l : list (Wrapper S)) i w : (i, w) ∈ indexed l <-> l !! i = Some w.
Proof.
  unfold indexed. rewrite list_elem_of_lookup. split.
  - intros [n E]. rewrite lookup_zip_with in E. destruct (seq 0 (length l) !! n) as [j|] eqn:Es; [|done]. cbn in E.
    apply lookup_seq in Es as [-> _]. destruct (l !! n) as [x|] eqn:El; [|done]. cbn in E. by injection E as <- <-.
  - intros E. exists i. rewrite lookup_zip_with. rewrite (proj2 (lookup_seq 0 (length l) i i)); [|split; [done|by eapply lookup_lt_Some]]. cbn. by rewrite E.
Qed.

Lemma find_best_winner better (wc : Wrapper S) n : ok (w_key wc) -> w_valid wc = true -> forall l best,
  (forall i w, (i, w) ∈ l -> w_valid w = true -> ok (w_key w) /\
     ((i = n /\ w = wc) \/ (better (ord (w_key wc) (w_key w)) = true /\ better (ord (w_key w) (w_key wc)) = false))) ->
  best = Some (n, wc) \/ ((n, wc) ∈ l /\ match best with None => True | Some (_, w) => ok (w_key w) /\ better (ord (w_key wc) (w_key w)) = true end) ->
  find_best c better l best = Ok (Some n).
Proof using Hc.
  intros Hkc Hvc. induction l as [|[i w] l IH]; intros best Hl Hb; cbn [find_best].
  { destruct Hb as [->|[Hin _]]; [done|by apply elem_of_nil in Hin]. }
  assert (Hl' : forall i' w', (i', w') ∈ l -> w_valid w' = true -> ok (w_key w') /\
    ((i' = n /\ w' = wc) \/ (better (ord (w_key wc) (w_key w')) = true /\ better (ord (w_key w') (w_key wc)) = false))).
  { intros i' w' Hin. apply Hl, elem_of_cons. by right. }
  destruct (w_valid w) eqn:Ev; cycle 1.
  { apply IH; [done|]. destruct Hb as [?|[Hin Hm]]; [by left|]. right. split; [|done]. apply elem_of_cons in Hin as [Heq|?]; [|done]. injection Heq as -> <-. congruence. }
  destruct (Hl i w ltac:(apply elem_of_cons; by left) Ev) as [Hkw Hw].
  destruct best as [[b x]|].
  - destruct Hb as [Heq|[Hin [Hkx Hx]]].
    + injection Heq as -> ->. rewrite Hc by done. cbn [mbind result_bind]. apply IH; [done|]. left. destruct Hw as [[-> ->]|[_ ->]]; [by destruct (better _)|done].
    + rewrite Hc by done. cbn [mbind result_bind]. apply IH; [done|]. apply elem_of_cons in Hin as [Heq|Hin].
      * injection Heq as -> ->. rewrite Hx. by left.
      * destruct (better (ord (w_key w) (w_key x))); [|right; by split]. destruct Hw as [[-> ->]|[Hw _]]; [by left|right; by split].
  - destruct Hb as [?|[Hin _]]; [done|]. apply IH; [done|]. apply elem_of_cons in Hin as [Heq|Hin]; [injection Heq as -> ->; by left|].
    destruct Hw as [[-> ->]|[Hw _]]; [by left|right; by split].
Qed.

Lemma find_best_none better (l : list (nat * Wrapper S)) : (forall i w, (i, w) ∈ l -> w_valid w = false) -> find_best c better l None = Ok None.
Proof.
  induction l as [|[i w] l IH]; intros Hl; [done|]. cbn. rewrite (Hl i w) by (apply elem_of_cons; by left). apply IH. intros i' w' Hin. eapply Hl, elem_of_cons. by right.
Qed.

Definition find (d : Direction) : list (Wrapper S) -> result (option nat) := match d with kForward => FindSmallest c | kReverse => FindLargest c end.

(** [current_] for the entry of [merged] at the position. *)
Definition chosen (d : Direction) (P : list Z -> bool) (o : option nat) : Prop :=
  match merged !! pos d P merged with
  | Some kv => exists n es, o = Some n /\ ess !! n = Some es /\ es !! pos d P es = Some kv
  | None => o = None
  end.

Lemma placed_entry f l i es w : placed f l -> ess !! i = Some es -> l !! i = Some w ->
  match es !! f es with Some (k, _) => w_valid w = true /\ w_key w = k | None => w_valid w = false end.
Proof using Hi.
  intros [_ Hp] Ei El. specialize (Hp i es w Ei El). pose proof (is_entry (IteratorSpec := Wrapper_spec I (Hi := Hi i es Ei)) _ _ Hp) as He. cbn in He.
  destruct (es !! f es) as [[k v]|]; [|done]. destruct He as (Hv & Hk & _). by injection Hk as ->.
Qed.

Lemma find_ok d P l : down_closed ord P -> placed (pos d P) l -> exists o, find d l = Ok o /\ chosen d P o.
Proof using Ho Hc Hi Hess Hperm Hsorted Hok.
  intros Hd Hp. unfold chosen. pose proof Hp as [Hlen _].
  assert (Hin : forall i w, (i, w) ∈ rev (indexed l) \/ (i, w) ∈ indexed l -> l !! i = Some w).
  { intros i w [Hin|Hin]; apply elem_of_indexed; [|done]. apply list_elem_of_In, in_rev in Hin. by apply list_elem_of_In. }
  assert (Hes : forall i w, l !! i = Some w -> exists es, ess !! i = Some es).
  { intros i w E. apply lookup_lt_is_Some_2. rewrite <- Hlen. by eapply lookup_lt_Some. }
  destruct (merged !! pos d P merged) as [kv|] eqn:Em.
  - destruct (in_child kv ltac:(by eapply list_elem_of_lookup_2)) as (n & es & En & Hk).
    pose proof (winner_here d P kv n es Hd Em En Hk) as Hw. destruct (lookup_lt_is_Some_2 l n) as [wc Ewc]; [rewrite Hlen; by eapply lookup_lt_Some|].
    exists (Some n). split; [|by exists n, es]. pose proof (placed_entry _ l n es wc Hp En Ewc) as Hwc. rewrite Hw in Hwc. destruct kv as [k v]. destruct Hwc as [Hvc Hkc].
    assert (Hkok : ok k) by (apply (merged_ok (k, v)); by eapply list_elem_of_lookup_2).
    assert (Hothers : forall i w, l !! i = Some w -> w_valid w = true -> ok (w_key w) /\
      ((i = n /\ w = wc) \/ match d with kForward => ord (w_key wc) (w_key w) < 0 | kReverse => ord (w_key w) (w_key wc) < 0 end)).
    { intros i w El Hv. destruct (Hes i w El) as [es' Ei]. pose proof (placed_entry _ l i es' w Hp Ei El) as Hwi.
      destruct (es' !! pos d P es') as [[k' v']|] eqn:E'; [|congruence]. destruct Hwi as [_ Hki]. apply list_elem_of_lookup_2 in E' as Hin'.
      split; [rewrite Hki; apply (merged_ok (k', v')); by eapply child_in|]. destruct (others_away d P (k, v) i es' (k', v') Hd Em Ei E') as [Heq|Hlt].
      - left. assert (i = n) as -> by (rewrite Heq in Hin'; eapply child_unique; [exact Ei|exact En|exact Hin'|exact Hk]). split; [done|congruence].
      - right. rewrite Hkc, Hki. done. }
    destruct d; cbn [find]; [unfold FindSmallest|unfold FindLargest]; apply find_best_winner with (wc := wc); rewrite ?Hkc; try done.
    + intros i w Hiw Hv. destruct (Hothers i w) as [Ho1 [?|Hlt]]; [by apply Hin; right|done|by split; [|left]|]. rewrite Hkc in Hlt. split; [done|]. right.
      rewrite Z.ltb_lt, Z.ltb_ge. apply (co_sym ord) in Hlt as Hgt. lia.
    + right. split; [by apply elem_of_indexed|done].
    + intros i w Hiw Hv. destruct (Hothers i w) as [Ho1 [?|Hlt]]; [by apply Hin; left|done|by split; [|left]|]. rewrite Hkc in Hlt. split; [done|]. right.
      rewrite Z.ltb_lt, Z.ltb_ge. apply (co_sym ord) in Hlt as Hgt. lia.
    + right. split; [|done]. apply list_elem_of_In. rewrite <- in_rev. by apply list_elem_of_In, elem_of_indexed.
  - exists None. split; [|done]. assert (Hnone : forall i w, l !! i = Some w -> w_valid w = false).
    { intros i w El. destruct (Hes i w El) as [es' Ei]. pose proof (placed_entry _ l i es' w Hp Ei El) as Hwi. by rewrite (all_away d P i es' Hd Em Ei) in Hwi. }
    destruct d; apply find_best_none; intros i w Hiw; apply (Hnone i); apply Hin; [by right|by left].
Qed.

(** *** The operations *)

Definition mg_ready (m : Merging S) : Prop :=
  length (children_ m) = length ess /\ forall i w, children_ m !! i = Some w -> w_ready (ready := ready i) w.

Definition mg_at (m : Merging S) (p : nat) : Prop :=
  exists P, down_closed ord P /\ placed (pos (direction_ m) P) (children_ m) /\ p = pos (direction_ m) P merged /\ chosen (direction_ m) P (current_ m).

Lemma each_ok f (Q : nat -> Wrapper S -> Prop) l : forall i0, (forall i w, l !! i = Some w -> exists w', f (i0 + i)%nat w = Ok w' /\ Q (i0 + i)%nat w') ->
  exists l', each_child f i0 l = Ok l' /\ length l' = length l /\ forall i w', l' !! i = Some w' -> Q (i0 + i)%nat w'.
Proof.
  induction l as [|w l IH]; intros i0 Hl; cbn [each_child]; [by exists []|]. destruct (Hl 0%nat w eq_refl) as (w' & Ew & Hw'). rewrite Nat.add_0_r in Ew, Hw'.
  destruct (IH (Datatypes.S i0)) as (l' & El & Hlen & Hl'). { intros i x E. destruct (Hl (Datatypes.S i) x E) as (x' & E1 & E2). rewrite Nat.add_succ_r in E1, E2. by exists x'. }
  rewrite Ew, El. cbn [mbind result_bind]. exists (w' :: l'). split; [done|]. split; [cbn; lia|]. intros [|i] x E; cbn in E.
  - injection E as <-. by rewrite Nat.add_0_r.
  - rewrite Nat.add_succ_r. by apply Hl'.
Qed.

Lemma placed_ready f l : placed f l -> forall i w, l !! i = Some w -> w_ready (ready := ready i) w.
Proof using Hi.
  intros [Hlen Hp] i w El. destruct (lookup_lt_is_Some_2 ess i) as [es Ei]; [rewrite <- Hlen; by eapply lookup_lt_Some|].
  apply (is_ready (IteratorSpec := Wrapper_spec I (Hi := Hi i es Ei)) _ _ (Hp i es w Ei El)).
Qed.

(** Choosing again after the children were moved. *)
Lemma choose_at d P l : down_closed ord P -> placed (pos d P) l -> exists o, find d l = Ok o /\ mg_at (mkMerging l o d) (pos d P merged).
Proof using Ho Hc Hi Hess Hperm Hsorted Hok.
  intros Hd Hp. destruct (find_ok d P l Hd Hp) as (o & E & Hch). exists o. split; [done|]. by exists P.
Qed.

Lemma position_ok g d P m : down_closed ord P -> mg_ready m ->
  (forall i es w, ess !! i = Some es -> w_ready (ready := ready i) w -> exists w', g w = Ok w' /\ w_at I (es := es) (at_ := at_ i) w' (pos d P es)) ->
  exists m', position g (find d) d m = Ok m' /\ mg_at m' (pos d P merged).
Proof using Ho Hc Hi Hess Hperm Hsorted Hok.
  intros Hd [Hlen Hr] Hg. unfold position.
  destruct (each_ok (fun _ => g) (fun i w => forall es, ess !! i = Some es -> w_at I (es := es) (at_ := at_ i) w (pos d P es)) (children_ m) 0) as (l' & -> & Hlen' & Hl').
  { intros i w Ew. destruct (lookup_lt_is_Some_2 ess i) as [es Ei]; [rewrite <- Hlen; by eapply lookup_lt_Some|].
    destruct (Hg i es w Ei (Hr i w Ew)) as (w' & E & Hw'). exists w'. split; [done|]. cbn. intros es' Ei'. rewrite Ei in Ei'. by injection Ei' as <-. }
  cbn [mbind result_bind]. destruct (choose_at d P l' Hd) as (o & -> & Hat).
  { split; [congruence|]. intros i es w Ei Ew. by apply Hl'. }
  cbn [mbind result_bind]. by eexists.
Qed.

Lemma mg_at_ready m p : mg_at m p -> mg_ready m.
Proof using Hi. intros (P & _ & Hp & _). split; [apply Hp|by eapply placed_ready]. Qed.

Lemma cut_const b (es : entries) : cut (fun _ => b) es = if b then length es else 0%nat.
Proof. induction es as [|[k v] es IH]; cbn; [by destruct b|]. rewrite IH. by destruct b. Qed.

Lemma cut_at (es : entries) q k v : sorted es -> es !! q = Some (k, v) -> cut (fun x => ord x k <? 0) es = q /\ cut (fun x => ord x k <=? 0) es = Datatypes.S q.
Proof using Ho.
  intros Hs E. pose proof (lookup_lt_Some _ _ _ E). split; symmetry; apply cut_unique; try lia.
  - intros m k' v' Hm E'. apply Z.ltb_lt. apply (sorted_lookup ord es m q _ _ Hs E' E Hm).
  - intros k' v' E'. rewrite E in E'. injection E' as <- <-. by rewrite (co_refl ord).
  - intros m k' v' Hm E'. apply Z.leb_le. destruct (decide (m = q)) as [->|]; [rewrite E in E'; injection E' as <- <-; rewrite (co_refl ord); lia|].
    pose proof (sorted_lookup ord es m q _ _ Hs E' E ltac:(lia)) as Hlt. cbn in Hlt. lia.
  - intros k' v' E'. apply Z.leb_gt. apply (co_sym ord). apply (sorted_lookup ord es q (Datatypes.S q) _ _ Hs E E'). lia.
Qed.

(** An entry of another child is strictly before or behind. *)
Lemma other_entry p k v n esn i es k' v' : merged !! p = Some (k, v) -> ess !! n = Some esn -> (k, v) ∈ esn -> ess !! i = Some es -> i <> n -> (k', v') ∈ es ->
  exists p', merged !! p' = Some (k', v') /\ (((p' < p)%nat /\ ord k' k < 0) \/ ((p < p')%nat /\ ord k k' < 0 /\ 0 < ord k' k)).
Proof using Ho Hsorted Hperm.
  intros Em En Hk Ei Hne Hk'. pose proof (child_in i es _ Ei Hk') as Hin. apply list_elem_of_lookup in Hin as [p' Ep']. exists p'. split; [done|].
  destruct (lt_eq_lt_dec p' p) as [[Hlt| ->]|Hgt].
  - left. split; [done|]. apply (sorted_lookup ord merged p' p _ _ Hsorted Ep' Em Hlt).
  - rewrite Em in Ep'. injection Ep' as <- <-. exfalso. apply Hne. eapply child_unique; [exact Ei|exact En|exact Hk'|exact Hk].
  - right. pose proof (sorted_lookup ord merged p p' _ _ Hsorted Em Ep' Hgt) as Hlt. split_and!; [done|done|]. by apply (co_sym ord).
Qed.

Lemma other_le p k v n esn i es : merged !! p = Some (k, v) -> ess !! n = Some esn -> (k, v) ∈ esn -> ess !! i = Some es -> i <> n ->
  cut (fun x => ord x k <=? 0) es = cut (fun x => ord x k <? 0) es.
Proof using Ho Hsorted Hperm.
  intros Em En Hk Ei Hne. apply cut_ext. intros k' v' Hk'. destruct (other_entry p k v n esn i es k' v' Em En Hk Ei Hne Hk') as (p' & _ & [[_ Hlt]|(_ & _ & Hgt)]).
  - rewrite (proj2 (Z.leb_le _ _)), (proj2 (Z.ltb_lt _ _)) by lia. done.
  - rewrite (proj2 (Z.leb_gt _ _)), (proj2 (Z.ltb_ge _ _)) by lia. done.
Qed.

Lemma other_cut d P k v n esn i es : down_closed ord P -> merged !! pos d P merged = Some (k, v) -> ess !! n = Some esn -> (k, v) ∈ esn -> ess !! i = Some es -> i <> n ->
  cut P es = cut (fun x => ord x k <? 0) es.
Proof using Ho Hsorted Hperm.
  intros Hd Em En Hk Ei Hne. apply cut_ext. intros k' v' Hk'. destruct (other_entry _ k v n esn i es k' v' Em En Hk Ei Hne Hk') as (p' & Ep' & Hp').
  pose proof (cut_spec ord P merged p' k' v' Hsorted Hd Ep') as Hcut. assert (Hlt : (cut P merged <= p' -> pos d P merged <= p') %nat /\ (p' < cut P merged -> p' <= pos d P merged)%nat).
  { apply lookup_lt_Some in Em. destruct d; cbn [pos] in *; [lia|]. destruct (cut P merged); cbn [bef] in *; lia. }
  destruct Hp' as [[Hpp Hlt']|(Hpp & _ & Hgt)].
  - rewrite (proj2 (Z.ltb_lt _ _)) by lia. apply Hcut. lia.
  - rewrite (proj2 (Z.ltb_ge _ _)) by lia. destruct (P k'); [|done]. lia.
Qed.

(** Stepping the chosen child. *)
Lemma step_current_ok g f l n es q : length l = length ess -> ess !! n = Some es ->
  (forall i es w, i <> n -> ess !! i = Some es -> l !! i = Some w -> w_at I (es := es) (at_ := at_ i) w (f es)) ->
  (forall w, l !! n = Some w -> w_at I (es := es) (at_ := at_ n) w q /\ exists w', g w = Ok w' /\ w_at I (es := es) (at_ := at_ n) w' (f es)) ->
  exists l', step_current g n l = Ok l' /\ placed f l'.
Proof.
  intros Hlen En Hothers Hn. unfold step_current. destruct (lookup_lt_is_Some_2 l n) as [w Ew]; [rewrite Hlen; by eapply lookup_lt_Some|].
  destruct (Hn w Ew) as (_ & w' & Eg & Hw'). rewrite Ew. cbn [from_opt mbind result_bind]. rewrite Eg. cbn [mbind result_bind]. eexists. split; [done|].
  split; [by rewrite length_insert|]. intros i es' x Ei Ex. destruct (decide (i = n)) as [->|Hne].
  - rewrite list_lookup_insert_eq in Ex by (by eapply lookup_lt_Some). injection Ex as <-. rewrite En in Ei. by injection Ei as <-.
  - rewrite list_lookup_insert_ne in Ex by done. by eapply Hothers.
Qed.

Lemma turn_ok (g : list Z -> Wrapper S -> result (Wrapper S)) f l n es q k v : length l = length ess -> ess !! n = Some es -> es !! q = Some (k, v) ->
  (forall i w, l !! i = Some w -> w_ready (ready := ready i) w) ->
  (forall w, l !! n = Some w -> w_at I (es := es) (at_ := at_ n) w q) ->
  (forall i es w, i <> n -> ess !! i = Some es -> w_ready (ready := ready i) w -> exists w', g k w = Ok w' /\ w_at I (es := es) (at_ := at_ i) w' (f es)) ->
  exists l', turn_others g n l = Ok l' /\ length l' = length ess /\ (forall w, l' !! n = Some w -> w_at I (es := es) (at_ := at_ n) w q) /\
    (forall i es w, i <> n -> ess !! i = Some es -> l' !! i = Some w -> w_at I (es := es) (at_ := at_ i) w (f es)).
Proof using Hi.
  intros Hlen En Eq Hr Hn Hg. unfold turn_others. destruct (lookup_lt_is_Some_2 l n) as [wn Ewn]; [rewrite Hlen; by eapply lookup_lt_Some|]. rewrite Ewn. cbn [from_opt mbind result_bind].
  assert (Hk : w_key wn = k).
  { destruct (Hn wn Ewn) as (_ & _ & _ & _ & Hk). by rewrite Eq in Hk. }
  rewrite Hk. destruct (each_ok (fun i child => if (i =? n)%nat then Ok child else g k child)
    (fun i w => forall es', ess !! i = Some es' -> w_at I (es := es') (at_ := at_ i) w (if decide (i = n) then q else f es')) l 0) as (l' & -> & Hlen' & Hl').
  { intros i w Ew. cbn [Nat.add]. destruct (lookup_lt_is_Some_2 ess i) as [es' Ei]; [rewrite <- Hlen; by eapply lookup_lt_Some|]. destruct (Nat.eqb_spec i n) as [->|Hne].
    - exists w. split; [done|]. intros es1 E1. rewrite decide_True by done. rewrite En in E1. injection E1 as <-. by apply Hn.
    - destruct (Hg i es' w Hne Ei (Hr i w Ew)) as (w' & E & Hw'). exists w'. split; [done|]. intros es1 E1. rewrite decide_False by done. rewrite Ei in E1. by injection E1 as <-. }
  exists l'. split; [done|]. split; [congruence|]. cbn [Nat.add] in Hl'. split.
  - intros w Ew. specialize (Hl' n w Ew es En). by rewrite decide_True in Hl'.
  - intros i es' w Hne Ei Ew. specialize (Hl' i w Ew es' Ei). by rewrite decide_False in Hl'.
Qed.

Lemma MI_next m p : mg_at m p -> (p < length merged)%nat -> exists m', MI_Next I c m = Ok m' /\ mg_at m' (Datatypes.S p).
Proof using Ho Hc Hi Hess Hperm Hsorted Hok.
  intros (P & Hd & Hp & -> & Hch) Hlt. unfold chosen in Hch. destruct (lookup_lt_is_Some_2 merged _ Hlt) as [[k v] Em]. rewrite Em in Hch. destruct Hch as (n & es & En & Ei & Eq).
  assert (Hk : (k, v) ∈ es) by (by eapply list_elem_of_lookup_2). assert (Hkok : ok k) by (apply (merged_ok (k, v)); by eapply list_elem_of_lookup_2).
  unfold MI_Next. rewrite En. cbn [from_opt mbind result_bind]. destruct (cut_at es _ k v (child_sorted n es Ei) Eq) as [Hcl Hcle].
  set (q := pos (direction_ m) P es) in *. assert (Hql : (q < length es)%nat) by (by eapply lookup_lt_Some).
  assert (Hturn : exists l', (match direction_ m with kForward => Ok (children_ m) | kReverse => turn_others (turn_forward I c) n (children_ m) end) = Ok l' /\
    length l' = length ess /\ (forall w, l' !! n = Some w -> w_at I (es := es) (at_ := at_ n) w q) /\
    (forall i es w, i <> n -> ess !! i = Some es -> l' !! i = Some w -> w_at I (es := es) (at_ := at_ i) w (cut (fun x => ord x k <=? 0) es))).
  { destruct (direction_ m) eqn:Ed.
    - exists (children_ m). split; [done|]. split; [apply Hp|]. split; [intros w Ew; by apply Hp|]. intros i es' w Hne Ei' Ew.
      rewrite (other_le _ k v n es i es' Em Ei Hk Ei' Hne), <- (other_cut kForward P k v n es i es' Hd Em Ei Hk Ei' Hne). by apply Hp.
    - apply (turn_ok (turn_forward I c) (cut (fun x => ord x k <=? 0)) _ n es q k v); [apply Hp|done|done|by eapply placed_ready|intros w Ew; by apply Hp|].
      intros i es' w Hne Ei' Hr. unfold turn_forward. pose proof (Wrapper_spec I (Hi := Hi i es' Ei')) as HW.
      destruct (is_seek (IteratorSpec := HW) w k Hr Hkok) as (w' & t & E & Hw' & Hsk). rewrite E. cbn [mbind result_bind]. apply seeks_cut in Hsk. subst t.
      rewrite (other_le _ k v n es i es' Em Ei Hk Ei' Hne). pose proof (is_entry (IteratorSpec := HW) _ _ Hw') as He. cbn [it_Valid it_key WrapperIterator] in He.
      destruct (es' !! cut (fun x => ord x k <? 0) es') as [[k' v']|] eqn:E'; [|rewrite He; by exists w'].
      destruct He as (Hv & Hkey & _). injection Hkey as Hkey. rewrite Hv, Hkey.
      assert (Hk' : (k', v') ∈ es') by (by eapply list_elem_of_lookup_2).
      destruct (other_entry _ k v n es i es' k' v' Em Ei Hk Ei' Hne Hk') as (p' & Ep' & Hp').
      rewrite Hc by (done || (apply (merged_ok (k', v')); by eapply list_elem_of_lookup_2)). cbn [mbind result_bind].
      assert (Hne0 : ord k k' <> 0). { destruct Hp' as [[_ Hlt1]|(_ & Hlt1 & _)]; [apply (co_sym ord) in Hlt1|]; lia. }
      rewrite (proj2 (Z.eqb_neq _ _)) by done. by exists w'. }
  destruct Hturn as (l' & -> & Hlen & Hn & Hothers). cbn [mbind result_bind].
  destruct (step_current_ok (it_Next (WrapperIterator I)) (cut (fun x => ord x k <=? 0)) l' n es q Hlen Ei Hothers) as (l2 & -> & Hp2).
  { intros w Ew. split; [by apply Hn|]. rewrite Hcle. apply (is_next (IteratorSpec := Wrapper_spec I (Hi := Hi n es Ei))); [by apply Hn|done]. }
  cbn [mbind result_bind]. destruct (choose_at kForward (fun x => ord x k <=? 0) l2 (down_le ord k) Hp2) as (o & E & Hat). cbn [find] in E. rewrite E. cbn [mbind result_bind].
  eexists. split; [done|]. cbn [pos] in Hat. by rewrite (proj2 (cut_at merged _ k v Hsorted Em)) in Hat.
Qed.

Lemma MI_prev m p : mg_at m p -> (p < length merged)%nat -> exists m', MI_Prev I c m = Ok m' /\ mg_at m' (bef merged p).
Proof using Ho Hc Hi Hess Hperm Hsorted Hok.
  intros (P & Hd & Hp & -> & Hch) Hlt. unfold chosen in Hch. destruct (lookup_lt_is_Some_2 merged _ Hlt) as [[k v] Em]. rewrite Em in Hch. destruct Hch as (n & es & En & Ei & Eq).
  assert (Hk : (k, v) ∈ es) by (by eapply list_elem_of_lookup_2). assert (Hkok : ok k) by (apply (merged_ok (k, v)); by eapply list_elem_of_lookup_2).
  unfold MI_Prev. rewrite En. cbn [from_opt mbind result_bind]. destruct (cut_at es _ k v (child_sorted n es Ei) Eq) as [Hcl Hcle].
  set (q := pos (direction_ m) P es) in *. assert (Hql : (q < length es)%nat) by (by eapply lookup_lt_Some).
  set (f := fun es => bef es (cut (fun x => ord x k <? 0) es)).
  assert (Hturn : exists l', (match direction_ m with kReverse => Ok (children_ m) | kForward => turn_others (turn_back I) n (children_ m) end) = Ok l' /\
    length l' = length ess /\ (forall w, l' !! n = Some w -> w_at I (es := es) (at_ := at_ n) w q) /\
    (forall i es w, i <> n -> ess !! i = Some es -> l' !! i = Some w -> w_at I (es := es) (at_ := at_ i) w (f es))).
  { destruct (direction_ m) eqn:Ed.
    - apply (turn_ok (turn_back I) f _ n es q k v); [apply Hp|done|done|by eapply placed_ready|intros w Ew; by apply Hp|].
      intros i es' w Hne Ei' Hr. unfold turn_back. pose proof (Wrapper_spec I (Hi := Hi i es' Ei')) as HW.
      destruct (is_seek (IteratorSpec := HW) w k Hr Hkok) as (w' & t & E & Hw' & Hsk). rewrite E. cbn [mbind result_bind]. apply seeks_cut in Hsk. subst t.
      pose proof (is_entry (IteratorSpec := HW) _ _ Hw') as He. cbn [it_Valid it_key WrapperIterator] in He. unfold f. pose proof (cut_le (fun x => ord x k <? 0) es') as Hle.
      destruct (es' !! cut (fun x => ord x k <? 0) es') as [[k' v']|] eqn:E'.
      + destruct He as (-> & _). apply lookup_lt_Some in E'. apply (is_prev (IteratorSpec := HW) _ _ Hw' E').
      + rewrite He. apply lookup_ge_None in E'. destruct (is_last (IteratorSpec := HW) w') as (w2 & E2 & Hw2); [by eapply (is_ready (IteratorSpec := HW))|].
        exists w2. split; [done|]. replace (cut (fun x => ord x k <? 0) es') with (length es') by lia. destruct (length es') eqn:El; cbn [bef]; [by rewrite El|]. by replace (Datatypes.S n0 - 1)%nat with n0 in Hw2 by lia.
    - exists (children_ m). split; [done|]. split; [apply Hp|]. split; [intros w Ew; by apply Hp|]. intros i es' w Hne Ei' Ew. unfold f.
      rewrite <- (other_cut kReverse P k v n es i es' Hd Em Ei Hk Ei' Hne). by apply Hp. }
  destruct Hturn as (l' & -> & Hlen & Hn & Hothers). cbn [mbind result_bind].
  destruct (step_current_ok (it_Prev (WrapperIterator I)) f l' n es q Hlen Ei Hothers) as (l2 & -> & Hp2).
  { intros w Ew. split; [by apply Hn|]. unfold f. rewrite Hcl. apply (is_prev (IteratorSpec := Wrapper_spec I (Hi := Hi n es Ei))); [by apply Hn|done]. }
  cbn [mbind result_bind]. destruct (choose_at kReverse (fun x => ord x k <? 0) l2 (down_lt ord k) Hp2) as (o & E & Hat). cbn [find] in E. rewrite E. cbn [mbind result_bind].
  eexists. split; [done|]. cbn [pos] in Hat. by rewrite (proj1 (cut_at merged _ k v Hsorted Em)) in Hat.
Qed.

Lemma children_status_ok l : (forall i w, l !! i = Some w -> it_status (WrapperIterator I) w = Ok StOK) -> children_status I l StOK = Ok StOK.
Proof.
  induction l as [|w l IH]; intros Hl; [done|]. cbn [children_status]. rewrite (Hl 0%nat w eq_refl). cbn [mbind result_bind status_ok negb]. apply IH. intros i x E. by apply (Hl (Datatypes.S i)).
Qed.

#[export] Instance Merging_spec : IteratorSpec (MergingIterator I c) ok ord merged mg_ready mg_at.
Proof using Ho Hc Hi Hess Hperm Hsorted Hok.
  split; cbn [it_Valid it_key it_value it_status it_Seek it_SeekToFirst it_SeekToLast it_Next it_Prev MergingIterator].
  - apply mg_at_ready.
  - intros m [Hlen Hr]. apply children_status_ok. intros i w Ew. destruct (lookup_lt_is_Some_2 ess i) as [es Ei]; [rewrite <- Hlen; by eapply lookup_lt_Some|].
    apply (is_status (IteratorSpec := Wrapper_spec I (Hi := Hi i es Ei))). by eapply Hr.
  - intros m p (P & Hd & Hp & -> & Hch). unfold chosen in Hch. unfold MI_Valid, current_child. destruct (merged !! pos (direction_ m) P merged) as [[k v]|]; [|by rewrite Hch].
    destruct Hch as (n & es & -> & Ei & Eq). split; [done|]. cbn [from_opt mbind result_bind]. destruct (lookup_lt_is_Some_2 (children_ m) n) as [w Ew].
    { destruct Hp as [-> _]. by eapply lookup_lt_Some. }
    rewrite Ew. cbn [from_opt mbind result_bind]. pose proof (is_entry (IteratorSpec := Wrapper_spec I (Hi := Hi n es Ei)) _ _ (proj2 Hp n es w Ei Ew)) as He.
    rewrite Eq in He. by destruct He as (_ & -> & ->).
  - intros m Hr. destruct (position_ok (it_SeekToFirst (WrapperIterator I)) kForward (fun _ => false) m) as (m' & E & Hm'); [done|done| |].
    { intros i es w Ei Hw. cbn [pos]. rewrite cut_const. apply (is_first (IteratorSpec := Wrapper_spec I (Hi := Hi i es Ei)) w Hw). }
    exists m'. split; [done|]. cbn [pos] in Hm'. by rewrite cut_const in Hm'.
  - assert (Hbl : forall es : entries, bef es (length es) = (length es - 1)%nat). { intros es. destruct (length es) eqn:El; cbn [bef]; [by rewrite El|lia]. }
    intros m Hr. destruct (position_ok (it_SeekToLast (WrapperIterator I)) kReverse (fun _ => true) m) as (m' & E & Hm'); [done|done| |].
    { intros i es w Ei Hw. cbn [pos]. rewrite cut_const, Hbl. apply (is_last (IteratorSpec := Wrapper_spec I (Hi := Hi i es Ei)) w Hw). }
    exists m'. split; [done|]. cbn [pos] in Hm'. by rewrite cut_const, Hbl in Hm'.
  - intros m target Hr Hok'. destruct (position_ok (it_Seek (WrapperIterator I) target) kForward (fun x => ord x target <? 0) m (down_lt ord target) Hr) as (m' & E & Hm').
    { intros i es w Ei Hw. cbn [pos]. destruct (is_seek (IteratorSpec := Wrapper_spec I (Hi := Hi i es Ei)) w target Hw Hok') as (w' & t & E & Hw' & Ht).
      apply seeks_cut in Ht. subst t. by exists w'. }
    eexists m', _. split; [done|]. split; [done|]. cbn [pos]. split; [apply cut_le|]. split.
    + intros n k v Hn En. apply Z.ltb_lt. by apply (proj2 (cut_spec ord (fun x => ord x target <? 0) merged n k v Hsorted (down_lt ord target) En)).
    + intros k v En. destruct (Z.le_gt_cases 0 (ord k target)) as [|Hlt]; [done|]. apply Z.ltb_lt in Hlt.
      apply (cut_spec ord (fun x => ord x target <? 0) merged _ k v Hsorted (down_lt ord target) En) in Hlt. lia.
  - apply MI_next.
  - apply MI_prev.
Qed.

(** New children stand nowhere. *)
Lemma MergingIterator_new_ready ss : length ss = length ess -> (forall i s, ss !! i = Some s -> ready i s /\ it_Valid I s = false) ->
  exists m, MergingIterator_new I ss = Ok m /\ mg_ready m /\ MI_Valid m = false.
Proof.
  intros Hlen Hr. unfold MergingIterator_new.
  destruct (each_ok (fun i w => Wrapper_Set I (ss !! i) w) (fun i w => w_ready (ready := ready i) w) (replicate (length ss) Wrapper_new) 0) as (l & -> & Hl & Hq).
  { intros i w (_ & Hlt)%lookup_replicate. destruct (lookup_lt_is_Some_2 ss i Hlt) as [s Es]. destruct (Hr i s Es) as [Hrs Hv]. cbn [Nat.add]. rewrite Es. cbn [Wrapper_Set].
    unfold Update. rewrite Hv. eexists. split; [done|]. by exists s. }
  cbn [mbind result_bind]. eexists. split; [done|]. split; [|done]. rewrite length_replicate in Hl. split; cbn [children_]; [congruence|exact Hq].
Qed.

End proofs.

(** ** Results *)


(** A list and a position in it as the state of an iterator, so that children may differ. *)
Definition PairIterator (ord : list Z -> list Z -> Z) : Iterator (list (list Z * list Z) * nat) :=
  let L es := ListIterator ord es in
  let on f s := n ← f (L s.1) s.2; Ok (s.1, n) in
  mkIterator _ (fun s => it_Valid (L s.1) s.2) (fun s => it_key (L s.1) s.2) (fun s => it_value (L s.1) s.2) (fun s => it_status (L s.1) s.2)
    (fun k => on (fun l => it_Seek l k)) (on it_SeekToFirst) (on it_SeekToLast) (on it_Next) (on it_Prev).

Lemma PairIterator_spec ord ok es : StronglySorted (fun x y => ord x.1 y.1 < 0) es ->
  IteratorSpec (PairIterator ord) ok ord es (fun s => s.1 = es) (fun s i => s = (es, i)).
Proof.
  intros Hs. pose proof (ListIterator_spec ord es ok Hs) as Hl.
  split; cbn -[ListIterator].
  - by intros s i ->.
  - intros [l n] E. cbn -[ListIterator] in *. subst l. by apply (is_status (IteratorSpec := Hl)).
  - intros s i ->. cbn -[ListIterator]. by apply (is_entry (IteratorSpec := Hl)).
  - intros [l n] E. cbn -[ListIterator] in *. subst l. destruct (is_first (IteratorSpec := Hl) n) as (n' & E & <-); [done|]. rewrite E. by eexists.
  - intros [l n] E. cbn -[ListIterator] in *. subst l. destruct (is_last (IteratorSpec := Hl) n) as (n' & E & <-); [done|]. rewrite E. by eexists.
  - intros [l n] target E Ht. cbn -[ListIterator] in *. subst l. destruct (is_seek (IteratorSpec := Hl) n target) as (n' & t & E & <- & Hk); [done..|]. rewrite E. by eexists _, n'.
  - intros s i -> Hlt. cbn -[ListIterator]. destruct (is_next (IteratorSpec := Hl) i i) as (n' & E & <-); [done..|]. rewrite E. by eexists.
  - intros s i -> Hlt. cbn -[ListIterator]. destruct (is_prev (IteratorSpec := Hl) i i) as (n' & E & <-); [done..|]. rewrite E. by eexists.
Qed.

