(* ===== verification/TableFormat.v ===== *)
(** * The format of table files

    table/format.cc with the random-access files of util/env_posix.cc: block handles, the
    footer, and reading a block with its checksum; and the iterators of table/block.cc
    behind the interface of [Iterators].  Buffers are always allocated; that they are
    freed is left out. *)

From Stdlib Require Import Sorted.
From S2P Require Import Prelude Coding CRC32C TXMemStore InternalKey Block Iterators.

(** ** BlockHandle *)

Record BlockHandle := mkHandle { h_offset : Z; h_size : Z }.

Definition BlockHandle_new : BlockHandle := mkHandle (2 ^ 64 - 1) (2 ^ 64 - 1).

Definition Handle_EncodeTo (h : BlockHandle) (dst : list Z) : result (list Z) :=
  dst ← PutVarint64 dst (h_offset h); PutVarint64 dst (h_size h).

(** The status, what the handle becomes, and what is left of [*input]. *)
Definition Handle_DecodeFrom (h : BlockHandle) (input : list Z) : Status * BlockHandle * list Z :=
  match GetVarint64 input with
  | Some (offset, input) =>
      match GetVarint64 input with
      | Some (size, input) => (StOK, mkHandle offset size, input)
      | None => (StCorruption BadHandle, mkHandle offset (h_size h), input)
      end
  | None => (StCorruption BadHandle, h, input)
  end.

(** ** Footer *)

Definition kMaxEncodedLength : nat := 10 + 10.
Definition kEncodedLength : nat := 2 * kMaxEncodedLength + 8.
Definition kTableMagicNumber : Z := 0xdb4775248b80fb57.

Record Footer := mkFooter { metaindex_handle : BlockHandle; index_handle : BlockHandle }.

Definition Footer_new : Footer := mkFooter BlockHandle_new BlockHandle_new.

(** [std::string::resize], which cuts or pads with zeros. *)
Definition resize_string (n : nat) (s : list Z) : list Z := take n s ++ replicate (n - length s) 0.

Definition Footer_EncodeTo (f : Footer) (dst : list Z) : result (list Z) :=
  dst ← Handle_EncodeTo (metaindex_handle f) dst;
  dst ← Handle_EncodeTo (index_handle f) dst;
  let dst := resize_string (2 * kMaxEncodedLength) dst in
  let dst := PutFixed32 dst (u32 (Z.land kTableMagicNumber 0xffffffff)) in
  Ok (PutFixed32 dst (u32 (Z.shiftr kTableMagicNumber 32))).

(** The magic number is read at a fixed distance, whatever the length of the input. *)
Definition Footer_DecodeFrom (f : Footer) (input : list Z) : result (Status * Footer * list Z) :=
  magic_lo ← DecodeFixed32 (drop (kEncodedLength - 8) input);
  magic_hi ← DecodeFixed32 (drop (kEncodedLength - 4) input);
  let magic := Z.lor (u64 (Z.shiftl magic_hi 32)) magic_lo in
  if negb (magic =? kTableMagicNumber) then Ok (StInvalidArgument, f, input)
  else
    let '(s, meta, rest) := Handle_DecodeFrom (metaindex_handle f) input in
    if status_ok s then
      let '(s, index, rest) := Handle_DecodeFrom (index_handle f) rest in
      if status_ok s then Ok (s, mkFooter meta index, drop kEncodedLength input) else Ok (s, mkFooter meta index, rest)
    else Ok (s, mkFooter meta (index_handle f), rest).

(** ** Random-access files *)

(** [rf_mmap]: the file is mapped into memory, otherwise it is read by [pread], which fails
    for some calls. *)
Record RandomAccessFile := mkRAFile { rf_data : list Z; rf_mmap : bool; rf_fails : Z -> Z -> bool }.

Definition RA_Read (f : RandomAccessFile) (offset n : Z) : result (Status * list Z) :=
  let bytes := take (Z.to_nat n) (drop (Z.to_nat offset) (rf_data f)) in
  if rf_mmap f then
    if Z.of_nat (length (rf_data f)) <? u64 (offset + n) then Ok (StIOError, [])
    else if offset + n <=? Z.of_nat (length (rf_data f)) then Ok (StOK, bytes)
    else Fault OutOfBounds
  else if rf_fails f offset n || (2 ^ 63 <=? offset) then Ok (StIOError, [])
  else Ok (StOK, bytes).

(** ** ReadBlock *)

Definition kBlockTrailerSize : Z := 5.

Inductive CompressionType := kNoCompression | kSnappyCompression.

Definition compression_code (t : CompressionType) : Z := match t with kNoCompression => 0 | kSnappyCompression => 1 end.

Record BlockContents := mkContents { c_data : list Z; cachable : bool; heap_allocated : bool }.

Record ReadOptions := mkReadOptions { verify_checksums : bool; fill_cache : bool }.

Definition ReadOptions_new : ReadOptions := mkReadOptions false true.

(** The functions of port/port_posix.h that stand for the Snappy library; [None] is the
    result [false]. *)
Record Snappy := mkSnappy {
  Snappy_Compress : list Z -> option (list Z);
  Snappy_GetUncompressedLength : list Z -> option Z;
  Snappy_Uncompress : list Z -> option (list Z) }.

(** A build without [SNAPPY]. *)
Definition no_snappy : Snappy := mkSnappy (fun _ => None) (fun _ => None) (fun _ => None).

Section read_block.
Context (port : Snappy) (buf : addr).

Definition ReadBlock (file : RandomAccessFile) (options : ReadOptions) (handle : BlockHandle) : result (Status * BlockContents) :=
  let none := mkContents [] false false in
  let n := h_size handle in
  let total := u64 (n + kBlockTrailerSize) in
  '(s, contents) ← RA_Read file (h_offset handle) total;
  if negb (status_ok s) then Ok (s, none)
  else if negb (Z.of_nat (length contents) =? total) then Ok (StCorruption TruncatedBlock, none)
  else
    good ← (if verify_checksums options then
              crc ← DecodeFixed32 (drop (Z.to_nat (n + 1)) contents);
              actual ← Value buf (take (Z.to_nat (n + 1)) contents);
              Ok (actual =? Unmask crc)
            else Ok true);
    if negb good then Ok (StCorruption BlockChecksum, none)
    else
      type ← from_opt OutOfBounds (contents !! Z.to_nat n);
      let data := take (Z.to_nat n) contents in
      if type =? 0 then Ok (StOK, mkContents data (negb (rf_mmap file)) (negb (rf_mmap file)))
      else if type =? 1 then
        match Snappy_GetUncompressedLength port data with
        | None => Ok (StCorruption BadCompressed, none)
        | Some ulength =>
            match Snappy_Uncompress port data with
            | None => Ok (StCorruption BadCompressed, none)
            | Some u => if Z.of_nat (length u) =? ulength then Ok (StOK, mkContents u true true) else Fault Undefined
            end
        end
      else Ok (StCorruption BadBlockType, none).

End read_block.

(** What the library promises: what was compressed is uncompressed. *)
Class SnappySpec (port : Snappy) : Prop := {
  sn_round raw c : bytes raw -> Snappy_Compress port raw = Some c ->
    bytes c /\ Snappy_GetUncompressedLength port c = Some (Z.of_nat (length raw)) /\ Snappy_Uncompress port c = Some raw }.

#[export] Instance no_snappy_spec : SnappySpec no_snappy.
Proof. split. done. Qed.

(** ** The iterators over a block *)

(** [Block::NewIterator] returns an iterator over the block or one that is empty. *)
Inductive BlockIter := BIter (data : list Z) (restarts num : Z) (it : Iter) | BEmpty (s : Status).

Section block_iterator.
Context (comparator : Comparator).

Definition bi_move (f : list Z -> Z -> Z -> Iter -> result Iter) (s : BlockIter) : result BlockIter :=
  match s with
  | BIter data restarts num it => it ← f data restarts num it; Ok (BIter data restarts num it)
  | BEmpty st => Ok s
  end.

Definition BlockIterator : Iterator BlockIter :=
  mkIterator _ (fun s => match s with BIter _ restarts _ it => Valid restarts it | BEmpty _ => false end)
    (fun s => match s with BIter _ _ _ it => Ok (key_ it) | BEmpty _ => Ok [] end)
    (fun s => match s with BIter data _ _ it => value data it | BEmpty _ => Ok [] end)
    (fun s => match s with BIter _ _ _ it => Ok (if corrupted it then StCorruption BadEntry else StOK) | BEmpty st => Ok st end)
    (fun target => bi_move (fun data restarts num => Seek comparator data restarts num target))
    (bi_move SeekToFirst) (bi_move SeekToLast) (bi_move Next) (bi_move Prev).

Definition Block_NewIterator (b : Block) : result BlockIter :=
  r ← NewIterator b;
  match r with
  | inl true => Ok (BEmpty (StCorruption BadContents))
  | inl false => Ok (BEmpty StOK)
  | inr (restarts, num) => Ok (BIter (data_ b) restarts num (Iter_new restarts num))
  end.

End block_iterator.

(** ** Iterators over finished blocks *)

Abbreviation pairs lay := ((fun e => (e_key e, e_value e)) <$> lay) (only parsing).

(** An iterator over the bytes [data] of a block with the entries [es]. *)
Definition bi_shape (data : list Z) (es : entries) (lay : list entry) (rs : list nat) : Prop :=
  data = block_bytes lay rs /\ block_ok lay rs /\ pairs lay = es.

Definition bi_ready (data : list Z) (es : entries) (s : BlockIter) : Prop :=
  exists lay rs it, bi_shape data es lay rs /\ corrupted it = false /\
    s = BIter data (Z.of_nat (length (entries_bytes lay))) (Z.of_nat (length rs)) it.

Definition bi_at (data : list Z) (es : entries) (s : BlockIter) (i : nat) : Prop :=
  exists lay rs it, bi_shape data es lay rs /\ stands lay rs it i /\
    s = BIter data (Z.of_nat (length (entries_bytes lay))) (Z.of_nat (length rs)) it.

Lemma bi_moved data es lay rs it f i it' : bi_shape data es lay rs ->
  f data (Z.of_nat (length (entries_bytes lay))) (Z.of_nat (length rs)) it = Ok it' -> stands lay rs it' i ->
  exists s', bi_move f (BIter data (Z.of_nat (length (entries_bytes lay))) (Z.of_nat (length rs)) it) = Ok s' /\ bi_at data es s' i.
Proof. intros Hs E Hi. cbn [bi_move]. rewrite E. eexists. split; [done|]. by exists lay, rs, it'. Qed.

Section spec.
Context (c : Comparator) (ok : list Z -> Prop) (ord : list Z -> list Z -> Z) `{Hc : !ComparatorSpec c ok ord}.

Lemma BlockIterator_spec data es : Forall (fun kv => ok kv.1) es -> StronglySorted (fun x y => ord x.1 y.1 < 0) es ->
  IteratorSpec (BlockIterator c) ok ord es (bi_ready data es) (bi_at data es).
Proof using Hc.
  intros Hk Hsort.
  assert (Hlen : forall lay rs, bi_shape data es lay rs -> length es = length lay) by (intros lay rs (_ & _ & <-); by rewrite length_fmap).
  split; cbn [it_Valid it_key it_value it_status it_Seek it_SeekToFirst it_SeekToLast it_Next it_Prev BlockIterator].
  - intros s i (lay & rs & it & Hs & Hst & ->). exists lay, rs, it. split_and!; [done|apply Hst|done].
  - intros s (lay & rs & it & _ & Hcor & ->). by rewrite Hcor.
  - intros s i (lay & rs & it & (-> & Hok & <-) & Hst & ->). pose proof Hst as [Hcor Hs]. rewrite list_lookup_fmap.
    destruct (lay !! i) as [e|] eqn:Ei; cbn [fmap option_fmap option_map].
    + destruct Hs as (Hcur & Hkey & _). rewrite Hkey, (value_ok lay rs Hok it i e Ei Hst). split; [|done]. unfold Valid. rewrite Hcur. apply Z.ltb_lt.
      pose proof (lookup_lt_Some _ _ _ Ei). pose proof (off_lt lay i (length lay)) as Hlt. rewrite off_end in Hlt. lia.
    + unfold Valid. rewrite Hs. apply Z.ltb_irrefl.
  - intros s (lay & rs & it & Hs & Hcor & ->). pose proof Hs as (-> & Hok & _). destruct (SeekToFirst_ok lay rs Hok it Hcor) as (it' & E & Hst).
    by eapply bi_moved.
  - intros s (lay & rs & it & Hs & Hcor & ->). rewrite (Hlen _ _ Hs). pose proof Hs as (-> & Hok & _). destruct (SeekToLast_ok lay rs Hok it Hcor) as (it' & E & Hst).
    by eapply bi_moved.
  - intros s target (lay & rs & it & Hs & Hcor & ->) Htgt. pose proof Hs as (-> & Hok & <-).
    destruct (Seek_ok lay rs Hok c ok ord (cs_compare (ord := ord))) with (target := target) (it := it)
      as (it' & t & E & Hst & Ht & Hlow & Hge); [by apply (proj1 (Forall_fmap _ _ _)) in Hk| |exact Htgt|exact Hcor|].
    { clear -Hsort. induction lay as [|e l IH]; [constructor|]. cbn in Hsort. inversion_clear Hsort as [|? ? Hs Hf]. constructor; [by apply IH|]. by apply Forall_fmap in Hf. }
    destruct (bi_moved _ _ lay rs it (fun data restarts num => Seek c data restarts num target) t it' Hs E Hst) as (s' & E' & Hs').
    exists s', t. split_and!; [done|done|]. split; [by rewrite length_fmap|]. split.
    + intros m k v Hm (e & [= -> ->] & He)%list_lookup_fmap_Some_1. by eapply Hlow.
    + intros k v (e & [= -> ->] & He)%list_lookup_fmap_Some_1. by apply Hge.
  - intros s i (lay & rs & it & Hs & Hst & ->) Hi. rewrite (Hlen _ _ Hs) in Hi. pose proof Hs as (-> & Hok & _).
    destruct (Next_ok lay rs Hok it i Hi Hst) as (it' & E & Hst'). by eapply bi_moved.
  - intros s i (lay & rs & it & Hs & Hst & ->) Hi. rewrite (Hlen _ _ Hs) in *. pose proof Hs as (-> & Hok & _).
    destruct (Prev_ok lay rs Hok it i Hi Hst) as (it' & E & Hst'). by eapply bi_moved.
Qed.

End spec.

(** A finished block is opened. *)
Lemma block_opens interval es : 1 <= interval -> Forall (fun kv => Z.of_nat (length kv.1) < 2 ^ 31 /\ Z.of_nat (length kv.2) < 2 ^ 31) es ->
  Z.of_nat (length (Finish (build interval es))) < 2 ^ 31 ->
  exists b s, Block_new (Finish (build interval es)) = Ok b /\ Block_NewIterator b = Ok s /\
    bi_ready (Finish (build interval es)) es s /\ forall c, it_Valid (BlockIterator c) s = false.
Proof.
  intros Hint Hes Hsize. destruct (build_built interval es Hint Hes) as (lay & rs & Hb & El).
  destruct (Finish_built _ lay rs Hb Hsize) as [E Hok]. rewrite E. destruct (Block_new_ok lay rs Hok) as (b & Eb & Ed & Ei).
  exists b, (BIter (block_bytes lay rs) (Z.of_nat (length (entries_bytes lay))) (Z.of_nat (length rs))
    (Iter_new (Z.of_nat (length (entries_bytes lay))) (Z.of_nat (length rs)))). split; [done|]. split; [|split].
  - unfold Block_NewIterator. rewrite Ei. cbn [mbind result_bind]. by rewrite Ed.
  - exists lay, rs, (Iter_new (Z.of_nat (length (entries_bytes lay))) (Z.of_nat (length rs))). by split.
  - intros c. cbn. unfold Valid. apply Z.ltb_irrefl.
Qed.

(** ** Handles and footers *)

Definition handle_fits (h : BlockHandle) : Prop := 0 <= h_offset h < 2 ^ 64 /\ 0 <= h_size h < 2 ^ 64.

Lemma PutVarint64_ok dst v : 0 <= v < 2 ^ 64 -> exists l, PutVarint64 dst v = Ok (dst ++ l) /\ varint v l /\ (1 <= length l <= 10)%nat.
Proof.
  intros Hv. destruct (EncodeVarint64_varint v Hv) as (l & E & Hl). exists l.
  assert (Hn : (length l <= 10)%nat) by (apply (varint_length_le v l 10); [lia|done|]; change (128 ^ Z.of_nat 10) with (2 ^ 70); lia).
  unfold PutVarint64. rewrite E. cbn [mbind result_bind]. rewrite (proj2 (Nat.leb_le _ _)) by lia. split; [done|]. split; [done|].
  split; [destruct Hl; cbn; lia|done].
Qed.

(** The bytes of a handle. *)
Lemma handle_encoding h dst : handle_fits h -> exists l, Handle_EncodeTo h dst = Ok (dst ++ l) /\ bytes l /\ (2 <= length l <= kMaxEncodedLength)%nat /\
  forall h' rest, Handle_DecodeFrom h' (l ++ rest) = (StOK, h, rest).
Proof.
  intros [Ho Hs]. destruct (PutVarint64_ok dst _ Ho) as (l1 & E1 & V1 & L1). destruct (PutVarint64_ok (dst ++ l1) _ Hs) as (l2 & E2 & V2 & L2).
  exists (l1 ++ l2). unfold Handle_EncodeTo. rewrite E1. cbn [mbind result_bind]. rewrite E2, <- app_assoc. split; [done|].
  split; [apply Forall_app; split; by eapply varint_bytes|]. split; [rewrite length_app; unfold kMaxEncodedLength; lia|].
  intros h' rest. unfold Handle_DecodeFrom. rewrite <- app_assoc, (GetVarint64_varint _ _ _ V1), (GetVarint64_varint _ _ _ V2) by lia. by destruct h.
Qed.

(** A footer is 48 bytes and is read back. *)
Lemma footer_encoding f : handle_fits (metaindex_handle f) -> handle_fits (index_handle f) ->
  exists l, Footer_EncodeTo f [] = Ok l /\ bytes l /\ length l = kEncodedLength /\
    forall f' rest, Footer_DecodeFrom f' (l ++ rest) = Ok (StOK, f, rest).
Proof.
  intros Hm Hi. destruct (handle_encoding _ [] Hm) as (l1 & E1 & B1 & L1 & D1). destruct (handle_encoding _ l1 Hi) as (l2 & E2 & B2 & L2 & D2).
  set (pad := replicate (2 * kMaxEncodedLength - length (l1 ++ l2)) 0).
  set (lo := EncodeFixed32 (u32 (Z.land kTableMagicNumber 0xffffffff))). set (hi := EncodeFixed32 (u32 (Z.shiftr kTableMagicNumber 32))).
  assert (Hll : (length (l1 ++ l2) <= 2 * kMaxEncodedLength)%nat) by (rewrite length_app; unfold kMaxEncodedLength in *; lia).
  assert (Hres : resize_string (2 * kMaxEncodedLength) (l1 ++ l2) = (l1 ++ l2) ++ pad) by (unfold resize_string; by rewrite take_ge by done).
  assert (Hlp : length ((l1 ++ l2) ++ pad) = (2 * kMaxEncodedLength)%nat) by (rewrite length_app; unfold pad; rewrite length_replicate; lia).
  exists (((l1 ++ l2) ++ pad) ++ lo ++ hi). split.
  { unfold Footer_EncodeTo. rewrite E1. cbn [mbind result_bind app]. rewrite E2. cbn [mbind result_bind]. rewrite Hres. unfold PutFixed32. by rewrite <- app_assoc. }
  split.
  { repeat (apply Forall_app; split); [done|done|apply Forall_replicate; lia|apply le_bytes_bytes|apply le_bytes_bytes]. }
  split; [rewrite length_app, Hlp; unfold lo, hi, EncodeFixed32; rewrite length_app, !length_le_bytes; reflexivity|].
  intros f' rest. unfold Footer_DecodeFrom.
  change (kEncodedLength - 8)%nat with (2 * kMaxEncodedLength)%nat. change (kEncodedLength - 4)%nat with (2 * kMaxEncodedLength + 4)%nat.
  assert (El : drop (2 * kMaxEncodedLength) ((((l1 ++ l2) ++ pad) ++ lo ++ hi) ++ rest) = lo ++ hi ++ rest).
  { rewrite <- (app_assoc _ (lo ++ hi)), <- (app_assoc lo). apply drop_app_length'. by rewrite Hlp. }
  assert (Eh : drop (2 * kMaxEncodedLength + 4) ((((l1 ++ l2) ++ pad) ++ lo ++ hi) ++ rest) = hi ++ rest).
  { rewrite <- drop_drop, El. apply (drop_app_length' lo (hi ++ rest) 4). by unfold lo, EncodeFixed32; rewrite length_le_bytes. }
  assert (Elo : DecodeFixed32 (lo ++ hi ++ rest) = Ok (u32 (Z.land kTableMagicNumber 0xffffffff))) by (by apply (DecodeFixed_le 4)).
  assert (Ehi : DecodeFixed32 (hi ++ rest) = Ok (u32 (Z.shiftr kTableMagicNumber 32))) by (by apply (DecodeFixed_le 4)).
  rewrite El, Eh, Elo, Ehi. cbn [mbind result_bind].
  replace (Z.lor _ _ =? kTableMagicNumber) with true by reflexivity. cbn [negb].
  rewrite <- !app_assoc, D1. cbn [status_ok]. rewrite D2. cbn [status_ok].
  do 3 f_equal; [by destruct f|]. rewrite (app_assoc l2), (app_assoc l1), (app_assoc _ lo), (app_assoc _ hi). apply drop_app_length'.
  rewrite !length_app in *. unfold lo, hi, EncodeFixed32. rewrite !length_le_bytes. unfold kEncodedLength. lia.
Qed.

(** ** Blocks in a file *)

Definition trailer (stored : list Z) (type : Z) : list Z := type :: EncodeFixed32 (Mask (crc32c 0 (stored ++ [type]))).

(** The file [data] holds at [h] a block whose contents are [raw]. *)
Definition stored_as (port : Snappy) (raw stored : list Z) (type : Z) : Prop :=
  (type = 0 /\ stored = raw) \/
  (type = 1 /\ Snappy_GetUncompressedLength port stored = Some (Z.of_nat (length raw)) /\ Snappy_Uncompress port stored = Some raw).

Definition stored_at (port : Snappy) (data : list Z) (h : BlockHandle) (raw : list Z) : Prop :=
  exists pre stored type post, data = pre ++ stored ++ trailer stored type ++ post /\ bytes stored /\ stored_as port raw stored type /\
    h = mkHandle (Z.of_nat (length pre)) (Z.of_nat (length stored)).

Lemma stored_at_app port data more h raw : stored_at port data h raw -> stored_at port (data ++ more) h raw.
Proof.
  intros (pre & stored & type & post & -> & Hs & Ha & ->). exists pre, stored, type, (post ++ more). split_and!; [|done..].
  by rewrite <- !app_assoc.
Qed.

Lemma length_trailer stored type : length (trailer stored type) = 5%nat.
Proof. unfold trailer, EncodeFixed32. cbn [length]. by rewrite length_le_bytes. Qed.

Lemma stored_at_length port data h raw : stored_at port data h raw -> h_offset h + h_size h + 5 <= Z.of_nat (length data).
Proof. intros (pre & stored & type & post & -> & _ & _ & ->). cbn [h_offset h_size]. rewrite !length_app, length_trailer. lia. Qed.

(** The calls of [Read] all succeed. *)
Definition readable (file : RandomAccessFile) : Prop :=
  Z.of_nat (length (rf_data file)) < 2 ^ 63 /\ forall offset n, rf_fails file offset n = false.

Lemma RA_Read_ok file pre mid post : readable file -> rf_data file = pre ++ mid ++ post ->
  RA_Read file (Z.of_nat (length pre)) (Z.of_nat (length mid)) = Ok (StOK, mid).
Proof.
  intros [Hlen Hf] E. rewrite E in Hlen. rewrite !length_app in Hlen. unfold RA_Read. rewrite E, !Nat2Z.id, drop_app_length, take_app_length, !length_app.
  destruct (rf_mmap file).
  - rewrite u64_small by lia. rewrite (proj2 (Z.ltb_ge _ _)) by lia. by rewrite (proj2 (Z.leb_le _ _)) by lia.
  - rewrite Hf, (proj2 (Z.leb_gt _ _)) by lia. done.
Qed.

Section reading.
Context (port : Snappy) (buf : addr) (file : RandomAccessFile) (Hfile : readable file).

(** The trailer covers contents and type. *)
Lemma checksum_ok stored type : bytes (stored ++ [type]) ->
  DecodeFixed32 (drop (length stored + 1) (stored ++ trailer stored type)) = Ok (Mask (crc32c 0 (stored ++ [type]))) /\
  Value buf (take (length stored + 1) (stored ++ trailer stored type)) = Ok (crc32c 0 (stored ++ [type])).
Proof using Type.
  intros Hb. split.
  - rewrite drop_app_add. unfold trailer. cbn [drop]. rewrite <- (app_nil_r (EncodeFixed32 _)). apply (DecodeFixed_le 4). apply Mask_range.
  - rewrite take_app_add. unfold trailer. cbn [take]. by apply Extend_ok.
Qed.

Lemma stored_type raw stored type : stored_as port raw stored type -> 0 <= type < 256.
Proof. intros [[-> _]|[-> _]]; lia. Qed.

Lemma ReadBlock_ok options h raw : stored_at port (rf_data file) h raw ->
  exists contents, ReadBlock port buf file options h = Ok (StOK, contents) /\ c_data contents = raw.
Proof using Hfile.
  intros (pre & stored & type & post & E & Hb & Ha & ->).
  assert (Hlen : Z.of_nat (length stored) + 5 < 2 ^ 63).
  { destruct Hfile as [Hl _]. rewrite E, !length_app, length_trailer in Hl. lia. }
  unfold ReadBlock, kBlockTrailerSize. cbn [h_offset h_size]. rewrite u64_small by lia.
  rewrite (app_assoc stored) in E. replace (Z.of_nat (length stored) + 5) with (Z.of_nat (length (stored ++ trailer stored type))) by (rewrite length_app, length_trailer; lia).
  rewrite (RA_Read_ok file pre _ post Hfile E). cbn [mbind result_bind status_ok negb]. rewrite Z.eqb_refl. cbn [negb].
  replace (Z.to_nat (Z.of_nat (length stored) + 1)) with (length stored + 1)%nat by lia. rewrite Nat2Z.id.
  assert (Hbt : bytes (stored ++ [type])) by (apply Forall_app; split; [done|]; constructor; [by eapply stored_type|constructor]).
  destruct (checksum_ok stored type Hbt) as [-> ->]. cbn [mbind result_bind]. rewrite Unmask_Mask by (apply crc32c_range; [done|lia]). rewrite Z.eqb_refl.
  rewrite take_app_length, lookup_app_r, Nat.sub_diag by lia. unfold trailer at 1. cbn [lookup list_lookup from_opt].
  destruct (verify_checksums options); cbn [mbind result_bind negb];
    (destruct Ha as [[-> ->]|(-> & El & Eu)]; [by eexists|]; cbn [Z.eqb]; rewrite El, Eu, Z.eqb_refl; by eexists).
Qed.

(** With checksums a block in which up to four adjacent bytes changed is not accepted. *)
Lemma ReadBlock_damaged options pre u x y v type post : readable file -> verify_checksums options = true ->
  bytes (u ++ x ++ v ++ [type]) -> bytes (u ++ y ++ v ++ [type]) -> length x = length y -> (length x <= 4)%nat -> x <> y ->
  rf_data file = pre ++ u ++ y ++ v ++ trailer (u ++ x ++ v) type ++ post ->
  ReadBlock port buf file options (mkHandle (Z.of_nat (length pre)) (Z.of_nat (length (u ++ x ++ v)))) = Ok (StCorruption BlockChecksum, mkContents [] false false).
Proof using Type.
  intros Hf Hv Hx Hy Hl H4 Hne E.
  assert (Hl' : length (u ++ x ++ v) = length (u ++ y ++ v)) by (rewrite !length_app; lia).
  assert (Hlen : Z.of_nat (length (u ++ y ++ v)) + 5 < 2 ^ 63).
  { destruct Hf as [Hl1 _]. rewrite E, !length_app, length_trailer in Hl1. rewrite !length_app. lia. }
  unfold ReadBlock, kBlockTrailerSize. cbn [h_offset h_size]. rewrite Hl'. rewrite u64_small by lia.
  assert (E' : rf_data file = pre ++ ((u ++ y ++ v) ++ trailer (u ++ x ++ v) type) ++ post) by (rewrite E, <- !app_assoc; done).
  replace (Z.of_nat (length (u ++ y ++ v)) + 5) with (Z.of_nat (length ((u ++ y ++ v) ++ trailer (u ++ x ++ v) type))) by (rewrite (length_app (u ++ y ++ v)), length_trailer; lia).
  rewrite (RA_Read_ok file pre _ post Hf E'). cbn [mbind result_bind status_ok negb]. rewrite Z.eqb_refl, Hv. cbn [negb].
  replace (Z.to_nat (Z.of_nat (length (u ++ y ++ v)) + 1)) with (length (u ++ y ++ v) + 1)%nat by lia.
  rewrite drop_app_add, take_app_add. unfold trailer. cbn [skipn firstn]. rewrite drop_0, take_0.
  assert (Ed : forall w, 0 <= w < 2 ^ 32 -> DecodeFixed32 (EncodeFixed32 w) = Ok w).
  { intros w Hw. rewrite <- (app_nil_r (EncodeFixed32 w)). by apply (DecodeFixed_le 4). }
  rewrite Ed by apply Mask_range. cbn [mbind result_bind].
  rewrite <- !app_assoc in *. rewrite Unmask_Mask by (apply crc32c_range; [done|lia]).
  pose proof (crc_burst buf buf u (v ++ [type]) x y Hx Hy Hl H4 Hne) as Hburst. unfold Value in *. rewrite !Extend_ok in * by (try done; lia).
  cbn [mbind result_bind]. destruct (Z.eqb_spec (crc32c 0 (u ++ y ++ v ++ [type])) (crc32c 0 (u ++ x ++ v ++ [type]))) as [Ee|_]; [by rewrite Ee in Hburst|done].
Qed.

End reading.

(** ** Where the format is not checked *)

(** [EncodeTo] resizes the whole string: what was in [dst] before is not kept, contrary to
    the assertion at its end. *)
Example footer_appended :
  let f := mkFooter (mkHandle 0 0) (mkHandle 0 0) in
  exists l, Footer_EncodeTo f (replicate 40 7) = Ok l /\ length l = kEncodedLength /\ take 40 l = replicate 40 7.
Proof. eexists. split; [reflexivity|]. split; reflexivity. Qed.

(** [DecodeFrom] does not look at the length of what was read. *)
Example footer_too_short : Footer_DecodeFrom Footer_new (replicate 40 0) = Fault OutOfBounds.
Proof. reflexivity. Qed.

(** The bounds test of a mapped file wraps around. *)
Example mmap_read_wraps : RA_Read (mkRAFile (replicate 10 0) true (fun _ _ => false)) (2 ^ 64 - 1) 5 = Fault OutOfBounds.
Proof.
  unfold RA_Read. cbn [rf_mmap rf_data]. replace (_ <? u64 _) with false by reflexivity. by replace (_ <=? _) with false by reflexivity.
Qed.

(** So does the length of a block with its trailer: the corrupt handle passes all tests and the
    type is read far outside of the buffer. *)
Example block_size_wraps file : readable file -> ReadBlock no_snappy 0 file ReadOptions_new (mkHandle 0 (2 ^ 64 - 5)) = Fault OutOfBounds.
Proof.
  intros Hf. unfold ReadBlock, kBlockTrailerSize. cbn [h_offset h_size]. change (u64 (2 ^ 64 - 5 + 5)) with (Z.of_nat (@length Z [])).
  assert (E : RA_Read file 0 (Z.of_nat (@length Z [])) = Ok (StOK, [])) by (by apply (RA_Read_ok file [] [] (rf_data file) Hf)).
  rewrite E. cbn -[Z.to_nat]. by destruct (Z.to_nat _).
Qed.
