(* ===== verification/TableBuilder.v ===== *)
(** * Writing table files

    table/table_builder.cc: sorted entries are collected in data blocks, each block is
    written with its trailer, its last key is shortened to a separator for the index block,
    and filter, metaindex and index blocks and the footer come at the end.  Comparators and
    filter policies are objects at addresses; calls on the file may fail. *)

From Stdlib Require Import Sorted.
From S2P Require Import Prelude Coding CRC32C TXMemStore Log InternalKey Bloom FilterBlock Block Iterators TableFormat.

Record Options := mkOptions {
  o_comparator : addr;
  o_block_size : Z;
  o_block_restart_interval : Z;
  o_compression : CompressionType;
  o_filter_policy : addr }.

Definition set_interval (n : Z) (o : Options) : Options :=
  mkOptions (o_comparator o) (o_block_size o) n (o_compression o) (o_filter_policy o).

(** [TableBuilder::Rep]; a filter block keeps the policy it was made with. *)
Record TableBuilder := mkTB {
  tb_options : Options;
  index_block_options : Options;
  tb_file : WritableFile;
  tb_offset : Z;
  tb_status : Status;
  data_block : BlockBuilder;
  index_block : BlockBuilder;
  tb_last_key : list Z;
  num_entries : Z;
  closed : bool;
  filter_block : option (addr * FilterBlockBuilder);
  pending_index_entry : bool;
  pending_handle : BlockHandle }.

(** The fields of [Rep] one by one. *)
Definition set_options o i (r : TableBuilder) := mkTB o i (tb_file r) (tb_offset r) (tb_status r) (data_block r) (index_block r)
  (tb_last_key r) (num_entries r) (closed r) (filter_block r) (pending_index_entry r) (pending_handle r).
Definition set_file f s (r : TableBuilder) := mkTB (tb_options r) (index_block_options r) f (tb_offset r) s (data_block r) (index_block r)
  (tb_last_key r) (num_entries r) (closed r) (filter_block r) (pending_index_entry r) (pending_handle r).
Definition set_tb_offset o (r : TableBuilder) := mkTB (tb_options r) (index_block_options r) (tb_file r) o (tb_status r) (data_block r) (index_block r)
  (tb_last_key r) (num_entries r) (closed r) (filter_block r) (pending_index_entry r) (pending_handle r).
Definition set_data_block b n (r : TableBuilder) := mkTB (tb_options r) (index_block_options r) (tb_file r) (tb_offset r) (tb_status r) b (index_block r)
  (tb_last_key r) n (closed r) (filter_block r) (pending_index_entry r) (pending_handle r).
Definition set_index_block b k (r : TableBuilder) := mkTB (tb_options r) (index_block_options r) (tb_file r) (tb_offset r) (tb_status r) (data_block r) b
  k (num_entries r) (closed r) (filter_block r) (pending_index_entry r) (pending_handle r).
Definition set_closed (r : TableBuilder) := mkTB (tb_options r) (index_block_options r) (tb_file r) (tb_offset r) (tb_status r) (data_block r) (index_block r)
  (tb_last_key r) (num_entries r) true (filter_block r) (pending_index_entry r) (pending_handle r).
Definition set_filter_block f (r : TableBuilder) := mkTB (tb_options r) (index_block_options r) (tb_file r) (tb_offset r) (tb_status r) (data_block r) (index_block r)
  (tb_last_key r) (num_entries r) (closed r) f (pending_index_entry r) (pending_handle r).
Definition set_pending p h (r : TableBuilder) := mkTB (tb_options r) (index_block_options r) (tb_file r) (tb_offset r) (tb_status r) (data_block r) (index_block r)
  (tb_last_key r) (num_entries r) (closed r) (filter_block r) p h.

Definition file_status (b : bool) : Status := if b then StOK else StIOError.

Definition tb_ok (r : TableBuilder) : bool := status_ok (tb_status r).

(** [filter.], the prefix of the name under which the filters are found. *)
Definition filter_prefix : list Z := [102; 105; 108; 116; 101; 114; 46].

Section model.
Context (comparators : addr -> Comparator) (policies : addr -> FilterPolicy) (names : addr -> list Z) (port : Snappy) (pval : addr).

Definition TableBuilder_new (options : Options) (file : WritableFile) : result TableBuilder :=
  filter ← (if o_filter_policy options =? NULL then Ok None
            else f ← StartBlock (policies (o_filter_policy options)) 0 FilterBlockBuilder_new; Ok (Some (o_filter_policy options, f)));
  Ok (mkTB options (set_interval 1 options) file 0 StOK BlockBuilder_new BlockBuilder_new [] 0 false filter false BlockHandle_new).

Definition ChangeOptions (options : Options) (r : TableBuilder) : Status * TableBuilder :=
  if negb (o_comparator options =? o_comparator (tb_options r)) then (StInvalidArgument, r)
  else (StOK, set_options options (set_interval 1 options) r).

Definition WriteRawBlock (block_contents : list Z) (type : CompressionType) (r : TableBuilder) : result (BlockHandle * TableBuilder) :=
  let handle := mkHandle (tb_offset r) (Z.of_nat (length block_contents)) in
  let '(b, f) := Append (tb_file r) block_contents in
  let r := set_file f (file_status b) r in
  if b then
    crc ← Value pval block_contents;
    crc ← Extend crc pval [compression_code type];
    let '(b, f) := Append (tb_file r) (compression_code type :: EncodeFixed32 (Mask crc)) in
    let r := set_file f (file_status b) r in
    Ok (handle, if b then set_tb_offset (u64 (tb_offset r + (Z.of_nat (length block_contents) + kBlockTrailerSize))) r else r)
  else Ok (handle, r).

(** What is stored for a block. *)
Definition compress (compression : CompressionType) (raw : list Z) : list Z * CompressionType :=
  match compression with
  | kNoCompression => (raw, kNoCompression)
  | kSnappyCompression =>
      match Snappy_Compress port raw with
      | Some compressed =>
          if Z.of_nat (length compressed) <? Z.of_nat (length raw) - Z.of_nat (length raw) / 8 then (compressed, kSnappyCompression)
          else (raw, kNoCompression)
      | None => (raw, kNoCompression)
      end
  end.

(** The builder is [Reset] afterwards. *)
Definition WriteBlock (block : BlockBuilder) (r : TableBuilder) : result (BlockHandle * TableBuilder) :=
  let '(block_contents, type) := compress (o_compression (tb_options r)) (Block.Finish block) in
  WriteRawBlock block_contents type r.

Definition TB_Flush (r : TableBuilder) : result TableBuilder :=
  if negb (tb_ok r) then Ok r
  else if (length (buffer_ (data_block r)) =? 0)%nat then Ok r
  else
    '(handle, r) ← WriteBlock (data_block r) r;
    let r := set_pending (pending_index_entry r) handle (set_data_block Reset (num_entries r) r) in
    let r :=
      if tb_ok r then
        let '(b, f) := Flush (tb_file r) in set_file f (file_status b) (set_pending true (pending_handle r) r)
      else r in
    match filter_block r with
    | Some (p, f) => f ← StartBlock (policies p) (tb_offset r) f; Ok (set_filter_block (Some (p, f)) r)
    | None => Ok r
    end.

(** The entry of the index for the block before, under [key]. *)
Definition add_index_entry (key : list Z) (r : TableBuilder) : result TableBuilder :=
  handle_encoding ← Handle_EncodeTo (pending_handle r) [];
  let b := Block.Add (o_block_restart_interval (index_block_options r)) key handle_encoding (index_block r) in
  Ok (set_pending false (pending_handle r) (set_index_block b key r)).

Definition TB_Add (key value : list Z) (r : TableBuilder) : result TableBuilder :=
  if negb (tb_ok r) then Ok r
  else
    r ← (if pending_index_entry r then
           sep ← FindShortestSeparator (comparators (o_comparator (tb_options r))) (tb_last_key r) key;
           add_index_entry sep r
         else Ok r);
    let r := match filter_block r with Some (p, f) => set_filter_block (Some (p, AddKey key f)) r | None => r end in
    let r := set_index_block (index_block r) key r in
    let r := set_data_block (Block.Add (o_block_restart_interval (tb_options r)) key value (data_block r)) (num_entries r + 1) r in
    if o_block_size (tb_options r) <=? CurrentSizeEstimate (data_block r) then TB_Flush r else Ok r.

(** The parts of [Finish]: each runs only while the status is OK. *)
Definition finish_filter (r : TableBuilder) : result (BlockHandle * TableBuilder) :=
  match filter_block r with
  | Some (p, f) =>
      if tb_ok r then contents ← FilterBlock.Finish (policies p) f; WriteRawBlock contents kNoCompression r
      else Ok (BlockHandle_new, r)
  | None => Ok (BlockHandle_new, r)
  end.

Definition finish_meta (filter_handle : BlockHandle) (r : TableBuilder) : result (BlockHandle * TableBuilder) :=
  if negb (tb_ok r) then Ok (BlockHandle_new, r)
  else
    meta_index_block ← (match filter_block r with
                        | Some _ =>
                            if o_filter_policy (tb_options r) =? NULL then Fault NullDeref
                            else
                              handle_encoding ← Handle_EncodeTo filter_handle [];
                              Ok (Block.Add (o_block_restart_interval (tb_options r)) (filter_prefix ++ names (o_filter_policy (tb_options r)))
                                    handle_encoding BlockBuilder_new)
                        | None => Ok BlockBuilder_new
                        end);
    WriteBlock meta_index_block r.

Definition finish_index (r : TableBuilder) : result (BlockHandle * TableBuilder) :=
  if negb (tb_ok r) then Ok (BlockHandle_new, r)
  else
    r ← (if pending_index_entry r then
           key ← FindShortSuccessor (comparators (o_comparator (tb_options r))) (tb_last_key r);
           add_index_entry key r
         else Ok r);
    '(handle, r) ← WriteBlock (index_block r) r;
    Ok (handle, set_index_block Reset (tb_last_key r) r).

Definition finish_footer (meta index : BlockHandle) (r : TableBuilder) : result TableBuilder :=
  if negb (tb_ok r) then Ok r
  else
    footer_encoding ← Footer_EncodeTo (mkFooter meta index) [];
    let '(b, f) := Append (tb_file r) footer_encoding in
    let r := set_file f (file_status b) r in
    Ok (if b then set_tb_offset (u64 (tb_offset r + Z.of_nat (length footer_encoding))) r else r).

Definition TB_Finish (r : TableBuilder) : result TableBuilder :=
  r ← TB_Flush r;
  '(filter_block_handle, r) ← finish_filter (set_closed r);
  '(metaindex_block_handle, r) ← finish_meta filter_block_handle r;
  '(index_block_handle, r) ← finish_index r;
  finish_footer metaindex_block_handle index_block_handle r.

Definition Abandon (r : TableBuilder) : TableBuilder := set_closed r.

(** The calls that make a table of [es]. *)
Fixpoint add_all (es : list (list Z * list Z)) (r : TableBuilder) : result TableBuilder :=
  match es with [] => Ok r | (k, v) :: es => r ← TB_Add k v r; add_all es r end.

Definition build_table (options : Options) (es : list (list Z * list Z)) (file : WritableFile) : result TableBuilder :=
  r ← TableBuilder_new options file; r ← add_all es r; TB_Finish r.

End model.

(** ** Sizes of blocks *)

(** An upper bound for what an entry adds to the file. *)
Definition weight (es : list (list Z * list Z)) : Z :=
  foldr (fun kv n => Z.of_nat (length kv.1) + Z.of_nat (length kv.2) + 64 + n) 0 es.

Lemma weight_app a b : weight (a ++ b) = weight a + weight b.
Proof. unfold weight. induction a as [|x a IH]; cbn [app foldr]; lia. Qed.

Lemma weight_nonneg es : 64 * Z.of_nat (length es) <= weight es.
Proof. unfold weight. induction es as [|x es IH]; cbn [foldr length]; lia. Qed.

Lemma weight_in es kv : kv ∈ es -> Z.of_nat (length kv.1) + Z.of_nat (length kv.2) + 64 <= weight es.
Proof.
  intros Hin. apply list_elem_of_split in Hin as (a & b & ->). rewrite weight_app.
  pose proof (weight_nonneg a). pose proof (weight_nonneg b). unfold weight in *. cbn [foldr]. lia.
Qed.

Lemma EncodeVarint32_length v : (1 <= length (EncodeVarint32 v) <= 5)%nat.
Proof. unfold EncodeVarint32. repeat case_match; cbn; lia. Qed.

Lemma build_snoc interval es k v : build interval (es ++ [(k, v)]) = Block.Add interval k v (build interval es).
Proof. unfold build. by rewrite foldl_app. Qed.

Lemma build_size interval es :
  Z.of_nat (length (buffer_ (build interval es))) <= weight es - 49 * Z.of_nat (length es) /\
  Z.of_nat (length es) <= Z.of_nat (length (buffer_ (build interval es))) /\ (length (restarts_ (build interval es)) <= 1 + length es)%nat.
Proof.
  induction es as [|[k v] es IH] using rev_ind; [cbn; lia|]. rewrite build_snoc, weight_app, length_app. cbn [length weight foldr fst snd].
  unfold Block.Add. case_match eqn:E. destruct p as [sh rs]. unfold PutVarint32. cbn [buffer_ restarts_]. rewrite !length_app, length_drop.
  pose proof (EncodeVarint32_length (u32 (Z.of_nat sh))). pose proof (EncodeVarint32_length (u32 (Z.of_nat (length k - sh)))).
  pose proof (EncodeVarint32_length (u32 (Z.of_nat (length v)))). split; [lia|]. split; [lia|].
  destruct (counter_ _ <? interval); injection E as <- <- <-; [lia|]. rewrite length_app. cbn. lia.
Qed.

Lemma put_words ws r : foldl PutFixed32 r ws = r ++ concat (map EncodeFixed32 ws).
Proof. revert r. induction ws as [|w ws IH]; intros r; cbn [foldl map concat]; [by rewrite app_nil_r|]. rewrite IH. unfold PutFixed32. by rewrite <- app_assoc. Qed.

Lemma Finish_size interval es : Z.of_nat (length (Block.Finish (build interval es))) <= weight es - 45 * Z.of_nat (length es) + 8.
Proof.
  destruct (build_size interval es) as (Hb & _ & Hr). unfold Block.Finish. rewrite put_words. unfold PutFixed32, EncodeFixed32 at 2.
  rewrite !length_app, length_words, length_le_bytes. lia.
Qed.

Lemma build_empty interval es : length (buffer_ (build interval es)) = 0%nat <-> es = [].
Proof. destruct (build_size interval es) as (_ & Hb & _). split; [|by intros ->]. intros E. rewrite E in Hb. destruct es; [done|cbn in Hb; lia]. Qed.

Abbreviation all_bytes es := (Forall (fun kv => bytes kv.1 /\ bytes kv.2) es) (only parsing).

Lemma words_bytes ws : bytes (concat (map EncodeFixed32 ws)).
Proof. induction ws as [|w ws IH]; cbn [map concat]; [constructor|]. apply Forall_app. split; [apply le_bytes_bytes|done]. Qed.

Lemma Finish_bytes interval es : all_bytes es -> bytes (Block.Finish (build interval es)).
Proof.
  intros Hes. unfold Block.Finish. rewrite put_words. unfold PutFixed32. apply Forall_app. split; [|apply le_bytes_bytes].
  apply Forall_app. split; [|apply words_bytes]. induction es as [|[k v] es IH] using rev_ind; [constructor|].
  apply Forall_app in Hes as [Hes [[Hk Hv] _]%Forall_cons]. rewrite build_snoc. unfold Block.Add. case_match eqn:E. destruct p as [sh rs].
  unfold PutVarint32. cbn [buffer_]. assert (Hu : forall n, bytes (EncodeVarint32 (u32 n))).
  { intros n. eapply varint_bytes, EncodeVarint32_varint, Z.mod_pos_bound. lia. }
  repeat (apply Forall_app; split); [by apply IH|apply Hu..|by apply Forall_drop|done].
Qed.

(** ** Writing a block *)

Section writing.
Context (port : Snappy) (pval : addr) `{Hport : !SnappySpec port}.

(** The calls on the file succeed. *)
Definition writes_ok (r : TableBuilder) : Prop := wf_calls (tb_file r) = [].

Lemma WriteRawBlock_ok contents type r : bytes contents -> writes_ok r ->
  let data := wf_data (tb_file r) ++ contents ++ trailer contents (compression_code type) in
  WriteRawBlock pval contents type r = Ok (mkHandle (tb_offset r) (Z.of_nat (length contents)),
    set_tb_offset (u64 (tb_offset r + (Z.of_nat (length contents) + 5))) (set_file (mkWFile data []) StOK r)).
Proof using Type.
  intros Hb Hw. cbv zeta. unfold WriteRawBlock, Append, wf_status, writes_ok in *. rewrite Hw. cbn [head default tail file_status tb_file set_file wf_calls wf_data].
  unfold Value. rewrite Extend_ok by (try done; lia). cbn [mbind result_bind].
  assert (Ht : bytes [compression_code type]) by (by destruct type; constructor).
  rewrite Extend_ok; [|apply crc32c_range; [done|lia]|done]. cbn [mbind result_bind head default tail wf_data]. rewrite crc32c_app.
  unfold set_tb_offset, set_file. cbn. unfold trailer. by rewrite <- app_assoc.
Qed.

(** The block that is written can be read back. *)
Lemma compress_stored compression raw : bytes raw -> let '(stored, type) := compress port compression raw in
  bytes stored /\ stored_as port raw stored (compression_code type) /\ (length stored <= length raw)%nat.
Proof using Hport.
  intros Hb. unfold compress. destruct compression; [split_and!; [done|by left|done]|].
  destruct (Snappy_Compress port raw) as [c|] eqn:Ec; [|split_and!; [done|by left|done]].
  destruct (Z.ltb_spec (Z.of_nat (length c)) (Z.of_nat (length raw) - Z.of_nat (length raw) / 8)) as [Hl|_]; [|split_and!; [done|by left|done]].
  destruct (sn_round raw c Hb Ec) as (Hc & Hlen & Hu). split_and!; [done|by right|].
  pose proof (Z.div_pos (Z.of_nat (length raw)) 8). lia.
Qed.

(** What writing a block leaves: the handle, and a file in which it is stored. *)
Record written (r : TableBuilder) (raw : list Z) (h : BlockHandle) (r' : TableBuilder) : Prop := {
  wr_handle : h_offset h = tb_offset r;
  wr_rest : r' = set_tb_offset (tb_offset r') (set_file (tb_file r') StOK r);
  wr_calls : writes_ok r';
  wr_grows : exists n, (5 <= n <= length raw + 5)%nat /\ length (wf_data (tb_file r')) = (length (wf_data (tb_file r)) + n)%nat /\ tb_offset r' = u64 (tb_offset r + Z.of_nat n);
  wr_prefix : exists more, wf_data (tb_file r') = wf_data (tb_file r) ++ more;
  wr_stored : tb_offset r = Z.of_nat (length (wf_data (tb_file r))) -> stored_at port (wf_data (tb_file r')) h raw }.

Lemma raw_written contents type raw r : bytes contents -> writes_ok r -> stored_as port raw contents (compression_code type) -> (length contents <= length raw)%nat ->
  exists h r', WriteRawBlock pval contents type r = Ok (h, r') /\ written r raw h r'.
Proof using Type.
  intros Hb Hw Hs Hl. rewrite WriteRawBlock_ok by done. eexists _, _. split; [done|]. split; cbn.
  - done.
  - done.
  - done.
  - exists (length contents + 5)%nat. split; [lia|]. split; [rewrite !length_app, length_trailer; lia|]. f_equal. lia.
  - by eexists.
  - intros Eo. exists (wf_data (tb_file r)), contents, (compression_code type), []. split_and!; [by rewrite app_nil_r|done|done|by rewrite Eo].
Qed.

Lemma block_written block r : bytes (Block.Finish block) -> writes_ok r ->
  exists h r', WriteBlock port pval block r = Ok (h, r') /\ written r (Block.Finish block) h r'.
Proof using Hport.
  intros Hb Hw. unfold WriteBlock. pose proof (compress_stored (o_compression (tb_options r)) _ Hb) as Hc.
  destruct (compress port _ _) as [stored type]. destruct Hc as (Hs & Ha & Hl). by apply raw_written.
Qed.

End writing.

(** ** Building a table *)

(** A block of the table: its entries and where it is. *)
Record blk := mkBlk { b_es : entries; b_handle : BlockHandle }.

(** The blocks, the last one of which is not written yet. *)
Definition parts (done : list blk) (cur : entries) : list entries := (b_es <$> done) ++ [cur].
Definition entries_of (done : list blk) (cur : entries) : entries := concat (parts done cur).

Definition encodes (h : BlockHandle) (l : list Z) : Prop :=
  bytes l /\ (length l <= kMaxEncodedLength)%nat /\ forall h' rest, Handle_DecodeFrom h' (l ++ rest) = (StOK, h, rest).

(** The entries of the index for the blocks [done]. *)
Definition indexes (idx : entries) (done : list blk) : Prop := Forall2 (fun e b => encodes (b_handle b) e.2) idx done.

(** The key of an index entry separates its block from the later ones, and is what the
    comparator makes of the keys on both sides. *)
Definition separates (c : Comparator) (ord : list Z -> list Z -> Z) (idx : entries) (ps : list entries) : Prop :=
  forall j s h, idx !! j = Some (s, h) ->
    (forall p k v, ps !! j = Some p -> (k, v) ∈ p -> ord k s <= 0) /\
    (forall j' p k v, (j < j')%nat -> ps !! j' = Some p -> (k, v) ∈ p -> ord s k < 0) /\
    (forall p p' kl vl kf vf, ps !! j = Some p -> ps !! S j = Some p' -> list.last p = Some (kl, vl) -> head p' = Some (kf, vf) ->
       FindShortestSeparator c kl kf = Ok s).

Section building.
Context (comparators : addr -> Comparator) (policies : addr -> FilterPolicy) (port : Snappy) (pval : addr) `{Hport : !SnappySpec port}.
Context (opts : Options) (ok : list Z -> Prop) (ord : list Z -> list Z -> Z) `{Hc : !ComparatorSpec (comparators (o_comparator opts)) ok ord}.
Context (Hbytes : forall k, ok k -> bytes k).
Context (okf : list Z -> Prop) (most : nat).

#[local] Abbreviation policy := (policies (o_filter_policy opts)).
#[local] Abbreviation interval := (o_block_restart_interval opts).

Context (Hpol : o_filter_policy opts <> NULL -> FilterPolicySpec policy okf most).

Record tb_inv (r : TableBuilder) (done : list blk) (cur idx : entries) : Prop := {
  ti_opts : tb_options r = opts /\ index_block_options r = set_interval 1 opts;
  ti_status : tb_status r = StOK;
  ti_calls : writes_ok r;
  ti_offset : tb_offset r = Z.of_nat (length (wf_data (tb_file r))) /\ tb_offset r <= weight (concat (b_es <$> done));
  ti_stored : Forall (fun b => stored_at port (wf_data (tb_file r)) (b_handle b) (Block.Finish (build interval (b_es b)))) done;
  ti_nonempty : Forall (fun b => b_es b <> []) done;
  ti_distinct : Forall (fun b => h_offset (b_handle b) < tb_offset r) done /\ NoDup ((fun b => h_offset (b_handle b)) <$> done);
  ti_data : data_block r = build interval cur;
  ti_index : index_block r = build 1 idx;
  ti_pending : if pending_index_entry r then cur = [] /\ exists done' b, done = done' ++ [b] /\ indexes idx done' /\ pending_handle r = b_handle b
    else indexes idx done /\ (done = [] \/ cur <> []);
  ti_last k v : list.last (entries_of done cur) = Some (k, v) -> tb_last_key r = k;
  ti_seps : separates (comparators (o_comparator opts)) ord idx (parts done cur);
  ti_idx : Forall (fun e => ok e.1) idx /\ weight idx <= 2 * weight (concat (b_es <$> take (length idx) done));
  ti_entries : all_bytes (entries_of done cur) /\ Forall (fun kv => ok kv.1) (entries_of done cur) /\ StronglySorted (fun x y => ord x.1 y.1 < 0) (entries_of done cur) }.

(** Every key is in or pending for the filter of its block. *)
Definition filter_inv (r : TableBuilder) (done : list blk) (cur : entries) : Prop :=
  match filter_block r with
  | None => o_filter_policy opts = NULL
  | Some (p, f) => p = o_filter_policy opts /\ p <> NULL /\ exists fs ps hist,
      FilterBlock.built okf most f fs ps /\ covered policy fs ps hist /\ tb_offset r / kFilterBase = Z.of_nat (length fs) /\
      (length ps <= length (entries_of done cur))%nat /\
      (forall b k v, b ∈ done -> (k, v) ∈ b_es b -> (h_offset (b_handle b) / kFilterBase, k) ∈ hist) /\
      (forall k v, (k, v) ∈ cur -> (tb_offset r / kFilterBase, k) ∈ hist)
  end.

Lemma parts_flushed done cur h : parts (done ++ [mkBlk cur h]) [] = parts done cur ++ [[]].
Proof. unfold parts. by rewrite fmap_app. Qed.

Lemma entries_flushed done cur h : entries_of (done ++ [mkBlk cur h]) [] = entries_of done cur.
Proof. unfold entries_of. rewrite parts_flushed, concat_app. cbn. by rewrite app_nil_r. Qed.

Lemma entries_of_split done cur : entries_of done cur = concat (b_es <$> done) ++ cur.
Proof. unfold entries_of, parts. rewrite concat_app. cbn. by rewrite app_nil_r. Qed.

Lemma separates_more idx ps : separates (comparators (o_comparator opts)) ord idx ps -> (length idx <= length ps)%nat -> separates (comparators (o_comparator opts)) ord idx (ps ++ [[]]).
Proof.
  intros Hs Hl j s h Hj. destruct (Hs j s h Hj) as (H1 & H2 & H3). pose proof (lookup_lt_Some _ _ _ Hj). split; [|split].
  - intros p k v Hp. rewrite lookup_app_l in Hp by lia. by apply H1.
  - intros j' p k v Hlt [Hp|[_ Hp]]%lookup_app_Some Hin; [by eapply H2|]. apply list_lookup_singleton_Some in Hp as [_ <-]. by apply elem_of_nil in Hin.
  - intros p p' kl vl kf vf Hp [Hp'|[_ Hp']]%lookup_app_Some Hl1 Hh; [|by apply list_lookup_singleton_Some in Hp' as [_ <-]].
    rewrite lookup_app_l in Hp by lia. by eapply H3.
Qed.

Lemma start_filter r done cur : filter_inv r done cur -> forall r' h, filter_block r' = filter_block r -> tb_offset r <= tb_offset r' -> h_offset h = tb_offset r ->
  exists f', match filter_block r' with
    | Some (p, f) => f ← StartBlock (policies p) (tb_offset r') f; Ok (set_filter_block (Some (p, f)) r')
    | None => Ok r' end = Ok (set_filter_block f' r') /\ filter_inv (set_filter_block f' r') (done ++ [mkBlk cur h]) [].
Proof using Hpol.
  intros Hf r' h Ef Ho Hh. unfold filter_inv in Hf. rewrite Ef. destruct (filter_block r) as [[p f]|] eqn:E.
  2: { exists None. split; [|done]. f_equal. unfold set_filter_block. destruct r'; cbn in *; by subst. }
  destruct Hf as (-> & Hp & fs & ps & hist & Hb & Hcov & Eoff & Hps & Hd & Hcur).
  destruct (StartBlock_built policy okf most (Hp := Hpol Hp) (tb_offset r') f fs ps hist Hb Hcov) as (f' & fs' & ps' & E' & Hb' & Hcov' & Eoff' & Hps').
  { rewrite <- Eoff. by apply Z.div_le_mono. }
  exists (Some (o_filter_policy opts, f')). rewrite E'. split; [done|]. split; [done|]. split; [done|]. exists fs', ps', hist.
  split_and!; [done..| | |].
  - rewrite entries_flushed. destruct Hps' as [-> | ->]; [done|cbn; lia].
  - intros b k v [Hb1|Hb1%list_elem_of_singleton]%elem_of_app Hk; [by eapply Hd|]. subst b. cbn [b_handle b_es] in *. rewrite Hh. by eapply Hcur.
  - intros k v []%elem_of_nil.
Qed.

Lemma not_pending r done cur idx : tb_inv r done cur idx -> cur <> [] -> pending_index_entry r = false /\ indexes idx done.
Proof. intros Hi Hne. pose proof (ti_pending _ _ _ _ Hi) as Hp. destruct (pending_index_entry r); [by destruct Hp as [-> _]|]. by destruct Hp. Qed.

Lemma Flush_nothing r done idx : tb_inv r done [] idx -> TB_Flush policies port pval r = Ok r.
Proof. intros Hi. unfold TB_Flush, tb_ok. rewrite (ti_status _ _ _ _ Hi), (ti_data _ _ _ _ Hi). done. Qed.

Lemma TB_Flush_ok r done cur idx : tb_inv r done cur idx -> filter_inv r done cur -> weight (entries_of done cur) < 2 ^ 31 -> cur <> [] ->
  exists r' h, TB_Flush policies port pval r = Ok r' /\ tb_inv r' (done ++ [mkBlk cur h]) [] idx /\ filter_inv r' (done ++ [mkBlk cur h]) [].
Proof using Hpol Hport.
  intros Hi Hf Hw Hne. destruct (not_pending _ _ _ _ Hi Hne) as [Hnp Hix]. pose proof Hi as [Hopt Hst Hcalls [Ho Hol] Hsto Hnon [Hdlt Hdis] Hda Hin Hpe Hla Hse [Hid Hwi] (Hby & Hok & Hso)].
  rewrite entries_of_split in Hby. rewrite entries_of_split, weight_app in Hw. apply Forall_app in Hby as [Hbd Hbc].
  unfold TB_Flush, tb_ok. rewrite Hst, Hda. cbn [status_ok negb].
  rewrite (proj2 (Nat.eqb_neq _ _)) by (by rewrite build_empty). destruct (block_written port pval (build interval cur) r) as (h & r1 & -> & Hwr); [by apply Finish_bytes|done|].
  cbn [mbind result_bind]. destruct Hwr as [Hh Hrest Hc1 (n & Hn & Hlen & Hoff) [more Hmore] Hat]. specialize (Hat Ho).
  pose proof (Finish_size interval cur) as Hsz. pose proof (weight_nonneg cur) as Hwn. assert (Hl1 : (1 <= length cur)%nat) by (destruct cur; [done|cbn; lia]).
  pose proof (weight_nonneg (concat (b_es <$> done))). rewrite u64_small in Hoff by lia.
  set (r2 := set_pending (pending_index_entry r1) h (set_data_block Reset (num_entries r1) r1)).
  assert (Hok2 : status_ok (tb_status r2) = true) by (unfold r2; rewrite Hrest; done). rewrite Hok2.
  unfold Flush, wf_status. assert (Hc2 : wf_calls (tb_file r2) = []) by apply Hc1. rewrite Hc2. cbn [head default tail file_status].
  set (r3 := set_file (mkWFile (wf_data (tb_file r2)) []) StOK (set_pending true (pending_handle r2) r2)).
  replace (bool_decide (None = None)) with true by (by rewrite bool_decide_eq_true_2). cbn [file_status]. fold r3.
  destruct (start_filter r done cur Hf r3 h) as (f' & -> & Hf'); [unfold r3, r2; rewrite Hrest; done|unfold r3, r2; cbn; lia|done|].
  eexists _, h. split; [done|]. split; [|done].
  assert (Hfl : concat (b_es <$> done ++ [mkBlk cur h]) = concat (b_es <$> done) ++ cur) by (rewrite fmap_app, concat_app; cbn; by rewrite app_nil_r).
  split; unfold r3, r2; cbn.
  - rewrite Hrest. cbn. done.
  - done.
  - done.
  - rewrite Hfl, weight_app. split; [rewrite Hoff, Hlen; lia|]. lia.
  - apply Forall_app. split.
    + eapply Forall_impl; [exact Hsto|]. cbn. intros b Hb. rewrite Hmore. by apply stored_at_app.
    + constructor; [exact Hat|constructor].
  - apply Forall_app. split; [done|]. by constructor.
  - split.
    + apply Forall_app. split; [eapply Forall_impl; [exact Hdlt|]; cbn; intros; lia|]. constructor; [cbn; lia|constructor].
    + rewrite fmap_app. apply NoDup_app. split; [done|]. split; [|apply NoDup_singleton].
      intros o (b & -> & Hb)%list_elem_of_fmap Ho1%list_elem_of_singleton. rewrite Forall_forall in Hdlt. specialize (Hdlt b Hb). cbn in *. lia.
  - done.
  - rewrite Hrest. done.
  - split; [done|]. exists done, (mkBlk cur h). by split_and!.
  - intros k v. rewrite entries_flushed. rewrite Hrest. cbn. apply Hla.
  - rewrite parts_flushed. apply separates_more; [done|]. apply Forall2_length in Hix. unfold parts. rewrite length_app, length_fmap. lia.
  - split; [done|]. apply Forall2_length in Hix. rewrite take_app_le by lia. done.
  - rewrite entries_flushed, entries_of_split. split; [by apply Forall_app|]. by rewrite <- entries_of_split.
Qed.

(** *** The index *)

Lemma entries_last done b : b_es b <> [] -> list.last (entries_of (done ++ [b]) []) = list.last (b_es b).
Proof using Type.
  intros Hne. rewrite entries_of_split, app_nil_r, fmap_app, concat_app. cbn. rewrite app_nil_r, last_app. destruct (list.last (b_es b)) eqn:E; [done|]. by apply last_None in E.
Qed.

Lemma ord_le_lt x y z : ord x y <= 0 -> ord y z < 0 -> ord x z < 0.
Proof using Hc.
  intros Hxy Hyz. destruct (Z.eq_dec (ord x y) 0) as [E|]; [|apply (co_trans ord x y z); lia].
  destruct (Z_lt_dec (ord x z) 0) as [|Hge]; [done|]. exfalso.
  assert (Hzx : ord z x <= 0) by (pose proof (co_sym ord z x); pose proof (co_sym ord x z); lia).
  pose proof (co_trans ord y z x Hyz Hzx). pose proof (co_sym ord y x). lia.
Qed.

Lemma ord_le_trans x y z : ord x y <= 0 -> ord y z <= 0 -> ord x z <= 0.
Proof using Hc.
  intros Hxy Hyz. destruct (Z_le_dec (ord x z) 0) as [|Hgt]; [done|]. exfalso. assert (Hzx : ord z x < 0) by (apply (co_sym ord); lia).
  pose proof (ord_le_lt y z x Hyz Hzx) as Hyx. pose proof (co_sym ord y x). lia.
Qed.

Lemma sorted_last (l : entries) x y : StronglySorted (fun x y => ord x.1 y.1 < 0) l -> list.last l = Some x -> y ∈ l -> ord y.1 x.1 <= 0.
Proof using Hc.
  intros Hs Hl Hy. apply last_Some in Hl as [l' ->]. apply elem_of_app in Hy as [Hy|Hy%list_elem_of_singleton]; [|subst y; by rewrite (co_refl ord)].
  apply list_elem_of_split in Hy as (a & b & ->). rewrite <- app_assoc in Hs. clear -Hs. induction a as [|z a IH]; cbn in Hs; inversion_clear Hs as [|? ? Hs' Hf]; [|by apply IH].
  rewrite Forall_forall in Hf. assert (ord y.1 x.1 < 0); [|lia]. apply Hf. set_solver.
Qed.

Lemma parts_lookup done cur cur' j : (j < length done)%nat -> parts done cur !! j = parts done cur' !! j.
Proof. intros Hj. unfold parts. by rewrite !lookup_app_l by (by rewrite length_fmap). Qed.

Lemma parts_last done cur j p : (length done <= j)%nat -> parts done cur !! j = Some p -> p = cur.
Proof.
  intros Hj Hp. unfold parts in Hp. rewrite lookup_app_r in Hp by (by rewrite length_fmap). by apply list_lookup_singleton_Some in Hp as [_ <-].
Qed.

Lemma part_in done cur j p kv : parts done cur !! j = Some p -> kv ∈ p -> kv ∈ entries_of done cur.
Proof. intros Hp Hin. apply list_elem_of_In, in_concat. exists p. split; [by eapply list_elem_of_In, list_elem_of_lookup_2|by apply list_elem_of_In]. Qed.

(** A key behind all others, in the block that is being filled. *)
Lemma separates_add idx done cur k v : separates (comparators (o_comparator opts)) ord idx (parts done cur) -> (length idx <= length done)%nat -> (length idx = 0%nat \/ cur <> []) ->
  (forall kv, kv ∈ entries_of done cur -> ord kv.1 k < 0) -> separates (comparators (o_comparator opts)) ord idx (parts done (cur ++ [(k, v)])).
Proof using Hc.
  intros Hs Hl Hne Hk j s h Hj. destruct (Hs j s h Hj) as (H1 & H2 & H3). pose proof (lookup_lt_Some _ _ _ Hj). split; [|split].
  - intros p k' v' Hp. rewrite (parts_lookup done _ cur) in Hp by lia. by apply H1.
  - intros j' p k' v' Hlt Hp Hin. destruct (le_lt_dec (length done) j') as [Hge|Hj']; [|rewrite (parts_lookup done _ cur) in Hp by lia; by eapply H2].
    rewrite (parts_last _ _ _ _ Hge Hp) in Hin. assert (Hlast : parts done cur !! length done = Some cur) by (unfold parts; rewrite lookup_app_r, length_fmap, Nat.sub_diag by (by rewrite length_fmap); done).
    apply elem_of_app in Hin as [Hin|[= -> ->]%list_elem_of_singleton]; [eapply H2; [|exact Hlast|exact Hin]; lia|].
    destruct Hne as [?|Hne]; [lia|]. destruct cur as [|[k0 v0] cur]; [done|].
    assert (Hs0 : ord s k0 < 0) by (eapply H2; [|exact Hlast|left]; lia).
    apply (co_trans ord s k0 k Hs0). assert (ord k0 k < 0); [|lia]. apply (Hk (k0, v0)). eapply part_in; [exact Hlast|left].
  - intros p p' kl vl kf vf Hp Hp' Hla Hh. rewrite (parts_lookup done _ cur) in Hp by lia.
    destruct (le_lt_dec (length done) (S j)) as [Hge|Hlt]; [|rewrite (parts_lookup done _ cur) in Hp' by lia; by eapply H3].
    rewrite (parts_last _ _ _ _ Hge Hp') in Hh. assert (E : S j = length done) by lia. destruct Hne as [?|Hne]; [lia|]. eapply H3; [exact Hp| |exact Hla|].
    + rewrite E. unfold parts. rewrite lookup_app_r, length_fmap, Nat.sub_diag by (by rewrite length_fmap). done.
    + by destruct cur.
Qed.

(** The entry for the block before, in front of the keys of the next one. *)
Lemma separates_next idx done b sep h cur : separates (comparators (o_comparator opts)) ord idx (parts (done ++ [b]) []) -> length idx = length done -> b_es b <> [] ->
  (forall kv, kv ∈ entries_of (done ++ [b]) [] -> ord kv.1 sep <= 0) -> (forall kv, kv ∈ cur -> ord sep kv.1 < 0) ->
  (forall kl vl kf vf, list.last (b_es b) = Some (kl, vl) -> head cur = Some (kf, vf) -> FindShortestSeparator (comparators (o_comparator opts)) kl kf = Ok sep) ->
  separates (comparators (o_comparator opts)) ord (idx ++ [(sep, h)]) (parts (done ++ [b]) cur).
Proof using Hc.
  intros Hs Hl Hne Hsep Hk Hshort j s h' [Hj|[Hj1 Hj]]%lookup_app_Some.
  - destruct (Hs j s h' Hj) as (H1 & H2 & H3). pose proof (lookup_lt_Some _ _ _ Hj). split; [|split].
    + intros p k' v' Hp. rewrite (parts_lookup _ _ []) in Hp by (rewrite length_app; cbn; lia). by apply H1.
    + intros j' p k' v' Hlt Hp Hin. destruct (le_lt_dec (length (done ++ [b])) j') as [Hge|Hj']; [|rewrite (parts_lookup _ _ []) in Hp by lia; by eapply H2].
      rewrite (parts_last _ _ _ _ Hge Hp) in Hin.
      assert (Hb : parts (done ++ [b]) [] !! length done = Some (b_es b)) by (unfold parts; rewrite fmap_app, <- app_assoc, lookup_app_r, length_fmap, Nat.sub_diag by (by rewrite length_fmap); done).
      destruct (b_es b) as [|[k0 v0] l] eqn:Eb; [done|].
      assert (Hs0 : ord s k0 < 0) by (eapply H2; [|exact Hb|left]; lia).
      apply (co_trans ord s k0 k' Hs0). assert (ord k0 k' < 0); [|lia]. apply (ord_le_lt k0 sep k'); [|by apply (Hk (k', v'))]. apply (Hsep (k0, v0)). eapply part_in; [exact Hb|left].
    + intros p p' kl vl kf vf Hp Hp'. rewrite (parts_lookup _ _ []) in Hp, Hp' by (rewrite length_app; cbn; lia). by eapply H3.
  - apply list_lookup_singleton_Some in Hj as [Hj2 [= <- <-]]. assert (j = length idx) as -> by lia. split; [|split].
    + intros p k' v' Hp Hin. rewrite (parts_lookup _ _ []) in Hp by (rewrite length_app; cbn; lia). apply (Hsep (k', v')). by eapply part_in.
    + intros j' p k' v' Hlt Hp Hin. apply parts_last in Hp as ->; [|rewrite length_app; cbn; lia]. by apply (Hk (k', v')).
    + intros p p' kl vl kf vf Hp Hp' Hla Hh. apply parts_last in Hp' as ->; [|rewrite length_app; cbn; lia].
      assert (Eb : parts (done ++ [b]) cur !! length idx = Some (b_es b)) by (unfold parts; rewrite fmap_app, <- app_assoc, lookup_app_r, length_fmap, Hl, Nat.sub_diag by (rewrite length_fmap; lia); done).
      rewrite Eb in Hp. injection Hp as <-. by eapply Hshort.
Qed.

Lemma handle_of_stored q data h raw : stored_at q data h raw -> Z.of_nat (length data) < 2 ^ 63 -> handle_fits h.
Proof using Type.
  intros Hs Hl. pose proof (stored_at_length _ _ _ _ Hs) as Hle. destruct Hs as (pre & stored & type & post & _ & _ & _ & ->). unfold handle_fits. cbn in *. lia.
Qed.

Lemma add_index_ok r idx key : index_block_options r = set_interval 1 opts -> index_block r = build 1 idx -> handle_fits (pending_handle r) ->
  exists enc, encodes (pending_handle r) enc /\ add_index_entry key r = Ok (set_pending false (pending_handle r) (set_index_block (build 1 (idx ++ [(key, enc)])) key r)).
Proof using Type.
  intros Ho Hi Hh. destruct (handle_encoding _ [] Hh) as (l & E & Hb & Hl & Hd). exists l. split; [split_and!; [done|lia|done]|].
  unfold add_index_entry. rewrite E, Ho, Hi, build_snoc. done.
Qed.

Lemma last_in (l : entries) x : list.last l = Some x -> x ∈ l.
Proof using Type. intros [l' ->]%last_Some. apply elem_of_app. right. by apply list_elem_of_singleton. Qed.

Lemma entries_pending done b : b_es b <> [] -> exists k v, list.last (entries_of (done ++ [b]) []) = Some (k, v) /\ (k, v) ∈ b_es b.
Proof using Type.
  intros Hne. destruct (list.last (b_es b)) as [[k v]|] eqn:El; [|by apply last_None in El]. exists k, v.
  rewrite entries_of_split, app_nil_r, fmap_app, concat_app. cbn. rewrite app_nil_r, last_app, El. split; [done|]. by apply last_in.
Qed.

(** The handle of the block before is entered into the index, if this is still to be done. *)
Lemma emit_ok r done cur idx k v : tb_inv r done cur idx -> ok k -> (forall kv, kv ∈ entries_of done cur -> ord kv.1 k < 0) -> weight (entries_of done cur) < 2 ^ 31 ->
  exists idx1 k1,
    (if pending_index_entry r then
       sep ← FindShortestSeparator (comparators (o_comparator (tb_options r))) (tb_last_key r) k; add_index_entry sep r
     else Ok r) = Ok (set_pending false (pending_handle r) (set_index_block (build 1 idx1) k1 r)) /\
    indexes idx1 done /\ separates (comparators (o_comparator opts)) ord idx1 (parts done (cur ++ [(k, v)])) /\
    Forall (fun e => ok e.1) idx1 /\ weight idx1 <= 2 * weight (concat (b_es <$> take (length idx1) done)).
Proof using Hc.
  intros Hi Hok Hk Hw. pose proof Hi as [[Hopt Hiopt] Hst Hcalls [Ho Hol] Hsto Hnon [Hdlt Hdis] Hda Hin Hpe Hla Hse [Hid Hwi] (Hby & Hoks & Hso)].
  rewrite Hopt. destruct (pending_index_entry r) eqn:Ep.
  - destruct Hpe as (-> & done' & b & -> & Hix & Hph). apply Forall_app in Hnon as [Hnon [Hne _]%Forall_cons]. pose proof (Forall2_length _ _ _ Hix) as Hlen.
    destruct (entries_pending done' b Hne) as (kl & vl & Hlast & Hlb). rewrite (Hla _ _ Hlast).
    assert (Hokl : ok kl) by (rewrite Forall_forall in Hoks; apply (Hoks (kl, vl)), last_in; done).
    destruct (cs_separator kl k Hokl Hok) as (sep & Hfs & Hsok & Hsl & Hsb & _). rewrite Hfs. cbn [mbind result_bind].
    destruct Hsb as [Hs1 Hs2]; [by apply (Hk (kl, vl)), last_in|].
    assert (Hfit : handle_fits (pending_handle r)).
    { rewrite Hph. apply Forall_app in Hsto as [_ [Hb _]%Forall_cons]. eapply handle_of_stored; [exact Hb|]. rewrite <- Ho.
      rewrite entries_of_split, weight_app in Hw. cbn in Hw. lia. }
    destruct (add_index_ok r idx sep Hiopt Hin Hfit) as (enc & Henc & ->). exists (idx ++ [(sep, enc)]), sep. split; [done|]. split; [|split; [|split]].
    + apply Forall2_app; [done|]. constructor; [by rewrite <- Hph|constructor].
    + apply separates_next; [done|done|done| |by intros kv ->%list_elem_of_singleton|].
      * intros kv Hkv. apply (ord_le_trans kv.1 kl sep); [by apply (sorted_last _ _ _ Hso Hlast Hkv)|done].
      * intros kl' vl' kf vf Hl1 [= <- <-]. rewrite entries_last, Hl1 in Hlast by done. injection Hlast as -> ->. exact Hfs.
    + apply Forall_app. split; [done|]. by constructor.
    + rewrite weight_app. cbn [weight foldr fst snd]. destruct Henc as (_ & Henc & _). pose proof (weight_in _ _ Hlb) as Hwb. cbn [fst snd] in Hwb. unfold kMaxEncodedLength in Henc.
      rewrite take_ge by (rewrite !length_app; cbn; lia). rewrite Hlen, take_app_length in Hwi. rewrite fmap_app, concat_app, weight_app. cbn [fmap list_fmap concat]. rewrite app_nil_r.
      pose proof (weight_nonneg (b_es b)). lia.
  - destruct Hpe as [Hix Hcur]. pose proof (Forall2_length _ _ _ Hix) as Hlen. exists idx, (tb_last_key r). split; [|split; [done|split; [|done]]].
    + destruct r. cbn in *. by subst.
    + apply separates_add; [done|lia| |done]. destruct Hcur as [->|?]; [left|by right]. by destruct idx.
Qed.

Lemma entries_add done cur kv : entries_of done (cur ++ [kv]) = entries_of done cur ++ [kv].
Proof. by rewrite !entries_of_split, app_assoc. Qed.

Lemma sorted_snoc (l : entries) x : StronglySorted (fun x y => ord x.1 y.1 < 0) l -> (forall y, y ∈ l -> ord y.1 x.1 < 0) ->
  StronglySorted (fun x y => ord x.1 y.1 < 0) (l ++ [x]).
Proof.
  induction l as [|y l IH]; intros Hs Hx; cbn; [by repeat constructor|]. inversion_clear Hs as [|? ? Hs' Hf]. constructor.
  - apply IH; [done|]. intros z Hz. apply Hx. by right.
  - apply Forall_app. split; [done|]. constructor; [apply Hx; by left|constructor].
Qed.

(** The state of [Add] before the block is flushed, with the filter [F]. *)
Definition added (k v : list Z) (cur idx1 : entries) (F : option (addr * FilterBlockBuilder)) (r : TableBuilder) : TableBuilder :=
  set_data_block (build interval (cur ++ [(k, v)])) (num_entries r + 1)
    (set_filter_block F (set_pending false (pending_handle r) (set_index_block (build 1 idx1) k r))).

Definition add_filter (k : list Z) (r : TableBuilder) : option (addr * FilterBlockBuilder) :=
  match filter_block r with Some (p, f) => Some (p, AddKey k f) | None => None end.

Lemma Add_eq r done cur idx k v : tb_inv r done cur idx -> ok k -> (forall kv, kv ∈ entries_of done cur -> ord kv.1 k < 0) -> weight (entries_of done cur) < 2 ^ 31 -> bytes v ->
  exists idx1, let r' := added k v cur idx1 (add_filter k r) r in tb_inv r' done (cur ++ [(k, v)]) idx1 /\
    TB_Add comparators policies port pval k v r = if o_block_size opts <=? CurrentSizeEstimate (data_block r') then TB_Flush policies port pval r' else Ok r'.
Proof using Hc Hbytes.
  intros Hi Hok Hk Hw Hv. pose proof Hi as [[Hopt Hiopt] Hst Hcalls [Ho Hol] Hsto Hnon [Hdlt Hdis] Hda Hin Hpe Hla Hse [Hid Hwi] (Hby & Hoks & Hso)].
  destruct (emit_ok r done cur idx k v Hi Hok Hk Hw) as (idx1 & k1 & E & Hix & Hsep & Hid1 & Hw1). exists idx1. cbv zeta. split.
  - split; cbn; [done..| | | | |].
    + split; [done|]. right. by destruct cur.
    + intros k' v'. rewrite entries_add, last_snoc. by intros [= -> ->].
    + done.
    + done.
    + rewrite entries_add. split; [apply Forall_app; split; [done|]; constructor; [split; [by apply Hbytes|done]|constructor]|].
      split; [apply Forall_app; split; [done|]; by constructor|]. by apply sorted_snoc.
  - unfold TB_Add, tb_ok. rewrite Hst. cbn [status_ok negb]. rewrite E. cbn [mbind result_bind]. unfold added, add_filter. rewrite build_snoc, <- Hda, <- Hopt.
    destruct r. cbn. destruct filter_block0 as [[p f]|]; reflexivity.
Qed.

Lemma add_filter_ok r done cur idx1 k v : filter_inv r done cur -> (o_filter_policy opts <> NULL -> okf k) -> (length (entries_of done cur) < most)%nat ->
  filter_inv (added k v cur idx1 (add_filter k r) r) done (cur ++ [(k, v)]).
Proof using Hpol.
  intros Hf Hk Hm. unfold filter_inv in *. cbn [filter_block added set_data_block set_filter_block]. unfold add_filter. destruct (filter_block r) as [[p f]|]; [|done].
  destruct Hf as (-> & Hp & fs & ps & hist & Hb & Hcov & Eoff & Hps & Hd & Hcur). split; [done|]. split; [done|].
  destruct (AddKeys_built policy okf most (Hp := Hpol Hp) [k] f fs ps hist Hb Hcov) as [Hb' Hcov']; [constructor; [by apply Hk|constructor]|cbn; lia|].
  exists fs, (ps ++ [k]), (hist ++ [(Z.of_nat (length fs), k)]). split_and!; [done..| | |].
  - rewrite entries_add, !length_app. cbn. lia.
  - intros b k' v' Hb1 Hk'. apply elem_of_app. left. by eapply Hd.
  - intros k' v' [Hk'|[= -> ->]%list_elem_of_singleton]%elem_of_app; apply elem_of_app; [left; by eapply Hcur|right].
    apply list_elem_of_singleton. cbn. by rewrite Eoff.
Qed.

Lemma Add_ok r done cur idx k v : tb_inv r done cur idx -> filter_inv r done cur -> ok k -> bytes v -> (forall kv, kv ∈ entries_of done cur -> ord kv.1 k < 0) ->
  weight (entries_of done cur ++ [(k, v)]) < 2 ^ 31 -> (o_filter_policy opts <> NULL -> okf k) -> (length (entries_of done cur) < most)%nat ->
  exists r' done' cur' idx', TB_Add comparators policies port pval k v r = Ok r' /\ tb_inv r' done' cur' idx' /\ filter_inv r' done' cur' /\
    entries_of done' cur' = entries_of done cur ++ [(k, v)].
Proof using Hc Hbytes Hpol Hport.
  intros Hi Hf Hok Hv Hk Hw Hfk Hm. pose proof (weight_nonneg [(k, v)]) as Hwk. rewrite weight_app in Hw.
  destruct (Add_eq r done cur idx k v Hi Hok Hk) as (idx1 & Hi' & E); [lia|done|]. cbv zeta in E. pose proof (add_filter_ok r done cur idx1 k v Hf Hfk Hm) as Hf'.
  rewrite E. set (r' := added _ _ _ _ _ _) in *. destruct (o_block_size opts <=? _).
  - destruct (TB_Flush_ok r' done (cur ++ [(k, v)]) idx1 Hi' Hf') as (r'' & h & E' & Hi'' & Hf''); [rewrite entries_add, weight_app; lia|by destruct cur|].
    exists r'', (done ++ [mkBlk (cur ++ [(k, v)]) h]), [], idx1. split_and!; [done..|]. by rewrite entries_flushed, entries_add.
  - exists r', done, (cur ++ [(k, v)]), idx1. split_and!; [done..|]. by rewrite entries_add.
Qed.

Lemma TB_add_all_ok es : forall r done cur idx, tb_inv r done cur idx -> filter_inv r done cur ->
  Forall (fun kv => ok kv.1) es -> Forall (fun kv => bytes kv.2) es -> StronglySorted (fun x y => ord x.1 y.1 < 0) (entries_of done cur ++ es) ->
  weight (entries_of done cur ++ es) < 2 ^ 31 -> (o_filter_policy opts <> NULL -> Forall (fun kv => okf kv.1) es) -> (length (entries_of done cur ++ es) <= most)%nat ->
  exists r' done' cur' idx', add_all comparators policies port pval es r = Ok r' /\ tb_inv r' done' cur' idx' /\ filter_inv r' done' cur' /\
    entries_of done' cur' = entries_of done cur ++ es.
Proof using Hc Hbytes Hpol Hport.
  induction es as [|[k v] es IH]; intros r done cur idx Hi Hf Hok Hv Hs Hw Hfk Hm; cbn [add_all].
  { exists r, done, cur, idx. by rewrite app_nil_r. }
  inversion_clear Hok as [|? ? Hk Hok']. inversion_clear Hv as [|? ? Hvv Hv']. cbn [fst snd] in *.
  replace (entries_of done cur ++ (k, v) :: es) with ((entries_of done cur ++ [(k, v)]) ++ es) in * by (by rewrite <- app_assoc).
  destruct (Add_ok r done cur idx k v Hi Hf Hk Hvv) as (r1 & done1 & cur1 & idx1 & E & Hi1 & Hf1 & Ee).
  - intros kv Hkv. apply list_elem_of_split in Hkv as (a & b & Hab). rewrite Hab, <- !app_assoc in Hs. clear -Hs.
    induction a as [|z a IH]; cbn in Hs; inversion_clear Hs as [|? ? Hs' Hfa]; [|by apply IH]. rewrite Forall_forall in Hfa. apply (Hfa (k, v)).
    apply elem_of_app. right. by left.
  - rewrite weight_app in Hw. pose proof (weight_nonneg es). lia.
  - intros Hn. by apply (Forall_inv (Hfk Hn)).
  - rewrite !length_app in Hm. cbn in Hm. lia.
  - rewrite E. cbn [mbind result_bind]. rewrite <- Ee in *. destruct (IH r1 done1 cur1 idx1 Hi1 Hf1 Hok' Hv' Hs Hw) as (r' & done' & cur' & idx' & E' & Hi' & Hf' & Ee'); [|done|].
    { intros Hn. by apply (Forall_inv_tail (Hfk Hn)). }
    by exists r', done', cur', idx'.
Qed.

Lemma new_ok file : wf_calls file = [] -> wf_data file = [] -> exists r, TableBuilder_new policies opts file = Ok r /\ tb_inv r [] [] [] /\ filter_inv r [] [].
Proof using Type.
  intros Hca Hd. unfold TableBuilder_new. assert (Hinv : forall F, tb_inv (mkTB opts (set_interval 1 opts) file 0 StOK BlockBuilder_new BlockBuilder_new [] 0 false F false BlockHandle_new) [] [] []).
  { intros F. split; cbn; try done.
    - by rewrite Hd.
    - split; constructor.
    - split; [constructor|by left].
    - split_and!; [by apply Forall_nil_2..|apply SSorted_nil]. }
  destruct (Z.eqb_spec (o_filter_policy opts) NULL) as [En|En]; cbn [mbind result_bind].
  - eexists. split; [done|]. split; [apply Hinv|done].
  - eexists. split; [done|]. split; [apply Hinv|]. unfold filter_inv. cbn. split; [done|]. split; [done|]. exists [], [], [].
    split_and!; [split; cbn; try done; lia|by intros i key []%elem_of_nil|done|done|by intros b k v []%elem_of_nil|by intros k v []%elem_of_nil].
Qed.

(** *** The end of the file *)

(** All is well, and the file is not longer than [n]. *)
Definition good (r : TableBuilder) (n : Z) : Prop :=
  writes_ok r /\ tb_status r = StOK /\ tb_offset r = Z.of_nat (length (wf_data (tb_file r))) /\ tb_offset r <= n.

Lemma written_good q r raw h r' n m : written q r raw h r' -> good r n -> Z.of_nat (length raw) + 5 <= m -> n + m < 2 ^ 63 ->
  good r' (n + m) /\ stored_at q (wf_data (tb_file r')) h raw /\ handle_fits h.
Proof using Type.
  intros [Hh Hrest Hca (k & Hk & Hlen & Hoff) _ Hat] (_ & Hst & Ho & Hn) Hm Hnm. specialize (Hat Ho). rewrite u64_small in Hoff by lia.
  assert (Hs : tb_status r' = StOK) by (rewrite Hrest; done). split; [split_and!; [done|done|lia|lia]|]. split; [done|]. eapply handle_of_stored; [done|lia].
Qed.

Lemma written_keeps q q0 r raw h r' h0 raw0 : written q r raw h r' -> stored_at q0 (wf_data (tb_file r)) h0 raw0 -> stored_at q0 (wf_data (tb_file r')) h0 raw0.
Proof using Type. intros [_ _ _ _ [more ->] _]. apply stored_at_app. Qed.

(** A filter for every key at the offset of its block. *)
Definition filtered (fs : list (list Z)) (done : list blk) : Prop :=
  forall b k v, b ∈ done -> (k, v) ∈ b_es b -> exists f, 0 <= h_offset (b_handle b) / kFilterBase /\
    fs !! Z.to_nat (h_offset (b_handle b) / kFilterBase) = Some f /\ KeyMayMatch policy k f = Ok true.

Lemma concat_length (fs : list (list Z)) n : Forall (fun f => Z.of_nat (length f) <= n) fs -> Z.of_nat (length (concat fs)) <= n * Z.of_nat (length fs).
Proof using Type. induction 1 as [|f fs Hf _ IH]; cbn [concat length]; [lia|]. rewrite length_app. lia. Qed.

Lemma finish_filter_ok r done n : filter_inv r done [] -> good r n -> n <= 2 ^ 30 ->
  if o_filter_policy opts =? NULL then finish_filter policies pval r = Ok (BlockHandle_new, r) /\ filter_block r = None
  else exists fs h r', finish_filter policies pval r = Ok (h, r') /\ is_Some (filter_block r) /\ written no_snappy r (FilterBlock.block_contents fs) h r' /\
    filtered fs done /\ good r' (n + 2 ^ 61) /\ handle_fits h.
Proof using Hpol.
  intros Hf Hg Hn. unfold filter_inv in Hf. unfold finish_filter. destruct (filter_block r) as [[p f]|] eqn:Efb.
  2: { by rewrite Hf, Z.eqb_refl. }
  destruct Hf as (-> & Hp & fs & ps & hist & Hb & Hcov & Eoff & Hps & Hd & _). rewrite (proj2 (Z.eqb_neq _ _)) by done.
  destruct (filter_Finish_built policy okf most (Hp := Hpol Hp) f fs ps hist Hb Hcov) as (fs' & E & Hfs & Hcov' & Hl).
  unfold tb_ok. pose proof Hg as (Hca & Hst & Ho & Hle). rewrite Hst, E. cbn [status_ok mbind result_bind]. fold (FilterBlock.block_contents fs').
  assert (Hbc : bytes (FilterBlock.block_contents fs')).
  { unfold FilterBlock.block_contents. apply Forall_app. split; [|apply Forall_app; split; [apply words_bytes|repeat constructor; unfold kFilterBaseLg; lia]].
    clear -Hfs. induction Hfs as [|g l [Hg _] _ IH]; cbn; [constructor|]. by apply Forall_app. }
  destruct (raw_written no_snappy pval _ kNoCompression (FilterBlock.block_contents fs') r Hbc Hca) as (h & r' & Ew & Hw); [by left|done|].
  assert (Hlen : Z.of_nat (length (FilterBlock.block_contents fs')) + 5 <= 2 ^ 61).
  { rewrite FilterBlock.contents_length. pose proof (concat_length fs' (2 ^ 40)) as Hcl. assert (Hfs2 : Forall (fun f => Z.of_nat (length f) <= 2 ^ 40) fs') by (eapply Forall_impl; [exact Hfs|]; by intros ? []).
    specialize (Hcl Hfs2). assert (Hfl : Z.of_nat (length fs) <= 2 ^ 20).
    { rewrite <- Eoff. apply Z.div_le_upper_bound; [done|]. change (kFilterBase * 2 ^ 20) with (2 ^ 31). lia. }
    assert (2 ^ 40 * Z.of_nat (length fs') <= 2 ^ 40 * (2 ^ 20 + 1)) by (apply Z.mul_le_mono_nonneg_l; lia). lia. }
  destruct (written_good _ _ _ _ _ n (2 ^ 61) Hw Hg Hlen) as (Hg' & _ & Hfit); [lia|].
  exists fs', h, r'. split; [done|]. split; [done|]. split; [done|]. split; [|done].
  intros b k v Hb1 Hk. destruct (Hcov' _ _ (Hd b k v Hb1 Hk)) as [(g & H0 & Hg1 & Hm)|[_ []%elem_of_nil]]. by exists g.
Qed.

(** Only the file has changed. *)
Definition same_rest (r r' : TableBuilder) : Prop := r' = set_tb_offset (tb_offset r') (set_file (tb_file r') StOK r).

Lemma same_rest_trans r r1 r2 : same_rest r r1 -> same_rest r1 r2 -> same_rest r r2.
Proof using Type. unfold same_rest. intros H1 H2. rewrite H2 at 1. rewrite H1. done. Qed.

(** The last entry of the index, when it is still to be made. *)
Lemma last_index_ok r0 r done idx n : tb_inv r0 done [] idx -> same_rest (set_closed r0) r -> good r n -> n < 2 ^ 63 -> weight (concat (b_es <$> done)) < 2 ^ 31 ->
  exists idx1 k1,
    (if pending_index_entry r then
       key ← FindShortSuccessor (comparators (o_comparator (tb_options r))) (tb_last_key r); add_index_entry key r
     else Ok r) = Ok (set_pending false (pending_handle r) (set_index_block (build 1 idx1) k1 r)) /\
    indexes idx1 done /\ separates (comparators (o_comparator opts)) ord idx1 (parts done []) /\
    Forall (fun e => ok e.1) idx1 /\ weight idx1 <= 2 * weight (concat (b_es <$> done)).
Proof using Hc.
  intros [[Hopt Hiopt] Hst Hcalls [Ho Hol] Hsto Hnon [Hdlt Hdis] Hda Hin Hpe Hla Hse [Hid Hwi] (Hby & Hoks & Hso)] Hrest Hg Hn Hw.
  assert (Hf : tb_options r = opts /\ index_block_options r = set_interval 1 opts /\ index_block r = build 1 idx /\ pending_index_entry r = pending_index_entry r0 /\
    pending_handle r = pending_handle r0 /\ tb_last_key r = tb_last_key r0) by (rewrite Hrest; cbn; by split_and!).
  destruct Hf as (-> & Eio & Eib & -> & Eph & Elk). destruct (pending_index_entry r0) eqn:Ep.
  - destruct Hpe as (_ & done' & b & -> & Hix & Hph). apply Forall_app in Hnon as [Hnon [Hne _]%Forall_cons]. pose proof (Forall2_length _ _ _ Hix) as Hlen.
    destruct (entries_pending done' b Hne) as (kl & vl & Hlast & Hlb). rewrite Elk, (Hla _ _ Hlast).
    assert (Hokl : ok kl) by (rewrite Forall_forall in Hoks; apply (Hoks (kl, vl)), last_in; done).
    destruct (cs_successor kl Hokl) as (sep & -> & Hsok & Hsl & Hs1). cbn [mbind result_bind].
    assert (Hfit : handle_fits (pending_handle r)).
    { rewrite Eph, Hph. apply Forall_app in Hsto as [_ [Hb _]%Forall_cons]. eapply handle_of_stored; [exact Hb|]. rewrite <- Ho. lia. }
    destruct (add_index_ok r idx sep Eio Eib Hfit) as (enc & Henc & ->). exists (idx ++ [(sep, enc)]), sep. split; [done|]. split; [|split; [|split]].
    + apply Forall2_app; [done|]. constructor; [by rewrite <- Hph, <- Eph|constructor].
    + apply separates_next; [done|done|done| |by intros kv []%elem_of_nil|done].
      intros kv Hkv. apply (ord_le_trans kv.1 kl sep); [by apply (sorted_last _ _ _ Hso Hlast Hkv)|done].
    + apply Forall_app. split; [done|]. by constructor.
    + rewrite weight_app. cbn [weight foldr fst snd]. destruct Henc as (_ & Henc & _). pose proof (weight_in _ _ Hlb) as Hwb. cbn [fst snd] in Hwb. unfold kMaxEncodedLength in Henc.
      rewrite Hlen, take_app_length in Hwi. rewrite fmap_app, concat_app, weight_app. cbn [fmap list_fmap concat]. rewrite app_nil_r.
      pose proof (weight_nonneg (b_es b)). lia.
  - destruct Hpe as [Hix Hcur]. pose proof (Forall2_length _ _ _ Hix) as Hlen. exists idx, (tb_last_key r). split; [|split; [done|split; [done|split; [done|]]]].
    + rewrite Hrest. destruct r0. cbn in *. by subst.
    + by rewrite take_ge in Hwi by lia.
Qed.

Lemma index_bytes idx done : indexes idx done -> Forall (fun e => ok e.1) idx -> all_bytes idx.
Proof using Hbytes.
  intros Hix Hok. induction Hix as [|[k h] b idx done (Hb & _) _ IH]; [by apply Forall_nil_2|]. inversion_clear Hok as [|? ? Hk Hok']. constructor; [|by apply IH].
  split; [by apply Hbytes|done].
Qed.

Lemma finish_index_ok r0 r done idx n : tb_inv r0 done [] idx -> same_rest (set_closed r0) r -> good r n -> n <= 2 ^ 62 -> weight (concat (b_es <$> done)) <= 2 ^ 29 ->
  exists idx1 h r', finish_index comparators port pval r = Ok (h, r') /\ good r' (n + 2 ^ 31) /\ handle_fits h /\
    stored_at port (wf_data (tb_file r')) h (Block.Finish (build 1 idx1)) /\
    (forall q h0 raw0, stored_at q (wf_data (tb_file r)) h0 raw0 -> stored_at q (wf_data (tb_file r')) h0 raw0) /\
    indexes idx1 done /\ separates (comparators (o_comparator opts)) ord idx1 (parts done []) /\ Forall (fun e => ok e.1) idx1 /\ weight idx1 <= 2 * weight (concat (b_es <$> done)).
Proof using Hc Hbytes Hport.
  intros Hi Hrest Hg Hn Hw. destruct (last_index_ok r0 r done idx n Hi Hrest Hg) as (idx1 & k1 & E & Hix & Hsep & Hok1 & Hw1); [lia|lia|].
  pose proof Hg as (Hca & Hst & Ho & Hle). unfold finish_index, tb_ok. rewrite Hst. cbn [status_ok negb]. rewrite E. cbn [mbind result_bind].
  set (r1 := set_pending _ _ _). destruct (block_written port pval (build 1 idx1) r1) as (h & r2 & Ew & Hwr); [by apply Finish_bytes, (index_bytes idx1 done)|done|].
  replace (index_block r1) with (build 1 idx1) by done. rewrite Ew. cbn [mbind result_bind].
  pose proof (Finish_size 1 idx1) as Hsz. destruct (written_good _ _ _ _ _ n (2 ^ 31) Hwr) as (Hg2 & Hat & Hfit); [done|lia|lia|].
  exists idx1, h, (set_index_block Reset (tb_last_key r2) r2). split; [done|]. split; [exact Hg2|]. split; [done|]. split; [done|].
  split; [|done]. intros q h0 raw0 H0. exact (written_keeps _ _ _ _ _ _ _ _ Hwr H0).
Qed.

Context (names : addr -> list Z).

#[local] Abbreviation filter_key := (filter_prefix ++ names (o_filter_policy opts)).

Context (Hname : bytes (names (o_filter_policy opts)) /\ Z.of_nat (length (names (o_filter_policy opts))) < 2 ^ 30).

(** The block that names the filters. *)
Definition meta_block (entry : option (list Z)) : list Z :=
  Block.Finish (build interval (match entry with Some enc => [(filter_key, enc)] | None => [] end)).

Lemma finish_meta_ok r n fh : tb_options r = opts -> good r n -> n <= 2 ^ 62 -> (is_Some (filter_block r) -> o_filter_policy opts <> NULL /\ handle_fits fh) ->
  exists e h r', finish_meta names port pval fh r = Ok (h, r') /\ written port r (meta_block e) h r' /\ good r' (n + 2 ^ 31) /\
    stored_at port (wf_data (tb_file r')) h (meta_block e) /\ handle_fits h /\
    match filter_block r with Some _ => exists enc, e = Some enc /\ encodes fh enc | None => e = None end.
Proof using Hport Hname.
  intros Ho Hg Hn Hfb. pose proof Hg as (Hca & Hst & _ & _). destruct Hname as [Hnb Hnl].
  assert (Hgo : forall e, match e with Some enc => bytes enc /\ (length enc <= kMaxEncodedLength)%nat | None => True end ->
    exists h r', WriteBlock port pval (build interval (match e with Some enc => [(filter_key, enc)] | None => [] end)) r = Ok (h, r') /\
      written port r (meta_block e) h r' /\ good r' (n + 2 ^ 31) /\ stored_at port (wf_data (tb_file r')) h (meta_block e) /\ handle_fits h).
  { intros e He. assert (Hbe : all_bytes (match e with Some enc => [(filter_key, enc)] | None => [] end)).
    { destruct e as [enc|]; [|by apply Forall_nil_2]. apply Forall_cons_2; [|by apply Forall_nil_2]. split; [|apply He]. apply Forall_app. split; [|done].
      unfold filter_prefix. repeat (apply Forall_cons_2; [lia|]). by apply Forall_nil_2. }
    destruct (block_written port pval _ r (Finish_bytes interval _ Hbe) Hca) as (h & r' & Ew & Hw). exists h, r'. split; [done|]. split; [done|].
    eapply written_good; [done|done| |lia]. pose proof (Finish_size interval (match e with Some enc => [(filter_key, enc)] | None => [] end)) as Hsz.
    unfold meta_block. destruct e as [enc|]; cbn [weight foldr fst snd length] in Hsz; [|lia]. rewrite length_app in Hsz. unfold kMaxEncodedLength in He. destruct He as [_ He]. change (length filter_prefix) with 7%nat in Hsz. lia. }
  unfold finish_meta, tb_ok. rewrite Hst. cbn [status_ok negb]. rewrite Ho. destruct (filter_block r) as [pf|] eqn:Efb.
  - destruct (Hfb ltac:(done)) as [Hp Hfit]. rewrite (proj2 (Z.eqb_neq _ _)) by done. destruct (handle_encoding _ [] Hfit) as (enc & -> & Hb & Hl & Hd). cbn [mbind result_bind app].
    destruct (Hgo (Some enc)) as (h & r' & E & Hrest); [split; [done|lia]|]. exists (Some enc), h, r'. change (Block.Add interval filter_key enc BlockBuilder_new) with (build interval [(filter_key, enc)]).
    split; [done|]. destruct Hrest as (? & ? & ? & ?). split_and!; try done. exists enc. split; [done|]. split_and!; [done|lia|done].
  - cbn [mbind result_bind]. destruct (Hgo None I) as (h & r' & E & ? & ? & ? & ?). by exists None, h, r'.
Qed.

Lemma finish_footer_ok r n meta index : good r n -> n <= 2 ^ 62 + 2 ^ 32 -> handle_fits meta -> handle_fits index ->
  exists footer r', finish_footer meta index r = Ok r' /\ tb_status r' = StOK /\ tb_offset r' = Z.of_nat (length (wf_data (tb_file r'))) /\
    wf_data (tb_file r') = wf_data (tb_file r) ++ footer /\ Footer_EncodeTo (mkFooter meta index) [] = Ok footer.
Proof using Type.
  clear Hname. intros (Hca & Hst & Ho & Hle) Hn Hm Hi. unfold finish_footer, tb_ok. rewrite Hst. cbn [status_ok negb].
  destruct (footer_encoding (mkFooter meta index) Hm Hi) as (footer & E & _ & Hl & _). rewrite E. cbn [mbind result_bind]. unfold Append, wf_status. rewrite Hca. cbn [head default tail].
  eexists footer, _. split; [done|]. cbn. split; [done|]. split; [|done]. rewrite Hl, length_app, Hl, u64_small by (unfold kEncodedLength, kMaxEncodedLength; lia). lia.
Qed.

(** ** What a finished file holds *)

Record is_table (data : list Z) (es : entries) (done : list blk) (idx : entries) (meta index : BlockHandle) : Prop := {
  tf_entries : concat (b_es <$> done) = es;
  tf_stored : Forall (fun b => stored_at port data (b_handle b) (Block.Finish (build interval (b_es b)))) done;
  tf_nonempty : Forall (fun b => b_es b <> []) done;
  tf_distinct : NoDup ((fun b => h_offset (b_handle b)) <$> done);
  tf_indexes : indexes idx done;
  tf_seps : separates (comparators (o_comparator opts)) ord idx (b_es <$> done);
  tf_idx : Forall (fun e => ok e.1) idx /\ weight idx <= 2 * weight es;
  tf_index : stored_at port data index (Block.Finish (build 1 idx));
  tf_fits : handle_fits meta /\ handle_fits index;
  tf_footer : exists pre footer, data = pre ++ footer /\ Footer_EncodeTo (mkFooter meta index) [] = Ok footer;
  tf_meta : o_filter_policy opts <> NULL -> exists fs fh enc, stored_at port data meta (meta_block (Some enc)) /\ encodes fh enc /\
    stored_at no_snappy data fh (FilterBlock.block_contents fs) /\ filtered fs done }.

Lemma separates_parts idx done : separates (comparators (o_comparator opts)) ord idx (parts done []) -> separates (comparators (o_comparator opts)) ord idx (b_es <$> done).
Proof using Type.
  intros Hs j s h Hj. destruct (Hs j s h Hj) as (H1 & H2 & H3). split; [|split].
  - intros p k v Hp. apply H1. by apply lookup_app_l_Some.
  - intros j' p k v Hlt Hp. apply (H2 j'); [done|]. by apply lookup_app_l_Some.
  - intros p p' kl vl kf vf Hp Hp'. apply (H3 p p'); by apply lookup_app_l_Some.
Qed.

Lemma flushed r done cur idx : tb_inv r done cur idx -> filter_inv r done cur -> weight (entries_of done cur) < 2 ^ 31 ->
  exists r' done', TB_Flush policies port pval r = Ok r' /\ tb_inv r' done' [] idx /\ filter_inv r' done' [] /\ entries_of done' [] = entries_of done cur.
Proof using Hpol Hport.
  intros Hi Hf Hw. destruct (decide (cur = [])) as [->|Hne].
  - exists r, done. by rewrite (Flush_nothing r done idx Hi).
  - destruct (TB_Flush_ok r done cur idx Hi Hf Hw Hne) as (r' & h & E & Hi' & Hf'). exists r', (done ++ [mkBlk cur h]). by rewrite entries_flushed.
Qed.

Lemma Finish_ok r done cur idx : tb_inv r done cur idx -> filter_inv r done cur -> weight (entries_of done cur) <= 2 ^ 29 ->
  exists r', TB_Finish comparators policies names port pval r = Ok r' /\ tb_status r' = StOK /\ tb_offset r' = Z.of_nat (length (wf_data (tb_file r'))) /\
    exists done' idx' meta index, is_table (wf_data (tb_file r')) (entries_of done cur) done' idx' meta index.
Proof using Hpol Hport Hc Hbytes Hname.
  intros Hi Hf Hw. destruct (flushed r done cur idx Hi Hf) as (r0 & done' & E0 & Hi0 & Hf0 & Ee); [lia|]. unfold TB_Finish. rewrite E0. cbn [mbind result_bind].
  rewrite <- Ee in *. clear E0 Ee Hi Hf r cur done. rename done' into done. assert (Een : entries_of done [] = concat (b_es <$> done)) by (rewrite entries_of_split; by rewrite app_nil_r).
  rewrite Een in *. pose proof (ti_offset _ _ _ _ Hi0) as [Ho Hol].
  assert (Hg0 : good (set_closed r0) (2 ^ 29)) by (split_and!; [apply (ti_calls _ _ _ _ Hi0)|apply (ti_status _ _ _ _ Hi0)|done|cbn; lia]).
  assert (Hfilter : exists fh r1, finish_filter policies pval (set_closed r0) = Ok (fh, r1) /\ same_rest (set_closed r0) r1 /\ good r1 (2 ^ 29 + 2 ^ 61) /\
    (is_Some (filter_block r1) -> o_filter_policy opts <> NULL /\ handle_fits fh) /\
    (forall q h0 raw0, stored_at q (wf_data (tb_file r0)) h0 raw0 -> stored_at q (wf_data (tb_file r1)) h0 raw0) /\
    (o_filter_policy opts <> NULL -> is_Some (filter_block r1) /\ exists fs, filtered fs done /\ stored_at no_snappy (wf_data (tb_file r1)) fh (FilterBlock.block_contents fs))).
  { pose proof (finish_filter_ok (set_closed r0) done (2 ^ 29) Hf0 Hg0 ltac:(lia)) as Hff. destruct (Z.eqb_spec (o_filter_policy opts) NULL) as [En|En].
    - destruct Hff as [E Hnone]. exists BlockHandle_new, (set_closed r0). split; [done|]. split_and!; try done.
      + unfold same_rest. rewrite <- (ti_status _ _ _ _ Hi0). by destruct r0.
      + destruct Hg0 as (? & ? & ? & ?). split_and!; [done..|lia].
      + rewrite Hnone. by intros [].
    - destruct Hff as (fs & h & r1 & E & Hsome & Hwr & Hfd & Hg1 & Hfit). exists h, r1. pose proof (wr_rest _ _ _ _ _ Hwr) as Hrest.
      assert (Hsome1 : is_Some (filter_block r1)) by (rewrite Hrest; done).
      split_and!; [done|done|done|done| |].
      + intros q h0 raw0 H0. exact (written_keeps _ _ _ _ _ _ _ _ Hwr H0).
      + intros _. split; [done|]. exists fs. split; [done|]. apply (wr_stored _ _ _ _ _ Hwr). apply Hg0. }
  destruct Hfilter as (fh & r1 & -> & Hr1 & Hg1 & Hfb & Hkeep1 & Hfs). cbn [mbind result_bind].
  assert (Hopt1 : tb_options r1 = opts) by (rewrite Hr1; apply (ti_opts _ _ _ _ Hi0)).
  destruct (finish_meta_ok r1 _ fh Hopt1 Hg1) as (e & mh & r2 & -> & Hw2 & Hg2 & Hat2 & Hmf & He); [lia|done|]. cbn [mbind result_bind].
  assert (Hr2 : same_rest (set_closed r0) r2) by (eapply same_rest_trans; [exact Hr1|apply (wr_rest _ _ _ _ _ Hw2)]).
  destruct (finish_index_ok r0 r2 done idx _ Hi0 Hr2 Hg2) as (idx' & ih & r3 & -> & Hg3 & Hif & Hat3 & Hkeep3 & Hix & Hsep & Hok' & Hw'); [lia|done|]. cbn [mbind result_bind].
  destruct (finish_footer_ok r3 _ mh ih Hg3) as (footer & r4 & -> & Hst & Hoff & Hd4 & Hfo); [lia|done|done|].
  exists r4. split; [done|]. split; [done|]. split; [done|]. exists done, idx', mh, ih. rewrite Hd4.
  assert (Hkeep : forall q h0 raw0, stored_at q (wf_data (tb_file r2)) h0 raw0 -> stored_at q (wf_data (tb_file r3) ++ footer) h0 raw0) by (intros q h0 raw0 H0; by apply stored_at_app, Hkeep3).
  assert (Hkeep2 : forall q h0 raw0, stored_at q (wf_data (tb_file r1)) h0 raw0 -> stored_at q (wf_data (tb_file r3) ++ footer) h0 raw0).
  { intros q h0 raw0 H0. apply Hkeep. exact (written_keeps _ _ _ _ _ _ _ _ Hw2 H0). }
  split; [done| |apply (ti_nonempty _ _ _ _ Hi0)|apply (ti_distinct _ _ _ _ Hi0)|done|by apply separates_parts|done|by apply stored_at_app|done|by eexists _, footer|].
  - eapply Forall_impl; [apply (ti_stored _ _ _ _ Hi0)|]. cbn. intros b Hb. by apply Hkeep2, Hkeep1.
  - intros Hp. destruct (Hfs Hp) as ([pf Epf] & fs & Hfd & Hat1). rewrite Epf in He. destruct He as (enc & -> & Henc). exists fs, fh, enc.
    split; [by apply Hkeep|]. split; [done|]. split; [by apply Hkeep2|done].
Qed.

(** A table of entries in increasing order is written without an error. *)
Lemma build_table_ok es : Forall (fun kv => ok kv.1) es -> Forall (fun kv => bytes kv.2) es -> StronglySorted (fun x y => ord x.1 y.1 < 0) es -> weight es <= 2 ^ 29 ->
  (o_filter_policy opts <> NULL -> Forall (fun kv => okf kv.1) es) -> (length es <= most)%nat ->
  exists r, build_table comparators policies names port pval opts es (mkWFile [] []) = Ok r /\ tb_status r = StOK /\
    tb_offset r = Z.of_nat (length (wf_data (tb_file r))) /\ exists done idx meta index, is_table (wf_data (tb_file r)) es done idx meta index.
Proof using Hpol Hport Hc Hbytes Hname.
  intros Hok Hv Hs Hw Hf Hm. unfold build_table. destruct (new_ok (mkWFile [] []) eq_refl eq_refl) as (r0 & -> & Hi0 & Hf0). cbn [mbind result_bind].
  destruct (TB_add_all_ok es r0 [] [] [] Hi0 Hf0) as (r1 & dn & cur & idx & -> & Hi1 & Hf1 & Ee); [done|done|done|change (entries_of [] [] ++ es) with es; lia|done|done|]. cbn [mbind result_bind].
  cbn in Ee. rewrite <- Ee in *. by apply (Finish_ok r1 dn cur idx).
Qed.

End building.
