(* ===== verification/Table.v ===== *)
(** * Reading table files

    table/table.cc: opening a table, its filters, iterators over it and single lookups, with
    or without a cache of blocks.  What a cache does is an interface ([CacheOps]). *)

From Stdlib Require Import Sorted.
From S2P Require Import Prelude Coding CRC32C TXMemStore Log InternalKey Bloom FilterBlock Block Iterators TwoLevel TableFormat TableBuilder.

Record Table := mkTable {
  t_options : Options;
  t_file : RandomAccessFile;
  cache_id : Z;
  t_filter : option FilterBlockReader;
  t_metaindex_handle : BlockHandle;
  t_index_block : Block }.

Definition set_filter (f : FilterBlockReader) (t : Table) : Table :=
  mkTable (t_options t) (t_file t) (cache_id t) (Some f) (t_metaindex_handle t) (t_index_block t).

(** [Lookup] and [Insert] of include/leveldb/cache.h, on blocks; the handles that pin
    blocks are released by the clean-up of iterators. *)
Record CacheOps (C : Type) := mkCacheOps {
  cache_Lookup : list Z -> C -> result (option Block * C);
  cache_Insert : list Z -> Block -> Z -> C -> result C }.
Arguments cache_Lookup {C}. Arguments cache_Insert {C}.

Section model.
Context (comparators : addr -> Comparator) (policies : addr -> FilterPolicy) (names : addr -> list Z) (port : Snappy) (buf : addr).

#[local] Abbreviation cmp t := (comparators (o_comparator (t_options t))).

Definition ReadFilter (filter_handle_value : list Z) (t : Table) : result Table :=
  let '(s, filter_handle, _) := Handle_DecodeFrom BlockHandle_new filter_handle_value in
  if negb (status_ok s) then Ok t
  else
    '(s, block) ← ReadBlock port buf (t_file t) ReadOptions_new filter_handle;
    if negb (status_ok s) then Ok t
    else f ← FilterBlockReader_new (c_data block); Ok (set_filter f t).

Definition ReadMeta (footer : Footer) (t : Table) : result Table :=
  if o_filter_policy (t_options t) =? NULL then Ok t
  else
    '(s, contents) ← ReadBlock port buf (t_file t) ReadOptions_new (metaindex_handle footer);
    if negb (status_ok s) then Ok t
    else
      meta ← Block_new (c_data contents);
      iter ← Block_NewIterator meta;
      let key := filter_prefix ++ names (o_filter_policy (t_options t)) in
      iter ← it_Seek (BlockIterator BytewiseComparator) key iter;
      if it_Valid (BlockIterator BytewiseComparator) iter then
        k ← it_key (BlockIterator BytewiseComparator) iter;
        if Slice_eqb k key then v ← it_value (BlockIterator BytewiseComparator) iter; ReadFilter v t else Ok t
      else Ok t.

(** [id] is what [NewId] of the cache returns, or 0 when there is none. *)
Definition Open (options : Options) (file : RandomAccessFile) (size id : Z) : result (Status * option Table) :=
  if size <? Z.of_nat kEncodedLength then Ok (StInvalidArgument, None)
  else
    '(s, footer_input) ← RA_Read file (size - Z.of_nat kEncodedLength) (Z.of_nat kEncodedLength);
    if negb (status_ok s) then Ok (s, None)
    else
      '(s, footer, _) ← Footer_DecodeFrom Footer_new footer_input;
      if negb (status_ok s) then Ok (s, None)
      else
        '(s, contents) ← ReadBlock port buf file ReadOptions_new (index_handle footer);
        if negb (status_ok s) then Ok (s, None)
        else
          index_block ← Block_new (c_data contents);
          t ← ReadMeta footer (mkTable options file id None (metaindex_handle footer) index_block);
          Ok (s, Some t).

Section cached.
Context {C : Type} (ops : CacheOps C).

Definition cache_key (t : Table) (offset : Z) : list Z := EncodeFixed64 (cache_id t) ++ EncodeFixed64 offset.

(** [None] is the null block. *)
Definition read_new_block (t : Table) (options : ReadOptions) (handle : BlockHandle) : result (Status * option (Block * bool)) :=
  '(s, contents) ← ReadBlock port buf (t_file t) options handle;
  if status_ok s then block ← Block_new (c_data contents); Ok (s, Some (block, cachable contents)) else Ok (s, None).

(** [cache] is [None] where [block_cache] is null. *)
Definition BlockReader (t : Table) (options : ReadOptions) (cache : option C) (index_value : list Z) : result (BlockIter * option C) :=
  let '(s, handle, _) := Handle_DecodeFrom BlockHandle_new index_value in
  if negb (status_ok s) then Ok (BEmpty s, cache)
  else
    '(s, block, cache) ←
      match cache return result (Status * option Block * option C) with
      | Some c =>
          '(found, c) ← cache_Lookup ops (cache_key t (h_offset handle)) c;
          match found with
          | Some block => Ok (s, Some block, Some c)
          | None =>
              '(s, read) ← read_new_block t options handle;
              match read with
              | Some (block, cachable) =>
                  c ← (if cachable && fill_cache options then cache_Insert ops (cache_key t (h_offset handle)) block (size_ block) c else Ok c);
                  Ok (s, Some block, Some c)
              | None => Ok (s, None, Some c)
              end
          end
      | None => '(s, read) ← read_new_block t options handle; Ok (s, option_map fst read, None)
      end;
    match block with
    | Some block => iter ← Block_NewIterator block; Ok (iter, cache)
    | None => Ok (BEmpty s, cache)
    end.

(** The arguments with which the saver is called, if it is. *)
Definition InternalGet (t : Table) (options : ReadOptions) (cache : option C) (k : list Z) :
    result (Status * option (list Z * list Z) * option C) :=
  let I := BlockIterator (cmp t) in
  iiter ← Block_NewIterator (t_index_block t);
  iiter ← it_Seek I k iiter;
  '(s, saved, cache) ←
    (if it_Valid I iiter then
       handle_value ← it_value I iiter;
       reject ← (match t_filter t with
                 | Some filter =>
                     let '(s, handle, _) := Handle_DecodeFrom BlockHandle_new handle_value in
                     if status_ok s then
                       b ← FilterBlockReader_KeyMayMatch (policies (o_filter_policy (t_options t))) filter (h_offset handle) k;
                       Ok (negb b)
                     else Ok false
                 | None => Ok false
                 end);
       if (reject : bool) then Ok (StOK, None, cache)
       else
         '(block_iter, cache) ← BlockReader t options cache handle_value;
         block_iter ← it_Seek I k block_iter;
         saved ← (if it_Valid I block_iter then key ← it_key I block_iter; v ← it_value I block_iter; Ok (Some (key, v)) else Ok None);
         s ← it_status I block_iter;
         Ok (s, saved, cache)
     else Ok (StOK, None, cache));
  s ← (if status_ok s then it_status I iiter else Ok s);
  Ok (s, saved, cache).

End cached.

(** The function that opens blocks, for a table without a cache. *)
Definition no_cache : CacheOps unit := mkCacheOps unit (fun _ c => Ok (None, c)) (fun _ _ _ c => Ok c).

Definition block_function (t : Table) (options : ReadOptions) (index_value : list Z) : result BlockIter :=
  '(it, _) ← BlockReader no_cache t options None index_value; Ok it.

(** An index entry is at least one byte long. *)
Definition TableIterator (t : Table) (options : ReadOptions) : Iterator (TwoLevelState BlockIter BlockIter) :=
  TwoLevelIterator (BlockIterator (cmp t)) (BlockIterator (cmp t)) (block_function t options) (S (S (length (data_ (t_index_block t))))).

Definition Table_NewIterator (t : Table) : result (TwoLevelState BlockIter BlockIter) :=
  iter ← Block_NewIterator (t_index_block t); TwoLevel_new (BlockIterator (cmp t)) iter.

Definition ApproximateOffsetOf (t : Table) (key : list Z) : result Z :=
  let I := BlockIterator (cmp t) in
  index_iter ← Block_NewIterator (t_index_block t);
  index_iter ← it_Seek I key index_iter;
  if it_Valid I index_iter then
    input ← it_value I index_iter;
    let '(s, handle, _) := Handle_DecodeFrom BlockHandle_new input in
    Ok (if status_ok s then h_offset handle else h_offset (t_metaindex_handle t))
  else Ok (h_offset (t_metaindex_handle t)).

End model.

(** What a cache may answer: [holds m k b] says that block [b] is in it under [k]. *)
Class CacheSpec {C} (ops : CacheOps C) (holds : C -> list Z -> Block -> Prop) : Prop := {
  ca_lookup k m : exists o m', cache_Lookup ops k m = Ok (o, m') /\ (forall b, o = Some b -> holds m k b) /\ (forall k' b', holds m' k' b' -> holds m k' b');
  ca_insert k b n m : exists m', cache_Insert ops k b n m = Ok m' /\ (forall k' b', holds m' k' b' -> holds m k' b' \/ (k' = k /\ b' = b)) }.

#[export] Instance no_cache_spec : CacheSpec no_cache (fun _ _ _ => False).
Proof. split; intros; eexists; [eexists|]; split; done. Qed.

(** Keys that stand for the same thing to a caller of [InternalGet]: the filter does not tell
    them apart, and the shortened separators do not fall between them. *)
Class LookupSpec (c : Comparator) (p : FilterPolicy) (used : Prop) (ok : list Z -> Prop) (ord : list Z -> list Z -> Z)
    (same : list Z -> list Z -> Prop) : Prop := {
  lk_match k k' f : used -> same k k' -> KeyMayMatch p k f = KeyMayMatch p k' f;
  lk_total k f : used -> ok k -> exists b, KeyMayMatch p k f = Ok b;
  lk_gap start limit s k : ok start -> ok limit -> ok k -> FindShortestSeparator c start limit = Ok s -> ord start limit < 0 ->
    ord start k < 0 -> ord k s <= 0 -> ~ same k limit }.

(** ** Opening what was written *)

Lemma strongly_sorted_lookup {A} (R : A -> A -> Prop) (l : list A) : (forall i j x y, (i < j)%nat -> l !! i = Some x -> l !! j = Some y -> R x y) -> StronglySorted R l.
Proof.
  induction l as [|x l IH]; intros Hl; constructor.
  - apply IH. intros i j y z Hij Hy Hz. by apply (Hl (S i) (S j)); [lia|..].
  - apply Forall_forall. intros y (j & Hj)%list_elem_of_lookup_1. by apply (Hl 0%nat (S j)); [lia|..].
Qed.

Lemma sorted_piece {A} (R : A -> A -> Prop) (a b c : list A) : StronglySorted R (a ++ b ++ c) -> StronglySorted R b.
Proof.
  induction a as [|x a IH]; cbn; [|intros Hs; apply IH; by inversion_clear Hs].
  induction b as [|y b IH]; cbn; intros Hs; [constructor|]. inversion_clear Hs as [|? ? Hs' Hf]. constructor; [by apply IH|]. by apply Forall_app in Hf as [? _].
Qed.

Lemma Slice_eqb_refl s : Slice_eqb s s = true.
Proof.
  unfold Slice_eqb. rewrite Nat.eqb_refl. cbn [andb]. apply Z.eqb_eq. induction s as [|x s IH]; [done|]. cbn [length memcmp]. by rewrite !Z.ltb_irrefl.
Qed.

Lemma weight_small l : weight l <= 2 ^ 30 -> Forall (fun kv => Z.of_nat (length kv.1) < 2 ^ 31 /\ Z.of_nat (length kv.2) < 2 ^ 31) l.
Proof. intros Hl. apply Forall_forall. intros kv Hkv. pose proof (weight_in l kv Hkv). lia. Qed.

Section reading.
Context (comparators : addr -> Comparator) (policies : addr -> FilterPolicy) (names : addr -> list Z) (port : Snappy) (buf : addr).
Context (opts : Options) (ok : list Z -> Prop) (ord : list Z -> list Z -> Z) `{Hc : !ComparatorSpec (comparators (o_comparator opts)) ok ord}.
Context (Hint : 1 <= o_block_restart_interval opts).
Context (Hname : bytes (names (o_filter_policy opts)) /\ Z.of_nat (length (names (o_filter_policy opts))) < 2 ^ 30).
Context (data : list Z) (es : entries) (dn : list blk) (idx : entries) (meta index : BlockHandle).
Context (Ht : is_table comparators policies port opts ok ord names data es dn idx meta index).
Context (Hlen : Z.of_nat (length data) < 2 ^ 32) (Hw : weight es <= 2 ^ 29).
Context (Hok : Forall (fun kv => ok kv.1) es) (Hsort : StronglySorted (fun x y => ord x.1 y.1 < 0) es).
Context (file : RandomAccessFile) (Hfile : readable file) (Hdata : rf_data file = data).

#[local] Abbreviation interval := (o_block_restart_interval opts).
#[local] Abbreviation c := (comparators (o_comparator opts)).
#[local] Abbreviation idx_data := (Block.Finish (build 1 idx)).

(** *** The blocks *)

Lemma block_part b : b ∈ dn -> exists x y, es = x ++ b_es b ++ y.
Proof using Ht.
  intros (l1 & l2 & El)%list_elem_of_split. exists (concat (b_es <$> l1)), (concat (b_es <$> l2)).
  rewrite <- (tf_entries _ _ _ _ _ _ _ _ _ _ _ _ _ Ht), El, fmap_app, concat_app. done.
Qed.

Lemma block_sorted b : b ∈ dn -> Forall (fun kv => ok kv.1) (b_es b) /\ StronglySorted (fun x y => ord x.1 y.1 < 0) (b_es b) /\ weight (b_es b) <= weight es.
Proof using Ht Hok Hsort.
  clear Hw. intros (x & y & E)%block_part. rewrite E in *. split; [|split].
  - by apply Forall_app in Hok as [_ [? _]%Forall_app].
  - by eapply sorted_piece.
  - rewrite !weight_app. pose proof (weight_nonneg x). pose proof (weight_nonneg y). lia.
Qed.

Lemma idx_block j sep h : idx !! j = Some (sep, h) -> exists b, dn !! j = Some b /\ encodes (b_handle b) h.
Proof using Ht. intros Hj. destruct (Forall2_lookup_l _ _ _ _ _ (tf_indexes _ _ _ _ _ _ _ _ _ _ _ _ _ Ht) Hj) as (b & Hb & He). by exists b. Qed.

Lemma block_seps j sep h b : idx !! j = Some (sep, h) -> dn !! j = Some b ->
  (forall k v, (k, v) ∈ b_es b -> ord k sep <= 0) /\ (forall j' b' k v, (j < j')%nat -> dn !! j' = Some b' -> (k, v) ∈ b_es b' -> ord sep k < 0) /\
  (forall b' kl vl kf vf, dn !! S j = Some b' -> list.last (b_es b) = Some (kl, vl) -> head (b_es b') = Some (kf, vf) -> FindShortestSeparator c kl kf = Ok sep).
Proof using Ht.
  intros Hj Hb. destruct (tf_seps _ _ _ _ _ _ _ _ _ _ _ _ _ Ht j sep h Hj) as (H1 & H2 & H3). split; [|split].
  - intros k v. apply H1. by rewrite list_lookup_fmap, Hb.
  - intros j' b' k v Hlt Hb'. apply (H2 j'); [done|]. by rewrite list_lookup_fmap, Hb'.
  - intros b' kl vl kf vf Hb'. apply H3; by rewrite list_lookup_fmap, ?Hb, ?Hb'.
Qed.

Lemma idx_sorted : StronglySorted (fun x y => ord x.1 y.1 < 0) idx.
Proof using Ht Hc.
  apply strongly_sorted_lookup. intros i j [s h] [s' h'] Hij Hi Hj. cbn. destruct (idx_block i s h Hi) as (b & Hb & _). destruct (idx_block j s' h' Hj) as (b' & Hb' & _).
  pose proof (tf_nonempty _ _ _ _ _ _ _ _ _ _ _ _ _ Ht) as Hne. rewrite Forall_forall in Hne. specialize (Hne b' (list_elem_of_lookup_2 _ _ _ Hb')).
  destruct (b_es b') as [|[k v] l] eqn:Eb; [done|]. assert (Hin : (k, v) ∈ b_es b') by (rewrite Eb; left).
  destruct (block_seps i s h b Hi Hb) as (_ & H2 & _). destruct (block_seps j s' h' b' Hj Hb') as (H1 & _).
  apply (co_trans ord s k s' (H2 j b' k v Hij Hb' Hin) (H1 k v Hin)).
Qed.

#[local] Instance index_spec : IteratorSpec (BlockIterator c) ok ord idx (bi_ready idx_data idx) (bi_at idx_data idx).
Proof using Ht Hc. apply BlockIterator_spec; [done|apply (tf_idx _ _ _ _ _ _ _ _ _ _ _ _ _ Ht)|apply idx_sorted]. Qed.

Lemma index_opens : exists b s, Block_new idx_data = Ok b /\ Block_NewIterator b = Ok s /\ bi_ready idx_data idx s /\ forall c, it_Valid (BlockIterator c) s = false.
Proof using Ht Hw.
  destruct (tf_idx _ _ _ _ _ _ _ _ _ _ _ _ _ Ht) as [_ Hwi]. apply block_opens; [done|apply weight_small; lia|]. pose proof (Finish_size 1 idx). lia.
Qed.

(** *** Open *)

Lemma footer_of : exists pre footer, data = pre ++ footer /\ length footer = kEncodedLength /\ Footer_DecodeFrom Footer_new footer = Ok (StOK, mkFooter meta index, []).
Proof using Ht.
  destruct (tf_footer _ _ _ _ _ _ _ _ _ _ _ _ _ Ht) as (pre & footer & E & Ef). exists pre, footer. split; [done|].
  destruct (tf_fits _ _ _ _ _ _ _ _ _ _ _ _ _ Ht) as [Hm Hi]. destruct (footer_encoding (mkFooter meta index) Hm Hi) as (l & El & _ & Hl & Hd). rewrite El in Ef. injection Ef as ->.
  split; [done|]. specialize (Hd Footer_new []). by rewrite app_nil_r in Hd.
Qed.

(** The filter that a table has after [ReadMeta]. *)
Definition filter_read (t : Table) : Prop :=
  t_filter t = None \/ o_filter_policy opts <> NULL /\ exists fs, t_filter t = Some (mkFBR (FilterBlock.block_contents fs) (Z.of_nat (length (concat fs))) (Z.of_nat (length fs)) kFilterBaseLg) /\
    Z.of_nat (length (FilterBlock.block_contents fs)) < 2 ^ 32 /\ filtered policies opts fs dn.

Lemma stored_small h raw : stored_at no_snappy data h raw -> Z.of_nat (length raw) < 2 ^ 32.
Proof using Hlen.
  clear Hname Hw. intros Hs. pose proof (stored_at_length _ _ _ _ Hs) as Hle. destruct Hs as (pre & stored & type & post & E & _ & [[_ ->]|(_ & [=] & _)] & ->). cbn in Hle. lia.
Qed.

Lemma ReadMeta_ok t : t_options t = opts -> t_file t = file -> t_filter t = None ->
  exists t', ReadMeta names port buf (mkFooter meta index) t = Ok t' /\ filter_read t' /\ t_options t' = opts /\ t_file t' = file /\
    t_metaindex_handle t' = t_metaindex_handle t /\ t_index_block t' = t_index_block t.
Proof using Ht Hlen Hname Hfile Hdata Hint.
  intros Eo Ef En. unfold ReadMeta. rewrite Eo, Ef. cbn [metaindex_handle]. destruct (Z.eqb_spec (o_filter_policy opts) NULL) as [Ep|Ep]; [exists t; split_and!; [done|by left|done..]|].
  destruct (tf_meta _ _ _ _ _ _ _ _ _ _ _ _ _ Ht Ep) as (fs & fh & enc & Hms & (Heb & Hel & Hed) & Hfs & Hfd). rewrite <- Hdata in Hms, Hfs.
  destruct (ReadBlock_ok port buf file Hfile ReadOptions_new meta _ Hms) as (contents & -> & Ec). cbn [mbind result_bind status_ok negb metaindex_handle].
  rewrite Ec. unfold meta_block. set (key := filter_prefix ++ names (o_filter_policy opts)).
  assert (Hwk : weight [(key, enc)] < 2 ^ 31) by (unfold weight, key; cbn [foldr fst snd]; rewrite length_app; unfold kMaxEncodedLength in Hel; cbn [length filter_prefix]; lia).
  pose proof (Finish_size interval [(key, enc)]) as Hsz. cbn [length] in Hsz. pose proof (weight_in [(key, enc)] (key, enc) ltac:(left)) as Hwi. cbn [fst snd] in Hwi.
  destruct (block_opens interval [(key, enc)]) as (b & s & -> & Hb2 & Hready & _); [done|constructor; [cbn; lia|constructor]|lia|]. cbn [mbind result_bind]. rewrite Hb2. cbn [mbind result_bind].
  assert (Hkb : bytes key) by (apply Forall_app; split; [unfold filter_prefix; repeat (apply Forall_cons_2; [lia|]); by apply Forall_nil_2|apply Hname]).
  assert (Hspec : IteratorSpec (BlockIterator BytewiseComparator) bytes Slice_compare [(key, enc)] (bi_ready (Block.Finish (build interval [(key, enc)])) [(key, enc)]) (bi_at (Block.Finish (build interval [(key, enc)])) [(key, enc)])).
  { apply BlockIterator_spec; [apply _|by constructor|repeat constructor]. }
  destruct (is_seek s key Hready Hkb) as (s' & i & -> & Hat & Hi & Hlow & _). cbn [mbind result_bind].
  assert (i = 0%nat) as ->.
  { destruct i as [|i]; [done|]. pose proof (Hlow 0%nat key enc ltac:(lia) eq_refl) as Hc0. by rewrite (co_refl Slice_compare) in Hc0. }
  pose proof (is_entry s' 0 Hat) as He. cbn [lookup list_lookup] in He. destruct He as (-> & -> & ->). cbn [mbind result_bind]. rewrite Slice_eqb_refl.
  unfold ReadFilter. rewrite <- (app_nil_r enc), Hed. cbn [status_ok negb]. rewrite Ef.
  assert (Hsz2 : Z.of_nat (length (FilterBlock.block_contents fs)) < 2 ^ 32) by (apply (stored_small fh); by rewrite <- Hdata).
  assert (Hfs' : stored_at port (rf_data file) fh (FilterBlock.block_contents fs)).
  { destruct Hfs as (pre & st & ty & post & E1 & E2 & E3 & E4). exists pre, st, ty, post. split_and!; [done..| |done]. destruct E3 as [?|(_ & [=] & _)]. by left. }
  destruct (ReadBlock_ok port buf file Hfile ReadOptions_new fh _ Hfs') as (fc & -> & Efc). cbn [mbind result_bind status_ok negb]. rewrite Efc, reader_new by done. cbn [mbind result_bind].
  eexists. split; [done|]. cbn. split_and!; [|done..]. right. split; [done|]. exists fs. by split_and!.
Qed.

Lemma Open_ok id : exists t, Open names port buf opts file (Z.of_nat (length data)) id = Ok (StOK, Some t) /\ filter_read t /\
  t_options t = opts /\ t_file t = file /\ Block_new idx_data = Ok (t_index_block t) /\ t_metaindex_handle t = meta.
Proof using Ht Hlen Hname Hfile Hdata Hint Hw.
  destruct footer_of as (pre & footer & E & Hl & Hd). unfold Open. assert (Hlf : Z.of_nat (length data) = Z.of_nat (length pre) + Z.of_nat kEncodedLength) by (rewrite E, length_app, Hl; lia).
  rewrite (proj2 (Z.ltb_ge _ _)) by lia. replace (Z.of_nat (length data) - Z.of_nat kEncodedLength) with (Z.of_nat (length pre)) by lia. rewrite <- Hl.
  rewrite (RA_Read_ok file pre footer [] Hfile) by (by rewrite Hdata, E, app_nil_r). cbn [mbind result_bind status_ok negb]. rewrite Hd. cbn [mbind result_bind status_ok negb index_handle metaindex_handle].
  pose proof (tf_index _ _ _ _ _ _ _ _ _ _ _ _ _ Ht) as Hix. rewrite <- Hdata in Hix. destruct (ReadBlock_ok port buf file Hfile ReadOptions_new index _ Hix) as (contents & -> & Ec).
  cbn [mbind result_bind status_ok negb]. rewrite Ec. destruct index_opens as (b & s & Eb & _). rewrite Eb. cbn [mbind result_bind].
  destruct (ReadMeta_ok (mkTable opts file id None meta b)) as (t & -> & Hf & Ho & Hfi & Hm & Hi); [done..|]. cbn [mbind result_bind]. exists t. split; [done|].
  split; [done|]. split; [done|]. split; [done|]. rewrite Hi. by split.
Qed.

(** *** The data blocks *)

Lemma find_distinct (f : blk -> Z) (l : list blk) j b : NoDup (f <$> l) -> l !! j = Some b -> List.find (fun x => f x =? f b) l = Some b.
Proof using Type.
  revert j. induction l as [|x l IH]; intros j Hnd Hj; [done|]. cbn [List.find fmap list_fmap] in *. apply NoDup_cons in Hnd as [Hx Hnd].
  destruct j as [|j]; cbn in Hj; [injection Hj as ->; by rewrite Z.eqb_refl|].
  destruct (Z.eqb_spec (f x) (f b)) as [E|_]; [|by eapply IH]. exfalso. apply Hx. rewrite E. apply list_elem_of_fmap. exists b. split; [done|by eapply list_elem_of_lookup_2].
Qed.

(** The entries of the block that a value of the index points to. *)
Definition content (h : list Z) : entries :=
  let '(_, handle, _) := Handle_DecodeFrom BlockHandle_new h in
  match List.find (fun b => h_offset (b_handle b) =? h_offset handle) dn with Some b => b_es b | None => [] end.

Lemma content_of j sep h b : idx !! j = Some (sep, h) -> dn !! j = Some b -> content h = b_es b.
Proof using Ht.
  intros Hj Hb. destruct (idx_block j sep h Hj) as (b' & Hb' & (_ & _ & Hd)). rewrite Hb in Hb'. injection Hb' as <-.
  unfold content. rewrite <- (app_nil_r h), Hd. rewrite (find_distinct (fun b => h_offset (b_handle b)) dn j b); [done| |done].
  apply (tf_distinct _ _ _ _ _ _ _ _ _ _ _ _ _ Ht).
Qed.

Lemma contents_all : all_entries idx content = es.
Proof using Ht.
  unfold all_entries. rewrite <- (tf_entries _ _ _ _ _ _ _ _ _ _ _ _ _ Ht). f_equal. apply list_eq. intros j. rewrite list_lookup_fmap.
  change (map content idx.*2) with (content <$> idx.*2). rewrite !list_lookup_fmap.
  pose proof (Forall2_length _ _ _ (tf_indexes _ _ _ _ _ _ _ _ _ _ _ _ _ Ht)) as Hl. destruct (idx !! j) as [[sep h]|] eqn:Ej.
  - destruct (idx_block j sep h Ej) as (b & Hb & _). rewrite Hb. cbn. f_equal. by eapply content_of.
  - apply lookup_ge_None in Ej. rewrite (proj2 (lookup_ge_None dn j)) by lia. done.
Qed.

Lemma handle_block h : h ∈ idx.*2 -> exists j sep b, idx !! j = Some (sep, h) /\ dn !! j = Some b /\ content h = b_es b /\ encodes (b_handle b) h.
Proof using Ht.
  intros ([sep h'] & -> & (j & Hj)%list_elem_of_lookup_1)%list_elem_of_fmap. cbn [snd] in *. destruct (idx_block j sep h' Hj) as (b & Hb & He).
  exists j, sep, b. split_and!; [done..|by eapply content_of|done].
Qed.

#[local] Abbreviation raw h := (Block.Finish (build interval (content h))).

#[local] Instance data_spec h : h ∈ idx.*2 -> IteratorSpec (BlockIterator c) ok ord (content h) (bi_ready (raw h) (content h)) (bi_at (raw h) (content h)).
Proof using Ht Hc Hok Hsort.
  intros (j & sep & b & _ & Hb & E & _)%handle_block. destruct (block_sorted b (list_elem_of_lookup_2 _ _ _ Hb)) as (H1 & H2 & _). rewrite <- E in *. by apply BlockIterator_spec.
Qed.

(** *** Reading a data block, through a cache or not *)

Section blocks.
Context (t : Table) (Eopts : t_options t = opts) (Efile : t_file t = file).
Context {C : Type} (ops : CacheOps C) (holds : C -> list Z -> Block -> Prop) `{Hcache : !CacheSpec ops holds}.

(** What the cache holds under the keys of this table are its blocks. *)
Definition coherent (cache : option C) : Prop :=
  match cache with
  | Some m => forall b block, b ∈ dn -> holds m (cache_key t (h_offset (b_handle b))) block -> Block_new (Block.Finish (build interval (b_es b))) = Ok block
  | None => True
  end.

Lemma cache_key_inj o o' : 0 <= o < 2 ^ 64 -> 0 <= o' < 2 ^ 64 -> cache_key t o = cache_key t o' -> o = o'.
Proof using Type.
  intros Ho Ho' E. unfold cache_key in E. apply app_inv_head in E. apply (f_equal le_value) in E. unfold EncodeFixed64 in E.
  rewrite !le_value_bytes in E by (change (256 ^ Z.of_nat 8) with (2 ^ 64); done). done.
Qed.

Lemma block_offset b : b ∈ dn -> 0 <= h_offset (b_handle b) < 2 ^ 64.
Proof using Ht Hlen.
  intros Hb. pose proof (tf_stored _ _ _ _ _ _ _ _ _ _ _ _ _ Ht) as Hs. rewrite Forall_forall in Hs. apply (handle_of_stored port data _ _ (Hs b Hb)). lia.
Qed.

Lemma same_block b b' : b ∈ dn -> b' ∈ dn -> h_offset (b_handle b) = h_offset (b_handle b') -> b = b'.
Proof using Ht.
  intros (j & Hj)%list_elem_of_lookup_1 (j' & Hj')%list_elem_of_lookup_1 E.
  pose proof (tf_distinct _ _ _ _ _ _ _ _ _ _ _ _ _ Ht) as Hnd. assert (j = j') as <-; [|by rewrite Hj in Hj'; injection Hj'].
  eapply NoDup_lookup; [exact Hnd|..]; rewrite list_lookup_fmap, ?Hj, ?Hj'; cbn; by rewrite ?E.
Qed.

Lemma BlockReader_ok options cache h : coherent cache -> h ∈ idx.*2 ->
  exists s cache', BlockReader port buf ops t options cache h = Ok (s, cache') /\ coherent cache' /\ bi_ready (raw h) (content h) s /\ it_Valid (BlockIterator c) s = false.
Proof using Ht Hlen Hw Hok Hsort Hfile Hdata Hint Efile Hcache.
  intros Hcoh Hh. destruct (handle_block h Hh) as (j & sep & b & _ & Hb & E & (_ & _ & Hd)). pose proof (list_elem_of_lookup_2 _ _ _ Hb) as Hbin.
  destruct (block_sorted b Hbin) as (_ & _ & Hwb). pose proof (Finish_size interval (b_es b)) as Hsz.
  destruct (block_opens interval (b_es b)) as (block & s & Eb & En & Hr & Hv); [done|apply weight_small; lia|lia|].
  specialize (Hd BlockHandle_new []). rewrite app_nil_r in Hd. unfold BlockReader. rewrite Hd. cbn [status_ok negb].
  assert (Hread : exists ca, read_new_block port buf t options (b_handle b) = Ok (StOK, Some (block, ca))).
  { pose proof (tf_stored _ _ _ _ _ _ _ _ _ _ _ _ _ Ht) as Hs. rewrite Forall_forall in Hs. specialize (Hs b Hbin). cbn in Hs. rewrite <- Hdata in Hs.
    unfold read_new_block. rewrite Efile. destruct (ReadBlock_ok port buf file Hfile options _ _ Hs) as (contents & -> & Ec). cbn [mbind result_bind status_ok]. rewrite Ec, Eb. by eexists. }
  destruct Hread as [ca Hread]. rewrite E. destruct cache as [m|].
  - destruct (ca_lookup (cache_key t (h_offset (b_handle b))) m) as (o & m1 & -> & Hfound & Hsub). cbn [mbind result_bind]. destruct o as [block'|].
    + pose proof (Hcoh b block' Hbin (Hfound block' eq_refl)) as Eb'. rewrite Eb in Eb'. injection Eb' as <-. cbn [mbind result_bind]. rewrite En. cbn [mbind result_bind].
      exists s, (Some m1). split_and!; try done. intros b' bl Hb' Hh'. by apply Hcoh, Hsub.
    + rewrite Hread. cbn [mbind result_bind]. destruct (ca && fill_cache options).
      * destruct (ca_insert (cache_key t (h_offset (b_handle b))) block (size_ block) m1) as (m2 & -> & Hins). cbn [mbind result_bind]. rewrite En. cbn [mbind result_bind].
        exists s, (Some m2). split_and!; try done. intros b' bl Hb' [Hh'|[Ek ->]]%Hins; [by apply Hcoh, Hsub|].
        apply cache_key_inj in Ek; [|by apply block_offset..]. by rewrite (same_block b' b Hb' Hbin Ek).
      * cbn [mbind result_bind]. rewrite En. cbn [mbind result_bind]. exists s, (Some m1). split_and!; try done. intros b' bl Hb' Hh'. by apply Hcoh, Hsub.
  - rewrite Hread. cbn [mbind result_bind option_map fst]. rewrite En. cbn [mbind result_bind]. by exists s, None.
Qed.

End blocks.

(** *** Iterators *)

Lemma Block_new_data x b : Block_new x = Ok b -> data_ b = x.
Proof using Type.
  unfold Block_new. destruct (_ <? 4); [by intros [= <-]|]. destruct (NumRestarts _ _); cbn [mbind result_bind]; [|done]. destruct (_ <? _); by intros [= <-].
Qed.

Lemma iterator_ok t options : t_options t = opts -> t_file t = file -> Block_new idx_data = Ok (t_index_block t) ->
  exists s ready at_, Table_NewIterator comparators t = Ok s /\ ready s /\ IteratorSpec (TableIterator comparators port buf t options) ok ord es ready at_.
Proof using Ht Hlen Hw Hok Hsort Hfile Hdata Hint Hc.
  intros Eo Ef Eb. destruct index_opens as (b & s & Eb' & En & Hr & Hv). rewrite Eb in Eb'. injection Eb' as <-.
  unfold Table_NewIterator. rewrite Eo, En. cbn [mbind result_bind].
  destruct (TwoLevel_new_ready (S2 := BlockIter) (BlockIterator c) idx (bi_ready idx_data idx) (fun h => bi_ready (raw h) (content h)) s Hr (Hv c)) as (tl & -> & Htl & _).
  eexists tl, _, _. split; [done|]. split; [exact Htl|]. rewrite <- contents_all. unfold TableIterator. rewrite Eo.
  apply (TwoLevel_spec (BlockIterator c) (BlockIterator c) (block_function port buf t options) _ ok ord idx (bi_ready idx_data idx) (bi_at idx_data idx)
    content (fun h => bi_ready (raw h) (content h)) (fun h => bi_at (raw h) (content h))).
  - apply data_spec.
  - intros h Hh. unfold block_function. destruct (BlockReader_ok t Ef no_cache (fun _ _ _ => False) options None h I Hh) as (s' & m & -> & _ & Hs' & Hv'). by exists s'.
  - intros j sep h k v Hj Hin. destruct (idx_block j sep h Hj) as (b & Hb & _). rewrite (content_of j sep h b Hj Hb) in Hin. by eapply (block_seps j sep h b Hj Hb).
  - intros j j' sep h sep' h' k v Hlt Hj Hj' Hin. destruct (idx_block j sep h Hj) as (b & Hb & _). destruct (idx_block j' sep' h' Hj') as (b' & Hb' & _).
    rewrite (content_of j' sep' h' b' Hj' Hb') in Hin. by eapply (block_seps j sep h b Hj Hb).
  - rewrite (Block_new_data _ _ Eb). destruct (build_size 1 idx) as (_ & Hl & _). unfold Block.Finish. rewrite put_words. unfold PutFixed32. rewrite !length_app. lia.
Qed.

(** *** Lookups *)

(** Where a key is: in the block of the first separator that is not less. *)
Lemma lookup_position j sep h b i k : idx !! j = Some (sep, h) -> dn !! j = Some b -> seeks ord idx k j -> seeks ord (b_es b) k i ->
  exists p, seeks ord es k p /\ ((i < length (b_es b))%nat -> es !! p = b_es b !! i) /\
    (i = length (b_es b) -> forall k' v, es !! p = Some (k', v) -> exists b', dn !! S j = Some b' /\ head (b_es b') = Some (k', v)).
Proof using Ht Hc.
  intros Hj Hb (_ & Hjlow & Hjge) (Hi & Hilow & Hige). pose proof (content_of j sep h b Hj Hb) as Ec. specialize (Hjge _ _ Hj).
  exists (start idx content j + i)%nat. pose proof (start_S idx content j sep h Hj) as HS. rewrite Ec in HS.
  assert (Hnext : i = length (b_es b) -> forall k' v, es !! (start idx content j + i)%nat = Some (k', v) -> exists b', dn !! S j = Some b' /\ head (b_es b') = Some (k', v)).
  { intros -> k' v He. rewrite <- HS in He. destruct (idx !! S j) as [[sep' h']|] eqn:Ej'.
    - destruct (idx_block _ _ _ Ej') as (b' & Hb' & _). exists b'. split; [done|]. pose proof (content_of _ _ _ _ Ej' Hb') as Ec'.
      pose proof (tf_nonempty _ _ _ _ _ _ _ _ _ _ _ _ _ Ht) as Hne. rewrite Forall_forall in Hne. specialize (Hne b' (list_elem_of_lookup_2 _ _ _ Hb')).
      pose proof (lookup_all idx content (S j) sep' h' 0 Ej') as Hl. rewrite Ec', contents_all, Nat.add_0_r, He in Hl. destruct (b_es b') as [|x l]; [done|]. by rewrite Hl by (cbn; lia).
    - apply lookup_ge_None in Ej'. pose proof (lookup_lt_Some _ _ _ Hj). assert (ES : S j = length idx) by lia. rewrite ES, start_end, contents_all in He. by rewrite (proj2 (lookup_ge_None es _)) in He. }
  split; [|split; [|done]].
  - split; [|split].
    + rewrite <- contents_all, <- start_end. pose proof (start_mono idx content (S j) (length idx)) as Hm. pose proof (lookup_lt_Some _ _ _ Hj). lia.
    + intros m k' v Hm He. rewrite <- contents_all in He. destruct (find_block idx content m (k', v) He) as (j' & sep' & h' & i' & Hj' & Hi' & ->).
      destruct (idx_block _ _ _ Hj') as (b' & Hb' & _). pose proof (content_of _ _ _ _ Hj' Hb') as Ec'. rewrite Ec' in Hi'.
      destruct (lt_eq_lt_dec j' j) as [[Hlt| ->]|Hgt].
      * apply (ord_le_lt comparators opts ok ord k' sep' k); [by eapply (block_seps j' sep' h' b' Hj' Hb'), list_elem_of_lookup_2|by eapply Hjlow].
      * rewrite Hb in Hb'. injection Hb' as <-. eapply (Hilow i'); [lia|done].
      * pose proof (start_mono idx content (S j) j' ltac:(lia)). lia.
    + intros k' v He. destruct (decide (i = length (b_es b))) as [Ei|].
      * destruct (Hnext Ei k' v He) as (b' & Hb' & Hh). destruct (block_seps j sep h b Hj Hb) as (_ & H2 & _).
        assert (Hin : (k', v) ∈ b_es b') by (destruct (b_es b'); [done|injection Hh as ->; left]). specialize (H2 (S j) b' k' v ltac:(lia) Hb' Hin).
        destruct (Z_le_dec 0 (ord k' k)) as [|Hlt]; [done|]. exfalso. pose proof (co_trans ord sep k' k H2 ltac:(lia)). lia.
      * pose proof (lookup_all idx content j sep h i Hj) as Hl. rewrite Ec, contents_all, He in Hl. symmetry in Hl. specialize (Hl ltac:(lia)). by eapply Hige.
  - intros Hlt. pose proof (lookup_all idx content j sep h i Hj) as Hl. rewrite Ec, contents_all in Hl. by apply Hl.
Qed.

Section lookup.
Context (t : Table) (Eopts : t_options t = opts) (Efile : t_file t = file) (Eidx : Block_new idx_data = Ok (t_index_block t)).
Context (Hfilter : filter_read t).
Context {C : Type} (ops : CacheOps C) (holds : C -> list Z -> Block -> Prop) `{Hcache : !CacheSpec ops holds}.
Context (same : list Z -> list Z -> Prop) `{Hlk : !LookupSpec c (policies (o_filter_policy opts)) (o_filter_policy opts <> NULL) ok ord same}.

(** The test of the filter, for the block of an index entry. *)
Definition filter_rejects (handle_value k : list Z) : result bool :=
  match t_filter t with
  | Some filter =>
      let '(s, handle, _) := Handle_DecodeFrom BlockHandle_new handle_value in
      if status_ok s then
        b ← FilterBlockReader_KeyMayMatch (policies (o_filter_policy (t_options t))) filter (h_offset handle) k; Ok (negb b)
      else Ok false
  | None => Ok false
  end.

Lemma filter_rejects_ok h b k : encodes (b_handle b) h -> b ∈ dn -> ok k -> exists r, filter_rejects h k = Ok r /\
  (r = true -> forall k' v, (k', v) ∈ b_es b -> ~ same k k').
Proof using Ht Hlen Hfilter Eopts Hlk.
  intros (_ & _ & Hd) Hb Hk. unfold filter_rejects. specialize (Hd BlockHandle_new []). rewrite app_nil_r in Hd. rewrite Hd. cbn [status_ok].
  destruct Hfilter as [En|(Hp & fs & Ef & Hsz & Hfd)]; [rewrite En; by exists false|]. rewrite Ef, Eopts.
  destruct (reader_total (policies (o_filter_policy opts)) fs Hsz (h_offset (b_handle b)) k) as [m Em]; [by apply block_offset|intros f; by apply lk_total|].
  rewrite Em. cbn [mbind result_bind]. exists (negb m). split; [done|]. intros Hm k' v Hin Hs. destruct (Hfd b k' v Hb Hin) as (f & H0 & Hf & Hmatch).
  rewrite <- (lk_match k k' f Hp Hs) in Hmatch.
  rewrite (reader_matches (policies (o_filter_policy opts)) fs Hsz (Z.to_nat (h_offset (b_handle b) / kFilterBase)) f (h_offset (b_handle b)) k Hf) in Em; [injection Em as <-; done| |done].
  rewrite Z.shiftr_div_pow2 by done. change (2 ^ kFilterBaseLg) with kFilterBase. lia.
Qed.

(** A key between the last one of its block and the separator is none of the next block. *)
Lemma gap_not_same j sep h b b' k k' v : idx !! j = Some (sep, h) -> dn !! j = Some b -> seeks ord idx k j -> seeks ord (b_es b) k (length (b_es b)) -> ok k ->
  dn !! S j = Some b' -> head (b_es b') = Some (k', v) -> ~ same k k'.
Proof using Ht Hc Hok Hsort Hlk.
  intros Hj Hb (_ & _ & Hge) (_ & Hlow & _) Hk Hb' Hh. specialize (Hge _ _ Hj). destruct (block_seps j sep h b Hj Hb) as (H1 & H2 & H3).
  pose proof (tf_nonempty _ _ _ _ _ _ _ _ _ _ _ _ _ Ht) as Hne. rewrite Forall_forall in Hne. specialize (Hne b (list_elem_of_lookup_2 _ _ _ Hb)).
  destruct (list.last (b_es b)) as [[kl vl]|] eqn:El; [|by apply last_None in El].
  assert (Hl : b_es b !! (length (b_es b) - 1)%nat = Some (kl, vl)) by (by rewrite <- El, last_lookup, Nat.sub_1_r).
  assert (Hin : (k', v) ∈ b_es b') by (destruct (b_es b'); [done|injection Hh as ->; left]).
  destruct (block_sorted b (list_elem_of_lookup_2 _ _ _ Hb)) as (Hokb & _). destruct (block_sorted b' (list_elem_of_lookup_2 _ _ _ Hb')) as (Hokb' & _).
  rewrite Forall_forall in Hokb, Hokb'. pose proof (list_elem_of_lookup_2 _ _ _ Hl) as Hlin.
  apply (lk_gap (c := c) (p := policies (o_filter_policy opts)) (used := o_filter_policy opts <> NULL) kl k' sep k).
  - apply (Hokb _ Hlin).
  - apply (Hokb' _ Hin).
  - done.
  - by eapply H3.
  - apply (ord_le_lt comparators opts ok ord kl sep k'); [by eapply H1|by eapply (H2 (S j)); [lia|..]].
  - eapply (Hlow (length (b_es b) - 1)%nat); [|exact Hl]. destruct (b_es b); [done|cbn; lia].
  - pose proof (co_sym ord sep k). pose proof (co_sym ord k sep). lia.
Qed.

Lemma InternalGet_ok options cache k : ok k -> coherent t holds cache ->
  exists saved cache' p, InternalGet comparators policies port buf ops t options cache k = Ok (StOK, saved, cache') /\ coherent t holds cache' /\
    seeks ord es k p /\ (saved = es !! p \/ (saved = None /\ forall k' v, es !! p = Some (k', v) -> ~ same k k')).
Proof using Ht Hlen Hw Hok Hsort Hfile Hdata Hint Hc Hcache Hlk Hfilter Eopts Efile Eidx.
  intros Hk Hcoh. destruct index_opens as (bi & s0 & Eb' & En & Hr & _). rewrite Eidx in Eb'. injection Eb' as <-.
  unfold InternalGet. rewrite En, Eopts. cbn [mbind result_bind].
  destruct (is_seek (IteratorSpec := index_spec) s0 k Hr Hk) as (s1 & j & -> & Hat & Hsj). cbn [mbind result_bind].
  pose proof (is_entry (IteratorSpec := index_spec) s1 j Hat) as He. pose proof (is_status (IteratorSpec := index_spec) s1 (is_ready (IteratorSpec := index_spec) s1 j Hat)) as Hst.
  destruct (idx !! j) as [[sep h]|] eqn:Ej.
  - destruct He as (Hv1 & _ & Hval). rewrite Hv1, Hval. cbn [mbind result_bind]. destruct (idx_block j sep h Ej) as (b & Hb & Henc).
    pose proof (list_elem_of_lookup_2 _ _ _ Hb) as Hbin. assert (Hh : h ∈ idx.*2) by (apply list_elem_of_fmap; exists (sep, h); split; [done|by eapply list_elem_of_lookup_2]).
    destruct (BlockReader_ok t Efile ops holds options cache h Hcoh Hh) as (s2 & cache' & Ebr & Hcoh' & Hr2 & _).
    destruct (is_seek (IteratorSpec := data_spec h Hh) s2 k Hr2 Hk) as (s3 & i & Es3 & Hat3 & Hsi).
    pose proof (content_of j sep h b Ej Hb) as Ec. rewrite Ec in Hsi.
    destruct (lookup_position j sep h b i k Ej Hb Hsj Hsi) as (p & Hp & Hin & Hend).
    destruct (filter_rejects_ok h b k Henc Hbin Hk) as (rej & Erej & Hrej). unfold filter_rejects in Erej. rewrite Eopts in Erej. rewrite Erej. cbn [mbind result_bind].
    assert (Hnot : i = length (b_es b) -> forall k' v, es !! p = Some (k', v) -> ~ same k k').
    { intros -> k' v Hkv. destruct (Hend eq_refl k' v Hkv) as (b' & Hb' & Hh'). by eapply gap_not_same. }
    pose proof Hsi as (Hile & _). destruct rej.
    + cbn [mbind result_bind status_ok]. rewrite Hst. cbn [mbind result_bind]. exists None, cache, p. split_and!; [done..|]. right. split; [done|].
      intros k' v Hkv. destruct (decide (i = length (b_es b))) as [Ei|Ei]; [by eapply Hnot|]. rewrite Hin in Hkv by lia. apply (Hrej eq_refl k' v). by eapply list_elem_of_lookup_2.
    + rewrite Ebr. cbn [mbind result_bind]. rewrite Es3. cbn [mbind result_bind].
      pose proof (is_entry (IteratorSpec := data_spec h Hh) s3 i Hat3) as He3. pose proof (is_status (IteratorSpec := data_spec h Hh) s3 (is_ready (IteratorSpec := data_spec h Hh) s3 i Hat3)) as Hst3.
      rewrite Ec in He3. destruct (b_es b !! i) as [[k' v]|] eqn:Ei.
      * destruct He3 as (-> & -> & ->). cbn [mbind result_bind]. rewrite Hst3. cbn [mbind result_bind status_ok]. rewrite Hst. cbn [mbind result_bind].
        exists (Some (k', v)), cache', p. split_and!; [done..|]. left. pose proof (lookup_lt_Some _ _ _ Ei). by rewrite Hin.
      * rewrite He3. cbn [mbind result_bind]. rewrite Hst3. cbn [mbind result_bind status_ok]. rewrite Hst. cbn [mbind result_bind].
        exists None, cache', p. split_and!; [done..|]. right. split; [done|]. apply Hnot. apply lookup_ge_None in Ei. lia.
  - rewrite He. cbn [mbind result_bind status_ok]. rewrite Hst. cbn [mbind result_bind]. exists None, cache, (length es). split_and!; [done..| |left; by rewrite (proj2 (lookup_ge_None es _))].
    split; [done|]. split; [|intros k' v Hkv; by rewrite (proj2 (lookup_ge_None es _)) in Hkv].
    intros m k' v _ Hm. rewrite <- contents_all in Hm. destruct (find_block idx content m (k', v) Hm) as (j' & sep' & h' & i' & Hj' & Hi' & ->).
    destruct (idx_block _ _ _ Hj') as (b' & Hb' & _). rewrite (content_of _ _ _ _ Hj' Hb') in Hi'.
    apply (ord_le_lt comparators opts ok ord k' sep' k); [by eapply (block_seps j' sep' h' b' Hj' Hb'), list_elem_of_lookup_2|].
    destruct Hsj as (_ & Hlow & _). eapply (Hlow j'); [|done]. apply lookup_ge_None in Ej. pose proof (lookup_lt_Some _ _ _ Hj'). lia.
Qed.

End lookup.

(** [ApproximateOffsetOf] stays inside of the file. *)
Lemma ApproximateOffsetOf_ok t k : t_options t = opts -> Block_new idx_data = Ok (t_index_block t) -> t_metaindex_handle t = meta -> ok k ->
  exists o, ApproximateOffsetOf comparators t k = Ok o /\ (o = h_offset meta \/ exists b, b ∈ dn /\ o = h_offset (b_handle b)).
Proof using Ht Hw Hc.
  intros Eo Eidx Em Hk. destruct index_opens as (bi & s0 & Eb' & En & Hr & _). rewrite Eidx in Eb'. injection Eb' as <-.
  unfold ApproximateOffsetOf. rewrite En, Eo. cbn [mbind result_bind].
  destruct (is_seek (IteratorSpec := index_spec) s0 k Hr Hk) as (s1 & j & -> & Hat & _). cbn [mbind result_bind].
  pose proof (is_entry (IteratorSpec := index_spec) s1 j Hat) as He. destruct (idx !! j) as [[sep h]|] eqn:Ej.
  - destruct He as (-> & _ & ->). cbn [mbind result_bind]. destruct (idx_block j sep h Ej) as (b & Hb & (_ & _ & Hd)).
    specialize (Hd BlockHandle_new []). rewrite app_nil_r in Hd. rewrite Hd. eexists. split; [done|]. right. exists b. split; [by eapply list_elem_of_lookup_2|done].
  - rewrite He, Em. eexists. split; [done|by left].
Qed.

End reading.

(** ** Table files hold what was added *)

(** What the caller of the builder has to see to; entries are in increasing order of keys. *)
Record table_setting (comparators : addr -> Comparator) (policies : addr -> FilterPolicy) (names : addr -> list Z) (port : Snappy) (opts : Options)
    (ok : list Z -> Prop) (ord : list Z -> list Z -> Z) (es : entries) : Prop := {
  ts_comparator : ComparatorSpec (comparators (o_comparator opts)) ok ord;
  ts_snappy : SnappySpec port;
  ts_interval : 1 <= o_block_restart_interval opts;
  ts_name : bytes (names (o_filter_policy opts)) /\ Z.of_nat (length (names (o_filter_policy opts))) < 2 ^ 30;
  ts_policy : o_filter_policy opts <> NULL -> exists okf, FilterPolicySpec (policies (o_filter_policy opts)) okf (length es) /\ Forall (fun kv => okf kv.1) es;
  ts_bytes k : ok k -> bytes k;
  ts_keys : Forall (fun kv => ok kv.1) es;
  ts_values : Forall (fun kv => bytes kv.2) es;
  ts_sorted : StronglySorted (fun x y => ord x.1 y.1 < 0) es;
  ts_size : weight es <= 2 ^ 29 }.

Lemma table_built comparators policies names port pval opts ok ord es : table_setting comparators policies names port opts ok ord es ->
  exists r, build_table comparators policies names port pval opts es (mkWFile [] []) = Ok r /\ tb_status r = StOK /\
    tb_offset r = Z.of_nat (length (wf_data (tb_file r))) /\ exists dn idx meta index, is_table comparators policies port opts ok ord names (wf_data (tb_file r)) es dn idx meta index.
Proof.
  intros [Hc Hp Hi Hn Hf Hb Hk Hv Hs Hw]. destruct (Z.eq_dec (o_filter_policy opts) NULL) as [En|En].
  - apply (build_table_ok comparators policies port pval opts ok ord Hb (fun _ => True) (length es)); done.
  - destruct (Hf En) as (okf & Hpol & Hfk). by apply (build_table_ok comparators policies port pval opts ok ord Hb okf (length es)).
Qed.

(** C13: Table files give back what was added to them.  For entries in increasing order of
    keys, any block size, restart interval, compression (with a Snappy library that inverts
    itself) and filter policy, the builder reports no error; a file below 4 GB is opened,
    mapped or read by [pread], and the iterator over it moves over exactly the entries:
    [SeekToFirst], [SeekToLast], [Seek], [Next] and [Prev] stand at the right ones with their
    keys and values, across all blocks, and no call faults, loops or reports corruption. *)
Theorem table_roundtrip comparators policies names port pval opts ok ord es :
  table_setting comparators policies names port opts ok ord es ->
  exists r, build_table comparators policies names port pval opts es (mkWFile [] []) = Ok r /\ tb_status r = StOK /\
    tb_offset r = Z.of_nat (length (wf_data (tb_file r))) /\
    (Z.of_nat (length (wf_data (tb_file r))) < 2 ^ 32 -> forall file buf id, readable file -> rf_data file = wf_data (tb_file r) ->
       exists t, Open names port buf opts file (tb_offset r) id = Ok (StOK, Some t) /\
         forall options, exists s ready at_, Table_NewIterator comparators t = Ok s /\ ready s /\
           IteratorSpec (TableIterator comparators port buf t options) ok ord es ready at_).
Proof.
  intros Hset. destruct (table_built comparators policies names port pval opts ok ord es Hset) as (r & E & Hst & Ho & dn & idx & meta & index & Ht).
  destruct Hset as [Hc Hp Hi Hn _ _ Hk _ Hs Hw]. exists r. split_and!; [done..|]. intros Hlen file buf id Hfile Hdata. rewrite Ho.
  destruct (Open_ok comparators policies names port buf opts ok ord Hi Hn _ es dn idx meta index Ht Hlen Hw file Hfile Hdata id) as (t & Eo & _ & Eopt & Efile & Eidx & _).
  exists t. split; [done|]. intros options.
  by apply (iterator_ok comparators policies names port buf opts ok ord Hi _ es dn idx meta index Ht Hlen Hw Hk Hs file Hfile Hdata t options).
Qed.

(** C14: Single lookups in a table file.  [InternalGet] hands the first entry at or behind the
    key to the saver, or nothing when that entry is not for the same key (an equal key, or
    for internal keys a version of the same user key), whatever the filter and the block
    cache answer; it reports no error, and a cache that held no wrong block of the table
    holds none afterwards. *)
Theorem table_lookup comparators policies names port pval opts ok ord same es :
  table_setting comparators policies names port opts ok ord es ->
  LookupSpec (comparators (o_comparator opts)) (policies (o_filter_policy opts)) (o_filter_policy opts <> NULL) ok ord same ->
  exists r, build_table comparators policies names port pval opts es (mkWFile [] []) = Ok r /\
    (Z.of_nat (length (wf_data (tb_file r))) < 2 ^ 32 -> forall file buf id, readable file -> rf_data file = wf_data (tb_file r) ->
       exists t, Open names port buf opts file (tb_offset r) id = Ok (StOK, Some t) /\
         forall C (ops : CacheOps C) holds, CacheSpec ops holds -> exists good : option C -> Prop,
           (forall cache, (forall m o b, cache = Some m -> ~ holds m (cache_key t o) b) -> good cache) /\
           forall options cache k, ok k -> good cache ->
             exists saved cache' p, InternalGet comparators policies port buf ops t options cache k = Ok (StOK, saved, cache') /\ good cache' /\
               seeks ord es k p /\ (saved = es !! p \/ (saved = None /\ forall k' v, es !! p = Some (k', v) -> ~ same k k'))).
Proof.
  intros Hset Hlk. destruct (table_built comparators policies names port pval opts ok ord es Hset) as (r & E & Hst & Ho & dn & idx & meta & index & Ht).
  destruct Hset as [Hc Hp Hi Hn _ _ Hk _ Hs Hw]. exists r. split; [done|]. intros Hlen file buf id Hfile Hdata. rewrite Ho.
  destruct (Open_ok comparators policies names port buf opts ok ord Hi Hn _ es dn idx meta index Ht Hlen Hw file Hfile Hdata id) as (t & Eo & Hf & Eopt & Efile & Eidx & _).
  exists t. split; [done|]. intros C ops holds Hca. exists (coherent opts dn t holds). split.
  - intros [m|] Hnone; cbn; [|done]. intros b block _ Hh. by destruct (Hnone m _ _ eq_refl Hh).
  - intros options cache k Hok Hco. by eapply (InternalGet_ok comparators policies names port buf opts ok ord Hi _ es dn idx meta index Ht Hlen Hw Hk Hs file Hfile Hdata t Eopt Efile Eidx Hf ops holds same).
Qed.

(** ** User keys and internal keys *)

Lemma bytewise_lookup p used : (forall k f, used -> bytes k -> exists b, KeyMayMatch p k f = Ok b) ->
  LookupSpec BytewiseComparator p used bytes Slice_compare eq.
Proof.
  intros Ht. split; [by intros k k' f _ ->|intros k f Hu; by apply Ht|]. intros start limit s k Hs Hl Hk E Hlt _ Hks <-.
  destruct (cs_separator (c := BytewiseComparator) start k Hs Hk) as (s' & E' & _ & _ & Hsep & _). rewrite E in E'. injection E' as <-.
  destruct (Hsep Hlt) as [_ Hsk]. pose proof (co_sym Slice_compare s k). lia.
Qed.

Section internal.
Context (c : Comparator) (ok : list Z -> Prop) (ord : list Z -> list Z -> Z) `{Hc : !ComparatorSpec c ok ord} (Hb : forall k, ok k -> bytes k).

(** Internal keys as strings of bytes. *)
Definition ik_bytes (k : list Z) : Prop := ik_ok ok k /\ bytes k.

Lemma separator_cases start limit s : FindShortestSeparator (InternalKeyComparator c) start limit = Ok s -> ik_ok ok start -> ik_ok ok limit ->
  s = start \/ exists tmp, s = earliest tmp /\ ok tmp /\ forall us ts ul tl, ik_split start = Some (us, ts) -> ik_split limit = Some (ul, tl) -> ord us tmp < 0 /\ ord tmp ul < 0.
Proof using Hc.
  intros E Hs Hl. cbn in E. unfold InternalKey_separator in E. unfold ik_ok in Hs, Hl. destruct (ik_split start) as [[us ts]|] eqn:Es; [|done]. destruct (ik_split limit) as [[ul tl]|] eqn:El; [|done].
  destruct (ik_split_ok _ _ _ Es) as (E1 & _). destruct (ik_split_ok _ _ _ El) as (E2 & _). rewrite E1, E2 in E. cbn [mbind result_bind] in E.
  destruct (cs_separator us ul Hs Hl) as (tmp & E3 & Hok & _ & Hlt & Hge). rewrite E3 in E. cbn [mbind result_bind] in E.
  destruct (length tmp <? length us)%nat; [|injection E as <-; by left]. rewrite (cs_compare us tmp) in E by done. cbn [mbind result_bind] in E.
  destruct (Z.ltb_spec (ord us tmp) 0) as [Hus|]; injection E as <-; [|by left]. right. exists tmp. split; [done|]. split; [done|]. intros ? ? ? ? [= <- <-] [= <- <-].
  split; [done|]. destruct (Z_lt_le_dec (ord us ul) 0) as [Hul|Hul]; [by apply Hlt|]. rewrite (Hge Hul), (co_refl ord) in Hus. lia.
Qed.

Lemma successor_cases key s : FindShortSuccessor (InternalKeyComparator c) key = Ok s -> ik_ok ok key -> s = key \/ exists tmp, s = earliest tmp /\ ok tmp.
Proof using Hc.
  intros E Hs. cbn in E. unfold InternalKey_successor in E. unfold ik_ok in Hs. destruct (ik_split key) as [[us ts]|] eqn:Es; [|done].
  destruct (ik_split_ok _ _ _ Es) as (E1 & _). rewrite E1 in E. cbn [mbind result_bind] in E. destruct (cs_successor us Hs) as (tmp & E3 & Hok & _). rewrite E3 in E. cbn [mbind result_bind] in E.
  destruct (length tmp <? length us)%nat; [|injection E as <-; by left]. rewrite (cs_compare us tmp) in E by done. cbn [mbind result_bind] in E.
  destruct (_ <? 0); injection E as <-; [right; by exists tmp|by left].
Qed.

Lemma earliest_bytes tmp : ok tmp -> bytes (earliest tmp).
Proof using Hb. intros Ht. unfold earliest, PutFixed64. apply Forall_app. split; [by apply Hb|apply le_bytes_bytes]. Qed.

#[export] Instance ik_bytes_spec : ComparatorSpec (InternalKeyComparator c) ik_bytes (ik_ord ord).
Proof using Hc Hb.
  pose proof (InternalKeyComparator_spec c ok ord) as Hik. split.
  - apply _.
  - intros a b [Ha _] [Hb' _]. by apply (cs_compare (ComparatorSpec := Hik)).
  - intros start limit [Hs Hsb] [Hl Hlb]. destruct (cs_separator (ComparatorSpec := Hik) start limit Hs Hl) as (s & E & Hok & Hrest). exists s. split; [done|].
    split; [|done]. split; [done|]. destruct (separator_cases _ _ _ E Hs Hl) as [->|(tmp & -> & Ht & _)]; [done|by apply earliest_bytes].
  - intros key [Hk Hkb]. destruct (cs_successor (ComparatorSpec := Hik) key Hk) as (s & E & Hok & Hrest). exists s. split; [done|].
    split; [|done]. split; [done|]. destruct (successor_cases _ _ E Hk) as [->|(tmp & -> & Ht)]; [done|by apply earliest_bytes].
Qed.

(** Versions of one user key are the same to a lookup. *)
Definition same_user_key (k k' : list Z) : Prop := exists u, ExtractUserKey k = Ok u /\ ExtractUserKey k' = Ok u.

Lemma internal_lookup p used : (forall u f, used -> exists b, KeyMayMatch p u f = Ok b) ->
  LookupSpec (InternalKeyComparator c) (InternalFilterPolicy p) used ik_bytes (ik_ord ord) same_user_key.
Proof using Hc.
  intros Ht. split; cbn [KeyMayMatch InternalFilterPolicy].
  - intros k k' f _ (u & -> & ->). done.
  - intros k f Hu [Hk _]. unfold ik_ok in Hk. destruct (ik_split k) as [[u tg]|] eqn:E; [|done]. destruct (ik_split_ok _ _ _ E) as (-> & _). cbn [mbind result_bind]. by apply Ht.
  - intros start limit s k [Hs _] [Hl _] [Hk _] E Hlt Hsk Hks (u & Eu & Eul).
    pose proof (ik_ord_order c ok ord) as Hord. destruct (separator_cases _ _ _ E Hs Hl) as [->|(tmp & -> & Htmp & Hb2)]; [pose proof (co_sym (ik_ord ord) start k); lia|].
    unfold ik_ok in Hs, Hl, Hk. destruct (ik_split start) as [[us ts]|] eqn:Es; [|done]. destruct (ik_split limit) as [[ul tl]|] eqn:El; [|done]. destruct (ik_split k) as [[uk tk]|] eqn:Ek; [|done].
    destruct (Hb2 us ts ul tl eq_refl eq_refl) as [_ H2]. destruct (ik_split_ok _ _ _ El) as (E1 & _). destruct (ik_split_ok _ _ _ Ek) as (E2 & _).
    rewrite Eul in E1. rewrite Eu in E2. injection E1 as E1. injection E2 as E2. subst.
    pose proof (ik_ord_user ord (earliest tmp) k tmp _ _ tk (earliest_split tmp) Ek H2) as Hlt2. pose proof (co_sym (ik_ord ord) (earliest tmp) k). lia.
Qed.

End internal.

(** ** A small table *)

(** Internal keys, one to a block, with Bloom filters. *)
Definition sample_table : entries :=
  [(AppendInternalKey [] (mkParsed [97; 98; 99] 7 1), [1; 2]); (AppendInternalKey [] (mkParsed [97; 98; 99] 5 1), []);
   (AppendInternalKey [] (mkParsed [98] 9 0), [3])].

Definition sample_options : Options := mkOptions 1 1 16 kSnappyCompression 2.
Definition sample_comparators (_ : addr) : Comparator := InternalKeyComparator BytewiseComparator.
Definition sample_policies (_ : addr) : FilterPolicy := InternalFilterPolicy (NewBloomFilterPolicy 10 6).
Definition sample_names (_ : addr) : list Z := [66; 108; 111; 111; 109].

Lemma sample_setting : table_setting sample_comparators sample_policies sample_names no_snappy sample_options (ik_bytes bytes) (ik_ord Slice_compare) sample_table.
Proof.
  split; [apply ik_bytes_spec; [apply _|done]|apply _|done| | | | | | |].
  - split; [|done]. repeat (apply Forall_cons_2; [done|]). apply Forall_nil_2.
  - intros _. exists (fun k => (8 <= length k)%nat). split; [by apply InternalFilterPolicy_spec, Bloom_spec|]. repeat (apply Forall_cons_2; [cbn; lia|]). apply Forall_nil_2.
  - by intros k [_ ?].
  - repeat (apply Forall_cons_2; [split; repeat (apply Forall_cons_2; [done|]); apply Forall_nil_2|]). apply Forall_nil_2.
  - repeat (apply Forall_cons_2; [repeat (apply Forall_cons_2; [done|]); apply Forall_nil_2|]). apply Forall_nil_2.
  - repeat (apply SSorted_cons || apply SSorted_nil || apply Forall_cons_2 || apply Forall_nil_2); reflexivity.
  - done.
Qed.

Lemma sample_key : ik_bytes bytes (AppendInternalKey [] (mkParsed [97; 98; 99] 6 1)).
Proof. split; [change (bytes [97; 98; 99])|change (bytes [97; 98; 99; 1; 6; 0; 0; 0; 0; 0; 0])]; repeat (apply Forall_cons_2; [lia|]); apply Forall_nil_2. Qed.

Lemma sample_readable data : Z.of_nat (length data) < 2 ^ 32 -> readable (mkRAFile data true (fun _ _ => false)).
Proof. intros Hd. split; [cbn; lia|done]. Qed.

Lemma table_roundtrip_witness :
  exists r t s ready at_, build_table sample_comparators sample_policies sample_names no_snappy 0 sample_options sample_table (mkWFile [] []) = Ok r /\
    Open sample_names no_snappy 0 sample_options (mkRAFile (wf_data (tb_file r)) true (fun _ _ => false)) (tb_offset r) 1 = Ok (StOK, Some t) /\
    Table_NewIterator sample_comparators t = Ok s /\ ready s /\
    IteratorSpec (TableIterator sample_comparators no_snappy 0 t ReadOptions_new) (ik_bytes bytes) (ik_ord Slice_compare) sample_table ready at_.
Proof.
  destruct (table_roundtrip sample_comparators sample_policies sample_names no_snappy 0 sample_options (ik_bytes bytes) (ik_ord Slice_compare) sample_table sample_setting)
    as (r & E & _ & _ & Hr).
  assert (Hl : Z.of_nat (length (wf_data (tb_file r))) < 2 ^ 32) by (vm_compute in E; injection E as <-; reflexivity).
  destruct (Hr Hl (mkRAFile (wf_data (tb_file r)) true (fun _ _ => false)) 0 1 (sample_readable _ Hl) eq_refl) as (t & Eo & Hi).
  destruct (Hi ReadOptions_new) as (s & ready & at_ & En & Hs & Hspec). exists r, t, s, ready, at_. split; [exact E|]. split; [exact Eo|]. split; [exact En|]. split; [exact Hs|exact Hspec].
Defined.

Lemma table_lookup_witness :
  exists r t saved cache p, build_table sample_comparators sample_policies sample_names no_snappy 0 sample_options sample_table (mkWFile [] []) = Ok r /\
    Open sample_names no_snappy 0 sample_options (mkRAFile (wf_data (tb_file r)) true (fun _ _ => false)) (tb_offset r) 1 = Ok (StOK, Some t) /\
    InternalGet sample_comparators sample_policies no_snappy 0 no_cache t ReadOptions_new None (AppendInternalKey [] (mkParsed [97; 98; 99] 6 1)) = Ok (StOK, saved, cache) /\
    (saved = sample_table !! p \/ saved = None).
Proof.
  destruct (table_lookup sample_comparators sample_policies sample_names no_snappy 0 sample_options (ik_bytes bytes) (ik_ord Slice_compare) same_user_key sample_table sample_setting)
    as (r & E & Hr).
  { apply internal_lookup; [apply _|]. intros u f _. apply Bloom_total. }
  assert (Hl : Z.of_nat (length (wf_data (tb_file r))) < 2 ^ 32) by (vm_compute in E; injection E as <-; reflexivity).
  destruct (Hr Hl (mkRAFile (wf_data (tb_file r)) true (fun _ _ => false)) 0 1 (sample_readable _ Hl) eq_refl) as (t & Eo & Hi).
  destruct (Hi unit no_cache (fun _ _ _ => False) no_cache_spec) as (good & Hg & Hget).
  destruct (Hget ReadOptions_new None (AppendInternalKey [] (mkParsed [97; 98; 99] 6 1))) as (saved & cache & p & Es & _ & _ & Hs).
  - exact sample_key.
  - apply Hg. intros m o b [=].
  - exists r, t, saved, cache, p. split; [exact E|]. split; [exact Eo|]. split; [exact Es|]. destruct Hs as [Hs|[Hs _]]; [left|right]; exact Hs.
Defined.

(** The same lookup, evaluated: version 5 is the first one at or behind version 6. *)
Example sample_get :
  (r ← build_table sample_comparators sample_policies sample_names no_snappy 0 sample_options sample_table (mkWFile [] []);
   '(s, t) ← Open sample_names no_snappy 0 sample_options (mkRAFile (wf_data (tb_file r)) false (fun _ _ => false)) (tb_offset r) 1;
   t ← from_opt NullDeref t;
   '(s, saved, _) ← InternalGet sample_comparators sample_policies no_snappy 0 no_cache t ReadOptions_new None (AppendInternalKey [] (mkParsed [97; 98; 99] 6 1));
   Ok (s, saved)) = Ok (StOK, sample_table !! 1%nat).
Proof. vm_compute. reflexivity. Qed.

(** [ChangeOptions] replaces the filter policy although the filters are made by the first one:
    without a policy in the new options [Finish] calls [Name] through a null pointer. *)
Example change_options_drops_policy :
  (r ← TableBuilder_new sample_policies sample_options (mkWFile [] []);
   let '(s, r) := ChangeOptions (mkOptions 1 1 16 kNoCompression NULL) r in
   if status_ok s then TB_Finish sample_comparators sample_policies sample_names no_snappy 0 r else Fault Undefined) = Fault NullDeref.
Proof. vm_compute. reflexivity. Qed.
