(* ===== verification/MemTable.v ===== *)
(** * Memory tables

    db/memtable.cc: a skip list ([SkipListSeq]) of buffers, each an internal key and
    a value with their lengths, ordered by internal key.  A pointer to a buffer is
    the list of the bytes from there to the end of the buffer; reading past it is a
    fault.  What the arena hands out for the nodes of the list is an argument. *)

From Stdlib Require Import Sorted.
From S2P Require Import Prelude Coding CRC32C TXMemStore Random LFSkipList LFSkipListInv LFSkipListSpec LFSkipListCalls SkipListSeq.
From S2P Require Import InternalKey.

(** [GetLengthPrefixedSlice] of a pointer: the slice and the bytes behind it; the
    limit of five bytes is the one of the loop of [GetVarint32Ptr]. *)
Definition GetLengthPrefixedSlice_ptr (data : list Z) : result (list Z * list Z) :=
  '(len, p) ← from_opt NullDeref (GetVarint32Ptr data);
  if len <=? Z.of_nat (length p) then Ok (take (Z.to_nat len) p, drop (Z.to_nat len) p) else Fault OutOfBounds.

Definition EncodeKey (target : list Z) : list Z := PutVarint32 [] (u32 (Z.of_nat (length target))) ++ target.

Record MemTable := mkMemTable { table_ : skiplist (E := list Z); table_rnd_ : Z; refs_ : Z }.

Section model.
Context (user_comparator : Comparator).

Definition KeyComparator (aptr bptr : list Z) : result Z :=
  '(a, _) ← GetLengthPrefixedSlice_ptr aptr;
  '(b, _) ← GetLengthPrefixedSlice_ptr bptr;
  InternalKey_compare user_comparator a b.

(** The order of the skip list: [KeyComparator] where it can read the buffers;
    others are in no table ([mem_rep]) and come first. *)
Definition readable (p : list Z) : bool :=
  match GetLengthPrefixedSlice_ptr p with Ok (k, _) => (8 <=? length k)%nat | Fault _ => false end.

Definition table_compare (a b : list Z) : Z :=
  match KeyComparator a b with
  | Ok r => r
  | Fault _ => if readable a then 1 else if readable b then -1 else 0
  end.

(** The constructor; [a] is the memory of the head, the seed of the list is
    [0xdeadbeef]. *)
Definition MemTable_new (a : addr) (junk_key : list Z) (junk_height : nat) : MemTable :=
  mkMemTable (SkipList_new a junk_key junk_height) (Random_new 3735928559) 0.

Definition Ref (m : MemTable) : MemTable := mkMemTable (table_ m) (table_rnd_ m) (refs_ m + 1).

(** [None]: the table is deleted. *)
Definition Unref (m : MemTable) : option MemTable :=
  if refs_ m - 1 <=? 0 then None else Some (mkMemTable (table_ m) (table_rnd_ m) (refs_ m - 1)).

(** The buffer of an entry, and [encoded_len]. *)
Definition entry_bytes (s type : Z) (key value : list Z) : list Z :=
  EncodeVarint32 (u32 (Z.of_nat (length key) + 8)) ++ key ++ EncodeFixed64 (Z.lor (u64 (Z.shiftl s 8)) type) ++
  EncodeVarint32 (u32 (Z.of_nat (length value))) ++ value.

Definition encoded_len (key value : list Z) : result Z :=
  let internal_key_size := Z.of_nat (length key) + 8 in
  let val_size := Z.of_nat (length value) in
  kl ← VarintLength internal_key_size;
  vl ← VarintLength val_size;
  Ok (kl + internal_key_size + vl + val_size).

Definition Add (alloc : gmap Z (Node (E := list Z)) -> addr) (junk : nat -> addr) (s type : Z) (key value : list Z) (m : MemTable)
    : result MemTable :=
  n ← encoded_len key value;
  let buf := entry_bytes s type key value in
  if Z.of_nat (length buf) <=? n then
    '(table_, rnd) ← SkipList_Insert table_compare buf (alloc (sl_heap (table_ m))) junk (table_ m) (table_rnd_ m);
    Ok (mkMemTable table_ rnd (refs_ m))
  else Fault OutOfBounds.

(** [key_ptr] and [key_length] of an entry. *)
Definition entry_key (entry : list Z) : result (nat * list Z) :=
  '(key_length, key_ptr) ← from_opt NullDeref (GetVarint32Ptr entry);
  if (8 <=? key_length) && (key_length <=? Z.of_nat (length key_ptr)) then Ok (Z.to_nat key_length, key_ptr) else Fault OutOfBounds.

(** The [switch] on the type: the result, [*value] and [*s]. *)
Definition entry_switch (tag : Z) (after : list Z) (value : list Z) (s : Status) : result (bool * list Z * Status) :=
  if Z.land tag 255 =? kTypeValue then '(v, _) ← GetLengthPrefixedSlice_ptr after; Ok (true, v, s)
  else if Z.land tag 255 =? kTypeDeletion then Ok (true, value, StNotFound)
  else Ok (false, value, s).

(** [iter.Seek(memkey.data())] and [iter.key()] where the iterator is valid. *)
Definition seek_entry (m : MemTable) (target : list Z) : result (option (list Z)) :=
  x ← Iter_Seek table_compare (table_ m) target;
  if x =? NULL then Ok None else n ← node (sl_heap (table_ m)) x; Ok (Some (nd_key n)).

Definition Get (m : MemTable) (key : LookupKey) (value : list Z) (s : Status) : result (bool * list Z * Status) :=
  e ← seek_entry m (memtable_key key);
  match e with
  | None => Ok (false, value, s)
  | Some entry =>
      '(key_length, key_ptr) ← entry_key entry;
      r ← Compare user_comparator (take (key_length - 8) key_ptr) (user_key key);
      if r =? 0 then
        tag ← DecodeFixed64 (drop (key_length - 8) key_ptr);
        entry_switch tag (drop key_length key_ptr) value s
      else Ok (false, value, s)
  end.

Definition GetSeq (m : MemTable) (key : LookupKey) (value : list Z) (s : Status) (seq : Z) : result (bool * list Z * Status * Z) :=
  e ← seek_entry m (memtable_key key);
  match e with
  | None => Ok (false, value, s, seq)
  | Some entry =>
      '(key_length, key_ptr) ← entry_key entry;
      r ← Compare user_comparator (take (key_length - 8) key_ptr) (user_key key);
      if r =? 0 then
        tag ← DecodeFixed64 (drop (key_length - 8) key_ptr);
        res ← entry_switch tag (drop key_length key_ptr) value s;
        Ok (res, Z.shiftr tag 8)
      else Ok (false, value, s, seq)
  end.

Definition GetWithSeq (m : MemTable) (key : LookupKey) (value : list Z) (s : Status) : result (bool * list Z * Status) :=
  e ← seek_entry m (memtable_key key);
  match e with
  | None => Ok (false, value, s)
  | Some entry =>
      '(key_length, key_ptr) ← entry_key entry;
      r ← InternalKey_compare user_comparator (take key_length key_ptr) (internal_key key);
      if r =? 0 then
        tag ← DecodeFixed64 (drop (key_length - 8) key_ptr);
        entry_switch tag (drop key_length key_ptr) value s
      else Ok (false, value, s)
  end.

(** [MemTableIterator]: the iterator of the list with decoded keys and values. *)
Definition MemIter_Seek (m : MemTable) (k : list Z) : result addr := Iter_Seek table_compare (table_ m) (EncodeKey k).
Definition MemIter_SeekToFirst (m : MemTable) : result addr := Iter_SeekToFirst (table_ m).
Definition MemIter_SeekToLast (m : MemTable) : result addr := Iter_SeekToLast (table_ m).
Definition MemIter_Next (m : MemTable) (x : addr) : result addr := Iter_Next (table_ m) x.
Definition MemIter_Prev (m : MemTable) (x : addr) : result addr := Iter_Prev table_compare (table_ m) x.

Definition MemIter_key (m : MemTable) (x : addr) : result (list Z) :=
  n ← node (sl_heap (table_ m)) x;
  '(k, _) ← GetLengthPrefixedSlice_ptr (nd_key n); Ok k.

Definition MemIter_value (m : MemTable) (x : addr) : result (list Z) :=
  n ← node (sl_heap (table_ m)) x;
  '(_, rest) ← GetLengthPrefixedSlice_ptr (nd_key n);
  '(v, _) ← GetLengthPrefixedSlice_ptr rest; Ok v.

End model.

(** ** Reading what was written *)

Lemma glps_read s rest : Z.of_nat (length s) < 2 ^ 32 ->
  GetLengthPrefixedSlice_ptr (EncodeVarint32 (u32 (Z.of_nat (length s))) ++ s ++ rest) = Ok (s, rest).
Proof.
  intros Hs. unfold GetLengthPrefixedSlice_ptr, u32. rewrite Z.mod_small by lia.
  pose proof (GetVarint32_varint (Z.of_nat (length s)) (EncodeVarint32 (Z.of_nat (length s))) (s ++ rest)) as Hg.
  unfold GetVarint32 in Hg. rewrite Hg by (try apply EncodeVarint32_varint; lia). cbn [from_opt mbind result_bind].
  rewrite length_app, (proj2 (Z.leb_le _ _)), Nat2Z.id, take_app_length, drop_app_length by lia. done.
Qed.

Lemma varint_length_ok v : 0 <= v < 2 ^ 32 -> VarintLength v = Ok (Z.of_nat (length (EncodeVarint32 (u32 v)))).
Proof.
  intros Hv. unfold u32. rewrite Z.mod_small by lia. pose proof (EncodeVarint32_varint v Hv) as Hl. unfold VarintLength.
  rewrite (VarintLength_loop_varint _ 9 v 1 Hl); [f_equal; lia|].
  apply (varint_length_le v _ 10); [lia|done|]. change (128 ^ Z.of_nat 10) with (2 ^ 70). lia.
Qed.

Record version := mkVersion { v_key : ParsedInternalKey; v_value : list Z }.

Definition version_ok (v : version) : Prop :=
  key_valid (v_key v) /\ Z.of_nat (length (pk_user_key (v_key v))) + 8 < 2 ^ 32 /\ Z.of_nat (length (v_value v)) < 2 ^ 32.

Definition v_tag (v : version) : Z := PackSequenceAndType (pk_sequence (v_key v)) (pk_type (v_key v)).

Definition buf (v : version) : list Z :=
  entry_bytes (pk_sequence (v_key v)) (pk_type (v_key v)) (pk_user_key (v_key v)) (v_value v).

Definition value_bytes (v : version) : list Z := EncodeVarint32 (u32 (Z.of_nat (length (v_value v)))) ++ v_value v.

Lemma append_length k : length (AppendInternalKey [] k) = (length (pk_user_key k) + 8)%nat.
Proof. unfold AppendInternalKey, PutFixed64. by rewrite length_app, (length_le_bytes 8). Qed.

Lemma buf_parts v : buf v =
  EncodeVarint32 (u32 (Z.of_nat (length (AppendInternalKey [] (v_key v))))) ++ AppendInternalKey [] (v_key v) ++ value_bytes v.
Proof.
  unfold buf, entry_bytes, value_bytes. rewrite append_length. unfold AppendInternalKey, PutFixed64, PackSequenceAndType. cbn [app].
  rewrite <- !app_assoc, Nat2Z.inj_add. done.
Qed.

Lemma buf_read v : version_ok v -> GetLengthPrefixedSlice_ptr (buf v) = Ok (AppendInternalKey [] (v_key v), value_bytes v).
Proof. intros (_ & Hk & _). rewrite buf_parts. apply glps_read. rewrite append_length. lia. Qed.

Lemma value_read v : version_ok v -> GetLengthPrefixedSlice_ptr (value_bytes v) = Ok (v_value v, []).
Proof. intros (_ & _ & Hv). unfold value_bytes. rewrite <- (app_nil_r (v_value v)) at 2. by apply glps_read. Qed.

Lemma buf_key v : version_ok v ->
  entry_key (buf v) = Ok ((length (pk_user_key (v_key v)) + 8)%nat, AppendInternalKey [] (v_key v) ++ value_bytes v).
Proof.
  intros (_ & Hk & _). rewrite buf_parts. unfold entry_key. rewrite append_length. unfold u32. rewrite Z.mod_small by lia.
  pose proof (GetVarint32_varint (Z.of_nat (length (pk_user_key (v_key v)) + 8))
    (EncodeVarint32 (Z.of_nat (length (pk_user_key (v_key v)) + 8))) (AppendInternalKey [] (v_key v) ++ value_bytes v)) as Hg.
  unfold GetVarint32 in Hg. rewrite Hg by (try apply EncodeVarint32_varint; lia). cbn [from_opt mbind result_bind].
  rewrite length_app, append_length, !(proj2 (Z.leb_le _ _)), Nat2Z.id by lia. done.
Qed.

Lemma encoded_len_exact v : version_ok v ->
  encoded_len (pk_user_key (v_key v)) (v_value v) = Ok (Z.of_nat (length (buf v))).
Proof.
  intros (_ & Hk & Hv). unfold encoded_len. rewrite !varint_length_ok by lia. cbn [mbind result_bind]. f_equal.
  unfold buf, entry_bytes. rewrite !length_app, (length_le_bytes 8). lia.
Qed.

(** The parts of a buffer that hold an entry. *)
Lemma buf_slices v : let u := pk_user_key (v_key v) in let p := AppendInternalKey [] (v_key v) ++ value_bytes v in
  take (length u + 8 - 8) p = u /\ drop (length u + 8) p = value_bytes v /\ take (length u + 8) p = AppendInternalKey [] (v_key v) /\
  drop (length u + 8 - 8) p = EncodeFixed64 (v_tag v) ++ value_bytes v.
Proof.
  cbv zeta. rewrite Nat.add_sub. split_and!.
  - unfold AppendInternalKey, PutFixed64. cbn [app]. rewrite <- app_assoc. apply take_app_length.
  - rewrite <- append_length. apply drop_app_length.
  - rewrite <- append_length. apply take_app_length.
  - unfold AppendInternalKey, PutFixed64. cbn [app]. rewrite <- app_assoc. apply drop_app_length.
Qed.

(** ** The order of entries *)

Definition entry_split (p : list Z) : option (list Z * Z) :=
  match GetLengthPrefixedSlice_ptr p with Ok (k, _) => ik_split k | Fault _ => None end.

Lemma buf_split v : version_ok v -> entry_split (buf v) = Some (pk_user_key (v_key v), v_tag v).
Proof. intros Hv. unfold entry_split. rewrite buf_read by done. apply append_split, Hv. Qed.

Lemma lookup_split u s : Z.of_nat (length u) + 8 < 2 ^ 32 -> 0 <= s <= kMaxSequenceNumber ->
  entry_split (memtable_key (LookupKey_new u s)) = Some (u, PackSequenceAndType s kTypeValue).
Proof.
  intros Hu Hs. destruct (lookup_key_parts u s Hu) as (Hi & Hm & _). rewrite Hm, Hi. unfold entry_split, PutLengthPrefixedSlice, PutVarint32.
  cbn [app]. rewrite <- (app_nil_r (AppendInternalKey [] _)) at 2. rewrite glps_read by (rewrite append_length; cbn; lia).
  apply (append_split (mkParsed u s kTypeValue)). split; [done|]. by right.
Qed.

Lemma ik_split_readable k : (8 <=? length k)%nat = match ik_split k with Some _ => true | None => false end.
Proof. unfold ik_split. by destruct (8 <=? length k)%nat. Qed.

Section proofs.
Context (c : Comparator) (ord : list Z -> list Z -> Z) `{Ho : !CompareOrder ord} (Hc : forall a b, Compare c a b = Ok (ord a b)).

Abbreviation tag_order := (then_by ord tag_cmp fst snd).

Lemma internal_compare_split a b : InternalKey_compare c a b =
  match ik_split a, ik_split b with Some x, Some y => Ok (tag_order x y) | _, _ => Fault OutOfBounds end.
Proof using Hc.
  unfold InternalKey_compare. destruct (ik_split a) as [[ua ta]|] eqn:Ea.
  - apply ik_split_ok in Ea as (-> & -> & _). cbn [mbind result_bind]. destruct (ik_split b) as [[ub tb]|] eqn:Eb.
    + apply ik_split_ok in Eb as (-> & -> & _). cbn [mbind result_bind]. rewrite Hc. cbn [mbind result_bind].
      unfold then_by, tag_cmp. cbn [fst snd]. by destruct (Z.eqb_spec (ord ua ub) 0) as [->|].
    + unfold ik_split, ExtractUserKey in *. by destruct (8 <=? length b)%nat.
  - unfold ik_split, ExtractUserKey in *. by destruct (8 <=? length a)%nat.
Qed.

Lemma table_compare_split a b : table_compare c a b = option_cmp tag_order (entry_split a) (entry_split b).
Proof using Hc.
  unfold table_compare, KeyComparator, readable, entry_split.
  destruct (GetLengthPrefixedSlice_ptr a) as [[ka ra]|]; destruct (GetLengthPrefixedSlice_ptr b) as [[kb rb]|]; cbn [mbind result_bind];
    rewrite ?internal_compare_split, ?ik_split_readable.
  - by destruct (ik_split ka), (ik_split kb).
  - by destruct (ik_split ka).
  - by destruct (ik_split kb).
  - done.
Qed.

#[local] Instance table_compare_order : CompareOrder (table_compare c).
Proof using Ho Hc.
  split; intros *; rewrite !table_compare_split; [apply (co_refl (option_cmp tag_order))|
    apply (co_sym (option_cmp tag_order))|apply (co_trans (option_cmp tag_order))].
Qed.

Definition vcmp (v w : version) : Z := tag_order (pk_user_key (v_key v), v_tag v) (pk_user_key (v_key w), v_tag w).

Lemma buf_compare v w : version_ok v -> version_ok w -> table_compare c (buf v) (buf w) = vcmp v w.
Proof using Hc. intros Hv Hw. by rewrite table_compare_split, !buf_split. Qed.

(** ** What a table holds *)

Record mem_rep (m : MemTable) (vs : list version) : Prop := {
  mr_list : exists lv, at_rest (table_compare c) (table_ m) lv;
  mr_contents b : b ∈ contents (table_ m) <-> exists v, v ∈ vs /\ b = buf v;
  mr_ok : Forall version_ok vs;
  mr_distinct v w : v ∈ vs -> w ∈ vs -> vcmp v w = 0 -> v = w }.

Lemma mem_rep_new a jk jh : a <> NULL -> mem_rep (MemTable_new a jk jh) [].
Proof using Ho Hc.
  intros Ha. pose proof (SkipList_new_rest (table_compare c) a jk jh Ha) as Hr. split.
  - eexists. exact Hr.
  - intros b. cbn [table_ MemTable_new]. rewrite (contents_spec _ _ _ (ar_list _ _ _ Hr)). cbn. set_solver.
  - constructor.
  - set_solver.
Qed.

(** ** The newest version of a key that a snapshot sees *)

Definition visible (u : list Z) (snap : Z) (v : version) : bool :=
  (ord (pk_user_key (v_key v)) u =? 0) && (pk_sequence (v_key v) <=? snap).

Definition newer (u : list Z) (snap : Z) (best : option version) (v : version) : option version :=
  if visible u snap v && match best with Some b => v_tag b <? v_tag v | None => true end then Some v else best.

Definition newest (u : list Z) (snap : Z) (vs : list version) : option version := foldl (newer u snap) None vs.

Definition newest_of (u : list Z) (snap : Z) (vs : list version) (o : option version) : Prop :=
  match o with
  | Some b => b ∈ vs /\ visible u snap b = true /\ forall v, v ∈ vs -> visible u snap v = true -> v_tag v <= v_tag b
  | None => forall v, v ∈ vs -> visible u snap v = false
  end.

Lemma newest_spec u snap vs : newest_of u snap vs (newest u snap vs).
Proof using Type.
  clear Hc Ho c.
  induction vs as [|v vs IH] using rev_ind; [set_solver|]. unfold newest in *. rewrite foldl_app. cbn [foldl].
  destruct (foldl _ None vs) as [b|]; unfold newer, newest_of in *; destruct (visible u snap v) eqn:Ev; cbn [andb].
  - destruct IH as (Hb & Hvb & Hmax). destruct (Z.ltb_spec (v_tag b) (v_tag v)) as [Hlt|Hge].
    + split_and!; [set_solver|done|]. intros w [Hw|Hw%list_elem_of_singleton]%elem_of_app Hv; [specialize (Hmax w Hw Hv); lia|by subst].
    + split_and!; [set_solver|done|]. intros w [Hw|Hw%list_elem_of_singleton]%elem_of_app Hv; [by apply Hmax|by subst].
  - destruct IH as (Hb & Hvb & Hmax). split_and!; [set_solver|done|].
    intros w [Hw|Hw%list_elem_of_singleton]%elem_of_app Hv; [by apply Hmax|congruence].
  - split_and!; [set_solver|done|]. intros w [Hw|Hw%list_elem_of_singleton]%elem_of_app Hv; [|by subst].
    rewrite IH in Hv by done. done.
  - intros w [Hw|Hw%list_elem_of_singleton]%elem_of_app; [by apply IH|by subst].
Qed.

Lemma tag_le_visible s t snap : 0 <= s <= kMaxSequenceNumber -> 0 <= snap <= kMaxSequenceNumber -> t = kTypeDeletion \/ t = kTypeValue ->
  PackSequenceAndType s t <= PackSequenceAndType snap kTypeValue <-> s <= snap.
Proof using Type.
  intros Hs Hn Ht. assert (Hb : 0 <= t <= 1) by (destruct Ht as [-> | ->]; done).
  rewrite (pack_value s), (pack_value snap) by (done || lia). unfold kTypeValue. lia.
Qed.

(** Where the iterator stands after the seek. *)
Lemma seek_version m vs u snap : mem_rep m vs -> Z.of_nat (length u) + 8 < 2 ^ 32 -> 0 <= snap <= kMaxSequenceNumber ->
  exists o, seek_entry c m (memtable_key (LookupKey_new u snap)) = Ok (buf <$> o) /\
    match o with
    | Some v => v ∈ vs /\
        if ord (pk_user_key (v_key v)) u =? 0 then newest u snap vs = Some v else newest u snap vs = None
    | None => newest u snap vs = None
    end.
Proof using Ho Hc.
  intros [[lv Hr] Hin Hok Hd] Hu Hsn. rewrite Forall_forall in Hok. pose proof Hr as [Hl Hmax _].
  set (k := memtable_key (LookupKey_new u snap)).
  assert (Hk : forall v, v ∈ vs -> table_compare c (buf v) k = tag_order (pk_user_key (v_key v), v_tag v) (u, PackSequenceAndType snap kTypeValue)).
  { intros v Hv. rewrite table_compare_split, buf_split by auto. unfold k. by rewrite lookup_split. }
  assert (Hvis : forall v, v ∈ vs -> visible u snap v = true -> 0 <= table_compare c (buf v) k).
  { intros v Hv Hs. rewrite Hk by done. unfold visible in Hs. apply andb_true_iff in Hs as [Hs1%Z.eqb_eq Hs2%Z.leb_le].
    unfold then_by, tag_cmp. cbn [fst snd]. rewrite Hs1. cbn [Z.eqb]. destruct (Hok v Hv) as ([Hseq Ht] & _).
    pose proof (proj2 (tag_le_visible _ _ snap Hseq Hsn Ht) Hs2) as Htag. unfold v_tag. repeat case_match; lia. }
  destruct (lf_Seek_spec (table_compare c) (table_ m) lv Hl Hmax k) as (x & E1 & Hx). unfold seek_entry. rewrite E1. cbn [mbind result_bind].
  pose proof (sl_seek_spec (table_compare c) (contents (table_ m)) k (contents_sorted _ _ _ Hr)) as Hs. rewrite <- Hx in Hs. unfold key_at in Hs, Hx.
  pose proof (newest_spec u snap vs) as Hn. destruct (sl_heap (table_ m) !! x) as [n|] eqn:En; cbn [fmap option_fmap option_map] in Hs.
  - destruct Hs as (Hb & Hge & Hmin). apply Hin in Hb as (v & Hv & Ev). rewrite (proj2 (Z.eqb_neq x NULL)).
    2:{ intros ->. rewrite (lk_null _ _ _ _ Hl) in En. done. }
    unfold node. rewrite En. cbn [from_opt mbind result_bind]. exists (Some v). rewrite Ev in *. split; [done|]. split; [done|].
    assert (Hvmin : forall w, w ∈ vs -> visible u snap w = true -> vcmp v w <= 0).
    { intros w Hw Hvw. rewrite <- buf_compare by auto. apply Hmin; [apply Hin; eauto|by apply Hvis]. }
    rewrite Hk in Hge by done. unfold then_by, tag_cmp in Hge. cbn [fst snd] in Hge. destruct (Hok v Hv) as ([Hseq Ht] & _).
    destruct (Z.eqb_spec (ord (pk_user_key (v_key v)) u) 0) as [Eu|Eu].
    + assert (Hvv : visible u snap v = true).
      { unfold visible. rewrite Eu. cbn. apply Z.leb_le, (tag_le_visible _ _ snap Hseq Hsn Ht). unfold v_tag in Hge. repeat case_match; lia. }
      destruct (newest u snap vs) as [b|]; cbn in Hn; [|rewrite Hn in Hvv by done; done]. destruct Hn as (Hb & Hbv & Hmaxt).
      specialize (Hvmin b Hb Hbv). specialize (Hmaxt v Hv Hvv). f_equal. symmetry. apply Hd; [done..|].
      unfold visible in Hbv. apply andb_true_iff in Hbv as [Hbu%Z.eqb_eq _].
      assert (Evb : ord (pk_user_key (v_key v)) (pk_user_key (v_key b)) = 0).
      { apply (co_eq_trans ord _ u); [done|]. pose proof (co_sym ord u (pk_user_key (v_key b))). pose proof (co_sym ord (pk_user_key (v_key b)) u). lia. }
      unfold vcmp, then_by, tag_cmp in *. cbn [fst snd] in *. rewrite Evb in *. cbn [Z.eqb] in *. repeat case_match; lia.
    + destruct (newest u snap vs) as [b|]; [|done]. cbn in Hn. destruct Hn as (Hb & Hbv & _). exfalso. specialize (Hvmin b Hb Hbv).
      unfold visible in Hbv. apply andb_true_iff in Hbv as [Hbu%Z.eqb_eq _]. unfold vcmp, then_by, tag_cmp in Hvmin. cbn [fst snd] in Hvmin.
      assert (Hlt : ord (pk_user_key (v_key b)) (pk_user_key (v_key v)) < 0).
      { apply (co_le_lt ord _ u); [lia|]. apply (co_sym ord). lia. }
      apply (co_sym ord) in Hlt. rewrite (proj2 (Z.eqb_neq _ _)) in Hvmin by lia. lia.
  - exists None. assert (x = NULL) as ->.
    { destruct (Z.eq_dec x NULL) as [|Hne]; [done|]. exfalso. destruct (find_spec (table_compare c) (table_ m) lv Hl Hmax k) as (y & nx & Hf & Eg & _).
      unfold Iter_Seek in E1. rewrite E1 in Eg. injection Eg as <-. destruct Hf as (xs & ys & Hs' & _ & _ & Hy). destruct ys as [|[b kb] ys]; [done|].
      destruct Hy as [-> _]. destruct (lk_node _ _ _ _ Hl 0 b kb) as (n & Hn' & _); [rewrite Hs'; set_solver|]. congruence. }
    split; [done|]. destruct (newest u snap vs) as [b|]; [|done]. cbn in Hn. destruct Hn as (Hb & Hbv & _).
    specialize (Hs (buf b)). rewrite Hin in Hs. specialize (Hvis b Hb Hbv). specialize (Hs ltac:(eauto)). lia.
Qed.

(** What an entry that was found gives. *)
Definition found_result (v : version) (value : list Z) (s : Status) : bool * list Z * Status :=
  if pk_type (v_key v) =? kTypeValue then (true, v_value v, s) else (true, value, StNotFound).

Lemma buf_tag v rest : version_ok v -> DecodeFixed64 (EncodeFixed64 (v_tag v) ++ rest) = Ok (v_tag v).
Proof using Type. intros (Hk & _). apply (DecodeFixed_le 8). apply pack_bounds; [apply Hk|by apply valid_type]. Qed.

Lemma entry_switch_ok v value s : version_ok v -> entry_switch (v_tag v) (value_bytes v) value s = Ok (found_result v value s).
Proof using Type.
  intros Hv. pose proof Hv as ((Hs & Ht) & _). unfold entry_switch, v_tag, found_result.
  destruct (pack_parts _ _ Hs (valid_type _ (proj1 Hv))) as [-> _]. rewrite value_read by done.
  destruct Ht as [-> | ->]; done.
Qed.

Lemma GetSeq_rep m vs u snap value s seq : mem_rep m vs -> Z.of_nat (length u) + 8 < 2 ^ 32 -> 0 <= snap <= kMaxSequenceNumber ->
  GetSeq c m (LookupKey_new u snap) value s seq =
    Ok (match newest u snap vs with
        | Some v => (found_result v value s, pk_sequence (v_key v)) | None => (false, value, s, seq) end).
Proof using Ho Hc.
  intros Hm Hu Hsn. destruct (seek_version m vs u snap Hm Hu Hsn) as (o & E1 & Ho'). unfold GetSeq. rewrite E1. cbn [mbind result_bind].
  destruct o as [v|]; cbn [fmap option_fmap option_map]; [|by rewrite Ho']. destruct Ho' as [Hv Hn].
  pose proof (proj1 (Forall_forall _ _) (mr_ok _ _ Hm) v Hv) as Hok. cbn in Hok.
  rewrite buf_key by done. cbn [mbind result_bind]. destruct (buf_slices v) as (-> & -> & _ & ->).
  destruct (lookup_key_parts u snap Hu) as (_ & _ & -> & _). rewrite Hc. cbn [mbind result_bind].
  destruct (ord (pk_user_key (v_key v)) u =? 0); rewrite Hn; [|done]. rewrite buf_tag by done. cbn [mbind result_bind].
  rewrite entry_switch_ok by done. cbn [mbind result_bind]. pose proof Hok as ((Hs & _) & _). unfold v_tag.
  by destruct (pack_parts _ _ Hs (valid_type _ (proj1 Hok))) as [_ ->].
Qed.

Lemma Get_GetSeq m k value s seq : Get c m k value s = ('(r, _) ← GetSeq c m k value s seq; Ok r).
Proof using Type.
  unfold Get, GetSeq. destruct (seek_entry c m (memtable_key k)) as [[e|]|]; [|done..]. cbn [mbind result_bind].
  destruct (entry_key e) as [[l p]|]; [|done]. cbn [mbind result_bind].
  destruct (Compare c _ _) as [r|]; [|done]. cbn [mbind result_bind]. destruct (r =? 0); [|done].
  destruct (DecodeFixed64 _) as [tag|]; [|done]. cbn [mbind result_bind]. by destruct (entry_switch _ _ _ _) as [[[? ?] ?]|].
Qed.

Lemma Get_rep m vs u snap value s : mem_rep m vs -> Z.of_nat (length u) + 8 < 2 ^ 32 -> 0 <= snap <= kMaxSequenceNumber ->
  Get c m (LookupKey_new u snap) value s =
    Ok (match newest u snap vs with Some v => found_result v value s | None => (false, value, s) end).
Proof using Ho Hc.
  intros Hm Hu Hsn. rewrite (Get_GetSeq _ _ _ _ 0), (GetSeq_rep m vs) by done. by destruct (newest u snap vs).
Qed.

(** The value with exactly the sequence number of the lookup key. *)
Definition exactly (u : list Z) (snap : Z) (v : version) : bool :=
  (ord (pk_user_key (v_key v)) u =? 0) && (pk_sequence (v_key v) =? snap) && (pk_type (v_key v) =? kTypeValue).

Lemma exactly_tag u snap v : version_ok v -> 0 <= snap <= kMaxSequenceNumber ->
  (tag_order (pk_user_key (v_key v), v_tag v) (u, PackSequenceAndType snap kTypeValue) =? 0) = exactly u snap v.
Proof using Type.
  intros ((Hs & Ht) & _) Hsn. unfold then_by, tag_cmp, exactly, v_tag. cbn [fst snd].
  rewrite (pack_value snap), (pack_value (pk_sequence (v_key v))) by (try done; destruct Ht as [-> | ->]; done).
  destruct (Z.eqb_spec (ord (pk_user_key (v_key v)) u) 0) as [E|E]; [cbn [andb]|by apply Z.eqb_neq in E].
  unfold kTypeValue, kTypeDeletion in *. destruct (Z.eqb_spec (pk_sequence (v_key v)) snap), (Z.eqb_spec (pk_type (v_key v)) 1); cbn [andb];
    repeat case_match; lia.
Qed.

Lemma GetWithSeq_rep m vs u snap value s : mem_rep m vs -> Z.of_nat (length u) + 8 < 2 ^ 32 -> 0 <= snap <= kMaxSequenceNumber ->
  exists r, GetWithSeq c m (LookupKey_new u snap) value s = Ok r /\
    ((exists v, v ∈ vs /\ exactly u snap v = true /\ r = (true, v_value v, s)) \/
     ((forall v, v ∈ vs -> exactly u snap v = false) /\ r = (false, value, s))).
Proof using Ho Hc.
  intros Hm Hu Hsn. destruct (seek_version m vs u snap Hm Hu Hsn) as (o & E1 & Ho'). unfold GetWithSeq. rewrite E1. cbn [mbind result_bind].
  pose proof (newest_spec u snap vs) as Hnew. pose proof (proj1 (Forall_forall _ _) (mr_ok _ _ Hm)) as Hoks.
  assert (Hvis : forall v, exactly u snap v = true -> visible u snap v = true).
  { intros v. unfold exactly, visible. rewrite !andb_true_iff, !Z.eqb_eq, Z.leb_le. intros [[? ?] _]. lia. }
  assert (Hnone : newest u snap vs = None -> forall v, v ∈ vs -> exactly u snap v = false).
  { intros Hn v Hv. rewrite Hn in Hnew. destruct (exactly u snap v) eqn:E; [|done]. apply Hvis in E. by rewrite Hnew in E. }
  destruct o as [v|]; cbn [fmap option_fmap option_map]; [|eexists; split; [done|right; auto]]. destruct Ho' as [Hv Hn].
  pose proof (Hoks v Hv) as Hok. cbn in Hok. rewrite buf_key by done. cbn [mbind result_bind].
  destruct (buf_slices v) as (_ & -> & -> & ->). destruct (lookup_key_parts u snap Hu) as (-> & _ & _ & _).
  change kValueTypeForSeek with kTypeValue. rewrite internal_compare_split, append_split, (append_split (mkParsed u snap kTypeValue)) by (first [exact (proj1 Hok) | by split; [|right]]).
  cbn [mbind result_bind pk_user_key pk_sequence pk_type]. rewrite exactly_tag by done.
  destruct (exactly u snap v) eqn:Ex.
  - rewrite buf_tag by done. cbn [mbind result_bind]. rewrite entry_switch_ok by done. eexists. split; [done|]. left. exists v. split_and!; [done..|].
    unfold exactly in Ex. apply andb_true_iff in Ex as [_ Et]. unfold found_result. by rewrite Et.
  - eexists. split; [done|]. right. split; [|done]. destruct (Z.eqb_spec (ord (pk_user_key (v_key v)) u) 0) as [Eu|]; [|by apply Hnone].
    intros w Hw. destruct (exactly u snap w) eqn:Ew; [|done]. exfalso. rewrite Hn in Hnew. destruct Hnew as (_ & Hvv & Hmax).
    specialize (Hmax w Hw (Hvis w Ew)). rewrite <- exactly_tag in Ew by (try done; by apply Hoks).
    assert (Hle : v_tag v <= PackSequenceAndType snap kTypeValue).
    { unfold visible in Hvv. apply andb_true_iff in Hvv as [_ Hvv%Z.leb_le]. destruct Hok as ((Hs & Ht) & _). by apply tag_le_visible. }
    apply Z.eqb_eq in Ew. unfold then_by, tag_cmp in Ew. cbn [fst snd] in Ew.
    assert (Heq : v_tag v = PackSequenceAndType snap kTypeValue).
    { destruct (Z.eqb_spec (ord (pk_user_key (v_key w)) u) 0); repeat case_match; lia. }
    rewrite <- exactly_tag in Ex by done. rewrite Heq in Ex. unfold then_by, tag_cmp in Ex. cbn [fst snd] in Ex.
    rewrite Eu, Z.ltb_irrefl in Ex. done.
Qed.

Context (alloc : gmap Z (Node (E := list Z)) -> addr) (Halloc : forall h, alloc h <> NULL /\ h !! alloc h = None) (junk : nat -> addr).

Lemma Add_rep m vs v : mem_rep m vs -> version_ok v -> (forall w, w ∈ vs -> vcmp w v <> 0) ->
  exists m', Add c alloc junk (pk_sequence (v_key v)) (pk_type (v_key v)) (pk_user_key (v_key v)) (v_value v) m = Ok m' /\
    mem_rep m' (vs ++ [v]) /\ refs_ m' = refs_ m.
Proof using Ho Hc Halloc.
  intros [[lv Hr] Hin Hok Hd] Hv Hnew. unfold Add. rewrite encoded_len_exact by done. cbn [mbind result_bind]. fold (buf v).
  rewrite Z.leb_refl. destruct (Halloc (sl_heap (table_ m))) as [Ha Hf]. rewrite Forall_forall in Hok.
  assert (Habs : absent (table_compare c) (buf v) (contents (table_ m)) = true).
  { apply absent_spec. intros b (w & Hw & ->)%Hin. rewrite buf_compare by auto. auto. }
  destruct (SkipList_Insert_spec (table_compare c) (table_ m) lv (buf v) (alloc (sl_heap (table_ m))) junk (table_rnd_ m) Hr Ha Hf Habs)
    as (s' & rnd' & lv' & E1 & Hr' & Hcs & _). rewrite E1. cbn [mbind result_bind]. eexists. split; [done|]. split; [|done]. split; cbn [table_].
  - by exists lv'.
  - intros b. rewrite Hcs, (sl_insert_in (table_compare c)) by (exact (contents_sorted _ _ _ Hr)). rewrite Hin.
    pose proof (proj1 (absent_spec _ _ _) Habs). set_solver.
  - apply Forall_app. split; [by apply Forall_forall|]. by constructor.
  - intros x y Hx Hy Hxy. assert (Hsym : vcmp y x = 0).
    { unfold vcmp in *. pose proof (co_sym tag_order (pk_user_key (v_key x), v_tag x) (pk_user_key (v_key y), v_tag y)).
      pose proof (co_sym tag_order (pk_user_key (v_key y), v_tag y) (pk_user_key (v_key x), v_tag x)). lia. }
    apply elem_of_app in Hx as [Hx|Hx%list_elem_of_singleton], Hy as [Hy|Hy%list_elem_of_singleton]; subst; [by apply Hd| | |done].
    + by destruct (Hnew x Hx).
    + by destruct (Hnew y Hy).
Qed.

Fixpoint add_all (vs : list version) (m : MemTable) : result MemTable :=
  match vs with
  | [] => Ok m
  | v :: vs =>
      m ← Add c alloc junk (pk_sequence (v_key v)) (pk_type (v_key v)) (pk_user_key (v_key v)) (v_value v) m;
      add_all vs m
  end.

Lemma add_all_rep vs m ws : mem_rep m ws -> Forall version_ok vs -> ForallOrdPairs (fun v w => vcmp v w <> 0) (ws ++ vs) ->
  exists m', add_all vs m = Ok m' /\ mem_rep m' (ws ++ vs) /\ refs_ m' = refs_ m.
Proof using Ho Hc Halloc.
  revert m ws. induction vs as [|v vs IH]; intros m ws Hm Hok Hd; cbn [add_all]; [exists m; by rewrite app_nil_r|].
  inversion_clear Hok as [|? ? Hv Hok'].
  assert (Hnew : forall w, w ∈ ws -> vcmp w v <> 0).
  { clear -Hd. induction ws as [|x ws IH]; [set_solver|]. cbn in Hd. inversion_clear Hd as [|? ? Hx Hd'].
    intros w [->|Hw]%elem_of_cons; [|by apply IH]. rewrite Forall_forall in Hx. apply Hx. set_solver. }
  destruct (Add_rep m ws v Hm Hv Hnew) as (m1 & -> & Hm1 & Hrefs). cbn [mbind result_bind].
  destruct (IH m1 (ws ++ [v]) Hm1 Hok') as (m' & -> & Hm' & Hr'); [by rewrite <- app_assoc|].
  exists m'. rewrite <- app_assoc in Hm'. split_and!; [done..|congruence].
Qed.

(** C17: A memory table answers from the versions that were added to it, in any
    order, no two with the same key, sequence number and type: every [Add] succeeds
    and writes exactly the bytes it allocated; [Get] and [GetSeq] find the newest
    version of the user key that the snapshot sees, and report its value (and its
    sequence number), or [NotFound] when it is a deletion; [GetWithSeq] finds a value
    with exactly the sequence number of the lookup key, never a deletion. *)
Theorem memtable_versions a jk jh vs :
  a <> NULL -> Forall version_ok vs -> ForallOrdPairs (fun v w => vcmp v w <> 0) vs ->
  exists m, add_all vs (MemTable_new a jk jh) = Ok m /\
    forall u snap value s seq, Z.of_nat (length u) + 8 < 2 ^ 32 -> 0 <= snap <= kMaxSequenceNumber ->
      Get c m (LookupKey_new u snap) value s =
        Ok (match newest u snap vs with Some v => found_result v value s | None => (false, value, s) end) /\
      GetSeq c m (LookupKey_new u snap) value s seq =
        Ok (match newest u snap vs with
            | Some v => (found_result v value s, pk_sequence (v_key v)) | None => (false, value, s, seq) end) /\
      exists r, GetWithSeq c m (LookupKey_new u snap) value s = Ok r /\
        ((exists v, v ∈ vs /\ exactly u snap v = true /\ r = (true, v_value v, s)) \/
         ((forall v, v ∈ vs -> exactly u snap v = false) /\ r = (false, value, s))).
Proof using Ho Hc Halloc.
  intros Ha Hok Hd. destruct (add_all_rep vs (MemTable_new a jk jh) [] (mem_rep_new a jk jh Ha) Hok Hd) as (m & E1 & Hm & _).
  exists m. split; [done|]. intros u snap value s seq Hu Hs.
  split; [by apply Get_rep|]. split; [by apply GetSeq_rep|by apply GetWithSeq_rep].
Qed.

End proofs.

(** Three versions of a key: the deletion hides the older value, and [GetWithSeq]
    does not report it. *)
Definition three_versions : list version :=
  [mkVersion (mkParsed [107] 5 1) [10]; mkVersion (mkParsed [107] 9 0) []; mkVersion (mkParsed [107] 12 1) [20; 21]].

Lemma memtable_versions_witness :
  exists m, add_all BytewiseComparator bump_alloc (fun _ => 0) three_versions (MemTable_new 7 [] 0) = Ok m /\
    Get BytewiseComparator m (LookupKey_new [107] 10) [] StOK = Ok (true, [], StNotFound) /\
    GetSeq BytewiseComparator m (LookupKey_new [107] 8) [] StOK 0 = Ok (true, [10], StOK, 5) /\
    GetWithSeq BytewiseComparator m (LookupKey_new [107] 9) [] StOK = Ok (false, [], StOK).
Proof.
  destruct (memtable_versions BytewiseComparator Slice_compare (fun _ _ => eq_refl) bump_alloc bump_alloc_fresh (fun _ => 0)
    7 [] 0 three_versions) as (m & E1 & Hg); [done| | |].
  { repeat apply Forall_cons_2; [..|apply Forall_nil_2]; (split; [split; [done|]|done]); [by right|by left|by right]. }
  { repeat constructor; vm_compute; discriminate. }
  exists m. split; [exact E1|]. clear E1. split; [|split].
  - by destruct (Hg [107] 10 [] StOK 0) as (-> & _); [done..|].
  - by destruct (Hg [107] 8 [] StOK 0) as (_ & -> & _); [done..|].
  - destruct (Hg [107] 9 [] StOK 0) as (_ & _ & r & -> & [(v & Hv & Hx & _)|[_ ->]]); [done..| |done].
    exfalso. unfold three_versions in Hv. rewrite !elem_of_cons in Hv. destruct Hv as [->|[->|[->|Hv%elem_of_nil]]]; done.
Defined.
