(* ===== verification/DBIter.v ===== *)
(** * Iterators over a database

    db/db_iter.cc: from an iterator over the versions of all keys (internal keys) the
    iterator over the user keys and values that a snapshot sees.  The capacity of
    [saved_value_], which is only about memory, is left out. *)

From Stdlib Require Import Sorted.
From S2P Require Import Prelude Coding CRC32C TXMemStore InternalKey Iterators MemTable.

Record DBIterState (S : Type) := mkDBIter {
  iter_ : S;
  status_ : Status;
  saved_key_ : list Z;
  saved_value_ : list Z;
  direction_ : Direction;
  valid_ : bool }.
Arguments mkDBIter {S}. Arguments iter_ {S}. Arguments status_ {S}. Arguments saved_key_ {S}. Arguments saved_value_ {S}.
Arguments direction_ {S}. Arguments valid_ {S}.

Section model.
Context {S : Type} (I : Iterator S) (user_comparator_ : Comparator) (sequence_ : Z).
#[local] Abbreviation DBIter := (DBIterState S).

Definition set_iter s (d : DBIter) : DBIter := mkDBIter s (status_ d) (saved_key_ d) (saved_value_ d) (direction_ d) (valid_ d).
Definition set_status st (d : DBIter) : DBIter := mkDBIter (iter_ d) st (saved_key_ d) (saved_value_ d) (direction_ d) (valid_ d).
Definition SaveKey k (d : DBIter) : DBIter := mkDBIter (iter_ d) (status_ d) k (saved_value_ d) (direction_ d) (valid_ d).
Definition save_value v (d : DBIter) : DBIter := mkDBIter (iter_ d) (status_ d) (saved_key_ d) v (direction_ d) (valid_ d).
Definition set_direction r (d : DBIter) : DBIter := mkDBIter (iter_ d) (status_ d) (saved_key_ d) (saved_value_ d) r (valid_ d).
Definition set_valid b (d : DBIter) : DBIter := mkDBIter (iter_ d) (status_ d) (saved_key_ d) (saved_value_ d) (direction_ d) b.

Definition ClearSavedValue (d : DBIter) : DBIter := save_value [] d.

Definition DBIter_new (iter : S) : DBIter := mkDBIter iter StOK [] [] kForward false.

(** What [ParseInternalKey] leaves in the key when it fails is not looked at. *)
Definition ParseKey (d : DBIter) : result (option ParsedInternalKey * DBIter) :=
  k ← it_key I (iter_ d);
  let '(b, ikey) := ParseInternalKey k (mkParsed [] 0 0) in
  Ok (if b : bool then (Some ikey, d) else (None, set_status (StCorruption BadInternalKey) d)).

(** A key that was parsed and is not newer than the snapshot. *)
Definition seen (o : option ParsedInternalKey) : option ParsedInternalKey :=
  match o with Some ikey => if pk_sequence ikey <=? sequence_ then Some ikey else None | None => None end.

(** [skip] is [saved_key_] in all calls. *)
Fixpoint FindNextUserEntry (fuel : nat) (skipping : bool) (d : DBIter) : result DBIter :=
  match fuel with
  | O => Fault OutOfFuel
  | Datatypes.S fuel =>
      '(o, d) ← ParseKey d;
      '(found, skipping, d) ← (match seen o with
        | None => Ok (false, skipping, d)
        | Some ikey =>
            if pk_type ikey =? kTypeDeletion then Ok (false, true, SaveKey (pk_user_key ikey) d)
            else
              hidden ← (if skipping then r ← Compare user_comparator_ (pk_user_key ikey) (saved_key_ d); Ok (r <=? 0) else Ok false);
              Ok (negb hidden, skipping, d)
        end);
      if found : bool then Ok (SaveKey [] (set_valid true d))
      else
        s ← it_Next I (iter_ d);
        let d := set_iter s d in
        if it_Valid I s then FindNextUserEntry fuel skipping d else Ok (set_valid false (SaveKey [] d))
  end.

(** The loop of [FindPrevUserEntry]; [value_type] is kept along. *)
Fixpoint find_prev_loop (fuel : nat) (value_type : Z) (d : DBIter) : result (Z * DBIter) :=
  match fuel with
  | O => Fault OutOfFuel
  | Datatypes.S fuel =>
      '(o, d) ← ParseKey d;
      '(stop, value_type, d) ← (match seen o with
        | None => Ok (false, value_type, d)
        | Some ikey =>
            before ← (if negb (value_type =? kTypeDeletion) then r ← Compare user_comparator_ (pk_user_key ikey) (saved_key_ d); Ok (r <? 0) else Ok false);
            if before : bool then Ok (true, value_type, d)
            else if pk_type ikey =? kTypeDeletion then Ok (false, pk_type ikey, ClearSavedValue (SaveKey [] d))
            else
              raw_value ← it_value I (iter_ d);
              k ← it_key I (iter_ d);
              u ← ExtractUserKey k;
              Ok (false, pk_type ikey, save_value raw_value (SaveKey u d))
        end);
      if stop : bool then Ok (value_type, d)
      else
        s ← it_Prev I (iter_ d);
        let d := set_iter s d in
        if it_Valid I s then find_prev_loop fuel value_type d else Ok (value_type, d)
  end.

(** More than the number of entries. *)
Context (fuel : nat).

Definition FindPrevUserEntry (d : DBIter) : result DBIter :=
  '(value_type, d) ← (if it_Valid I (iter_ d) then find_prev_loop fuel kTypeDeletion d else Ok (kTypeDeletion, d));
  Ok (if value_type =? kTypeDeletion then set_direction kForward (ClearSavedValue (SaveKey [] (set_valid false d))) else set_valid true d).

Definition DI_Next (d : DBIter) : result DBIter :=
  let go d := k ← it_key I (iter_ d); u ← ExtractUserKey k; FindNextUserEntry fuel true (SaveKey u d) in
  match direction_ d with
  | kForward => go d
  | kReverse =>
      let d := set_direction kForward d in
      s ← (if it_Valid I (iter_ d) then it_Next I (iter_ d) else it_SeekToFirst I (iter_ d));
      let d := set_iter s d in
      if it_Valid I s then go d else Ok (SaveKey [] (set_valid false d))
  end.

(** Scanning backwards until the key changes; [false] when there is no entry before. *)
Fixpoint scan_back (n : nat) (d : DBIter) : result (bool * DBIter) :=
  match n with
  | O => Fault OutOfFuel
  | Datatypes.S n =>
      s ← it_Prev I (iter_ d);
      let d := set_iter s d in
      if it_Valid I s then
        k ← it_key I s;
        u ← ExtractUserKey k;
        r ← Compare user_comparator_ u (saved_key_ d);
        if r <? 0 then Ok (true, d) else scan_back n d
      else Ok (false, d)
  end.

Definition DI_Prev (d : DBIter) : result DBIter :=
  match direction_ d with
  | kForward =>
      k ← it_key I (iter_ d);
      u ← ExtractUserKey k;
      '(b, d) ← scan_back fuel (SaveKey u d);
      if b : bool then FindPrevUserEntry (set_direction kReverse d) else Ok (ClearSavedValue (SaveKey [] (set_valid false d)))
  | kReverse => FindPrevUserEntry d
  end.

Definition DI_Seek (target : list Z) (d : DBIter) : result DBIter :=
  let d := ClearSavedValue (set_direction kForward d) in
  let d := SaveKey (AppendInternalKey [] (mkParsed target sequence_ kValueTypeForSeek)) d in
  s ← it_Seek I (saved_key_ d) (iter_ d);
  let d := set_iter s d in
  if it_Valid I s then FindNextUserEntry fuel false d else Ok (set_valid false d).

Definition DI_SeekToFirst (d : DBIter) : result DBIter :=
  let d := ClearSavedValue (set_direction kForward d) in
  s ← it_SeekToFirst I (iter_ d);
  let d := set_iter s d in
  if it_Valid I s then FindNextUserEntry fuel false d else Ok (set_valid false d).

Definition DI_SeekToLast (d : DBIter) : result DBIter :=
  let d := ClearSavedValue (set_direction kReverse d) in
  s ← it_SeekToLast I (iter_ d);
  FindPrevUserEntry (set_iter s d).

Definition DI_key (d : DBIter) : result (list Z) :=
  match direction_ d with kForward => k ← it_key I (iter_ d); ExtractUserKey k | kReverse => Ok (saved_key_ d) end.

Definition DI_value (d : DBIter) : result (list Z) :=
  match direction_ d with kForward => it_value I (iter_ d) | kReverse => Ok (saved_value_ d) end.

Definition DBIterator : Iterator DBIter :=
  mkIterator _ valid_ DI_key DI_value (fun d => if status_ok (status_ d) then it_status I (iter_ d) else Ok (status_ d))
    DI_Seek DI_SeekToFirst DI_SeekToLast DI_Next DI_Prev.

End model.

(** ** The keys that a snapshot sees *)

Section proofs.
Context {S : Type} (I : Iterator S) (c : Comparator) (ok : list Z -> Prop) (ord : list Z -> list Z -> Z) `{Hc : !ComparatorSpec c ok ord}.
Context (snap : Z) (vs : list version).
#[local] Abbreviation DBIter := (DBIterState S).
#[local] Abbreviation ukey v := (pk_user_key (v_key v)).
#[local] Abbreviation ikey v := (AppendInternalKey [] (v_key v)).

(** The versions in the order of the internal keys, and the iterator over them. *)
Context (Hvalid : Forall (fun v => key_valid (v_key v) /\ ok (ukey v)) vs).
Context (Hsorted : StronglySorted (fun v w => ik_ord ord (ikey v) (ikey w) < 0) vs).
Context (ready : S -> Prop) (at_ : S -> nat -> Prop).
Context `{Hi : !IteratorSpec I (ik_ok ok) (ik_ord ord) (map (fun v => (ikey v, v_value v)) vs) ready at_}.

Definition vis (v : version) : bool := pk_sequence (v_key v) <=? snap.

(** The version at [i] is the newest one of its key that the snapshot sees, and a value. *)
Definition shown_at (i : nat) : bool :=
  match vs !! i with
  | Some v => vis v && negb (pk_type (v_key v) =? kTypeDeletion) && forallb (fun w => negb (vis w && (ord (ukey w) (ukey v) =? 0))) (take i vs)
  | None => false
  end.

Definition view_upto (i : nat) : list (list Z * list Z) :=
  omap (fun j => if shown_at j then (fun v => (ukey v, v_value v)) <$> vs !! j else None) (seq 0 i).

(** What the user sees. *)
Definition view : list (list Z * list Z) := view_upto (length vs).

Definition rank (i : nat) : nat := length (view_upto i).

(** *** Positions *)

Lemma version_at i v : vs !! i = Some v -> key_valid (v_key v) /\ ok (ukey v) /\ (pk_type (v_key v) = kTypeDeletion \/ pk_type (v_key v) = kTypeValue).
Proof using Hvalid.
  intros Ei. rewrite Forall_forall in Hvalid. destruct (Hvalid v ltac:(by eapply list_elem_of_lookup_2)) as [Hk Hok]. split_and!; [done..|]. apply Hk.
Qed.

Lemma vs_lt i j v w : vs !! i = Some v -> vs !! j = Some w -> (i < j)%nat -> ik_ord ord (ikey v) (ikey w) < 0.
Proof using Hsorted.
  clear -Hsorted. revert i j. induction Hsorted as [|x l Hs IH Hx]; intros i j Ei Ej Hij; [done|]. destruct j as [|j]; [lia|]. cbn in Ej.
  destruct i as [|i]; cbn in Ei; [injection Ei as ->; rewrite Forall_forall in Hx; apply Hx; by eapply list_elem_of_lookup_2|]. apply (IH Hs i j); [done..|lia].
Qed.

Lemma vs_order i j v w : vs !! i = Some v -> vs !! j = Some w -> (i < j)%nat ->
  ord (ukey v) (ukey w) < 0 \/ (ord (ukey v) (ukey w) = 0 /\ pk_sequence (v_key w) <= pk_sequence (v_key v)).
Proof using Hc Hvalid Hsorted.
  intros Ei Ej Hij. pose proof (vs_lt i j v w Ei Ej Hij) as Hlt.
  apply ik_ord_append in Hlt; [lia|apply _|by eapply version_at..].
Qed.

Lemma ord_le i j v w : vs !! i = Some v -> vs !! j = Some w -> (i <= j)%nat -> ord (ukey v) (ukey w) <= 0.
Proof using Hc Hvalid Hsorted.
  intros Ei Ej Hij. destruct (decide (i = j)) as [->|]; [rewrite Ei in Ej; injection Ej as <-; rewrite (co_refl ord); lia|].
  destruct (vs_order i j v w Ei Ej ltac:(lia)); lia.
Qed.

Lemma shown_spec i v : vs !! i = Some v -> shown_at i = true <->
  vis v = true /\ pk_type (v_key v) <> kTypeDeletion /\ forall j w, (j < i)%nat -> vs !! j = Some w -> ord (ukey w) (ukey v) = 0 -> vis w = false.
Proof.
  intros Ei. unfold shown_at. rewrite Ei, !andb_true_iff, negb_true_iff, Z.eqb_neq, forallb_forall. split.
  - intros [[Hv Ht] Hf]. split_and!; [done..|]. intros j w Hj Ew Ho. specialize (Hf w). rewrite (proj2 (Z.eqb_eq _ _) Ho), andb_true_r, negb_true_iff in Hf.
    apply Hf, list_elem_of_In, list_elem_of_lookup. exists j. by rewrite lookup_take_lt.
  - intros (Hv & Ht & Hf). split; [done|]. intros w Hw. apply list_elem_of_In, list_elem_of_lookup in Hw as [j Ej]. apply lookup_take_Some in Ej as [Ej Hj].
    specialize (Hf j w Hj Ej). destruct (Z.eqb_spec (ord (ukey w) (ukey v)) 0) as [E|]; [by rewrite (Hf E)|by rewrite andb_false_r].
Qed.

Lemma rank_S i : rank (Datatypes.S i) = (rank i + if shown_at i then 1 else 0)%nat.
Proof.
  unfold rank, view_upto. rewrite seq_S, omap_app, length_app. f_equal. cbn. unfold shown_at. by destruct (vs !! i) as [v|]; [destruct (_ && _)|].
Qed.

Lemma rank_skip i j : (i <= j)%nat -> (forall m, (i <= m < j)%nat -> shown_at m = false) -> rank j = rank i.
Proof.
  intros Hij Hm. replace j with (i + (j - i))%nat by lia. assert (Hn : (j - i <= j - i)%nat) by lia. revert Hn. generalize (j - i)%nat at 1 3 as n. intros n.
  induction n as [|n IH]; intros Hn; [by rewrite Nat.add_0_r|]. rewrite Nat.add_succ_r, rank_S, Hm by lia. rewrite IH by lia. lia.
Qed.

Lemma rank_le i : (i <= length vs)%nat -> (rank i <= length view)%nat.
Proof.
  intros Hi'. unfold view. change (length (view_upto (length vs))) with (rank (length vs)). replace (length vs) with (i + (length vs - i))%nat by lia.
  generalize (length vs - i)%nat as n. induction n as [|n IH]; [rewrite Nat.add_0_r; lia|]. rewrite Nat.add_succ_r, rank_S. lia.
Qed.

Lemma view_lookup i v : vs !! i = Some v -> shown_at i = true -> view !! rank i = Some (ukey v, v_value v).
Proof.
  intros Ei Hs. pose proof (lookup_lt_Some _ _ _ Ei). unfold view, view_upto, rank. replace (length vs) with (i + Datatypes.S (length vs - Datatypes.S i))%nat by lia.
  rewrite seq_app, omap_app. fold (view_upto i). rewrite lookup_app_r by lia. rewrite Nat.sub_diag. cbn. by rewrite Hs, Ei.
Qed.

Lemma rank_lt i : shown_at i = true -> (rank i < length view)%nat.
Proof.
  intros Hs. destruct (vs !! i) as [v|] eqn:Ei; [|unfold shown_at in Hs; by rewrite Ei in Hs]. eapply lookup_lt_Some. by apply view_lookup.
Qed.

(** *** The entry of a position *)

Lemma entry_at (d : DBIter) i v : at_ (iter_ d) i -> vs !! i = Some v ->
  it_Valid I (iter_ d) = true /\ it_key I (iter_ d) = Ok (ikey v) /\ it_value I (iter_ d) = Ok (v_value v) /\
  ExtractUserKey (ikey v) = Ok (ukey v) /\ ParseKey I d = Ok (Some (v_key v), d).
Proof using Hi Hvalid.
  intros Ha Ei. pose proof (is_entry _ _ Ha) as He. rewrite list_lookup_fmap, Ei in He. cbn [fmap option_fmap option_map] in He. destruct He as (Hv & Hk & Hval).
  destruct (version_at i v Ei) as (Hkv & _). split_and!; [done..| |].
  - by destruct (ik_split_ok _ _ _ (append_split _ Hkv)).
  - unfold ParseKey. rewrite Hk. cbn [mbind result_bind]. by rewrite parse_append.
Qed.

Lemma valid_at s i : at_ s i -> it_Valid I s = bool_decide (i < length vs)%nat.
Proof using Hi.
  intros Ha. pose proof (is_entry _ _ Ha) as He. rewrite list_lookup_fmap in He. destruct (vs !! i) as [v|] eqn:Ei; cbn [fmap option_fmap option_map] in He.
  - destruct He as (-> & _). symmetry. by apply bool_decide_eq_true_2, (lookup_lt_Some _ _ _ Ei).
  - rewrite He. symmetry. apply bool_decide_eq_false_2. apply lookup_ge_None in Ei. lia.
Qed.

Lemma next_at s i : at_ s i -> (i < length vs)%nat -> exists s', it_Next I s = Ok s' /\ at_ s' (Datatypes.S i).
Proof using Hi. intros Ha Hlt. apply (is_next s i Ha). by rewrite length_map. Qed.

Lemma prev_at s i : at_ s i -> (i < length vs)%nat -> exists s', it_Prev I s = Ok s' /\ at_ s' (match i with O => length vs | Datatypes.S i => i end).
Proof using Hi. intros Ha Hlt. rewrite <- (length_map (fun v => (ikey v, v_value v)) vs). apply (is_prev s i Ha). by rewrite length_map. Qed.

Lemma ord_sym0 a b : ord a b = 0 -> ord b a = 0.
Proof using Hc. intros H. pose proof (co_sym ord a b). pose proof (co_sym ord b a). lia. Qed.

(** *** Moving forward *)

(** What [FindNextUserEntry] may stop at. *)
Definition target (skipping : bool) (skip : list Z) (j : nat) : Prop :=
  shown_at j = true /\ exists w, vs !! j = Some w /\ (skipping = true -> 0 < ord (ukey w) skip).

(** The keys that are not skipped have no visible version before [i]. *)
Definition fresh_from (i : nat) (skipping : bool) (skip : list Z) : Prop :=
  forall j w j' w', (i <= j)%nat -> vs !! j = Some w -> (skipping = true -> 0 < ord (ukey w) skip) ->
    (j' < i)%nat -> vs !! j' = Some w' -> ord (ukey w') (ukey w) = 0 -> vis w' = false.

Definition found_from (i : nat) (skipping : bool) (skip : list Z) (d d' : DBIter) : Prop :=
  status_ d' = status_ d /\ direction_ d' = direction_ d /\
  ((exists j, (i <= j)%nat /\ target skipping skip j /\ (forall m, (i <= m < j)%nat -> ~ target skipping skip m) /\ at_ (iter_ d') j /\ valid_ d' = true) \/
   ((forall m, (i <= m)%nat -> ~ target skipping skip m) /\ at_ (iter_ d') (length vs) /\ valid_ d' = false)).

(** An entry that is passed; [skip'] is what is skipped from then on. *)
Lemma found_step i b k b' k' d d1 d' : status_ d1 = status_ d -> direction_ d1 = direction_ d -> ~ target b k i ->
  (forall m, (i < m)%nat -> target b k m <-> target b' k' m) -> found_from (Datatypes.S i) b' k' d1 d' -> found_from i b k d d'.
Proof.
  intros Hs Hd Hi0 Heq (Hs' & Hd' & Hf). split; [congruence|]. split; [congruence|].
  assert (Hlow : forall m, (i <= m)%nat -> target b k m -> (Datatypes.S i <= m)%nat /\ target b' k' m).
  { intros m Hm Ht. destruct (decide (m = i)) as [->|]; [done|]. split; [lia|]. by apply Heq; [lia|]. }
  destruct Hf as [(j & Hj & Ht & Hno & Hat & Hv)|(Hno & Hat & Hv)].
  - left. exists j. split; [lia|]. split; [apply Heq; [lia|done]|]. split; [|done]. intros m Hm Htm. destruct (Hlow m ltac:(lia) Htm) as [Hm' Htm']. by apply (Hno m); [lia|].
  - right. split; [|done]. intros m Hm Htm. destruct (Hlow m Hm Htm) as [Hm' Htm']. by apply (Hno m).
Qed.

Lemma find_next n : forall i b d v, at_ (iter_ d) i -> vs !! i = Some v -> (length vs - i < n)%nat ->
  (b = true -> ok (saved_key_ d) /\ ord (saved_key_ d) (ukey v) <= 0) -> fresh_from i b (saved_key_ d) ->
  exists d', FindNextUserEntry I c snap n b d = Ok d' /\ found_from i b (saved_key_ d) d d'.
Proof using Hc Hi Hvalid Hsorted.
  induction n as [|n IH]; intros i b d v Ha Ei Hn Hsk Hfr; [lia|]. cbn [FindNextUserEntry]. pose proof (lookup_lt_Some _ _ _ Ei) as Hil.
  destruct (entry_at d i v Ha Ei) as (_ & _ & _ & _ & ->). cbn [mbind result_bind]. destruct (version_at i v Ei) as (Hkv & Hok & Htype).
  (* passing entry [i] with the state [d1] and [b'] *)
  assert (Hpass : forall b' d1, iter_ d1 = iter_ d -> status_ d1 = status_ d -> direction_ d1 = direction_ d -> ~ target b (saved_key_ d) i ->
    (forall m, (i < m)%nat -> target b (saved_key_ d) m <-> target b' (saved_key_ d1) m) ->
    (b' = true -> ok (saved_key_ d1) /\ ord (saved_key_ d1) (ukey v) <= 0) -> fresh_from (Datatypes.S i) b' (saved_key_ d1) ->
    exists d', (s ← it_Next I (iter_ d1); let d2 := set_iter s d1 in
      if it_Valid I s then FindNextUserEntry I c snap n b' d2 else Ok (set_valid false (SaveKey [] d2))) = Ok d' /\ found_from i b (saved_key_ d) d d').
  { intros b' d1 Hit Hst Hdir Hno Heq Hsk' Hfr'. rewrite Hit. destruct (next_at _ i Ha Hil) as (s & -> & Hs). cbn [mbind result_bind]. rewrite (valid_at s _ Hs).
    destruct (vs !! Datatypes.S i) as [v'|] eqn:Ei'.
    - pose proof (lookup_lt_Some _ _ _ Ei'). rewrite bool_decide_eq_true_2 by done.
      destruct (IH (Datatypes.S i) b' (set_iter s d1) v') as (d' & E & Hd'); [done|done|lia| |done|].
      { intros Hb. destruct (Hsk' Hb) as [H1 H2]. split; [done|]. pose proof (ord_le i (Datatypes.S i) v v' Ei Ei' ltac:(lia)).
        destruct (Z.eq_dec (ord (saved_key_ d1) (ukey v)) 0) as [E0|]; [|pose proof (co_trans ord (saved_key_ d1) (ukey v) (ukey v')); cbn; lia].
        destruct (Z.eq_dec (ord (ukey v) (ukey v')) 0) as [E1|]; [cbn; rewrite (co_eq_trans ord _ (ukey v) _); lia|].
        pose proof (co_le_lt ord (saved_key_ d1) (ukey v) (ukey v')). cbn. lia. }
      exists d'. split; [done|]. by eapply found_step.
    - apply lookup_ge_None in Ei' as Hge. rewrite bool_decide_eq_false_2 by lia. eexists. split; [done|]. eapply (found_step i b _ b' (saved_key_ d1)); [done|done|done|done|].
      split; [done|]. split; [done|]. right. cbn. split; [|split; [|done]].
      + intros m Hm (_ & w & Ew & _). apply lookup_lt_Some in Ew. lia.
      + by replace (length vs) with (Datatypes.S i) by lia. }
  cbn [seen]. fold (vis v). destruct (vis v) eqn:Evis.
  2: { cbn [mbind result_bind]. apply Hpass; try done.
    - intros [Hs _]. apply (shown_spec i v Ei) in Hs as [Hv _]. congruence.
    - intros j w j' w' Hj Ew Hnh Hj' Ew' Ho. destruct (decide (j' = i)) as [->|]; [rewrite Ei in Ew'; by injection Ew' as <-|]. eapply (Hfr j w j' w'); [lia|done|done|lia|done|done]. }
  destruct Htype as [Ht|Ht]; rewrite Ht; cbn [Z.eqb kTypeDeletion kTypeValue mbind result_bind].
  - apply Hpass; cbn [iter_ status_ direction_ saved_key_ SaveKey]; try done.
    + intros [Hs _]. apply (shown_spec i v Ei) in Hs as (_ & Hty & _). done.
    + intros m Hm. split; intros (Hs & w & Ew & Hnh); (split; [done|]; exists w; split; [done|]).
      * intros _. pose proof (ord_le i m v w Ei Ew ltac:(lia)) as Hle. apply (co_sym ord). destruct (Z.eq_dec (ord (ukey v) (ukey w)) 0) as [E0|]; [|lia].
        pose proof (proj1 (shown_spec m w Ew) Hs) as (_ & _ & Hold). rewrite (Hold i v Hm Ei E0) in Evis. done.
      * intros Hb. specialize (Hnh eq_refl). destruct (Hsk Hb) as [_ Hle]. apply (co_sym ord). apply (co_le_lt ord _ (ukey v)); [done|]. by apply (co_sym ord).
    + intros _. split; [done|]. rewrite (co_refl ord). lia.
    + intros j w j' w' Hj Ew Hnh Hj' Ew' Ho. specialize (Hnh eq_refl). destruct (decide (j' = i)) as [->|Hne].
      * rewrite Ei in Ew'. injection Ew' as <-. apply ord_sym0 in Ho. lia.
      * pose proof (ord_le j' i w' v Ew' Ei ltac:(lia)) as Hle. apply ord_sym0 in Ho. apply (co_sym ord) in Hnh. pose proof (co_le_lt ord (ukey w') (ukey v) (ukey w) Hle Hnh) as Hx. pose proof (ord_sym0 _ _ Ho). lia.
  - assert (Hhid : exists r : bool, (if b then x ← Compare c (ukey v) (saved_key_ d); Ok (x <=? 0) else Ok false) = Ok r /\ (r = true <-> (b = true /\ ord (ukey v) (saved_key_ d) <= 0))).
    { destruct b; [|exists false; split; [done|]; split; [done|by intros [? _]]]. destruct (Hsk eq_refl) as [Hoks _]. rewrite (cs_compare (ord := ord)) by done. eexists. split; [done|]. rewrite Z.leb_le. tauto. }
    destruct Hhid as (r & -> & Hr). cbn [mbind result_bind]. destruct r; cbn [negb].
    + destruct Hr as [Hr _]. destruct (Hr eq_refl) as [Hb Hle]. apply Hpass; try done.
      * intros [_ (w & Ew & Hnh)]. rewrite Ei in Ew. injection Ew as <-. specialize (Hnh Hb). lia.
      * intros j w j' w' Hj Ew Hnh Hj' Ew' Ho. destruct (decide (j' = i)) as [->|]; [|eapply (Hfr j w j' w'); [lia|done|done|lia|done|done]].
        rewrite Ei in Ew'. injection Ew' as <-. specialize (Hnh Hb). exfalso. apply ord_sym0 in Ho.
        destruct (Z.eq_dec (ord (ukey v) (saved_key_ d)) 0) as [E0|]; [pose proof (co_eq_trans ord (ukey w) (ukey v) (saved_key_ d) Ho E0); lia|].
        pose proof (co_le_lt ord (ukey w) (ukey v) (saved_key_ d)). lia.
    + eexists. split; [done|]. split; [done|]. split; [done|]. left. exists i. split; [lia|]. cbn. split; [|split; [intros; lia|done]].
      assert (Hnh : b = true -> 0 < ord (ukey v) (saved_key_ d)). { intros Hb. destruct (Z.le_gt_cases (ord (ukey v) (saved_key_ d)) 0) as [Hle|]; [|lia]. destruct Hr as [_ Hr]. specialize (Hr (conj Hb Hle)). done. }
      split; [|by exists v]. apply (shown_spec i v Ei). split; [done|]. split; [by rewrite Ht|]. intros j w Hj Ew Ho. by eapply (Hfr i v j w).
Qed.

(** *** Moving backward *)

(** The iterator stands at a visible version of a smaller key, behind which only invisible
    versions come before position [j], or there is no visible version before [j]. *)
Definition behind (s : S) (j : nat) (w : version) : Prop :=
  (exists q v, at_ s q /\ (q < j)%nat /\ vs !! q = Some v /\ ord (ukey v) (ukey w) < 0 /\ forall m x, (q < m < j)%nat -> vs !! m = Some x -> vis x = false) \/
  (at_ s (length vs) /\ forall m x, (m < j)%nat -> vs !! m = Some x -> vis x = false).

(** The last shown version up to [start] is the one that is saved. *)
Definition found_back (start : nat) (vt : Z) (d : DBIter) : Prop :=
  (vt = kTypeDeletion /\ (forall m, (m <= start)%nat -> shown_at m = false) /\ ready (iter_ d)) \/
  (vt = kTypeValue /\ exists m w, (m <= start)%nat /\ vs !! m = Some w /\ shown_at m = true /\ saved_key_ d = ukey w /\ saved_value_ d = v_value w /\
     behind (iter_ d) m w /\ forall x, (m < x <= start)%nat -> shown_at x = false).

(** What the loop knows before entry [i] ([S i] counts the entries that are left). *)
Definition pending (left start : nat) (vt : Z) (d : DBIter) : Prop :=
  (vt = kTypeDeletion /\ forall m, (left <= m <= start)%nat -> shown_at m = false) \/
  (vt = kTypeValue /\ exists m w, (left <= m <= start)%nat /\ vs !! m = Some w /\ vis w = true /\ pk_type (v_key w) = kTypeValue /\
     saved_key_ d = ukey w /\ saved_value_ d = v_value w /\
     (forall j x, (left <= j < m)%nat -> vs !! j = Some x -> vis x = false) /\ forall x, (m < x <= start)%nat -> shown_at x = false).

Lemma pending_behind left start vt d : pending left start vt d ->
  (vt = kTypeValue -> forall m w, vs !! m = Some w -> (left <= m)%nat -> saved_key_ d = ukey w -> vis w = true -> (forall j x, (left <= j < m)%nat -> vs !! j = Some x -> vis x = false) -> behind (iter_ d) m w) ->
  (vt = kTypeValue -> forall m w j x, vs !! m = Some w -> saved_key_ d = ukey w -> (left <= m)%nat -> (j < left)%nat -> vs !! j = Some x -> ord (ukey x) (ukey w) = 0 -> vis x = false) ->
  (vt = kTypeDeletion -> forall m, (m < left)%nat -> shown_at m = false) -> ready (iter_ d) -> found_back start vt d.
Proof.
  intros Hp Hbeh Hold Hno Hr. destruct Hp as [[-> Hn]|(-> & m & w & Hm & Ew & Hv & Ht & Hk & Hval & Hnv & Hns)].
  - left. split; [done|]. split; [|done]. intros m Hm. destruct (decide (left <= m)%nat); [apply Hn; lia|apply Hno; [done|lia]].
  - right. split; [done|]. exists m, w. split; [lia|]. split; [done|]. split; [|split; [done|split; [done|split; [|done]]]].
    + apply (shown_spec m w Ew). split; [done|]. split; [by rewrite Ht|]. intros j x Hj Ex Ho. destruct (decide (left <= j)%nat); [apply (Hnv j x); [lia|done]|].
      apply (Hold eq_refl m w j x); [done|done|lia|lia|done|done].
    + apply (Hbeh eq_refl m w); [done|lia|done|done|done].
Qed.

Lemma find_prev n : forall i v vt d start, at_ (iter_ d) i -> vs !! i = Some v -> (i < n)%nat -> (i <= start)%nat -> pending (Datatypes.S i) start vt d ->
  exists vt' d', find_prev_loop I c snap n vt d = Ok (vt', d') /\ status_ d' = status_ d /\ direction_ d' = direction_ d /\ found_back start vt' d'.
Proof using Hc Hi Hvalid Hsorted.
  induction n as [|n IH]; intros i v vt d start Ha Ei Hn Hst Hp; [lia|]. cbn [find_prev_loop]. pose proof (lookup_lt_Some _ _ _ Ei) as Hil.
  destruct (entry_at d i v Ha Ei) as (_ & Hkey & Hval & Hex & ->). cbn [mbind result_bind]. destruct (version_at i v Ei) as (Hkv & Hok & Htype).
  assert (Hpass : forall vt' d1, iter_ d1 = iter_ d -> status_ d1 = status_ d -> direction_ d1 = direction_ d -> pending i start vt' d1 ->
    exists vt2 d', (s ← it_Prev I (iter_ d1); let d2 := set_iter s d1 in if it_Valid I s then find_prev_loop I c snap n vt' d2 else Ok (vt', d2)) = Ok (vt2, d') /\
      status_ d' = status_ d /\ direction_ d' = direction_ d /\ found_back start vt2 d').
  { intros vt' d1 Hit Hs1 Hd1 Hp1. rewrite Hit. destruct (prev_at _ i Ha Hil) as (s & -> & Hs). cbn [mbind result_bind]. rewrite (valid_at s _ Hs). destruct i as [|i].
    - rewrite bool_decide_eq_false_2 by lia. exists vt', (set_iter s d1). split; [done|]. split; [done|]. split; [done|].
      apply (pending_behind 0 start vt'); [done| | |intros; lia|by eapply is_ready].
      + intros _ m w Em _ Hk _ Hnv. right. split; [done|]. intros j x Hj. apply Hnv. lia.
      + intros; lia.
    - rewrite bool_decide_eq_true_2 by lia. destruct (lookup_lt_is_Some_2 vs i ltac:(lia)) as [v' Ei'].
      destruct (IH i v' vt' (set_iter s d1) start) as (vt2 & d' & E & H1 & H2 & H3); [done|done|lia|lia|done|]. exists vt2, d'. split; [done|]. cbn in H1, H2. split_and!; [congruence|congruence|done]. }
  cbn [seen]. fold (vis v). destruct (vis v) eqn:Evis; cycle 1.
  { cbn [mbind result_bind]. apply Hpass; [done..|]. assert (Hi' : shown_at i = false) by (unfold shown_at; by rewrite Ei, Evis).
    destruct Hp as [[-> Hno]|(-> & m & w & Hm & Ew & Hv & Ht & Hk & Hv' & Hnv & Hns)].
    - left. split; [done|]. intros m Hm. destruct (decide (m = i)) as [->|]; [done|apply Hno; lia].
    - right. split; [done|]. exists m, w. split_and!; [lia|lia|done..| |done]. intros j x Hj Ex. destruct (decide (j = i)) as [->|]; [rewrite Ei in Ex; by injection Ex as <-|apply (Hnv j x); [lia|done]]. }
  (* a visible entry that is taken *)
  assert (Htake : (forall m, (i < m <= start)%nat -> shown_at m = false) -> exists vt2 d', ('(stop, value_type, d0) ← (if pk_type (v_key v) =? kTypeDeletion then Ok (false, pk_type (v_key v), ClearSavedValue (SaveKey [] d))
      else raw_value ← it_value I (iter_ d); k ← it_key I (iter_ d); u ← ExtractUserKey k; Ok (false, pk_type (v_key v), save_value raw_value (SaveKey u d)));
      if stop : bool then Ok (value_type, d0) else s ← it_Prev I (iter_ d0); let d1 := set_iter s d0 in if it_Valid I s then find_prev_loop I c snap n value_type d1 else Ok (value_type, d1)) = Ok (vt2, d') /\
      status_ d' = status_ d /\ direction_ d' = direction_ d /\ found_back start vt2 d').
  { intros Hno. destruct Htype as [Ht|Ht]; rewrite Ht; cbn [Z.eqb kTypeDeletion kTypeValue mbind result_bind].
    - apply Hpass; [done..|]. left. split; [done|]. intros m Hm. destruct (decide (m = i)) as [->|]; [unfold shown_at; rewrite Ei, Ht; cbn; by rewrite andb_false_r|apply Hno; lia].
    - rewrite Hval, Hkey. cbn [mbind result_bind]. rewrite Hex. cbn [mbind result_bind]. apply Hpass; [done..|]. right. split; [done|]. exists i, v. split_and!; [lia|lia|done..|intros; lia|done]. }
  destruct Hp as [[-> Hno]|(-> & m & w & Hm & Ew & Hv & Ht & Hk & Hv' & Hnv & Hns)].
  - cbn [Z.eqb kTypeDeletion negb mbind result_bind]. apply Htake. intros m Hm. apply Hno. lia.
  - cbn [Z.eqb kTypeDeletion kTypeValue negb]. destruct (version_at m w Ew) as (_ & Hokw & _). rewrite Hk, (cs_compare (ord := ord)) by done. cbn [mbind result_bind].
    pose proof (ord_le i m v w Ei Ew ltac:(lia)) as Hle. destruct (Z.ltb_spec (ord (ukey v) (ukey w)) 0) as [Hlt|Hge].
    + exists kTypeValue, d. split; [done|]. split; [done|]. split; [done|]. right. split; [done|]. exists m, w. split; [lia|]. split; [done|]. split; [|split; [done|split; [done|split; [|done]]]].
      * apply (shown_spec m w Ew). split; [done|]. split; [by rewrite Ht|]. intros j x Hj Ex Ho. destruct (decide (i < j)%nat); [apply (Hnv j x); [lia|done]|].
        pose proof (ord_le j i x v Ex Ei ltac:(lia)). pose proof (co_le_lt ord (ukey x) (ukey v) (ukey w)). lia.
      * left. exists i, v. split_and!; [done|lia|done|done|]. intros j x Hj. apply Hnv. lia.
    + apply Htake. intros x Hx. destruct (decide (m < x)%nat); [apply Hns; lia|]. destruct (shown_at x) eqn:Esx; [|done]. exfalso.
      destruct (lookup_lt_is_Some_2 vs x) as [vx Ex]; [pose proof (lookup_lt_Some _ _ _ Ew); lia|]. pose proof (proj1 (shown_spec x vx Ex) Esx) as (Hvx & _ & Hold).
      destruct (decide (x = m)) as [->|]; [|rewrite (Hnv x vx ltac:(lia) Ex) in Hvx; done]. rewrite Ew in Ex. injection Ex as <-. rewrite (Hold i v ltac:(lia) Ei ltac:(lia)) in Evis. done.
Qed.

(** *** The operations *)

Definition before_view (p : nat) : nat := match p with O => length view | Datatypes.S p => p end.

Definition db_ready (d : DBIter) : Prop := status_ d = StOK /\ ready (iter_ d).

Definition db_at (d : DBIter) (p : nat) : Prop :=
  status_ d = StOK /\
  ((valid_ d = true /\ direction_ d = kForward /\ exists i, at_ (iter_ d) i /\ shown_at i = true /\ p = rank i) \/
   (valid_ d = true /\ direction_ d = kReverse /\ exists j w, vs !! j = Some w /\ shown_at j = true /\ p = rank j /\ saved_key_ d = ukey w /\ saved_value_ d = v_value w /\ behind (iter_ d) j w) \/
   (valid_ d = false /\ ready (iter_ d) /\ p = length view)).

Lemma db_at_ready d p : db_at d p -> db_ready d.
Proof using Hi.
  intros [Hs [(_ & _ & i & Ha & _)|[(_ & _ & j & w & _ & _ & _ & _ & _ & [(q & v & Ha & _)|[Ha _]])|(_ & Hr & _)]]]; (split; [done|]); first [by eapply is_ready|done].
Qed.

Lemma shown_lookup i : shown_at i = true -> exists v, vs !! i = Some v.
Proof. unfold shown_at. destruct (vs !! i) as [v|]; [by exists v|done]. Qed.

Lemma rank_mono i j : (i <= j)%nat -> (rank i <= rank j)%nat.
Proof. intros Hij. replace j with (i + (j - i))%nat by lia. generalize (j - i)%nat as n. induction n as [|n IH]; [by rewrite Nat.add_0_r|]. rewrite Nat.add_succ_r, rank_S. lia. Qed.

(** Every row of the view is a shown version. *)
Lemma view_inv m k v : view !! m = Some (k, v) -> exists i w, vs !! i = Some w /\ shown_at i = true /\ rank i = m /\ k = ukey w /\ v = v_value w.
Proof.
  intros Em. assert (Hgo : forall n, (n <= length vs)%nat -> (rank n <= m)%nat \/ exists i, (i < n)%nat /\ shown_at i = true /\ rank i = m).
  { induction n as [|n IH]; intros Hn; [left; apply Nat.le_0_l|]. destruct (IH ltac:(lia)) as [Hle|(i & Hi' & Hs & Hr)]; [|right; exists i; split; [lia|done]].
    rewrite rank_S. destruct (shown_at n) eqn:Es; [|left; lia]. destruct (decide (rank n = m)) as [<-|]; [right; exists n; split; [lia|done]|left; lia]. }
  destruct (Hgo (length vs) (le_n _)) as [Hle|(i & _ & Hs & Hr)].
  - apply lookup_lt_Some in Em. unfold rank in Hle. fold view in Hle. lia.
  - destruct (shown_lookup i Hs) as [w Ew]. exists i, w. split_and!; [done..| |]; rewrite <- Hr, (view_lookup i w Ew Hs) in Em; by injection Em.
Qed.

(** The result of a search forward that skips nothing. *)
Lemma found_view i skip (d d' : DBIter) : (i <= length vs)%nat -> status_ d = StOK -> direction_ d = kForward -> found_from i false skip d d' -> db_at d' (rank i).
Proof using Hi.
  intros Hil Hs Hd (Hs' & Hd' & [(j & Hj & [Hsh (w & Ew & _)] & Hno & Hat & Hv)|(Hno & Hat & Hv)]); (split; [congruence|]).
  - left. split; [done|]. split; [congruence|]. exists j. split; [done|]. split; [done|]. symmetry. apply rank_skip; [done|]. intros m Hm. destruct (shown_at m) eqn:Em; [|done].
    exfalso. destruct (shown_lookup m Em) as [x Ex]. apply (Hno m Hm). split; [done|]. by exists x.
  - right. right. split; [done|]. split; [by eapply is_ready|]. unfold view. fold (rank (length vs)). symmetry. apply rank_skip; [done|]. intros m Hm. destruct (shown_at m) eqn:Em; [|done].
    exfalso. destruct (shown_lookup m Em) as [x Ex]. apply (Hno m); [lia|]. split; [done|]. by exists x.
Qed.

(** Past the key of the shown version at [j], from a version of that key on. *)
Lemma found_after i j v w (d d' : DBIter) : vs !! i = Some v -> vs !! j = Some w -> (i <= j)%nat -> ord (ukey v) (ukey w) = 0 -> shown_at j = true ->
  status_ d = StOK -> direction_ d = kForward -> found_from i true (ukey v) d d' -> db_at d' (Datatypes.S (rank j)).
Proof using Hc Hi Hvalid Hsorted.
  intros Ei Ej Hij Heq Hsj Hs Hd (Hs' & Hd' & Hf).
  (* the targets are the shown versions behind [j] *)
  assert (Htgt : forall m, (i <= m)%nat -> target true (ukey v) m <-> (j < m)%nat /\ shown_at m = true).
  { intros m Hm. split.
    - intros [Hsm (x & Ex & Hx)]. specialize (Hx eq_refl). split; [|done]. destruct (decide (j < m)%nat); [done|]. exfalso.
      pose proof (ord_le m j x w Ex Ej ltac:(lia)) as Hle. pose proof (ord_sym0 _ _ Heq) as Hwv. apply (co_sym ord) in Hx as Hvx.
      pose proof (co_le_lt ord (ukey w) (ukey v) (ukey x) ltac:(lia) Hvx) as Hwx. apply (co_sym ord) in Hwx. lia.
    - intros [Hjm Hsm]. split; [done|]. destruct (shown_lookup m Hsm) as [x Ex]. exists x. split; [done|]. intros _. apply (co_sym ord).
      destruct (vs_order j m w x Ej Ex Hjm) as [Hlt|[E0 _]]; [apply (co_le_lt ord _ (ukey w)); [lia|done]|].
      apply (shown_spec m x Ex) in Hsm. destruct Hsm as (_ & _ & Hold). pose proof (proj1 (shown_spec j w Ej) Hsj) as (Hvw & _). rewrite (Hold j w Hjm Ej E0) in Hvw. done. }
  assert (Hr1 : rank (Datatypes.S j) = Datatypes.S (rank j)) by (rewrite rank_S, Hsj; lia). rewrite <- Hr1.
  pose proof (lookup_lt_Some _ _ _ Ej) as Hjl. split; [congruence|]. destruct Hf as [(m & Hm & Ht & Hno & Hat & Hv)|(Hno & Hat & Hv)].
  - apply Htgt in Ht as [Hjm Hsm]; [|done]. left. split; [done|]. split; [congruence|]. exists m. split; [done|]. split; [done|]. symmetry. apply rank_skip; [lia|].
    intros x Hx. destruct (shown_at x) eqn:Ex; [|done]. exfalso. apply (Hno x); [lia|]. apply Htgt; [lia|]. split; [lia|done].
  - right. right. split; [done|]. split; [by eapply is_ready|]. unfold view. fold (rank (length vs)). symmetry. apply rank_skip; [lia|]. intros x Hx.
    destruct (shown_at x) eqn:Ex; [|done]. exfalso. apply (Hno x); [lia|]. apply Htgt; [lia|]. split; [lia|done].
Qed.

Lemma seek_key_valid u : 0 <= snap <= kMaxSequenceNumber -> key_valid (mkParsed u snap kValueTypeForSeek).
Proof. split; [done|by right]. Qed.

(** Where an internal key is compared with the one that is sought. *)
Lemma seek_compare i v u : 0 <= snap <= kMaxSequenceNumber -> vs !! i = Some v ->
  (ik_ord ord (ikey v) (AppendInternalKey [] (mkParsed u snap kValueTypeForSeek)) < 0 <-> ord (ukey v) u < 0 \/ (ord (ukey v) u = 0 /\ vis v = false)).
Proof using Hc Hvalid.
  intros Hsnap Ei. destruct (version_at i v Ei) as (Hkv & _ & Ht). rewrite (ik_ord_append ord _ _ Hkv (seek_key_valid u Hsnap)). unfold vis. rewrite Z.leb_gt. cbn.
  unfold kValueTypeForSeek, kTypeDeletion, kTypeValue in *. lia.
Qed.

Lemma scan_back_ok n : forall i v w j (d : DBIter), at_ (iter_ d) i -> vs !! i = Some v -> vs !! j = Some w -> (i <= j)%nat -> ord (ukey v) (ukey w) = 0 -> saved_key_ d = ukey w -> (i < n)%nat ->
  exists b d', scan_back I c n d = Ok (b, d') /\ status_ d' = status_ d /\ ready (iter_ d') /\
    if b : bool then exists q, at_ (iter_ d') q /\ (q < i)%nat /\ forall m x, (q < m <= i)%nat -> vs !! m = Some x -> ord (ukey x) (ukey w) = 0
    else forall m x, (m <= i)%nat -> vs !! m = Some x -> ord (ukey x) (ukey w) = 0.
Proof using Hc Hi Hvalid Hsorted.
  induction n as [|n IH]; intros i v w j d Ha Ei Ej Hij Heq Hk Hn; [lia|]. cbn [scan_back]. destruct (prev_at _ i Ha ltac:(by eapply lookup_lt_Some)) as (s & -> & Hs). cbn [mbind result_bind].
  rewrite (valid_at _ _ Hs). destruct i as [|i].
  - rewrite bool_decide_eq_false_2 by (clear; lia). exists false, (set_iter s d). split; [done|]. split; [done|]. split; [by eapply is_ready|].
    intros [|m] x Hm Ex; [rewrite Ei in Ex; by injection Ex as <-|lia].
  - pose proof (lookup_lt_Some _ _ _ Ei). rewrite bool_decide_eq_true_2 by (clear -H; lia). destruct (lookup_lt_is_Some_2 vs i ltac:(clear -H; lia)) as [v' Ei'].
    destruct (entry_at (set_iter s d) i v' Hs Ei') as (_ & Hkey & _ & Hex & _). cbn [iter_ set_iter] in Hkey. rewrite Hkey. cbn [mbind result_bind]. rewrite Hex. cbn [mbind result_bind saved_key_ set_iter].
    rewrite Hk, (cs_compare (ord := ord)) by (by eapply version_at). cbn [mbind result_bind]. pose proof (ord_le i j v' w Ei' Ej ltac:(clear -Hij; lia)) as Hle.
    destruct (Z.ltb_spec (ord (ukey v') (ukey w)) 0) as [Hlt|Hge].
    + exists true, (set_iter s d). split; [done|]. split; [done|]. split; [by eapply is_ready|]. exists i. split; [done|]. split; [clear; lia|]. intros m x Hm Ex.
      replace m with (Datatypes.S i) in Ex by (clear -Hm; lia). rewrite Ei in Ex. by injection Ex as <-.
    + destruct (IH i v' w j (set_iter s d) Hs Ei' Ej) as (b & d' & E & Hst & Hr & Hb); [clear -Hij; lia|clear -Hle Hge; lia|done|clear -Hn; lia|]. exists b, d'. split; [done|]. split; [done|]. split; [done|].
      assert (Hlast : forall m x, (i < m <= Datatypes.S i)%nat -> vs !! m = Some x -> ord (ukey x) (ukey w) = 0).
      { intros m x Hm Ex. replace m with (Datatypes.S i) in Ex by (clear -Hm; lia). rewrite Ei in Ex. by injection Ex as <-. }
      destruct b.
      * destruct Hb as (q & Hq & Hqi & Hall). exists q. split; [done|]. split; [clear -Hqi; lia|]. intros m x Hm Ex. destruct (decide (m <= i)%nat); [apply (Hall m x); [clear -Hm l; lia|done]|]. apply (Hlast m x); [clear -Hm n0; lia|done].
      * intros m x Hm Ex. destruct (decide (m <= i)%nat); [by apply (Hb m x)|]. apply (Hlast m x); [clear -Hm n0; lia|done].
Qed.

(** *** The view and the newest versions *)

Lemma vs_tag i j v w : vs !! i = Some v -> vs !! j = Some w -> (i < j)%nat -> ord (ukey v) (ukey w) = 0 -> v_tag w < v_tag v.
Proof using Hc Hvalid Hsorted.
  intros Ei Ej Hij Ho. pose proof (vs_lt i j v w Ei Ej Hij) as Hlt.
  destruct (version_at i v Ei) as (Hv & _). destruct (version_at j w Ej) as (Hw & _). apply (ik_ord_append ord) in Hlt; [|done..].
  unfold v_tag. pose proof (valid_type _ Hv). pose proof (valid_type _ Hw). rewrite !pack_value by (done || apply Hv || apply Hw). lia.
Qed.

Lemma shown_newest i v : vs !! i = Some v -> shown_at i = true <-> newest ord (ukey v) snap vs = Some v /\ pk_type (v_key v) = kTypeValue.
Proof using Hc Hvalid Hsorted.
  intros Ei. rewrite (shown_spec i v Ei). pose proof (newest_spec ord (ukey v) snap vs) as Hn. destruct (version_at i v Ei) as (_ & _ & Ht).
  assert (Hvis : forall j w, vs !! j = Some w -> visible ord (ukey v) snap w = true <-> ord (ukey w) (ukey v) = 0 /\ vis w = true).
  { intros j w _. unfold visible. rewrite andb_true_iff, Z.eqb_eq. done. }
  split.
  - intros (Hv & Htv & Hold). split; [|destruct Ht; [done|done]]. assert (Hvv : visible ord (ukey v) snap v = true) by (apply (Hvis i v Ei); split; [apply (co_refl ord)|done]).
    destruct (newest ord (ukey v) snap vs) as [b|]; cbn in Hn; [|by rewrite (Hn v) in Hvv by (by eapply list_elem_of_lookup_2)]. destruct Hn as (Hb & Hbv & Hmax). f_equal.
    specialize (Hmax v ltac:(by eapply list_elem_of_lookup_2) Hvv). apply list_elem_of_lookup in Hb as [j Ej]. apply (Hvis j b Ej) in Hbv as [Ho Hvb].
    destruct (lt_eq_lt_dec i j) as [[Hij| ->]|Hji]; [|congruence|rewrite (Hold j b Hji Ej Ho) in Hvb; done].
    pose proof (vs_tag i j v b Ei Ej Hij (ord_sym0 _ _ Ho)). lia.
  - intros [En Htv]. rewrite En in Hn. cbn in Hn. destruct Hn as (_ & Hvv & Hmax). apply (Hvis i v Ei) in Hvv as [_ Hv]. split; [done|]. split; [by rewrite Htv|].
    intros j w Hj Ew Ho. destruct (vis w) eqn:Evw; [|done]. specialize (Hmax w ltac:(by eapply list_elem_of_lookup_2) ltac:(by apply (Hvis j w Ew))).
    pose proof (vs_tag j i w v Ew Ei Hj Ho). lia.
Qed.

Lemma view_newest k v : (k, v) ∈ view <-> exists w, newest ord k snap vs = Some w /\ pk_type (v_key w) = kTypeValue /\ k = ukey w /\ v = v_value w.
Proof using Hc Hvalid Hsorted.
  rewrite list_elem_of_lookup. split.
  - intros [m Em]. destruct (view_inv m k v Em) as (i & w & Ew & Hs & _ & -> & ->). apply (shown_newest i w Ew) in Hs as [Hn Ht]. by exists w.
  - intros (w & Hn & Ht & -> & ->). pose proof (newest_spec ord (ukey w) snap vs) as Hns. rewrite Hn in Hns. destruct Hns as (Hw & _). apply list_elem_of_lookup in Hw as [i Ei].
    exists (rank i). apply (view_lookup i w Ei). by apply (shown_newest i w Ei).
Qed.

Lemma view_sorted i j k v k' v' : view !! i = Some (k, v) -> view !! j = Some (k', v') -> (i < j)%nat -> ord k k' < 0.
Proof using Hc Hvalid Hsorted.
  intros Ei Ej Hij. destruct (view_inv i k v Ei) as (a & x & Ea & Hsa & Hra & -> & ->). destruct (view_inv j k' v' Ej) as (b & y & Eb & Hsb & Hrb & -> & ->).
  assert (Hab : (a < b)%nat). { destruct (decide (a < b)%nat); [done|]. pose proof (rank_mono b a ltac:(lia)). lia. }
  destruct (vs_order a b x y Ea Eb Hab) as [|[Ho _]]; [done|]. pose proof (proj1 (shown_spec b y Eb) Hsb) as (_ & _ & Hold). pose proof (proj1 (shown_spec a x Ea) Hsa) as (Hvx & _).
  rewrite (Hold a x Hab Ea Ho) in Hvx. done.
Qed.

Lemma db_entry d p : db_at d p ->
  match view !! p with
  | Some (k, v) => valid_ d = true /\ DI_key I d = Ok k /\ DI_value I d = Ok v
  | None => valid_ d = false
  end.
Proof using Hi Hvalid.
  intros [_ [(Hv & Hd & i & Ha & Hsi & ->)|[(Hv & Hd & j & w & Ej & Hsj & -> & Hk & Hval & _)|(Hv & _ & ->)]]].
  - destruct (shown_lookup i Hsi) as [v Ei]. rewrite (view_lookup i v Ei Hsi). split; [done|]. unfold DI_key, DI_value. rewrite Hd. destruct (entry_at d i v Ha Ei) as (_ & -> & -> & Hex & _). by cbn.
  - rewrite (view_lookup j w Ej Hsj). split; [done|]. unfold DI_key, DI_value. rewrite Hd. split; congruence.
  - by rewrite lookup_ge_None_2 by lia.
Qed.

(** *** With enough fuel *)

Context (fuel : nat) (Hfuel : (length vs < fuel)%nat).

(** [FindPrevUserEntry] from entry [i], or from nowhere. *)
Lemma FindPrev_ok d i : status_ d = StOK -> direction_ d = kReverse -> at_ (iter_ d) i -> (i < length vs)%nat ->
  exists d', FindPrevUserEntry I c snap fuel d = Ok d' /\ db_at d' (before_view (rank (Datatypes.S i))).
Proof using Hc Hi Hvalid Hsorted Hfuel.
  intros Hs Hd Ha Hil. unfold FindPrevUserEntry. rewrite (valid_at _ _ Ha), bool_decide_eq_true_2 by done. destruct (lookup_lt_is_Some_2 vs i Hil) as [v Ei].
  destruct (find_prev fuel i v kTypeDeletion d i Ha Ei) as (vt & d' & -> & Hs' & Hd' & Hf); [lia|lia|left; split; [done|]; intros; lia|]. cbn [mbind result_bind].
  destruct Hf as [(-> & Hno & Hr)|(-> & m & w & Hm & Ew & Hsm & Hk & Hval & Hb & Hns)]; cbn [Z.eqb kTypeDeletion kTypeValue]; (eexists; split; [done|]; split; [cbn; congruence|]).
  - right. right. cbn [valid_ iter_ direction_ saved_key_ saved_value_ set_direction ClearSavedValue save_value SaveKey set_valid set_iter]. split; [done|]. split; [done|]. rewrite (rank_skip 0 (Datatypes.S i)); [done|lia|]. intros m Hm. apply Hno. lia.
  - right. left. cbn [valid_ iter_ direction_ saved_key_ saved_value_ set_direction ClearSavedValue save_value SaveKey set_valid set_iter]. split; [done|]. split; [congruence|]. exists m, w. split_and!; [done..| |done|done|done].
    rewrite (rank_skip (Datatypes.S m) (Datatypes.S i)) by (lia || (intros x Hx; apply Hns; lia)). rewrite rank_S, Hsm, Nat.add_1_r. done.
Qed.

Lemma FindPrev_none d : status_ d = StOK -> at_ (iter_ d) (length vs) -> exists d', FindPrevUserEntry I c snap fuel d = Ok d' /\ db_at d' (length view).
Proof using Hi Hfuel.
  intros Hs Ha. unfold FindPrevUserEntry. rewrite (valid_at _ _ Ha), bool_decide_eq_false_2 by lia. cbn [mbind result_bind]. eexists. split; [done|].
  split; [done|]. right. right. cbn [valid_ iter_ direction_ saved_key_ saved_value_ set_direction ClearSavedValue save_value SaveKey set_valid set_iter]. split; [done|]. split; [by eapply is_ready|done].
Qed.

Lemma DI_first d : db_ready d -> exists d', DI_SeekToFirst I c snap fuel d = Ok d' /\ db_at d' 0.
Proof using Hc Hi Hvalid Hsorted Hfuel.
  intros [Hs Hr]. unfold DI_SeekToFirst. cbn [iter_ ClearSavedValue save_value set_direction]. destruct (is_first _ Hr) as (s & -> & Ha). cbn [mbind result_bind]. rewrite (valid_at s _ Ha).
  destruct (decide (0 < length vs)%nat) as [Hl|Hl].
  - rewrite bool_decide_eq_true_2 by done. destruct (lookup_lt_is_Some_2 vs 0 Hl) as [v Ei].
    match goal with |- context [FindNextUserEntry _ _ _ _ _ ?d1] => destruct (find_next fuel 0 false d1 v) as (d' & E & Hf) end; [done|done|lia|done|intros ? ? ? ? ? ? ? Hlt; lia|].
    exists d'. split; [done|]. apply (found_view 0 _ _ d') in Hf; [done|lia|done|done].
  - rewrite bool_decide_eq_false_2 by done. eexists. split; [done|]. split; [done|]. right. right. cbn [valid_ iter_ direction_ saved_key_ saved_value_ set_direction ClearSavedValue save_value SaveKey set_valid set_iter]. split; [done|]. split; [by eapply is_ready|].
    unfold view. by replace (length vs) with 0%nat by lia.
Qed.

Lemma DI_last d : db_ready d -> exists d', DI_SeekToLast I c snap fuel d = Ok d' /\ db_at d' (length view - 1).
Proof using Hc Hi Hvalid Hsorted Hfuel.
  intros [Hs Hr]. unfold DI_SeekToLast. cbn [iter_ ClearSavedValue save_value set_direction]. destruct (is_last _ Hr) as (s & -> & Ha). cbn [mbind result_bind]. rewrite length_map in Ha.
  destruct (decide (0 < length vs)%nat) as [Hl|Hl].
  - match goal with |- context [FindPrevUserEntry _ _ _ _ ?d1] => destruct (FindPrev_ok d1 (length vs - 1)) as (d' & E & Hd') end; [done|done|done|lia|].
    exists d'. split; [done|]. replace (Datatypes.S (length vs - 1)) with (length vs) in Hd' by lia. unfold before_view, view, rank in *. destruct (length (view_upto (length vs))) as [|n]; [done|].
    by replace (Datatypes.S n - 1)%nat with n by lia.
  - match goal with |- context [FindPrevUserEntry _ _ _ _ ?d1] => destruct (FindPrev_none d1) as (d' & E & Hd') end; [done|cbn; by replace (length vs) with (length vs - 1)%nat by lia|].
    exists d'. split; [done|]. assert (H0 : length view = 0%nat) by (unfold view; by replace (length vs) with 0%nat by lia). by rewrite H0 in *.
Qed.

Lemma DI_seek d u : 0 <= snap <= kMaxSequenceNumber -> db_ready d -> ok u -> exists d' p, DI_Seek I c snap fuel u d = Ok d' /\ db_at d' p /\ seeks ord view u p.
Proof using Hc Hi Hvalid Hsorted Hfuel.
  intros Hsnap [Hs Hr] Hu. unfold DI_Seek. set (key := AppendInternalKey [] (mkParsed u snap kValueTypeForSeek)). cbn [iter_ saved_key_ ClearSavedValue save_value set_direction SaveKey].
  destruct (is_seek (iter_ d) key Hr) as (s & t & -> & Ha & Ht & Hlow & Hge); [unfold ik_ok, key; by rewrite (append_split _ (seek_key_valid u Hsnap))|]. cbn [mbind result_bind]. rewrite length_map in Ht.
  assert (Hlow' : forall m v, (m < t)%nat -> vs !! m = Some v -> ord (ukey v) u < 0 \/ (ord (ukey v) u = 0 /\ vis v = false)).
  { intros m v Hm Em. apply (seek_compare m v u Hsnap Em). apply (Hlow m _ (v_value v) Hm). by rewrite list_lookup_fmap, Em. }
  assert (Hge' : forall m v, (t <= m)%nat -> vs !! m = Some v -> 0 <= ord (ukey v) u).
  { intros m v Hm Em. destruct (lookup_lt_is_Some_2 vs t) as [v0 E0]; [apply lookup_lt_Some in Em; lia|]. pose proof (ord_le t m v0 v E0 Em Hm) as Hle.
    specialize (Hge (ikey v0) (v_value v0) ltac:(by rewrite list_lookup_fmap, E0)). destruct (Z.le_gt_cases 0 (ord (ukey v) u)) as [|Hlt]; [done|].
    pose proof (co_le_lt ord (ukey v0) (ukey v) u Hle Hlt). pose proof (proj2 (seek_compare t v0 u Hsnap E0) ltac:(by left)). unfold key in Hge. lia. }
  assert (Hseek : seeks ord view u (rank t)).
  { split; [by apply rank_le|]. split.
    - intros m k v Hm Em. destruct (view_inv m k v Em) as (i & w & Ew & Hsi & Hri & -> & ->). destruct (decide (i < t)%nat) as [Hit|Hit].
      + destruct (Hlow' i w Hit Ew) as [|[_ Hv]]; [done|]. pose proof (proj1 (shown_spec i w Ew) Hsi) as (Hv' & _). congruence.
      + pose proof (rank_mono t i ltac:(lia)). lia.
    - intros k v Em. destruct (view_inv _ k v Em) as (i & w & Ew & Hsi & Hri & -> & ->). destruct (decide (i < t)%nat) as [Hit|Hit]; [|apply (Hge' i w); [lia|done]].
      pose proof (rank_mono (Datatypes.S i) t ltac:(lia)) as Hm. rewrite rank_S, Hsi in Hm. lia. }
  rewrite (valid_at s _ Ha). destruct (decide (t < length vs)%nat) as [Hl|Hl].
  - rewrite bool_decide_eq_true_2 by done. destruct (lookup_lt_is_Some_2 vs t Hl) as [v Ei].
    match goal with |- context [FindNextUserEntry _ _ _ _ _ ?d1] => destruct (find_next fuel t false d1 v) as (d' & E & Hf) end; [done|done|lia|done| |].
    { intros j w j' w' Hj Ew _ Hj' Ew' Ho. destruct (Hlow' j' w' Hj' Ew') as [Hlt|[_ ?]]; [|done]. exfalso. specialize (Hge' j w Hj Ew). apply ord_sym0 in Ho.
      pose proof (co_le_lt ord (ukey w) (ukey w') u ltac:(lia) Hlt). lia. }
    exists d', (rank t). split; [done|]. split; [|done]. apply (found_view t _ _ d') in Hf; [done|lia|done|done].
  - rewrite bool_decide_eq_false_2 by done. eexists _, (rank t). split; [done|]. split; [|done]. split; [done|]. right. right.
    cbn [valid_ iter_ direction_ set_valid set_iter]. split; [done|]. split; [by eapply is_ready|]. unfold view. by replace (length vs) with t by lia.
Qed.

(** [Next] from the version at [i] of the key of the shown version at [j]. *)
Lemma next_from i j v w (d : DBIter) : at_ (iter_ d) i -> vs !! i = Some v -> vs !! j = Some w -> (i <= j)%nat -> ord (ukey v) (ukey w) = 0 -> shown_at j = true ->
  status_ d = StOK -> direction_ d = kForward ->
  exists d', (k ← it_key I (iter_ d); u ← ExtractUserKey k; FindNextUserEntry I c snap fuel true (SaveKey u d)) = Ok d' /\ db_at d' (Datatypes.S (rank j)).
Proof using Hc Hi Hvalid Hsorted Hfuel.
  intros Ha Ei Ej Hij Heq Hsj Hs Hd. destruct (entry_at d i v Ha Ei) as (_ & -> & _ & Hex & _). cbn [mbind result_bind]. rewrite Hex. cbn [mbind result_bind].
  destruct (find_next fuel i true (SaveKey (ukey v) d) v) as (d' & E & Hf); [done|done|lia| | |].
  - intros _. cbn. split; [by eapply version_at|]. rewrite (co_refl ord). lia.
  - intros m x m' x' Hm Ex Hnh Hm' Ex' Ho. specialize (Hnh eq_refl). cbn in Hnh. exfalso. pose proof (ord_le m' i x' v Ex' Ei ltac:(lia)) as Hle.
    apply (co_sym ord) in Hnh. pose proof (co_le_lt ord _ _ _ Hle Hnh). lia.
  - exists d'. split; [done|]. cbn in Hf. by apply (found_after i j v w (SaveKey (ukey v) d)).
Qed.

(** No key has only versions that are too new. *)
Definition all_seen : Prop := forall v, v ∈ vs -> exists w, w ∈ vs /\ ord (ukey v) (ukey w) = 0 /\ vis w = true.

Lemma DI_next d p : db_at d p -> (p < length view)%nat -> direction_ d = kForward \/ all_seen -> exists d', DI_Next I c snap fuel d = Ok d' /\ db_at d' (Datatypes.S p).
Proof using Hc Hi Hvalid Hsorted Hfuel.
  intros [Hs Hst] Hp Hdir. unfold DI_Next. destruct Hst as [(Hv & Hd & i & Ha & Hsi & ->)|[(Hv & Hd & j & w & Ej & Hsj & -> & Hk & Hval & Hb)|(_ & _ & ->)]]; [| |lia].
  - rewrite Hd. destruct (shown_lookup i Hsi) as [v Ei]. apply (next_from i i v v); [done..|lia|apply (co_refl ord)|done|done|done].
  - rewrite Hd. destruct Hdir as [?|Hall]; [congruence|]. cbn [iter_ set_direction]. pose proof (lookup_lt_Some _ _ _ Ej) as Hjl.
    (* the version behind the iterator has the key that is shown *)
    assert (Hstep : exists s q v, (if it_Valid I (iter_ d) then it_Next I (iter_ d) else it_SeekToFirst I (iter_ d)) = Ok s /\ at_ s q /\ vs !! q = Some v /\ (q <= j)%nat /\
      (q = j \/ vis v = false) /\ forall m x, (q <= m < j)%nat -> vs !! m = Some x -> vis x = false).
    { destruct Hb as [(q & v & Ha & Hq & Eq & Hlt & Hnv)|[Ha Hnv]].
      - rewrite (valid_at _ _ Ha), bool_decide_eq_true_2 by (by eapply lookup_lt_Some). destruct (next_at _ q Ha) as (s & -> & Hs'); [by eapply lookup_lt_Some|].
        destruct (lookup_lt_is_Some_2 vs (Datatypes.S q) ltac:(lia)) as [v' Ev']. exists s, (Datatypes.S q), v'. split_and!; [done..| |]; [destruct (decide (Datatypes.S q = j)); [by left|right; eapply Hnv; [|done]; lia]|].
        intros m x Hm. apply Hnv. lia.
      - rewrite (valid_at _ _ Ha), bool_decide_eq_false_2 by lia. destruct (is_first (iter_ d)) as (s & -> & Hs'); [by eapply is_ready|].
        destruct (lookup_lt_is_Some_2 vs 0 ltac:(lia)) as [v' Ev']. exists s, 0%nat, v'. split_and!; [done|done|done|lia| |]; [destruct (decide (0%nat = j)); [by left|right; eapply Hnv; [|done]; lia]|].
        intros m x Hm. apply Hnv. lia. }
    destruct Hstep as (s & q & v & -> & Ha & Eq & Hqj & Hor & Hnv). cbn [mbind result_bind]. rewrite (valid_at _ _ Ha), bool_decide_eq_true_2 by (by eapply lookup_lt_Some).
    apply (next_from q j v w); [done..| |done|done|done]. destruct Hor as [->|Hv0]; [rewrite Ej in Eq; injection Eq as <-; apply (co_refl ord)|].
    destruct (Hall v ltac:(by eapply list_elem_of_lookup_2)) as (x & Hx & Ho & Hvx). apply list_elem_of_lookup in Hx as [m Em].
    destruct (decide (m < q)%nat) as [Hmq|Hmq].
    { destruct (vs_order m q x v Em Eq Hmq) as [Hlt|[_ Hle]]; [apply (co_sym ord) in Hlt; lia|]. unfold vis in *. apply Z.leb_le in Hvx. apply Z.leb_gt in Hv0. lia. }
    destruct (decide (m < j)%nat) as [Hmj|Hmj]; [rewrite (Hnv m x ltac:(lia) Em) in Hvx; done|].
    pose proof (ord_le q j v w Eq Ej Hqj) as H1. pose proof (ord_le j m w x Ej Em ltac:(lia)) as H2. destruct (Z.eq_dec (ord (ukey v) (ukey w)) 0) as [|Hne]; [done|].
    pose proof (co_trans ord (ukey v) (ukey w) (ukey x)). lia.
Qed.

Lemma DI_prev d p : db_at d p -> (p < length view)%nat -> exists d', DI_Prev I c snap fuel d = Ok d' /\ db_at d' (before_view p).
Proof using Hc Hi Hvalid Hsorted Hfuel.
  intros [Hs Hst] Hp. unfold DI_Prev. destruct Hst as [(Hv & Hd & i & Ha & Hsi & ->)|[(Hv & Hd & j & w & Ej & Hsj & -> & Hk & Hval & Hb)|(_ & _ & ->)]]; [| |lia]; rewrite Hd.
  - destruct (shown_lookup i Hsi) as [v Ei]. pose proof (lookup_lt_Some _ _ _ Ei) as Hil. destruct (entry_at d i v Ha Ei) as (_ & -> & _ & Hex & _). cbn [mbind result_bind]. rewrite Hex. cbn [mbind result_bind].
    destruct (scan_back_ok fuel i v v i (SaveKey (ukey v) d) Ha Ei Ei) as (b & d' & -> & Hst & Hr & Hb); [lia|apply (co_refl ord)|done|lia|]. cbn [mbind result_bind].
    (* versions of the same key before [i] are not shown *)
    assert (Hsame : forall m x, (m < i)%nat -> vs !! m = Some x -> ord (ukey x) (ukey v) = 0 -> shown_at m = false).
    { intros m x Hm Ex Ho. destruct (shown_at m) eqn:Es; [|done]. pose proof (proj1 (shown_spec i v Ei) Hsi) as (_ & _ & Hold). pose proof (proj1 (shown_spec m x Ex) Es) as (Hvx & _).
      rewrite (Hold m x Hm Ex Ho) in Hvx. done. }
    destruct b.
    + destruct Hb as (q & Hq & Hqi & Hall). destruct (FindPrev_ok (set_direction kReverse d') q) as (d2 & E & Hd2); [cbn in *; congruence|done|done|lia|]. exists d2. split; [done|].
      rewrite (rank_skip (Datatypes.S q) i); [done|lia|]. intros m Hm. destruct (lookup_lt_is_Some_2 vs m ltac:(lia)) as [x Ex]. apply (Hsame m x); [lia|done|]. apply (Hall m x); [lia|done].
    + eexists. split; [done|]. split; [cbn in *; congruence|]. right. right. cbn [valid_ iter_ ClearSavedValue save_value SaveKey set_valid]. split; [done|]. split; [done|].
      rewrite (rank_skip 0 i); [done|lia|]. intros m Hm. destruct (lookup_lt_is_Some_2 vs m ltac:(lia)) as [x Ex]. apply (Hsame m x); [lia|done|]. apply (Hb m x); [lia|done].
  - assert (Hnsh : forall m x, vs !! m = Some x -> vis x = false -> shown_at m = false). { intros m x Ex Hx. unfold shown_at. by rewrite Ex, Hx. }
    destruct Hb as [(q & v & Ha & Hq & Eq & _ & Hnv)|[Ha Hnv]].
    + destruct (FindPrev_ok d q Hs Hd Ha) as (d2 & E & Hd2); [by eapply lookup_lt_Some|]. exists d2. split; [done|].
      rewrite (rank_skip (Datatypes.S q) j); [done|lia|]. pose proof (lookup_lt_Some _ _ _ Ej). intros m Hm. destruct (lookup_lt_is_Some_2 vs m ltac:(lia)) as [x Ex]. apply (Hnsh m x Ex). apply (Hnv m x); [lia|done].
    + destruct (FindPrev_none d Hs Ha) as (d2 & E & Hd2). exists d2. split; [done|].
      rewrite (rank_skip 0 j); [done|lia|]. pose proof (lookup_lt_Some _ _ _ Ej). intros m Hm. destruct (lookup_lt_is_Some_2 vs m ltac:(lia)) as [x Ex]. apply (Hnsh m x Ex). apply (Hnv m x); [lia|done].
Qed.

Lemma db_status d : db_ready d -> it_status (DBIterator I c snap fuel) d = Ok StOK.
Proof using Hi. intros [Hs Hr]. cbn [it_status DBIterator]. rewrite Hs. by apply is_status. Qed.

(** When no key has only versions that are too new, the contract of iterators is kept in
    full. *)
Lemma DBIterator_spec : 0 <= snap <= kMaxSequenceNumber -> all_seen -> IteratorSpec (DBIterator I c snap fuel) ok ord view db_ready db_at.
Proof using Hc Hi Hvalid Hsorted Hfuel.
  intros Hsnap Hall. split.
  - apply db_at_ready.
  - apply db_status.
  - apply db_entry.
  - apply DI_first.
  - apply DI_last.
  - intros s u. by apply DI_seek.
  - intros s i Ha Hlt. apply DI_next; [done..|by right].
  - apply DI_prev.
Qed.

End proofs.

(** C15: Iterating over a snapshot.  Over any iterator of the versions in the order of
    internal keys, [DBIter] goes through the user keys in order, each once, with the value
    of the newest version that the snapshot sees, leaving out keys whose newest version is a
    deletion: [SeekToFirst], [SeekToLast] and [Seek] stand at the first row, at the last one
    and at the first one from the target on, [Prev] and [Next] move by one row; no call
    faults or loops.  [Next] after [Prev] or [SeekToLast] does so when no key has only
    versions that are newer than the snapshot. *)
Theorem db_iterator {S} (I : Iterator S) c ok ord snap vs ready at_ fuel :
  ComparatorSpec c ok ord -> 0 <= snap <= kMaxSequenceNumber ->
  Forall (fun v => key_valid (v_key v) /\ ok (pk_user_key (v_key v))) vs ->
  StronglySorted (fun v w => ik_ord ord (AppendInternalKey [] (v_key v)) (AppendInternalKey [] (v_key w)) < 0) vs ->
  IteratorSpec I (ik_ok ok) (ik_ord ord) (map (fun v => (AppendInternalKey [] (v_key v), v_value v)) vs) ready at_ -> (length vs < fuel)%nat ->
  let rows := view ord snap vs in
  (forall k v, (k, v) ∈ rows <-> exists w, newest ord k snap vs = Some w /\ pk_type (v_key w) = kTypeValue /\ k = pk_user_key (v_key w) /\ v = v_value w) /\
  (forall i j k v k' v', rows !! i = Some (k, v) -> rows !! j = Some (k', v') -> (i < j)%nat -> ord k k' < 0) /\
  exists (dready : DBIterState S -> Prop) (dat : DBIterState S -> nat -> Prop),
    (forall s, ready s -> dready (DBIter_new s)) /\
    (forall d p, dat d p -> dready d /\ it_status (DBIterator I c snap fuel) d = Ok StOK /\
       match rows !! p with
       | Some (k, v) => valid_ d = true /\ DI_key I d = Ok k /\ DI_value I d = Ok v
       | None => valid_ d = false
       end) /\
    (forall d, dready d ->
       (exists d', DI_SeekToFirst I c snap fuel d = Ok d' /\ dat d' 0%nat) /\
       (exists d', DI_SeekToLast I c snap fuel d = Ok d' /\ dat d' (length rows - 1)%nat) /\
       (forall u, ok u -> exists d' p, DI_Seek I c snap fuel u d = Ok d' /\ dat d' p /\ seeks ord rows u p)) /\
    (forall d p, dat d p -> (p < length rows)%nat ->
       (exists d', DI_Prev I c snap fuel d = Ok d' /\ dat d' (match p with O => length rows | Datatypes.S p => p end)) /\
       (direction_ d = kForward \/ all_seen ord snap vs -> exists d', DI_Next I c snap fuel d = Ok d' /\ dat d' (Datatypes.S p))).
Proof.
  intros Hc Hsnap Hvalid Hsorted Hi Hfuel. cbv zeta. split; [by apply (view_newest c ok)|]. split; [by apply (view_sorted c ok)|].
  exists (db_ready ready), (db_at ord snap vs ready at_). split; [by intros s Hs|]. split; [|split].
  - intros d p Hd. split; [by eapply db_at_ready|]. split; [by eapply db_status, db_at_ready|by apply (db_entry I ok ord snap vs Hvalid ready at_)].
  - intros d Hd. split; [by apply (DI_first I c ok)|]. split; [by apply (DI_last I c ok)|]. intros u Hu. by apply (DI_seek I c ok).
  - intros d p Hd Hp. split; [by apply (DI_prev I c ok)|]. intros Hdir. by apply (DI_next I c ok).
Qed.

(** Key [97] has only a version that is newer than the snapshot 4. *)
Definition sample_versions : list version :=
  [mkVersion (mkParsed [97] 5 1) [1]; mkVersion (mkParsed [98] 3 1) [2]; mkVersion (mkParsed [99] 4 0) []; mkVersion (mkParsed [99] 2 1) [3]; mkVersion (mkParsed [100] 1 1) [4]].

Definition sample_iterator : Iterator nat :=
  ListIterator (ik_ord Slice_compare) (map (fun v => (AppendInternalKey [] (v_key v), v_value v)) sample_versions).

Lemma db_iterator_witness :
  view Slice_compare 4 sample_versions = [([98], [2]); ([100], [4])] /\
  exists d, DI_SeekToFirst sample_iterator BytewiseComparator 4 6 (DBIter_new 0%nat) = Ok d /\ valid_ d = true /\
    DI_key sample_iterator d = Ok [98] /\ DI_value sample_iterator d = Ok [2].
Proof.
  split; [reflexivity|].
  destruct (db_iterator sample_iterator BytewiseComparator bytes Slice_compare 4 sample_versions (fun _ => True) eq 6) as (_ & _ & dready & dat & Hnew & Hat & Hpos & _).
  - apply _.
  - done.
  - repeat (apply Forall_cons_2; [split; [split; [done|first [by left|by right]]|repeat (apply Forall_cons_2; [done|]); apply Forall_nil_2]|]). apply Forall_nil_2.
  - repeat (apply SSorted_cons || apply SSorted_nil || apply Forall_cons_2 || apply Forall_nil_2); reflexivity.
  - apply ListIterator_spec. repeat (apply SSorted_cons || apply SSorted_nil || apply Forall_cons_2 || apply Forall_nil_2); reflexivity.
  - cbn. lia.
  - destruct (Hpos (DBIter_new 0%nat) (Hnew _ I)) as ((d & E & Hd) & _). exists d. split; [exact E|]. apply (Hat d 0%nat) in Hd as (_ & _ & Hrow). exact Hrow.
Defined.

(** [Next] after [Prev] gives the same row again: the entries for [98] are not the next ones
    behind the internal iterator. *)
Example next_after_prev_repeats :
  (d ← DI_SeekToLast sample_iterator BytewiseComparator 4 6 (DBIter_new 0%nat);
   d ← DI_Prev sample_iterator BytewiseComparator 4 6 d;
   k ← DI_key sample_iterator d;
   d ← DI_Next sample_iterator BytewiseComparator 4 6 d;
   k' ← DI_key sample_iterator d; Ok (k, k', valid_ d)) = Ok ([98], [98], true).
Proof. reflexivity. Qed.
