(* ===== verification/WriteBatch.v ===== *)
(** * Write batches

    db/write_batch.cc: a batch is a string, twelve bytes of header (sequence number
    and count) and the records of the updates.  [Iterate] hands the records to a
    handler, which is state passing here; [InsertInto] adds them to a memory table
    ([MemTable]).  Strings are the lists of their bytes. *)

From Stdlib Require Import Sorted.
From S2P Require Import Prelude Coding CRC32C TXMemStore LFSkipList LFSkipListSpec SkipListSeq InternalKey MemTable.

Definition kHeader : nat := 12.

Abbreviation WriteBatch := (list Z) (only parsing).

(** A 32-bit value as an [int]. *)
Definition int32 (z : Z) : Z := if u32 z <? 2 ^ 31 then u32 z else u32 z - 2 ^ 32.

Definition Clear : WriteBatch := replicate kHeader 0.

Definition Count (rep_ : WriteBatch) : result Z := n ← DecodeFixed32 (drop 8 rep_); Ok (int32 n).

(** Storing [bytes] in the middle of the string. *)
Definition store (rep_ : list Z) (at_ : nat) (bs : list Z) : result (list Z) :=
  if (at_ + length bs <=? length rep_)%nat then Ok (take at_ rep_ ++ bs ++ drop (at_ + length bs) rep_) else Fault OutOfBounds.

Definition SetCount (rep_ : WriteBatch) (n : Z) : result WriteBatch := store rep_ 8 (EncodeFixed32 (u32 n)).

Definition Sequence (rep_ : WriteBatch) : result Z := DecodeFixed64 rep_.

Definition SetSequence (rep_ : WriteBatch) (seq : Z) : result WriteBatch := store rep_ 0 (EncodeFixed64 seq).

(** [a + b] of [int]s. *)
Definition add_int (a b : Z) : result Z := if a + b <? 2 ^ 31 then Ok (a + b) else Fault Undefined.

Definition Put (key value : list Z) (rep_ : WriteBatch) : result WriteBatch :=
  n ← Count rep_;
  n ← add_int n 1;
  rep_ ← SetCount rep_ n;
  Ok (PutLengthPrefixedSlice (PutLengthPrefixedSlice (rep_ ++ [kTypeValue]) key) value).

Definition Delete (key : list Z) (rep_ : WriteBatch) : result WriteBatch :=
  n ← Count rep_;
  n ← add_int n 1;
  rep_ ← SetCount rep_ n;
  Ok (PutLengthPrefixedSlice (rep_ ++ [kTypeDeletion]) key).

Definition SetContents (contents : list Z) : WriteBatch := contents.

Definition Append (dst src : WriteBatch) : result WriteBatch :=
  n ← Count dst;
  n' ← Count src;
  n ← add_int n n';
  dst ← SetCount dst n;
  if (kHeader <=? length src)%nat then Ok (dst ++ drop kHeader src) else Fault OutOfBounds.

(** A handler: what [Put] and [Delete] do to its state. *)
Record Handler (S : Type) := mkHandler {
  h_Put : list Z -> list Z -> S -> result S;
  h_Delete : list Z -> S -> result S }.
Arguments h_Put {S}. Arguments h_Delete {S}.

Section iterate.
Context {S : Type} (handler : Handler S).

(** The loop; a record is at least one byte long. *)
Fixpoint Iterate_loop (fuel : nat) (input : list Z) (found : Z) (s : S) : result (S * (Z + message)) :=
  match input with
  | [] => Ok (s, inl found)
  | tag :: input =>
      match fuel with
      | O => Fault OutOfFuel
      | Datatypes.S fuel =>
          let found := found + 1 in
          if tag =? kTypeValue then
            match GetLengthPrefixedSlice input with
            | Some (key, input) =>
                match GetLengthPrefixedSlice input with
                | Some (value, input) => s ← h_Put handler key value s; Iterate_loop fuel input found s
                | None => Ok (s, inr BadPut)
                end
            | None => Ok (s, inr BadPut)
            end
          else if tag =? kTypeDeletion then
            match GetLengthPrefixedSlice input with
            | Some (key, input) => s ← h_Delete handler key s; Iterate_loop fuel input found s
            | None => Ok (s, inr BadDelete)
            end
          else Ok (s, inr UnknownTag)
      end
  end.

Definition Iterate (rep_ : WriteBatch) (s : S) : result (Status * S) :=
  if (length rep_ <? kHeader)%nat then Ok (StCorruption TooSmall, s)
  else
    let input := drop kHeader rep_ in
    '(s, r) ← Iterate_loop (length input) input 0 s;
    match r with
    | inr msg => Ok (StCorruption msg, s)
    | inl found =>
        n ← Count rep_;
        Ok (if negb (found =? n) then StCorruption WrongCount else StOK, s)
    end.

End iterate.

Section insert.
Context (user_comparator : Comparator) (alloc : gmap Z (Node (E := list Z)) -> addr) (junk : nat -> addr).

(** [sequence_] and [mem_]. *)
Definition MemTableInserter : Handler (Z * MemTable) :=
  mkHandler _
    (fun key value '(sequence_, mem_) =>
       mem_ ← Add user_comparator alloc junk sequence_ kTypeValue key value mem_; Ok (u64 (sequence_ + 1), mem_))
    (fun key '(sequence_, mem_) =>
       mem_ ← Add user_comparator alloc junk sequence_ kTypeDeletion key [] mem_; Ok (u64 (sequence_ + 1), mem_)).

Definition InsertInto (b : WriteBatch) (memtable : MemTable) : result (Status * MemTable) :=
  seq ← Sequence b;
  '(st, (_, mem)) ← Iterate MemTableInserter b (seq, memtable);
  Ok (st, mem).

End insert.

(** ** The updates of a batch *)

Inductive op := OPut (key value : list Z) | ODelete (key : list Z).

Definition op_ok (o : op) : Prop :=
  match o with
  | OPut k v => Z.of_nat (length k) + 8 < 2 ^ 32 /\ Z.of_nat (length v) < 2 ^ 32
  | ODelete k => Z.of_nat (length k) + 8 < 2 ^ 32
  end.

Definition record_bytes (o : op) : list Z :=
  match o with
  | OPut k v => kTypeValue :: PutLengthPrefixedSlice [] k ++ PutLengthPrefixedSlice [] v
  | ODelete k => kTypeDeletion :: PutLengthPrefixedSlice [] k
  end.

Definition header (seq : Z) (n : nat) : list Z := EncodeFixed64 seq ++ EncodeFixed32 (Z.of_nat n).

(** The string of a batch. *)
Definition batch (seq : Z) (ops : list op) : WriteBatch := header seq (length ops) ++ concat (map record_bytes ops).

Definition apply_op (o : op) (rep_ : WriteBatch) : result WriteBatch :=
  match o with OPut k v => Put k v rep_ | ODelete k => Delete k rep_ end.

Fixpoint apply_ops (ops : list op) (rep_ : WriteBatch) : result WriteBatch :=
  match ops with [] => Ok rep_ | o :: ops => rep_ ← apply_op o rep_; apply_ops ops rep_ end.

(** What a handler does with updates. *)
Definition handle {S} (handler : Handler S) (o : op) (s : S) : result S :=
  match o with OPut k v => h_Put handler k v s | ODelete k => h_Delete handler k s end.

Fixpoint handle_all {S} (handler : Handler S) (ops : list op) (s : S) : result S :=
  match ops with [] => Ok s | o :: ops => s ← handle handler o s; handle_all handler ops s end.

(** A handler that collects the updates. *)
Definition collect : Handler (list op) :=
  mkHandler _ (fun k v s => Ok (s ++ [OPut k v])) (fun k s => Ok (s ++ [ODelete k])).

(** ** Building batches *)

Lemma header_length seq n : length (header seq n) = kHeader.
Proof. unfold header, EncodeFixed64, EncodeFixed32. by rewrite length_app, !length_le_bytes. Qed.

Lemma header_parts seq n rest : take 8 (header seq n ++ rest) = EncodeFixed64 seq /\
  drop 8 (header seq n ++ rest) = EncodeFixed32 (Z.of_nat n) ++ rest /\ drop kHeader (header seq n ++ rest) = rest.
Proof.
  assert (H8 : length (EncodeFixed64 seq) = 8%nat) by apply length_le_bytes. split_and!.
  - unfold header. rewrite <- app_assoc, <- H8. apply take_app_length.
  - unfold header. rewrite <- app_assoc, <- H8. apply drop_app_length.
  - rewrite <- (header_length seq n). apply drop_app_length.
Qed.

Lemma int32_small n : 0 <= n < 2 ^ 31 -> int32 n = n.
Proof. intros Hn. unfold int32, u32. rewrite Z.mod_small by lia. by rewrite (proj2 (Z.ltb_lt _ _)) by lia. Qed.

Lemma Count_header seq n rest : Z.of_nat n < 2 ^ 31 -> Count (header seq n ++ rest) = Ok (Z.of_nat n).
Proof.
  intros Hn. unfold Count. destruct (header_parts seq n rest) as (_ & -> & _). unfold EncodeFixed32, DecodeFixed32.
  rewrite DecodeFixed_le by (change (256 ^ Z.of_nat 4) with (2 ^ 32); lia). cbn [mbind result_bind]. by rewrite int32_small by lia.
Qed.

Lemma SetCount_header seq n n' rest : Z.of_nat n' < 2 ^ 31 -> SetCount (header seq n ++ rest) (Z.of_nat n') = Ok (header seq n' ++ rest).
Proof.
  intros Hn. unfold SetCount, store, u32. rewrite Z.mod_small by lia. assert (H4 : length (EncodeFixed32 (Z.of_nat n')) = 4%nat) by apply length_le_bytes.
  rewrite H4, length_app, header_length. rewrite (proj2 (Nat.leb_le _ _)) by (unfold kHeader; lia). change (8 + 4)%nat with kHeader.
  destruct (header_parts seq n rest) as (-> & _ & ->). unfold header. by rewrite <- app_assoc.
Qed.

Lemma SetSequence_header seq seq' n rest : SetSequence (header seq n ++ rest) seq' = Ok (header seq' n ++ rest).
Proof.
  unfold SetSequence, store. assert (H8 : length (EncodeFixed64 seq') = 8%nat) by apply length_le_bytes.
  rewrite H8, length_app, header_length. rewrite (proj2 (Nat.leb_le _ _)) by (unfold kHeader; lia). change (0 + 8)%nat with 8%nat. rewrite take_0. cbn [app].
  destruct (header_parts seq n rest) as (_ & -> & _). unfold header. by rewrite <- !app_assoc.
Qed.

Lemma Sequence_header seq n rest : 0 <= seq < 2 ^ 64 -> Sequence (header seq n ++ rest) = Ok seq.
Proof. intros Hs. unfold Sequence, header. rewrite <- app_assoc. by apply (DecodeFixed_le 8). Qed.

Lemma put_slice dst s : PutLengthPrefixedSlice dst s = dst ++ PutLengthPrefixedSlice [] s.
Proof. unfold PutLengthPrefixedSlice, PutVarint32. cbn [app]. by rewrite <- app_assoc. Qed.

Lemma apply_op_batch o seq ops : Z.of_nat (length ops) + 1 < 2 ^ 31 -> apply_op o (batch seq ops) = Ok (batch seq (ops ++ [o])).
Proof.
  intros Hn. assert (Hrep : (n ← Count (batch seq ops); n ← add_int n 1; SetCount (batch seq ops) n) =
    Ok (header seq (length (ops ++ [o])) ++ concat (map record_bytes ops))).
  { unfold batch. rewrite Count_header by lia. cbn [mbind result_bind]. unfold add_int. rewrite (proj2 (Z.ltb_lt _ _)) by lia. cbn [mbind result_bind].
    rewrite length_app. cbn [length]. rewrite <- (SetCount_header seq (length ops) (length ops + 1)) by lia. do 2 f_equal. lia. }
  unfold batch at 2. rewrite map_app, concat_app. cbn [map concat]. rewrite app_nil_r.
  unfold mbind, result_bind in Hrep. destruct o as [k v|k]; cbn [apply_op]; unfold Put, Delete, mbind, result_bind;
    destruct (Count (batch seq ops)) as [n|]; try done; destruct (add_int n 1) as [n'|]; try done; rewrite Hrep; f_equal.
  - rewrite (put_slice (PutLengthPrefixedSlice _ k)), (put_slice (_ ++ [kTypeValue])). cbn [record_bytes]. by rewrite <- !app_assoc.
  - rewrite put_slice. cbn [record_bytes]. by rewrite <- !app_assoc.
Qed.

Lemma apply_ops_batch ops' seq ops : Z.of_nat (length ops) + Z.of_nat (length ops') < 2 ^ 31 ->
  apply_ops ops' (batch seq ops) = Ok (batch seq (ops ++ ops')).
Proof.
  revert ops. induction ops' as [|o ops' IH]; intros ops Hn; cbn [apply_ops]; [by rewrite app_nil_r|]. cbn [length] in Hn.
  rewrite apply_op_batch by lia. cbn [mbind result_bind]. rewrite IH by (rewrite length_app; cbn; lia). by rewrite <- app_assoc.
Qed.

Lemma Append_batch seq ops seq' ops' : Z.of_nat (length ops) + Z.of_nat (length ops') < 2 ^ 31 ->
  Append (batch seq ops) (batch seq' ops') = Ok (batch seq (ops ++ ops')).
Proof.
  intros Hn. unfold Append, batch at 1 2 3 4 5. rewrite !Count_header by lia. cbn [mbind result_bind]. unfold add_int.
  rewrite (proj2 (Z.ltb_lt _ _)) by lia. cbn [mbind result_bind]. rewrite <- Nat2Z.inj_add, SetCount_header by lia. cbn [mbind result_bind].
  rewrite length_app, header_length, (proj2 (Nat.leb_le _ _)) by lia. destruct (header_parts seq' (length ops') (concat (map record_bytes ops'))) as (_ & _ & ->).
  unfold batch. by rewrite map_app, concat_app, length_app, app_assoc.
Qed.

Lemma Sequence_batch seq ops : 0 <= seq < 2 ^ 64 -> Sequence (batch seq ops) = Ok seq.
Proof. apply Sequence_header. Qed.

Lemma Count_batch seq ops : Z.of_nat (length ops) < 2 ^ 31 -> Count (batch seq ops) = Ok (Z.of_nat (length ops)).
Proof. apply Count_header. Qed.

Lemma Clear_batch : Clear = batch 0 [].
Proof. reflexivity. Qed.

(** ** Iterating *)

Lemma GetVarint_loop_rest width last p shift res v rest : GetVarint_loop width last p shift res = Some (v, rest) -> (length rest < length p)%nat.
Proof.
  revert shift res. induction p as [|b p IH]; intros shift res; cbn; destruct (shift <=? last); try done.
  destruct (Z.land b 128 =? 0); [intros [= _ <-]; lia|]. intros ?%IH. lia.
Qed.

Lemma slice_rest input s rest : GetLengthPrefixedSlice input = Some (s, rest) -> (length rest < length input)%nat.
Proof.
  unfold GetLengthPrefixedSlice, GetVarint32, GetVarint32Ptr, GetVarint32PtrFallback. intros H.
  assert (Hv : forall v r, match input with
      | byte :: rest0 => if Z.land byte 128 =? 0 then Some (byte, rest0) else GetVarint_loop 32 28 input 0 0
      | [] => GetVarint_loop 32 28 input 0 0 end = Some (v, r) -> (length r < length input)%nat).
  { intros v r. destruct input as [|b p]; [by intros ?%GetVarint_loop_rest|].
    destruct (Z.land b 128 =? 0); [intros [= _ <-]; cbn; lia|by intros ?%GetVarint_loop_rest]. }
  destruct (match input with [] => _ | _ :: _ => _ end) as [[v r]|]; [|done]. specialize (Hv v r eq_refl).
  destruct (v <=? Z.of_nat (length r)); [|done]. injection H as _ <-. rewrite length_drop. lia.
Qed.

Section iterating.
Context {S : Type} (handler : Handler S).

Lemma Iterate_loop_one o rest fuel found s : op_ok o ->
  Iterate_loop handler (Datatypes.S fuel) (record_bytes o ++ rest) found s =
    (s ← handle handler o s; Iterate_loop handler fuel rest (found + 1) s).
Proof.
  destruct o as [k v|k]; intros Ho; cbn [record_bytes app Iterate_loop handle].
  - destruct Ho as [Hk Hv]. change (kTypeValue =? kTypeValue) with true. cbn iota.
    rewrite <- app_assoc, slice_read, slice_read by lia. done.
  - cbn in Ho. change (kTypeDeletion =? kTypeValue) with false. change (kTypeDeletion =? kTypeDeletion) with true. cbn iota.
    rewrite slice_read by lia. done.
Qed.

Lemma record_nonempty o : (1 <= length (record_bytes o))%nat.
Proof. destruct o; cbn; lia. Qed.

Lemma Iterate_loop_ops ops rest fuel found s : Forall op_ok ops -> (length (concat (map record_bytes ops) ++ rest) <= fuel)%nat ->
  exists fuel', (length rest <= fuel')%nat /\ Iterate_loop handler fuel (concat (map record_bytes ops) ++ rest) found s =
    (s ← handle_all handler ops s; Iterate_loop handler fuel' rest (found + Z.of_nat (length ops)) s).
Proof.
  intros Ho. revert fuel found s. induction Ho as [|o ops Hok Ho IH]; intros fuel found s Hf.
  - exists fuel. split; [done|]. cbn. by rewrite Z.add_0_r.
  - cbn [map concat] in *. rewrite <- app_assoc, length_app in Hf. pose proof (record_nonempty o). destruct fuel as [|fuel]; [lia|].
    rewrite <- app_assoc, Iterate_loop_one by done. cbn [handle_all length].
    destruct (handle handler o s) as [s1|] eqn:E1; cbn [mbind result_bind].
    + destruct (IH fuel (found + 1) s1) as (fuel' & Hf' & ->); [lia|]. exists fuel'. split; [done|].
      by replace (found + Z.of_nat (Datatypes.S (length ops))) with (found + 1 + Z.of_nat (length ops)) by lia.
    + by exists (length rest).
Qed.

(** A record that is cut off. *)
Lemma Iterate_loop_cut o n fuel found s : op_ok o -> (n < length (record_bytes o))%nat -> (n <= fuel)%nat ->
  exists r, Iterate_loop handler fuel (take n (record_bytes o)) found s = Ok (s, r) /\ match r with inl f => f = found | inr _ => True end.
Proof.
  intros Ho Hn Hf. destruct n as [|n]; [exists (inl found); by destruct fuel|]. destruct fuel as [|fuel]; [lia|].
  destruct o as [k v|k]; cbn [record_bytes take Iterate_loop length] in *.
  - destruct Ho as [Hk Hv]. change (kTypeValue =? kTypeValue) with true. cbn iota. rewrite length_app in Hn. rewrite take_app.
    destruct (le_lt_dec (length (PutLengthPrefixedSlice [] k)) n) as [Hle|Hlt].
    + rewrite take_ge, slice_read, slice_cut by lia. by eexists.
    + replace (n - length (PutLengthPrefixedSlice [] k))%nat with 0%nat by lia. rewrite take_0, app_nil_r, slice_cut by lia. by eexists.
  - cbn in Ho. change (kTypeDeletion =? kTypeValue) with false. change (kTypeDeletion =? kTypeDeletion) with true. cbn iota.
    rewrite slice_cut by lia. by eexists.
Qed.

Lemma Iterate_batch seq ops s s' : Forall op_ok ops -> Z.of_nat (length ops) < 2 ^ 31 -> handle_all handler ops s = Ok s' ->
  Iterate handler (batch seq ops) s = Ok (StOK, s').
Proof.
  intros Ho Hn Hs. unfold Iterate, batch. rewrite length_app, header_length, (proj2 (Nat.ltb_ge _ _)) by lia.
  destruct (header_parts seq (length ops) (concat (map record_bytes ops))) as (_ & _ & ->).
  destruct (Iterate_loop_ops ops [] (length (concat (map record_bytes ops))) 0 s Ho) as (fuel & _ & E1); [by rewrite app_nil_r|].
  rewrite app_nil_r in E1. rewrite E1, Hs. cbn [mbind result_bind]. replace (Iterate_loop handler fuel [] _ s') with (@Ok (S * (Z + message)) (s', inl (0 + Z.of_nat (length ops)))) by (by destruct fuel).
  cbn [mbind result_bind]. rewrite Count_header by done. cbn [mbind result_bind]. by rewrite Z.add_0_l, Z.eqb_refl.
Qed.

End iterating.

(** Cutting records off ends inside one of them. *)
Lemma concat_cut {A B} (f : A -> list B) (l : list A) n : (n < length (concat (map f l)))%nat ->
  exists l1 x l2 j, l = l1 ++ x :: l2 /\ (j < length (f x))%nat /\ take n (concat (map f l)) = concat (map f l1) ++ take j (f x).
Proof.
  revert n. induction l as [|a l IH]; intros n; cbn [map concat]; [cbn; lia|]. rewrite length_app, take_app. intros Hn.
  destruct (le_lt_dec (length (f a)) n) as [Hle|Hlt].
  - destruct (IH (n - length (f a))%nat) as (l1 & x & l2 & j & -> & Hj & ->); [lia|]. exists (a :: l1), x, l2, j.
    split_and!; [done..|]. rewrite take_ge by lia. cbn [map concat]. by rewrite app_assoc.
  - exists [], a, l, n. split_and!; [done..|]. replace (n - length (f a))%nat with 0%nat by lia. by rewrite take_0, app_nil_r.
Qed.

Lemma handle_collect ops s : handle_all collect ops s = Ok (s ++ ops).
Proof.
  revert s. induction ops as [|o ops IH]; intros s; cbn [handle_all]; [by rewrite app_nil_r|].
  destruct o; cbn [handle collect h_Put h_Delete mbind result_bind]; rewrite IH; by rewrite <- app_assoc.
Qed.

Lemma Iterate_cut {S} (handler : Handler S) seq ops s n :
  Forall op_ok ops -> Z.of_nat (length ops) < 2 ^ 31 -> (n < length (batch seq ops))%nat ->
  exists msg ops' ops'', ops = ops' ++ ops'' /\
    Iterate handler (take n (batch seq ops)) s = (s ← handle_all handler ops' s; Ok (StCorruption msg, s)).
Proof.
  intros Ho Hn Hlen. destruct (le_lt_dec kHeader n) as [Hk|Hk].
  2:{ exists TooSmall, [], ops. split; [done|]. unfold Iterate. by rewrite length_take, (proj2 (Nat.ltb_lt _ _)) by lia. }
  unfold batch in *. rewrite length_app, header_length in Hlen.
  destruct (concat_cut record_bytes ops (n - kHeader)) as (ops1 & o & ops2 & j & -> & Hj & Ecut); [lia|].
  apply Forall_app in Ho as [Ho1 Ho2]. inversion_clear Ho2 as [|? ? Hoo _].
  rewrite take_app, (take_ge (header _ _)), header_length, Ecut by (rewrite header_length; lia). unfold Iterate.
  rewrite length_app, header_length, (proj2 (Nat.ltb_ge _ _)) by lia.
  destruct (header_parts seq (length (ops1 ++ o :: ops2)) (concat (map record_bytes ops1) ++ take j (record_bytes o))) as (_ & _ & ->).
  set (data := concat (map record_bytes ops1) ++ take j (record_bytes o)).
  destruct (Iterate_loop_ops handler ops1 (take j (record_bytes o)) (length data) 0 s Ho1) as (fuel & Hf & E1); [done|]. fold data in E1. rewrite E1.
  rewrite length_take in Hf. destruct (handle_all handler ops1 s) as [s1|f] eqn:E2; cbn [mbind result_bind].
  - destruct (Iterate_loop_cut handler o j fuel (0 + Z.of_nat (length ops1)) s1 Hoo Hj) as (r & -> & Hr); [lia|]. cbn [mbind result_bind].
    destruct r as [found|msg].
    + exists WrongCount, ops1, (o :: ops2). split; [done|]. rewrite E2. cbn [mbind result_bind]. rewrite Count_header by done. cbn [mbind result_bind].
      rewrite length_app in *. cbn [length] in *. rewrite (proj2 (Z.eqb_neq _ _)) by lia. done.
    + exists msg, ops1, (o :: ops2). split; [done|]. by rewrite E2.
  - exists TooSmall, ops1, (o :: ops2). split; [done|]. by rewrite E2.
Qed.

Lemma collect_total fuel input found s : (length input <= fuel)%nat ->
  exists s' r, Iterate_loop collect fuel input found s = Ok (s', r) /\
    match r with inl f => f + Z.of_nat (length s) = found + Z.of_nat (length s') | inr _ => True end.
Proof.
  revert input found s. induction fuel as [|fuel IH]; intros input found s Hf; (destruct input as [|tag input]; [by exists s, (inl found)|]); cbn [length] in Hf; [lia|].
  cbn [Iterate_loop]. assert (Hgo : forall input' o, (length input' < length input)%nat ->
    exists s' r, Iterate_loop collect fuel input' (found + 1) (s ++ [o]) = Ok (s', r) /\
      match r with inl f => f + Z.of_nat (length s) = found + Z.of_nat (length s') | inr _ => True end).
  { intros input' o Hlen. destruct (IH input' (found + 1) (s ++ [o])) as (s' & r & E1 & Hr); [lia|]. exists s', r. split; [done|].
    destruct r; [|done]. rewrite length_app in Hr. cbn in Hr. lia. }
  destruct (tag =? kTypeValue).
  - destruct (GetLengthPrefixedSlice input) as [[k i1]|] eqn:E1; [|by eexists _, _].
    destruct (GetLengthPrefixedSlice i1) as [[v i2]|] eqn:E2; [|by eexists _, _]. apply slice_rest in E1, E2.
    cbn [collect h_Put mbind result_bind]. apply Hgo. lia.
  - destruct (tag =? kTypeDeletion); [|by eexists _, _].
    destruct (GetLengthPrefixedSlice input) as [[k i1]|] eqn:E1; [|by eexists _, _]. apply slice_rest in E1.
    cbn [collect h_Delete mbind result_bind]. apply Hgo. lia.
Qed.

(** Batches round trip.  [Put], [Delete], [Append] and [SetSequence] of a new
    batch record the updates in order, with their number; [Iterate] hands exactly
    these to the handler and reports OK.  Cut off anywhere, a batch is reported as
    corrupt, after the handler got a prefix of the updates; and on any bytes whatever
    [Iterate] returns, with OK only if the count in the header is the number of
    records. *)
Theorem write_batch_roundtrip :
  (forall seq ops ops', Z.of_nat (length ops) + Z.of_nat (length ops') < 2 ^ 31 -> 0 <= seq < 2 ^ 64 ->
     exists b b' c, (rep_ ← apply_ops ops Clear; SetSequence rep_ seq) = Ok b /\ apply_ops ops' Clear = Ok b' /\
       Append b b' = Ok c /\ Sequence c = Ok seq /\ Count c = Ok (Z.of_nat (length (ops ++ ops'))) /\
       (Forall op_ok (ops ++ ops') -> Iterate collect c [] = Ok (StOK, ops ++ ops') /\
          forall n, (n < length c)%nat -> exists msg ops1 ops2, ops ++ ops' = ops1 ++ ops2 /\
            Iterate collect (take n c) [] = Ok (StCorruption msg, ops1))) /\
  (forall rep_, exists st ops, Iterate collect rep_ [] = Ok (st, ops) /\ (st = StOK -> Count rep_ = Ok (Z.of_nat (length ops)))).
Proof.
  split.
  - intros seq ops ops' Hn Hs. exists (batch seq ops), (batch 0 ops'), (batch seq (ops ++ ops')). rewrite Clear_batch.
    split; [rewrite apply_ops_batch by (cbn; lia); cbn [mbind result_bind app]; apply SetSequence_header|].
    split; [apply apply_ops_batch; cbn; lia|]. split; [by apply Append_batch|].
    split; [by apply Sequence_header|]. split; [apply Count_header; rewrite length_app; lia|]. intros Ho. split.
    + apply Iterate_batch; [done|rewrite length_app; lia|exact (handle_collect (ops ++ ops') [])].
    + intros n Hlt. destruct (Iterate_cut collect seq (ops ++ ops') [] n) as (msg & o1 & o2 & E1 & E2); [done|rewrite length_app; lia|done|].
      exists msg, o1, o2. split; [done|]. by rewrite E2, handle_collect.
  - intros rep_. unfold Iterate. destruct (Nat.ltb_spec (length rep_) kHeader) as [Hlt|Hge]; [by eexists _, _|].
    destruct (collect_total (length (drop kHeader rep_)) (drop kHeader rep_) 0 []) as (s' & r & -> & Hr); [done|]. cbn [mbind result_bind].
    destruct r as [f|msg]; [|by eexists _, _]. unfold kHeader in Hge. assert (Hc : exists n, Count rep_ = Ok n).
    { unfold Count, DecodeFixed32, DecodeFixed. rewrite length_drop, (proj2 (Nat.leb_le _ _)) by lia. by eexists. }
    destruct Hc as [n Hc]. rewrite Hc. cbn [mbind result_bind]. eexists _, _. split; [done|].
    destruct (Z.eqb_spec f n) as [->|]; [|done]. intros _. f_equal. cbn in Hr. lia.
Qed.

Definition sample_ops : list op := [OPut [107] [1; 2]; ODelete [108]].

Lemma write_batch_roundtrip_witness :
  exists b, (rep_ ← apply_ops sample_ops Clear; SetSequence rep_ 7) = Ok b /\ Sequence b = Ok 7 /\
    Iterate collect b [] = Ok (StOK, sample_ops) /\
    exists msg ops1 ops2, sample_ops = ops1 ++ ops2 /\ Iterate collect (take 18 b) [] = Ok (StCorruption msg, ops1).
Proof.
  destruct (proj1 write_batch_roundtrip 7 sample_ops []) as (b & b' & c & E1 & E2 & E3 & Es & _ & Hi); [done..|].
  assert (c = b) as ->. { vm_compute in E1, E2. injection E1 as <-. injection E2 as <-. vm_compute in E3. injection E3 as <-. reflexivity. }
  rewrite app_nil_r in Hi. destruct Hi as [Hi Hc]; [repeat constructor|]. exists b. split; [done|]. split; [done|]. split; [done|].
  apply Hc. vm_compute in E1. injection E1 as <-. cbn. lia.
Defined.

(** ** Batches in a memory table *)

Definition op_version (seq : Z) (o : op) : version :=
  match o with
  | OPut k v => mkVersion (mkParsed k seq kTypeValue) v
  | ODelete k => mkVersion (mkParsed k seq kTypeDeletion) []
  end.

(** The updates of a batch get consecutive sequence numbers. *)
Fixpoint number (seq : Z) (ops : list op) : list version :=
  match ops with [] => [] | o :: ops => op_version seq o :: number (seq + 1) ops end.

Lemma op_version_ok seq o : op_ok o -> 0 <= seq <= kMaxSequenceNumber -> version_ok (op_version seq o).
Proof.
  destruct o as [k v|k]; intros Ho Hs; (split; [split; [done|cbn; auto]|]); cbn in *; [done|]. by split; [|].
Qed.

Lemma op_version_seq seq o : pk_sequence (v_key (op_version seq o)) = seq.
Proof. by destruct o. Qed.

Lemma number_app seq ops ops' : number seq (ops ++ ops') = number seq ops ++ number (seq + Z.of_nat (length ops)) ops'.
Proof.
  revert seq. induction ops as [|o ops IH]; intros seq; cbn [number app length]; [by rewrite Z.add_0_r|].
  rewrite IH. do 3 f_equal. lia.
Qed.

Lemma number_ok ops : forall seq v, Forall op_ok ops -> 0 <= seq -> seq + Z.of_nat (length ops) <= kMaxSequenceNumber + 1 ->
  v ∈ number seq ops -> version_ok v /\ pk_sequence (v_key v) < seq + Z.of_nat (length ops).
Proof.
  induction ops as [|o ops IH]; intros seq v Hok Hs Hmax Hv; cbn [number length] in *; [by apply elem_of_nil in Hv|].
  inversion_clear Hok as [|? ? Ho Hok']. apply elem_of_cons in Hv as [->|Hv].
  - split; [apply op_version_ok; [done|lia]|]. rewrite op_version_seq. lia.
  - destruct (IH (seq + 1) v Hok') as [Hok Hlt]; [lia..|done|]. split; [done|]. lia.
Qed.

Lemma tag_newer v w : version_ok v -> version_ok w -> pk_sequence (v_key v) < pk_sequence (v_key w) -> v_tag v < v_tag w.
Proof.
  intros ((Hs & Ht) & _) ((Hs' & Ht') & _) Hlt. unfold v_tag. unfold kTypeValue, kTypeDeletion in *.
  rewrite !pack_value by (first [done | lia]). lia.
Qed.

Section applied.
Context (c : Comparator) (ord : list Z -> list Z -> Z) `{Ho : !CompareOrder ord} (Hc : forall a b, Compare c a b = Ok (ord a b)).
Context (alloc : gmap Z (Node (E := list Z)) -> addr) (Halloc : forall h, alloc h <> NULL /\ h !! alloc h = None) (junk : nat -> addr).

Definition older (seq : Z) (vs : list version) : Prop := forall v, v ∈ vs -> pk_sequence (v_key v) < seq.

Lemma vcmp_newer v w : version_ok v -> version_ok w -> pk_sequence (v_key v) < pk_sequence (v_key w) -> vcmp ord v w <> 0.
Proof.
  intros Hv Hw Hlt. pose proof (tag_newer v w Hv Hw Hlt). unfold vcmp, then_by, tag_cmp. cbn [fst snd].
  destruct (Z.eqb_spec (ord (pk_user_key (v_key v)) (pk_user_key (v_key w))) 0); [|done]. repeat case_match; lia.
Qed.

Lemma inserter_all ops : forall seq m vs, mem_rep c ord m vs -> older seq vs -> Forall op_ok ops ->
  0 <= seq -> seq + Z.of_nat (length ops) <= kMaxSequenceNumber + 1 ->
  exists m', handle_all (MemTableInserter c alloc junk) ops (seq, m) = Ok (seq + Z.of_nat (length ops), m') /\
    mem_rep c ord m' (vs ++ number seq ops).
Proof using Ho Hc Halloc.
  induction ops as [|o ops IH]; intros seq m vs Hm Hold Hok Hs Hmax; cbn [handle_all number length] in *.
  { exists m. by rewrite Z.add_0_r, app_nil_r. }
  inversion_clear Hok as [|? ? Hoo Hok']. pose proof (op_version_ok seq o Hoo ltac:(lia)) as Hv.
  destruct (Add_rep c ord Hc alloc Halloc junk m vs (op_version seq o) Hm Hv) as (m1 & E1 & Hm1 & _).
  { intros w Hw. apply vcmp_newer; [|done|rewrite op_version_seq; by apply Hold].
    exact (proj1 (Forall_forall _ _) (mr_ok _ _ _ _ Hm) w Hw). }
  assert (Hh : handle (MemTableInserter c alloc junk) o (seq, m) = Ok (seq + 1, m1)).
  { assert (Hu : u64 (seq + 1) = seq + 1). { change kMaxSequenceNumber with (2 ^ 56 - 1) in Hmax. apply Z.mod_small. unfold u64_modulus. lia. }
    destruct o; cbn [handle MemTableInserter h_Put h_Delete op_version v_key v_value pk_user_key pk_sequence pk_type] in *;
      rewrite E1; cbn [mbind result_bind]; by rewrite Hu. }
  rewrite Hh. cbn [mbind result_bind]. destruct (IH (seq + 1) m1 (vs ++ [op_version seq o]) Hm1) as (m' & E2 & Hm'); [| done|lia|lia|].
  { intros v [Hv'|Hv'%list_elem_of_singleton]%elem_of_app; [specialize (Hold v Hv'); lia|]. subst. rewrite op_version_seq. lia. }
  exists m'. rewrite E2, <- app_assoc in *. split; [do 2 f_equal; lia|done].
Qed.

(** *** What snapshots see of a batch *)

Lemma newest_before u snap seq ops vs : snap < seq -> newest ord u snap (vs ++ number seq ops) = newest ord u snap vs.
Proof.
  unfold newest. rewrite foldl_app. generalize (foldl (newer ord u snap) None vs). revert seq.
  induction ops as [|o ops IH]; intros seq best Hs; cbn [number foldl]; [done|]. rewrite IH by lia.
  unfold newer at 1, visible. rewrite op_version_seq, (proj2 (Z.leb_gt _ _)), andb_false_r by lia. done.
Qed.

Lemma newest_after u snap seq ops vs : Forall version_ok vs -> older seq vs -> Forall op_ok ops -> 0 <= seq ->
  seq + Z.of_nat (length ops) <= kMaxSequenceNumber + 1 -> seq + Z.of_nat (length ops) <= snap + 1 ->
  newest ord u snap (vs ++ number seq ops) =
    match list.last (filter (fun v => ord (pk_user_key (v_key v)) u = 0) (number seq ops)) with
    | Some v => Some v
    | None => newest ord u snap vs
    end.
Proof.
  intros Hvs Hold Hok Hs Hmax Hsnap. induction ops as [|o ops IH] using rev_ind; [by rewrite app_nil_r|].
  rewrite length_app in *. cbn [length] in *. apply Forall_app in Hok as [Hok [Hoo _]%Forall_cons].
  specialize (IH Hok ltac:(lia) ltac:(lia)). set (v := op_version (seq + Z.of_nat (length ops)) o).
  assert (En : number seq (ops ++ [o]) = number seq ops ++ [v]) by apply number_app.
  rewrite En, filter_app, app_assoc. unfold newest in *. rewrite foldl_app, IH. cbn [foldl].
  set (best := match list.last _ with Some _ => _ | None => _ end) in *.
  assert (Hv : version_ok v) by (apply op_version_ok; [done|lia]).
  assert (Hbest : match best with Some b => v_tag b < v_tag v | None => True end).
  { pose proof (newest_spec ord u snap (vs ++ number seq ops)) as Hn. unfold newest in Hn. rewrite IH in Hn. destruct best as [b|]; [|done].
    destruct Hn as (Hb & _ & _). apply tag_newer; [..|unfold v; rewrite op_version_seq]; try done.
    - apply elem_of_app in Hb as [Hb|Hb]; [exact (proj1 (Forall_forall _ _) Hvs b Hb)|].
      apply (number_ok ops seq b Hok); [lia..|done].
    - apply elem_of_app in Hb as [Hb|Hb]; [specialize (Hold b Hb); lia|]. apply (number_ok ops seq b Hok); [lia..|done]. }
  assert (Enew : newer ord u snap best v = if ord (pk_user_key (v_key v)) u =? 0 then Some v else best).
  { unfold newer, visible. unfold v at 2. rewrite op_version_seq, (proj2 (Z.leb_le _ _)), andb_true_r by lia.
    destruct (ord _ u =? 0); [|done]. cbn [andb]. destruct best; [by rewrite (proj2 (Z.ltb_lt _ _))|done]. }
  rewrite Enew. destruct (Z.eqb_spec (ord (pk_user_key (v_key v)) u) 0) as [Eu|Eu].
  - by rewrite filter_cons_True, filter_nil, last_snoc.
  - by rewrite filter_cons_False, filter_nil, app_nil_r.
Qed.

Lemma InsertInto_batch m vs seq ops : mem_rep c ord m vs -> older seq vs -> Forall op_ok ops -> 0 <= seq ->
  seq + Z.of_nat (length ops) <= kMaxSequenceNumber + 1 -> Z.of_nat (length ops) < 2 ^ 31 ->
  exists m', InsertInto c alloc junk (batch seq ops) m = Ok (StOK, m') /\ mem_rep c ord m' (vs ++ number seq ops).
Proof using Ho Hc Halloc.
  intros Hm Hold Hok Hs Hmax Hn. destruct (inserter_all ops seq m vs Hm Hold Hok Hs Hmax) as (m' & E1 & Hm'). exists m'. split; [|done].
  unfold InsertInto. rewrite Sequence_batch by (change kMaxSequenceNumber with (2 ^ 56 - 1) in Hmax; lia). cbn [mbind result_bind].
  by rewrite (Iterate_batch _ seq ops _ _ Hok Hn E1).
Qed.

(** C18: [InsertInto] applies a batch to a memory table with older versions: it
    reports OK; afterwards snapshots from before the batch see none of it, snapshots
    from its last sequence number on see, for every key, the last update of the batch to
    it, or what was there.  Of a batch that is cut off behind its sequence number, a
    prefix of the updates is applied and corruption is reported. *)
Theorem batch_applied m vs seq ops :
  mem_rep c ord m vs -> older seq vs -> Forall op_ok ops -> 0 <= seq ->
  seq + Z.of_nat (length ops) <= kMaxSequenceNumber + 1 -> Z.of_nat (length ops) < 2 ^ 31 ->
  (exists m', InsertInto c alloc junk (batch seq ops) m = Ok (StOK, m') /\ mem_rep c ord m' (vs ++ number seq ops) /\
     forall u snap value s, Z.of_nat (length u) + 8 < 2 ^ 32 -> 0 <= snap <= kMaxSequenceNumber ->
       (snap < seq -> Get c m' (LookupKey_new u snap) value s = Get c m (LookupKey_new u snap) value s) /\
       (seq + Z.of_nat (length ops) <= snap + 1 -> Get c m' (LookupKey_new u snap) value s =
          match list.last (filter (fun v => ord (pk_user_key (v_key v)) u = 0) (number seq ops)) with
          | Some v => Ok (found_result v value s)
          | None => Get c m (LookupKey_new u snap) value s
          end)) /\
  (forall n, (8 <= n < length (batch seq ops))%nat -> exists msg ops1 ops2 m', ops = ops1 ++ ops2 /\
     InsertInto c alloc junk (take n (batch seq ops)) m = Ok (StCorruption msg, m') /\ mem_rep c ord m' (vs ++ number seq ops1)).
Proof using Ho Hc Halloc.
  intros Hm Hold Hok Hs Hmax Hn. assert (Hs64 : 0 <= seq < 2 ^ 64) by (change kMaxSequenceNumber with (2 ^ 56 - 1) in Hmax; lia). split.
  - destruct (InsertInto_batch m vs seq ops Hm Hold Hok Hs Hmax Hn) as (m' & E1 & Hm'). exists m'. split; [done|split; [done|]].
    intros u snap value s Hu Hsn. rewrite (Get_rep c ord Hc m' (vs ++ number seq ops)), (Get_rep c ord Hc m vs) by done. split; intros Hlt.
    + by rewrite newest_before.
    + rewrite newest_after by (try done; apply (mr_ok _ _ _ _ Hm)). by destruct (list.last _).
  - intros n [H8 Hlen]. destruct (Iterate_cut (MemTableInserter c alloc junk) seq ops (seq, m) n Hok Hn Hlen) as (msg & ops1 & ops2 & Eo & E1).
    assert (Hok1 : Forall op_ok ops1) by (rewrite Eo in Hok; by apply Forall_app in Hok as [? _]).
    assert (Hl : (length ops1 <= length ops)%nat) by (rewrite Eo, length_app; lia).
    destruct (inserter_all ops1 seq m vs Hm Hold Hok1 Hs) as (m' & E2 & Hm'); [lia|]. exists msg, ops1, ops2, m'. split; [done|]. split; [|done].
    unfold InsertInto. assert (Eseq : Sequence (take n (batch seq ops)) = Ok seq).
    { unfold Sequence, DecodeFixed64, DecodeFixed. rewrite length_take, (proj2 (Nat.leb_le _ _)) by lia. rewrite take_take, Nat.min_l by lia.
      unfold batch. destruct (header_parts seq (length ops) (concat (map record_bytes ops))) as (-> & _). f_equal. by apply (le_value_bytes 8). }
    rewrite Eseq. cbn [mbind result_bind]. rewrite E1, E2. done.
Qed.

End applied.

Lemma batch_applied_witness :
  exists m', InsertInto BytewiseComparator bump_alloc (fun _ => 0) (batch 7 sample_ops) (MemTable_new 5 [] 0) = Ok (StOK, m') /\
    Get BytewiseComparator m' (LookupKey_new [107] 8) [] StOK = Ok (true, [1; 2], StOK) /\
    Get BytewiseComparator m' (LookupKey_new [108] 8) [] StOK = Ok (true, [], StNotFound).
Proof.
  destruct (batch_applied BytewiseComparator Slice_compare (fun _ _ => eq_refl) bump_alloc bump_alloc_fresh (fun _ => 0)
    (MemTable_new 5 [] 0) [] 7 sample_ops) as [(m' & E1 & _ & Hg) _]; [|intros v Hv; by apply elem_of_nil in Hv|repeat constructor|done..|].
  - apply (mem_rep_new BytewiseComparator Slice_compare); done.
  - exists m'. split; [exact E1|]. clear E1. split.
    + destruct (Hg [107] 8 [] StOK) as [_ Hlate]; [done..|]. rewrite Hlate by done. reflexivity.
    + destruct (Hg [108] 8 [] StOK) as [_ Hlate]; [done..|]. rewrite Hlate by done. reflexivity.
Defined.
