(* ===== verification/WriteAhead.v ===== *)
(** * Writing ahead and recovering

    The parts of db/db_impl.cc that keep the log and the memory table together:
    [BuildBatchGroup] and the part of [Write] that the writer at the front of the
    queue runs, and [RecoverLogFile].  What [MakeRoomForWrite] reports is an argument, and
    so are [WriteLevel0Table] and the test for a full memory table; waiting writers do
    nothing but wait. *)

From Stdlib Require Import Sorted.
From S2P Require Import Prelude Coding CRC32C Log LogSpec TXMemStore LFSkipList LFSkipListSpec SkipListSeq InternalKey MemTable WriteBatch.

(** [DBImpl::Writer]; [None] is a null batch. *)
Record DBWriter := mkDBWriter { dw_status : Status; dw_batch : option (list Z); dw_sync : bool; dw_done : bool }.

(** ** BuildBatchGroup *)

(** The loop over the writers behind the first; [result_] is [None] as long as it is
    the batch of the first writer; [n] counts the writers that are taken. *)
Fixpoint group_loop (first_sync : bool) (first tmp_batch_ : list Z) (max_size size : Z) (result_ : option (list Z))
    (ws : list DBWriter) (n : nat) : result (option (list Z) * nat) :=
  match ws with
  | [] => Ok (result_, n)
  | w :: ws =>
      if dw_sync w && negb first_sync then Ok (result_, n)
      else
        match dw_batch w with
        | None => group_loop first_sync first tmp_batch_ max_size size result_ ws (S n)
        | Some b =>
            let size := size + Z.of_nat (length b) in
            if max_size <? size then Ok (result_, n)
            else
              r ← (match result_ with None => Append tmp_batch_ first | Some r => Ok r end);
              r ← Append r b;
              group_loop first_sync first tmp_batch_ max_size size (Some r) ws (S n)
        end
  end.

(** The updates, whether they are [tmp_batch_], and how many writers are served. *)
Definition BuildBatchGroup (writers_ : list DBWriter) (tmp_batch_ : list Z) : result (list Z * bool * nat) :=
  match writers_ with
  | [] => Fault Undefined
  | first :: ws =>
      b ← from_opt NullDeref (dw_batch first);
      let size := Z.of_nat (length b) in
      let max_size := if size <=? Z.shiftl 128 10 then size + Z.shiftl 128 10 else Z.shiftl 1 20 in
      '(r, n) ← group_loop (dw_sync first) b tmp_batch_ max_size size None ws 1;
      Ok (match r with None => (b, false, n) | Some r => (r, true, n) end)
  end.

(** ** Write *)

Record DB := mkDB {
  writers_ : list DBWriter;
  log_ : Log.Writer;
  mem_ : MemTable;
  last_sequence_ : Z;
  tmp_batch_ : list Z }.

Section model.
Context (user_comparator : Comparator) (alloc : gmap Z (Node (E := list Z)) -> addr) (junk : nat -> addr).

(** The writer at the front commits a group; [ptr] is where the string of the updates
    is, [room] what [MakeRoomForWrite] reports and [sync_ok] what [logfile_->Sync()]
    does.  The result are the writers that were served, with the status that they
    return (the first one's [done] is not looked at any more); a batch that is not
    [tmp_batch_] gets its sequence number in place. *)
Definition Write_front (ptr : addr) (room : Status) (sync_ok : bool) (db : DB) : result (list DBWriter * DB) :=
  w ← from_opt Undefined (head (writers_ db));
  let last_sequence := last_sequence_ db in
  match status_ok room, dw_batch w with
  | true, Some _ =>
      '(updates, is_tmp, n) ← BuildBatchGroup (writers_ db) (tmp_batch_ db);
      updates ← SetSequence updates (u64 (last_sequence + 1));
      count ← Count updates;
      let last_sequence := u64 (last_sequence + count) in
      '(ok, log) ← Log.AddRecord ptr updates (log_ db);
      let status := if (ok : bool) then if dw_sync w then if sync_ok then StOK else StIOError else StOK else StIOError in
      '(status, mem) ← (if status_ok status then InsertInto user_comparator alloc junk updates (mem_ db) else Ok (status, mem_ db));
      let tmp := if is_tmp : bool then Clear else tmp_batch_ db in
      let served := take n (writers_ db) in
      let served := if is_tmp then served else
                      match served with w :: ws => mkDBWriter (dw_status w) (Some updates) (dw_sync w) (dw_done w) :: ws | [] => [] end in
      Ok (map (fun w => mkDBWriter status (dw_batch w) (dw_sync w) true) served,
          mkDB (drop n (writers_ db)) log mem last_sequence tmp)
  | _, _ =>
      Ok ([mkDBWriter room (dw_batch w) (dw_sync w) true],
          mkDB (drop 1 (writers_ db)) (log_ db) (mem_ db) last_sequence (tmp_batch_ db))
  end.

(** Writers arrive and the front commits. *)
Definition Write_step (arrivals : addr * list DBWriter) (db : DB) : result (list DBWriter * DB) :=
  Write_front arrivals.1 StOK true (mkDB (writers_ db ++ arrivals.2) (log_ db) (mem_ db) (last_sequence_ db) (tmp_batch_ db)).

Fixpoint Write_run (steps : list (addr * list DBWriter)) (db : DB) : result (list (list DBWriter) * DB) :=
  match steps with
  | [] => Ok ([], db)
  | s :: steps => '(served, db) ← Write_step s db; '(l, db) ← Write_run steps db; Ok (served :: l, db)
  end.

(** ** RecoverLogFile *)

Context (paranoid_checks : bool) (full : MemTable -> bool) (new_mem : MemTable).
Context {L : Type} (WriteLevel0Table : MemTable -> L -> Status * L).

Definition MaybeIgnoreError (s : Status) : Status := if status_ok s || paranoid_checks then s else StOK.

Definition drop_status (why : Log.reason) : Status :=
  match why with Log.IOError => StIOError | _ => StCorruption LogDrop end.

(** What [LogReporter::Corruption] makes of the reports of a call: the first one stays. *)
Definition reported (old new : list (Z * Log.reason)) (st : Status) : Status :=
  match drop (length old) new with
  | (_, why) :: _ => if paranoid_checks && status_ok st then drop_status why else st
  | [] => st
  end.

(** After the loop. *)
Definition recover_end (st : Status) (mem : option MemTable) (max_sequence : Z) (level0 : L) : Status * L * Z :=
  match mem with
  | Some m => if status_ok st then (WriteLevel0Table m level0, max_sequence) else (st, level0, max_sequence)
  | None => (st, level0, max_sequence)
  end.

Fixpoint recover_loop (fuel : nat) (r : Log.Reader) (st : Status) (mem : option MemTable) (max_sequence : Z) (level0 : L)
    : result (Status * L * Z) :=
  match fuel with
  | O => Fault OutOfFuel
  | S fuel =>
      '(o, r') ← Log.ReadRecord r;
      let st := reported (Log.reports r) (Log.reports r') st in
      match o with
      | None => Ok (recover_end st mem max_sequence level0)
      | Some record =>
          if negb (status_ok st) then Ok (recover_end st mem max_sequence level0)
          else if (length record <? 12)%nat then
            let st := if paranoid_checks then StCorruption TooSmall else st in
            recover_loop fuel r' st mem max_sequence level0
          else
            let batch := SetContents record in
            let m := default new_mem mem in
            '(st, m) ← InsertInto user_comparator alloc junk batch m;
            let st := MaybeIgnoreError st in
            if negb (status_ok st) then Ok (recover_end st (Some m) max_sequence level0)
            else
              seq ← Sequence batch;
              count ← Count batch;
              let last_seq := u64 (seq + count - 1) in
              let max_sequence := if max_sequence <? last_seq then last_seq else max_sequence in
              if full m then
                let '(st, level0) := WriteLevel0Table m level0 in
                if negb (status_ok st) then Ok (recover_end st (Some m) max_sequence level0)
                else recover_loop fuel r' st None max_sequence level0
              else recover_loop fuel r' st (Some m) max_sequence level0
      end
  end.

(** Opening the file succeeds with the bytes [data]; [store] is the reader's buffer. *)
Definition RecoverLogFile (fuel : nat) (data : list Z) (store : addr) (max_sequence : Z) (level0 : L) : result (Status * L * Z) :=
  recover_loop fuel (Log.Reader_new (Log.mkSFile data []) true true store 0) StOK None max_sequence level0.

End model.

(** ** Bytes of a batch *)

Definition op_bytes (o : op) : Prop := match o with OPut k v => bytes k /\ bytes v | ODelete k => bytes k end.

Lemma slice_bytes s : Z.of_nat (length s) < 2 ^ 32 -> bytes s -> bytes (PutLengthPrefixedSlice [] s).
Proof.
  intros Hs Hb. unfold PutLengthPrefixedSlice, PutVarint32. apply Forall_app. split; [|done].
  eapply varint_bytes, EncodeVarint32_varint. unfold u32. apply Z.mod_pos_bound. lia.
Qed.

Lemma batch_bytes seq ops : Forall op_ok ops -> Forall op_bytes ops -> bytes (batch seq ops).
Proof.
  intros Ho Hb. unfold batch, header. repeat (apply Forall_app; split); [apply le_bytes_bytes..|].
  induction Hb as [|o ops Hob Hb IH]; [constructor|]. inversion_clear Ho as [|? ? Hoo Ho']. cbn [map concat].
  apply Forall_app. split; [|by apply IH]. destruct o as [k v|k]; cbn [record_bytes op_bytes op_ok] in *.
  - apply Forall_cons_2; [done|]. apply Forall_app. split; apply slice_bytes; naive_solver lia.
  - apply Forall_cons_2; [done|]. apply slice_bytes; [lia|done].
Qed.

(** ** Groups *)

(** A writer with the updates [ops], and all updates of a queue. *)
Definition writer_of (q : bool * list op) : DBWriter := mkDBWriter StOK (Some (batch 0 q.2)) q.1 false.
Definition all_ops (qs : list (bool * list op)) : list op := concat qs.*2.

Lemma group_loop_ok fs ops1 max_size : forall qs size res acc n,
  match res with None => acc = ops1 | Some r => r = batch 0 acc end ->
  Z.of_nat (length acc) + Z.of_nat (length (all_ops qs)) < 2 ^ 31 ->
  exists j res', (j <= length qs)%nat /\
    group_loop fs (batch 0 ops1) (batch 0 []) max_size size res (map writer_of qs) n = Ok (res', (n + j)%nat) /\
    default (batch 0 ops1) res' = batch 0 (acc ++ all_ops (take j qs)).
Proof.
  induction qs as [|[sy ops] qs IH]; intros size res acc n Hres Hlen; cbn [map group_loop].
  { exists 0%nat, res. rewrite Nat.add_0_r, app_nil_r. split_and!; [done..|]. destruct res as [r|]; cbn [default from_option id]; by rewrite Hres. }
  assert (Hstop : exists j res', (j <= length ((sy, ops) :: qs))%nat /\ Ok (res, n) = Ok (res', (n + j)%nat) /\
    default (batch 0 ops1) res' = batch 0 (acc ++ all_ops (take j ((sy, ops) :: qs)))).
  { exists 0%nat, res. rewrite Nat.add_0_r, take_0, app_nil_r. split_and!; [lia|done|]. destruct res as [r|]; cbn [default from_option id]; by rewrite Hres. }
  cbn [dw_sync dw_batch writer_of fst snd]. destruct (sy && negb fs); [done|]. destruct (max_size <? _); [done|].
  unfold all_ops in Hlen. cbn [fmap list_fmap concat snd] in Hlen. rewrite length_app in Hlen.
  assert (Er : (match res with None => Append (batch 0 []) (batch 0 ops1) | Some r => Ok r end) = Ok (batch 0 acc)).
  { destruct res as [r|]; [by rewrite Hres|]. rewrite Hres in *. rewrite Append_batch by (cbn; lia). done. }
  rewrite Er. cbn [mbind result_bind]. rewrite Append_batch by lia. cbn [mbind result_bind].
  destruct (IH (size + Z.of_nat (length (batch 0 ops))) (Some (batch 0 (acc ++ ops))) (acc ++ ops) (S n)) as (j & res' & Hj & E1 & E2);
    [done|rewrite length_app; unfold all_ops; lia|].
  exists (S j), res'. split; [cbn; lia|]. split; [rewrite E1; do 2 f_equal; lia|]. rewrite E2. unfold all_ops. cbn [take fmap list_fmap concat snd].
  by rewrite <- app_assoc.
Qed.

Lemma BuildBatchGroup_ok q qs : Z.of_nat (length (all_ops (q :: qs))) < 2 ^ 31 ->
  exists j is_tmp, (j <= length qs)%nat /\
    BuildBatchGroup (map writer_of (q :: qs)) Clear = Ok (batch 0 (all_ops (take (S j) (q :: qs))), is_tmp, S j).
Proof.
  intros Hn. unfold BuildBatchGroup. cbn [map dw_batch writer_of from_opt mbind result_bind dw_sync]. rewrite Clear_batch.
  destruct q as [sy ops]. unfold all_ops in Hn. cbn [fmap list_fmap concat snd] in Hn. rewrite length_app in Hn. cbn [fst snd].
  set (max := if _ <=? _ then _ else _).
  destruct (group_loop_ok sy ops max qs (Z.of_nat (length (batch 0 ops))) None ops 1 eq_refl) as (j & res & Hj & E1 & E2); [unfold all_ops; lia|].
  rewrite E1. cbn [mbind result_bind]. exists j. unfold all_ops at 1. cbn [take fmap list_fmap concat snd]. fold (all_ops (take j qs)).
  rewrite <- E2. destruct res as [r|]; cbn [default from_option id]; eexists; (split; [done|]); done.
Qed.

(** ** Committing *)

(** The log records of groups of updates. *)
Fixpoint group_records (seq : Z) (gs : list (list op)) : list (list Z) :=
  match gs with [] => [] | g :: gs => batch seq g :: group_records (seq + Z.of_nat (length g)) gs end.

Lemma group_records_app seq gs gs' :
  group_records seq (gs ++ gs') = group_records seq gs ++ group_records (seq + Z.of_nat (length (concat gs))) gs'.
Proof.
  revert seq. induction gs as [|g gs IH]; intros seq; cbn [group_records app concat]; [by rewrite Z.add_0_r|].
  rewrite IH, length_app. do 3 f_equal. lia.
Qed.

Lemma length_group_records seq gs : length (group_records seq gs) = length gs.
Proof. revert seq. induction gs as [|g gs IH]; intros seq; cbn; auto. Qed.

Lemma group_records_take seq gs k : take k (group_records seq gs) = group_records seq (take k gs).
Proof. revert seq k. induction gs as [|g gs IH]; intros seq [|k]; cbn; [done..|]. by rewrite IH. Qed.

Lemma add_all_snoc l w w' w'' ptr x : Log.add_all l w = Ok (true, w') -> AddRecord ptr x w' = Ok (true, w'') ->
  Log.add_all (l ++ [(ptr, x)]) w = Ok (true, w'').
Proof.
  revert w. induction l as [|[p y] l IH]; intros w; cbn [Log.add_all app].
  - intros [= ->] ->. done.
  - destruct (AddRecord p y w) as [[[|] w1]|]; cbn [mbind result_bind]; try done. apply IH.
Qed.

Definition logged (db : DB) : list Z := wf_data (dest_ (log_ db)).

Section commits.
Context (c : Comparator) (ord : list Z -> list Z -> Z) `{Ho : !CompareOrder ord} (Hc : forall a b, Compare c a b = Ok (ord a b)).
Context (alloc : gmap Z (Node (E := list Z)) -> addr) (Halloc : forall h, alloc h <> NULL /\ h !! alloc h = None) (junk : nat -> addr).
Context (w0 : Log.Writer) (Hw0 : writer_ok w0) (s0 : Z) (Hs0 : 0 <= s0).

(** The queue [qs] is waiting, the groups [gs] were committed. *)
Record db_ok (db : DB) (qs : list (bool * list op)) (gs : list (list op)) : Prop := {
  do_writers : writers_ db = map writer_of qs;
  do_log : exists recs, Log.add_all recs w0 = Ok (true, log_ db) /\ recs.*2 = group_records (s0 + 1) gs;
  do_writer : writer_ok (log_ db);
  do_mem : mem_rep c ord (mem_ db) (number (s0 + 1) (concat gs));
  do_last : last_sequence_ db = s0 + Z.of_nat (length (concat gs));
  do_tmp : tmp_batch_ db = Clear }.

(** Updates that fit, [n] of them already committed. *)
Definition ops_fit (n : nat) (ops : list op) : Prop :=
  Forall op_ok ops /\ Forall op_bytes ops /\ Z.of_nat (n + length ops) < 2 ^ 31 /\
  s0 + Z.of_nat (n + length ops) <= kMaxSequenceNumber.

Lemma older_number ops : Forall op_ok ops -> s0 + Z.of_nat (length ops) <= kMaxSequenceNumber ->
  older (s0 + 1 + Z.of_nat (length ops)) (number (s0 + 1) ops).
Proof using Hs0. intros Hok Hn v Hv. apply (number_ok ops (s0 + 1) v Hok) in Hv; [lia..]. Qed.

Lemma all_ops_app qs qs' : all_ops (qs ++ qs') = all_ops qs ++ all_ops qs'.
Proof. unfold all_ops. by rewrite fmap_app, concat_app. Qed.

Lemma Write_front_ok db q qs gs ptr : db_ok db (q :: qs) gs -> Forall op_ok (concat gs) ->
  ops_fit (length (concat gs)) (all_ops (q :: qs)) ->
  exists served rest ws db', q :: qs = served ++ rest /\ served <> [] /\
    Write_front c alloc junk ptr StOK true db = Ok (ws, db') /\ db_ok db' rest (gs ++ [all_ops served]) /\
    length ws = length served /\ Forall (fun w => dw_status w = StOK /\ dw_done w = true) ws.
Proof using Ho Hc Halloc Hs0.
  intros [Hwr (recs & Hlog & Hrecs) Hwo Hm Hlast Htmp] Hgs (Hok & Hb & Hn & Hmax).
  destruct (BuildBatchGroup_ok q qs) as (j & is_tmp & Hj & Eg); [lia|]. set (ops := all_ops (take (S j) (q :: qs))) in *.
  assert (Hops : all_ops (q :: qs) = ops ++ all_ops (drop (S j) (q :: qs))) by (unfold ops; by rewrite <- all_ops_app, take_drop).
  rewrite Hops in Hok, Hb, Hn, Hmax. rewrite length_app in Hn, Hmax. apply Forall_app in Hok as [Hok _], Hb as [Hb _].
  set (seq := s0 + 1 + Z.of_nat (length (concat gs))).
  assert (H64 : u64 (s0 + Z.of_nat (length (concat gs)) + 1) = seq).
  { unfold u64, u64_modulus, seq. change kMaxSequenceNumber with (2 ^ 56 - 1) in Hmax. rewrite Z.mod_small; lia. }
  assert (H64' : u64 (s0 + Z.of_nat (length (concat gs)) + Z.of_nat (length ops)) = s0 + Z.of_nat (length (concat gs ++ ops))).
  { unfold u64, u64_modulus. change kMaxSequenceNumber with (2 ^ 56 - 1) in Hmax. rewrite length_app, Z.mod_small; lia. }
  destruct (AddRecord_ok ptr (batch seq ops) (log_ db) Hwo) as (w' & bs & Ea & Hw' & _ & _); [by apply batch_bytes|].
  destruct (InsertInto_batch c ord Hc alloc Halloc junk (mem_ db) (number (s0 + 1) (concat gs)) seq ops) as (m' & Ei & Hm'); [done| |done|lia..|].
  { apply older_number; [done|lia]. }
  assert (Hset : forall b, b = batch 0 ops -> SetSequence b seq = Ok (batch seq ops)) by (intros b ->; apply SetSequence_header).
  exists (take (S j) (q :: qs)), (drop (S j) (q :: qs)). unfold Write_front. rewrite Hwr, Htmp, Eg.
  cbn [map head from_opt mbind result_bind status_ok dw_batch writer_of]. rewrite Hlast, H64, Hset by done. cbn [mbind result_bind]. rewrite Count_batch by lia. cbn [mbind result_bind].
  rewrite H64', Ea. cbn [mbind result_bind]. replace (if dw_sync (writer_of q) then StOK else StOK) with StOK by (by destruct (dw_sync _)).
  cbn [status_ok]. rewrite Ei. cbn [mbind result_bind]. eexists _, _. split; [by rewrite take_drop|]. split; [done|]. split; [done|]. split; [|split].
  - split; cbn [writers_ log_ mem_ last_sequence_ tmp_batch_].
    + by rewrite <- skipn_map.
    + exists (recs ++ [(ptr, batch seq ops)]). split; [by eapply add_all_snoc|]. rewrite fmap_app, Hrecs, group_records_app. done.
    + done.
    + rewrite concat_app, number_app. cbn [concat]. by rewrite app_nil_r.
    + rewrite concat_app. cbn [concat]. by rewrite app_nil_r.
    + by destruct is_tmp.
  - rewrite length_map. destruct is_tmp; cbn [take map length]; by rewrite !length_take, length_map.
  - apply Forall_forall. intros w (w1 & <- & _)%list_elem_of_In%in_map_iff. done.
Qed.

(** Arrivals as updates. *)
Definition arrive (s : addr * list (bool * list op)) : addr * list DBWriter := (s.1, map writer_of s.2).

Lemma Write_run_ok steps : forall db qs gs, db_ok db qs gs -> Forall (fun s => s.2 <> []) steps -> Forall op_ok (concat gs) ->
  ops_fit (length (concat gs)) (all_ops (qs ++ concat steps.*2)) ->
  exists served rest l db', qs ++ concat steps.*2 = concat served ++ rest /\ length served = length steps /\
    Write_run c alloc junk (map arrive steps) db = Ok (l, db') /\ db_ok db' rest (gs ++ map all_ops served) /\
    Forall2 (fun ws qs => length ws = length qs /\ Forall (fun w => dw_status w = StOK /\ dw_done w = true) ws) l served /\
    forall i, (i <= length steps)%nat -> exists li dbi qi, Write_run c alloc junk (map arrive (take i steps)) db = Ok (li, dbi) /\
      db_ok dbi qi (gs ++ map all_ops (take i served)).
Proof using Ho Hc Halloc Hs0.
  induction steps as [|[ptr ns] steps IH]; intros db qs gs Hdb Hne Hgs Hfit; cbn [map Write_run].
  { exists [], qs, [], db. cbn. rewrite !app_nil_r. split_and!; [done..|constructor|].
    intros i Hi. exists [], db, qs. rewrite !take_nil. cbn. by rewrite app_nil_r. }
  inversion_clear Hne as [|? ? Hns Hne']. cbn [snd fmap list_fmap concat] in *. unfold Write_step. cbn [arrive fst snd].
  set (db1 := mkDB _ _ _ _ _). assert (Hdb1 : db_ok db1 (qs ++ ns) gs).
  { destruct Hdb as [Hwr Hlog Hwo Hm Hlast Htmp]. split; [|done..]. cbn. by rewrite Hwr, map_app. }
  rewrite app_assoc in Hfit. destruct (qs ++ ns) as [|q qs1] eqn:Eq; [by apply app_eq_nil in Eq as [_ ->]|].
  destruct Hfit as (Hok & Hb & Hn & Hmax). rewrite all_ops_app in Hok, Hb, Hn, Hmax. rewrite length_app in Hn, Hmax.
  destruct (Write_front_ok db1 q qs1 gs ptr Hdb1 Hgs) as (sv & rest1 & ws & db2 & E1 & Hsv & Ef & Hdb2 & Hlen & Hst).
  { apply Forall_app in Hok as [? _], Hb as [? _]. split_and!; [done..|lia|lia]. }
  rewrite Ef. cbn [mbind result_bind]. assert (Hcat : concat (gs ++ [all_ops sv]) = concat gs ++ all_ops sv) by (rewrite concat_app; cbn; by rewrite app_nil_r).
  rewrite E1, all_ops_app in *. rewrite length_app in *. apply Forall_app in Hok as [Hok1 Hok2], Hb as [Hb1 Hb2].
  apply Forall_app in Hok1 as [Hok1 Hok1'], Hb1 as [Hb1 Hb1'].
  destruct (IH db2 rest1 (gs ++ [all_ops sv]) Hdb2 Hne') as (served & rest & l & db' & E2 & Hl & -> & Hdb' & Hws & Hpre).
  { rewrite Hcat. by apply Forall_app. }
  { rewrite Hcat, length_app. split; [rewrite all_ops_app; by apply Forall_app|]. split; [rewrite all_ops_app; by apply Forall_app|].
    rewrite all_ops_app, length_app. split; lia. }
  cbn [mbind result_bind]. exists (sv :: served), rest, (ws :: l), db'. cbn [concat map length]. split_and!; [|lia|done| |by constructor|].
  - rewrite <- app_assoc, <- E2, app_assoc, Eq. by rewrite <- app_assoc.
  - by rewrite <- app_assoc in Hdb'.
  - intros [|i] Hi; [exists [], db, qs; cbn; by rewrite app_nil_r|]. destruct (Hpre i) as (li & dbi & qi & Ei & Hdbi); [lia|].
    exists (ws :: li), dbi, qi. cbn [take map Write_run]. unfold Write_step. cbn [arrive fst snd]. fold db1. rewrite Ef. cbn [mbind result_bind].
    rewrite Ei. cbn [mbind result_bind]. by rewrite <- app_assoc in Hdbi.
Qed.

(** ** Recovering *)

Context (full : MemTable -> bool) (new_mem : MemTable) (Hnew : mem_rep c ord new_mem []).

(** The tables are kept in the order they are written. *)
Definition keep_table (m : MemTable) (l : list MemTable) : Status * list MemTable := (StOK, l ++ [m]).

Definition max_seq (mx seq : Z) (gs : list (list op)) : Z :=
  match gs with [] => mx | _ => Z.max mx (seq + Z.of_nat (length (concat gs)) - 1) end.

Lemma max_seq_cons mx seq g gs : max_seq (Z.max mx (seq + Z.of_nat (length g) - 1)) (seq + Z.of_nat (length g)) gs = max_seq mx seq (g :: gs).
Proof. unfold max_seq. cbn [concat]. rewrite length_app. destruct gs; cbn [concat length]; lia. Qed.

Lemma reported_ignored old new st : reported false old new st = st.
Proof. unfold reported. by destruct (drop _ _) as [|[? ?] ?]. Qed.

Lemma recover_groups gs : forall fuel r r' mem vs mx tables seq,
  read_all fuel r = Ok (group_records seq gs, r') ->
  match mem with Some m => mem_rep c ord m vs | None => vs = [] end -> older seq vs ->
  Forall op_ok (concat gs) -> 0 < seq -> seq + Z.of_nat (length (concat gs)) <= kMaxSequenceNumber + 1 -> Z.of_nat (length (concat gs)) < 2 ^ 31 ->
  exists ms vss, recover_loop c alloc junk false full new_mem keep_table fuel r StOK mem mx tables =
      Ok (StOK, tables ++ ms, max_seq mx seq gs) /\
    Forall2 (mem_rep c ord) ms vss /\ concat vss = vs ++ number seq (concat gs).
Proof using Ho Hc Halloc Hnew.
  induction gs as [|g gs IH]; intros fuel r r' mem vs mx tables seq Hread Hmem Hold Hok Hseq Hmax Hn;
    (destruct fuel as [|fuel]; [done|]); cbn [read_all recover_loop group_records] in *.
  - destruct (ReadRecord r) as [[[x|] r1]|] eqn:Er; cbn [mbind result_bind] in *; [by destruct (read_all fuel r1) as [[? ?]|]| |done].
    rewrite reported_ignored.
    destruct mem as [m|]; [exists [m], [vs]|exists [], []]; cbn [number concat]; rewrite ?app_nil_r.
    + split; [done|]. split; [constructor; [done|constructor]|done].
    + subst. split; [done|]. split; [constructor|done].
  - destruct (ReadRecord r) as [[[x|] r1]|] eqn:Er; cbn [mbind result_bind] in *; [|done..].
    destruct (read_all fuel r1) as [[recs r2]|] eqn:Er1; cbn [mbind result_bind] in Hread; [|done]. injection Hread as -> -> ->.
    rewrite reported_ignored. cbn [status_ok negb]. cbn [concat] in Hok, Hmax, Hn. rewrite length_app in Hmax, Hn. apply Forall_app in Hok as [Hokg Hok].
    assert (Hlong : (length (batch seq g) <? 12)%nat = false).
    { apply Nat.ltb_ge. unfold batch. rewrite length_app, header_length. unfold kHeader. lia. }
    rewrite Hlong. unfold SetContents. assert (Hm : mem_rep c ord (default new_mem mem) vs) by (destruct mem; [done|by subst]).
    destruct (InsertInto_batch c ord Hc alloc Halloc junk (default new_mem mem) vs seq g Hm Hold Hokg) as (m' & -> & Hm'); [lia..|].
    cbn [mbind result_bind MaybeIgnoreError status_ok orb negb].
    rewrite Sequence_batch, Count_batch by (change kMaxSequenceNumber with (2 ^ 56 - 1) in Hmax; lia). cbn [mbind result_bind].
    assert (Emx : (if mx <? u64 (seq + Z.of_nat (length g) - 1) then u64 (seq + Z.of_nat (length g) - 1) else mx) = Z.max mx (seq + Z.of_nat (length g) - 1)).
    { unfold u64, u64_modulus. change kMaxSequenceNumber with (2 ^ 56 - 1) in Hmax. rewrite Z.mod_small by lia.
      destruct (Z.ltb_spec mx (seq + Z.of_nat (length g) - 1)); lia. }
    rewrite Emx. assert (Hold' : older (seq + Z.of_nat (length g)) (vs ++ number seq g)).
    { intros v [Hv|Hv]%elem_of_app; [specialize (Hold v Hv); lia|]. apply (number_ok g seq v Hokg) in Hv; [lia..]. }
    destruct (full m'); cbn [keep_table status_ok negb].
    + destruct (IH fuel r1 r' None [] (Z.max mx (seq + Z.of_nat (length g) - 1)) (tables ++ [m']) (seq + Z.of_nat (length g)))
        as (ms & vss & E1 & Hms & Hvs); [done|done|by intros v ?%elem_of_nil|done|lia|lia|lia|].
      exists (m' :: ms), ((vs ++ number seq g) :: vss). rewrite E1, max_seq_cons, <- app_assoc. split; [done|]. split; [by constructor|].
      cbn [concat]. by rewrite Hvs, number_app, <- app_assoc.
    + destruct (IH fuel r1 r' (Some m') (vs ++ number seq g) (Z.max mx (seq + Z.of_nat (length g) - 1)) tables (seq + Z.of_nat (length g)))
        as (ms & vss & E1 & Hms & Hvs); [done|done|done|done|lia|lia|lia|].
      exists ms, vss. rewrite E1, max_seq_cons. split; [done|]. split; [done|]. cbn [concat]. by rewrite Hvs, number_app, <- app_assoc.
Qed.

End commits.

Lemma read_all_more n n' r x : read_all n r = Ok x -> (n <= n')%nat -> read_all n' r = Ok x.
Proof.
  revert n' r x. induction n as [|n IH]; intros n' r x Hr Hn; [done|]. destruct n' as [|n']; [lia|]. cbn [read_all] in *.
  destruct (ReadRecord r) as [[[y|] r1]|]; cbn [mbind result_bind] in *; [|done..].
  destruct (read_all n r1) as [[l r2]|] eqn:E1; cbn [mbind result_bind] in Hr; [|done]. by rewrite (IH n' r1 _ E1) by lia.
Qed.

Lemma log_layout_take pos rs bs n : log_layout pos rs bs -> exists b1 b2, bs = b1 ++ b2 /\ log_layout pos (take n rs) b1.
Proof.
  intros Hl. revert n. induction Hl as [pos|pos x rs b bs Hlay Hlog IH]; intros n.
  - exists [], []. rewrite take_nil. split; [done|constructor].
  - destruct n as [|n]; [exists [], (b ++ bs); split; [done|constructor]|]. destruct (IH n) as (b1 & b2 & -> & Hb1).
    exists (b ++ b1), b2. split; [by rewrite app_assoc|]. cbn [take]. by constructor.
Qed.

Lemma concat_all_ops (served : list (list (bool * list op))) : concat (map all_ops served) = all_ops (concat served).
Proof. induction served as [|s served IH]; [done|]. cbn [map concat]. by rewrite all_ops_app, IH. Qed.

Section recovery.
Context (c : Comparator) (ord : list Z -> list Z -> Z) `{Ho : !CompareOrder ord} (Hc : forall a b, Compare c a b = Ok (ord a b)).
Context (alloc : gmap Z (Node (E := list Z)) -> addr) (Halloc : forall h, alloc h <> NULL /\ h !! alloc h = None) (junk : nat -> addr).

(** What is in the file of a state. *)
Lemma logged_layout w0 s0 db qs gs : writer_ok w0 -> wf_data (dest_ w0) = [] -> db_ok c ord w0 s0 db qs gs ->
  Forall op_ok (concat gs) -> Forall op_bytes (concat gs) ->
  log_layout 0 (group_records (s0 + 1) gs) (logged db) /\ Forall bytes (group_records (s0 + 1) gs).
Proof.
  intros Hw Hd [_ (recs & Hlog & Hrecs) _ _ _ _] Hok Hb.
  assert (Hbytes : Forall bytes (group_records (s0 + 1) gs)).
  { clear -Hok Hb. generalize (s0 + 1). induction gs as [|g gs IH]; intros s; cbn [group_records concat] in *; [constructor|].
    apply Forall_app in Hok as [Hok1 Hok2], Hb as [Hb1 Hb2]. constructor; [by apply batch_bytes|by apply IH]. }
  split; [|done]. rewrite <- Hrecs in *. destruct (add_all_ok recs w0 Hw Hbytes) as (w' & bs & E1 & _ & Hd' & Hl).
  rewrite Hlog in E1. injection E1 as <-. unfold logged. rewrite Hd', Hd. rewrite Hd in Hl. done.
Qed.

Lemma db_start w0 s0 a jk jh : a <> NULL -> writer_ok w0 -> db_ok c ord w0 s0 (mkDB [] w0 (MemTable_new a jk jh) s0 Clear) [] [].
Proof using Ho Hc.
  intros Ha Hw. split; cbn; try done; [by exists []|by apply mem_rep_new|lia].
Qed.

(** A reader that missed group [k] of a log cut at [m] had less than the file of any later state. *)
Lemma logged_reach w0 s0 db qs dbi qi gs i k m : writer_ok w0 -> wf_data (dest_ w0) = [] ->
  db_ok c ord w0 s0 db qs gs -> db_ok c ord w0 s0 dbi qi (take i gs) -> Forall op_ok (concat gs) -> Forall op_bytes (concat gs) ->
  ((k < i)%nat -> exists b, log_layout 0 (take (S k) (group_records (s0 + 1) gs)) b /\ zlen (take m (logged db)) < zlen b) ->
  (length (logged dbi) <= m)%nat -> (i <= k)%nat.
Proof.
  intros Hw Hd Hdb Hdbi Hok Hb Hmaxk Hlt. destruct (le_gt_dec i k) as [|Hgt]; [done|exfalso]. destruct (Hmaxk Hgt) as (b & Hb' & Hlong).
  destruct (logged_layout w0 s0 db qs gs Hw Hd Hdb Hok Hb) as [Hlay _].
  assert (Hpi : concat gs = concat (take i gs) ++ concat (drop i gs)) by (by rewrite <- concat_app, take_drop).
  rewrite Hpi in Hok, Hb. apply Forall_app in Hok as [Hoki _], Hb as [Hbi _].
  destruct (logged_layout w0 s0 dbi qi (take i gs) Hw Hd Hdbi Hoki Hbi) as [Hli _].
  destruct (log_layout_take _ _ _ (S k) Hli) as (b1 & b2 & Ebi & Hb1). rewrite group_records_take, take_take, Nat.min_l in Hb1 by lia.
  rewrite group_records_take in Hb'. rewrite (log_layout_det _ _ _ _ Hb' Hb1) in Hlong.
  destruct (log_layout_take _ _ _ i Hlay) as (f1 & f2 & Ef & Hf1). rewrite group_records_take in Hf1. rewrite (log_layout_det _ _ _ _ Hf1 Hli) in Ef.
  rewrite length_take, Ef, Ebi, !length_app in Hlong. rewrite Ebi, length_app in Hlt. lia.
Qed.


End recovery.

(** Two groups; the crash cuts the second record off. *)
Definition crash_steps : list (addr * list (bool * list op)) :=
  [(4096, [(true, [OPut [107] [1]]); (false, [ODelete [108]])]); (8192, [(false, [OPut [107] [2]])])].


(** Run: the first group is recovered, the second record is not complete. *)
Example crash_example :
  (w0 ← Writer_new (mkWFile [] []) 64;
   '(_, db) ← Write_run BytewiseComparator bump_alloc (fun _ => 0) (map arrive crash_steps) (mkDB [] w0 (MemTable_new 5 [] 0) 0 Clear);
   '(st, ms, mx) ← RecoverLogFile BytewiseComparator bump_alloc (fun _ => 0) false (fun _ => false) (MemTable_new 5 [] 0) keep_table 3
     (take 40 (logged db)) 128 0 [];
   m ← from_opt Undefined (head ms);
   g ← Get BytewiseComparator m (LookupKey_new [107] 9) [] StOK;
   Ok (length (logged db), st, mx, g)) = Ok (51%nat, StOK, 2, (true, [1], StOK)).
Proof. vm_compute. reflexivity. Qed.
