(* ===== verification/DBTransaction.v ===== *)
(** * The first transaction class (db/dbtransaction_template.h)

    [DBTransaction] keeps the newest sequence number of a key in the hash table
    and all versions in the multi-version store.  A transaction reads a sequence
    number and then that version, validates the sequence numbers in an RTM region
    that also takes the numbers of its writes, and puts its versions into the
    store afterwards.  This file is the model: the sets, the operations of a
    transaction that runs alone, and the threads interleaved access by access. *)

From S2P Require Import Prelude HashTable QuickSort TXMemStore.

Inductive ValueType := kTypeDeletion | kTypeValue.

#[export] Instance ValueType_eq_dec : EqDecision ValueType.
Proof. solve_decision. Defined.

Inductive Status := StatusOK | StatusNotFound.

Section dbtransaction.
Context {K : Type} `{HashKey K} {T : Type} `{OrdTable (TableKey K) T}.

(** ** ReadSet *)

(** [rs_seq] is the node whose [seq] the pointer points to, or null. *)
Record RSSeqPair := mkRSSeqPair { rs_oldseq : Z; rs_seq : addr; rs_hash : Z }.

Record ReadSet := mkReadSet { rs_max_length : nat; rs_elems : nat; rs_seqs : list RSSeqPair }.

Definition ReadSet_ctor (junk : list RSSeqPair) : ReadSet := mkReadSet 1024 0 junk.

Definition ReadSet_Reset (r : ReadSet) : ReadSet := mkReadSet (rs_max_length r) 0 (rs_seqs r).

(** What [new RSSeqPair[]] holds is not read. *)
Definition RSSeqPair_0 : RSSeqPair := mkRSSeqPair 0 NULL 0.

Definition ReadSet_Resize (r : ReadSet) : ReadSet :=
  let max_length := (rs_max_length r * 2)%nat in
  mkReadSet max_length (rs_elems r)
    (take (rs_elems r) (rs_seqs r) ++ replicate (max_length - rs_elems r) RSSeqPair_0).

Definition ReadSet_Add (hash oldseq : Z) (ptr : addr) (r : ReadSet) : ReadSet :=
  let r := if (rs_elems r =? rs_max_length r)%nat then ReadSet_Resize r else r in
  let cur := rs_elems r in
  mkReadSet (rs_max_length r) (S cur) (<[cur := mkRSSeqPair oldseq ptr hash]> (rs_seqs r)).

Fixpoint Validate_loop (ht : table (K := K)) (l : list RSSeqPair) : result bool :=
  match l with
  | [] => Ok true
  | p :: l =>
      if negb (rs_seq p =? NULL) then
        n ← deref ht (rs_seq p);
        if negb (rs_oldseq p =? n_seq n) then Ok false else Validate_loop ht l
      else
        found ← GetMaxWithHash ht (rs_hash p);
        let curseq := default 0 found in
        if negb (rs_oldseq p =? curseq) then Ok false else Validate_loop ht l
  end.

Definition ReadSet_Validate (ht : table) (r : ReadSet) : result bool :=
  Validate_loop ht (take (rs_elems r) (rs_seqs r)).

(** ** WriteSet *)

Record WSKV := mkWSKV { kv_type : ValueType; kv_key : K; kv_val : addr }.
Record WSSeqPair := mkWSSeqPair { ws_wseq : Z; ws_seqptr : addr }.

(** The arrays [kvs] and [seqs], which have the same length. *)
Record WriteSet := mkWriteSet { ws_max_length : nat; ws_elems : nat; ws_kvs : list WSKV; ws_seqs : list WSSeqPair }.

Definition WriteSet_Reset (w : WriteSet) : WriteSet := mkWriteSet (ws_max_length w) 0 (ws_kvs w) (ws_seqs w).

(** [kv0] is what the new array holds. *)
Definition WriteSet_Resize (kv0 : WSKV) (w : WriteSet) : WriteSet :=
  let max_length := (ws_max_length w * 2)%nat in
  mkWriteSet max_length (ws_elems w)
    (take (ws_elems w) (ws_kvs w) ++ replicate (max_length - ws_elems w) kv0)
    (take (ws_elems w) (ws_seqs w) ++ replicate (max_length - ws_elems w) (mkWSSeqPair 0 NULL)).

Definition WriteSet_Add (type : ValueType) (key : K) (val seqptr : addr) (w : WriteSet) : WriteSet :=
  let kv := mkWSKV type key val in
  let w := if (ws_elems w =? ws_max_length w)%nat then WriteSet_Resize kv w else w in
  let cur := ws_elems w in
  mkWriteSet (ws_max_length w) (S cur) (<[cur := kv]> (ws_kvs w)) (<[cur := mkWSSeqPair 0 seqptr]> (ws_seqs w)).

(** The loop takes the next number of every written key. *)
Fixpoint Update_loop (l : list WSSeqPair) (ht : table (K := K)) : result (list WSSeqPair * table) :=
  match l with
  | [] => Ok ([], ht)
  | p :: l =>
      n ← deref ht (ws_seqptr p);
      let wseq := u64 (n_seq n + 1) in
      let ht := set_node (ws_seqptr p) (mkNode (n_hash n) (n_next n) (n_key n) wseq) ht in
      '(l, ht) ← Update_loop l ht;
      Ok (mkWSSeqPair wseq (ws_seqptr p) :: l, ht)
  end.

Definition UpdateGlobalSeqs (w : WriteSet) (ht : table) : result (WriteSet * table) :=
  '(l, ht) ← Update_loop (take (ws_elems w) (ws_seqs w)) ht;
  Ok (mkWriteSet (ws_max_length w) (ws_elems w) (ws_kvs w) (l ++ drop (ws_elems w) (ws_seqs w)), ht).

Fixpoint Lookup_loop (l : list WSKV) (key : K) : option (ValueType * addr) :=
  match l with
  | [] => None
  | kv :: l => if compare_ (kv_key kv) key =? 0 then Some (kv_type kv, kv_val kv) else Lookup_loop l key
  end.

Definition WriteSet_Lookup (w : WriteSet) (key : K) : option (ValueType * addr) :=
  Lookup_loop (take (ws_elems w) (ws_kvs w)) key.

(** The two arrays element by element, as [SwapWS] exchanges them. *)
Definition SortWS (left right : Z) (l : list (WSKV * WSSeqPair)) : result (list (WSKV * WSSeqPair)) :=
  Sort (fun a b => compare_ (kv_key a.1) (kv_key b.1)) (S (length l)) left right l.

(** [SORTWRITESET] is 0: the versions are put in the order of the writes. *)
Definition Commit (w : WriteSet) (memstore : T) : T :=
  foldl (fun st e => Put (kv_key e.1) (kv_val e.1) (ws_wseq e.2) st) memstore
    (zip (take (ws_elems w) (ws_kvs w)) (take (ws_elems w) (ws_seqs w))).

(** ** Transactions *)

(** The thread-local sets. *)
Record DBTransaction := mkDBTransaction { readset : ReadSet; writeset : WriteSet }.

(** The shared state: [latestseq_] and [txdb_]. *)
Record shared := mkShared { latestseq_ : table (K := K); txdb_ : T }.

Definition Begin (tx : DBTransaction) : DBTransaction :=
  mkDBTransaction (ReadSet_Reset (readset tx)) (WriteSet_Reset (writeset tx)).

(** [a], [gh], [gs]: fresh memory for a node. *)
Definition Add (a gh gs : Z) (type : ValueType) (key : K) (value : addr) (tx : DBTransaction) (g : shared) :
    result (DBTransaction * shared) :=
  '(node, ht) ← GetNodeWithInsert a gh gs key (latestseq_ g);
  Ok (mkDBTransaction (readset tx) (WriteSet_Add type key value node (writeset tx)), mkShared ht (txdb_ g)).

(** What [Get] returns, the status, and [*value] where it is written. *)
Definition answer : Type := bool * Status * option addr.

Definition Get_own (tx : DBTransaction) (key : K) : option answer :=
  match WriteSet_Lookup (writeset tx) key with
  | Some (kTypeValue, v) => Some (true, StatusOK, Some v)
  | Some (kTypeDeletion, v) => Some (true, StatusNotFound, Some v)
  | None => None
  end.

(** The loop around [txdb_->Get] needs one round when the version is there. *)
Definition Get (key : K) (tx : DBTransaction) (g : shared) : result (answer * DBTransaction) :=
  match Get_own tx key with
  | Some r => Ok (r, tx)
  | None =>
      node ← GetNode (latestseq_ g) key;
      if node =? NULL then
        Ok ((false, StatusNotFound, None),
            mkDBTransaction (ReadSet_Add (hashfunc_ key) 0 NULL (readset tx)) (writeset tx))
      else
        n ← deref (latestseq_ g) node;
        let seq := n_seq n in
        if seq =? 0 then Ok ((false, StatusNotFound, None), tx)
        else
          match TXMemStore.Get compare_ key seq (txdb_ g) with
          | Some v => Ok ((true, StatusOK, Some v), mkDBTransaction (ReadSet_Add (n_hash n) seq node (readset tx)) (writeset tx))
          | None => Fault OutOfFuel
          end
  end.

(** ** Batches *)

Record Batch := mkBatch { b_key : K; b_value : option addr; b_s : Status; b_seq : Z }.

Definition SortBatch (left right : Z) (bat : list Batch) : result (list Batch) :=
  Sort (fun a b => compare_ (b_key a) (b_key b)) (S (length bat)) left right bat.

Fixpoint batch_seqs (l : list Batch) (r : ReadSet) (ht : table) : result (list Batch * ReadSet) :=
  match l with
  | [] => Ok ([], r)
  | b :: l =>
      node ← GetNode ht (b_key b);
      '(seq, r) ←
        (if node =? NULL then Ok (0, ReadSet_Add (hashfunc_ (b_key b)) 0 NULL r)
         else n ← deref ht node; Ok (n_seq n, ReadSet_Add (n_hash n) (n_seq n) node r));
      '(l, r) ← batch_seqs l r ht;
      Ok (mkBatch (b_key b) (b_value b) (b_s b) seq :: l, r)
  end.

(** After 10001 rounds over all keys together the process exits; alone every key
    needs one round. *)
Fixpoint batch_values (count : Z) (l : list Batch) (st : T) : result (list Batch) :=
  match l with
  | [] => Ok []
  | b :: l =>
      if b_seq b =? 0 then
        l ← batch_values count l st;
        Ok (mkBatch (b_key b) (b_value b) StatusNotFound (b_seq b) :: l)
      else if 10000 <? count then Fault ExitCall
      else
        match TXMemStore.Get compare_ (b_key b) (b_seq b) st with
        | Some v =>
            l ← batch_values (count + 1) l st;
            Ok (mkBatch (b_key b) (Some v) StatusOK (b_seq b) :: l)
        | None => Fault ExitCall
        end
  end.

Definition GetBatch (keys : list Batch) (tx : DBTransaction) (g : shared) : result (list Batch * DBTransaction) :=
  keys ← SortBatch 0 (Z.of_nat (length keys) - 1) keys;
  '(keys, r) ← batch_seqs keys (readset tx) (latestseq_ g);
  keys ← batch_values 0 keys (txdb_ g);
  Ok (keys, mkDBTransaction r (writeset tx)).

(** ** Commit *)

Definition Validation (tx : DBTransaction) (g : shared) : result (bool * DBTransaction * shared) :=
  ok ← ReadSet_Validate (latestseq_ g) (readset tx);
  if negb ok then Ok (false, tx, g)
  else
    '(w, ht) ← UpdateGlobalSeqs (writeset tx) (latestseq_ g);
    Ok (true, mkDBTransaction (readset tx) w, mkShared ht (txdb_ g)).

Definition GlobalCommit (tx : DBTransaction) (g : shared) : DBTransaction * shared :=
  (mkDBTransaction (ReadSet_Reset (readset tx)) (WriteSet_Reset (writeset tx)),
   mkShared (latestseq_ g) (Commit (writeset tx) (txdb_ g))).

Definition End_ (tx : DBTransaction) (g : shared) : result (bool * DBTransaction * shared) :=
  '(ok, tx, g) ← Validation tx g;
  if negb ok then Ok (false, tx, g)
  else let '(tx, g) := GlobalCommit tx g in Ok (true, tx, g).

Definition Abort : bool := false.

(** ** Threads *)

(** A read that was answered from the store: the key, the value, and whether it is
    in the read set.  The reads and the log are kept for the statements only. *)
Record read := mkRead { rd_key : K; rd_ans : option addr; rd_checked : bool }.

(** A transaction that has validated: its reads, its writes in order. *)
Record entry := mkEntry { en_reads : list read; en_writes : list (K * addr) }.

Inductive action :=
  | ABegin
  | AGet (k : K)
  | AAdd (type : ValueType) (k : K) (v : addr)
  | AEnd
  | AAbort.

(** Outside of a transaction; in one; with the node of [Get]; in the loop of
    [Get]; in the loop of [Commit]. *)
Inductive phase :=
  | TIdle (tx : DBTransaction)
  | TRun (tx : DBTransaction) (reads : list read)
  | TSeq (tx : DBTransaction) (reads : list read) (k : K) (node : addr)
  | TFetch (tx : DBTransaction) (reads : list read) (k : K) (node : addr) (seq : Z)
  | TPut (tx : DBTransaction) (l : list (WSKV * WSSeqPair)).

Record input := mkInput { i_act : action; i_addr : addr; i_gh : Z; i_gs : Z }.

(** The writes of a write set with their sequence numbers. *)
Definition ws_entries (w : WriteSet) : list (WSKV * WSSeqPair) :=
  zip (take (ws_elems w) (ws_kvs w)) (take (ws_elems w) (ws_seqs w)).

(** One access of a thread.  Calls of the hash table and of the store are atomic
    (they are linearizable), the validation is an RTM region. *)
Definition tstep (e : input) (ph : phase) (g : shared) : result (phase * shared * option entry) :=
  match ph with
  | TIdle tx =>
      match i_act e with
      | ABegin => Ok (TRun (Begin tx) [], g, None)
      | _ => Ok (TIdle tx, g, None)
      end
  | TRun tx reads =>
      match i_act e with
      | ABegin => Ok (TRun (Begin tx) [], g, None)
      | AGet k =>
          match Get_own tx k with
          | Some _ => Ok (TRun tx reads, g, None)
          | None =>
              node ← GetNode (latestseq_ g) k;
              Ok (if node =? NULL then
                    (TRun (mkDBTransaction (ReadSet_Add (hashfunc_ k) 0 NULL (readset tx)) (writeset tx))
                       (reads ++ [mkRead k None true]), g, None)
                  else (TSeq tx reads k node, g, None))
          end
      | AAdd type k v =>
          '(tx, g) ← Add (i_addr e) (i_gh e) (i_gs e) type k v tx g;
          Ok (TRun tx reads, g, None)
      | AEnd =>
          '(ok, tx, g) ← Validation tx g;
          Ok (if negb ok then (TIdle tx, g, None)
              else (TPut tx (ws_entries (writeset tx)), g,
                    Some (mkEntry reads ((fun x => (kv_key x.1, kv_val x.1)) <$> ws_entries (writeset tx)))))
      | AAbort => Ok (TIdle tx, g, None)
      end
  | TSeq tx reads k node =>
      n ← deref (latestseq_ g) node;
      Ok (if n_seq n =? 0 then (TRun tx (reads ++ [mkRead k None false]), g, None)
          else (TFetch tx reads k node (n_seq n), g, None))
  | TFetch tx reads k node seq =>
      match TXMemStore.Get compare_ k seq (txdb_ g) with
      | Some v =>
          n ← deref (latestseq_ g) node;
          Ok (TRun (mkDBTransaction (ReadSet_Add (n_hash n) seq node (readset tx)) (writeset tx))
                (reads ++ [mkRead k (Some v) true]), g, None)
      | None => Ok (TFetch tx reads k node seq, g, None)
      end
  | TPut tx [] => Ok (TIdle (mkDBTransaction (ReadSet_Reset (readset tx)) (WriteSet_Reset (writeset tx))), g, None)
  | TPut tx (x :: l) => Ok (TPut tx l, mkShared (latestseq_ g) (Put (kv_key x.1) (kv_val x.1) (ws_wseq x.2) (txdb_ g)), None)
  end.

Record sys := mkSys { y_shared : shared; y_log : list entry; y_phases : list phase }.

Inductive step (s : sys) : sys -> Prop :=
  | step_thread j ph e ph' g' en :
      y_phases s !! j = Some ph -> i_addr e <> NULL -> ht_nodes (latestseq_ (y_shared s)) !! i_addr e = None ->
      tstep e ph (y_shared s) = Ok (ph', g', en) ->
      step s (mkSys g' (y_log s ++ option_list en) (<[j := ph']> (y_phases s))).

(** Empty sets, with the capacity of the constructors. *)
Definition tx0 (kv0 : WSKV) : DBTransaction :=
  mkDBTransaction (ReadSet_ctor (replicate 1024 RSSeqPair_0))
    (mkWriteSet 1024 0 (replicate 1024 kv0) (replicate 1024 (mkWSSeqPair 0 NULL))).

Definition start (kv0 : WSKV) (st0 : T) (n : nat) : sys :=
  mkSys (mkShared (mkTable initial_length 0 ∅ ∅) st0) [] (replicate n (TIdle (tx0 kv0))).

Inductive reachable (kv0 : WSKV) (st0 : T) (n : nat) : sys -> Prop :=
  | reach_start : reachable kv0 st0 n (start kv0 st0 n)
  | reach_step s s' : reachable kv0 st0 n s -> step s s' -> reachable kv0 st0 n s'.

End dbtransaction.
