(* ===== verification/DBTransactionInv.v ===== *)
(** * What [DBTransaction] guarantees

    The transactions that validated, in the order of their validations, form a
    serial history: every read in a read set returned the last value that the
    history before it had written.  The batches and the write set are sorted.
    The examples show the reads that are not validated and the writes that are
    read back wrongly. *)

From S2P Require Import Prelude HashTable HashTableInv QuickSort TXMemStore DBTransaction.

Section proofs.
Context {K : Type} `{EqDecision K} `{HashKeyLaws K} {T : Type} `{OrdTable (TableKey K) T}.
Context `{!OrdTableLaws (TableKey K) T (Compare compare_)}.
Implicit Types (ht : table (K := K)) (hist : list (K * addr)).

(** ** Histories *)

(** The values that a history of writes has for a key, oldest first. *)
Definition vals (k : K) hist : list addr := snd <$> filter (fun w => w.1 = k) hist.

Definition writes (log : list (entry (K := K))) : list (K * addr) := concat (en_writes <$> log).

(** Every checked read of a transaction is the last value written before. *)
Definition legal (log : list (entry (K := K))) : Prop :=
  forall i en r, log !! i = Some en -> r ∈ en_reads en -> rd_checked r = true ->
    rd_ans r = last (vals (rd_key r) (writes (take i log))).

Lemma vals_app k h1 h2 : vals k (h1 ++ h2) = vals k h1 ++ vals k h2.
Proof. unfold vals. by rewrite filter_app, fmap_app. Qed.

Lemma vals_one k k' v : vals k [(k', v)] = if decide (k' = k) then [v] else [].
Proof. unfold vals. rewrite filter_cons, filter_nil. cbn. by destruct (decide (k' = k)). Qed.

Lemma writes_app l1 l2 : writes (l1 ++ l2) = writes l1 ++ writes l2.
Proof. unfold writes. by rewrite fmap_app, concat_app. Qed.

Lemma writes_one en : writes [en] = en_writes en.
Proof. unfold writes. cbn. apply app_nil_r. Qed.

(** Version [s] of the key is [v]. *)
Definition version hist (k : K) (s : Z) (v : addr) : Prop := 1 <= s /\ vals k hist !! Z.to_nat (s - 1) = Some v.

Lemma version_app h1 h2 k s v : version h1 k s v -> version (h1 ++ h2) k s v.
Proof. intros [Hs Hv]. split; [done|]. rewrite vals_app. by apply lookup_app_l_Some. Qed.

Lemma version_last hist k v : version hist k (Z.of_nat (length (vals k hist))) v -> last (vals k hist) = Some v.
Proof.
  intros [Hs Hv]. rewrite last_lookup. rewrite <- Hv. f_equal. lia.
Qed.

(** ** The sequence numbers *)

(** A node counts the writes of its key. *)
Definition seqs_ok ht hist : Prop :=
  (forall k p n, abs ht k = Some p -> ht_nodes ht !! p = Some n -> n_seq n = Z.of_nat (length (vals k hist))) /\
  (forall k, abs ht k = None -> vals k hist = []).

(** What other threads keep of the table: nodes of keys stay where they are. *)
Definition ht_grows ht ht' : Prop := forall k p, abs ht k = Some p -> abs ht' k = Some p.

Lemma deref_node ht p n : p <> NULL -> ht_nodes ht !! p = Some n -> deref ht p = Ok n.
Proof. intros Hp Hn. unfold deref. by rewrite (proj2 (Z.eqb_neq _ _) Hp), Hn. Qed.

Lemma Update_loop_spec (es : list (WSKV (K := K) * WSSeqPair)) ht hist :
  table_ok ht -> seqs_ok ht hist -> Z.of_nat (length hist + length es) < 2 ^ 64 ->
  (forall x, x ∈ es -> abs ht (kv_key x.1) = Some (ws_seqptr x.2)) ->
  exists l' ht', Update_loop (snd <$> es) ht = Ok (l', ht') /\ length l' = length es /\ table_ok ht' /\
    (forall k, abs ht' k = abs ht k) /\
    let hist' := hist ++ ((fun x => (kv_key x.1, kv_val x.1)) <$> es) in
    seqs_ok ht' hist' /\
    (forall kv w, (kv, w) ∈ zip (fst <$> es) l' -> version hist' (kv_key kv) (ws_wseq w) (kv_val kv)) /\
    (forall k s v, version hist' k s v -> version hist k s v \/
       exists kv w, (kv, w) ∈ zip (fst <$> es) l' /\ kv_key kv = k /\ kv_val kv = v /\ ws_wseq w = s).
Proof.
  revert ht hist. induction es as [|[kv w] es IH]; intros ht hist Hok Hseq Hlen Hes.
  { exists [], ht. cbn. rewrite app_nil_r. split_and!; try done; [intros kv w; set_solver|by left]. }
  set (k := kv_key kv). set (p := ws_seqptr w).
  assert (Hk : abs ht k = Some p) by (apply (Hes (kv, w)); set_solver).
  destruct (abs_node ht k p Hok Hk) as (Hp & n & Hn & _ & _).
  change (snd <$> (kv, w) :: es) with (w :: (snd <$> es)). cbn [Update_loop]. fold p. rewrite (deref_node ht p n Hp Hn). unfold mbind, result_bind.
  assert (Hns : n_seq n = Z.of_nat (length (vals k hist))) by (by apply (proj1 Hseq k p)).
  assert (Hvl : (length (vals k hist) <= length hist)%nat).
  { unfold vals. rewrite length_fmap. apply length_filter. }
  set (n' := mkNode (n_hash n) (n_next n) (n_key n) (u64 (n_seq n + 1))). set (ht1 := set_node p n' ht).
  destruct (abs_set_seq ht p n (u64 (n_seq n + 1)) Hok Hn) as [Hok1 Habs1]. fold n' in Hok1, Habs1. fold ht1 in Hok1, Habs1.
  assert (Hu : u64 (n_seq n + 1) = n_seq n + 1) by (apply u64_small; simpl in Hlen; lia).
  assert (Hseq1 : seqs_ok ht1 (hist ++ [(k, kv_val kv)])).
  { split.
    - intros k' p' m Hk' Hm. rewrite Habs1 in Hk'. rewrite vals_app, vals_one, length_app. cbn in Hm.
      destruct (decide (p' = p)) as [->|Hne].
      + assert (k' = k) as -> by (by eapply (abs_inj ht)). rewrite lookup_insert_eq in Hm. injection Hm as <-. rewrite decide_True by done. cbn. lia.
      + rewrite lookup_insert_ne in Hm by done. rewrite (proj1 Hseq k' p' m Hk' Hm). rewrite decide_False by congruence. cbn. lia.
    - intros k' Hk'. rewrite Habs1 in Hk'. rewrite vals_app, vals_one, (proj2 Hseq k' Hk'). by rewrite decide_False by congruence. }
  destruct (IH ht1 (hist ++ [(k, kv_val kv)]) Hok1 Hseq1) as (l' & ht' & E & El & Hok' & Habs' & Hseq' & Hver & Hconv).
  { rewrite length_app. simpl in *. lia. } { intros x Hx. rewrite Habs1. apply Hes. set_solver. }
  rewrite E. exists (mkWSSeqPair (u64 (n_seq n + 1)) p :: l'), ht'. rewrite <- app_assoc in Hseq', Hver, Hconv. cbn in Hseq', Hver, Hconv.
  split_and!; try done.
  - cbn. by rewrite El.
  - intros k'. by rewrite Habs', Habs1.
  - intros kv' w' Hin. cbn in Hin. apply elem_of_cons in Hin as [[= -> ->]|Hin]; [|by apply Hver]. cbn [ws_wseq].
    rewrite Hu. split; [lia|]. fold k.
    change (_ <$> (kv, w) :: es) with ([(k, kv_val kv)] ++ ((fun x : WSKV * WSSeqPair => (kv_key x.1, kv_val x.1)) <$> es)).
    rewrite vals_app.
    rewrite vals_app, vals_one, decide_True by done. rewrite Hns.
    rewrite lookup_app_r by lia. replace (Z.to_nat (Z.of_nat (length (vals k hist)) + 1 - 1) - length (vals k hist))%nat with 0%nat by lia. done.
  - intros k' sq v Hv. destruct (Hconv k' sq v Hv) as [[Hs Hl]|(kv' & w' & Hin & Hw)]; [|right; exists kv', w'; split; [set_solver|done]].
    rewrite vals_app, vals_one in Hl. destruct (decide (k = k')) as [<-|Hne]; [|left; split; [done|by rewrite app_nil_r in Hl]].
    apply lookup_app_Some in Hl as [Hl|[Hge Hl]]; [by left; split|]. right. exists kv, (mkWSSeqPair (u64 (n_seq n + 1)) p).
    apply list_lookup_singleton_Some in Hl as [Hz <-]. split_and!; [set_solver|done|done|]. cbn [ws_wseq]. rewrite Hu. lia.
Qed.

(** ** The sets *)

Record rs_wf (r : ReadSet) : Prop := {
  rs_wf_seqs : length (rs_seqs r) = rs_max_length r;
  rs_wf_elems : (rs_elems r <= rs_max_length r)%nat;
  rs_wf_max : (0 < rs_max_length r)%nat
}.

Definition rs_list (r : ReadSet) : list RSSeqPair := take (rs_elems r) (rs_seqs r).

Lemma dt_ReadSet_Add_spec hash oldseq ptr r :
  rs_wf r -> rs_wf (ReadSet_Add hash oldseq ptr r) /\
  rs_list (ReadSet_Add hash oldseq ptr r) = rs_list r ++ [mkRSSeqPair oldseq ptr hash].
Proof.
  intros [Hs He Hm]. unfold ReadSet_Add, rs_list. destruct (Nat.eqb_spec (rs_elems r) (rs_max_length r)) as [E|E];
    cbn [ReadSet_Resize rs_max_length rs_elems rs_seqs].
  - assert (Hl : length (take (rs_elems r) (rs_seqs r) ++ replicate (rs_max_length r * 2 - rs_elems r) RSSeqPair_0) =
              (rs_max_length r * 2)%nat) by (rewrite length_resize; lia).
    split; [split; cbn [rs_max_length rs_elems rs_seqs]; rewrite ?length_insert; lia|].
    rewrite take_insert_snoc by lia. by rewrite take_resize by lia.
  - split; [split; cbn; rewrite ?length_insert; lia|]. by rewrite take_insert_snoc by lia.
Qed.

Record ws_wf (w : WriteSet (K := K)) : Prop := {
  ws_wf_kvs : length (ws_kvs w) = ws_max_length w;
  ws_wf_seqs : length (ws_seqs w) = ws_max_length w;
  ws_wf_elems : (ws_elems w <= ws_max_length w)%nat;
  ws_wf_max : (0 < ws_max_length w)%nat
}.

Lemma zip_snoc {A B} (l : list A) (l' : list B) x y :
  length l = length l' -> zip (l ++ [x]) (l' ++ [y]) = zip l l' ++ [(x, y)].
Proof. intros E. by rewrite zip_with_app. Qed.

Lemma dt_WriteSet_Add_spec type key val ptr w :
  ws_wf w -> ws_wf (WriteSet_Add type key val ptr w) /\
  ws_entries (WriteSet_Add type key val ptr w) = ws_entries w ++ [(mkWSKV type key val, mkWSSeqPair 0 ptr)].
Proof.
  intros [Hk Hs He Hm]. unfold WriteSet_Add, ws_entries. destruct (Nat.eqb_spec (ws_elems w) (ws_max_length w)) as [E|E];
    cbn [WriteSet_Resize ws_max_length ws_elems ws_kvs ws_seqs].
  - assert (Hl1 : forall x, length (take (ws_elems w) (ws_kvs w) ++ replicate (ws_max_length w * 2 - ws_elems w) x) =
              (ws_max_length w * 2)%nat) by (intros; rewrite length_resize; lia).
    assert (Hl2 : forall x, length (take (ws_elems w) (ws_seqs w) ++ replicate (ws_max_length w * 2 - ws_elems w) x) =
              (ws_max_length w * 2)%nat) by (intros; rewrite length_resize; lia).
    split; [split; cbn [ws_max_length ws_elems ws_kvs ws_seqs]; rewrite ?length_insert, ?Hl1, ?Hl2; lia|].
    rewrite !take_insert_snoc by (rewrite ?Hl1, ?Hl2; lia). rewrite !take_resize by lia. apply zip_snoc. rewrite !length_take. lia.
  - split; [split; cbn; rewrite ?length_insert; lia|]. rewrite !take_insert_snoc by lia. apply zip_snoc. rewrite !length_take. lia.
Qed.

Lemma ws_entries_fst w : ws_wf w -> fst <$> ws_entries w = take (ws_elems w) (ws_kvs w).
Proof. intros [? ? ? ?]. unfold ws_entries. apply fst_zip. rewrite !length_take. lia. Qed.

Lemma ws_entries_snd w : ws_wf w -> snd <$> ws_entries w = take (ws_elems w) (ws_seqs w).
Proof. intros [? ? ? ?]. unfold ws_entries. apply snd_zip. rewrite !length_take. lia. Qed.

Definition tx_wf (tx : DBTransaction (K := K)) : Prop := rs_wf (readset tx) /\ ws_wf (writeset tx).

Lemma Begin_wf tx : tx_wf tx -> tx_wf (Begin tx) /\ rs_list (readset (Begin tx)) = [] /\ ws_entries (writeset (Begin tx)) = [].
Proof. intros [[? ? ?] [? ? ? ?]]. split; [split; split; cbn; lia|]. done. Qed.

(** ** Validation *)

(** The pointers of a read set point to nodes of keys. *)
Definition ptrs_ok ht (l : list RSSeqPair) : Prop :=
  forall p, p ∈ l -> rs_seq p = NULL \/ exists k, abs ht k = Some (rs_seq p).

Definition validated ht (p : RSSeqPair) : Prop :=
  (rs_seq p <> NULL -> exists n, ht_nodes ht !! rs_seq p = Some n /\ rs_oldseq p = n_seq n) /\
  (rs_seq p = NULL -> exists r, GetMaxWithHash ht (rs_hash p) = Ok r /\ rs_oldseq p = default 0 r).

Lemma Validate_loop_spec ht l :
  table_ok ht -> ptrs_ok ht l ->
  exists b, Validate_loop ht l = Ok b /\ (b = true -> forall p, p ∈ l -> validated ht p).
Proof.
  intros Hok. induction l as [|p l IH]; intros Hp; [exists true; split; [done|]; intros _ p; set_solver|].
  destruct IH as (b & E & Hb); [intros q Hq; apply Hp; set_solver|]. cbn [Validate_loop].
  destruct (Z.eqb_spec (rs_seq p) NULL) as [En|En]; cbn [negb].
  - destruct (GetMaxWithHash_abs ht (rs_hash p) Hok) as (r & Er & _). rewrite Er. unfold mbind, result_bind.
    destruct (Z.eqb_spec (rs_oldseq p) (default 0 r)) as [Eo|]; cbn [negb]; [|by exists false].
    exists b. split; [done|]. intros Hb' q [->|Hq]%elem_of_cons; [|by apply Hb]. split; [done|]. intros _. by exists r.
  - destruct (Hp p) as [|[k Hk]]; [set_solver|done|]. destruct (abs_node ht k _ Hok Hk) as (_ & n & Hn & _).
    rewrite (deref_node ht _ n En Hn). unfold mbind, result_bind.
    destruct (Z.eqb_spec (rs_oldseq p) (n_seq n)) as [Eo|]; cbn [negb]; [|by exists false].
    exists b. split; [done|]. intros Hb' q [->|Hq]%elem_of_cons; [|by apply Hb]. split; [|done]. intros _. by exists n.
Qed.

(** ** Invariant *)

Definition tx_ok ht (tx : DBTransaction (K := K)) : Prop :=
  tx_wf tx /\ ptrs_ok ht (rs_list (readset tx)) /\
  forall x, x ∈ ws_entries (writeset tx) -> abs ht (kv_key x.1) = Some (ws_seqptr x.2).

(** A checked read has its word in the read set. *)
Definition read_ok ht hist (l : list RSSeqPair) (r : read (K := K)) : Prop :=
  rd_checked r = true -> exists p, p ∈ l /\
    match rd_ans r with
    | Some v => abs ht (rd_key r) = Some (rs_seq p) /\ version hist (rd_key r) (rs_oldseq p) v
    | None => p = mkRSSeqPair 0 NULL (hashfunc_ (rd_key r))
    end.

Definition run_ok ht hist (tx : DBTransaction (K := K)) (reads : list read) : Prop :=
  tx_ok ht tx /\ forall r, r ∈ reads -> read_ok ht hist (rs_list (readset tx)) r.

Definition phase_ok ht hist (ph : phase (K := K)) : Prop :=
  match ph with
  | TIdle tx => tx_wf tx
  | TRun tx reads => run_ok ht hist tx reads
  | TSeq tx reads k node => run_ok ht hist tx reads /\ abs ht k = Some node
  | TFetch tx reads k node seq => run_ok ht hist tx reads /\ abs ht k = Some node /\ 1 <= seq <= Z.of_nat (length (vals k hist))
  | TPut tx l => tx_wf tx /\ forall kv w, (kv, w) ∈ l -> version hist (kv_key kv) (ws_wseq w) (kv_val kv)
  end.

Lemma run_ok_mono ht ht' h1 h2 tx reads : ht_grows ht ht' -> run_ok ht h1 tx reads -> run_ok ht' (h1 ++ h2) tx reads.
Proof.
  intros Hg [(Hwf & Hp & Hw) Hr]. split; [split_and!; [done| |auto]|].
  - intros p Hin. destruct (Hp p Hin) as [|[k Hk]]; [by left|right; eauto].
  - intros r Hin Hc. destruct (Hr r Hin Hc) as (p & Hp' & Hm). exists p. split; [done|].
    destruct (rd_ans r) as [v|]; [|done]. destruct Hm. split; [auto|by apply version_app].
Qed.

Lemma phase_ok_mono ht ht' h1 h2 ph : ht_grows ht ht' -> phase_ok ht h1 ph -> phase_ok ht' (h1 ++ h2) ph.
Proof.
  intros Hg. destruct ph; cbn [phase_ok]; [done|by apply run_ok_mono|..].
  - intros [Hr Hk]. split; [by eapply run_ok_mono|auto].
  - intros (Hr & Hk & Hs). split_and!; [by eapply run_ok_mono|auto|lia|]. rewrite vals_app, length_app. lia.
  - intros [Hwf Hv]. split; [done|]. intros kv w Hin. by apply version_app, Hv.
Qed.

(** The version is in the store or its commit has yet to put it there. *)
Definition stored (st : T) (ths : list (phase (K := K))) (k : K) (s : Z) (v : addr) : Prop :=
  ot_in (mkTableKey k v s) st \/
  exists j tx l kv w, ths !! j = Some (TPut tx l) /\ (kv, w) ∈ l /\ kv_key kv = k /\ kv_val kv = v /\ ws_wseq w = s.

Record inv (s : sys (K := K) (T := T)) : Prop := {
  inv_table : table_ok (latestseq_ (y_shared s));
  inv_seqs : seqs_ok (latestseq_ (y_shared s)) (writes (y_log s));
  inv_wf : ot_wf (txdb_ (y_shared s));
  inv_store k v sq : ot_in (mkTableKey k v sq) (txdb_ (y_shared s)) -> version (writes (y_log s)) k sq v;
  inv_stored k v sq : version (writes (y_log s)) k sq v -> stored (txdb_ (y_shared s)) (y_phases s) k sq v;
  inv_phase j ph : y_phases s !! j = Some ph -> phase_ok (latestseq_ (y_shared s)) (writes (y_log s)) ph;
  inv_legal : legal (y_log s)
}.

(** ** Every access of a thread *)

Section step.
Context (s : sys (K := K) (T := T)) (j : nat) (e : input (K := K)).
Hypotheses (Hi : inv s) (Hnull : i_addr e <> NULL) (Hfresh : ht_nodes (latestseq_ (y_shared s)) !! i_addr e = None).
Let ht := latestseq_ (y_shared s).
Let st := txdb_ (y_shared s).
Let hist := writes (y_log s).

(** Thread [j] moves without a fault and keeps the invariant. *)
Definition moves (ph : phase) : Prop :=
  exists ph' g' en, tstep e ph (y_shared s) = Ok (ph', g', en) /\
    inv (mkSys g' (y_log s ++ option_list en) (<[j := ph']> (y_phases s))).

Definition putting (ph : phase (K := K)) : bool := match ph with TPut _ _ => true | _ => false end.

(** A move that neither commits nor puts. *)
Lemma move_quiet ph ph' ht' :
  y_phases s !! j = Some ph -> putting ph = false -> tstep e ph (y_shared s) = Ok (ph', mkShared ht' st, None) ->
  table_ok ht' -> seqs_ok ht' hist -> ht_grows ht ht' -> phase_ok ht' hist ph' -> moves ph.
Proof.
  intros Hj Hput Hstep Hok Hseq Hg Hph. exists ph', (mkShared ht' st), None. split; [done|]. cbn [option_list]. rewrite app_nil_r.
  destruct Hi as [_ _ Hwf Hst Hsd Hp Hleg]. split; cbn [y_shared y_log y_phases latestseq_ txdb_]; try done.
  - intros k v sq Hv. destruct (Hsd k v sq Hv) as [|(i & tx & l & kv & w & Hl & Hw)]; [by left|right].
    exists i, tx, l, kv, w. split; [|done]. rewrite list_lookup_insert_ne; [done|]. intros <-. rewrite Hj in Hl. by injection Hl as ->.
  - intros i q [(-> & -> & _)|[Hne Hq]]%list_lookup_insert_Some; [done|]. fold hist. rewrite <- (app_nil_r hist).
    eapply phase_ok_mono; [exact Hg|]. by apply (Hp i).
Qed.

Lemma move_local ph ph' :
  y_phases s !! j = Some ph -> putting ph = false -> tstep e ph (y_shared s) = Ok (ph', y_shared s, None) ->
  phase_ok ht hist ph' -> moves ph.
Proof.
  intros Hj Hput Hstep Hph. eapply (move_quiet ph ph' ht); try done; [|apply Hi|apply Hi|by intros k p].
  rewrite Hstep. unfold ht, st. by destruct (y_shared s).
Qed.

Lemma run_add_read tx reads hash oldseq ptr r :
  run_ok ht hist tx reads -> (ptr = NULL \/ exists k, abs ht k = Some ptr) ->
  (rd_checked r = true -> match rd_ans r with
    | Some v => abs ht (rd_key r) = Some ptr /\ version hist (rd_key r) oldseq v
    | None => mkRSSeqPair oldseq ptr hash = mkRSSeqPair 0 NULL (hashfunc_ (rd_key r))
    end) ->
  run_ok ht hist (mkDBTransaction (ReadSet_Add hash oldseq ptr (readset tx)) (writeset tx)) (reads ++ [r]).
Proof.
  intros [([Hrs Hws] & Hp & Hw) Hr] Hptr Hnew. destruct (dt_ReadSet_Add_spec hash oldseq ptr (readset tx) Hrs) as [Hwf El].
  split; [split; [by split|split; [|done]]|]; cbn [readset writeset]; rewrite El.
  - intros p [Hin| ->%list_elem_of_singleton]%elem_of_app; [by apply Hp|done].
  - intros r' [Hin| ->%list_elem_of_singleton]%elem_of_app Hc.
    + destruct (Hr r' Hin Hc) as (p & Hpl & Hm). exists p. split; [set_solver|done].
    + eexists. split; [apply elem_of_app; right; apply list_elem_of_singleton; done|]. specialize (Hnew Hc).
      destruct (rd_ans r); [done|]. exact Hnew.
Qed.

(** A read that is not recorded. *)
Lemma run_skip_read tx reads k : run_ok ht hist tx reads -> run_ok ht hist tx (reads ++ [mkRead k None false]).
Proof.
  intros [Htx Hr]. split; [done|]. intros r [Hin| ->%list_elem_of_singleton]%elem_of_app; [by apply Hr|done].
Qed.

Lemma run_begin tx : tx_wf tx -> run_ok ht hist (Begin tx) [].
Proof.
  intros Hwf. destruct (Begin_wf tx Hwf) as (Hwf' & E1 & E2). split; [split; [done|split]|].
  - intros p. rewrite E1. set_solver.
  - intros x. rewrite E2. set_solver.
  - intros r. set_solver.
Qed.

Lemma move_txget tx reads k :
  y_phases s !! j = Some (TRun tx reads) -> i_act e = AGet k -> moves (TRun tx reads).
Proof.
  intros Hj Ea. pose proof (inv_phase _ Hi _ _ Hj) as Hrun. cbn [phase_ok] in Hrun. fold ht hist in Hrun.
  destruct (Get_own tx k) eqn:Eo.
  - eapply (move_local _ (TRun tx reads)); [done..| |done]. cbn [tstep]. by rewrite Ea, Eo.
  - pose proof (GetNode_abs ht k (inv_table _ Hi)) as Hn. destruct (abs ht k) as [p|] eqn:Hk; cbn in Hn.
    + destruct (abs_node ht k p (inv_table _ Hi) Hk) as [Hp _].
      eapply (move_local _ (TSeq tx reads k p)); [done..| |done]. cbn [tstep]. rewrite Ea, Eo. fold ht. rewrite Hn.
      unfold mbind, result_bind. by rewrite (proj2 (Z.eqb_neq _ _) Hp).
    + eapply (move_local _ (TRun _ _)); [done..| |]; [cbn [tstep]; rewrite Ea, Eo; fold ht; rewrite Hn; reflexivity|].
      apply run_add_read; [done|by left|done].
Qed.

Lemma move_seq tx reads k node : y_phases s !! j = Some (TSeq tx reads k node) -> moves (TSeq tx reads k node).
Proof.
  intros Hj. pose proof (inv_phase _ Hi _ _ Hj) as [Hrun Hk]. fold ht hist in Hrun, Hk.
  destruct (abs_node ht k node (inv_table _ Hi) Hk) as (Hp & n & Hn & _).
  pose proof (proj1 (inv_seqs _ Hi) k node n Hk Hn) as Hs. fold hist in Hs.
  assert (Hstep : tstep e (TSeq tx reads k node) (y_shared s) =
            Ok (if n_seq n =? 0 then (TRun tx (reads ++ [mkRead k None false]), y_shared s, None)
                else (TFetch tx reads k node (n_seq n), y_shared s, None))).
  { cbn [tstep]. fold ht. by rewrite (deref_node ht node n Hp Hn). }
  destruct (Z.eqb_spec (n_seq n) 0).
  - eapply move_local; [done..|exact Hstep|]. by apply run_skip_read.
  - eapply move_local; [done..|exact Hstep|]. split; [done|]. split; [done|lia].
Qed.

Lemma move_fetch tx reads k node seq : y_phases s !! j = Some (TFetch tx reads k node seq) -> moves (TFetch tx reads k node seq).
Proof.
  intros Hj. pose proof (inv_phase _ Hi _ _ Hj) as (Hrun & Hk & Hs). fold ht hist in Hrun, Hk, Hs.
  destruct (abs_node ht k node (inv_table _ Hi) Hk) as (Hp & n & Hn & _).
  destruct (TXMemStore.Get compare_ k seq st) as [v|] eqn:Ev.
  - eapply (move_local _ (TRun _ _)); [done..| |].
    + cbn [tstep]. fold st. rewrite Ev. fold ht. rewrite (deref_node ht node n Hp Hn). reflexivity.
    + apply run_add_read; [done|right; by exists k|]. cbn. intros _. split; [done|].
      apply (Get_iff compare_ compare_eq) in Ev; [|apply Hi]. by apply (inv_store _ Hi).
  - eapply (move_local _ (TFetch tx reads k node seq)); [done..| |done]. cbn [tstep]. fold st. by rewrite Ev.
Qed.

Lemma move_add tx reads type k v :
  y_phases s !! j = Some (TRun tx reads) -> i_act e = AAdd type k v -> moves (TRun tx reads).
Proof.
  intros Hj Ea. pose proof (inv_phase _ Hi _ _ Hj) as Hrun. cbn [phase_ok] in Hrun. fold ht hist in Hrun.
  destruct (GetNodeWithInsert_spec ht k (i_addr e) (i_gh e) (i_gs e) (inv_table _ Hi) Hnull Hfresh)
    as (r & ht' & E & Hok & Hk & Hne & Hold & Hsub & Hnew).
  assert (Hg : ht_grows ht ht').
  { intros k' p' Hk'. destruct (decide (k' = k)) as [->|Hd]; [|by rewrite Hne]. by rewrite Hk, (Hold p' Hk'). }
  eapply (move_quiet _ (TRun _ reads) ht'); [done|done| |done| |done|].
  - cbn [tstep]. rewrite Ea. unfold Add. fold ht. rewrite E. reflexivity.
  - destruct (inv_seqs _ Hi) as [Hs1 Hs2]. fold ht hist in Hs1, Hs2. split.
    + intros k' p' n Hk' Hn. destruct (abs ht k') as [q|] eqn:Hq.
      * assert (p' = q) as -> by (rewrite (Hg _ _ Hq) in Hk'; congruence). destruct (abs_node ht k' q (inv_table _ Hi) Hq) as (_ & m & Hm & _).
        assert (n = m) as -> by (rewrite (Hsub _ _ Hm) in Hn; congruence). by apply (Hs1 k' q).
      * destruct (decide (k' = k)) as [->|Hd]; [|rewrite Hne in Hk'; congruence].
        destruct (Hnew Hq) as (m & Hm & Em). rewrite Hk in Hk'. injection Hk' as <-. rewrite Hm in Hn. injection Hn as <-.
        by rewrite Em, (Hs2 k Hq).
    + intros k' Hk'. apply Hs2. destruct (abs ht k') as [q|] eqn:Hq; [|done]. rewrite (Hg _ _ Hq) in Hk'. congruence.
  - apply (run_ok_mono _ _ hist [] _ _ Hg) in Hrun. rewrite app_nil_r in Hrun. destruct Hrun as [([Hrs Hws] & Hp & Hw) Hr].
    destruct (dt_WriteSet_Add_spec type k v r (writeset tx) Hws) as [Hwf El].
    split; [split; [by split|split; [done|]]|done]. cbn [writeset]. rewrite El.
    intros x [Hin| ->%list_elem_of_singleton]%elem_of_app; [by apply Hw|]. cbn. exact Hk.
Qed.

(** A validated read is the last value of the history. *)
Lemma read_last l r :
  (forall p, p ∈ l -> validated ht p) -> read_ok ht hist l r -> rd_checked r = true -> rd_ans r = last (vals (rd_key r) hist).
Proof.
  intros Hval Hr Hc. destruct (Hr Hc) as (p & Hp & Hm). destruct (Hval p Hp) as [Hv1 Hv2].
  destruct (inv_seqs _ Hi) as [Hs1 Hs2]. fold ht hist in Hs1, Hs2. destruct (rd_ans r) as [v|].
  - destruct Hm as [Hk Hver]. destruct (abs_node ht _ _ (inv_table _ Hi) Hk) as (Hnn & _).
    destruct (Hv1 Hnn) as (n & Hn & Eo). rewrite Eo, (Hs1 _ _ n Hk Hn) in Hver. symmetry. by apply version_last.
  - subst p. cbn in Hv2. destruct (Hv2 eq_refl) as (r0 & Er & E0).
    assert (Hnil : vals (rd_key r) hist = []); [|by rewrite Hnil].
    destruct (abs ht (rd_key r)) as [q|] eqn:Hk; [|by apply Hs2].
    destruct (GetMaxWithHash_abs ht (hashfunc_ (rd_key r)) (inv_table _ Hi)) as (r1 & Er1 & Hle). rewrite Er in Er1. injection Er1 as <-.
    destruct (abs_node ht _ _ (inv_table _ Hi) Hk) as (_ & n & Hn & _). specialize (Hle _ _ _ Hk eq_refl Hn).
    rewrite (Hs1 _ _ n Hk Hn) in Hle. apply length_zero_iff_nil. lia.
Qed.

Lemma legal_snoc en :
  (forall r, r ∈ en_reads en -> rd_checked r = true -> rd_ans r = last (vals (rd_key r) hist)) -> legal (y_log s ++ [en]).
Proof.
  intros Hen i en' r Hl Hr Hc. apply lookup_app_Some in Hl as [Hl|[Hge Hl]].
  - rewrite take_app_le by (apply lookup_lt_Some in Hl; lia). by eapply (inv_legal _ Hi).
  - apply list_lookup_singleton_Some in Hl as [Hz <-]. replace i with (length (y_log s)) by lia. rewrite take_app_length. by apply Hen.
Qed.

(** The write set after [UpdateGlobalSeqs]. *)
Lemma updated_entries w l' :
  ws_wf w -> length l' = length (ws_entries w) ->
  let w' := mkWriteSet (ws_max_length w) (ws_elems w) (ws_kvs w) (l' ++ drop (ws_elems w) (ws_seqs w)) in
  ws_wf w' /\ ws_entries w' = zip (fst <$> ws_entries w) l' /\
  ((fun x => (kv_key x.1, kv_val x.1)) <$> ws_entries w') = ((fun x => (kv_key x.1, kv_val x.1)) <$> ws_entries w).
Proof.
  intros Hwf El w'. pose proof (ws_entries_fst w Hwf) as Ef. destruct Hwf as [Hk Hs He Hm].
  assert (Hll : length l' = ws_elems w) by (rewrite El; unfold ws_entries; rewrite length_zip_with, !length_take; lia).
  assert (E : ws_entries w' = zip (fst <$> ws_entries w) l').
  { rewrite Ef. unfold ws_entries, w'. cbn. f_equal. rewrite <- Hll at 1. by rewrite take_app_length. }
  split; [split; cbn; rewrite ?length_app, ?length_drop; lia|]. split; [done|]. rewrite E.
  assert (Hfst : forall l : list (WSKV (K := K) * WSSeqPair), (fun x => (kv_key x.1, kv_val x.1)) <$> l = (fun kv => (kv_key kv, kv_val kv)) <$> (fst <$> l)).
  { intros l. by rewrite <- list_fmap_compose. }
  rewrite !Hfst. f_equal. apply fst_zip. rewrite length_fmap, El. lia.
Qed.

Lemma move_end tx reads :
  y_phases s !! j = Some (TRun tx reads) -> i_act e = AEnd ->
  (ReadSet_Validate ht (readset tx) = Ok true -> Z.of_nat (length hist + length (ws_entries (writeset tx))) < 2 ^ 64) ->
  moves (TRun tx reads).
Proof.
  intros Hj Ea Hlen0. pose proof (inv_phase _ Hi _ _ Hj) as Hrun. cbn [phase_ok] in Hrun. fold ht hist in Hrun.
  destruct Hrun as [([Hrs Hws] & Hp & Hw) Hr].
  destruct (Validate_loop_spec ht (rs_list (readset tx)) (inv_table _ Hi) Hp) as (b & Eb & Hb).
  destruct b.
  2:{ eapply (move_local _ (TIdle tx)); [done..| |done]. cbn [tstep]. rewrite Ea. unfold Validation, ReadSet_Validate. fold ht.
      fold (rs_list (readset tx)). by rewrite Eb. }
  specialize (Hlen0 Eb) as Hlen.
  destruct (Update_loop_spec (ws_entries (writeset tx)) ht hist (inv_table _ Hi) (inv_seqs _ Hi) Hlen Hw)
    as (l' & ht' & Eu & El & Hok' & Habs' & Hseq' & Hver & Hconv).
  destruct (updated_entries (writeset tx) l' Hws El) as (Hwf' & Ee & Ew). set (w' := mkWriteSet _ _ _ _) in *.
  set (tx' := mkDBTransaction (readset tx) w'). set (en := mkEntry reads ((fun x => (kv_key x.1, kv_val x.1)) <$> ws_entries w')).
  exists (TPut tx' (ws_entries w')), (mkShared ht' st), (Some en). split.
  { cbn [tstep]. rewrite Ea. unfold Validation, ReadSet_Validate. fold ht. fold (rs_list (readset tx)). rewrite Eb.
    unfold mbind, result_bind. cbn [negb]. unfold UpdateGlobalSeqs. rewrite <- (ws_entries_snd _ Hws), Eu. done. }
  change (option_list (Some en)) with [en].
  assert (Ehist : writes (y_log s ++ [en]) = hist ++ ((fun x => (kv_key x.1, kv_val x.1)) <$> ws_entries (writeset tx))).
  { rewrite writes_app, writes_one. subst en. cbn [en_writes]. by rewrite Ew. }
  split; cbn [y_shared y_log y_phases latestseq_ txdb_]; rewrite ?Ehist.
  - done.
  - done.
  - apply Hi.
  - intros k v sq Hin. by apply version_app, (inv_store _ Hi).
  - intros k v sq Hv. destruct (Hconv k sq v Hv) as [Hv'|(kv & w & Hin & Hx)].
    + destruct (inv_stored _ Hi k v sq Hv') as [|(i & tx1 & l & kv & w & Hl & Hx)]; [by left|right]. exists i, tx1, l, kv, w.
      split; [|done]. rewrite list_lookup_insert_ne; [done|]. intros <-. congruence.
    + right. exists j, tx', (ws_entries w'), kv, w. split; [|by rewrite Ee].
      apply list_lookup_insert_eq. by eapply lookup_lt_Some.
  - intros i q [(-> & <- & _)|[Hne Hq]]%list_lookup_insert_Some.
    + split; [by split|]. intros kv w Hin. rewrite Ee in Hin. by apply Hver.
    + eapply phase_ok_mono; [|by apply (inv_phase _ Hi i)]. intros k p. by rewrite Habs'.
  - apply legal_snoc. intros r Hin Hc. eapply read_last; [by apply Hb|by apply Hr|done].
Qed.

Lemma move_put tx l : y_phases s !! j = Some (TPut tx l) -> moves (TPut tx l).
Proof.
  intros Hj. pose proof (inv_phase _ Hi _ _ Hj) as [[Hrs Hws] Hv]. fold ht hist in Hv.
  pose proof (lookup_lt_Some _ _ _ Hj) as Hlt. destruct l as [|[kv w] l].
  - destruct (Begin_wf tx (conj Hrs Hws)) as [Hwf _]. exists (TIdle (Begin tx)), (y_shared s), None. split; [done|].
    cbn [option_list]. rewrite app_nil_r. destruct Hi as [Ht Hsq Hwf0 Hst Hsd Hp Hleg]. split; cbn [y_shared y_log y_phases]; try done.
    + intros k v sq Hver. destruct (Hsd k v sq Hver) as [|(i & tx1 & l1 & kv & w & Hl & Hin & Hx)]; [by left|right].
      exists i, tx1, l1, kv, w. split; [|done]. rewrite list_lookup_insert_ne; [done|]. intros <-. rewrite Hj in Hl.
      injection Hl as <- <-. set_solver.
    + intros i q [(-> & <- & _)|[Hne Hq]]%list_lookup_insert_Some; [done|]. by apply (Hp i).
  - set (st' := Put (kv_key kv) (kv_val kv) (ws_wseq w) st).
    assert (Hin : forall k v sq, ot_in (mkTableKey k v sq) st' <-> ot_in (mkTableKey k v sq) st \/
              (k = kv_key kv /\ v = kv_val kv /\ sq = ws_wseq w /\ forall u, ~ ot_in (mkTableKey (kv_key kv) u (ws_wseq w)) st)).
    { intros k v sq. apply (Put_in compare_ compare_eq). apply Hi. }
    pose proof (Hv kv w ltac:(set_solver)) as Hvkv. exists (TPut tx l), (mkShared ht st'), None. split; [done|].
    cbn [option_list]. rewrite app_nil_r. split; cbn [y_shared y_log y_phases latestseq_ txdb_].
    + apply Hi.
    + apply Hi.
    + apply Put_wf, Hi.
    + intros k v sq [Hold|(-> & -> & -> & _)]%Hin; [by apply (inv_store _ Hi)|done].
    + intros k v sq Hver. destruct (inv_stored _ Hi k v sq Hver) as [Hold|(i & tx1 & l1 & kv1 & w1 & Hl & Hin1 & Ek & Evl & Es)].
      { left. apply Hin. by left. }
      destruct (decide (i = j)) as [->|Hne]; [|right; exists i, tx1, l1, kv1, w1; split; [by rewrite list_lookup_insert_ne|done]].
      rewrite Hj in Hl. injection Hl as <- <-. apply elem_of_cons in Hin1 as [[= -> ->]|Hin1].
      * left. subst k v sq. destruct (TXMemStore.Get compare_ (kv_key kv) (ws_wseq w) st) as [u|] eqn:Eg.
        -- apply (Get_iff compare_ compare_eq) in Eg; [|apply Hi]. pose proof (inv_store _ Hi _ _ _ Eg) as [_ Hu]. destruct Hvkv as [_ Hkv].
           fold hist in Hu. assert (u = kv_val kv) as -> by congruence. apply Hin. by left.
        -- apply Hin. right. split_and!; [done..|]. intros u Hu. apply (Get_iff compare_ compare_eq) in Hu; [congruence|apply Hi].
      * right. exists j, tx, l, kv1, w1. split; [by apply list_lookup_insert_eq|done].
    + intros i q [(-> & <- & _)|[Hne Hq]]%list_lookup_insert_Some; [|by apply (inv_phase _ Hi i)].
      split; [by split|]. intros kv1 w1 Hin1. apply Hv. set_solver.
    + apply Hi.
Qed.

Lemma dt_thread_moves ph :
  y_phases s !! j = Some ph ->
  (forall tx reads, ph = TRun tx reads -> i_act e = AEnd -> ReadSet_Validate ht (readset tx) = Ok true ->
     Z.of_nat (length hist + length (ws_entries (writeset tx))) < 2 ^ 64) ->
  moves ph.
Proof.
  intros Hj Hroom. pose proof (inv_phase _ Hi _ _ Hj) as Hph.
  destruct ph as [tx|tx reads|tx reads k node|tx reads k node seq|tx l].
  - destruct (i_act e) eqn:Ea; [eapply (move_local _ (TRun (Begin tx) []))|eapply (move_local _ (TIdle tx))..]; try done; try (cbn [tstep]; by rewrite Ea).
    by apply run_begin.
  - destruct (i_act e) as [|k|type k v| |] eqn:Ea.
    + eapply (move_local _ (TRun (Begin tx) [])); [done..| |]; [cbn [tstep]; by rewrite Ea|]. apply run_begin. apply Hph.
    + by eapply move_txget.
    + by eapply move_add.
    + eapply move_end; [done..|]. by eapply Hroom.
    + eapply (move_local _ (TIdle tx)); [done..| |]; [cbn [tstep]; by rewrite Ea|]. apply Hph.
  - by apply move_seq.
  - by apply move_fetch.
  - by apply move_put.
Qed.

End step.

(** ** Runs *)

Lemma Update_loop_length l ht l' ht' : Update_loop l ht = Ok (l', ht') -> length l' = length l.
Proof.
  revert ht l' ht'. induction l as [|p l IH]; intros ht l' ht' E; cbn in E; [by injection E as <- <-|].
  destruct (deref ht (ws_seqptr p)) as [n|]; [|done]. cbn in E. destruct (Update_loop l _) as [[l1 ht1]|] eqn:E1; [|done].
  cbn in E. injection E as <- <-. cbn. f_equal. by eapply IH.
Qed.

(** A commit logs as many writes as the write set has. *)
Lemma commit_length e tx reads g ph' g' en :
  ws_wf (writeset tx) -> i_act e = AEnd -> ReadSet_Validate (latestseq_ g) (readset tx) = Ok true ->
  tstep (T := T) e (TRun tx reads) g = Ok (ph', g', en) ->
  length (writes (option_list en)) = length (ws_entries (writeset tx)).
Proof.
  intros Hws Ea Ev. cbn [tstep]. rewrite Ea. unfold Validation. rewrite Ev. unfold mbind, result_bind. cbn [negb].
  unfold UpdateGlobalSeqs, mbind, result_bind. destruct (Update_loop _ _) as [[l' ht']|] eqn:Eu; [|done]. cbn [negb].
  intros [= _ _ <-]. change (option_list (Some ?x)) with [x]. rewrite writes_one. cbn [en_writes].
  apply Update_loop_length in Eu. rewrite <- (ws_entries_snd _ Hws), length_fmap in Eu.
  destruct (updated_entries (writeset tx) l' Hws Eu) as (_ & _ & Ew). cbn [writeset]. rewrite Ew. apply length_fmap.
Qed.

Lemma dt_step_inv s s' : inv s -> step s s' -> Z.of_nat (length (writes (y_log s'))) < 2 ^ 64 -> inv s'.
Proof.
  intros Hi [j ph e ph' g' en Hj Hnull Hf Hstep] Hlen. cbn [y_log] in Hlen. rewrite writes_app, length_app in Hlen.
  destruct (dt_thread_moves s j e Hi Hnull Hf ph Hj) as (ph1 & g1 & en1 & E & Hinv).
  - intros tx reads -> Ea Ev. pose proof (inv_phase _ Hi _ _ Hj) as [([_ Hws] & _) _].
    rewrite <- (commit_length e tx reads _ _ _ _ Hws Ea Ev Hstep). exact Hlen.
  - rewrite Hstep in E. by injection E as <- <- <-.
Qed.

Lemma abs_empty (k : K) : abs (mkTable initial_length 0 ∅ ∅) k = None.
Proof. by rewrite (abs_chain _ (fun _ => [])). Qed.

Lemma dt_start_inv kv0 st0 n : ot_wf st0 -> (forall x, ~ ot_in x st0) -> inv (start kv0 st0 n).
Proof.
  intros Hwf Hemp. split; cbn [start y_shared y_log y_phases latestseq_ txdb_].
  - split; [done|]. by exists (fun _ => []).
  - split; [|done]. intros k p nd. by rewrite abs_empty.
  - done.
  - intros k v sq Hin. by apply Hemp in Hin.
  - intros k v sq [_ Hl]. done.
  - intros j ph [-> _]%lookup_replicate. cbn [phase_ok]. split; split; cbn -[replicate]; rewrite ?length_replicate; lia.
  - intros i en r Hl. done.
Qed.

Lemma dt_reachable_inv kv0 st0 n s :
  ot_wf st0 -> (forall x, ~ ot_in x st0) -> reachable kv0 st0 n s -> Z.of_nat (length (writes (y_log s))) < 2 ^ 64 -> inv s.
Proof.
  intros Hwf Hemp. induction 1 as [|s s' _ IH Hs]; intros Hlen; [by apply dt_start_inv|]. eapply dt_step_inv; [|done|done].
  apply IH. destruct Hs. cbn [y_log] in Hlen. rewrite writes_app, length_app in Hlen. lia.
Qed.


(** ** Sorting *)

Section sorting.
Hypothesis compare_total : forall a b : K, 0 < compare_ a b -> compare_ b a <= 0.
Hypothesis compare_trans : forall a b c : K, compare_ a b <= 0 -> compare_ b c <= 0 -> compare_ a c <= 0.

(** The elements are in the order of their keys. *)
Definition in_order {A} (key : A -> K) (l : list A) : Prop :=
  forall (i j : nat) x y, (i < j)%nat -> l !! i = Some x -> l !! j = Some y -> compare_ (key x) (key y) <= 0.

Lemma Sort_all {A} (key : A -> K) (l : list A) :
  exists l', Sort (fun a b => compare_ (key a) (key b)) (S (length l)) 0 (Z.of_nat (length l) - 1) l = Ok l' /\
    l' ≡ₚ l /\ in_order key l'.
Proof using compare_total compare_trans.
  destruct (Sort_spec (fun a b => compare_ (key a) (key b)) ltac:(intros; by apply compare_total)
              ltac:(intros; by eapply compare_trans) (S (length l)) 0 (Z.of_nat (length l) - 1) l) as (l' & E & Hre & Hso); try lia.
  exists l'. split_and!; [done|apply Hre|]. intros i j x y Hij Hx Hy.
  apply lookup_lt_Some in Hy as Hlt. rewrite (re_length _ _ _ _ Hre) in Hlt.
  apply (Hso (Z.of_nat i) (Z.of_nat j)); [lia..| |]; unfold at_; rewrite (proj2 (Z.leb_le 0 _)), Nat2Z.id by lia; done.
Qed.

(** [SortBatch] and [SortWS] end without leaving the array and sort by key:
    the result is a permutation of the input in key order; the two arrays of the
    write set are permuted together. *)
Lemma batch_and_writes_sorted (bat : list (Batch (K := K))) (ws : list (WSKV (K := K) * WSSeqPair)) :
  (exists bat', SortBatch 0 (Z.of_nat (length bat) - 1) bat = Ok bat' /\ bat' ≡ₚ bat /\ in_order b_key bat') /\
  (exists ws', SortWS 0 (Z.of_nat (length ws) - 1) ws = Ok ws' /\ ws' ≡ₚ ws /\ in_order (fun e => kv_key e.1) ws').
Proof using compare_total compare_trans. split; apply Sort_all. Qed.

(** ** Batches *)

(** The answer of a batch for a key: the newest value and its number. *)
Definition answered hist (b b' : Batch (K := K)) : Prop :=
  b_key b' = b_key b /\ b_seq b' = Z.of_nat (length (vals (b_key b) hist)) /\
  match last (vals (b_key b) hist) with
  | Some v => b_s b' = StatusOK /\ b_value b' = Some v
  | None => b_s b' = StatusNotFound /\ b_value b' = b_value b
  end.

(** After the second step of [GetBatch]. *)
Definition numbered hist (b b' : Batch (K := K)) : Prop :=
  b_key b' = b_key b /\ b_value b' = b_value b /\ b_seq b' = Z.of_nat (length (vals (b_key b) hist)).

Lemma batch_seqs_spec ht hist (l : list (Batch (K := K))) r :
  table_ok ht -> seqs_ok ht hist ->
  exists l' r', batch_seqs l r ht = Ok (l', r') /\ Forall2 (numbered hist) l l'.
Proof.
  intros Hok [Hs1 Hs2]. revert r. induction l as [|b l IH]; intros r; [by exists [], r|]. cbn [batch_seqs].
  rewrite (GetNode_abs ht (b_key b) Hok). unfold mbind, result_bind.
  destruct (abs ht (b_key b)) as [p|] eqn:Hk; cbn [from_option id].
  - destruct (abs_node ht _ _ Hok Hk) as (Hp & n & Hn & _). rewrite (proj2 (Z.eqb_neq _ _) Hp), (deref_node _ _ _ Hp Hn).
    destruct (IH (ReadSet_Add (n_hash n) (n_seq n) p r)) as (l' & r' & -> & Hl). eexists _, _. split; [done|].
    constructor; [|done]. split_and!; [done..|]. cbn. by apply (Hs1 _ p).
  - rewrite Z.eqb_refl. destruct (IH (ReadSet_Add (hashfunc_ (b_key b)) 0 NULL r)) as (l' & r' & -> & Hl).
    eexists _, _. split; [done|]. constructor; [|done]. split_and!; [done..|]. cbn. by rewrite (Hs2 _ Hk).
Qed.

(** How many keys of the batch have a value. *)
Definition present (hist : list (K * addr)) (l : list (Batch (K := K))) : Z :=
  Z.of_nat (length (filter (fun b => vals (b_key b) hist <> []) l)).

Lemma present_cons hist b l :
  present hist (b :: l) = (if decide (vals (b_key b) hist = []) then 0 else 1) + present hist l.
Proof.
  unfold present. rewrite filter_cons. destruct (decide (vals (b_key b) hist = [])) as [E|E].
  - by rewrite decide_False by (intros Hn; by apply Hn).
  - rewrite decide_True by done. cbn [length]. lia.
Qed.

Lemma present_nonneg hist l : 0 <= present hist l.
Proof. unfold present. lia. Qed.

(** The third step of [GetBatch] when the newest versions are in the store: it
    ends when at most 10001 keys have a value, and the process exits when more
    have. *)
Lemma batch_values_spec st hist (l0 l : list (Batch (K := K))) count :
  (forall k v, last (vals k hist) = Some v -> TXMemStore.Get compare_ k (Z.of_nat (length (vals k hist))) st = Some v) ->
  Forall2 (numbered hist) l0 l ->
  (count + present hist l0 <= 10001 -> exists l', batch_values count l st = Ok l' /\ Forall2 (answered hist) l0 l') /\
  (count <= 10001 < count + present hist l0 -> batch_values count l st = Fault ExitCall).
Proof.
  intros Hst Hl. revert count. induction Hl as [|b b' l0 l (Ek & Ev & Es) _ IH]; intros count.
  { split; [by exists []|]. unfold present. cbn. lia. }
  rewrite present_cons. cbn [batch_values]. pose proof (present_nonneg hist l0). destruct (decide (vals (b_key b) hist = [])) as [E|E].
  - rewrite Es, E. cbn [length Z.of_nat Z.eqb]. destruct (IH count) as [IH1 IH2]. split; intros Hc.
    + destruct IH1 as (l' & -> & Hl'); [lia|]. eexists. split; [done|]. constructor; [|done]. unfold answered. rewrite E. cbn. done.
    + by rewrite IH2 by lia.
  - assert (Hlen : Z.of_nat (length (vals (b_key b) hist)) <> 0).
    { intros Hz. apply E, length_zero_iff_nil. lia. }
    assert (Hlast : exists v, last (vals (b_key b) hist) = Some v).
    { destruct (last (vals (b_key b) hist)) as [v|] eqn:El; [by exists v|]. by apply last_None in El. }
    destruct Hlast as [v Hv]. rewrite Es, Ek, (proj2 (Z.eqb_neq _ _) Hlen), (Hst _ _ Hv).
    destruct (IH (count + 1)) as [IH1 IH2]. split; intros Hc.
    + rewrite (proj2 (Z.ltb_ge 10000 count)) by lia. destruct IH1 as (l' & -> & Hl'); [lia|]. eexists. split; [done|].
      constructor; [|done]. unfold answered. rewrite Hv. cbn. done.
    + destruct (Z.ltb_spec 10000 count); [done|]. by rewrite IH2 by lia.
Qed.

(** [GetBatch] when no commit is under way: it returns the batch sorted by key,
    with the newest committed value and its number for every key that has one and
    not-found for the others, provided at most 10001 of the keys have a value; with
    more the process exits, however well the lookups do. *)
Theorem GetBatch_spec kv0 st0 n s keys tx :
  ot_wf st0 -> (forall x, ~ ot_in x st0) -> reachable kv0 st0 n s -> Z.of_nat (length (writes (y_log s))) < 2 ^ 64 ->
  (forall j tx l, y_phases s !! j <> Some (TPut tx l)) ->
  (present (writes (y_log s)) keys <= 10001 ->
     exists sorted keys' tx', GetBatch keys tx (y_shared s) = Ok (keys', tx') /\ sorted ≡ₚ keys /\ in_order b_key sorted /\
       Forall2 (answered (writes (y_log s))) sorted keys') /\
  (10001 < present (writes (y_log s)) keys -> GetBatch keys tx (y_shared s) = Fault ExitCall).
Proof using H0 compare_total compare_trans.
  intros Hwf0 Hemp Hreach Hlen Hq. pose proof (dt_reachable_inv kv0 st0 n s Hwf0 Hemp Hreach Hlen) as Hi. set (hist := writes (y_log s)).
  assert (Hst : forall k v, last (vals k hist) = Some v ->
            TXMemStore.Get compare_ k (Z.of_nat (length (vals k hist))) (txdb_ (y_shared s)) = Some v).
  { intros k v Hv. apply (Get_iff compare_ compare_eq); [apply Hi|]. rewrite last_lookup in Hv.
    pose proof (lookup_lt_Some _ _ _ Hv) as Hlt.
    destruct (inv_stored _ Hi k v (Z.of_nat (length (vals k hist)))) as [|(j & tx1 & l & kv & w & Hl & _)]; [|done|by apply Hq in Hl].
    split; [lia|]. fold hist. rewrite <- Hv. f_equal. lia. }
  destruct (Sort_all b_key keys) as (sorted & Es & Hperm & Hord). fold (SortBatch 0 (Z.of_nat (length keys) - 1) keys) in Es.
  destruct (batch_seqs_spec (latestseq_ (y_shared s)) hist sorted (readset tx) (inv_table _ Hi) (inv_seqs _ Hi)) as (l' & r' & El & Hnum).
  assert (Hpres : present hist keys = present hist sorted).
  { unfold present. f_equal. apply Permutation_length. by rewrite Hperm. }
  unfold GetBatch. rewrite Es. unfold mbind, result_bind. rewrite El, Hpres.
  destruct (batch_values_spec (txdb_ (y_shared s)) hist sorted l' 0 Hst Hnum) as [H1' H2']. split; intros Hc.
  - destruct H1' as (keys' & -> & Ha); [lia|]. exists sorted, keys', (mkDBTransaction r' (writeset tx)). done.
  - by rewrite H2' by lia.
Qed.

End sorting.

End proofs.

(** ** Examples *)

Fixpoint run_schedule (es : list (nat * input (K := Z))) (s : sys (T := list (TableKey Z))) : sys :=
  match es with
  | [] => s
  | (j, e) :: es =>
      run_schedule es
        (match y_phases s !! j with
         | Some ph =>
             if bool_decide (i_addr e <> NULL /\ ht_nodes (latestseq_ (y_shared s)) !! i_addr e = None) then
               match tstep e ph (y_shared s) with
               | Ok (ph, g, en) => mkSys g (y_log s ++ option_list en) (<[j := ph]> (y_phases s))
               | Fault _ => s
               end
             else s
         | None => s
         end)
  end.

Lemma dt_run_schedule_reachable kv0 st0 n es s : reachable kv0 st0 n s -> reachable kv0 st0 n (run_schedule es s).
Proof.
  revert s. induction es as [|[j e] es IH]; intros s Hr; [done|]. cbn [run_schedule]. apply IH.
  destruct (y_phases s !! j) as [ph|] eqn:Hj; [|done]. case_bool_decide as Hb; [|done].
  destruct (tstep e ph (y_shared s)) as [[[ph' g] en]|] eqn:Ha; [|done]. eapply reach_step; [exact Hr|].
  destruct Hb. by eapply (step_thread s j ph e).
Qed.

(** Actions with fresh memory for each. *)
Definition w_actions (l : list (nat * action (K := Z))) : list (nat * input (K := Z)) :=
  imap (fun i x => (x.1, mkInput x.2 (1000 + 64 * Z.of_nat i) 0 0)) l.

Definition w_start (n : nat) : sys (K := Z) (T := list (TableKey Z)) := start (mkWSKV kTypeValue 0 0) [] n.

Lemma w_empty : ot_wf (OrdTableLaws := Z_store_laws) [] /\ forall x : TableKey Z, ~ ot_in (OrdTableLaws := Z_store_laws) x [].
Proof. split; [constructor|]. intros x Hx. cbn in Hx. set_solver. Qed.

(** A read that found an empty node is not recorded: two transactions read what
    the other one writes, both find nothing, and both commit. *)
Definition skew_sched : list (nat * input (K := Z)) :=
  w_actions [(0%nat, ABegin); (1%nat, ABegin); (0%nat, AAdd kTypeValue 1 11); (1%nat, AAdd kTypeValue 2 22); (0%nat, AGet 2); (0%nat, AGet 2);
             (1%nat, AGet 1); (1%nat, AGet 1); (0%nat, AEnd); (1%nat, AEnd)].

Definition skew_run : sys := run_schedule skew_sched (w_start 2).

(** The log in this order explains every read, recorded or not. *)
Definition explains (log : list (entry (K := Z))) : Prop :=
  forall i en r, log !! i = Some en -> r ∈ en_reads en -> rd_ans r = last (vals (rd_key r) (writes (take i log))).

Lemma skew_log :
  y_log skew_run = [mkEntry [mkRead 2 None false] [(1, 11)]; mkEntry [mkRead 1 None false] [(2, 22)]].
Proof. vm_compute. reflexivity. Qed.

(** The reads that [DBTransaction] does not record make it miss conflicts: two
    transactions that each read the key the other one writes commit both, although
    no serial order explains what they read. *)
Theorem empty_node_unvalidated :
  exists s e1 e2, reachable (mkWSKV kTypeValue 0 0) [] 2 s /\ y_log s = [e1; e2] /\
    ~ explains [e1; e2] /\ ~ explains [e2; e1].
Proof.
  exists skew_run. eexists _, _. split_and!; [apply dt_run_schedule_reachable; constructor|apply skew_log|..]; intros Hex.
  - specialize (Hex 1%nat _ (mkRead 1 None false) eq_refl). vm_compute in Hex. discriminate Hex. constructor.
  - specialize (Hex 1%nat _ (mkRead 2 None false) eq_refl). vm_compute in Hex. discriminate Hex. constructor.
Qed.

(** [Lookup] answers with the first write of a key, the commit installs the
    last. *)
Lemma Lookup_first {K} `{HashKeyLaws K} `{EqDecision K} (l : list (WSKV (K := K))) k :
  Lookup_loop l k = (fun kv => (kv_type kv, kv_val kv)) <$> hd_error (filter (fun kv => kv_key kv = k) l).
Proof.
  induction l as [|kv l IH]; [done|]. cbn [Lookup_loop]. rewrite filter_cons. destruct (Z.eqb_spec (compare_ (kv_key kv) k) 0) as [E|E].
  - apply (proj1 (compare_eq (K := K) _ _)) in E. case_decide as Hd; [done|]. by destruct (Hd E).
  - case_decide as Hd; [|exact IH]. destruct E. by apply (compare_eq (K := K)).
Qed.

Definition twice_run : sys :=
  run_schedule (w_actions [(0%nat, ABegin); (0%nat, AAdd kTypeValue 1 11); (0%nat, AAdd kTypeValue 1 12)]) (w_start 1).

Example own_write_stale :
  exists tx, y_phases twice_run !! 0%nat = Some (TRun tx []) /\ Get_own tx 1 = Some (true, StatusOK, Some 11).
Proof. eexists. split; vm_compute; reflexivity. Qed.

(** A deletion is committed as a value. *)
Definition delete_run : sys :=
  run_schedule (w_actions [(0%nat, ABegin); (0%nat, AAdd kTypeDeletion 1 11); (0%nat, AEnd); (0%nat, AEnd); (0%nat, AEnd);
                           (0%nat, ABegin); (0%nat, AGet 1); (0%nat, AGet 1); (0%nat, AGet 1)]) (w_start 1).

Example deletion_is_read :
  exists tx, y_phases delete_run !! 0%nat = Some (TRun tx [mkRead 1 (Some 11) true]).
Proof. eexists. vm_compute. reflexivity. Qed.

(** ** Witnesses *)

Lemma w_run_bound (s : sys (K := Z) (T := list (TableKey Z))) :
  (length (writes (y_log s)) <? 100)%nat = true -> Z.of_nat (length (writes (y_log s))) < 2 ^ 64.
Proof. intros E%Nat.ltb_lt. lia. Qed.


Lemma Z_total : forall a b : Z, 0 < compare_ a b -> compare_ b a <= 0.
Proof. cbn. lia. Qed.

Lemma Z_trans : forall a b c : Z, compare_ a b <= 0 -> compare_ b c <= 0 -> compare_ a c <= 0.
Proof. cbn. lia. Qed.

Definition w_batch : list (Batch (K := Z)) := [mkBatch 3 None StatusOK 0; mkBatch 1 None StatusOK 0; mkBatch 2 None StatusOK 0].

Lemma batch_and_writes_sorted_witness : exists bat', SortBatch 0 2 w_batch = Ok bat' /\ bat' ≡ₚ w_batch /\ in_order b_key bat'.
Proof. exact (proj1 (batch_and_writes_sorted (K := Z) Z_total Z_trans w_batch [])). Defined.

Lemma GetBatch_spec_witness :
  exists sorted keys' tx', GetBatch w_batch (tx0 (mkWSKV kTypeValue 0 0)) (y_shared delete_run) = Ok (keys', tx') /\
    sorted ≡ₚ w_batch /\ in_order b_key sorted /\ Forall2 (answered (writes (y_log delete_run))) sorted keys'.
Proof.
  refine (proj1 (GetBatch_spec (OrdTableLaws0 := Z_store_laws) Z_total Z_trans (mkWSKV kTypeValue 0 0) [] 1 delete_run w_batch _ (proj1 w_empty) (proj2 w_empty)
           (dt_run_schedule_reachable _ _ _ _ _ (reach_start _ _ _)) (w_run_bound delete_run eq_refl) _) _).
  - intros [|j] tx l; vm_compute; discriminate.
  - vm_compute. discriminate.
Defined.
