(* ===== verification/OBJPool.v ===== *)
(** * OBJPool: the per-table pool of reusable objects (db/objpool.h, db/objpool.cc) *)

From S2P Require Import Prelude.

(** ** Data

    An object handed to the pool is preceded by an [Obj] header word that holds
    the [next] link; [obj_next] is the memory of those words and [hdrs] the
    memory of the [Header] blocks. *)

Definition sizeof_Obj : Z := 8.

Record Header := mkHeader {
  h_sn : Z;
  h_head : addr;
  h_tail : addr;
  h_next : addr;
  h_gcnum : Z
}.

Record OBJPool := mkPool {
  gclists_ : addr;
  curlist_ : addr;
  freenum_ : Z;
  freelist_ : addr;
  obj_next : gmap addr addr;
  hdrs : gmap addr Header;
  hbrk : addr
}.

Definition new_Header : Header := mkHeader 0 NULL NULL NULL 0.

Definition new_OBJPool : OBJPool := mkPool NULL NULL 0 NULL ∅ ∅ 8.

(** [new Header()] *)
Definition alloc_Header (h : Header) (p : OBJPool) : addr * OBJPool :=
  (hbrk p, mkPool (gclists_ p) (curlist_ p) (freenum_ p) (freelist_ p)
             (obj_next p) (<[hbrk p := h]> (hdrs p)) (hbrk p + 8)).

Definition get_Header (p : OBJPool) (a : addr) : result Header :=
  from_opt NullDeref (hdrs p !! a).

Definition set_Header (a : addr) (h : Header) (p : OBJPool) : OBJPool :=
  mkPool (gclists_ p) (curlist_ p) (freenum_ p) (freelist_ p)
    (obj_next p) (<[a := h]> (hdrs p)) (hbrk p).

Definition set_lists (gl cl : addr) (p : OBJPool) : OBJPool :=
  mkPool gl cl (freenum_ p) (freelist_ p) (obj_next p) (hdrs p) (hbrk p).

Definition set_obj_next (o n : addr) (p : OBJPool) : OBJPool :=
  mkPool (gclists_ p) (curlist_ p) (freenum_ p) (freelist_ p)
    (<[o := n]> (obj_next p)) (hdrs p) (hbrk p).

Definition set_free (num : Z) (fl : addr) (p : OBJPool) : OBJPool :=
  mkPool (gclists_ p) (curlist_ p) num fl (obj_next p) (hdrs p) (hbrk p).

(** ** Operations *)

(** The list an object with sequence number [sn] goes to: [objpool.cc:32-45]. *)
Definition select_list (sn : Z) (p : OBJPool) : result OBJPool :=
  if curlist_ p =? NULL then
    let '(a, p) := alloc_Header (mkHeader sn NULL NULL NULL 0) p in
    Ok (set_lists a a p)
  else
    cur ← get_Header p (curlist_ p);
    if h_sn cur =? sn then Ok p
    else
      let '(a, p') := alloc_Header (mkHeader sn NULL NULL NULL 0) p in
      let p' := set_Header (curlist_ p)
                  (mkHeader (h_sn cur) (h_head cur) (h_tail cur) a (h_gcnum cur)) p' in
      Ok (set_lists (gclists_ p') a p').

Definition AddGCObj (gobj : addr) (sn : Z) (p : OBJPool) : result OBJPool :=
  let o := gobj - sizeof_Obj in
  p ← select_list sn p;
  cur ← get_Header p (curlist_ p);
  let tail := if h_tail cur =? NULL then o else h_tail cur in
  let p := set_obj_next o (h_head cur) p in
  Ok (set_Header (curlist_ p) (mkHeader (h_sn cur) o tail (h_next cur) (h_gcnum cur + 1)) p).

Definition GetFreeObj (p : OBJPool) : result (addr * OBJPool) :=
  if freenum_ p =? 0 then Ok (NULL, p)
  else
    let r := freelist_ p in
    n ← from_opt NullDeref (obj_next p !! r);
    Ok (r + sizeof_Obj, set_obj_next r NULL (set_free (freenum_ p - 1) n p)).

Definition GCList (list : Header) (p : OBJPool) : result OBJPool :=
  if h_tail list =? NULL then Fault NullDeref
  else
    let p := set_obj_next (h_tail list) (freelist_ p) p in
    Ok (set_free (freenum_ p + h_gcnum list) (h_head list) p).

Definition delete_Header (a : addr) (p : OBJPool) : OBJPool :=
  mkPool (gclists_ p) (curlist_ p) (freenum_ p) (freelist_ p)
    (obj_next p) (delete a (hdrs p)) (hbrk p).

(** The loop of [OBJPool::GC]; every round deletes one header, so the number
    of live headers bounds the rounds. *)
Fixpoint GC_loop (fuel : nat) (p : OBJPool) : result OBJPool :=
  if gclists_ p =? NULL then Ok p
  else
    match fuel with
    | O => Fault OutOfFuel
    | S fuel =>
        let a := gclists_ p in
        cur ← get_Header p a;
        let p := set_lists (h_next cur) (if a =? curlist_ p then NULL else curlist_ p) p in
        p ← GCList cur p;
        GC_loop fuel (delete_Header a p)
    end.

(** [safesn] is not used: its test is commented out in the loop's condition. *)
Definition GC (safesn : Z) (p : OBJPool) : result OBJPool :=
  if gclists_ p =? NULL then Ok p else GC_loop (size (hdrs p)) p.

(** [FreeList] gives every object of a list back to the allocator. *)
Fixpoint FreeList_loop (fuel : nat) (o : addr) (p : OBJPool) : result OBJPool :=
  if o =? NULL then Ok p
  else
    match fuel with
    | O => Fault OutOfFuel
    | S fuel =>
        n ← from_opt UseOfFreed (obj_next p !! o);
        FreeList_loop fuel n
          (mkPool (gclists_ p) (curlist_ p) (freenum_ p) (freelist_ p)
             (delete o (obj_next p)) (hdrs p) (hbrk p))
    end.

Definition FreeList (list : Header) (p : OBJPool) : result OBJPool :=
  FreeList_loop (size (obj_next p)) (h_head list) p.

(** [~OBJPool]: every pending list is freed and its header deleted. *)
Fixpoint destroy_loop (fuel : nat) (p : OBJPool) : result OBJPool :=
  if gclists_ p =? NULL then Ok p
  else
    match fuel with
    | O => Fault OutOfFuel
    | S fuel =>
        let a := gclists_ p in
        cur ← get_Header p a;
        p ← FreeList cur (set_lists (h_next cur) (curlist_ p) p);
        destroy_loop fuel (delete_Header a p)
    end.

Definition destroy_OBJPool (p : OBJPool) : result OBJPool := destroy_loop (size (hdrs p)) p.

(** ** Representation

    A pool holds its [free] objects and, per pending header, the sequence
    number and the objects collected under it. *)

Definition group : Type := addr * Z * list addr.

Definition g_hdr (g : group) : addr := g.1.1.
Definition g_sn (g : group) : Z := g.1.2.
Definition g_objs (g : group) : list addr := g.2.

Definition pending (gs : list group) : list addr := concat (g_objs <$> gs).

Fixpoint hchain (m : gmap addr Header) (p : addr) (gs : list group) (q : addr) : Prop :=
  match gs with
  | [] => p = q
  | g :: gs' =>
      p = g_hdr g /\ g_hdr g <> NULL /\
      exists o xs t n, g_objs g = o :: xs /\ last (o :: xs) = Some t /\
        m !! g_hdr g = Some (mkHeader (g_sn g) o t n (Z.of_nat (length (o :: xs)))) /\
        hchain m n gs' q
  end.

Record pool_rep (p : OBJPool) (free : list addr) (gs : list group) : Prop := {
  pr_free : chain (obj_next p !!.) (freelist_ p) free NULL;
  pr_freenum : freenum_ p = Z.of_nat (length free);
  pr_hdrs : hchain (hdrs p) (gclists_ p) gs NULL;
  pr_cur : curlist_ p = default NULL (g_hdr <$> last gs);
  pr_objs : Forall (fun g => chain (obj_next p !!.) (default NULL (head (g_objs g))) (g_objs g) NULL) gs;
  pr_nodup : NoDup (free ++ pending gs);
  pr_hnodup : NoDup (g_hdr <$> gs);
  pr_hfresh : forall a, a ∈ dom (hdrs p) -> 0 < a < hbrk p;
  pr_hdom : forall a, a ∈ dom (hdrs p) <-> a ∈ g_hdr <$> gs;
  pr_brk : 0 < hbrk p
}.

(** What [AddGCObj] does to the pending lists. *)
Definition add_pending (o : addr) (sn : Z) (brk : addr) (gs : list group) : list group :=
  match last gs with
  | Some (h, sn', xs) =>
      if sn' =? sn then take (length gs - 1) gs ++ [(h, sn', o :: xs)]
      else gs ++ [(brk, sn, [o])]
  | None => [(brk, sn, [o])]
  end.

(** What [GC] does to the free list. *)
Definition reclaim (gs : list group) (free : list addr) : list addr :=
  fold_left (fun fr g => g_objs g ++ fr) gs free.

Lemma pending_app gs gs' : pending (gs ++ gs') = pending gs ++ pending gs'.
Proof. unfold pending. by rewrite fmap_app, concat_app. Qed.

Lemma pending_snoc gs g : pending (gs ++ [g]) = pending gs ++ g_objs g.
Proof. rewrite pending_app. unfold pending. simpl. by rewrite app_nil_r. Qed.

Lemma reclaim_Permutation gs free : reclaim gs free ≡ₚ pending gs ++ free.
Proof.
  revert free. induction gs as [|g gs IH]; intros free; [done|].
  unfold reclaim in *. simpl. rewrite IH. unfold pending. simpl.
  rewrite <- app_assoc, (Permutation_app_comm (g_objs g) free).
  rewrite (Permutation_app_comm (g_objs g)), <- app_assoc. done.
Qed.

Lemma new_OBJPool_rep : pool_rep new_OBJPool [] [].
Proof. split; simpl; try done; try constructor; set_solver. Qed.

Lemma hchain_ext m m' p gs q :
  (forall g, g ∈ gs -> m' !! g_hdr g = m !! g_hdr g) -> hchain m p gs q -> hchain m' p gs q.
Proof.
  revert p. induction gs as [|g gs IH]; intros p Hext; simpl; [done|].
  intros (-> & Hg & o & xs & t & n & Ho & Ht & Hm & Hc). split_and!; [done..|].
  exists o, xs, t, n. rewrite Hext by set_solver. split_and!; [done..|].
  apply IH; [|done]. intros g' ?. apply Hext. set_solver.
Qed.

Lemma hchain_insert m p gs q a h :
  a ∉ g_hdr <$> gs -> hchain m p gs q -> hchain (<[a := h]> m) p gs q.
Proof.
  intros Ha. apply hchain_ext. intros g Hg. rewrite lookup_insert_ne; [done|].
  intros ->. apply Ha. by apply list_elem_of_fmap_2.
Qed.

Lemma hchain_delete m p gs q a :
  a ∉ g_hdr <$> gs -> hchain m p gs q -> hchain (delete a m) p gs q.
Proof.
  intros Ha. apply hchain_ext. intros g Hg. rewrite lookup_delete_ne; [done|].
  intros ->. apply Ha. by apply list_elem_of_fmap_2.
Qed.

Lemma hchain_app m p gs gs' q :
  hchain m p (gs ++ gs') q <-> exists r, hchain m p gs r /\ hchain m r gs' q.
Proof.
  revert p. induction gs as [|g gs IH]; intros p; simpl.
  - split; [eauto|]. intros (r & -> & ?). done.
  - setoid_rewrite IH. split.
    + intros (-> & ? & o & xs & t & n & ? & ? & ? & r & ? & ?). exists r. split; [|done].
      split_and!; eauto. exists o, xs, t, n. done.
    + intros (r & (-> & ? & o & xs & t & n & ? & ? & ? & ?) & ?). split_and!; eauto.
      exists o, xs, t, n. split_and!; eauto.
Qed.

(** The last header of a non-empty chain. *)
Lemma hchain_last m p gs g :
  hchain m p (gs ++ [g]) NULL ->
  hchain m p gs (g_hdr g) /\ g_hdr g <> NULL /\
  exists o xs t, g_objs g = o :: xs /\ last (o :: xs) = Some t /\
    m !! g_hdr g = Some (mkHeader (g_sn g) o t NULL (Z.of_nat (length (o :: xs)))).
Proof.
  rewrite hchain_app. intros (r & Hc & Hl). simpl in Hl.
  destruct Hl as (-> & ? & o & xs & t & n & ? & ? & Hm & ->). eauto 10.
Qed.

Definition objs_ok (m : gmap addr addr) (gs : list group) : Prop :=
  Forall (fun g => chain (m !!.) (default NULL (head (g_objs g))) (g_objs g) NULL) gs.

Lemma elem_of_pending x gs : x ∈ pending gs <-> exists g, g ∈ gs /\ x ∈ g_objs g.
Proof.
  unfold pending. rewrite list_elem_of_In, in_concat. split.
  - intros (l & Hl & Hx). apply list_elem_of_In, list_elem_of_fmap in Hl as (g & -> & ?).
    exists g. split; [done|]. by apply list_elem_of_In.
  - intros (g & Hg & Hx). exists (g_objs g). split.
    + apply list_elem_of_In. by apply list_elem_of_fmap_2.
    + by apply list_elem_of_In.
Qed.

Lemma objs_ok_insert m gs o n :
  o ∉ pending gs -> objs_ok m gs -> objs_ok (<[o := n]> m) gs.
Proof.
  intros Ho. unfold objs_ok. rewrite !Forall_forall. intros Hm g Hg.
  apply chain_insert; [|auto]. intros ?. apply Ho, elem_of_pending. eauto.
Qed.

Lemma brk_fresh p fr gs : pool_rep p fr gs -> hbrk p ∉ g_hdr <$> gs.
Proof.
  intros H Hin. apply (pr_hdom _ _ _ H) in Hin. apply (pr_hfresh _ _ _ H) in Hin. lia.
Qed.

Lemma NoDup_pending_add o gs gs' fr :
  pending gs' ≡ₚ o :: pending gs -> o ∉ fr ++ pending gs -> NoDup (fr ++ pending gs) ->
  NoDup (fr ++ pending gs').
Proof.
  intros -> Ho Hnd. rewrite <- Permutation_middle. by apply NoDup_cons.
Qed.

Lemma add_pending_Permutation o sn brk gs : pending (add_pending o sn brk gs) ≡ₚ o :: pending gs.
Proof.
  unfold add_pending. destruct gs as [|g gs _] using rev_ind; simpl; [done|].
  rewrite last_snoc. destruct g as [[h sn'] xs]. case_match.
  - rewrite length_app, Nat.add_sub. rewrite take_app_length, !pending_snoc. unfold g_objs; simpl.
    by rewrite Permutation_middle.
  - rewrite pending_snoc. unfold g_objs; simpl. rewrite <- Permutation_cons_append. done.
Qed.

(** The lists and addresses after a list with one object is added. *)
Lemma new_list_ok p fr gs o sn :
  pool_rep p fr gs -> o ∉ fr ++ pending gs -> o <> NULL ->
  let gs' := gs ++ [(hbrk p, sn, [o])] in
  NoDup (fr ++ pending gs') /\ objs_ok (<[o := NULL]> (obj_next p)) gs' /\
  chain (<[o := NULL]> (obj_next p) !!.) (freelist_ p) fr NULL /\ NoDup (g_hdr <$> gs').
Proof.
  intros H Ho Ho0 gs'. pose proof (brk_fresh _ _ _ H) as Hb. split_and!.
  - apply (NoDup_pending_add o gs); [|done|apply (pr_nodup _ _ _ H)].
    unfold gs'. rewrite pending_snoc. unfold g_objs; simpl. by rewrite <- Permutation_cons_append.
  - apply Forall_app. split; [apply objs_ok_insert; [set_solver|apply (pr_objs _ _ _ H)]|].
    constructor; [|constructor]. simpl. split_and!; [done..|]. exists NULL. by rewrite lookup_insert_eq.
  - apply chain_insert; [set_solver|apply (pr_free _ _ _ H)].
  - unfold gs'. rewrite fmap_app. apply NoDup_app. split; [apply (pr_hnodup _ _ _ H)|]. simpl.
    split; [intros x Hx; rewrite list_elem_of_singleton; set_solver|apply NoDup_singleton].
Qed.

(** A new list is started at the end of the pending lists. *)
Lemma AddGCObj_new p fr gs o sn :
  pool_rep p fr gs -> o ∉ fr ++ pending gs -> o <> NULL ->
  match last gs with Some g => g_sn g <> sn | None => True end ->
  exists p', AddGCObj (o + sizeof_Obj) sn p = Ok p' /\
    pool_rep p' fr (gs ++ [(hbrk p, sn, [o])]).
Proof.
  intros H Ho Ho0 Hsn. pose proof (brk_fresh _ _ _ H) as Hb.
  destruct (new_list_ok p fr gs o sn H Ho Ho0) as (Hnd & Hobj & Hfr & Hhnd).
  assert (Hbrk := pr_brk _ _ _ H). assert (Hcur := pr_cur _ _ _ H).
  unfold AddGCObj, select_list. replace (o + sizeof_Obj - sizeof_Obj) with o by lia.
  destruct gs as [|g gs _] using rev_ind.
  - rewrite Hcur. simpl. unfold mbind, result_bind; simpl. unfold get_Header; simpl.
    rewrite lookup_insert_eq. simpl. eexists. split; [done|].
    split; simpl; try done; try exact (pr_freenum _ _ _ H).
    + split_and!; [done|unfold NULL, g_hdr; simpl; lia|]. exists o, [], o, NULL.
      by rewrite lookup_insert_eq.
    + intros a. rewrite !dom_insert_L. intros Ha. assert (a = hbrk p \/ a ∈ dom (hdrs p)) as [->|Ha'] by set_solver; [lia|].
      apply (pr_hfresh _ _ _ H) in Ha'. lia.
    + intros a. rewrite !dom_insert_L. pose proof (pr_hdom _ _ _ H a). set_solver.
    + lia.
  - rewrite last_snoc in Hsn, Hcur. simpl in Hcur.
    destruct (hchain_last _ _ _ _ (pr_hdrs _ _ _ H)) as (Hc & Hg0 & o' & xs & t & Hob & Ht & Hm).
    rewrite fmap_app in Hb. simpl in Hb.
    assert (hbrk p <> g_hdr g) as Hne by set_solver.
    assert (g_hdr g ∉ g_hdr <$> gs) as Hgn.
    { pose proof (pr_hnodup _ _ _ H) as Hn. rewrite fmap_app in Hn.
      apply NoDup_app in Hn as (_ & Hn & _). intros Hx. apply (Hn _ Hx). simpl. set_solver. }
    rewrite Hcur. destruct (Z.eqb_spec (g_hdr g) NULL); [done|].
    unfold mbind, result_bind, get_Header. rewrite Hm. simpl.
    destruct (Z.eqb_spec (g_sn g) sn); [done|].
    cbn. rewrite lookup_insert_ne, lookup_insert_eq by done.
    eexists. split; [done|]. split; simpl; try done; try exact (pr_freenum _ _ _ H).
    + rewrite hchain_app. exists (hbrk p). split.
      * rewrite hchain_app. exists (g_hdr g). split.
        -- apply hchain_insert; [set_solver|]. apply hchain_insert; [done|].
           apply hchain_insert; [set_solver|done].
        -- simpl. split_and!; [done..|]. exists o', xs, t, (hbrk p).
           rewrite lookup_insert_ne, lookup_insert_eq by done. done.
      * simpl. split_and!; [done|unfold NULL, g_hdr; simpl; lia|]. exists o, [], o, NULL.
        unfold g_hdr at 1; simpl. by rewrite lookup_insert_eq.
    + by rewrite last_snoc.
    + intros a. rewrite !dom_insert_L. intros Ha.
      assert (a = hbrk p \/ a ∈ dom (hdrs p)) as [->|Ha'].
      { assert (g_hdr g ∈ dom (hdrs p)) by (by apply elem_of_dom). set_solver. }
      * lia.
      * apply (pr_hfresh _ _ _ H) in Ha'. lia.
    + intros a. rewrite !dom_insert_L, fmap_app. pose proof (pr_hdom _ _ _ H a) as Hd.
      rewrite fmap_app in Hd |- *. simpl in Hd |- *. set_solver.
    + lia.
Qed.

(** The object joins the current list. *)
Lemma AddGCObj_same p fr gs h sn xs o :
  pool_rep p fr (gs ++ [(h, sn, xs)]) -> o ∉ fr ++ pending (gs ++ [(h, sn, xs)]) -> o <> NULL ->
  exists p', AddGCObj (o + sizeof_Obj) sn p = Ok p' /\
    pool_rep p' fr (gs ++ [(h, sn, o :: xs)]).
Proof.
  intros H Ho Ho0. assert (Hcur := pr_cur _ _ _ H). rewrite last_snoc in Hcur.
  destruct (hchain_last _ _ _ _ (pr_hdrs _ _ _ H)) as (Hc & Hg0 & o' & xs' & t & Hob & Ht & Hm).
  cbn in Hcur, Hc, Hg0, Hob, Hm. subst xs.
  assert (Hnd := pr_nodup _ _ _ H). assert (Hobj := pr_objs _ _ _ H).
  assert (Hhd := pr_hnodup _ _ _ H). assert (Hdom := pr_hdom _ _ _ H).
  rewrite fmap_app in Hhd. apply NoDup_app in Hhd as (Hhd & Hhd2 & Hhd3).
  apply Forall_app in Hobj as [Hobj Hlast]. rewrite Forall_singleton in Hlast.
  rewrite pending_snoc in Ho, Hnd. cbn in Ho, Hnd.
  unfold AddGCObj, select_list, get_Header. replace (o + sizeof_Obj - sizeof_Obj) with o by lia.
  rewrite Hcur. destruct (Z.eqb_spec h NULL); [done|].
  unfold mbind, result_bind. rewrite Hm. cbn. rewrite Z.eqb_refl, Hcur, Hm. cbn.
  eexists. split; [done|]. split; simpl; try done; try exact (pr_freenum _ _ _ H).
  - apply chain_insert; [set_solver|apply (pr_free _ _ _ H)].
  - rewrite hchain_app. exists h. split.
    + apply hchain_insert; [|done]. intros Hx. apply (Hhd2 _ Hx). cbn. set_solver.
    + cbn. split_and!; [done..|]. exists o, (o' :: xs'), t, NULL.
      rewrite lookup_insert_eq. split_and!; [done|by rewrite last_cons_cons| |done].
      do 2 f_equal; [|simpl length; lia]. destruct (Z.eqb_spec t NULL) as [Htn|]; [|done].
      exfalso. apply chain_non_null in Hlast. apply Hlast. cbn. rewrite <- Htn.
      by apply last_Some_elem_of.
  - by rewrite Hcur, last_snoc.
  - apply Forall_app. split; [apply objs_ok_insert; [set_solver|done]|].
    constructor; [|constructor]. cbn. split_and!; [done..|]. exists o'.
    rewrite lookup_insert_eq. split; [done|].
    apply (chain_insert _ o' (o' :: xs')); [set_solver|done].
  - rewrite pending_snoc. cbn. rewrite <- (Permutation_middle (pending gs)), <- Permutation_middle.
    apply NoDup_cons. split; [|done]. set_solver.
  - rewrite fmap_app. apply NoDup_app. done.
  - intros a. rewrite dom_insert_L. intros Ha. apply (pr_hfresh _ _ _ H).
    assert (h ∈ dom (hdrs p)) by (by apply elem_of_dom). set_solver.
  - intros a. rewrite dom_insert_L. specialize (Hdom a).
    rewrite fmap_app in Hdom |- *. cbn in Hdom |- *. set_solver.
  - apply (pr_brk _ _ _ H).
Qed.

Lemma AddGCObj_rep p fr gs o sn :
  pool_rep p fr gs -> o ∉ fr ++ pending gs -> o <> NULL ->
  exists p', AddGCObj (o + sizeof_Obj) sn p = Ok p' /\
    pool_rep p' fr (add_pending o sn (hbrk p) gs).
Proof.
  intros H Ho Ho0. unfold add_pending.
  destruct gs as [|[[h sn'] xs] gs _] using rev_ind.
  - by apply (AddGCObj_new p fr []).
  - rewrite last_snoc. destruct (Z.eqb_spec sn' sn) as [->|].
    + rewrite length_app, Nat.add_sub, take_app_length. by apply AddGCObj_same.
    + apply AddGCObj_new; [done..|]. by rewrite last_snoc.
Qed.

(** ** Reclaiming *)

Lemma chain_relink (m : gmap addr addr) p xs t q :
  chain (m !!.) p xs NULL -> last xs = Some t -> NoDup xs ->
  chain (<[t := q]> m !!.) p xs q.
Proof.
  destruct xs as [|x xs _] using rev_ind; [done|].
  rewrite last_snoc. intros Hc [= <-] Hnd. apply NoDup_app in Hnd as (_ & Hnd & _).
  apply chain_app in Hc as (r & Hc & Hl). simpl in Hl. destruct Hl as (-> & Hx & n & Hn & ->).
  apply chain_app. exists x. split.
  - apply chain_insert; [|done]. intros ?. eapply Hnd; [done|]. set_solver.
  - simpl. split_and!; [done..|]. exists q. by rewrite lookup_insert_eq.
Qed.

(** One round of [GC]'s loop moves the first pending list to the free list. *)
Lemma GC_round p fr g gs cur :
  pool_rep p fr (g :: gs) -> hdrs p !! gclists_ p = Some cur ->
  exists p', GCList cur (set_lists (h_next cur)
      (if gclists_ p =? curlist_ p then NULL else curlist_ p) p) = Ok p' /\
    pool_rep (delete_Header (gclists_ p) p') (g_objs g ++ fr) gs.
Proof.
  intros H Hcur. destruct (pr_hdrs _ _ _ H) as (Hgl & Hg0 & o & xs & t & n & Hob & Ht & Hm & Hc).
  rewrite Hgl in Hcur. rewrite Hm in Hcur. injection Hcur as <-.
  assert (Hobj := pr_objs _ _ _ H). apply Forall_cons in Hobj as [Hchain Hobj].
  assert (Hnd := pr_nodup _ _ _ H). change (pending (g :: gs)) with (g_objs g ++ pending gs) in Hnd.
  assert (Hhnd := pr_hnodup _ _ _ H). rewrite fmap_cons, NoDup_cons in Hhnd. destruct Hhnd as [Hgn Hhnd].
  assert (Ht_in : t ∈ g_objs g) by (rewrite Hob; by apply last_Some_elem_of).
  apply NoDup_app in Hnd as (Hnd1 & Hnd2 & Hnd3). apply NoDup_app in Hnd3 as (Hnd3 & Hnd4 & Hnd5).
  unfold GCList. cbn. destruct (Z.eqb_spec t NULL) as [Htn|].
  { exfalso. apply chain_non_null in Hchain. by rewrite <- Htn in Hchain. }
  eexists. split; [done|]. split; cbn.
  - apply chain_app. exists (freelist_ p). split.
    + replace o with (default NULL (head (g_objs g))) by (by rewrite Hob).
      apply chain_relink; [done|by rewrite Hob|done].
    + apply chain_insert; [|apply (pr_free _ _ _ H)]. intros ?. eapply Hnd2; [done|]. set_solver.
  - rewrite (pr_freenum _ _ _ H), Hob, length_app. cbn -[Z.of_nat]. lia.
  - rewrite Hgl. apply hchain_delete; done.
  - rewrite (pr_cur _ _ _ H), Hgl. destruct gs as [|g' gs _] using rev_ind.
    + cbn. by rewrite Z.eqb_refl.
    + rewrite app_comm_cons, !last_snoc. cbn. destruct (Z.eqb_spec (g_hdr g) (g_hdr g')) as [E|]; [|done].
      exfalso. apply Hgn. rewrite E, fmap_app. set_solver.
  - apply objs_ok_insert; [|done]. intros ?. eapply Hnd4; done.
  - rewrite <- app_assoc. rewrite (Permutation_app_comm fr), app_assoc.
    apply NoDup_app. split_and!.
    + apply NoDup_app. done.
    + intros x Hx Hx2. eapply Hnd2; [done|]. done.
    + done.
  - done.
  - intros a Ha. apply (pr_hfresh _ _ _ H). set_solver.
  - intros a. rewrite dom_delete_L, Hgl. pose proof (pr_hdom _ _ _ H a) as Hd. cbn in Hd.
    rewrite elem_of_difference, Hd, elem_of_cons, elem_of_singleton. split; [naive_solver|].
    intros Ha. split; [by right|]. by intros ->.
  - apply (pr_brk _ _ _ H).
Qed.

Lemma GC_loop_rep fuel p fr gs :
  pool_rep p fr gs -> (length gs <= fuel)%nat ->
  exists p', GC_loop fuel p = Ok p' /\ pool_rep p' (reclaim gs fr) [].
Proof.
  revert p fr gs. induction fuel as [|fuel IH]; intros p fr [|g gs] H Hf;
    assert (Hh := pr_hdrs _ _ _ H); simpl in *; try lia.
  - rewrite Hh. eauto.
  - rewrite Hh. eauto.
  - destruct Hh as (Hgl & Hg0 & o & xs & t & n & Hob & Ht & Hm & Hc).
    destruct (Z.eqb_spec (gclists_ p) NULL); [congruence|].
    rewrite <- Hgl in Hm. destruct (GC_round _ _ _ _ _ H Hm) as (p' & Hp' & Hrep).
    unfold mbind, result_bind, get_Header. rewrite Hm. cbn. cbn in Hp'. rewrite Hp'.
    apply IH; [done|lia].
Qed.

Lemma size_hdrs p fr gs : pool_rep p fr gs -> (length gs <= size (hdrs p))%nat.
Proof.
  intros H. rewrite <- (length_fmap g_hdr), <- size_dom.
  rewrite <- (size_list_to_set (C := gset addr) (g_hdr <$> gs)) by apply (pr_hnodup _ _ _ H).
  apply subseteq_size. intros a. rewrite elem_of_list_to_set, (pr_hdom _ _ _ H). done.
Qed.

Lemma GC_rep p fr gs safesn :
  pool_rep p fr gs -> exists p', GC safesn p = Ok p' /\ pool_rep p' (reclaim gs fr) [].
Proof.
  intros H. unfold GC. destruct (Z.eqb_spec (gclists_ p) NULL) as [E|].
  - destruct gs as [|g gs].
    + eauto.
    + destruct (pr_hdrs _ _ _ H) as (Hgl & ? & _). congruence.
  - eapply GC_loop_rep; [done|]. by eapply size_hdrs.
Qed.

Lemma GetFreeObj_empty p gs : pool_rep p [] gs -> GetFreeObj p = Ok (NULL, p).
Proof. intros H. unfold GetFreeObj. by rewrite (pr_freenum _ _ _ H). Qed.

Lemma GetFreeObj_cons p x fr gs :
  pool_rep p (x :: fr) gs ->
  exists p', GetFreeObj p = Ok (x + sizeof_Obj, p') /\ pool_rep p' fr gs.
Proof.
  intros H. destruct (pr_free _ _ _ H) as (Hf & Hx & n & Hn & Hc).
  assert (Hnd := pr_nodup _ _ _ H). cbn in Hnd. apply NoDup_cons in Hnd as [Hxn Hnd].
  unfold GetFreeObj. rewrite (pr_freenum _ _ _ H), Hf. cbn -[Z.of_nat]. rewrite Hn.
  eexists. split; [done|]. destruct H. split; cbn; try done.
  - apply chain_insert; [set_solver|done].
  - lia.
  - apply objs_ok_insert; [set_solver|done].
Qed.

(** ** The contract of a pool

    What the tables rely on: a pool never hands out an object twice, hands out
    only objects that were given to it, and reclaims everything pending when
    asked to. *)

Class Pool (P : Type) := {
  pool_empty : P;
  pool_add : addr -> Z -> P -> result P;
  pool_get : P -> result (addr * P);
  pool_gc : Z -> P -> result P
}.

Class PoolLaws (P : Type) `{Pool P} := {
  (** [pool_rel p free waiting]: the objects ready to be reused and those waiting. *)
  pool_rel : P -> list addr -> list addr -> Prop;
  pool_rel_NoDup p fr w : pool_rel p fr w -> NoDup (fr ++ w);
  pool_empty_spec : pool_rel pool_empty [] [];
  pool_add_spec p fr w a sn :
    pool_rel p fr w -> a ∉ fr ++ w -> a <> 8 ->
    exists p' w', pool_add a sn p = Ok p' /\ w' ≡ₚ a :: w /\ pool_rel p' fr w';
  pool_get_nil p w : pool_rel p [] w -> pool_get p = Ok (NULL, p);
  pool_get_cons p a fr w :
    pool_rel p (a :: fr) w -> exists p', pool_get p = Ok (a, p') /\ pool_rel p' fr w;
  pool_gc_spec p fr w sn :
    pool_rel p fr w ->
    exists p' fr', pool_gc sn p = Ok p' /\ fr' ≡ₚ w ++ fr /\ pool_rel p' fr' [];
  (** [pool_in p s]: all the pool can ever hand out is in [s], however it was
      used before. *)
  pool_in : P -> gset addr -> Prop;
  pool_in_empty : pool_in pool_empty ∅;
  pool_in_mono p s s' : s ⊆ s' -> pool_in p s -> pool_in p s';
  pool_in_add p s a sn p' : pool_in p s -> pool_add a sn p = Ok p' -> pool_in p' ({[a]} ∪ s);
  pool_in_get p s a p' :
    pool_in p s -> pool_get p = Ok (a, p') -> (a = NULL \/ a ∈ s) /\ pool_in p' s;
  pool_in_gc p s sn p' : pool_in p s -> pool_gc sn p = Ok p' -> pool_in p' s
}.

#[export] Instance OBJPool_Pool : Pool OBJPool := {
  pool_empty := new_OBJPool;
  pool_add := AddGCObj;
  pool_get := GetFreeObj;
  pool_gc := GC
}.

Definition payload (o : addr) : addr := o + sizeof_Obj.

Definition OBJPool_rel (p : OBJPool) (fr w : list addr) : Prop :=
  exists fr0 gs, pool_rep p fr0 gs /\ fr = payload <$> fr0 /\ w = payload <$> pending gs.

#[export] Instance payload_inj : Inj (=) (=) payload.
Proof. intros ??. unfold payload. lia. Qed.

Lemma OBJPool_rel_NoDup p fr w : OBJPool_rel p fr w -> NoDup (fr ++ w).
Proof.
  intros (fr0 & gs & H & -> & ->). rewrite <- fmap_app. apply NoDup_fmap_2; [apply _|].
  apply (pr_nodup _ _ _ H).
Qed.

Lemma OBJPool_add_spec p fr w a sn :
  OBJPool_rel p fr w -> a ∉ fr ++ w -> a <> 8 ->
  exists p' w', AddGCObj a sn p = Ok p' /\ w' ≡ₚ a :: w /\ OBJPool_rel p' fr w'.
Proof.
  intros (fr0 & gs & H & -> & ->) Ha Ha8. rewrite <- fmap_app in Ha.
  assert (a = payload (a - 8)) as Hp by (unfold payload, sizeof_Obj; lia).
  destruct (AddGCObj_rep p fr0 gs (a - 8) sn) as (p' & Hp' & Hr); [done| |unfold NULL; lia|].
  - intros Hin. apply Ha. rewrite Hp. by apply list_elem_of_fmap_2.
  - exists p', (payload <$> pending (add_pending (a - 8) sn (hbrk p) gs)). split_and!.
    + by rewrite Hp at 1.
    + rewrite add_pending_Permutation. cbn. by rewrite <- Hp.
    + do 2 eexists. split; [done|]. done.
Qed.

Lemma OBJPool_gc_spec p fr w sn :
  OBJPool_rel p fr w ->
  exists p' fr', GC sn p = Ok p' /\ fr' ≡ₚ w ++ fr /\ OBJPool_rel p' fr' [].
Proof.
  intros (fr0 & gs & H & -> & ->). destruct (GC_rep p fr0 gs sn H) as (p' & Hp' & Hr).
  exists p', (payload <$> reclaim gs fr0). split_and!; [done| |].
  - by rewrite <- fmap_app, reclaim_Permutation.
  - do 2 eexists. split; [done|]. done.
Qed.

Lemma OBJPool_empty_spec : OBJPool_rel new_OBJPool [] [].
Proof. exists [], []. split; [apply new_OBJPool_rep|done]. Qed.

Lemma OBJPool_get_nil p w : OBJPool_rel p [] w -> GetFreeObj p = Ok (NULL, p).
Proof. intros (fr0 & gs & H & Hfr & ->). destruct fr0; [|done]. by eapply GetFreeObj_empty. Qed.

Lemma OBJPool_get_cons p a fr w :
  OBJPool_rel p (a :: fr) w -> exists p', GetFreeObj p = Ok (a, p') /\ OBJPool_rel p' fr w.
Proof.
  intros (fr0 & gs & H & Hfr & ->). destruct fr0 as [|x fr0]; [done|].
  injection Hfr as -> ->. destruct (GetFreeObj_cons _ _ _ _ H) as (p' & ? & ?).
  exists p'. split; [done|]. by exists fr0, gs.
Qed.

(** Every object a pool can hand out has been given to it, also when the same
    object was given twice. *)
Definition known (s : gset addr) (o : addr) : Prop := payload o ∈ s.

Record OBJPool_in (p : OBJPool) (s : gset addr) : Prop := {
  in_objs : forall o, o ∈ dom (obj_next p) -> known s o;
  in_hdrs : forall a h, hdrs p !! a = Some h -> h_tail h = NULL \/ known s (h_tail h)
}.

Lemma OBJPool_in_empty : OBJPool_in new_OBJPool ∅.
Proof. split; set_solver. Qed.

Lemma OBJPool_in_mono p s s' : s ⊆ s' -> OBJPool_in p s -> OBJPool_in p s'.
Proof. unfold known. intros Hs [Ho Hh]. split; unfold known in *; [set_solver|]. intros a h Hl. apply Hh in Hl. set_solver. Qed.

Lemma select_list_in p s sn p' :
  OBJPool_in p s -> select_list sn p = Ok p' -> OBJPool_in p' s.
Proof.
  intros [Ho Hh]. unfold select_list. case_match.
  - intros [= <-]. split; cbn; [done|]. intros a h. rewrite lookup_insert_Some.
    intros [[_ <-]|[_ Hl]]; [by left|eauto].
  - unfold get_Header. destruct (hdrs p !! curlist_ p) as [cur|] eqn:E; [|done].
    unfold mbind, result_bind; cbn. case_match; intros [= <-]; [by split|].
    split; cbn; [done|]. intros a h. rewrite lookup_insert_Some.
    intros [[_ <-]|[_ Hl]]; [exact (Hh _ _ E)|]. revert Hl. rewrite lookup_insert_Some.
    intros [[_ <-]|[_ Hl]]; [by left|eauto].
Qed.

Lemma OBJPool_in_add p s a sn p' :
  OBJPool_in p s -> AddGCObj a sn p = Ok p' -> OBJPool_in p' ({[a]} ∪ s).
Proof.
  intros Hin. unfold AddGCObj. destruct (select_list sn p) as [p1|] eqn:E1; [|done].
  apply (select_list_in _ s) in E1 as [Ho Hh]; [|done].
  unfold mbind, result_bind, get_Header; cbn.
  destruct (hdrs p1 !! curlist_ p1) as [cur|] eqn:E; [|done]. intros [= <-].
  assert (known ({[a]} ∪ s) (a - sizeof_Obj)) as Ha.
  { unfold known, payload. replace (a - sizeof_Obj + sizeof_Obj) with a by lia. set_solver. }
  unfold known in *. split; cbn; unfold known.
  - intros o. rewrite dom_insert_L, elem_of_union, elem_of_singleton.
    intros [->|Hd%Ho]; [done|set_solver].
  - intros b h. rewrite lookup_insert_Some. intros [[_ <-]|[_ Hl%Hh]]; cbn; [|set_solver].
    apply Hh in E. case_match; set_solver.
Qed.

Lemma OBJPool_in_get p s a p' :
  OBJPool_in p s -> GetFreeObj p = Ok (a, p') -> (a = NULL \/ a ∈ s) /\ OBJPool_in p' s.
Proof.
  intros Hin. unfold GetFreeObj. case_match; [intros [= <- <-]; by split; [left|]|].
  destruct (obj_next p !! freelist_ p) as [n|] eqn:E; [|done]. intros [= <- <-].
  destruct Hin as [Ho Hh]. assert (known s (freelist_ p)) as Hf by (apply Ho, elem_of_dom; eauto).
  split; [by right|]. split; cbn; [|done]. intros o.
  rewrite dom_insert_L, elem_of_union, elem_of_singleton. intros [->|]; auto.
Qed.

Lemma GC_loop_in fuel p s p' : OBJPool_in p s -> GC_loop fuel p = Ok p' -> OBJPool_in p' s.
Proof.
  revert p. induction fuel as [|fuel IH]; intros p Hin; simpl;
    (case_match; [by intros [= <-]|]); [done|].
  unfold mbind, result_bind, get_Header. destruct (hdrs p !! gclists_ p) as [cur|] eqn:E; [|done].
  unfold GCList; cbn. destruct (Z.eqb_spec (h_tail cur) NULL) as [|Et]; [done|].
  apply IH. destruct Hin as [Ho Hh].
  split; cbn.
  - intros o. rewrite dom_insert_L, elem_of_union, elem_of_singleton.
    intros [->|]; [|auto]. by destruct (Hh _ _ E).
  - intros b h [_ Hl]%lookup_delete_Some. eauto.
Qed.

Lemma OBJPool_in_gc p s sn p' : OBJPool_in p s -> GC sn p = Ok p' -> OBJPool_in p' s.
Proof.
  intros Hin. unfold GC. case_match; [by intros [= <-]|]. by apply GC_loop_in.
Qed.

#[export] Instance OBJPool_PoolLaws : PoolLaws OBJPool := {
  pool_rel := OBJPool_rel;
  pool_rel_NoDup := OBJPool_rel_NoDup;
  pool_empty_spec := OBJPool_empty_spec;
  pool_add_spec := OBJPool_add_spec;
  pool_get_nil := OBJPool_get_nil;
  pool_get_cons := OBJPool_get_cons;
  pool_gc_spec := OBJPool_gc_spec;
  pool_in := OBJPool_in;
  pool_in_empty := OBJPool_in_empty;
  pool_in_mono := OBJPool_in_mono;
  pool_in_add := OBJPool_in_add;
  pool_in_get := OBJPool_in_get;
  pool_in_gc := OBJPool_in_gc
}.

(** ** Histories of a pool *)

(** The pools a client can build, with the objects it has given and not got back. *)
Inductive pool_run : OBJPool -> gset addr -> Prop :=
  | run_new : pool_run new_OBJPool ∅
  | run_add p s a sn p' :
      pool_run p s -> a ∉ s -> a <> NULL -> a <> 8 -> AddGCObj a sn p = Ok p' ->
      pool_run p' ({[a]} ∪ s)
  | run_get p s a p' :
      pool_run p s -> GetFreeObj p = Ok (a, p') -> pool_run p' (s ∖ {[a]})
  | run_gc p s sn p' :
      pool_run p s -> GC sn p = Ok p' -> pool_run p' s.

Lemma pool_run_rel p s :
  pool_run p s -> exists fr w, OBJPool_rel p fr w /\ s = list_to_set (fr ++ w) /\ NULL ∉ s.
Proof.
  induction 1 as [|p s a sn p' _ (fr & w & Hr & -> & Hn) Ha Ha0 Ha8 Hadd
                  |p s a p' _ (fr & w & Hr & -> & Hn) Hget
                  |p s sn p' _ (fr & w & Hr & -> & Hn) Hgc].
  - exists [], []. split; [apply OBJPool_empty_spec|]. set_solver.
  - destruct (OBJPool_add_spec p fr w a sn) as (p1 & w' & Hp1 & Hw & Hr'); [done|set_solver|done|].
    assert (p1 = p') as <- by congruence. exists fr, w'. split; [done|]. split; [|set_solver].
    rewrite !list_to_set_app_L, Hw. set_solver.
  - destruct fr as [|b fr].
    + assert (GetFreeObj p = Ok (NULL, p)) as E by apply (OBJPool_get_nil _ _ Hr).
      rewrite E in Hget. injection Hget as <- <-. exists [], w. split; [done|]. set_solver.
    + destruct (OBJPool_get_cons _ _ _ _ Hr) as (p1 & E & Hr'). cbn in E. rewrite E in Hget.
      injection Hget as -> ->. exists fr, w. split; [done|].
      apply OBJPool_rel_NoDup in Hr. cbn in Hr. apply NoDup_cons in Hr as [Hb _]. set_solver.
  - destruct (OBJPool_gc_spec p fr w sn Hr) as (p1 & fr' & E & Hfr & Hr').
    assert (p1 = p') as <- by congruence. exists fr', []. split; [done|].
    rewrite app_nil_r, Hfr. set_solver.
Qed.

(** Take objects until the pool answers [NULL] or [n] were taken. *)
Fixpoint drain (n : nat) (p : OBJPool) : result (list addr) :=
  match n with
  | O => Ok []
  | S n =>
      '(a, p') ← GetFreeObj p;
      if a =? NULL then Ok [] else l ← drain n p'; Ok (a :: l)
  end.

Lemma drain_rel p fr w :
  OBJPool_rel p fr w -> NULL ∉ fr -> drain (length fr) p = Ok fr.
Proof.
  revert p. induction fr as [|a fr IH]; intros p H Hn; [done|].
  destruct (OBJPool_get_cons _ _ _ _ H) as (p' & E & H'). cbn in E |- *.
  unfold mbind, result_bind. rewrite E. destruct (Z.eqb_spec a NULL); [set_solver|].
  rewrite IH; [done|done|set_solver].
Qed.

(** Whatever sequence of [AddGCObj], [GetFreeObj] and [GC] calls was made,
    with objects that are in the pool given back once, no call faults, and
    [GetFreeObj] returns either the null pointer or an object that is in the
    pool at that moment, so that no object is handed out to two owners. *)
Lemma pool_never_hands_out_twice p s :
  pool_run p s ->
  (exists a p', GetFreeObj p = Ok (a, p') /\ (a = NULL \/ a ∈ s)) /\
  (forall sn, exists p', GC sn p = Ok p') /\
  (forall a sn, a ∉ s -> a <> 8 -> exists p', AddGCObj a sn p = Ok p').
Proof.
  intros (fr & w & Hr & -> & Hn)%pool_run_rel. split_and!.
  - destruct fr as [|a fr].
    + exists NULL, p. split; [apply (OBJPool_get_nil _ _ Hr)|by left].
    + destruct (OBJPool_get_cons _ _ _ _ Hr) as (p' & E & _). exists a, p'. set_solver.
  - intros sn. destruct (OBJPool_gc_spec p fr w sn Hr) as (p' & ? & ? & _). eauto.
  - intros a sn Ha Ha8.
    destruct (OBJPool_add_spec p fr w a sn) as (p' & ? & ? & _); [done|set_solver|done|]. eauto.
Qed.

(** [GC] loses no object: after it, draining the free list returns exactly
    the objects of the pool, each once, whatever sequence numbers they were
    added with and whatever the safe sequence number is. *)
Lemma pool_gc_reclaims_all p s sn :
  pool_run p s ->
  exists p' l, GC sn p = Ok p' /\ drain (size s) p' = Ok l /\ l ≡ₚ elements s.
Proof.
  intros (fr & w & Hr & -> & Hn)%pool_run_rel.
  destruct (OBJPool_gc_spec p fr w sn Hr) as (p' & fr' & E & Hfr & Hr').
  exists p', fr'. split; [done|].
  assert (Hp : fr' ≡ₚ elements (list_to_set (fr ++ w) : gset addr)).
  { rewrite elements_list_to_set by (by eapply OBJPool_rel_NoDup).
    by rewrite Hfr, Permutation_app_comm. }
  split; [|done]. replace (size _) with (length fr').
  - eapply drain_rel; [done|]. rewrite Hp. set_solver.
  - by rewrite Hp.
Qed.

(** The pools are safe and complete.  After any sequence of pool calls
    [GetFreeObj] returns NULL or an object that is in the pool, and no call faults;
    [GC] loses and duplicates no object: draining the free list afterwards returns
    exactly the objects of the pool. *)
Theorem pool_objects p s :
  pool_run p s ->
  (exists a p', GetFreeObj p = Ok (a, p') /\ (a = NULL \/ a ∈ s)) /\
  (forall a sn, a ∉ s -> a <> 8 -> exists p', AddGCObj a sn p = Ok p') /\
  (forall sn, exists p' l, GC sn p = Ok p' /\ drain (size s) p' = Ok l /\ l ≡ₚ elements s).
Proof.
  intros Hr. destruct (pool_never_hands_out_twice p s Hr) as (Hg & _ & Ha). split_and!; [done..|].
  intros sn. by apply pool_gc_reclaims_all.
Qed.

Lemma pool_objects_witness :
  exists p s, pool_run p s /\ 108 ∈ s /\
    exists p' l, GC 0 p = Ok p' /\ drain (size s) p' = Ok l /\ l ≡ₚ elements s.
Proof.
  assert (exists p, AddGCObj 108 1 new_OBJPool = Ok p) as [p Hp] by (eexists; reflexivity).
  assert (pool_run p ({[108]} ∪ ∅)) as Hr by (eapply run_add; [apply run_new|set_solver|done..]).
  exists p, ({[108]} ∪ ∅). split; [exact Hr|]. split; [set_solver|].
  exact (proj2 (proj2 (pool_objects _ _ Hr)) 0).
Defined.
