(* ===== verification/RCU.v ===== *)
(** * RCU: grace periods (db/rcu.h, db/rcu.cc)

    Every thread owns a counter whose top bit is set while it is outside a
    transaction.  Reclaiming memory waits until every other thread has left
    the transaction it was in. *)

From S2P Require Import Prelude.

(** ** Data and operations *)

Definition ENDMASK : Z := Z.shiftl 1 63.
Definition BEGMASK : Z := Z.ldiff (2 ^ 64 - 1) ENDMASK.

(** [RCU::State] *)
Definition State_new : Z := ENDMASK.
Definition State_BeginTX (counter : Z) : Z := Z.land (u64 (counter + 1)) BEGMASK.
Definition State_EndTX (counter : Z) : Z := Z.lor counter ENDMASK.
Definition State_Safe (counter c : Z) : bool := c <? counter.

(** [RCU::RCU] builds one state per thread. *)
Definition new_RCU (thrs : nat) : list Z := replicate thrs State_new.

(** [RCU::BeginTX] and [RCU::EndTX] of the thread registered as [tid]. *)
Definition BeginTX (tid : nat) (states : list Z) : result (list Z) :=
  c ← from_opt OutOfBounds (states !! tid);
  Ok (<[tid := State_BeginTX c]> states).

Definition EndTX (tid : nat) (states : list Z) : result (list Z) :=
  c ← from_opt OutOfBounds (states !! tid);
  Ok (<[tid := State_EndTX c]> states).

(** [RCU::GetStatesCopy] reads the counters one after the other and
    [RCU::WaitForGracePeriod] then spins on each thread in turn.  [wait_pc] is
    where the waiter stands; one call of [wait_step] performs one read of
    another thread's counter (the delays between two reads are left out). *)
Inductive wait_pc :=
  | WCopy (cs : list Z)
  | WWait (i : nat) (cur : list Z)
  | WDone.

Definition copy_step (states cs : list Z) : wait_pc :=
  match states !! length cs with
  | Some c => WCopy (cs ++ [Z.land c BEGMASK])
  | None => WWait 0 cs
  end.

Definition wait_step (tid : nat) (states : list Z) (pc : wait_pc) : wait_pc :=
  match pc with
  | WCopy cs => copy_step states cs
  | WWait i cur =>
      match states !! i, cur !! i with
      | Some c, Some c0 =>
          if (i =? tid)%nat then WWait (S i) cur
          else if State_Safe c c0 then WWait (S i) cur
          else WWait i cur
      | _, _ => WDone
      end
  | WDone => WDone
  end.

(** The waiter running alone for [n] steps. *)
Definition WaitForGracePeriod (n : nat) (tid : nat) (states : list Z) : wait_pc :=
  Nat.iter n (wait_step tid states) (WCopy []).

(** ** Concurrent runs

    The waiter [tid] interleaved with the other threads, which alternate
    between [BeginTX] and [EndTX] as [DBTX::Begin] and [DBTX::End] do; the
    last component records which threads called [EndTX]. *)

Definition in_tx (c : Z) : bool := negb (Z.testbit c 63).

Definition sys : Type := list Z * wait_pc * gset nat.

Inductive sys_step (tid : nat) : sys -> sys -> Prop :=
  | sys_begin j c st st' pc ended :
      j <> tid -> st !! j = Some c -> in_tx c = false -> BeginTX j st = Ok st' ->
      sys_step tid (st, pc, ended) (st', pc, ended)
  | sys_end j c st st' pc ended :
      j <> tid -> st !! j = Some c -> in_tx c = true -> EndTX j st = Ok st' ->
      sys_step tid (st, pc, ended) (st', pc, {[j]} ∪ ended)
  | sys_wait st pc ended :
      sys_step tid (st, pc, ended) (st, wait_step tid st pc, ended).

(** ** Lemmas *)

Lemma BEGMASK_ones : BEGMASK = Z.ones 63.
Proof. reflexivity. Qed.

Lemma land_BEGMASK c : Z.land c BEGMASK = c mod 2 ^ 63.
Proof. rewrite BEGMASK_ones. apply Z.land_ones. lia. Qed.

Lemma in_tx_small c : 0 <= c < 2 ^ 64 -> in_tx c = true <-> c < 2 ^ 63.
Proof.
  intros Hc. unfold in_tx. rewrite negb_true_iff, Z.testbit_false by lia.
  rewrite Z.mod_small.
  - split; [|intros; apply Z.div_small; lia].
    intros E. destruct (decide (c < 2 ^ 63)); [done|].
    assert (1 <= c / 2 ^ 63) by (apply Z.div_le_lower_bound; lia). lia.
  - split; [apply Z.div_pos; lia|]. apply Z.div_lt_upper_bound; lia.
Qed.

Lemma State_BeginTX_in_tx c : in_tx (State_BeginTX c) = true.
Proof.
  unfold State_BeginTX. rewrite land_BEGMASK.
  assert (0 <= u64 (c + 1) mod 2 ^ 63 < 2 ^ 63) by (by apply Z.mod_pos_bound).
  apply in_tx_small; lia.
Qed.

Lemma State_EndTX_idle c : in_tx (State_EndTX c) = false.
Proof. unfold in_tx, State_EndTX. rewrite Z.lor_spec. cbn. by rewrite orb_true_r. Qed.

(** [RCU::BeginTX] numbers transactions: an idle thread that has run [n]
    transactions starts number [n + 1]. *)
Lemma State_BeginTX_idle n :
  0 <= n < 2 ^ 63 - 1 -> State_BeginTX (State_EndTX n) = n + 1.
Proof.
  intros Hn. unfold State_EndTX.
  assert (Z.land n ENDMASK = 0) as Hl.
  { apply Z.bits_inj'. intros k Hk. rewrite Z.land_spec, Z.bits_0. unfold ENDMASK.
    rewrite Z.shiftl_1_l, Z.pow2_bits_eqb by lia.
    destruct (Z.eqb_spec 63 k) as [<-|]; [|by rewrite andb_false_r].
    rewrite andb_true_r. apply Z.testbit_false; [lia|]. by rewrite Z.div_small by lia. }
  rewrite <- Z.lxor_lor, <- Z.add_nocarry_lxor by done. change ENDMASK with (2 ^ 63).
  unfold State_BeginTX. rewrite land_BEGMASK, u64_small by lia.
  replace (n + 2 ^ 63 + 1) with (n + 1 + 1 * 2 ^ 63) by lia.
  rewrite Z.mod_add, Z.mod_small by lia. done.
Qed.

Lemma in_tx_land c : 0 <= c < 2 ^ 64 -> in_tx c = true -> Z.land c BEGMASK = c.
Proof.
  intros Hc Ht. rewrite land_BEGMASK. apply Z.mod_small.
  apply in_tx_small in Ht; lia.
Qed.

Section grace_period.
Context (tid : nat) (s0 : list Z).

(** Thread [j] was inside a transaction when the wait started. *)
Definition busy (j : nat) (c : Z) : Prop :=
  j <> tid /\ s0 !! j = Some c /\ in_tx c = true.

Definition copied (ended : gset nat) (cs : list Z) : Prop :=
  forall j c c', busy j c -> j ∉ ended -> cs !! j = Some c' -> c' = Z.land c BEGMASK.

Definition pc_inv (ended : gset nat) (pc : wait_pc) : Prop :=
  match pc with
  | WCopy cs => (length cs <= length s0)%nat /\ copied ended cs
  | WWait i cur =>
      length cur = length s0 /\ copied ended cur /\
      forall j c, busy j c -> (j < i)%nat -> j ∈ ended
  | WDone => forall j c, busy j c -> j ∈ ended
  end.

Definition gp_inv (s : sys) : Prop :=
  let '(st, pc, ended) := s in
  length st = length s0 /\
  (forall j c, busy j c -> j ∉ ended -> st !! j = Some c) /\ pc_inv ended pc.

Lemma pc_inv_mono e e' pc : e ⊆ e' -> pc_inv e pc -> pc_inv e' pc.
Proof.
  intros He. destruct pc as [cs|i cur|]; simpl; unfold copied.
  - intros [? Hc]. split; [done|]. intros j c c' Hb Hj. apply Hc; [done|set_solver].
  - intros (? & Hc & Hi). split_and!; [done| |].
    + intros j c c' Hb Hj. apply Hc; [done|set_solver].
    + intros j c Hb Hj. apply He. eauto.
  - intros H j c Hb. apply He. eauto.
Qed.

Lemma gp_inv_init : gp_inv (s0, WCopy [], ∅).
Proof.
  simpl. split; [done|]. split.
  - by intros j c (_ & ? & _) _.
  - split; [lia|]. intros j c c' _ _ Hc. by rewrite lookup_nil in Hc.
Qed.

Context (Hrange : Forall (fun c => 0 <= c < 2 ^ 64) s0).

Lemma gp_inv_wait st pc ended :
  gp_inv (st, pc, ended) -> gp_inv (st, wait_step tid st pc, ended).
Proof.
  intros (Hlen & Hst & Hpc). split; [done|]. split; [done|].
  destruct pc as [cs|i cur|]; simpl in *; [| |done].
  - unfold copy_step. destruct Hpc as [Hcl Hcs]. destruct (st !! length cs) as [c|] eqn:E; simpl.
    + split; [apply lookup_lt_Some in E; rewrite length_app; simpl; lia|].
      intros j cj c' Hb Hj. destruct (decide (j = length cs)) as [->|Hne].
      * rewrite list_lookup_middle by done. intros [= <-]. apply Hst in Hb; [|done]. congruence.
      * intros Hc. apply (Hcs j cj); [done..|]. rewrite lookup_app_l in Hc; [done|].
        apply lookup_lt_Some in Hc. rewrite length_app in Hc. simpl in Hc. lia.
    + split_and!; [|done|lia]. apply lookup_ge_None in E. lia.
  - destruct Hpc as (Hcl & Hcs & Hi). destruct (st !! i) as [c|] eqn:Ec; simpl.
    + destruct (cur !! i) as [c'|] eqn:Ec'.
      * case_match eqn:Et; simpl.
        { apply Nat.eqb_eq in Et as ->. split_and!; [done..|]. intros j cj Hb Hj.
          destruct (decide (j = tid)) as [->|]; [by destruct Hb as [? _]|]. eapply Hi; [done|lia]. }
        destruct (State_Safe c c') eqn:Es; simpl; [|done].
        split_and!; [done..|]. intros j cj Hb Hj. destruct (decide (j = i)) as [->|]; [|eapply Hi; [done|lia]].
        destruct (decide (i ∈ ended)) as [|Hn]; [done|exfalso].
        assert (c = cj) as -> by (apply Hst in Hb; [congruence|done]).
        rewrite (Hcs i cj c' Hb Hn Ec') in Es. destruct Hb as (_ & Hb & Ht).
        rewrite in_tx_land in Es; [|exact (Forall_lookup_1 _ _ _ _ Hrange Hb)|done].
        unfold State_Safe in Es. lia.
      * apply lookup_ge_None in Ec'. apply lookup_lt_Some in Ec. lia.
    + apply lookup_ge_None in Ec. intros j cj Hb. eapply Hi; [done|].
      destruct Hb as (_ & Hb & _). apply lookup_lt_Some in Hb. lia.
Qed.

Lemma gp_inv_step s s' : sys_step tid s s' -> gp_inv s -> gp_inv s'.
Proof.
  destruct 1 as [j c st st' pc ended Hj Hc Hidle Hop|j c st st' pc ended Hj Hc Hbusy Hop|st pc ended].
  3: apply gp_inv_wait.
  all: intros (Hlen & Hst & Hpc); unfold BeginTX, EndTX in Hop; rewrite Hc in Hop;
    injection Hop as <-; split; [by rewrite length_insert|split].
  - intros i ci Hb Hi. rewrite list_lookup_insert_ne; [eauto|]. intros <-.
    specialize (Hst _ _ Hb Hi). destruct Hb as (_ & _ & ?). congruence.
  - done.
  - intros i ci Hb Hi. rewrite list_lookup_insert_ne; [apply Hst; [done|]|]; set_solver.
  - eapply pc_inv_mono; [|done]. set_solver.
Qed.

Lemma gp_inv_reach s : rtc (sys_step tid) (s0, WCopy [], ∅) s -> gp_inv s.
Proof.
  intros H. apply (rtc_ind_r gp_inv _ gp_inv_init) in H; [done|].
  intros s1 s2 _ Hs Hi. by eapply gp_inv_step.
Qed.

End grace_period.

(** When [WaitForGracePeriod] of thread [tid] returns, every other thread
    that was inside a transaction when the call started has called [EndTX] in
    between, whatever the interleaving. *)
Lemma grace_period_safe tid s0 st ended j c :
  Forall (fun c => 0 <= c < 2 ^ 64) s0 ->
  rtc (sys_step tid) (s0, WCopy [], ∅) (st, WDone, ended) ->
  j <> tid -> s0 !! j = Some c -> in_tx c = true -> j ∈ ended.
Proof.
  intros Hr Hs Hj Hc Ht. apply (gp_inv_reach tid s0 Hr) in Hs as (_ & _ & Hd).
  by apply (Hd j c).
Qed.

(** ** Termination *)

Lemma iter_copy tid states k cs :
  (length cs + k = length states)%nat ->
  (forall i, (i < length cs)%nat -> cs !! i = (fun c => Z.land c BEGMASK) <$> states !! i) ->
  Nat.iter k (wait_step tid states) (WCopy cs) = WCopy ((fun c => Z.land c BEGMASK) <$> states).
Proof.
  revert cs. induction k as [|k IH]; intros cs Hk Hcs.
  - simpl. f_equal. apply list_eq_same_length with (n := length states); [by rewrite length_fmap|lia|].
    intros i x y Hi Hx Hy. rewrite Hcs in Hx by lia. rewrite list_lookup_fmap in Hy. congruence.
  - rewrite Nat.iter_succ_r. simpl. unfold copy_step.
    destruct (lookup_lt_is_Some_2 states (length cs)) as [c Hc]; [lia|]. rewrite Hc.
    apply IH; [rewrite length_app; simpl; lia|]. intros i Hi.
    destruct (decide (i = length cs)) as [->|].
    + rewrite list_lookup_middle by done. by rewrite Hc.
    + rewrite length_app in Hi; simpl in Hi. rewrite lookup_app_l by lia. apply Hcs. lia.
Qed.

Lemma iter_wait tid states cur k i :
  length cur = length states -> (i + k = length states)%nat ->
  (forall j c c0, (i <= j)%nat -> j <> tid -> states !! j = Some c -> cur !! j = Some c0 -> State_Safe c c0 = true) ->
  Nat.iter (S k) (wait_step tid states) (WWait i cur) = WDone.
Proof.
  revert i. induction k as [|k IH]; intros i Hl Hk Hs; rewrite Nat.iter_succ_r; simpl wait_step.
  - rewrite (lookup_ge_None_2 states i) by lia. done.
  - destruct (lookup_lt_is_Some_2 states i) as [c Hc]; [lia|].
    destruct (lookup_lt_is_Some_2 cur i) as [c0 Hc0]; [lia|]. rewrite Hc, Hc0.
    assert ((if (i =? tid)%nat then WWait (S i) cur
             else if State_Safe c c0 then WWait (S i) cur else WWait i cur) = WWait (S i) cur) as ->.
    { case_match eqn:Et; [done|]. apply Nat.eqb_neq in Et. by rewrite (Hs i c c0). }
    apply IH; [done|lia|]. intros j ? ? ?. apply Hs. lia.
Qed.

(** [WaitForGracePeriod] returns after reading every counter twice when no
    other thread is inside a transaction. *)
Lemma grace_period_terminates tid states :
  (forall j c, j <> tid -> states !! j = Some c -> 2 ^ 63 <= c < 2 ^ 64) ->
  WaitForGracePeriod (2 * length states + 2) tid states = WDone.
Proof.
  intros Hidle. unfold WaitForGracePeriod.
  replace (2 * length states + 2)%nat with (S (length states) + (1 + length states))%nat by lia.
  rewrite !Nat.iter_add, (iter_copy tid states (length states) []) by (simpl; try done; lia).
  simpl Nat.iter at 2. unfold copy_step. rewrite length_fmap, (lookup_ge_None_2 states) by lia.
  apply iter_wait; [by rewrite length_fmap|lia|]. intros j c c0 _ Hj Hc. rewrite list_lookup_fmap, Hc.
  intros [= <-]. specialize (Hidle _ _ Hj Hc). unfold State_Safe. rewrite land_BEGMASK.
  pose proof (Z.mod_pos_bound c (2 ^ 63)). lia.
Qed.

(** Thread 1 is inside its fifth transaction when thread 0 starts to wait. *)
Definition w_states : list Z := [ENDMASK; 5].

Lemma w_run :
  rtc (sys_step 0) (w_states, WCopy [], ∅)
    ([ENDMASK; State_EndTX 5], WDone, {[1%nat]} ∪ ∅).
Proof.
  do 4 (eapply rtc_l; [apply sys_wait|]; vm_compute wait_step).
  eapply rtc_l; [eapply (sys_end 0 1 5); [done|reflexivity..]|].
  do 2 (eapply rtc_l; [apply sys_wait|]; vm_compute wait_step).
  apply rtc_refl.
Qed.

(** C24: Grace periods.  When [WaitForGracePeriod] returns, every other thread that
    was inside a transaction when it was called has ended that transaction,
    whatever the threads do meanwhile; and it returns, within two accesses per
    thread, when no other thread is inside a transaction. *)
Theorem grace_period tid :
  (forall s0 st ended j c, Forall (fun c => 0 <= c < 2 ^ 64) s0 ->
     rtc (sys_step tid) (s0, WCopy [], ∅) (st, WDone, ended) ->
     j <> tid -> s0 !! j = Some c -> in_tx c = true -> j ∈ ended) /\
  (forall states, (forall j c, j <> tid -> states !! j = Some c -> 2 ^ 63 <= c < 2 ^ 64) ->
     WaitForGracePeriod (2 * length states + 2) tid states = WDone).
Proof. split; [apply grace_period_safe|apply grace_period_terminates]. Qed.

Lemma grace_period_witness :
  1%nat ∈ ({[1%nat]} ∪ ∅ : gset nat) /\ WaitForGracePeriod 6 0 [5; State_EndTX 7] = WDone.
Proof.
  destruct (grace_period 0) as [Hsafe Hterm]. split.
  - refine (Hsafe w_states _ _ 1%nat 5 _ w_run _ _ _); [|discriminate|reflexivity..].
    repeat constructor; vm_compute; intuition discriminate.
  - apply (Hterm [5; State_EndTX 7]). intros [|[|j]] c Hj; simpl; [done| |done]. intros [= <-]. vm_compute; intuition discriminate.
Defined.
