(* ===== verification/MemStore.v ===== *)
(** * Memstore: the records and the interface of the tables (memstore/memstore.h)

    A table maps 64-bit keys to [MemNode] records.  The two tables the
    artifact ships (the HTM B+ tree and the Eunomia tree) are binary
    libraries, so the rest of the development is proved against the class
    [MemstoreLaws], which states what [memstore.h] documents. *)

From S2P Require Import Prelude.

(** ** Records *)

Record MemNode := mkMemNode {
  mn_seq : Z;
  mn_counter : Z;
  mn_value : addr;
  mn_oldVersions : addr;
  mn_gcRef : Z
}.

(** The constructor [MemNode::MemNode]. *)
Definition MemNode_init : MemNode := mkMemNode 0 0 NULL NULL 0.

(** The two reserved value pointers of db/dbtx.h. *)
Definition LOGICALDELETE : addr := NULL.
Definition HAVEREMOVED : addr := 2 ^ 64 - 1.

Definition ValidateValue (value : addr) : bool :=
  negb (value =? LOGICALDELETE) && negb (value =? HAVEREMOVED).

Definition set_seq (s : Z) (n : MemNode) : MemNode :=
  mkMemNode s (mn_counter n) (mn_value n) (mn_oldVersions n) (mn_gcRef n).

Definition set_counter (c : Z) (n : MemNode) : MemNode :=
  mkMemNode (mn_seq n) c (mn_value n) (mn_oldVersions n) (mn_gcRef n).

Definition set_value (v : addr) (n : MemNode) : MemNode :=
  mkMemNode (mn_seq n) (mn_counter n) v (mn_oldVersions n) (mn_gcRef n).

Definition set_oldVersions (o : addr) (n : MemNode) : MemNode :=
  mkMemNode (mn_seq n) (mn_counter n) (mn_value n) o (mn_gcRef n).

Definition set_gcRef (r : Z) (n : MemNode) : MemNode :=
  mkMemNode (mn_seq n) (mn_counter n) (mn_value n) (mn_oldVersions n) r.

#[export] Instance MemNode_eq_dec : EqDecision MemNode.
Proof. solve_decision. Defined.

(** The memory of the records. *)
Abbreviation nodemem := (gmap Z MemNode) (only parsing).

Definition node_at (m : nodemem) (a : addr) : result MemNode := from_opt NullDeref (m !! a).

(** ** Interface

    [ms_GetWithInsert s key fresh] returns the record of [key]; when the key is
    absent the table inserts the record it allocates at [fresh].  The flag is
    true when that record was inserted. *)

Class Memstore (S : Type) := {
  ms_Get : S -> Z -> addr;
  ms_GetWithInsert : S -> Z -> addr -> addr * bool * S;
  ms_GetWithDelete : S -> Z -> addr * S;
  (** The words the links of the table point to ([Iterator::GetLink]). *)
  ms_link : S -> addr -> option Z
}.

Class MemstoreLaws (S : Type) `{Memstore S} := {
  ms_map : S -> gmap Z addr;
  ms_Get_spec s k : ms_Get s k = default NULL (ms_map s !! k);
  ms_insert_old s k f n :
    ms_map s !! k = Some n ->
    exists s', ms_GetWithInsert s k f = (n, false, s') /\ ms_map s' = ms_map s;
  ms_insert_new s k f :
    ms_map s !! k = None ->
    exists s', ms_GetWithInsert s k f = (f, true, s') /\ ms_map s' = <[k := f]> (ms_map s);
  ms_delete_spec s k :
    exists s', ms_GetWithDelete s k = (default NULL (ms_map s !! k), s') /\
      ms_map s' = delete k (ms_map s)
}.

(** ** Iterators

    [Memstore::Iterator]: a cursor over the records of a table in key order.
    The operations that move it are given the table as it is at the call.
    [it_GetLink] is the address of the link the cursor was reached through and
    [it_GetLinkTarget] what was found there. *)

Class MemIterator (S I : Type) := {
  it_new : I;
  it_Valid : I -> bool;
  it_CurNode : I -> addr;
  it_Key : I -> Z;
  it_Next : S -> I -> bool * I;
  it_Prev : S -> I -> bool * I;
  it_Seek : S -> Z -> I -> I;
  it_SeekToFirst : S -> I -> I;
  it_GetLink : I -> addr;
  it_GetLinkTarget : I -> Z
}.

(** [is_least Q o]: [o] is the least key that satisfies [Q], if there is one. *)
Definition is_least (Q : Z -> Prop) (o : option Z) : Prop :=
  match o with
  | Some k => Q k /\ forall k', Q k' -> k <= k'
  | None => forall k, ~ Q k
  end.

Definition is_greatest (Q : Z -> Prop) (o : option Z) : Prop :=
  match o with
  | Some k => Q k /\ forall k', Q k' -> k' <= k
  | None => forall k, ~ Q k
  end.

(** [it_at i] is the position of the cursor; what memstore.h says about the
    operations.  A cursor moves over a table that does not change meanwhile. *)
Class MemIteratorLaws (S I : Type) `{MemstoreLaws S} `{!MemIterator S I} := {
  it_at : I -> option Z;
  it_Valid_spec i : it_Valid i = true <-> is_Some (it_at i);
  it_Key_spec i k : it_at i = Some k -> it_Key i = k;
  it_ok : S -> I -> Prop;
  it_CurNode_spec s i k : it_ok s i -> it_at i = Some k -> ms_map s !! k = Some (it_CurNode i);
  it_CurNode_end s i : it_ok s i -> it_at i = None -> it_CurNode i = NULL;
  it_Next_spec s i k : it_ok s i -> it_at i = Some k ->
    it_ok s (it_Next s i).2 /\
    is_least (fun k' => k < k' /\ is_Some (ms_map s !! k')) (it_at (it_Next s i).2);
  it_Prev_spec s i k : it_ok s i -> it_at i = Some k ->
    it_ok s (it_Prev s i).2 /\
    is_greatest (fun k' => k' < k /\ is_Some (ms_map s !! k')) (it_at (it_Prev s i).2);
  it_Seek_spec s k i :
    it_ok s (it_Seek s k i) /\
    is_least (fun k' => k <= k' /\ is_Some (ms_map s !! k')) (it_at (it_Seek s k i));
  it_SeekToFirst_spec s i :
    it_ok s (it_SeekToFirst s i) /\
    is_least (fun k' => is_Some (ms_map s !! k')) (it_at (it_SeekToFirst s i))
}.

(** ** Links

    A range scan records, for every position, the link it was reached through
    and the word found there ([ReadSet::AddNext]), to "avoid concurrently
    insertion" (db/dbtx.cc).  The scan relies on this: a key that was absent
    when the word was read cannot have been inserted as long as the link holds
    that word. *)

Inductive ms_step {S : Type} `{Memstore S} (s : S) : S -> Prop :=
  | ms_step_insert k f : ms_step s (ms_GetWithInsert s k f).2
  | ms_step_delete k : ms_step s (ms_GetWithDelete s k).2.

(** [x] is before the position [o]; the end of the table is after every key. *)
Definition before (x : Z) (o : option Z) : Prop :=
  match o with Some k => x < k | None => True end.

#[export] Instance before_dec x o : Decision (before x o).
Proof. destruct o; simpl; apply _. Defined.

(** [ms_guards s a v x]: while link [a] holds [v], key [x] is not in the
    table.  [it_Seek] and [it_SeekToFirst] return with a link for the keys they
    passed; the keys [it_Next] passes are guarded by the link of the position
    it leaves or by that of the position it reaches. *)
Class LinkLaws (S I : Type) `{MemstoreLaws S} `{!MemIterator S I} `{!MemIteratorLaws S I} := {
  ms_guards : S -> addr -> Z -> Z -> Prop;
  guards_absent s a v x : ms_guards s a v x -> ms_link s a = Some v -> ms_map s !! x = None;
  guards_step s s' a v x : ms_step s s' -> ms_guards s a v x -> ms_guards s' a v x;
  link_stays s s' a : ms_step s s' -> is_Some (ms_link s a) -> is_Some (ms_link s' a);
  link_word s i : it_ok s i -> ms_link s (it_GetLink i) = Some (it_GetLinkTarget i);
  link_not_null s i : it_ok s i -> it_GetLink i <> NULL;
  Seek_guards s k i x : let i' := it_Seek s k i in
    k <= x -> before x (it_at i') -> ms_guards s (it_GetLink i') (it_GetLinkTarget i') x;
  SeekToFirst_guards s i x : let i' := it_SeekToFirst s i in
    before x (it_at i') -> ms_guards s (it_GetLink i') (it_GetLinkTarget i') x;
  Next_guards s i k x : it_ok s i -> it_at i = Some k -> let i' := (it_Next s i).2 in
    k < x -> before x (it_at i') ->
    ms_guards s (it_GetLink i) (it_GetLinkTarget i) x \/
    (is_Some (it_at i') /\ ms_guards s (it_GetLink i') (it_GetLinkTarget i') x)
}.

(** ** A reference table

    The interface can be implemented: a finite map does it. *)

Definition map_GetWithInsert (s : gmap Z addr) (k : Z) (f : addr) : addr * bool * gmap Z addr :=
  match s !! k with
  | Some n => (n, false, s)
  | None => (f, true, <[k := f]> s)
  end.

#[export] Instance map_Memstore : Memstore (gmap Z addr) := {
  ms_Get s k := default NULL (s !! k);
  ms_GetWithInsert := map_GetWithInsert;
  ms_GetWithDelete s k := (default NULL (s !! k), delete k s);
  ms_link s a := None
}.

Lemma map_insert_old (s : gmap Z addr) k f n :
  s !! k = Some n -> exists s', map_GetWithInsert s k f = (n, false, s') /\ s' = s.
Proof. intros H. exists s. unfold map_GetWithInsert. by rewrite H. Qed.

Lemma map_insert_new (s : gmap Z addr) k f :
  s !! k = None -> exists s', map_GetWithInsert s k f = (f, true, s') /\ s' = <[k := f]> s.
Proof. intros H. exists (<[k := f]> s). unfold map_GetWithInsert. by rewrite H. Qed.

#[export] Instance map_MemstoreLaws : MemstoreLaws (gmap Z addr) := {
  ms_map s := s;
  ms_Get_spec s k := eq_refl;
  ms_insert_old := map_insert_old;
  ms_insert_new := map_insert_new;
  ms_delete_spec s k := ex_intro _ (delete k s) (conj eq_refl eq_refl)
}.

(** A cursor over it: the position and the record found there. *)
Record map_iter := mkMapIter { mi_key : option Z; mi_node : addr }.

Definition min_opt (l : list Z) : option Z :=
  foldr (fun k o => Some (default k (Z.min k <$> o))) None l.

Definition max_opt (l : list Z) : option Z :=
  foldr (fun k o => Some (default k (Z.max k <$> o))) None l.

Definition map_keys (s : gmap Z addr) : list Z := (map_to_list s).*1.

Definition map_iter_to (s : gmap Z addr) (o : option Z) : map_iter :=
  mkMapIter o (default NULL (o ≫= fun k => s !! k)).

#[export] Instance map_MemIterator : MemIterator (gmap Z addr) map_iter := {
  it_new := mkMapIter None NULL;
  it_Valid i := match mi_key i with Some _ => true | None => false end;
  it_CurNode := mi_node;
  it_Key i := default 0 (mi_key i);
  it_Next s i :=
    (true, map_iter_to s (k ← mi_key i; min_opt (filter (fun k' => k < k') (map_keys s))));
  it_Prev s i :=
    (true, map_iter_to s (k ← mi_key i; max_opt (filter (fun k' => k' < k) (map_keys s))));
  it_Seek s k i := map_iter_to s (min_opt (filter (fun k' => k <= k') (map_keys s)));
  it_SeekToFirst s i := map_iter_to s (min_opt (map_keys s));
  it_GetLink i := NULL;
  it_GetLinkTarget i := mi_node i
}.

(** ** Lemmas *)

Lemma min_opt_least l : is_least (fun k => k ∈ l) (min_opt l).
Proof.
  induction l as [|x l IH]; simpl; [set_solver|].
  destruct (min_opt l) as [k|]; simpl in *.
  - destruct IH as [Hk Hmin]. split.
    + destruct (Z.min_spec x k) as [[_ ->]|[_ ->]]; set_solver.
    + intros k' [->|Hk']%elem_of_cons; [lia|]. specialize (Hmin k' Hk'). lia.
  - split; [set_solver|]. intros k' [->|Hk']%elem_of_cons; [lia|]. by apply IH in Hk'.
Qed.

Lemma max_opt_greatest l : is_greatest (fun k => k ∈ l) (max_opt l).
Proof.
  induction l as [|x l IH]; simpl; [set_solver|].
  destruct (max_opt l) as [k|]; simpl in *.
  - destruct IH as [Hk Hmax]. split.
    + destruct (Z.max_spec x k) as [[_ ->]|[_ ->]]; set_solver.
    + intros k' [->|Hk']%elem_of_cons; [lia|]. specialize (Hmax k' Hk'). lia.
  - split; [set_solver|]. intros k' [->|Hk']%elem_of_cons; [lia|]. by apply IH in Hk'.
Qed.

Lemma is_least_ext (Q Q' : Z -> Prop) o : (forall k, Q k <-> Q' k) -> is_least Q o -> is_least Q' o.
Proof. intros HQ. destruct o; simpl; setoid_rewrite <- HQ; auto. Qed.

Lemma is_greatest_ext (Q Q' : Z -> Prop) o :
  (forall k, Q k <-> Q' k) -> is_greatest Q o -> is_greatest Q' o.
Proof. intros HQ. destruct o; simpl; setoid_rewrite <- HQ; auto. Qed.

Lemma elem_of_map_keys (s : gmap Z addr) k : k ∈ map_keys s <-> is_Some (s !! k).
Proof.
  unfold map_keys. rewrite list_elem_of_fmap. split.
  - intros ([k' a] & -> & Ha%elem_of_map_to_list). eauto.
  - intros [a Ha]. exists (k, a). split; [done|]. by apply elem_of_map_to_list.
Qed.

Definition map_iter_ok (s : gmap Z addr) (i : map_iter) : Prop :=
  match mi_key i with Some k => s !! k = Some (mi_node i) | None => mi_node i = NULL end.

Lemma map_iter_to_ok s o Q : is_least Q o \/ is_greatest Q o ->
  (forall k, Q k -> is_Some (s !! k)) -> map_iter_ok s (map_iter_to s o).
Proof.
  intros Ho HQ. destruct o as [k|]; [|done]. unfold map_iter_ok. simpl in *.
  destruct (HQ k) as [a Ha]; [by destruct Ho as [[? _]|[? _]]|]. by rewrite Ha.
Qed.

Lemma ValidateValue_spec v :
  ValidateValue v = true <-> v <> LOGICALDELETE /\ v <> HAVEREMOVED.
Proof. unfold ValidateValue. rewrite andb_true_iff, !negb_true_iff, !Z.eqb_neq. done. Qed.

Lemma map_iter_least (s : gmap Z addr) (R : Z -> Prop) `{!forall k, Decision (R k)} :
  let i := map_iter_to s (min_opt (filter R (map_keys s))) in
  map_iter_ok s i /\ is_least (fun k => R k /\ is_Some (s !! k)) (mi_key i).
Proof.
  assert (is_least (fun k => R k /\ is_Some (s !! k)) (min_opt (filter R (map_keys s)))) as Hl.
  { eapply is_least_ext; [|apply min_opt_least]. intros k. by rewrite list_elem_of_filter, elem_of_map_keys. }
  split; [|done]. eapply map_iter_to_ok; [left; exact Hl|]. by intros k [_ ?].
Qed.

Lemma map_iter_greatest (s : gmap Z addr) (R : Z -> Prop) `{!forall k, Decision (R k)} :
  let i := map_iter_to s (max_opt (filter R (map_keys s))) in
  map_iter_ok s i /\ is_greatest (fun k => R k /\ is_Some (s !! k)) (mi_key i).
Proof.
  assert (is_greatest (fun k => R k /\ is_Some (s !! k)) (max_opt (filter R (map_keys s)))) as Hl.
  { eapply is_greatest_ext; [|apply max_opt_greatest]. intros k. by rewrite list_elem_of_filter, elem_of_map_keys. }
  split; [|done]. eapply map_iter_to_ok; [right; exact Hl|]. by intros k [_ ?].
Qed.

Lemma map_iter_first (s : gmap Z addr) :
  let i := map_iter_to s (min_opt (map_keys s)) in
  map_iter_ok s i /\ is_least (fun k => is_Some (s !! k)) (mi_key i).
Proof.
  assert (is_least (fun k => is_Some (s !! k)) (min_opt (map_keys s))) as Hl.
  { eapply is_least_ext; [|apply min_opt_least]. intros k. apply elem_of_map_keys. }
  split; [|done]. eapply map_iter_to_ok; [left; exact Hl|]. auto.
Qed.

#[export] Instance map_MemIteratorLaws : MemIteratorLaws (gmap Z addr) map_iter.
Proof.
  refine {| it_at := mi_key; it_ok := map_iter_ok |}.
  - intros [[k|] n]; simpl; split; try done; by intros [? ?].
  - intros [[k0|] n] k; simpl; congruence.
  - intros s i k Hi Hk. unfold map_iter_ok in Hi. by rewrite Hk in Hi.
  - intros s i Hi Hk. unfold map_iter_ok in Hi. by rewrite Hk in Hi.
  - intros s i k Hi Hk. simpl. rewrite Hk. apply (map_iter_least s (fun k' => k < k')).
  - intros s i k Hi Hk. simpl. rewrite Hk. apply (map_iter_greatest s (fun k' => k' < k)).
  - intros s k i. apply (map_iter_least s (fun k' => k <= k')).
  - intros s i. apply (map_iter_first s).
Defined.
