(* ===== verification/LinkTable.v ===== *)
(** * A reference table with links

    The classes of [MemStore] can be implemented together: a finite map with a
    version number that every insertion advances, and one link, to that
    number. *)

From S2P Require Import Prelude MemStore.

Record ltab := mkLtab { lt_map : gmap Z addr; lt_version : Z; lt_id : positive }.

(** The address of the version number. *)
Definition lt_link (s : ltab) : addr := 8 * Z.pos (lt_id s).

Arguments lt_link : simpl never.

Definition ltab_GetWithInsert (s : ltab) (k : Z) (f : addr) : addr * bool * ltab :=
  match lt_map s !! k with
  | Some n => (n, false, s)
  | None => (f, true, mkLtab (<[k := f]> (lt_map s)) (lt_version s + 1) (lt_id s))
  end.

#[export] Instance ltab_Memstore : Memstore ltab := {
  ms_Get s k := default NULL (lt_map s !! k);
  ms_GetWithInsert := ltab_GetWithInsert;
  ms_GetWithDelete s k :=
    (default NULL (lt_map s !! k), mkLtab (delete k (lt_map s)) (lt_version s) (lt_id s));
  ms_link s a := if a =? lt_link s then Some (lt_version s) else None
}.

Lemma ltab_link_self s : ms_link s (lt_link s) = Some (lt_version s).
Proof. unfold ms_link, ltab_Memstore. by rewrite Z.eqb_refl. Qed.

Lemma ltab_link_inv s a v : ms_link s a = Some v -> a = lt_link s.
Proof. unfold ms_link, ltab_Memstore. destruct (Z.eqb_spec a (lt_link s)); congruence. Qed.

#[export] Instance ltab_MemstoreLaws : MemstoreLaws ltab.
Proof.
  refine {| ms_map := lt_map |}.
  - done.
  - intros s k f n E. exists s. simpl. unfold ltab_GetWithInsert. by rewrite E.
  - intros s k f E. eexists. simpl. unfold ltab_GetWithInsert. by rewrite E.
  - intros s k. by eexists.
Defined.

(** A cursor: one of the map, with the link and the version it saw. *)
Record liter := mkLiter { li_pos : map_iter; li_link : addr; li_target : Z }.

Definition li_to (s : ltab) (m : map_iter) : liter := mkLiter m (lt_link s) (lt_version s).

#[export] Instance ltab_MemIterator : MemIterator ltab liter := {
  it_new := mkLiter (mkMapIter None NULL) NULL 0;
  it_Valid i := it_Valid (S := gmap Z addr) (li_pos i);
  it_CurNode i := mi_node (li_pos i);
  it_Key i := default 0 (mi_key (li_pos i));
  it_Next s i := (true, li_to s (it_Next (lt_map s) (li_pos i)).2);
  it_Prev s i := (true, li_to s (it_Prev (lt_map s) (li_pos i)).2);
  it_Seek s k i := li_to s (it_Seek (lt_map s) k (li_pos i));
  it_SeekToFirst s i := li_to s (it_SeekToFirst (lt_map s) (li_pos i));
  it_GetLink := li_link;
  it_GetLinkTarget := li_target
}.

Definition liter_ok (s : ltab) (i : liter) : Prop :=
  map_iter_ok (lt_map s) (li_pos i) /\ li_link i = lt_link s /\ li_target i = lt_version s.

#[export] Instance ltab_MemIteratorLaws : MemIteratorLaws ltab liter.
Proof.
  refine {| it_at i := mi_key (li_pos i); it_ok := liter_ok |}.
  - intros [[[k|] n] l v]; simpl; split; try done; by intros [? ?].
  - intros [[[k0|] n] l v] k; simpl; congruence.
  - intros s i k [Hi _] Hk. unfold map_iter_ok in Hi. by rewrite Hk in Hi.
  - intros s i [Hi _] Hk. unfold map_iter_ok in Hi. by rewrite Hk in Hi.
  - intros s i k [Hi _] Hk. simpl. rewrite Hk.
    destruct (map_iter_least (lt_map s) (fun k' => k < k')). by split.
  - intros s i k [Hi _] Hk. simpl. rewrite Hk.
    destruct (map_iter_greatest (lt_map s) (fun k' => k' < k)). by split.
  - intros s k i. destruct (map_iter_least (lt_map s) (fun k' => k <= k')). by split.
  - intros s i. destruct (map_iter_first (lt_map s)). by split.
Defined.

(** The version has moved on, or the key is absent. *)
Definition lt_guards (s : ltab) (a : addr) (v x : Z) : Prop :=
  a = lt_link s /\ (v < lt_version s \/ (v = lt_version s /\ lt_map s !! x = None)).

Lemma is_least_absent (m : gmap Z addr) (R : Z -> Prop) o x :
  is_least (fun k => R k /\ is_Some (m !! k)) o -> R x -> before x o -> m !! x = None.
Proof.
  intros Hl HR Hb. destruct (m !! x) as [a|] eqn:E; [|done]. exfalso. destruct o as [k|]; simpl in *.
  - destruct Hl as [_ Hl]. specialize (Hl x (conj HR (ex_intro _ a E))). lia.
  - apply (Hl x). eauto.
Qed.

Lemma lt_guards_step s s' a v x : ms_step s s' -> lt_guards s a v x -> lt_guards s' a v x.
Proof.
  intros [k f|k] [-> Hg]; simpl; unfold lt_guards.
  - unfold ltab_GetWithInsert. destruct (lt_map s !! k) as [n|] eqn:E; [done|]. simpl.
    split; [done|]. left. lia.
  - simpl. split; [done|]. destruct Hg as [|[-> Hx]]; [by left|right]. split; [done|].
    rewrite lookup_delete_None. auto.
Qed.

#[export] Instance ltab_LinkLaws : LinkLaws ltab liter.
Proof.
  refine {| ms_guards := lt_guards |}.
  - intros s a v x [-> Hg]. rewrite ltab_link_self. intros [= <-].
    destruct Hg as [|[_ ?]]; [lia|done].
  - apply lt_guards_step.
  - intros s s' a Hstep [v ->%ltab_link_inv].
    assert (lt_link s = lt_link s') as ->; [|rewrite ltab_link_self; eauto].
    destruct Hstep as [k f|k]; [|done]. simpl. unfold ltab_GetWithInsert. by destruct (lt_map s !! k).
  - intros s i (_ & Hl & Ht). unfold it_GetLink, it_GetLinkTarget, ltab_MemIterator.
    rewrite Hl, Ht. apply ltab_link_self.
  - intros s i (_ & Hl & _). unfold it_GetLink, ltab_MemIterator. rewrite Hl. unfold lt_link, NULL. lia.
  - intros s k i x. simpl. intros Hx Hb. split; [done|right]. split; [done|].
    by eapply is_least_absent; [apply (map_iter_least (lt_map s) (fun k' => k <= k'))|..].
  - intros s i x. simpl. intros Hb. split; [done|right]. split; [done|].
    eapply (is_least_absent _ (fun _ => True)); [|done|exact Hb].
    eapply is_least_ext; [|apply (map_iter_first (lt_map s))]. intros k. tauto.
  - intros s i k x (Hi & Hl & Ht) Hk i' Hx Hb. left. split; [done|right]. split; [done|].
    unfold i' in Hb. simpl in Hb, Hk. rewrite Hk in Hb.
    by eapply is_least_absent; [apply (map_iter_least (lt_map s) (fun k' => k < k'))|..].
Qed.
