(* ===== verification/SkipList.v ===== *)
(** * MemStoreSkipList: the skip list table (memstore/memstore_skiplist.h, .cc)

    The heap of nodes, the search loops, the iterator, the insertion routine the
    build selects ([GetWithInsertFineGrainLock]).  The insertion is a state
    machine whose steps are its accesses to shared memory, which SkipListInv.v
    interleaves; the other two insertion routines are in SkipListAlt.v. *)

From S2P Require Import Prelude Random MemStore.

(** ** Nodes *)

Definition kMaxHeight : nat := 16.

(** [next_] is declared with one element and allocated with [height]. *)
Record Node := mkNode {
  nd_key : Z;
  nd_height : nat;
  nd_memVal : MemNode;
  nd_lock : Z;
  nd_next : list addr
}.

Abbreviation heap := (gmap Z Node) (only parsing).

(** What [malloc] leaves in the memory it returns. *)
Record raw := mkRaw {
  raw_key : Z;
  raw_height : nat;
  raw_memVal : MemNode;
  raw_lock : Z;
  raw_next : nat -> addr
}.

Definition zeroed : raw := mkRaw 0 0 MemNode_init 0 (fun _ => NULL).

(** [NewNode] writes the key, the height, four fields of the record and
    [next_[0]]; it leaves the lock, [gcRef] and the other links as they are. *)
Definition NewNode (key : Z) (height : nat) (m : raw) : Node :=
  mkNode key height (mkMemNode 0 0 NULL NULL (mn_gcRef (raw_memVal m))) (raw_lock m)
    (NULL :: map (raw_next m) (seq 1 (height - 1))).

Definition set_key (k : Z) (n : Node) : Node :=
  mkNode k (nd_height n) (nd_memVal n) (nd_lock n) (nd_next n).

Definition set_memVal (v : MemNode) (n : Node) : Node :=
  mkNode (nd_key n) (nd_height n) v (nd_lock n) (nd_next n).

Definition set_lock (l : Z) (n : Node) : Node :=
  mkNode (nd_key n) (nd_height n) (nd_memVal n) l (nd_next n).

Definition set_nexts (l : list addr) (n : Node) : Node :=
  mkNode (nd_key n) (nd_height n) (nd_memVal n) (nd_lock n) l.

(** ** Memory accesses *)

Definition node (h : heap) (a : addr) : result Node := from_opt NullDeref (h !! a).

(** [a->next_[i]] *)
Definition next_at (h : heap) (a : addr) (i : nat) : result addr :=
  n ← node h a; from_opt OutOfBounds (nd_next n !! i).

(** [a->next_[i] = v] *)
Definition set_next (h : heap) (a : addr) (i : nat) (v : addr) : result heap :=
  n ← node h a;
  if (i <? length (nd_next n))%nat then Ok (<[a := set_nexts (<[i := v]> (nd_next n)) n]> h)
  else Fault OutOfBounds.

(** [SpinLock::Trylock], one round of [SpinLock::Lock]: the old lock word. *)
Definition Trylock (h : heap) (a : addr) : result (Z * heap) :=
  n ← node h a; Ok (nd_lock n, <[a := set_lock 1 n]> h).

Definition Unlock (h : heap) (a : addr) : result heap :=
  n ← node h a; Ok (<[a := set_lock 0 n]> h).

(** ** The table *)

Record skiplist := mkSkipList {
  sl_heap : heap;
  sl_head : addr;
  sl_max_height : nat
}.

Definition set_heap (h : heap) (s : skiplist) : skiplist :=
  mkSkipList h (sl_head s) (sl_max_height s).

(** The constructor: the head has all levels, its links are cleared. *)
Definition MemStoreSkipList_new (a : addr) (m : raw) : skiplist :=
  mkSkipList
    {[a := mkNode (raw_key m) (raw_height m) (raw_memVal m) (raw_lock m) (replicate kMaxHeight NULL)]}
    a 1.

(** The thread-local variables [localinit_], [rnd_] and [dummy_]. *)
Record tls := mkTls { tl_localinit : bool; tl_rnd : Z; tl_dummy : addr }.

Definition tls_new : tls := mkTls false 0 NULL.

Definition RandomHeight (rnd_ : Z) : nat * Z := RandomHeight_loop (kMaxHeight - 1) 1 rnd_.

(** [a] and [m] are the memory the allocator returns, when it is asked. *)
Definition ThreadLocalInit (a : addr) (m : raw) (h : heap) (t : tls) : heap * tls :=
  if negb (tl_localinit t) then
    let '(height, rnd_) := RandomHeight (Random_new 0xdeadbeef) in
    (<[a := NewNode 0 height m]> h, mkTls true rnd_ a)
  else (h, t).

(** ** Searching *)

(** What the search loops do first in each round: read [next = x->next_[level]]
    and compare its key; the flag tells whether the search goes on to [next]. *)
Definition look (h : heap) (key : Z) (x : addr) (level : nat) : result (addr * bool) :=
  next ← next_at h x level;
  if next =? NULL then Ok (next, false)
  else n ← node h next; Ok (next, nd_key n <? key).

Fixpoint FindLessThan_loop (fuel : nat) (h : heap) (key : Z) (level : nat) (x : addr) : result addr :=
  match fuel with
  | O => Fault OutOfFuel
  | S fuel =>
      '(next, forward) ← look h key x level;
      if (forward : bool) then FindLessThan_loop fuel h key level next
      else match level with
           | O => Ok x
           | S level => FindLessThan_loop fuel h key level x
           end
  end.

(** [prev] is the array the caller passes, if it does. *)
Fixpoint FindGreaterOrEqual_loop (fuel : nat) (h : heap) (key : Z) (level : nat) (x : addr)
    (prev : option (list addr)) : result (addr * option (list addr)) :=
  match fuel with
  | O => Fault OutOfFuel
  | S fuel =>
      '(next, forward) ← look h key x level;
      if (forward : bool) then FindGreaterOrEqual_loop fuel h key level next prev
      else
        let prev := (fun l => <[level := x]> l) <$> prev in
        match level with
        | O => Ok (next, prev)
        | S level => FindGreaterOrEqual_loop fuel h key level x prev
        end
  end.

(** A search visits each node at most once and goes down at most
    [kMaxHeight - 1] times. *)
Definition search_fuel (h : heap) : nat := (size h + kMaxHeight)%nat.

Definition FindLessThan (s : skiplist) (key : Z) : result addr :=
  FindLessThan_loop (search_fuel (sl_heap s)) (sl_heap s) key (sl_max_height s - 1) (sl_head s).

Definition FindGreaterOrEqual (s : skiplist) (key : Z) (prev : option (list addr)) :
    result (addr * option (list addr)) :=
  FindGreaterOrEqual_loop (search_fuel (sl_heap s)) (sl_heap s) key (sl_max_height s - 1)
    (sl_head s) prev.

(** [Get] returns the address of the record, which is part of the node. *)
Definition Get (s : skiplist) (key : Z) : result addr :=
  '(x, _) ← FindGreaterOrEqual s key None;
  if x =? NULL then Ok NULL
  else n ← node (sl_heap s) x; Ok (if key =? nd_key n then x else NULL).

(** ** The iterator *)

Record iter := mkIter { i_node : addr; i_prev : addr }.

Definition Iterator_new : iter := mkIter NULL NULL.

Definition Valid (i : iter) : bool := negb (i_node i =? NULL).

Definition Key (s : skiplist) (i : iter) : result Z := n ← node (sl_heap s) (i_node i); Ok (nd_key n).

(** The link is the word [prev_->next_[0]]: the node and the index. *)
Definition GetLink (i : iter) : option (addr * nat) :=
  if i_prev i =? NULL then None else Some (i_prev i, 0%nat).

Definition GetLinkTarget (i : iter) : addr := i_node i.

Definition Next (s : skiplist) (i : iter) : result iter :=
  next ← next_at (sl_heap s) (i_node i) 0; Ok (mkIter next (i_node i)).

Definition Prev (s : skiplist) (i : iter) : result iter :=
  n ← node (sl_heap s) (i_node i);
  x ← FindLessThan s (nd_key n);
  Ok (mkIter (if x =? sl_head s then NULL else x) (i_prev i)).

Definition Seek (s : skiplist) (key : Z) (i : iter) : result iter :=
  prev ← FindLessThan s key;
  '(x, _) ← FindGreaterOrEqual s key None;
  Ok (mkIter x prev).

Definition SeekPrev (s : skiplist) (key : Z) (i : iter) : result iter :=
  x ← FindLessThan s key;
  if x =? NULL then Ok (mkIter (sl_head s) (i_prev i))
  else
    n ← node (sl_heap s) x;
    prev ← FindLessThan s (nd_key n);
    Ok (mkIter x prev).

Definition SeekToFirst (s : skiplist) (i : iter) : result iter :=
  next ← next_at (sl_heap s) (sl_head s) 0; Ok (mkIter next (sl_head s)).

(** [PrintStore]: the keys and records it prints. *)
Fixpoint PrintStore_loop (fuel : nat) (h : heap) (cur : addr) : result (list (Z * addr)) :=
  match fuel with
  | O => Fault OutOfFuel
  | S fuel =>
      next ← next_at h cur 0;
      if next =? NULL then Ok []
      else n ← node h next; l ← PrintStore_loop fuel h next; Ok ((nd_key n, next) :: l)
  end.

Definition PrintStore (s : skiplist) : result (list (Z * addr)) :=
  PrintStore_loop (search_fuel (sl_heap s)) (sl_heap s) (sl_head s).

(** ** Insertion under fine-grained locks

    A call of [GetWithInsertFineGrainLock] or of [Get] is where it stands in
    the code and its local variables.  [preds] and [succs] are not initialised
    by the code. *)

Record locals := mkLocals {
  lo_key : Z;
  lo_height : nat;
  lo_preds : list addr;
  lo_succs : list addr;
  lo_highestLocked : Z
}.

Inductive pc :=
  (** outside any call *)
  | Idle
  (** the loop of [FindGreaterOrEqual(key, preds, succs)] *)
  | IFind (level : nat) (x : addr)
  (** the locking loop: before the lock, before the test of [succ] *)
  | ILock (i : nat) (prevpred : addr)
  | ICheck (i : nat) (prevpred : addr)
  (** the unlocking loop of a failed round *)
  | IRetry (i : nat) (prevpred : addr)
  (** before [NewNode] *)
  | INew
  (** the linking loop: before [x->next_[i] = ...], before [preds[i]->next_[i] = x] *)
  | ILink (i : nat) (x : addr)
  | IPublish (i : nat) (x : addr)
  (** the unlocking loop of the last round *)
  | IUnlock (i : nat) (prevpred : addr) (x : addr)
  (** the end of [GetWithInsert] *)
  | IReturn (x : addr)
  (** the loop of [FindGreaterOrEqual(key, NULL)] called by [Get] *)
  | GFind (level : nat) (x : addr)
  (** the call returned *)
  | Done (x : addr).

Record thread := mkThread { t_tls : tls; t_lo : locals; t_pc : pc }.

Definition at_pc (p : pc) (t : thread) : thread := mkThread (t_tls t) (t_lo t) p.
Definition with_lo (l : locals) (t : thread) : thread := mkThread (t_tls t) l (t_pc t).

Definition set_found (level : nat) (x next : addr) (l : locals) : locals :=
  mkLocals (lo_key l) (lo_height l) (<[level := x]> (lo_preds l)) (<[level := next]> (lo_succs l))
    (lo_highestLocked l).

Definition set_highestLocked (i : Z) (l : locals) : locals :=
  mkLocals (lo_key l) (lo_height l) (lo_preds l) (lo_succs l) i.

(** [preds[i]] *)
Definition pred_at (l : locals) (i : nat) : result addr := from_opt OutOfBounds (lo_preds l !! i).
Definition succ_at (l : locals) (i : nat) : result addr := from_opt OutOfBounds (lo_succs l !! i).

(** The call of [GetWithInsert] or [GetForRead], up to the first search: their
    bodies are the same. *)
Definition GetWithInsert_call (a : addr) (m : raw) (key : Z) (junk : list addr * list addr)
    (s : skiplist) (t : thread) : skiplist * thread :=
  let '(h, l) := ThreadLocalInit a m (sl_heap s) (t_tls t) in
  let '(height, rnd_) := RandomHeight (tl_rnd l) in
  (set_heap h s,
   mkThread (mkTls (tl_localinit l) rnd_ (tl_dummy l))
     (mkLocals key height junk.1 junk.2 (-1)) (IFind (kMaxHeight - 1) (sl_head s))).

(** The call of [Get]. *)
Definition Get_call (key : Z) (s : skiplist) (t : thread) : thread :=
  mkThread (t_tls t) (mkLocals key 0 [] [] (-1)) (GFind (sl_max_height s - 1) (sl_head s)).

(** After the search: the key was found, or the locking starts. *)
Definition found (h : heap) (next : addr) (t : thread) : result thread :=
  if next =? NULL then Ok (at_pc (ILock 0 NULL) t)
  else
    n ← node h next;
    Ok (at_pc (if nd_key n =? lo_key (t_lo t) then IReturn next else ILock 0 NULL) t).

Definition IFind_step (s : skiplist) (level : nat) (x : addr) (t : thread) : result (skiplist * thread) :=
  '(next, forward) ← look (sl_heap s) (lo_key (t_lo t)) x level;
  if (forward : bool) then Ok (s, at_pc (IFind level next) t)
  else
    let t := with_lo (set_found level x next (t_lo t)) t in
    match level with
    | O => t ← found (sl_heap s) next t; Ok (s, t)
    | S level => Ok (s, at_pc (IFind level x) t)
    end.

Definition ILock_step (s : skiplist) (i : nat) (prevpred : addr) (t : thread) : result (skiplist * thread) :=
  if (i <? lo_height (t_lo t))%nat then
    pred ← pred_at (t_lo t) i;
    if negb (pred =? prevpred) then
      '(old, h) ← Trylock (sl_heap s) pred;
      if old =? 0 then
        Ok (set_heap h s,
            at_pc (ICheck i pred) (with_lo (set_highestLocked (Z.of_nat i) (t_lo t)) t))
      else Ok (set_heap h s, t)
    else Ok (s, at_pc (ICheck i prevpred) t)
  else Ok (s, at_pc INew t).

Definition ICheck_step (s : skiplist) (i : nat) (prevpred : addr) (t : thread) : result (skiplist * thread) :=
  pred ← pred_at (t_lo t) i;
  succ ← succ_at (t_lo t) i;
  next ← next_at (sl_heap s) pred i;
  Ok (s, at_pc (if succ =? next then ILock (S i) prevpred else IRetry 0 NULL) t).

Definition IRetry_step (s : skiplist) (i : nat) (prevpred : addr) (t : thread) : result (skiplist * thread) :=
  if Z.of_nat i <? lo_highestLocked (t_lo t) + 1 then
    pred ← pred_at (t_lo t) i;
    if negb (pred =? prevpred) then
      h ← Unlock (sl_heap s) pred; Ok (set_heap h s, at_pc (IRetry (S i) pred) t)
    else Ok (s, at_pc (IRetry (S i) prevpred) t)
  else Ok (s, at_pc (IFind (kMaxHeight - 1) (sl_head s)) t).

Definition ILink_step (s : skiplist) (i : nat) (x : addr) (t : thread) : result (skiplist * thread) :=
  if (i <? lo_height (t_lo t))%nat then
    pred ← pred_at (t_lo t) i;
    next ← next_at (sl_heap s) pred i;
    h ← set_next (sl_heap s) x i next;
    Ok (set_heap h s, at_pc (IPublish i x) t)
  else Ok (s, at_pc (IUnlock 0 NULL x) t).

Definition IPublish_step (s : skiplist) (i : nat) (x : addr) (t : thread) : result (skiplist * thread) :=
  pred ← pred_at (t_lo t) i;
  h ← set_next (sl_heap s) pred i x;
  Ok (set_heap h s, at_pc (ILink (S i) x) t).

Definition IUnlock_step (s : skiplist) (i : nat) (prevpred x : addr) (t : thread) :
    result (skiplist * thread) :=
  if (i <? lo_height (t_lo t))%nat then
    pred ← pred_at (t_lo t) i;
    if negb (pred =? prevpred) then
      h ← Unlock (sl_heap s) pred; Ok (set_heap h s, at_pc (IUnlock (S i) pred x) t)
    else Ok (s, at_pc (IUnlock (S i) prevpred x) t)
  else Ok (s, at_pc (IReturn x) t).

(** The end of [GetWithInsert]: a new [dummy_] when there is none. *)
Definition IReturn_step (a : addr) (m : raw) (s : skiplist) (x : addr) (t : thread) : skiplist * thread :=
  if tl_dummy (t_tls t) =? NULL then
    let '(height, rnd_) := RandomHeight (tl_rnd (t_tls t)) in
    (set_heap (<[a := NewNode (lo_key (t_lo t)) height m]> (sl_heap s)) s,
     mkThread (mkTls (tl_localinit (t_tls t)) rnd_ a) (t_lo t) (Done x))
  else (s, at_pc (Done x) t).

Definition GFind_step (s : skiplist) (level : nat) (x : addr) (t : thread) : result (skiplist * thread) :=
  '(next, forward) ← look (sl_heap s) (lo_key (t_lo t)) x level;
  if (forward : bool) then Ok (s, at_pc (GFind level next) t)
  else
    match level with
    | O =>
        if next =? NULL then Ok (s, at_pc (Done NULL) t)
        else
          n ← node (sl_heap s) next;
          Ok (s, at_pc (Done (if lo_key (t_lo t) =? nd_key n then next else NULL)) t)
    | S level => Ok (s, at_pc (GFind level x) t)
    end.

(** One step of a thread inside a call. *)
Definition thread_step (a : addr) (m : raw) (s : skiplist) (t : thread) : result (skiplist * thread) :=
  match t_pc t with
  | Idle | Done _ => Ok (s, t)
  | IFind level x => IFind_step s level x t
  | ILock i prevpred => ILock_step s i prevpred t
  | ICheck i prevpred => ICheck_step s i prevpred t
  | IRetry i prevpred => IRetry_step s i prevpred t
  | INew =>
      Ok (set_heap (<[a := NewNode (lo_key (t_lo t)) (lo_height (t_lo t)) m]> (sl_heap s)) s,
          at_pc (ILink 0 a) t)
  | ILink i x => ILink_step s i x t
  | IPublish i x => IPublish_step s i x t
  | IUnlock i prevpred x => IUnlock_step s i prevpred x t
  | IReturn x => Ok (IReturn_step a m s x t)
  | GFind level x => GFind_step s level x t
  end.

(** ** Calls that run alone

    [alloc] is the allocator: the address and the contents it returns when the
    heap is as it is. *)

Definition allocator : Type := skiplist -> addr * raw.

Definition returned (t : thread) : option addr :=
  match t_pc t with Done x => Some x | _ => None end.

Fixpoint finish (alloc : allocator) (fuel : nat) (s : skiplist) (t : thread) : result (skiplist * thread) :=
  match returned t with
  | Some _ => Ok (s, t)
  | None =>
      match fuel with
      | O => Fault OutOfFuel
      | S fuel =>
          '(s, t) ← thread_step (alloc s).1 (alloc s).2 s t;
          finish alloc fuel s t
      end
  end.

(** The accesses of a call that is not disturbed: see [accesses] in
    SkipListSpec.v. *)
Definition insert_fuel (s : skiplist) : nat := (size (sl_heap s) + 107)%nat.

(** [GetWithInsert] and [GetForRead]: the record, the table and the
    thread-local variables. *)
Definition GetWithInsert (alloc : allocator) (key : Z) (junk : list addr * list addr)
    (s : skiplist) (l : tls) : result (addr * skiplist * tls) :=
  let '(a, m) := alloc s in
  let '(s, t) := GetWithInsert_call a m key junk s (mkThread l (mkLocals 0 0 [] [] (-1)) Idle) in
  '(s, t) ← finish alloc (insert_fuel s) s t;
  x ← from_opt OutOfFuel (returned t);
  Ok (x, s, t_tls t).

(** [n->value = val; n->seq = 1] *)
Definition Put_record (val : addr) (v : MemNode) : MemNode :=
  mkMemNode 1 (mn_counter v) val (mn_oldVersions v) (mn_gcRef v).

Definition Put (alloc : allocator) (k : Z) (val : addr) (junk : list addr * list addr)
    (s : skiplist) (l : tls) : result (addr * skiplist * tls) :=
  '(x, s, l) ← GetWithInsert alloc k junk s l;
  n ← node (sl_heap s) x;
  Ok (x, set_heap (<[x := set_memVal (Put_record val (nd_memVal n)) n]> (sl_heap s)) s, l).
