(* ===== verification/SkipListInv.v ===== *)
(** * Concurrent runs of the skip list

    Threads that call [GetWithInsert], [GetForRead] and [Get] of a skip list
    (memstore/memstore_skiplist.cc, built with [SKIPLISTFINEGRAINLOCK]),
    interleaved access by access; the invariant of these runs. *)

From S2P Require Import Prelude MemStore SkipList.

(** ** Runs *)

Record sys := mkSys { y_list : skiplist; y_thr : list thread }.

(** What the allocator returns. *)
Definition fresh (a : addr) (s : skiplist) : Prop := a <> NULL /\ sl_heap s !! a = None.

Definition quiet (t : thread) : bool :=
  match t_pc t with Idle | Done _ => true | _ => false end.

(** The memory [malloc] returns is assumed to hold a free lock, which the code
    does not write. *)
Inductive step (s : sys) : sys -> Prop :=
  | step_insert j t key a m junk l' t' :
      y_thr s !! j = Some t -> quiet t = true -> 0 <= key < 2 ^ 64 ->
      fresh a (y_list s) -> raw_lock m = 0 ->
      length junk.1 = kMaxHeight -> length junk.2 = kMaxHeight ->
      GetWithInsert_call a m key junk (y_list s) t = (l', t') ->
      step s (mkSys l' (<[j := t']> (y_thr s)))
  | step_get j t key :
      y_thr s !! j = Some t -> quiet t = true -> 0 <= key < 2 ^ 64 ->
      step s (mkSys (y_list s) (<[j := Get_call key (y_list s) t]> (y_thr s)))
  | step_run j t a m l' t' :
      y_thr s !! j = Some t -> fresh a (y_list s) -> raw_lock m = 0 ->
      thread_step a m (y_list s) t = Ok (l', t') ->
      step s (mkSys l' (<[j := t']> (y_thr s))).

Definition start (a : addr) (m : raw) (n : nat) : sys :=
  mkSys (MemStoreSkipList_new a m)
    (replicate n (mkThread tls_new (mkLocals 0 0 [] [] (-1)) Idle)).

Inductive reachable : sys -> Prop :=
  | reach_start a m n : a <> NULL -> raw_lock m = 0 -> reachable (start a m n)
  | reach_step s s' : reachable s -> step s s' -> reachable s'.

(** ** The levels

    [L i] are the nodes linked on level [i]. *)

Definition nxt (h : heap) (i : nat) (a : addr) : option addr := h !! a ≫= fun n => nd_next n !! i.

Abbreviation levels := (nat -> gset Z) (only parsing).

Section levels.
Context (hd : addr).

(** The place of a node in the order; the head is before every key. *)
Definition ord (h : heap) (a : addr) : Z :=
  if a =? hd then -1 else match h !! a with Some n => nd_key n | None => 0 end.

Definition on_level (L : levels) (i : nat) (a : addr) : Prop := a = hd \/ a ∈ L i.

(** [b] follows [a] on a level that holds the nodes [X]. *)
Definition is_next (h : heap) (X : gset Z) (a b : addr) : Prop :=
  if decide (b = NULL) then forall c, c ∈ X -> ord h c <= ord h a
  else b ∈ X /\ ord h a < ord h b /\ forall c, c ∈ X -> ord h a < ord h c -> ord h b <= ord h c.

Record list_ok (h : heap) (L : levels) : Prop := {
  lk_hd : exists n, h !! hd = Some n /\ length (nd_next n) = kMaxHeight;
  lk_hd_out i : hd ∉ L i;
  lk_null : h !! NULL = None;
  lk_node i a : a ∈ L i ->
    exists n, h !! a = Some n /\ 0 <= nd_key n /\ (i < length (nd_next n))%nat;
  lk_sub i : L (S i) ⊆ L i;
  lk_inj a b : a ∈ L 0%nat -> b ∈ L 0%nat -> ord h a = ord h b -> a = b;
  lk_next i a : (i < kMaxHeight)%nat -> on_level L i a ->
    exists b, nxt h i a = Some b /\ is_next h (L i) a b
}.

(** ** The threads *)

Definition P (l : locals) (i : nat) : addr := default NULL (lo_preds l !! i).
Definition Q (l : locals) (i : nat) : addr := default NULL (lo_succs l !! i).

(** The value of [prevpred] in round [i] of the loops over [preds]. *)
Definition prevp (l : locals) (i : nat) : addr :=
  match i with O => NULL | S i => P l i end.

(** The nodes [preds[0]] to [preds[i - 1]]. *)
Definition taken (l : locals) (i : nat) : gset Z := list_to_set (take i (lo_preds l)).

(** The nodes whose lock a thread holds. *)
Definition held (t : thread) : gset Z :=
  let l := t_lo t in
  match t_pc t with
  | ILock i _ => taken l i
  | ICheck i _ => taken l (S i)
  | IRetry i _ => taken l (Z.to_nat (lo_highestLocked l + 1)) ∖ taken l i
  | INew | ILink _ _ | IPublish _ _ => taken l (lo_height l)
  | IUnlock i _ _ => taken l (lo_height l) ∖ taken l i
  | _ => ∅
  end.

(** The node a thread is linking. *)
Definition own (t : thread) : option addr :=
  match t_pc t with ILink _ x | IPublish _ x => Some x | _ => None end.

Section thread.
Context (h : heap) (L : levels) (l : locals).

Definition args : Prop :=
  0 <= lo_key l /\ (1 <= lo_height l <= kMaxHeight)%nat /\
  length (lo_preds l) = kMaxHeight /\ length (lo_succs l) = kMaxHeight /\
  -1 <= lo_highestLocked l < Z.of_nat kMaxHeight.

Definition pred_ok (j : nat) : Prop :=
  on_level L j (P l j) /\ ord h (P l j) < lo_key l /\
  (Q l j = NULL \/ Q l j ∈ L j /\ lo_key l <= ord h (Q l j)).

Definition descending (from : nat) : Prop :=
  forall j k, (from <= j)%nat -> (j <= k < kMaxHeight)%nat -> ord h (P l k) <= ord h (P l j).

(** The search has left the levels above [level] and stands at [x]. *)
Definition searched (level : nat) (x : addr) : Prop :=
  (forall j, (level < j < kMaxHeight)%nat -> pred_ok j /\ ord h (P l j) <= ord h x) /\
  descending (S level).

(** The search is over and did not find the key. *)
Definition missed : Prop :=
  (forall j, (j < kMaxHeight)%nat -> pred_ok j /\ (Q l j <> NULL -> lo_key l < ord h (Q l j))) /\
  descending 0.

(** Between [from] and [to], [preds] and [succs] are neighbours. *)
Definition linked (from to : nat) : Prop :=
  forall j, (from <= j < to)%nat -> nxt h j (P l j) = Some (Q l j).

(** [x] is the new node, linked below level [i]. *)
Definition new_node (x : addr) (i : nat) : Prop :=
  x <> hd /\
  (exists n, h !! x = Some n /\ nd_key n = lo_key l /\ length (nd_next n) = lo_height l) /\
  forall j, x ∈ L j <-> (j < i)%nat.

Definition stored (x : addr) : Prop := x ∈ L 0%nat /\ ord h x = lo_key l.

Definition pc_ok (p : pc) : Prop :=
  match p with
  | Idle => True
  | IFind level x =>
      args /\ (level < kMaxHeight)%nat /\ on_level L level x /\ ord h x < lo_key l /\
      searched level x
  | ILock i pp =>
      args /\ missed /\ (i <= lo_height l)%nat /\ linked 0 i /\ pp = prevp l i /\
      ((0 < i)%nat -> taken l (Z.to_nat (lo_highestLocked l + 1)) = taken l i)
  | ICheck i pp =>
      args /\ missed /\ (i < lo_height l)%nat /\ linked 0 i /\ pp = P l i /\
      taken l (Z.to_nat (lo_highestLocked l + 1)) = taken l (S i)
  | IRetry i pp =>
      args /\ missed /\ pp = prevp l i /\ Z.of_nat i <= lo_highestLocked l + 1
  | INew => args /\ missed /\ linked 0 (lo_height l)
  | ILink i x =>
      args /\ missed /\ (i <= lo_height l)%nat /\ linked i (lo_height l) /\ new_node x i
  | IPublish i x =>
      args /\ missed /\ (i < lo_height l)%nat /\ linked i (lo_height l) /\ new_node x i /\
      nxt h i x = Some (Q l i)
  | IUnlock i pp x =>
      args /\ missed /\ (i <= lo_height l)%nat /\ pp = prevp l i /\ stored x
  | IReturn x => (1 <= lo_height l)%nat /\ stored x
  | GFind level x =>
      0 <= lo_key l /\ lo_height l = 0%nat /\ (level < kMaxHeight)%nat /\ on_level L level x /\
      ord h x < lo_key l
  | Done x => lo_height l = 0%nat /\ x = NULL \/ stored x
  end.

End thread.
End levels.

(** ** The invariant *)

Record inv (s : sys) (L : levels) : Prop := {
  inv_list : list_ok (sl_head (y_list s)) (sl_heap (y_list s)) L;
  inv_max : (1 <= sl_max_height (y_list s) <= kMaxHeight)%nat;
  inv_thr j t : y_thr s !! j = Some t ->
    pc_ok (sl_head (y_list s)) (sl_heap (y_list s)) L (t_lo t) (t_pc t);
  inv_own j k t u x : y_thr s !! j = Some t -> y_thr s !! k = Some u ->
    own t = Some x -> own u = Some x -> j = k;
  inv_excl j k t u a : y_thr s !! j = Some t -> y_thr s !! k = Some u ->
    a ∈ held t -> a ∈ held u -> j = k;
  inv_lock a n : sl_heap (y_list s) !! a = Some n ->
    nd_lock n <> 0 <-> exists j t, y_thr s !! j = Some t /\ a ∈ held t
}.

(** ** What one thread may change

    [changes t h L h' L']: a step of thread [t] from [h] to [h'] keeps the
    nodes and their keys, links no node but its own, and writes only links of
    nodes it holds the lock of, on a level they are on, and links of its own
    node above the level it has reached. *)

Section changes.
Context (hd : addr) (t : thread).

Record changes (h : heap) (L : levels) (h' : heap) (L' : levels) : Prop := {
  ch_node a n : h !! a = Some n ->
    exists n', h' !! a = Some n' /\ nd_key n' = nd_key n /\ length (nd_next n') = length (nd_next n);
  ch_level i : L i ⊆ L' i;
  ch_new i a : a ∈ L' i -> a ∈ L i \/ own t = Some a;
  ch_next i a n : h !! a = Some n ->
    nxt h' i a = nxt h i a \/ (a ∈ held t /\ on_level hd L i a) \/ (own t = Some a /\ a ∉ L i)
}.

End changes.

(** What a step of thread [t] to [t'] must establish; [next_ok] is the lock
    accounting. *)
Record step_ok (hd : addr) (t : thread) (h : heap) (L : levels)
    (t' : thread) (h' : heap) (L' : levels) : Prop := {
  so_list : list_ok hd h' L';
  so_pc : pc_ok hd h' L' (t_lo t') (t_pc t');
  so_changes : changes hd t h L h' L';
  so_own x : own t' = Some x -> own t = Some x \/ h !! x = None;
  so_held a : a ∈ held t' -> a ∈ held t \/ exists n, h !! a = Some n /\ nd_lock n = 0;
  so_lock a n' : h' !! a = Some n' ->
    match h !! a with
    | Some n => nd_lock n' <> 0 <-> a ∈ held t' \/ (nd_lock n <> 0 /\ a ∉ held t)
    | None => nd_lock n' = 0 /\ a ∉ held t'
    end
}.

(** ** Lemmas on the levels *)

Section facts.
Context (hd : addr).
Implicit Types (h : heap) (L : levels) (l : locals).

Lemma ord_hd h : ord hd h hd = -1.
Proof. unfold ord. by rewrite Z.eqb_refl. Qed.

Lemma ord_node h a n : a <> hd -> h !! a = Some n -> ord hd h a = nd_key n.
Proof. intros Ha Hn. unfold ord. rewrite (proj2 (Z.eqb_neq _ _)) by done. by rewrite Hn. Qed.

Lemma lk_mono h L i j : list_ok hd h L -> (i <= j)%nat -> L j ⊆ L i.
Proof.
  intros Hl Hij. induction Hij as [|j _ IH]; [done|]. etrans; [apply (lk_sub _ _ _ Hl)|done].
Qed.

Lemma on_level_mono h L i j a : list_ok hd h L -> (i <= j)%nat -> on_level hd L j a -> on_level hd L i a.
Proof. intros Hl Hij [->|Ha]; [by left|]. right. by apply (lk_mono h L i j). Qed.

Lemma on_level_node h L i a : list_ok hd h L -> (i < kMaxHeight)%nat -> on_level hd L i a ->
  exists n, h !! a = Some n /\ (i < length (nd_next n))%nat.
Proof.
  intros Hl Hi [->|Ha].
  - destruct (lk_hd _ _ _ Hl) as (n & Hn & Hlen). exists n. split; [done|lia].
  - destruct (lk_node _ _ _ Hl i a Ha) as (n & Hn & _ & Hlen). eauto.
Qed.

Lemma on_level_null h L i : list_ok hd h L -> (i < kMaxHeight)%nat -> ~ on_level hd L i NULL.
Proof.
  intros Hl Hi Ha. destruct (on_level_node h L i NULL Hl Hi Ha) as (n & Hn & _).
  by rewrite (lk_null _ _ _ Hl) in Hn.
Qed.

Lemma ord_level h L i a : list_ok hd h L -> a ∈ L i ->
  exists n, h !! a = Some n /\ ord hd h a = nd_key n /\ 0 <= nd_key n.
Proof.
  intros Hl Ha. destruct (lk_node _ _ _ Hl i a Ha) as (n & Hn & Hk & _).
  exists n. split_and!; [done| |done]. apply ord_node; [|done].
  intros ->. by apply (lk_hd_out _ _ _ Hl i).
Qed.

Lemma ord_inj h L i a b : list_ok hd h L -> on_level hd L i a -> on_level hd L i b ->
  ord hd h a = ord hd h b -> a = b.
Proof.
  intros Hl Ha Hb E. assert (L i ⊆ L 0%nat) as Hsub by (apply (lk_mono h); [done|lia]).
  destruct Ha as [->|Ha], Hb as [->|Hb]; [done|..].
  - destruct (ord_level h L i b Hl Hb) as (n & _ & E' & ?). rewrite ord_hd in E. lia.
  - destruct (ord_level h L i a Hl Ha) as (n & _ & E' & ?). rewrite ord_hd in E. lia.
  - apply (lk_inj _ _ _ Hl); [by apply Hsub..|done].
Qed.

(** ** The search step *)

Lemma look_spec h L key x i : list_ok hd h L -> (i < kMaxHeight)%nat -> on_level hd L i x ->
  exists next, nxt h i x = Some next /\ is_next hd h (L i) x next /\
    look h key x i = Ok (next, if decide (next = NULL) then false else ord hd h next <? key).
Proof.
  intros Hl Hi Hx. destruct (lk_next _ _ _ Hl i x Hi Hx) as (b & Hb & Hnb).
  exists b. split_and!; [done..|]. unfold look, next_at, node.
  unfold nxt in Hb. destruct (h !! x) as [n|] eqn:En; [|done]. simpl in Hb |- *. rewrite Hb. simpl.
  unfold is_next in Hnb. destruct (decide (b = NULL)) as [->|Hn0]; [done|].
  rewrite (proj2 (Z.eqb_neq _ _)) by done. destruct Hnb as (HbL & _).
  destruct (ord_level h L i b Hl HbL) as (nb & -> & -> & _). done.
Qed.
End facts.

Lemma elem_of_taken l i a : a ∈ taken l i <-> exists j, (j < i)%nat /\ lo_preds l !! j = Some a.
Proof.
  unfold taken. rewrite elem_of_list_to_set, list_elem_of_lookup.
  setoid_rewrite lookup_take_Some. naive_solver.
Qed.

Lemma P_lookup l j : (j < length (lo_preds l))%nat -> lo_preds l !! j = Some (P l j).
Proof. intros Hj. destruct (lookup_lt_is_Some_2 _ _ Hj) as [a Ha]. unfold P. by rewrite Ha. Qed.

Lemma Q_lookup l j : (j < length (lo_succs l))%nat -> lo_succs l !! j = Some (Q l j).
Proof. intros Hj. destruct (lookup_lt_is_Some_2 _ _ Hj) as [a Ha]. unfold Q. by rewrite Ha. Qed.

Lemma P_taken l i j : args l -> (j < i <= kMaxHeight)%nat -> P l j ∈ taken l i.
Proof.
  intros (_ & _ & Hlen & _) Hj. apply elem_of_taken. exists j. split; [lia|]. apply P_lookup. lia.
Qed.

(** ** Steps of the other threads *)

Section stable.
Context (hd : addr) (h : heap) (L : levels) (h' : heap) (L' : levels) (t : thread).
Context (Hl : list_ok hd h L) (Hc : changes hd t h L h' L').
Context (Hown : forall x, own t = Some x -> x <> hd).

Lemma on_level_stable i a : on_level hd L i a -> on_level hd L' i a.
Proof. intros [->|Ha]; [by left|]. right. by apply (ch_level _ _ _ _ _ _ Hc). Qed.

Lemma ord_stable a n : h !! a = Some n -> ord hd h' a = ord hd h a.
Proof.
  intros Hn. destruct (ch_node _ _ _ _ _ _ Hc a n Hn) as (n' & Hn' & Hk & _).
  unfold ord. rewrite Hn, Hn', Hk. done.
Qed.

Lemma ord_on_level i a : (i < kMaxHeight)%nat -> on_level hd L i a -> ord hd h' a = ord hd h a.
Proof.
  intros Hi Ha. destruct (on_level_node hd h L i a Hl Hi Ha) as (n & Hn & _). by apply (ord_stable a n).
Qed.

Lemma pred_ok_stable l j : (j < kMaxHeight)%nat -> pred_ok hd h L l j -> pred_ok hd h' L' l j.
Proof.
  intros Hj (Hp & Ho & Hq). split_and!.
  - by apply on_level_stable.
  - by rewrite (ord_on_level j).
  - destruct Hq as [?|[Hq Hk]]; [by left|right]. split; [by apply (ch_level _ _ _ _ _ _ Hc)|].
    rewrite (ord_on_level j); [done..|]. by right.
Qed.

Lemma descending_stable l from : (forall j, (from <= j < kMaxHeight)%nat -> pred_ok hd h L l j) ->
  descending hd h l from -> descending hd h' l from.
Proof.
  intros Hp Hd j k Hj Hk. rewrite (ord_on_level j (P l j)), (ord_on_level k (P l k)); [by apply Hd|lia| |lia|].
  - apply (Hp k). lia.
  - apply (Hp j). lia.
Qed.

Lemma searched_stable l level x : (level < kMaxHeight)%nat -> on_level hd L level x ->
  searched hd h L l level x -> searched hd h' L' l level x.
Proof.
  intros Hlv Hx [Hs Hd]. split.
  - intros j Hj. destruct (Hs j Hj) as [Hp Ho]. split; [apply pred_ok_stable; [lia|done]|].
    rewrite (ord_on_level j (P l j)), (ord_on_level level x); [done|done..|lia|]. by destruct Hp.
  - apply descending_stable; [|done]. intros j Hj. apply Hs. lia.
Qed.

Lemma missed_stable l : missed hd h L l -> missed hd h' L' l.
Proof.
  intros [Hs Hd]. split.
  - intros j Hj. destruct (Hs j Hj) as [Hp Hq]. split; [by apply pred_ok_stable|].
    intros Hn. specialize (Hq Hn). destruct Hp as (_ & _ & [?|[HQ _]]); [done|].
    rewrite (ord_on_level j); [done..|]. by right.
  - apply descending_stable; [|done]. intros j Hj. apply Hs. lia.
Qed.

Lemma linked_stable l from to n : args l -> (to <= n <= kMaxHeight)%nat -> missed hd h L l ->
  (forall a, a ∈ taken l n -> a ∉ held t) -> linked h l from to -> linked h' l from to.
Proof.
  intros Ha Hto [Hs _] Hh Hk j Hj. destruct (Hs j) as [(Hp & _) _]; [lia|].
  destruct (on_level_node hd h L j (P l j)) as (n' & Hn & _); [done|lia|done|].
  rewrite <- (Hk j Hj).
  destruct (ch_next _ _ _ _ _ _ Hc j _ _ Hn) as [E|[[Hheld _]|[Ho HL]]]; [done| |].
  - apply Hh in Hheld; [done|]. apply P_taken; [done|lia].
  - destruct Hp as [E|Hp]; [|done]. by apply Hown in Ho.
Qed.

Lemma new_node_stable l x i : own t <> Some x -> new_node hd h L l x i -> new_node hd h' L' l x i.
Proof.
  intros Ho (Hx & (n & Hn & Hk & Hlen) & Hlev). split_and!; [done| |].
  - destruct (ch_node _ _ _ _ _ _ Hc x n Hn) as (n' & Hn' & Hk' & Hlen').
    exists n'. split_and!; [done|congruence..].
  - intros j. rewrite <- Hlev. split; [|apply (ch_level _ _ _ _ _ _ Hc)].
    intros [?|?]%(ch_new _ _ _ _ _ _ Hc); done.
Qed.

Lemma stored_stable l x : stored hd h L l x -> stored hd h' L' l x.
Proof.
  intros [Hx Ho]. split; [by apply (ch_level _ _ _ _ _ _ Hc)|].
  rewrite (ord_on_level 0); [done|unfold kMaxHeight; lia|by right].
Qed.

Lemma new_next_stable l x i : own t <> Some x -> new_node hd h L l x i -> nxt h' i x = nxt h i x.
Proof.
  intros Ho (Hx & (n & Hn & _) & Hlev).
  destruct (ch_next _ _ _ _ _ _ Hc i x n Hn) as [E|[[_ [?|Hin]]|[? _]]]; [done..| |done].
  apply Hlev in Hin. lia.
Qed.
End stable.

#[export] Hint Resolve on_level_stable searched_stable missed_stable linked_stable
  new_node_stable stored_stable : euno.

(** What is known of a thread stays true when another thread takes a step. *)
Lemma pc_ok_stable hd h L h' L' t u :
  list_ok hd h L -> changes hd t h L h' L' -> (forall x, own t = Some x -> x <> hd) ->
  (forall a, a ∈ held u -> a ∉ held t) -> (forall x, own u = Some x -> own t <> Some x) ->
  pc_ok hd h L (t_lo u) (t_pc u) -> pc_ok hd h' L' (t_lo u) (t_pc u).
Proof.
  intros Hl Hc Hot Hh Ho. unfold held in Hh at 1. unfold own in Ho at 1.
  destruct (t_pc u) as [|lv x|i pp|i pp|i pp| |i x|i x|i pp x|x|lv x|x]; simpl.
  - done.
  - intros (Ha & Hlv & Hx & Hk & Hs). split_and!; eauto with euno.
    by rewrite (ord_on_level hd h L h' L' t Hl Hc lv).
  - intros (Ha & Hm & Hi & Hk & Hrest). split_and!; try apply Hrest; eauto with euno.
    eapply linked_stable; eauto. destruct Ha. lia.
  - intros (Ha & Hm & Hi & Hk & Hrest). split_and!; try apply Hrest; eauto with euno.
    eapply linked_stable; eauto. destruct Ha. lia.
  - intros (Ha & Hm & Hrest). split_and!; try apply Hrest; eauto with euno.
  - intros (Ha & Hm & Hk). split_and!; eauto with euno.
    eapply linked_stable; eauto. destruct Ha. lia.
  - intros (Ha & Hm & Hi & Hk & Hn). split_and!; eauto with euno.
    eapply linked_stable; eauto. destruct Ha. lia.
  - intros (Ha & Hm & Hi & Hk & Hn & Hx). split_and!; eauto with euno.
    + eapply linked_stable; eauto. destruct Ha. lia.
    + by rewrite (new_next_stable hd h L h' L' t Hc (t_lo u) x i (Ho x eq_refl) Hn).
  - intros (Ha & Hm & Hrest & Hpp & Hst). split_and!; eauto with euno.
  - intros [Hh1 Hst]. split_and!; eauto with euno.
  - intros (Hk & Hz & Hlv & Hx & Ho'). split_and!; eauto with euno.
    by rewrite (ord_on_level hd h L h' L' t Hl Hc lv).
  - intros [?|Hst]; [by left|right]. eauto with euno.
Qed.

Lemma own_new_node hd h L t x : pc_ok hd h L (t_lo t) (t_pc t) -> own t = Some x ->
  exists i, new_node hd h L (t_lo t) x i.
Proof. unfold own. destruct (t_pc t); simpl; intros Hok ?; simplify_eq; naive_solver. Qed.

(** Threads hold locks of nodes of the list. *)
Lemma held_level hd h L t a : list_ok hd h L -> pc_ok hd h L (t_lo t) (t_pc t) -> a ∈ held t ->
  on_level hd L 0 a.
Proof.
  intros Hl Hok Ha.
  assert (args (t_lo t) /\ missed hd h L (t_lo t)) as [Hargs [Hm _]].
  { unfold held in Ha. destruct (t_pc t); simpl in *; naive_solver set_solver. }
  assert (exists i, a ∈ taken (t_lo t) i) as [i (j & Hj & HP)%elem_of_taken].
  { unfold held in Ha. destruct (t_pc t); set_solver. }
  assert (j < kMaxHeight)%nat as Hlt.
  { apply lookup_lt_Some in HP. destruct Hargs as (_ & _ & Hlen & _). lia. }
  destruct (Hm j Hlt) as [(Hp & _) _]. unfold P in Hp. rewrite HP in Hp.
  apply (on_level_mono hd h L 0 j); [done|lia|done].
Qed.

Lemma insert_case (ts : list thread) j t t' k u : ts !! j = Some t -> <[j := t']> ts !! k = Some u ->
  k = j /\ u = t' \/ k <> j /\ ts !! k = Some u.
Proof.
  intros Hj Hk. destruct (decide (k = j)) as [->|Hne].
  - rewrite list_lookup_insert_eq in Hk by (by eapply lookup_lt_Some). left. naive_solver.
  - rewrite list_lookup_insert_ne in Hk by done. by right.
Qed.

Section one_step.
Context (s : sys) (L L' : levels) (j : nat) (t t' : thread) (l' : skiplist).
Let hd := sl_head (y_list s).
Let h := sl_heap (y_list s).
Context (Hinv : inv s L) (Hj : y_thr s !! j = Some t) (Hhd : sl_head l' = hd).
Context (Hmax : sl_max_height l' = sl_max_height (y_list s)).
Context (Hso : step_ok hd t h L t' (sl_heap l') L').

Lemma thr_case k u : <[j := t']> (y_thr s) !! k = Some u ->
  k = j /\ u = t' \/ k <> j /\ y_thr s !! k = Some u.
Proof. by apply (insert_case _ j t). Qed.

Lemma own_excl k u x : k <> j -> y_thr s !! k = Some u -> own t' = Some x -> own u = Some x -> False.
Proof.
  intros Hne Hk Ht Hu. destruct (so_own _ _ _ _ _ _ _ Hso x Ht) as [Ho|Hn].
  - by apply Hne, (inv_own _ _ Hinv k j u t x).
  - destruct (own_new_node _ _ _ _ _ (inv_thr _ _ Hinv k u Hk) Hu) as (i & _ & (n & Hx & _) & _).
    unfold h in Hn. by rewrite Hn in Hx.
Qed.

Lemma held_in_heap k u a : y_thr s !! k = Some u -> a ∈ held u -> is_Some (h !! a) ->
  exists n, h !! a = Some n /\ nd_lock n <> 0.
Proof.
  intros Hk Ha [n Hn]. exists n. split; [done|]. apply (inv_lock _ _ Hinv a n Hn). eauto.
Qed.

Lemma held_excl k u a : k <> j -> y_thr s !! k = Some u -> a ∈ held t' -> a ∈ held u -> False.
Proof.
  intros Hne Hk Ht Hu. destruct (so_held _ _ _ _ _ _ _ Hso a Ht) as [Ha|(n & Hn & Hz)].
  - by apply Hne, (inv_excl _ _ Hinv k j u t a).
  - destruct (held_in_heap k u a Hk Hu) as (n' & Hn' & Hnz); [eauto|]. simplify_eq.
Qed.

Lemma inv_step_ok : inv (mkSys l' (<[j := t']> (y_thr s))) L'.
Proof.
  split; simpl.
  - rewrite Hhd. apply (so_list _ _ _ _ _ _ _ Hso).
  - rewrite Hmax. apply (inv_max _ _ Hinv).
  - intros k u [[-> ->]|[Hne Hk]]%thr_case; rewrite Hhd; [apply (so_pc _ _ _ _ _ _ _ Hso)|].
    apply (pc_ok_stable hd h L _ L' t u).
    + apply (inv_list _ _ Hinv).
    + apply (so_changes _ _ _ _ _ _ _ Hso).
    + intros x Hx. destruct (own_new_node _ _ _ _ _ (inv_thr _ _ Hinv j t Hj) Hx) as (i & ? & _). done.
    + intros a Hu Ht. by apply Hne, (inv_excl _ _ Hinv k j u t a).
    + intros x Hu Ht. by apply Hne, (inv_own _ _ Hinv k j u t x).
    + by apply (inv_thr _ _ Hinv k).
  - intros k1 k2 u1 u2 x [[-> ->]|[Hne1 Hk1]]%thr_case [[-> ->]|[Hne2 Hk2]]%thr_case Ho1 Ho2.
    + done.
    + by destruct (own_excl k2 u2 x).
    + by destruct (own_excl k1 u1 x).
    + by apply (inv_own _ _ Hinv k1 k2 u1 u2 x).
  - intros k1 k2 u1 u2 a [[-> ->]|[Hne1 Hk1]]%thr_case [[-> ->]|[Hne2 Hk2]]%thr_case Ho1 Ho2.
    + done.
    + by destruct (held_excl k2 u2 a).
    + by destruct (held_excl k1 u1 a).
    + by apply (inv_excl _ _ Hinv k1 k2 u1 u2 a).
  - intros a n' Hn'. pose proof (so_lock _ _ _ _ _ _ _ Hso a n' Hn') as Hlk.
    assert (forall k u, k <> j -> y_thr s !! k = Some u ->
      <[j := t']> (y_thr s) !! k = Some u) as Hother.
    { intros k u Hne Hk. by rewrite list_lookup_insert_ne. }
    assert (<[j := t']> (y_thr s) !! j = Some t') as Hme.
    { apply list_lookup_insert_eq. by eapply lookup_lt_Some. }
    destruct (h !! a) as [n|] eqn:Hn.
    + rewrite Hlk, (inv_lock _ _ Hinv a n Hn). split.
      * intros [Ha|[(k & u & Hk & Hu) Ht]]; [eauto|]. exists k, u. split; [|done].
        apply Hother; [|done]. intros ->. by simplify_eq.
      * intros (k & u & [[-> ->]|[Hne Hk]]%thr_case & Ha); [by left|right]. split; [eauto|].
        intros Ht. by apply Hne, (inv_excl _ _ Hinv k j u t a).
    + destruct Hlk as [Hz Hout]. split; [done|]. intros (k & u & [[-> ->]|[Hne Hk]]%thr_case & Ha); [done|].
      pose proof (held_level _ _ _ _ _ (inv_list _ _ Hinv) (inv_thr _ _ Hinv k u Hk) Ha) as Hlev.
      destruct (on_level_node _ _ _ 0 a (inv_list _ _ Hinv) ltac:(unfold kMaxHeight; lia) Hlev) as (nn & Hnn & _).
      unfold h in Hn. by rewrite Hn in Hnn.
Qed.
End one_step.

(** ** Heap updates *)

(** [h'] has the nodes of [h], with the same keys and links. *)
Definition extends (h h' : heap) : Prop :=
  h' !! NULL = None /\
  forall a n, h !! a = Some n ->
    exists n', h' !! a = Some n' /\ nd_key n' = nd_key n /\ nd_next n' = nd_next n.

(** [h] after [a->next_[i] = v]. *)
Definition wr (h : heap) (a : addr) (i : nat) (v : addr) : heap :=
  alter (fun n => set_nexts (<[i := v]> (nd_next n)) n) a h.

Lemma set_next_Ok h a n i v : h !! a = Some n -> (i < length (nd_next n))%nat ->
  set_next h a i v = Ok (wr h a i v).
Proof.
  intros Hn Hi. unfold set_next, node. rewrite Hn. simpl. rewrite (proj2 (Nat.ltb_lt _ _)) by done.
  unfold wr. f_equal. apply map_eq. intros b. destruct (decide (b = a)) as [->|Hne].
  - by rewrite lookup_insert_eq, lookup_alter_eq, Hn.
  - by rewrite lookup_insert_ne, lookup_alter_ne by done.
Qed.

Lemma next_at_Ok h a i b : nxt h i a = Some b -> next_at h a i = Ok b.
Proof. unfold nxt, next_at, node. destruct (h !! a); simpl; [|done]. by intros ->. Qed.

Lemma wr_node h a i v b n : h !! b = Some n ->
  exists n', wr h a i v !! b = Some n' /\ nd_key n' = nd_key n /\
    nd_lock n' = nd_lock n /\ length (nd_next n') = length (nd_next n).
Proof.
  intros Hn. unfold wr. destruct (decide (b = a)) as [->|Hne].
  - rewrite lookup_alter_eq, Hn. eexists. split_and!; [done..|]. simpl. by rewrite length_insert.
  - rewrite lookup_alter_ne by done. eauto.
Qed.

Lemma wr_none h a i v b : h !! b = None -> wr h a i v !! b = None.
Proof.
  intros Hn. unfold wr. destruct (decide (b = a)) as [->|Hne].
  - by rewrite lookup_alter_eq, Hn.
  - by rewrite lookup_alter_ne.
Qed.

Lemma wr_ord hd h a i v b : ord hd (wr h a i v) b = ord hd h b.
Proof.
  unfold ord. destruct (h !! b) as [n|] eqn:Hn.
  - destruct (wr_node h a i v b n Hn) as (n' & -> & -> & _). done.
  - by rewrite (wr_none h a i v b Hn).
Qed.

Lemma nxt_wr_ne h a i v j b : b <> a \/ j <> i -> nxt (wr h a i v) j b = nxt h j b.
Proof.
  intros Hne. unfold nxt, wr. destruct (decide (b = a)) as [->|Hb].
  - rewrite lookup_alter_eq. destruct (h !! a); simpl; [|done].
    apply list_lookup_insert_ne. naive_solver.
  - by rewrite lookup_alter_ne.
Qed.

Lemma nxt_wr_eq h a i v n : h !! a = Some n -> (i < length (nd_next n))%nat ->
  nxt (wr h a i v) i a = Some v.
Proof.
  intros Hn Hi. unfold nxt, wr. rewrite lookup_alter_eq, Hn. simpl. by apply list_lookup_insert_eq.
Qed.

(** The order on the nodes of a level does not depend on the links. *)
Lemma is_next_ext hd h h' X X' a b : (forall c, c ∈ X' <-> c ∈ X) ->
  (forall c, c ∈ X -> ord hd h' c = ord hd h c) -> ord hd h' a = ord hd h a ->
  is_next hd h X a b -> is_next hd h' X' a b.
Proof.
  intros HX Ho Ha. unfold is_next. rewrite Ha. case_decide.
  - intros Hb c Hc%HX. rewrite Ho by done. auto.
  - intros (Hb & Hlt & Hmin). rewrite (Ho b) by done. split_and!; [by apply HX|done|].
    intros c Hc%HX. rewrite Ho by done. auto.
Qed.

Lemma list_ok_extends hd h h' L : list_ok hd h L -> extends h h' -> list_ok hd h' L.
Proof.
  intros Hl [Hnull He].
  assert (forall a n, h !! a = Some n -> ord hd h' a = ord hd h a /\ forall i, nxt h' i a = nxt h i a) as Hsame.
  { intros a n Hn. destruct (He a n Hn) as (n' & Hn' & Hk & Hx). unfold ord, nxt.
    rewrite Hn, Hn', Hk. simpl. by rewrite Hx. }
  assert (forall i a, a ∈ L i -> ord hd h' a = ord hd h a) as Hord.
  { intros i a Ha. destruct (lk_node _ _ _ Hl i a Ha) as (n & Hn & _). by apply (Hsame a n). }
  split.
  - destruct (lk_hd _ _ _ Hl) as (n & Hn & Hlen). destruct (He _ _ Hn) as (n' & Hn' & _ & Hx).
    exists n'. by rewrite Hx.
  - apply (lk_hd_out _ _ _ Hl).
  - done.
  - intros i a Ha. destruct (lk_node _ _ _ Hl i a Ha) as (n & Hn & Hk & Hlen).
    destruct (He _ _ Hn) as (n' & Hn' & Hk' & Hx). exists n'. by rewrite Hk', Hx.
  - apply (lk_sub _ _ _ Hl).
  - intros a b Ha Hb. rewrite (Hord 0%nat a Ha), (Hord 0%nat b Hb). by apply (lk_inj _ _ _ Hl).
  - intros i a Hi Ha. destruct (on_level_node hd h L i a Hl Hi Ha) as (n & Hn & _).
    destruct (Hsame a n Hn) as [Ho Hx]. rewrite Hx.
    destruct (lk_next _ _ _ Hl i a Hi Ha) as (b & Hb & Hnb). exists b. split; [done|].
    eapply is_next_ext; [done|apply Hord|done|done].
Qed.

(** A write to a link of a node that is not on that level. *)
Lemma list_ok_write hd h L x i v : list_ok hd h L -> ~ on_level hd L i x -> list_ok hd (wr h x i v) L.
Proof.
  intros Hl Hx. split.
  - destruct (lk_hd _ _ _ Hl) as (n & Hn & Hlen).
    destruct (wr_node h x i v _ _ Hn) as (n' & Hn' & _ & _ & Hx'). exists n'. split; [done|congruence].
  - apply (lk_hd_out _ _ _ Hl).
  - apply wr_none, (lk_null _ _ _ Hl).
  - intros j a Ha. destruct (lk_node _ _ _ Hl j a Ha) as (n & Hn & Hk & Hlen).
    destruct (wr_node h x i v _ _ Hn) as (n' & Hn' & Hk' & _ & Hx').
    exists n'. split_and!; [done|lia..].
  - apply (lk_sub _ _ _ Hl).
  - intros a b Ha Hb. rewrite !wr_ord. by apply (lk_inj _ _ _ Hl).
  - intros j a Hj Ha. destruct (lk_next _ _ _ Hl j a Hj Ha) as (b & Hb & Hnb).
    exists b. split.
    + rewrite nxt_wr_ne; [done|]. destruct (decide (a = x)) as [->|]; [right|by left]. by intros ->.
    + eapply is_next_ext; [done|intros; apply wr_ord|apply wr_ord|done].
Qed.

(** ** Linking a node on a level *)

Definition add_to (i : nat) (x : addr) (L : levels) : levels :=
  fun j => if decide (j = i) then {[x]} ∪ L j else L j.

Lemma elem_of_add_to i x L j a : a ∈ add_to i x L j <-> a ∈ L j \/ (j = i /\ a = x).
Proof.
  unfold add_to. destruct (decide (j = i)) as [->|Hne]; [set_solver|naive_solver].
Qed.

Section publish.
Context (hd : addr) (h : heap) (L : levels) (p x q : addr) (i : nat) (nx : Node).
Context (Hl : list_ok hd h L) (Hi : (i < kMaxHeight)%nat).
Context (Hp : on_level hd L i p) (Hpq : nxt h i p = Some q) (Hxq : nxt h i x = Some q).
Context (Hlt : ord hd h p < ord hd h x) (Hgt : q <> NULL -> ord hd h x < ord hd h q).
Context (Hx : x <> hd) (Hnx : h !! x = Some nx) (Hkx : 0 <= nd_key nx) (Hlen : (i < length (nd_next nx))%nat).
Context (Hlev : forall j, x ∈ L j <-> (j < i)%nat).

Lemma publish_px : p <> x.
Proof. intros ->. lia. Qed.

Lemma publish_gap : is_next hd h (L i) p q.
Proof. destruct (lk_next _ _ _ Hl i p Hi Hp) as (b & Hb & Hnb). by simplify_eq. Qed.

(** No node of the level has the key of the new one. *)
Lemma publish_no_dup c : c ∈ L i -> ord hd h c <> ord hd h x.
Proof.
  intros Hc E. pose proof publish_gap as Hg. unfold is_next in Hg. case_decide as Hq.
  - specialize (Hg c Hc). lia.
  - destruct Hg as (_ & _ & Hmin). specialize (Hmin c Hc). specialize (Hgt Hq). lia.
Qed.

Lemma publish_next_same a b : a <> p -> on_level hd L i a -> is_next hd h (L i) a b ->
  is_next hd h ({[x]} ∪ L i) a b.
Proof.
  intros Hap Ha Hb. pose proof publish_gap as Hg.
  assert (ord hd h p <> ord hd h a) as Hne.
  { intros E. by apply Hap, (ord_inj hd h L i). }
  assert (ord hd h a < ord hd h p \/ ord hd h x < ord hd h a) as Hside.
  { destruct (Z.lt_ge_cases (ord hd h a) (ord hd h p)) as [?|?]; [by left|right].
    destruct Ha as [->|Ha]; [destruct Hp as [->|Hp']; [done|]|].
    - destruct (ord_level hd h L i p Hl Hp') as (? & _ & ? & ?). rewrite ord_hd in *. lia.
    - unfold is_next in Hg. case_decide as Hq; [specialize (Hg a Ha); lia|].
      destruct Hg as (_ & _ & Hmin). specialize (Hmin a Ha). specialize (Hgt Hq). lia. }
  assert (ord hd h a < ord hd h p -> p ∈ L i) as Hpin.
  { intros Hap'. destruct Hp as [->|?]; [|done]. rewrite ord_hd in Hap'.
    destruct Ha as [->|Ha]; [by rewrite ord_hd in Hap'|].
    destruct (ord_level hd h L i a Hl Ha) as (? & _ & ? & ?). lia. }
  unfold is_next in Hb |- *. destruct (decide (b = NULL)) as [->|Hb0].
  - intros c [->%elem_of_singleton|Hc]%elem_of_union; [|auto].
    destruct Hside as [Hs|]; [|lia]. specialize (Hb p (Hpin Hs)). lia.
  - destruct Hb as (HbL & Hab & Hmin). split_and!; [set_solver|done|].
    intros c [->%elem_of_singleton|Hc]%elem_of_union Hac; [|auto].
    destruct Hside as [Hs|]; [|lia]. specialize (Hmin p (Hpin Hs) Hs). lia.
Qed.

Lemma publish_next_p : is_next hd h ({[x]} ∪ L i) p x.
Proof.
  pose proof publish_gap as Hg. unfold is_next in *. destruct (decide (x = NULL)) as [->|_].
  { by rewrite (lk_null _ _ _ Hl) in Hnx. }
  split_and!; [set_solver|done|]. intros c [->%elem_of_singleton|Hc]%elem_of_union Hpc; [lia|].
  case_decide as Hq; [specialize (Hg c Hc); lia|].
  destruct Hg as (_ & _ & Hmin). specialize (Hmin c Hc Hpc). specialize (Hgt Hq). lia.
Qed.

Lemma publish_next_x : is_next hd h ({[x]} ∪ L i) x q.
Proof.
  pose proof publish_gap as Hg. unfold is_next in *. case_decide as Hq.
  - intros c [->%elem_of_singleton|Hc]%elem_of_union; [lia|]. specialize (Hg c Hc). lia.
  - destruct Hg as (HqL & Hpq' & Hmin). specialize (Hgt Hq). split_and!; [set_solver|done|].
    intros c [->%elem_of_singleton|Hc]%elem_of_union Hxc; [lia|]. apply Hmin; [done|lia].
Qed.

Lemma list_ok_publish : list_ok hd (wr h p i x) (add_to i x L).
Proof.
  split.
  - destruct (lk_hd _ _ _ Hl) as (n & Hn & Hlen').
    destruct (wr_node h p i x _ _ Hn) as (n' & Hn' & _ & _ & Hx'). exists n'. split; [done|congruence].
  - intros j [Hin|[_ E]]%elem_of_add_to; [by apply (lk_hd_out _ _ _ Hl j)|done].
  - apply wr_none, (lk_null _ _ _ Hl).
  - intros j a Ha.
    assert (exists n, h !! a = Some n /\ 0 <= nd_key n /\ (j < length (nd_next n))%nat) as (n & Hn & Hk & Hlj).
    { apply elem_of_add_to in Ha as [Ha|[-> ->]]; [by apply (lk_node _ _ _ Hl)|eauto]. }
    destruct (wr_node h p i x _ _ Hn) as (n' & Hn' & Hk' & _ & Hx').
    exists n'. split_and!; [done|lia..].
  - intros j a [Ha|[Ej ->]]%elem_of_add_to; apply elem_of_add_to.
    + left. by apply (lk_sub _ _ _ Hl).
    + left. apply Hlev. lia.
  - intros a b Ha Hb. rewrite !wr_ord. intros E.
    assert (forall c, c ∈ add_to i x L 0%nat -> c ∈ L 0%nat \/ (i = 0%nat /\ c = x)) as Hin.
    { intros c [?|[? ?]]%elem_of_add_to; auto. }
    pose proof publish_no_dup as Hnd.
    destruct (Hin a Ha) as [Ha'|[Ei ->]], (Hin b Hb) as [Hb'|[Ei' ->]]; [by apply (lk_inj _ _ _ Hl)| | |done].
    + rewrite Ei' in Hnd. by destruct (Hnd a Ha').
    + rewrite Ei in Hnd. by destruct (Hnd b Hb').
  - intros j a Hj Ha. destruct (decide (j = i)) as [->|Hne].
    + assert (add_to i x L i = {[x]} ∪ L i) as -> by (unfold add_to; by rewrite decide_True).
      assert (forall b, is_next hd h ({[x]} ∪ L i) a b -> is_next hd (wr h p i x) ({[x]} ∪ L i) a b) as Hw.
      { intros b. apply is_next_ext; [done|intros; apply wr_ord|apply wr_ord]. }
      destruct (decide (a = p)) as [->|Hap].
      * destruct (on_level_node hd h L i p Hl Hi Hp) as (np & Hnp & Hlp).
        exists x. rewrite (nxt_wr_eq h p i x np) by done. split; [done|apply Hw, publish_next_p].
      * rewrite (nxt_wr_ne h p i x i a) by auto. destruct (decide (a = x)) as [->|Hax].
        { exists q. split; [done|apply Hw, publish_next_x]. }
        assert (on_level hd L i a) as HaL.
        { destruct Ha as [?|[?|[_ ?]]%elem_of_add_to]; [by left|by right|done]. }
        destruct (lk_next _ _ _ Hl i a Hi HaL) as (b & Hb & Hnb). exists b. split; [done|].
        by apply Hw, publish_next_same.
    + assert (on_level hd L j a) as HaL.
      { destruct Ha as [?|[?|[? _]]%elem_of_add_to]; [by left|by right|done]. }
      destruct (lk_next _ _ _ Hl j a Hj HaL) as (b & Hb & Hnb). exists b.
      rewrite (nxt_wr_ne h p i x j a) by auto. split; [done|].
      eapply is_next_ext; [|intros; apply wr_ord|apply wr_ord|exact Hnb].
      intros c. rewrite elem_of_add_to. naive_solver.
Qed.
End publish.
