(* ===== verification/SkipListSpec.v ===== *)
(** * Correctness of the skip list

    Every step of a thread keeps the invariant of SkipListInv.v; what follows
    for the calls: the table is a map that only grows, insertions take effect
    atomically, the threads do not deadlock. *)

From S2P Require Import Prelude Random MemStore SkipList SkipListInv.

(** ** Frames *)

Section frames.
Context (hd : addr) (h : heap) (L : levels) (t : thread).
Context (Hl : list_ok hd h L).
Context (Hlk : forall a n, h !! a = Some n -> a ∈ held t -> nd_lock n <> 0).

Lemma changes_extends h' u : extends h h' -> changes hd u h L h' L.
Proof.
  intros [_ He]. split.
  - intros a n Hn. destruct (He a n Hn) as (n' & Hn' & Hk & Hx). exists n'. by rewrite Hx.
  - done.
  - by left.
  - intros i a n Hn. left. destruct (He a n Hn) as (n' & Hn' & _ & Hx).
    unfold nxt. rewrite Hn, Hn'. simpl. by rewrite Hx.
Qed.

Lemma pc_ok_extends h' l p : extends h h' -> pc_ok hd h L l p -> pc_ok hd h' L l p.
Proof.
  intros He Hp. pose (t0 := mkThread tls_new l Idle). pose (u := mkThread tls_new l p).
  change (pc_ok hd h' L (t_lo u) (t_pc u)).
  apply (pc_ok_stable hd h L h' L t0 u Hl (changes_extends h' t0 He)); [done|set_solver|done|done].
Qed.

Lemma extends_lock p n v : h !! p = Some n -> extends h (<[p := set_lock v n]> h).
Proof.
  intros Hn. split.
  - rewrite lookup_insert_ne; [apply (lk_null _ _ _ Hl)|]. intros ->. by rewrite (lk_null _ _ _ Hl) in Hn.
  - intros a na Ha. destruct (decide (a = p)) as [->|Hne].
    + simplify_eq. rewrite lookup_insert_eq. eauto.
    + rewrite lookup_insert_ne by done. eauto.
Qed.

Lemma extends_new a n : a <> NULL -> h !! a = None -> extends h (<[a := n]> h).
Proof.
  intros Ha Hn. split.
  - rewrite lookup_insert_ne by done. apply (lk_null _ _ _ Hl).
  - intros b nb Hb. rewrite lookup_insert_ne by (intros ->; by simplify_eq). eauto.
Qed.

(** The heap does not change. *)
Lemma step_same t' : pc_ok hd h L (t_lo t') (t_pc t') -> held t' = held t ->
  (own t' = own t \/ own t' = None) -> step_ok hd t h L t' h L.
Proof.
  intros Hp Hh Ho. split; [done..| | | |].
  - apply changes_extends. split; [apply (lk_null _ _ _ Hl)|eauto].
  - intros x Hx. left. destruct Ho; congruence.
  - rewrite Hh. auto.
  - intros a n Hn. rewrite Hn, Hh. specialize (Hlk a n Hn). split; [|naive_solver].
    intros Hz. destruct (decide (a ∈ held t)); auto.
Qed.

(** A lock is taken that was free. *)
Lemma step_lock p n t' : h !! p = Some n -> nd_lock n = 0 ->
  pc_ok hd h L (t_lo t') (t_pc t') -> held t' = {[p]} ∪ held t -> own t' = None ->
  step_ok hd t h L t' (<[p := set_lock 1 n]> h) L.
Proof.
  intros Hn Hz Hp Hh Ho. pose proof (extends_lock p n 1 Hn) as He. split.
  - by apply (list_ok_extends hd h).
  - by apply pc_ok_extends.
  - by apply changes_extends.
  - intros x Hx. congruence.
  - rewrite Hh. intros a [->%elem_of_singleton|Ha]%elem_of_union; [right; eauto|by left].
  - intros a n' Hn'. rewrite Hh. destruct (decide (a = p)) as [->|Hne].
    + rewrite lookup_insert_eq in Hn'. simplify_eq. rewrite Hn. simpl. set_solver.
    + rewrite lookup_insert_ne in Hn' by done. rewrite Hn'. specialize (Hlk a n' Hn').
      rewrite elem_of_union, elem_of_singleton. split; [|naive_solver].
      intros Hnz. destruct (decide (a ∈ held t)); auto.
Qed.

(** A lock the thread holds is released. *)
Lemma step_unlock p n t' : h !! p = Some n -> p ∈ held t ->
  pc_ok hd h L (t_lo t') (t_pc t') -> held t' = held t ∖ {[p]} -> own t' = None ->
  step_ok hd t h L t' (<[p := set_lock 0 n]> h) L.
Proof.
  intros Hn Hz Hp Hh Ho. pose proof (extends_lock p n 0 Hn) as He. split.
  - by apply (list_ok_extends hd h).
  - by apply pc_ok_extends.
  - by apply changes_extends.
  - intros x Hx. congruence.
  - rewrite Hh. set_solver.
  - intros a n' Hn'. rewrite Hh. destruct (decide (a = p)) as [->|Hne].
    + rewrite lookup_insert_eq in Hn'. simplify_eq. rewrite Hn. simpl. set_solver.
    + rewrite lookup_insert_ne in Hn' by done. rewrite Hn'. specialize (Hlk a n' Hn').
      rewrite elem_of_difference, elem_of_singleton. split; [|naive_solver].
      intros Hnz. destruct (decide (a ∈ held t)); auto.
Qed.

(** The lock was not free: the word stays busy. *)
Lemma step_spin p n t' : h !! p = Some n -> nd_lock n <> 0 ->
  pc_ok hd h L (t_lo t') (t_pc t') -> held t' = held t -> own t' = None ->
  step_ok hd t h L t' (<[p := set_lock 1 n]> h) L.
Proof.
  intros Hn Hz Hp Hh Ho. pose proof (extends_lock p n 1 Hn) as He. split.
  - by apply (list_ok_extends hd h).
  - by apply pc_ok_extends.
  - by apply changes_extends.
  - intros x Hx. congruence.
  - rewrite Hh. auto.
  - intros a n' Hn'. rewrite Hh. destruct (decide (a = p)) as [->|Hne].
    + rewrite lookup_insert_eq in Hn'. simplify_eq. rewrite Hn. simpl.
      destruct (decide (p ∈ held t)); naive_solver.
    + rewrite lookup_insert_ne in Hn' by done. rewrite Hn'. specialize (Hlk a n' Hn').
      split; [|naive_solver]. intros Hnz. destruct (decide (a ∈ held t)); auto.
Qed.

(** A node is allocated. *)
Lemma step_alloc a n t' : a <> NULL -> h !! a = None -> nd_lock n = 0 ->
  pc_ok hd (<[a := n]> h) L (t_lo t') (t_pc t') -> held t' = held t ->
  (own t' = None \/ own t' = Some a) -> (a ∉ held t) ->
  step_ok hd t h L t' (<[a := n]> h) L.
Proof.
  intros Ha Hn Hz Hp Hh Ho Hout. pose proof (extends_new a n Ha Hn) as He. split.
  - by apply (list_ok_extends hd h).
  - done.
  - by apply changes_extends.
  - intros x Hx. right. destruct Ho as [Ho|Ho]; rewrite Ho in Hx; by simplify_eq.
  - rewrite Hh. auto.
  - intros b n' Hb. rewrite Hh. destruct (decide (b = a)) as [->|Hne].
    + rewrite lookup_insert_eq in Hb. simplify_eq. rewrite Hn. done.
    + rewrite lookup_insert_ne in Hb by done. rewrite Hb. specialize (Hlk b n' Hb).
      split; [|naive_solver]. intros Hnz. destruct (decide (b ∈ held t)); auto.
Qed.

(** A link is written. *)
Lemma step_write L' a i v t' : list_ok hd (wr h a i v) L' ->
  pc_ok hd (wr h a i v) L' (t_lo t') (t_pc t') -> held t' = held t -> own t' = own t ->
  (forall j, L j ⊆ L' j) -> (forall j b, b ∈ L' j -> b ∈ L j \/ own t = Some b) ->
  (a ∈ held t /\ on_level hd L i a) \/ (own t = Some a /\ a ∉ L i) ->
  step_ok hd t h L t' (wr h a i v) L'.
Proof.
  intros Hl' Hp Hh Ho Hsub Hnew Hw. split; [done..| | | |].
  - split; [|done..|].
    + intros b n Hn. destruct (wr_node h a i v b n Hn) as (n' & ? & ? & _ & ?). eauto.
    + intros j b n _. destruct (decide (b = a)) as [->|]; [|left; apply nxt_wr_ne; auto].
      destruct (decide (j = i)) as [->|]; [|left; apply nxt_wr_ne; auto]. by right.
  - rewrite Ho. auto.
  - rewrite Hh. auto.
  - intros b n' Hb. rewrite Hh. destruct (h !! b) as [n|] eqn:Hn.
    + destruct (wr_node h a i v b n Hn) as (n2 & Hn2 & _ & Hk & _). simplify_eq. rewrite Hk.
      specialize (Hlk b n Hn). split; [|naive_solver].
      intros Hnz. destruct (decide (b ∈ held t)); auto.
    + by rewrite (wr_none h a i v b Hn) in Hb.
Qed.
End frames.

(** ** The steps *)

(** The thread waits for a lock that is not free. *)
Definition spins (h : heap) (t : thread) : bool :=
  match t_pc t with
  | ILock i pp =>
      (i <? lo_height (t_lo t))%nat && negb (P (t_lo t) i =? pp) &&
      match h !! P (t_lo t) i with Some n => negb (nd_lock n =? 0) | None => false end
  | _ => false
  end.

(** The number of nodes after [a]. *)
Definition above (hd : addr) (h : heap) (L : levels) (a : addr) : nat :=
  size (filter (fun c => ord hd h a < ord hd h c) (L 0%nat)).

(** A thread that was not disturbed since its call began has found neighbours
    on all levels it has searched, and never retries. *)
Definition alone (h : heap) (t : thread) : Prop :=
  match t_pc t with
  | IFind level _ => linked h (t_lo t) (S level) kMaxHeight
  | ILock _ _ | ICheck _ _ => linked h (t_lo t) 0 kMaxHeight
  | IRetry _ _ => False
  | _ => True
  end.

(** A bound on the accesses that such a thread still makes: a search, and then
    at most 2 accesses for each level to lock and check, 2 to link and one to
    unlock. *)
Definition accesses (hd : addr) (h : heap) (L : levels) (t : thread) : nat :=
  match t_pc t with
  | Idle | Done _ | IRetry _ _ => 0
  | IFind level x => 90 + level + above hd h L x
  | ILock i _ => 88 - 2 * i
  | ICheck i _ => 87 - 2 * i
  | INew => 54
  | ILink i _ => 53 - 2 * i
  | IPublish i _ => 52 - 2 * i
  | IUnlock i _ _ => 20 - i
  | IReturn _ => 1
  | GFind level x => 1 + level + above hd h L x
  end.

(** The thread makes progress. *)
Definition moved (hd : addr) (h : heap) (L : levels) (t : thread) (h' : heap) (L' : levels) (t' : thread) : Prop :=
  t_pc t' <> t_pc t /\
  (alone h t -> alone h' t' /\ (accesses hd h' L' t' < accesses hd h L t)%nat).

Ltac moves Hpc :=
  split; [rewrite Hpc; cbn; first [discriminate | congruence | intros [=]; lia]
         |unfold alone, accesses; rewrite Hpc; cbn [at_pc with_lo t_pc t_lo]; intros Hal;
          split; [first [done | auto] | cbn; unfold kMaxHeight in *; lia]].

(** A step succeeds, keeps what is needed and moves the thread unless it waits. *)
Definition good_step (s : skiplist) (t : thread) (L : levels) (r : result (skiplist * thread)) : Prop :=
  exists s' t' L', r = Ok (s', t') /\
    sl_head s' = sl_head s /\ sl_max_height s' = sl_max_height s /\
    step_ok (sl_head s) t (sl_heap s) L t' (sl_heap s') L' /\
    (L' = L \/ exists i x, t_pc t = IPublish i x /\ L' = add_to i x L) /\
    (quiet t = true \/ spins (sl_heap s) t = true \/
     moved (sl_head s) (sl_heap s) L t (sl_heap s') L' t').

Lemma taken_S l i : args l -> (i < kMaxHeight)%nat -> taken l (S i) = {[P l i]} ∪ taken l i.
Proof.
  intros (_ & _ & Hlen & _) Hi. apply set_eq. intros a.
  rewrite elem_of_union, elem_of_singleton, !elem_of_taken. split.
  - intros (j & Hj & Ha). destruct (decide (j = i)) as [->|]; [left; unfold P; by rewrite Ha|].
    right. exists j. split; [lia|done].
  - intros [->|(j & Hj & Ha)]; [|exists j; split; [lia|done]].
    exists i. split; [lia|]. apply P_lookup. lia.
Qed.

Lemma taken_0 l : taken l 0 = ∅.
Proof. done. Qed.

(** Equal predecessors are neighbours in [preds]: the test [pred != prevpred]
    finds each node once. *)
Lemma taken_next hd h L l i : list_ok hd h L -> args l -> missed hd h L l -> (i < kMaxHeight)%nat ->
  P l i = prevp l i /\ taken l (S i) = taken l i \/
  P l i <> prevp l i /\ (P l i ∉ taken l i) /\ taken l (S i) = {[P l i]} ∪ taken l i.
Proof.
  intros Hl Ha [Hm Hd] Hi. rewrite (taken_S l i Ha Hi).
  destruct (Hm i Hi) as [(Hp & _) _].
  destruct (decide (P l i = prevp l i)) as [E|E]; [left|right]; split_and!; try done.
  - destruct i as [|k].
    + exfalso. rewrite E in Hp. by apply (on_level_null hd h L 0 Hl Hi).
    + simpl in E. rewrite E. assert (P l k ∈ taken l (S k)) by (apply P_taken; [done|lia]). set_solver.
  - intros (j & Hj & HPj)%elem_of_taken. destruct i as [|k]; [lia|]. simpl in E.
    assert (P l j = P l (S k)) as Ej by (unfold P at 1; by rewrite HPj).
    pose proof (Hd k (S k) ltac:(lia) ltac:(lia)) as H1k.
    pose proof (Hd j k ltac:(lia) ltac:(lia)) as Hjk. rewrite Ej in Hjk.
    apply E. destruct (Hm k ltac:(lia)) as [(Hpk & _) _].
    apply (ord_inj hd h L k); [done| |done|lia]. apply (on_level_mono hd h L k (S k)); [done|lia|done].
Qed.

Lemma missed_wr hd h L l a i v : missed hd h L l -> missed hd (wr h a i v) L l.
Proof.
  intros [Hm Hd]. split.
  - intros j Hj. unfold pred_ok. rewrite !wr_ord. by apply Hm.
  - intros j k Hj Hk. rewrite !wr_ord. by apply Hd.
Qed.

Lemma missed_sub hd h L L' l : (forall j, L j ⊆ L' j) -> missed hd h L l -> missed hd h L' l.
Proof.
  intros Hsub [Hm Hd]. split; [|done]. intros j Hj. destruct (Hm j Hj) as [(Hp & Ho & Hq) Hq'].
  split; [|done]. split_and!; [|done|].
  - destruct Hp as [->|Hp]; [by left|right; by apply Hsub].
  - destruct Hq as [?|[? ?]]; [by left|right; split; [by apply Hsub|done]].
Qed.

Lemma linked_extends h h' l from to : extends h h' -> linked h l from to -> linked h' l from to.
Proof.
  intros [_ He] Hk j Hj. specialize (Hk j Hj). unfold nxt in Hk |- *.
  destruct (h !! P l j) as [n|] eqn:Hn; [|done]. destruct (He _ _ Hn) as (n' & -> & _ & Hx).
  cbn in *. by rewrite Hx.
Qed.

Lemma above_lt hd h L a b : b ∈ L 0%nat -> ord hd h a < ord hd h b ->
  (above hd h L b < above hd h L a)%nat.
Proof.
  intros Hb Hab. unfold above. apply subset_size. split.
  - intros c. rewrite !elem_of_filter. intros [? ?]. split; [lia|done].
  - intros Hsub. specialize (Hsub b). rewrite !elem_of_filter in Hsub. destruct Hsub as [? _]; [done|lia].
Qed.

Section steps.
Context (s : skiplist) (L : levels) (t : thread).
Abbreviation hd := (sl_head s) (only parsing).
Abbreviation h := (sl_heap s) (only parsing).
Abbreviation l := (t_lo t) (only parsing).
Context (Hl : list_ok hd h L).
Context (Hlk : forall a n, h !! a = Some n -> a ∈ held t -> nd_lock n <> 0).

(** Steps that change neither the heap nor the locks held. *)
Lemma good_same t' : pc_ok hd h L (t_lo t') (t_pc t') -> held t' = held t ->
  (own t' = own t \/ own t' = None) -> quiet t = true \/ moved hd h L t h L t' ->
  good_step s t L (Ok (s, t')).
Proof.
  intros Hp Hh Ho Hq. exists s, t', L. split_and!; [done..|by apply step_same|by left|]. tauto.
Qed.

(** A search step goes on to a node with a smaller key or goes down. *)
Lemma look_cases key x i : (i < kMaxHeight)%nat -> on_level hd L i x ->
  exists next, nxt h i x = Some next /\ is_next hd h (L i) x next /\
    ((look h key x i = Ok (next, true) /\ next ∈ L i /\ next <> x /\
        ord hd h x < ord hd h next < key) \/
     (look h key x i = Ok (next, false) /\
        (next = NULL \/ next <> NULL /\ next ∈ L i /\ key <= ord hd h next))).
Proof.
  intros Hi Hx. destruct (look_spec hd h L key x i Hl Hi Hx) as (next & Hn & Hnx & E).
  exists next. split_and!; [done..|]. unfold is_next in Hnx.
  destruct (decide (next = NULL)) as [->|Hne]; [right; auto|].
  destruct Hnx as (HnL & Hlt & _). destruct (Z.ltb_spec (ord hd h next) key) as [Hk|Hk].
  - left. split_and!; [done|done| |lia..]. intros ->. lia.
  - right. auto.
Qed.

Lemma set_found_P level x next l' j : args l' -> (level < kMaxHeight)%nat ->
  P (set_found level x next l') j = (if decide (j = level) then x else P l' j) /\
  Q (set_found level x next l') j = (if decide (j = level) then next else Q l' j).
Proof.
  intros (_ & _ & Hlen1 & Hlen2 & _) Hlv. unfold P, Q. simpl. case_decide as E; subst.
  - rewrite !list_lookup_insert_eq by lia. done.
  - by rewrite !list_lookup_insert_ne by done.
Qed.

Lemma set_found_args level x next l' : args l' -> args (set_found level x next l').
Proof. intros (? & ? & ? & ? & ?). unfold args. simpl. by rewrite !length_insert. Qed.

(** Leaving a level of the search. *)
Lemma searched_down level x next : args l -> (level < kMaxHeight)%nat -> on_level hd L level x ->
  ord hd h x < lo_key l -> searched hd h L l level x ->
  (next = NULL \/ next ∈ L level /\ lo_key l <= ord hd h next) ->
  let l' := set_found level x next l in
  (forall j, (level <= j < kMaxHeight)%nat -> pred_ok hd h L l' j /\ ord hd h (P l' j) <= ord hd h x) /\
  descending hd h l' level.
Proof.
  intros Ha Hlv Hx Hk [Hs Hd] Hq l'. subst l'. split.
  - intros j Hj. unfold pred_ok. destruct (set_found_P level x next l j Ha Hlv) as [-> ->].
    simpl. case_decide as E; [subst; split; [split_and!; done|done]|]. apply Hs. lia.
  - intros j k Hj Hk'. destruct (set_found_P level x next l j Ha Hlv) as [-> _].
    destruct (set_found_P level x next l k Ha Hlv) as [-> _].
    destruct (decide (k = level)) as [->|].
    { rewrite decide_True by lia. done. }
    case_decide; [apply Hs; lia|]. apply Hd; lia.
Qed.

(** The key of the search is on no level when it is not on the lowest. *)
Lemma linked_found level x next : args l -> (level < kMaxHeight)%nat -> nxt h level x = Some next ->
  linked h l (S level) kMaxHeight -> linked h (set_found level x next l) level kMaxHeight.
Proof.
  intros Ha Hlv Hn Hk j Hj. destruct (set_found_P level x next l j Ha Hlv) as [-> ->].
  case_decide as E; [by subst|]. apply Hk. lia.
Qed.

Lemma missed_after x next : let l' := set_found 0 x next l in
  args l -> on_level hd L 0 x -> ord hd h x < lo_key l -> searched hd h L l 0 x ->
  is_next hd h (L 0%nat) x next ->
  (next = NULL \/ next ∈ L 0%nat /\ lo_key l < ord hd h next) -> missed hd h L l'.
Proof.
  intros l' Ha Hx Hk Hs Hnx Hq.
  destruct (searched_down 0 x next) as [Hp Hd]; [done|unfold kMaxHeight; lia|done..| |].
  { destruct Hq as [?|[? ?]]; [by left|right; split; [done|lia]]. }
  split; [|done]. intros j Hj. split; [apply Hp; lia|]. intros Hn.
  destruct (Hp j ltac:(lia)) as [(_ & _ & [?|[HQ Hle]]) _]; [done|]. fold l' in HQ, Hle, Hn |- *.
  assert (ord hd h (Q l' j) <> lo_key l) as Hne; [|change (lo_key l') with (lo_key l) in *; lia].
  intros E. assert (Q l' j ∈ L 0%nat) as HQ0 by (apply (lk_mono hd h L 0 j); [done|lia|done]).
  unfold is_next in Hnx. case_decide as Hn0.
  - specialize (Hnx _ HQ0). lia.
  - destruct Hnx as (_ & _ & Hmin). specialize (Hmin _ HQ0 ltac:(lia)).
    destruct Hq as [?|[_ ?]]; [done|]. lia.
Qed.

Lemma locking_starts l' : args l' -> missed hd h L l' -> pc_ok hd h L l' (ILock 0 NULL).
Proof. intros Ha Hm. split; [done|]. split; [done|]. split_and!; [lia|intros j ?; lia|done|lia]. Qed.

Lemma IFind_good level x : t_pc t = IFind level x -> pc_ok hd h L l (IFind level x) ->
  good_step s t L (IFind_step s level x t).
Proof.
  intros Hpc (Ha & Hlv & Hx & Hk & Hs). unfold IFind_step.
  assert (held t = ∅) as Hh by (unfold held; by rewrite Hpc).
  assert (own t = None) as Ho by (unfold own; by rewrite Hpc).
  destruct (look_cases (lo_key l) x level Hlv Hx)
    as (next & Hxn & Hnx & [(-> & Hn & Hne & Hlt)|(-> & Hn)]); cbn [mbind result_bind].
  { assert (above hd h L next < above hd h L x)%nat as Hab.
    { apply above_lt; [apply (lk_mono hd h L 0 level); [done|lia|done]|lia]. }
    apply good_same; [|by rewrite Hh|by right|right; moves Hpc].
    split; [done|]. split_and!; [done|by right|cbn; lia|]. destruct Hs as [Hs Hd]. split; [|done].
    intros j Hj. destruct (Hs j Hj) as [? ?]. split; [done|]. cbn. lia. }
  assert (next = NULL \/ next ∈ L level /\ lo_key l <= ord hd h next) as Hq by tauto.
  pose proof (linked_found level x next Ha Hlv Hxn) as Hlf.
  destruct level as [|level].
  - unfold found. simpl. destruct Hn as [->|(Hn0 & HnL & Hle)].
    { apply good_same; [|by rewrite Hh|by right|right; moves Hpc].
      apply locking_starts; [by apply set_found_args|apply missed_after; auto]. }
    rewrite (proj2 (Z.eqb_neq _ _)) by done. unfold node.
    destruct (ord_level hd h L 0 next Hl HnL) as (n & -> & Eo & Hk0). simpl.
    destruct (Z.eqb_spec (nd_key n) (lo_key l)) as [E|E].
    + apply good_same; [|by rewrite Hh|by right|right; moves Hpc].
      simpl. split; [destruct Ha; lia|]. split; [done|simpl; lia].
    + apply good_same; [|by rewrite Hh|by right|right; moves Hpc].
      apply locking_starts; [by apply set_found_args|apply missed_after; auto].
      right. split; [done|lia].
  - apply good_same; [|by rewrite Hh|by right|right; moves Hpc].
    destruct (searched_down (S level) x next) as [Hp Hd]; [done..|].
    split; [by apply set_found_args|]. split; [lia|].
    split; [apply (on_level_mono hd h L level (S level)); [done|lia|done]|]. split; [done|].
    split; [|done]. intros j Hj. apply Hp. lia.
Qed.

Lemma pred_at_P i : args l -> (i < kMaxHeight)%nat -> pred_at l i = Ok (P l i).
Proof. intros (_ & _ & Hlen & _) Hi. unfold pred_at. by rewrite P_lookup by lia. Qed.

Lemma succ_at_Q i : args l -> (i < kMaxHeight)%nat -> succ_at l i = Ok (Q l i).
Proof. intros (_ & _ & _ & Hlen & _) Hi. unfold succ_at. by rewrite Q_lookup by lia. Qed.

Lemma pred_node i : missed hd h L l -> (i < kMaxHeight)%nat ->
  exists n, h !! P l i = Some n /\ (i < length (nd_next n))%nat.
Proof.
  intros [Hm _] Hi. destruct (Hm i Hi) as [(Hp & _) _]. by apply (on_level_node hd h L i).
Qed.

Lemma missed_highest l' i : missed hd h L l' -> missed hd h L (set_highestLocked i l').
Proof. done. Qed.

Lemma ILock_good i pp : t_pc t = ILock i pp -> pc_ok hd h L l (ILock i pp) ->
  good_step s t L (ILock_step s i pp t).
Proof.
  intros Hpc (Ha & Hm & Hi & Hk & -> & Htk). unfold ILock_step.
  assert (held t = taken l i) as Hh by (unfold held; by rewrite Hpc).
  assert (lo_height l <= kMaxHeight)%nat as Hht by (destruct Ha; lia).
  destruct (Nat.ltb_spec i (lo_height l)) as [Hlt|Hge].
  2: { apply good_same; [|rewrite Hh; cbn; f_equal; lia|by right|right; moves Hpc].
       split; [done|]. split; [done|]. assert (lo_height l = i) as E by lia. cbn. by rewrite E. }
  rewrite pred_at_P by (done || lia). cbn [mbind result_bind].
  destruct (pred_node i Hm) as (n & Hn & _); [lia|].
  destruct (taken_next hd h L l i Hl Ha Hm) as [[E1 E2]|(E1 & E2 & E3)]; [lia| |].
  - rewrite E1, Z.eqb_refl. cbn [negb].
    apply good_same; [|rewrite Hh; apply E2|by right|right; moves Hpc].
    split; [done|]. split; [done|]. split_and!; [done..|]. cbn [at_pc t_lo]. rewrite E2.
    apply Htk. destruct i; [|lia]. simpl in E1. destruct Hm as [Hm _].
    destruct (Hm 0%nat ltac:(lia)) as [(Hp & _) _]. rewrite E1 in Hp.
    by destruct (on_level_null hd h L 0 Hl ltac:(lia)).
  - rewrite (proj2 (Z.eqb_neq _ _)) by done. cbn [negb]. unfold Trylock, node. rewrite Hn.
    cbn [from_opt mbind result_bind].
    destruct (Z.eqb_spec (nd_lock n) 0) as [Ez|Ez].
    + pose proof (linked_extends h _ l 0 kMaxHeight (extends_lock hd h L Hl _ n 1 Hn)) as Hlf.
      eexists _, _, L. split_and!; [done..| |by left|right; right; moves Hpc].
      simpl. apply step_lock; [done..| |cbn; rewrite Hh; apply E3|done].
      cbn. split; [destruct Ha as (? & ? & ? & ? & ?); split_and!; done || (cbn; lia)|].
      split; [done|]. split_and!; [done..|]. cbn [with_lo at_pc t_lo set_highestLocked lo_highestLocked]. by replace (Z.to_nat (Z.of_nat i + 1)) with (S i) by lia.
    + eexists _, t, L. split_and!; [done..| |by left|].
      * simpl. apply step_spin; [done..| |done|unfold own; by rewrite Hpc].
        rewrite Hpc. split; [done|]. split; [done|]. by split_and!.
      * right. left. unfold spins. rewrite Hpc, Hn, (proj2 (Nat.ltb_lt _ _)) by done.
        by rewrite (proj2 (Z.eqb_neq _ _) E1), (proj2 (Z.eqb_neq _ _) Ez).
Qed.

Lemma ICheck_good i pp : t_pc t = ICheck i pp -> pc_ok hd h L l (ICheck i pp) ->
  good_step s t L (ICheck_step s i pp t).
Proof.
  intros Hpc (Ha & Hm & Hi & Hk & -> & Htk). unfold ICheck_step.
  assert (lo_height l <= kMaxHeight)%nat as Hht by (destruct Ha; lia).
  rewrite pred_at_P, succ_at_Q by (done || lia). cbn [mbind result_bind].
  pose proof Hm as [Hm' _]. destruct (Hm' i) as [(Hp & _) _]; [lia|].
  destruct (lk_next _ _ _ Hl i (P l i)) as (b & Hb & _); [lia|done|].
  rewrite (next_at_Ok _ _ _ _ Hb). cbn [mbind result_bind].
  destruct (Z.eqb_spec (Q l i) b) as [E|E].
  - apply good_same; [|unfold held; by rewrite Hpc|by right|right; moves Hpc].
    split; [done|]. split; [done|]. split_and!; [cbn; lia| |done|by intros _].
    intros j Hj. destruct (decide (j = i)) as [->|]; [by subst|]. apply Hk. lia.
  - assert (~ linked h l 0 kMaxHeight) as Hno.
    { intros Hal. specialize (Hal i ltac:(lia)). congruence. }
    apply good_same; [| |by right|right; moves Hpc].
    + split; [done|]. split; [done|]. split; [done|]. destruct Ha as (_ & _ & _ & _ & ?). cbn. lia.
    + unfold held. rewrite Hpc. cbn [at_pc t_pc t_lo]. rewrite Htk, taken_0. set_solver.
Qed.

(** One round of an unlocking loop over [preds[0]] to [preds[to - 1]]. *)
Lemma unlock_round i to : args l -> missed hd h L l -> (i < to <= kMaxHeight)%nat ->
  held t = taken l to ∖ taken l i ->
  P l i = prevp l i /\ taken l to ∖ taken l (S i) = held t \/
  P l i <> prevp l i /\ P l i ∈ held t /\ taken l to ∖ taken l (S i) = held t ∖ {[P l i]}.
Proof.
  intros Ha Hm Hi ->. destruct (taken_next hd h L l i Hl Ha Hm) as [[E1 ->]|(E1 & E2 & ->)]; [lia|by left|right].
  assert (P l i ∈ taken l to) by (apply P_taken; [done|lia]). set_solver.
Qed.

Lemma IRetry_good i pp : t_pc t = IRetry i pp -> pc_ok hd h L l (IRetry i pp) -> hd <> NULL ->
  good_step s t L (IRetry_step s i pp t).
Proof.
  intros Hpc (Ha & Hm & -> & Hi) Hhd. unfold IRetry_step.
  set (to := Z.to_nat (lo_highestLocked l + 1)).
  assert (held t = taken l to ∖ taken l i) as Hh by (unfold held; by rewrite Hpc).
  assert (to <= kMaxHeight)%nat as Hto by (destruct Ha as (_ & _ & _ & _ & ?); lia).
  destruct (Z.ltb_spec (Z.of_nat i) (lo_highestLocked l + 1)) as [Hlt|Hge].
  - rewrite pred_at_P by (done || lia). cbn [mbind result_bind].
    destruct (pred_node i Hm) as (n & Hn & _); [lia|].
    destruct (unlock_round i to) as [[E1 E2]|(E1 & E2 & E3)]; [done..|lia|done| |].
    + rewrite E1, Z.eqb_refl. cbn [negb].
      apply good_same; [|done|by right|right; moves Hpc].
      split; [done|]. split; [done|]. split; [done|]. cbn. lia.
    + rewrite (proj2 (Z.eqb_neq _ _)) by done. cbn [negb]. unfold Unlock, node. rewrite Hn.
      eexists _, _, L. split_and!; [done..| |by left|right; right; moves Hpc].
      apply step_unlock; [done..| |done|done].
      split; [done|]. split; [done|]. split; [done|]. cbn. lia.
  - apply good_same; [| |by right|right; moves Hpc].
    + split; [done|]. split; [unfold kMaxHeight; lia|]. split; [by left|].
      cbn [at_pc t_lo]. rewrite ord_hd. split; [destruct Ha; lia|].
      split; intros j; unfold kMaxHeight; lia.
    + rewrite Hh. replace to with i by lia. set_solver.
Qed.

Lemma IUnlock_good i pp x : t_pc t = IUnlock i pp x -> pc_ok hd h L l (IUnlock i pp x) ->
  good_step s t L (IUnlock_step s i pp x t).
Proof.
  intros Hpc (Ha & Hm & Hi & -> & Hx). unfold IUnlock_step.
  assert (held t = taken l (lo_height l) ∖ taken l i) as Hh by (unfold held; by rewrite Hpc).
  assert (1 <= lo_height l <= kMaxHeight)%nat as Hto by (destruct Ha; lia).
  destruct (Nat.ltb_spec i (lo_height l)) as [Hlt|Hge].
  - rewrite pred_at_P by (done || lia). cbn [mbind result_bind].
    destruct (pred_node i Hm) as (n & Hn & _); [lia|].
    destruct (unlock_round i (lo_height l)) as [[E1 E2]|(E1 & E2 & E3)]; [done..|lia|done| |].
    + rewrite E1, Z.eqb_refl. cbn [negb].
      apply good_same; [|done|by right|right; moves Hpc].
      split; [done|]. split; [done|]. split; [cbn; lia|]. done.
    + rewrite (proj2 (Z.eqb_neq _ _)) by done. cbn [negb]. unfold Unlock, node. rewrite Hn.
      eexists _, _, L. split_and!; [done..| |by left|right; right; moves Hpc].
      apply step_unlock; [done..| |done|done].
      split; [done|]. split; [done|]. split; [cbn; lia|]. done.
  - apply good_same; [| |by right|right; moves Hpc].
    + split; [cbn; lia|done].
    + rewrite Hh. replace (lo_height l) with i by lia. set_solver.
Qed.

Lemma INew_good a m : t_pc t = INew -> pc_ok hd h L l INew -> fresh a s -> raw_lock m = 0 ->
  good_step s t L (thread_step a m s t).
Proof.
  intros Hpc (Ha & Hm & Hk) [Ha0 Hfr] Hz. unfold thread_step. rewrite Hpc.
  set (n := NewNode _ _ _). pose proof (extends_new hd h L Hl a n Ha0 Hfr) as He.
  pose proof (changes_extends hd h L (<[a := n]> h) t He) as Hc.
  eexists _, _, L. split_and!; [done..| |by left|right; right; moves Hpc].
  assert (forall i, ~ on_level hd L i a) as Hout.
  { intros i [->|Hin].
    - destruct (lk_hd _ _ _ Hl) as (n' & Hn' & _). by simplify_eq.
    - destruct (lk_node _ _ _ Hl i a Hin) as (n' & Hn' & _). by simplify_eq. }
  apply step_alloc; [done..| |unfold held; by rewrite Hpc|by right|].
  - cbn [at_pc t_lo t_pc pc_ok]. split; [done|]. split; [by eapply missed_stable|].
    split; [lia|]. split.
    + intros j Hj. rewrite <- (Hk j Hj). destruct (pred_node j Hm) as (n' & Hn' & _).
      { destruct Ha; lia. }
      unfold nxt. rewrite lookup_insert_ne; [done|]. intros E. congruence.
    + split; [intros ->; apply (Hout 0%nat); by left|]. split.
      * exists n. rewrite lookup_insert_eq. split_and!; [done..|]. cbn.
        rewrite length_map, length_seq. destruct Ha; lia.
      * intros j. split; [|lia]. intros Hin. exfalso. apply (Hout j). by right.
  - intros Hheld. apply (Hout 0%nat). apply (held_level hd h L t a Hl); [|done]. by rewrite Hpc.
Qed.

Lemma ILink_good i x : t_pc t = ILink i x -> pc_ok hd h L l (ILink i x) ->
  good_step s t L (ILink_step s i x t).
Proof.
  intros Hpc (Ha & Hm & Hi & Hk & Hx & (n & Hn & Hkn & Hlen) & Hlev). unfold ILink_step.
  assert (lo_height l <= kMaxHeight)%nat as Hht by (destruct Ha; lia).
  destruct (Nat.ltb_spec i (lo_height l)) as [Hlt|Hge].
  - rewrite pred_at_P by (done || lia). cbn [mbind result_bind].
    rewrite (next_at_Ok _ _ _ _ (Hk i ltac:(lia))). cbn [mbind result_bind].
    rewrite (set_next_Ok _ _ n) by (done || lia). cbn [mbind result_bind].
    eexists _, _, L. split_and!; [done..| |by left|right; right; moves Hpc].
    assert (x ∉ L i) as HxL by (rewrite Hlev; lia).
    assert (~ on_level hd L i x) as Hout by (by intros [?|?]).
    pose proof (list_ok_write hd h L x i (Q l i) Hl Hout) as Hl'.
    apply step_write; [done|done| |unfold held; by rewrite Hpc|unfold own; by rewrite Hpc|done|by left|].
    2: { right. unfold own. by rewrite Hpc. }
    cbn [at_pc t_lo t_pc pc_ok set_heap sl_heap]. split; [done|].
    split; [by apply missed_wr|]. split; [done|]. split_and!.
    + intros j Hj. rewrite nxt_wr_ne; [by apply Hk|].
      destruct (decide (j = i)) as [->|]; [left|by right]. intros E. apply Hout. rewrite <- E.
      destruct Hm as [Hm _]. by destruct (Hm i ltac:(lia)) as [(? & _) _].
    + split; [done|]. split; [|done].
      destruct (wr_node h x i (Q l i) x n Hn) as (n' & ? & ? & _ & ?).
      exists n'. split_and!; [done|congruence..].
    + by rewrite (nxt_wr_eq h x i _ n) by (done || lia).
  - apply good_same; [|unfold held; rewrite Hpc; cbn; set_solver|by right|right; moves Hpc].
    split; [done|]. split; [done|]. split; [lia|]. split; [done|]. split.
    + apply Hlev. destruct Ha; lia.
    + by rewrite (ord_node hd h x n).
Qed.

Lemma IPublish_good i x : t_pc t = IPublish i x -> pc_ok hd h L l (IPublish i x) ->
  good_step s t L (IPublish_step s i x t).
Proof.
  intros Hpc (Ha & Hm & Hi & Hk & (Hx & (n & Hn & Hkn & Hlen) & Hlev) & Hxq). unfold IPublish_step.
  assert (0 <= lo_key l /\ (i < kMaxHeight)%nat) as [Hk0 Hi16] by (destruct Ha; split; [done|lia]).
  rewrite pred_at_P by done. cbn [mbind result_bind].
  destruct (pred_node i Hm Hi16) as (np & Hnp & Hlp).
  rewrite (set_next_Ok _ _ np) by done. cbn [mbind result_bind].
  pose proof Hm as [Hm' _]. destruct (Hm' i Hi16) as [(Hp & Hpk & _) Hq].
  assert (ord hd h x = lo_key l) as Hox by (by rewrite (ord_node hd h x n)).
  assert (list_ok hd (wr h (P l i) i x) (add_to i x L)) as Hl'.
  { apply (list_ok_publish hd h L (P l i) x (Q l i) i n); rewrite ?Hox; try done; try lia.
    apply Hk. lia. }
  eexists _, _, (add_to i x L). split_and!; [done..| |by eauto|right; right; moves Hpc].
  assert (forall j, L j ⊆ add_to i x L j) as Hsub by (intros j b Hb; apply elem_of_add_to; auto).
  assert (own t = Some x) as Ho by (unfold own; by rewrite Hpc).
  apply step_write; [done|done| |unfold held; by rewrite Hpc|by rewrite Ho|done| |].
  - cbn [at_pc t_lo t_pc pc_ok set_heap sl_heap]. split; [done|].
    split; [by apply (missed_sub _ _ L), missed_wr|]. split; [lia|]. split.
    + intros j Hj. rewrite nxt_wr_ne by (right; lia). apply Hk. lia.
    + split; [done|]. split.
      * destruct (wr_node h (P l i) i x x n Hn) as (n' & ? & ? & _ & ?).
        exists n'. split_and!; [done|congruence..].
      * intros j. rewrite elem_of_add_to, Hlev. lia.
  - intros j b [?|[_ ->]]%elem_of_add_to; auto.
  - left. split; [|done]. unfold held. rewrite Hpc. apply P_taken; [done|destruct Ha; lia].
Qed.

Lemma IReturn_good a m x : t_pc t = IReturn x -> pc_ok hd h L l (IReturn x) ->
  fresh a s -> raw_lock m = 0 -> good_step s t L (Ok (IReturn_step a m s x t)).
Proof.
  intros Hpc [Hh1 Hx] [Ha0 Hfr] Hz. unfold IReturn_step.
  assert (held t = ∅) as Hh by (unfold held; by rewrite Hpc).
  destruct (tl_dummy (t_tls t) =? NULL).
  - destruct (RandomHeight (tl_rnd (t_tls t))) as [height rnd].
    eexists _, _, L. split_and!; [done..| |by left|right; right; moves Hpc].
    apply step_alloc; [done..| |by rewrite Hh|by left|rewrite Hh; set_solver].
    right. cbn. eapply stored_stable; [done|apply (changes_extends hd h L _ t); by apply (extends_new hd h L)|done].
  - apply good_same; [by right|by rewrite Hh|by right|right; moves Hpc].
Qed.

Lemma GFind_good level x : t_pc t = GFind level x -> pc_ok hd h L l (GFind level x) ->
  good_step s t L (GFind_step s level x t).
Proof.
  intros Hpc (Hk0 & Hz & Hlv & Hx & Hk). unfold GFind_step.
  assert (held t = ∅) as Hh by (unfold held; by rewrite Hpc).
  destruct (look_cases (lo_key l) x level Hlv Hx)
    as (next & _ & Hnx & [(-> & Hn & Hne & Hlt)|(-> & Hn)]); cbn [mbind result_bind].
  { assert (above hd h L next < above hd h L x)%nat as Hab.
    { apply above_lt; [apply (lk_mono hd h L 0 level); [done|lia|done]|lia]. }
    apply good_same; [|by rewrite Hh|by right|right; moves Hpc].
    split_and!; [done..|by right|cbn; lia]. }
  destruct level as [|level].
  - destruct Hn as [->|(Hn0 & HnL & Hle)]; simpl.
    { apply good_same; [by left|by rewrite Hh|by right|right; moves Hpc]. }
    rewrite (proj2 (Z.eqb_neq _ _)) by done. unfold node.
    destruct (ord_level hd h L 0 next Hl HnL) as (n & -> & Eo & _). simpl.
    apply good_same; [|by rewrite Hh|by right|right; moves Hpc]. simpl.
    destruct (Z.eqb_spec (lo_key l) (nd_key n)) as [E|E]; [right|by left].
    split; [done|lia].
  - apply good_same; [|by rewrite Hh|by right|right; moves Hpc].
    split_and!; [done..|cbn; lia| |done].
    apply (on_level_mono hd h L level (S level)); [done|lia|done].
Qed.

(** Every step of a thread succeeds and keeps the invariant. *)
Lemma thread_step_good a m : pc_ok hd h L l (t_pc t) -> hd <> NULL -> fresh a s -> raw_lock m = 0 ->
  good_step s t L (thread_step a m s t).
Proof.
  intros Hok Hhd Hfr Hz.
  destruct (t_pc t) as [|lv x|i pp|i pp|i pp| |i x|i x|i pp x|x|lv x|x] eqn:Hpc;
    [|..|]; try (unfold thread_step; rewrite Hpc).
  - apply good_same; [by rewrite Hpc|done|by left|left; unfold quiet; by rewrite Hpc].
  - by apply IFind_good.
  - by apply ILock_good.
  - by apply ICheck_good.
  - by apply IRetry_good.
  - pose proof (INew_good a m Hpc Hok Hfr Hz) as Hg. unfold thread_step in Hg. by rewrite Hpc in Hg.
  - by apply ILink_good.
  - by apply IPublish_good.
  - by apply IUnlock_good.
  - by apply IReturn_good.
  - by apply GFind_good.
  - apply good_same; [by rewrite Hpc|done|by left|left; unfold quiet; by rewrite Hpc].
Qed.
End steps.

(** ** Runs keep the invariant *)

Lemma RandomHeight_range rnd : (1 <= (RandomHeight rnd).1 <= kMaxHeight)%nat.
Proof.
  pose proof (RandomHeight_loop_range (kMaxHeight - 1) 1 rnd) as Hr. unfold RandomHeight, kMaxHeight in *. lia.
Qed.

Lemma head_not_null hd h L : list_ok hd h L -> hd <> NULL.
Proof.
  intros Hl ->. destruct (lk_hd _ _ _ Hl) as (n & Hn & _). by rewrite (lk_null _ _ _ Hl) in Hn.
Qed.

Lemma quiet_held t : quiet t = true -> held t = ∅ /\ own t = None.
Proof. unfold quiet, held, own. destruct (t_pc t); naive_solver. Qed.

Lemma insert_call_args a m key junk s t : 0 <= key ->
  length junk.1 = kMaxHeight -> length junk.2 = kMaxHeight ->
  args (t_lo (GetWithInsert_call a m key junk s t).2) /\
  t_pc (GetWithInsert_call a m key junk s t).2 = IFind (kMaxHeight - 1) (sl_head s) /\
  lo_key (t_lo (GetWithInsert_call a m key junk s t).2) = key.
Proof.
  intros Hk Hj1 Hj2. unfold GetWithInsert_call.
  destruct (ThreadLocalInit a m (sl_heap s) (t_tls t)) as [h l].
  pose proof (RandomHeight_range (tl_rnd l)) as Hr. destruct (RandomHeight (tl_rnd l)) as [height rnd].
  cbn in *. split; [|done]. unfold args. cbn. split_and!; [done|lia..].
Qed.

Lemma search_starts hd h L l : list_ok hd h L -> args l ->
  pc_ok hd h L l (IFind (kMaxHeight - 1) hd).
Proof.
  intros Hl Ha. split; [done|]. split; [unfold kMaxHeight; lia|]. split; [by left|].
  rewrite ord_hd. split; [destruct Ha; lia|]. split; intros j; unfold kMaxHeight; lia.
Qed.

(** The call of an insertion: the first one of a thread allocates [dummy_]. *)
Lemma insert_call_good a m key junk s L t :
  list_ok (sl_head s) (sl_heap s) L -> quiet t = true -> 0 <= key -> fresh a s -> raw_lock m = 0 ->
  length junk.1 = kMaxHeight -> length junk.2 = kMaxHeight ->
  let r := GetWithInsert_call a m key junk s t in
  sl_head r.1 = sl_head s /\ sl_max_height r.1 = sl_max_height s /\
  step_ok (sl_head s) t (sl_heap s) L r.2 (sl_heap r.1) L.
Proof.
  intros Hl Hq Hk [Ha0 Hfr] Hz Hj1 Hj2 r.
  destruct (quiet_held t Hq) as [Hh Ho].
  destruct (insert_call_args a m key junk s t Hk Hj1 Hj2) as (Hargs & Hpc & _). fold r in Hargs, Hpc.
  assert (held r.2 = ∅ /\ own r.2 = None) as [Hh' Ho'] by (unfold held, own; by rewrite Hpc).
  assert (forall b n, sl_heap s !! b = Some n -> b ∈ held t -> nd_lock n <> 0) as Hlk.
  { rewrite Hh. set_solver. }
  assert (sl_head r.1 = sl_head s /\ sl_max_height r.1 = sl_max_height s /\
    (sl_heap r.1 = sl_heap s \/ exists n, nd_lock n = 0 /\ sl_heap r.1 = <[a := n]> (sl_heap s)))
    as (E1 & E2 & E3).
  { unfold r, GetWithInsert_call, ThreadLocalInit. destruct (tl_localinit (t_tls t)); cbn [negb].
    - destruct (RandomHeight _); cbn. auto.
    - destruct (RandomHeight (Random_new _)) as [h1 r1]. cbn [tl_rnd].
      destruct (RandomHeight r1); cbn. split_and!; [done..|]. right. eexists. by split; [|done]. }
  split_and!; [done..|]. destruct E3 as [->|(n & Hn & ->)].
  - apply step_same; [done|done| |by rewrite Hh, Hh'|by right]. rewrite Hpc. by apply search_starts.
  - apply step_alloc; [done..| |by rewrite Hh, Hh'|by left|rewrite Hh; set_solver].
    rewrite Hpc. apply search_starts; [|done].
    apply (list_ok_extends _ (sl_heap s)); [done|]. by apply (extends_new (sl_head s) _ L).
Qed.

Lemma get_call_good key s L t : list_ok (sl_head s) (sl_heap s) L -> quiet t = true -> 0 <= key ->
  (1 <= sl_max_height s <= kMaxHeight)%nat ->
  step_ok (sl_head s) t (sl_heap s) L (Get_call key s t) (sl_heap s) L.
Proof.
  intros Hl Hq Hk Hmax. destruct (quiet_held t Hq) as [Hh Ho].
  apply step_same; [done|rewrite Hh; set_solver| |by rewrite Hh|by right].
  cbn. rewrite ord_hd. split_and!; [done..|lia|by left|lia].
Qed.

Lemma inv_held_lock s L j t : inv s L -> y_thr s !! j = Some t ->
  forall a n, sl_heap (y_list s) !! a = Some n -> a ∈ held t -> nd_lock n <> 0.
Proof. intros Hinv Hj a n Hn Ha. apply (inv_lock _ _ Hinv a n Hn). eauto. Qed.

(** How a step changes the levels. *)
Definition grows (s : sys) (L L' : levels) : Prop :=
  L' = L \/ exists j t i x, y_thr s !! j = Some t /\ t_pc t = IPublish i x /\ L' = add_to i x L.

Lemma step_inv s s' L : step s s' -> inv s L ->
  exists L', inv s' L' /\ grows s L L' /\ sl_head (y_list s') = sl_head (y_list s) /\
    exists t, changes (sl_head (y_list s)) t (sl_heap (y_list s)) L (sl_heap (y_list s')) L'.
Proof.
  intros Hst Hinv. pose proof (inv_list _ _ Hinv) as Hl.
  destruct Hst as [j t key a m junk l' t' Hj Hq Hk Hfr Hz Hj1 Hj2 E|j t key Hj Hq Hk|j t a m l' t' Hj Hfr Hz E].
  - destruct (insert_call_good a m key junk (y_list s) L t) as (E1 & E2 & Hso); try done; [lia|].
    rewrite E in *. cbn in *. exists L. split_and!; [by apply (inv_step_ok s L L j t)|by left|done|].
    exists t. apply (so_changes _ _ _ _ _ _ _ Hso).
  - assert (step_ok (sl_head (y_list s)) t (sl_heap (y_list s)) L (Get_call key (y_list s) t) (sl_heap (y_list s)) L)
      as Hso by (apply get_call_good; [done..|lia|apply (inv_max _ _ Hinv)]).
    exists L. split_and!; [by apply (inv_step_ok s L L j t)|by left|done|].
    exists t. apply (so_changes _ _ _ _ _ _ _ Hso).
  - destruct (thread_step_good (y_list s) L t Hl (inv_held_lock s L j t Hinv Hj) a m
      (inv_thr _ _ Hinv j t Hj) (head_not_null _ _ _ Hl) Hfr Hz)
      as (l2 & t2 & L' & E2 & Ehd & Emax & Hso & Hg & _).
    rewrite E in E2. injection E2 as <- <-. exists L'. split_and!.
    + by apply (inv_step_ok s L L' j t).
    + destruct Hg as [->|(i & x & Hpc & ->)]; [by left|right]. by exists j, t, i, x.
    + done.
    + exists t. apply (so_changes _ _ _ _ _ _ _ Hso).
Qed.

Lemma list_ok_new a m : a <> NULL ->
  list_ok a (sl_heap (MemStoreSkipList_new a m)) (fun _ => ∅).
Proof.
  intros Ha. split; cbn.
  - eexists. rewrite lookup_singleton_eq. split; [done|]. cbn. done.
  - set_solver.
  - by rewrite lookup_singleton_ne.
  - set_solver.
  - set_solver.
  - set_solver.
  - intros i b Hi [->|?]; [|set_solver]. exists NULL. unfold nxt. rewrite lookup_singleton_eq. cbn.
    split; [by apply (lookup_replicate_2 kMaxHeight)|]. unfold is_next. rewrite decide_True by done. set_solver.
Qed.

Lemma inv_start a m n : a <> NULL -> raw_lock m = 0 -> inv (start a m n) (fun _ => ∅).
Proof.
  intros Ha Hz.
  assert (forall j t, y_thr (start a m n) !! j = Some t -> t_pc t = Idle) as Hidle.
  { intros j t [-> _]%lookup_replicate. done. }
  split; cbn.
  - by apply list_ok_new.
  - unfold kMaxHeight. lia.
  - intros j t Hj. rewrite (Hidle j t Hj). done.
  - intros j k t u x Hj _. unfold own. by rewrite (Hidle j t Hj).
  - intros j k t u x Hj _. unfold held. rewrite (Hidle j t Hj). set_solver.
  - intros b nb Hb. split.
    + apply lookup_singleton_Some in Hb as [<- <-]. cbn. done.
    + intros (j & t & Hj & Hb'). unfold held in Hb'. rewrite (Hidle j t Hj) in Hb'. set_solver.
Qed.

Lemma reachable_inv s : reachable s -> exists L, inv s L.
Proof.
  induction 1 as [a m n Ha Hz|s s' _ [L IH] Hst]; [eexists; by apply inv_start|].
  destruct (step_inv s s' L Hst IH) as (L' & ? & _). eauto.
Qed.
