(* ===== verification/SkipListTable.v ===== *)
(** * The skip list as a table

    What the calls of [MemStoreSkipList] (memstore/memstore_skiplist.cc)
    compute: [PrintStore] lists the table in key order, concurrent insertions
    take effect one after the other, a thread that waits for a lock waits for
    one that moves, and a call that runs alone returns. *)

From stdpp Require Import sorting.
From S2P Require Import Prelude Random MemStore SkipList SkipListInv SkipListSpec.

(** The records of the table by key, as [PrintStore] lists them. *)
Definition table (s : skiplist) : gmap Z addr :=
  match PrintStore s with Ok l => list_to_map l | Fault _ => ∅ end.

(** ** Walking a level *)

Section walk.
Context (hd : addr) (h : heap) (L : levels) (Hl : list_ok hd h L).

Lemma above_bound a : (above hd h L a < size h)%nat.
Proof.
  destruct (lk_hd _ _ _ Hl) as (n & Hn & _).
  assert (L 0%nat ⊆ dom h ∖ {[hd]}) as Hsub.
  { intros c Hc. destruct (lk_node _ _ _ Hl 0 c Hc) as (nc & Hnc & _).
    rewrite elem_of_difference, elem_of_singleton. split; [by apply elem_of_dom_2 in Hnc|].
    intros ->. by apply (lk_hd_out _ _ _ Hl 0). }
  assert (above hd h L a <= size (dom h ∖ {[hd]}))%nat as Hle.
  { unfold above. apply subseteq_size. intros c [_ Hc]%elem_of_filter. by apply Hsub. }
  rewrite size_difference in Hle by (apply singleton_subseteq_l; by apply elem_of_dom_2 in Hn).
  rewrite size_dom, size_singleton in Hle.
  assert (size h <> 0%nat) by (intros ->%map_size_empty_inv; done). lia.
Qed.

Lemma PrintStore_loop_spec fuel cur : on_level hd L 0 cur -> (above hd h L cur < fuel)%nat ->
  exists l, PrintStore_loop fuel h cur = Ok l /\ StronglySorted Z.lt l.*1 /\
    forall k a, (k, a) ∈ l <-> a ∈ L 0%nat /\ ord hd h cur < ord hd h a /\ ord hd h a = k.
Proof.
  revert cur. induction fuel as [|fuel IH]; intros cur Hc Hf; [lia|]. cbn [PrintStore_loop].
  destruct (lk_next _ _ _ Hl 0 cur) as (b & Hb & Hnb); [unfold kMaxHeight; lia|done|].
  rewrite (next_at_Ok _ _ _ _ Hb). cbn [mbind result_bind]. unfold is_next in Hnb.
  destruct (Z.eqb_spec b NULL) as [->|Hb0].
  - rewrite decide_True in Hnb by done. exists []. split_and!; [done|constructor|].
    intros k a. split; [set_solver|]. intros (Ha & Hlt & _). specialize (Hnb a Ha). lia.
  - rewrite decide_False in Hnb by done. destruct Hnb as (HbL & Hlt & Hmin).
    destruct (ord_level hd h L 0 b Hl HbL) as (n & Hn & Ho & _). unfold node. rewrite Hn.
    destruct (IH b) as (l & -> & Hs & Hin); [by right|pose proof (above_lt hd h L cur b HbL Hlt); lia|].
    exists ((nd_key n, b) :: l). split_and!; [done| |].
    + cbn. constructor; [done|]. apply Forall_forall. intros k ((k' & a) & -> & Ha%Hin)%list_elem_of_fmap.
      cbn. lia.
    + intros k a. rewrite elem_of_cons, Hin. split.
      * intros [[= -> ->]|(Ha & Hlt' & <-)]; [done|]. split_and!; [done|lia|done].
      * intros (Ha & Hlt' & <-). destruct (decide (a = b)) as [->|Hne]; [left; congruence|right].
        split_and!; [done| |done]. specialize (Hmin a Ha Hlt').
        assert (ord hd h b <> ord hd h a) by (intros E; by apply Hne, (lk_inj _ _ _ Hl)). lia.
Qed.
End walk.

Lemma PrintStore_spec s L : list_ok (sl_head s) (sl_heap s) L ->
  exists l, PrintStore s = Ok l /\ StronglySorted Z.lt l.*1 /\
    forall k a, (k, a) ∈ l <-> a ∈ L 0%nat /\ ord (sl_head s) (sl_heap s) a = k.
Proof.
  intros Hl. destruct (PrintStore_loop_spec _ _ L Hl (search_fuel (sl_heap s)) (sl_head s))
    as (l & E & Hs & Hin).
  - by left.
  - pose proof (above_bound _ _ L Hl (sl_head s)). unfold search_fuel. lia.
  - exists l. split_and!; [done..|]. intros k a. rewrite Hin, ord_hd. split; [naive_solver|].
    intros (Ha & <-). destruct (ord_level _ _ L 0 a Hl Ha) as (n & _ & ? & ?). split_and!; [done|lia|done].
Qed.

Lemma sorted_NoDup (l : list Z) : StronglySorted Z.lt l -> NoDup l.
Proof.
  induction 1 as [|x l _ IH Hx]; constructor; [|done].
  intros Hin. rewrite Forall_forall in Hx. specialize (Hx x Hin). lia.
Qed.

Lemma table_spec s L k a : list_ok (sl_head s) (sl_heap s) L ->
  table s !! k = Some a <-> a ∈ L 0%nat /\ ord (sl_head s) (sl_heap s) a = k.
Proof.
  intros Hl. destruct (PrintStore_spec s L Hl) as (l & E & Hs & Hin). unfold table. rewrite E.
  rewrite <- Hin, <- elem_of_list_to_map; [done|]. by apply sorted_NoDup.
Qed.

Lemma table_none s L k : list_ok (sl_head s) (sl_heap s) L ->
  (forall a, a ∈ L 0%nat -> ord (sl_head s) (sl_heap s) a <> k) -> table s !! k = None.
Proof.
  intros Hl Hk. destruct (table s !! k) as [a|] eqn:E; [|done].
  apply (table_spec s L) in E as [Ha Ho]; [|done]. by destruct (Hk a Ha).
Qed.

Lemma table_ext s s' L L' : list_ok (sl_head s) (sl_heap s) L -> list_ok (sl_head s') (sl_heap s') L' ->
  (forall k a, a ∈ L' 0%nat /\ ord (sl_head s') (sl_heap s') a = k <->
     a ∈ L 0%nat /\ ord (sl_head s) (sl_heap s) a = k) ->
  table s' = table s.
Proof.
  intros Hl Hl' Hext. apply map_eq. intros k. apply option_eq. intros a.
  rewrite (table_spec s' L'), (table_spec s L) by done. apply Hext.
Qed.

(** ** Concurrent runs *)

(** A publication on the lowest level adds the key; nothing else changes the
    table. *)
Lemma step_table s s' L : step s s' -> inv s L ->
  table (y_list s') = table (y_list s) \/
  exists j t x, y_thr s !! j = Some t /\ t_pc t = IPublish 0 x /\
    table (y_list s) !! lo_key (t_lo t) = None /\
    table (y_list s') = <[lo_key (t_lo t) := x]> (table (y_list s)).
Proof.
  intros Hst Hinv. destruct (step_inv s s' L Hst Hinv) as (L' & Hinv' & Hg & Hhd & t0 & Hc).
  pose proof (inv_list _ _ Hinv) as Hl. pose proof (inv_list _ _ Hinv') as Hl'.
  assert (forall a, a ∈ L 0%nat -> ord (sl_head (y_list s')) (sl_heap (y_list s')) a =
    ord (sl_head (y_list s)) (sl_heap (y_list s)) a) as Hord.
  { intros a Ha. rewrite Hhd. apply (ord_on_level _ _ L _ L' t0 Hl Hc 0); [unfold kMaxHeight; lia|by right]. }
  destruct Hg as [->|(j & t & i & x & Hj & Hpc & ->)].
  { left. apply (table_ext _ _ L L); [done..|]. intros k a. split; intros [Ha <-]; rewrite Hord; done. }
  destruct i as [|i].
  2: { left. apply (table_ext _ _ L (add_to (S i) x L)); [done..|]. intros k a.
       rewrite elem_of_add_to. split.
       - intros [[Ha|[? _]] <-]; [|done]. by rewrite Hord.
       - intros [Ha <-]. rewrite Hord; auto. }
  pose proof (inv_thr _ _ Hinv j t Hj) as Hok. rewrite Hpc in Hok.
  destruct Hok as (Ha & Hm & _ & _ & (Hx & (n & Hn & Hk & Hlen) & Hlev) & _).
  assert (x ∉ L 0%nat) as HxL by (rewrite Hlev; lia).
  assert (ord (sl_head (y_list s')) (sl_heap (y_list s')) x = lo_key (t_lo t)) as Hox.
  { rewrite Hhd, (ord_stable _ _ L _ _ t0 Hc x n Hn). by rewrite (ord_node _ _ x n). }
  assert (table (y_list s) !! lo_key (t_lo t) = None) as Hnone.
  { apply (table_none _ L); [done|]. intros a HaL E. assert (a = x) as ->; [|done].
    apply (lk_inj _ _ _ Hl'); [apply elem_of_add_to; auto..|]. by rewrite Hord, Hox. }
  right. exists j, t, x. split_and!; [done..|]. apply map_eq. intros k. apply option_eq. intros a.
  rewrite (table_spec _ (add_to 0 x L)) by done. rewrite elem_of_add_to.
  destruct (decide (k = lo_key (t_lo t))) as [->|Hne].
  - rewrite lookup_insert_eq. split.
    + intros [[HaL|[_ ->]] E]; [|done]. rewrite Hord in E by done.
      assert (table (y_list s) !! lo_key (t_lo t) = Some a) as E' by (by apply (table_spec _ L)).
      congruence.
    + intros [= <-]. auto.
  - rewrite lookup_insert_ne, (table_spec _ L) by done. split.
    + intros [[HaL|[_ ->]] E]; [|congruence]. rewrite Hord in E; done.
    + intros [HaL E]. rewrite Hord; auto.
Qed.

Lemma GFind_done s L t lv x s' t' r : list_ok (sl_head s) (sl_heap s) L ->
  pc_ok (sl_head s) (sl_heap s) L (t_lo t) (GFind lv x) ->
  GFind_step s lv x t = Ok (s', t') -> t_pc t' = Done r -> r = default NULL (table s !! lo_key (t_lo t)).
Proof.
  intros Hl (Hk0 & _ & Hlv & Hx & Hk). unfold GFind_step.
  destruct (look_cases s L Hl (lo_key (t_lo t)) x lv Hlv Hx)
    as (next & _ & Hnx & [(-> & _)|(-> & Hn)]); cbn [mbind result_bind]; [by intros [= <- <-]|].
  destruct lv as [|lv]; [|by intros [= <- <-]].
  assert (forall a, a ∈ L 0%nat -> ord (sl_head s) (sl_heap s) x < ord (sl_head s) (sl_heap s) a ->
    next <> NULL /\ ord (sl_head s) (sl_heap s) next <= ord (sl_head s) (sl_heap s) a) as Hmin.
  { intros a Ha Hlt. unfold is_next in Hnx. case_decide; [specialize (Hnx a Ha); lia|].
    destruct Hnx as (_ & _ & Hmin). auto. }
  destruct Hn as [->|(Hn0 & HnL & Hle)].
  { intros [= <- <-] [= <-]. rewrite (table_none s L); [done..|]. intros a Ha E.
    destruct (Hmin a Ha); [lia|done]. }
  rewrite (proj2 (Z.eqb_neq _ _)) by done. unfold node.
  destruct (ord_level _ _ L 0 next Hl HnL) as (n & -> & Eo & _). intros [= <- <-] [= <-].
  destruct (Z.eqb_spec (lo_key (t_lo t)) (nd_key n)) as [E|E].
  - assert (table s !! lo_key (t_lo t) = Some next) as -> by (apply (table_spec s L); [done|split; [done|lia]]).
    done.
  - rewrite (table_none s L); [done..|]. intros a Ha E'. destruct (Hmin a Ha); lia.
Qed.

(** ** Waiting *)

Lemma held_not_quiet t a : a ∈ held t -> quiet t = false.
Proof. unfold held, quiet. destruct (t_pc t); set_solver. Qed.

(** A thread that waits for a lock waits, in the end, for one that can move:
    the locks are taken in descending order of the keys. *)
Lemma some_thread_moves s L : inv s L -> forall k j t, y_thr s !! j = Some t -> quiet t = false ->
  (spins (sl_heap (y_list s)) t = true -> exists i pp, t_pc t = ILock i pp /\
     (Z.to_nat (ord (sl_head (y_list s)) (sl_heap (y_list s)) (P (t_lo t) i) + 1) < k)%nat) ->
  exists j' u, y_thr s !! j' = Some u /\ quiet u = false /\ spins (sl_heap (y_list s)) u = false.
Proof.
  intros Hinv. pose proof (inv_list _ _ Hinv) as Hl. induction k as [|k IH]; intros j t Hj Hq Hw.
  { destruct (spins _ t) eqn:Hs; [|eauto]. destruct (Hw eq_refl) as (? & ? & _ & ?). lia. }
  destruct (spins _ t) eqn:Hs; [|eauto]. destruct (Hw eq_refl) as (i & pp & Hpc & Hlt).
  unfold spins in Hs. rewrite Hpc in Hs. apply andb_true_iff in Hs as [Hs Hn].
  destruct (sl_heap (y_list s) !! P (t_lo t) i) as [n|] eqn:En; [|done].
  apply negb_true_iff, Z.eqb_neq in Hn.
  apply (inv_lock _ _ Hinv _ _ En) in Hn as (j' & u & Hu & Hheld).
  apply (IH j' u Hu); [by eapply held_not_quiet|]. intros Hsu.
  unfold spins in Hsu. destruct (t_pc u) as [| |i2 pp2| | | | | | | | |] eqn:Hpcu; try done.
  exists i2, pp2. split; [done|].
  pose proof (inv_thr _ _ Hinv j' u Hu) as Hok. rewrite Hpcu in Hok.
  destruct Hok as (Ha & Hm & Hi2 & _ & -> & _).
  apply andb_true_iff in Hsu as [[Hlt2%Nat.ltb_lt Hne%negb_true_iff%Z.eqb_neq]%andb_true_iff _].
  assert (i2 < kMaxHeight)%nat as Hi16 by (destruct Ha; lia).
  destruct (taken_next _ _ _ _ i2 Hl Ha Hm Hi16) as [[? _]|(_ & Hout & _)]; [done|].
  unfold held in Hheld. rewrite Hpcu in Hheld.
  pose proof Hheld as (j2 & Hj2 & HP)%elem_of_taken.
  assert (P (t_lo u) j2 = P (t_lo t) i) as E by (unfold P at 1; by rewrite HP).
  destruct Hm as [Hm Hd]. pose proof (Hd j2 i2 ltac:(lia) ltac:(lia)) as Hle. rewrite E in Hle.
  assert (ord (sl_head (y_list s)) (sl_heap (y_list s)) (P (t_lo u) i2) <>
          ord (sl_head (y_list s)) (sl_heap (y_list s)) (P (t_lo t) i)) as Hneq.
  { intros Eo. apply Hout. replace (P (t_lo u) i2) with (P (t_lo t) i); [done|].
    destruct (Hm j2 ltac:(lia)) as [(Hp1 & _) _]. destruct (Hm i2 Hi16) as [(Hp2 & _) _].
    symmetry. apply (ord_inj _ _ L 0 _ _ Hl); [| |done].
    - by apply (on_level_mono _ _ _ 0 i2 _ Hl); [lia|].
    - rewrite <- E. by apply (on_level_mono _ _ _ 0 j2 _ Hl); [lia|]. }
  assert (-1 <= ord (sl_head (y_list s)) (sl_heap (y_list s)) (P (t_lo u) i2)); [|lia].
  destruct (Hm i2 Hi16) as [([->|Hp2] & _) _]; [by rewrite ord_hd|].
  destruct (ord_level _ _ L i2 _ Hl Hp2) as (? & _ & -> & ?). lia.
Qed.

(** ** Schedules

    Executable runs: calls and steps of the threads, in the order given. *)

Inductive event := CallInsert (j : nat) (key : Z) | CallGet (j : nat) (key : Z) | Run (j n : nat).

Definition new_addr (s : skiplist) : addr := base.fresh ({[NULL]} ∪ dom (sl_heap s)).

Lemma new_addr_fresh s : fresh (new_addr s) s.
Proof.
  pose proof (is_fresh ({[NULL]} ∪ dom (sl_heap s))) as Hf. unfold fresh, new_addr.
  rewrite not_elem_of_union, elem_of_singleton in Hf. destruct Hf as [? Hd].
  split; [done|]. by apply not_elem_of_dom.
Qed.

Definition junk0 : list addr * list addr := (replicate kMaxHeight NULL, replicate kMaxHeight NULL).

Definition run1 (s : sys) (j : nat) : sys :=
  match y_thr s !! j with
  | Some t =>
      match thread_step (new_addr (y_list s)) zeroed (y_list s) t with
      | Ok (l, t) => mkSys l (<[j := t]> (y_thr s))
      | Fault _ => s
      end
  | None => s
  end.

Definition exec1 (s : sys) (e : event) : sys :=
  match e with
  | CallInsert j key =>
      match y_thr s !! j with
      | Some t =>
          if quiet t && (0 <=? key) && (key <? 2 ^ 64) then
            let r := GetWithInsert_call (new_addr (y_list s)) zeroed key junk0 (y_list s) t in
            mkSys r.1 (<[j := r.2]> (y_thr s))
          else s
      | None => s
      end
  | CallGet j key =>
      match y_thr s !! j with
      | Some t =>
          if quiet t && (0 <=? key) && (key <? 2 ^ 64) then
            mkSys (y_list s) (<[j := Get_call key (y_list s) t]> (y_thr s))
          else s
      | None => s
      end
  | Run j n => Nat.iter n (fun s => run1 s j) s
  end.

Definition exec (s : sys) (es : list event) : sys := fold_left exec1 es s.

(** Thread [j] exists and its next access does not fault. *)
Definition runnable (s : sys) (j : nat) : bool :=
  match y_thr s !! j with
  | Some t =>
      match thread_step (new_addr (y_list s)) zeroed (y_list s) t with Ok _ => true | Fault _ => false end
  | None => false
  end.

Lemma run1_step s j : runnable s j = true -> step s (run1 s j).
Proof.
  unfold runnable, run1. destruct (y_thr s !! j) as [t|] eqn:Hj; [|done].
  destruct (thread_step (new_addr (y_list s)) zeroed (y_list s) t) as [[l t']|f] eqn:E; [|done].
  intros _. by apply (step_run s j t (new_addr (y_list s)) zeroed); [|apply new_addr_fresh| |].
Qed.

Lemma run1_reachable s j : reachable s -> reachable (run1 s j).
Proof.
  intros Hr. destruct (runnable s j) eqn:E; [by eapply reach_step, run1_step|].
  unfold runnable in E. unfold run1. destruct (y_thr s !! j) as [t|]; [|done].
  by destruct (thread_step _ _ _ t).
Qed.

Lemma exec1_reachable s e : reachable s -> reachable (exec1 s e).
Proof.
  intros Hr. destruct e as [j key|j key|j n]; cbn [exec1].
  - destruct (y_thr s !! j) as [t|] eqn:Hj; [|done]. case_match eqn:E; [|done].
    apply andb_true_iff in E as [[Hq Hk%Z.leb_le]%andb_true_iff Hk'%Z.ltb_lt].
    eapply reach_step; [done|].
    eapply step_insert with (m := zeroed) (junk := junk0);
      [done..|by split|apply new_addr_fresh|done|done|done|apply surjective_pairing].
  - destruct (y_thr s !! j) as [t|] eqn:Hj; [|done]. case_match eqn:E; [|done].
    apply andb_true_iff in E as [[Hq Hk%Z.leb_le]%andb_true_iff Hk'%Z.ltb_lt].
    eapply reach_step; [done|]. by apply step_get.
  - induction n as [|n IH]; [done|]. cbn [Nat.iter nat_rect]. by apply run1_reachable.
Qed.

Lemma exec_reachable s es : reachable s -> reachable (exec s es).
Proof. revert s. induction es as [|e es IH]; intros s Hr; [done|]. by apply IH, exec1_reachable. Qed.

Definition empty2 : sys := start 1000 zeroed 2.

Lemma empty2_reachable : reachable empty2.
Proof. by apply reach_start. Qed.

(** ** Calls that run alone *)

(** A step leaves the records and the arguments of the call as they are; the
    records of new nodes are as [NewNode] makes them. *)
Definition new_record (v : MemNode) : Prop :=
  mn_seq v = 0 /\ mn_counter v = 0 /\ mn_value v = NULL /\ mn_oldVersions v = NULL.

Definition records_kept (h h' : heap) : Prop :=
  (forall a n, h !! a = Some n -> exists n', h' !! a = Some n' /\ nd_memVal n' = nd_memVal n) /\
  (forall a n', h' !! a = Some n' -> h !! a = None -> new_record (nd_memVal n')).

Lemma records_kept_refl h : records_kept h h.
Proof. split; [eauto|]. intros a n' ? ?. congruence. Qed.

Lemma records_kept_trans h1 h2 h3 : records_kept h1 h2 -> records_kept h2 h3 -> records_kept h1 h3.
Proof.
  intros [A1 B1] [A2 B2]. split.
  - intros a n Hn. destruct (A1 a n Hn) as (n2 & Hn2 & E2). destruct (A2 a n2 Hn2) as (n3 & ? & ?).
    exists n3. split; [done|congruence].
  - intros a n3 Hn3 Hnone. destruct (h2 !! a) as [n2|] eqn:E; [|by apply (B2 a)].
    destruct (A2 a n2 E) as (n' & ? & Hm). simplify_eq. rewrite Hm. by apply (B1 a).
Qed.

Lemma records_kept_same (h : heap) a n n' : h !! a = Some n -> nd_memVal n' = nd_memVal n ->
  records_kept h (<[a := n']> h).
Proof.
  intros Hn Hm. split.
  - intros b nb Hb. destruct (decide (b = a)) as [->|]; [|rewrite lookup_insert_ne by done; eauto].
    rewrite lookup_insert_eq. simplify_eq. eauto.
  - intros b nb Hb Hnone. destruct (decide (b = a)) as [->|]; [congruence|].
    rewrite lookup_insert_ne in Hb by done. congruence.
Qed.

Lemma records_kept_new (h : heap) a key height m : h !! a = None ->
  records_kept h (<[a := NewNode key height m]> h).
Proof.
  intros Hn. split.
  - intros b nb Hb. rewrite lookup_insert_ne by (intros ->; congruence). eauto.
  - intros b nb Hb Hnone. destruct (decide (b = a)) as [->|].
    + rewrite lookup_insert_eq in Hb. by simplify_eq.
    + rewrite lookup_insert_ne in Hb by done. congruence.
Qed.

#[export] Hint Resolve records_kept_refl records_kept_same records_kept_new : euno.

Definition same_call (t t' : thread) : Prop :=
  lo_key (t_lo t') = lo_key (t_lo t) /\ lo_height (t_lo t') = lo_height (t_lo t).

Lemma thread_step_frame a m s t s' t' : fresh a s -> thread_step a m s t = Ok (s', t') ->
  records_kept (sl_heap s) (sl_heap s') /\ same_call t t'.
Proof.
  intros [_ Hfr]. unfold thread_step, IFind_step, ILock_step, ICheck_step, IRetry_step, ILink_step,
    IPublish_step, IUnlock_step, IReturn_step, GFind_step, found, pred_at, succ_at, Trylock, Unlock,
    set_next, node.
  intros E; repeat (case_match || inv_ok); simplify_eq; cbn; split; eauto with euno; done.
Qed.
Lemma thread_step_not_idle a m s t s' t' : thread_step a m s t = Ok (s', t') ->
  t_pc t <> Idle -> t_pc t' <> Idle.
Proof.
  unfold thread_step, IFind_step, ILock_step, ICheck_step, IRetry_step, ILink_step,
    IPublish_step, IUnlock_step, IReturn_step, GFind_step, found.
  intros E Hni; repeat (case_match || inv_ok); simplify_eq; cbn; congruence.
Qed.

Section undisturbed.
Context (alloc : allocator).
Context (Halloc : forall s, fresh (alloc s).1 s /\ raw_lock (alloc s).2 = 0).
Context (j : nat) (h0 : heap) (T0 : gmap Z addr) (key : Z).

(** The state during a call of thread [j] that began in heap [h0] with table
    [T0]; no other thread is inside a call. *)
Record in_call (s : sys) (L : levels) (t : thread) : Prop := {
  ic_inv : inv s L;
  ic_quiet k u : k <> j -> y_thr s !! k = Some u -> quiet u = true;
  ic_thr : y_thr s !! j = Some t;
  ic_key : lo_key (t_lo t) = key;
  ic_alone : alone (sl_heap (y_list s)) t;
  ic_kept : records_kept h0 (sl_heap (y_list s));
  ic_own x : own t = Some x -> h0 !! x = None;
  ic_table : table (y_list s) = T0 \/
    T0 !! key = None /\ exists y, h0 !! y = None /\ table (y_list s) = <[key := y]> T0
}.

Lemma in_call_not_spinning s L t : in_call s L t -> spins (sl_heap (y_list s)) t = false.
Proof.
  intros [Hinv Hq Hj _ _ _ _ _]. destruct (spins _ t) eqn:Hs; [|done]. exfalso.
  unfold spins in Hs. destruct (t_pc t) as [| |i pp| | | | | | | | |] eqn:Hpc; try done.
  apply andb_true_iff in Hs as [[Hi%Nat.ltb_lt Hp%negb_true_iff%Z.eqb_neq]%andb_true_iff Hn].
  destruct (sl_heap (y_list s) !! P (t_lo t) i) as [n|] eqn:En; [|done].
  apply negb_true_iff, Z.eqb_neq in Hn. apply (inv_lock _ _ Hinv _ _ En) in Hn as (k & u & Hk & Hheld).
  destruct (decide (k = j)) as [->|Hne].
  - simplify_eq. pose proof (inv_thr _ _ Hinv j _ Hj) as Hok. rewrite Hpc in Hok.
    destruct Hok as (Ha & Hm & _ & _ & -> & _).
    destruct (taken_next _ _ _ _ i (inv_list _ _ Hinv) Ha Hm) as [[? _]|(_ & Hout & _)];
      [destruct Ha; lia|done|]. unfold held in Hheld. by rewrite Hpc in Hheld.
  - apply held_not_quiet in Hheld. by rewrite (Hq k u Hne Hk) in Hheld.
Qed.

Lemma in_call_step s L t : in_call s L t -> quiet t = false ->
  exists l' t' L', thread_step (alloc (y_list s)).1 (alloc (y_list s)).2 (y_list s) t = Ok (l', t') /\
    step s (mkSys l' (<[j := t']> (y_thr s))) /\ in_call (mkSys l' (<[j := t']> (y_thr s))) L' t' /\
    same_call t t' /\ t_pc t' <> t_pc t /\
    (accesses (sl_head l') (sl_heap l') L' t' < accesses (sl_head (y_list s)) (sl_heap (y_list s)) L t)%nat.
Proof.
  intros Hc Hnq. pose proof (in_call_not_spinning s L t Hc) as Hns.
  destruct Hc as [Hinv Hq Hj Hkey Hal Hkept Hown Htab]. pose proof (inv_list _ _ Hinv) as Hl.
  destruct (Halloc (y_list s)) as [Hfr Hz].
  destruct (thread_step_good (y_list s) L t Hl (inv_held_lock s L j t Hinv Hj) _ _
    (inv_thr _ _ Hinv j t Hj) (head_not_null _ _ _ Hl) Hfr Hz)
    as (l' & t' & L' & E & Ehd & Emax & Hso & _ & [?|[?|[Hpc Hmoved]]]); [congruence..|].
  destruct (Hmoved Hal) as [Hal' Hacc]. destruct (thread_step_frame _ _ _ _ _ _ Hfr E) as [Hkept' Hsame].
  assert (step s (mkSys l' (<[j := t']> (y_thr s)))) as Hst by (by eapply step_run).
  exists l', t', L'. rewrite Ehd. split_and!; try done; [|apply Hsame..]. split; cbn.
  - by apply (inv_step_ok s L L' j t).
  - intros k u Hne. rewrite list_lookup_insert_ne by done. by apply Hq.
  - apply list_lookup_insert_eq. by eapply lookup_lt_Some.
  - destruct Hsame as [-> _]. done.
  - done.
  - by eapply records_kept_trans.
  - intros x Hx. destruct (so_own _ _ _ _ _ _ _ Hso x Hx) as [?|Hnone]; [auto|].
    destruct (h0 !! x) as [n0|] eqn:E0; [|done]. destruct Hkept as [Hk _].
    destruct (Hk x n0 E0) as (? & ? & _). congruence.
  - destruct (step_table s _ L Hst Hinv) as [Et|(k & u & x & Hk & Hpcu & Hnone & Et)]; cbn in Et;
      rewrite Et; [done|].
    assert (k = j) as ->.
    { destruct (decide (k = j)); [done|]. assert (quiet u = true) as Hqu by (by apply (Hq k)).
      unfold quiet in Hqu. by rewrite Hpcu in Hqu. }
    simplify_eq. right. destruct Htab as [Htab|(_ & y & _ & Htab)]; rewrite Htab in *.
    + split; [done|]. exists x. split; [|done]. apply Hown. unfold own. by rewrite Hpcu.
    + by rewrite lookup_insert_eq in Hnone.
Qed.

(** The call returns. *)
Lemma finish_spec fuel s L t : in_call s L t -> t_pc t <> Idle ->
  (accesses (sl_head (y_list s)) (sl_heap (y_list s)) L t <= fuel)%nat ->
  exists l' t' L' x, finish alloc fuel (y_list s) t = Ok (l', t') /\ t_pc t' = Done x /\
    rtc step s (mkSys l' (<[j := t']> (y_thr s))) /\ in_call (mkSys l' (<[j := t']> (y_thr s))) L' t' /\
    same_call t t'.
Proof.
  revert s L t. induction fuel as [|fuel IH]; intros s L t Hc Hni Hf.
  all: destruct (returned t) as [x|] eqn:Hret; cbn [finish]; rewrite Hret.
  1, 3: unfold returned in Hret; destruct (t_pc t) eqn:Hpc; try done; injection Hret as ->;
    exists (y_list s), t, L, x; rewrite list_insert_id by apply (ic_thr _ _ _ Hc); destruct s;
    split_and!; [done..|by apply rtc_refl|done|done].
  all: assert (quiet t = false) as Hnq by (unfold quiet; unfold returned in Hret; by destruct (t_pc t)).
  all: destruct (in_call_step s L t Hc Hnq) as (l1 & t1 & L1 & E & Hst & Hc1 & [Hk1 Hh1] & Hpc1 & Hacc).
  1: lia.
  rewrite E. cbn [mbind result_bind].
  destruct (IH _ L1 t1 Hc1) as (l' & t' & L' & x & Ef & Hd & Hrtc & Hc' & [Hk' Hh']); cbn in *.
  { intros E1. pose proof (thread_step_not_idle _ _ _ _ _ _ E Hni). congruence. }
  { lia. }
  rewrite list_insert_insert_eq in Hrtc, Hc'.
  exists l', t', L', x. split_and!; [done..|by eapply rtc_l|done|split; congruence].
Qed.
End undisturbed.

Definition all_quiet (s : sys) : Prop := forall k u, y_thr s !! k = Some u -> quiet u = true.

Definition good_allocator (alloc : allocator) : Prop :=
  forall s, fresh (alloc s).1 s /\ raw_lock (alloc s).2 = 0.

Lemma insert_call_records a m key junk s t : fresh a s ->
  records_kept (sl_heap s) (sl_heap (GetWithInsert_call a m key junk s t).1).
Proof.
  intros [_ Hfr]. unfold GetWithInsert_call, ThreadLocalInit. destruct (tl_localinit (t_tls t)); cbn [negb].
  - destruct (RandomHeight _); cbn. apply records_kept_refl.
  - destruct (RandomHeight (Random_new _)) as [h1 r1]. cbn [tl_rnd].
    destruct (RandomHeight r1); cbn. by apply records_kept_new.
Qed.

(** The state after the call, before the first access. *)
Lemma insert_call_in_call alloc s L j t key junk :
  inv s L -> all_quiet s -> y_thr s !! j = Some t -> good_allocator alloc -> 0 <= key < 2 ^ 64 ->
  length junk.1 = kMaxHeight -> length junk.2 = kMaxHeight ->
  let r := GetWithInsert_call (alloc (y_list s)).1 (alloc (y_list s)).2 key junk (y_list s) t in
  let s1 := mkSys r.1 (<[j := r.2]> (y_thr s)) in
  step s s1 /\ in_call j (sl_heap (y_list s)) (table (y_list s)) key s1 L r.2.
Proof.
  intros Hinv Hq Hj Hal Hk Hj1 Hj2 r s1. pose proof (inv_list _ _ Hinv) as Hl.
  destruct (Hal (y_list s)) as [Hfr Hz].
  assert (step s s1) as Hst.
  { eapply (step_insert s j t key _ _ junk); try done; [by apply (Hq j)|apply surjective_pairing]. }
  destruct (insert_call_good (alloc (y_list s)).1 (alloc (y_list s)).2 key junk (y_list s) L t)
    as (E1 & E2 & Hso); try done; [by apply (Hq j)|lia|].
  destruct (insert_call_args (alloc (y_list s)).1 (alloc (y_list s)).2 key junk (y_list s) t)
    as (Hargs & Hpc & Hkey); try done; [lia|]. fold r in E1, E2, Hso, Hargs, Hpc, Hkey.
  split; [done|]. split; cbn.
  - by apply (inv_step_ok s L L j t).
  - intros k u Hne. rewrite list_lookup_insert_ne by done. apply Hq.
  - apply list_lookup_insert_eq. by eapply lookup_lt_Some.
  - done.
  - unfold alone. rewrite Hpc. intros i. unfold kMaxHeight. lia.
  - by apply insert_call_records.
  - unfold own. by rewrite Hpc.
  - destruct (step_table s s1 L Hst Hinv) as [E|(k & u & x & Hku & Hpcu & _)]; [by left|].
    specialize (Hq k u Hku). unfold quiet in Hq. by rewrite Hpcu in Hq.
Qed.

Lemma rtc_reachable s s' : reachable s -> rtc step s s' -> reachable s'.
Proof. intros Hr Hrtc. induction Hrtc as [|s1 s2 s3 Hst _ IH]; [done|]. apply IH. by eapply reach_step. Qed.

(** [GetWithInsert] (and [GetForRead], whose body is the same) returns when
    it is not disturbed, within [insert_fuel] accesses: it finds the record of
    the key and leaves the table unchanged, or it adds a record that was not in
    use and is initialised but for [gcRef]; the records of the table keep their
    contents. *)
Theorem GetWithInsert_returns s j t alloc key junk :
  reachable s -> all_quiet s -> y_thr s !! j = Some t -> good_allocator alloc -> 0 <= key < 2 ^ 64 ->
  length junk.1 = kMaxHeight -> length junk.2 = kMaxHeight ->
  exists x s' t', GetWithInsert alloc key junk (y_list s) (t_tls t) = Ok (x, s', t_tls t') /\
    reachable (mkSys s' (<[j := t']> (y_thr s))) /\ all_quiet (mkSys s' (<[j := t']> (y_thr s))) /\
    records_kept (sl_heap (y_list s)) (sl_heap s') /\
    match table (y_list s) !! key with
    | Some y => x = y /\ table s' = table (y_list s)
    | None => table s' = <[key := x]> (table (y_list s)) /\ sl_heap (y_list s) !! x = None /\
        exists n, sl_heap s' !! x = Some n /\ new_record (nd_memVal n)
    end.
Proof.
  intros Hr Hq Hj Hal Hk Hj1 Hj2. destruct (reachable_inv s Hr) as [L Hinv].
  destruct (insert_call_in_call alloc s L j t key junk) as [Hst Hc]; [done..|].
  destruct (insert_call_args (alloc (y_list s)).1 (alloc (y_list s)).2 key junk (y_list s) t)
    as (Hargs & Hpc & _); try done; [lia|].
  set (r := GetWithInsert_call _ _ _ _ _ _) in *.
  destruct (finish_spec alloc Hal j _ _ _ (insert_fuel r.1) _ L r.2 Hc)
    as (s' & t' & L' & x & Ef & Hd & Hrtc & Hc' & [_ Hh]); [by rewrite Hpc| |].
  { unfold accesses. rewrite Hpc. cbn.
    pose proof (above_bound _ _ L (inv_list _ _ (ic_inv _ _ _ _ _ _ _ Hc)) (sl_head (y_list s))) as Hab.
    unfold insert_fuel. cbn in Hab. lia. }
  cbn in *. rewrite list_insert_insert_eq in Hrtc, Hc'.
  exists x, s', t'. split_and!.
  - unfold GetWithInsert. destruct (alloc (y_list s)) as [a m].
    change (GetWithInsert_call a m key junk (y_list s) _) with r. destruct r as [s1 t1]. cbn in *.
    rewrite Ef. cbn. unfold returned. by rewrite Hd.
  - eapply rtc_reachable; [|done]. by eapply reach_step.
  - intros k u [[-> ->]|[Hne Hku]]%(insert_case _ _ _ _ _ _ Hj); [unfold quiet; by rewrite Hd|by apply (Hq k)].
  - apply (ic_kept _ _ _ _ _ _ _ Hc').
  - destruct Hc' as [Hinv' _ Hj' Hkey' _ [_ Hnew] _ Htab]. cbn in *.
    pose proof (inv_thr _ _ Hinv' j t' Hj') as Hok. rewrite Hd in Hok.
    destruct Hok as [[Hz _]|Hst']; [destruct Hargs as (_ & ? & _); lia|].
    assert (table s' !! key = Some x) as Hx.
    { apply (table_spec s' L'); [apply (inv_list _ _ Hinv')|]. rewrite <- Hkey'. exact Hst'. }
    destruct Htab as [E|(Hnone & y & Hy & E)]; rewrite E in Hx |- *.
    + by rewrite Hx.
    + rewrite lookup_insert_eq in Hx. injection Hx as ->. rewrite Hnone. split_and!; [done..|].
      destruct Hst' as [HxL _].
      destruct (lk_node _ _ _ (inv_list _ _ Hinv') 0 x HxL) as (n & Hn & _). eauto.
Qed.

Definition alloc0 : allocator := fun s => (new_addr s, zeroed).

Lemma GetWithInsert_returns_witness :
  exists x s' l', GetWithInsert alloc0 5 junk0 (y_list empty2) tls_new = Ok (x, s', l') /\
    table s' = {[5 := x]}.
Proof.
  destruct (GetWithInsert_returns empty2 0 (mkThread tls_new (mkLocals 0 0 [] [] (-1)) Idle) alloc0 5 junk0)
    as (x & s' & t' & E & _ & _ & _ & Htab).
  - exact empty2_reachable.
  - intros k u [-> _]%lookup_replicate. reflexivity.
  - reflexivity.
  - intros s. split; [apply new_addr_fresh|reflexivity].
  - lia.
  - reflexivity.
  - reflexivity.
  - exists x, s', (t_tls t'). split; [exact E|]. destruct Htab as [-> _]. reflexivity.
Defined.

(** ** Claims on concurrent runs *)

(** C23: In every state that concurrent calls of [GetWithInsert], [GetForRead]
    and [Get] reach, [PrintStore] ends without a fault and lists the keys in
    strictly increasing order, and no thread's next access faults: no null or
    dangling pointer is followed and no array is overrun. *)
Theorem skiplist_safe s : reachable s ->
  (exists l, PrintStore (y_list s) = Ok l /\ StronglySorted Z.lt l.*1) /\
  forall j t a m, y_thr s !! j = Some t -> fresh a (y_list s) -> raw_lock m = 0 ->
    exists s' t', thread_step a m (y_list s) t = Ok (s', t').
Proof.
  intros Hr. destruct (reachable_inv s Hr) as [L Hinv]. pose proof (inv_list _ _ Hinv) as Hl. split.
  - destruct (PrintStore_spec (y_list s) L Hl) as (l & ? & ? & _). eauto.
  - intros j t a m Hj Hfr Hz.
    destruct (thread_step_good (y_list s) L t Hl (inv_held_lock s L j t Hinv Hj) a m
      (inv_thr _ _ Hinv j t Hj) (head_not_null _ _ _ Hl) Hfr Hz) as (s' & t' & _ & -> & _). eauto.
Qed.

(** Two insertions of the same key, interleaved. *)
Definition race : list event := [CallInsert 0 5; CallInsert 1 5; Run 0 21].

Lemma skiplist_safe_witness :
  let s := exec empty2 [CallInsert 0 5; Run 0 40; CallInsert 0 9; CallInsert 1 7; Run 1 17; Run 0 60] in
  exists l, PrintStore (y_list s) = Ok l /\ l = [(5, 1002); (9, 1004)].
Proof.
  intros s. destruct (skiplist_safe s) as [(l & E & _) _]; [apply exec_reachable, empty2_reachable|].
  exists l. split; [exact E|]. assert (Ok l = Ok [(5, 1002); (9, 1004)]) as [= ->]; [|done].
  rewrite <- E. vm_compute. reflexivity.
Defined.

(** C6: Insertions are linearizable.  One access of a thread leaves the table as
    it is or, when a thread publishes its node on the lowest level, adds the
    key of that thread, which was absent; a finished [GetWithInsert] or
    [GetForRead] has returned the record the table holds for its key; [Get]
    returns what the table holds at the access that ends it. *)
Theorem insert_linearizable s s' : reachable s -> step s s' ->
  (table (y_list s') = table (y_list s) \/
   exists j t x, y_thr s !! j = Some t /\ t_pc t = IPublish 0 x /\
     table (y_list s) !! lo_key (t_lo t) = None /\
     table (y_list s') = <[lo_key (t_lo t) := x]> (table (y_list s))) /\
  (forall j t x, y_thr s' !! j = Some t -> t_pc t = Done x -> lo_height (t_lo t) <> 0%nat ->
     table (y_list s') !! lo_key (t_lo t) = Some x) /\
  (forall j t t' lv x r, y_thr s !! j = Some t -> t_pc t = GFind lv x ->
     y_thr s' !! j = Some t' -> t_pc t' = Done r ->
     r = default NULL (table (y_list s) !! lo_key (t_lo t))).
Proof.
  intros Hr Hst. destruct (reachable_inv s Hr) as [L Hinv].
  destruct (step_inv s s' L Hst Hinv) as (L' & Hinv' & _). split_and!.
  - by apply (step_table s s' L).
  - intros j t x Hj Hpc Hh. pose proof (inv_thr _ _ Hinv' j t Hj) as Hok. rewrite Hpc in Hok.
    destruct Hok as [[? _]|Hx]; [done|]. apply (table_spec _ L'); [apply (inv_list _ _ Hinv')|exact Hx].
  - intros j t t' lv x r Hj Hpc Hj' Hpc'. pose proof (inv_thr _ _ Hinv j t Hj) as Hok. rewrite Hpc in Hok.
    destruct Hst as [k u key a m junk l2 u2 Hk Hq|k u key Hk Hq|k u a m l2 u2 Hk _ _ E];
      apply (insert_case _ _ _ _ _ _ Hk) in Hj' as [[-> ->]|[Hne Hj']]; simplify_eq; try congruence.
    + unfold quiet in Hq. by rewrite Hpc in Hq.
    + unfold thread_step in E. rewrite Hpc in E. cbn.
      by apply (GFind_done (y_list s) L u lv x l2 u2 r (inv_list _ _ Hinv) Hok).
Qed.

Lemma insert_linearizable_witness :
  let s := exec empty2 race in let s' := run1 s 0 in
  table (y_list s') = <[5 := 1003]> (table (y_list s)) /\ step s s'.
Proof.
  intros s s'.
  assert (step s s') as Hst.
  { apply run1_step. vm_compute. reflexivity. }
  split; [|exact Hst].
  destruct (insert_linearizable s s') as ([E|(j & t & x & Hj & Hpc & _ & ->)] & _);
    [apply exec_reachable, empty2_reachable|exact Hst| |].
  - exfalso. apply (f_equal (fun m : gmap Z addr => m !! 5)) in E. by vm_compute in E.
  - destruct j as [|[|j]]; vm_compute in Hj; [| |done]; injection Hj as <-; vm_compute in Hpc; [|done].
    by injection Hpc as <-.
Defined.


(** A thread that spins stays where it is. *)
Lemma spins_stays a m s t s' t' : spins (sl_heap s) t = true -> thread_step a m s t = Ok (s', t') -> t' = t.
Proof.
  unfold spins, thread_step. destruct (t_pc t) as [| |i pp| | | | | | | | |]; try done.
  intros [[Hi Hp]%andb_true_iff Hn]%andb_true_iff. unfold ILock_step, pred_at, P in *. rewrite Hi.
  destruct (lo_preds (t_lo t) !! i) as [p|]; [|done]. cbn in *. rewrite Hp. unfold Trylock, node.
  destruct (sl_heap s !! p) as [n|]; [|done]. cbn. apply negb_true_iff in Hn. rewrite Hn. naive_solver.
Qed.

Definition spinning (s : sys) (j : nat) : bool :=
  match y_thr s !! j with Some t => spins (sl_heap (y_list s)) t | None => false end.

Lemma other_moves s : length (y_thr s) = 2%nat -> spinning s 1 = true ->
  (forall t, y_thr s !! 1%nat = Some t -> quiet t = false ->
     exists j' u, y_thr s !! j' = Some u /\ quiet u = false /\
       forall a m, fresh a (y_list s) -> raw_lock m = 0 ->
         exists s' u', thread_step a m (y_list s) u = Ok (s', u') /\ t_pc u' <> t_pc u) ->
  exists u, y_thr s !! 0%nat = Some u /\ quiet u = false.
Proof.
  intros Hlen Hs Hmove. unfold spinning in Hs. destruct (y_thr s !! 1%nat) as [t|] eqn:E; [|done].
  destruct (Hmove t eq_refl) as (j & u & Hu & Hq & Hm).
  { unfold quiet. unfold spins in Hs. by destruct (t_pc t). }
  destruct j as [|[|j]]; [eauto| |apply lookup_lt_Some in Hu; lia].
  destruct (Hm (new_addr (y_list s)) zeroed (new_addr_fresh _) eq_refl) as (s' & u' & E' & Hne).
  simplify_eq. apply (spins_stays _ _ _ _ _ _ Hs) in E'. by subst.
Qed.

(** Thread 1 spins on the lock of the head, which thread 0 holds. *)
Definition spin_state : sys :=
  exec empty2 [CallInsert 0 5; CallInsert 1 9; Run 1 16; Run 0 17; Run 1 3].

Lemma spin_state_facts :
  reachable spin_state /\ length (y_thr spin_state) = 2%nat /\ spinning spin_state 1 = true.
Proof. split; [apply exec_reachable, empty2_reachable|]. split; vm_compute; reflexivity. Qed.


(** ** Locks that are not initialised *)

Lemma spins_forever alloc fuel s t : spins (sl_heap s) t = true ->
  (forall i pp, t_pc t = ILock i pp -> is_Some (lo_preds (t_lo t) !! i)) ->
  finish alloc fuel s t = Fault OutOfFuel.
Proof.
  intros Hs Hsome. revert s Hs. induction fuel as [|fuel IH]; intros s Hs; cbn [finish];
    (replace (returned t) with (@None addr) by (unfold spins in Hs; unfold returned; by destruct (t_pc t))); [done|].
  pose proof Hs as Hs'. unfold spins in Hs'. unfold thread_step.
  destruct (t_pc t) as [| |i pp| | | | | | | | |] eqn:Hpc; try done.
  apply andb_true_iff in Hs' as [[Hi Hp]%andb_true_iff Hn]. unfold ILock_step, pred_at, P in *. rewrite Hi.
  destruct (Hsome i pp eq_refl) as [p HP]. rewrite HP in *. cbn in Hp, Hn |- *. rewrite Hp.
  unfold Trylock, node. destruct (sl_heap s !! p) as [n|]; [|done]. apply negb_true_iff in Hn. cbn. rewrite Hn.
  apply IH. unfold spins, P. cbn [set_heap sl_heap]. rewrite Hpc, Hi, HP. cbn [default from_option id]. by rewrite Hp, lookup_insert_eq.
Qed.

(** The search of an empty list ends before the locking loop, with the head as
    predecessor on all levels. *)
Lemma empty_search_hangs alloc fuel s t n level :
  sl_heap s !! sl_head s = Some n -> nd_next n = replicate kMaxHeight NULL -> nd_lock n <> 0 ->
  sl_head s <> NULL -> (level < kMaxHeight)%nat -> (1 <= lo_height (t_lo t))%nat ->
  length (lo_preds (t_lo t)) = kMaxHeight -> t_pc t = IFind level (sl_head s) ->
  finish alloc fuel s t = Fault OutOfFuel.
Proof.
  intros Hn Hx Hlk Hhd. revert fuel t. induction level as [|level IH]; intros fuel t Hlv Hh Hlen Hpc;
    (destruct fuel as [|fuel]; cbn [finish]; unfold returned; rewrite Hpc; [done|]);
    unfold thread_step, IFind_step, look, next_at, node; rewrite Hpc, Hn; cbn [from_opt mbind result_bind];
    rewrite Hx, lookup_replicate_2 by done; cbn [from_opt mbind result_bind].
  - apply spins_forever.
    2: { intros i pp [= <- <-]. cbn. apply lookup_lt_is_Some_2. rewrite length_insert. lia. }
    unfold spins, P. cbn [at_pc with_lo t_pc t_lo set_found lo_preds lo_height].
    rewrite (proj2 (Nat.ltb_lt _ _)) by lia. rewrite list_lookup_insert_eq by lia. cbn.
    by rewrite (proj2 (Z.eqb_neq _ _) Hhd), Hn, (proj2 (Z.eqb_neq _ _) Hlk).
  - apply IH; [lia|done| |done]. cbn. by rewrite length_insert.
Qed.

(** The constructor and [NewNode] allocate nodes with [malloc] and never
    initialise their [lock]: when the memory of the head holds a non-zero lock
    word, the first [GetWithInsert] never returns, however long it runs. *)
Lemma uninitialised_lock_hangs a m key junk alloc fuel :
  a <> NULL -> raw_lock m <> 0 -> (forall s, fresh (alloc s).1 s) ->
  length junk.1 = kMaxHeight -> length junk.2 = kMaxHeight -> 0 <= key ->
  let s := MemStoreSkipList_new a m in
  let r := GetWithInsert_call (alloc s).1 (alloc s).2 key junk s
    (mkThread tls_new (mkLocals 0 0 [] [] (-1)) Idle) in
  finish alloc fuel r.1 r.2 = Fault OutOfFuel.
Proof.
  intros Ha Hlk Hal Hj1 Hj2 Hk s r. destruct (Hal s) as [Hf0 Hf].
  destruct (insert_call_args (alloc s).1 (alloc s).2 key junk s (mkThread tls_new (mkLocals 0 0 [] [] (-1)) Idle))
    as ((_ & Hh & Hlen & _) & Hpc & _); [done..|]. fold r in Hh, Hlen, Hpc.
  assert (sl_head r.1 = a /\ exists n, sl_heap r.1 !! a = Some n /\ nd_next n = replicate kMaxHeight NULL /\ nd_lock n <> 0)
    as (Ehd & n & Hn & Hx & Hz).
  { unfold r, GetWithInsert_call, ThreadLocalInit. cbn [t_tls tls_new tl_localinit negb].
    destruct (RandomHeight (Random_new _)) as [h1 r1]. cbn [tl_rnd]. destruct (RandomHeight r1). cbn.
    split; [done|]. rewrite lookup_insert_ne.
    - rewrite lookup_singleton_eq. eexists. split; [reflexivity|]. split; [reflexivity|exact Hlk].
    - intros E. rewrite E in Hf. cbn in Hf. rewrite lookup_singleton_eq in Hf. discriminate Hf. }
  change (sl_head s) with a in Hpc. clearbody r. clear Hal Hf Hf0. subst a.
  apply (empty_search_hangs alloc fuel r.1 r.2 n (kMaxHeight - 1)); try assumption; [unfold kMaxHeight; lia|lia].
Qed.

Definition stale : raw := mkRaw 0 0 MemNode_init 7 (fun _ => NULL).

Definition stuck_call : skiplist * thread :=
  let s := MemStoreSkipList_new 1000 stale in
  GetWithInsert_call (alloc0 s).1 (alloc0 s).2 5 junk0 s (mkThread tls_new (mkLocals 0 0 [] [] (-1)) Idle).

Lemma uninitialised_lock_hangs_witness : finish alloc0 1000 stuck_call.1 stuck_call.2 = Fault OutOfFuel.
Proof.
  refine (uninitialised_lock_hangs 1000 stale 5 junk0 alloc0 1000 _ _ (fun s => new_addr_fresh s) eq_refl eq_refl _).
  - discriminate.
  - discriminate.
  - lia.
Defined.
