(* ===== verification/SkipListIter.v ===== *)
(** * Searching the skip list

    [Get] and the iterator of [MemStoreSkipList] (memstore/memstore_skiplist.cc)
    look the table up. *)

From S2P Require Import Prelude MemStore SkipList SkipListInv SkipListSpec SkipListTable.

(** ** Searches *)

Section search.
Context (hd : addr) (h : heap) (L : levels) (Hl : list_ok hd h L) (key : Z).

(** [x] is the last node of level [i] before [key]. *)
Definition last_before (i : nat) (x : addr) : Prop :=
  on_level hd L i x /\ ord hd h x < key /\
  forall c, c ∈ L i -> ord hd h x < ord hd h c -> key <= ord hd h c.

Lemma look_last x i : (i < kMaxHeight)%nat -> on_level hd L i x -> ord hd h x < key ->
  exists next, nxt h i x = Some next /\ is_next hd h (L i) x next /\
    ((look h key x i = Ok (next, true) /\ next ∈ L i /\ ord hd h x < ord hd h next < key) \/
     (look h key x i = Ok (next, false) /\ last_before i x)).
Proof.
  intros Hi Hx Hk. destruct (look_spec hd h L key x i Hl Hi Hx) as (next & Hn & Hnx & E).
  exists next. split_and!; [done..|]. pose proof Hnx as Hnx'. unfold is_next in Hnx.
  destruct (decide (next = NULL)) as [->|Hne].
  - right. split; [done|]. split_and!; [done..|]. intros c Hc Hlt. specialize (Hnx c Hc). lia.
  - destruct Hnx as (HnL & Hlt & Hmin). destruct (Z.ltb_spec (ord hd h next) key) as [Hlk|Hlk].
    + left. done.
    + right. split; [done|]. split_and!; [done..|]. intros c Hc Hlt'. specialize (Hmin c Hc Hlt'). lia.
Qed.

Lemma FindLessThan_loop_spec fuel level x : (level < kMaxHeight)%nat -> on_level hd L level x ->
  ord hd h x < key -> (level + above hd h L x < fuel)%nat ->
  exists y, FindLessThan_loop fuel h key level x = Ok y /\ last_before 0 y.
Proof.
  revert level x. induction fuel as [|fuel IH]; intros level x Hlv Hx Hk Hf; [lia|]. cbn [FindLessThan_loop].
  destruct (look_last x level Hlv Hx Hk) as (next & _ & _ & [(-> & Hn & Hlt)|(-> & Hlast)]);
    cbn [mbind result_bind].
  - apply IH; [done|by right|lia|].
    assert (above hd h L next < above hd h L x)%nat; [|lia].
    apply above_lt; [apply (lk_mono hd h L 0 level); [done|lia|done]|lia].
  - destruct level as [|level]; [eauto|]. apply IH; [lia| |done|lia].
    apply (on_level_mono hd h L level (S level)); [done|lia|done].
Qed.

Lemma FindGreaterOrEqual_loop_spec fuel level x prev : (level < kMaxHeight)%nat ->
  on_level hd L level x -> ord hd h x < key -> (level + above hd h L x < fuel)%nat ->
  exists y next prev', FindGreaterOrEqual_loop fuel h key level x prev = Ok (next, prev') /\
    last_before 0 y /\ is_next hd h (L 0%nat) y next /\
    (forall l, prev = Some l -> length l = kMaxHeight ->
       exists l', prev' = Some l' /\ length l' = kMaxHeight /\
         (forall j, (j <= level)%nat -> exists p, l' !! j = Some p /\ last_before j p) /\
         (forall j, (level < j)%nat -> l' !! j = l !! j)).
Proof.
  revert level x prev. induction fuel as [|fuel IH]; intros level x prev Hlv Hx Hk Hf; [lia|].
  cbn [FindGreaterOrEqual_loop].
  destruct (look_last x level Hlv Hx Hk) as (next & _ & Hnx & [(-> & Hn & Hlt)|(-> & Hlast)]);
    cbn [mbind result_bind].
  - apply IH; [done|by right|lia|].
    assert (above hd h L next < above hd h L x)%nat; [|lia].
    apply above_lt; [apply (lk_mono hd h L 0 level); [done|lia|done]|lia].
  - destruct level as [|level].
    + exists x, next, ((fun l => <[0%nat := x]> l) <$> prev). split_and!; [done..|].
      intros l -> Hlen. exists (<[0%nat := x]> l). rewrite length_insert. split_and!; [done..| |].
      * intros j Hj. assert (j = 0%nat) as -> by lia. exists x. split; [|done].
        apply list_lookup_insert_eq. lia.
      * intros j Hj. apply list_lookup_insert_ne. lia.
    + destruct (IH level x ((fun l => <[S level := x]> l) <$> prev)) as (y & next' & prev' & E & Hy & Hn' & Hp);
        [lia|apply (on_level_mono hd h L level (S level)); [done|lia|done]|done|lia|].
      exists y, next', prev'. split_and!; [done..|]. intros l -> Hlen.
      destruct (Hp (<[S level := x]> l) eq_refl) as (l' & -> & Hlen' & Hle & Hgt); [by rewrite length_insert|].
      exists l'. split_and!; [done..| |].
      * intros j Hj. destruct (decide (j = S level)) as [->|]; [|apply Hle; lia].
        exists x. split; [|done]. rewrite Hgt by lia. apply list_lookup_insert_eq. lia.
      * intros j Hj. rewrite Hgt by lia. apply list_lookup_insert_ne. lia.
Qed.
End search.

(** ** Positions *)

(** The iterator stands at the node of key [k], or nowhere. *)
Definition at_key (s : skiplist) (i : iter) (o : option Z) : Prop :=
  match o with Some k => table s !! k = Some (i_node i) | None => i_node i = NULL end.

(** The word at the link of the iterator is its node. *)
Definition link_holds (s : skiplist) (i : iter) : Prop :=
  match GetLink i with
  | Some (p, k) => next_at (sl_heap s) p k = Ok (GetLinkTarget i)
  | None => False
  end.

Section lookup.
Context (s : skiplist) (L : levels) (Hl : list_ok (sl_head s) (sl_heap s) L).
Abbreviation hd := (sl_head s) (only parsing).
Abbreviation h := (sl_heap s) (only parsing).

Lemma table_key k : is_Some (table s !! k) <-> exists c, c ∈ L 0%nat /\ ord hd h c = k.
Proof. unfold is_Some. setoid_rewrite (table_spec s L k); [done|exact Hl]. Qed.

(** The node after [y] has the least key of those after [y]. *)
Lemma next_is_least y next (R : Z -> Prop) prev : is_next hd h (L 0%nat) y next ->
  (forall c, c ∈ L 0%nat -> ord hd h y < ord hd h c <-> R (ord hd h c)) ->
  exists o, at_key s (mkIter next prev) o /\ is_least (fun k => R k /\ is_Some (table s !! k)) o.
Proof.
  intros Hn HR. unfold is_next in Hn. case_decide as Hn0.
  - exists None. split; [done|]. intros k [Hk (c & Hc & <-)%table_key].
    apply HR in Hk; [|done]. specialize (Hn c Hc). lia.
  - destruct Hn as (HnL & Hlt & Hmin). exists (Some (ord hd h next)). split; [by apply (table_spec s L)|].
    split; [split; [by apply HR|apply table_key; eauto]|].
    intros k [Hk (c & Hc & <-)%table_key]. apply Hmin; [done|]. by apply HR.
Qed.

(** After the last node before [key] come the keys from [key] on. *)
Lemma last_before_iff key y c : last_before hd h L key 0 y -> c ∈ L 0%nat ->
  ord hd h y < ord hd h c <-> key <= ord hd h c.
Proof. intros (_ & Hlt & Hmin) Hc. split; [by apply Hmin|lia]. Qed.

Lemma last_before_eq key y y' : last_before hd h L key 0 y -> last_before hd h L key 0 y' -> y = y'.
Proof.
  intros (Hy & Hlt & Hmin) (Hy' & Hlt' & Hmin'). apply (ord_inj hd h L 0); [done..|].
  destruct (Z.lt_trichotomy (ord hd h y) (ord hd h y')) as [C|[C|C]]; [|done|].
  - destruct Hy' as [->|Hy']; [|specialize (Hmin y' Hy' C); lia].
    destruct Hy as [->|Hy]; [done|]. destruct (ord_level hd h L 0 y Hl Hy) as (? & _ & ? & ?).
    rewrite ord_hd in C. lia.
  - destruct Hy as [->|Hy]; [|specialize (Hmin' y Hy C); lia].
    destruct Hy' as [->|Hy']; [done|]. destruct (ord_level hd h L 0 y' Hl Hy') as (? & _ & ? & ?).
    rewrite ord_hd in C. lia.
Qed.

Lemma next_link y next key : last_before hd h L key 0 y -> is_next hd h (L 0%nat) y next ->
  next_at h y 0 = Ok next /\ y <> NULL.
Proof.
  intros (Hy & _) Hn. assert (0 < kMaxHeight)%nat as H16 by (unfold kMaxHeight; lia). split.
  - destruct (lk_next _ _ _ Hl 0 y H16 Hy) as (b & Hb & Hnb). rewrite (next_at_Ok _ _ _ _ Hb). f_equal.
    unfold is_next in Hn, Hnb. destruct (decide (b = NULL)) as [->|Hb0], (decide (next = NULL)) as [->|Hn0]; [done|..].
    + destruct Hn as (HnL & Hlt & _). specialize (Hnb next HnL). lia.
    + destruct Hnb as (HbL & Hlt & _). specialize (Hn b HbL). lia.
    + destruct Hn as (HnL & Hlt & Hmin), Hnb as (HbL & Hlt' & Hmin').
      apply (lk_inj _ _ _ Hl); [done..|]. specialize (Hmin b HbL Hlt'). specialize (Hmin' next HnL Hlt). lia.
  - intros ->. by apply (on_level_null hd h L 0 Hl H16).
Qed.

(** The search finds the key exactly when the table holds it. *)
Lemma search_found key y next :
  last_before hd h L key 0 y -> is_next hd h (L 0%nat) y next ->
  (if next =? NULL then Ok false else n ← node h next; Ok (key =? nd_key n)) =
    Ok (match table s !! key with Some _ => true | None => false end) /\
  (forall a, table s !! key = Some a -> a = next).
Proof.
  intros Hy Hn.
  assert (forall c, c ∈ L 0%nat -> ord hd h c = key -> c = next /\ next <> NULL) as Hkey.
  { intros c Hc Ec. assert (ord hd h y < ord hd h c) as Hlt
      by (apply (last_before_iff key y c Hy Hc); lia).
    unfold is_next in Hn. case_decide; [specialize (Hn c Hc); lia|]. split; [|done].
    destruct Hn as (HnL & Hlt' & Hmin). specialize (Hmin c Hc Hlt).
    apply (last_before_iff key y next Hy HnL) in Hlt'. apply (lk_inj _ _ _ Hl); [done..|lia]. }
  split.
  2: { intros a [Ha Ea]%(table_spec s L); [|done]. by apply (Hkey a). }
  destruct (Z.eqb_spec next NULL) as [->|Hn0].
  { rewrite (table_none s L); [done..|]. intros c Hc Ec. by destruct (Hkey c Hc Ec). }
  unfold is_next in Hn. rewrite decide_False in Hn by done. destruct Hn as (HnL & _).
  unfold node. destruct (ord_level _ _ L 0 next Hl HnL) as (n & -> & Eo & _). cbn.
  destruct (Z.eqb_spec key (nd_key n)) as [E1|E1]; f_equal.
  - assert (table s !! key = Some next) as ->; [|done]. apply (table_spec s L); [done|]. split; [done|lia].
  - rewrite (table_none s L); [done..|]. intros c Hc Ec. destruct (Hkey c Hc Ec) as [-> _]. lia.
Qed.

Context (Hmax : (1 <= sl_max_height s <= kMaxHeight)%nat).

Lemma start_bound : (sl_max_height s - 1 + above hd h L hd < search_fuel h)%nat.
Proof.
  pose proof (above_bound hd h L Hl hd). unfold search_fuel, kMaxHeight in *. lia.
Qed.

Lemma FindLessThan_spec key : 0 <= key -> exists y, FindLessThan s key = Ok y /\ last_before hd h L key 0 y.
Proof.
  intros Hk. apply FindLessThan_loop_spec; [done|lia|by left|rewrite ord_hd; lia|apply start_bound].
Qed.

Lemma FindGreaterOrEqual_spec key : 0 <= key ->
  exists y next, FindGreaterOrEqual s key None = Ok (next, None) /\ last_before hd h L key 0 y /\
    is_next hd h (L 0%nat) y next.
Proof.
  intros Hk.
  destruct (FindGreaterOrEqual_loop_spec hd h L Hl key (search_fuel h) (sl_max_height s - 1) hd None)
    as (y & next & prev & E & Hy & Hn & _); [lia|by left|rewrite ord_hd; lia|apply start_bound|].
  exists y, next. split_and!; [|done..]. unfold FindGreaterOrEqual. rewrite E. f_equal. f_equal.
  clear - E. revert E. generalize (search_fuel h), (sl_max_height s - 1)%nat, hd.
  intros fuel. induction fuel as [|fuel IH]; intros lv x; cbn; [done|].
  destruct (look h key x lv) as [[nx [|]]|]; cbn; [apply IH| |done].
  destruct lv; [by intros [= _ <-]|apply IH].
Qed.

Lemma Get_spec key : 0 <= key -> Get s key = Ok (default NULL (table s !! key)).
Proof.
  intros Hk. destruct (FindGreaterOrEqual_spec key Hk) as (y & next & E & Hy & Hn).
  unfold Get. rewrite E. cbn [mbind result_bind].
  destruct (search_found key y next Hy Hn) as [Ef Heq].
  destruct (Z.eqb_spec next NULL) as [->|Hn0].
  { by destruct (table s !! key). }
  destruct (node h next) as [n|f]; [|done]. cbn in Ef |- *. injection Ef as ->.
  destruct (table s !! key) as [a|] eqn:Ea; [|done]. by rewrite (Heq a).
Qed.

Lemma Seek_spec key i : 0 <= key ->
  exists i' o, Seek s key i = Ok i' /\ at_key s i' o /\ link_holds s i' /\
    is_least (fun k => key <= k /\ is_Some (table s !! k)) o.
Proof.
  intros Hk. destruct (FindLessThan_spec key Hk) as (y & E1 & Hy).
  destruct (FindGreaterOrEqual_spec key Hk) as (y' & next & E2 & Hy' & Hn).
  rewrite <- (last_before_eq key y y' Hy Hy') in Hn.
  destruct (next_is_least y next (fun k => key <= k) y Hn) as (o & Ho & Hleast).
  { intros c. by apply last_before_iff. }
  exists (mkIter next y), o. unfold Seek. rewrite E1. cbn [mbind result_bind]. rewrite E2.
  split_and!; [done..| |done]. destruct (next_link y next key Hy Hn) as [El Hy0].
  unfold link_holds, GetLink. cbn. by rewrite (proj2 (Z.eqb_neq _ _) Hy0).
Qed.

Lemma step_to y prev : on_level hd L 0 y ->
  exists next o, next_at h y 0 = Ok next /\ at_key s (mkIter next prev) o /\ link_holds s (mkIter next y) /\
    is_least (fun k => ord hd h y < k /\ is_Some (table s !! k)) o.
Proof.
  intros Hy. assert (0 < kMaxHeight)%nat as H16 by (unfold kMaxHeight; lia).
  destruct (lk_next _ _ _ Hl 0 y H16 Hy) as (next & Hb & Hn). apply next_at_Ok in Hb.
  destruct (next_is_least y next (fun k => ord hd h y < k) prev Hn) as (o & Ho & Hleast); [done|].
  exists next, o. split_and!; [done..| |done]. unfold link_holds, GetLink. cbn.
  rewrite (proj2 (Z.eqb_neq _ _)); [done|]. intros ->. by apply (on_level_null hd h L 0 Hl H16).
Qed.

Lemma SeekToFirst_spec i :
  exists i' o, SeekToFirst s i = Ok i' /\ at_key s i' o /\ link_holds s i' /\
    is_least (fun k => is_Some (table s !! k)) o.
Proof.
  destruct (step_to hd hd) as (next & o & E & Ho & Hlk & Hleast); [by left|].
  exists (mkIter next hd), o. unfold SeekToFirst. rewrite E. split_and!; [done..|].
  eapply is_least_ext; [|exact Hleast]. intros k. cbn. rewrite ord_hd. split; [by intros [_ ?]|].
  intros Hk. split; [|done]. apply table_key in Hk as (c & Hc & <-).
  destruct (ord_level hd h L 0 c Hl Hc) as (? & _ & ? & ?). lia.
Qed.

Lemma Next_spec i k : at_key s i (Some k) ->
  exists i' o, Next s i = Ok i' /\ at_key s i' o /\ link_holds s i' /\
    is_least (fun k' => k < k' /\ is_Some (table s !! k')) o.
Proof.
  intros [Hi Ek]%(table_spec s L); [|exact Hl].
  destruct (step_to (i_node i) (i_node i)) as (next & o & E & Ho & Hlk & Hleast); [by right|].
  exists (mkIter next (i_node i)), o. unfold Next. rewrite E. rewrite Ek in Hleast. done.
Qed.

Lemma Prev_spec i k : at_key s i (Some k) ->
  exists i' o, Prev s i = Ok i' /\ at_key s i' o /\
    is_greatest (fun k' => k' < k /\ is_Some (table s !! k')) o.
Proof.
  intros [Hi Ek]%(table_spec s L); [|exact Hl].
  destruct (ord_level hd h L 0 (i_node i) Hl Hi) as (n & Hn & Eo & Hk0).
  destruct (FindLessThan_spec (nd_key n) Hk0) as (y & E & Hy & Hlt & Hmin).
  unfold Prev, node. rewrite Hn. cbn [from_opt mbind result_bind]. rewrite E. cbn [mbind result_bind].
  destruct (Z.eqb_spec y hd) as [->|Hne].
  - exists (mkIter NULL (i_prev i)), None. split_and!; [done..|].
    intros k' [Hk' (c & Hc & <-)%table_key]. specialize (Hmin c Hc).
    destruct (ord_level hd h L 0 c Hl Hc) as (? & _ & ? & ?). rewrite ord_hd in Hmin. lia.
  - destruct Hy as [->|Hy]; [done|]. exists (mkIter y (i_prev i)), (Some (ord hd h y)).
    split_and!; [done|by apply (table_spec s L)|]. split; [split; [lia|apply table_key; eauto]|].
    intros k' [Hk' (c & Hc & <-)%table_key]. specialize (Hmin c Hc). lia.
Qed.
End lookup.

(** C34: In every state that concurrent insertions reach, [Get] and the iterator
    answer from the table [PrintStore] lists: [Get] returns the record of the
    key or null; [Seek], [SeekToFirst] and [Next] stand at the least key not
    below the target, at the least key and at the next key, and their link
    holds the node they stand at; [Prev] stands at the greatest smaller key.
    None of them faults or fails to end. *)
Theorem skiplist_lookup s : reachable s ->
  (forall key, 0 <= key -> Get (y_list s) key = Ok (default NULL (table (y_list s) !! key))) /\
  (forall key i, 0 <= key -> exists i' o, Seek (y_list s) key i = Ok i' /\ at_key (y_list s) i' o /\
     link_holds (y_list s) i' /\
     is_least (fun k => key <= k /\ is_Some (table (y_list s) !! k)) o) /\
  (forall i, exists i' o, SeekToFirst (y_list s) i = Ok i' /\ at_key (y_list s) i' o /\
     link_holds (y_list s) i' /\ is_least (fun k => is_Some (table (y_list s) !! k)) o) /\
  (forall i k, at_key (y_list s) i (Some k) -> exists i' o, Next (y_list s) i = Ok i' /\
     at_key (y_list s) i' o /\ link_holds (y_list s) i' /\
     is_least (fun k' => k < k' /\ is_Some (table (y_list s) !! k')) o) /\
  (forall i k, at_key (y_list s) i (Some k) -> exists i' o, Prev (y_list s) i = Ok i' /\
     at_key (y_list s) i' o /\
     is_greatest (fun k' => k' < k /\ is_Some (table (y_list s) !! k')) o).
Proof.
  intros Hr. destruct (reachable_inv s Hr) as [L Hinv].
  pose proof (inv_list _ _ Hinv) as Hl. pose proof (inv_max _ _ Hinv) as Hmax. split_and!.
  - by apply (Get_spec _ L).
  - by apply (Seek_spec _ L).
  - by apply (SeekToFirst_spec _ L).
  - by apply (Next_spec _ L).
  - by apply (Prev_spec _ L).
Qed.

Definition two_keys : sys := exec empty2 [CallInsert 0 5; Run 0 60; CallInsert 1 9; Run 1 60].

Lemma two_keys_reachable : reachable two_keys.
Proof. apply exec_reachable, empty2_reachable. Qed.

Lemma skiplist_lookup_witness :
  Get (y_list two_keys) 9 = Ok (default NULL (table (y_list two_keys) !! 9)) /\
  table (y_list two_keys) !! 9 = Some 1004.
Proof.
  split; [|vm_compute; reflexivity].
  destruct (skiplist_lookup two_keys two_keys_reachable) as [Hget _]. apply Hget. lia.
Defined.
