(* ===== verification/SkipListAlt.v ===== *)
(** * The insertion routines of the skip list that the build does not select

    [GetWithInsertRTM] and [GetWithInsertLockFree] of
    memstore/memstore_skiplist.cc.  The first runs inside an RTM region, so its
    calls are executed one after the other; the second is a state machine whose
    steps are its accesses to shared memory. *)

From S2P Require Import Prelude Random MemStore SkipList SkipListInv SkipListSpec SkipListTable SkipListIter.

(** ** GetWithInsertRTM *)

(** [for (i = max_height_; i < height; i++) preds[i] = head_], [n] rounds from [i]. *)
Fixpoint fill_preds (n i : nat) (hd : addr) (preds : list addr) : list addr :=
  match n with
  | O => preds
  | S n => fill_preds n (S i) hd (<[i := hd]> preds)
  end.

(** [n] rounds of the linking loop from level [i]. *)
Fixpoint link_loop (n i : nat) (x : addr) (preds : list addr) (h : heap) : result heap :=
  match n with
  | O => Ok h
  | S n =>
      pred ← from_opt OutOfBounds (preds !! i);
      next ← next_at h pred i;
      h ← set_next h x i next;
      h ← set_next h pred i x;
      link_loop n (S i) x preds h
  end.

Definition GetWithInsertRTM (key : Z) (junk : list addr) (s : skiplist) (l : tls) :
    result (addr * skiplist * tls) :=
  '(x, prev) ← FindGreaterOrEqual s key (Some junk);
  let preds := default junk prev in
  found ← (if x =? NULL then Ok false else n ← node (sl_heap s) x; Ok (key =? nd_key n));
  if (found : bool) then Ok (x, s, l)
  else
    let x := tl_dummy l in
    let l := mkTls (tl_localinit l) (tl_rnd l) NULL in
    n ← node (sl_heap s) x;
    let h := <[x := set_key key n]> (sl_heap s) in
    let height := nd_height n in
    let preds := fill_preds (height - sl_max_height s) (sl_max_height s) (sl_head s) preds in
    let max_height_ := if (sl_max_height s <? height)%nat then height else sl_max_height s in
    h ← link_loop height 0 x preds h;
    Ok (x, mkSkipList h (sl_head s) max_height_, l).

(** [GetWithInsert] and [GetForRead] of a build with [SKIPLISTRTM]. *)
Definition GetWithInsert_rtm (alloc : allocator) (key : Z) (junk : list addr) (s : skiplist) (l : tls) :
    result (addr * skiplist * tls) :=
  let '(h, l) := ThreadLocalInit (alloc s).1 (alloc s).2 (sl_heap s) l in
  '(x, s, l) ← GetWithInsertRTM key junk (set_heap h s) l;
  if tl_dummy l =? NULL then
    let '(height, rnd_) := RandomHeight (tl_rnd l) in
    let '(a, m) := alloc s in
    Ok (x, set_heap (<[a := NewNode key height m]> (sl_heap s)) s, mkTls (tl_localinit l) rnd_ a)
  else Ok (x, s, l).

(** ** Runs of the RTM build: whole calls of several threads *)

Inductive rtm_reachable : skiplist -> list tls -> Prop :=
  | rtm_start a m n : a <> NULL -> rtm_reachable (MemStoreSkipList_new a m) (replicate n tls_new)
  | rtm_call s ls j l alloc key junk x s' l' :
      rtm_reachable s ls -> ls !! j = Some l -> 0 <= key < 2 ^ 64 -> length junk = kMaxHeight ->
      (forall s, fresh (alloc s).1 s) ->
      GetWithInsert_rtm alloc key junk s l = Ok (x, s', l') ->
      rtm_reachable s' (<[j := l']> ls).

(** ** Linking a node on all its levels *)

Section linking.
Context (hd : addr) (key : Z) (x : addr) (preds : list addr).

Record to_link (h : heap) (L : levels) (n i : nat) : Prop := {
  tk_list : list_ok hd h L;
  tk_key : 0 <= key;
  tk_hd : x <> hd;
  tk_node : exists nx, h !! x = Some nx /\ nd_key nx = key /\ (i + n <= length (nd_next nx))%nat;
  tk_max : (i + n <= kMaxHeight)%nat;
  tk_lev j : x ∈ L j <-> (j < i)%nat;
  tk_dup c : c ∈ L 0%nat -> ord hd h c = key -> c = x;
  tk_preds j : (i <= j < i + n)%nat -> exists p, preds !! j = Some p /\ last_before hd h L key j p
}.

(** Heaps with the same nodes, keys and records; the links may differ. *)
Definition relinks (h h' : heap) : Prop :=
  forall a, (fun n => (nd_key n, nd_height n, nd_memVal n, nd_lock n, length (nd_next n))) <$> h' !! a =
            (fun n => (nd_key n, nd_height n, nd_memVal n, nd_lock n, length (nd_next n))) <$> h !! a.

Lemma relinks_wr h a i v : relinks h (wr h a i v).
Proof.
  intros b. unfold wr. destruct (decide (b = a)) as [->|Hne].
  - rewrite lookup_alter_eq. destruct (h !! a); cbn; [|done]. by rewrite length_insert.
  - by rewrite lookup_alter_ne.
Qed.

Lemma relinks_trans h1 h2 h3 : relinks h1 h2 -> relinks h2 h3 -> relinks h1 h3.
Proof. intros H12 H23 a. by rewrite H23, H12. Qed.

Lemma to_link_step h L n i : to_link h L (S n) i ->
  exists h' L', (forall r, link_loop (S n) i x preds h = r <-> link_loop n (S i) x preds h' = r) /\
    to_link h' L' n (S i) /\ (forall j c, c ∈ L' j <-> c ∈ L j \/ (j = i /\ c = x)) /\ relinks h h'.
Proof.
  intros [Hl Hk0 Hhd (nx & Hnx & Hkx & Hlen) Hmax Hlev Hdup Hpreds].
  destruct (Hpreds i ltac:(lia)) as (p & Hp & Hpl & Hpk & Hpmin).
  assert (i < kMaxHeight)%nat as Hi by lia.
  destruct (lk_next _ _ _ Hl i p Hi Hpl) as (q & Hq & Hnq).
  assert (x ∉ L i) as HxL by (rewrite Hlev; lia).
  assert (~ on_level hd L i x) as Hout by (by intros [?|?]).
  assert (ord hd h x = key) as Hox by (by rewrite (ord_node hd h x nx)).
  assert (p <> x) as Hpx by (intros ->; done).
  pose proof (list_ok_write hd h L x i q Hl Hout) as Hl1.
  destruct (wr_node h x i q x nx Hnx) as (nx1 & Hnx1 & Hkx1 & _ & Hlen1).
  assert (list_ok hd (wr (wr h x i q) p i x) (add_to i x L)) as Hl2.
  { apply (list_ok_publish hd _ L p x q i nx1); rewrite ?wr_ord, ?Hox; try done; try lia.
    - rewrite nxt_wr_ne by auto. done.
    - by rewrite (nxt_wr_eq h x i q nx) by (done || lia).
    - intros Hq0. unfold is_next in Hnq. rewrite decide_False in Hnq by done.
      destruct Hnq as (HqL & Hpq & _). specialize (Hpmin q HqL Hpq).
      assert (ord hd h q <> key); [|lia]. intros E. apply HxL. rewrite <- (Hdup q); [done| |done].
      by apply (lk_mono hd h L 0 i); [|lia|]. }
  destruct (on_level_node hd h L i p Hl Hi Hpl) as (np & Hnp & Hlp).
  destruct (wr_node h x i q p np Hnp) as (np1 & Hnp1 & _ & _ & Hlp1).
  exists (wr (wr h x i q) p i x), (add_to i x L). split_and!.
  - intros r. cbn [link_loop]. rewrite Hp. cbn [from_opt mbind result_bind].
    rewrite (next_at_Ok _ _ _ _ Hq). cbn [mbind result_bind].
    rewrite (set_next_Ok h x nx) by (done || lia). cbn [mbind result_bind].
    rewrite (set_next_Ok _ p np1) by (done || lia). done.
  - destruct (wr_node (wr h x i q) p i x x nx1 Hnx1) as (nx2 & Hnx2 & Hkx2 & _ & Hlen2). split; [done..| | | | |].
    + exists nx2. split_and!; [done|lia..].
    + lia.
    + intros j. rewrite elem_of_add_to, Hlev. lia.
    + intros c [Hc|[_ ->]]%elem_of_add_to; [|done]. rewrite !wr_ord. by apply Hdup.
    + intros j Hj. destruct (Hpreds j ltac:(lia)) as (p' & Hp' & Hpl' & Hpk' & Hmin').
      exists p'. split; [done|]. split_and!.
      * destruct Hpl' as [->|?]; [by left|right]. apply elem_of_add_to. by left.
      * by rewrite !wr_ord.
      * intros c [Hc|[? _]]%elem_of_add_to; [|lia]. rewrite !wr_ord. by apply Hmin'.
  - intros j c. apply elem_of_add_to.
  - eapply relinks_trans; apply relinks_wr.
Qed.

Lemma link_loop_spec n i h L : to_link h L n i ->
  exists h' L', link_loop n i x preds h = Ok h' /\ list_ok hd h' L' /\
    (forall j c, c ∈ L' j <-> c ∈ L j \/ ((i <= j < i + n)%nat /\ c = x)) /\ relinks h h'.
Proof.
  revert i h L. induction n as [|n IH]; intros i h L Ht.
  - exists h, L. split_and!; [done|by apply tk_list in Ht| |done]. intros j c. split; [by left|].
    intros [?|[? _]]; [done|lia].
  - destruct (to_link_step h L n i Ht) as (h1 & L1 & E & Ht1 & HL1 & Hr1).
    destruct (IH (S i) h1 L1 Ht1) as (h' & L' & E' & Hl' & HL' & Hr'). exists h', L'. split_and!.
    + by apply E.
    + done.
    + intros j c. rewrite HL', HL1. split; [|intros [?|[? ->]]].
      * intros [[?|[-> ->]]|[? ->]]; [by left|right; split; [lia|done]..].
      * by do 2 left.
      * destruct (decide (j = i)); [left; right|right; split; [lia|]]; done.
    + by eapply relinks_trans.
Qed.
End linking.

(** ** The invariant of the RTM build *)

(** A node outside the list, as [NewNode] made it. *)
Definition spare (hd : addr) (h : heap) (L : levels) (a : addr) : Prop :=
  exists n, h !! a = Some n /\ (1 <= nd_height n <= kMaxHeight)%nat /\
    length (nd_next n) = nd_height n /\ new_record (nd_memVal n) /\ ~ on_level hd L 0 a.

Record rtm_ok (s : skiplist) (ls : list tls) (L : levels) : Prop := {
  rk_list : list_ok (sl_head s) (sl_heap s) L;
  rk_max : (1 <= sl_max_height s <= kMaxHeight)%nat;
  rk_high i c : (sl_max_height s <= i)%nat -> c ∉ L i;
  rk_dummy j l : ls !! j = Some l -> tl_dummy l <> NULL -> spare (sl_head s) (sl_heap s) L (tl_dummy l);
  rk_distinct j k l l' : ls !! j = Some l -> ls !! k = Some l' -> tl_dummy l <> NULL ->
    tl_dummy l = tl_dummy l' -> j = k
}.

(** Between calls: a thread that ran has a spare node. *)
Definition rested (ls : list tls) : Prop :=
  forall j l, ls !! j = Some l -> tl_localinit l = true -> tl_dummy l <> NULL.

Lemma list_ok_agree hd h h' L : list_ok hd h L -> h' !! NULL = None ->
  (forall a, on_level hd L 0 a -> h' !! a = h !! a) -> list_ok hd h' L.
Proof.
  intros Hl Hnull Hag.
  assert (forall i a, on_level hd L i a -> h' !! a = h !! a) as Hag'.
  { intros i a Ha. apply Hag. by apply (on_level_mono hd h L 0 i); [|lia|]. }
  assert (forall i a, on_level hd L i a -> ord hd h' a = ord hd h a) as Hord.
  { intros i a Ha. unfold ord. by rewrite (Hag' i a Ha). }
  split.
  - destruct (lk_hd _ _ _ Hl) as (n & Hn & Hlen). exists n. rewrite (Hag hd) by (by left). done.
  - apply (lk_hd_out _ _ _ Hl).
  - done.
  - intros i a Ha. rewrite (Hag' i a) by (by right). by apply (lk_node _ _ _ Hl).
  - apply (lk_sub _ _ _ Hl).
  - intros a b Ha Hb. rewrite (Hord 0%nat a), (Hord 0%nat b) by (by right). by apply (lk_inj _ _ _ Hl).
  - intros i a Hi Ha. destruct (lk_next _ _ _ Hl i a Hi Ha) as (b & Hb & Hnb). exists b. split.
    + unfold nxt. by rewrite (Hag' i a Ha).
    + eapply is_next_ext; [done| |by apply (Hord i)|exact Hnb]. intros c Hc. apply (Hord i). by right.
Qed.

Lemma fill_preds_spec n i hd preds j : (i + n <= length preds)%nat ->
  fill_preds n i hd preds !! j = if decide (i <= j < i + n)%nat then Some hd else preds !! j.
Proof.
  revert i preds. induction n as [|n IH]; intros i preds Hlen; cbn [fill_preds].
  - rewrite decide_False by lia. done.
  - rewrite IH by (rewrite length_insert; lia).
    destruct (decide (j = i)) as [->|Hne].
    + rewrite decide_False, list_lookup_insert_eq, decide_True by lia. done.
    + rewrite list_lookup_insert_ne by done. do 2 case_decide; done || lia.
Qed.

Lemma relinks_ord hd h h' a : relinks h h' -> ord hd h' a = ord hd h a.
Proof.
  intros Hr. specialize (Hr a). unfold ord. destruct (h' !! a), (h !! a); cbn in Hr; [|done..].
  by injection Hr as -> _ _ _ _.
Qed.

Lemma relinks_node h h' a n : relinks h h' -> h !! a = Some n ->
  exists n', h' !! a = Some n' /\ nd_key n' = nd_key n /\ nd_height n' = nd_height n /\
    nd_memVal n' = nd_memVal n /\ length (nd_next n') = length (nd_next n).
Proof.
  intros Hr Hn. specialize (Hr a). rewrite Hn in Hr. destruct (h' !! a) as [n'|]; [|done].
  exists n'. cbn in Hr. by injection Hr as -> -> -> _ ->.
Qed.

(** The search for the predecessors on all levels of the new node. *)
Lemma rtm_preds s L key junk height : list_ok (sl_head s) (sl_heap s) L ->
  (1 <= sl_max_height s <= kMaxHeight)%nat -> (forall i c, (sl_max_height s <= i)%nat -> c ∉ L i) ->
  0 <= key -> length junk = kMaxHeight -> (height <= kMaxHeight)%nat ->
  exists y next l, FindGreaterOrEqual s key (Some junk) = Ok (next, Some l) /\
    last_before (sl_head s) (sl_heap s) L key 0 y /\ is_next (sl_head s) (sl_heap s) (L 0%nat) y next /\
    forall j, (j < height)%nat -> exists p,
      fill_preds (height - sl_max_height s) (sl_max_height s) (sl_head s) l !! j = Some p /\
      last_before (sl_head s) (sl_heap s) L key j p.
Proof.
  intros Hl Hmax Hhigh Hk Hlen Hh.
  destruct (FindGreaterOrEqual_loop_spec _ _ L Hl key (search_fuel (sl_heap s)) (sl_max_height s - 1)
    (sl_head s) (Some junk)) as (y & next & prev & E & Hy & Hn & Hp);
    [lia|by left|rewrite ord_hd; lia|by apply start_bound|].
  destruct (Hp junk eq_refl Hlen) as (l & -> & Hlen' & Hle & _). exists y, next, l.
  split_and!; [done..|]. intros j Hj. rewrite fill_preds_spec by lia. case_decide as Hd.
  - exists (sl_head s). split; [done|]. split_and!; [by left|rewrite ord_hd; lia|].
    intros c Hc. exfalso. apply (Hhigh j c); [lia|done].
  - apply Hle. lia.
Qed.

(** The effect of an insertion that returned [x]. *)
Definition inserts (key : Z) (s s' : skiplist) (x : addr) : Prop :=
  match table s !! key with
  | Some y => x = y /\ table s' = table s
  | None => table s' = <[key := x]> (table s) /\
      exists n, sl_heap s' !! x = Some n /\ new_record (nd_memVal n)
  end /\
  forall k a n, table s !! k = Some a -> sl_heap s !! a = Some n ->
    exists n', sl_heap s' !! a = Some n' /\ nd_memVal n' = nd_memVal n.

Section rtm_insert.
Context (s : skiplist) (ls : list tls) (L : levels) (j : nat) (l : tls) (key : Z) (junk : list addr).
Context (Hok : rtm_ok s ls L) (Hj : ls !! j = Some l) (Hd : tl_dummy l <> NULL).
Context (Hk : 0 <= key) (Hlen : length junk = kMaxHeight).
Abbreviation hd := (sl_head s) (only parsing).
Abbreviation h := (sl_heap s) (only parsing).
Abbreviation x := (tl_dummy l) (only parsing).

Definition used (l : tls) : tls := mkTls (tl_localinit l) (tl_rnd l) NULL.

(** Linking the spare node of the thread. *)
Lemma rtm_link n preds : h !! x = Some n -> table s !! key = None ->
  (forall i, (i < nd_height n)%nat -> exists p, preds !! i = Some p /\ last_before hd h L key i p) ->
  exists h' L', link_loop (nd_height n) 0 x preds (<[x := set_key key n]> h) = Ok h' /\
    list_ok hd h' L' /\ (forall i c, c ∈ L' i <-> c ∈ L i \/ ((i < nd_height n)%nat /\ c = x)) /\
    relinks (<[x := set_key key n]> h) h' /\ x ∉ L 0%nat.
Proof.
  intros Hn Hnone Hp. pose proof (rk_list _ _ _ Hok) as Hl.
  destruct (rk_dummy _ _ _ Hok j l Hj Hd) as (n' & Hn' & Hh & Hlenx & _ & Hout). simplify_eq.
  set (h1 := <[x := set_key key n]> h).
  assert (forall a, on_level hd L 0 a -> h1 !! a = h !! a) as Hag.
  { intros a Ha. unfold h1. rewrite lookup_insert_ne; [done|]. intros E. apply Hout. by rewrite E. }
  assert (forall i a, on_level hd L i a -> ord hd h1 a = ord hd h a) as Hord.
  { intros i a Ha. unfold ord. rewrite (Hag a); [done|]. by apply (on_level_mono hd h L 0 i); [|lia|]. }
  assert (list_ok hd h1 L) as Hl1.
  { apply (list_ok_agree hd h); [done| |done]. unfold h1. rewrite lookup_insert_ne by done.
    apply (lk_null _ _ _ Hl). }
  assert (forall i, x ∉ L i) as HxL.
  { intros i Hx. apply Hout. right. by apply (lk_mono hd h L 0 i); [|lia|]. }
  destruct (link_loop_spec hd key x preds (nd_height n) 0 h1 L) as (h' & L' & E & Hl' & HL' & Hr).
  - split; [done..| | | | | |].
    + intros E. apply Hout. by left.
    + exists (set_key key n). unfold h1. rewrite lookup_insert_eq. split_and!; [done..|]. cbn. lia.
    + lia.
    + intros i. split; [intros Hin; by destruct (HxL i)|lia].
    + intros c Hc Ec. rewrite (Hord 0%nat) in Ec by (by right).
      assert (table s !! key = Some c) by (by apply (table_spec s L)). congruence.
    + intros i Hi. destruct (Hp i ltac:(lia)) as (p & Hpi & Hpl & Hpk & Hmin). exists p. split; [done|].
      split_and!; [done|by rewrite (Hord i)|]. intros c Hc. rewrite (Hord i p Hpl), (Hord i c) by (by right).
      by apply Hmin.
  - exists h', L'. split_and!; try done. intros i c. rewrite HL'. naive_solver lia.
Qed.

(** The state after the linking. *)
Section inserted.
Context (n : Node) (h' : heap) (L' : levels).
Context (Hn : h !! x = Some n) (Hl' : list_ok hd h' L') (HxL : x ∉ L 0%nat).
Context (HL' : forall i c, c ∈ L' i <-> c ∈ L i \/ ((i < nd_height n)%nat /\ c = x)).
Context (Hr : relinks (<[x := set_key key n]> h) h').

Definition after_rtm : skiplist :=
  mkSkipList h' hd (if (sl_max_height s <? nd_height n)%nat then nd_height n else sl_max_height s).

Lemma spare_kept a : a <> x -> spare hd h L a -> spare hd h' L' a.
Proof.
  intros Hax (na & Hna & Hh & Hlena & Hnew & Hout).
  destruct (relinks_node _ _ a na Hr) as (n' & Hn' & _ & Eh & Ev & El); [by rewrite lookup_insert_ne|].
  exists n'. rewrite Eh, Ev, El. split_and!; try done; [lia..|].
  intros [->|Ha]; [apply Hout; by left|]. apply HL' in Ha as [?|[_ ?]]; [|done]. apply Hout. by right.
Qed.

Lemma after_rtm_ok : rtm_ok after_rtm (<[j := used l]> ls) L'.
Proof.
  pose proof (rk_max _ _ _ Hok) as Hmax.
  destruct (rk_dummy _ _ _ Hok j l Hj Hd) as (n' & Hn' & Hh & _). simplify_eq.
  assert (forall k l0, <[j := used l]> ls !! k = Some l0 -> tl_dummy l0 <> NULL ->
    k <> j /\ ls !! k = Some l0) as Hold.
  { intros k l0 Hk0 Hd0. destruct (decide (k = j)) as [->|]; [|by rewrite list_lookup_insert_ne in Hk0].
    rewrite list_lookup_insert_eq in Hk0 by (by eapply lookup_lt_Some). by simplify_eq. }
  split.
  - done.
  - unfold after_rtm. cbn [sl_max_height]. destruct (Nat.ltb_spec (sl_max_height s) (nd_height n)); lia.
  - intros i c Hi. unfold after_rtm in Hi. cbn [sl_max_height] in Hi.
    assert (sl_max_height s <= i /\ nd_height n <= i)%nat as [Hi1 Hi2]
      by (destruct (Nat.ltb_spec (sl_max_height s) (nd_height n)); lia).
    intros [Hc|[Hc _]]%HL'; [|lia]. by apply (rk_high _ _ _ Hok i c).
  - intros k l0 Hk0 Hd0. destruct (Hold k l0 Hk0 Hd0) as [Hne Hk1].
    apply spare_kept; [|by apply (rk_dummy _ _ _ Hok k)].
    intros Ed. by apply Hne, (rk_distinct _ _ _ Hok k j l0 l).
  - intros k1 k2 l1 l2 Hk1 Hk2 Hd1 Ed.
    apply (rk_distinct _ _ _ Hok k1 k2 l1 l2); [apply Hold; congruence..|done|done].
Qed.

Lemma after_rtm_ord a : a <> x -> ord hd h' a = ord hd h a.
Proof. intros Ha. rewrite (relinks_ord _ _ _ a Hr). unfold ord. by rewrite lookup_insert_ne. Qed.

Lemma after_rtm_x : exists nx, h' !! x = Some nx /\ nd_memVal nx = nd_memVal n /\ ord hd h' x = key.
Proof.
  destruct (rk_dummy _ _ _ Hok j l Hj Hd) as (_ & _ & _ & _ & _ & Hout).
  destruct (relinks_node _ _ x _ Hr (lookup_insert_eq _ _ _)) as (nx & Hnx & Ek & _ & Ev & _).
  exists nx. split_and!; [done..|]. rewrite (ord_node hd h' _ nx); [done| |done].
  intros Ex. apply Hout. by left.
Qed.

Lemma after_rtm_table : table s !! key = None -> (0 < nd_height n)%nat ->
  table after_rtm = <[key := x]> (table s).
Proof.
  intros Hz Hh. pose proof (rk_list _ _ _ Hok) as Hl. destruct after_rtm_x as (nx & _ & _ & Hox).
  apply map_eq. intros k. apply option_eq. intros a. rewrite (table_spec after_rtm L') by done.
  cbn [sl_head sl_heap after_rtm]. rewrite HL'. destruct (decide (k = key)) as [->|Hne].
  - rewrite lookup_insert_eq. split; [|intros [= <-]; auto].
    intros [[Ha|[_ ->]] Ea]; [|done]. rewrite after_rtm_ord in Ea by congruence.
    assert (table s !! key = Some a) by (by apply (table_spec s L)). congruence.
  - rewrite lookup_insert_ne, (table_spec s L) by done. split.
    + intros [[Ha|[_ ->]] Ea]; [by rewrite after_rtm_ord in Ea by congruence|congruence].
    + intros [Ha Ea]. rewrite after_rtm_ord by congruence. auto.
Qed.

Lemma after_rtm_inserts : table s !! key = None -> inserts key s after_rtm x.
Proof.
  intros Hz. destruct (rk_dummy _ _ _ Hok j l Hj Hd) as (n' & Hn' & Hh & _ & Hnew & _). simplify_eq.
  destruct after_rtm_x as (nx & Hnx & Ev & _). unfold inserts. rewrite Hz. split_and!.
  - apply after_rtm_table; [done|lia].
  - exists nx. split; [done|]. by rewrite Ev.
  - intros k a na [Ha _]%(table_spec s L) Hna; [|apply (rk_list _ _ _ Hok)].
    destruct (relinks_node _ _ a na Hr) as (n' & Hn2 & _ & _ & Ev' & _); [|eauto].
    rewrite lookup_insert_ne; [done|]. intros Ex. apply HxL. by rewrite Ex.
Qed.
End inserted.

Lemma GetWithInsertRTM_spec : exists y s' l' L', GetWithInsertRTM key junk s l = Ok (y, s', l') /\
  rtm_ok s' (<[j := l']> ls) L' /\ tl_localinit l' = tl_localinit l /\ inserts key s s' y.
Proof.
  pose proof (rk_list _ _ _ Hok) as Hl. pose proof (rk_max _ _ _ Hok) as Hmax.
  destruct (rk_dummy _ _ _ Hok j l Hj Hd) as (n & Hn & Hh & Hlenx & Hnew & Hout).
  destruct (rtm_preds s L key junk (nd_height n)) as (y & next & prev & E & Hy & Hnx & Hp);
    [done|done|apply (rk_high _ _ _ Hok)|done|done|lia|].
  destruct (search_found s L Hl key y next Hy Hnx) as [Ef Heq].
  unfold GetWithInsertRTM. rewrite E. cbn [mbind result_bind]. cbn [mbind result_bind] in Ef. rewrite Ef.
  destruct (table s !! key) as [z|] eqn:Hz.
  { exists next, s, l, L. rewrite list_insert_id by done. split_and!; [done..|].
    unfold inserts. rewrite Hz. split; [by rewrite (Heq z)|eauto]. }
  destruct (rtm_link n _ Hn Hz Hp) as (h' & L' & El & Hl' & HL' & Hr & HxL).
  unfold node. rewrite Hn. cbn [from_opt mbind result_bind]. change (default junk (Some prev)) with prev.
  rewrite El. exists x, (after_rtm n h'), (used l), L'. split_and!; [done| |done|].
  - by apply after_rtm_ok.
  - by apply (after_rtm_inserts n h' L').
Qed.
End rtm_insert.

(** ** Whole calls *)

(** A new spare node for thread [j]. *)
Lemma rtm_alloc s ls L j l a key height m r b : rtm_ok s ls L -> ls !! j = Some l -> fresh a s ->
  (1 <= height <= kMaxHeight)%nat ->
  rtm_ok (set_heap (<[a := NewNode key height m]> (sl_heap s)) s) (<[j := mkTls b r a]> ls) L.
Proof.
  intros Hok Hj [Ha0 Hfr] Hh. pose proof (rk_list _ _ _ Hok) as Hl.
  pose proof (extends_new _ _ L Hl a (NewNode key height m) Ha0 Hfr) as He.
  assert (forall k l0, <[j := mkTls b r a]> ls !! k = Some l0 ->
    k = j /\ tl_dummy l0 = a \/ k <> j /\ ls !! k = Some l0) as Hcase.
  { intros k l0 Hk. destruct (decide (k = j)) as [->|]; [|right; by rewrite list_lookup_insert_ne in Hk].
    rewrite list_lookup_insert_eq in Hk by (by eapply lookup_lt_Some). simplify_eq. by left. }
  assert (forall k l0, ls !! k = Some l0 -> tl_dummy l0 <> NULL -> tl_dummy l0 <> a) as Hnew.
  { intros k l0 Hk Hd E. destruct (rk_dummy _ _ _ Hok k l0 Hk Hd) as (n & Hn & _). congruence. }
  split; cbn.
  - by apply (list_ok_extends _ (sl_heap s)).
  - apply (rk_max _ _ _ Hok).
  - apply (rk_high _ _ _ Hok).
  - intros k l0 Hk Hd. apply Hcase in Hk as [[-> ->]|[Hne Hk]].
    + exists (NewNode key height m). rewrite lookup_insert_eq. split_and!; try done; [cbn; lia..| |].
      * cbn. rewrite length_map, length_seq. lia.
      * intros Ha. destruct (on_level_node _ _ L 0 a Hl) as (? & ? & _); [unfold kMaxHeight; lia|done|congruence].
    + destruct (rk_dummy _ _ _ Hok k l0 Hk Hd) as (n & Hn & Hrest). exists n.
      rewrite lookup_insert_ne by (intros E; by apply (Hnew k l0)). done.
  - intros k1 k2 l1 l2 [[-> E1]|[Hne1 Hk1]]%Hcase [[-> E2]|[Hne2 Hk2]]%Hcase Hd1 Ed; [done|..].
    + exfalso. apply (Hnew k2 l2 Hk2); congruence.
    + exfalso. apply (Hnew k1 l1 Hk1); congruence.
    + by apply (rk_distinct _ _ _ Hok k1 k2 l1 l2).
Qed.

Lemma table_extends s L a n : list_ok (sl_head s) (sl_heap s) L -> fresh a s ->
  table (set_heap (<[a := n]> (sl_heap s)) s) = table s.
Proof.
  intros Hl [Ha0 Hfr]. pose proof (extends_new _ _ L Hl a n Ha0 Hfr) as He.
  apply (table_ext s _ L L); [done|by apply (list_ok_extends _ (sl_heap s))|].
  intros k b. cbn. split; intros [Hb <-]; (split; [done|]); unfold ord;
    destruct (lk_node _ _ _ Hl 0 b Hb) as (nb & Hnb & _); rewrite lookup_insert_ne by congruence; done.
Qed.

Lemma set_heap_id s : set_heap (sl_heap s) s = s.
Proof. by destruct s. Qed.

(** Allocations around an insertion do not change its effect. *)
Lemma inserts_frame key s s1 s2 s3 x : table s1 = table s -> table s3 = table s2 ->
  (forall a n, sl_heap s !! a = Some n -> sl_heap s1 !! a = Some n) ->
  (forall a n, sl_heap s2 !! a = Some n -> sl_heap s3 !! a = Some n) ->
  inserts key s1 s2 x -> inserts key s s3 x.
Proof.
  intros E1 E3 H1 H3 [Hi Hk]. unfold inserts. rewrite E1 in *. rewrite E3. split.
  - destruct (table s !! key); [done|]. destruct Hi as (-> & n & Hn & Hnew). split; [done|]. eauto.
  - intros k a n Ha Hn. destruct (Hk k a n Ha (H1 a n Hn)) as (n' & ? & ?). eauto.
Qed.

Lemma rested_insert ls j l : rested ls -> tl_dummy l <> NULL -> rested (<[j := l]> ls).
Proof.
  intros Hr Hd k l0 Hk Hi. apply list_lookup_insert_Some in Hk as [(_ & <- & _)|[_ Hk]]; [done|].
  by apply (Hr k).
Qed.

(** [ThreadLocalInit] gives the thread a spare node. *)
Lemma rtm_init s ls L j l alloc : rtm_ok s ls L -> rested ls -> ls !! j = Some l ->
  (forall s, fresh (alloc s).1 s) ->
  let r := ThreadLocalInit (alloc s).1 (alloc s).2 (sl_heap s) l in
  rtm_ok (set_heap r.1 s) (<[j := r.2]> ls) L /\ tl_dummy r.2 <> NULL /\
  table (set_heap r.1 s) = table s /\
  (forall a n, sl_heap s !! a = Some n -> r.1 !! a = Some n).
Proof.
  intros Hok Hr Hj Hal. unfold ThreadLocalInit. destruct (tl_localinit l) eqn:Hi; cbn [negb].
  - cbn. rewrite set_heap_id, list_insert_id by done. split_and!; [done| |done..]. by apply (Hr j l).
  - destruct (RandomHeight (Random_new 0xdeadbeef)) as [height r] eqn:Eh. cbn.
    pose proof (RandomHeight_range (Random_new 0xdeadbeef)) as Hh. rewrite Eh in Hh. cbn in Hh.
    pose proof (Hal s) as Hfr. split_and!.
    + by eapply rtm_alloc.
    + apply Hfr.
    + by apply (table_extends s L); [apply (rk_list _ _ _ Hok)|].
    + intros a n Hn. rewrite lookup_insert_ne; [done|]. intros E. destruct Hfr. congruence.
Qed.

Lemma GetWithInsert_rtm_spec s ls L j l alloc key junk :
  rtm_ok s ls L -> rested ls -> ls !! j = Some l -> (forall s, fresh (alloc s).1 s) ->
  0 <= key -> length junk = kMaxHeight ->
  exists x s' l' L', GetWithInsert_rtm alloc key junk s l = Ok (x, s', l') /\
    rtm_ok s' (<[j := l']> ls) L' /\ rested (<[j := l']> ls) /\ inserts key s s' x.
Proof.
  intros Hok Hr Hj Hal Hk Hlen. pose proof (rtm_init s ls L j l alloc Hok Hr Hj Hal) as Hinit.
  unfold GetWithInsert_rtm. destruct (ThreadLocalInit _ _ _ l) as [h1 l1]. cbn in Hinit.
  destruct Hinit as (Hok1 & Hd1 & Et1 & Hh1).
  assert (<[j := l1]> ls !! j = Some l1) as Hj1 by (apply list_lookup_insert_eq; by eapply lookup_lt_Some).
  destruct (GetWithInsertRTM_spec (set_heap h1 s) _ L j l1 key junk Hok1 Hj1 Hd1 Hk Hlen)
    as (x & s2 & l2 & L2 & -> & Hok2 & Hi2 & Hins). cbn [mbind result_bind].
  rewrite list_insert_insert_eq in Hok2.
  assert (<[j := l2]> ls !! j = Some l2) as Hj2 by (apply list_lookup_insert_eq; by eapply lookup_lt_Some).
  destruct (Z.eqb_spec (tl_dummy l2) NULL) as [E|E].
  - destruct (RandomHeight (tl_rnd l2)) as [height r] eqn:Eh. pose proof (Hal s2) as Hfr.
    destruct (alloc s2) as [a m]. pose proof (RandomHeight_range (tl_rnd l2)) as Hh. rewrite Eh in Hh.
    eexists x, _, _, L2. split_and!; [done| | |].
    + pose proof (rtm_alloc s2 _ L2 j l2 a key height m r (tl_localinit l2) Hok2 Hj2 Hfr Hh) as Hok3.
      by rewrite list_insert_insert_eq in Hok3.
    + apply rested_insert; [done|]. apply Hfr.
    + apply (inserts_frame key s (set_heap h1 s) s2 _ x); [done| |done| |done].
      * by apply (table_extends s2 L2); [apply (rk_list _ _ _ Hok2)|].
      * intros b n Hn. cbn. rewrite lookup_insert_ne; [done|]. intros Eb. destruct Hfr. cbn in *. congruence.
  - exists x, s2, l2, L2. split_and!; [done..|by apply rested_insert|].
    by apply (inserts_frame key s (set_heap h1 s) s2 s2 x).
Qed.

Lemma rtm_reachable_ok s ls : rtm_reachable s ls -> exists L, rtm_ok s ls L /\ rested ls.
Proof.
  induction 1 as [a m n Ha|s ls j l alloc key junk x s' l' _ (L & Hok & Hr) Hj Hk Hlen Hal E].
  - exists (fun _ => ∅). split; [split|].
    + by apply list_ok_new.
    + cbn. unfold kMaxHeight. lia.
    + set_solver.
    + intros j l [-> _]%lookup_replicate Hd. done.
    + intros j k l l' [-> _]%lookup_replicate _ Hd. done.
    + intros j l [-> _]%lookup_replicate Hd. done.
  - destruct (GetWithInsert_rtm_spec s ls L j l alloc key junk)
      as (x2 & s2 & l2 & L2 & E2 & Hok2 & Hr2 & _); try done; [lia|].
    rewrite E in E2. simplify_eq. eauto.
Qed.

(** In every state that calls of the RTM build reach, a call of
    [GetWithInsert] returns without a fault; it finds the record of the key or
    links the thread's spare node, whose record is initialised, under the key,
    and leaves the records of the table as they are. *)
Lemma rtm_insert_returns s ls j l alloc key junk :
  rtm_reachable s ls -> ls !! j = Some l -> (forall s, fresh (alloc s).1 s) ->
  0 <= key < 2 ^ 64 -> length junk = kMaxHeight ->
  exists x s' l', GetWithInsert_rtm alloc key junk s l = Ok (x, s', l') /\ inserts key s s' x.
Proof.
  intros Hr Hj Hal Hk Hlen. destruct (rtm_reachable_ok s ls Hr) as (L & Hok & Hrest).
  destruct (GetWithInsert_rtm_spec s ls L j l alloc key junk) as (x & s' & l' & _ & E & _ & _ & Hi);
    try done; [lia|]. eauto.
Qed.

Lemma rtm_insert_returns_witness :
  exists x s' l', GetWithInsert_rtm alloc0 5 (replicate kMaxHeight NULL)
      (MemStoreSkipList_new 1000 zeroed) tls_new = Ok (x, s', l') /\
    inserts 5 (MemStoreSkipList_new 1000 zeroed) s' x.
Proof.
  apply (rtm_insert_returns _ [tls_new] 0); [|reflexivity|intros s; apply new_addr_fresh|lia|reflexivity].
  apply (rtm_start 1000 zeroed 1). unfold NULL. lia.
Defined.

(** ** GetWithInsertLockFree *)

Inductive lf_pc :=
  | LIdle
  (** the loop of [FindGreaterOrEqual(key, preds)] *)
  | LFind (level : nat) (x : addr)
  (** before [maxh = max_height_], before the [cmpxchg] of [max_height_] *)
  | LMax
  | LCas (maxh : nat)
  (** before [NewNode] *)
  | LNew (maxh : nat)
  (** before a read of [preds[i]->next_[i]] into [succs[i]] *)
  | LSucc (i : nat) (x : addr)
  (** before [x->next_[i] = preds[i]->next_[i]], before the [cmpxchg] of the link *)
  | LLink (i : nat) (x : addr)
  | LCasNext (i : nat) (x : addr)
  | LDone (x : addr).

(** The height is drawn when the key was not found. *)
Record lf_thread := mkLf { lf_tls : tls; lf_lo : locals; lf_pc_of : lf_pc }.

Definition lf_at (p : lf_pc) (t : lf_thread) : lf_thread := mkLf (lf_tls t) (lf_lo t) p.

Definition set_preds (preds : list addr) (l : locals) : locals :=
  mkLocals (lo_key l) (lo_height l) preds (lo_succs l) (lo_highestLocked l).

Definition set_succ (i : nat) (succ : addr) (l : locals) : locals :=
  mkLocals (lo_key l) (lo_height l) (lo_preds l) (<[i := succ]> (lo_succs l)) (lo_highestLocked l).

Definition set_max_height (m : nat) (s : skiplist) : skiplist := mkSkipList (sl_heap s) (sl_head s) m.

Definition LockFree_call (a : addr) (m : raw) (key : Z) (junk : list addr * list addr)
    (s : skiplist) (t : lf_thread) : skiplist * lf_thread :=
  let '(h, l) := ThreadLocalInit a m (sl_heap s) (lf_tls t) in
  (set_heap h s, mkLf l (mkLocals key 0 junk.1 junk.2 (-1)) (LFind (sl_max_height s - 1) (sl_head s))).

(** After the search: the key was found, or a height is drawn. *)
Definition lf_found (h : heap) (next : addr) (t : lf_thread) : result lf_thread :=
  let '(height, rnd_) := RandomHeight (tl_rnd (lf_tls t)) in
  let l := lf_tls t in
  let lo := lf_lo t in
  let draw := mkLf (mkTls (tl_localinit l) rnd_ (tl_dummy l))
    (mkLocals (lo_key lo) height (lo_preds lo) (lo_succs lo) (-1)) LMax in
  if next =? NULL then Ok draw
  else n ← node h next; Ok (if lo_key lo =? nd_key n then lf_at (LDone next) t else draw).

Definition LFind_step (s : skiplist) (level : nat) (x : addr) (t : lf_thread) :
    result (skiplist * lf_thread) :=
  '(next, forward) ← look (sl_heap s) (lo_key (lf_lo t)) x level;
  if (forward : bool) then Ok (s, lf_at (LFind level next) t)
  else
    let t := mkLf (lf_tls t) (set_preds (<[level := x]> (lo_preds (lf_lo t))) (lf_lo t)) (lf_pc_of t) in
    match level with
    | O => t ← lf_found (sl_heap s) next t; Ok (s, t)
    | S level => Ok (s, lf_at (LFind level x) t)
    end.

(** The read of [succs[i]]: the walk goes on past smaller keys; an equal key is
    returned and the new node freed. *)
Definition LSucc_step (s : skiplist) (i : nat) (x : addr) (t : lf_thread) : result (skiplist * lf_thread) :=
  pred ← pred_at (lf_lo t) i;
  succ ← next_at (sl_heap s) pred i;
  let lo := set_succ i succ (lf_lo t) in
  if succ =? NULL then Ok (s, mkLf (lf_tls t) lo (LLink i x))
  else
    n ← node (sl_heap s) succ;
    if nd_key n <? lo_key lo then
      Ok (s, mkLf (lf_tls t) (set_preds (<[i := succ]> (lo_preds lo)) lo) (LSucc i x))
    else if lo_key lo =? nd_key n then
      Ok (set_heap (delete x (sl_heap s)) s, mkLf (lf_tls t) lo (LDone succ))
    else Ok (s, mkLf (lf_tls t) lo (LLink i x)).

Definition LCasNext_step (s : skiplist) (i : nat) (x : addr) (t : lf_thread) : result (skiplist * lf_thread) :=
  pred ← pred_at (lf_lo t) i;
  succ ← succ_at (lf_lo t) i;
  next ← next_at (sl_heap s) pred i;
  if next =? succ then
    h ← set_next (sl_heap s) pred i x;
    Ok (set_heap h s,
        lf_at (if (S i <? lo_height (lf_lo t))%nat then LSucc (S i) x else LDone x) t)
  else Ok (s, lf_at (LSucc i x) t).

Definition lf_step (a : addr) (m : raw) (s : skiplist) (t : lf_thread) : result (skiplist * lf_thread) :=
  let lo := lf_lo t in
  match lf_pc_of t with
  | LIdle | LDone _ => Ok (s, t)
  | LFind level x => LFind_step s level x t
  | LMax =>
      let maxh := sl_max_height s in
      Ok (s, lf_at (if (maxh <? lo_height lo)%nat then LCas maxh else LNew maxh) t)
  | LCas maxh =>
      if (sl_max_height s =? maxh)%nat then Ok (set_max_height (lo_height lo) s, lf_at (LNew maxh) t)
      else Ok (s, lf_at LMax t)
  | LNew maxh =>
      let preds := fill_preds (lo_height lo - maxh) maxh (sl_head s) (lo_preds lo) in
      Ok (set_heap (<[a := NewNode (lo_key lo) (lo_height lo) m]> (sl_heap s)) s,
          mkLf (lf_tls t) (set_preds preds lo) (LSucc 0 a))
  | LSucc i x => LSucc_step s i x t
  | LLink i x =>
      pred ← pred_at lo i;
      next ← next_at (sl_heap s) pred i;
      h ← set_next (sl_heap s) x i next;
      Ok (set_heap h s, lf_at (LCasNext i x) t)
  | LCasNext i x => LCasNext_step s i x t
  end.

(** ** Runs of the lock-free build *)

Record lf_sys := mkLfSys { f_list : skiplist; f_thr : list lf_thread }.

Definition lf_quiet (t : lf_thread) : bool :=
  match lf_pc_of t with LIdle | LDone _ => true | _ => false end.

Inductive lf_sys_step (s : lf_sys) : lf_sys -> Prop :=
  | lf_call j t key a m junk l' t' :
      f_thr s !! j = Some t -> lf_quiet t = true -> 0 <= key < 2 ^ 64 -> fresh a (f_list s) ->
      length junk.1 = kMaxHeight -> length junk.2 = kMaxHeight ->
      LockFree_call a m key junk (f_list s) t = (l', t') ->
      lf_sys_step s (mkLfSys l' (<[j := t']> (f_thr s)))
  | lf_run j t a m l' t' :
      f_thr s !! j = Some t -> fresh a (f_list s) -> lf_step a m (f_list s) t = Ok (l', t') ->
      lf_sys_step s (mkLfSys l' (<[j := t']> (f_thr s))).

Definition lf_start (a : addr) (m : raw) (n : nat) : lf_sys :=
  mkLfSys (MemStoreSkipList_new a m) (replicate n (mkLf tls_new (mkLocals 0 0 [] [] (-1)) LIdle)).

Inductive lf_event := LCall (j : nat) (key : Z) | LRun (j n : nat).

Definition lf_run1 (s : lf_sys) (j : nat) : lf_sys :=
  match f_thr s !! j with
  | Some t =>
      match lf_step (new_addr (f_list s)) zeroed (f_list s) t with
      | Ok (l, t) => mkLfSys l (<[j := t]> (f_thr s))
      | Fault _ => s
      end
  | None => s
  end.

Definition lf_exec1 (s : lf_sys) (e : lf_event) : lf_sys :=
  match e with
  | LCall j key =>
      match f_thr s !! j with
      | Some t =>
          if lf_quiet t && (0 <=? key) && (key <? 2 ^ 64) then
            let r := LockFree_call (new_addr (f_list s)) zeroed key junk0 (f_list s) t in
            mkLfSys r.1 (<[j := r.2]> (f_thr s))
          else s
      | None => s
      end
  | LRun j n => Nat.iter n (fun s => lf_run1 s j) s
  end.

Definition lf_exec (s : lf_sys) (es : list lf_event) : lf_sys := fold_left lf_exec1 es s.

Lemma lf_run1_rtc s j : rtc lf_sys_step s (lf_run1 s j).
Proof.
  unfold lf_run1. destruct (f_thr s !! j) as [t|] eqn:Hj; [|done].
  destruct (lf_step (new_addr (f_list s)) zeroed (f_list s) t) as [[l t']|f] eqn:E; [|done].
  apply rtc_once. by apply (lf_run s j t (new_addr (f_list s)) zeroed); [|apply new_addr_fresh|].
Qed.

Lemma lf_exec1_rtc s e : rtc lf_sys_step s (lf_exec1 s e).
Proof.
  destruct e as [j key|j n]; cbn [lf_exec1].
  - destruct (f_thr s !! j) as [t|] eqn:Hj; [|done]. case_match eqn:E; [|done].
    apply andb_true_iff in E as [[Hq Hk%Z.leb_le]%andb_true_iff Hk'%Z.ltb_lt]. apply rtc_once.
    apply (lf_call s j t key (new_addr (f_list s)) zeroed junk0);
      [done..|apply new_addr_fresh|done|done|apply surjective_pairing].
  - induction n as [|n IH]; [done|]. cbn [Nat.iter nat_rect]. etrans; [apply IH|apply lf_run1_rtc].
Qed.

Lemma lf_exec_rtc s es : rtc lf_sys_step s (lf_exec s es).
Proof.
  revert s. induction es as [|e es IH]; intros s; [done|]. cbn. etrans; [apply lf_exec1_rtc|apply IH].
Qed.

(** The fault of the next access of thread [j], if it faults. *)
Definition lf_faults (s : lf_sys) (j : nat) : option fault :=
  match f_thr s !! j with
  | Some t =>
      match lf_step (new_addr (f_list s)) zeroed (f_list s) t with Ok _ => None | Fault f => Some f end
  | None => None
  end.

(** Seven insertions of each thread draw height 1 and the eighth height 2.
    Thread 0 searches for 99 while [max_height_] is 1; then thread 1 raises it. *)
Definition lf_race : list lf_event :=
  concat (map (fun k => [LCall 0 (10 + k); LRun 0 60; LCall 1 (30 + k); LRun 1 60]) [0; 1; 2; 3; 4; 5; 6]) ++
  [LCall 0 99; LCall 1 5; LRun 0 15; LRun 1 60; LRun 0 5].

(** [GetWithInsertLockFree] follows an uninitialised pointer when another
    thread raises [max_height_] between its search and its own read of
    [max_height_]: the loop that sets the missing predecessors starts at the
    raised height, so [preds[1]] is never written. *)
Lemma lockfree_uninitialised_pred : exists s,
  rtc lf_sys_step (lf_start 1000 zeroed 2) s /\ lf_faults s 0 = Some NullDeref.
Proof.
  exists (lf_exec (lf_start 1000 zeroed 2) lf_race). split; [apply lf_exec_rtc|].
  vm_compute. reflexivity.
Qed.
