(* ===== verification/TxSets.v ===== *)
(** * The private sets of a transaction

    [DBTX::ReadSet] and [DBTX::WriteSet] (db/dbtx.h, db/dbtx.cc) and [DELSet]
    (db/delset.h, db/delset.cc).  Arrays are lists of the allocated length with
    the element count beside them, as in the code. *)

From S2P Require Import Prelude MemStore.

Definition MAXSIZE : nat := 1024.

Definition NO_CONFLICT : Z := -1.

(** ** ReadSet *)

(** [seqptr] points to the first field of a [MemNode] (or of a [SecondNode]),
    so it is the record's address. *)
Record RSSeqPair := mkRSSeqPair { rs_seq : Z; rs_seqptr : addr; rs_label : Z }.

Record RSSuccPair := mkRSSuccPair { rs_next : Z; rs_nextptr : addr }.

Record ReadSet := mkReadSet {
  rs_max_length : nat;
  rs_seqs : list RSSeqPair;
  rs_rangeElems : nat;
  rs_nexts : list RSSuccPair;
  rs_elems : nat
}.

(** [new RSSeqPair[n]] leaves the elements unset; they are written before they
    are read. *)
Definition RSSeqPair_0 : RSSeqPair := mkRSSeqPair 0 NULL 0.
Definition RSSuccPair_0 : RSSuccPair := mkRSSuccPair 0 NULL.

Definition ReadSet_new : ReadSet :=
  mkReadSet MAXSIZE (replicate MAXSIZE RSSeqPair_0) 0 (replicate MAXSIZE RSSuccPair_0) 0.

Definition ReadSet_Reset (r : ReadSet) : ReadSet :=
  mkReadSet (rs_max_length r) (rs_seqs r) 0 (rs_nexts r) 0.

Definition ReadSet_Resize (r : ReadSet) : ReadSet :=
  let max_length := (rs_max_length r * 2)%nat in
  mkReadSet max_length
    (take (rs_elems r) (rs_seqs r) ++ replicate (max_length - rs_elems r) RSSeqPair_0)
    (rs_rangeElems r)
    (take (rs_rangeElems r) (rs_nexts r) ++ replicate (max_length - rs_rangeElems r) RSSuccPair_0)
    (rs_elems r).

Definition ReadSet_AddNext (ptr : addr) (value : Z) (r : ReadSet) : ReadSet :=
  let r := if (rs_rangeElems r =? rs_max_length r)%nat then ReadSet_Resize r else r in
  let cur := rs_rangeElems r in
  mkReadSet (rs_max_length r) (rs_seqs r) (S cur)
    (<[cur := mkRSSuccPair value ptr]> (rs_nexts r)) (rs_elems r).

(** [rd] reads the 64-bit word at an address. *)
Definition ReadSet_Add (rd : addr -> option Z) (ptr : addr) (label : Z) (r : ReadSet) : result ReadSet :=
  let r := if (rs_elems r =? rs_max_length r)%nat then ReadSet_Resize r else r in
  let cur := rs_elems r in
  s ← from_opt NullDeref (rd ptr);
  Ok (mkReadSet (rs_max_length r) (<[cur := mkRSSeqPair s ptr label]> (rs_seqs r))
        (rs_rangeElems r) (rs_nexts r) (S cur)).

(** The first loop of [Validate]; it returns out of the function on a conflict. *)
Fixpoint Validate_seqs (rd : addr -> option Z) (l : list RSSeqPair) : result (option Z) :=
  match l with
  | [] => Ok None
  | p :: l =>
      cur ← from_opt NullDeref (rd (rs_seqptr p));
      if rs_seq p =? cur then Validate_seqs rd l else Ok (Some (rs_label p))
  end.

Fixpoint Validate_nexts (rd : addr -> option Z) (l : list RSSuccPair) : result Z :=
  match l with
  | [] => Ok NO_CONFLICT
  | p :: l =>
      cur ← from_opt NullDeref (rd (rs_nextptr p));
      if rs_next p =? cur then Validate_nexts rd l else Ok 0
  end.

(** A conflict on a record is reported by the label given to [Add], a
    conflict on a range by [0]. *)
Definition ReadSet_Validate (rd : addr -> option Z) (r : ReadSet) : result Z :=
  c ← Validate_seqs rd (take (rs_elems r) (rs_seqs r));
  match c with
  | Some label => Ok label
  | None => Validate_nexts rd (take (rs_rangeElems r) (rs_nexts r))
  end.

(** ** DELSet *)

Record DELElement := mkDELElement {
  de_tableid : nat;
  de_key : Z;
  de_node : addr;
  de_delay : bool;
  de_seq : Z
}.

Record DELSet := mkDELSet {
  ds_qsize : nat;
  ds_queue : list DELElement;
  ds_elems : nat;
  ds_delayNum : nat
}.

Definition DELElement_0 : DELElement := mkDELElement 0 0 NULL false 0.

Definition DELSet_new : DELSet := mkDELSet 64 (replicate 64 DELElement_0) 0 0.

Definition DELSet_Reset (d : DELSet) : DELSet := mkDELSet (ds_qsize d) (ds_queue d) 0 0.

(** Filling the last slot ends the process. *)
Definition DELSet_Add (m : nodemem) (tableid : nat) (key : Z) (n : addr) (delay : bool)
    (d : DELSet) : result DELSet :=
  node ← node_at m n;
  let e := mkDELElement tableid key n delay (u64 (mn_seq node + 1)) in
  let elems := S (ds_elems d) in
  if (elems =? ds_qsize d)%nat then Fault ExitCall
  else Ok (mkDELSet (ds_qsize d) (<[ds_elems d := e]> (ds_queue d)) elems
             (if delay then S (ds_delayNum d) else ds_delayNum d)).

Definition DELSet_entries (d : DELSet) : list DELElement := take (ds_elems d) (ds_queue d).

Definition clear_node (e : DELElement) : DELElement :=
  mkDELElement (de_tableid e) (de_key e) NULL (de_delay e) (de_seq e).

(** [getGCNodes] and [getDelayNodes] move the nodes out of the queue. *)
Definition getGCNodes (d : DELSet) : list addr * DELSet :=
  if (ds_elems d - ds_delayNum d =? 0)%nat then ([], d)
  else
    (de_node <$> filter (fun e => de_delay e = false) (DELSet_entries d),
     mkDELSet (ds_qsize d)
       (((fun e => if de_delay e then e else clear_node e) <$> DELSet_entries d) ++ drop (ds_elems d) (ds_queue d))
       (ds_elems d) (ds_delayNum d)).

Definition getDelayNodes (d : DELSet) : list DELElement * DELSet :=
  if (ds_delayNum d =? 0)%nat then ([], d)
  else
    (filter (fun e => de_delay e = true) (DELSet_entries d),
     mkDELSet (ds_qsize d)
       (((fun e => if de_delay e then clear_node e else e) <$> DELSet_entries d) ++ drop (ds_elems d) (ds_queue d))
       (ds_elems d) (ds_delayNum d)).

(** ** WriteSet *)

Record WSKV := mkWSKV {
  ws_tableid : nat;
  ws_key : Z;
  ws_val : addr;
  ws_commitval : addr;
  ws_commitseq : Z;
  ws_node : addr;
  ws_dummy : addr
}.

Record WriteSet := mkWriteSet {
  ws_max_length : nat;
  ws_elems : nat;
  ws_commitSN : Z;
  ws_kvs : list WSKV;
  ws_dbtx : bool
}.

Definition WSKV_0 : WSKV := mkWSKV 0 0 NULL NULL 0 NULL NULL.

Definition WriteSet_new : WriteSet :=
  mkWriteSet MAXSIZE 0 0 (replicate MAXSIZE WSKV_0) false.

Definition WriteSet_entries (w : WriteSet) : list WSKV := take (ws_elems w) (ws_kvs w).

Definition WriteSet_Resize (w : WriteSet) : WriteSet :=
  let max_length := (ws_max_length w * 2)%nat in
  mkWriteSet max_length (ws_elems w) (ws_commitSN w)
    (take (ws_elems w) (ws_kvs w) ++ replicate (max_length - ws_elems w) WSKV_0) (ws_dbtx w).

(** [Clear]: the set with the value buffers and the version records it frees. *)
Definition WriteSet_Clear (w : WriteSet) : WriteSet * list addr * list addr :=
  (mkWriteSet (ws_max_length w) 0 0 (ws_kvs w) (ws_dbtx w),
   ws_val <$> filter (fun kv => ws_val kv <> LOGICALDELETE) (WriteSet_entries w),
   ws_dummy <$> filter (fun kv => ws_dummy kv <> NULL) (WriteSet_entries w)).

Definition WriteSet_Reset (w : WriteSet) : WriteSet :=
  mkWriteSet (ws_max_length w) 0 0 (ws_kvs w) (ws_dbtx w).

(** The commit fields of the slot keep what an earlier transaction left. *)
Definition WriteSet_Add (tableid : nat) (key : Z) (val node : addr) (w : WriteSet) : WriteSet :=
  let w := if (ws_elems w =? ws_max_length w)%nat then WriteSet_Resize w else w in
  let cur := ws_elems w in
  let old := default WSKV_0 (ws_kvs w !! cur) in
  mkWriteSet (ws_max_length w) (S cur) (ws_commitSN w)
    (<[cur := mkWSKV tableid key val (ws_commitval old) (ws_commitseq old) node NULL]> (ws_kvs w))
    (ws_dbtx w).

(** Without [USESECONDINDEX] (db/dbtables.h) this overload has an empty body. *)
Definition WriteSet_AddSec (seq mnw node : addr) (w : WriteSet) : WriteSet := w.

Fixpoint Lookup_loop (l : list WSKV) (tableid : nat) (key : Z) (res : option addr) : option addr :=
  match l with
  | [] => res
  | kv :: l =>
      if (ws_tableid kv =? tableid)%nat && (ws_key kv =? key)
      then Lookup_loop l tableid key (Some (ws_val kv))
      else Lookup_loop l tableid key res
  end.

Definition WriteSet_Lookup (w : WriteSet) (tableid : nat) (key : Z) : option addr :=
  Lookup_loop (WriteSet_entries w) tableid key None.

Definition WriteSet_SetDBTX (w : WriteSet) : WriteSet :=
  mkWriteSet (ws_max_length w) (ws_elems w) (ws_commitSN w) (ws_kvs w) true.

(** [CheckWriteSet]: no written record has been removed from its table. *)
Fixpoint Check_loop (m : nodemem) (l : list WSKV) : result bool :=
  match l with
  | [] => Ok true
  | kv :: l =>
      n ← node_at m (ws_node kv);
      if mn_value n =? HAVEREMOVED then Ok false else Check_loop m l
  end.

Definition WriteSet_CheckWriteSet (m : nodemem) (w : WriteSet) : result bool :=
  Check_loop m (WriteSet_entries w).

(** [GetOldVersions] *)
Definition WriteSet_GetOldVersions (w : WriteSet) : list addr :=
  ws_dummy <$> filter (fun kv => ws_dummy kv <> NULL) (WriteSet_entries w).

(** [GetDeletedValues] first clears the values that are reserved pointers. *)
Definition drop_reserved (kv : WSKV) : WSKV :=
  if (ws_val kv =? NULL) || negb (ValidateValue (ws_val kv)) then
    mkWSKV (ws_tableid kv) (ws_key kv) NULL (ws_commitval kv) (ws_commitseq kv)
      (ws_node kv) (ws_dummy kv)
  else kv.

Definition WriteSet_GetDeletedValues (w : WriteSet) : list addr * WriteSet :=
  let entries := drop_reserved <$> WriteSet_entries w in
  (ws_val <$> filter (fun kv => ws_val kv <> NULL) entries,
   mkWriteSet (ws_max_length w) (ws_elems w) (ws_commitSN w)
     (entries ++ drop (ws_elems w) (ws_kvs w)) (ws_dbtx w)).

(** ** Well-formedness *)

Record rs_wf (r : ReadSet) : Prop := {
  rs_wf_pos : (0 < rs_max_length r)%nat;
  rs_wf_seqs : length (rs_seqs r) = rs_max_length r;
  rs_wf_nexts : length (rs_nexts r) = rs_max_length r;
  rs_wf_elems : (rs_elems r <= rs_max_length r)%nat;
  rs_wf_range : (rs_rangeElems r <= rs_max_length r)%nat
}.

Definition rs_reads (r : ReadSet) : list RSSeqPair := take (rs_elems r) (rs_seqs r).
Definition rs_ranges (r : ReadSet) : list RSSuccPair := take (rs_rangeElems r) (rs_nexts r).

Record ws_wf (w : WriteSet) : Prop := {
  ws_wf_pos : (0 < ws_max_length w)%nat;
  ws_wf_kvs : length (ws_kvs w) = ws_max_length w;
  ws_wf_elems : (ws_elems w <= ws_max_length w)%nat
}.

Record ds_wf (d : DELSet) : Prop := {
  ds_wf_queue : length (ds_queue d) = ds_qsize d;
  ds_wf_elems : (ds_elems d < ds_qsize d)%nat;
  ds_wf_delay : ds_delayNum d = length (filter (fun e => de_delay e = true) (DELSet_entries d))
}.

Lemma ReadSet_new_wf : rs_wf ReadSet_new.
Proof. split; cbn -[replicate]; rewrite ?length_replicate; unfold MAXSIZE; lia. Qed.

Lemma ReadSet_Reset_wf r : rs_wf r -> rs_wf (ReadSet_Reset r).
Proof. intros []. split; simpl; try done; lia. Qed.

Lemma ReadSet_Resize_wf r :
  rs_wf r -> rs_wf (ReadSet_Resize r) /\
  rs_reads (ReadSet_Resize r) = rs_reads r /\ rs_ranges (ReadSet_Resize r) = rs_ranges r /\
  (rs_max_length r < rs_max_length (ReadSet_Resize r))%nat.
Proof.
  intros []. split_and!.
  - split; cbn -[Nat.mul]; try lia; rewrite length_resize; lia.
  - unfold rs_reads. simpl. rewrite take_resize; [done|lia].
  - unfold rs_ranges. simpl. rewrite take_resize; [done|lia].
  - cbn -[Nat.mul]. lia.
Qed.

(** What the capacity test in front of every insertion achieves. *)
Lemma ReadSet_room (b : bool) r :
  rs_wf r -> let r' := if b then ReadSet_Resize r else r in
  rs_wf r' /\ rs_reads r' = rs_reads r /\ rs_ranges r' = rs_ranges r /\
  rs_elems r' = rs_elems r /\ rs_rangeElems r' = rs_rangeElems r /\
  (b = true -> (rs_max_length r < rs_max_length r')%nat) /\ (b = false -> r' = r).
Proof.
  intros H. destruct b; simpl; [|split_and!; try done].
  pose proof (ReadSet_Resize_wf r H). split_and!; naive_solver.
Qed.

Lemma ReadSet_Add_spec rd ptr label r s :
  rs_wf r -> rd ptr = Some s ->
  exists r', ReadSet_Add rd ptr label r = Ok r' /\ rs_wf r' /\
    rs_reads r' = rs_reads r ++ [mkRSSeqPair s ptr label] /\ rs_ranges r' = rs_ranges r.
Proof.
  intros H Hrd. unfold ReadSet_Add. rewrite Hrd.
  pose proof (ReadSet_room (rs_elems r =? rs_max_length r)%nat r H) as Hroom.
  assert (He := rs_wf_elems _ H). revert Hroom.
  set (r' := if (rs_elems r =? rs_max_length r)%nat then ReadSet_Resize r else r).
  intros (Hwf & Hr & Hg & Hel & _ & Hgrow & Hsame).
  assert (rs_elems r' < rs_max_length r')%nat as Hlt.
  { destruct (Nat.eqb_spec (rs_elems r) (rs_max_length r)) as [E|].
    - specialize (Hgrow eq_refl). lia.
    - rewrite (Hsame eq_refl). lia. }
  destruct Hwf. eexists. split; [done|]. split; [|split].
  - split; simpl; rewrite ?length_insert; lia.
  - unfold rs_reads. cbn [rs_elems rs_seqs]. rewrite take_insert_snoc by lia.
    f_equal. exact Hr.
  - exact Hg.
Qed.

Lemma ReadSet_AddNext_spec ptr v r :
  rs_wf r -> let r' := ReadSet_AddNext ptr v r in
  rs_wf r' /\ rs_reads r' = rs_reads r /\ rs_ranges r' = rs_ranges r ++ [mkRSSuccPair v ptr].
Proof.
  intros H. unfold ReadSet_AddNext.
  pose proof (ReadSet_room (rs_rangeElems r =? rs_max_length r)%nat r H) as Hroom.
  assert (He := rs_wf_range _ H). revert Hroom.
  set (r' := if (rs_rangeElems r =? rs_max_length r)%nat then ReadSet_Resize r else r).
  intros (Hwf & Hr & Hg & _ & Hel & Hgrow & Hsame).
  assert (rs_rangeElems r' < rs_max_length r')%nat as Hlt.
  { destruct (Nat.eqb_spec (rs_rangeElems r) (rs_max_length r)) as [E|].
    - specialize (Hgrow eq_refl). lia.
    - rewrite (Hsame eq_refl). lia. }
  destruct Hwf. split; [|split].
  - split; simpl; rewrite ?length_insert; lia.
  - exact Hr.
  - unfold rs_ranges. cbn [rs_rangeElems rs_nexts]. rewrite take_insert_snoc by lia.
    f_equal. exact Hg.
Qed.

(** ** Validation *)

(** The word a read recorded is still in memory. *)
Definition read_current (rd : addr -> option Z) (p : RSSeqPair) : Prop :=
  rd (rs_seqptr p) = Some (rs_seq p).

Definition range_current (rd : addr -> option Z) (p : RSSuccPair) : Prop :=
  rd (rs_nextptr p) = Some (rs_next p).

Lemma Validate_seqs_None rd l :
  Validate_seqs rd l = Ok None <-> Forall (read_current rd) l.
Proof.
  unfold read_current. induction l as [|p l IH]; simpl; [by split|].
  rewrite Forall_cons. destruct (rd (rs_seqptr p)) as [c|]; simpl.
  - unfold mbind, result_bind. destruct (Z.eqb_spec (rs_seq p) c) as [->|].
    + rewrite IH. naive_solver.
    + naive_solver.
  - naive_solver.
Qed.

Lemma Validate_nexts_None rd l :
  Validate_nexts rd l = Ok NO_CONFLICT <-> Forall (range_current rd) l.
Proof.
  unfold range_current. induction l as [|p l IH]; simpl; [by split|].
  rewrite Forall_cons. destruct (rd (rs_nextptr p)) as [c|]; simpl.
  - unfold mbind, result_bind. destruct (Z.eqb_spec (rs_next p) c) as [->|].
    + rewrite IH. naive_solver.
    + unfold NO_CONFLICT. naive_solver.
  - naive_solver.
Qed.

Lemma Validate_seqs_label rd l lb :
  Validate_seqs rd l = Ok (Some lb) -> exists p, p ∈ l /\ rs_label p = lb.
Proof.
  induction l as [|p l IH]; simpl; [done|].
  destruct (rd (rs_seqptr p)) as [c|]; simpl; [|done].
  unfold mbind, result_bind. destruct (Z.eqb_spec (rs_seq p) c).
  - intros (q & ? & ?)%IH. exists q. set_solver.
  - intros [= <-]. exists p. set_solver.
Qed.

Lemma ReadSet_Validate_ok rd r :
  (forall p, p ∈ rs_reads r -> rs_label p <> NO_CONFLICT) ->
  ReadSet_Validate rd r = Ok NO_CONFLICT <->
  Forall (read_current rd) (rs_reads r) /\ Forall (range_current rd) (rs_ranges r).
Proof.
  intros Hlab. unfold ReadSet_Validate. fold (rs_reads r) (rs_ranges r).
  rewrite <- Validate_seqs_None, <- Validate_nexts_None.
  unfold mbind, result_bind. destruct (Validate_seqs rd (rs_reads r)) as [[lb|]|f] eqn:E.
  - apply Validate_seqs_label in E as (p & Hp & Hl). specialize (Hlab p Hp).
    split; intros HH; [injection HH as HH; congruence|]. destruct HH; congruence.
  - naive_solver.
  - naive_solver.
Qed.

(** ** Write sets *)

Lemma WriteSet_new_wf : ws_wf WriteSet_new.
Proof. split; cbn -[replicate]; rewrite ?length_replicate; unfold MAXSIZE; lia. Qed.

Lemma WriteSet_Reset_wf w : ws_wf w -> ws_wf (WriteSet_Reset w).
Proof. intros []. split; simpl; try done; lia. Qed.

Lemma WriteSet_SetDBTX_wf w : ws_wf w -> ws_wf (WriteSet_SetDBTX w).
Proof. intros []. by split. Qed.

Lemma WriteSet_room (b : bool) w :
  ws_wf w -> let w' := if b then WriteSet_Resize w else w in
  ws_wf w' /\ WriteSet_entries w' = WriteSet_entries w /\ ws_elems w' = ws_elems w /\
  (b = true -> (ws_max_length w < ws_max_length w')%nat) /\ (b = false -> w' = w).
Proof.
  intros H. destruct b; simpl; [|split_and!; try done]. destruct H. split_and!; try done.
  - split; cbn -[Nat.mul]; try lia. rewrite length_resize; lia.
  - unfold WriteSet_entries. simpl. rewrite take_resize; [done|lia].
  - intros _. cbn -[Nat.mul]. lia.
Qed.

(** [WriteSet::Add] appends the write, whatever the capacity. *)
Lemma WriteSet_Add_spec t k v n w :
  ws_wf w -> let w' := WriteSet_Add t k v n w in
  ws_wf w' /\ exists cv cs,
    WriteSet_entries w' = WriteSet_entries w ++ [mkWSKV t k v cv cs n NULL].
Proof.
  intros H. unfold WriteSet_Add.
  pose proof (WriteSet_room (ws_elems w =? ws_max_length w)%nat w H) as Hroom.
  assert (He := ws_wf_elems _ H). revert Hroom.
  set (w' := if (ws_elems w =? ws_max_length w)%nat then WriteSet_Resize w else w).
  intros (Hwf & Hent & Hel & Hgrow & Hsame).
  assert (ws_elems w' < ws_max_length w')%nat as Hlt.
  { destruct (Nat.eqb_spec (ws_elems w) (ws_max_length w)) as [E|].
    - specialize (Hgrow eq_refl). lia.
    - rewrite (Hsame eq_refl). lia. }
  destruct Hwf. split.
  - split; simpl; rewrite ?length_insert; lia.
  - do 2 eexists. unfold WriteSet_entries. cbn [ws_elems ws_kvs].
    rewrite take_insert_snoc by lia. f_equal. exact Hent.
Qed.

(** Replacing all entries in place. *)
Lemma WriteSet_update w l sn b :
  ws_wf w -> length l = length (WriteSet_entries w) ->
  let w' := mkWriteSet (ws_max_length w) (ws_elems w) sn (l ++ drop (ws_elems w) (ws_kvs w)) b in
  ws_wf w' /\ WriteSet_entries w' = l.
Proof.
  intros [Hp Hk He] Hl. unfold WriteSet_entries in *. rewrite length_take in Hl. split.
  - split; simpl; try done. rewrite length_app, length_drop. lia.
  - simpl. rewrite take_app_le by lia. apply take_ge. lia.
Qed.

Definition same_key (t : nat) (k : Z) (kv : WSKV) : Prop := ws_tableid kv = t /\ ws_key kv = k.

#[export] Instance same_key_dec t k kv : Decision (same_key t k kv).
Proof. unfold same_key. apply _. Defined.

Lemma Lookup_loop_spec l t k res :
  Lookup_loop l t k res =
  match last (filter (same_key t k) l) with
  | Some kv => Some (ws_val kv)
  | None => res
  end.
Proof.
  revert res. induction l as [|kv l IH]; intros res; simpl; [done|].
  rewrite filter_cons. destruct (Nat.eqb_spec (ws_tableid kv) t); simpl.
  - destruct (Z.eqb_spec (ws_key kv) k); simpl.
    + rewrite decide_True by done. rewrite IH, last_cons. by case_match.
    + rewrite decide_False by (unfold same_key; naive_solver). apply IH.
  - rewrite decide_False by (unfold same_key; naive_solver). apply IH.
Qed.

Lemma Check_loop_true m l :
  Check_loop m l = Ok true <->
  Forall (fun kv => exists n, m !! ws_node kv = Some n /\ mn_value n <> HAVEREMOVED) l.
Proof.
  induction l as [|kv l IH]; simpl; [by split|].
  rewrite Forall_cons. unfold node_at, mbind, result_bind.
  destruct (m !! ws_node kv) as [n|]; simpl; [|naive_solver].
  destruct (Z.eqb_spec (mn_value n) HAVEREMOVED); [naive_solver|]. rewrite IH. naive_solver.
Qed.

(** ** Delete sets *)

Lemma DELSet_new_wf : ds_wf DELSet_new.
Proof. split; simpl; try done; lia. Qed.

Lemma DELSet_Reset_wf d : ds_wf d -> ds_wf (DELSet_Reset d).
Proof. intros []. split; simpl; try done; lia. Qed.

(** Every slot but the last can be filled. *)
Lemma DELSet_Add_spec m t k a delay d n :
  ds_wf d -> m !! a = Some n ->
  if decide (S (ds_elems d) = ds_qsize d) then DELSet_Add m t k a delay d = Fault ExitCall
  else exists d', DELSet_Add m t k a delay d = Ok d' /\ ds_wf d' /\
    DELSet_entries d' = DELSet_entries d ++ [mkDELElement t k a delay (u64 (mn_seq n + 1))].
Proof.
  intros [Hq He Hd] Hn. unfold DELSet_Add, node_at. rewrite Hn.
  unfold mbind, result_bind, from_opt.
  destruct (Nat.eqb_spec (S (ds_elems d)) (ds_qsize d)); case_decide; try done.
  eexists. split; [done|].
  assert (forall x dn, DELSet_entries (mkDELSet (ds_qsize d) (<[ds_elems d := x]> (ds_queue d)) (S (ds_elems d)) dn) =
    DELSet_entries d ++ [x]) as Hent.
  { intros. unfold DELSet_entries. cbn [ds_elems ds_queue]. apply take_insert_snoc. lia. }
  split; [|apply Hent]. split.
  - simpl. by rewrite length_insert.
  - simpl. lia.
  - rewrite Hent, filter_app, length_app, <- Hd. simpl. rewrite filter_cons, filter_nil. simpl.
    destruct delay; simpl; lia.
Qed.

Lemma DELSet_Add_ok m t k a delay d d' :
  ds_wf d -> DELSet_Add m t k a delay d = Ok d' ->
  ds_wf d' /\ exists n, m !! a = Some n /\
    DELSet_entries d' = DELSet_entries d ++ [mkDELElement t k a delay (u64 (mn_seq n + 1))].
Proof.
  intros Hwf Hadd. destruct (m !! a) as [n|] eqn:Hn.
  - pose proof (DELSet_Add_spec m t k a delay d n Hwf Hn) as Hs. case_decide; [congruence|].
    destruct Hs as (d'' & E & ? & ?). assert (d'' = d') as -> by congruence. eauto.
  - unfold DELSet_Add, node_at in Hadd. by rewrite Hn in Hadd.
Qed.

(** [WriteSet::Lookup] answers with the value of the last write the
    transaction made to the key, and with nothing when it made none. *)
Lemma WriteSet_Lookup_last w t k :
  WriteSet_Lookup w t k = ws_val <$> last (filter (same_key t k) (WriteSet_entries w)).
Proof. unfold WriteSet_Lookup. rewrite Lookup_loop_spec. by case_match. Qed.

(** [ReadSet::Validate] reports no conflict exactly when every recorded
    record word and every recorded range word still has the recorded value,
    provided no read was labelled with the code for "no conflict". *)
Lemma ReadSet_Validate_spec rd r :
  (forall p, p ∈ rs_reads r -> rs_label p <> NO_CONFLICT) ->
  ReadSet_Validate rd r = Ok NO_CONFLICT <->
  Forall (read_current rd) (rs_reads r) /\ Forall (range_current rd) (rs_ranges r).
Proof. apply ReadSet_Validate_ok. Qed.

(** A full read set of capacity two, so that the third entry resizes it. *)
Definition w_readset : ReadSet :=
  mkReadSet 2 [mkRSSeqPair 1 100 0; mkRSSeqPair 4 200 7] 1 [mkRSSuccPair 300 110; RSSuccPair_0] 2.

Definition w_memory (a : addr) : option Z :=
  if a =? 100 then Some 1 else if a =? 200 then Some 5 else if a =? 110 then Some 300 else None.

Lemma w_readset_wf : rs_wf w_readset.
Proof. split; simpl; lia. Qed.

Lemma ReadSet_Validate_spec_witness :
  ReadSet_Validate w_memory w_readset = Ok NO_CONFLICT <->
  Forall (read_current w_memory) (rs_reads w_readset) /\ Forall (range_current w_memory) (rs_ranges w_readset).
Proof.
  apply (ReadSet_Validate_spec w_memory w_readset). intros p Hp. vm_compute in Hp.
  repeat (apply elem_of_cons in Hp as [->|Hp]; [vm_compute; discriminate|]). by apply elem_of_nil in Hp.
Defined.

(** [DELSet::Add] records the record with the sequence number the deletion
    will give it; the call that fills the last slot ends the process, every
    other one returns. *)
Lemma DELSet_Add_records m t k a delay d n :
  ds_wf d -> m !! a = Some n ->
  if decide (S (ds_elems d) = ds_qsize d) then DELSet_Add m t k a delay d = Fault ExitCall
  else exists d', DELSet_Add m t k a delay d = Ok d' /\ ds_wf d' /\
    DELSet_entries d' = DELSet_entries d ++ [mkDELElement t k a delay (u64 (mn_seq n + 1))].
Proof. apply DELSet_Add_spec. Qed.

Lemma DELSet_Add_records_demo :
  exists d', DELSet_Add {[100 := MemNode_init]} 0 5 100 true DELSet_new = Ok d' /\ ds_wf d' /\
    DELSet_entries d' = [mkDELElement 0 5 100 true 1].
Proof.
  exact (DELSet_Add_records {[100 := MemNode_init]} 0 5 100 true DELSet_new MemNode_init DELSet_new_wf eq_refl).
Defined.

(** ** All operations together *)

(** The sets of a thread. *)
Record sets := mkSets { t_reads : ReadSet; t_writes : WriteSet; t_dels : DELSet }.

Inductive set_op :=
  | OpReset
  | OpRead (ptr : addr) (label : Z)
  | OpNext (ptr : addr) (value : Z)
  | OpWrite (tableid : nat) (key : Z) (val node : addr)
  | OpSetDBTX
  | OpGetDeletedValues
  | OpDelete (tableid : nat) (key : Z) (node : addr) (delay : bool).

Definition do_set_op (m : nodemem) (o : set_op) (s : sets) : result sets :=
  match o with
  | OpReset => Ok (mkSets (ReadSet_Reset (t_reads s)) (WriteSet_Reset (t_writes s)) (DELSet_Reset (t_dels s)))
  | OpRead ptr label =>
      r ← ReadSet_Add (fun a => mn_seq <$> m !! a) ptr label (t_reads s);
      Ok (mkSets r (t_writes s) (t_dels s))
  | OpNext ptr v => Ok (mkSets (ReadSet_AddNext ptr v (t_reads s)) (t_writes s) (t_dels s))
  | OpWrite t k v n => Ok (mkSets (t_reads s) (WriteSet_Add t k v n (t_writes s)) (t_dels s))
  | OpSetDBTX => Ok (mkSets (t_reads s) (WriteSet_SetDBTX (t_writes s)) (t_dels s))
  | OpGetDeletedValues => Ok (mkSets (t_reads s) (WriteSet_GetDeletedValues (t_writes s)).2 (t_dels s))
  | OpDelete t k a delay =>
      d ← DELSet_Add m t k a delay (t_dels s);
      Ok (mkSets (t_reads s) (t_writes s) d)
  end.

Definition sets_wf (s : sets) : Prop := rs_wf (t_reads s) /\ ws_wf (t_writes s) /\ ds_wf (t_dels s).

(** The operation accesses a record that is there. *)
Definition op_addr_ok (m : nodemem) (o : set_op) : Prop :=
  match o with OpRead a _ | OpDelete _ _ a _ => is_Some (m !! a) | _ => True end.

Lemma do_set_op_wf m o s :
  sets_wf s -> op_addr_ok m o ->
  (exists s', do_set_op m o s = Ok s' /\ sets_wf s') \/
  (do_set_op m o s = Fault ExitCall /\ S (ds_elems (t_dels s)) = ds_qsize (t_dels s)).
Proof.
  intros (Hr & Hw & Hd) Ho. unfold sets_wf. destruct o as [|a l|a v|t k v n| | |t k a delay]; cbn [do_set_op op_addr_ok] in *.
  - left. eexists. split; [done|]. split; [by apply ReadSet_Reset_wf|]. split; [by apply WriteSet_Reset_wf|by apply DELSet_Reset_wf].
  - destruct Ho as [n Hn]. left. destruct (ReadSet_Add_spec (fun a => mn_seq <$> m !! a) a l (t_reads s) (mn_seq n) Hr) as (r & -> & Hwf & _); [by rewrite Hn|].
    eexists. split; [done|]. done.
  - left. eexists. split; [done|]. split; [|done]. by apply ReadSet_AddNext_spec.
  - left. eexists. split; [done|]. split; [done|]. split; [|done]. by apply (WriteSet_Add_spec t k v n).
  - left. eexists. split; [done|]. split; [done|]. split; [|done]. by apply WriteSet_SetDBTX_wf.
  - left. eexists. split; [done|]. split; [done|]. split; [|done]. apply WriteSet_update; [done|]. by rewrite length_fmap.
  - destruct Ho as [n Hn]. pose proof (DELSet_Add_spec m t k a delay (t_dels s) n Hd Hn) as Hadd. destruct (decide _) as [E|E].
    + right. by rewrite Hadd.
    + left. destruct Hadd as (d & -> & Hwf & _). eexists. split; [done|]. done.
Qed.

Definition set_run (m : nodemem) (ops : list set_op) (s : sets) : result sets :=
  foldl (fun r o => s ← r; do_set_op m o s) (Ok s) ops.


