(* ===== verification/BPlusTree.v ===== *)
(** * Secondary indexes: the B+ trees

    memstore/secondindex.h, memstore/secondindex_uint64bplustree.h and .cc,
    memstore/secondindex_stringbplustree.h and .cc.  The two trees differ in
    the keys and their comparison only; they are one definition over a key type
    with a comparison ([KeyOrder]), instantiated for both.  Nodes live in a
    heap, with their arrays, counts and links as in the code; every operation
    is one RTM region. *)

From S2P Require Import Prelude MemStore.

(** ** Keys *)

(** [kcmp a b]: the order of two keys; [kdef] is what an array slot holds before
    it is written. *)
Class KeyOrder (K : Type) := {
  kcmp : K -> K -> comparison;
  kdef : K
}.

Section tree.
Context {K : Type} `{KeyOrder K}.

(** [a < b] and [a <= b] as the code tests them. *)
Definition klt (a b : K) : bool := match kcmp a b with Lt => true | _ => false end.
Definition kle (a b : K) : bool := match kcmp a b with Gt => false | _ => true end.
Definition keq (a b : K) : bool := match kcmp a b with Eq => true | _ => false end.

(** ** Nodes *)

(** [IIM] and [IIN] (and [ISM], [ISN]): the capacities. *)
Definition IIM : nat := 15.
Definition IIN : nat := 15.

Record LeafNode := mkLeaf {
  lf_num_keys : nat;
  lf_keys : list K;
  lf_values : list addr;
  lf_left : addr;
  lf_right : addr;
  lf_seq : Z
}.

Record InnerNode := mkInner {
  in_num_keys : nat;
  in_keys : list K;
  in_children : list addr
}.

Inductive bnode :=
  | BLeaf (l : LeafNode)
  | BInner (i : InnerNode).

(** A tree with its heap, and the thread's preallocated [SecondNode]. *)
Record BTree := mkBTree {
  bt_root : addr;
  bt_depth : nat;
  bt_heap : gmap Z bnode;
  bt_brk : addr;
  bt_dummyval : addr
}.

Definition set_heap (h : gmap Z bnode) (s : BTree) : BTree :=
  mkBTree (bt_root s) (bt_depth s) h (bt_brk s) (bt_dummyval s).

Definition get_leaf (a : addr) (s : BTree) : result LeafNode :=
  match bt_heap s !! a with
  | Some (BLeaf l) => Ok l
  | Some (BInner _) => Fault Undefined
  | None => Fault NullDeref
  end.

Definition get_inner (a : addr) (s : BTree) : result InnerNode :=
  match bt_heap s !! a with
  | Some (BInner i) => Ok i
  | Some (BLeaf _) => Fault Undefined
  | None => Fault NullDeref
  end.

Definition put (a : addr) (n : bnode) (s : BTree) : BTree := set_heap (<[a := n]> (bt_heap s)) s.

(** [new_leaf_node], [new_inner_node]: only [num_keys] is initialised. *)
Definition Leaf_0 : LeafNode := mkLeaf 0 (replicate IIM kdef) (replicate IIM NULL) NULL NULL 0.
Definition Inner_0 : InnerNode := mkInner 0 (replicate IIN kdef) (replicate (S IIN) NULL).

Definition node_size : Z := 512.

Definition alloc (n : bnode) (s : BTree) : addr * BTree :=
  (bt_brk s, mkBTree (bt_root s) (bt_depth s) (<[bt_brk s := n]> (bt_heap s))
               (bt_brk s + node_size) (bt_dummyval s)).

Definition new_leaf_node (s : BTree) : addr * BTree := alloc (BLeaf Leaf_0) s.
Definition new_inner_node (s : BTree) : addr * BTree := alloc (BInner Inner_0) s.

(** The constructor of the tree, in an empty heap. *)
Definition BTree_new (brk dummyval : addr) : BTree :=
  let '(a, s) := new_leaf_node (mkBTree NULL 0 ∅ brk dummyval) in
  mkBTree a 0 (bt_heap s) (bt_brk s) dummyval.

(** ** Array code *)

(** [while (k < n && P a[k]) ++k] from [k = 0], over the first [n] elements. *)
Fixpoint scan (P : K -> bool) (l : list K) : nat :=
  match l with
  | [] => 0
  | x :: l => if P x then S (scan P l) else 0
  end.

(** [for (j = n; j > k; j--) a[j] = a[j-1]]; a write past the array is a fault. *)
Fixpoint shift_up {A} (l : list A) (k j : nat) : result (list A) :=
  match j with
  | O => Ok l
  | S j' =>
      if (k <? j)%nat then
        x ← from_opt OutOfBounds (l !! j');
        if (j <? length l)%nat then shift_up (<[j := x]> l) k j' else Fault OutOfBounds
      else Ok l
  end.

Definition store {A} (l : list A) (k : nat) (x : A) : result (list A) :=
  if (k <? length l)%nat then Ok (<[k := x]> l) else Fault OutOfBounds.

(** [for (j = 0; j < n; ++j) b[j] = a[t + j]]: the first [n] elements of [b]. *)
Definition copy_from {A} (a b : list A) (t n : nat) : list A := take n (drop t a) ++ drop n b.

(** Insertion at [k] in an array with [n] elements. *)
Definition array_insert {A} (l : list A) (n k : nat) (x : A) : result (list A) :=
  l ← shift_up l k n; store l k x.

(** ** Searching *)

(** The child of an inner node to descend into. *)
Definition child_index (key : K) (i : InnerNode) : nat :=
  scan (fun x => kle x key) (take (in_num_keys i) (in_keys i)).

Fixpoint FindLeaf_loop (d : nat) (key : K) (node : addr) (s : BTree) : result addr :=
  match d with
  | O => Ok node
  | S d =>
      i ← get_inner node s;
      c ← from_opt OutOfBounds (in_children i !! child_index key i);
      FindLeaf_loop d key c s
  end.

Definition FindLeaf (key : K) (s : BTree) : result addr :=
  FindLeaf_loop (bt_depth s) key (bt_root s) s.

(** The position of a key in a leaf. *)
Definition leaf_index (key : K) (l : LeafNode) : nat :=
  scan (fun x => klt x key) (take (lf_num_keys l) (lf_keys l)).

(** [RoGet] compares the key at the position also when the position is the
    number of keys. *)
Definition RoGet (key : K) (s : BTree) : result addr :=
  leaf ← FindLeaf key s;
  l ← get_leaf leaf s;
  let k := leaf_index key l in
  x ← from_opt OutOfBounds (lf_keys l !! k);
  if keq x key then from_opt OutOfBounds (lf_values l !! k) else Ok NULL.

(** ** Insertion *)

(** The half of a full leaf that moves to a new right sibling. *)
Definition leaf_split (leaf : addr) (s : BTree) : result (addr * BTree) :=
  l ← get_leaf leaf s;
  let '(sib, s) := new_leaf_node s in
  let threshold := ((IIM + 1) / 2)%nat in
  let n := (lf_num_keys l - threshold)%nat in
  let keys := copy_from (lf_keys l) (lf_keys Leaf_0) threshold n in
  let values := copy_from (lf_values l) (lf_values Leaf_0) threshold n in
  s ← (if lf_right l =? NULL then Ok s
       else
         r ← get_leaf (lf_right l) s;
         Ok (put (lf_right l) (BLeaf (mkLeaf (lf_num_keys r) (lf_keys r) (lf_values r) sib (lf_right r) (lf_seq r))) s));
  let s := put sib (BLeaf (mkLeaf n keys values leaf (lf_right l) 0)) s in
  Ok (sib, put leaf (BLeaf (mkLeaf threshold (lf_keys l) (lf_values l) (lf_left l) sib (lf_seq l))) s).

(** Inserting the key with the preallocated value at [k] of leaf [a]. *)
Definition leaf_put (key : K) (a : addr) (k : nat) (s : BTree) : result BTree :=
  l ← get_leaf a s;
  keys ← array_insert (lf_keys l) (lf_num_keys l) k key;
  values ← array_insert (lf_values l) (lf_num_keys l) k (bt_dummyval s);
  Ok (put a (BLeaf (mkLeaf (S (lf_num_keys l)) keys values (lf_left l) (lf_right l) (lf_seq l))) s).

(** [LeafInsert]: the new sibling or the null pointer, and the value. *)
Definition LeafInsert (key : K) (leaf : addr) (s : BTree) : result (addr * addr * BTree) :=
  l ← get_leaf leaf s;
  let k := leaf_index key l in
  found ← (if (k <? lf_num_keys l)%nat then
             x ← from_opt OutOfBounds (lf_keys l !! k); Ok (keq x key)
           else Ok false);
  if (found : bool) then
    v ← from_opt OutOfBounds (lf_values l !! k);
    Ok (NULL, v, s)
  else
    '(sib, toInsert, k, s) ←
      (if (lf_num_keys l =? IIM)%nat then
         '(sib, s) ← leaf_split leaf s;
         let threshold := ((IIM + 1) / 2)%nat in
         if (threshold <=? k)%nat then Ok (sib, sib, (k - threshold)%nat, s)
         else Ok (sib, leaf, k, s)
       else Ok (NULL, leaf, k, s));
    s ← leaf_put key toInsert k s;
    let val := bt_dummyval s in
    let s := mkBTree (bt_root s) (bt_depth s) (bt_heap s) (bt_brk s) NULL in
    l ← get_leaf leaf s;
    Ok (sib, val, put leaf (BLeaf (mkLeaf (lf_num_keys l) (lf_keys l) (lf_values l) (lf_left l) (lf_right l)
                                     (u64 (lf_seq l + 1)))) s).

(** A full inner node: the upper half moves to a new sibling, the middle key
    goes up and is left in the last slot for the caller. *)
Definition inner_split (inner : addr) (s : BTree) : result (addr * K * BTree) :=
  i ← get_inner inner s;
  let '(sib, s) := new_inner_node s in
  let threshold := ((IIN + 1) / 2)%nat in
  let n := (in_num_keys i - threshold)%nat in
  let keys := copy_from (in_keys i) (in_keys Inner_0) threshold n in
  let children := copy_from (in_children i) (in_children Inner_0) threshold n in
  last ← from_opt OutOfBounds (in_children i !! in_num_keys i);
  children ← store children n last;
  upKey ← from_opt OutOfBounds (in_keys i !! (threshold - 1)%nat);
  keys' ← store (in_keys i) (IIN - 1)%nat upKey;
  let s := put sib (BInner (mkInner n keys children)) s in
  Ok (sib, upKey, put inner (BInner (mkInner (threshold - 1)%nat keys' (in_children i))) s).

(** Inserting [key] at [k] of an inner node with [child] to its right. *)
Definition inner_put (key : K) (child : addr) (a : addr) (k : nat) (s : BTree) : result BTree :=
  i ← get_inner a s;
  keys ← array_insert (in_keys i) (in_num_keys i) k key;
  children ← array_insert (in_children i) (S (in_num_keys i)) (S k) child;
  Ok (put a (BInner (mkInner (S (in_num_keys i)) keys children)) s).

(** What both branches of [InnerInsert] do with a new child: [sep] is its
    separator and [probe] the key that is compared with [upKey]. *)
Definition inner_add (inner : addr) (k : nat) (sep probe : K) (child : addr) (s : BTree) :
    result (addr * option K * BTree) :=
  i ← get_inner inner s;
  '(sib, up, toInsert, k, s) ←
    (if (in_num_keys i =? IIN)%nat then
       '(sib, upKey, s) ← inner_split inner s;
       let threshold := ((IIN + 1) / 2)%nat in
       if kle upKey probe then
         Ok (sib, Some upKey, sib, if (threshold <=? k)%nat then (k - threshold)%nat else 0%nat, s)
       else Ok (sib, Some upKey, inner, k, s)
     else Ok (NULL, None, inner, k, s));
  s ← inner_put sep child toInsert k s;
  Ok (sib, up, s).

(** The new root above the old one. *)
Definition grow_root (upKey : K) (sib : addr) (s : BTree) : BTree :=
  let root := bt_root s in
  let '(a, s) := new_inner_node s in
  let s := put a (BInner (mkInner 1 (<[0%nat := upKey]> (in_keys Inner_0))
                            (<[1%nat := sib]> (<[0%nat := root]> (in_children Inner_0))))) s in
  mkBTree a (S (bt_depth s)) (bt_heap s) (bt_brk s) (bt_dummyval s).

(** [InnerInsert] on a node [d] levels above the leaves. *)
Fixpoint InnerInsert (d : nat) (key : K) (inner : addr) (s : BTree) : result (addr * addr * BTree) :=
  match d with
  | O => Fault Undefined
  | S d' =>
      i ← get_inner inner s;
      let k := child_index key i in
      child ← from_opt OutOfBounds (in_children i !! k);
      '(new, val, s) ← (match d' with
                        | O => LeafInsert key child s
                        | S _ => InnerInsert d' key child s
                        end);
      '(sib, up, s) ←
        (if new =? NULL then Ok (NULL, None, s)
         else
           match d' with
           | O =>
               l ← get_leaf new s;
               sep ← from_opt OutOfBounds (lf_keys l !! 0%nat);
               inner_add inner k sep sep new s
           | S _ =>
               c ← get_inner child s;
               sep ← from_opt OutOfBounds (in_keys c !! (IIN - 1)%nat);
               inner_add inner k sep key new s
           end);
      match up with
      | Some upKey => Ok (sib, val, if (d =? bt_depth s)%nat then grow_root upKey sib s else s)
      | None => Ok (sib, val, s)
      end
  end.

(** [Get_sec]: the [SecondNode] of the key, inserted when it is absent. *)
Definition Get_sec (key : K) (s : BTree) : result (addr * BTree) :=
  match bt_depth s with
  | O =>
      '(new, val, s) ← LeafInsert key (bt_root s) s;
      if new =? NULL then Ok (val, s)
      else
        l ← get_leaf new s;
        sep ← from_opt OutOfBounds (lf_keys l !! 0%nat);
        Ok (val, grow_root sep new s)
  | d =>
      '(_, val, s) ← InnerInsert d key (bt_root s) s;
      Ok (val, s)
  end.

End tree.
