(* ===== verification/BPlusTreeInv.v ===== *)
(** * Secondary indexes: correctness of the B+ trees

    The shape of a tree is described by a tree of addresses and entries indexed
    by its depth ([tree]); [rep] says that a heap holds it and [wf] that its keys
    are in order and within the separators.  The abstract view of an index is the
    list of its leaves with their entries ([flat]): every operation is proved to
    read or update that list. *)

From stdpp Require Import sorting.
From S2P Require Import Prelude MemStore BPlusTree.

(** ** The order of keys *)

(** What the tree needs from the comparison of its keys. *)
Class KeyLaws (K : Type) `{KeyOrder K} := {
  kcmp_opp : forall a b : K, kcmp b a = CompOpp (kcmp a b);
  kle_trans : forall a b c : K, kle a b = true -> kle b c = true -> kle a c = true
}.

Section order.
Context {K : Type} {KO : KeyOrder K} {KL : KeyLaws K}.
Implicit Types a b c : K.

Lemma klt_kle a b : klt a b = negb (kle b a).
Proof. unfold klt, kle. rewrite (kcmp_opp a b). by destruct (kcmp a b). Qed.

Lemma kle_refl a : kle a a = true.
Proof. unfold kle. pose proof (kcmp_opp a a) as E. by destruct (kcmp a a). Qed.

Lemma klt_le a b : klt a b = true -> kle a b = true.
Proof. unfold klt, kle. by destruct (kcmp a b). Qed.

Lemma kle_total a b : kle a b = false -> klt b a = true.
Proof. rewrite klt_kle. by intros ->. Qed.

Lemma klt_kle_false a b : klt a b = true -> kle b a = false.
Proof. rewrite klt_kle. by destruct (kle b a). Qed.

Lemma klt_le_trans a b c : klt a b = true -> kle b c = true -> klt a c = true.
Proof.
  rewrite !klt_kle, !negb_true_iff. intros Hab Hbc. destruct (kle c a) eqn:E; [|done].
  by rewrite (kle_trans b c a) in Hab.
Qed.

Lemma kle_lt_trans a b c : kle a b = true -> klt b c = true -> klt a c = true.
Proof.
  rewrite !klt_kle, !negb_true_iff. intros Hab Hbc. destruct (kle c a) eqn:E; [|done].
  by rewrite (kle_trans c a b) in Hbc.
Qed.

Lemma klt_trans a b c : klt a b = true -> klt b c = true -> klt a c = true.
Proof. intros Hab Hbc. eauto using klt_le_trans, klt_le. Qed.

Lemma klt_irrefl a : klt a a = false.
Proof. by rewrite klt_kle, kle_refl. Qed.

Lemma keq_le a b : keq a b = true <-> kle a b = true /\ kle b a = true.
Proof. unfold keq, kle. rewrite (kcmp_opp a b). by destruct (kcmp a b); naive_solver. Qed.

Lemma keq_not_lt a b : keq a b = true -> klt a b = false /\ klt b a = false.
Proof. rewrite keq_le, !klt_kle. intros [-> ->]. done. Qed.

Lemma not_lt_neq_gt a b : klt a b = false -> keq a b = false -> klt b a = true.
Proof. unfold klt, keq. rewrite (kcmp_opp a b). by destruct (kcmp a b). Qed.

End order.

#[export] Hint Resolve klt_le kle_refl kle_total : euno.

(** ** Arrays *)

Section arrays.
Context {A : Type}.
Implicit Types (l : list A).

Lemma shift_up_spec l k j :
  (j < length l)%nat ->
  exists l', shift_up l k j = Ok l' /\ length l' = length l /\
    forall i, l' !! i = if decide (k < i <= j)%nat then l !! (i - 1)%nat else l !! i.
Proof.
  revert l. induction j as [|j IH]; intros l Hj.
  - exists l. split_and!; [done..|]. intros i. case_decide; [lia|done].
  - change (shift_up l k (S j)) with
      (if (k <? S j)%nat then x ← from_opt OutOfBounds (l !! j);
         if (S j <? length l)%nat then shift_up (<[S j := x]> l) k j else Fault OutOfBounds
       else Ok l).
    destruct (Nat.ltb_spec k (S j)) as [Hk|Hk].
    + destruct (lookup_lt_is_Some_2 l j) as [x Hx]; [lia|]. rewrite Hx. simpl.
      rewrite (proj2 (Nat.ltb_lt _ _)) by lia.
      destruct (IH (<[S j := x]> l)) as (l' & -> & Hlen & Hl'); [rewrite length_insert; lia|].
      exists l'. rewrite length_insert in Hlen. split_and!; [done..|]. intros i. rewrite Hl'.
      destruct (decide (i = S j)) as [->|].
      * rewrite decide_False by lia. rewrite decide_True by lia.
        rewrite list_lookup_insert_eq by lia. rewrite <- Hx. f_equal. lia.
      * repeat case_decide; try lia; by rewrite list_lookup_insert_ne by lia.
    + exists l. split_and!; [done..|]. intros i. rewrite decide_False by lia. done.
Qed.

(** Shifting and storing is insertion in the list of the array's elements. *)
Lemma array_insert_spec l n k x :
  (k <= n < length l)%nat ->
  exists l', array_insert l n k x = Ok l' /\ length l' = length l /\
    take (S n) l' = take k (take n l) ++ x :: drop k (take n l) /\
    forall i, (n < i)%nat -> l' !! i = l !! i.
Proof.
  intros Hkn. unfold array_insert.
  destruct (shift_up_spec l k n) as (l1 & -> & Hlen & Hl1); [lia|]. simpl. unfold store.
  rewrite (proj2 (Nat.ltb_lt _ _)) by lia.
  exists (<[k := x]> l1). split; [done|]. rewrite length_insert. split; [done|]. split.
  2: { intros i Hi. rewrite list_lookup_insert_ne by lia. rewrite Hl1. by rewrite decide_False by lia. }
  apply list_eq. intros i. destruct (decide (i < S n)%nat) as [Hi|Hi].
  2: { rewrite lookup_take_ge by lia. symmetry. apply lookup_ge_None_2.
       rewrite length_app, length_take, length_take. simpl. rewrite length_drop, length_take. lia. }
  rewrite lookup_take_lt by lia. destruct (decide (i = k)) as [->|].
  { rewrite list_lookup_insert_eq by lia. symmetry. apply list_lookup_middle.
    rewrite !length_take. lia. }
  rewrite list_lookup_insert_ne by done. rewrite Hl1. rewrite take_take.
  rewrite (Nat.min_l k n) by lia.
  destruct (decide (i < k)%nat).
  - rewrite decide_False by lia. rewrite lookup_app_l by (rewrite length_take; lia).
    by rewrite lookup_take_lt by lia.
  - rewrite decide_True by lia. rewrite lookup_app_r by (rewrite length_take; lia).
    rewrite length_take, Nat.min_l by lia. destruct (i - k)%nat eqn:E; [lia|]. simpl.
    rewrite lookup_drop, lookup_take_lt by lia. f_equal. lia.
Qed.

Lemma app_split_le (l1 l2 k1 k2 : list A) :
  l1 ++ l2 = k1 ++ k2 -> (length k1 <= length l1)%nat -> exists k, l1 = k1 ++ k /\ k2 = k ++ l2.
Proof.
  intros E Hle. apply app_eq_app in E as (k & [[-> ->]|[-> ->]]); [by exists k|].
  rewrite length_app in Hle. destruct k; [|simpl in Hle; lia]. exists []. by rewrite !app_nil_r.
Qed.

Lemma store_ok l k x : (k < length l)%nat -> store l k x = Ok (<[k := x]> l).
Proof. intros Hk. unfold store. by rewrite (proj2 (Nat.ltb_lt _ _)). Qed.

Lemma copy_from_take (a b : list A) t n :
  (t + n <= length a)%nat -> (n <= length b)%nat ->
  length (copy_from a b t n) = length b /\ take n (copy_from a b t n) = take n (drop t a).
Proof.
  intros Ha Hb. unfold copy_from. split.
  - rewrite length_app, length_take, !length_drop. lia.
  - rewrite take_app_le by (rewrite length_take, length_drop; lia). by rewrite take_take, Nat.min_id.
Qed.

End arrays.

Section scan.
Context {K : Type}.

(** A scan stops at the first element that fails the test. *)
Lemma scan_spec (P : K -> bool) l :
  (scan P l <= length l)%nat /\ Forall (fun x => P x = true) (take (scan P l) l) /\
  forall x, l !! scan P l = Some x -> P x = false.
Proof.
  induction l as [|x l (Hle & HF & Hx)]; simpl; [naive_solver|].
  destruct (P x) eqn:E; simpl; [|by split_and!; [lia|constructor|naive_solver]].
  split_and!; [lia|by constructor|done].
Qed.

End scan.

(** ** Nodes *)

Section nodes.
Context {K : Type} {KO : KeyOrder K} {KL : KeyLaws K}.

(** A leaf holds the entries [kvs]; its links and sequence number are free. *)
Definition leaf_rep (l : LeafNode) (kvs : list (K * addr)) : Prop :=
  lf_num_keys l = length kvs /\ (length kvs <= IIM)%nat /\
  length (lf_keys l) = IIM /\ length (lf_values l) = IIM /\
  take (length kvs) (lf_keys l) = kvs.*1 /\ take (length kvs) (lf_values l) = kvs.*2.

(** An inner node holds the children [es]; an entry is the lower bound of a
    child and its address, and the keys are the lower bounds but the first. *)
Definition inner_rep (i : InnerNode) (es : list (option K * addr)) : Prop :=
  length es = S (in_num_keys i) /\ (in_num_keys i <= IIN)%nat /\
  length (in_keys i) = IIN /\ length (in_children i) = S IIN /\
  Some <$> take (in_num_keys i) (in_keys i) = tail es.*1 /\
  take (S (in_num_keys i)) (in_children i) = es.*2.

Lemma leaf_rep_lookup l kvs j k v :
  leaf_rep l kvs -> kvs !! j = Some (k, v) -> lf_keys l !! j = Some k /\ lf_values l !! j = Some v.
Proof.
  intros (_ & _ & _ & _ & Hk & Hv) Hj. pose proof (lookup_lt_Some _ _ _ Hj) as Hlt.
  rewrite <- (lookup_take_lt (lf_keys l) (length kvs)), <- (lookup_take_lt (lf_values l) (length kvs)) by done.
  rewrite Hk, Hv, !list_lookup_fmap, Hj. done.
Qed.

Lemma tail_fst_app (e1 : list (option K * addr)) x e2 :
  tail (e1 ++ x :: e2).*1 = tail (e1 ++ [x]).*1 ++ e2.*1 /\ length (tail (e1 ++ [x]).*1) = length e1.
Proof.
  split.
  - rewrite !fmap_app. destruct e1; simpl; [done|]. by rewrite <- app_assoc.
  - destruct e1; simpl; [done|]. rewrite length_fmap, length_app. simpl. lia.
Qed.

(** Splitting the entries of a node at a child. *)
Lemma inner_rep_split i e1 x e2 :
  inner_rep i (e1 ++ x :: e2) ->
  in_children i !! length e1 = Some x.2 /\
  Some <$> take (length e1) (take (in_num_keys i) (in_keys i)) = tail (e1 ++ [x]).*1 /\
  Some <$> drop (length e1) (take (in_num_keys i) (in_keys i)) = e2.*1 /\
  take (S (length e1)) (take (S (in_num_keys i)) (in_children i)) = (e1 ++ [x]).*2 /\
  drop (S (length e1)) (take (S (in_num_keys i)) (in_children i)) = e2.*2.
Proof.
  intros (Hlen & Hn & Hlk & Hlc & Hk & Hc). destruct (tail_fst_app e1 x e2) as [Ht Htl].
  rewrite Ht in Hk. rewrite length_app in Hlen. simpl in Hlen. split_and!.
  - rewrite <- (lookup_take_lt _ (S (in_num_keys i))) by lia. rewrite Hc, list_lookup_fmap.
    rewrite list_lookup_middle by done. done.
  - rewrite fmap_take, Hk. by rewrite take_app_length'.
  - rewrite fmap_drop, Hk. by rewrite drop_app_length'.
  - rewrite Hc. rewrite cons_middle, app_assoc, fmap_app.
    rewrite take_app_length'; [done|]. rewrite length_fmap, length_app. simpl. lia.
  - rewrite Hc. rewrite cons_middle, app_assoc, fmap_app.
    rewrite drop_app_length'; [done|]. rewrite length_fmap, length_app. simpl. lia.
Qed.

(** The array updates of [inner_put]. *)
Lemma inner_put_rep i e1 x e2 sep child :
  inner_rep i (e1 ++ x :: e2) -> (in_num_keys i < IIN)%nat ->
  exists keys children,
    array_insert (in_keys i) (in_num_keys i) (length e1) sep = Ok keys /\
    array_insert (in_children i) (S (in_num_keys i)) (S (length e1)) child = Ok children /\
    inner_rep (mkInner (S (in_num_keys i)) keys children) (e1 ++ x :: (Some sep, child) :: e2) /\
    forall j, (in_num_keys i < j)%nat -> keys !! j = in_keys i !! j.
Proof.
  intros Hrep Hlt. destruct (inner_rep_split _ _ _ _ Hrep) as (_ & Hk1 & Hk2 & Hc1 & Hc2).
  destruct Hrep as (Hlen & Hn & Hlk & Hlc & _). rewrite length_app in Hlen. simpl in Hlen.
  destruct (array_insert_spec (in_keys i) (in_num_keys i) (length e1) sep) as (keys & Ek & Hkl & Hkt & Hko); [lia|].
  destruct (array_insert_spec (in_children i) (S (in_num_keys i)) (S (length e1)) child)
    as (children & Ec & Hcl & Hct & _); [lia|].
  exists keys, children. split_and!; [done..| |done]. unfold inner_rep. simpl. split_and!.
  - rewrite length_app. simpl. lia.
  - lia.
  - congruence.
  - congruence.
  - destruct (tail_fst_app e1 x ((Some sep, child) :: e2)) as [-> _].
    by rewrite Hkt, fmap_app, fmap_cons, Hk1, Hk2.
  - rewrite Hct, Hc1, Hc2. rewrite !fmap_app. simpl. by rewrite <- app_assoc.
Qed.

(** The array updates of [leaf_put]. *)
Lemma leaf_put_rep l A B key v :
  leaf_rep l (A ++ B) -> (length (A ++ B) < IIM)%nat ->
  exists keys values,
    array_insert (lf_keys l) (lf_num_keys l) (length A) key = Ok keys /\
    array_insert (lf_values l) (lf_num_keys l) (length A) v = Ok values /\
    forall p n q, leaf_rep (mkLeaf (S (lf_num_keys l)) keys values p n q) (A ++ (key, v) :: B).
Proof.
  intros (Hn & Hle & Hlk & Hlv & Hk & Hv) Hlt. pose proof Hlt as Hlt'. rewrite length_app in Hlt'.
  destruct (array_insert_spec (lf_keys l) (lf_num_keys l) (length A) key) as (keys & Ek & Hkl & Hkt & _).
  { rewrite Hn, length_app. lia. }
  destruct (array_insert_spec (lf_values l) (lf_num_keys l) (length A) v) as (values & Ev & Hvl & Hvt & _).
  { rewrite Hn, length_app. lia. }
  exists keys, values. split_and!; [done..|]. intros p n q. unfold leaf_rep. simpl.
  assert (Hlen : length (A ++ (key, v) :: B) = S (lf_num_keys l)) by (rewrite Hn, !length_app; simpl; lia).
  rewrite Hlen. split_and!; [lia|lia|congruence|congruence|..].
  - rewrite Hkt, Hn, Hk, !fmap_app. rewrite take_app_length', drop_app_length' by (by rewrite length_fmap). done.
  - rewrite Hvt, Hn, Hv, !fmap_app. rewrite take_app_length', drop_app_length' by (by rewrite length_fmap). done.
Qed.

End nodes.

(** ** Operations on one node *)

Section node_ops.
Context {K : Type} {KO : KeyOrder K} {KL : KeyLaws K}.

#[local] Arguments copy_from : simpl never.
#[local] Arguments Inner_0 : simpl never.
#[local] Arguments Leaf_0 : simpl never.
#[local] Arguments store : simpl never.

(** Every node is at a positive address below the allocator's break. *)
Definition heap_ok (s : BTree (K := K)) : Prop :=
  0 < bt_brk s /\ forall a, is_Some (bt_heap s !! a) -> 0 < a < bt_brk s.

Definition same_meta (s s' : BTree (K := K)) : Prop :=
  bt_root s' = bt_root s /\ bt_depth s' = bt_depth s /\ bt_dummyval s' = bt_dummyval s.

Lemma heap_ok_put a n s : heap_ok s -> is_Some (bt_heap s !! a) -> heap_ok (put a n s).
Proof.
  intros [Hb Ho] Ha. split; [done|]. simpl. intros b Hs.
  apply lookup_insert_is_Some' in Hs as [->|Hs]; auto.
Qed.

Lemma heap_ok_alloc n s : heap_ok s -> heap_ok (alloc n s).2.
Proof.
  intros [Hb Ho]. unfold alloc, node_size. split; simpl; [lia|]. intros b Hs.
  apply lookup_insert_is_Some' in Hs as [<-|Hs]; [lia|]. specialize (Ho _ Hs). lia.
Qed.

Lemma heap_ok_fresh s : heap_ok s -> bt_heap s !! bt_brk s = None.
Proof. intros [_ Ho]. apply eq_None_not_Some. intros Hs%Ho. lia. Qed.

Lemma heap_ok_null s : heap_ok s -> bt_heap s !! NULL = None.
Proof. intros [_ Ho]. apply eq_None_not_Some. intros Hs%Ho. unfold NULL in Hs. lia. Qed.

(** A full node has an entry in the middle, with the key that goes up. *)
Lemma inner_middle (i : InnerNode (K := K)) es :
  inner_rep i es -> in_num_keys i = IIN ->
  exists upKey c esL esR, es = esL ++ (Some upKey, c) :: esR /\ length esL = 8%nat /\ length esR = 7%nat /\
    in_keys i !! 7%nat = Some upKey.
Proof.
  intros Hrep Hn. pose proof Hrep as (Hlen & _ & Hlk & _). rewrite Hn in Hlen. unfold IIN in *.
  destruct (drop 8 es) as [|[l c] esR] eqn:E.
  { pose proof (f_equal length E) as El. rewrite length_drop in El. change (length []) with 0%nat in El. lia. }
  assert (Hes : es = take 8 es ++ (l, c) :: esR) by (by rewrite <- E, take_drop).
  assert (HL : length (take 8 es) = 8%nat) by (rewrite length_take; lia).
  remember (take 8 es) as esL. clear HeqesL E. subst es. rewrite length_app in Hlen. simpl in Hlen.
  destruct (lookup_lt_is_Some_2 (in_keys i) 7) as [upKey Hup]; [lia|].
  destruct (inner_rep_split _ _ _ _ Hrep) as (_ & Hk1 & _). rewrite Hn, HL in Hk1.
  assert (Ht : (Some <$> take 8 (take 15 (in_keys i))) !! 7%nat = Some (Some upKey)).
  { rewrite list_lookup_fmap, take_take, lookup_take_lt, Hup by lia. done. }
  rewrite Hk1 in Ht. destruct esL as [|e esL]; [done|]. simpl in Ht, HL, Hlen.
  rewrite fmap_app, lookup_app_r in Ht by (rewrite length_fmap; lia).
  rewrite length_fmap in Ht. replace (7 - length esL)%nat with 0%nat in Ht by lia. simpl in Ht.
  assert (l = Some upKey) as -> by congruence. exists upKey, c, (e :: esL), esR. split_and!; simpl; try done; lia.
Qed.

(** What the split leaves in the node. *)
Lemma split_left_rep (i : InnerNode (K := K)) upKey c esL esR :
  inner_rep i (esL ++ (Some upKey, c) :: esR) -> in_num_keys i = IIN -> length esL = 8%nat ->
  inner_rep (mkInner 7 (<[14%nat := upKey]> (in_keys i)) (in_children i)) esL.
Proof.
  intros Hrep Hn HL. pose proof Hrep as (_ & _ & Hlk & Hlc & _).
  destruct (inner_rep_split _ _ _ _ Hrep) as (_ & Hk1 & _ & Hc1 & _). rewrite Hn, HL in *. unfold IIN in *.
  unfold inner_rep. simpl. split_and!; [done|unfold IIN; lia|by rewrite length_insert|done|..].
  - rewrite take_insert_ge by lia. destruct esL as [|e esL]; [done|]. simpl in Hk1 |- *.
    apply (f_equal (take 7)) in Hk1. rewrite <- fmap_take, !take_take in Hk1. simpl in Hk1.
    rewrite Hk1, fmap_app. simpl in HL. rewrite take_app_length'; [done|]. rewrite length_fmap; lia.
  - apply (f_equal (take 8)) in Hc1. rewrite !take_take in Hc1. simpl in Hc1.
    rewrite Hc1, fmap_app. rewrite take_app_length'; [done|]. by rewrite length_fmap.
Qed.

(** What it moves to the new one. *)
Lemma split_right_rep (i : InnerNode (K := K)) upKey c last esL esR :
  inner_rep i (esL ++ (Some upKey, c) :: esR) -> in_num_keys i = IIN -> length esL = 8%nat -> length esR = 7%nat ->
  in_children i !! 15%nat = Some last ->
  inner_rep (mkInner 7 (copy_from (in_keys i) (in_keys Inner_0) 8 7)
               (<[7%nat := last]> (copy_from (in_children i) (in_children Inner_0) 8 7))) ((Some upKey, c) :: esR).
Proof.
  intros Hrep Hn HL HR Hlast. pose proof Hrep as (_ & _ & Hlk & Hlc & _ & Hcc).
  destruct (inner_rep_split _ _ _ _ Hrep) as (_ & _ & Hk2 & _ & _). rewrite Hn, HL in *. unfold IIN in *.
  destruct (copy_from_take (in_keys i) (in_keys Inner_0) 8 7) as [Hckl Hckt]; [lia|cbv; lia|].
  destruct (copy_from_take (in_children i) (in_children Inner_0) 8 7) as [Hccl Hcct]; [lia|cbv; lia|].
  unfold inner_rep. split_and!; [simpl; lia|simpl; unfold IIN; lia|done|..].
  - cbn [in_children]. rewrite length_insert, Hccl. done.
  - cbn [in_num_keys in_keys]. rewrite Hckt. change (tail ((Some upKey, c) :: esR).*1) with (esR.*1).
    rewrite <- Hk2. f_equal. rewrite take_drop_commute. done.
  - change (take 8 (<[7%nat:=last]> (copy_from (in_children i) (in_children Inner_0) 8 7)) = c :: esR.*2).
    rewrite (take_S_r _ 7 last) by (rewrite list_lookup_insert_eq; [done|rewrite Hccl; cbv; lia]).
    rewrite take_insert_ge by lia. rewrite Hcct.
    rewrite <- (take_S_r _ 7 last) by (rewrite lookup_drop; done).
    rewrite take_drop_commute. change (8 + 8)%nat with 16%nat. rewrite Hcc, fmap_app.
    rewrite drop_app_length'; [done|]. by rewrite length_fmap.
Qed.

Lemma inner_split_spec inner i es s :
  heap_ok s -> bt_heap s !! inner = Some (BInner i) -> inner_rep i es -> in_num_keys i = IIN ->
  exists upKey c esL esR i1 i2 s',
    inner_split inner s = Ok (bt_brk s, upKey, s') /\ heap_ok s' /\ same_meta s s' /\
    bt_brk s' = bt_brk s + node_size /\
    es = esL ++ (Some upKey, c) :: esR /\ length esL = 8%nat /\
    in_keys i !! 7%nat = Some upKey /\ in_keys i1 !! 14%nat = Some upKey /\
    inner_rep i1 esL /\ inner_rep i2 ((Some upKey, c) :: esR) /\
    bt_heap s' = <[inner := BInner i1]> (<[bt_brk s := BInner i2]> (bt_heap s)).
Proof.
  intros Hok Hin Hrep Hn. pose proof Hrep as (_ & _ & Hlk & Hlc & _).
  destruct (inner_middle i es Hrep Hn) as (upKey & c & esL & esR & -> & HL & HR & Hup).
  destruct (lookup_lt_is_Some_2 (in_children i) 15) as [last Hlast]; [unfold IIN in *; lia|].
  pose proof (split_left_rep i upKey c esL esR Hrep Hn HL) as Hi1.
  pose proof (split_right_rep i upKey c last esL esR Hrep Hn HL HR Hlast) as Hi2.
  unfold IIN in *. exists upKey, c, esL, esR. eexists _, _, _. split.
  { unfold inner_split, get_inner. rewrite Hin. simpl. rewrite Hn. simpl. rewrite Hlast. simpl.
    rewrite (store_ok (copy_from _ _ _ _)).
    2: { destruct Hi2 as (_ & _ & _ & Hl2 & _). cbn [in_children] in Hl2. rewrite length_insert in Hl2. refine (eq_ind_r (fun n => (7 < n)%nat) _ Hl2). cbv; lia. }
    simpl. rewrite Hup. simpl. rewrite store_ok by (unfold IIN in *; lia). simpl. reflexivity. }
  assert (Hib : is_Some (bt_heap s !! inner)) by eauto.
  split_and!; [|done..| |exact Hi1|exact Hi2|simpl; by rewrite insert_insert_eq].
  - apply heap_ok_put; [|simpl; apply lookup_insert_is_Some'; right; apply lookup_insert_is_Some'; by right].
    apply heap_ok_put; [by apply (heap_ok_alloc (BInner Inner_0))|simpl; by rewrite lookup_insert_eq].
  - simpl. rewrite list_lookup_insert_eq; [done|unfold IIN in *; lia].
Qed.

Lemma inner_put_spec key child a i e1 x e2 s :
  heap_ok s -> bt_heap s !! a = Some (BInner i) -> inner_rep i (e1 ++ x :: e2) -> (in_num_keys i < IIN)%nat ->
  exists i', inner_put key child a (length e1) s = Ok (put a (BInner i') s) /\
    heap_ok (put a (BInner i') s) /\
    inner_rep i' (e1 ++ x :: (Some key, child) :: e2) /\
    forall j, (in_num_keys i < j)%nat -> in_keys i' !! j = in_keys i !! j.
Proof.
  intros Hok Ha Hrep Hn. destruct (inner_put_rep _ _ _ _ key child Hrep Hn) as (keys & ch & Ek & Ec & Hr & Hj).
  eexists. unfold inner_put, get_inner. rewrite Ha. simpl. rewrite Ek. simpl. rewrite Ec. simpl.
  split; [reflexivity|]. split; [apply heap_ok_put; [done|by rewrite Ha]|]. done.
Qed.

(** [inner_add]: a new child after the child at [length e1], in one node or two. *)
Lemma inner_add_spec inner i e1 x e2 sep probe child s :
  heap_ok s -> bt_heap s !! inner = Some (BInner i) -> inner_rep i (e1 ++ x :: e2) ->
  (in_num_keys i = IIN -> forall u, in_keys i !! 7%nat = Some u -> kle u probe = true <-> (8 <= length e1)%nat) ->
  exists sib up s', inner_add inner (length e1) sep probe child s = Ok (sib, up, s') /\
    heap_ok s' /\ same_meta s s' /\
    ((sib = NULL /\ up = None /\ bt_brk s' = bt_brk s /\ exists i',
        inner_rep i' (e1 ++ x :: (Some sep, child) :: e2) /\
        bt_heap s' = <[inner := BInner i']> (bt_heap s)) \/
     (sib = bt_brk s /\ bt_brk s' = bt_brk s + node_size /\ exists upKey es1 c es2 i1 i2,
        up = Some upKey /\ e1 ++ x :: (Some sep, child) :: e2 = es1 ++ (Some upKey, c) :: es2 /\
        inner_rep i1 es1 /\ inner_rep i2 ((Some upKey, c) :: es2) /\ in_keys i1 !! 14%nat = Some upKey /\
        bt_heap s' = <[inner := BInner i1]> (<[sib := BInner i2]> (bt_heap s)))).
Proof.
  intros Hok Hin Hrep Hprobe. unfold inner_add, get_inner. rewrite Hin.
  unfold mbind at 1, result_bind at 1. destruct (Nat.eqb_spec (in_num_keys i) IIN) as [Hn|Hn].
  2: { pose proof Hrep as (_ & Hle & _).
       destruct (inner_put_spec sep child inner i e1 x e2 s) as (i' & E & Hok' & Hr & _); [done..|lia|].
       simpl. rewrite E. simpl. exists NULL, None, (put inner (BInner i') s).
       split_and!; [done..|]. left. split_and!; [done..|]. by exists i'. }
  destruct (inner_split_spec inner i _ s Hok Hin Hrep Hn)
    as (u & c & esL & esR & i1 & i2 & s' & E & Hok' & Hm & Hb & Hes & HL & Hu & Hu1 & Hr1 & Hr2 & Hh).
  rewrite E. cbn [mbind result_bind]. specialize (Hprobe Hn u Hu).
  assert (Hne : inner <> bt_brk s) by (intros ->; by rewrite heap_ok_fresh in Hin).
  pose proof Hr1 as (Hn1 & _). pose proof Hr2 as (Hn2 & _).
  pose proof (f_equal length Hes) as Hlen. rewrite !length_app in Hlen. simpl in Hlen.
  pose proof Hrep as (Hlen' & _). rewrite Hn, length_app in Hlen'. simpl in Hlen', Hn2. unfold IIN in *.
  assert (Hs1 : bt_heap s' !! inner = Some (BInner i1)) by (rewrite Hh; apply lookup_insert_eq).
  assert (Hs2 : bt_heap s' !! bt_brk s = Some (BInner i2)).
  { rewrite Hh, lookup_insert_ne by done. apply lookup_insert_eq. }
  change ((15 + 1) / 2)%nat with 8%nat.
  destruct (kle u probe) eqn:Eu.
  - (* the new child goes to the sibling *)
    destruct Hprobe as [Hp _]. specialize (Hp eq_refl). rewrite (proj2 (Nat.leb_le 8 _)) by lia.
    destruct (app_split_le _ _ _ _ Hes) as (e1' & -> & He); [lia|].
    rewrite He in Hr2. rewrite length_app in *.
    replace (length esL + length e1' - 8)%nat with (length e1') by lia.
    destruct (inner_put_spec sep child (bt_brk s) i2 e1' x e2 s') as (i' & E' & Hok2 & Hr & _); [done..|unfold IIN; lia|].
    cbn [mbind result_bind]. rewrite E'. cbn [mbind result_bind].
    eexists _, _, _. split; [reflexivity|]. split; [done|]. split; [done|]. right.
    split; [done|]. split; [done|].
    assert (exists es2, e1' ++ x :: (Some sep, child) :: e2 = (Some u, c) :: es2) as (es2 & Hes2).
    { destruct e1' as [|y e1']; simpl in He |- *; eexists; injection He as -> _; reflexivity. }
    exists u, esL, c, es2, i1, i'. rewrite <- app_assoc, <- Hes2. split_and!; [done..|].
    simpl. rewrite Hh, insert_insert_ne by done. by rewrite insert_insert_eq.
  - (* it stays *)
    destruct Hprobe as [_ Hp].
    destruct (decide (8 <= length e1)%nat) as [Hge|Hlt]; [by specialize (Hp Hge)|].
    destruct (app_split_le _ _ _ _ (eq_sym Hes)) as (k & -> & He); [lia|].
    rewrite length_app in *. destruct k as [|y k]; [simpl in *; lia|]. simpl in He. injection He as <- ->.
    destruct (inner_put_spec sep child inner i1 e1 x k s') as (i' & E' & Hok2 & Hr & Hj); [done..|unfold IIN; lia|].
    cbn [mbind result_bind]. rewrite E'. cbn [mbind result_bind].
    eexists _, _, _. split; [reflexivity|]. split; [done|]. split; [done|]. right.
    split; [done|]. split; [done|].
    exists u, (e1 ++ x :: (Some sep, child) :: k), c, esR, i', i2.
    rewrite <- app_assoc. split_and!; [done..| |].
    + rewrite Hj by lia. done.
    + simpl. rewrite Hh. by rewrite insert_insert_eq.
Qed.

End node_ops.

(** ** Views of the heap *)

Section views.
Context {K : Type} {KO : KeyOrder K} {KL : KeyLaws K}.
Implicit Types h : gmap Z (bnode (K := K)).

(** A node without the links and the sequence number of a leaf. *)
Definition core (n : bnode) : nat * list K * list addr * bool :=
  match n with
  | BLeaf l => (lf_num_keys l, lf_keys l, lf_values l, true)
  | BInner i => (in_num_keys i, in_keys i, in_children i, false)
  end.

Definition hcore h a := core <$> h !! a.

Definition hlinks h a : option (addr * addr) :=
  match h !! a with Some (BLeaf l) => Some (lf_left l, lf_right l) | _ => None end.

Definition hseq h a : option Z :=
  match h !! a with Some (BLeaf l) => Some (lf_seq l) | _ => None end.

Definition leaf_at h a kvs := exists l, h !! a = Some (BLeaf l) /\ leaf_rep l kvs.
Definition inner_at h a es := exists i, h !! a = Some (BInner i) /\ inner_rep i es.

Lemma leaf_at_core h h' a kvs : hcore h' a = hcore h a -> leaf_at h a kvs -> leaf_at h' a kvs.
Proof.
  unfold hcore. intros E (l & Hl & Hr). rewrite Hl in E. unfold leaf_at.
  destruct (h' !! a) as [[l'|i]|]; simplify_eq/=. exists l'. split; [done|].
  unfold leaf_rep in *. destruct l, l'; simplify_eq/=. done.
Qed.

Lemma inner_at_core h h' a es : hcore h' a = hcore h a -> inner_at h a es -> inner_at h' a es.
Proof.
  unfold hcore. intros E (i & Hi & Hr). rewrite Hi in E. unfold inner_at.
  destruct (h' !! a) as [[l'|[]]|]; destruct i; simplify_eq/=. eexists; split; [done|]. done.
Qed.

Lemma hcore_insert_ne h a b n : a <> b -> hcore (<[a := n]> h) b = hcore h b.
Proof. intros ?. unfold hcore. by rewrite lookup_insert_ne. Qed.

Lemma hlinks_insert_ne h a b n : a <> b -> hlinks (<[a := n]> h) b = hlinks h b.
Proof. intros ?. unfold hlinks. by rewrite lookup_insert_ne. Qed.

Lemma hseq_insert_ne h a b n : a <> b -> hseq (<[a := n]> h) b = hseq h b.
Proof. intros ?. unfold hseq. by rewrite lookup_insert_ne. Qed.

(** The links after [new] was linked in to the right of [leaf]. *)
Definition split_links h h' leaf new : Prop :=
  exists p r, hlinks h leaf = Some (p, r) /\ hlinks h' leaf = Some (p, new) /\
    hlinks h' new = Some (leaf, r) /\
    (r <> NULL -> exists p' q, hlinks h r = Some (p', q) /\ hlinks h' r = Some (new, q)) /\
    forall a, a <> leaf -> a <> new -> a <> r -> hlinks h' a = hlinks h a.

(** The sequence number of the leaf that was inserted into goes up. *)
Definition seq_step h h' leaf new : Prop :=
  (exists q, hseq h leaf = Some q /\ hseq h' leaf = Some (u64 (q + 1))) /\
  forall a, a <> leaf -> a <> new -> hseq h' a = hseq h a.

(** The right link of a leaf is null or another leaf. *)
Definition right_ok h leaf : Prop :=
  forall p r, hlinks h leaf = Some (p, r) -> r <> NULL -> r <> leaf /\ is_Some (hlinks h r).

(** The position of a key among sorted entries. *)
Lemma scan_sorted key (kvs : list (K * addr)) :
  StronglySorted (fun a b => klt a b = true) kvs.*1 ->
  exists A B, kvs = A ++ B /\ length A = scan (fun x => klt x key) kvs.*1 /\
    Forall (fun x => klt x key = true) A.*1 /\
    ((exists k v B', B = (k, v) :: B' /\ keq k key = true) \/ Forall (fun x => klt key x = true) B.*1).
Proof.
  intros Hs. destruct (scan_spec (fun x => klt x key) kvs.*1) as (Hle & HA & HB).
  set (n := scan _ _) in *. rewrite length_fmap in Hle.
  exists (take n kvs), (drop n kvs). rewrite take_drop, length_take. split_and!; [done|lia|by rewrite fmap_take|].
  destruct (drop n kvs) as [|[k v] B] eqn:E; [by right; constructor|].
  assert (Hk : kvs.*1 !! n = Some k).
  { rewrite list_lookup_fmap, <- (Nat.add_0_r n), <- lookup_drop, E. done. }
  apply HB in Hk. destruct (keq k key) eqn:Ek; [left; naive_solver|]. right.
  pose proof (not_lt_neq_gt _ _ Hk Ek) as Hlt. rewrite fmap_cons. constructor; [done|].
  rewrite <- (take_drop n kvs), E, fmap_app in Hs. apply StronglySorted_app_1_r in Hs.
  apply StronglySorted_inv in Hs as [_ HF]. eapply Forall_impl; [exact HF|]. simpl. eauto using klt_trans.
Qed.

End views.

Section leaf_ops.
Context {K : Type} {KO : KeyOrder K} {KL : KeyLaws K}.
#[local] Arguments copy_from : simpl never.
#[local] Arguments Inner_0 : simpl never.
#[local] Arguments Leaf_0 : simpl never.

(** The arrays of the two halves. *)
Lemma leaf_split_rep (l : LeafNode (K := K)) kvs :
  leaf_rep l kvs -> length kvs = IIM ->
  (forall p n q, leaf_rep (mkLeaf 8 (lf_keys l) (lf_values l) p n q) (take 8 kvs)) /\
  (forall p n q, leaf_rep (mkLeaf 7 (copy_from (lf_keys l) (lf_keys Leaf_0) 8 7)
                             (copy_from (lf_values l) (lf_values Leaf_0) 8 7) p n q) (drop 8 kvs)).
Proof.
  intros (Hn & Hle & Hlk & Hlv & Hk & Hv) Hlen. rewrite Hlen in *. unfold IIM in *.
  destruct (copy_from_take (lf_keys l) (lf_keys Leaf_0) 8 7) as [Hckl Hckt]; [lia|cbv; lia|].
  destruct (copy_from_take (lf_values l) (lf_values Leaf_0) 8 7) as [Hcvl Hcvt]; [lia|cbv; lia|].
  split; intros p n q; unfold leaf_rep.
  - rewrite length_take, Hlen. simpl. split_and!; [done|unfold IIM; lia|done|done|..].
    + rewrite fmap_take, <- Hk, take_take. done.
    + rewrite fmap_take, <- Hv, take_take. done.
  - rewrite length_drop, Hlen. split_and!; [done|cbv; lia|exact Hckl|exact Hcvl|..].
    + rewrite fmap_drop, <- Hk. cbn [lf_keys]. change (15 - 8)%nat with 7%nat.
      rewrite Hckt, take_drop_commute. done.
    + rewrite fmap_drop, <- Hv. cbn [lf_values]. change (15 - 8)%nat with 7%nat.
      rewrite Hcvt, take_drop_commute. done.
Qed.

Lemma leaf_split_spec leaf (l : LeafNode (K := K)) kvs s :
  heap_ok s -> bt_heap s !! leaf = Some (BLeaf l) -> leaf_rep l kvs -> length kvs = IIM ->
  right_ok (bt_heap s) leaf ->
  exists s' l1 l2, leaf_split leaf s = Ok (bt_brk s, s') /\ heap_ok s' /\ same_meta s s' /\
    bt_brk s' = bt_brk s + node_size /\
    bt_heap s' !! leaf = Some (BLeaf l1) /\ leaf_rep l1 (take 8 kvs) /\
    bt_heap s' !! bt_brk s = Some (BLeaf l2) /\ leaf_rep l2 (drop 8 kvs) /\
    (forall a, a <> leaf -> a <> bt_brk s -> hcore (bt_heap s') a = hcore (bt_heap s) a) /\
    split_links (bt_heap s) (bt_heap s') leaf (bt_brk s) /\
    lf_seq l1 = lf_seq l /\
    (forall a, a <> leaf -> a <> bt_brk s -> hseq (bt_heap s') a = hseq (bt_heap s) a).
Proof.
  intros Hok Hl Hrep Hlen Hright.
  assert (Hne : leaf <> bt_brk s) by (intros ->; by rewrite heap_ok_fresh in Hl).
  destruct (leaf_split_rep l kvs Hrep Hlen) as [Hr1 Hr2].
  assert (Hlinks : hlinks (bt_heap s) leaf = Some (lf_left l, lf_right l)) by (unfold hlinks; by rewrite Hl).
  pose proof Hrep as (Hn & _). rewrite Hlen in Hn. unfold leaf_split, get_leaf. rewrite Hl.
  unfold mbind at 1, result_bind at 1. unfold new_leaf_node, alloc. cbn zeta iota beta.
  rewrite Hn. change ((IIM + 1) / 2)%nat with 8%nat. change (IIM - 8)%nat with 7%nat.
  specialize (Hright _ _ Hlinks). specialize (Hr1 (lf_left l) (bt_brk s) (lf_seq l)).
  specialize (Hr2 leaf (lf_right l) 0).
  set (l1 := mkLeaf 8 _ _ _ _ _) in *. set (l2 := mkLeaf 7 _ _ _ _ _) in *.
  destruct (Z.eqb_spec (lf_right l) NULL) as [Hr|Hr].
  - eexists _, l1, l2. split; [reflexivity|]. split.
    { apply heap_ok_put; [apply heap_ok_put|]; simpl; [by apply (heap_ok_alloc (BLeaf Leaf_0))|..];
        repeat (apply lookup_insert_is_Some'; (by left) || right); eauto. }
    simpl. rewrite insert_insert_eq. split_and!; try done.
    + by rewrite lookup_insert_eq.
    + rewrite lookup_insert_ne by done. by rewrite lookup_insert_eq.
    + intros a Ha1 Ha2. by rewrite !hcore_insert_ne by done.
    + exists (lf_left l), (lf_right l). split; [done|]. unfold hlinks.
      rewrite lookup_insert_eq, (lookup_insert_ne _ leaf (bt_brk s)), lookup_insert_eq by done.
      split_and!; try done. intros a Ha1 Ha2 Ha3. by rewrite !lookup_insert_ne by done.
    + intros a Ha1 Ha2. by rewrite !hseq_insert_ne by done.
  - destruct Hright as [Hrl (lr & Hlr)]; [done|]. destruct lr as [p' q'].
    assert (exists lr, bt_heap s !! lf_right l = Some (BLeaf lr) /\ p' = lf_left lr /\ q' = lf_right lr)
      as (lr & Hlrr & -> & ->).
    { unfold hlinks in Hlr. destruct (bt_heap s !! lf_right l) as [[]|]; naive_solver. }
    assert (Hrb : lf_right l <> bt_brk s) by (intros Eq; rewrite Eq, heap_ok_fresh in Hlrr; done).
    cbn [bt_heap]. rewrite lookup_insert_ne, Hlrr by done. cbn [mbind result_bind].
    eexists _, l1, l2. split; [reflexivity|]. split.
    { apply heap_ok_put; [apply heap_ok_put; [apply heap_ok_put|]|]; simpl; [by apply (heap_ok_alloc (BLeaf Leaf_0))|..];
        repeat (apply lookup_insert_is_Some'; (by left) || right); eauto. }
    simpl. split_and!; try done.
    + by rewrite lookup_insert_eq.
    + rewrite lookup_insert_ne by done. by rewrite lookup_insert_eq.
    + intros a Ha1 Ha2. rewrite !hcore_insert_ne by done. unfold hcore.
      destruct (decide (a = lf_right l)) as [->|].
      * by rewrite lookup_insert_eq, Hlrr.
      * by rewrite !lookup_insert_ne by done.
    + exists (lf_left l), (lf_right l). split; [done|]. unfold hlinks.
      rewrite lookup_insert_eq, (lookup_insert_ne _ leaf (bt_brk s)), lookup_insert_eq by done.
      split_and!; try done.
      * intros _. exists (lf_left lr), (lf_right lr). rewrite Hlrr. split; [done|].
        rewrite !lookup_insert_ne by done. by rewrite lookup_insert_eq.
      * intros a Ha1 Ha2 Ha3. by rewrite !lookup_insert_ne by done.
    + intros a Ha1 Ha2. rewrite !hseq_insert_ne by done. unfold hseq.
      destruct (decide (a = lf_right l)) as [->|].
      * by rewrite lookup_insert_eq, Hlrr.
      * by rewrite !lookup_insert_ne by done.
Qed.

Lemma hlinks_put_same (h : gmap Z (bnode (K := K))) a l l' b :
  h !! a = Some (BLeaf l) -> lf_left l' = lf_left l -> lf_right l' = lf_right l ->
  hlinks (<[a := BLeaf l']> h) b = hlinks h b.
Proof.
  intros Ha El Er. unfold hlinks. destruct (decide (a = b)) as [<-|]; [|by rewrite lookup_insert_ne].
  by rewrite lookup_insert_eq, Ha, El, Er.
Qed.

Lemma hseq_put_same (h : gmap Z (bnode (K := K))) a l l' b :
  h !! a = Some (BLeaf l) -> lf_seq l' = lf_seq l -> hseq (<[a := BLeaf l']> h) b = hseq h b.
Proof.
  intros Ha El. unfold hseq. destruct (decide (a = b)) as [<-|]; [|by rewrite lookup_insert_ne].
  by rewrite lookup_insert_eq, Ha, El.
Qed.

(** The last part of [LeafInsert]: the entry goes into leaf [a] and the
    sequence number of [leaf] goes up. *)
Lemma leaf_finish_spec key leaf a (sib : addr) (l l0 : LeafNode (K := K)) A B s :
  heap_ok s -> bt_heap s !! a = Some (BLeaf l) -> leaf_rep l (A ++ B) -> (length (A ++ B) < IIM)%nat ->
  bt_heap s !! leaf = Some (BLeaf l0) ->
  exists s',
    (s ← leaf_put key a (length A) s;
     let val := bt_dummyval s in
     let s := mkBTree (bt_root s) (bt_depth s) (bt_heap s) (bt_brk s) NULL in
     l ← get_leaf leaf s;
     Ok (sib, val, put leaf (BLeaf (mkLeaf (lf_num_keys l) (lf_keys l) (lf_values l) (lf_left l) (lf_right l)
                                      (u64 (lf_seq l + 1)))) s)) = Ok (sib, bt_dummyval s, s') /\
    heap_ok s' /\ bt_root s' = bt_root s /\ bt_depth s' = bt_depth s /\ bt_dummyval s' = NULL /\
    bt_brk s' = bt_brk s /\
    leaf_at (bt_heap s') a (A ++ (key, bt_dummyval s) :: B) /\
    (forall b, b <> a -> hcore (bt_heap s') b = hcore (bt_heap s) b) /\
    (forall b, hlinks (bt_heap s') b = hlinks (bt_heap s) b) /\
    hseq (bt_heap s') leaf = Some (u64 (lf_seq l0 + 1)) /\
    (forall b, b <> leaf -> hseq (bt_heap s') b = hseq (bt_heap s) b).
Proof.
  intros Hok Ha Hrep Hlt Hl0. unfold leaf_put, get_leaf. rewrite Ha.
  destruct (leaf_put_rep l A B key (bt_dummyval s) Hrep Hlt) as (keys & values & Ek & Ev & Hr).
  cbn [mbind result_bind]. rewrite Ek. cbn [mbind result_bind]. rewrite Ev. cbn [mbind result_bind].
  set (l' := mkLeaf (S (lf_num_keys l)) keys values (lf_left l) (lf_right l) (lf_seq l)).
  assert (exists l1, <[a := BLeaf l']> (bt_heap s) !! leaf = Some (BLeaf l1) /\ lf_seq l1 = lf_seq l0) as (l1 & Hl1 & Hq).
  { destruct (decide (a = leaf)) as [->|].
    - exists l'. rewrite lookup_insert_eq. split; [done|]. simpl. congruence.
    - exists l0. by rewrite lookup_insert_ne. }
  simpl. rewrite Hl1. cbn [mbind result_bind]. rewrite Hq.
  set (l2 := mkLeaf _ _ _ _ _ (u64 (lf_seq l0 + 1))).
  eexists. split; [reflexivity|]. simpl. split_and!; try done.
  - apply heap_ok_put; [|by eexists]. apply (heap_ok_put a (BLeaf l') s Hok). by rewrite Ha.
  - apply (leaf_at_core (<[a := BLeaf l']> (bt_heap s))).
    + unfold hcore. destruct (decide (leaf = a)) as [->|]; [|by rewrite lookup_insert_ne].
      rewrite lookup_insert_eq, Hl1. done.
    + exists l'. rewrite lookup_insert_eq. split; [done|]. apply Hr.
  - intros b Hb. unfold hcore. destruct (decide (leaf = b)) as [->|].
    + rewrite lookup_insert_eq. rewrite lookup_insert_ne in Hl1 by done. by rewrite Hl1.
    + by rewrite !lookup_insert_ne by done.
  - intros b. rewrite (hlinks_put_same _ leaf l1), (hlinks_put_same _ a l); done.
  - unfold hseq. by rewrite lookup_insert_eq.
  - intros b Hb. rewrite hseq_insert_ne by done. by apply (hseq_put_same _ a l).
Qed.

(** The test of the slot where the key would be, when it is not there. *)
Lemma leaf_probe_absent key (l : LeafNode (K := K)) A B :
  leaf_rep l (A ++ B) -> Forall (fun x => klt key x = true) B.*1 ->
  (if (length A <? length A + length B)%nat
   then x ← from_opt OutOfBounds (lf_keys l !! length A); Ok (keq x key) else Ok false) = Ok false.
Proof.
  intros Hrep HB. destruct (Nat.ltb_spec (length A) (length A + length B)) as [Hlt|]; [|done].
  destruct B as [|[k v] B]; [simpl in Hlt; lia|].
  destruct (leaf_rep_lookup l (A ++ (k, v) :: B) (length A) k v) as [Ek _]; [done|by apply list_lookup_middle|].
  rewrite Ek. simpl. apply Forall_cons in HB as [Hgt _]. simpl in Hgt. f_equal.
  destruct (keq k key) eqn:E; [|done]. by rewrite (proj2 (keq_not_lt _ _ E)) in Hgt.
Qed.

Lemma split_links_ext h h1 h2 leaf new :
  split_links (K := K) h h1 leaf new -> (forall b, hlinks h2 b = hlinks h1 b) -> split_links h h2 leaf new.
Proof.
  intros (p & r & Hi1 & Hi2 & Hi3 & Hi4 & Hi5) Hli. exists p, r. rewrite !Hli.
  split_and!; try done. intros b ???. rewrite Hli. auto.
Qed.

(** The half of a split leaf the entry goes to. *)
Lemma half_of (l1 l2 : LeafNode (K := K)) A B (leaf new : addr) (s : BTree (K := K)) :
  leaf_rep l1 (take 8 (A ++ B)) -> leaf_rep l2 (drop 8 (A ++ B)) -> (length A + length B = IIM)%nat ->
  exists a la A' B',
    (if (8 <=? length A)%nat then Ok (new, new, (length A - 8)%nat, s) else Ok (new, leaf, length A, s))
      = Ok (new, a, length A', s) /\
    leaf_rep la (A' ++ B') /\ (length (A' ++ B') < IIM)%nat /\
    ((a = leaf /\ la = l1 /\ drop 8 (A ++ B) <> [] /\ forall x, (A' ++ x :: B') ++ drop 8 (A ++ B) = A ++ x :: B) \/
     (a = new /\ la = l2 /\ take 8 (A ++ B) <> [] /\ forall x, take 8 (A ++ B) ++ A' ++ x :: B' = A ++ x :: B)).
Proof.
  unfold IIM. intros Hr1 Hr2 Hlen. pose proof (take_drop 8 (A ++ B)) as Htd.
  assert (Ht : length (take 8 (A ++ B)) = 8%nat) by (rewrite length_take, length_app; lia).
  assert (Hdr : length (drop 8 (A ++ B)) = 7%nat) by (rewrite length_drop, length_app; lia).
  destruct (Nat.leb_spec 8 (length A)) as [H8|H8].
  - destruct (app_split_le _ _ _ _ (eq_sym Htd)) as (A' & HA' & Hd); [lia|]. rewrite Hd in Hr2, Hdr.
    pose proof (f_equal length HA') as HlA. rewrite length_app in HlA.
    exists new, l2, A', B. split_and!; [by replace (length A - 8)%nat with (length A') by lia|done|lia|]. right. split_and!; [done..| |].
    + intros E. by rewrite E in Ht.
    + intros x. by rewrite app_assoc, <- HA'.
  - destruct (app_split_le _ _ _ _ Htd) as (B' & HB' & Hd); [lia|]. rewrite HB' in Hr1, Ht.
    exists leaf, l1, A, B'. split_and!; [done..|lia|]. left. split_and!; [done..| |].
    + intros E. by rewrite E in Hdr.
    + intros x. rewrite <- app_assoc. simpl. by rewrite <- Hd.
Qed.

(** [LeafInsert] finds the key or inserts it, in one leaf or two. *)
Lemma LeafInsert_spec key leaf (l : LeafNode (K := K)) kvs s :
  heap_ok s -> bt_heap s !! leaf = Some (BLeaf l) -> leaf_rep l kvs ->
  StronglySorted (fun a b => klt a b = true) kvs.*1 -> right_ok (bt_heap s) leaf ->
  (exists k v, LeafInsert key leaf s = Ok (NULL, v, s) /\ (k, v) ∈ kvs /\ keq k key = true) \/
  (exists A B new s', LeafInsert key leaf s = Ok (new, bt_dummyval s, s') /\
    kvs = A ++ B /\ Forall (fun x => klt x key = true) A.*1 /\ Forall (fun x => klt key x = true) B.*1 /\
    heap_ok s' /\ bt_root s' = bt_root s /\ bt_depth s' = bt_depth s /\ bt_dummyval s' = NULL /\
    seq_step (bt_heap s) (bt_heap s') leaf new /\
    (forall a, a <> leaf -> a <> new -> hcore (bt_heap s') a = hcore (bt_heap s) a) /\
    ((new = NULL /\ bt_brk s' = bt_brk s /\ leaf_at (bt_heap s') leaf (A ++ (key, bt_dummyval s) :: B) /\
      forall a, hlinks (bt_heap s') a = hlinks (bt_heap s) a) \/
     (new = bt_brk s /\ bt_brk s' = bt_brk s + node_size /\ exists kvs1 kvs2,
        kvs1 ++ kvs2 = A ++ (key, bt_dummyval s) :: B /\ kvs1 <> [] /\ kvs2 <> [] /\
        leaf_at (bt_heap s') leaf kvs1 /\ leaf_at (bt_heap s') new kvs2 /\
        split_links (bt_heap s) (bt_heap s') leaf new))).
Proof.
  intros Hok Hl Hrep Hs Hright. pose proof Hrep as (Hn & Hle & _ & _ & Hk & _).
  destruct (scan_sorted key kvs Hs) as (A & B & -> & HlenA & HA & HB).
  unfold LeafInsert. assert (Eg : get_leaf leaf s = Ok l) by (unfold get_leaf; by rewrite Hl).
  rewrite Eg. cbn [mbind result_bind].
  assert (Hidx : leaf_index key l = length A) by (unfold leaf_index; by rewrite Hn, Hk).
  rewrite Hidx, Hn, length_app.
  destruct HB as [(k & v & B' & -> & Hkey)|HB].
  { left. exists k, v. simpl. rewrite (proj2 (Nat.ltb_lt _ _)) by lia.
    destruct (leaf_rep_lookup l (A ++ (k, v) :: B') (length A) k v) as [Ek Ev]; [done|by apply list_lookup_middle|].
    rewrite Ek. cbn [mbind result_bind from_opt]. rewrite Hkey. rewrite Ev. split; [done|]. split; [set_solver|done]. }
  right. exists A, B.
  rewrite leaf_probe_absent by done. cbn [mbind result_bind]. rewrite length_app in Hle.
  assert (Hq : hseq (bt_heap s) leaf = Some (lf_seq l)) by (unfold hseq; by rewrite Hl).
  destruct (Nat.eqb_spec (length A + length B) IIM) as [Hfull|Hroom].
  2: { destruct (leaf_finish_spec key leaf leaf NULL l l A B s)
         as (s' & E & Hok' & ? & ? & ? & ? & Hat & Hc & Hli & Hq1 & Hq2); [done..|rewrite length_app; lia|done|].
       exists NULL, s'. split; [exact E|]. split_and!; try done; [split; [by exists (lf_seq l)|by auto]|by auto|].
       left. done. }
  destruct (leaf_split_spec leaf l (A ++ B) s) as (s1 & l1 & l2 & E1 & Hok1 & (Hm1 & Hm2 & Hm3) & Hb1 & Hl1 & Hr1 & Hl2 & Hr2 & Hc1 & Hli1 & Hq1 & Hq2);
    [done..|by rewrite length_app|done|].
  rewrite E1. cbn [mbind result_bind]. change ((IIM + 1) / 2)%nat with 8%nat.
  assert (Hne : leaf <> bt_brk s) by (intros ->; by rewrite heap_ok_fresh in Hl).
  destruct (half_of l1 l2 A B leaf (bt_brk s) s1 Hr1 Hr2 Hfull) as (a & la & A' & B' & Eh & Hra & Hlt & Hhalf).
  rewrite Eh. cbn [mbind result_bind]. assert (Ha : bt_heap s1 !! a = Some (BLeaf la)) by naive_solver.
  destruct (leaf_finish_spec key leaf a (bt_brk s) la l1 A' B' s1)
    as (s' & E & Hok' & ? & ? & ? & ? & Hat & Hc & Hli & Hq3 & Hq4); [done..|].
  exists (bt_brk s), s'. rewrite <- Hm3. split; [exact E|]. split_and!; try done; try congruence.
  - split; [exists (lf_seq l); by rewrite Hq3, Hq1|]. intros b Hb1' Hb2'. rewrite Hq4, Hq2; done.
  - intros b Hb1' Hb2'. rewrite Hc, Hc1; [done..|]. naive_solver.
  - right. split; [done|]. split; [congruence|]. pose proof (split_links_ext _ _ _ _ _ Hli1 Hli) as Hli2.
    destruct Hhalf as [(-> & -> & Hne2 & Hx)|(-> & -> & Hne2 & Hx)].
    + exists (A' ++ (key, bt_dummyval s1) :: B'), (drop 8 (A ++ B)). split_and!; [apply Hx|by destruct A'|done..| |done].
      apply (leaf_at_core (bt_heap s1)); [by apply Hc|]. by exists l2.
    + exists (take 8 (A ++ B)), (A' ++ (key, bt_dummyval s1) :: B'). split_and!; [apply Hx|done|by destruct A'| |done..].
      apply (leaf_at_core (bt_heap s1)); [by apply Hc|]. by exists l1.
Qed.

End leaf_ops.
