(* ===== verification/BPlusTreeSpec.v ===== *)
(** * Secondary indexes: the whole tree

    The invariant of a tree ([index]) and the specification of insertion and
    search through all its levels, on top of the node lemmas of BPlusTreeInv. *)

From stdpp Require Import sorting.
From S2P Require Import Prelude MemStore BPlusTree BPlusTreeInv.

(** ** Leaves in a doubly linked list *)

Section links.
Context {K : Type} {KO : KeyOrder K} {KL : KeyLaws K}.
Implicit Types h : gmap Z (bnode (K := K)).

(** The leaves [L] are linked both ways, between [p] and [q]. *)
Fixpoint dll h (p : addr) (L : list addr) (q : addr) : Prop :=
  match L with
  | [] => True
  | a :: L' => hlinks h a = Some (p, List.hd q L') /\ dll h a L' q
  end.

Definition links_ok h (L : list addr) : Prop := dll h NULL L NULL /\ NoDup L /\ NULL ∉ L.

Lemma last_default (b : addr) L p q : List.last (b :: L) p = List.last (b :: L) q.
Proof. revert b. induction L as [|c L IH]; intros b; [done|]. exact (IH c). Qed.

Lemma dll_app h p L1 L2 q :
  dll h p (L1 ++ L2) q <-> dll h p L1 (List.hd q L2) /\ dll h (List.last L1 p) L2 q.
Proof.
  revert p. induction L1 as [|a L1 IH]; intros p; simpl; [tauto|].
  rewrite IH. destruct L1 as [|b L1]; simpl; [tauto|].
  change (match L1 with [] => b | _ :: _ => List.last L1 a end) with (List.last (b :: L1) a).
  change (match L1 with [] => b | _ :: _ => List.last L1 p end) with (List.last (b :: L1) p).
  rewrite (last_default b L1 a p). tauto.
Qed.

Lemma dll_ext h h' p L q : (forall a, a ∈ L -> hlinks h' a = hlinks h a) -> dll h p L q -> dll h' p L q.
Proof.
  revert p. induction L as [|a L IH]; intros p He; simpl; [done|]. intros [Ha HL].
  split; [rewrite He by set_solver; done|]. apply IH; [set_solver|done].
Qed.

Lemma links_ok_ext h h' L : (forall a, a ∈ L -> hlinks h' a = hlinks h a) -> links_ok h L -> links_ok h' L.
Proof. intros He (? & ? & ?). split; [by apply (dll_ext h)|done]. Qed.

Lemma links_ok_at h L1 leaf L2 :
  links_ok h (L1 ++ leaf :: L2) -> hlinks h leaf = Some (List.last L1 NULL, List.hd NULL L2).
Proof. intros (Hd & _). apply dll_app in Hd as [_ [Hl _]]. done. Qed.

Lemma links_ok_right h L1 leaf L2 : links_ok h (L1 ++ leaf :: L2) -> right_ok h leaf.
Proof.
  intros Hok p r Hl Hr. pose proof (links_ok_at _ _ _ _ Hok) as Hl'. rewrite Hl in Hl'. simplify_eq.
  destruct Hok as (Hd & Hnd & _). destruct L2 as [|r L2]; [done|]. simpl in *.
  apply dll_app in Hd as [_ [_ [Hr' _]]]. apply NoDup_app in Hnd as (_ & _ & Hnd).
  split; [|by eexists]. intros ->. apply NoDup_cons in Hnd as [Hnd _]. set_solver.
Qed.

Lemma dll_in_heap h p L q a : dll h p L q -> a ∈ L -> is_Some (h !! a).
Proof.
  revert p. induction L as [|b L IH]; intros p; [set_solver|]. intros [Hb HL] [->|Ha]%elem_of_cons; [|eauto].
  unfold hlinks in Hb. destruct (h !! b); [eauto|done].
Qed.

(** Linking a new leaf in. *)
Lemma links_ok_split h h' L1 leaf L2 new :
  links_ok h (L1 ++ leaf :: L2) -> split_links h h' leaf new -> new ∉ L1 ++ leaf :: L2 -> new <> NULL ->
  links_ok h' (L1 ++ leaf :: new :: L2).
Proof.
  intros Hok (p & r & Hl & Hl' & Hn' & Hr' & Ho) Hnew Hnull.
  pose proof (links_ok_at _ _ _ _ Hok) as Hat. rewrite Hl in Hat. injection Hat as -> ->.
  destruct Hok as (Hd & Hnd & Hnn). apply dll_app in Hd as [H1 [_ H2]]. simpl in H1.
  apply NoDup_app in Hnd as (Hnd1 & Hnd2 & Hnd3). apply NoDup_cons in Hnd3 as [Hnd3 Hnd4].
  split; [|split].
  - apply dll_app. simpl. split; [|split; [done|split; [done|]]].
    + apply (dll_ext h); [|done]. intros a Ha. apply Ho; [set_solver..|].
      destruct L2 as [|r L2]; simpl; [set_solver|]. intros ->. apply (Hnd2 r); [done|set_solver].
    + destruct L2 as [|r L2]; [done|]. simpl in *. destruct Hr' as (p' & q & Hr1 & Hr2); [set_solver|].
      destruct H2 as [H2 H3]. rewrite H2 in Hr1. simplify_eq. split; [done|].
      apply (dll_ext h); [|done]. apply NoDup_cons in Hnd4 as [Hnd4 _].
      intros a Ha. apply Ho; set_solver.
  - apply NoDup_app. rewrite !NoDup_cons. set_solver.
  - set_solver.
Qed.

End links.

(** ** Trees *)

Section trees.
Context {K : Type} {KO : KeyOrder K} {KL : KeyLaws K}.
Implicit Types h : gmap Z (bnode (K := K)).

(** A leaf with its entries; an inner node with its children, each with the
    lower bound of its keys ([None] for the leftmost). *)
Fixpoint tree (d : nat) : Type :=
  match d with
  | O => addr * list (K * addr)
  | S d => addr * list (option K * tree d)
  end.

Definition troot {d} : tree d -> addr :=
  match d with O => fun t => t.1 | S _ => fun t => t.1 end.

Definition ents_addr {d} (es : list (option K * tree d)) : list (option K * addr) :=
  (fun e => (e.1, troot e.2)) <$> es.

Fixpoint rep h (d : nat) : tree d -> Prop :=
  match d with
  | O => fun t => leaf_at h t.1 t.2
  | S d => fun t => inner_at h t.1 (ents_addr t.2) /\ Forall (fun e => rep h d e.2) t.2
  end.

(** The leaves in order, with their entries. *)
Fixpoint flat (d : nat) : tree d -> list (addr * list (K * addr)) :=
  match d with
  | O => fun t => [t]
  | S d => fun t => e ← t.2; flat d e.2
  end.

Fixpoint addrs (d : nat) : tree d -> list addr :=
  match d with
  | O => fun t => [t.1]
  | S d => fun t => t.1 :: (e ← t.2; addrs d e.2)
  end.

(** Keys are at least [lo] and below [hi]. *)
Definition in_lo (lo : option K) (x : K) : Prop := match lo with Some l => kle l x = true | None => True end.
Definition in_hi (hi : option K) (x : K) : Prop := match hi with Some u => klt x u = true | None => True end.
Definition ole (lo hi : option K) : Prop :=
  match lo, hi with Some l, Some u => kle l u = true | _, _ => True end.

(** The upper bound of a child: the lower bound of the next one. *)
Definition hi_of {X} (es : list (option K * X)) (hi : option K) : option K :=
  match es with [] => hi | (l, _) :: _ => l end.

Section wf_list.
Context {X : Type} (W : option K -> option K -> X -> Prop).
Fixpoint wf_list (hi : option K) (es : list (option K * X)) : Prop :=
  match es with
  | [] => True
  | (l, t) :: r => W l (hi_of r hi) t /\ wf_list hi r
  end.

Lemma hi_of_app (es1 es2 : list (option K * X)) hi : hi_of (es1 ++ es2) hi = hi_of es1 (hi_of es2 hi).
Proof. by destruct es1 as [|[]]. Qed.

Lemma wf_list_app hi es1 es2 : wf_list hi (es1 ++ es2) <-> wf_list (hi_of es2 hi) es1 /\ wf_list hi es2.
Proof.
  induction es1 as [|[l t] es1 IH]; simpl; [tauto|]. rewrite IH, hi_of_app. tauto.
Qed.
End wf_list.

Fixpoint wf (d : nat) (lo hi : option K) : tree d -> Prop :=
  match d with
  | O => fun t => ole lo hi /\ StronglySorted (fun a b => klt a b = true) t.2.*1 /\
                  Forall (fun x => in_lo lo x /\ in_hi hi x) t.2.*1
  | S d => fun t => ole lo hi /\ (exists t0 es, t.2 = (lo, t0) :: es /\ Forall is_Some es.*1) /\
                    wf_list (wf d) hi t.2
  end.

Lemma wf_ole d lo hi t : wf d lo hi t -> ole lo hi.
Proof. destruct d; simpl; naive_solver. Qed.

(** Lower bounds go up along a node. *)
Lemma wf_list_mono d hi x t es :
  wf_list (wf d) hi ((Some x, t) :: es) -> Forall is_Some es.*1 ->
  ole (Some x) hi /\ Forall (fun l => ole (Some x) l) es.*1.
Proof.
  revert x t. induction es as [|[l u] es IH]; intros x t [Ht Hes] Hs; simpl in *.
  - split; [exact (wf_ole _ _ _ _ Ht)|constructor].
  - apply Forall_cons in Hs as [[y ->] Hs]. pose proof (wf_ole _ _ _ _ Ht) as Hxy. simpl in Hxy.
    destruct (IH y u Hes Hs) as [Hh HF]. split.
    + destruct hi; simpl in *; eauto using kle_trans.
    + constructor; [done|]. eapply Forall_impl; [exact HF|]. intros [z|]; simpl; eauto using kle_trans.
Qed.

Lemma addrs_root d (t : tree d) : troot t ∈ addrs d t.
Proof. destruct d; simpl; set_solver. Qed.

(** A tree survives changes elsewhere in the heap. *)
Lemma rep_frame h h' d (t : tree d) :
  (forall a, a ∈ addrs d t -> hcore h' a = hcore h a) -> rep h d t -> rep h' d t.
Proof.
  revert t. induction d as [|d IH]; intros t Hf; simpl.
  - apply leaf_at_core. apply Hf. simpl. set_solver.
  - intros [Hi HF]. split; [revert Hi; apply inner_at_core, Hf; simpl; set_solver|].
    rewrite Forall_forall in HF |- *. intros e He. apply IH; [|by apply HF].
    intros a Ha. apply Hf. simpl. apply list_elem_of_further, list_elem_of_bind. eauto.
Qed.

Lemma rep_in_heap h d (t : tree d) a : rep h d t -> a ∈ addrs d t -> is_Some (h !! a).
Proof.
  revert t. induction d as [|d IH]; intros t; simpl.
  - intros (l & Hl & _) ->%list_elem_of_singleton. eauto.
  - intros [(i & Hi & _) HF] [->|Ha]%elem_of_cons; [eauto|].
    apply list_elem_of_bind in Ha as (e & Ha & He). rewrite Forall_forall in HF. eauto.
Qed.

Lemma flat_addrs d (t : tree d) a : a ∈ (flat d t).*1 -> a ∈ addrs d t.
Proof.
  revert t. induction d as [|d IH]; intros t; simpl; [done|].
  intros (f & -> & Hf)%list_elem_of_fmap. apply list_elem_of_bind in Hf as (e & Hf & He).
  apply list_elem_of_further, list_elem_of_bind. exists e. split; [|done]. apply IH. by apply list_elem_of_fmap_2.
Qed.

(** The scan of an inner node finds the child whose range has the key. *)
Lemma child_split {X} key ks (es' : list (option K * X)) lo hi t0 :
  Some <$> ks = es'.*1 -> in_lo lo key -> in_hi hi key ->
  exists e1 l c e2, (lo, t0) :: es' = e1 ++ (l, c) :: e2 /\ length e1 = scan (fun x => kle x key) ks /\
    in_lo l key /\ in_hi (hi_of e2 hi) key.
Proof.
  revert ks lo t0. induction es' as [|[l t] es IH]; intros ks lo t0 E Hlo Hhi.
  - destruct ks; [|done]. exists [], lo, t0, []. done.
  - destruct ks as [|x ks]; [done|]. rewrite !fmap_cons in E. injection E as <- E. simpl.
    destruct (kle x key) eqn:Ex.
    + destruct (IH ks (Some x) t E) as (e1 & l & c & e2 & -> & Hlen & Hl & Hh); [done..|].
      exists ((lo, t0) :: e1), l, c, e2. simpl. auto.
    + exists [], lo, t0, ((Some x, t) :: es). split_and!; try done. simpl. by apply kle_total.
Qed.

(** Comparing with the middle key tells which half the child is in. *)
Lemma probe_half d hi (es e1 e2 : list (option K * tree d)) e0 l c u p :
  e0 :: es = e1 ++ (l, c) :: e2 -> Forall is_Some es.*1 -> wf_list (wf d) hi (e0 :: es) ->
  es.*1 !! 7%nat = Some (Some u) -> in_lo l p -> in_hi (hi_of e2 hi) p ->
  kle u p = true <-> (8 <= length e1)%nat.
Proof.
  intros He Hs Hwf Hu Hl Hh. apply list_lookup_fmap_Some in Hu as ([l' tu] & Hl' & Hu). simpl in Hl'. subst l'.
  split; intros Hp.
  - destruct (decide (8 <= length e1)%nat) as [|Hlt]; [done|]. exfalso.
    assert (He2 : (e0 :: es) !! 8%nat = Some (Some u, tu)) by done.
    rewrite He, lookup_app_r in He2 by lia. destruct (8 - length e1)%nat as [|m] eqn:Em; [lia|]. simpl in He2.
    destruct e2 as [|[[y|] ty] e2]; [done| |].
    + rewrite He in Hwf. apply wf_list_app in Hwf as [_ [_ Hwf]]. simpl in Hh.
      assert (Hs' : Forall is_Some e2.*1).
      { destruct e1 as [|? e1]; simpl in He; injection He as _ ->; rewrite ?fmap_app in Hs.
        - by apply Forall_cons in Hs as [_ Hs].
        - apply Forall_app in Hs as [_ Hs]. rewrite !fmap_cons in Hs. by apply Forall_cons in Hs as [_ [_ Hs]%Forall_cons]. }
      destruct (wf_list_mono _ _ _ _ _ Hwf Hs') as [_ Hm].
      assert (Hyu : kle y u = true).
      { destruct m as [|m]; simpl in He2; [injection He2 as -> _; apply kle_refl|].
        rewrite Forall_forall in Hm. apply (Hm (Some u)), list_elem_of_lookup. exists m.
        by rewrite list_lookup_fmap, He2. }
      by rewrite (klt_kle_false _ _ (klt_le_trans _ _ _ Hh Hyu)) in Hp.
    + destruct e1 as [|? e1]; simpl in He; injection He as _ ->; rewrite ?fmap_app in Hs.
      * apply Forall_cons in Hs as [[? Hn] _]. done.
      * apply Forall_app in Hs as [_ Hs]. rewrite !fmap_cons in Hs.
        apply Forall_cons in Hs as [_ [[? Hn] _]%Forall_cons]. done.
  - destruct e1 as [|e e1]; [simpl in Hp; lia|]. simpl in He, Hp. injection He as _ ->.
    destruct (decide (length e1 = 7)%nat) as [H7|H7].
    { rewrite list_lookup_middle in Hu by done. simplify_eq. done. }
    rewrite lookup_app_l in Hu by lia. apply list_elem_of_split_length in Hu as (a1 & a2 & -> & _).
    destruct e0 as [le0 te0]. destruct Hwf as [_ Hwf]. rewrite <- app_assoc in Hwf, Hs. apply wf_list_app in Hwf as [_ Hwf].
    rewrite fmap_app in Hs. apply Forall_app in Hs as [_ Hs]. rewrite <- app_comm_cons, fmap_cons in Hs. apply Forall_cons in Hs as [_ Hs].
    rewrite <- app_comm_cons in Hwf. destruct (wf_list_mono _ _ _ _ (a2 ++ (l, c) :: e2) Hwf Hs) as [_ Hm].
    rewrite fmap_app in Hm, Hs. apply Forall_app in Hm as [_ Hm]. apply Forall_app in Hs as [_ Hs].
    rewrite fmap_cons in Hm, Hs. apply Forall_cons in Hm as [Hm _]. apply Forall_cons in Hs as [[y Hy] _]. simpl in Hy. subst l. simpl in *.
    eauto using kle_trans.
Qed.

End trees.

(** ** Insertion *)

Section insertion.
Context {K : Type} {KO : KeyOrder K} {KL : KeyLaws K}.
Implicit Types h : gmap Z (bnode (K := K)).

Abbreviation sorted_keys := (StronglySorted (fun a b : K => klt a b = true)).

(** The leaves [F'] are [F] with the entry of [key] added to [leaf], the leaf
    being split with a new right half [nl] when that is not null. *)
Definition ins_flat (key : K) (v leaf nl : addr) (F F' : list (addr * list (K * addr))) : Prop :=
  exists F1 A B F2, F = F1 ++ (leaf, A ++ B) :: F2 /\
    Forall (fun x => klt x key = true) A.*1 /\ Forall (fun x => klt key x = true) B.*1 /\
    ((nl = NULL /\ F' = F1 ++ (leaf, A ++ (key, v) :: B) :: F2) \/
     (nl <> NULL /\ exists kvs1 kvs2, kvs1 <> [] /\ kvs2 <> [] /\ kvs1 ++ kvs2 = A ++ (key, v) :: B /\
        F' = F1 ++ (leaf, kvs1) :: (nl, kvs2) :: F2)).

Definition found (key : K) (v : addr) (F : list (addr * list (K * addr))) : Prop :=
  exists a kvs k, (a, kvs) ∈ F /\ (k, v) ∈ kvs /\ keq k key = true.

(** A subtree with its bounds. *)
Definition good h d lo hi (t : tree (K := K) d) : Prop := rep h d t /\ wf d lo hi t /\ NoDup (addrs d t).

(** Where the separator of a split is left for the parent. *)
Definition sep_at h d lo hi : tree (K := K) d -> tree (K := K) d -> K -> Prop :=
  match d return tree (K := K) d -> tree (K := K) d -> K -> Prop with
  | O => fun _ t2 sep => in_lo lo sep /\ in_hi hi sep /\
           exists l, h !! t2.1 = Some (BLeaf l) /\ lf_keys l !! 0%nat = Some sep
  | S _ => fun t1 _ sep => exists i, h !! t1.1 = Some (BInner i) /\ in_keys i !! 14%nat = Some sep
  end.

Definition in_new (s : BTree (K := K)) (L0 L : list addr) : Prop :=
  forall a, a ∈ L -> a ∈ L0 \/ bt_brk s <= a.

(** The tree [t] has become one tree, or two with a separator, that hold the
    leaves [F']. *)
Definition grown d lo hi (t : tree (K := K) d) (s : BTree (K := K)) (new : addr) (s' : BTree) (F' : list (addr * list (K * addr))) : Prop :=
  (new = NULL /\ exists t', good (bt_heap s') d lo hi t' /\ troot t' = troot t /\ flat d t' = F' /\
     in_new s (addrs d t) (addrs d t')) \/
  (new <> NULL /\ exists t1 t2 sep, good (bt_heap s') d lo (Some sep) t1 /\
     good (bt_heap s') d (Some sep) hi t2 /\ troot t1 = troot t /\ troot t2 = new /\
     flat d t1 ++ flat d t2 = F' /\ NoDup (addrs d t1 ++ addrs d t2) /\
     in_new s (addrs d t) (addrs d t1 ++ addrs d t2) /\ sep_at (bt_heap s') d lo hi t1 t2 sep).

(** What an insertion below [t] does: [G1] and [G2] are the leaves to its left
    and right. *)
Definition post (G1 G2 : list addr) d lo hi (t : tree d) (key : K) (s : BTree) (new : addr) (s' : BTree) : Prop :=
  heap_ok s' /\ bt_root s' = bt_root s /\ bt_depth s' = bt_depth s /\ bt_dummyval s' = NULL /\
  bt_brk s <= bt_brk s' /\
  (forall a, a < bt_brk s -> a ∉ addrs d t -> hcore (bt_heap s') a = hcore (bt_heap s) a) /\
  exists F' leaf nl, ins_flat key (bt_dummyval s) leaf nl (flat d t) F' /\
    links_ok (bt_heap s') (G1 ++ F'.*1 ++ G2) /\ seq_step (bt_heap s) (bt_heap s') leaf nl /\
    grown d lo hi t s new s' F'.

Lemma sorted_insert (A B : list K) key :
  sorted_keys (A ++ B) -> Forall (fun x => klt x key = true) A -> Forall (fun x => klt key x = true) B ->
  sorted_keys (A ++ key :: B).
Proof.
  rewrite !StronglySorted_app, StronglySorted_cons, !Forall_forall. intros (Hab & HA & HB) HAk HBk.
  split_and!; [|done..]. intros x y Hx [->|Hy]%elem_of_cons; auto.
Qed.

(** A sorted list with two non-empty halves is separated by the second's head. *)
Lemma sorted_halves (l1 l2 : list K) x lo hi :
  sorted_keys (l1 ++ x :: l2) -> l1 <> [] -> Forall (fun y => in_lo lo y /\ in_hi hi y) (l1 ++ x :: l2) ->
  (ole lo (Some x) /\ sorted_keys l1 /\ Forall (fun y => in_lo lo y /\ in_hi (Some x) y) l1) /\
  (ole (Some x) hi /\ sorted_keys (x :: l2) /\ Forall (fun y => in_lo (Some x) y /\ in_hi hi y) (x :: l2)).
Proof.
  rewrite StronglySorted_app, StronglySorted_cons, Forall_app, !Forall_cons, !Forall_forall.
  intros (Hab & HA & HB1 & HB2) Hne (HF1 & [Hxl Hxh] & HF2). split; split_and!; try done.
  - intros y Hy. split; [by apply HF1|]. simpl. apply Hab; set_solver.
  - destruct hi; simpl in *; eauto using klt_le.
  - apply kle_refl.
  - intros y Hy. split; [simpl; auto using klt_le|by apply HF2].
Qed.

(** Insertion at a leaf. *)
Lemma leaf_post G1 G2 lo hi (t : tree (K := K) 0) key s :
  heap_ok s -> good (bt_heap s) 0 lo hi t -> links_ok (bt_heap s) (G1 ++ (flat 0 t).*1 ++ G2) ->
  in_lo lo key -> in_hi hi key ->
  (exists v, LeafInsert key (troot t) s = Ok (NULL, v, s) /\ found key v (flat 0 t)) \/
  (exists new s', LeafInsert key (troot t) s = Ok (new, bt_dummyval s, s') /\ post G1 G2 0 lo hi t key s new s').
Proof.
  destruct t as [leaf kvs]. intros Hok ((l & Hl & Hrep) & (Hole & Hs & HF) & Hnd) Hlinks Hlo Hhi. simpl in *.
  pose proof (links_ok_right _ _ _ _ Hlinks) as Hright.
  destruct (LeafInsert_spec key leaf l kvs s Hok Hl Hrep Hs Hright)
    as [(k & v & E & Hk & Hkey)|(A & B & new & s' & E & -> & HA & HB & Hok' & Hr & Hd & Hdv & Hseq & Hc & Hcase)].
  { left. exists v. split; [done|]. exists leaf, kvs, k. set_solver. }
  right. exists new, s'. split; [done|]. rewrite fmap_app in Hs, HF.
  pose proof (sorted_insert _ _ _ Hs HA HB) as Hs'.
  assert (HF' : Forall (fun x => in_lo lo x /\ in_hi hi x) (A ++ (key, bt_dummyval s) :: B).*1).
  { rewrite fmap_app, fmap_cons. apply Forall_app in HF as [HF1 HF2]. apply Forall_app. split; [done|]. by constructor. }
  assert (Hs2 : sorted_keys (A ++ (key, bt_dummyval s) :: B).*1) by (rewrite fmap_app, fmap_cons; exact Hs').
  destruct Hcase as [(-> & Hb & Hat & Hli)|(-> & Hb & kvs1 & kvs2 & Hkk & Hn1 & Hn2 & Hat1 & Hat2 & Hli)].
  - split_and!; try done; [lia|intros a _ Ha; destruct (decide (a = NULL)) as [->|]|].
    { unfold hcore. by rewrite !heap_ok_null. }
    { apply Hc; set_solver. }
    exists [(leaf, A ++ (key, bt_dummyval s) :: B)], leaf, NULL. split_and!.
    + exists [], A, B, []. split_and!; try done. by left.
    + apply (links_ok_ext (bt_heap s)); auto.
    + done.
    + left. split; [done|]. exists (leaf, A ++ (key, bt_dummyval s) :: B). split_and!; try done.
      intros a Ha. by left.
  - assert (Hne : leaf <> bt_brk s) by (intros ->; by rewrite heap_ok_fresh in Hl).
    destruct kvs2 as [|[k2 v2] kvs2]; [done|].
    destruct Hok as [Hb0 Hok0].
    rewrite <- Hkk, fmap_app, fmap_cons in Hs2, HF'.
    destruct (sorted_halves kvs1.*1 kvs2.*1 k2 lo hi) as [Hw1 Hw2]; [done|by destruct kvs1|done|].
    assert (Hin2 : in_lo lo k2 /\ in_hi hi k2).
    { apply Forall_app in HF' as [_ HF']. apply Forall_cons in HF' as [HF' _]. done. }
    unfold post. split_and!; try done; [unfold node_size in *; lia|..].
    { intros a Ha1 Ha2. apply Hc; [set_solver|]. lia. }
    exists [(leaf, kvs1); (bt_brk s, (k2, v2) :: kvs2)], leaf, (bt_brk s). split_and!; try done.
    + exists [], A, B, []. split_and!; try done. right. split; [unfold NULL; lia|].
      exists kvs1, ((k2, v2) :: kvs2). done.
    + simpl. apply (links_ok_split (bt_heap s)); [done..| |unfold NULL; lia].
      intros Hin. destruct Hlinks as (Hdll & _). apply (dll_in_heap _ _ _ _ _ Hdll) in Hin as Hin%Hok0. lia.
    + right. split; [unfold NULL; lia|]. exists (leaf, kvs1), (bt_brk s, (k2, v2) :: kvs2), k2.
      destruct Hat2 as (l2 & Hl2 & Hr2).
      assert (Hk2 : lf_keys l2 !! 0%nat = Some k2).
      { by destruct (leaf_rep_lookup l2 ((k2, v2) :: kvs2) 0 k2 v2 Hr2 eq_refl). }
      split_and!; try done.
      * split; [by exists l2|]. split; [done|]. apply NoDup_singleton.
      * simpl. apply NoDup_cons. split; [set_solver|apply NoDup_singleton].
      * intros a [->|Ha]%elem_of_cons; [left; set_solver|right]. apply list_elem_of_singleton in Ha. simpl in Ha. lia.
      * destruct Hin2 as [? ?]. split_and!; try done. by exists l2.
Qed.

(** Replacing one child of a node by one or two. *)
Lemma replace_mid s h1 d lo hi a (e1 e2 : list (option K * tree d)) l c c' m' :
  heap_ok s -> good (bt_heap s) (S d) lo hi (a, e1 ++ (l, c) :: e2) ->
  (forall b, b < bt_brk s -> b ∉ addrs d c -> hcore h1 b = hcore (bt_heap s) b) ->
  Forall is_Some m'.*1 -> Forall (fun e => rep h1 d e.2) ((l, c') :: m') ->
  wf_list (wf d) (hi_of e2 hi) ((l, c') :: m') -> NoDup (e ← (l, c') :: m'; addrs d e.2) ->
  in_new s (addrs d c) (e ← (l, c') :: m'; addrs d e.2) ->
  let es' := e1 ++ ((l, c') :: m') ++ e2 in
  Forall (fun e => rep h1 d e.2) es' /\ wf_list (wf d) hi es' /\
  (exists t0 es, es' = (lo, t0) :: es /\ Forall is_Some es.*1) /\
  NoDup (a :: (e ← es'; addrs d e.2)) /\
  in_new s (addrs (S d) (a, e1 ++ (l, c) :: e2)) (a :: (e ← es'; addrs d e.2)).
Proof.
  intros Hok (Hrep & Hwf & Hnd) Hfr Hm' Hmr Hmw Hmn Hmi es'.
  destruct Hrep as [(i & Hi & _) HF]. destruct Hwf as (_ & (t0 & es & Hes & Hsome) & Hwf). cbn [fst snd] in *.
  cbn [addrs fst snd] in Hnd |- *. unfold es' in *. clear es'.
  set (mid := (l, c') :: m') in *. set (M := e ← mid; addrs d e.2) in *.
  rewrite bind_app, bind_cons in Hnd. rewrite !bind_app, bind_cons. fold M.
  set (A1 := e ← e1; addrs d e.2) in *. set (A2 := e ← e2; addrs d e.2) in *. cbn [snd] in *.
  apply Forall_app in HF as [HF1 HF2]. apply Forall_cons in HF2 as [HFc HF2]. cbn [snd] in HFc.
  assert (Hlt : forall b, b ∈ A1 ++ A2 -> b < bt_brk s).
  { destruct Hok as [_ Hok]. intros b Hb.
    assert (Hx : exists e : option K * tree d, b ∈ addrs d e.2 /\ rep (bt_heap s) d e.2).
    { rewrite Forall_forall in HF1, HF2. apply elem_of_app in Hb as [Hb|Hb];
        apply list_elem_of_bind in Hb as (e & Hb & He); eauto. }
    destruct Hx as (e & Hb' & He). apply (rep_in_heap _ _ _ _ He), Hok in Hb'. lia. }
  assert (Hfr' : forall e : option K * tree d, (forall b, b ∈ addrs d e.2 -> b ∈ A1 ++ A2) -> rep (bt_heap s) d e.2 -> rep h1 d e.2).
  { intros e He. apply rep_frame. intros b Hb. apply Hfr; [auto|].
    apply NoDup_cons in Hnd as [_ Hnd]. apply He, elem_of_app in Hb.
    apply NoDup_app in Hnd as (_ & Hd1 & Hnd). apply NoDup_app in Hnd as (_ & Hd2 & _).
    intros Hc. destruct Hb as [Hb|Hb]; [apply (Hd1 _ Hb)|apply (Hd2 _ Hc)]; set_solver. }
  split_and!.
  - rewrite !Forall_app. split_and!; [|done|]; rewrite Forall_forall in HF1, HF2 |- *; intros e He;
      (apply Hfr'; [|by auto]); intros b Hb; apply elem_of_app; [left|right]; apply list_elem_of_bind; eauto.
  - apply wf_list_app in Hwf as [Hw1 [_ Hw2]]. rewrite !wf_list_app. rewrite hi_of_app. done.
  - destruct e1 as [|e e1]; simpl in Hes; [injection Hes as -> _ Hes|injection Hes as -> Hes].
    + exists c', (m' ++ e2). split; [done|]. rewrite fmap_app. apply Forall_app. split; [done|by rewrite Hes].
    + exists t0, (e1 ++ mid ++ e2). split; [done|]. subst es. rewrite !fmap_app in Hsome |- *.
      apply Forall_app in Hsome as [Hs1 Hs2]. rewrite fmap_cons in Hs2. apply Forall_cons in Hs2 as [Hs2 Hs3].
      rewrite !Forall_app. split; [done|]. rewrite fmap_app. unfold mid. rewrite fmap_cons, Forall_app. split; [by constructor|done].
  - assert (Hm : forall b, b ∈ M -> b <> a /\ (b ∉ A1) /\ (b ∉ A2)).
    { intros b Hb. apply Hmi in Hb. destruct Hb as [Hb|Hb].
      - apply NoDup_cons in Hnd as [Hn Hnd]. apply NoDup_app in Hnd as (_ & Hd1 & Hnd).
        apply NoDup_app in Hnd as (_ & Hd2 & _). split_and!; [set_solver| |by apply Hd2].
        intros Hb'. apply (Hd1 _ Hb'). set_solver.
      - split_and!.
        + intros ->. destruct Hok as [_ Hok]. specialize (Hok a ltac:(eauto)). lia.
        + intros Hb'. specialize (Hlt b). set_solver by lia.
        + intros Hb'. specialize (Hlt b). set_solver by lia. }
    apply NoDup_cons in Hnd as [Hn Hnd]. rewrite !NoDup_app in Hnd. destruct Hnd as (Hn1 & Hd1 & Hn2 & Hd2 & Hn3).
    rewrite NoDup_cons, !NoDup_app. split_and!; try done; set_solver.
  - intros b [->|Hb]%elem_of_cons; [left; set_solver|]. rewrite !elem_of_app in Hb.
    destruct Hb as [Hb|[Hb|Hb]]; [left; set_solver|destruct (Hmi b Hb); [left; set_solver|by right]|left; set_solver].
Qed.

(** [InnerInsert] in two parts: the node itself, then a new root. *)
Definition sub_insert (d : nat) (key : K) (a : addr) (s : BTree) : result (addr * addr * BTree) :=
  match d with O => LeafInsert key a s | S _ => InnerInsert d key a s end.

Definition new_child (d : nat) (key : K) (inner child new : addr) (k : nat) (s : BTree) : result (addr * option K * BTree) :=
  match d with
  | O =>
      l ← get_leaf new s;
      sep ← from_opt OutOfBounds (lf_keys l !! 0%nat);
      inner_add inner k sep sep new s
  | S _ =>
      c ← get_inner child s;
      sep ← from_opt OutOfBounds (in_keys c !! (IIN - 1)%nat);
      inner_add inner k sep key new s
  end.

Definition inner_body (d : nat) (key : K) (inner : addr) (s : BTree) : result (addr * addr * option K * BTree) :=
  i ← get_inner inner s;
  let k := child_index key i in
  child ← from_opt OutOfBounds (in_children i !! k);
  '(new, val, s) ← sub_insert d key child s;
  '(sib, up, s) ← (if new =? NULL then Ok (NULL, None, s) else new_child d key inner child new k s);
  Ok (sib, val, up, s).

Lemma InnerInsert_body d key inner s :
  InnerInsert (S d) key inner s =
    '(sib, val, up, s) ← inner_body d key inner s;
    match up with
    | Some upKey => Ok (sib, val, if (S d =? bt_depth s)%nat then grow_root upKey sib s else s)
    | None => Ok (sib, val, s)
    end.
Proof.
  unfold inner_body. simpl. destruct (get_inner inner s) as [i|]; [|done]. simpl.
  destruct (from_opt OutOfBounds (in_children i !! child_index key i)) as [c|]; [|done]. simpl.
  change (match d with 0%nat => LeafInsert key c s | S _ => InnerInsert d key c s end) with (sub_insert d key c s).
  destruct (sub_insert d key c s) as [[[new val] s1]|]; [|done]. simpl.
  change (match d with
          | 0%nat => l ← get_leaf new s1; sep ← from_opt OutOfBounds (lf_keys l !! 0%nat);
                     inner_add inner (child_index key i) sep sep new s1
          | S _ => c ← get_inner c s1; sep ← from_opt OutOfBounds (in_keys c !! (IIN - 1)%nat);
                   inner_add inner (child_index key i) sep key new s1
          end) with (new_child d key inner c new (child_index key i) s1).
  destruct (if new =? NULL then _ else _) as [[[sib up] s2]|]; done.
Qed.

(** Inner nodes have no links and no sequence number. *)
Lemma inner_insert_views h a i :
  hlinks h a = None ->
  (forall b, hlinks (<[a := BInner i]> h) b = hlinks h b) /\ (forall b, hseq (<[a := BInner i]> h) b = hseq h b).
Proof.
  intros Ha. assert (hseq h a = None) by (unfold hlinks, hseq in *; by destruct (h !! a) as [[]|]).
  split; intros b; (destruct (decide (a = b)) as [<-|]; [|by rewrite ?hlinks_insert_ne, ?hseq_insert_ne]);
    unfold hlinks, hseq in *; by rewrite lookup_insert_eq.
Qed.

(** The separator that a split child left is what the parent reads. *)
Lemma new_child_reads d lo hi key inner (t1 t2 : tree d) sep k s :
  sep_at (bt_heap s) d lo hi t1 t2 sep ->
  new_child d key inner (troot t1) (troot t2) k s =
    inner_add inner k sep (match d with O => sep | S _ => key end) (troot t2) s.
Proof.
  destruct d as [|d]; simpl.
  - intros (_ & _ & l & Hl & Hk). unfold get_leaf. rewrite Hl. simpl. by rewrite Hk.
  - intros (i & Hi & Hk). unfold get_inner. rewrite Hi. simpl. by rewrite Hk.
Qed.

Lemma ins_flat_ctx key v leaf nl F F' G1 G2 :
  ins_flat key v leaf nl F F' -> ins_flat key v leaf nl (G1 ++ F ++ G2) (G1 ++ F' ++ G2).
Proof.
  intros (F1 & A & B & F2 & -> & HA & HB & [[Hn ->]|(Hn & k1 & k2 & ? & ? & ? & ->)]);
    exists (G1 ++ F1), A, B, (F2 ++ G2); (split; [by rewrite <- !app_assoc|]); (split; [done|]); (split; [done|]).
  - left. split; [done|]. by rewrite <- !app_assoc.
  - right. split; [done|]. exists k1, k2. rewrite <- !app_assoc. done.
Qed.

Lemma ents_addr_app {d} (e1 e2 : list (option K * tree d)) : ents_addr (e1 ++ e2) = ents_addr e1 ++ ents_addr e2.
Proof. apply fmap_app. Qed.

Lemma ents_addr_fst {d} (es : list (option K * tree d)) : (ents_addr es).*1 = es.*1.
Proof. unfold ents_addr. rewrite <- list_fmap_compose. done. Qed.

(** The middle key decides as the position does. *)
Lemma probe_add d lo hi a (e1 e2 : list (option K * tree d)) l c p i h h' :
  good h (S d) lo hi (a, e1 ++ (l, c) :: e2) -> inner_rep i (ents_addr (e1 ++ (l, c) :: e2)) ->
  h' !! a = Some (BInner i) -> in_lo l p -> in_hi (hi_of e2 hi) p ->
  in_num_keys i = IIN -> forall u, in_keys i !! 7%nat = Some u -> kle u p = true <-> (8 <= length e1)%nat.
Proof.
  intros (_ & (_ & (t0 & es & Hes & Hsome) & Hwf) & _) (_ & _ & _ & _ & Hk & _) _ Hlo Hhi Hn u Hu.
  cbn [snd] in *. rewrite ents_addr_fst, Hes in Hk. rewrite Hes in Hwf.
  change (tail ((lo, t0) :: es).*1) with (fmap (M := list) (A := option K * tree d) fst es) in Hk.
  apply (probe_half d hi es e1 e2 (lo, t0) l c u p); try done.
  rewrite <- Hk, list_lookup_fmap, lookup_take_lt, Hu by (rewrite Hn; cbv; lia). done.
Qed.

(** The subtrees of a node do not notice a change of the node and of a fresh
    address. *)
Lemma reps_frame d h1 h2 a b (es : list (option K * tree d)) :
  Forall (fun e => rep h1 d e.2) es -> a ∉ (e ← es; addrs d e.2) -> h1 !! b = None ->
  (forall x, x <> a -> x <> b -> hcore h2 x = hcore h1 x) -> Forall (fun e => rep h2 d e.2) es.
Proof.
  intros HF Ha Hb Hc. rewrite Forall_forall in HF |- *. intros e He. apply (rep_frame h1); [|by apply HF].
  intros x Hx. apply Hc.
  - intros ->. apply Ha. apply list_elem_of_bind. eauto.
  - intros ->. destruct (rep_in_heap _ _ _ _ (HF e He) Hx) as [? Hs]. by rewrite Hs in Hb.
Qed.

(** Two neighbouring parts of a node's children make two nodes. *)
Lemma wf_split d lo hi a a' (E1 E2 : list (option K * tree d)) u C :
  wf (S d) lo hi (a, E1 ++ (Some u, C) :: E2) -> E1 <> [] ->
  wf (S d) lo (Some u) (a, E1) /\ wf (S d) (Some u) hi (a', (Some u, C) :: E2).
Proof.
  intros (Hole & (t0 & es & Hes & Hs) & Hwf) Hne. cbn [snd] in *.
  destruct E1 as [|e E1]; [done|]. simpl in Hes. injection Hes as -> <-.
  rewrite fmap_app in Hs. apply Forall_app in Hs as [Hs1 Hs2]. rewrite fmap_cons in Hs2. apply Forall_cons in Hs2 as [_ Hs2].
  pose proof Hwf as Hwf0. apply wf_list_app in Hwf as [Hw1 Hw2]. simpl in Hw1.
  destruct (wf_list_mono _ _ _ _ _ Hw2 Hs2) as [Hu _].
  split; (split; [|split; [|done]]).
  - destruct lo as [x|]; [|done]. simpl in Hwf0.
    destruct (wf_list_mono d hi x t0 (E1 ++ (Some u, C) :: E2)) as [_ Hm]; [done| |].
    { rewrite fmap_app. apply Forall_app. split; [done|]. rewrite fmap_cons. by constructor. }
    rewrite fmap_app in Hm. apply Forall_app in Hm as [_ Hm]. rewrite fmap_cons in Hm. by apply Forall_cons in Hm as [Hm _].
  - by exists t0, E1.
  - done.
  - by exists C, E2.
Qed.

Definition up_at (h : gmap Z bnode) (a new : addr) (up : option K) : Prop :=
  match up with
  | None => new = NULL
  | Some u => new <> NULL /\ exists i, h !! a = Some (BInner i) /\ in_keys i !! 14%nat = Some u
  end.

(** The node's children, from one node to two. *)
Lemma ents_split {d} (es : list (option K * tree d)) es1 u c es2 :
  ents_addr es = es1 ++ (Some u, c) :: es2 ->
  exists E1 C E2, es = E1 ++ (Some u, C) :: E2 /\ es1 = ents_addr E1 /\ c = troot C /\ es2 = ents_addr E2.
Proof.
  intros (E1 & r & -> & He & ->)%fmap_app_inv. symmetry in He.
  apply fmap_cons_inv in He as ([l' C] & E2 & Hc & -> & ->). simpl in Hc. injection Hc as <- ->.
  by exists E1, C, E2.
Qed.

(** What [inner_add] at [a] leaves: the leaves, and all nodes but [a] and the one
    it may have allocated. *)
Definition leaves_kept (s1 s2 : BTree (K := K)) (a : addr) : Prop :=
  (forall b, hlinks (bt_heap s2) b = hlinks (bt_heap s1) b) /\
  (forall b, hseq (bt_heap s2) b = hseq (bt_heap s1) b) /\
  (forall x, x <> a -> x <> bt_brk s1 -> hcore (bt_heap s2) x = hcore (bt_heap s1) x) /\
  bt_brk s1 <= bt_brk s2.

Lemma add_leaves_kept s1 s2 a i :
  heap_ok s1 -> bt_heap s1 !! a = Some (BInner i) ->
  (bt_brk s2 = bt_brk s1 /\ exists i', bt_heap s2 = <[a := BInner i']> (bt_heap s1)) \/
  (bt_brk s2 = bt_brk s1 + node_size /\ exists i1 i2, bt_heap s2 = <[a := BInner i1]> (<[bt_brk s1 := BInner i2]> (bt_heap s1))) ->
  leaves_kept s1 s2 a.
Proof.
  intros Hok Hi Hcase. pose proof (heap_ok_fresh _ Hok) as Hfresh.
  assert (Hla : hlinks (bt_heap s1) a = None) by (unfold hlinks; by rewrite Hi).
  destruct Hcase as [(Hbb & i' & Hh)|(Hbb & i1 & i2 & Hh)]; unfold leaves_kept; rewrite Hh.
  - destruct (inner_insert_views (bt_heap s1) a i' Hla) as [? ?]. split_and!; try done; [|lia].
    intros x ??. by apply hcore_insert_ne.
  - assert (Hlb : hlinks (bt_heap s1) (bt_brk s1) = None) by (unfold hlinks; by rewrite Hfresh).
    destruct (inner_insert_views (bt_heap s1) (bt_brk s1) i2 Hlb) as [Hv1 Hv2].
    destruct (inner_insert_views (<[bt_brk s1 := BInner i2]> (bt_heap s1)) a i1) as [Hv3 Hv4]; [by rewrite Hv1|].
    split_and!; [intros b; by rewrite Hv3|intros b; by rewrite Hv4| |unfold node_size in *; lia].
    intros x ??. by rewrite !hcore_insert_ne by done.
Qed.

(** What an insertion below [t] does besides growing it. *)
Definition kept (G1 G2 : list addr) d (t : tree (K := K) d) (key : K) (s s' : BTree (K := K)) (F' : list (addr * list (K * addr))) : Prop :=
  heap_ok s' /\ bt_root s' = bt_root s /\ bt_depth s' = bt_depth s /\ bt_dummyval s' = NULL /\ bt_brk s <= bt_brk s' /\
  (forall a, a < bt_brk s -> a ∉ addrs d t -> hcore (bt_heap s') a = hcore (bt_heap s) a) /\
  exists leaf nl, ins_flat key (bt_dummyval s) leaf nl (flat d t) F' /\
    links_ok (bt_heap s') (G1 ++ F'.*1 ++ G2) /\ seq_step (bt_heap s) (bt_heap s') leaf nl.

Lemma post_kept G1 G2 d lo hi (t : tree d) key s new s' :
  post G1 G2 d lo hi t key s new s' <-> exists F', kept G1 G2 d t key s s' F' /\ grown d lo hi t s new s' F'.
Proof. unfold post, kept. naive_solver. Qed.

(** From the insertion below a child to the one below its parent. *)
Lemma kept_up G1 G2 d a (e1 e2 es' : list (option K * tree d)) l c key s s1 s2 F' :
  heap_ok s -> kept (G1 ++ (e ← e1; flat d e.2).*1) ((e ← e2; flat d e.2).*1 ++ G2) d c key s s1 F' ->
  heap_ok s2 -> same_meta s1 s2 -> leaves_kept s1 s2 a ->
  (e ← es'; flat d e.2) = (e ← e1; flat d e.2) ++ F' ++ (e ← e2; flat d e.2) ->
  kept G1 G2 (S d) (a, e1 ++ (l, c) :: e2) key s s2 (e ← es'; flat d e.2).
Proof.
  intros [_ Hok] (Hok1 & Hr & Hd & Hdv & Hb & Hfr & leaf & nl & Hins & Hlinks & Hseq) Hok2 (Hm1 & Hm2 & Hm3)
    (Hv1 & Hv2 & Hv3 & Hv4) Hfl. unfold kept. split_and!; try done; try congruence; [lia|..].
  - intros b Hb1 Hb2. simpl in Hb2. rewrite bind_app, bind_cons in Hb2. apply not_elem_of_cons in Hb2 as [Hb2 Hb3].
    rewrite Hv3; [|done|lia]. apply Hfr; [done|]. simpl in Hb3. rewrite !elem_of_app in Hb3. tauto.
  - exists leaf, nl. split_and!.
    + rewrite Hfl. simpl. rewrite bind_app, bind_cons. by apply ins_flat_ctx.
    + apply (links_ok_ext (bt_heap s1)); [by auto|]. rewrite Hfl, !fmap_app. rewrite <- !app_assoc in Hlinks.
      rewrite <- !app_assoc. done.
    + destruct Hseq as [(q & Hq1 & Hq2) Hq3]. split; [exists q; by rewrite Hv2|]. intros b ??. rewrite Hv2. auto.
Qed.

(** The parent of the subtree an insertion worked in is as it was. *)
Lemma parent_at h1 d lo hi a (e1 e2 : list (option K * tree d)) l c s :
  heap_ok s -> good (bt_heap s) (S d) lo hi (a, e1 ++ (l, c) :: e2) ->
  (forall b, b < bt_brk s -> b ∉ addrs d c -> hcore h1 b = hcore (bt_heap s) b) ->
  inner_at h1 a (ents_addr (e1 ++ (l, c) :: e2)).
Proof.
  intros [_ Hok] [[Hi _] (_ & Hnd0)] Hfr. simpl in Hi. apply (inner_at_core (bt_heap s)); [|done]. apply Hfr.
  - destruct Hi as (i & Hi & _). specialize (Hok a ltac:(eauto)). lia.
  - simpl in Hnd0. rewrite bind_app, bind_cons in Hnd0.
    apply NoDup_cons in Hnd0 as [Hn0 _]. simpl in Hn0. rewrite !elem_of_app in Hn0. tauto.
Qed.

(** The child absorbed the entry. *)
Lemma post_same G1 G2 d lo hi a (e1 e2 : list (option K * tree d)) l c key s s1 :
  heap_ok s -> good (bt_heap s) (S d) lo hi (a, e1 ++ (l, c) :: e2) ->
  post (G1 ++ (e ← e1; flat d e.2).*1) ((e ← e2; flat d e.2).*1 ++ G2) d l (hi_of e2 hi) c key s NULL s1 ->
  post G1 G2 (S d) lo hi (a, e1 ++ (l, c) :: e2) key s NULL s1.
Proof.
  intros Hok Hg (F' & Hkept & Hcase)%post_kept. pose proof Hkept as (Hok1 & _ & _ & _ & Hb & Hfr & _).
  destruct Hcase as [(_ & c' & (Hrep' & Hwf' & Hnd') & Hroot & Hflat & Hnew)|[? _]]; [|done].
  destruct (replace_mid s (bt_heap s1) d lo hi a e1 e2 l c c' []) as (HF & Hwf & Hhd & Hnd & Hnw); try done.
  { by constructor. }
  { by rewrite bind_cons, app_nil_r. }
  { by rewrite bind_cons, app_nil_r. }
  apply post_kept. exists (e ← e1 ++ [(l, c')] ++ e2; flat d e.2). split.
  { apply (kept_up G1 G2 d a e1 e2 _ l c key s s1 s1 F'); try done. rewrite !bind_app, !bind_cons. simpl. by rewrite app_nil_r, Hflat. }
  left. split; [done|]. exists (a, e1 ++ [(l, c')] ++ e2). split_and!; try done.
  split; [split; [|done]|split; [|done]]; [|by destruct Hg as (_ & (? & _) & _)].
  pose proof (parent_at _ _ _ _ _ _ _ _ _ _ Hok Hg Hfr) as Hi. simpl in Hi |- *.
  unfold ents_addr in *. rewrite fmap_app, fmap_cons in Hi |- *. simpl in *. by rewrite Hroot.
Qed.

(** A node that was split makes two good trees. *)
Lemma split_good d h lo hi a b (E1 E2 : list (option K * tree d)) u C i1 i2 :
  wf (S d) lo hi (a, E1 ++ (Some u, C) :: E2) -> Forall (fun e => rep h d e.2) (E1 ++ (Some u, C) :: E2) ->
  NoDup (a :: (e ← E1 ++ (Some u, C) :: E2; addrs d e.2)) -> b ∉ (e ← E1 ++ (Some u, C) :: E2; addrs d e.2) -> a <> b ->
  h !! a = Some (BInner i1) -> inner_rep i1 (ents_addr E1) ->
  h !! b = Some (BInner i2) -> inner_rep i2 ((Some u, troot C) :: ents_addr E2) ->
  good h (S d) lo (Some u) (a, E1) /\ good h (S d) (Some u) hi (b, (Some u, C) :: E2) /\
  NoDup (addrs (S d) (a, E1) ++ addrs (S d) (b, (Some u, C) :: E2)).
Proof.
  intros Hwf HF Hnd Hb Hab Ha Hr1 Hhb Hr2. apply Forall_app in HF as [HF1 HF2].
  destruct (wf_split d lo hi a b E1 E2 u C Hwf) as [Hw1 Hw2].
  { intros ->. by destruct Hr1 as (Hl0 & _). }
  rewrite bind_app in Hnd, Hb. rewrite NoDup_cons, NoDup_app in Hnd. destruct Hnd as (Hn1 & Hn2 & Hn3 & Hn4).
  rewrite elem_of_app in Hn1, Hb. split_and!.
  - split; [|split; [done|]]; [split; [by exists i1|done]|]. simpl. apply NoDup_cons. tauto.
  - split; [|split; [done|]]; [split; [by exists i2|done]|]. simpl. apply NoDup_cons. tauto.
  - simpl. rewrite NoDup_cons, NoDup_app, NoDup_cons. rewrite elem_of_app, elem_of_cons.
    split_and!; try tauto. intros x Hx. rewrite elem_of_cons. intros [->|Hx']; [tauto|]. by apply (Hn3 x).
Qed.

(** The call that adds the new sibling of a split child, run on the parent. *)
Lemma child_add d lo hi a (e1 e2 : list (option K * tree d)) l c c1 c2 sep key s s1 :
  heap_ok s -> heap_ok s1 -> good (bt_heap s) (S d) lo hi (a, e1 ++ (l, c) :: e2) ->
  (forall b, b < bt_brk s -> b ∉ addrs d c -> hcore (bt_heap s1) b = hcore (bt_heap s) b) ->
  in_lo l key -> in_hi (hi_of e2 hi) key -> troot c1 = troot c ->
  sep_at (bt_heap s1) d l (hi_of e2 hi) c1 c2 sep ->
  exists i sib up s2, bt_heap s1 !! a = Some (BInner i) /\
    new_child d key a (troot c) (troot c2) (length e1) s1 = Ok (sib, up, s2) /\ heap_ok s2 /\ same_meta s1 s2 /\
    let es := ents_addr (e1 ++ [(l, c1); (Some sep, c2)] ++ e2) in
    ((sib = NULL /\ up = None /\ bt_brk s2 = bt_brk s1 /\ exists i', inner_rep i' es /\
        bt_heap s2 = <[a := BInner i']> (bt_heap s1)) \/
     (sib = bt_brk s1 /\ bt_brk s2 = bt_brk s1 + node_size /\ exists u es1 c' es2 i1 i2,
        up = Some u /\ es = es1 ++ (Some u, c') :: es2 /\
        inner_rep i1 es1 /\ inner_rep i2 ((Some u, c') :: es2) /\ in_keys i1 !! 14%nat = Some u /\
        bt_heap s2 = <[a := BInner i1]> (<[sib := BInner i2]> (bt_heap s1)))).
Proof.
  intros Hok Hok1 Hg Hfr Hlo Hhi Hroot1 Hsep.
  pose proof (parent_at _ _ _ _ _ _ _ _ _ _ Hok Hg Hfr) as Hi.
  destruct Hi as (i & Hi & Hirep). rewrite <- Hroot1, (new_child_reads d l (hi_of e2 hi) key a c1 c2 sep) by done.
  set (p := match d with O => sep | S _ => key end).
  assert (Hp : in_lo l p /\ in_hi (hi_of e2 hi) p) by (unfold p; destruct d; [by destruct Hsep as (? & ? & _)|done]).
  pose proof (probe_add d lo hi a e1 e2 l c p i (bt_heap s) (bt_heap s1) Hg Hirep Hi (proj1 Hp) (proj2 Hp)) as Hprobe.
  rewrite ents_addr_app in Hirep. cbn [ents_addr fmap list_fmap fst snd] in Hirep.
  change (list_fmap _ _ (fun e : option K * tree d => (e.1, troot e.2)) e2) with (ents_addr e2) in Hirep.
  replace (length e1) with (length (ents_addr e1)) in Hprobe |- * by apply length_fmap.
  destruct (inner_add_spec a i (ents_addr e1) (l, troot c) (ents_addr e2) sep p (troot c2) s1 Hok1 Hi Hirep Hprobe)
    as (sib & up & s2 & E & Hok2 & Hm & Hcase).
  assert (Hes : ents_addr e1 ++ (l, troot c) :: (Some sep, troot c2) :: ents_addr e2 =
    ents_addr (e1 ++ [(l, c1); (Some sep, c2)] ++ e2)) by (rewrite !ents_addr_app; simpl; by rewrite Hroot1).
  rewrite Hes in Hcase. exists i, sib, up, s2. done.
Qed.

(** The children [es'] of [a], in one node or in two. *)
Lemma grown_add d lo hi a (es0 es' : list (option K * tree d)) s s1 i sib up s2 :
  heap_ok s1 -> bt_heap s1 !! a = Some (BInner i) -> leaves_kept s1 s2 a -> bt_brk s <= bt_brk s1 ->
  Forall (fun e => rep (bt_heap s1) d e.2) es' -> wf (S d) lo hi (a, es') -> NoDup (a :: (e ← es'; addrs d e.2)) ->
  in_new s (addrs (S d) (a, es0)) (a :: (e ← es'; addrs d e.2)) ->
  ((sib = NULL /\ up = None /\ bt_brk s2 = bt_brk s1 /\ exists i', inner_rep i' (ents_addr es') /\
      bt_heap s2 = <[a := BInner i']> (bt_heap s1)) \/
   (sib = bt_brk s1 /\ bt_brk s2 = bt_brk s1 + node_size /\ exists u es1 c' es2 i1 i2,
      up = Some u /\ ents_addr es' = es1 ++ (Some u, c') :: es2 /\
      inner_rep i1 es1 /\ inner_rep i2 ((Some u, c') :: es2) /\ in_keys i1 !! 14%nat = Some u /\
      bt_heap s2 = <[a := BInner i1]> (<[sib := BInner i2]> (bt_heap s1)))) ->
  grown (S d) lo hi (a, es0) s sib s2 (e ← es'; flat d e.2) /\ up_at (bt_heap s2) a sib up.
Proof.
  intros Hok1 Hi (_ & _ & Hv3 & _) Hb HF Hwf Hnd Hnw Hcase. pose proof (heap_ok_fresh _ Hok1) as Hfresh.
  pose proof Hnd as Hnd'. apply NoDup_cons in Hnd' as [Haes _].
  pose proof (reps_frame d (bt_heap s1) (bt_heap s2) a (bt_brk s1) es' HF Haes Hfresh Hv3) as HF2.
  destruct Hcase as [(-> & -> & _ & i' & Hir & Hh)|(-> & _ & u & es1 & c' & es2 & i1 & i2 & -> & Hsplit & Hir1 & Hir2 & H14 & Hh)].
  - split; [|done]. left. split; [done|]. exists (a, es'). split_and!; try done.
    split; [|split; done]. split; [|done]. exists i'. rewrite Hh, lookup_insert_eq. done.
  - assert (Hb1 : bt_brk s1 <> NULL) by (destruct Hok1; unfold NULL; lia).
    assert (Ha2 : bt_heap s2 !! a = Some (BInner i1)) by (by rewrite Hh, lookup_insert_eq).
    split; [|split; [done|]; by exists i1]. right. split; [done|].
    destruct (ents_split _ _ _ _ _ Hsplit) as (E1 & C & E2 & -> & -> & -> & ->).
    assert (Hab : a <> bt_brk s1) by (intros ->; by rewrite Hi in Hfresh).
    destruct (split_good d (bt_heap s2) lo hi a (bt_brk s1) E1 E2 u C i1 i2) as (Hg1 & Hg2 & Hnd2); try done.
    { intros (e & Hin & He)%list_elem_of_bind. rewrite Forall_forall in HF.
      destruct (rep_in_heap _ _ _ _ (HF e He) Hin) as [? Hs]. by rewrite Hs in Hfresh. }
    { by rewrite Hh, lookup_insert_ne, lookup_insert_eq by done. }
    exists (a, E1), (bt_brk s1, (Some u, C) :: E2), u. split_and!; try done.
    + simpl. by rewrite bind_app.
    + rewrite bind_app in Hnw. intros x Hx. simpl in Hx. apply elem_of_cons in Hx as [->|Hx]; [left; simpl; set_solver|].
      apply elem_of_app in Hx as [Hx|[->|Hx]%elem_of_cons]; [|by right|];
        apply Hnw, elem_of_cons; right; apply elem_of_app; auto.
    + by exists i1.
Qed.

(** The child was split: its new sibling goes into the node, or splits it. *)
Lemma post_add G1 G2 d lo hi a (e1 e2 : list (option K * tree d)) l c key s new s1 :
  heap_ok s -> good (bt_heap s) (S d) lo hi (a, e1 ++ (l, c) :: e2) ->
  in_lo l key -> in_hi (hi_of e2 hi) key -> new <> NULL ->
  post (G1 ++ (e ← e1; flat d e.2).*1) ((e ← e2; flat d e.2).*1 ++ G2) d l (hi_of e2 hi) c key s new s1 ->
  exists sib up s2, new_child d key a (troot c) new (length e1) s1 = Ok (sib, up, s2) /\
    post G1 G2 (S d) lo hi (a, e1 ++ (l, c) :: e2) key s sib s2 /\ up_at (bt_heap s2) a sib up.
Proof.
  intros Hok Hg Hlo Hhi Hnew (F' & Hkept & Hcase)%post_kept. pose proof Hkept as (Hok1 & _ & _ & _ & Hb & Hfr & _).
  destruct Hcase as [[? _]|(_ & c1 & c2 & sep & (Hrep1 & Hwf1 & Hnd1) & (Hrep2 & Hwf2 & Hnd2) & Hroot1 & Hroot2 & Hflat & Hnd12 & Hin12 & Hsep)]; [done|].
  destruct (replace_mid s (bt_heap s1) d lo hi a e1 e2 l c c1 [(Some sep, c2)]) as (HF & Hwf & Hhd & Hnd & Hnw); try done.
  { by constructor. }
  { by repeat constructor. }
  { rewrite !bind_cons, app_nil_r. done. }
  { rewrite !bind_cons, app_nil_r. done. }
  destruct (child_add d lo hi a e1 e2 l c c1 c2 sep key s s1) as (i & sib & up & s2 & Hi & E & Hok2 & Hm & Hcase); try done.
  rewrite Hroot2 in E. exists sib, up, s2. split; [done|].
  assert (Hlk : leaves_kept s1 s2 a).
  { apply (add_leaves_kept s1 s2 a i); [done..|]. clear - Hcase. naive_solver. }
  assert (Hwf' : wf (S d) lo hi (a, e1 ++ [(l, c1); (Some sep, c2)] ++ e2)).
  { split; [|split; done]. by destruct Hg as (_ & (? & _) & _). }
  destruct (grown_add d lo hi a (e1 ++ (l, c) :: e2) _ s s1 i sib up s2 Hok1 Hi Hlk Hb HF Hwf' Hnd Hnw Hcase) as [Hgr Hup].
  split; [|done]. apply post_kept. eexists. split; [|exact Hgr].
  apply (kept_up G1 G2 d a e1 e2 _ l c key s s1 s2 F'); try done.
  rewrite !bind_app, !bind_cons. simpl. by rewrite app_nil_r, Hflat.
Qed.

(** What an insertion at depth [d] promises, on the way to the root. *)
Definition outcome (m : result (addr * addr * BTree (K := K))) G1 G2 d lo hi (t : tree d) (key : K) (s : BTree) : Prop :=
  (exists v, m = Ok (NULL, v, s) /\ found key v (flat d t)) \/
  (exists new s', m = Ok (new, bt_dummyval s, s') /\ post G1 G2 d lo hi t key s new s').

Lemma found_ctx key v (F F1 F2 : list (addr * list (K * addr))) : found key v F -> found key v (F1 ++ F ++ F2).
Proof. intros (a & kvs & k & Ha & Hk & Hkey). exists a, kvs, k. rewrite !elem_of_app. auto. Qed.

Lemma body_post d G1 G2 lo hi (t : tree (S d)) key s :
  (forall G1 G2 lo hi (t : tree d), good (bt_heap s) d lo hi t -> links_ok (bt_heap s) (G1 ++ (flat d t).*1 ++ G2) ->
     in_lo lo key -> in_hi hi key -> outcome (sub_insert d key (troot t) s) G1 G2 d lo hi t key s) ->
  heap_ok s -> good (bt_heap s) (S d) lo hi t -> links_ok (bt_heap s) (G1 ++ (flat (S d) t).*1 ++ G2) ->
  in_lo lo key -> in_hi hi key ->
  (exists v, inner_body d key (troot t) s = Ok (NULL, v, None, s) /\ found key v (flat (S d) t)) \/
  (exists new up s', inner_body d key (troot t) s = Ok (new, bt_dummyval s, up, s') /\
     post G1 G2 (S d) lo hi t key s new s' /\ up_at (bt_heap s') (troot t) new up).
Proof.
  intros IH Hok Hg Hlinks Hlo Hhi. destruct t as [a es]. pose proof Hg as (Hrep & Hwf & Hnd).
  pose proof Hrep as ((i & Hi & Hirep) & HF). pose proof Hwf as (_ & (t0 & es0 & Hes & Hsome) & Hwl). cbn [fst snd] in *.
  pose proof Hirep as (_ & _ & _ & _ & Hk & _). rewrite ents_addr_fst, Hes in Hk.
  change (tail ((lo, t0) :: es0).*1) with (fmap (M := list) (A := option K * tree d) fst es0) in Hk.
  destruct (child_split (X := tree d) key _ es0 lo hi t0 Hk Hlo Hhi) as (e1 & l & c & e2 & He & Hlen & Hl & Hh).
  change (scan _ _) with (child_index key i) in Hlen.
  assert (Hes' : es = e1 ++ (l, c) :: e2) by (rewrite <- He; exact Hes). clear Hes He. subst es.
  simpl in Hlinks. rewrite bind_app, bind_cons in Hlinks. cbn [snd] in Hlinks. rewrite !fmap_app, <- !app_assoc in Hlinks.
  rewrite ents_addr_app in Hirep. apply inner_rep_split in Hirep as (Hch & _).
  unfold ents_addr in Hch. rewrite length_fmap in Hch. cbn [snd] in Hch.
  unfold inner_body, get_inner. cbn [troot fst]. rewrite Hi. cbn [mbind result_bind].
  rewrite <- Hlen, Hch. cbn [mbind result_bind from_opt].
  apply Forall_app in HF as [_ HF]. apply Forall_cons in HF as [HFc _]. cbn [snd] in HFc.
  apply wf_list_app in Hwl as [_ [Hwc _]]. simpl in Hnd. rewrite bind_app, bind_cons, NoDup_cons, !NoDup_app in Hnd.
  destruct (IH (G1 ++ (e ← e1; flat d e.2).*1) ((e ← e2; flat d e.2).*1 ++ G2) l (hi_of e2 hi) c)
    as [(v & E & Hf)|(new & s1 & E & Hp)]; [split_and!; [done|done|tauto]|by rewrite <- !app_assoc|done|done|..].
  - left. exists v. rewrite E. cbn [mbind result_bind]. split; [done|]. simpl. rewrite bind_app, bind_cons.
    by apply found_ctx.
  - right. rewrite E. cbn [mbind result_bind]. destruct (Z.eqb_spec new NULL) as [->|Hn].
    + exists NULL, None, s1. split; [done|]. split; [by apply post_same|done].
    + destruct (post_add G1 G2 d lo hi a e1 e2 l c key s new s1) as (sib & up & s2 & E2 & Hp2 & Hup); [done..|].
      exists sib, up, s2. rewrite E2. done.
Qed.

(** Insertion below the root never faults and inserts the key. *)
Lemma sub_insert_post d G1 G2 lo hi (t : tree d) key s :
  heap_ok s -> (d < bt_depth s)%nat -> good (bt_heap s) d lo hi t ->
  links_ok (bt_heap s) (G1 ++ (flat d t).*1 ++ G2) -> in_lo lo key -> in_hi hi key ->
  outcome (sub_insert d key (troot t) s) G1 G2 d lo hi t key s.
Proof.
  intros Hok. revert G1 G2 lo hi t. induction d as [|d IH]; intros G1 G2 lo hi t Hd Hg Hlinks Hlo Hhi.
  - by apply leaf_post.
  - unfold sub_insert. rewrite InnerInsert_body.
    destruct (body_post d G1 G2 lo hi t key s) as [(v & E & Hf)|(new & up & s' & E & Hp & Hup)]; try done.
    { intros G1' G2' lo' hi' t' ????. apply IH; auto with lia. }
    + left. exists v. rewrite E. done.
    + right. exists new, s'. rewrite E. cbn [mbind result_bind]. split; [|done]. destruct up as [u|]; [|done].
      pose proof Hp as (_ & _ & -> & _). rewrite (proj2 (Nat.eqb_neq _ _)) by lia. done.
Qed.

End insertion.

(** ** The index *)

Section index.
Context {K : Type} {KO : KeyOrder K} {KL : KeyLaws K}.
Implicit Types (s : BTree (K := K)) (F : list (addr * list (K * addr))).

Abbreviation sorted_keys := (StronglySorted (fun a b : K => klt a b = true)).

(** A well-formed tree whose leaves hold [F]. *)
Definition index s F : Prop :=
  exists d (t : tree d), bt_depth s = d /\ heap_ok s /\ good (bt_heap s) d None None t /\ troot t = bt_root s /\
    flat d t = F /\ links_ok (bt_heap s) F.*1 /\ (d = 0%nat \/ Forall (fun f => f.2 <> []) F).

(** All entries, in order. *)
Definition contents F : list (K * addr) := f ← F; f.2.

Lemma contents_cons a kvs F : contents ((a, kvs) :: F) = kvs ++ contents F.
Proof. done. Qed.

Lemma contents_app F1 F2 : contents (F1 ++ F2) = contents F1 ++ contents F2.
Proof. apply bind_app. Qed.

(** A new root above two halves. *)
Lemma grow_root_index d (t1 t2 : tree (K := K) d) sep s :
  heap_ok s -> good (bt_heap s) d None (Some sep) t1 -> good (bt_heap s) d (Some sep) None t2 ->
  NoDup (addrs d t1 ++ addrs d t2) -> troot t1 = bt_root s -> bt_depth s = d ->
  links_ok (bt_heap s) (flat d t1 ++ flat d t2).*1 -> Forall (fun f => f.2 <> []) (flat d t1 ++ flat d t2) ->
  index (grow_root sep (troot t2) s) (flat d t1 ++ flat d t2).
Proof.
  intros Hok (Hr1 & Hw1 & Hn1) (Hr2 & Hw2 & Hn2) Hnd Hroot Hd Hlinks Hne.
  pose proof (heap_ok_fresh _ Hok) as Hfresh.
  set (i := mkInner 1 (<[0%nat := sep]> (replicate IIN kdef))
              (<[1%nat := troot t2]> (<[0%nat := bt_root s]> (replicate (S IIN) NULL)))).
  set (h := <[bt_brk s := BInner i]> (bt_heap s)).
  assert (Hheap : bt_heap (grow_root sep (troot t2) s) = h).
  { unfold grow_root. simpl. by rewrite insert_insert_eq. }
  assert (Hfr : forall t : tree d, rep (bt_heap s) d t -> (bt_brk s ∉ addrs d t) /\ rep h d t).
  { intros t Ht. assert (Hb : bt_brk s ∉ addrs d t).
    { intros Hin. destruct (rep_in_heap _ _ _ _ Ht Hin) as [? E]. by rewrite E in Hfresh. }
    split; [done|]. revert Ht. apply rep_frame. intros x Hx. apply hcore_insert_ne. set_solver. }
  destruct (Hfr t1 Hr1) as [Hb1 Hr1'], (Hfr t2 Hr2) as [Hb2 Hr2'].
  exists (S d), (bt_brk s, [(None, t1); (Some sep, t2)]). rewrite Hheap. split_and!.
  - simpl. by rewrite Hd.
  - unfold grow_root. pose proof (heap_ok_put (bt_brk s) (BInner i) (alloc (BInner Inner_0) s).2) as Hp.
    destruct Hp as [Hp1 Hp2]; [by apply heap_ok_alloc|simpl; by rewrite lookup_insert_eq|]. split; [done|]. exact Hp2.
  - split; [|split].
    + split; [|by repeat constructor]. exists i. unfold h. rewrite lookup_insert_eq. split; [done|].
      unfold inner_rep. simpl. split_and!; try done; [cbv; lia|by rewrite Hroot].
    + split; [done|]. split; [|simpl; done]. exists t1, [(Some sep, t2)]. split; [done|]. by repeat constructor.
    + simpl. rewrite app_nil_r. apply NoDup_cons. split; [set_solver|done].
  - done.
  - simpl. by rewrite app_nil_r.
  - apply (links_ok_ext (bt_heap s)); [|done]. intros b Hb. unfold h. apply hlinks_insert_ne.
    intros <-. rewrite fmap_app in Hb. apply elem_of_app in Hb as [Hb|Hb]; apply flat_addrs in Hb; done.
  - by right.
Qed.

(** Where the separator of a split root is read. *)
Definition sep_read (h : gmap Z bnode) (d : nat) (root new : addr) (u : K) : Prop :=
  match d with
  | O => exists l, h !! new = Some (BLeaf l) /\ lf_keys l !! 0%nat = Some u
  | S _ => exists i, h !! root = Some (BInner i) /\ in_keys i !! 14%nat = Some u
  end.

(** Insertion leaves no leaf empty. *)
Lemma ins_flat_nonempty key v leaf nl F F' :
  ins_flat key v leaf nl F F' -> length F = 1%nat \/ Forall (fun f => f.2 <> []) F ->
  Forall (fun f => f.2 <> []) F'.
Proof.
  intros (F1 & A & B & F2 & -> & _ & _ & Hc) Hor.
  assert (HF : Forall (fun f : addr * list (K * addr) => f.2 <> []) F1 /\ Forall (fun f => f.2 <> []) F2).
  { destruct Hor as [Hl|HF].
    - rewrite length_app in Hl. simpl in Hl. destruct F1; [|simpl in Hl; lia]. destruct F2; [|simpl in Hl; lia]. done.
    - apply Forall_app in HF as [? HF]. apply Forall_cons in HF as [_ ?]. done. }
  destruct HF as [HF1 HF2].
  destruct Hc as [[_ ->]|(_ & k1 & k2 & Hk1 & Hk2 & _ & ->)]; apply Forall_app; (split; [done|]); repeat constructor; try done.
  simpl. by destruct A.
Qed.

(** [Get_sec] returns the node of a present key and changes nothing; an absent
    key is inserted in order, with the preallocated node. *)
Lemma Get_sec_spec key s F :
  index s F ->
  (exists v, Get_sec key s = Ok (v, s) /\ found key v F) \/
  (exists s' F' leaf nl, Get_sec key s = Ok (bt_dummyval s, s') /\ index s' F' /\
     ins_flat key (bt_dummyval s) leaf nl F F' /\ seq_step (bt_heap s) (bt_heap s') leaf nl /\ bt_dummyval s' = NULL).
Proof.
  intros (d & t & Hd & Hok & Hg & Hroot & Hflat & Hlinks & Hne).
  assert (Hlinks' : links_ok (bt_heap s) ([] ++ (flat d t).*1 ++ [])) by (by rewrite app_nil_r, Hflat).
  assert (Hout : (exists v, Get_sec key s = Ok (v, s) /\ found key v (flat d t)) \/
                 (exists new s1 s', Get_sec key s = Ok (bt_dummyval s, s') /\
                    post [] [] d None None t key s new s1 /\
                    (new = NULL -> s' = s1) /\
                    (new <> NULL -> exists u, sep_read (bt_heap s1) d (troot t) new u /\ s' = grow_root u new s1))).
  { unfold Get_sec. rewrite Hd, <- Hroot. destruct d as [|d].
    - destruct (leaf_post [] [] None None t key s) as [(v & E & Hf)|(new & s1 & E & Hp)]; try done; rewrite E; cbn [mbind result_bind].
      + left. exists v. done.
      + right. exists new, s1. destruct (Z.eqb_spec new NULL) as [->|Hn]; [by exists s1|].
        pose proof Hp as (_ & _ & _ & _ & _ & _ & F' & leaf & nl & _ & _ & _ & [[? _]|(_ & t1 & t2 & sep & _ & _ & _ & Ht2 & _ & _ & _ & Hs)]); [done|].
        destruct Hs as (_ & _ & l & Hl & Hk). simpl in Ht2. rewrite Ht2 in Hl. unfold get_leaf. rewrite Hl. simpl. rewrite Hk. simpl.
        eexists. split; [done|]. split; [done|]. split; [done|]. intros _. exists sep. split; [by exists l|done].
    - rewrite InnerInsert_body.
      destruct (body_post d [] [] None None t key s) as [(v & E & Hf)|(new & up & s1 & E & Hp & Hup)]; try done.
      { intros G1' G2' lo' hi' t' ????. apply sub_insert_post; auto with lia. }
      + left. exists v. rewrite E. done.
      + right. exists new, s1. rewrite E. cbn [mbind result_bind]. pose proof Hp as (_ & _ & Hd1 & _).
        destruct up as [u|]; simpl in Hup.
        * destruct Hup as [Hn Hi]. rewrite Hd1, Hd, Nat.eqb_refl. eexists. split; [reflexivity|].
          split; [done|]. split; [done|]. intros _. exists u. done.
        * exists s1. done. }
  destruct Hout as [(v & E & Hf)|(new & s1 & s' & E & Hp & Hnull & Hgrow)].
  { left. exists v. by rewrite <- Hflat. }
  right. exists s'. destruct Hp as (Hok1 & Hr1 & Hd1 & Hdv & _ & _ & F' & leaf & nl & Hins & Hl & Hseq & Hcase).
  exists F', leaf, nl. split; [done|]. rewrite Hflat in Hins.
  assert (HneF : Forall (fun f => f.2 <> []) F').
  { apply (ins_flat_nonempty _ _ _ _ _ _ Hins). destruct Hne as [->|Hne]; [|by right]. left. by rewrite <- Hflat. }
  simpl in Hl. rewrite app_nil_r in Hl.
  destruct Hcase as [(Hn & t' & Hg' & Ht' & Hf' & _)|(Hn & t1 & t2 & sep & Hg1 & Hg2 & Ht1 & Ht2 & Hf' & Hnd & _ & Hsep)].
  - rewrite (Hnull Hn). split_and!; try done. exists d, t'. split_and!; try done; [congruence..|by right].
  - destruct (Hgrow Hn) as (u & Hu & ->).
    assert (u = sep) as ->.
    { destruct d as [|d]; simpl in Hu, Hsep, Ht1, Ht2.
      - destruct Hsep as (_ & _ & l & Hl1 & Hk1), Hu as (l' & Hl2 & Hk2). rewrite Ht2 in Hl1. congruence.
      - destruct Hsep as (i & Hi1 & Hk1), Hu as (i' & Hi2 & Hk2). rewrite Ht1 in Hi1. congruence. }
    split_and!; try done.
    + rewrite <- Hf', <- Ht2. apply grow_root_index; try done; try congruence; rewrite Hf'; done.
    + assert (Hq : forall b, hseq (bt_heap (grow_root sep new s1)) b = hseq (bt_heap s1) b).
      { intros b. unfold grow_root. simpl. rewrite insert_insert_eq.
        apply inner_insert_views. unfold hlinks. by rewrite heap_ok_fresh. }
      destruct Hseq as [(q & Hq1 & Hq2) Hq3]. split; [exists q; by rewrite Hq|]. intros b ??. rewrite Hq. auto.
Qed.

(** *** Order of the entries *)

Definition in_range (lo hi : option K) (L : list (K * addr)) : Prop :=
  sorted_keys L.*1 /\ Forall (fun x => in_lo lo x /\ in_hi hi x) L.*1.

Lemma wf_list_range d :
  (forall lo hi (t : tree (K := K) d), wf d lo hi t -> in_range lo hi (contents (flat d t))) ->
  forall es lo t0 hi, Forall is_Some es.*1 -> wf_list (wf d) hi ((lo, t0) :: es) ->
    in_range lo hi (contents (e ← (lo, t0) :: es; flat d e.2)).
Proof.
  intros IH es. induction es as [|[l u] es IHes]; intros lo t0 hi Hs Hwf.
  - destruct Hwf as [Hw _]. rewrite bind_cons, app_nil_r. by apply IH.
  - rewrite fmap_cons in Hs. apply Forall_cons in Hs as [[y Hy] Hs]. simpl in Hy. subst l.
    destruct Hwf as [Hw Hwf]. pose proof (wf_ole _ _ _ _ Hw) as Hly. simpl in Hw, Hly.
    destruct (wf_list_mono d hi y u es Hwf Hs) as [Hyh _].
    destruct (IH _ _ _ Hw) as [Hs1 HF1]. destruct (IHes (Some y) u hi Hs Hwf) as [Hs2 HF2].
    rewrite bind_cons, contents_app. cbn [snd]. split; rewrite fmap_app.
    + apply StronglySorted_app. split_and!; [|done..]. intros x z Hx Hz. rewrite Forall_forall in HF1, HF2.
      destruct (HF1 x Hx) as [_ Hx2], (HF2 z Hz) as [Hz1 _]. simpl in *. eauto using klt_le_trans.
    + apply Forall_app. split; (eapply Forall_impl; [done|]); intros x [Hx1 Hx2]; simpl in *; [split; [done|]|split; [|done]].
      * destruct hi; simpl in *; eauto using klt_le_trans.
      * destruct lo; simpl in *; eauto using kle_trans.
Qed.

Lemma wf_range d lo hi (t : tree (K := K) d) : wf d lo hi t -> in_range lo hi (contents (flat d t)).
Proof.
  revert lo hi t. induction d as [|d IH]; intros lo hi t Hwf.
  - destruct t as [a kvs], Hwf as (_ & Hs & HF). unfold in_range, contents. simpl in *. by rewrite app_nil_r.
  - destruct Hwf as (_ & (t0 & es & Hes & Hs) & Hwf). simpl. rewrite Hes in Hwf |- *. by apply wf_list_range.
Qed.

(** The entries of an index are sorted. *)
Lemma index_sorted s F : index s F -> sorted_keys (contents F).*1.
Proof. intros (d & t & _ & _ & (_ & Hwf & _) & _ & <- & _). by apply wf_range in Hwf as [? _]. Qed.

(** *** Search *)

Lemma FindLeaf_loop_spec d lo hi (t : tree (K := K) d) key s :
  good (bt_heap s) d lo hi t -> in_lo lo key -> in_hi hi key ->
  exists a kvs F1 F2, FindLeaf_loop d key (troot t) s = Ok a /\ flat d t = F1 ++ (a, kvs) :: F2 /\
    Forall (fun x => klt x key = true) (contents F1).*1 /\ Forall (fun x => klt key x = true) (contents F2).*1.
Proof.
  revert lo hi t. induction d as [|d IH]; intros lo hi t (Hrep & Hwf & Hnd) Hlo Hhi.
  - destruct t as [a kvs]. by exists a, kvs, [], [].
  - destruct t as [a es]. destruct Hrep as ((i & Hi & Hirep) & HF). destruct Hwf as (_ & (t0 & es0 & Hes & Hsome) & Hwl). cbn [fst snd] in *.
    pose proof Hirep as (_ & _ & _ & _ & Hk & _). rewrite ents_addr_fst, Hes in Hk.
    change (tail ((lo, t0) :: es0).*1) with (fmap (M := list) (A := option K * tree d) fst es0) in Hk.
    destruct (child_split (X := tree d) key _ es0 lo hi t0 Hk Hlo Hhi) as (e1 & l & c & e2 & He & Hlen & Hl & Hh).
    change (scan _ _) with (child_index key i) in Hlen.
    assert (Hes' : es = e1 ++ (l, c) :: e2) by (rewrite <- He; exact Hes). clear Hes. subst es.
    rewrite ents_addr_app in Hirep. apply inner_rep_split in Hirep as (Hch & _).
    unfold ents_addr in Hch. rewrite length_fmap in Hch. cbn [snd] in Hch.
    apply Forall_app in HF as [_ HF]. apply Forall_cons in HF as [HFc _]. cbn [snd] in HFc.
    apply wf_list_app in Hwl as [Hw1 [Hwc Hw2]]. simpl in Hnd. rewrite bind_app, bind_cons, NoDup_cons, !NoDup_app in Hnd.
    destruct (IH l (hi_of e2 hi) c) as (b & kvs & F1 & F2 & E & Hf & HF1 & HF2); [split_and!; [done|done|tauto]|done..|].
    exists b, kvs, ((e ← e1; flat d e.2) ++ F1), (F2 ++ (e ← e2; flat d e.2)). split_and!.
    + cbn [FindLeaf_loop troot fst]. unfold get_inner. rewrite Hi. cbn [mbind result_bind]. rewrite <- Hlen, Hch. done.
    + simpl. rewrite bind_app, bind_cons. cbn [snd]. rewrite Hf, <- !app_assoc. done.
    + rewrite contents_app, fmap_app, Forall_app. split; [|done].
      destruct e1 as [|[l1 t1] e1]; [constructor|]. injection He as <- <- ->.
      rewrite fmap_app in Hsome. apply Forall_app in Hsome as [Hs1 Hs2].
      rewrite fmap_cons in Hs2. apply Forall_cons in Hs2 as [[y Hy] _]. simpl in Hy. subst l.
      destruct (wf_list_range d (wf_range d) e1 lo t0 (Some y)) as [_ HR]; [done..|].
      eapply Forall_impl; [exact HR|]. intros x [_ Hx]. simpl in *. eauto using klt_le_trans.
    + rewrite contents_app, fmap_app, Forall_app. split; [done|].
      destruct e2 as [|[l2 t2] e2]; [constructor|]. simpl in Hh.
      assert (Hs2 : Forall is_Some ((l2, t2) :: e2).*1).
      { destruct e1 as [|e e1]; simpl in He; [injection He as _ _ ->; done|injection He as _ ->].
        rewrite fmap_app in Hsome. apply Forall_app in Hsome as [_ Hs2]. rewrite fmap_cons in Hs2.
        by apply Forall_cons in Hs2 as [_ Hs2]. }
      rewrite fmap_cons in Hs2. apply Forall_cons in Hs2 as [[y Hy] Hs2]. simpl in Hy. subst l2.
      destruct (wf_list_range d (wf_range d) e2 (Some y) t2 hi) as [_ HR]; [done..|].
      eapply Forall_impl; [exact HR|]. intros x [Hx _]. simpl in *. eauto using klt_le_trans.
Qed.

Lemma FindLeaf_index key s F :
  index s F ->
  exists a kvs F1 F2, FindLeaf key s = Ok a /\ F = F1 ++ (a, kvs) :: F2 /\
    Forall (fun x => klt x key = true) (contents F1).*1 /\ Forall (fun x => klt key x = true) (contents F2).*1.
Proof.
  intros (d & t & Hd & _ & Hg & Hroot & <- & _). unfold FindLeaf. rewrite Hd, <- Hroot.
  by apply (FindLeaf_loop_spec d None None).
Qed.

Lemma index_leaf_at s F a kvs : index s F -> (a, kvs) ∈ F -> leaf_at (bt_heap s) a kvs.
Proof.
  intros (d & t & _ & _ & (Hrep & _) & _ & <- & _). clear -Hrep. induction d as [|d IH]; simpl.
  - intros Hin%list_elem_of_singleton. by subst t.
  - destruct t as [b es], Hrep as [_ HF]. simpl. intros (e & He & Hin)%list_elem_of_bind.
    rewrite Forall_forall in HF. eauto.
Qed.

End index.
