(* ===== verification/SecondIndex.v ===== *)
(** * Secondary indexes

    memstore/secondindex.h: a secondary key maps to a [SecondNode], whose list of
    [MemNodeWrapper]s names the records with that key.  This file adds to the B+
    tree the operations of the index ([Get], [Put], [GetWithInsert],
    [Insert_Sec]), its iterator, and the two instances of the keys: 64-bit
    integers and strings. *)

From stdpp Require Import sorting.
From S2P Require Import Prelude MemStore BPlusTree BPlusTreeInv BPlusTreeSpec.

(** ** Data *)

Record MemNodeWrapper := mkWrapper {
  w_key : Z;
  w_memnode : addr;
  w_next : addr;
  w_valid : Z
}.

Record SecondNode := mkSecondNode {
  sn_seq : Z;
  sn_head : addr
}.

(** The constructors; [key] and [next] of a wrapper are not initialised. *)
Definition MemNodeWrapper_new : MemNodeWrapper := mkWrapper 0 NULL NULL 0.
Definition SecondNode_new : SecondNode := mkSecondNode 0 NULL.

Definition sec_size : Z := 32.

Section index_ops.
Context {K : Type} {KO : KeyOrder K}.

(** An index as one thread uses it: the tree, the nodes and wrappers it has
    allocated, the allocator's break and the preallocated wrapper. *)
Record SecondIndex := mkIndex {
  si_tree : BTree (K := K);
  si_nodes : gmap Z SecondNode;
  si_wrappers : gmap Z MemNodeWrapper;
  si_brk : addr;
  si_dummywrapper : addr;
  si_localinit : bool
}.

Definition set_tree (t : BTree) (x : SecondIndex) : SecondIndex :=
  mkIndex t (si_nodes x) (si_wrappers x) (si_brk x) (si_dummywrapper x) (si_localinit x).

Definition set_dummyval (v : addr) (t : BTree (K := K)) : BTree :=
  mkBTree (bt_root t) (bt_depth t) (bt_heap t) (bt_brk t) v.

(** [dummyval_ = new SecondNode()] and [dummywrapper_ = new MemNodeWrapper()]. *)
Definition new_dummyval (x : SecondIndex) : SecondIndex :=
  mkIndex (set_dummyval (si_brk x) (si_tree x)) (<[si_brk x := SecondNode_new]> (si_nodes x)) (si_wrappers x)
    (si_brk x + sec_size) (si_dummywrapper x) (si_localinit x).

Definition new_dummywrapper (x : SecondIndex) : SecondIndex :=
  mkIndex (si_tree x) (si_nodes x) (<[si_brk x := MemNodeWrapper_new]> (si_wrappers x))
    (si_brk x + sec_size) (si_brk x) (si_localinit x).

Definition ThreadLocalInit (x : SecondIndex) : SecondIndex :=
  if si_localinit x then x
  else
    let x := new_dummyval (new_dummywrapper x) in
    mkIndex (si_tree x) (si_nodes x) (si_wrappers x) (si_brk x) (si_dummywrapper x) true.

Definition SI_new (brk sbrk : addr) : SecondIndex := mkIndex (BTree_new brk NULL) ∅ ∅ sbrk NULL false.

(** ** Operations *)

(** [Get]: the preallocated node is not replaced. *)
Definition SI_Get (key : K) (x : SecondIndex) : result (addr * SecondIndex) :=
  let x := ThreadLocalInit x in
  '(v, t) ← Get_sec key (si_tree x);
  Ok (v, set_tree t x).

(** The wrapper of [prikey] in the list from [w]. *)
Fixpoint find_wrapper (fuel : nat) (prikey : Z) (w : addr) (x : SecondIndex) : result addr :=
  if w =? NULL then Ok NULL
  else
    match fuel with
    | O => Fault OutOfFuel
    | S fuel =>
        wr ← from_opt NullDeref (si_wrappers x !! w);
        if w_key wr =? prikey then Ok w else find_wrapper fuel prikey (w_next wr) x
    end.

Definition Insert_Sec (secn : addr) (prikey : Z) (x : SecondIndex) : result (addr * SecondIndex) :=
  sn ← from_opt NullDeref (si_nodes x !! secn);
  w ← find_wrapper (size (si_wrappers x)) prikey (sn_head sn) x;
  if negb (w =? NULL) then Ok (w, x)
  else
    let d := si_dummywrapper x in
    dw ← from_opt NullDeref (si_wrappers x !! d);
    Ok (d, mkIndex (si_tree x) (<[secn := mkSecondNode (u64 (sn_seq sn + 1)) d]> (si_nodes x))
             (<[d := mkWrapper prikey (w_memnode dw) (sn_head sn) (w_valid dw)]> (si_wrappers x))
             (si_brk x) NULL (si_localinit x)).

(** [GetWithInsert]: the wrapper, and the node whose [seq] is handed out. *)
Definition GetWithInsert (seckey : K) (prikey : Z) (x : SecondIndex) : result (addr * addr * SecondIndex) :=
  let x := ThreadLocalInit x in
  '(secn, t) ← Get_sec seckey (si_tree x);
  '(mnw, x) ← Insert_Sec secn prikey (set_tree t x);
  let x := if bt_dummyval (si_tree x) =? NULL then new_dummyval x else x in
  let x := if si_dummywrapper x =? NULL then new_dummywrapper x else x in
  Ok (mnw, secn, x).

Definition SI_Put (seckey : K) (prikey : Z) (memnode : addr) (x : SecondIndex) : result SecondIndex :=
  '(w, _, x) ← GetWithInsert seckey prikey x;
  wr ← from_opt NullDeref (si_wrappers x !! w);
  Ok (mkIndex (si_tree x) (si_nodes x) (<[w := mkWrapper (w_key wr) memnode (w_next wr) 1]> (si_wrappers x))
        (si_brk x) (si_dummywrapper x) (si_localinit x)).

(** ** Iterators *)

(** [it_link] is the leaf whose [seq] the link points to. *)
Record SIter := mkIter {
  it_node : addr;
  it_seq : Z;
  it_leaf_index : Z;
  it_link : addr;
  it_target : Z;
  it_key : K;
  it_value : addr
}.

Definition SIter_new : SIter := mkIter NULL 0 0 NULL 0 kdef NULL.

Definition it_GetLink (it : SIter) : addr := it_link it.
Definition it_GetLinkTarget (it : SIter) : Z := it_target it.
Definition it_Key (it : SIter) : K := it_key it.

Definition it_Valid (it : SIter) (s : BTree (K := K)) : result bool :=
  if it_node it =? NULL then Ok false
  else l ← get_leaf (it_node it) s; Ok (0 <? Z.of_nat (lf_num_keys l)).

Definition it_CurNode (it : SIter) (s : BTree (K := K)) : result addr :=
  v ← it_Valid it s; Ok (if (v : bool) then it_value it else NULL).

(** [key_ = node_->keys[leaf_index]; value_ = ...; seq_ = node_->seq]. *)
Definition it_load (it : SIter) (s : BTree (K := K)) : result SIter :=
  l ← get_leaf (it_node it) s;
  k ← (if it_leaf_index it <? 0 then Fault OutOfBounds
       else from_opt OutOfBounds (lf_keys l !! Z.to_nat (it_leaf_index it)));
  v ← from_opt OutOfBounds (lf_values l !! Z.to_nat (it_leaf_index it));
  Ok (mkIter (it_node it) (lf_seq l) (it_leaf_index it) (it_link it) (it_target it) k v).

Definition it_move (node : addr) (idx : Z) (it : SIter) : SIter :=
  mkIter node (it_seq it) idx (it_link it) (it_target it) (it_key it) (it_value it).

Definition it_set_link (node : addr) (seq : Z) (it : SIter) : SIter :=
  mkIter (it_node it) (it_seq it) (it_leaf_index it) node seq (it_key it) (it_value it).

(** The loop over the leaves to the right, from [node], for the first key that
    fails [P]: the leaf and position, or nothing when the last leaf is passed. *)
Fixpoint find_right (fuel : nat) (P : K -> bool) (node : addr) (s : BTree (K := K)) : result (addr * option nat) :=
  match fuel with
  | O => Fault OutOfFuel
  | S fuel =>
      l ← get_leaf node s;
      let k := scan P (take (lf_num_keys l) (lf_keys l)) in
      if (k =? lf_num_keys l)%nat then
        if lf_right l =? NULL then Ok (node, None) else find_right fuel P (lf_right l) s
      else Ok (node, Some k)
  end.

(** The end of [Next]: when the position is past the leaf, go to the next leaf. *)
Definition it_advance (it : SIter) (s : BTree (K := K)) : result SIter :=
  l ← get_leaf (it_node it) s;
  it ← (if Z.of_nat (lf_num_keys l) <=? it_leaf_index it then
          let it := it_move (lf_right l) 0 it in
          if lf_right l =? NULL then Ok it
          else r ← get_leaf (lf_right l) s; Ok (it_set_link (lf_right l) (lf_seq r) it)
        else Ok it);
  if it_node it =? NULL then Ok it else it_load it s.

Definition it_Next (it : SIter) (s : BTree (K := K)) : result (bool * SIter) :=
  l ← get_leaf (it_node it) s;
  if lf_seq l =? it_seq it then
    it ← it_advance (it_move (it_node it) (it_leaf_index it + 1) it) s;
    Ok (true, it)
  else
    '(node, r) ← find_right (size (bt_heap s)) (fun x => kle x (it_key it)) (it_node it) s;
    match r with
    | Some k => it ← it_advance (it_move node (Z.of_nat k) it) s; Ok (false, it)
    | None => Ok (false, it_move NULL (it_leaf_index it) it)
    end.

(** The end of [Prev]: one position back, in the left leaf when there is none. *)
Definition it_back (it : SIter) (s : BTree (K := K)) : result SIter :=
  let it := it_move (it_node it) (it_leaf_index it - 1) it in
  it ← (if it_leaf_index it <? 0 then
          l ← get_leaf (it_node it) s;
          if lf_left l =? NULL then Ok (it_move NULL (it_leaf_index it) it)
          else
            r ← get_leaf (lf_left l) s;
            Ok (it_set_link (lf_left l) (lf_seq r) (it_move (lf_left l) (Z.of_nat (lf_num_keys r) - 1) it))
        else Ok it);
  if it_node it =? NULL then Ok it else it_load it s.

Definition it_Prev (it : SIter) (s : BTree (K := K)) : result (bool * SIter) :=
  l ← get_leaf (it_node it) s;
  if lf_seq l =? it_seq it then it ← it_back it s; Ok (true, it)
  else
    '(node, r) ← find_right (size (bt_heap s)) (fun x => klt x (it_key it)) (it_node it) s;
    it ← it_back (it_move node (match r with Some k => Z.of_nat k | None => it_leaf_index it end) it) s;
    Ok (false, it).

Definition it_Seek (key : K) (it : SIter) (s : BTree (K := K)) : result SIter :=
  leaf ← FindLeaf key s;
  l ← get_leaf leaf s;
  let it := it_set_link leaf (lf_seq l) it in
  let k := scan (fun x => klt x key) (take (lf_num_keys l) (lf_keys l)) in
  if (k =? lf_num_keys l)%nat then
    let it := it_move (lf_right l) 0 it in
    if lf_right l =? NULL then Ok it else it_load it s
  else it_load (it_move leaf (Z.of_nat k) it) s.

(** [SeekPrev] does not set [leaf_index] in the leaf it found, nor the key and
    the value. *)
Definition it_SeekPrev (key : K) (it : SIter) (s : BTree (K := K)) : result SIter :=
  leaf ← FindLeaf key s;
  l ← get_leaf leaf s;
  let it := it_set_link leaf (lf_seq l) it in
  let k := scan (fun x => klt x key) (take (lf_num_keys l) (lf_keys l)) in
  if (k =? 0)%nat then
    r ← get_leaf (lf_left l) s;
    Ok (it_set_link (lf_left l) (lf_seq r) (it_move (lf_left l) (Z.of_nat (lf_num_keys r) - 1) it))
  else Ok (it_move leaf (it_leaf_index it) it).

Fixpoint leftmost (d : nat) (a : addr) (s : BTree (K := K)) : result addr :=
  match d with
  | O => Ok a
  | S d => i ← get_inner a s; c ← from_opt OutOfBounds (in_children i !! 0%nat); leftmost d c s
  end.

Definition it_SeekToFirst (it : SIter) (s : BTree (K := K)) : result SIter :=
  min ← leftmost (bt_depth s) (bt_root s) s;
  l ← get_leaf min s;
  it_load (it_set_link min (lf_seq l) (it_move min 0 it)) s.

End index_ops.

(** ** Keys *)

(** [SecondIndexUint64BPlusTree]. *)
#[export] Instance uint64_order : KeyOrder Z := {| kcmp := Z.compare; kdef := 0 |}.

(** [SecondIndexStringBPlusTree::Compare]: bytes up to [string_length], with a
    jump to position 20 after a zero byte among positions 5 to 20, and an end at
    a zero byte after them.  [i] is the loop variable. *)
Definition byte_at (a : list Z) (i : nat) : Z := nth i a 0.

Fixpoint Compare_loop (fuel : nat) (string_length i : nat) (a b : list Z) : comparison :=
  match fuel with
  | O => Eq
  | S fuel =>
      if (i <? string_length)%nat then
        if byte_at b i <? byte_at a i then Gt
        else if byte_at a i <? byte_at b i then Lt
        else if (4 <? i)%nat && (i <? 21)%nat && (byte_at a i =? 0) then Compare_loop fuel string_length 21 a b
        else if (20 <? i)%nat && (byte_at a i =? 0) then Eq
        else Compare_loop fuel string_length (S i) a b
      else Eq
  end.

Definition Compare (string_length : nat) (a b : list Z) : comparison :=
  Compare_loop string_length string_length 0 a b.

(** The default constructor's [string_length]. *)
Definition string_length : nat := 38.

#[export] Instance string_order : KeyOrder (list Z) := {| kcmp := Compare string_length; kdef := [] |}.

(** *** The string index

    [SecondIndexStringBPlusTree] is the same code over [char *] keys; a key is
    modelled by the bytes it points to.  The operations at this key type. *)

Definition str_LeafNode := LeafNode (K := list Z).
Definition str_InnerNode := InnerNode (K := list Z).
Definition str_tree := BTree (K := list Z).
Definition str_BTree_new : addr -> addr -> str_tree := BTree_new.
Definition str_new_leaf_node : str_tree -> addr * str_tree := new_leaf_node.
Definition str_new_inner_node : str_tree -> addr * str_tree := new_inner_node.
Definition str_FindLeaf : list Z -> str_tree -> result addr := FindLeaf.
Definition str_RoGet : list Z -> str_tree -> result addr := RoGet.
Definition str_LeafInsert : list Z -> addr -> str_tree -> result (addr * addr * str_tree) := LeafInsert.
Definition str_leaf_split : addr -> str_tree -> result (addr * str_tree) := leaf_split.
Definition str_inner_split : addr -> str_tree -> result (addr * list Z * str_tree) := inner_split.
Definition str_inner_put : list Z -> addr -> addr -> nat -> str_tree -> result str_tree := inner_put.
Definition str_inner_add : addr -> nat -> list Z -> list Z -> addr -> str_tree ->
  result (addr * option (list Z) * str_tree) := inner_add.
Definition str_grow_root : list Z -> addr -> str_tree -> str_tree := grow_root.
Definition str_InnerInsert : nat -> list Z -> addr -> str_tree -> result (addr * addr * str_tree) := InnerInsert.
Definition str_Get_sec : list Z -> str_tree -> result (addr * str_tree) := Get_sec.

Definition str_index := SecondIndex (K := list Z).
Definition str_ThreadLocalInit : str_index -> str_index := ThreadLocalInit.
Definition str_Get : list Z -> str_index -> result (addr * str_index) := SI_Get.
Definition str_Put : list Z -> Z -> addr -> str_index -> result str_index := SI_Put.
Definition str_Insert_Sec : addr -> Z -> str_index -> result (addr * str_index) := Insert_Sec.
Definition str_GetWithInsert : list Z -> Z -> str_index -> result (addr * addr * str_index) := GetWithInsert.

Definition str_iter := SIter (K := list Z).
Definition str_it_new : str_iter := SIter_new.
Definition str_it_Valid : str_iter -> str_tree -> result bool := it_Valid.
Definition str_it_Next : str_iter -> str_tree -> result (bool * str_iter) := it_Next.
Definition str_it_Prev : str_iter -> str_tree -> result (bool * str_iter) := it_Prev.
Definition str_it_CurNode : str_iter -> str_tree -> result addr := it_CurNode.
Definition str_it_Seek : list Z -> str_iter -> str_tree -> result str_iter := it_Seek.
Definition str_it_SeekPrev : list Z -> str_iter -> str_tree -> result str_iter := it_SeekPrev.
Definition str_it_SeekToFirst : str_iter -> str_tree -> result str_iter := it_SeekToFirst.

(** ** Laws of the keys *)

#[export] Instance uint64_laws : KeyLaws Z.
Proof.
  split.
  - intros a b. apply Z.compare_antisym.
  - intros a b c. unfold kle. simpl.
    destruct (Z.compare_spec a b), (Z.compare_spec b c), (Z.compare_spec a c); try done; lia.
Qed.

(** The bytes that [Compare] looks at, in order. *)
Fixpoint trace (fuel : nat) (len i : nat) (a : list Z) : list Z :=
  match fuel with
  | O => []
  | S fuel =>
      if (i <? len)%nat then
        byte_at a i ::
          (if (4 <? i)%nat && (i <? 21)%nat && (byte_at a i =? 0) then trace fuel len 21 a
           else if (20 <? i)%nat && (byte_at a i =? 0) then []
           else trace fuel len (S i) a)
      else []
  end.

(** Lexicographic order. *)
Fixpoint lex (x y : list Z) : comparison :=
  match x, y with
  | [], [] => Eq
  | [], _ => Lt
  | _, [] => Gt
  | a :: x, b :: y => match Z.compare a b with Eq => lex x y | c => c end
  end.

Lemma lex_opp x y : lex y x = CompOpp (lex x y).
Proof.
  revert y. induction x as [|a x IH]; intros [|b y]; simpl; try done.
  rewrite (Z.compare_antisym a b). destruct (a ?= b); simpl; auto.
Qed.

Lemma lex_trans x y z : lex x y <> Gt -> lex y z <> Gt -> lex x z <> Gt.
Proof.
  revert y z. induction x as [|a x IH]; intros [|b y] [|c z]; simpl; try done.
  destruct (Z.compare_spec a b), (Z.compare_spec b c), (Z.compare_spec a c); subst; try done; try lia. apply IH.
Qed.

Lemma Compare_loop_trace fuel len i a b :
  Compare_loop fuel len i a b = lex (trace fuel len i a) (trace fuel len i b).
Proof.
  revert i. induction fuel as [|fuel IH]; intros i; simpl; [done|].
  destruct (i <? len)%nat; [|done]. simpl.
  destruct (Z.compare_spec (byte_at a i) (byte_at b i)) as [E|E|E].
  - rewrite E, Z.ltb_irrefl. destruct (_ && _ && _); [apply IH|]. destruct (_ && _); [done|apply IH].
  - rewrite (proj2 (Z.ltb_lt _ _) E), (proj2 (Z.ltb_ge (byte_at b i) _)) by lia. done.
  - by rewrite (proj2 (Z.ltb_lt _ _) E).
Qed.

#[export] Instance string_laws : KeyLaws (list Z).
Proof.
  split.
  - intros a b. simpl. unfold Compare. rewrite !Compare_loop_trace. apply lex_opp.
  - intros a b c. unfold kle. simpl. unfold Compare. rewrite !Compare_loop_trace. intros H1 H2.
    pose proof (lex_trans (trace string_length string_length 0 a) (trace string_length string_length 0 b)
                  (trace string_length string_length 0 c)) as Ht.
    destruct (lex (trace _ _ _ a) (trace _ _ _ b)), (lex (trace _ _ _ b) (trace _ _ _ c)),
      (lex (trace _ _ _ a) (trace _ _ _ c)); try done; by destruct Ht.
Qed.

(** ** The index as a sorted association list *)

Section abstract.
Context {K : Type} {KO : KeyOrder K} {KL : KeyLaws K}.
Implicit Types (L A B : list (K * addr)).

Fixpoint sec_lookup (key : K) L : option addr :=
  match L with
  | [] => None
  | (k, v) :: L => if keq k key then Some v else sec_lookup key L
  end.

Fixpoint sec_insert (key : K) (v : addr) L : list (K * addr) :=
  match L with
  | [] => [(key, v)]
  | (k, w) :: L' => if klt key k then (key, v) :: L else (k, w) :: sec_insert key v L'
  end.

(** The first entry whose key satisfies [P]. *)
Definition first_key (P : K -> bool) L : option (K * addr) := List.find (fun e => P e.1) L.

Lemma sec_lookup_app_lt key A B : Forall (fun x => klt x key = true) A.*1 -> sec_lookup key (A ++ B) = sec_lookup key B.
Proof.
  induction A as [|[k v] A IH]; simpl; [done|]. intros [Hk HA]%Forall_cons. simpl in Hk.
  destruct (keq k key) eqn:E; [|by apply IH]. by rewrite (proj1 (keq_not_lt _ _ E)) in Hk.
Qed.

Lemma sec_lookup_gt key B : Forall (fun x => klt key x = true) B.*1 -> sec_lookup key B = None.
Proof.
  induction B as [|[k v] B IH]; simpl; [done|]. intros [Hk HB]%Forall_cons. simpl in Hk.
  destruct (keq k key) eqn:E; [|by apply IH]. by rewrite (proj2 (keq_not_lt _ _ E)) in Hk.
Qed.

Lemma sec_insert_app key v A B :
  Forall (fun x => klt x key = true) A.*1 -> Forall (fun x => klt key x = true) B.*1 ->
  sec_insert key v (A ++ B) = A ++ (key, v) :: B.
Proof.
  intros HA HB. induction A as [|[k w] A IH]; simpl.
  - destruct B as [|[k w] B]; simpl; [done|]. apply Forall_cons in HB as [Hk _]. simpl in Hk. by rewrite Hk.
  - apply Forall_cons in HA as [Hk HA]. simpl in Hk. rewrite klt_kle, (klt_le _ _ Hk). simpl. by rewrite IH.
Qed.

(** In sorted entries a key occurs once. *)
Lemma sec_lookup_found key k v L :
  StronglySorted (fun a b : K => klt a b = true) L.*1 -> (k, v) ∈ L -> keq k key = true -> sec_lookup key L = Some v.
Proof.
  intros Hs (A & B & ->)%list_elem_of_split Hk. rewrite fmap_app, fmap_cons in Hs.
  rewrite sec_lookup_app_lt; [simpl; by rewrite Hk|].
  apply Forall_forall. intros x Hx. apply StronglySorted_app in Hs as [Hs _].
  specialize (Hs x k Hx ltac:(set_solver)). apply keq_le in Hk as [Hk _]. eauto using klt_le_trans.
Qed.

Lemma first_key_app (P : K -> bool) A k v B :
  Forall (fun x => P x = false) A.*1 -> P k = true -> first_key P (A ++ (k, v) :: B) = Some (k, v).
Proof.
  intros HA Hk. unfold first_key. induction A as [|[k' v'] A IH]; simpl; [by rewrite Hk|].
  apply Forall_cons in HA as [Hk' HA]. simpl in Hk'. rewrite Hk'. by apply IH.
Qed.

Lemma first_key_none (P : K -> bool) L : Forall (fun x => P x = false) L.*1 -> first_key P L = None.
Proof.
  unfold first_key. induction L as [|[k v] L IH]; simpl; [done|]. intros [Hk HL]%Forall_cons. simpl in Hk.
  rewrite Hk. auto.
Qed.

(** Insertion in the leaves is insertion in the list of entries. *)
Lemma ins_flat_contents key v leaf nl F F' :
  StronglySorted (fun a b : K => klt a b = true) (contents F').*1 -> ins_flat key v leaf nl F F' ->
  sec_lookup key (contents F) = None /\ contents F' = sec_insert key v (contents F).
Proof.
  intros Hs (F1 & A & B & F2 & -> & HA & HB & Hc).
  assert (HF' : contents F' = (contents F1 ++ A) ++ (key, v) :: (B ++ contents F2)).
  { destruct Hc as [[_ ->]|(_ & k1 & k2 & _ & _ & Hk & ->)]; rewrite contents_app; unfold contents; rewrite !bind_cons; simpl.
    - by rewrite <- !app_assoc.
    - rewrite (app_assoc k1), Hk. by rewrite <- !app_assoc. }
  assert (HF : contents (F1 ++ (leaf, A ++ B) :: F2) = (contents F1 ++ A) ++ (B ++ contents F2)).
  { rewrite contents_app. unfold contents. rewrite bind_cons. simpl. by rewrite <- !app_assoc. }
  rewrite HF, HF'. rewrite HF', fmap_app, fmap_cons in Hs. apply StronglySorted_app in Hs as (Hs1 & _ & Hs2).
  apply StronglySorted_cons in Hs2 as [Hs2 _].
  assert (HX : Forall (fun x => klt x key = true) (contents F1 ++ A).*1).
  { apply Forall_forall. intros x Hx. apply Hs1; set_solver. }
  split; [by rewrite sec_lookup_app_lt, sec_lookup_gt|]. by rewrite sec_insert_app.
Qed.

End abstract.

(** ** The tree refines the sorted list *)

Section refinement.
Context {K : Type} {KO : KeyOrder K} {KL : KeyLaws K}.
Implicit Types (s : BTree (K := K)) (F : list (addr * list (K * addr))).

(** A leaf of an index: its entries and its neighbours. *)
Lemma index_leaf s F1 a kvs F2 :
  index s (F1 ++ (a, kvs) :: F2) ->
  exists l, bt_heap s !! a = Some (BLeaf l) /\ leaf_rep l kvs /\ a <> NULL /\
    lf_left l = List.last F1.*1 NULL /\ lf_right l = List.hd NULL F2.*1.
Proof.
  intros Hix. destruct (index_leaf_at s _ a kvs Hix) as (l & Hl & Hr); [set_solver|].
  destruct Hix as (d & t & _ & Hok & _ & _ & _ & Hlinks & _). rewrite fmap_app, fmap_cons in Hlinks.
  pose proof (links_ok_at _ _ _ _ Hlinks) as Hat. unfold hlinks in Hat. cbn [fst] in Hat. rewrite Hl in Hat. injection Hat as Hl1 Hl2.
  exists l. split_and!; try done. intros ->. by rewrite heap_ok_null in Hl.
Qed.

Lemma index_size s F : index s F -> (length F <= size (bt_heap s))%nat.
Proof.
  intros (d & t & _ & _ & _ & _ & _ & (Hd & Hnd & _) & _).
  assert (Hsub : list_to_set F.*1 ⊆ dom (bt_heap s)).
  { intros a Ha. apply elem_of_list_to_set in Ha. apply elem_of_dom. by apply (dll_in_heap _ _ _ _ _ Hd). }
  apply subseteq_size in Hsub. rewrite size_list_to_set, length_fmap, size_dom in Hsub by done. done.
Qed.

(** A new tree is an empty index. *)
Lemma BTree_new_index brk dummyval : 0 < brk -> index (BTree_new (K := K) brk dummyval) [(brk, [])].
Proof.
  intros Hb. exists 0%nat, (brk, []). unfold BTree_new. simpl. split_and!; try done.
  - split; simpl; [unfold node_size; lia|]. intros a Ha. apply lookup_insert_is_Some' in Ha as [<-|[? Ha]]; [unfold node_size; lia|].
    by rewrite lookup_empty in Ha.
  - split; [|split; [split_and!; try done; constructor|apply NoDup_singleton]].
    exists Leaf_0. simpl. rewrite lookup_insert_eq. split; [done|]. unfold leaf_rep. simpl. split_and!; try done. cbv; lia.
  - split; [|split; [apply NoDup_singleton|]].
    + simpl. unfold hlinks. by rewrite lookup_insert_eq.
    + simpl. unfold NULL. rewrite list_elem_of_singleton. lia.
  - by left.
Qed.

(** C26: [Get_sec] refines the sorted association list: on a well-formed index it
    never faults, it returns the [SecondNode] of a key that is present and leaves
    the entries as they are, and it inserts the preallocated node at the key's
    position when the key is absent; the result is a well-formed index again. *)
Theorem Get_sec_refines key s F :
  index s F ->
  exists s' F',
    Get_sec key s = Ok (match sec_lookup key (contents F) with Some v => v | None => bt_dummyval s end, s') /\
    index s' F' /\
    contents F' = match sec_lookup key (contents F) with
                  | Some _ => contents F
                  | None => sec_insert key (bt_dummyval s) (contents F)
                  end.
Proof.
  intros Hix. destruct (Get_sec_spec key s F Hix) as [(v & E & a & kvs & k & Ha & Hk & Hkey)|(s' & F' & leaf & nl & E & Hix' & Hins & _)].
  - rewrite (sec_lookup_found key k v); [by exists s, F|by apply (index_sorted s)| |done].
    apply list_elem_of_bind. by exists (a, kvs).
  - destruct (ins_flat_contents _ _ _ _ _ _ (index_sorted _ _ Hix') Hins) as [-> Hc]. by exists s', F'.
Qed.

(** [RoGet] returns the [SecondNode] of every key that the index holds. *)
Lemma RoGet_present key s F v :
  index s F -> sec_lookup key (contents F) = Some v -> RoGet key s = Ok v.
Proof.
  intros Hix Hv. destruct (FindLeaf_index key s F Hix) as (a & kvs & F1 & F2 & E & -> & HF1 & HF2).
  pose proof (index_sorted _ _ Hix) as Hs.
  destruct (index_leaf s F1 a kvs F2 Hix) as (l & Hl & Hr & _).
  rewrite contents_app in Hv, Hs. unfold contents in Hv, Hs. rewrite bind_cons in Hv, Hs. cbn [snd] in Hv, Hs.
  rewrite !fmap_app in Hs. apply StronglySorted_app_1_r, StronglySorted_app_1_l in Hs.
  rewrite sec_lookup_app_lt in Hv by done.
  destruct (scan_sorted key kvs Hs) as (A & B & -> & HlenA & HA & HB).
  rewrite <- app_assoc, sec_lookup_app_lt in Hv by done.
  destruct HB as [(k & w & B' & -> & Hk)|HB].
  2: { rewrite sec_lookup_gt in Hv; [done|]. rewrite fmap_app. apply Forall_app. done. }
  simpl in Hv. rewrite Hk in Hv. injection Hv as <-.
  unfold RoGet. rewrite E. cbn [mbind result_bind]. unfold get_leaf. rewrite Hl. cbn [mbind result_bind].
  assert (Hidx : leaf_index key l = length A).
  { destruct Hr as (Hn & _ & _ & _ & Hk' & _). unfold leaf_index. by rewrite Hn, Hk'. }
  destruct (leaf_rep_lookup l (A ++ (k, w) :: B') (length A) k w) as [Ek Ev]; [done|by apply list_lookup_middle|].
  rewrite Hidx, Ek. cbn [mbind result_bind from_opt]. rewrite Hk, Ev. done.
Qed.

End refinement.

(** ** Iterators *)

Section iterators.
Context {K : Type} {KO : KeyOrder K} {KL : KeyLaws K}.
Implicit Types (s : BTree (K := K)) (F : list (addr * list (K * addr))) (it : SIter (K := K)).
#[local] Arguments contents : simpl never.

(** The iterator stands on an entry of the index: the entry is in its leaf or to
    the right of it (a split moves entries to the right), and while the leaf's
    sequence number is the one that was read it is at [leaf_index]. *)
Definition iter_ok s F it : Prop :=
  exists F1 a kvs F2 q, F = F1 ++ (a, kvs) :: F2 /\ it_node it = a /\
    (it_key it, it_value it) ∈ contents ((a, kvs) :: F2) /\
    hseq (bt_heap s) a = Some q /\ it_seq it <= q /\
    (q = it_seq it -> exists j, it_leaf_index it = Z.of_nat j /\ kvs !! j = Some (it_key it, it_value it)).

(** The iterator stands on [e], or past the end. *)
Definition iter_at s F it (e : option (K * addr)) : Prop :=
  match e with
  | Some (k, v) => iter_ok s F it /\ it_key it = k /\ it_value it = v
  | None => it_node it = NULL
  end.

Lemma it_load_spec s F1 a kvs F2 it j k v :
  index s (F1 ++ (a, kvs) :: F2) -> it_node it = a -> it_leaf_index it = Z.of_nat j -> kvs !! j = Some (k, v) ->
  exists it', it_load it s = Ok it' /\ iter_at s (F1 ++ (a, kvs) :: F2) it' (Some (k, v)).
Proof.
  intros Hix Hn Hj Hkv. destruct (index_leaf _ _ _ _ _ Hix) as (l & Hl & Hr & _).
  destruct (leaf_rep_lookup _ _ _ _ _ Hr Hkv) as [Hk Hv]. unfold it_load, get_leaf. rewrite Hn, Hl. cbn [mbind result_bind].
  rewrite Hj, (proj2 (Z.ltb_ge _ _)) by lia. rewrite Nat2Z.id, Hk. cbn [mbind result_bind from_opt]. rewrite Hv.
  eexists. split; [reflexivity|]. split; [|done]. exists F1, a, kvs, F2, (lf_seq l). simpl.
  split_and!; try done; [|unfold hseq; by rewrite Hl|exists j; done].
  rewrite contents_cons. apply elem_of_app. left. by apply list_elem_of_lookup_2 with j.
Qed.

(** The loop over the leaves finds the first entry that fails the test. *)
Lemma find_right_spec P s fuel G1 G :
  index s (G1 ++ G) -> G <> [] -> (length G <= fuel)%nat ->
  (exists H1 a kvs H2 j k v, G = H1 ++ (a, kvs) :: H2 /\
     find_right fuel P (List.hd NULL G.*1) s = Ok (a, Some j) /\
     kvs !! j = Some (k, v) /\ P k = false /\ Forall (fun x => P x = true) (contents H1 ++ take j kvs).*1) \/
  (exists a, find_right fuel P (List.hd NULL G.*1) s = Ok (a, None) /\ Forall (fun x => P x = true) (contents G).*1).
Proof.
  revert G1 G. induction fuel as [|fuel IH]; intros G1 G Hix Hne Hfuel.
  { destruct G; [done|simpl in Hfuel; lia]. }
  destruct G as [|[a kvs] G]; [done|]. destruct (index_leaf _ _ _ _ _ Hix) as (l & Hl & Hr & Ha & _ & Hright).
  simpl. unfold get_leaf. rewrite Hl. cbn [mbind result_bind].
  destruct Hr as (Hn & _ & _ & _ & Hk & _). rewrite Hn, Hk.
  destruct (scan_spec P kvs.*1) as (Hle & HP & HnP). rewrite length_fmap in Hle.
  destruct (Nat.eqb_spec (scan P kvs.*1) (length kvs)) as [Heq|Hneq].
  - rewrite Heq, <- (length_fmap fst kvs), firstn_all in HP. rewrite Hright.
    destruct (Z.eqb_spec (List.hd NULL G.*1) NULL) as [Hnull|Hnn].
    + right. exists a. split; [done|]. destruct G as [|[b kvs'] G].
      * rewrite contents_cons, app_nil_r. done.
      * exfalso. simpl in Hnull. subst b. rewrite cons_middle, app_assoc in Hix.
        by destruct (index_leaf _ _ _ _ _ Hix) as (_ & _ & _ & Hb & _).
    + destruct G as [|g G]; [done|]. rewrite cons_middle, app_assoc in Hix.
      destruct (IH (G1 ++ [(a, kvs)]) (g :: G) Hix) as [(H1 & b & kvs' & H2 & j & k & v & HG & E & Hj & HPk & HF)|(b & E & HF)];
        [done|simpl in *; lia|..].
      * left. exists ((a, kvs) :: H1), b, kvs', H2, j, k, v. rewrite HG. split_and!; try done; [by rewrite <- HG|].
        rewrite contents_cons, <- app_assoc, fmap_app. apply Forall_app. done.
      * right. exists b. split; [done|]. rewrite contents_cons, fmap_app. apply Forall_app. done.
  - left. destruct (lookup_lt_is_Some_2 kvs (scan P kvs.*1)) as [[k v] Hkv]; [lia|].
    exists [], a, kvs, G, (scan P kvs.*1), k, v. split_and!; try done.
    + apply HnP. by rewrite list_lookup_fmap, Hkv.
    + simpl. by rewrite fmap_take.
Qed.

Lemma get_leaf_ok a s (l : LeafNode (K := K)) : bt_heap s !! a = Some (BLeaf l) -> get_leaf a s = Ok l.
Proof. intros Hl. unfold get_leaf. by rewrite Hl. Qed.

(** The entry after a given one. *)
Lemma first_above A key (v : addr) B :
  StronglySorted (fun a b : K => klt a b = true) (A ++ (key, v) :: B).*1 ->
  first_key (fun x => klt key x) (A ++ (key, v) :: B) = head B.
Proof.
  intros Hs. rewrite fmap_app, fmap_cons in Hs. apply StronglySorted_app in Hs as (Hab & _ & Hs).
  apply StronglySorted_cons in Hs as [HB _]. unfold first_key.
  assert (HA : Forall (fun x => klt key x = false) (A ++ [(key, v)]).*1).
  { rewrite fmap_app. apply Forall_app. split; [|by repeat constructor; apply klt_irrefl].
    apply Forall_forall. intros x Hx. rewrite klt_kle, (klt_le x key); [done|]. apply Hab; set_solver. }
  rewrite cons_middle, app_assoc. destruct B as [|[k w] B].
  - rewrite app_nil_r. by apply first_key_none.
  - apply Forall_cons in HB as [Hk _]. by apply first_key_app.
Qed.

(** The entries to the left of the iterator's leaf are below its key. *)
Lemma iter_left s F1 (a : addr) kvs F2 k (v : addr) :
  index s (F1 ++ (a, kvs) :: F2) -> (k, v) ∈ contents ((a, kvs) :: F2) ->
  Forall (fun x => klt x k = true) (contents F1).*1.
Proof.
  intros Hix Hin. apply index_sorted in Hix. rewrite contents_app, fmap_app in Hix. apply StronglySorted_app in Hix as [Hs _].
  apply Forall_forall. intros x Hx. apply Hs; [done|]. apply list_elem_of_fmap. by exists (k, v).
Qed.

Lemma index_nonempty s F1 a kvs F2 : index s (F1 ++ (a, kvs) :: F2) -> F1 ++ F2 <> [] -> kvs <> [].
Proof.
  intros (d & t & _ & _ & _ & _ & Hf & _ & [->|Hne]) Hn.
  - simpl in Hf. apply (f_equal length) in Hf. rewrite length_app in Hf. simpl in Hf.
    destruct F1, F2; simpl in *; try done; lia.
  - apply Forall_app in Hne as [_ Hne]. by apply Forall_cons in Hne as [Hne _].
Qed.

(** The end of [Next] arrives at the entry at the position or after the leaf. *)
Lemma it_advance_spec s F1 a kvs F2 it j :
  index s (F1 ++ (a, kvs) :: F2) -> it_node it = a -> it_leaf_index it = Z.of_nat j ->
  exists it', it_advance it s = Ok it' /\ iter_at s (F1 ++ (a, kvs) :: F2) it' (head (drop j kvs ++ contents F2)).
Proof.
  intros Hix Hn Hj. destruct (index_leaf _ _ _ _ _ Hix) as (l & Hl & Hr & Ha & _ & Hright).
  unfold it_advance. rewrite Hn, (get_leaf_ok _ _ _ Hl). cbn [mbind result_bind].
  pose proof Hr as (Hnum & _). rewrite Hj, Hnum, Hright.
  destruct (Z.leb_spec (Z.of_nat (length kvs)) (Z.of_nat j)) as [Hge|Hlt].
  - rewrite drop_ge by lia. destruct F2 as [|[b kvs'] F2]; [by eexists|].
    rewrite cons_middle, app_assoc in Hix. destruct (index_leaf _ _ _ _ _ Hix) as (r & Hlr & Hrr & Hb & _).
    cbn [fmap list_fmap fst List.hd]. rewrite (proj2 (Z.eqb_neq _ _) Hb), (get_leaf_ok _ _ _ Hlr).
    cbn [mbind result_bind it_set_link it_move it_node]. rewrite (proj2 (Z.eqb_neq _ _) Hb).
    destruct kvs' as [|[k v] kvs']; [exfalso; apply (index_nonempty _ _ _ _ _ Hix); [by destruct F1|done]|].
    destruct (it_load_spec s (F1 ++ [(a, kvs)]) b ((k, v) :: kvs') F2 (it_set_link b (lf_seq r) (it_move b 0 it)) 0 k v)
      as (it' & E & Hat); [done..|].
    exists it'. split; [exact E|]. rewrite <- app_assoc in Hat. exact Hat.
  - cbn [mbind result_bind]. rewrite Hn, (proj2 (Z.eqb_neq _ _) Ha).
    destruct (lookup_lt_is_Some_2 kvs j) as [[k v] Hkv]; [lia|]. rewrite (drop_S _ _ _ Hkv).
    apply (it_load_spec s F1 a kvs F2 it j); done.
Qed.

(** [Next] of the tree's iterator, from any entry and also after other keys
    were inserted and leaves were split since the iterator was positioned, never
    faults and moves to the least key above the current one; it is at the end
    exactly when there is none. *)
Lemma it_Next_at s F it :
  index s F -> iter_ok s F it ->
  exists b it', it_Next it s = Ok (b, it') /\
    iter_at s F it' (first_key (fun x => klt (it_key it) x) (contents F)).
Proof.
  intros Hix (F1 & a & kvs & F2 & q & -> & Hn & Hin & Hq & Hle & Hfast).
  pose proof (iter_left _ _ _ _ _ _ _ Hix Hin) as HF1. pose proof (index_sorted _ _ Hix) as Hs.
  destruct (index_leaf _ _ _ _ _ Hix) as (l & Hl & Hr & Ha & _ & Hright).
  assert (lf_seq l = q) as Hlq by (unfold hseq in Hq; rewrite Hl in Hq; congruence).
  unfold it_Next. rewrite Hn, (get_leaf_ok _ _ _ Hl). cbn [mbind result_bind]. rewrite Hlq.
  destruct (Z.eqb_spec q (it_seq it)) as [Heq|Hneq].
  - destruct (Hfast Heq) as (j & Hj & Hkv).
    assert (HF : contents (F1 ++ (a, kvs) :: F2) =
                 (contents F1 ++ take j kvs) ++ (it_key it, it_value it) :: (drop (S j) kvs ++ contents F2)).
    { rewrite contents_app, contents_cons. rewrite <- (take_drop_middle _ _ _ Hkv) at 1. by rewrite <- !app_assoc. }
    destruct (it_advance_spec s F1 a kvs F2 (it_move a (it_leaf_index it + 1) it) (S j)) as (it' & E & Hat); [done|done|simpl; lia|].
    rewrite E. eexists _, _. split; [reflexivity|]. rewrite HF in Hs |- *. rewrite first_above by done. exact Hat.
  - destruct (find_right_spec (fun x => kle x (it_key it)) s (size (bt_heap s)) F1 ((a, kvs) :: F2) Hix)
      as [(G1 & b & kvs' & G2 & j & k & v & HG & E & Hj & HPk & HF)|(b & E & HF)]; [done|..].
    { pose proof (index_size _ _ Hix) as Hsz. rewrite length_app in Hsz. lia. }
    + simpl in E. rewrite E. cbn [mbind result_bind]. rewrite HG in Hix, Hs |- *. rewrite app_assoc in Hix.
      destruct (it_advance_spec s (F1 ++ G1) b kvs' G2 (it_move b (Z.of_nat j) it) j) as (it' & E' & Hat); [done..|].
      rewrite E'. eexists _, _. split; [reflexivity|]. rewrite <- app_assoc in Hat.
      rewrite (drop_S _ _ _ Hj) in Hat.
      assert (HC : contents (F1 ++ G1 ++ (b, kvs') :: G2) =
                   (contents F1 ++ contents G1 ++ take j kvs') ++ (k, v) :: (drop (S j) kvs' ++ contents G2)).
      { rewrite !contents_app, contents_cons. rewrite <- (take_drop_middle _ _ _ Hj) at 1. by rewrite <- !app_assoc. }
      rewrite HC, first_key_app; [exact Hat| |by rewrite klt_kle, HPk].
      rewrite fmap_app. apply Forall_app. split; (eapply Forall_impl; [done|]); intros x Hx; rewrite klt_kle, negb_false_iff; auto using klt_le.
    + simpl in E. rewrite E. eexists _, _. split; [reflexivity|].
      rewrite first_key_none; [done|]. rewrite contents_app, fmap_app. apply Forall_app.
      split; (eapply Forall_impl; [done|]); intros x Hx; rewrite klt_kle, negb_false_iff; auto using klt_le.
Qed.

Lemma it_Seek_at key s F it :
  index s F ->
  exists it', it_Seek key it s = Ok it' /\ iter_at s F it' (first_key (fun x => kle key x) (contents F)).
Proof.
  intros Hix. destruct (FindLeaf_index key s F Hix) as (a & kvs & F1 & F2 & E & -> & HF1 & HF2).
  pose proof (index_sorted _ _ Hix) as Hs. rewrite contents_app, contents_cons, !fmap_app in Hs.
  apply StronglySorted_app_1_r, StronglySorted_app_1_l in Hs.
  destruct (index_leaf _ _ _ _ _ Hix) as (l & Hl & Hr & Ha & _ & Hright).
  unfold it_Seek. rewrite E. cbn [mbind result_bind]. rewrite (get_leaf_ok _ _ _ Hl). cbn [mbind result_bind].
  pose proof Hr as (Hnum & _ & _ & _ & Hk & _). rewrite Hnum, Hk.
  destruct (scan_sorted key kvs Hs) as (A & B & -> & HlenA & HA & HB). rewrite <- HlenA, length_app.
  assert (Hge : forall x, klt x key = true -> kle key x = false) by auto using klt_kle_false.
  destruct B as [|[k v] B].
  - rewrite (proj2 (Nat.eqb_eq _ _)) by (simpl; lia). rewrite Hright, app_nil_r in *.
    destruct F2 as [|[b kvs'] F2]; simpl.
    + eexists. split; [reflexivity|]. rewrite first_key_none; [done|]. rewrite contents_app, contents_cons, !fmap_app, !Forall_app.
      split_and!; [by eapply Forall_impl; [|exact Hge]..|constructor].
    + rewrite cons_middle, app_assoc in Hix. destruct (index_leaf _ _ _ _ _ Hix) as (r & _ & _ & Hb & _).
      rewrite (proj2 (Z.eqb_neq _ _) Hb).
      destruct kvs' as [|[k v] kvs']; [exfalso; apply (index_nonempty _ _ _ _ _ Hix); [by destruct F1|done]|].
      destruct (it_load_spec s (F1 ++ [(a, A)]) b ((k, v) :: kvs') F2
                  (it_move b 0 (it_set_link a (lf_seq l) it)) 0 k v) as (it' & E' & Hat); [done..|].
      exists it'. split; [done|]. rewrite <- app_assoc in Hat. simpl in Hat.
      rewrite contents_app, contents_cons, contents_cons, app_assoc. simpl. rewrite first_key_app; [exact Hat|..].
      * rewrite fmap_app. apply Forall_app. split; (eapply Forall_impl; [done|exact Hge]).
      * rewrite contents_cons in HF2. apply Forall_cons in HF2 as [Hkv _]. by apply klt_le.
  - rewrite (proj2 (Nat.eqb_neq _ _)) by (simpl; lia).
    destruct (it_load_spec s F1 a (A ++ (k, v) :: B) F2 (it_move a (Z.of_nat (length A)) (it_set_link a (lf_seq l) it)) (length A) k v)
      as (it' & E' & Hat); [done..|by apply list_lookup_middle|].
    exists it'. split; [done|]. rewrite contents_app, contents_cons, <- app_assoc, app_assoc. simpl. rewrite first_key_app; [exact Hat|..].
    + rewrite fmap_app. apply Forall_app. split; (eapply Forall_impl; [done|exact Hge]).
    + destruct HB as [(k' & v' & B' & [=] & Hkey)|HB]; [subst; by apply keq_le in Hkey as [_ ?]|].
      apply Forall_cons in HB as [Hkv _]. by apply klt_le.
Qed.

(** The last entry below a key. *)
Lemma last_below (P : K -> bool) A B :
  Forall (fun x => P x = true) A.*1 -> Forall (fun x => P x = false) B.*1 ->
  first_key P (reverse (A ++ B) : list (K * addr)) = last A.
Proof.
  intros HA HB. rewrite reverse_app.
  assert (HB' : Forall (fun x => P x = false) (reverse B).*1).
  { rewrite Forall_forall in HB |- *. intros x (e & -> & He)%list_elem_of_fmap. apply HB.
    apply list_elem_of_fmap_2. by apply elem_of_reverse. }
  destruct A as [|e A _] using rev_ind; [rewrite reverse_nil, app_nil_r; by apply first_key_none|].
  rewrite reverse_snoc, last_snoc. destruct e as [k v]. apply (first_key_app P (reverse B) k v (reverse A)); [done|].
  rewrite fmap_app in HA. apply Forall_app in HA as [_ HA]. by apply Forall_cons in HA as [HA _].
Qed.

(** The end of [Prev] arrives at the entry before the position. *)
Lemma it_back_spec s F1 a kvs F2 it j :
  index s (F1 ++ (a, kvs) :: F2) -> it_node it = a -> it_leaf_index it = Z.of_nat j -> (j < length kvs)%nat ->
  exists it', it_back it s = Ok it' /\ iter_at s (F1 ++ (a, kvs) :: F2) it' (last (contents F1 ++ take j kvs)).
Proof.
  intros Hix Hn Hj Hlt. destruct (index_leaf _ _ _ _ _ Hix) as (l & Hl & Hr & Ha & Hleft & _).
  unfold it_back. cbn [it_move it_leaf_index it_node]. rewrite Hn, Hj.
  destruct (Z.ltb_spec (Z.of_nat j - 1) 0) as [H0|H0].
  - assert (j = 0%nat) as -> by lia. rewrite (get_leaf_ok _ _ _ Hl). cbn [mbind result_bind].
    rewrite Hleft, take_0, app_nil_r. destruct F1 as [|[b kvs'] F1 _] using rev_ind; [by eexists|].
    rewrite fmap_app. cbn [fmap list_fmap fst]. rewrite List.last_last. rewrite <- app_assoc in Hix. simpl in Hix.
    destruct (index_leaf _ _ _ _ _ Hix) as (r & Hlr & (Hnum & _) & Hb & _).
    cbn [fst]. rewrite (proj2 (Z.eqb_neq _ _) Hb), (get_leaf_ok _ _ _ Hlr).
    cbn [mbind result_bind it_set_link it_move it_node]. rewrite (proj2 (Z.eqb_neq _ _) Hb).
    destruct kvs' as [|[k v] kvs' _] using rev_ind; [exfalso; apply (index_nonempty _ _ _ _ _ Hix); [by destruct F1|done]|].
    rewrite length_app in Hnum. simpl in Hnum.
    destruct (it_load_spec s F1 b (kvs' ++ [(k, v)]) ((a, kvs) :: F2)
                (it_set_link b (lf_seq r) (it_move b (Z.of_nat (lf_num_keys r) - 1) (it_move a (Z.of_nat 0 - 1) it)))
                (length kvs') k v) as (it' & E & Hat); [done|done|simpl; lia|by apply list_lookup_middle|].
    exists it'. split; [exact E|]. rewrite contents_app, contents_cons, <- !app_assoc, app_assoc.
    change (contents []) with (@nil (K * addr)). rewrite app_nil_r, app_assoc, last_snoc. rewrite <- app_assoc. exact Hat.
  - cbn [mbind result_bind it_move it_node]. rewrite (proj2 (Z.eqb_neq _ _) Ha).
    destruct (lookup_lt_is_Some_2 kvs (j - 1)) as [[k v] Hkv]; [lia|].
    assert (Ht : take j kvs = take (j - 1) kvs ++ [(k, v)]) by (rewrite <- (take_S_r _ _ _ Hkv); f_equal; lia).
    rewrite Ht, app_assoc, last_snoc.
    apply (it_load_spec s F1 a kvs F2 _ (j - 1)); [done|done|simpl; lia|done].
Qed.

(** Where [Prev] starts going back: the first entry that is not below the
    current key. *)
Lemma it_Prev_pos s F1 a kvs F2 it q :
  index s (F1 ++ (a, kvs) :: F2) -> it_node it = a ->
  (it_key it, it_value it) ∈ contents ((a, kvs) :: F2) ->
  (q = it_seq it -> exists j, it_leaf_index it = Z.of_nat j /\ kvs !! j = Some (it_key it, it_value it)) ->
  exists b0 P1 b kvs' P2 j k v,
    (if q =? it_seq it then Ok (true, it)
     else '(node, r) ← find_right (size (bt_heap s)) (fun x => klt x (it_key it)) a s;
          Ok (false, it_move node (match r with Some k => Z.of_nat k | None => it_leaf_index it end) it)) =
      Ok (b0, it_move b (Z.of_nat j) it) /\
    F1 ++ (a, kvs) :: F2 = P1 ++ (b, kvs') :: P2 /\ kvs' !! j = Some (k, v) /\ klt k (it_key it) = false /\
    Forall (fun x => klt x (it_key it) = true) (contents P1 ++ take j kvs').*1.
Proof.
  intros Hix Hn Hin Hfast.
  pose proof (iter_left _ _ _ _ _ _ _ Hix Hin) as HF1. pose proof (index_sorted _ _ Hix) as Hs.
  destruct (Z.eqb_spec q (it_seq it)) as [Heq|Hneq].
  - destruct (Hfast Heq) as (j & Hj & Hkv). exists true, F1, a, kvs, F2, j, (it_key it), (it_value it).
    split_and!; try done; [|apply klt_irrefl|].
    + destruct it; simpl in *; subst; done.
    + rewrite fmap_app. apply Forall_app. split; [done|]. rewrite contents_app, contents_cons, !fmap_app in Hs.
      apply StronglySorted_app_1_r, StronglySorted_app_1_l in Hs.
      rewrite <- (take_drop_middle _ _ _ Hkv), fmap_app in Hs. apply StronglySorted_app in Hs as [Hs _].
      apply Forall_forall. intros x Hx. apply Hs; set_solver.
  - destruct (find_right_spec (fun x => klt x (it_key it)) s (size (bt_heap s)) F1 ((a, kvs) :: F2) Hix)
      as [(G1 & b & kvs' & G2 & j & k & v & HG & E & Hj & HPk & HF)|(b & E & HF)]; [done|..].
    { pose proof (index_size _ _ Hix) as Hsz. rewrite length_app in Hsz. lia. }
    + exists false, (F1 ++ G1), b, kvs', G2, j, k, v. simpl in E. rewrite E. split_and!; try done; [by rewrite HG, <- app_assoc|].
      rewrite contents_app, <- app_assoc, fmap_app. apply Forall_app. done.
    + exfalso. rewrite Forall_forall in HF. specialize (HF (it_key it)).
      rewrite klt_irrefl in HF. discriminate HF. apply list_elem_of_fmap. by exists (it_key it, it_value it).
Qed.

(** [Prev] of the tree's iterator never faults and moves to the greatest key
    below the current one, also after insertions and splits; it is at the end
    exactly when there is none. *)
Lemma it_Prev_at s F it :
  index s F -> iter_ok s F it ->
  exists b it', it_Prev it s = Ok (b, it') /\
    iter_at s F it' (first_key (fun x => klt x (it_key it)) (reverse (contents F))).
Proof.
  intros Hix (F1 & a & kvs & F2 & q & -> & Hn & Hin & Hq & Hle & Hfast).
  destruct (index_leaf _ _ _ _ _ Hix) as (l & Hl & _).
  assert (lf_seq l = q) as Hlq by (unfold hseq in Hq; rewrite Hl in Hq; congruence).
  unfold it_Prev. rewrite Hn, (get_leaf_ok _ _ _ Hl). cbn [mbind result_bind]. rewrite Hlq.
  destruct (it_Prev_pos s F1 a kvs F2 it q Hix Hn Hin Hfast)
    as (b0 & P1 & b & kvs' & P2 & j & k & v & E & HF & Hj & Hk & HP).
  pose proof (index_sorted _ _ Hix) as Hs. rewrite HF in Hix, Hs |- *.
  destruct (it_back_spec s P1 b kvs' P2 (it_move b (Z.of_nat j) it) j) as (it' & Eb & Hat); [done..|by apply lookup_lt_Some in Hj|].
  exists b0, it'. split.
  { destruct (q =? it_seq it); [injection E as <- Ei; rewrite Ei, Eb; done|].
    destruct (find_right _ _ _ _) as [[node r]|]; [|done]. cbn [mbind result_bind] in E |- *. injection E as <- En Er.
    rewrite En, Er, Eb. done. }
  assert (HC : contents (P1 ++ (b, kvs') :: P2) =
               (contents P1 ++ take j kvs') ++ ((k, v) :: drop (S j) kvs' ++ contents P2)).
  { rewrite !contents_app, contents_cons. rewrite <- (take_drop_middle _ _ _ Hj) at 1. by rewrite <- !app_assoc. }
  rewrite HC in Hs |- *. rewrite last_below; [exact Hat|done|].
  rewrite fmap_app in Hs. apply StronglySorted_app_1_r in Hs. rewrite fmap_cons in Hs |- *.
  apply StronglySorted_cons in Hs as [Hgt _]. constructor; [done|].
  eapply Forall_impl; [exact Hgt|]. intros x Hx. simpl in Hx. rewrite klt_kle, negb_false_iff in Hk |- *. eauto using kle_trans, klt_le.
Qed.

Lemma leftmost_spec d lo hi (t : tree (K := K) d) s :
  rep (bt_heap s) d t -> wf d lo hi t -> exists a kvs F, flat d t = (a, kvs) :: F /\ leftmost d (troot t) s = Ok a.
Proof.
  revert lo hi. induction d as [|d IH]; intros lo hi Hrep Hwf; [destruct t as [a kvs]; by exists a, kvs, []|].
  destruct t as [a es], Hrep as ((i & Hi & Hir) & HF), Hwf as (_ & (t0 & es0 & Hes & _) & Hwl). cbn [fst snd] in *. subst es.
  apply Forall_cons in HF as [Hrep _]. destruct Hwl as [Hwf _].
  destruct (IH t0 _ _ Hrep Hwf) as (b & kvs & F & Hf & E).
  eexists b, kvs, _. simpl. rewrite Hf. split; [reflexivity|]. unfold get_inner. rewrite Hi. cbn [mbind result_bind].
  destruct (inner_rep_split i [] (lo, troot t0) (ents_addr es0) Hir) as [Hch _]. simpl in Hch. rewrite Hch. exact E.
Qed.

(** [SeekToFirst] stands at the first entry; in an empty index it is not valid. *)
Lemma it_SeekToFirst_at s F it :
  index s F ->
  exists it', it_SeekToFirst it s = Ok it' /\
    match contents F with e :: _ => iter_at s F it' (Some e) | [] => it_Valid it' s = Ok false end.
Proof.
  intros Hix. assert (Hlm : exists a kvs G, F = (a, kvs) :: G /\ leftmost (bt_depth s) (bt_root s) s = Ok a).
  { destruct Hix as (d & t & -> & _ & (Hrep & Hwf & _) & <- & <- & _). by apply (leftmost_spec d None None). }
  destruct Hlm as (a & kvs & G & -> & E). unfold it_SeekToFirst. rewrite E. cbn [mbind result_bind].
  destruct (index_leaf s [] a kvs G Hix) as (l & Hl & Hr & Ha & _). rewrite (get_leaf_ok _ _ _ Hl). cbn [mbind result_bind].
  destruct kvs as [|[k v] kvs].
  - assert (G = []) as ->.
    { destruct G as [|g G]; [done|]. exfalso. by apply (index_nonempty s [] a [] (g :: G) Hix). }
    pose proof Hr as (Hn & _ & Hlk & Hlv & _). unfold it_load. cbn [it_set_link it_move it_node it_leaf_index].
    rewrite (get_leaf_ok _ _ _ Hl). cbn [mbind result_bind]. change (0 <? 0) with false. cbn iota.
    destruct (lookup_lt_is_Some_2 (lf_keys l) (Z.to_nat 0)) as [k Hk]; [rewrite Hlk; cbv; lia|].
    destruct (lookup_lt_is_Some_2 (lf_values l) (Z.to_nat 0)) as [v Hv]; [rewrite Hlv; cbv; lia|].
    rewrite Hk. cbn [mbind result_bind from_opt]. rewrite Hv. eexists. split; [reflexivity|].
    change (contents [(a, [])]) with (@nil (K * addr)). unfold it_Valid. simpl.
    rewrite (proj2 (Z.eqb_neq _ _) Ha), (get_leaf_ok _ _ _ Hl). simpl. by rewrite Hn.
  - apply (it_load_spec s [] a ((k, v) :: kvs) G _ 0); done.
Qed.

(** An iterator that stands on an entry is valid. *)
Lemma iter_at_Valid s F it e :
  index s F -> iter_at s F it e -> it_Valid it s = Ok (bool_decide (is_Some e)).
Proof.
  intros Hix. destruct e as [[k v]|]; simpl; unfold it_Valid; [|by intros ->].
  intros [(F1 & a & kvs & F2 & q & -> & Hn & Hin & _) _].
  destruct (index_leaf _ _ _ _ _ Hix) as (l & Hl & (Hnum & _) & Ha & _).
  rewrite Hn, (proj2 (Z.eqb_neq _ _) Ha), (get_leaf_ok _ _ _ Hl). cbn [mbind result_bind]. rewrite Hnum.
  destruct kvs as [|kv kvs]; [|done]. exfalso. destruct F2 as [|f F2].
  - change (contents [(a, [])]) with (@nil (K * addr)) in Hin. by apply not_elem_of_nil in Hin.
  - apply (index_nonempty _ _ _ _ _ Hix); [by destruct F1|done].
Qed.

(** The iterator of the B+ tree never faults.  [SeekToFirst] stands at the
    first entry, [Seek] at the least
    key that is not below the target, [Next] moves to the least key above the
    current one and [Prev] to the greatest key below it, also after other keys
    were inserted and leaves were split since the iterator was positioned; each
    is at the end exactly when there is no such key. *)
Lemma tree_iterator_moves key s F it :
  index s F ->
  (exists it', it_SeekToFirst it s = Ok it' /\
     match contents F with e :: _ => iter_at s F it' (Some e) | [] => it_Valid it' s = Ok false end) /\
  (exists it', it_Seek key it s = Ok it' /\ iter_at s F it' (first_key (fun x => kle key x) (contents F))) /\
  (iter_ok s F it ->
    (exists b it', it_Next it s = Ok (b, it') /\
       iter_at s F it' (first_key (fun x => klt (it_key it) x) (contents F))) /\
    (exists b it', it_Prev it s = Ok (b, it') /\
       iter_at s F it' (first_key (fun x => klt x (it_key it)) (reverse (contents F))))).
Proof.
  intros Hix. split; [by apply it_SeekToFirst_at|]. split; [by apply it_Seek_at|]. intros Hok. split; [by apply it_Next_at|by apply it_Prev_at].
Qed.

(** An insertion keeps every leaf, and the entries from it on. *)
Lemma ins_flat_keeps key (v leaf nl : addr) F F' a kvs F1 F2 :
  NoDup F.*1 -> ins_flat key v leaf nl F F' -> F = F1 ++ (a, kvs) :: F2 ->
  exists F1' kvs' F2', F' = F1' ++ (a, kvs') :: F2' /\ (a <> leaf -> kvs' = kvs) /\
    (forall e, e ∈ contents ((a, kvs) :: F2) -> e ∈ contents ((a, kvs') :: F2')).
Proof.
  intros Hnd (P1 & A & B & P2 & HF & _ & _ & Hc) HF'.
  assert (Hnew : exists kvs1 M, F' = P1 ++ (leaf, kvs1) :: M ++ P2 /\
            (forall e, e ∈ A ++ B -> e ∈ kvs1 ++ contents M)).
  { destruct Hc as [[_ ->]|(_ & k1 & k2 & _ & _ & Hk & ->)].
    - exists (A ++ (key, v) :: B), []. split; [done|]. intros e He. change (contents []) with (@nil (K * addr)). rewrite app_nil_r. set_solver.
    - exists k1, [(nl, k2)]. split; [done|]. intros e He. rewrite contents_cons. change (contents []) with (@nil (K * addr)).
      rewrite app_nil_r, Hk. set_solver. }
  destruct Hnew as (kvs1 & M & -> & Hsub). clear Hc. rewrite HF in HF'.
  apply app_eq_app in HF' as (Q & [[-> HQ]|[-> HQ]]).
  - destruct Q as [|q Q]; simpl in HQ.
    + injection HQ as ? ? ?. subst. rewrite ?app_nil_r. exists F1, kvs1, (M ++ P2). split_and!; try done.
      intros e. rewrite !contents_cons, contents_app, !elem_of_app. set_solver.
    + injection HQ as ? ?. subst. exists F1, kvs, (Q ++ (leaf, kvs1) :: M ++ P2). split_and!.
      * by rewrite <- app_assoc.
      * done.
      * intros e. rewrite !contents_cons, !contents_app, !contents_cons, !contents_app, !elem_of_app. set_solver.
  - destruct Q as [|q Q]; simpl in HQ.
    + injection HQ as ? ? ?. subst. rewrite ?app_nil_r. exists P1, kvs1, (M ++ F2). split_and!; try done.
      intros e. rewrite !contents_cons, contents_app, !elem_of_app. set_solver.
    + injection HQ as ? ?. subst. exists (P1 ++ (leaf, kvs1) :: M ++ Q), kvs, F2. split_and!; try done.
      by rewrite <- !app_assoc; simpl; rewrite <- !app_assoc.
Qed.

(** an iterator survives insertions: whatever key is looked up or inserted
    between two steps, also when the iterator's leaf is split, the iterator still
    stands on its entry; so the next step continues from it in the new contents
    (sequence numbers of leaves are assumed not to wrap around). *)
Theorem iter_survives_insert key s F it v s' :
  index s F -> iter_ok s F it -> (forall a q, hseq (bt_heap s) a = Some q -> 0 <= q < 2 ^ 64 - 1) ->
  Get_sec key s = Ok (v, s') ->
  exists F', index s' F' /\ iter_ok s' F' it /\ (forall e, e ∈ contents F -> e ∈ contents F').
Proof.
  intros Hix Hit Hq Hget. destruct (Get_sec_spec key s F Hix) as [(v' & E & _)|(s1 & F' & leaf & nl & E & Hix' & Hins & Hseq & _)];
    rewrite E in Hget; injection Hget as <- <-.
  { by exists F. }
  exists F'. split; [done|].
  assert (Hnd : NoDup F.*1) by (destruct Hix as (? & ? & _ & _ & _ & _ & _ & (_ & ? & _) & _); done).
  split.
  2: { destruct F as [|[a kvs] F]; [set_solver|].
       destruct (ins_flat_keeps _ _ _ _ _ _ a kvs [] F Hnd Hins eq_refl) as (F1' & kvs' & F2' & -> & _ & Hsub).
       intros e He. rewrite contents_app. apply elem_of_app. auto. }
  destruct Hit as (F1 & a & kvs & F2 & q & HF & Hn & Hin & Hqa & Hle & Hfast).
  destruct (ins_flat_keeps _ _ _ _ _ _ a kvs F1 F2 Hnd Hins HF) as (F1' & kvs' & F2' & HF' & Hsame & Hsub).
  destruct Hseq as [(q0 & Hq0 & Hq1) Hq2]. destruct (decide (a = leaf)) as [->|Hne].
  - exists F1', leaf, kvs', F2', (q + 1). rewrite Hqa in Hq0. injection Hq0 as <-. specialize (Hq _ _ Hqa).
    rewrite u64_small in Hq1 by lia. split_and!; try done; [by apply Hsub|lia|lia].
  - exists F1', a, kvs', F2', q. rewrite Hq2; [|done|].
    + split_and!; try done; [by apply Hsub|]. by rewrite Hsame.
    + intros ->. destruct Hins as (P1 & A & B & P2 & HFP & _ & _ & [[-> _]|(_ & k1 & k2 & _ & _ & _ & HFP')]).
      * destruct (index_leaf s F1 NULL kvs F2) as (_ & _ & _ & ? & _); [by rewrite <- HF|done].
      * destruct Hix' as (? & ? & _ & _ & _ & _ & _ & (_ & Hnd' & _) & _). rewrite HFP', fmap_app in Hnd'. simpl in Hnd'.
        assert (Hnl : nl ∈ F.*1) by (rewrite HF, fmap_app; set_solver).
        rewrite HFP, fmap_app, fmap_cons in Hnl. apply NoDup_app in Hnd' as (_ & Hd1 & Hnd').
        rewrite !NoDup_cons in Hnd'. cbn [fst] in *. 
        apply elem_of_app in Hnl as [Hnl|[->|Hnl]%elem_of_cons]; [by apply (Hd1 _ Hnl); set_solver|done|]. set_solver.
Qed.

End iterators.

(** ** The records of a secondary key *)

Section records.
Context {K : Type} {KO : KeyOrder K} {KL : KeyLaws K}.
Implicit Types (x : SecondIndex (K := K)) (F : list (addr * list (K * addr))) (W : addr -> list addr).

Definition w_nxt (ws : gmap Z MemNodeWrapper) (w : addr) : option addr := w_next <$> ws !! w.

(** The wrapper of a primary key in a list of wrappers. *)
Definition wrapper_of (ws : gmap Z MemNodeWrapper) (prikey : Z) (l : list addr) : option addr :=
  List.find (fun w => match ws !! w with Some wr => w_key wr =? prikey | None => false end) l.

(** [W v] are the wrappers of node [v], counted by its [seq]: those of different
    nodes are different, and none is the preallocated one. *)
Record nodes_ok x (vs : list addr) W : Prop := {
  no_chain : forall v, v ∈ vs -> exists sn, si_nodes x !! v = Some sn /\ sn_seq sn = u64 (Z.of_nat (length (W v))) /\
    chain (w_nxt (si_wrappers x)) (sn_head sn) (W v) NULL;
  no_disj : forall v v' w, v ∈ vs -> v' ∈ vs -> w ∈ W v -> w ∈ W v' -> v = v';
  no_fresh : forall v, v ∈ vs -> v < si_brk x;
  no_dummy : forall v, v ∈ vs -> si_dummywrapper x ∉ W v;
  no_wlt : forall w, is_Some (si_wrappers x !! w) -> w < si_brk x;
  no_brk : 0 < si_brk x;
  no_null : si_nodes x !! NULL = None
}.

(** The preallocated node and wrapper, once the thread has been initialised. *)
Record dummies_ok x (vs : list addr) : Prop := {
  du_val : si_nodes x !! bt_dummyval (si_tree x) = Some SecondNode_new;
  du_new : bt_dummyval (si_tree x) ∉ vs;
  du_vlt : bt_dummyval (si_tree x) < si_brk x;
  du_vnn : bt_dummyval (si_tree x) <> NULL;
  du_wrap : si_wrappers x !! si_dummywrapper x = Some MemNodeWrapper_new;
  du_wnn : si_dummywrapper x <> NULL
}.

Definition si_ok x F W : Prop :=
  index (si_tree x) F /\ NoDup (contents F).*2 /\ nodes_ok x (contents F).*2 W /\
  (si_localinit x = true -> dummies_ok x (contents F).*2).

Lemma chain_in_wrappers ws p l w : chain (w_nxt ws) p l NULL -> w ∈ l -> is_Some (ws !! w).
Proof.
  revert p. induction l as [|y l IH]; intros p; [set_solver|]. intros (-> & _ & n & Hn & Hc) [->|Hw]%elem_of_cons; [|eauto].
  unfold w_nxt in Hn. destruct (ws !! y); [eauto|done].
Qed.

(** Walking the list finds the wrapper. *)
Lemma find_wrapper_spec fuel prikey p l x :
  chain (w_nxt (si_wrappers x)) p l NULL -> (length l <= fuel)%nat ->
  find_wrapper fuel prikey p x = Ok (default NULL (wrapper_of (si_wrappers x) prikey l)).
Proof.
  revert p l. induction fuel as [|fuel IH]; intros p [|w l] Hc Hlen; simpl in Hlen; try lia;
    [simpl in Hc; by subst p..|].
  destruct Hc as (-> & Hw & n & Hn & Hc). simpl. rewrite (proj2 (Z.eqb_neq _ _) Hw).
  unfold w_nxt in Hn. unfold wrapper_of. simpl. destruct (si_wrappers x !! w) as [wr|]; [|done]. simpl in *. injection Hn as Hn.
  destruct (w_key wr =? prikey); [done|]. rewrite Hn. apply IH; [done|lia].
Qed.

Lemma chain_length ws p l : chain (w_nxt ws) p l NULL -> (length l <= size ws)%nat.
Proof.
  intros Hc. pose proof (chain_NoDup _ _ _ Hc) as Hnd.
  assert (Hsub : list_to_set l ⊆ dom ws).
  { intros w Hw. apply elem_of_list_to_set in Hw. apply elem_of_dom. by apply (chain_in_wrappers _ _ _ _ Hc). }
  apply subseteq_size in Hsub. by rewrite size_list_to_set, size_dom in Hsub.
Qed.

Lemma wrapper_of_Some ws prikey l w :
  wrapper_of ws prikey l = Some w -> w ∈ l /\ exists wr, ws !! w = Some wr /\ w_key wr = prikey.
Proof.
  intros [Hin Hw]%List.find_some. apply list_elem_of_In in Hin. split; [done|].
  destruct (ws !! w) as [wr|]; [|done]. exists wr. apply Z.eqb_eq in Hw. done.
Qed.

(** [Insert_Sec] on a node with wrappers [l] returns the wrapper of the
    primary key when there is one, changing nothing; otherwise it puts the
    preallocated wrapper with that key in front of the list and increments the
    node's sequence number, and every other node and wrapper stays as it was. *)
Lemma Insert_Sec_spec secn sn prikey l x dw :
  si_nodes x !! secn = Some sn -> chain (w_nxt (si_wrappers x)) (sn_head sn) l NULL ->
  si_wrappers x !! si_dummywrapper x = Some dw -> si_dummywrapper x ∉ l -> si_dummywrapper x <> NULL ->
  match wrapper_of (si_wrappers x) prikey l with
  | Some w => Insert_Sec secn prikey x = Ok (w, x)
  | None =>
      exists x' wr, Insert_Sec secn prikey x = Ok (si_dummywrapper x, x') /\
        si_nodes x' = <[secn := mkSecondNode (u64 (sn_seq sn + 1)) (si_dummywrapper x)]> (si_nodes x) /\
        si_wrappers x' = <[si_dummywrapper x := wr]> (si_wrappers x) /\
        w_key wr = prikey /\ w_memnode wr = w_memnode dw /\ w_valid wr = w_valid dw /\ w_next wr = sn_head sn /\
        chain (w_nxt (si_wrappers x')) (si_dummywrapper x) (si_dummywrapper x :: l) NULL /\
        si_dummywrapper x' = NULL /\ si_tree x' = si_tree x /\ si_brk x' = si_brk x
  end.
Proof.
  intros Hsn Hc Hdw Hnl Hnn. unfold Insert_Sec. rewrite Hsn. cbn [mbind result_bind from_opt].
  rewrite (find_wrapper_spec _ _ _ l) by (done || by apply (chain_length _ _ _ Hc)). cbn [mbind result_bind].
  destruct (wrapper_of (si_wrappers x) prikey l) as [w|] eqn:Ew; simpl.
  - apply wrapper_of_Some in Ew as [Hw _]. rewrite (proj2 (Z.eqb_neq _ _)); [done|].
    intros ->. by apply (chain_non_null _ _ _ _ Hc).
  - rewrite Hdw. cbn [mbind result_bind from_opt]. eexists _, _. split; [reflexivity|]. simpl. split_and!; try done.
    exists (sn_head sn). unfold w_nxt. rewrite lookup_insert_eq. split; [done|].
    eapply chain_ext; [|exact Hc]. intros y Hy. unfold w_nxt. rewrite lookup_insert_ne; [done|]. set_solver.
Qed.

Lemma index_dummyval s F v : index s F -> index (set_dummyval (K := K) v s) F.
Proof. intros (d & t & Hd & Hok & Hg & Hr & Hf & Hl & Hn). by exists d, t. Qed.

(** Allocating a node or a wrapper disturbs no list. *)
Lemma nodes_ok_dummyval x vs W : nodes_ok x vs W -> nodes_ok (new_dummyval x) vs W.
Proof.
  intros [Hc Hd Hf Hdu Hw Hb Hz]. split; simpl; auto; unfold sec_size in *.
  - intros v Hv. destruct (Hc v Hv) as (sn & Hsn & Hsq & Hch). exists sn. rewrite lookup_insert_ne; [done|].
    specialize (Hf v Hv). lia.
  - intros v Hv. specialize (Hf v Hv). lia.
  - intros w Hs. specialize (Hw w Hs). lia.
  - lia.
  - rewrite lookup_insert_ne; [done|]. unfold NULL. lia.
Qed.

Lemma nodes_ok_dummywrapper x vs W : nodes_ok x vs W -> nodes_ok (new_dummywrapper x) vs W.
Proof.
  intros [Hc Hd Hf Hdu Hw Hb Hz].
  assert (Hnew : forall v, v ∈ vs -> si_brk x ∉ W v).
  { intros v Hv Hin. destruct (Hc v Hv) as (sn & _ & _ & Hch). apply (chain_in_wrappers _ _ _ _ Hch), Hw in Hin. lia. }
  split; simpl; auto; unfold sec_size in *.
  - intros v Hv. destruct (Hc v Hv) as (sn & Hsn & Hsq & Hch). exists sn. split; [done|]. split; [done|].
    eapply chain_ext; [|exact Hch]. intros y Hy. unfold w_nxt. rewrite lookup_insert_ne; [done|]. intros <-. by apply (Hnew v).
  - intros v Hv. specialize (Hf v Hv). lia.
  - intros w Hs. apply lookup_insert_is_Some' in Hs as [<-|Hs]; [lia|]. specialize (Hw w Hs). lia.
  - lia.
Qed.

Lemma ThreadLocalInit_ok x F W :
  si_ok x F W ->
  index (si_tree (ThreadLocalInit x)) F /\ NoDup (contents F).*2 /\
  nodes_ok (ThreadLocalInit x) (contents F).*2 W /\ dummies_ok (ThreadLocalInit x) (contents F).*2 /\
  forall w, is_Some (si_wrappers x !! w) -> si_wrappers (ThreadLocalInit x) !! w = si_wrappers x !! w.
Proof.
  intros (Hix & Hnd & Hno & Hdu). unfold ThreadLocalInit. destruct (si_localinit x) eqn:El; [by auto 6|].
  pose proof (nodes_ok_dummyval _ _ _ (nodes_ok_dummywrapper _ _ _ Hno)) as Hno'.
  assert (Hd : dummies_ok (ThreadLocalInit x) (contents F).*2).
  { destruct Hno as [_ _ Hf _ _ Hb _]. unfold ThreadLocalInit. rewrite El. split; simpl; unfold sec_size, NULL.
    - by rewrite lookup_insert_eq.
    - intros Hin%Hf. unfold sec_size in *. lia.
    - lia.
    - lia.
    - by rewrite lookup_insert_eq.
    - lia. }
  unfold ThreadLocalInit in Hd. rewrite El in Hd. split_and!; try done.
  - destruct Hno'. by split.
  - intros w Hw. simpl. rewrite lookup_insert_ne; [done|]. apply (no_wlt _ _ _ Hno) in Hw. lia.
Qed.

(** Putting the preallocated wrapper in front of a list. *)
Lemma nodes_ok_push x vs W secn wr :
  nodes_ok x vs W -> secn ∈ vs -> is_Some (si_wrappers x !! si_dummywrapper x) -> si_dummywrapper x <> NULL ->
  forall sn, si_nodes x !! secn = Some sn -> w_next wr = sn_head sn ->
  nodes_ok (mkIndex (si_tree x) (<[secn := mkSecondNode (u64 (sn_seq sn + 1)) (si_dummywrapper x)]> (si_nodes x))
              (<[si_dummywrapper x := wr]> (si_wrappers x)) (si_brk x) NULL (si_localinit x))
    vs (fun v => if v =? secn then si_dummywrapper x :: W v else W v).
Proof.
  intros [Hc Hd Hf Hdu Hw Hb Hz] Hin Hdw Hnn sn Hsn Hnx.
  assert (Hext : forall v p, v ∈ vs -> chain (w_nxt (si_wrappers x)) p (W v) NULL ->
            chain (w_nxt (<[si_dummywrapper x := wr]> (si_wrappers x))) p (W v) NULL).
  { intros v p Hv. apply chain_ext. intros y Hy. unfold w_nxt. rewrite lookup_insert_ne; [done|].
    intros <-. by apply (Hdu v). }
  split; simpl.
  - intros v Hv. destruct (Hc v Hv) as (sv & Hsv & Hsq & Hch). destruct (Z.eqb_spec v secn) as [->|Hne].
    + rewrite lookup_insert_eq. eexists. split; [done|]. simplify_eq. split.
      { cbn [sn_seq length]. rewrite Hsq, Nat2Z.inj_succ. unfold u64. by rewrite Zplus_mod_idemp_l. }
      simpl. split_and!; try done. exists (w_next wr). unfold w_nxt at 1. rewrite lookup_insert_eq. split; [done|].
      rewrite Hnx. by apply Hext.
    + rewrite lookup_insert_ne by done. exists sv. split; [done|]. split; [done|]. by apply Hext.
  - intros v v' w Hv Hv' H1 H2.
    destruct (Z.eqb_spec v secn) as [->|], (Z.eqb_spec v' secn) as [->|]; try done; eauto.
    + apply elem_of_cons in H1 as [->|H1]; [by destruct (Hdu v' Hv')|eauto].
    + apply elem_of_cons in H2 as [->|H2]; [by destruct (Hdu v Hv)|eauto].
  - done.
  - intros v Hv. destruct (Hc v Hv) as (sv & _ & _ & Hch). pose proof (chain_non_null _ _ _ _ Hch).
    destruct (v =? secn); set_solver.
  - intros w Hs. apply lookup_insert_is_Some' in Hs as [<-|Hs]; auto.
  - done.
  - rewrite lookup_insert_ne; [done|]. intros ->. congruence.
Qed.

(** A node that was just allocated has an empty list. *)
Lemma nodes_ok_add x vs vs' W v :
  nodes_ok x vs W -> si_nodes x !! v = Some SecondNode_new -> v < si_brk x -> v ∉ vs ->
  (forall u, u ∈ vs' -> u = v \/ u ∈ vs) -> nodes_ok x vs' (fun u => if u =? v then [] else W u).
Proof.
  intros [Hc Hd Hf Hdu Hw Hb Hz] Hv Hlt Hnv Hin. split; auto.
  - intros u Hu. destruct (Z.eqb_spec u v) as [->|]; [by exists SecondNode_new|]. destruct (Hin u Hu); [done|auto].
  - intros u u' w Hu Hu' Hw1 Hw2.
    destruct (Z.eqb_spec u v) as [->|]; [by apply not_elem_of_nil in Hw1|].
    destruct (Z.eqb_spec u' v) as [->|]; [by apply not_elem_of_nil in Hw2|].
    destruct (Hin u Hu), (Hin u' Hu'); try done. eauto.
  - intros u Hu. destruct (Hin u Hu); [by subst|auto].
  - intros u Hu. destruct (Z.eqb_spec u v); [apply not_elem_of_nil|]. destruct (Hin u Hu); [done|auto].
Qed.

(** The end of [GetWithInsert]: the preallocated objects are replaced. *)
Lemma refill_ok x F W :
  index (si_tree x) F -> NoDup (contents F).*2 -> nodes_ok x (contents F).*2 W ->
  (bt_dummyval (si_tree x) <> NULL -> si_nodes x !! bt_dummyval (si_tree x) = Some SecondNode_new /\
     (bt_dummyval (si_tree x) ∉ (contents F).*2) /\ bt_dummyval (si_tree x) < si_brk x) ->
  (si_dummywrapper x <> NULL -> si_wrappers x !! si_dummywrapper x = Some MemNodeWrapper_new) ->
  let x1 := if bt_dummyval (si_tree x) =? NULL then new_dummyval x else x in
  let x2 := if si_dummywrapper x1 =? NULL then new_dummywrapper x1 else x1 in
  si_ok x2 F W /\ forall w wr, si_wrappers x !! w = Some wr -> si_wrappers x2 !! w = Some wr.
Proof.
  intros Hix Hnd Hno Hv Hw x1 x2.
  assert (Hno1 : nodes_ok x1 (contents F).*2 W) by (unfold x1; destruct (_ =? _); [by apply nodes_ok_dummyval|done]).
  assert (Hwr1 : si_wrappers x1 = si_wrappers x /\ si_dummywrapper x1 = si_dummywrapper x) by (unfold x1; by destruct (_ =? _)).
  destruct Hwr1 as [Hwr1 Hdw1].
  assert (Hix1 : index (si_tree x1) F) by (unfold x1; destruct (_ =? _); [by apply index_dummyval|done]).
  assert (Hv1 : si_nodes x1 !! bt_dummyval (si_tree x1) = Some SecondNode_new /\
                (bt_dummyval (si_tree x1) ∉ (contents F).*2) /\ bt_dummyval (si_tree x1) < si_brk x1 /\ bt_dummyval (si_tree x1) <> NULL).
  { unfold x1. destruct (Z.eqb_spec (bt_dummyval (si_tree x)) NULL) as [E|E].
    - destruct Hno as [_ _ Hf _ _ Hb _]. simpl. unfold sec_size, NULL. split_and!; [by rewrite lookup_insert_eq| |lia|lia].
      intros Hin%Hf. lia.
    - destruct (Hv E) as (? & ? & ?). done. }
  destruct Hv1 as (Hv1 & Hv2 & Hv3 & Hv4).
  unfold x2. destruct (Z.eqb_spec (si_dummywrapper x1) NULL) as [E|E].
  - split.
    + split_and!; [done|done|by apply nodes_ok_dummywrapper|]. intros _. split; simpl; unfold sec_size; try done; [lia| |].
      * by rewrite lookup_insert_eq.
      * destruct Hno1. unfold NULL. lia.
    + intros w wr Hl. simpl. rewrite Hwr1, lookup_insert_ne; [done|]. destruct Hno1 as [_ _ _ _ Hlt _ _].
      specialize (Hlt w). rewrite Hwr1, Hl in Hlt. intros Eq. specialize (Hlt ltac:(eauto)). lia.
  - split; [|by rewrite Hwr1]. split_and!; try done. intros _. split; try done. rewrite Hwr1, Hdw1. apply Hw. congruence.
Qed.

Lemma sec_insert_perm key v (L : list (K * addr)) : sec_insert key v L ≡ₚ (key, v) :: L.
Proof.
  induction L as [|[k w] L IH]; simpl; [done|]. destruct (klt key k); [done|]. rewrite IH. constructor.
Qed.

Lemma sec_lookup_insert key v (L : list (K * addr)) : sec_lookup key L = None -> sec_lookup key (sec_insert key v L) = Some v.
Proof.
  assert (Hr : keq key key = true) by (apply keq_le; by rewrite kle_refl).
  induction L as [|[k w] L IH]; simpl; [by rewrite Hr|]. destruct (keq k key) eqn:E; [done|]. intros HL.
  destruct (klt key k); simpl; [by rewrite Hr|]. rewrite E. auto.
Qed.

Lemma sec_lookup_in key v (L : list (K * addr)) : sec_lookup key L = Some v -> v ∈ L.*2.
Proof.
  induction L as [|[k w] L IH]; simpl; [done|]. destruct (keq k key); intros E; [injection E as ->|]; set_solver.
Qed.

(** The first part of [GetWithInsert]: the node of the secondary key. *)
Lemma node_of_key seckey x F W :
  index (si_tree x) F -> NoDup (contents F).*2 -> nodes_ok x (contents F).*2 W -> dummies_ok x (contents F).*2 ->
  exists secn t1 F1 W1, Get_sec seckey (si_tree x) = Ok (secn, t1) /\ index t1 F1 /\
    sec_lookup seckey (contents F1) = Some secn /\ NoDup (contents F1).*2 /\ nodes_ok (set_tree t1 x) (contents F1).*2 W1 /\
    contents F1 = match sec_lookup seckey (contents F) with Some _ => contents F | None => sec_insert seckey secn (contents F) end /\
    W1 secn = match sec_lookup seckey (contents F) with Some _ => W secn | None => [] end /\
    (forall v, v ∈ (contents F).*2 -> W1 v = W v) /\
    (bt_dummyval t1 <> NULL -> bt_dummyval t1 = bt_dummyval (si_tree x) /\ contents F1 = contents F).
Proof.
  intros Hix Hnd Hno [Hd1 Hd2 Hd3 Hd4 Hd5 Hd6].
  destruct (Get_sec_spec seckey _ F Hix) as [(v & E & a & kvs & k & Ha & Hk & Hkey)|(t1 & F1 & leaf & nl & E & Hix' & Hins & _ & Hnull)].
  - assert (Hl : sec_lookup seckey (contents F) = Some v).
    { apply (sec_lookup_found seckey k v); [by apply (index_sorted (si_tree x))| |done]. apply list_elem_of_bind. by exists (a, kvs). }
    exists v, (si_tree x), F, W. rewrite Hl. split_and!; try done. destruct Hno; by split.
  - destruct (ins_flat_contents _ _ _ _ _ _ (index_sorted _ _ Hix') Hins) as [Hl Hc].
    set (v := bt_dummyval (si_tree x)) in *.
    assert (Hp : (contents F1).*2 ≡ₚ v :: (contents F).*2) by (rewrite Hc, sec_insert_perm; done).
    exists v, t1, F1, (fun u => if u =? v then [] else W u). rewrite Hl. split_and!; try done.
    + rewrite Hc. by apply sec_lookup_insert.
    + rewrite Hp. by constructor.
    + apply (nodes_ok_add _ (contents F).*2); try done; [destruct Hno; by split|].
      intros u Hu. rewrite Hp in Hu. by apply elem_of_cons in Hu.
    + by rewrite Z.eqb_refl.
    + intros u Hu. rewrite (proj2 (Z.eqb_neq _ _)); [done|]. intros ->. done.
Qed.

(** [Insert_Sec] in a consistent index: the wrapper of the primary key, with the
    preallocated one in front of the list when there was none. *)
Lemma Insert_Sec_index secn prikey x F W :
  nodes_ok x (contents F).*2 W -> secn ∈ (contents F).*2 ->
  si_wrappers x !! si_dummywrapper x = Some MemNodeWrapper_new -> si_dummywrapper x <> NULL ->
  exists w x' W', Insert_Sec secn prikey x = Ok (w, x') /\ si_tree x' = si_tree x /\ si_brk x' = si_brk x /\
    (forall v, v <> secn -> si_nodes x' !! v = si_nodes x !! v) /\
    nodes_ok x' (contents F).*2 W' /\ (si_dummywrapper x' <> NULL -> x' = x) /\
    W' secn = match wrapper_of (si_wrappers x) prikey (W secn) with Some _ => W secn | None => w :: W secn end /\
    w ∈ W' secn /\ (forall v, v <> secn -> W' v = W v) /\
    (forall u, u <> si_dummywrapper x -> si_wrappers x' !! u = si_wrappers x !! u) /\
    exists wr, si_wrappers x' !! w = Some wr /\ w_key wr = prikey /\ (w ∉ W secn -> w_valid wr = 0 /\ w_memnode wr = NULL).
Proof.
  intros Hno Hin Hdw Hnn. pose proof Hno as [Hch _ _ Hdum _ _ _]. destruct (Hch secn Hin) as (sn & Hsn & _ & Hchain).
  pose proof (Insert_Sec_spec secn sn prikey (W secn) x _ Hsn Hchain Hdw (Hdum secn Hin) Hnn) as His.
  destruct (wrapper_of (si_wrappers x) prikey (W secn)) as [w|] eqn:Ew.
  - apply wrapper_of_Some in Ew as (Hw & wr & Hwr & Hkey). exists w, x, W. split_and!; try done.
    exists wr. split_and!; done.
  - destruct His as (x1 & wr & E & Hn1 & Hw1 & Hkey & Hm & Hv & Hnx & _ & Hd1 & Ht1 & Hb1).
    exists (si_dummywrapper x), x1, (fun v => if v =? secn then si_dummywrapper x :: W v else W v).
    assert (Hx1 : x1 = mkIndex (si_tree x) (<[secn := mkSecondNode (u64 (sn_seq sn + 1)) (si_dummywrapper x)]> (si_nodes x))
                         (<[si_dummywrapper x := wr]> (si_wrappers x)) (si_brk x) NULL (si_localinit x1)).
    { destruct x1; simpl in *. congruence. }
    split_and!; try done.
    + intros v Hne. rewrite Hn1. by rewrite lookup_insert_ne.
    + pose proof (nodes_ok_push x _ W secn wr Hno Hin (mk_is_Some _ _ Hdw) Hnn sn Hsn Hnx) as Hp. rewrite Hx1. destruct Hp; by split.
    + by rewrite Z.eqb_refl.
    + rewrite Z.eqb_refl. set_solver.
    + intros v Hne. by rewrite (proj2 (Z.eqb_neq _ _) Hne).
    + intros u Hne. rewrite Hw1. by rewrite lookup_insert_ne.
    + exists wr. rewrite Hw1, lookup_insert_eq. split_and!; done.
Qed.

(** What [GetWithInsert] does to a consistent index. *)
Lemma GetWithInsert_run seckey prikey x F W :
  si_ok x F W ->
  exists w secn x' F' W', GetWithInsert seckey prikey x = Ok (w, secn, x') /\ si_ok x' F' W' /\
    sec_lookup seckey (contents F') = Some secn /\
    contents F' = match sec_lookup seckey (contents F) with
                  | Some _ => contents F
                  | None => sec_insert seckey secn (contents F)
                  end /\
    w ∈ W' secn /\
    W' secn = match sec_lookup seckey (contents F) with
              | Some _ => match wrapper_of (si_wrappers (ThreadLocalInit x)) prikey (W secn) with
                          | Some _ => W secn
                          | None => w :: W secn
                          end
              | None => [w]
              end /\
    (forall v, v ∈ (contents F).*2 -> v <> secn -> W' v = W v) /\
    (forall v u, v ∈ (contents F).*2 -> u ∈ W v -> si_wrappers x' !! u = si_wrappers x !! u) /\
    (exists wr, si_wrappers x' !! w = Some wr /\ w_key wr = prikey /\
       ((forall v, v ∈ (contents F).*2 -> w ∉ W v) -> w_valid wr = 0 /\ w_memnode wr = NULL)).
Proof.
  intros Hx. destruct (ThreadLocalInit_ok _ _ _ Hx) as (Hix & Hnd & Hno & Hdu & Hkeep0).
  unfold GetWithInsert. set (x0 := ThreadLocalInit x) in *.
  destruct (node_of_key seckey x0 F W Hix Hnd Hno Hdu) as (secn & t1 & F1 & W1 & E & Hix1 & Hl1 & Hnd1 & Hno1 & Hc1 & HW1 & HWo & Hdv).
  rewrite E. cbn [mbind result_bind]. destruct Hdu as [Hd1 Hd2 Hd3 Hd4 Hd5 Hd6].
  assert (Hin : secn ∈ (contents F1).*2) by (by apply (sec_lookup_in seckey)).
  destruct (Insert_Sec_index secn prikey (set_tree t1 x0) F1 W1 Hno1 Hin Hd5 Hd6)
    as (w & x1 & W2 & E1 & Ht1 & Hb1 & Hn1 & Hno2 & Hd7 & HW2 & Hw & HWo2 & Hwr1 & wr & Hwr & Hkey & Hnew).
  rewrite E1. cbn [mbind result_bind].
  destruct (refill_ok x1 F1 W2) as [Hok Hkeep]; [by rewrite Ht1|done|done|..].
  { rewrite Ht1, Hb1. intros Hn. cbn [si_tree set_tree] in Hn |- *. destruct (Hdv Hn) as [Hv1 Hv2].
    rewrite Hn1, Hv1, Hv2; [done|]. intros Eq. apply Hd2. by rewrite <- Hv2, <- Hv1, Eq. }
  { intros Hn. by rewrite (Hd7 Hn). }
  eexists w, secn, _, F1, W2. split; [reflexivity|]. split; [exact Hok|]. split_and!; try done.
  - rewrite HW2, HW1. cbn [si_wrappers set_tree]. by destruct (sec_lookup seckey (contents F)).
  - intros v Hv Hne. rewrite HWo2 by done. auto.
  - intros v u Hv Hu. destruct Hno as [Hch _ _ Hdum _ _ _]. destruct (Hch v Hv) as (sn & _ & _ & Hc).
    destruct Hx as (_ & _ & [Hchx _ _ _ _ _ _] & _). destruct (Hchx v Hv) as (snx & _ & _ & Hcx).
    pose proof (chain_in_wrappers _ _ _ _ Hcx Hu) as Hs. specialize (Hkeep0 u Hs). destruct Hs as [wu Hwu]. rewrite Hwu in *.
    apply Hkeep. rewrite Hwr1; [done|]. intros ->. by apply (Hdum v).
  - exists wr. split; [by apply Hkeep|]. split; [done|]. intros Hnv. apply Hnew. rewrite HW1.
    destruct (sec_lookup seckey (contents F)) as [v|] eqn:El; [|apply not_elem_of_nil].
    apply Hnv. rewrite Hc1 in Hin. done.
Qed.

(** C28: [GetWithInsert] keeps the index consistent (the [seq] of every node
    counts its wrappers) and returns the wrapper of the
    primary key under the secondary key: the secondary key is added when it is
    new, the wrapper is added in front of the key's list when the primary key is
    new there, and the lists of all other secondary keys stay as they are. *)
Theorem GetWithInsert_spec seckey prikey x F W :
  si_ok x F W ->
  exists w secn x' F' W', GetWithInsert seckey prikey x = Ok (w, secn, x') /\ si_ok x' F' W' /\
    sec_lookup seckey (contents F') = Some secn /\
    contents F' = match sec_lookup seckey (contents F) with
                  | Some _ => contents F
                  | None => sec_insert seckey secn (contents F)
                  end /\
    w ∈ W' secn /\ (exists wr, si_wrappers x' !! w = Some wr /\ w_key wr = prikey) /\
    W' secn = match sec_lookup seckey (contents F) with
              | Some _ => match wrapper_of (si_wrappers (ThreadLocalInit x)) prikey (W secn) with
                          | Some _ => W secn
                          | None => w :: W secn
                          end
              | None => [w]
              end /\
    forall v, v ∈ (contents F).*2 -> v <> secn -> W' v = W v.
Proof.
  intros Hx. destruct (GetWithInsert_run seckey prikey x F W Hx)
    as (w & secn & x' & F' & W' & E & Hok & Hl & Hc & Hw & HW & HWo & _ & wr & Hwr & Hkey & _).
  exists w, secn, x', F', W'. split; [done|]. split; [done|]. split_and!; try done. by exists wr.
Qed.

(** Filling in a wrapper moves no list. *)
Lemma set_wrapper_ok x F W w wr memnode valid :
  si_ok x F W -> si_wrappers x !! w = Some wr -> w <> si_dummywrapper x ->
  si_ok (mkIndex (si_tree x) (si_nodes x) (<[w := mkWrapper (w_key wr) memnode (w_next wr) valid]> (si_wrappers x))
           (si_brk x) (si_dummywrapper x) (si_localinit x)) F W.
Proof.
  intros (Hix & Hnd & [Hch Hdis Hfr Hdum Hlt Hbrk Hz] & Hdu) Hwr Hne.
  split; [done|]. split; [done|]. split.
  - split; simpl; try done.
    + intros v Hv. destruct (Hch v Hv) as (sn & Hsn & Hsq & Hc). exists sn. split; [done|]. split; [done|].
      eapply chain_ext; [|exact Hc]. intros y _. unfold w_nxt. destruct (decide (y = w)) as [->|]; [|by rewrite lookup_insert_ne].
      by rewrite lookup_insert_eq, Hwr.
    + intros u Hu. apply lookup_insert_is_Some' in Hu as [<-|Hu]; [apply Hlt; eauto|auto].
  - intros Hl. destruct (Hdu Hl) as [? ? ? ? Hd ?]. split; simpl; try done. by rewrite lookup_insert_ne.
Qed.

(** [Put] in a consistent index: the wrapper of the primary key becomes valid
    and points to the record; every other wrapper stays as it was. *)
Lemma SI_Put_run seckey prikey memnode x F W :
  si_ok x F W ->
  exists w secn x' F' W' nxt, SI_Put seckey prikey memnode x = Ok x' /\ si_ok x' F' W' /\
    sec_lookup seckey (contents F') = Some secn /\ w ∈ W' secn /\
    contents F' = match sec_lookup seckey (contents F) with
                  | Some _ => contents F
                  | None => sec_insert seckey secn (contents F)
                  end /\
    (forall v, v ∈ (contents F).*2 -> v <> secn -> W' v = W v) /\
    W' secn = match sec_lookup seckey (contents F) with
              | Some _ => match wrapper_of (si_wrappers (ThreadLocalInit x)) prikey (W secn) with
                          | Some _ => W secn
                          | None => w :: W secn
                          end
              | None => [w]
              end /\
    si_wrappers x' !! w = Some (mkWrapper prikey memnode nxt 1) /\
    (forall v u, v ∈ (contents F).*2 -> u ∈ W v -> u <> w -> si_wrappers x' !! u = si_wrappers x !! u) /\
    (forall v wr, v ∈ (contents F).*2 -> w ∈ W v -> si_wrappers x !! w = Some wr -> w_key wr = prikey).
Proof.
  intros Hx. destruct (GetWithInsert_run seckey prikey x F W Hx)
    as (w & secn & x1 & F' & W' & E & Hok & Hl & Hc & Hw & HW & HWo & Hkeep & wr & Hwr & Hkey & _).
  assert (Hne : w <> si_dummywrapper x1).
  { intros ->. destruct Hok as (_ & _ & [_ _ _ Hdum _ _ _] & _). apply (Hdum secn); [|done]. by apply (sec_lookup_in seckey). }
  eexists w, secn, _, F', W', (w_next wr). unfold SI_Put. rewrite E. cbn [mbind result_bind]. rewrite Hwr.
  split; [reflexivity|]. split; [by apply set_wrapper_ok|]. split_and!; try done.
  - simpl. by rewrite lookup_insert_eq, Hkey.
  - intros v u Hv Hu Hne'. simpl. rewrite lookup_insert_ne by done. eauto.
  - intros v wr0 Hv Hwv Hwr0. rewrite (Hkeep v) in Hwr by done. congruence.
Qed.

(** [Get]: the node of the key, or the preallocated one, which is empty. *)
Lemma SI_Get_run key x F W :
  si_ok x F W ->
  exists v x', SI_Get key x = Ok (v, x') /\ si_nodes x' = si_nodes (ThreadLocalInit x) /\
    si_wrappers x' = si_wrappers (ThreadLocalInit x) /\
    match sec_lookup key (contents F) with
    | Some u => v = u /\ x' = ThreadLocalInit x
    | None => si_nodes x' !! v = Some SecondNode_new /\
        exists F', index (si_tree x') F' /\ contents F' = sec_insert key v (contents F)
    end.
Proof.
  intros Hx. destruct (ThreadLocalInit_ok _ _ _ Hx) as (Hix & Hnd & Hno & [Hd1 _ _ _ _ _] & _).
  unfold SI_Get. set (x0 := ThreadLocalInit x) in *.
  destruct (Get_sec_spec key _ F Hix) as [(v & E & a & kvs & k & Ha & Hk & Hkey)|(t1 & F1 & leaf & nl & E & Hix' & Hins & _)];
    rewrite E; cbn [mbind result_bind].
  - rewrite (sec_lookup_found key k v); [|by apply (index_sorted (si_tree x0))| |done].
    + eexists _, _. split; [reflexivity|]. by destruct x0.
    + apply list_elem_of_bind. by exists (a, kvs).
  - destruct (ins_flat_contents _ _ _ _ _ _ (index_sorted _ _ Hix') Hins) as [-> Hc].
    eexists _, _. split; [reflexivity|]. simpl. split_and!; try done. eauto.
Qed.

End records.

Section more.
Context {K : Type} {KO : KeyOrder K} {KL : KeyLaws K}.

Lemma sec_lookup_insert_ne k k' v (L : list (K * addr)) :
  keq k' k = false -> sec_lookup k L = None -> sec_lookup k (sec_insert k' v L) = None.
Proof.
  intros Hne. induction L as [|[k1 w] L IH]; simpl; [by rewrite Hne|].
  destruct (keq k1 k) eqn:E; [done|]. intros HL. destruct (klt k' k1); simpl; [by rewrite Hne, E|]. rewrite E. auto.
Qed.

(** [Get] consumes the preallocated [SecondNode] without replacing it: after
    one [Get] of an absent key, the next [Get] of another absent key returns the
    null pointer (and stores it in the tree). *)
Lemma Get_then_Get_null k1 k2 (x : SecondIndex (K := K)) F :
  index (si_tree x) F -> si_localinit x = true ->
  sec_lookup k1 (contents F) = None -> sec_lookup k2 (contents F) = None -> keq k1 k2 = false ->
  exists x' x'' F'', SI_Get k1 x = Ok (bt_dummyval (si_tree x), x') /\ SI_Get k2 x' = Ok (NULL, x'') /\
    index (si_tree x'') F'' /\ sec_lookup k2 (contents F'') = Some NULL.
Proof.
  intros Hix Hli Hk1 Hk2 Hne. unfold SI_Get, ThreadLocalInit. rewrite Hli.
  assert (Hget : forall k s F, index s F -> sec_lookup k (contents F) = None ->
            exists s' F', Get_sec k s = Ok (bt_dummyval s, s') /\ index s' F' /\
              contents F' = sec_insert k (bt_dummyval s) (contents F) /\ bt_dummyval s' = NULL).
  { intros k s F0 Hi Hk. destruct (Get_sec_spec k s F0 Hi) as [(v & _ & a & kvs & k' & Ha & Hkv & Hkey)|(s' & F' & leaf & nl & E & Hi' & Hins & _ & Hn)].
    - exfalso. rewrite (sec_lookup_found k k' v) in Hk; [done|by apply (index_sorted s)| |done].
      apply list_elem_of_bind. by exists (a, kvs).
    - destruct (ins_flat_contents _ _ _ _ _ _ (index_sorted _ _ Hi') Hins) as [_ Hc]. by exists s', F'. }
  destruct (Hget k1 _ F Hix Hk1) as (s1 & F1 & E1 & Hix1 & Hc1 & Hn1).
  destruct (Hget k2 s1 F1 Hix1) as (s2 & F2 & E2 & Hix2 & Hc2 & Hn2).
  { rewrite Hc1. by apply sec_lookup_insert_ne. }
  rewrite E1. cbn [mbind result_bind]. eexists _, _, F2. split; [reflexivity|]. simpl. rewrite Hli. simpl.
  rewrite E2, Hn1. split; [reflexivity|]. split; [done|]. rewrite Hc2, Hn1. apply sec_lookup_insert.
  rewrite Hc1. by apply sec_lookup_insert_ne.
Qed.

(** Inserting a sequence of keys, each with its own preallocated node. *)
Fixpoint insert_all (kvs : list (K * addr)) (s : BTree (K := K)) : result BTree :=
  match kvs with
  | [] => Ok s
  | (k, v) :: kvs => '(_, s) ← Get_sec k (set_dummyval v s); insert_all kvs s
  end.

Fixpoint insert_all_spec (kvs : list (K * addr)) (L : list (K * addr)) : list (K * addr) :=
  match kvs with
  | [] => L
  | (k, v) :: kvs => insert_all_spec kvs (match sec_lookup k L with Some _ => L | None => sec_insert k v L end)
  end.

Lemma insert_all_index kvs s F :
  index s F -> exists s' F', insert_all kvs s = Ok s' /\ index s' F' /\ contents F' = insert_all_spec kvs (contents F).
Proof.
  revert s F. induction kvs as [|[k v] kvs IH]; intros s F Hix; simpl; [by exists s, F|].
  apply (index_dummyval _ _ v) in Hix.
  destruct (Get_sec_spec k _ F Hix) as [(v' & E & a & kvs' & k' & Ha & Hkv & Hkey)|(s' & F' & leaf & nl & E & Hi' & Hins & _ & Hn)];
    rewrite E; cbn [mbind result_bind].
  - rewrite (sec_lookup_found k k' v'); [by apply IH|by apply (index_sorted _ _ Hix)| |done].
    apply list_elem_of_bind. by exists (a, kvs').
  - destruct (ins_flat_contents _ _ _ _ _ _ (index_sorted _ _ Hi') Hins) as [-> Hc]. simpl in Hc. rewrite <- Hc. by apply IH.
Qed.

End more.

(** [Compare] of the string index is the lexicographic order on the bytes it
    looks at: all bytes of the key, but after a zero byte among positions 5 to 20
    it goes on at position 21, and after a zero byte past them it stops; so it is
    a total preorder, as the tree needs. *)
Lemma Compare_lexicographic len a b : Compare len a b = lex (trace len len 0 a) (trace len len 0 b).
Proof. apply Compare_loop_trace. Qed.

(** ** A concrete tree *)

(** Three hundred keys inserted in a scattered order: leaves, inner nodes and
    the root are split, and the tree gets two levels of inner nodes. *)
Definition demo_keys : list (Z * addr) :=
  (fun i => (Z.of_nat ((i * 37) mod 401), 1000 + Z.of_nat i)) <$> seq 0 300.

Definition demo_tree : BTree (K := Z) :=
  match insert_all demo_keys (BTree_new 512 NULL) with Ok s => s | Fault _ => BTree_new 512 NULL end.

Lemma demo_index : exists F, index demo_tree F /\ contents F = insert_all_spec demo_keys [].
Proof.
  destruct (insert_all_index demo_keys (BTree_new 512 NULL) [(512, [])]) as (s' & F & E & Hix & Hc).
  { apply BTree_new_index. lia. }
  change (contents [(512, [])]) with (@nil (Z * addr)) in Hc.
  exists F. unfold demo_tree. rewrite E. split; [exact Hix|exact Hc].
Qed.

Example demo_depth : bt_depth demo_tree = 2%nat.
Proof. vm_compute. reflexivity. Qed.

Lemma Get_sec_refines_witness :
  (exists s' F', Get_sec 37 demo_tree = Ok (1001, s') /\ index s' F' /\ contents F' = insert_all_spec demo_keys []) /\
  (exists s' F', Get_sec 900 demo_tree = Ok (NULL, s') /\ index s' F' /\
     contents F' = sec_insert 900 NULL (insert_all_spec demo_keys [])).
Proof.
  destruct demo_index as (F & Hix & Hc). split.
  - destruct (Get_sec_refines 37 demo_tree F Hix) as (s' & F' & E & Hix' & Hc'). rewrite Hc in E, Hc'.
    assert (Hl : sec_lookup 37 (insert_all_spec demo_keys []) = Some 1001) by (vm_compute; reflexivity).
    rewrite Hl in E, Hc'. exists s', F'. split; [exact E|]. split; [exact Hix'|exact Hc'].
  - destruct (Get_sec_refines 900 demo_tree F Hix) as (s' & F' & E & Hix' & Hc'). rewrite Hc in E, Hc'.
    assert (Hl : sec_lookup 900 (insert_all_spec demo_keys []) = None) by (vm_compute; reflexivity).
    assert (Hd : bt_dummyval demo_tree = NULL) by (vm_compute; reflexivity).
    rewrite Hl, Hd in E, Hc'. exists s', F'. split; [exact E|]. split; [exact Hix'|exact Hc'].
Defined.

(** The iterator after [Seek 19] in the concrete tree. *)
Lemma demo_iter :
  exists it F, index demo_tree F /\ contents F = insert_all_spec demo_keys [] /\ iter_ok demo_tree F it /\ it_key it = 21.
Proof.
  destruct demo_index as (F & Hix & Hc). destruct (it_Seek_at 19 demo_tree F SIter_new Hix) as (it & E & Hat).
  exists it, F. split; [exact Hix|]. split; [exact Hc|]. rewrite Hc in Hat.
  assert (Hf : first_key (fun x => kle 19 x) (insert_all_spec demo_keys []) = Some (21, 1239)) by (vm_compute; reflexivity).
  rewrite Hf in Hat. destruct Hat as (Hok & Hk & _). split; [exact Hok|exact Hk].
Qed.

Lemma tree_iterator_moves_witness :
  exists it F b it', iter_ok demo_tree F it /\ it_Next it demo_tree = Ok (b, it') /\ iter_at demo_tree F it' (Some (22, 1174)).
Proof.
  destruct demo_iter as (it & F & Hix & Hc & Hok & Hk).
  destruct (tree_iterator_moves 19 demo_tree F it Hix) as (_ & _ & Hmoves).
  destruct (Hmoves Hok) as [(b & it' & E & Hat) _].
  exists it, F, b, it'. split; [exact Hok|]. split; [exact E|]. rewrite Hc, Hk in Hat.
  assert (Hf : first_key (fun x => klt 21 x) (insert_all_spec demo_keys []) = Some (22, 1174)) by (vm_compute; reflexivity).
  rewrite Hf in Hat. exact Hat.
Defined.

Lemma demo_seq a q : hseq (bt_heap demo_tree) a = Some q -> 0 <= q < 2 ^ 64 - 1.
Proof.
  intros Hq.
  assert (Hall : forallb (fun p : Z * bnode (K := Z) => match p.2 with BLeaf l => (0 <=? lf_seq l) && (lf_seq l <? 2 ^ 64 - 1) | _ => true end)
                   (map_to_list (bt_heap demo_tree)) = true) by (vm_compute; reflexivity).
  rewrite forallb_forall in Hall. unfold hseq in Hq.
  destruct (bt_heap demo_tree !! a) as [[l|]|] eqn:E; try discriminate Hq. injection Hq as <-.
  apply elem_of_map_to_list, list_elem_of_In, Hall in E. simpl in E. lia.
Qed.

Lemma iter_survives_insert_witness :
  exists it F v s' F', iter_ok demo_tree F it /\ Get_sec 20 demo_tree = Ok (v, s') /\ index s' F' /\ iter_ok s' F' it.
Proof.
  destruct demo_iter as (it & F & Hix & Hc & Hok & Hk).
  assert (Hget : exists v s', Get_sec 20 demo_tree = Ok (v, s')).
  { destruct (Get_sec_spec 20 demo_tree F Hix) as [(v & E & _)|(s' & F' & leaf & nl & E & _)]; eauto. }
  destruct Hget as (v & s' & E).
  destruct (iter_survives_insert 20 demo_tree F it v s' Hix Hok demo_seq E) as (F' & Hix' & Hok' & _).
  exists it, F, v, s', F'. split; [exact Hok|]. split; [exact E|]. split; [exact Hix'|exact Hok'].
Defined.

(** A new index is consistent. *)
Lemma SI_new_ok {K : Type} {KO : KeyOrder K} {KL : KeyLaws K} brk sbrk :
  0 < brk -> 0 < sbrk -> si_ok (SI_new (K := K) brk sbrk) [(brk, [])] (fun _ => []).
Proof.
  intros Hb Hs. split; [by apply BTree_new_index|]. split; [constructor|]. split; [|intros E; discriminate E].
  split; simpl; try done; try (intros ? Hv; by apply not_elem_of_nil in Hv).
  - intros v v' w Hv. by apply not_elem_of_nil in Hv.
  - intros w [? Hw]. by rewrite lookup_empty in Hw.
Qed.

Lemma GetWithInsert_spec_witness :
  exists w secn x' F' W', GetWithInsert 5 77 (SI_new (K := Z) 512 4096) = Ok (w, secn, x') /\ si_ok x' F' W' /\
    contents F' = [(5, secn)] /\ W' secn = [w].
Proof.
  destruct (GetWithInsert_spec 5 77 _ _ _ (SI_new_ok (K := Z) 512 4096 eq_refl eq_refl)) as (w & secn & x' & F' & W' & E & Hok & _ & Hc & _ & _ & HW & _).
  exists w, secn, x', F', W'. split; [exact E|]. split; [exact Hok|]. split; [exact Hc|exact HW].
Defined.

Lemma Get_then_Get_null_demo :
  exists x' x'', SI_Get 5 (ThreadLocalInit (SI_new (K := Z) 512 4096)) = Ok (4128, x') /\ SI_Get 6 x' = Ok (NULL, x'').
Proof.
  destruct (Get_then_Get_null 5 6 (ThreadLocalInit (SI_new (K := Z) 512 4096)) [(512, [])]) as (x' & x'' & F & E1 & E2 & _).
  - apply index_dummyval, BTree_new_index. lia.
  - reflexivity.
  - reflexivity.
  - reflexivity.
  - reflexivity.
  - exists x', x''. split; [exact E1|exact E2].
Defined.
