(* ===== verification/DBTables.v ===== *)
(** * DBTables: the shared store and its per-thread pools

    db/dbtables.h, db/dbtables.cc and the delayed removal of records,
    db/rmpool.h and db/rmpool.cc. *)

From S2P Require Import Prelude OBJPool RCU MemStore TxSets.

(** ** Data *)

Definition GCThreshold : Z := 100000.
Definition RMThreshold : Z := 100.
Definition sizeof_MemNode : Z := 40.

(** A record to be removed from its table once its grace period is over. *)
Record RMObj := mkRMObj {
  rm_tableid : nat;
  rm_key : Z;
  rm_node : addr;
  rm_seq : Z
}.

(** The list [rmlist_] from its head, with the element count. *)
Record RMPool := mkRMPool { rmlist_ : list RMObj; rm_elems : Z }.

(** The state all threads share: the records, the value buffers, the first
    unused address of the allocator, the tables, the snapshot counter and the
    RCU counters. *)
Record DB (S : Type) := mkDB {
  db_nodes : gmap Z MemNode;
  db_vals : gmap Z (list Z);
  db_brk : addr;
  db_tables : list S;
  db_snapshot : Z;
  db_rcu : list Z
}.
Arguments mkDB {S}.
Arguments db_nodes {S}.
Arguments db_vals {S}.
Arguments db_brk {S}.
Arguments db_tables {S}.
Arguments db_snapshot {S}.
Arguments db_rcu {S}.

(** The thread-local members of [DBTables], with the thread's RCU slot. *)
Record TL (P : Type) := mkTL {
  tl_tid : nat;
  tl_valuesPool : list P;
  tl_memnodesPool : list P;
  tl_gcnum : Z;
  tl_rmPool : RMPool
}.
Arguments mkTL {P}.
Arguments tl_tid {P}.
Arguments tl_valuesPool {P}.
Arguments tl_memnodesPool {P}.
Arguments tl_gcnum {P}.
Arguments tl_rmPool {P}.

Section DBTables.
Context {S P : Type} `{Memstore S, Pool P}.
Implicit Types (db : DB S) (tl : TL P).

Definition set_nodes (m : gmap Z MemNode) db : DB S :=
  mkDB m (db_vals db) (db_brk db) (db_tables db) (db_snapshot db) (db_rcu db).

Definition set_vals (v : gmap Z (list Z)) db : DB S :=
  mkDB (db_nodes db) v (db_brk db) (db_tables db) (db_snapshot db) (db_rcu db).

Definition set_tables (ts : list S) db : DB S :=
  mkDB (db_nodes db) (db_vals db) (db_brk db) ts (db_snapshot db) (db_rcu db).

Definition set_rcu (r : list Z) db : DB S :=
  mkDB (db_nodes db) (db_vals db) (db_brk db) (db_tables db) (db_snapshot db) r.

Definition set_snapshot (s : Z) db : DB S :=
  mkDB (db_nodes db) (db_vals db) (db_brk db) (db_tables db) s (db_rcu db).

(** [malloc]: a block nobody has. *)
Definition malloc (size : Z) db : addr * DB S :=
  (db_brk db, mkDB (db_nodes db) (db_vals db) (db_brk db + size) (db_tables db)
                (db_snapshot db) (db_rcu db)).

Definition set_pools (vp mp : list P) tl : TL P :=
  mkTL (tl_tid tl) vp mp (tl_gcnum tl) (tl_rmPool tl).

Definition set_gcnum (n : Z) tl : TL P :=
  mkTL (tl_tid tl) (tl_valuesPool tl) (tl_memnodesPool tl) n (tl_rmPool tl).

Definition set_rmPool (r : RMPool) tl : TL P :=
  mkTL (tl_tid tl) (tl_valuesPool tl) (tl_memnodesPool tl) (tl_gcnum tl) r.

(** ** Tables *)

(** A table that inserts a record takes it from [Memstore::GetMemNode]: 64
    bytes, the record after the [Obj] header, constructed. *)
Definition GetWithInsert (tableid : nat) (key : Z) db : result (addr * DB S) :=
  s ← from_opt OutOfBounds (db_tables db !! tableid);
  let fresh := db_brk db + sizeof_Obj in
  match ms_GetWithInsert s key fresh with
  | (n, isnew, s') =>
      let db := set_tables (<[tableid := s']> (db_tables db)) db in
      if (isnew : bool) then
        Ok (n, set_nodes (<[n := MemNode_init]> (db_nodes db)) (malloc 64 db).2)
      else Ok (n, db)
  end.

Definition Get (tableid : nat) (key : Z) db : result addr :=
  s ← from_opt OutOfBounds (db_tables db !! tableid);
  Ok (ms_Get s key).

Definition GetWithDelete (tableid : nat) (key : Z) db : result (addr * DB S) :=
  s ← from_opt OutOfBounds (db_tables db !! tableid);
  let '(n, s') := ms_GetWithDelete s key in
  Ok (n, set_tables (<[tableid := s']> (db_tables db)) db).

(** [Put] as memstore_skiplist.cc has it. *)
Definition Put (tableid : nat) (key : Z) (val : addr) db : result (addr * DB S) :=
  '(n, db) ← GetWithInsert tableid key db;
  node ← node_at (db_nodes db) n;
  Ok (n, set_nodes (<[n := set_seq 1 (set_value val node)]> (db_nodes db)) db).

(** [TupleInsert]: a private copy of the value, then [Put]. *)
Definition TupleInsert (tabid : nat) (key : Z) (val : list Z) db : result (DB S) :=
  let '(value, db) := malloc (sizeof_Obj + Z.of_nat (length val)) db in
  let value := value + sizeof_Obj in
  let db := set_vals (<[value := val]> (db_vals db)) db in
  '(_, db) ← Put tabid key value db;
  Ok db.

(** ** RCU and pools *)

Definition RCUTXBegin tl db : result (DB S) :=
  r ← BeginTX (tl_tid tl) (db_rcu db); Ok (set_rcu r db).

Definition RCUTXEnd tl db : result (DB S) :=
  r ← EndTX (tl_tid tl) (db_rcu db); Ok (set_rcu r db).

Definition AddDeletedValue (tableid : nat) (value : addr) (sn : Z) tl : result (TL P) :=
  p ← from_opt OutOfBounds (tl_valuesPool tl !! tableid);
  p ← pool_add value sn p;
  Ok (set_gcnum (tl_gcnum tl + 1)
        (set_pools (<[tableid := p]> (tl_valuesPool tl)) (tl_memnodesPool tl) tl)).

Definition GetMemNode (tableid : nat) tl db : result (addr * TL P * DB S) :=
  p ← from_opt OutOfBounds (tl_memnodesPool tl !! tableid);
  '(mn, p) ← pool_get p;
  let tl := set_pools (tl_valuesPool tl) (<[tableid := p]> (tl_memnodesPool tl)) tl in
  let '(mn, db) :=
    if mn =? NULL then
      let '(a, db) := malloc (sizeof_Obj + sizeof_MemNode) db in (a + sizeof_Obj, db)
    else (mn, db) in
  Ok (mn, tl, set_nodes (<[mn := MemNode_init]> (db_nodes db)) db).

Definition GetEmptyValue (tableid : nat) tl : result (addr * TL P) :=
  p ← from_opt OutOfBounds (tl_valuesPool tl !! tableid);
  '(v, p) ← pool_get p;
  Ok (v, set_pools (<[tableid := p]> (tl_valuesPool tl)) (tl_memnodesPool tl) tl).

Definition AddDeletedNode (tableid : nat) (node : addr) tl : result (TL P) :=
  p ← from_opt OutOfBounds (tl_memnodesPool tl !! tableid);
  p ← pool_add node 0 p;
  Ok (set_gcnum (tl_gcnum tl + 1)
        (set_pools (tl_valuesPool tl) (<[tableid := p]> (tl_memnodesPool tl)) tl)).

(** ** Delayed removal *)

Definition AddRMObj (tableid : nat) (key seq : Z) (node : addr) tl db : result (TL P * DB S) :=
  n ← node_at (db_nodes db) node;
  let db := set_nodes (<[node := set_gcRef (u32 (mn_gcRef n + 1)) n]> (db_nodes db)) db in
  let rm := tl_rmPool tl in
  Ok (set_rmPool (mkRMPool (mkRMObj tableid key node seq :: rmlist_ rm) (rm_elems rm + 1)) tl, db).

Definition AddRemoveNode (tableid : nat) (key seq : Z) (node : addr) tl db : result (TL P * DB S) :=
  AddRMObj tableid key seq node tl db.

(** [RMPool::Remove], one RTM region: the record leaves its table when it has
    not been written since it was deleted. *)
Definition Remove (o : RMObj) db : result (bool * DB S) :=
  n ← node_at (db_nodes db) (rm_node o);
  if mn_seq n =? rm_seq o then
    let db := set_nodes (<[rm_node o := set_value HAVEREMOVED n]> (db_nodes db)) db in
    '(a, db) ← GetWithDelete (rm_tableid o) (rm_key o) db;
    n' ← node_at (db_nodes db) a;
    Ok (true, set_nodes (<[a := set_seq (u64 (mn_seq n' + 1)) n']> (db_nodes db)) db)
  else Ok (false, db).

(** The body of [RMPool::RemoveAll]'s loop for the object taken from the list:
    drop the reference and try to remove the record, ... *)
Definition RemoveAll_unlink (o : RMObj) db : result (Z * DB S) :=
  n ← node_at (db_nodes db) (rm_node o);
  let ref := mn_gcRef n in
  let db := set_nodes (<[rm_node o := set_gcRef (u32 (ref - 1)) n]> (db_nodes db)) db in
  '(_, db) ← Remove o db;
  Ok (ref, db).

(** ... then give the memory of a removed record to the pool when this was the
    last reference. *)
Definition RemoveAll_one (o : RMObj) tl db : result (TL P * DB S) :=
  '(ref, db) ← RemoveAll_unlink o db;
  n ← node_at (db_nodes db) (rm_node o);
  if (mn_value n =? HAVEREMOVED) && (ref =? 1) then
    tl ← AddDeletedNode (rm_tableid o) (rm_node o) tl; Ok (tl, db)
  else Ok (tl, db).

Fixpoint RemoveAll_loop (l : list RMObj) tl db : result (TL P * DB S) :=
  match l with
  | [] => Ok (tl, db)
  | o :: l => '(tl, db) ← RemoveAll_one o tl db; RemoveAll_loop l tl db
  end.

Definition RemoveAll tl db : result (TL P * DB S) :=
  '(tl, db) ← RemoveAll_loop (rmlist_ (tl_rmPool tl)) tl db;
  Ok (set_rmPool (mkRMPool [] 0) tl, db).

(** ** Garbage collection

    Both collections first wait for a grace period; the wait itself is
    [RCU.WaitForGracePeriod], during which the other threads run. *)

Fixpoint gc_pools (safesn : Z) (ps : list P) : result (list P) :=
  match ps with
  | [] => Ok []
  | p :: ps => p ← pool_gc safesn p; ps ← gc_pools safesn ps; Ok (p :: ps)
  end.

Definition GC_needed tl : bool := negb (tl_gcnum tl <? GCThreshold).

Definition GC (safesn : Z) tl : result (TL P) :=
  if GC_needed tl then
    vp ← gc_pools safesn (tl_valuesPool tl);
    mp ← gc_pools safesn (tl_memnodesPool tl);
    Ok (set_gcnum 0 (set_pools vp mp tl))
  else Ok tl.

Definition DelayRemove tl db : result (TL P * DB S) :=
  if rm_elems (tl_rmPool tl) <? RMThreshold then Ok (tl, db) else RemoveAll tl db.

(** [ThreadLocalInit] *)
Definition ThreadLocalInit (tid : nat) db : TL P :=
  mkTL tid (replicate (length (db_tables db)) pool_empty)
    (replicate (length (db_tables db)) pool_empty) 0 (mkRMPool [] 0).

End DBTables.
