(* ===== verification/Catalog.v ===== *)
(** * The catalogue of DBTables and its background threads (db/dbtables)

    The constructors of [DBTables], [AddTable] and [AddSchema] with which a
    benchmark sets the store up, the snapshot thread, and the thread that moves
    the per-epoch statistics of the log into totals. *)

From S2P Require Import Prelude Persist.

(** ** The catalogue *)

Definition NONE : Z := 0.
Definition BTREE : Z := 1.
Definition EUNO_BTREE : Z := 6.

(** A table, with the number its constructor is given. *)
Inductive tree :=
  | MemstoreBPlusTree (tableid : Z)
  | MemstoreEunoTree (tableid : Z).

Record TableSchema := mkTableSchema { klen : Z; vlen : Z }.

(** [None] is what the constructor leaves uninitialised, in the fields and in the
    arrays. *)
Record Catalog := mkCatalog {
  number : Z;
  next : option Z;
  nextindex : option Z;
  tables : list (option tree);
  types : list (option Z);
  schemas : option (list (option TableSchema));
  snapshot : Z;
  rcu : option nat;
  pbuf_ : option nat
}.

Definition DBTables_test : Catalog :=
  mkCatalog 1 None None [Some (MemstoreBPlusTree 0)] [Some BTREE] None 1 None None.

Definition DBTables_tables (n : nat) : Catalog :=
  mkCatalog (Z.of_nat n) (Some 0) (Some 0) (replicate n None) (replicate n None) (Some (replicate n None)) 1 None None.

(** [RCUInit] and [PBufInit] are given the number of threads. *)
Definition DBTables_new (n thrs : nat) : Catalog :=
  let c := DBTables_tables n in
  mkCatalog (number c) (next c) (nextindex c) (tables c) (types c) (schemas c) (snapshot c) (Some thrs) (Some thrs).

(** Assignment to an element of an array. *)
Definition put {A} (i : Z) (x : A) (l : list A) : result (list A) :=
  if (0 <=? i) && (i <? Z.of_nat (length l)) then Ok (<[Z.to_nat i := x]> l) else Fault OutOfBounds.

(** [USESECONDINDEX] is 0: no secondary index is made. *)
Definition AddTable (tableid index_type secondary_index_type : Z) (c : Catalog) : result (Z * Catalog) :=
  nx ← from_opt Undefined (next c);
  ni ← from_opt Undefined (nextindex c);
  ts ← (if index_type =? BTREE then put nx (Some (MemstoreBPlusTree nx)) (tables c)
        else if index_type =? EUNO_BTREE then put nx (Some (MemstoreEunoTree nx)) (tables c)
        else Ok (tables c));
  ty ← put nx (Some index_type) (types c);
  Ok (ni - 1, mkCatalog (number c) (Some (nx + 1)) (Some ni) ts ty (schemas c) (snapshot c) (rcu c) (pbuf_ c)).

Definition AddSchema (tableid kl vl : Z) (c : Catalog) : result Catalog :=
  sc ← from_opt Undefined (schemas c);
  sc ← put tableid (Some (mkTableSchema kl vl)) sc;
  Ok (mkCatalog (number c) (next c) (nextindex c) (tables c) (types c) (Some sc) (snapshot c) (rcu c) (pbuf_ c)).

(** A round of [SnapshotUpdateThread]. *)
Definition SnapshotUpdate (c : Catalog) : Catalog :=
  mkCatalog (number c) (next c) (nextindex c) (tables c) (types c) (schemas c) (u64 (snapshot c + 1)) (rcu c) (pbuf_ c).

(** The tables that the destructor deletes. *)
Fixpoint deleted_loop (fuel : nat) (i nx : Z) (c : Catalog) : result (list tree) :=
  match fuel with
  | O => Fault OutOfFuel
  | S fuel =>
      if i <? nx then
        ty ← from_opt OutOfBounds (types c !! Z.to_nat i);
        ty ← from_opt Undefined ty;
        rest ← deleted_loop fuel (i + 1) nx c;
        if (ty =? BTREE) || (ty =? EUNO_BTREE) then
          t ← from_opt OutOfBounds (tables c !! Z.to_nat i);
          t ← from_opt Undefined t;
          Ok (t :: rest)
        else Ok rest
      else Ok []
  end.

Definition DBTables_dtor (c : Catalog) : result (list tree) :=
  nx ← from_opt Undefined (next c);
  deleted_loop (S (length (tables c))) 0 nx c.

(** ** Set-up *)

(** The tables of a benchmark are added in order, with their types. *)
Fixpoint add_tables (tys : list Z) (i : Z) (c : Catalog) : result Catalog :=
  match tys with
  | [] => Ok c
  | ty :: tys => '(_, c) ← AddTable i ty NONE c; add_tables tys (i + 1) c
  end.

Definition tree_of (i ty : Z) : tree := if ty =? BTREE then MemstoreBPlusTree i else MemstoreEunoTree i.

Definition known (ty : Z) : Prop := ty = BTREE \/ ty = EUNO_BTREE.

(** The first tables are there, the others are not. *)
Definition loaded (n : nat) (tys : list Z) (c : Catalog) : Prop :=
  next c = Some (Z.of_nat (length tys)) /\ is_Some (nextindex c) /\
  tables c = imap (fun i ty => Some (tree_of (Z.of_nat i) ty)) tys ++ replicate (n - length tys) None /\
  types c = (Some <$> tys) ++ replicate (n - length tys) None.

Lemma put_snoc {A} (l : list A) n x y : (0 < n)%nat ->
  put (Z.of_nat (length l)) x (l ++ replicate n y) = Ok ((l ++ [x]) ++ replicate (n - 1) y).
Proof.
  intros Hn. unfold put. rewrite length_app, length_replicate.
  rewrite (proj2 (Z.leb_le _ _)), (proj2 (Z.ltb_lt _ _)) by lia. cbn. f_equal. rewrite Nat2Z.id.
  rewrite insert_app_r_alt by lia. rewrite Nat.sub_diag. destruct n as [|n]; [lia|]. cbn. rewrite Nat.sub_0_r. by rewrite <- app_assoc.
Qed.

Lemma AddTable_loaded n tys ty c : loaded n tys c -> (length tys < n)%nat -> known ty ->
  exists c', AddTable (Z.of_nat (length tys)) ty NONE c = Ok (default 0 (nextindex c) - 1, c') /\ loaded n (tys ++ [ty]) c' /\
    nextindex c' = nextindex c.
Proof.
  intros (Hnx & [ni Hni] & Ht & Hty) Hlt Hk. unfold AddTable. rewrite Hnx, Hni. unfold mbind, result_bind. cbn [from_opt default].
  assert (Hput : forall x, put (Z.of_nat (length tys)) x (tables c) =
    Ok ((imap (fun i ty => Some (tree_of (Z.of_nat i) ty)) tys ++ [x]) ++ replicate (n - length tys - 1) None)).
  { intros x. rewrite Ht. rewrite <- (length_imap (fun i ty => Some (tree_of (Z.of_nat i) ty)) tys) at 1. apply put_snoc. lia. }
  assert (Hputy : put (Z.of_nat (length tys)) (Some ty) (types c) = Ok (((Some <$> tys) ++ [Some ty]) ++ replicate (n - length tys - 1) None)).
  { rewrite Hty. rewrite <- (length_fmap Some tys) at 1. apply put_snoc. lia. }
  rewrite !Hput, Hputy.
  assert (Hsel : (if ty =? BTREE then Ok ((imap (fun i ty => Some (tree_of (Z.of_nat i) ty)) tys ++ [Some (MemstoreBPlusTree (Z.of_nat (length tys)))]) ++ replicate (n - length tys - 1) None)
     else if ty =? EUNO_BTREE then Ok ((imap (fun i ty => Some (tree_of (Z.of_nat i) ty)) tys ++ [Some (MemstoreEunoTree (Z.of_nat (length tys)))]) ++ replicate (n - length tys - 1) None)
     else Ok (tables c)) =
    Ok ((imap (fun i ty => Some (tree_of (Z.of_nat i) ty)) tys ++ [Some (tree_of (Z.of_nat (length tys)) ty)]) ++ replicate (n - length tys - 1) None)).
  { destruct Hk as [->| ->]; done. }
  rewrite Hsel. eexists. split; [done|]. split; [|done]. unfold loaded. cbn. rewrite length_app. cbn.
  replace (n - (length tys + 1))%nat with (n - length tys - 1)%nat by lia. split_and!; [f_equal; lia|eauto| |].
  - rewrite imap_app. cbn. by rewrite Nat.add_0_r.
  - by rewrite fmap_app.
Qed.

Lemma deleted_loop_spec n tys c k fuel : loaded n tys c -> Forall known tys -> (k <= length tys)%nat -> (length tys - k < fuel)%nat ->
  deleted_loop fuel (Z.of_nat k) (Z.of_nat (length tys)) c = Ok (drop k (imap (fun i ty => tree_of (Z.of_nat i) ty) tys)).
Proof.
  intros (_ & _ & Ht & Hty) Hk. revert k. induction fuel as [|fuel IH]; intros k Hle Hf; [lia|]. cbn [deleted_loop].
  destruct (Z.ltb_spec (Z.of_nat k) (Z.of_nat (length tys))) as [Hlt|Hge].
  - destruct (lookup_lt_is_Some_2 tys k ltac:(lia)) as [ty Hkty]. rewrite Nat2Z.id, Hty.
    rewrite lookup_app_l by (rewrite length_fmap; lia). rewrite list_lookup_fmap, Hkty. unfold mbind, result_bind. cbn [from_opt fmap option_fmap option_map].
    replace (Z.of_nat k + 1) with (Z.of_nat (S k)) by lia. rewrite IH by lia.
    rewrite Ht, lookup_app_l by (rewrite length_imap; lia). rewrite list_lookup_imap, Hkty. cbn [from_opt fmap option_fmap option_map].
    assert (Hok : (ty =? BTREE) || (ty =? EUNO_BTREE) = true).
    { rewrite Forall_forall in Hk. destruct (Hk ty) as [->| ->]; [by eapply list_elem_of_lookup_2|done..]. }
    rewrite Hok. f_equal. symmetry. apply drop_S. by rewrite list_lookup_imap, Hkty.
  - rewrite drop_ge; [done|]. rewrite length_imap. lia.
Qed.

(** Setting up as many tables as were announced works, whatever their types: every
    table is made with its number and type, [AddTable] always returns [-1], and
    the destructor deletes each table once; one table more is out of bounds. *)
Lemma setup_tables n thrs tys : (length tys <= n)%nat -> Forall known tys ->
  exists c, add_tables tys 0 (DBTables_new n thrs) = Ok c /\ loaded n tys c /\
    DBTables_dtor c = Ok (imap (fun i ty => tree_of (Z.of_nat i) ty) tys) /\
    (length tys = n -> forall ty, AddTable (Z.of_nat n) ty NONE c = Fault OutOfBounds) /\
    (forall ty, (length tys < n)%nat -> known ty -> exists c', AddTable (Z.of_nat (length tys)) ty NONE c = Ok (-1, c')).
Proof.
  intros Hn Hk. assert (Hadd : forall tys1 tys2 c, tys = tys1 ++ tys2 -> loaded n tys1 c -> nextindex c = Some 0 ->
    exists c', add_tables tys2 (Z.of_nat (length tys1)) c = Ok c' /\ loaded n tys c' /\ nextindex c' = Some 0).
  { intros tys1 tys2. revert tys1. induction tys2 as [|ty tys2 IH]; intros tys1 c -> Hl Hni.
    - rewrite app_nil_r in *. eauto.
    - rewrite length_app in Hn. cbn in Hn. apply Forall_app in Hk as [_ Hk2]. pose proof Hk2 as [Hty _]%Forall_cons.
      destruct (AddTable_loaded n tys1 ty c Hl ltac:(lia) Hty) as (c1 & H1 & Hl1 & Hni1). cbn [add_tables]. rewrite H1.
      unfold mbind, result_bind. destruct (IH (tys1 ++ [ty]) c1) as (c' & Hc' & Hl' & Hni'); [by rewrite <- app_assoc|done|congruence|].
      exists c'. split; [|done]. rewrite length_app in Hc'. cbn in Hc'. replace (Z.of_nat (length tys1) + 1) with (Z.of_nat (length tys1 + 1)) by lia. done. }
  destruct (Hadd [] tys (DBTables_new n thrs)) as (c & Hc & Hl & Hni); [done| |done|].
  { unfold loaded, DBTables_new. cbn. rewrite Nat.sub_0_r. eauto 10. }
  exists c. split; [done|]. split; [done|]. pose proof Hl as (Hnx & _ & Ht & Hty).
  assert (Hlen : length (types c) = n /\ length (tables c) = n).
  { rewrite Ht, Hty, !length_app, length_imap, length_fmap, !length_replicate. lia. }
  destruct Hlen as [Hlty Hlt]. split; [|split].
  - unfold DBTables_dtor. rewrite Hnx. unfold mbind, result_bind. cbn [from_opt].
    change 0 with (Z.of_nat 0) at 1. by rewrite (deleted_loop_spec n tys c 0) by (done || lia).
  - intros Heq ty. unfold AddTable. rewrite Hnx, Hni. unfold mbind, result_bind. cbn [from_opt].
    assert (Hout : forall A x (l : list A), length l = n -> put (Z.of_nat (length tys)) x l = Fault OutOfBounds).
    { intros A x l Hll. unfold put. rewrite (proj2 (Z.ltb_ge _ _)) by lia. by rewrite andb_false_r. }
    rewrite !Hout by done. by destruct (ty =? BTREE), (ty =? EUNO_BTREE).
  - intros ty Hlt' Hkt. destruct (AddTable_loaded n tys ty c Hl Hlt' Hkt) as (c' & Hc' & _). rewrite Hni in Hc'. eauto.
Qed.

(** ** The statistics of the log *)

(** The totals of a thread ([persist_stats] less the slots [d_], which are the
    [pb_stats] of [Persist]). *)
Record totals := mkTotals { ntxns_persisted_ : Z; latency_numer_ : Z }.

(** The loop over the epochs that have become safe; [ss] is an [int]. *)
Fixpoint info_loop (fuel : nat) (ss curSafe now_us : Z) (d : gmap Z per_epoch_stats) (t : totals) :
    result (gmap Z per_epoch_stats * totals) :=
  match fuel with
  | O => Fault OutOfFuel
  | S fuel =>
      if u64 ss <=? curSafe then
        let i := Z.rem ss g_max_lag_epochs in
        let pes := default (mkStats 0 0) (d !! i) in
        let t := mkTotals (u64 (ntxns_persisted_ t + pe_ntxns pes))
                   (u64 (latency_numer_ t + u64 (u64 (now_us - pe_earliest pes) * pe_ntxns pes))) in
        let d := <[i := mkStats 0 0]> d in
        if ss =? 2 ^ 31 - 1 then Fault Undefined else info_loop fuel (ss + 1) curSafe now_us d t
      else Ok (d, t)
  end.

Fixpoint info_threads (curSafe last now_us : Z) (ds : list (gmap Z per_epoch_stats)) (ts : list totals) :
    result (list (gmap Z per_epoch_stats) * list totals) :=
  match ds, ts with
  | d :: ds, t :: ts =>
      '(d, t) ← info_loop (S (Z.to_nat (curSafe - last))) (s32 (last + 1)) curSafe now_us d t;
      '(ds, ts) ← info_threads curSafe last now_us ds ts;
      Ok (d :: ds, t :: ts)
  | _, _ => Ok ([], [])
  end.

(** A round of [PersistentInfoThread]: the log, the totals and [last_safe_sn]
    afterwards. *)
Definition PersistentInfo (now_us : Z) (ts : list totals) (last_safe_sn : Z) (p : PBuf) : result (PBuf * list totals * Z) :=
  '(curSafe, p) ← GetSafeSN p;
  '(ds, ts) ← info_threads curSafe last_safe_sn now_us (pb_stats p) ts;
  Ok (mkPBuf (pb_lbuf p) (pb_tbufs p) (pb_heap p) (pb_brk p) ds (pb_safe_sn p), ts, curSafe).

(** The transactions that are counted in the slots of epochs. *)
Definition slot (d : gmap Z per_epoch_stats) (i : Z) : Z := pe_ntxns (default (mkStats 0 0) (d !! i)).

Definition pending (d : gmap Z per_epoch_stats) : Z := foldr Z.add 0 (slot d <$> seqZ 0 g_max_lag_epochs).

Lemma sum_update (f g : Z -> Z) i l : NoDup l -> i ∈ l -> (forall j, j <> i -> g j = f j) ->
  foldr Z.add 0 (g <$> l) = foldr Z.add 0 (f <$> l) + g i - f i.
Proof.
  intros Hnd Hi Hg. induction Hnd as [|j l Hj _ IH]; [by apply not_elem_of_nil in Hi|]. cbn.
  apply elem_of_cons in Hi as [<-|Hi].
  - assert (E : g <$> l = f <$> l) by (apply list_fmap_ext; intros k x Hx; apply Hg; intros ->; apply Hj; by eapply list_elem_of_lookup_2).
    change (list_fmap Z Z g l) with (g <$> l). change (list_fmap Z Z f l) with (f <$> l). rewrite E. lia.
  - change (list_fmap Z Z g l) with (g <$> l). change (list_fmap Z Z f l) with (f <$> l). rewrite IH by done.
    rewrite (Hg j); [lia|]. by intros ->.
Qed.

Lemma pending_clear d i : 0 <= i < g_max_lag_epochs -> pending (<[i := mkStats 0 0]> d) = pending d - slot d i.
Proof.
  intros Hi. unfold pending. rewrite (sum_update (slot d) (slot (<[i := mkStats 0 0]> d)) i).
  - assert (E : slot (<[i := mkStats 0 0]> d) i = 0) by (unfold slot; by rewrite lookup_insert_eq). lia.
  - apply NoDup_seqZ.
  - apply elem_of_seqZ. lia.
  - intros j Hj. unfold slot. by rewrite lookup_insert_ne by done.
Qed.

(** The loop counts every transaction once: what leaves the slots is added to the
    total, and the slots of the epochs that became safe are empty. *)
Lemma info_loop_spec fuel ss cur now d t :
  0 <= ss < 2 ^ 31 -> cur < 2 ^ 31 - 1 -> (Z.to_nat (cur + 1 - ss) < fuel)%nat ->
  exists d' t', info_loop fuel ss cur now d t = Ok (d', t') /\
    u64 (ntxns_persisted_ t' + pending d') = u64 (ntxns_persisted_ t + pending d) /\
    (forall i, ss <= i <= cur \/ slot d (i mod g_max_lag_epochs) = 0 -> slot d' (i mod g_max_lag_epochs) = 0).
Proof.
  revert ss d t. induction fuel as [|fuel IH]; intros ss d t Hss Hcur Hf; [lia|]. cbn [info_loop]. rewrite u64_small by lia.
  destruct (Z.leb_spec ss cur) as [Hle|Hgt]; [|exists d, t; split_and!; [done..|]; intros i [?|?]; [lia|done]].
  rewrite (proj2 (Z.eqb_neq _ _)) by lia. rewrite Z.rem_mod_nonneg by (unfold g_max_lag_epochs; lia).
  set (j := ss mod g_max_lag_epochs). assert (Hj : 0 <= j < g_max_lag_epochs) by (by apply Z.mod_pos_bound).
  set (t1 := mkTotals _ _). set (d1 := <[j := mkStats 0 0]> d).
  destruct (IH (ss + 1) d1 t1 ltac:(lia) Hcur ltac:(lia)) as (d' & t' & He & Hsum & Hslot). exists d', t'. split; [done|]. split.
  - rewrite Hsum. unfold t1, d1. cbn [ntxns_persisted_]. rewrite pending_clear by done. fold (slot d j).
    unfold u64. rewrite Z.add_mod_idemp_l by done. f_equal. lia.
  - intros i Hi. apply Hslot. destruct (decide (i mod g_max_lag_epochs = j)) as [E|Hne].
    + right. rewrite E. unfold slot, d1. by rewrite lookup_insert_eq.
    + destruct Hi as [Hi|Hi]; [left; assert (i <> ss) by (by intros ->); lia|right].
      unfold slot, d1. by rewrite lookup_insert_ne.
Qed.

(** A round of [PersistentInfoThread] for epochs that fit an [int]: it returns,
    every thread keeps the sum of its persisted and pending transactions, and no
    transaction of an epoch that became safe is pending. *)
Lemma info_threads_spec cur last now ds ts :
  0 <= last -> last + 1 < 2 ^ 31 -> cur < 2 ^ 31 - 1 -> length ds = length ts ->
  exists ds' ts', info_threads cur last now ds ts = Ok (ds', ts') /\
    Forall2 (fun x y => u64 (ntxns_persisted_ y.2 + pending y.1) = u64 (ntxns_persisted_ x.2 + pending x.1) /\
      forall i, last < i <= cur -> slot y.1 (i mod g_max_lag_epochs) = 0) (zip ds ts) (zip ds' ts').
Proof.
  intros Hl Hl1 Hc. revert ts. induction ds as [|d ds IH]; intros [|t ts] Hlen; try done; cbn [info_threads].
  - exists [], []. split; [done|constructor].
  - rewrite s32_small by lia.
    destruct (info_loop_spec (S (Z.to_nat (cur - last))) (last + 1) cur now d t ltac:(lia) Hc ltac:(lia)) as (d' & t' & -> & Hs & Hz).
    injection Hlen as Hlen. destruct (IH ts Hlen) as (ds' & ts' & -> & Hf). unfold mbind, result_bind.
    exists (d' :: ds'), (t' :: ts'). split; [done|]. cbn. constructor; [|done]. split; [done|]. intros i Hi. apply Hz. left. lia.
Qed.
