(* ===== verification/EpochGC.v ===== *)
(** * Epoch-based garbage collection

    db/epoch.h, db/epoch.cc, db/gcqueue.h, db/gcqueue.cc, db/nodebuf.h,
    db/nodebuf.cc, db/rmqueue.h and db/rmqueue.cc: epochs are vectors of
    per-thread counters, and objects wait in ring buffers until every thread
    has moved past the epoch they were retired in. *)

From S2P Require Import Prelude RCU MemStore OBJPool TxSets DBTables.

(** ** Epochs *)

(** One counter per thread, with the masks of db/rcu.h. *)
Abbreviation Epoch := (list Z) (only parsing).

Definition Epoch_new (thrs : nat) : Epoch := replicate thrs (Z.lor ENDMASK 0).

Definition getCurrentEpoch (e : Epoch) : Epoch := (fun c => Z.land c BEGMASK) <$> e.

Definition beginTX (tid : nat) (e : Epoch) : result Epoch :=
  c ← from_opt OutOfBounds (e !! tid);
  Ok (<[tid := Z.land (u64 (c + 1)) BEGMASK]> e).

Definition endTX (tid : nat) (e : Epoch) : result Epoch :=
  c ← from_opt OutOfBounds (e !! tid);
  Ok (<[tid := Z.lor c ENDMASK]> e).

(** The loop of [Compare]: [None] is the early [return 0]. *)
Fixpoint Compare_loop (l e : Epoch) (res : Z) : result (option Z) :=
  match l with
  | [] => Ok (Some res)
  | c :: l =>
      match e with
      | [] => Fault OutOfBounds
      | d :: e =>
          if c =? d then Ok None
          else if c <? d then Compare_loop l e (res + 1)
          else Compare_loop l e res
      end
  end.

(** Without assertions the function ends without a value when some counters
    are smaller and some larger. *)
Definition Compare (self e : Epoch) : result Z :=
  r ← Compare_loop self e 0;
  match r with
  | None => Ok 0
  | Some res =>
      if res =? Z.of_nat (length self) then Ok (-1)
      else if res =? 0 then Ok 1
      else Fault Undefined
  end.

(** ** Ring buffers *)

Record Ring (A : Type) := mkRing {
  rg_qsize : Z;
  rg_head : Z;
  rg_tail : Z;
  rg_queue : list (option A);
  rg_elems : Z
}.
Arguments mkRing {A}.
Arguments rg_qsize {A}.
Arguments rg_head {A}.
Arguments rg_tail {A}.
Arguments rg_queue {A}.
Arguments rg_elems {A}.

Definition Ring_new (A : Type) : Ring A := mkRing 1024 0 0 (replicate 1024 None) 0.

(** Array accesses, by a C [int]. *)
Definition array_get {A} (l : list (option A)) (i : Z) : result A :=
  if i <? 0 then Fault OutOfBounds
  else match l !! Z.to_nat i with
       | Some (Some x) => Ok x
       | Some None => Fault Undefined
       | None => Fault OutOfBounds
       end.

Definition array_set {A} (l : list (option A)) (i : Z) (x : A) : result (list (option A)) :=
  if (i <? 0) || (Z.of_nat (length l) <=? i) then Fault OutOfBounds
  else Ok (<[Z.to_nat i := Some x]> l).

(** What [GCQueue::AddGCElement] and [RMQueue::AddRMArray] do: the slot is
    written before the test for overflow, which ends the process. *)
Definition Ring_add {A} (x : A) (r : Ring A) : result (Ring A) :=
  q ← array_set (rg_queue r) (rg_tail r) x;
  if Z.rem (rg_tail r + 1) (rg_qsize r) =? rg_head r then Fault ExitCall
  else Ok (mkRing (rg_qsize r) (rg_head r) (Z.rem (rg_tail r + 1) (rg_qsize r)) q (rg_elems r + 1)).

Definition Ring_pop {A} (r : Ring A) : Ring A :=
  mkRing (rg_qsize r) (Z.rem (rg_head r + 1) (rg_qsize r)) (rg_tail r) (rg_queue r) (rg_elems r - 1).

(** ** GCQueue *)

Record GCElement := mkGCElement {
  gc_epoch : list Z;
  gc_array : list addr;
  gc_len : Z
}.

Abbreviation GCQueue := (Ring GCElement) (only parsing).

Definition GCQueue_new : GCQueue := Ring_new GCElement.

Definition AddGCElement (e : Epoch) (arr : list addr) (len : Z) (q : GCQueue) : result GCQueue :=
  Ring_add (mkGCElement e arr len) q.

(** The loops of the two [GC]s end when the head's epoch is not over; at most
    the elements of the queue are taken out.  [current] is the null pointer
    until [DBTables::InitEpoch] has been called. *)
Definition epoch_over (current : option Epoch) (e : Epoch) : result bool :=
  cur ← from_opt NullDeref current;
  c ← Compare e cur;
  Ok (c <? 0).

Fixpoint GC_free (fuel : nat) (current : option Epoch) (q : GCQueue) : result GCQueue :=
  match fuel with
  | O => Fault OutOfFuel
  | S fuel =>
      if rg_head q =? rg_tail q then Ok q
      else
        x ← array_get (rg_queue q) (rg_head q);
        over ← epoch_over current (gc_epoch x);
        if (over : bool) then GC_free fuel current (Ring_pop q) else Ok q
  end.

(** ** NodeBuf *)

Record NodeBuf := mkNodeBuf {
  nb_qsize : Z;
  nb_head : Z;
  nb_tail : Z;
  nb_buffer : list (option GCElement);
  nb_elems : Z
}.

Definition NodeBuf_new : NodeBuf := mkNodeBuf 1024 0 0 (replicate 1024 None) 0.

(** A full buffer frees the element instead. *)
Definition NodeBuf_AddGCElement (gce : GCElement) (b : NodeBuf) : result NodeBuf :=
  if Z.rem (nb_tail b + 1) (nb_qsize b) =? nb_head b then
    Ok (mkNodeBuf (nb_qsize b) (nb_head b) (nb_tail b) (nb_buffer b) (nb_elems b + 1))
  else
    q ← array_set (nb_buffer b) (nb_tail b) gce;
    Ok (mkNodeBuf (nb_qsize b) (nb_head b) (Z.rem (nb_tail b + 1) (nb_qsize b)) q (nb_elems b + 1)).

Fixpoint GC_nodes (fuel : nat) (current : option Epoch) (q : GCQueue) (b : NodeBuf) :
    result (GCQueue * NodeBuf) :=
  match fuel with
  | O => Fault OutOfFuel
  | S fuel =>
      if rg_head q =? rg_tail q then Ok (q, b)
      else
        x ← array_get (rg_queue q) (rg_head q);
        over ← epoch_over current (gc_epoch x);
        if (over : bool) then
          b ← NodeBuf_AddGCElement x b;
          GC_nodes fuel current (Ring_pop q) b
        else Ok (q, b)
  end.

Definition GCQueue_GC (current : option Epoch) (q : GCQueue) : result GCQueue :=
  GC_free (S (Z.to_nat (rg_qsize q))) current q.

Definition GCQueue_GC_buf (current : option Epoch) (q : GCQueue) (b : NodeBuf) :
    result (GCQueue * NodeBuf) :=
  GC_nodes (S (Z.to_nat (rg_qsize q))) current q b.

(** [NodeBuf::GetMemNode] takes from the newest element; [(tail - 1) % qsize]
    is C's remainder.  [None]: the buffer is empty and the caller allocates a
    new record ([Memstore::GetMemNode]). *)
Definition NodeBuf_GetMemNode (b : NodeBuf) : result (option addr * NodeBuf) :=
  if nb_head b =? nb_tail b then Ok (None, b)
  else
    let last := Z.rem (nb_tail b - 1) (nb_qsize b) in
    gce ← array_get (nb_buffer b) last;
    res ← array_get (Some <$> gc_array gce) (gc_len gce - 1);
    let len := gc_len gce - 1 in
    q ← array_set (nb_buffer b) last (mkGCElement (gc_epoch gce) (gc_array gce) len);
    Ok (Some res, mkNodeBuf (nb_qsize b) (nb_head b) (if len =? 0 then last else nb_tail b) q (nb_elems b)).

(** ** RMQueue *)

Record RMArray := mkRMArray { ra_epoch : list Z; ra_array : list RMObj; ra_len : Z }.

Abbreviation RMQueue := (Ring RMArray) (only parsing).

Definition RMQueue_new : RMQueue := Ring_new RMArray.

Definition AddRMArray (e : Epoch) (arr : list RMObj) (len : Z) (q : RMQueue) : result RMQueue :=
  Ring_add (mkRMArray e arr len) q.

Section RMQueue.
Context {St : Type} `{Memstore St}.
Implicit Types (db : DB St).

(** The RTM region for one record: the deleted and the removed mark are the
    literals 1 and 2 here. *)
Definition RMQueue_Remove_one (mn : RMObj) db : result (DB St) :=
  n ← node_at (db_nodes db) (rm_node mn);
  if (mn_value n =? 1) && (mn_seq n =? rm_seq mn) then
    let db := set_nodes (<[rm_node mn := set_value 2 n]> (db_nodes db)) db in
    '(a, db) ← GetWithDelete (rm_tableid mn) (rm_key mn) db;
    n' ← node_at (db_nodes db) a;
    Ok (set_nodes (<[a := set_seq (u64 (mn_seq n' + 1)) n']> (db_nodes db)) db)
  else Ok db.

Fixpoint RMQueue_Remove_array (l : list RMObj) db : result (DB St) :=
  match l with
  | [] => Ok db
  | mn :: l => db ← RMQueue_Remove_one mn db; RMQueue_Remove_array l db
  end.

Fixpoint RMQueue_Remove_loop (fuel : nat) (current : option Epoch) (q : RMQueue) db :
    result (RMQueue * DB St) :=
  match fuel with
  | O => Fault OutOfFuel
  | S fuel =>
      if rg_head q =? rg_tail q then Ok (q, db)
      else
        x ← array_get (rg_queue q) (rg_head q);
        over ← epoch_over current (ra_epoch x);
        if (over : bool) then
          db ← RMQueue_Remove_array (take (Z.to_nat (ra_len x)) (ra_array x)) db;
          RMQueue_Remove_loop fuel current (Ring_pop q) db
        else Ok (q, db)
  end.

Definition RMQueue_Remove (current : option Epoch) (q : RMQueue) db : result (RMQueue * DB St) :=
  RMQueue_Remove_loop (S (Z.to_nat (rg_qsize q))) current q db.

End RMQueue.

(** ** The calls of DBTables

    [DBTables::epoch] is the null pointer until [InitEpoch]; the queues belong
    to the calling thread. *)

Definition EpochTXBegin (tid : nat) (epoch : option Epoch) : result (option Epoch) :=
  e ← from_opt NullDeref epoch; e ← beginTX tid e; Ok (Some e).

Definition EpochTXEnd (tid : nat) (epoch : option Epoch) : result (option Epoch) :=
  e ← from_opt NullDeref epoch; e ← endTX tid e; Ok (Some e).

Definition AddDeletedValues (epoch : option Epoch) (values : list addr) (len : Z) (q : GCQueue) :
    result GCQueue :=
  e ← from_opt NullDeref epoch; AddGCElement (getCurrentEpoch e) values len q.

Definition GCDeletedValues (epoch : option Epoch) (q : GCQueue) : result GCQueue :=
  GCQueue_GC epoch q.

Definition AddDeletedNodes (epoch : option Epoch) (nodes : list addr) (len : Z) (q : GCQueue) :
    result GCQueue :=
  e ← from_opt NullDeref epoch; AddGCElement (getCurrentEpoch e) nodes len q.

Definition GCDeletedNodes (epoch : option Epoch) (q : GCQueue) (b : NodeBuf) :
    result (GCQueue * NodeBuf) :=
  GCQueue_GC_buf epoch q b.

Definition AddRemoveNodes (epoch : option Epoch) (nodes : list RMObj) (len : Z) (q : RMQueue) :
    result RMQueue :=
  e ← from_opt NullDeref epoch; AddRMArray (getCurrentEpoch e) nodes len q.

Definition RemoveNodes {St} `{Memstore St} (epoch : option Epoch) (q : RMQueue) (db : DB St) :
    result (RMQueue * DB St) :=
  RMQueue_Remove epoch q db.

(** ** Epochs in a run

    Threads begin and end transactions; the last component records which
    threads called [endTX].  A counter has 63 bits for the transactions. *)

Inductive ep_step : list Z * gset nat -> list Z * gset nat -> Prop :=
  | ep_begin j c e e' ended :
      e !! j = Some c -> in_tx c = false -> Z.land c BEGMASK < 2 ^ 63 - 1 ->
      beginTX j e = Ok e' -> ep_step (e, ended) (e', ended)
  | ep_end j c e e' ended :
      e !! j = Some c -> in_tx c = true -> endTX j e = Ok e' ->
      ep_step (e, ended) (e', {[j]} ∪ ended).

Lemma land_BEGMASK_le c : 0 <= c -> Z.land c BEGMASK <= c.
Proof. intros Hc. rewrite land_BEGMASK. apply Z.mod_le; lia. Qed.

Lemma beginTX_count c :
  0 <= c < 2 ^ 64 -> Z.land c BEGMASK < 2 ^ 63 - 1 ->
  Z.land (u64 (c + 1)) BEGMASK = Z.land c BEGMASK + 1.
Proof.
  intros Hc Hn. rewrite !land_BEGMASK in *. unfold u64, u64_modulus.
  rewrite (Z.div_mod c (2 ^ 63)) at 1 by lia.
  assert (0 <= c mod 2 ^ 63) by (apply Z.mod_pos_bound; lia).
  assert (0 <= c / 2 ^ 63 < 2) as Hq.
  { split; [apply Z.div_pos; lia|]. apply Z.div_lt_upper_bound; lia. }
  rewrite (Z.mod_small (2 ^ 63 * _ + _ + 1)) by nia.
  replace (2 ^ 63 * (c / 2 ^ 63) + c mod 2 ^ 63 + 1) with (c mod 2 ^ 63 + 1 + c / 2 ^ 63 * 2 ^ 63) by lia.
  rewrite Z.mod_add, Z.mod_small by lia. done.
Qed.

Lemma idle_ge c : 0 <= c < 2 ^ 64 -> in_tx c = false -> 2 ^ 63 <= c.
Proof. intros Hc Hi. destruct (decide (c < 2 ^ 63)) as [Hlt|]; [|lia]. apply in_tx_small in Hlt; [congruence|lia]. Qed.

Lemma endTX_range c : 0 <= c < 2 ^ 64 -> 0 <= Z.lor c ENDMASK < 2 ^ 64.
Proof.
  intros Hc. assert (0 <= Z.lor c ENDMASK) by (apply Z.lor_nonneg; split; [lia|done]).
  split; [done|]. destruct (decide (Z.lor c ENDMASK = 0)) as [->|]; [lia|].
  apply Z.log2_lt_pow2; [lia|]. rewrite Z.log2_lor by (done || lia).
  apply Z.max_lub_lt; [|done]. destruct (decide (c = 0)) as [->|]; [done|]. apply Z.log2_lt_pow2; lia.
Qed.

Lemma endTX_count c : Z.land (Z.lor c ENDMASK) BEGMASK = Z.land c BEGMASK.
Proof. rewrite Z.land_lor_distr_l. replace (Z.land ENDMASK BEGMASK) with 0 by done. apply Z.lor_0_r. Qed.

Lemma land_BEGMASK_idemp c : Z.land (Z.land c BEGMASK) BEGMASK = Z.land c BEGMASK.
Proof. by rewrite <- Z.land_assoc, Z.land_diag. Qed.

Lemma land_BEGMASK_range c : 0 <= Z.land c BEGMASK < 2 ^ 63.
Proof. rewrite land_BEGMASK. apply Z.mod_pos_bound. lia. Qed.

Section epochs.
Context (e0 : list Z) (Hrange : Forall (fun c => 0 <= c < 2 ^ 64) e0).

(** The number of a thread's transactions only grows, and its counter stays as
    it was until the thread ends the transaction it was in. *)
Definition ep_inv (s : list Z * gset nat) : Prop :=
  length s.1 = length e0 /\
  forall j c0 c, e0 !! j = Some c0 -> s.1 !! j = Some c ->
    0 <= c < 2 ^ 64 /\ Z.land c0 BEGMASK <= Z.land c BEGMASK /\
    (j ∉ s.2 -> in_tx c0 = true -> c = c0).

Lemma ep_inv_init : ep_inv (e0, ∅).
Proof.
  split; [done|]. simpl. intros j c0 c H0 H1. simplify_eq.
  pose proof (Forall_lookup_1 _ _ _ _ Hrange H0) as Hr. simpl in Hr. split_and!; lia || done.
Qed.

Lemma ep_inv_step s s' : ep_step s s' -> ep_inv s -> ep_inv s'.
Proof.
  destruct 1 as [j c e e' ended Hj Hidle Hmax Hop|j c e e' ended Hj Hbusy Hop];
    intros [Hlen Hinv]; unfold beginTX, endTX in Hop; rewrite Hj in Hop; injection Hop as <-;
    (split; [simpl; by rewrite length_insert|]); simpl in *;
    intros i c0 ci H0 [(<- & <- & _)|[Hne Hi]]%list_lookup_insert_Some.
  - destruct (Hinv j c0 c H0 Hj) as (Hc & Hle & Hsame).
    pose proof (land_BEGMASK_range (u64 (c + 1))).
    rewrite land_BEGMASK_idemp. rewrite beginTX_count in * by done.
    split_and!; try lia. intros Hn Ht. rewrite (Hsame Hn Ht) in Hidle. congruence.
  - by apply (Hinv i).
  - destruct (Hinv j c0 c H0 Hj) as (Hc & Hle & Hsame). rewrite endTX_count.
    split; [by apply endTX_range|]. split; [done|]. set_solver.
  - destruct (Hinv i c0 ci H0 Hi) as (? & ? & Hs). do 2 (split; [done|]). intros Hn. apply Hs. set_solver.
Qed.

Lemma ep_inv_reach s : rtc ep_step (e0, ∅) s -> ep_inv s.
Proof.
  intros H. apply (rtc_ind_r ep_inv _ ep_inv_init) in H; [done|].
  intros s1 s2 _ Hs Hi. by eapply ep_inv_step.
Qed.

End epochs.

(** ** Comparing epochs *)

Lemma Compare_loop_le l e res :
  Forall2 Z.le l e ->
  if decide (Forall2 Z.lt l e) then Compare_loop l e res = Ok (Some (res + Z.of_nat (length l)))
  else Compare_loop l e res = Ok None.
Proof.
  intros Hle. revert res. induction Hle as [|c d l e Hcd Hle IH]; intros res.
  - rewrite decide_True by constructor. simpl. by rewrite Z.add_0_r.
  - cbn [Compare_loop]. destruct (Z.eqb_spec c d) as [->|Hne].
    + rewrite decide_False; [done|]. inversion 1. lia.
    + replace (c <? d) with true by lia. specialize (IH (res + 1)). case_decide as E.
      * rewrite decide_True by (constructor; [lia|done]). rewrite IH. do 2 f_equal. simpl. lia.
      * rewrite decide_False by (inversion 1; done). done.
Qed.

(** An older epoch is either over or not, never incomparable. *)
Lemma Compare_le l e :
  l <> [] -> Forall2 Z.le l e ->
  Compare l e = Ok (if decide (Forall2 Z.lt l e) then -1 else 0).
Proof.
  intros Hl Hle. unfold Compare. pose proof (Compare_loop_le l e 0 Hle) as Hc.
  case_decide; rewrite Hc; unfold mbind, result_bind; [|done]. by rewrite Z.eqb_refl.
Qed.

Lemma epoch_older e0 e1 ended :
  Forall (fun c => 0 <= c < 2 ^ 64) e0 -> rtc ep_step (e0, ∅) (e1, ended) ->
  Forall2 Z.le (getCurrentEpoch e0) e1.
Proof.
  intros Hr Hs. destruct (ep_inv_reach e0 Hr _ Hs) as [Hlen Hinv]. simpl in *.
  apply Forall2_same_length_lookup. unfold getCurrentEpoch. rewrite length_fmap. split; [done|].
  intros j x c Hx Hc. apply list_lookup_fmap_Some in Hx as (c0 & -> & H0).
  destruct (Hinv j c0 c H0 Hc) as (? & ? & _). etrans; [done|]. apply land_BEGMASK_le. lia.
Qed.

(** C36: [Epoch::Compare] of the epoch in which an object was retired with the
    current one is always defined, and when it says the epoch is over, every
    thread that was inside a transaction at that time has ended it since. *)
Theorem epoch_over_sound e0 e1 ended :
  Forall (fun c => 0 <= c < 2 ^ 64) e0 -> e0 <> [] -> rtc ep_step (e0, ∅) (e1, ended) ->
  Compare (getCurrentEpoch e0) e1 = Ok 0 \/
  Compare (getCurrentEpoch e0) e1 = Ok (-1) /\
    forall j c, e0 !! j = Some c -> in_tx c = true -> j ∈ ended.
Proof.
  intros Hr Hne Hs. rewrite Compare_le by (eauto using epoch_older; by destruct e0).
  case_decide as Hlt; [right|by left]. split; [done|]. intros j c Hj Ht.
  destruct (decide (j ∈ ended)) as [|Hn]; [done|exfalso].
  destruct (ep_inv_reach e0 Hr _ Hs) as [Hlen Hinv]. simpl in *.
  destruct (lookup_lt_is_Some_2 e1 j) as [c1 Hc1]; [apply lookup_lt_Some in Hj; lia|].
  destruct (Hinv j c c1 Hj Hc1) as (_ & _ & Hsame). specialize (Hsame Hn Ht). subst c1.
  assert (getCurrentEpoch e0 !! j = Some (Z.land c BEGMASK)) as Hcp
    by (unfold getCurrentEpoch; by rewrite list_lookup_fmap, Hj).
  pose proof (Forall2_lookup_lr _ _ _ _ _ _ Hlt Hcp Hc1) as Hcc. clear Hlt. rename Hcc into Hlt.
  rewrite in_tx_land in Hlt; [lia| |done]. exact (Forall_lookup_1 _ _ _ _ Hr Hj).
Qed.

(** ** Queues *)

Section rings.
Context {A : Type}.
Implicit Types (r : Ring A) (l : list A).

(** [ring_rep r l]: the ring holds [l], oldest first. *)
Record ring_rep r l : Prop := {
  rr_size : 1 < rg_qsize r;
  rr_len : Z.of_nat (length (rg_queue r)) = rg_qsize r;
  rr_head : 0 <= rg_head r < rg_qsize r;
  rr_tail : rg_tail r = (rg_head r + Z.of_nat (length l)) mod rg_qsize r;
  rr_room : Z.of_nat (length l) < rg_qsize r;
  rr_elems : rg_elems r = Z.of_nat (length l);
  rr_get i x : l !! i = Some x ->
    rg_queue r !! Z.to_nat ((rg_head r + Z.of_nat i) mod rg_qsize r) = Some (Some x)
}.

Lemma ring_empty r l : ring_rep r l -> (rg_head r =? rg_tail r) = true <-> l = [].
Proof.
  intros []. rewrite Z.eqb_eq, rr_tail0. split.
  - intros E. destruct l as [|x l]; [done|exfalso]. rewrite length_cons in *.
    destruct (decide (rg_head r + Z.of_nat (S (length l)) < rg_qsize r)).
    + rewrite Z.mod_small in E by lia. lia.
    + replace (rg_head r + Z.of_nat (S (length l)))
        with (rg_head r + Z.of_nat (S (length l)) - rg_qsize r + 1 * rg_qsize r) in E by lia.
      rewrite Z.mod_add, Z.mod_small in E by lia. lia.
  - intros ->. simpl. by rewrite Z.add_0_r, Z.mod_small.
Qed.

Lemma ring_pop r x l : ring_rep r (x :: l) ->
  array_get (rg_queue r) (rg_head r) = Ok x /\ ring_rep (Ring_pop r) l.
Proof.
  intros []. split.
  - specialize (rr_get0 0%nat x eq_refl). rewrite Z.add_0_r, Z.mod_small in rr_get0 by lia.
    unfold array_get. replace (rg_head r <? 0) with false by lia. by rewrite rr_get0.
  - split; simpl in *; rewrite ?Z.rem_mod_nonneg by lia; try done; try lia.
    + apply Z.mod_pos_bound. lia.
    + rewrite rr_tail0, Zplus_mod_idemp_l. f_equal. lia.
    + intros i y Hy. rewrite Zplus_mod_idemp_l, <- (rr_get0 (S i) y Hy). do 3 f_equal. lia.
Qed.

Lemma mod_index h i j n :
  0 <= i < n -> 0 <= j < n -> (h + i) mod n = (h + j) mod n -> i = j.
Proof.
  intros Hi Hj E. assert (((h + i) - (h + j)) mod n = 0) as E'.
  { rewrite Zminus_mod, E, Z.sub_diag. apply Z.mod_0_l. lia. }
  replace (h + i - (h + j)) with (i - j) in E' by lia.
  apply Z.mod_divide in E' as [q Hq]; [|lia].
  assert (-1 < q < 1) by nia. nia.
Qed.

(** Adding appends, or ends the process when one slot is left. *)
Lemma ring_add r l x :
  ring_rep r l ->
  if decide (Z.of_nat (length l) = rg_qsize r - 1) then Ring_add x r = Fault ExitCall
  else exists r', Ring_add x r = Ok r' /\ ring_rep r' (l ++ [x]) /\ rg_qsize r' = rg_qsize r.
Proof.
  intros Hr. pose proof Hr as [Hs Hl Hh Ht Hroom He Hg]. unfold Ring_add, array_set.
  assert (0 <= rg_tail r < rg_qsize r) as Htr by (rewrite Ht; apply Z.mod_pos_bound; lia).
  replace ((rg_tail r <? 0) || (Z.of_nat (length (rg_queue r)) <=? rg_tail r)) with false by lia.
  unfold mbind, result_bind. rewrite Z.rem_mod_nonneg by lia.
  assert ((rg_tail r + 1) mod rg_qsize r = (rg_head r + Z.of_nat (S (length l))) mod rg_qsize r) as Hn.
  { rewrite Ht, Zplus_mod_idemp_l. f_equal. lia. }
  rewrite Hn. case_decide as E.
  - replace (rg_head r + Z.of_nat (S (length l))) with (rg_head r + 1 * rg_qsize r) by lia.
    by rewrite Z.mod_add, Z.mod_small, Z.eqb_refl by lia.
  - destruct (Z.eqb_spec ((rg_head r + Z.of_nat (S (length l))) mod rg_qsize r) (rg_head r)) as [E'|_].
    { exfalso. assert (Z.of_nat (S (length l)) = 0); [|lia]. apply (mod_index (rg_head r) _ _ (rg_qsize r)); [lia..|].
      by rewrite E', Z.add_0_r, Z.mod_small. }
    eexists. split; [done|]. split; [|done]. split; simpl; rewrite ?length_insert, ?length_app; simpl; try lia.
    intros i y [Hy|[Hy Hlen]]%lookup_app_Some.
    + rewrite list_lookup_insert_ne; [by apply Hg|]. apply lookup_lt_Some in Hy as Hlt.
      rewrite Ht. intros E'. apply Z2Nat.inj in E'; [|apply Z.mod_pos_bound; lia..].
      apply mod_index in E'; lia.
    + apply list_lookup_singleton_Some in Hlen as [Hi <-]. replace i with (length l) by lia.
      rewrite <- Ht. apply list_lookup_insert_eq. lia.
Qed.

End rings.

(** ** Collection *)

(** What is left of a queue when the leading elements that are over go. *)
Fixpoint waiting {A} (over : A -> bool) (l : list A) : list A :=
  match l with
  | [] => []
  | x :: l' => if over x then waiting over l' else l
  end.

Fixpoint leaving {A} (over : A -> bool) (l : list A) : list A :=
  match l with
  | [] => []
  | x :: l' => if over x then x :: leaving over l' else []
  end.

Lemma GC_free_spec over cur : forall l fuel q,
  ring_rep q l -> (forall x, x ∈ l -> epoch_over (Some cur) (gc_epoch x) = Ok (over x)) ->
  (length l < fuel)%nat ->
  exists q', GC_free fuel (Some cur) q = Ok q' /\ ring_rep q' (waiting over l).
Proof.
  induction l as [|x l IH]; intros fuel q Hq Hov Hf; destruct fuel as [|fuel]; simpl in Hf; try lia;
    cbn [GC_free].
  - rewrite (proj2 (ring_empty _ _ Hq)) by done. eauto.
  - destruct (rg_head q =? rg_tail q) eqn:E; [by apply (ring_empty _ _ Hq) in E|].
    destruct (ring_pop _ _ _ Hq) as [Hx Hpop]. rewrite Hx. unfold mbind, result_bind.
    rewrite (Hov x) by set_solver. simpl. destruct (over x); [|eauto].
    apply IH; [done|set_solver|lia].
Qed.

(** The epoch queue is first in, first out.  [GCQueue::AddGCElement] appends
    the element, and ends the process when 1023 elements wait already;
    [GCQueue::GC] ends and frees exactly the elements at the front of the queue
    whose epoch is over: the first one that is not stops it. *)
Lemma gcqueue_fifo q l :
  ring_rep q l ->
  (forall e arr len,
     if decide (Z.of_nat (length l) = rg_qsize q - 1) then AddGCElement e arr len q = Fault ExitCall
     else exists q', AddGCElement e arr len q = Ok q' /\ ring_rep q' (l ++ [mkGCElement e arr len])) /\
  (forall cur over, (forall x, x ∈ l -> epoch_over (Some cur) (gc_epoch x) = Ok (over x)) ->
     exists q', GCQueue_GC (Some cur) q = Ok q' /\ ring_rep q' (waiting over l) /\
       l = leaving over l ++ waiting over l /\ Forall (fun x => over x = true) (leaving over l)).
Proof.
  intros Hq. split.
  - intros e arr len. pose proof (ring_add q l (mkGCElement e arr len) Hq) as Ha.
    case_decide; [done|]. destruct Ha as (q' & ? & ? & _). eauto.
  - intros cur over Hov. destruct (GC_free_spec over cur l (S (Z.to_nat (rg_qsize q))) q Hq Hov) as (q' & ? & ?).
    { destruct Hq. lia. }
    exists q'. split_and!; [done..| |]; clear; induction l as [|x l IH]; simpl; try done; destruct (over x) eqn:E; simpl; try done.
    + by f_equal.
    + by constructor.
Qed.

(** ** The node buffer *)

Definition elem_nodes (x : GCElement) : list addr := take (Z.to_nat (gc_len x)) (gc_array x).

Definition elem_ok (x : GCElement) : Prop := 1 <= gc_len x <= Z.of_nat (length (gc_array x)).

(** The buffer is a stack: its head never moves. *)
Record nb_rep (b : NodeBuf) (ls : list GCElement) : Prop := {
  nr_size : 1 < nb_qsize b;
  nr_len : Z.of_nat (length (nb_buffer b)) = nb_qsize b;
  nr_head : nb_head b = 0;
  nr_tail : nb_tail b = Z.of_nat (length ls);
  nr_room : Z.of_nat (length ls) < nb_qsize b;
  nr_ok : Forall elem_ok ls;
  nr_get : take (length ls) (nb_buffer b) = Some <$> ls
}.

Definition nb_nodes (ls : list GCElement) : list addr := concat (elem_nodes <$> ls).

Lemma NodeBuf_Add_spec b ls x :
  nb_rep b ls -> elem_ok x ->
  exists b', NodeBuf_AddGCElement x b = Ok b' /\
    nb_rep b' (if decide (Z.of_nat (length ls) = nb_qsize b - 1) then ls else ls ++ [x]).
Proof.
  intros [Hs Hl Hh Ht Hr Hok Hg] Hx. unfold NodeBuf_AddGCElement.
  rewrite Hh, Ht, Z.rem_mod_nonneg by lia. case_decide as E.
  - replace (Z.of_nat (length ls) + 1) with (nb_qsize b) by lia. rewrite Z_mod_same_full. simpl.
    eexists. split; [done|]. by split.
  - rewrite Z.mod_small by lia. replace (Z.of_nat (length ls) + 1 =? 0) with false by lia.
    unfold array_set. replace ((Z.of_nat (length ls) <? 0) || (Z.of_nat (length (nb_buffer b)) <=? Z.of_nat (length ls)))
      with false by lia.
    eexists. split; [done|]. split; simpl; rewrite ?length_insert, ?length_app; simpl; try lia; try done.
    + apply Forall_app. by rewrite Forall_singleton.
    + rewrite Nat2Z.id, Nat.add_1_r, take_insert_snoc by lia. by rewrite Hg, fmap_app.
Qed.

Lemma array_get_some {A} (l : list (option A)) (i : nat) x :
  l !! i = Some (Some x) -> array_get l (Z.of_nat i) = Ok x.
Proof. intros Hx. unfold array_get. destruct (Z.ltb_spec (Z.of_nat i) 0); [lia|]. by rewrite Nat2Z.id, Hx. Qed.

(** The node buffer hands its nodes out last in, first out: taking a node
    from a buffer whose nodes are [ns ++ [a]] gives [a] and leaves [ns], on an
    empty buffer the caller has to allocate, and no access is out of bounds. *)
Lemma nodebuf_stack b ls :
  nb_rep b ls ->
  match ls with
  | [] => NodeBuf_GetMemNode b = Ok (None, b)
  | _ => exists a ns b' ls', NodeBuf_GetMemNode b = Ok (Some a, b') /\
      nb_nodes ls = ns ++ [a] /\ nb_rep b' ls' /\ nb_nodes ls' = ns
  end.
Proof.
  intros [Hs Hl Hh Ht Hr Hok Hg]. unfold NodeBuf_GetMemNode. rewrite Hh, Ht.
  destruct ls as [|x0 ls0]; [done|]. destruct (exists_last (l := x0 :: ls0)) as (ls & x & E); [done|].
  rewrite E in *. clear E x0 ls0. rewrite length_app in *. change (length [x]) with 1%nat in *.
  apply Forall_app in Hok as [Hok Hx]. rewrite Forall_singleton in Hx. unfold elem_ok in Hx.
  destruct (ls ++ [x]) as [|x0 ls0] eqn:E; [by destruct ls|]. rewrite <- E in *. clear E x0 ls0.
  destruct (Z.eqb_spec 0 (Z.of_nat (length ls + 1))) as [?|_]; [lia|].
  rewrite Z.rem_mod_nonneg, Z.mod_small by lia.
  replace (Z.of_nat (length ls + 1) - 1) with (Z.of_nat (length ls)) by lia.
  assert (nb_buffer b !! length ls = Some (Some x)) as Hlast.
  { assert (take (length ls + 1) (nb_buffer b) !! length ls = Some (Some x)) as Ht'.
    { rewrite Hg, fmap_app. apply list_lookup_middle. by rewrite length_fmap. }
    by apply lookup_take_Some in Ht' as [? _]. }
  assert (take (length ls) (nb_buffer b) = Some <$> ls) as Hg'.
  { replace (length ls) with (length ls `min` (length ls + 1))%nat at 1 by lia.
    rewrite <- take_take, Hg, fmap_app. apply take_app_length'. by rewrite length_fmap. }
  rewrite (array_get_some _ _ _ Hlast). unfold mbind, result_bind.
  destruct (lookup_lt_is_Some_2 (gc_array x) (Z.to_nat (gc_len x - 1))) as [a Ha]; [lia|].
  assert (array_get (Some <$> gc_array x) (gc_len x - 1) = Ok a) as ->.
  { rewrite <- (Z2Nat.id (gc_len x - 1)) by lia. apply array_get_some. by rewrite list_lookup_fmap, Ha. }
  unfold array_set. replace ((Z.of_nat (length ls) <? 0) || (Z.of_nat (length (nb_buffer b)) <=? Z.of_nat (length ls)))
    with false by lia. rewrite Nat2Z.id.
  assert (elem_nodes x = take (Z.to_nat (gc_len x - 1)) (gc_array x) ++ [a]) as Hex.
  { unfold elem_nodes. replace (Z.to_nat (gc_len x)) with (S (Z.to_nat (gc_len x - 1))) by lia. by apply take_S_r. }
  set (x' := mkGCElement (gc_epoch x) (gc_array x) (gc_len x - 1)).
  eexists a, (nb_nodes ls ++ elem_nodes x'), _, (if gc_len x - 1 =? 0 then ls else ls ++ [x']).
  split; [done|]. unfold nb_nodes. rewrite fmap_app, concat_app. simpl. rewrite app_nil_r, Hex.
  split; [by rewrite <- app_assoc|]. destruct (Z.eqb_spec (gc_len x - 1) 0) as [E0|E0].
  - split.
    + split; simpl; rewrite ?length_insert; try done; try lia. by rewrite take_insert_ge by lia.
    + unfold elem_nodes. simpl. by rewrite E0, take_0, app_nil_r.
  - split.
    + split; simpl; rewrite ?length_insert, ?length_app; simpl; try done; try lia.
      * apply Forall_app. split; [done|]. apply Forall_singleton. unfold elem_ok. simpl. lia.
      * rewrite Nat.add_1_r, take_insert_snoc by lia. by rewrite Hg', fmap_app.
    + rewrite fmap_app, concat_app. simpl. by rewrite app_nil_r.
Qed.

(** A record that [DBTX] has deleted carries the null pointer, not 1, so
    [RMQueue::Remove] leaves it in its table. *)
Lemma RMQueue_ignores_deleted {St} `{Memstore St} (db : DB St) mn n :
  db_nodes db !! rm_node mn = Some n -> mn_value n = LOGICALDELETE ->
  RMQueue_Remove_one mn db = Ok db.
Proof. intros Hn Hv. unfold RMQueue_Remove_one, node_at. rewrite Hn. simpl. by rewrite Hv. Qed.

(** ** Examples *)

(** Three threads, one idle, two inside a transaction; thread 1 ends. *)
Definition w_epoch : list Z := [2 ^ 63; 5; 7].

Definition w_epoch' : list Z := [2 ^ 63; 2 ^ 63 + 5; 7].

Lemma epoch_over_sound_witness :
  Compare (getCurrentEpoch w_epoch) w_epoch' = Ok 0 \/
  Compare (getCurrentEpoch w_epoch) w_epoch' = Ok (-1) /\
    forall j c, w_epoch !! j = Some c -> in_tx c = true -> j ∈ ({[1%nat]} ∪ ∅ : gset nat).
Proof.
  apply (epoch_over_sound w_epoch w_epoch' ({[1%nat]} ∪ ∅)); [repeat constructor; lia|done|].
  eapply rtc_l; [|apply rtc_refl]. apply (ep_end 1 5); reflexivity.
Defined.

Definition w_elem : GCElement := mkGCElement [5; 7] [1000; 1008] 2.

Definition w_queue : Ring GCElement := mkRing 4 3 1 [Some w_elem; None; None; Some w_elem] 2.

Lemma w_queue_rep : ring_rep w_queue [w_elem; w_elem].
Proof. split; simpl; try done; try lia. intros [|[|i]] x [= <-]; reflexivity. Qed.

Lemma gcqueue_fifo_witness :
  (exists q', AddGCElement [6; 8] [2000] 1 w_queue = Ok q' /\ ring_rep q' [w_elem; w_elem; mkGCElement [6; 8] [2000] 1]) /\
  (exists q', GCQueue_GC (Some [6; 2 ^ 63 + 7]) w_queue = Ok q' /\ ring_rep q' []).
Proof.
  destruct (gcqueue_fifo w_queue [w_elem; w_elem] w_queue_rep) as [Hadd Hgc]. split; [exact (Hadd [6; 8] [2000] 1)|].
  destruct (Hgc [6; 2 ^ 63 + 7] (fun _ => true)) as (q' & Hq & Hr & _).
  - intros x Hx. repeat (apply elem_of_cons in Hx as [->|Hx]; [vm_compute; reflexivity|]).
    by apply elem_of_nil in Hx.
  - exists q'. split; [exact Hq|exact Hr].
Defined.

