(* ===== verification/DBTX.v ===== *)
(** * DBTX: read-write transactions (db/dbtx.h, db/dbtx.cc)

    A transaction reads into a read set, buffers its writes and, in
    [End], validates the reads and installs the writes inside one RTM region.
    An RTM region is atomic; the pieces of an operation that run in different
    regions are separate definitions, composed by the operation. *)

From S2P Require Import Prelude OBJPool RCU MemStore TxSets DBTables.

(** ** Data *)

Record BufferNode := mkBufferNode { bn_key : Z; bn_node : addr }.

(** [key = -1] in a [uint64_t] *)
Definition BufferNode_new : BufferNode := mkBufferNode (2 ^ 64 - 1) NULL.

(** The thread-local members of [DBTX] with the flag [abort], and the thread's
    part of the tables. *)
Record TX (P : Type) := mkTX {
  tx_readset : ReadSet;
  tx_writeset : WriteSet;
  tx_deleteset : DELSet;
  tx_buffer : list BufferNode;
  tx_abort : bool;
  tx_tl : TL P
}.
Arguments mkTX {P}.
Arguments tx_readset {P}.
Arguments tx_writeset {P}.
Arguments tx_deleteset {P}.
Arguments tx_buffer {P}.
Arguments tx_abort {P}.
Arguments tx_tl {P}.

Section DBTX.
Context {S P : Type} `{Memstore S, Pool P}.
Implicit Types (db : DB S) (tl : TL P) (tx : TX P).

Definition set_readset (r : ReadSet) tx : TX P :=
  mkTX r (tx_writeset tx) (tx_deleteset tx) (tx_buffer tx) (tx_abort tx) (tx_tl tx).

Definition set_writeset (w : WriteSet) tx : TX P :=
  mkTX (tx_readset tx) w (tx_deleteset tx) (tx_buffer tx) (tx_abort tx) (tx_tl tx).

Definition set_deleteset (d : DELSet) tx : TX P :=
  mkTX (tx_readset tx) (tx_writeset tx) d (tx_buffer tx) (tx_abort tx) (tx_tl tx).

Definition set_tl tl tx : TX P :=
  mkTX (tx_readset tx) (tx_writeset tx) (tx_deleteset tx) (tx_buffer tx) (tx_abort tx) tl.

Definition set_buffer (tableid : nat) (key : Z) (node : addr) tx : TX P :=
  mkTX (tx_readset tx) (tx_writeset tx) (tx_deleteset tx)
    (<[tableid := mkBufferNode key node]> (tx_buffer tx)) (tx_abort tx) (tx_tl tx).

(** [ThreadLocalInit] *)
Definition DBTX_ThreadLocalInit (number : nat) tl : TX P :=
  mkTX ReadSet_new WriteSet_new DELSet_new (replicate number BufferNode_new) false tl.

(** ** Begin and Abort *)

Definition reset_sets tx : TX P :=
  mkTX (ReadSet_Reset (tx_readset tx)) (WriteSet_Reset (tx_writeset tx))
    (DELSet_Reset (tx_deleteset tx)) (tx_buffer tx) (tx_abort tx) (tx_tl tx).

Definition Begin tx db : result (TX P * DB S) :=
  let tx := reset_sets tx in
  db ← RCUTXBegin (tx_tl tx) db;
  Ok (tx, db).

Definition Abort tx db : result (bool * TX P * DB S) :=
  let tx := reset_sets tx in
  let tx := mkTX (tx_readset tx) (tx_writeset tx) (tx_deleteset tx) (tx_buffer tx) false (tx_tl tx) in
  db ← RCUTXEnd (tx_tl tx) db;
  Ok (tx_abort tx, tx, db).

(** ** Writes *)

(** The record has not been removed from its table. *)
Definition add_check (n : addr) db : result bool :=
  node ← node_at (db_nodes db) n; Ok (negb (mn_value node =? HAVEREMOVED)).

(** The record an [Add] works on: the one the thread used last for this table
    when the key is the same and it is still there, or the table's. *)
Definition find_node (fill : bool) (tableid : nat) (key : Z) tx db : result (addr * TX P * DB S) :=
  b ← from_opt OutOfBounds (tx_buffer tx !! tableid);
  hit ← (if bn_key b =? key then add_check (bn_node b) db else Ok false);
  if (hit : bool) then Ok (bn_node b, tx, db)
  else
    '(n, db) ← GetWithInsert tableid key db;
    Ok (n, if fill then set_buffer tableid key n tx else tx, db).

(** The [retry] loop of the [Add]s; [fill] tells the overload that stores the
    record in the buffer from those that do not. *)
Fixpoint add_node (fuel : nat) (fill : bool) (tableid : nat) (key : Z) tx db :
    result (addr * TX P * DB S) :=
  match fuel with
  | O => Fault OutOfFuel
  | Datatypes.S fuel =>
      '(n, tx, db) ← find_node fill tableid key tx db;
      there ← add_check n db;
      if (there : bool) then Ok (n, tx, db) else add_node fuel fill tableid key tx db
  end.

(** [DBTX::Add(tableid, key, val)] *)
Definition Add (fuel : nat) (tableid : nat) (key : Z) (val : addr) tx db : result (TX P * DB S) :=
  '(n, tx, db) ← add_node fuel true tableid key tx db;
  Ok (set_writeset (WriteSet_Add tableid key val n (tx_writeset tx)) tx, db).

(** A copy of the caller's bytes in a recycled or a new buffer. *)
Definition copy_value (tableid : nat) (val : list Z) tx db : result (addr * TX P * DB S) :=
  '(value, tl) ← GetEmptyValue tableid (tx_tl tx);
  let tx := set_tl tl tx in
  let '(value, db) :=
    if value =? NULL then
      let '(a, db) := malloc (sizeof_Obj + Z.of_nat (length val)) db in (a + sizeof_Obj, db)
    else (value, db) in
  Ok (value, tx, set_vals (<[value := val]> (db_vals db)) db).

(** [DBTX::Add(tableid, key, val, len)] *)
Definition Add_copy (fuel : nat) (tableid : nat) (key : Z) (val : list Z) tx db : result (TX P * DB S) :=
  '(n, tx, db) ← add_node fuel false tableid key tx db;
  '(value, tx, db) ← copy_value tableid val tx db;
  Ok (set_writeset (WriteSet_Add tableid key value n (tx_writeset tx)) tx, db).

(** [DBTX::Add_Label(tableid, key, val, len)]: the same work. *)
Definition Add_Label (fuel : nat) (tableid : nat) (key : Z) (val : list Z) tx db : result (TX P * DB S) :=
  '(n, tx, db) ← add_node fuel false tableid key tx db;
  '(value, tx, db) ← copy_value tableid val tx db;
  Ok (set_writeset (WriteSet_Add tableid key value n (tx_writeset tx)) tx, db).

Definition Delete (fuel : nat) (tableid : nat) (key : Z) tx db : result (TX P * DB S) :=
  Add fuel tableid key LOGICALDELETE tx db.

(** ** Reads *)

(** The words a read set points to: a record's sequence number or a link of a
    table. *)
Fixpoint link_word_at (ts : list S) (a : addr) : option Z :=
  match ts with
  | [] => None
  | s :: ts => match ms_link s a with Some v => Some v | None => link_word_at ts a end
  end.

Definition read_word db (a : addr) : option Z :=
  match db_nodes db !! a with
  | Some n => Some (mn_seq n)
  | None => link_word_at (db_tables db) a
  end.

(** The table access of [Get]; it also fills the buffer. *)
Definition Get_lookup (tableid : nat) (key : Z) tx db : result (addr * TX P * DB S) :=
  '(n, db) ← GetWithInsert tableid key db;
  if n =? NULL then Ok (n, tx, db) else Ok (n, set_buffer tableid key n tx, db).

(** The RTM region of [Get]: [None] means the record was removed. *)
Definition Get_rtm (n : addr) (label : Z) tx db : result (option (TX P)) :=
  node ← node_at (db_nodes db) n;
  if mn_value node =? HAVEREMOVED then Ok None
  else
    r ← ReadSet_Add (read_word db) n label (tx_readset tx);
    Ok (Some (set_readset r tx)).

(** The value the caller gets: a pointer, or failure. *)
Definition Get_value (n : addr) db : result (option addr) :=
  node ← node_at (db_nodes db) n;
  Ok (if ValidateValue (mn_value node) then Some (mn_value node) else None).

Fixpoint Get_retry (fuel : nat) (tableid : nat) (key label : Z) tx db :
    result (option addr * TX P * DB S) :=
  match fuel with
  | O => Fault OutOfFuel
  | Datatypes.S fuel =>
      '(n, tx, db) ← Get_lookup tableid key tx db;
      if n =? NULL then Ok (None, tx, db)
      else
        r ← Get_rtm n label tx db;
        match r with
        | None => Get_retry fuel tableid key label tx db
        | Some tx => v ← Get_value n db; Ok (v, tx, db)
        end
  end.

Definition Get (fuel : nat) (tableid : nat) (key label : Z) tx db :
    result (option addr * TX P * DB S) :=
  match WriteSet_Lookup (tx_writeset tx) tableid key with
  | Some v => Ok (if v =? LOGICALDELETE then None else Some v, tx, db)
  | None => Get_retry fuel tableid key label tx db
  end.

(** [ROGet]: no read set. *)
Definition ROGet (tableid : nat) (key : Z) tx db : result (option addr * TX P * DB S) :=
  '(n, db) ← GetWithInsert tableid key db;
  if n =? NULL then Ok (None, tx, db) else v ← Get_value n db; Ok (v, tx, db).

(** ** Commit *)

(** Installing one write.  The last case cannot be left with [assert] compiled
    out: the RTM region is closed and the loop goes on. *)
Definition Write_one (gcounter : Z) (kv : WSKV) (ds : DELSet) tl db :
    result (WSKV * DELSet * TL P * DB S) :=
  let node := ws_node kv in
  n ← node_at (db_nodes db) node;
  let n := if mn_counter n =? 0 then set_counter gcounter n else n in
  let db := set_nodes (<[node := n]> (db_nodes db)) db in
  let deleted := (ws_val kv =? LOGICALDELETE) && negb (mn_value n =? LOGICALDELETE) in
  if mn_counter n =? gcounter then
    ds ← (if deleted then DELSet_Add (db_nodes db) (ws_tableid kv) (ws_key kv) node true ds else Ok ds);
    let oldval := mn_value n in
    let seq := u64 (mn_seq n + 1) in
    let n := set_seq seq (set_value (ws_val kv) n) in
    Ok (mkWSKV (ws_tableid kv) (ws_key kv) oldval (ws_val kv) seq node (ws_dummy kv),
        ds, tl, set_nodes (<[node := n]> (db_nodes db)) db)
  else if mn_counter n <? gcounter then
    ds ← (if deleted then DELSet_Add (db_nodes db) (ws_tableid kv) (ws_key kv) node true ds else Ok ds);
    '(dummy, tl, db) ← GetMemNode (ws_tableid kv) tl db;
    let d := mkMemNode (mn_seq n) (mn_counter n) (mn_value n) (mn_oldVersions n) 0 in
    let seq := u64 (mn_seq n + 1) in
    let n := mkMemNode seq gcounter (ws_val kv) dummy (mn_gcRef n) in
    Ok (mkWSKV (ws_tableid kv) (ws_key kv) NULL (ws_val kv) seq node dummy,
        ds, tl, set_nodes (<[node := n]> (<[dummy := d]> (db_nodes db))) db)
  else Ok (kv, ds, tl, db).

Fixpoint Write_loop (gcounter : Z) (l : list WSKV) (ds : DELSet) tl db :
    result (list WSKV * DELSet * TL P * DB S) :=
  match l with
  | [] => Ok ([], ds, tl, db)
  | kv :: l =>
      '(kv, ds, tl, db) ← Write_one gcounter kv ds tl db;
      '(l, ds, tl, db) ← Write_loop gcounter l ds tl db;
      Ok (kv :: l, ds, tl, db)
  end.

(** [WriteSet::Write] *)
Definition WriteSet_Write (gcounter : Z) tx db : result (TX P * DB S) :=
  let w := tx_writeset tx in
  '(l, ds, tl, db) ← Write_loop gcounter (WriteSet_entries w) (tx_deleteset tx) (tx_tl tx) db;
  let w := mkWriteSet (ws_max_length w) (ws_elems w) (ws_commitSN w)
             (l ++ drop (ws_elems w) (ws_kvs w)) (ws_dbtx w) in
  Ok (set_tl tl (set_deleteset ds (set_writeset w tx)), db).

Fixpoint Collect_loop (nodes : gmap Z MemNode) (sn : Z) (l : list WSKV) tl : result (TL P) :=
  match l with
  | [] => Ok tl
  | kv :: l =>
      tl ← (if ValidateValue (ws_val kv) then AddDeletedValue (ws_tableid kv) (ws_val kv) sn tl else Ok tl);
      tl ← (if ws_dummy kv =? NULL then Ok tl
            else
              tl ← AddDeletedNode (ws_tableid kv) (ws_dummy kv) tl;
              d ← node_at nodes (ws_dummy kv);
              if ValidateValue (mn_value d) then AddDeletedValue (ws_tableid kv) (mn_value d) sn tl
              else Ok tl);
      Collect_loop nodes sn l tl
  end.

(** [WriteSet::CollectOldVersions] *)
Definition CollectOldVersions tx db : result (TX P) :=
  tl ← Collect_loop (db_nodes db) (ws_commitSN (tx_writeset tx)) (WriteSet_entries (tx_writeset tx)) (tx_tl tx);
  Ok (set_tl tl tx).

Fixpoint GCRM_loop (l : list DELElement) tl db : result (TL P * DB S) :=
  match l with
  | [] => Ok (tl, db)
  | e :: l =>
      '(tl, db) ← AddRemoveNode (de_tableid e) (de_key e) (de_seq e) (de_node e) tl db;
      GCRM_loop l tl db
  end.

(** [DELSet::GCRMNodes] *)
Definition GCRMNodes tx db : result (TX P * DB S) :=
  '(tl, db) ← GCRM_loop (DELSet_entries (tx_deleteset tx)) (tx_tl tx) db;
  Ok (set_tl tl tx, db).

(** The RTM region of [End]: [None] means the transaction must abort. *)
Definition End_rtm tx db : result (option (TX P * DB S)) :=
  v ← ReadSet_Validate (read_word db) (tx_readset tx);
  write_valid ← WriteSet_CheckWriteSet (db_nodes db) (tx_writeset tx);
  if (v =? NO_CONFLICT) && write_valid then
    let tx := set_writeset (WriteSet_SetDBTX (tx_writeset tx)) tx in
    '(tx, db) ← WriteSet_Write (db_snapshot db) tx db;
    Ok (Some (tx, db))
  else Ok None.

(** The end of both outcomes: leave the RCU section, collect garbage. *)
Definition End_gc (safesn : Z) tx db : result (TX P * DB S) :=
  db ← RCUTXEnd (tx_tl tx) db;
  tl ← DBTables.GC safesn (tx_tl tx);
  '(tl, db) ← DelayRemove tl db;
  Ok (set_tl tl tx, db).

Definition End_commit (safesn : Z) tx db : result (TX P * DB S) :=
  tx ← CollectOldVersions tx db;
  '(tx, db) ← GCRMNodes tx db;
  End_gc safesn tx db.

Definition End (safesn : Z) tx db : result (bool * TX P * DB S) :=
  if tx_abort tx then '(tx, db) ← End_gc safesn tx db; Ok (false, tx, db)
  else
    r ← End_rtm tx db;
    match r with
    | None => '(tx, db) ← End_gc safesn tx db; Ok (false, tx, db)
    | Some (tx, db) => '(tx, db) ← End_commit safesn tx db; Ok (true, tx, db)
    end.

End DBTX.
