(* ===== verification/DBROTX.v ===== *)
(** * DBROTX: read-only transactions on a snapshot (db/dbrotx.h, db/dbrotx.cc)

    A read-only transaction takes the number of the current snapshot and opens
    a new one; of every record it reads the newest version that is not newer
    than its snapshot.  [WriteSet::Write] keeps the versions an open snapshot
    needs. *)

From S2P Require Import Prelude OBJPool RCU MemStore TxSets DBTables EpochGC DBTX.

(** ** Data *)

(** The members of [DBROTX] and the thread's queues that [End] uses. *)
Record ROTX (P : Type) := mkROTX {
  ro_oldsnapshot : Z;
  ro_tl : TL P;
  ro_nodeGCQueue : Ring GCElement;
  ro_nodebuffer : NodeBuf
}.
Arguments mkROTX {P}.
Arguments ro_oldsnapshot {P}.
Arguments ro_tl {P}.
Arguments ro_nodeGCQueue {P}.
Arguments ro_nodebuffer {P}.

(** ** Reading a version *)

(** The loop over the older versions. *)
Fixpoint scan_old (fuel : nat) (m : nodemem) (oldsnapshot : Z) (n : addr) : result addr :=
  match fuel with
  | O => Fault OutOfFuel
  | S fuel =>
      if n =? NULL then Ok n
      else
        node ← node_at m n;
        if oldsnapshot <? mn_counter node then scan_old fuel m oldsnapshot (mn_oldVersions node)
        else Ok n
  end.

Definition node_value (node : MemNode) : option addr :=
  if ValidateValue (mn_value node) then Some (mn_value node) else None.

Definition ScanMemNode (fuel : nat) (m : nodemem) (oldsnapshot : Z) (n : addr) : result (option addr) :=
  if n =? NULL then Ok None
  else
    node ← node_at m n;
    if mn_counter node <=? oldsnapshot then Ok (node_value node)
    else
      n ← scan_old fuel m oldsnapshot (mn_oldVersions node);
      if n =? NULL then Ok None
      else
        node ← node_at m n;
        if mn_counter node <=? oldsnapshot then Ok (node_value node) else Ok None.

(** One RTM region. *)
Definition GetValueOnSnapshot (fuel : nat) (m : nodemem) (oldsnapshot : Z) (n : addr) : result (option addr) :=
  ScanMemNode fuel m oldsnapshot n.

Section DBROTX.
Context {St P : Type} `{Memstore St, Pool P}.
Implicit Types (db : DB St) (tl : TL P) (ro : ROTX P).

(** ** Transactions *)

Definition RO_Begin ro db : result (ROTX P * DB St) :=
  db ← RCUTXBegin (ro_tl ro) db;
  Ok (mkROTX (db_snapshot db) (ro_tl ro) (ro_nodeGCQueue ro) (ro_nodebuffer ro),
      DBTables.set_snapshot (u64 (db_snapshot db + 1)) db).

Definition RO_Abort ro db : result (bool * DB St) :=
  db ← RCUTXEnd (ro_tl ro) db; Ok (false, db).

Definition RO_End (epoch : option (list Z)) (safesn : Z) ro db : result (bool * ROTX P * DB St) :=
  '(q, b) ← GCDeletedNodes epoch (ro_nodeGCQueue ro) (ro_nodebuffer ro);
  db ← RCUTXEnd (ro_tl ro) db;
  tl ← DBTables.GC safesn (ro_tl ro);
  '(tl, db) ← DelayRemove tl db;
  Ok (true, mkROTX (ro_oldsnapshot ro) tl q b, db).

Definition RO_Get (fuel : nat) (tableid : nat) (key : Z) ro db : result (option addr) :=
  n ← DBTables.Get tableid key db;
  GetValueOnSnapshot fuel (db_nodes db) (ro_oldsnapshot ro) n.

(** ** Iterators

    [DBROTX::Iterator] over the iterator [I] of the table.  [val_] keeps its
    value when a version is not visible. *)

Context {I : Type} `{!MemIterator St I}.

Record RIter := mkRIter { ri_iter : I; ri_cur : addr; ri_val : addr }.

Definition RIter_new : RIter := mkRIter it_new NULL NULL.

Definition RIter_Valid (it : RIter) : bool := negb (ri_cur it =? NULL).

Definition RIter_Key (it : RIter) : Z := it_Key (ri_iter it).

Definition RIter_Value (it : RIter) : addr := ri_val it.

(** The loop that [Next], [Seek] and [SeekToFirst] share: forward to the first
    record with a version in the snapshot.  [found] says whether there is one;
    [vfuel] is for the versions of a record, [fuel] for the records. *)
Fixpoint forward (vfuel fuel : nat) (s : St) (m : nodemem) (snap : Z) (it : RIter) : result (RIter * bool) :=
  match fuel with
  | O => Fault OutOfFuel
  | S fuel =>
      if it_Valid (ri_iter it) then
        v ← GetValueOnSnapshot vfuel m snap (it_CurNode (ri_iter it));
        match v with
        | Some v => Ok (mkRIter (ri_iter it) (it_CurNode (ri_iter it)) v, true)
        | None => forward vfuel fuel s m snap (mkRIter (it_Next s (ri_iter it)).2 (ri_cur it) (ri_val it))
        end
      else Ok (it, false)
  end.

(** Only [Next] and [Prev] clear [cur_] at the end of the table. *)
Definition RIter_Next (vfuel fuel : nat) (s : St) (m : nodemem) (snap : Z) (it : RIter) : result RIter :=
  '(it, found) ← forward vfuel fuel s m snap (mkRIter (it_Next s (ri_iter it)).2 (ri_cur it) (ri_val it));
  Ok (if (found : bool) then it else mkRIter (ri_iter it) NULL (ri_val it)).

Definition RIter_Seek (vfuel fuel : nat) (s : St) (m : nodemem) (snap : Z) (key : Z) (it : RIter) : result RIter :=
  '(it, _) ← forward vfuel fuel s m snap (mkRIter (it_Seek s key (ri_iter it)) (ri_cur it) (ri_val it));
  Ok it.

Definition RIter_SeekToFirst (vfuel fuel : nat) (s : St) (m : nodemem) (snap : Z) (it : RIter) : result RIter :=
  '(it, _) ← forward vfuel fuel s m snap (mkRIter (it_SeekToFirst s (ri_iter it)) (ri_cur it) (ri_val it));
  Ok it.

(** [Prev] reads the record after moving, without testing that there is one. *)
Fixpoint RIter_Prev (vfuel fuel : nat) (s : St) (m : nodemem) (snap : Z) (it : RIter) : result RIter :=
  match fuel with
  | O => Fault OutOfFuel
  | S fuel =>
      if it_Valid (ri_iter it) then
        let i := (it_Prev s (ri_iter it)).2 in
        v ← GetValueOnSnapshot vfuel m snap (it_CurNode i);
        match v with
        | Some v => Ok (mkRIter i (it_CurNode i) v)
        | None => RIter_Prev vfuel fuel s m snap (mkRIter i (ri_cur it) (ri_val it))
        end
      else Ok (mkRIter (ri_iter it) NULL (ri_val it))
  end.

End DBROTX.

(** ** Versions *)

(** The versions of a record, newest first. *)
Definition vchain (m : nodemem) (a : addr) (l : list addr) : Prop :=
  chain (fun x => mn_oldVersions <$> m !! x) a l NULL.

Definition versions (m : nodemem) (l : list addr) : list MemNode := omap (fun a => m !! a) l.

(** What a transaction on snapshot [snap] should see of them. *)
Fixpoint snapshot_value (snap : Z) (vs : list MemNode) : option addr :=
  match vs with
  | [] => None
  | n :: vs => if mn_counter n <=? snap then node_value n else snapshot_value snap vs
  end.

Lemma vchain_cons m a x l :
  vchain m a (x :: l) <-> a = x /\ x <> NULL /\ exists n, m !! x = Some n /\ vchain m (mn_oldVersions n) l.
Proof.
  unfold vchain. simpl. split.
  - intros (-> & Hx & o & Ho & Hc). split_and!; [done..|].
    apply fmap_Some in Ho as (n & Hn & ->). eauto.
  - intros (-> & Hx & n & Hn & Hc). split_and!; [done..|]. rewrite Hn. simpl. eauto.
Qed.

Lemma versions_cons m x l :
  versions m (x :: l) = match m !! x with Some n => n :: versions m l | None => versions m l end.
Proof. done. Qed.

Lemma vchain_ext m m' a l : (forall x, x ∈ l -> m' !! x = m !! x) -> vchain m a l ->
  vchain m' a l /\ versions m' l = versions m l.
Proof.
  intros Hext Hc. split.
  - eapply chain_ext; [|exact Hc]. intros x Hx. by rewrite Hext.
  - clear Hc. induction l as [|x l IH]; [done|].
    rewrite !versions_cons, Hext, IH by set_solver. done.
Qed.

Lemma scan_old_spec m snap : forall l fuel a,
  vchain m a l -> (length l < fuel)%nat ->
  exists b, scan_old fuel m snap a = Ok b /\
    ((b = NULL /\ snapshot_value snap (versions m l) = None) \/
     (b <> NULL /\ exists n, m !! b = Some n /\ mn_counter n <= snap /\
        snapshot_value snap (versions m l) = node_value n)).
Proof.
  induction l as [|x l IH]; intros [|fuel] a Hc Hf; simpl in Hf; try lia.
  - cbv [vchain chain] in Hc. subst a. simpl. exists NULL. split; [done|]. by left.
  - apply vchain_cons in Hc as (-> & Hx & n & Hn & Hc). cbn [scan_old].
    rewrite (proj2 (Z.eqb_neq _ _) Hx). unfold node_at. rewrite versions_cons, Hn. simpl.
    unfold mbind, result_bind. destruct (Z.ltb_spec snap (mn_counter n)).
    + destruct (IH fuel (mn_oldVersions n) Hc) as (b & Hb & Hor); [lia|]. exists b. split; [done|].
      destruct (Z.leb_spec (mn_counter n) snap); [lia|]. done.
    + exists x. split; [done|]. right. split; [done|]. exists n.
      destruct (Z.leb_spec (mn_counter n) snap); [done|lia].
Qed.

Lemma ScanMemNode_spec m snap a l fuel :
  vchain m a l -> (length l <= fuel)%nat ->
  ScanMemNode fuel m snap a = Ok (snapshot_value snap (versions m l)).
Proof.
  intros Hc Hf. unfold ScanMemNode. destruct l as [|x l].
  - cbv [vchain chain] in Hc. by subst a.
  - apply vchain_cons in Hc as (-> & Hx & n & Hn & Hc). rewrite (proj2 (Z.eqb_neq _ _) Hx).
    unfold node_at. rewrite versions_cons, Hn. simpl. unfold mbind, result_bind.
    destruct (mn_counter n <=? snap); [done|].
    destruct (scan_old_spec m snap l fuel (mn_oldVersions n) Hc) as (b & Hb & [[-> Hv]|(Hb0 & nb & Hnb & Hle & Hv)]);
      [simpl in Hf; lia| |]; rewrite Hb, Hv; [done|].
    rewrite (proj2 (Z.eqb_neq _ _) Hb0), Hnb. simpl. by destruct (Z.leb_spec (mn_counter nb) snap); [|lia].
Qed.

(** ** Writes and open snapshots *)

(** A write with counter [g] is safe for the open snapshots when the record has
    a version number or holds nothing yet. *)
Definition versioned (n : MemNode) : Prop :=
  mn_counter n <> 0 \/ (mn_value n = LOGICALDELETE /\ mn_oldVersions n = NULL).

Section writes.
Context {St P : Type} `{Memstore St, Pool P}.
Implicit Types (db : DB St) (tl : TL P).

Lemma GetMemNode_nodes t tl db a tl' db' :
  0 < db_brk db -> GetMemNode t tl db = Ok (a, tl', db') ->
  a <> NULL /\ db_nodes db' = <[a := MemNode_init]> (db_nodes db).
Proof.
  intros Hbrk. unfold GetMemNode. destruct (_ !! t) as [p|]; simpl; [|done].
  destruct (pool_get p) as [[mn p']|]; [|done]. unfold mbind, result_bind.
  destruct (Z.eqb_spec mn NULL); intros [= <- <- <-]; split; try done. unfold sizeof_Obj, NULL. lia.
Qed.

(** What installing a write does to the records: the record gets the new
    version, and unless its counter is current or unset the old one moves to the
    record [ws_dummy]. *)
Lemma Write_one_nodes g kv ds tl db kv' ds' tl' db' n :
  0 < db_brk db -> Write_one g kv ds tl db = Ok (kv', ds', tl', db') -> ws_dummy kv = NULL ->
  db_nodes db !! ws_node kv = Some n -> mn_counter n <= g ->
  exists n', mn_value n' = ws_val kv /\ mn_counter n' = g /\
    if decide (mn_counter n = 0 \/ mn_counter n = g) then
      ws_dummy kv' = NULL /\ mn_oldVersions n' = mn_oldVersions n /\
      db_nodes db' = <[ws_node kv := n']> (db_nodes db)
    else
      mn_oldVersions n' = ws_dummy kv' /\ ws_dummy kv' <> NULL /\
      exists d, mn_counter d = mn_counter n /\ mn_value d = mn_value n /\
        mn_oldVersions d = mn_oldVersions n /\
        db_nodes db' = <[ws_node kv := n']> (<[ws_dummy kv' := d]> (db_nodes db)).
Proof.
  intros Hbrk Hrun Hdum Hn Hle. unfold Write_one, node_at in Hrun. rewrite Hn in Hrun.
  unfold from_opt, mbind, result_bind in Hrun.
  destruct (Z.eqb_spec (mn_counter n) 0) as [E0|E0]; cbn [mn_counter set_counter] in Hrun;
    [rewrite Z.eqb_refl in Hrun|destruct (Z.eqb_spec (mn_counter n) g) as [E1|E1]].
  - destruct (if (ws_val kv =? LOGICALDELETE) && _ then _ else _) as [ds1|] in Hrun; [|done].
    injection Hrun as <- <- <- <-. eexists. rewrite decide_True by tauto. split_and!; [| |done| |apply insert_insert_eq]; done.
  - destruct (if (ws_val kv =? LOGICALDELETE) && _ then _ else _) as [ds1|] in Hrun; [|done].
    injection Hrun as <- <- <- <-. eexists. rewrite decide_True by tauto.
    split_and!; [| |done| |apply insert_insert_eq]; done.
  - replace (mn_counter n <? g) with true in Hrun by lia.
    destruct (if (ws_val kv =? LOGICALDELETE) && _ then _ else _) as [ds1|] in Hrun; [|done].
    destruct (GetMemNode _ _ _) as [[[dummy tl2] db2]|] eqn:Hg; [|done].
    injection Hrun as <- <- <- <-.
    exists (mkMemNode (u64 (mn_seq n + 1)) g (ws_val kv) dummy (mn_gcRef n)). rewrite decide_False by tauto.
    apply GetMemNode_nodes in Hg as [Hd Hg]; [|done]. simpl in Hg |- *.
    do 4 (split; [done|]).
    exists (mkMemNode (mn_seq n) (mn_counter n) (mn_value n) (mn_oldVersions n) 0). split_and!; cycle 3.
    { rewrite Hg, insert_insert_eq, (insert_id (db_nodes db) (ws_node kv) n) by done. reflexivity. }
    all: done.
Qed.

(** The new version in front of the old ones. *)
Lemma snapshot_value_push g snap n n' vs :
  mn_counter n' = g -> mn_counter n <= g -> versioned n ->
  (mn_counter n = 0 -> vs = []) -> (mn_counter n = 0 \/ mn_counter n = g) ->
  ~ g <= snap -> snapshot_value snap (n' :: vs) = snapshot_value snap (n :: vs).
Proof.
  intros Hc' Hle Hver Hvs Hcase Hsnap. simpl. rewrite Hc'.
  destruct (Z.leb_spec g snap); [lia|]. destruct (Z.leb_spec (mn_counter n) snap); [|done].
  destruct Hcase as [E|E]; [|lia]. rewrite (Hvs E). destruct Hver as [|[Hv _]]; [done|].
  unfold node_value. by rewrite Hv.
Qed.

(** Installing a write with counter [g], the number of the current
    snapshot, leaves what every earlier snapshot reads of the record as it was
    and shows the new value to the later ones, provided the record is
    versioned and the memory taken for the old version is not one of its
    versions. *)
Lemma Write_one_keeps_snapshots g kv ds tl db kv' ds' tl' db' n l :
  0 < db_brk db -> Write_one g kv ds tl db = Ok (kv', ds', tl', db') -> ws_dummy kv = NULL ->
  db_nodes db !! ws_node kv = Some n -> mn_counter n <= g -> versioned n ->
  ws_node kv <> NULL -> vchain (db_nodes db) (ws_node kv) l -> ws_dummy kv' ∉ l ->
  exists l', vchain (db_nodes db') (ws_node kv) l' /\
    (forall x, x ∈ l' -> x ∈ l \/ (x = ws_dummy kv' /\ x <> NULL)) /\
    forall snap, snapshot_value snap (versions (db_nodes db') l') =
      if decide (g <= snap) then (if ValidateValue (ws_val kv) then Some (ws_val kv) else None)
      else snapshot_value snap (versions (db_nodes db) l).
Proof.
  intros Hbrk Hrun Hdum Hn Hle Hver Hnn Hch Hdl.
  destruct (Write_one_nodes _ _ _ _ _ _ _ _ _ n Hbrk Hrun Hdum Hn Hle) as (n' & Hv' & Hc' & Hnodes).
  pose proof (chain_NoDup _ _ _ Hch) as Hnd. destruct l as [|x l]; [done|].
  apply vchain_cons in Hch as (<- & Hx & n0 & Hn0 & Hch). assert (n0 = n) as -> by congruence.
  apply NoDup_cons in Hnd as [Hnx Hnd].
  assert (forall snap vs, g <= snap -> snapshot_value snap (n' :: vs) =
    if ValidateValue (ws_val kv) then Some (ws_val kv) else None) as Hnew.
  { intros snap vs Hs. simpl. rewrite Hc'. destruct (Z.leb_spec g snap); [|lia]. unfold node_value. by rewrite Hv'. }
  case_decide as Hcase.
  - destruct Hnodes as (_ & Ho & ->).
    destruct (vchain_ext (db_nodes db) (<[ws_node kv := n']> (db_nodes db)) (mn_oldVersions n) l) as [Hc2 Hv2]; [|done|].
    { intros y Hy. rewrite lookup_insert_ne; [done|]. set_solver. }
    exists (ws_node kv :: l). split_and!; [|auto|].
    + apply vchain_cons. split_and!; [done..|]. exists n'. by rewrite lookup_insert_eq, Ho.
    + intros snap. rewrite !versions_cons, lookup_insert_eq, Hn, Hv2. case_decide; [by apply Hnew|].
      apply (snapshot_value_push g); try done. intros E0. destruct Hver as [|[_ Hnull]]; [done|].
      rewrite Hnull in Hch. by apply chain_null_nil in Hch as ->.
  - destruct Hnodes as (Ho & Hdn & d & Hcd & Hvd & Hod & ->).
    assert (forall y, y ∈ l -> (<[ws_node kv := n']> (<[ws_dummy kv' := d]> (db_nodes db))) !! y = db_nodes db !! y) as Hframe.
    { intros y Hy. rewrite !lookup_insert_ne; [done|set_solver|set_solver]. }
    destruct (vchain_ext _ _ (mn_oldVersions n) l Hframe Hch) as [Hc2 Hv2].
    assert (ws_node kv <> ws_dummy kv') as Hnd' by set_solver.
    exists (ws_node kv :: ws_dummy kv' :: l). split_and!; [|set_solver|].
    + apply vchain_cons. split_and!; [done..|]. exists n'. rewrite lookup_insert_eq, Ho. split; [done|].
      apply vchain_cons. split_and!; [done..|]. exists d.
      rewrite lookup_insert_ne, lookup_insert_eq, Hod by done. done.
    + intros snap. rewrite !versions_cons, lookup_insert_eq, Hn, Hv2.
      rewrite lookup_insert_ne, lookup_insert_eq by done. case_decide; [by apply Hnew|].
      simpl. rewrite Hc', Hcd. destruct (Z.leb_spec g snap); [lia|].
      unfold node_value. by rewrite Hvd.
Qed.

Lemma Write_one_brk g kv ds tl db kv' ds' tl' db' :
  Write_one g kv ds tl db = Ok (kv', ds', tl', db') -> db_brk db <= db_brk db'.
Proof.
  unfold Write_one. destruct (node_at _ _) as [n|]; [|done]. unfold mbind, result_bind.
  destruct (_ =? g); [|destruct (_ <? g)].
  - destruct (if (ws_val kv =? LOGICALDELETE) && _ then _ else _) as [ds1|]; [|done].
    intros [= <- <- <- <-]. simpl. lia.
  - destruct (if (ws_val kv =? LOGICALDELETE) && _ then _ else _) as [ds1|]; [|done].
    unfold GetMemNode. destruct (_ !! ws_tableid kv) as [p|]; [|done]. simpl.
    unfold mbind, result_bind. destruct (pool_get p) as [[mn p']|]; [|done].
    destruct (mn =? NULL); intros [= <- <- <- <-]; simpl; unfold sizeof_Obj, sizeof_MemNode; lia.
  - intros [= <- <- <- <-]. simpl. lia.
Qed.

(** A write that can be installed. *)
Definition writable (g : Z) (m : nodemem) (kv : WSKV) : Prop :=
  ws_dummy kv = NULL /\ ws_node kv <> NULL /\
  exists n, m !! ws_node kv = Some n /\ mn_counter n <= g /\ versioned n.

Definition dummies (l : list WSKV) : list addr := filter (fun a => a <> NULL) (ws_dummy <$> l).

(** One write: the other records' versions are not touched. *)
Lemma Write_one_frame g kv ds tl db kv' ds' tl' db' x :
  0 < db_brk db -> Write_one g kv ds tl db = Ok (kv', ds', tl', db') -> writable g (db_nodes db) kv ->
  x <> ws_node kv -> x <> ws_dummy kv' \/ ws_dummy kv' = NULL -> db_nodes db' !! x = db_nodes db !! x.
Proof.
  intros Hbrk Hrun (Hd & _ & n & Hn & Hle & _) Hx Hxd.
  destruct (Write_one_nodes _ _ _ _ _ _ _ _ _ n Hbrk Hrun Hd Hn Hle) as (n' & _ & _ & Hnodes).
  case_decide; [destruct Hnodes as (_ & _ & ->)|destruct Hnodes as (_ & Hdn & d & _ & _ & _ & ->)].
  - by rewrite lookup_insert_ne.
  - by rewrite !lookup_insert_ne by naive_solver.
Qed.

Lemma Write_one_writable g kv ds tl db kv' ds' tl' db' kv2 :
  0 < g -> 0 < db_brk db -> Write_one g kv ds tl db = Ok (kv', ds', tl', db') ->
  writable g (db_nodes db) kv -> writable g (db_nodes db) kv2 ->
  ws_node kv2 <> ws_dummy kv' \/ ws_dummy kv' = NULL -> writable g (db_nodes db') kv2.
Proof.
  intros Hg Hbrk Hrun Hw (Hd2 & Hn2 & n2 & Hm2 & Hle2 & Hv2) Hne.
  destruct (decide (ws_node kv2 = ws_node kv)) as [E|E].
  - destruct Hw as (Hd & _ & n & Hn & Hle & _).
    destruct (Write_one_nodes _ _ _ _ _ _ _ _ _ n Hbrk Hrun Hd Hn Hle) as (n' & _ & Hc' & Hnodes).
    do 2 (split; [done|]). exists n'. rewrite E. split; [|split; [lia|left; lia]].
    case_decide; [destruct Hnodes as (_ & _ & ->)|destruct Hnodes as (_ & _ & d & _ & _ & _ & ->)];
      by rewrite lookup_insert_eq.
  - do 2 (split; [done|]). exists n2.
    by rewrite (Write_one_frame g kv ds tl db kv' ds' tl' db' _ Hbrk Hrun Hw E Hne).
Qed.

Lemma Write_loop_keeps g a snap : forall l ds tl db l' ds' tl' db' la,
  0 < g -> snap < g -> 0 < db_brk db ->
  Write_loop g l ds tl db = Ok (l', ds', tl', db') -> Forall (writable g (db_nodes db)) l ->
  (forall kv, kv ∈ l -> ws_node kv <> a -> ws_node kv ∉ la) ->
  (forall d kv, d ∈ dummies l' -> kv ∈ l -> d <> ws_node kv) ->
  (forall d, d ∈ dummies l' -> d ∉ la) -> NoDup (dummies l') ->
  vchain (db_nodes db) a la ->
  exists la', vchain (db_nodes db') a la' /\
    snapshot_value snap (versions (db_nodes db') la') = snapshot_value snap (versions (db_nodes db) la).
Proof.
  induction l as [|kv l IH]; intros ds tl db l' ds' tl' db' la Hg Hs Hbrk Hrun Hw Hla Hdn Hdla Hnd Hch.
  { simpl in Hrun. simplify_eq. eauto. }
  simpl in Hrun. unfold mbind, result_bind in Hrun.
  destruct (Write_one g kv ds tl db) as [[[[kv1 ds1] tl1] db1]|] eqn:H1w; [|done].
  destruct (Write_loop g l ds1 tl1 db1) as [[[[l2 ds2] tl2] db2]|] eqn:H2w; [|done].
  injection Hrun as <- <- <- <-. apply Forall_cons in Hw as [Hkv Hw].
  assert (forall d, d ∈ dummies l2 -> d ∈ dummies (kv1 :: l2)) as Hsub.
  { intros d. unfold dummies. rewrite fmap_cons, filter_cons. case_decide; set_solver. }
  assert (ws_dummy kv1 <> NULL -> ws_dummy kv1 ∈ dummies (kv1 :: l2)) as Hd1.
  { intros Hn. unfold dummies. rewrite fmap_cons, filter_cons, decide_True by done. left. }
  assert (exists la1, vchain (db_nodes db1) a la1 /\
    snapshot_value snap (versions (db_nodes db1) la1) = snapshot_value snap (versions (db_nodes db) la) /\
    forall x, x ∈ la1 -> x ∈ la \/ (x = ws_dummy kv1 /\ x <> NULL)) as (la1 & Hc1 & Hv1 & Hin1).
  { destruct (decide (ws_node kv = a)) as [<-|Hne].
    - pose proof Hkv as (Hd & Hnn & n & Hn & Hle & Hver).
      destruct (Write_one_keeps_snapshots g kv ds tl db kv1 ds1 tl1 db1 n la) as (la1 & ? & ? & Hsv); try done.
      + destruct (decide (ws_dummy kv1 = NULL)) as [E|]; [|auto]. rewrite E. by eapply chain_non_null.
      + exists la1. split_and!; try done. rewrite Hsv. by rewrite decide_False by lia.
    - destruct (vchain_ext (db_nodes db) (db_nodes db1) a la) as [Hc1 Hv1]; [|done|].
      + intros x Hx. apply (Write_one_frame g kv ds tl db kv1 ds1 tl1 db1); try done.
        * intros ->. by apply (Hla kv); [left| |].
        * destruct (decide (ws_dummy kv1 = NULL)) as [|Hn]; [by right|left]. intros ->. by apply (Hdla (ws_dummy kv1)); [auto|].
      + exists la. rewrite Hv1. auto. }
  pose proof (Write_one_brk _ _ _ _ _ _ _ _ _ H1w) as Hb1.
  destruct (IH ds1 tl1 db1 l2 ds2 tl2 db2 la1) as (la' & Hc' & Hv'); try done.
  - lia.
  - apply Forall_forall. intros kv2 Hk2. rewrite Forall_forall in Hw.
    apply (Write_one_writable g kv ds tl db kv1 ds1 tl1 db1); auto.
    destruct (decide (ws_dummy kv1 = NULL)) as [|Hn]; [by right|left]. intros E.
    apply (Hdn (ws_dummy kv1) kv2); [auto|set_solver|done].
  - intros kv2 Hk2 Hne Hin. apply Hin1 in Hin as [Hin|[Hin Hn]].
    + by apply (Hla kv2); [set_solver| |].
    + apply (Hdn (ws_dummy kv1) kv2); [rewrite Hin in Hn; auto|set_solver|done].
  - intros d kv2 Hd Hk2. apply Hdn; [auto|set_solver].
  - intros d Hd Hin. apply Hin1 in Hin as [Hin|[-> Hn]]; [by apply (Hdla d); [auto|]|].
    unfold dummies in Hnd. rewrite fmap_cons, filter_cons, decide_True in Hnd by done.
    apply NoDup_cons in Hnd as [Hnin _]. done.
  - unfold dummies in Hnd |- *. rewrite fmap_cons, filter_cons in Hnd.
    case_decide; [by apply NoDup_cons in Hnd as [_ ?]|done].
  - exists la'. split; [done|]. congruence.
Qed.

Lemma Write_loop_tables g : forall l ds tl db l' ds' tl' db',
  Write_loop g l ds tl db = Ok (l', ds', tl', db') ->
  db_tables db' = db_tables db /\ length l' = length l.
Proof.
  assert (forall kv ds tl db kv' ds' tl' db', Write_one g kv ds tl db = Ok (kv', ds', tl', db') ->
    db_tables db' = db_tables db) as Hone.
  { intros kv ds tl db kv' ds' tl' db'. unfold Write_one. destruct (node_at _ _) as [n|]; [|done].
    unfold mbind, result_bind. destruct (_ =? g); [|destruct (_ <? g)].
    - destruct (if (ws_val kv =? LOGICALDELETE) && _ then _ else _) as [ds1|]; [|done]. by intros [= <- <- <- <-].
    - destruct (if (ws_val kv =? LOGICALDELETE) && _ then _ else _) as [ds1|]; [|done].
      unfold GetMemNode. destruct (_ !! ws_tableid kv) as [p|]; [|done]. simpl.
      unfold mbind, result_bind. destruct (pool_get p) as [[mn p']|]; [|done].
      by destruct (mn =? NULL); intros [= <- <- <- <-].
    - by intros [= <- <- <- <-]. }
  induction l as [|kv l IH]; intros ds tl db l' ds' tl' db' Hrun; simpl in Hrun; [by simplify_eq|].
  unfold mbind, result_bind in Hrun.
  destruct (Write_one g kv ds tl db) as [[[[kv1 ds1] tl1] db1]|] eqn:H1w; [|done].
  destruct (Write_loop g l ds1 tl1 db1) as [[[[l2 ds2] tl2] db2]|] eqn:H2w; [|done].
  injection Hrun as <- <- <- <-. apply IH in H2w as [-> Hl]. apply Hone in H1w as ->.
  simpl. by rewrite Hl.
Qed.

End writes.

(** ** Iterators *)

Section iterators.
Context {St I : Type} `{MemstoreLaws St} `{!MemIterator St I} `{!MemIteratorLaws St I}.
Context (s : St) (m : nodemem) (snap : Z) (vfuel : nat) (sv : Z -> option addr).

(** [sv k]: the value of key [k] in the snapshot. *)
Context (Hsv : forall k a, ms_map s !! k = Some a -> ScanMemNode vfuel m snap a = Ok (sv k)).

Definition above (lo : Z) : gset Z := filter (fun k => lo <= k) (dom (ms_map s)).

Definition shown (lo k : Z) : Prop := lo <= k /\ is_Some (ms_map s !! k) /\ is_Some (sv k).

Lemma above_step lo k :
  lo <= k -> is_Some (ms_map s !! k) -> (size (above (k + 1)) < size (above lo))%nat.
Proof.
  intros Hlo Hk. apply subset_size. apply (strict_spec_alt (above (k + 1)) (above lo)). unfold above. split.
  - intros x. rewrite !elem_of_filter. intros [? ?]. split; [lia|done].
  - intros E. assert (k ∈ filter (fun k' => lo <= k') (dom (ms_map s))) as Hin.
    { apply elem_of_filter. split; [done|]. by apply elem_of_dom. }
    rewrite <- E in Hin. apply elem_of_filter in Hin as [? _]. lia.
Qed.

(** The loop finds the least key that the snapshot shows, if there is one. *)
Lemma forward_spec : forall fuel (it : @RIter I) lo,
  it_ok s (ri_iter it) ->
  is_least (fun k => lo <= k /\ is_Some (ms_map s !! k)) (it_at (ri_iter it)) ->
  (size (above lo) < fuel)%nat ->
  exists it' found, forward vfuel fuel s m snap it = Ok (it', found) /\
    if (found : bool) then
      exists k, it_ok s (ri_iter it') /\ it_at (ri_iter it') = Some k /\
        is_least (shown lo) (Some k) /\ sv k = Some (ri_val it') /\
        ms_map s !! k = Some (ri_cur it')
    else (forall k, ~ shown lo k) /\ ri_cur it' = ri_cur it /\ it_at (ri_iter it') = None.
Proof.
  induction fuel as [|fuel IH]; intros it lo Hok Hleast Hf; [lia|]. cbn [forward].
  destruct (it_at (ri_iter it)) as [k|] eqn:Hat; simpl in Hleast.
  - destruct Hleast as [[Hlo Hk] Hmin].
    rewrite (proj2 (it_Valid_spec (ri_iter it))) by eauto.
    pose proof (it_CurNode_spec s (ri_iter it) k Hok Hat) as Hcur.
    unfold GetValueOnSnapshot. rewrite (Hsv _ _ Hcur). unfold mbind, result_bind.
    destruct (sv k) as [v|] eqn:Hv.
    + assert (is_least (shown lo) (Some k)) as Hsh.
      { split; [split_and!; eauto|]. intros k' (? & ? & _). auto. }
      eexists _, true. split; [done|]. exists k. do 2 (split; [done|]). split; [exact Hsh|]. done.
    + destruct (it_Next_spec s (ri_iter it) k Hok Hat) as [Hok' Hnext].
      pose proof (above_step lo k Hlo Hk) as Hlt.
      destruct (IH (mkRIter (it_Next s (ri_iter it)).2 (ri_cur it) (ri_val it)) (k + 1)) as (it' & found & Hrun & Hres).
      * done.
      * simpl. eapply is_least_ext; [|exact Hnext]. intros k'. simpl. split; intros [? ?]; split; done || lia.
      * lia.
      * exists it', found. split; [done|].
        assert (forall k', shown lo k' -> shown (k + 1) k') as Hsh.
        { intros k' (Hle & Hs & Hv'). split_and!; try done. specialize (Hmin k' (conj Hle Hs)).
          destruct (decide (k' = k)) as [->|]; [|lia]. rewrite Hv in Hv'. by destruct Hv'. }
        destruct found.
        -- destruct Hres as (k2 & ? & ? & [(? & ? & ?) Hm2] & ? & ?). exists k2. do 2 (split; [done|]). split; [|done].
           split; [split_and!; done || lia|]. intros k' Hk'. apply Hm2. auto.
        -- destruct Hres as (Hno & Hcur' & Hend). split_and!; try done. intros k' Hk'. by apply (Hno k'), Hsh.
  - destruct (it_Valid (ri_iter it)) eqn:E.
    { apply it_Valid_spec in E as [? E]. congruence. }
    eexists _, false. split; [done|]. split_and!; try done.
    intros k (? & ? & _). by apply (Hleast k).
Qed.

End iterators.

(** ** Results *)

(** [DBROTX::ScanMemNode] ends and returns the value of the newest version
    that is not newer than the snapshot, and fails when there is none or when
    that version is deleted. *)
Lemma ScanMemNode_newest m snap a l fuel :
  vchain m a l -> (length l <= fuel)%nat ->
  ScanMemNode fuel m snap a = Ok (snapshot_value snap (versions m l)).
Proof. apply ScanMemNode_spec. Qed.


Section iterator_results.
Context {St I : Type} `{MemstoreLaws St} `{!MemIterator St I} `{!MemIteratorLaws St I}.

(** [DBROTX::Iterator::Seek] on a new iterator ends, is [Valid] exactly when
    the snapshot shows a key not below the target, and then stands at the
    least such key with that key's value in the snapshot. *)
Lemma ro_Seek_spec (s : St) (m : nodemem) snap vfuel sv key :
  (forall k a, ms_map s !! k = Some a -> a <> NULL /\ ScanMemNode vfuel m snap a = Ok (sv k)) ->
  exists it, RIter_Seek vfuel (S (size (ms_map s))) s m snap key (RIter_new (I := I)) = Ok it /\
    if RIter_Valid it then is_least (shown s sv key) (Some (RIter_Key it)) /\ sv (RIter_Key it) = Some (RIter_Value it)
    else forall k, ~ shown s sv key k.
Proof.
  intros Hsv. unfold RIter_Seek. destruct (it_Seek_spec s key (it_new (I := I))) as [Hok Hleast].
  destruct (forward_spec s m snap vfuel sv (fun k a E => proj2 (Hsv k a E)) (S (size (ms_map s)))
    (mkRIter (it_Seek s key it_new) NULL NULL) key Hok Hleast) as (it & found & Hrun & Hres).
  { rewrite <- size_dom. apply Nat.lt_succ_r, subseteq_size. unfold above. intros x. rewrite elem_of_filter. tauto. }
  exists it. unfold RIter_new. cbn [ri_iter ri_cur ri_val]. rewrite Hrun. split; [done|]. unfold RIter_Valid.
  destruct found.
  - destruct Hres as (k & Hok' & Hat & Hl & Hv & Hcur). destruct (Hsv _ _ Hcur) as [Hn _].
    rewrite (proj2 (Z.eqb_neq _ _) Hn). simpl. unfold RIter_Key. by rewrite (it_Key_spec _ _ Hat).
  - destruct Hres as (Hno & -> & _). done.
Qed.

(** [DBROTX::Iterator::Next] from key [k] ends at the least later key that
    the snapshot shows, and becomes invalid when there is none. *)
Lemma ro_Next_spec (s : St) (m : nodemem) snap vfuel sv (it : RIter (I := I)) k :
  (forall k a, ms_map s !! k = Some a -> a <> NULL /\ ScanMemNode vfuel m snap a = Ok (sv k)) ->
  it_ok s (ri_iter it) -> it_at (ri_iter it) = Some k ->
  exists it', RIter_Next vfuel (S (size (ms_map s))) s m snap it = Ok it' /\
    if RIter_Valid it' then is_least (shown s sv (k + 1)) (Some (RIter_Key it')) /\ sv (RIter_Key it') = Some (RIter_Value it')
    else forall k', ~ shown s sv (k + 1) k'.
Proof.
  intros Hsv Hok Hat. unfold RIter_Next. destruct (it_Next_spec s (ri_iter it) k Hok Hat) as [Hok' Hleast].
  destruct (forward_spec s m snap vfuel sv (fun k a E => proj2 (Hsv k a E)) (S (size (ms_map s)))
    (mkRIter (it_Next s (ri_iter it)).2 (ri_cur it) (ri_val it)) (k + 1) Hok') as (it' & found & Hrun & Hres).
  { eapply is_least_ext; [|exact Hleast]. intros k'. simpl. split; intros [? ?]; split; done || lia. }
  { rewrite <- size_dom. apply Nat.lt_succ_r, subseteq_size. unfold above. intros x. rewrite elem_of_filter. tauto. }
  rewrite Hrun. unfold mbind, result_bind. eexists. split; [done|]. unfold RIter_Valid. destruct found.
  - destruct Hres as (k2 & _ & Hat2 & Hl & Hv & Hcur). destruct (Hsv _ _ Hcur) as [Hn _].
    rewrite (proj2 (Z.eqb_neq _ _) Hn). simpl. unfold RIter_Key. by rewrite (it_Key_spec _ _ Hat2).
  - destruct Hres as (Hno & _). done.
Qed.

(** The iterator of a read-only transaction ends and shows the snapshot:
    [Seek] on a new iterator is [Valid] exactly when the snapshot shows a key not
    below the target and then stands at the least such key with that key's value
    in the snapshot; [Next] from key [k] stands at the least later key that the
    snapshot shows, and becomes invalid when there is none. *)
Lemma ro_iterator_least (s : St) (m : nodemem) snap vfuel sv :
  (forall k a, ms_map s !! k = Some a -> a <> NULL /\ ScanMemNode vfuel m snap a = Ok (sv k)) ->
  (forall key, exists it,
     RIter_Seek vfuel (S (size (ms_map s))) s m snap key (RIter_new (I := I)) = Ok it /\
     if RIter_Valid it then is_least (shown s sv key) (Some (RIter_Key it)) /\ sv (RIter_Key it) = Some (RIter_Value it)
     else forall k, ~ shown s sv key k) /\
  (forall (it : RIter (I := I)) k, it_ok s (ri_iter it) -> it_at (ri_iter it) = Some k ->
     exists it', RIter_Next vfuel (S (size (ms_map s))) s m snap it = Ok it' /\
       if RIter_Valid it' then is_least (shown s sv (k + 1)) (Some (RIter_Key it')) /\ sv (RIter_Key it') = Some (RIter_Value it')
       else forall k', ~ shown s sv (k + 1) k').
Proof.
  intros Hsv. split; [intros key; by apply ro_Seek_spec|]. intros it k Hok Hat. by apply ro_Next_spec.
Qed.

End iterator_results.

(** ** Examples *)

Definition w_rodb : DB (gmap Z addr) :=
  mkDB {[100 := mkMemNode 1 1 5000 NULL 0; 200 := mkMemNode 2 2 5500 300 0; 300 := mkMemNode 1 1 5100 NULL 0]}
    ∅ 4096 [{[7 := 100; 9 := 200]}] 2 [2 ^ 63].

Definition w_rotl : TL OBJPool := ThreadLocalInit 0 w_rodb.

Definition w_ro : ROTX OBJPool := mkROTX 1 w_rotl GCQueue_new NodeBuf_new.

(** A transaction that writes key 7. *)
Definition w_wtx : TX OBJPool :=
  set_writeset (WriteSet_Add 0 7 6000 100 WriteSet_new) (DBTX_ThreadLocalInit 1 w_rotl).

Definition w_commit : TX OBJPool * DB (gmap Z addr) :=
  match End_rtm w_wtx w_rodb with Ok (Some r) => r | _ => (w_wtx, w_rodb) end.

Lemma ScanMemNode_newest_witness :
  ScanMemNode 2 (db_nodes w_rodb) 1 200 = Ok (snapshot_value 1 (versions (db_nodes w_rodb) [200; 300])).
Proof.
  apply (ScanMemNode_newest (db_nodes w_rodb) 1 200 [200; 300] 2); [|simpl; lia].
  do 2 (apply vchain_cons; split; [reflexivity|split; [done|eexists; split; [reflexivity|]]]). reflexivity.
Defined.


Definition w_tab : gmap Z addr := {[7 := 100; 9 := 200]}.

Definition w_sv (k : Z) : option addr := if k =? 7 then Some 5000 else if k =? 9 then Some 5100 else None.

Lemma w_sv_spec k a : w_tab !! k = Some a ->
  a <> NULL /\ ScanMemNode 2 (db_nodes w_rodb) 1 a = Ok (w_sv k).
Proof.
  unfold w_tab. intros [[<- <-]|[_ [<- <-]%lookup_singleton_Some]]%lookup_insert_Some; split; try done; vm_compute; reflexivity.
Qed.

Lemma ro_iterator_least_witness :
  exists it', RIter_Next 2 (S (size (ms_map w_tab))) w_tab (db_nodes w_rodb) 1 (mkRIter (I := map_iter) (mkMapIter (Some 7) 100) 100 5000) = Ok it' /\
    if RIter_Valid it' then is_least (shown w_tab w_sv 8) (Some (RIter_Key it')) /\ w_sv (RIter_Key it') = Some (RIter_Value it')
    else forall k', ~ shown w_tab w_sv 8 k'.
Proof.
  destruct (ro_iterator_least (I := map_iter) w_tab (db_nodes w_rodb) 1 2 w_sv) as [_ Hnext].
  - exact w_sv_spec.
  - apply (Hnext (mkRIter (mkMapIter (Some 7) 100) 100 5000) 7); reflexivity.
Defined.

(** A store with a loaded row, and the same store after a transaction updated
    the row. *)
Definition w_load : DB (gmap Z addr) :=
  match TupleInsert 0 7 [1; 2] (mkDB ∅ ∅ 4096 [∅] 2 [2 ^ 63]) with Ok db => db | _ => w_rodb end.

Definition w_update : TX OBJPool * DB (gmap Z addr) :=
  let tx := DBTX_ThreadLocalInit 1 w_rotl in
  match Add 1 0 7 6000 tx w_load with
  | Ok (tx, db) => match End_rtm tx db with Ok (Some r) => r | _ => (tx, db) end
  | _ => (tx, w_load)
  end.

(** A row loaded by [TupleInsert] has counter 0, which [WriteSet::Write]
    takes for "not written yet": its first update replaces the value in place,
    and a read-only transaction that saw the row before does not see it
    afterwards. *)
Lemma loaded_row_vanishes :
  RO_Get 3 0 7 w_ro w_load = Ok (Some 4104) /\ RO_Get 3 0 7 w_ro w_update.2 = Ok None.
Proof. split; vm_compute; reflexivity. Qed.
