(* ===== verification/SecondTX.v ===== *)
(** * Transactions over secondary indexes (db/dbtx.cc, db/dbrotx.cc)

    The operations of [DBTX] and [DBROTX] that go through a secondary index:
    the indexed [Add]s, [GetByIndex], and the two [SecondaryIndexIterator]s.
    The index is the one of SecondIndex.v, over any key type; the records its
    wrappers point to are the records of the store. *)

From stdpp Require Import sorting.
From S2P Require Import Prelude OBJPool RCU MemStore TxSets DBTables DBTX DBROTX.
From S2P Require Import BPlusTree BPlusTreeInv BPlusTreeSpec SecondIndex.

(** ** Data *)

(** [DBTX::KeyValues] (and [DBROTX::KeyValues]): two arrays of the length given
    to the constructor, and the count, which the constructor does not set. *)
Record KeyValues := mkKVs { kv_num : Z; kv_keys : list Z; kv_values : list addr }.

(** The constructor's parameter is an [int]; a negative length makes [new]
    throw. *)
Definition to_int (z : Z) : Z := let z := u32 z in if z <? 2 ^ 31 then z else z - 2 ^ 32.

Definition KeyValues_new (num : Z) : result KeyValues :=
  let n := to_int num in
  if n <? 0 then Fault ExitCall
  else Ok (mkKVs 0 (replicate (Z.to_nat n) 0) (replicate (Z.to_nat n) NULL)).

(** [kvs->keys[i] = key; kvs->values[i] = value] *)
Definition kv_set (i : nat) (key : Z) (value : addr) (kvs : KeyValues) : result KeyValues :=
  if (i <? length (kv_keys kvs))%nat && (i <? length (kv_values kvs))%nat
  then Ok (mkKVs (kv_num kvs) (<[i := key]> (kv_keys kvs)) (<[i := value]> (kv_values kvs)))
  else Fault OutOfBounds.

Definition kv_set_num (i : nat) (kvs : KeyValues) : KeyValues :=
  mkKVs (Z.of_nat i) (kv_keys kvs) (kv_values kvs).

(** The local variable [kvs] of [GetByIndex]; [delete] does not clear it. *)
Inductive kvptr :=
  | KNull
  | KLive (kvs : KeyValues)
  | KDeleted.

Section SecondTX.
Context {K : Type} {KO : KeyOrder K}.
Context {S P : Type} `{Memstore S, Pool P}.
Implicit Types (db : DB S) (tx : TX P) (x : SecondIndex (K := K)) (it : SIter (K := K)).

(** The words of the read set: [seq] of a [SecondNode], or of a record. *)
Definition sec_word x db (a : addr) : option Z :=
  match si_nodes x !! a with
  | Some sn => Some (sn_seq sn)
  | None => read_word db a
  end.

(** ** Writes *)

(** [DBTX::Add(tableid, indextableid, key, seckey, new_val)]: the record itself
    is not put into the write set. *)
Definition Add_sec (tableid : nat) (key : Z) (seckey : K) (new_val : addr) tx db x :
    result (TX P * DB S * SecondIndex) :=
  '(node, tx, db) ← find_node true tableid key tx db;
  '(mw, seq, x) ← SecondIndex.GetWithInsert seckey key x;
  Ok (set_writeset (WriteSet_AddSec seq mw node (tx_writeset tx)) tx, db, x).

(** [new char[len]]: a block without room for the header of the pool. *)
Definition copy_value_sec (tableid : nat) (val : list Z) tx db : result (addr * TX P * DB S) :=
  '(value, tl) ← GetEmptyValue tableid (tx_tl tx);
  let tx := set_tl tl tx in
  let '(value, db) :=
    if value =? NULL then malloc (Z.of_nat (length val)) db else (value, db) in
  Ok (value, tx, set_vals (<[value := val]> (db_vals db)) db).

(** [DBTX::Add(tableid, indextableid, key, seckey, val, len)] *)
Definition Add_sec_copy (tableid : nat) (key : Z) (seckey : K) (val : list Z) tx db x :
    result (TX P * DB S * SecondIndex) :=
  '(node, tx, db) ← find_node false tableid key tx db;
  '(mw, seq, x) ← SecondIndex.GetWithInsert seckey key x;
  '(value, tx, db) ← copy_value_sec tableid val tx db;
  let w := WriteSet_Add tableid key value node (tx_writeset tx) in
  Ok (set_writeset (WriteSet_AddSec seq mw node w) tx, db, x).

(** ** Reads *)

(** The loop of [ScanSecondNode] over the wrappers. *)
Fixpoint scan_wrappers (fuel : nat) (mnw : addr) (i : nat) (kvs : KeyValues) tx db x :
    result (nat * KeyValues * TX P) :=
  if mnw =? NULL then Ok (i, kvs, tx)
  else
    match fuel with
    | O => Fault OutOfFuel
    | Datatypes.S fuel =>
        wr ← from_opt NullDeref (si_wrappers x !! mnw);
        '(i, kvs, tx) ←
          (if w_valid wr =? 1 then
             node ← node_at (db_nodes db) (w_memnode wr);
             if ValidateValue (mn_value node) then
               kvs ← kv_set i (w_key wr) (mn_value node) kvs;
               r ← ReadSet_Add (sec_word x db) (w_memnode wr) 0 (tx_readset tx);
               Ok (Datatypes.S i, kvs, set_readset r tx)
             else Ok (i, kvs, tx)
           else Ok (i, kvs, tx));
        scan_wrappers fuel (w_next wr) i kvs tx db x
    end.

Definition ScanSecondNode (sn : addr) (kvs : kvptr) tx db x : result (nat * kvptr * TX P) :=
  r ← ReadSet_Add (sec_word x db) sn 0 (tx_readset tx);
  let tx := set_readset r tx in
  match kvs with
  | KNull => Ok (O, KNull, tx)
  | KDeleted => Fault UseOfFreed
  | KLive kvs =>
      n ← from_opt NullDeref (si_nodes x !! sn);
      '(i, kvs, tx) ← scan_wrappers (size (si_wrappers x)) (sn_head n) 0 kvs tx db x;
      Ok (i, KLive (kv_set_num i kvs), tx)
  end.

(** [GetByIndex] before the RTM region: the length read, and the arrays. *)
Definition GBI_alloc (sn : addr) (kvs : kvptr) x : result (Z * kvptr) :=
  kvs ← (match kvs with KNull => Ok KNull | KLive _ => Ok KDeleted | KDeleted => Fault UseOfFreed end);
  n ← from_opt NullDeref (si_nodes x !! sn);
  let knum := sn_seq n in
  if negb (knum =? 0) then a ← KeyValues_new knum; Ok (knum, KLive a) else Ok (knum, kvs).

(** The RTM region: [None] means the node has changed and the operation starts
    again.  More rows than [knum] would only be reported. *)
Definition GBI_rtm (sn : addr) (knum : Z) (kvs : kvptr) tx db x :
    result (option (option KeyValues * TX P)) :=
  n ← from_opt NullDeref (si_nodes x !! sn);
  if negb (knum =? sn_seq n) then Ok None
  else
    '(i, kvs, tx) ← ScanSecondNode sn kvs tx db x;
    Ok (Some (match i, kvs with Datatypes.S _, KLive kvs => Some kvs | _, _ => None end, tx)).

Fixpoint GBI_retry (fuel : nat) (sn : addr) (kvs : kvptr) tx db x : result (option KeyValues * TX P) :=
  match fuel with
  | O => Fault OutOfFuel
  | Datatypes.S fuel =>
      '(knum, kvs) ← GBI_alloc sn kvs x;
      r ← GBI_rtm sn knum kvs tx db x;
      match r with
      | None => GBI_retry fuel sn kvs tx db x
      | Some r => Ok r
      end
  end.

Definition GetByIndex (fuel : nat) (seckey : K) tx db x : result (option KeyValues * TX P * SecondIndex) :=
  '(sn, x) ← SI_Get seckey x;
  '(kvs, tx) ← GBI_retry fuel sn KNull tx db x;
  Ok (kvs, tx, x).

(** ** The iterator of [DBTX]

    [val_] is not initialised by the constructor. *)
Record DSIter := mkDSIter { ds_iter : SIter (K := K); ds_cur : addr; ds_val : option KeyValues }.

Definition DSIter_new : DSIter := mkDSIter SIter_new NULL None.

Definition DSIter_Valid (d : DSIter) : bool := negb (ds_cur d =? NULL).
Definition DSIter_Key (d : DSIter) : K := it_Key (ds_iter d).
Definition DSIter_Value (d : DSIter) : option KeyValues := ds_val d.

(** The RTM region of [Next], [Prev], [Seek] and [SeekToFirst] on [cur_], with
    the arrays of length [knum]; a node that has changed since is only
    reported.  [None]: no row, the arrays are deleted. *)
Definition sec_visit (cur : addr) (knum : Z) tx db x : result (option KeyValues * TX P) :=
  kvs ← KeyValues_new knum;
  '(i, kvs, tx) ← ScanSecondNode cur (KLive kvs) tx db x;
  Ok (match i, kvs with Datatypes.S _, KLive kvs => Some kvs | _, _ => None end, tx).

Definition node_seq (cur : addr) x : result Z :=
  n ← from_opt NullDeref (si_nodes x !! cur); Ok (sn_seq n).

(** The loop of [Next], [Seek] and [Prev] with the step [move]. *)
Fixpoint sec_loop (move : SIter -> BTree (K := K) -> result (bool * SIter (K := K)))
    (fuel : nat) (d : DSIter) tx db x : result (DSIter * TX P) :=
  match fuel with
  | O => Fault OutOfFuel
  | Datatypes.S fuel =>
      v ← it_Valid (ds_iter d) (si_tree x);
      if (v : bool) then
        cur ← it_CurNode (ds_iter d) (si_tree x);
        knum ← node_seq cur x;
        '(r, tx) ← (if knum =? 0 then Ok (None, tx) else sec_visit cur knum tx db x);
        match r with
        | Some kvs => Ok (mkDSIter (ds_iter d) cur (Some kvs), tx)
        | None =>
            '(_, i) ← move (ds_iter d) (si_tree x);
            sec_loop move fuel (mkDSIter i cur (ds_val d)) tx db x
        end
      else Ok (mkDSIter (ds_iter d) NULL (ds_val d), tx)
  end.

(** Without [AGGRESSIVEDETECT] the answer of the index's [Next] is not used. *)
Definition DSIter_Next (fuel : nat) (d : DSIter) tx db x : result (DSIter * TX P) :=
  '(_, i) ← it_Next (ds_iter d) (si_tree x);
  sec_loop it_Next fuel (mkDSIter i (ds_cur d) (ds_val d)) tx db x.

(** [Prev] marks the transaction to abort when the leaf has changed. *)
Definition DSIter_Prev (fuel : nat) (d : DSIter) tx db x : result (DSIter * TX P) :=
  '(b, i) ← it_Prev (ds_iter d) (si_tree x);
  if (b : bool) then sec_loop it_Prev fuel (mkDSIter i (ds_cur d) (ds_val d)) tx db x
  else Ok (mkDSIter i NULL (ds_val d),
           mkTX (tx_readset tx) (tx_writeset tx) (tx_deleteset tx) (tx_buffer tx) true (tx_tl tx)).

(** The branch for an iterator that is not valid while [CurNode] is not null is
    never taken: [CurNode] is null then. *)
Definition DSIter_Seek (fuel : nat) (key : K) (d : DSIter) tx db x : result (DSIter * TX P) :=
  i ← it_Seek key (ds_iter d) (si_tree x);
  cur ← it_CurNode i (si_tree x);
  sec_loop it_Next fuel (mkDSIter i cur (ds_val d)) tx db x.

(** [SeekToFirst] has a loop of its own: when [cur_] is empty, the index's
    iterator moves on but [cur_] does not. *)
Fixpoint first_loop (fuel : nat) (d : DSIter) tx db x : result (DSIter * TX P) :=
  match fuel with
  | O => Fault OutOfFuel
  | Datatypes.S fuel =>
      v ← it_Valid (ds_iter d) (si_tree x);
      if (v : bool) then
        knum ← node_seq (ds_cur d) x;
        if knum =? 0 then
          '(_, i) ← it_Next (ds_iter d) (si_tree x);
          first_loop fuel (mkDSIter i (ds_cur d) (ds_val d)) tx db x
        else
          '(r, tx) ← sec_visit (ds_cur d) knum tx db x;
          match r with
          | Some kvs => Ok (mkDSIter (ds_iter d) (ds_cur d) (Some kvs), tx)
          | None =>
              '(_, i) ← it_Next (ds_iter d) (si_tree x);
              cur ← it_CurNode i (si_tree x);
              first_loop fuel (mkDSIter i cur (ds_val d)) tx db x
          end
      else Ok (mkDSIter (ds_iter d) NULL (ds_val d), tx)
  end.

Definition DSIter_SeekToFirst (fuel : nat) (d : DSIter) tx db x : result (DSIter * TX P) :=
  i ← it_SeekToFirst (ds_iter d) (si_tree x);
  cur ← it_CurNode i (si_tree x);
  first_loop fuel (mkDSIter i cur (ds_val d)) tx db x.

(** ** The iterator of [DBROTX] *)

(** The loop of [GetValueOnSnapshotByIndex]; [vfuel] is for the versions of a
    record. *)
Fixpoint scan_snapshot (vfuel fuel : nat) (mnw : addr) (i : nat) (kvs : KeyValues) (snap : Z) db x :
    result (nat * KeyValues) :=
  if mnw =? NULL then Ok (i, kvs)
  else
    match fuel with
    | O => Fault OutOfFuel
    | Datatypes.S fuel =>
        wr ← from_opt NullDeref (si_wrappers x !! mnw);
        v ← ScanMemNode vfuel (db_nodes db) snap (w_memnode wr);
        '(i, kvs) ← (match v with
                     | Some v => kvs ← kv_set i (w_key wr) v kvs; Ok (Datatypes.S i, kvs)
                     | None => Ok (i, kvs)
                     end);
        scan_snapshot vfuel fuel (w_next wr) i kvs snap db x
    end.

(** One RTM region; [None] for [false]. *)
Definition GetValueOnSnapshotByIndex (vfuel : nat) (sn : addr) (kvs : KeyValues) (snap : Z) db x :
    result (option KeyValues) :=
  n ← from_opt NullDeref (si_nodes x !! sn);
  '(i, kvs) ← scan_snapshot vfuel (size (si_wrappers x)) (sn_head n) 0 kvs snap db x;
  Ok (match i with O => None | _ => Some (kv_set_num i kvs) end).

(** The loop of the four moves.  An empty node is passed by [skip] and a node
    without a visible row by [move]. *)
Fixpoint ro_sec_loop (skip move : SIter -> BTree (K := K) -> result (bool * SIter (K := K)))
    (vfuel fuel : nat) (d : DSIter) (snap : Z) db x : result (DSIter * bool) :=
  match fuel with
  | O => Fault OutOfFuel
  | Datatypes.S fuel =>
      v ← it_Valid (ds_iter d) (si_tree x);
      if (v : bool) then
        cur ← it_CurNode (ds_iter d) (si_tree x);
        knum ← node_seq cur x;
        if knum =? 0 then
          '(_, i) ← skip (ds_iter d) (si_tree x);
          ro_sec_loop skip move vfuel fuel (mkDSIter i (ds_cur d) (ds_val d)) snap db x
        else
          kvs ← KeyValues_new knum;
          r ← GetValueOnSnapshotByIndex vfuel cur kvs snap db x;
          match r with
          | Some kvs => Ok (mkDSIter (ds_iter d) cur (Some kvs), true)
          | None =>
              '(_, i) ← move (ds_iter d) (si_tree x);
              ro_sec_loop skip move vfuel fuel (mkDSIter i (ds_cur d) (ds_val d)) snap db x
          end
      else Ok (d, false)
  end.

(** Only [Next] and [Prev] clear [cur_] at the end. *)
Definition clear_cur (r : DSIter * bool) : DSIter :=
  if r.2 then r.1 else mkDSIter (ds_iter r.1) NULL (ds_val r.1).

Definition RSIter_Next (vfuel fuel : nat) (d : DSIter) (snap : Z) db x : result DSIter :=
  '(_, i) ← it_Next (ds_iter d) (si_tree x);
  r ← ro_sec_loop it_Next it_Next vfuel fuel (mkDSIter i (ds_cur d) (ds_val d)) snap db x;
  Ok (clear_cur r).

(** [Prev] passes an empty node with [Next]. *)
Definition RSIter_Prev (vfuel fuel : nat) (d : DSIter) (snap : Z) db x : result DSIter :=
  '(_, i) ← it_Prev (ds_iter d) (si_tree x);
  r ← ro_sec_loop it_Next it_Prev vfuel fuel (mkDSIter i (ds_cur d) (ds_val d)) snap db x;
  Ok (clear_cur r).

Definition RSIter_Seek (vfuel fuel : nat) (key : K) (d : DSIter) (snap : Z) db x : result DSIter :=
  i ← it_Seek key (ds_iter d) (si_tree x);
  r ← ro_sec_loop it_Next it_Next vfuel fuel (mkDSIter i (ds_cur d) (ds_val d)) snap db x;
  Ok r.1.

Definition RSIter_SeekToFirst (vfuel fuel : nat) (d : DSIter) (snap : Z) db x : result DSIter :=
  i ← it_SeekToFirst (ds_iter d) (si_tree x);
  r ← ro_sec_loop it_Next it_Next vfuel fuel (mkDSIter i (ds_cur d) (ds_val d)) snap db x;
  Ok r.1.

End SecondTX.

(** ** The rows of a secondary key *)

Definition kv_rows (kvs : KeyValues) : list (Z * addr) :=
  zip (take (Z.to_nat (kv_num kvs)) (kv_keys kvs)) (take (Z.to_nat (kv_num kvs)) (kv_values kvs)).

Lemma to_int_small z : 0 <= z < 2 ^ 31 -> to_int z = z.
Proof.
  intros Hz. unfold to_int, u32. rewrite Z.mod_small by lia. cbn zeta.
  by rewrite (proj2 (Z.ltb_lt _ _)) by lia.
Qed.

Lemma KeyValues_new_ok (n : nat) :
  Z.of_nat n < 2 ^ 31 -> KeyValues_new (Z.of_nat n) = Ok (mkKVs 0 (replicate n 0) (replicate n NULL)).
Proof.
  intros Hn. unfold KeyValues_new. rewrite to_int_small by lia. cbn zeta.
  rewrite (proj2 (Z.ltb_ge _ _)) by lia. by rewrite Nat2Z.id.
Qed.

Section rows.
Context {K : Type} {KO : KeyOrder K}.
Context {St P : Type} `{Memstore St, Pool P}.
Implicit Types (tx : TX P) (db : DB St) (x : SecondIndex (K := K)) (l : list addr).

(** The record behind a wrapper, when the wrapper is valid and the record has a
    value. *)
Definition row_node x db (w : addr) : option (MemNodeWrapper * MemNode) :=
  match si_wrappers x !! w with
  | Some wr =>
      if w_valid wr =? 1 then
        match db_nodes db !! w_memnode wr with
        | Some n => if ValidateValue (mn_value n) then Some (wr, n) else None
        | None => None
        end
      else None
  | None => None
  end.

(** What a reader of the key gets, and what it must record. *)
Definition rows x db l : list (Z * addr) :=
  (fun p => (w_key p.1, mn_value p.2)) <$> omap (row_node x db) l.

Definition row_reads x db l : list RSSeqPair :=
  (fun p => mkRSSeqPair (mn_seq p.2) (w_memnode p.1) 0) <$> omap (row_node x db) l.

Lemma rows_cons x db w l :
  rows x db (w :: l) = match row_node x db w with Some p => (w_key p.1, mn_value p.2) :: rows x db l | None => rows x db l end.
Proof. unfold rows. simpl. by destruct (row_node x db w). Qed.

Lemma row_reads_cons x db w l :
  row_reads x db (w :: l) =
  match row_node x db w with
  | Some p => mkRSSeqPair (mn_seq p.2) (w_memnode p.1) 0 :: row_reads x db l
  | None => row_reads x db l
  end.
Proof. unfold row_reads. simpl. by destruct (row_node x db w). Qed.

(** The valid wrappers point to records. *)
Definition recs_ok x db l : Prop :=
  forall w wr, w ∈ l -> si_wrappers x !! w = Some wr -> w_valid wr = 1 -> is_Some (db_nodes db !! w_memnode wr).

(** [SecondNode]s and records are different objects. *)
Definition apart x db : Prop := forall a, is_Some (db_nodes db !! a) -> si_nodes x !! a = None.

Lemma sec_word_record x db a n : apart x db -> db_nodes db !! a = Some n -> sec_word x db a = Some (mn_seq n).
Proof. intros Hap Hn. unfold sec_word, read_word. rewrite Hap by eauto. by rewrite Hn. Qed.

(** Arrays with [i] rows in them. *)
Record filled (N i : nat) (kvs kvs' : KeyValues) (new : list (Z * addr)) : Prop := {
  fi_keys : length (kv_keys kvs') = N;
  fi_values : length (kv_values kvs') = N;
  fi_take_keys : take (i + length new) (kv_keys kvs') = take i (kv_keys kvs) ++ new.*1;
  fi_take_values : take (i + length new) (kv_values kvs') = take i (kv_values kvs) ++ new.*2
}.

Lemma filled_step N i kvs k v kvs' new :
  length (kv_keys kvs) = N -> length (kv_values kvs) = N -> (i < N)%nat ->
  filled N (S i) (mkKVs (kv_num kvs) (<[i := k]> (kv_keys kvs)) (<[i := v]> (kv_values kvs))) kvs' new ->
  filled N i kvs kvs' ((k, v) :: new).
Proof.
  intros Hk Hv Hi [H1k H1v H2k H2v]. cbn [kv_keys kv_values] in *.
  split; try done; cbn [length]; rewrite Nat.add_succ_r, <- Nat.add_succ_l; rewrite ?H2k, ?H2v.
  - rewrite take_insert_snoc by lia. by rewrite <- app_assoc.
  - rewrite take_insert_snoc by lia. by rewrite <- app_assoc.
Qed.

(** The scan of the wrappers fills the arrays with the rows, or runs over their
    end when there are more. *)
Lemma scan_wrappers_spec N fuel mnw l i kvs tx db x :
  chain (w_nxt (si_wrappers x)) mnw l NULL -> (length l <= fuel)%nat -> recs_ok x db l -> apart x db ->
  rs_wf (tx_readset tx) -> length (kv_keys kvs) = N -> length (kv_values kvs) = N -> (i <= N)%nat ->
  let n := length (rows x db l) in
  if (i + n <=? N)%nat then
    exists kvs' r, scan_wrappers fuel mnw i kvs tx db x = Ok ((i + n)%nat, kvs', set_readset r tx) /\
      filled N i kvs kvs' (rows x db l) /\ rs_wf r /\
      rs_reads r = rs_reads (tx_readset tx) ++ row_reads x db l /\ rs_ranges r = rs_ranges (tx_readset tx)
  else scan_wrappers fuel mnw i kvs tx db x = Fault OutOfBounds.
Proof.
  revert mnw l i kvs tx. induction fuel as [|fuel IH]; intros mnw [|w l] i kvs tx Hc Hf Hrec Hap Hwf Hk Hv Hi;
    simpl in Hf; try lia.
  1,2: simpl in Hc; subst mnw; simpl; rewrite Nat.add_0_r, (proj2 (Nat.leb_le _ _) Hi);
    exists kvs, (tx_readset tx); rewrite !app_nil_r; (split; [by destruct tx|]); split_and!; try done;
    split; simpl; rewrite ?Nat.add_0_r, ?app_nil_r; done.
  destruct Hc as (-> & Hw & nx & Hnx & Hc). cbn [scan_wrappers]. rewrite (proj2 (Z.eqb_neq _ _) Hw).
  unfold w_nxt in Hnx. destruct (si_wrappers x !! w) as [wr|] eqn:Ewr; [|done]. simpl in Hnx. injection Hnx as Hnx.
  assert (Hrec' : recs_ok x db l) by (intros u wu Hu; apply Hrec; set_solver).
  rewrite rows_cons, row_reads_cons. unfold row_node. rewrite Ewr. cbn [from_opt mbind result_bind].
  destruct (Z.eqb_spec (w_valid wr) 1) as [Hval|Hval]; [|cbn [mbind result_bind]; rewrite Hnx; by apply IH; try done; lia].
  destruct (Hrec w wr) as [nd Hnd]; [set_solver|done|done|]. unfold node_at. rewrite Hnd. cbn [from_opt mbind result_bind].
  destruct (ValidateValue (mn_value nd)) eqn:Evv; [|cbn [mbind result_bind]; rewrite Hnx; by apply IH; try done; lia].
  cbn [length fst snd]. unfold kv_set. rewrite Hk, Hv.
  destruct (Nat.ltb_spec i N) as [Hlt|Hge]; cbn [andb].
  2: { rewrite (proj2 (Nat.leb_gt _ _)) by lia. done. }
  cbn [mbind result_bind].
  destruct (ReadSet_Add_spec (sec_word x db) (w_memnode wr) 0 (tx_readset tx) (mn_seq nd)) as (r & -> & Hwf' & Hrd & Hrg);
    [done|by apply sec_word_record|]. cbn [mbind result_bind].
  specialize (IH (w_next wr) l (S i)
    (mkKVs (kv_num kvs) (<[i := w_key wr]> (kv_keys kvs)) (<[i := mn_value nd]> (kv_values kvs))) (set_readset r tx)).
  rewrite Nat.add_succ_r, <- Nat.add_succ_l. simpl in IH.
  destruct (S i + length (rows x db l) <=? N)%nat eqn:El; simpl in El; rewrite El in IH.
  - destruct IH as (kvs' & r' & E & Hfi & Hwf2 & Hrd2 & Hrg2); try done; rewrite ?length_insert; try done; [by rewrite Hnx|lia|].
    exists kvs', r'. split; [exact E|]. split; [by eapply filled_step|]. split; [done|].
    rewrite Hrd2, Hrd, <- app_assoc. split; [done|]. congruence.
  - apply IH; try done; rewrite ?length_insert; try done; [by rewrite Hnx|lia].
Qed.

(** The read set [r'] is [r] with [ps] after it. *)
Definition appended (r r' : ReadSet) (ps : list RSSeqPair) : Prop :=
  rs_wf r' /\ rs_reads r' = rs_reads r ++ ps /\ rs_ranges r' = rs_ranges r.

Lemma appended_nil r : rs_wf r -> appended r r [].
Proof. intros Hwf. split; [done|]. by rewrite app_nil_r. Qed.

Lemma appended_trans r1 r2 r3 ps qs : appended r1 r2 ps -> appended r2 r3 qs -> appended r1 r3 (ps ++ qs).
Proof. intros (_ & H1 & H2) (Hwf & H3 & H4). split; [done|]. rewrite H3, H1, app_assoc. split; [done|]. congruence. Qed.

Lemma filled_all N kvs kvs' new : filled N 0 kvs kvs' new -> kv_rows (kv_set_num (length new) kvs') = new.
Proof.
  intros [_ _ Hk Hv]. unfold kv_rows. simpl in *. rewrite Nat2Z.id, Hk, Hv. apply zip_fst_snd.
Qed.

(** [ScanSecondNode] with new arrays of length [N] on a node with wrappers [l]. *)
Lemma ScanSecondNode_spec N v sn l tx db x :
  si_nodes x !! v = Some sn -> chain (w_nxt (si_wrappers x)) (sn_head sn) l NULL -> recs_ok x db l -> apart x db ->
  rs_wf (tx_readset tx) ->
  let kvs := KLive (mkKVs 0 (replicate N 0) (replicate N NULL)) in
  if (length (rows x db l) <=? N)%nat then
    exists kvs' r, ScanSecondNode v kvs tx db x = Ok (length (rows x db l), KLive kvs', set_readset r tx) /\
      kv_rows kvs' = rows x db l /\ appended (tx_readset tx) r (mkRSSeqPair (sn_seq sn) v 0 :: row_reads x db l)
  else ScanSecondNode v kvs tx db x = Fault OutOfBounds.
Proof.
  intros Hsn Hc Hrec Hap Hwf kvs. unfold ScanSecondNode, kvs.
  destruct (ReadSet_Add_spec (sec_word x db) v 0 (tx_readset tx) (sn_seq sn)) as (r & -> & Hwf' & Hrd & Hrg);
    [done|unfold sec_word; by rewrite Hsn|]. rewrite Hsn. cbn [from_opt mbind result_bind].
  pose proof (scan_wrappers_spec N (size (si_wrappers x)) (sn_head sn) l 0 (mkKVs 0 (replicate N 0) (replicate N NULL))
    (set_readset r tx) db x Hc (chain_length _ _ _ Hc) Hrec Hap) as Hscan.
  cbn [kv_keys kv_values set_readset tx_readset] in Hscan. rewrite !length_replicate in Hscan. cbn [Nat.add] in Hscan.
  specialize (Hscan Hwf' eq_refl eq_refl (Nat.le_0_l _)).
  destruct (length (rows x db l) <=? N)%nat; [|by rewrite Hscan].
  destruct Hscan as (kvs' & r' & -> & Hfi & Hwf2 & Hrd2 & Hrg2). cbn [mbind result_bind].
  eexists _, r'. split; [reflexivity|]. split; [by eapply filled_all|].
  split; [done|]. rewrite Hrd2, Hrd, <- app_assoc. split; [done|]. congruence.
Qed.

(** An index whose nodes can be read: the lists are shorter than an [int], the
    valid wrappers point to records, and these are not nodes of the index. *)
Record sec_ok x db (F : list (addr * list (K * addr))) (W : addr -> list addr) : Prop := {
  so_index : index (si_tree x) F;
  so_nodes : nodes_ok x (contents F).*2 W;
  so_small v : v ∈ (contents F).*2 -> Z.of_nat (length (W v)) < 2 ^ 31;
  so_recs v : v ∈ (contents F).*2 -> recs_ok x db (W v);
  so_apart : apart x db
}.

Lemma length_rows x db l : (length (rows x db l) <= length l)%nat.
Proof.
  induction l as [|w l IH]; [done|]. rewrite rows_cons. destruct (row_node x db w); simpl; lia.
Qed.

(** A node of the index: [seq] is the number of its wrappers. *)
Lemma sec_node x db F W v :
  sec_ok x db F W -> v ∈ (contents F).*2 ->
  v <> NULL /\ exists sn, si_nodes x !! v = Some sn /\ sn_seq sn = Z.of_nat (length (W v)) /\
    chain (w_nxt (si_wrappers x)) (sn_head sn) (W v) NULL.
Proof.
  intros [_ [Hch _ _ _ _ _ Hnull] Hsm _ _] Hv. destruct (Hch v Hv) as (sn & Hsn & Hsq & Hc). split; [congruence|].
  exists sn. split_and!; try done. rewrite Hsq. specialize (Hsm v Hv). apply u64_small. lia.
Qed.

(** What reading a node adds to the read set. *)
Definition node_reads x db W (v : addr) : list RSSeqPair :=
  mkRSSeqPair (Z.of_nat (length (W v))) v 0 :: row_reads x db (W v).

(** The rows as the callers get them: null when there is none. *)
Definition holds (kvs : option KeyValues) (new : list (Z * addr)) : Prop :=
  match kvs with Some k => kv_rows k = new /\ new <> [] | None => new = [] end.

Lemma sec_visit_run x db F W v tx (n : nat) :
  sec_ok x db F W -> v ∈ (contents F).*2 -> rs_wf (tx_readset tx) -> Z.of_nat n < 2 ^ 31 ->
  if (length (rows x db (W v)) <=? n)%nat then
    exists kvs r, sec_visit v (Z.of_nat n) tx db x = Ok (kvs, set_readset r tx) /\
      holds kvs (rows x db (W v)) /\ appended (tx_readset tx) r (node_reads x db W v)
  else sec_visit v (Z.of_nat n) tx db x = Fault OutOfBounds.
Proof.
  intros Hok Hv Hwf Hn. destruct (sec_node _ _ _ _ _ Hok Hv) as (_ & sn & Hsn & Hsq & Hc).
  unfold sec_visit. rewrite KeyValues_new_ok by done. cbn [mbind result_bind].
  pose proof (ScanSecondNode_spec n v sn (W v) tx db x Hsn Hc (so_recs _ _ _ _ Hok v Hv) (so_apart _ _ _ _ Hok) Hwf) as Hs.
  cbn zeta in Hs. destruct (length (rows x db (W v)) <=? n)%nat; [|by rewrite Hs].
  destruct Hs as (kvs & r & -> & Hrows & Happ). cbn [mbind result_bind]. eexists _, r. split; [reflexivity|].
  unfold node_reads. rewrite <- Hsq. split; [|done]. unfold holds.
  destruct (rows x db (W v)) as [|p ps]; simpl; [done|]. done.
Qed.

(** The bodies of [GetByIndex] on a node of the index. *)
Lemma GBI_retry_run fuel x db v sn l tx :
  si_nodes x !! v = Some sn -> sn_seq sn = Z.of_nat (length l) -> Z.of_nat (length l) < 2 ^ 31 ->
  chain (w_nxt (si_wrappers x)) (sn_head sn) l NULL -> recs_ok x db l -> apart x db -> rs_wf (tx_readset tx) ->
  exists kvs r, GBI_retry (S fuel) v KNull tx db x = Ok (kvs, set_readset r tx) /\ holds kvs (rows x db l) /\
    appended (tx_readset tx) r (mkRSSeqPair (Z.of_nat (length l)) v 0 :: row_reads x db l).
Proof.
  intros Hsn Hsq Hsm Hc Hrec Hap Hwf. cbn [GBI_retry]. unfold GBI_alloc, GBI_rtm. cbn [mbind result_bind].
  rewrite Hsn. cbn [from_opt mbind result_bind]. destruct (Z.eqb_spec (sn_seq sn) 0) as [E0|E0].
  - cbn [negb mbind result_bind]. rewrite Z.eqb_refl. unfold ScanSecondNode.
    destruct (ReadSet_Add_spec (sec_word x db) v 0 (tx_readset tx) (sn_seq sn)) as (r & -> & Hwf' & Hrd & Hrg);
      [done|unfold sec_word; by rewrite Hsn|].
    cbn [mbind result_bind negb]. exists None, r. split; [reflexivity|].
    destruct l; [|simpl in Hsq; lia]. split; [done|]. split; [done|]. by rewrite Hrd, Hsq.
  - cbn [negb]. rewrite Hsq, KeyValues_new_ok by done. cbn [mbind result_bind]. rewrite Z.eqb_refl. cbn [negb].
    pose proof (ScanSecondNode_spec (length l) v sn l tx db x Hsn Hc Hrec Hap Hwf) as Hs. cbn zeta in Hs.
    rewrite (proj2 (Nat.leb_le _ _) (length_rows x db l)) in Hs. destruct Hs as (kvs & r & -> & Hrows & Happ).
    cbn [mbind result_bind]. eexists _, r. split; [reflexivity|]. rewrite <- Hsq. split; [|done]. unfold holds.
    destruct (rows x db l) as [|p ps]; simpl; done.
Qed.

Context {KL : KeyLaws K}.

(** What [GetByIndex] does in a consistent index. *)
Lemma GetByIndex_run fuel seckey tx db x F W :
  si_ok x F W -> sec_ok (ThreadLocalInit x) db F W -> rs_wf (tx_readset tx) ->
  let x0 := ThreadLocalInit x in
  exists v kvs r x', GetByIndex (S fuel) seckey tx db x = Ok (kvs, set_readset r tx, x') /\
    match sec_lookup seckey (contents F) with
    | Some u => v = u /\ x' = x0 /\ holds kvs (rows x0 db (W u)) /\ appended (tx_readset tx) r (node_reads x0 db W u)
    | None => kvs = None /\ appended (tx_readset tx) r [mkRSSeqPair 0 v 0] /\
        exists F', index (si_tree x') F' /\ contents F' = sec_insert seckey v (contents F)
    end.
Proof.
  intros Hx Hok Hwf x0. destruct (SI_Get_run seckey x F W Hx) as (v & x' & E & Hn & Hw & Hcase).
  unfold GetByIndex. rewrite E. cbn [mbind result_bind]. exists v.
  assert (Hrun : exists sn l, si_nodes x' !! v = Some sn /\ sn_seq sn = Z.of_nat (length l) /\ Z.of_nat (length l) < 2 ^ 31 /\
            chain (w_nxt (si_wrappers x')) (sn_head sn) l NULL /\ recs_ok x' db l /\
            l = match sec_lookup seckey (contents F) with Some u => W u | None => [] end).
  { destruct (sec_lookup seckey (contents F)) as [u|] eqn:El.
    - destruct Hcase as [-> ->]. apply sec_lookup_in in El.
      destruct (sec_node _ _ _ _ _ Hok El) as (_ & sn & Hsn & Hsq & Hc). exists sn, (W u).
      split_and!; try done; [by apply (so_small _ _ _ _ Hok)|by apply (so_recs _ _ _ _ Hok)].
    - destruct Hcase as [Hnew _]. exists SecondNode_new, []. split_and!; try done.
      intros w wr Hw'. by apply not_elem_of_nil in Hw'. }
  destruct Hrun as (sn & l & Hsn & Hsq & Hsm & Hc & Hrec & Hl).
  assert (Hap : apart x' db) by (intros a Ha; rewrite Hn; by apply (so_apart _ _ _ _ Hok)).
  destruct (GBI_retry_run fuel x' db v sn l tx Hsn Hsq Hsm Hc Hrec Hap Hwf) as (kvs & r & -> & Hh & Happ).
  cbn [mbind result_bind]. exists kvs, r, x'. split; [done|].
  destruct (sec_lookup seckey (contents F)) as [u|]; subst l.
  - destruct Hcase as [-> ->]. done.
  - destruct Hcase as [_ HF]. destruct kvs as [k|]; [by destruct Hh|]. done.
Qed.

Lemma elem_of_rows x db l k a :
  (k, a) ∈ rows x db l <->
  exists w wr n, w ∈ l /\ si_wrappers x !! w = Some wr /\ w_valid wr = 1 /\ db_nodes db !! w_memnode wr = Some n /\
    ValidateValue a = true /\ k = w_key wr /\ a = mn_value n.
Proof.
  unfold rows. rewrite list_elem_of_fmap. setoid_rewrite list_elem_of_omap. unfold row_node. split.
  - intros ([wr n] & [= -> ->] & w & Hw & E). exists w. destruct (si_wrappers x !! w) as [wr'|]; [|done].
    destruct (Z.eqb_spec (w_valid wr') 1); [|done]. destruct (db_nodes db !! w_memnode wr') as [n'|] eqn:En; [|done].
    destruct (ValidateValue (mn_value n')) eqn:Ev; [|done]. injection E as -> ->. by exists wr, n.
  - intros (w & wr & n & Hw & Hwr & Hv & Hn & Hval & -> & ->). exists (wr, n). split; [done|]. exists w. split; [done|].
    by rewrite Hwr, Hv, Hn, Hval.
Qed.


(** the arrays of [GetByIndex] and of the iterators are long enough as long
    as the node is not changed between the reading of its [seq] and the RTM
    region: the [seq] of a node of a consistent index is the number of its
    wrappers.  With arrays of another length [n] the scan writes past them
    exactly when [n] is less than the number of visible rows; [GetByIndex] tests
    for a change and starts again, the iterators print a message and go on. *)
Theorem index_scan_bounds x db F W v tx (n : nat) :
  sec_ok x db F W -> v ∈ (contents F).*2 -> rs_wf (tx_readset tx) -> Z.of_nat n < 2 ^ 31 ->
  (sec_visit v (Z.of_nat n) tx db x = Fault OutOfBounds <-> (n < length (rows x db (W v)))%nat) /\
  node_seq v x = Ok (Z.of_nat (length (W v))) /\ (length (rows x db (W v)) <= length (W v))%nat /\
  (Z.of_nat n <> Z.of_nat (length (W v)) -> forall kvs, GBI_rtm v (Z.of_nat n) kvs tx db x = Ok None).
Proof.
  intros Hok Hv Hwf Hn. destruct (sec_node _ _ _ _ _ Hok Hv) as (_ & sn & Hsn & Hsq & _). split_and!.
  - pose proof (sec_visit_run x db F W v tx n Hok Hv Hwf Hn) as Hs.
    destruct (Nat.leb_spec (length (rows x db (W v))) n).
    + destruct Hs as (kvs & r & -> & _). split; [done|lia].
    + split; [done|]. intros _. done.
  - unfold node_seq. by rewrite Hsn, <- Hsq.
  - apply length_rows.
  - intros Hne kvs. unfold GBI_rtm. rewrite Hsn. cbn [from_opt mbind result_bind]. rewrite Hsq.
    by rewrite (proj2 (Z.eqb_neq _ _) Hne).
Qed.

(** After [Put] the index can be read if it could be before and the new wrapper
    points to a record. *)
Lemma SI_Put_sec_ok seckey prikey memnode db x F W :
  si_ok x F W -> (forall v, v ∈ (contents F).*2 -> Z.of_nat (length (W v)) < 2 ^ 31 - 1 /\ recs_ok x db (W v)) ->
  is_Some (db_nodes db !! memnode) ->
  (forall x', SI_Put seckey prikey memnode x = Ok x' -> apart (ThreadLocalInit x') db) ->
  exists w secn x' F' W' nxt, SI_Put seckey prikey memnode x = Ok x' /\ si_ok x' F' W' /\
    sec_ok (ThreadLocalInit x') db F' W' /\ sec_lookup seckey (contents F') = Some secn /\ w ∈ W' secn /\
    si_wrappers (ThreadLocalInit x') !! w = Some (mkWrapper prikey memnode nxt 1) /\
    forall v u, sec_lookup seckey (contents F) = Some v -> u ∈ W v ->
      u ∈ W' secn /\ (u <> w -> si_wrappers (ThreadLocalInit x') !! u = si_wrappers x !! u) /\
      (forall wr, u = w -> si_wrappers x !! u = Some wr -> w_key wr = prikey).
Proof.
  intros Hx Hread Hm Hap. destruct (SI_Put_run seckey prikey memnode x F W Hx)
    as (w & secn & x' & F' & W' & nxt & E & Hx' & Hl & Hw & Hc & HWo & HW & Hwr & Hkeep & Hkey).
  destruct (ThreadLocalInit_ok _ _ _ Hx') as (Hix & _ & Hno & _ & Hk0).
  assert (Hin : forall v, v ∈ (contents F').*2 ->
            Z.of_nat (length (W' v)) < 2 ^ 31 /\ forall u, u ∈ W' v -> u = w \/ (v ∈ (contents F).*2 /\ u ∈ W v)).
  { intros v Hv. destruct (decide (v = secn)) as [->|Hne].
    - rewrite HW. destruct (sec_lookup seckey (contents F)) as [u0|] eqn:El.
      + assert (Hs : secn ∈ (contents F).*2) by (rewrite <- Hc; by apply (sec_lookup_in seckey)).
        destruct (Hread secn Hs) as [Hlen _].
        destruct (wrapper_of _ _ _); (split; [cbn [length]; lia|]); [auto|]. intros u [->|Hu]%elem_of_cons; auto.
      + split; [done|]. intros u ->%list_elem_of_singleton. by left.
    - assert (Hs : v ∈ (contents F).*2).
      { rewrite Hc in Hv. destruct (sec_lookup seckey (contents F)); [done|]. rewrite sec_insert_perm in Hv. simpl in Hv.
        by apply elem_of_cons in Hv as [?|?]. }
      rewrite (HWo v Hs Hne). destruct (Hread v Hs). split; [lia|auto]. }
  assert (Hkeep' : forall v u, v ∈ (contents F).*2 -> u ∈ W v -> u <> w -> si_wrappers (ThreadLocalInit x') !! u = si_wrappers x !! u).
  { intros v u Hv Hu Hne. rewrite Hk0; [by apply (Hkeep v)|]. rewrite (Hkeep v u) by done.
    destruct Hx as (_ & _ & [Hch _ _ _ _ _ _] & _). destruct (Hch v Hv) as (sn & _ & _ & Hcn).
    by apply (chain_in_wrappers _ _ _ _ Hcn). }
  assert (Hwr' : si_wrappers (ThreadLocalInit x') !! w = Some (mkWrapper prikey memnode nxt 1)) by (rewrite Hk0 by eauto; done).
  exists w, secn, x', F', W', nxt. split; [done|]. split; [done|]. split.
  { split; try done; [by intros v Hv; apply Hin| |by apply Hap].
    intros v Hv u wr Hu Hwu Hval. destruct (decide (u = w)) as [->|Hne]; [rewrite Hwr' in Hwu; injection Hwu as <-; done|].
    destruct (Hin v Hv) as [_ Hsub]. destruct (Hsub u Hu) as [?|[Hv0 Hu0]]; [done|].
    rewrite (Hkeep' v) in Hwu by done. destruct (Hread v Hv0) as [_ Hrec]. by eapply Hrec. }
  do 3 (split; [done|]). intros v u Hlv Hu. rewrite Hlv in HW, Hc. rewrite Hc, Hlv in Hl. injection Hl as ->.
  split; [rewrite HW; destruct (wrapper_of _ _ _); set_solver|].
  assert (Hs : secn ∈ (contents F).*2) by (by apply (sec_lookup_in seckey)).
  split; [intros Hne; by apply (Hkeep' secn)|]. intros wr -> Hwr0. by apply (Hkey secn).
Qed.

(** What [Put] enters into a secondary index is found by [GetByIndex]: the
    primary key with the value of its record is among the rows of the secondary
    key, and the rows of other primary keys that were there are still there. *)
Theorem Put_then_GetByIndex fuel seckey prikey memnode n tx db x F W :
  si_ok x F W -> (forall v, v ∈ (contents F).*2 -> Z.of_nat (length (W v)) < 2 ^ 31 - 1 /\ recs_ok x db (W v)) ->
  (forall x', SI_Put seckey prikey memnode x = Ok x' -> apart (ThreadLocalInit x') db) ->
  db_nodes db !! memnode = Some n -> ValidateValue (mn_value n) = true -> rs_wf (tx_readset tx) ->
  exists x' kvs r x'', SI_Put seckey prikey memnode x = Ok x' /\
    GetByIndex (S fuel) seckey tx db x' = Ok (Some kvs, set_readset r tx, x'') /\
    (prikey, mn_value n) ∈ kv_rows kvs /\
    forall v k a, sec_lookup seckey (contents F) = Some v -> (k, a) ∈ rows x db (W v) -> k <> prikey -> (k, a) ∈ kv_rows kvs.
Proof.
  intros Hx Hread Hap Hn Hval Hwf.
  destruct (SI_Put_sec_ok seckey prikey memnode db x F W Hx Hread (mk_is_Some _ _ Hn) Hap)
    as (w & secn & x' & F' & W' & nxt & E & Hx' & Hok & Hl & Hw & Hwr & Hold).
  destruct (GetByIndex_run fuel seckey tx db x' F' W' Hx' Hok Hwf) as (v & kvs & r & x'' & E' & Hcase).
  rewrite Hl in Hcase. destruct Hcase as (-> & _ & Hh & _).
  assert (Hrow : (prikey, mn_value n) ∈ rows (ThreadLocalInit x') db (W' secn)).
  { apply elem_of_rows. exists w, (mkWrapper prikey memnode nxt 1), n. done. }
  destruct kvs as [kvs|]; [|simpl in Hh; rewrite Hh in Hrow; by apply not_elem_of_nil in Hrow].
  destruct Hh as [Hh _]. exists x', kvs, r, x''. rewrite Hh. do 3 (split; [done|]).
  intros v k a Hlv (u & wr & m & Hu & Hwu & Hv & Hm & Hva & -> & ->)%elem_of_rows Hne. apply elem_of_rows.
  destruct (Hold v u Hlv Hu) as (Hu' & Hsame & Hkey). exists u, wr, m. split_and!; try done.
  rewrite Hsame; [done|]. intros Eq. by apply Hne, Hkey.
Qed.

End rows.

(** ** Moving over the entries *)

Section walk.
Context {K : Type} {KO : KeyOrder K} {KL : KeyLaws K}.
Implicit Types (s : BTree (K := K)) (F : list (addr * list (K * addr))) (L : list (K * addr)).

(** [move] goes along [L]. *)
Definition walks (move : SIter -> BTree -> result (bool * SIter)) s F L : Prop :=
  forall A k v B it, L = A ++ (k, v) :: B -> iter_at s F it (Some (k, v)) ->
    exists b it', move it s = Ok (b, it') /\ iter_at s F it' (head B).

Lemma Next_walks s F : index s F -> walks it_Next s F (contents F).
Proof.
  intros Hix A k v B it HL (Hok & <- & <-). pose proof (index_sorted _ _ Hix) as Hs.
  destruct (it_Next_at s F it Hix Hok) as (b & it' & E & Hat). exists b, it'. split; [done|].
  rewrite HL in Hs, Hat. by rewrite first_above in Hat.
Qed.

Lemma Prev_walks s F : index s F -> walks it_Prev s F (reverse (contents F)).
Proof.
  intros Hix A k v B it HL (Hok & <- & <-). pose proof (index_sorted _ _ Hix) as Hs.
  destruct (it_Prev_at s F it Hix Hok) as (b & it' & E & Hat). exists b, it'. split; [done|].
  apply (f_equal reverse) in HL. rewrite reverse_involutive, reverse_app, reverse_cons, <- app_assoc in HL.
  rewrite HL in Hs, Hat. rewrite fmap_app in Hs. cbn [app] in Hs, Hat. rewrite fmap_cons in Hs. cbn [fst] in Hs.
  apply StronglySorted_app in Hs as (Hlt & _ & Hs). apply StronglySorted_cons in Hs as [Hgt _].
  rewrite last_below in Hat.
  - rewrite last_reverse in Hat. exact Hat.
  - apply Forall_forall. intros y Hy. apply Hlt; set_solver.
  - constructor; [apply klt_irrefl|]. eapply Forall_impl; [exact Hgt|]. intros y Hy. simpl in Hy.
    rewrite klt_kle, negb_false_iff. by apply klt_le.
Qed.

(** A condition that holds from some entry on. *)
Definition from_on (P : K -> bool) L : Prop :=
  exists A B, L = A ++ B /\ Forall (fun y => P y = false) A.*1 /\ Forall (fun y => P y = true) B.*1.

Lemma upward_from_on (P : K -> bool) L :
  (forall a b, klt a b = true -> P a = true -> P b = true) -> StronglySorted (fun a b : K => klt a b = true) L.*1 -> from_on P L.
Proof.
  intros Hup. induction L as [|[k v] L IH]; intros Hs; [exists [], []; split_and!; [done|constructor..]|].
  rewrite fmap_cons in Hs. apply StronglySorted_cons in Hs as [Hk Hs]. simpl in Hk. destruct (P k) eqn:Ek.
  - exists [], ((k, v) :: L). split; [done|]. split; [constructor|]. constructor; [done|].
    eapply Forall_impl; [exact Hk|]. intros y Hy. by apply (Hup k).
  - destruct (IH Hs) as (A & B & -> & HA & HB). exists ((k, v) :: A), B. split; [done|]. split; [by constructor|done].
Qed.

Lemma from_on_reverse P L : from_on P L -> from_on (fun y => negb (P y)) (reverse L).
Proof.
  intros (A & B & -> & HA & HB). exists (reverse B), (reverse A). rewrite reverse_app. split; [done|].
  rewrite Forall_forall in HA, HB. split; apply Forall_forall; intros y (e & -> & He)%list_elem_of_fmap;
    rewrite elem_of_reverse in He; apply list_elem_of_fmap_2 with (f := fst) in He.
  - by rewrite HB.
  - by rewrite HA.
Qed.

Lemma first_key_from (P : K -> bool) A B :
  Forall (fun y => P y = false) A.*1 -> Forall (fun y => P y = true) B.*1 -> first_key P (A ++ B) = head B.
Proof.
  intros HA HB. destruct B as [|[k v] B]; [rewrite app_nil_r; by apply first_key_none|].
  apply Forall_cons in HB as [Hk _]. by apply first_key_app.
Qed.

Lemma find_from (P : K -> bool) (Q : K * addr -> bool) A B :
  Forall (fun y => P y = false) A.*1 -> Forall (fun y => P y = true) B.*1 ->
  List.find (fun e => P e.1 && Q e) (A ++ B) = List.find Q B.
Proof.
  intros HA HB. induction A as [|[k v] A IH]; simpl.
  - clear HA. induction B as [|[k v] B IH]; [done|]. apply Forall_cons in HB as [Hk HB]. simpl in *. rewrite Hk. simpl.
    by rewrite IH.
  - apply Forall_cons in HA as [Hk HA]. simpl in Hk. rewrite Hk. simpl. by apply IH.
Qed.

End walk.

(** ** The iterator of read-write transactions *)

Section rw_iterator.
Context {K : Type} {KO : KeyOrder K} {KL : KeyLaws K}.
Context {St P : Type} `{Memstore St, Pool P}.
Implicit Types (tx : TX P) (d : DSIter (K := K)) (L : list (K * addr)).
Context (x : SecondIndex (K := K)) (db : DB St) (F : list (addr * list (K * addr))) (W : addr -> list addr).
Context (Hok : sec_ok x db F W).

(** The entry has a row. *)
Definition has_row (e : K * addr) : bool := negb (length (rows x db (W e.2)) =? 0)%nat.

(** What the loop records until it stops. *)
Fixpoint loop_reads L : list RSSeqPair :=
  match L with
  | [] => []
  | e :: L =>
      (if (length (W e.2) =? 0)%nat then [] else node_reads x db W e.2) ++
      (if has_row e then [] else loop_reads L)
  end.

(** The iterator stands on the entry with its rows, or is not valid. *)
Definition sec_at d (o : option (K * addr)) : Prop :=
  match o with
  | Some (k, v) => DSIter_Valid d = true /\ DSIter_Key d = k /\ ds_cur d = v /\ iter_at (si_tree x) F (ds_iter d) (Some (k, v)) /\
      exists kvs, DSIter_Value d = Some kvs /\ kv_rows kvs = rows x db (W v)
  | None => DSIter_Valid d = false
  end.

Lemma visit_entry v tx :
  v ∈ (contents F).*2 -> rs_wf (tx_readset tx) ->
  node_seq v x = Ok (Z.of_nat (length (W v))) /\
  exists kvs r, (if Z.of_nat (length (W v)) =? 0 then Ok (None, tx) else sec_visit v (Z.of_nat (length (W v))) tx db x) =
      Ok (kvs, set_readset r tx) /\ holds kvs (rows x db (W v)) /\
    appended (tx_readset tx) r (if (length (W v) =? 0)%nat then [] else node_reads x db W v).
Proof.
  intros Hv Hwf. destruct (sec_node _ _ _ _ _ Hok Hv) as (_ & sn & Hsn & Hsq & _).
  split; [unfold node_seq; by rewrite Hsn, <- Hsq|].
  destruct (Nat.eqb_spec (length (W v)) 0) as [E|E].
  - rewrite E. exists None, (tx_readset tx). split; [by destruct tx|]. split; [|by apply appended_nil].
    simpl. apply nil_length_inv in E. by rewrite E.
  - rewrite (proj2 (Z.eqb_neq _ _)) by lia.
    pose proof (sec_visit_run x db F W v tx (length (W v)) Hok Hv Hwf (so_small _ _ _ _ Hok v Hv)) as Hs.
    rewrite (proj2 (Nat.leb_le _ _) (length_rows _ _ _)) in Hs. done.
Qed.

Lemma sec_loop_spec move L0 : walks move (si_tree x) F L0 -> (forall e, e ∈ L0 -> e ∈ contents F) ->
  forall fuel L A d tx, L0 = A ++ L -> iter_at (si_tree x) F (ds_iter d) (head L) -> (length L < fuel)%nat ->
  rs_wf (tx_readset tx) ->
  exists d' r, sec_loop move fuel d tx db x = Ok (d', set_readset r tx) /\ sec_at d' (List.find has_row L) /\
    appended (tx_readset tx) r (loop_reads L).
Proof.
  intros Hwalk Hsub fuel. induction fuel as [|fuel IH]; intros L A d tx HL Hat Hf Hwf; [lia|]. cbn [sec_loop].
  rewrite (iter_at_Valid _ _ _ _ (so_index _ _ _ _ Hok) Hat). destruct L as [|[k v] L].
  { simpl. eexists _, (tx_readset tx). split; [by destruct tx|]. split; [done|by apply appended_nil]. }
  cbn [head]. rewrite bool_decide_true by eauto. cbn [mbind result_bind]. unfold it_CurNode.
  rewrite (iter_at_Valid _ _ _ _ (so_index _ _ _ _ Hok) Hat). cbn [head]. rewrite bool_decide_true by eauto. cbn [mbind result_bind].
  assert (Hv : v ∈ (contents F).*2) by (apply list_elem_of_fmap; exists (k, v); split; [done|apply Hsub; set_solver]).
  pose proof Hat as (_ & Hkey & Hval). rewrite Hval. destruct (visit_entry v tx Hv Hwf) as (-> & kvs & r & E & Hh & Happ).
  cbn [mbind result_bind]. rewrite E. cbn [mbind result_bind List.find loop_reads snd].
  destruct (sec_node _ _ _ _ _ Hok Hv) as (Hnn & _). destruct kvs as [kvs|].
  - destruct Hh as [Hh Hne]. assert (Hr : has_row (k, v) = true) by (unfold has_row; simpl; by destruct (rows x db (W v))). rewrite Hr.
    eexists _, r. split; [reflexivity|]. rewrite app_nil_r. split; [|done]. cbn [sec_at]. unfold DSIter_Valid. simpl.
    rewrite (proj2 (Z.eqb_neq _ _) Hnn). split; [done|]. split; [exact Hkey|]. split; [done|]. split; [exact Hat|]. by exists kvs.
  - simpl in Hh. assert (Hr : has_row (k, v) = false) by (unfold has_row; simpl; by rewrite Hh). rewrite Hr.
    destruct (Hwalk A k v L (ds_iter d) HL Hat) as (b & i & -> & Hat'). cbn [mbind result_bind].
    destruct (IH L (A ++ [(k, v)]) (mkDSIter i v (ds_val d)) (set_readset r tx)) as (d' & r' & E' & Hat'' & Happ');
      [by rewrite <- app_assoc|done|simpl in Hf; lia|apply Happ|].
    exists d', r'. split; [exact E'|]. split; [done|]. by apply (appended_trans _ r).
Qed.

Context (fuel : nat) (Hfuel : (length (contents F) < fuel)%nat).

Lemma find_entry_length L A B : L = A ++ B -> (length L < fuel)%nat -> (length B < fuel)%nat.
Proof. intros -> Hl. rewrite length_app in Hl. lia. Qed.

Lemma DSIter_Seek_run key d tx :
  rs_wf (tx_readset tx) ->
  exists d' r, DSIter_Seek fuel key d tx db x = Ok (d', set_readset r tx) /\ rs_wf r /\
    sec_at d' (List.find (fun e => kle key e.1 && has_row e) (contents F)).
Proof.
  intros Hwf. pose proof (so_index _ _ _ _ Hok) as Hix.
  destruct (it_Seek_at key (si_tree x) F (ds_iter d) Hix) as (i & E & Hat).
  destruct (upward_from_on (fun y => kle key y) (contents F)) as (A & B & HL & HA & HB); [eauto using kle_trans, klt_le|by apply (index_sorted (si_tree x))|].
  unfold DSIter_Seek. rewrite E. cbn [mbind result_bind]. unfold it_CurNode.
  rewrite (iter_at_Valid _ _ _ _ Hix Hat). cbn [mbind result_bind]. rewrite HL, first_key_from in Hat by done.
  edestruct (sec_loop_spec it_Next (contents F) (Next_walks _ _ Hix)) as (d' & r & -> & Hd & Happ);
    [auto|exact HL|exact Hat|by eapply find_entry_length|done|].
  exists d', r. split; [done|]. split; [apply Happ|]. by rewrite HL, find_from.
Qed.

Lemma DSIter_Next_run d tx :
  rs_wf (tx_readset tx) -> iter_ok (si_tree x) F (ds_iter d) ->
  exists d' r, DSIter_Next fuel d tx db x = Ok (d', set_readset r tx) /\ rs_wf r /\
    sec_at d' (List.find (fun e => klt (DSIter_Key d) e.1 && has_row e) (contents F)).
Proof.
  intros Hwf Hit. pose proof (so_index _ _ _ _ Hok) as Hix.
  destruct (it_Next_at (si_tree x) F (ds_iter d) Hix Hit) as (b & i & E & Hat).
  destruct (upward_from_on (fun y => klt (DSIter_Key d) y) (contents F)) as (A & B & HL & HA & HB); [eauto using klt_trans|by apply (index_sorted (si_tree x))|].
  unfold DSIter_Next. rewrite E. cbn [mbind result_bind]. 
  change (it_key (ds_iter d)) with (DSIter_Key d) in Hat. rewrite HL, first_key_from in Hat by done.
  edestruct (sec_loop_spec it_Next (contents F) (Next_walks _ _ Hix)) as (d' & r & -> & Hd & Happ);
    [auto|exact HL|exact Hat|by eapply find_entry_length|done|].
  exists d', r. split; [done|]. split; [apply Happ|]. by rewrite HL, find_from.
Qed.

(** The transaction with the mark that makes [End] fail. *)
Definition mark_abort tx : TX P :=
  mkTX (tx_readset tx) (tx_writeset tx) (tx_deleteset tx) (tx_buffer tx) true (tx_tl tx).

Lemma DSIter_Prev_run d tx :
  rs_wf (tx_readset tx) -> iter_ok (si_tree x) F (ds_iter d) ->
  exists d' tx', DSIter_Prev fuel d tx db x = Ok (d', tx') /\
    ((DSIter_Valid d' = false /\ tx' = mark_abort tx) \/
     (exists r, tx' = set_readset r tx /\ rs_wf r /\
        sec_at d' (List.find (fun e => klt e.1 (DSIter_Key d) && has_row e) (reverse (contents F))))).
Proof.
  intros Hwf Hit. pose proof (so_index _ _ _ _ Hok) as Hix.
  destruct (it_Prev_at (si_tree x) F (ds_iter d) Hix Hit) as (b & i & E & Hat).
  unfold DSIter_Prev. rewrite E. cbn [mbind result_bind]. destruct b; [|eexists _, _; split; [reflexivity|]; by left].
  destruct (upward_from_on (fun y => kle (DSIter_Key d) y) (contents F)) as (A & B & HL & HA & HB);
    [eauto using kle_trans, klt_le|by apply (index_sorted (si_tree x))|].
  destruct (from_on_reverse (fun y => kle (DSIter_Key d) y) (contents F)) as (A' & B' & HL' & HA' & HB'); [by exists A, B|].
  change (it_key (ds_iter d)) with (DSIter_Key d) in Hat.
  assert (Hneg : forall b l, Forall (fun y => negb (kle (DSIter_Key d) y) = b) l -> Forall (fun y => klt y (DSIter_Key d) = b) l).
  { intros b l Hl. eapply Forall_impl; [exact Hl|]. intros y Hy. by rewrite klt_kle. }
  apply Hneg in HA', HB'. rewrite HL', first_key_from in Hat by done.
  edestruct (sec_loop_spec it_Prev (reverse (contents F)) (Prev_walks _ _ Hix)) as (d' & r & -> & Hd & Happ).
  - intros e He. by rewrite elem_of_reverse in He.
  - exact HL'.
  - exact Hat.
  - eapply find_entry_length; [exact HL'|]. by rewrite length_reverse.
  - done.
  - eexists d', _. split; [reflexivity|]. right. exists r. split; [done|]. split; [apply Happ|]. 
    by rewrite HL', (find_from (fun y => klt y (DSIter_Key d))).
Qed.

End rw_iterator.

(** ** The iterator of read-only transactions *)

Section ro_iterator.
Context {K : Type} {KO : KeyOrder K} {KL : KeyLaws K}.
Context {St : Type} `{Memstore St}.
Implicit Types (d : DSIter (K := K)) (L : list (K * addr)) (l : list addr).
Context (x : SecondIndex (K := K)) (db : DB St) (F : list (addr * list (K * addr))) (W : addr -> list addr).
Context (Hok : sec_ok x db F W).

(** [V n] are the versions of record [n], and [vfuel] bounds their number. *)
Context (V : addr -> list addr) (vfuel : nat) (snap : Z).

Definition versions_ok l : Prop :=
  forall w wr, w ∈ l -> si_wrappers x !! w = Some wr ->
    vchain (db_nodes db) (w_memnode wr) (V (w_memnode wr)) /\ (length (V (w_memnode wr)) <= vfuel)%nat.

Context (Hver : forall v, v ∈ (contents F).*2 -> versions_ok (W v)).

(** What the snapshot shows of a wrapper; [valid] is not looked at. *)
Definition ro_row (w : addr) : option (Z * addr) :=
  match si_wrappers x !! w with
  | Some wr => (fun v => (w_key wr, v)) <$> snapshot_value snap (versions (db_nodes db) (V (w_memnode wr)))
  | None => None
  end.

Definition ro_rows l : list (Z * addr) := omap ro_row l.

Lemma ro_rows_cons w l :
  ro_rows (w :: l) = match ro_row w with Some p => p :: ro_rows l | None => ro_rows l end.
Proof. done. Qed.

Lemma length_ro_rows l : (length (ro_rows l) <= length l)%nat.
Proof. induction l as [|w l IH]; [done|]. rewrite ro_rows_cons. destruct (ro_row w); simpl; lia. Qed.

Lemma scan_snapshot_spec N fuel mnw l i kvs :
  chain (w_nxt (si_wrappers x)) mnw l NULL -> (length l <= fuel)%nat -> versions_ok l ->
  length (kv_keys kvs) = N -> length (kv_values kvs) = N -> (i + length (ro_rows l) <= N)%nat ->
  exists kvs', scan_snapshot vfuel fuel mnw i kvs snap db x = Ok ((i + length (ro_rows l))%nat, kvs') /\
    filled N i kvs kvs' (ro_rows l).
Proof.
  revert mnw l i kvs. induction fuel as [|fuel IH]; intros mnw [|w l] i kvs Hc Hf Hv Hk Hvl Hi; simpl in Hf; try lia.
  1,2: simpl in Hc; subst mnw; simpl; rewrite Nat.add_0_r; exists kvs; (split; [done|]);
    split; simpl; rewrite ?Nat.add_0_r, ?app_nil_r; done.
  destruct Hc as (-> & Hw & nx & Hnx & Hc). cbn [scan_snapshot]. rewrite (proj2 (Z.eqb_neq _ _) Hw).
  unfold w_nxt in Hnx. destruct (si_wrappers x !! w) as [wr|] eqn:Ewr; [|done]. simpl in Hnx. injection Hnx as Hnx.
  assert (Hv' : versions_ok l) by (intros u wu Hu; apply Hv; set_solver).
  destruct (Hv w wr) as [Hch Hlen]; [set_solver|done|]. cbn [from_opt mbind result_bind].
  rewrite (ScanMemNode_spec _ _ _ _ _ Hch Hlen). cbn [mbind result_bind]. rewrite ro_rows_cons in Hi |- *. unfold ro_row in Hi |- *.
  rewrite Ewr in Hi |- *. destruct (snapshot_value _ _) as [val|]; cbn [fmap option_fmap option_map mbind result_bind] in *.
  2: { rewrite Hnx. by apply IH; try done; lia. }
  cbn [length] in Hi |- *. unfold kv_set. rewrite Hk, Hvl, (proj2 (Nat.ltb_lt _ _)) by lia. cbn [andb mbind result_bind].
  rewrite Nat.add_succ_r, <- Nat.add_succ_l.
  destruct (IH (w_next wr) l (S i) (mkKVs (kv_num kvs) (<[i := w_key wr]> (kv_keys kvs)) (<[i := val]> (kv_values kvs))))
    as (kvs' & E & Hfi); cbn [kv_keys kv_values]; rewrite ?length_insert; try done; [by rewrite Hnx|lia..|].
  exists kvs'. split; [exact E|]. apply filled_step; try done. lia.
Qed.

Definition ro_has_row (e : K * addr) : bool := negb (length (ro_rows (W e.2)) =? 0)%nat.

(** One node: the rows of the snapshot. *)
Lemma GetValueOnSnapshotByIndex_run v :
  v ∈ (contents F).*2 ->
  node_seq v x = Ok (Z.of_nat (length (W v))) /\
  exists kvs r, KeyValues_new (Z.of_nat (length (W v))) = Ok kvs /\
    GetValueOnSnapshotByIndex vfuel v kvs snap db x = Ok r /\ holds r (ro_rows (W v)).
Proof.
  intros Hv. destruct (sec_node _ _ _ _ _ Hok Hv) as (_ & sn & Hsn & Hsq & Hc).
  split; [unfold node_seq; by rewrite Hsn, <- Hsq|]. rewrite KeyValues_new_ok by apply (so_small _ _ _ _ Hok v Hv).
  eexists. unfold GetValueOnSnapshotByIndex. rewrite Hsn. cbn [from_opt mbind result_bind].
  destruct (scan_snapshot_spec (length (W v)) (size (si_wrappers x)) (sn_head sn) (W v) 0
    (mkKVs 0 (replicate (length (W v)) 0) (replicate (length (W v)) NULL))) as (kvs & -> & Hfi);
    simpl; rewrite ?length_replicate; try done; [by apply (chain_length _ _ _ Hc)|by apply Hver|apply length_ro_rows|].
  eexists. split; [reflexivity|]. split; [reflexivity|]. apply filled_all in Hfi. cbn [Nat.add]. unfold holds.
  destruct (ro_rows (W v)) as [|p ps]; simpl in *; done.
Qed.

Definition ro_sec_at d (o : option (K * addr)) : Prop :=
  match o with
  | Some (k, v) => DSIter_Valid d = true /\ DSIter_Key d = k /\ ds_cur d = v /\ iter_at (si_tree x) F (ds_iter d) (Some (k, v)) /\
      exists kvs, DSIter_Value d = Some kvs /\ kv_rows kvs = ro_rows (W v)
  | None => True
  end.

Lemma ro_sec_loop_spec fuel L A d :
  contents F = A ++ L -> iter_at (si_tree x) F (ds_iter d) (head L) -> (length L < fuel)%nat ->
  exists d', ro_sec_loop it_Next it_Next vfuel fuel d snap db x = Ok (d', match List.find ro_has_row L with Some _ => true | None => false end) /\
    ro_sec_at d' (List.find ro_has_row L) /\ (List.find ro_has_row L = None -> ds_cur d' = ds_cur d).
Proof.
  revert L A d. induction fuel as [|fuel IH]; intros L A d HL Hat Hf; [lia|]. cbn [ro_sec_loop].
  pose proof (so_index _ _ _ _ Hok) as Hix. rewrite (iter_at_Valid _ _ _ _ Hix Hat). destruct L as [|[k v] L]; [by exists d|].
  cbn [head]. rewrite bool_decide_true by eauto. cbn [mbind result_bind]. unfold it_CurNode.
  rewrite (iter_at_Valid _ _ _ _ Hix Hat). cbn [head]. rewrite bool_decide_true by eauto. cbn [mbind result_bind].
  assert (Hv : v ∈ (contents F).*2) by (apply list_elem_of_fmap; exists (k, v); split; [done|rewrite HL; set_solver]).
  pose proof Hat as (_ & Hkey & Hval). rewrite Hval.
  destruct (GetValueOnSnapshotByIndex_run v Hv) as (-> & kvs & r & E1 & E2 & Hh). cbn [mbind result_bind List.find].
  destruct (Next_walks _ _ Hix A k v L (ds_iter d) HL Hat) as (b & i & E & Hat').
  destruct (IH L (A ++ [(k, v)]) (mkDSIter i (ds_cur d) (ds_val d))) as (d' & E' & Hd & Hcur);
    [by rewrite <- app_assoc|done|simpl in Hf; lia|].
  destruct (Z.eqb_spec (Z.of_nat (length (W v))) 0) as [E0|E0].
  - assert (Hr : ro_has_row (k, v) = false).
    { unfold ro_has_row. simpl. destruct (W v); [done|simpl in E0; lia]. }
    rewrite Hr, E. cbn [mbind result_bind]. by exists d'.
  - rewrite E1. cbn [mbind result_bind]. rewrite E2. cbn [mbind result_bind]. destruct r as [kvs'|].
    + destruct Hh as [Hh Hne]. assert (Hr : ro_has_row (k, v) = true) by (unfold ro_has_row; simpl; by destruct (ro_rows (W v))).
      rewrite Hr. eexists. split; [reflexivity|]. split; [|done]. destruct (sec_node _ _ _ _ _ Hok Hv) as (Hnn & _).
      simpl. unfold DSIter_Valid. simpl. rewrite (proj2 (Z.eqb_neq _ _) Hnn).
      split; [done|]. split; [exact Hkey|]. split; [done|]. split; [exact Hat|]. by exists kvs'.
    + simpl in Hh. assert (Hr : ro_has_row (k, v) = false) by (unfold ro_has_row; simpl; by rewrite Hh).
      rewrite Hr, E. cbn [mbind result_bind]. by exists d'.
Qed.

Context (fuel : nat) (Hfuel : (length (contents F) < fuel)%nat).

(** The first entry from the target on, or past the current key, with a row. *)
Lemma ro_sec_find (Q : K -> bool) d :
  (forall a b, klt a b = true -> Q a = true -> Q b = true) -> iter_at (si_tree x) F (ds_iter d) (first_key Q (contents F)) ->
  let o := List.find (fun e => Q e.1 && ro_has_row e) (contents F) in
  exists d', ro_sec_loop it_Next it_Next vfuel fuel d snap db x = Ok (d', match o with Some _ => true | None => false end) /\
    ro_sec_at d' o /\ (o = None -> ds_cur d' = ds_cur d).
Proof.
  intros Hup Hat o. pose proof (so_index _ _ _ _ Hok) as Hix.
  destruct (upward_from_on Q (contents F) Hup (index_sorted _ _ Hix)) as (A & B & HL & HA & HB).
  unfold o. rewrite HL, find_from by done. rewrite HL, first_key_from in Hat by done.
  apply (ro_sec_loop_spec fuel B A d HL Hat). rewrite HL, length_app in Hfuel. lia.
Qed.

End ro_iterator.


(** the [SecondaryIndexIterator] of read-only transactions: [Seek] and
    [Next] never fault and stand at the least secondary key not below the target,
    respectively above the current, of which the snapshot shows a row, with
    exactly the rows of the snapshot.  When there is none [Next] leaves the
    iterator invalid, but [Seek] leaves it as it was, also when it stands on a
    key of an earlier search. *)
Lemma ro_sec_iterator_moves {K : Type} {KO : KeyOrder K} {KL : KeyLaws K} {St : Type} `{Memstore St}
    (x : SecondIndex (K := K)) (db : DB St) F W V vfuel fuel snap key (d : DSIter (K := K)) :
  sec_ok x db F W -> (forall v, v ∈ (contents F).*2 -> versions_ok x db V vfuel (W v)) ->
  (length (contents F) < fuel)%nat ->
  let row := ro_has_row x db W V snap in
  (let o := List.find (fun e => kle key e.1 && row e) (contents F) in
   exists d', RSIter_Seek vfuel fuel key d snap db x = Ok d' /\ ro_sec_at x db F W V snap d' o /\
     (o = None -> DSIter_Valid d' = DSIter_Valid d)) /\
  (iter_ok (si_tree x) F (ds_iter d) ->
   let o := List.find (fun e => klt (DSIter_Key d) e.1 && row e) (contents F) in
   exists d', RSIter_Next vfuel fuel d snap db x = Ok d' /\ ro_sec_at x db F W V snap d' o /\
     (o = None -> DSIter_Valid d' = false)).
Proof.
  intros Hok Hver Hfuel row. pose proof (so_index _ _ _ _ Hok) as Hix. split.
  - destruct (it_Seek_at key (si_tree x) F (ds_iter d) Hix) as (i & E & Hat).
    destruct (ro_sec_find x db F W Hok V vfuel snap Hver fuel Hfuel (fun y => kle key y) (mkDSIter i (ds_cur d) (ds_val d)))
      as (d' & E' & Hd & Hcur); [eauto using kle_trans, klt_le|done|].
    exists d'. unfold RSIter_Seek. rewrite E. cbn [mbind result_bind]. rewrite E'. split; [done|]. split; [done|].
    intros Ho. unfold DSIter_Valid. by rewrite (Hcur Ho).
  - intros Hit. destruct (it_Next_at (si_tree x) F (ds_iter d) Hix Hit) as (b & i & E & Hat).
    destruct (ro_sec_find x db F W Hok V vfuel snap Hver fuel Hfuel (fun y => klt (DSIter_Key d) y) (mkDSIter i (ds_cur d) (ds_val d)))
      as (d' & E' & Hd & _); [eauto using klt_trans|done|].
    unfold RSIter_Next. rewrite E. cbn [mbind result_bind]. rewrite E'. cbn [mbind result_bind].
    eexists. split; [reflexivity|]. unfold clear_cur. fold row. fold row in Hd.
    destruct (List.find _ _) as [[k v]|]; cbn [fst snd]; [|done]. split; [exact Hd|done].
Qed.

(** ** Examples *)

Section allocation.
Context {S P : Type} `{Memstore S, Pool P}.

(** A value that the indexed [Add] allocates starts at the first byte of its
    block, where the other [Add]s leave room for the header that
    [OBJPool::AddGCObj] writes in front of the value. *)
Lemma copy_value_blocks tableid val (tx : TX P) (db : DB S) tl :
  GetEmptyValue tableid (tx_tl tx) = Ok (NULL, tl) ->
  (exists tx' db', copy_value tableid val tx db = Ok (db_brk db + sizeof_Obj, tx', db')) /\
  (exists tx' db', copy_value_sec tableid val tx db = Ok (db_brk db, tx', db')).
Proof. intros E. unfold copy_value, copy_value_sec. rewrite E. by split; eexists _, _. Qed.

End allocation.

(** The records of [w_rodb]: 100 with value 5000, 200 with value 5500. *)
Definition w_sec_0 : SecondIndex (K := Z) := SI_new 512 65536.

Definition put_or (k p m : Z) (x : SecondIndex (K := Z)) : SecondIndex :=
  match SI_Put k p m x with Ok x => x | Fault _ => x end.

(** One row; two rows under one key; a row after a key with no row. *)
Definition w_sec : SecondIndex (K := Z) := put_or 5 77 100 w_sec_0.
Definition w_sec_2 : SecondIndex (K := Z) := put_or 5 78 200 w_sec.
Definition w_sec_gap : SecondIndex (K := Z) :=
  put_or 5 78 200 (match SI_Get 1 w_sec with Ok (_, x) => x | _ => w_sec end).

Definition w_sec_tx : TX OBJPool := DBTX_ThreadLocalInit 1 w_rotl.

(** The keys an iterator shows, and the rows. *)
Definition show {K : Type} {KO : KeyOrder K} (d : DSIter (K := K)) : option (K * list (Z * addr)) :=
  if DSIter_Valid d then Some (DSIter_Key d, match DSIter_Value d with Some kvs => kv_rows kvs | None => [] end) else None.

(** [SeekToFirst] does not find the row of key 5, behind the empty key 1; [Seek]
    does. *)
Example SeekToFirst_stuck :
  (d ← DSIter_SeekToFirst 9 DSIter_new w_sec_tx w_rodb w_sec_gap; Ok (show d.1)) = Ok None /\
  (d ← DSIter_Seek 9 0 DSIter_new w_sec_tx w_rodb w_sec_gap; Ok (show d.1)) = Ok (Some (5, [(78, 5500); (77, 5000)])).
Proof. split; vm_compute; reflexivity. Qed.

(** [Prev] of the read-only iterator from key 5 comes back to key 5, as it passes
    the empty key 1 with [Next]. *)
Example ro_Prev_stuck :
  (d ← RSIter_Seek 3 9 5 DSIter_new 2 w_rodb w_sec_gap; d ← RSIter_Prev 3 9 d 2 w_rodb w_sec_gap; Ok (show d)) =
  Ok (Some (5, [(78, 5500); (77, 5000)])).
Proof. vm_compute. reflexivity. Qed.

(** A scan from key 0 shows nothing; key 5 is inserted; the scan would show it,
    but the read set still validates: the iterator records no link. *)
Example sec_scan_phantom :
  (d ← DSIter_Seek 9 0 DSIter_new w_sec_tx w_rodb w_sec_0;
   v ← ReadSet_Validate (sec_word w_sec w_rodb) (tx_readset d.2);
   d' ← DSIter_Seek 9 0 DSIter_new w_sec_tx w_rodb w_sec; Ok (show d.1, v, show d'.1)) =
  Ok (None, NO_CONFLICT, Some (5, [(77, 5000)])).
Proof. vm_compute. reflexivity. Qed.

(** A length read before another thread added a row. *)
Example stale_length_overruns :
  (n ← RoGet 5 (si_tree w_sec); knum ← node_seq n w_sec; sec_visit n knum w_sec_tx w_rodb w_sec_2) = Fault OutOfBounds.
Proof. vm_compute. reflexivity. Qed.

(** A row written by the indexed [Add] is committed but not found by
    [GetByIndex]: nothing makes its wrapper valid. *)
Example indexed_add_not_found :
  ('(tx, db, x) ← Add_sec_copy 0 7 5 [1; 2] w_sec_tx w_rodb w_sec_0;
   r ← End_rtm tx db;
   match r with
   | Some (tx, db) =>
       v ← ROGet 0 7 tx db; g ← GetByIndex 1 5 tx db x; Ok (v.1.1, g.1.1)
   | None => Fault Undefined
   end) = Ok (Some 4096, None).
Proof. vm_compute. reflexivity. Qed.

(** *** The concrete index satisfies the hypotheses *)

Definition apart_b (x : SecondIndex (K := Z)) (db : DB (gmap Z addr)) : bool :=
  forallb (fun p => match si_nodes x !! p.1 with None => true | Some _ => false end) (map_to_list (db_nodes db)).

Lemma apart_b_ok x db : apart_b x db = true -> apart x db.
Proof.
  unfold apart_b. rewrite forallb_forall. intros Hall a [n Hn]. specialize (Hall (a, n)). simpl in Hall.
  destruct (si_nodes x !! a); [|done]. discriminate Hall. apply list_elem_of_In. by apply elem_of_map_to_list.
Qed.

Lemma w_sec_put : SI_Put 5 77 100 w_sec_0 = Ok w_sec.
Proof. vm_compute. reflexivity. Qed.

Lemma w_sec_apart : apart (SecondIndex.ThreadLocalInit w_sec) w_rodb.
Proof. apply apart_b_ok. vm_compute. reflexivity. Qed.

Lemma w_sec_0_read v : v ∈ (contents (K := Z) [(512, [])]).*2 ->
  Z.of_nat (length (@nil addr)) < 2 ^ 31 - 1 /\ recs_ok w_sec_0 w_rodb [].
Proof. intros Hv. by apply not_elem_of_nil in Hv. Qed.

Lemma w_sec_apart_put x' : SI_Put 5 77 100 w_sec_0 = Ok x' -> apart (SecondIndex.ThreadLocalInit x') w_rodb.
Proof. rewrite w_sec_put. intros E. injection E as <-. exact w_sec_apart. Qed.

Lemma w_sec_0_ok : si_ok w_sec_0 [(512, [])] (fun _ => []).
Proof. by apply SI_new_ok. Qed.

(** The index with one row. *)
Lemma w_sec_facts : exists F W secn,
  si_ok w_sec F W /\ sec_ok (SecondIndex.ThreadLocalInit w_sec) w_rodb F W /\ sec_lookup 5 (contents F) = Some secn /\
  (77, 5000) ∈ rows (SecondIndex.ThreadLocalInit w_sec) w_rodb (W secn).
Proof.
  destruct (SI_Put_sec_ok 5 77 100 w_rodb w_sec_0 _ _ w_sec_0_ok w_sec_0_read ltac:(by eexists) w_sec_apart_put)
    as (w & secn & x' & F & W & nxt & E & Hx & Hok & Hl & Hw & Hwr & _).
  rewrite w_sec_put in E. injection E as <-. exists F, W, secn. split_and!; try done.
  apply elem_of_rows. eexists w, _, _. split_and!; [done|exact Hwr|done|reflexivity|done..].
Qed.

Lemma w_sec_tx_wf : rs_wf (tx_readset w_sec_tx).
Proof. apply ReadSet_new_wf. Qed.


Lemma index_scan_bounds_witness :
  exists F W secn, sec_ok (SecondIndex.ThreadLocalInit w_sec) w_rodb F W /\
    sec_visit secn 0 w_sec_tx w_rodb (SecondIndex.ThreadLocalInit w_sec) = Fault OutOfBounds /\
    node_seq secn (SecondIndex.ThreadLocalInit w_sec) = Ok (Z.of_nat (length (W secn))).
Proof.
  destruct w_sec_facts as (F & W & secn & Hx & Hok & Hl & Hr). exists F, W, secn.
  destruct (index_scan_bounds _ _ F W secn w_sec_tx 0 Hok (sec_lookup_in _ _ _ Hl) w_sec_tx_wf ltac:(lia)) as (Hb & Hq & _).
  split; [exact Hok|]. split; [|exact Hq]. apply Hb.
  destruct (rows _ _ _); [apply not_elem_of_nil in Hr; destruct Hr|simpl; lia].
Defined.

Lemma Put_then_GetByIndex_witness :
  exists x' kvs r x'', SI_Put 5 77 100 w_sec_0 = Ok x' /\
    GetByIndex 1 5 w_sec_tx w_rodb x' = Ok (Some kvs, set_readset r w_sec_tx, x'') /\ (77, 5000) ∈ kv_rows kvs.
Proof.
  destruct (Put_then_GetByIndex 0 5 77 100 (mkMemNode 1 1 5000 NULL 0) w_sec_tx w_rodb w_sec_0 _ _
              w_sec_0_ok w_sec_0_read w_sec_apart_put eq_refl eq_refl w_sec_tx_wf) as (x' & kvs & r & x'' & E & E' & Hin & _).
  exists x', kvs, r, x''. split; [exact E|]. split; [exact E'|exact Hin].
Defined.


(** The versions of the records. *)
Definition w_versions (n : addr) : list addr := if n =? 100 then [100] else [].

Lemma w_versions_ok l : versions_ok (SecondIndex.ThreadLocalInit w_sec) w_rodb w_versions 1 l.
Proof.
  assert (Hall : forallb (fun p : Z * MemNodeWrapper => (w_memnode p.2 =? 100) || (w_memnode p.2 =? 0))
                   (map_to_list (si_wrappers (SecondIndex.ThreadLocalInit w_sec))) = true) by (vm_compute; reflexivity).
  intros w wr _ Hwr. rewrite forallb_forall in Hall. specialize (Hall (w, wr)). simpl in Hall.
  assert (Hm : w_memnode wr = 100 \/ w_memnode wr = 0).
  { assert (Hin : In (w, wr) (map_to_list (si_wrappers (SecondIndex.ThreadLocalInit w_sec)))).
    { apply list_elem_of_In. by apply elem_of_map_to_list. }
    specialize (Hall Hin). apply orb_true_iff in Hall as [Hm|Hm]; apply Z.eqb_eq in Hm; [by left|by right]. }
  destruct Hm as [-> | ->]; (split; [|cbv; lia]); [|done].
  apply vchain_cons. split; [done|]. split; [done|]. eexists. split; [reflexivity|]. done.
Qed.

Lemma ro_sec_iterator_moves_witness :
  exists F W fuel d, sec_ok (SecondIndex.ThreadLocalInit w_sec) w_rodb F W /\
    RSIter_Seek 1 fuel 0 DSIter_new 1 w_rodb (SecondIndex.ThreadLocalInit w_sec) = Ok d /\
    ro_sec_at (SecondIndex.ThreadLocalInit w_sec) w_rodb F W w_versions 1 d
      (List.find (fun e => kle 0 e.1 && ro_has_row (SecondIndex.ThreadLocalInit w_sec) w_rodb W w_versions 1 e) (contents F)).
Proof.
  destruct w_sec_facts as (F & W & secn & Hx & Hok & Hl & Hr).
  destruct (ro_sec_iterator_moves _ _ F W w_versions 1 (S (length (contents F))) 1 0 DSIter_new Hok (fun v _ => w_versions_ok (W v)) ltac:(lia))
    as [(d & E & Hat & _) _].
  exists F, W, (S (length (contents F))), d. split; [exact Hok|]. split; [exact E|exact Hat].
Defined.
