(* ===== verification/SerialInv.v ===== *)
(** * Serializability: the invariant and the theorems

    The proof that the system of [Serial] runs its committed transactions one
    after the other.  A recorded read is a pair of a record and a sequence
    number; the invariant says that the record's value cannot have changed
    while its sequence number is the recorded one, and that a record is in its
    table unless it is marked as removed. *)

From S2P Require Import Prelude OBJPool RCU MemStore TxSets DBTables DBTX Serial.

(** ** The invariant *)

Section invariant.
Context {St P : Type} `{MemstoreLaws St, PoolLaws P}.
Implicit Types (db : DB St) (tl : TL P) (tx : TX P) (th : Thread P) (own : gmap Z (nat * Z)).

(** The record a table has for a key. *)
Definition tmap db (t : nat) (k : Z) : option addr := db_tables db !! t ≫= fun s => ms_map s !! k.

(** The database the records represent. *)
Definition abs db : absdb := fun t k =>
  a ← tmap db t k; n ← db_nodes db !! a; visible (mn_value n).

(** The sequence number of a record never goes back and changes with its
    value. *)
Definition evolves own (m m' : gmap Z MemNode) : Prop :=
  forall a n, is_Some (own !! a) -> m !! a = Some n ->
  exists n', m' !! a = Some n' /\ mn_seq n <= mn_seq n' /\
    (mn_seq n' = mn_seq n -> mn_value n' = mn_value n).

(** [Q] holds of the value of record [a] as long as its sequence number is
    [sq], which it has reached. *)
Definition stamp (m : gmap Z MemNode) (a : addr) (sq : Z) (Q : addr -> Prop) : Prop :=
  exists n, m !! a = Some n /\ sq <= mn_seq n /\ (mn_seq n = sq -> Q (mn_value n)).

Record db_ok own (w : Z) db : Prop := {
  ok_tab t k a : tmap db t k = Some a ->
    own !! a = Some (t, k) /\ exists n, db_nodes db !! a = Some n /\ mn_value n <> HAVEREMOVED;
  ok_node a t k : own !! a = Some (t, k) ->
    exists n, db_nodes db !! a = Some n /\
      (mn_value n = HAVEREMOVED \/ tmap db t k = Some a) /\
      0 <= mn_seq n <= w + 1 /\ 0 <= mn_counter n <= db_snapshot db;
  ok_dom a : is_Some (db_nodes db !! a) -> 0 < a < db_brk db;
  ok_brk : 0 < db_brk db;
  ok_snap : 0 < db_snapshot db
}.

(** The pools of old versions hold no record of a table. *)
Definition unowned own db (a : addr) : Prop := own !! a = None /\ 0 < a < db_brk db.

Definition tl_ok own db tl : Prop :=
  exists s, (forall a, a ∈ s -> unowned own db a) /\
    Forall (fun p => pool_in p s) (tl_memnodesPool tl) /\
    Forall (fun o => own !! rm_node o = Some (rm_tableid o, rm_key o) /\
              stamp (db_nodes db) (rm_node o) (rm_seq o) (.= LOGICALDELETE))
      (rmlist_ (tl_rmPool tl)).

Definition log_ok own db (r : RLog) : Prop :=
  own !! rl_node r = Some (rl_table r, rl_key r) /\ rl_label r <> NO_CONFLICT /\
  stamp (db_nodes db) (rl_node r) (rl_seq r)
    (fun v => v <> HAVEREMOVED /\ rl_val r = visible v).

Definition seq_pair (r : RLog) : RSSeqPair := mkRSSeqPair (rl_seq r) (rl_node r) (rl_label r).

(** The read of the open [Get], if it has made it. *)
Definition pending (pc : PC) : list RSSeqPair :=
  match pc with ReadRtm t k label n sq => [mkRSSeqPair sq n label] | _ => [] end.

Definition pc_ok own db (pc : PC) : Prop :=
  match pc with
  | AddNode t k src n => own !! n = Some (t, k)
  | GotNode t k label n => own !! n = Some (t, k) /\ label <> NO_CONFLICT
  | ReadRtm t k label n sq => own !! n = Some (t, k) /\ label <> NO_CONFLICT /\
      stamp (db_nodes db) n sq (fun v => v <> HAVEREMOVED)
  | _ => True
  end.

(** Writes not yet installed, and writes installed by the last commit. *)
Definition write_ok own (kv : WSKV) : Prop :=
  own !! ws_node kv = Some (ws_tableid kv, ws_key kv) /\ ws_val kv <> HAVEREMOVED /\
  ws_dummy kv = NULL.

Definition del_ok own db (e : DELElement) : Prop :=
  own !! de_node e = Some (de_tableid e, de_key e) /\
  stamp (db_nodes db) (de_node e) (de_seq e) (.= LOGICALDELETE).

Definition dummy_ok own db (kv : WSKV) : Prop :=
  ws_dummy kv = NULL \/ unowned own db (ws_dummy kv).

Definition sets_ok own db (pc : PC) (log : list RLog) tx : Prop :=
  match pc with
  | Idle | Aborting => True
  | Committed =>
      Forall (dummy_ok own db) (WriteSet_entries (tx_writeset tx)) /\
      Forall (del_ok own db) (DELSet_entries (tx_deleteset tx))
  | _ =>
      rs_reads (tx_readset tx) = (seq_pair <$> log) ++ pending pc /\
      rs_ranges (tx_readset tx) = [] /\
      Forall (log_ok own db) log /\
      Forall (write_ok own) (WriteSet_entries (tx_writeset tx)) /\
      DELSet_entries (tx_deleteset tx) = []
  end.

Definition buffer_ok own (b : list BufferNode) : Prop :=
  forall t e, b !! t = Some e -> bn_node e = NULL \/ own !! bn_node e = Some (t, bn_key e).

Record thread_ok own db th : Prop := {
  th_rs : rs_wf (tx_readset (th_tx th));
  th_ws : ws_wf (tx_writeset (th_tx th));
  th_ds : ds_wf (tx_deleteset (th_tx th));
  th_buf : buffer_ok own (tx_buffer (th_tx th));
  th_pool : tl_ok own db (tx_tl (th_tx th));
  th_at : pc_ok own db (th_pc th);
  th_sets : sets_ok own db (th_pc th) (th_log th) (th_tx th)
}.

Definition sys_ok (D0 : absdb) (s : Sys St P) : Prop :=
  db_ok (sy_own s) (sy_writes s) (sy_db s) /\
  0 <= sy_writes s /\
  (forall i th, sy_threads s !! i = Some th -> thread_ok (sy_own s) (sy_db s) th) /\
  (forall t k, abs (sy_db s) t k = replay (sy_hist s) D0 t k) /\
  serial D0 (sy_hist s).

(** ** Monotonicity *)

(** The tables have only been inserted into and deleted from. *)
Definition tables_later (ts ts' : list St) : Prop :=
  forall t st, ts !! t = Some st -> exists st', ts' !! t = Some st' /\ rtc ms_step st st'.

(** What a step may change under the feet of the other threads. *)
Record db_le own own' db db' : Prop := {
  le_own : own ⊆ own';
  le_new a : is_Some (own' !! a) -> is_Some (own !! a) \/ db_brk db <= a;
  le_brk : db_brk db <= db_brk db';
  le_nodes : evolves own (db_nodes db) (db_nodes db');
  le_tables : tables_later (db_tables db) (db_tables db')
}.

Lemma tables_later_refl ts : tables_later ts ts.
Proof. intros t st Hst. by exists st. Qed.

Lemma tables_later_eq ts ts' : ts' = ts -> tables_later ts ts'.
Proof. intros ->. apply tables_later_refl. Qed.

Lemma tables_later_trans ts1 ts2 ts3 :
  tables_later ts1 ts2 -> tables_later ts2 ts3 -> tables_later ts1 ts3.
Proof.
  intros E1 E2 t st (st1 & Hst1 & ?)%E1. destruct (E2 t st1 Hst1) as (st2 & ? & ?).
  exists st2. split; [done|by etrans].
Qed.

Lemma tables_later_step ts t st st' :
  ts !! t = Some st -> ms_step st st' -> tables_later ts (<[t := st']> ts).
Proof.
  intros Ht Hs t' st1 Ht'. destruct (decide (t' = t)) as [->|].
  - simplify_eq. exists st'. split; [|by apply rtc_once].
    apply list_lookup_insert_eq. by eapply lookup_lt_Some.
  - exists st1. by rewrite list_lookup_insert_ne.
Qed.

Lemma evolves_refl own m : evolves own m m.
Proof. intros a n _ Hn. exists n. split_and!; [done|lia|done]. Qed.

Lemma evolves_trans own own' m1 m2 m3 :
  own ⊆ own' -> evolves own m1 m2 -> evolves own' m2 m3 -> evolves own m1 m3.
Proof.
  intros Hs H12 H23 a n Ha Hn. destruct (H12 a n Ha Hn) as (n2 & Hm2 & Hle & Hv).
  destruct (H23 a n2) as (n3 & Hm3 & Hle' & Hv'); [|done|].
  - destruct Ha as [x Hx]. exists x. by eapply lookup_weaken.
  - exists n3. split_and!; [done|lia|]. intros E. rewrite Hv', Hv by lia. done.
Qed.

Lemma db_le_refl own db : db_le own own db db.
Proof. split; [done|auto|lia|apply evolves_refl|apply tables_later_refl]. Qed.

Lemma db_le_trans own1 own2 own3 db1 db2 db3 :
  db_le own1 own2 db1 db2 -> db_le own2 own3 db2 db3 -> db_le own1 own3 db1 db3.
Proof.
  intros [A1 B1 C1 D1 E1] [A2 B2 C2 D2 E2].
  split; [by etrans| |lia|by eapply evolves_trans|by eapply tables_later_trans].
  intros a [Ha|Ha]%B2; [by apply B1|right; lia].
Qed.

Lemma stamp_le own own' db db' a sq Q :
  db_le own own' db db' -> is_Some (own !! a) ->
  stamp (db_nodes db) a sq Q -> stamp (db_nodes db') a sq Q.
Proof.
  intros Hle Ha (n & Hn & Hsq & HQ). destruct (le_nodes _ _ _ _ Hle a n Ha Hn) as (n' & Hn' & Hs & Hv).
  exists n'. split_and!; [done|lia|]. intros E. rewrite Hv by lia. apply HQ. lia.
Qed.

Lemma stamp_impl m a sq (Q Q' : addr -> Prop) :
  (forall v, Q v -> Q' v) -> stamp m a sq Q -> stamp m a sq Q'.
Proof. intros HQ (n & ? & ? & ?). exists n. split_and!; auto. Qed.

Lemma unowned_le own own' db db' a :
  db_le own own' db db' -> unowned own db a -> unowned own' db' a.
Proof.
  intros [_ Hnew Hbrk _ _] [Ha Hlt]. split; [|lia].
  apply eq_None_not_Some. intros [Hs|Hs]%Hnew; [|lia]. rewrite Ha in Hs. by destruct Hs.
Qed.

Lemma own_le own own' db db' a tk :
  db_le own own' db db' -> own !! a = Some tk -> own' !! a = Some tk.
Proof. intros [Hs _ _ _ _] Ha. by eapply lookup_weaken. Qed.

#[local] Hint Resolve stamp_le unowned_le own_le mk_is_Some : euno.

Lemma tl_ok_le own own' db db' tl :
  db_le own own' db db' -> tl_ok own db tl -> tl_ok own' db' tl.
Proof.
  intros Hle (s & Hs & Hp & Hr). exists s. split_and!; [eauto with euno|done|].
  eapply Forall_impl; [exact Hr|]. intros o [Ho Hst]. eauto with euno.
Qed.

Lemma pc_ok_le own own' db db' pc : db_le own own' db db' -> pc_ok own db pc -> pc_ok own' db' pc.
Proof. intros Hle. destruct pc; simpl; intuition eauto with euno. Qed.

Lemma sets_ok_le own own' db db' pc log tx :
  db_le own own' db db' -> sets_ok own db pc log tx -> sets_ok own' db' pc log tx.
Proof.
  intros Hle.
  assert (Forall (log_ok own db) log -> Forall (log_ok own' db') log) as Hlog.
  { intros Hf. eapply Forall_impl; [exact Hf|]. intros r (Hr & Hl & Hst). split_and!; eauto with euno. }
  assert (forall l, Forall (write_ok own) l -> Forall (write_ok own') l) as Hws.
  { intros l Hf. eapply Forall_impl; [exact Hf|]. intros kv (? & ? & ?). split_and!; eauto with euno. }
  destruct pc; simpl; try done; try (intuition eauto; done).
  intros [Hd He]. split.
  - eapply Forall_impl; [exact Hd|]. intros kv [|]; [by left|right; eauto with euno].
  - eapply Forall_impl; [exact He|]. intros e [??]. split; eauto with euno.
Qed.

Lemma buffer_ok_le own own' db db' b :
  db_le own own' db db' -> buffer_ok own b -> buffer_ok own' b.
Proof. intros Hle Hb t e He. destruct (Hb t e He) as [|]; [by left|right]. eauto with euno. Qed.

Lemma thread_ok_le own own' db db' th :
  db_le own own' db db' -> thread_ok own db th -> thread_ok own' db' th.
Proof.
  intros Hle []. split; eauto using buffer_ok_le, tl_ok_le, pc_ok_le, sets_ok_le.
Qed.

(** ** Updates of the store *)

Definition tables_eq db db' : Prop := forall t k, tmap db' t k = tmap db t k.

Lemma db_ok_fresh own w db a : db_ok own w db -> db_brk db <= a -> own !! a = None.
Proof.
  intros Hok Ha. apply eq_None_not_Some. intros [[t k] Ho].
  destruct (ok_node _ _ _ Hok a t k Ho) as (n & Hn & _).
  destruct (ok_dom _ _ _ Hok a); [eauto|lia].
Qed.

(** Overwriting a cell that is no record of a table. *)
Lemma db_ok_scratch own w db a d :
  db_ok own w db -> unowned own db a ->
  db_ok own w (set_nodes (<[a := d]> (db_nodes db)) db) /\
  db_le own own db (set_nodes (<[a := d]> (db_nodes db)) db) /\
  forall t k, abs (set_nodes (<[a := d]> (db_nodes db)) db) t k = abs db t k.
Proof.
  intros Hok [Ha Hlt].
  assert (forall b tk, own !! b = Some tk -> (<[a := d]> (db_nodes db)) !! b = db_nodes db !! b) as Hne.
  { intros b tk Hb. apply lookup_insert_ne. congruence. }
  split_and!.
  - destruct Hok as [Htab Hnode Hdom Hbrk Hsnap]. split; try done; simpl.
    + intros t k b Hb. destruct (Htab t k b Hb) as (Ho & Hn). by rewrite (Hne b _ Ho).
    + intros b t k Hb. rewrite (Hne b _ Hb). by apply Hnode.
    + intros b [n Hb]. destruct (decide (a = b)) as [<-|]; [done|].
      rewrite lookup_insert_ne in Hb by done. eauto.
  - split; [done|auto|simpl; lia| |by apply tables_later_eq]. intros b n [tk Hb] Hn. exists n. simpl.
    rewrite (Hne b _ Hb). split_and!; [done|lia|done].
  - intros t k. unfold abs, set_nodes. simpl.
    change (tmap (mkDB _ _ _ (db_tables db) _ _) t k) with (tmap db t k).
    destruct (tmap db t k) as [b|] eqn:Hb; simpl; [|done].
    destruct (ok_tab _ _ _ Hok t k b Hb) as (Ho & _). by rewrite (Hne b _ Ho).
Qed.

(** Overwriting a record of a table: the invariant, the database ... *)
Lemma db_ok_put own w w' db a t k n n' :
  db_ok own w db -> own !! a = Some (t, k) -> db_nodes db !! a = Some n ->
  mn_value n <> HAVEREMOVED -> mn_value n' <> HAVEREMOVED -> w <= w' ->
  0 <= mn_seq n' <= w' + 1 -> 0 <= mn_counter n' <= db_snapshot db ->
  let db' := set_nodes (<[a := n']> (db_nodes db)) db in
  db_ok own w' db' /\
  forall t' k', abs db' t' k' = apply_write (abs db) (t, k, mn_value n') t' k'.
Proof.
  intros Hok Ho Hn Hv Hv' Hw Hseq Hc db'.
  assert (tmap db t k = Some a) as Ht.
  { destruct (ok_node _ _ _ Hok a t k Ho) as (n0 & Hn0 & [E|E] & _); [congruence|done]. }
  split.
  - destruct Hok as [Htab Hnode Hdom Hbrk Hsnap]. split; try done; simpl.
    + intros t1 k1 b Hb. destruct (Htab t1 k1 b Hb) as (Hob & Hnb). split; [done|].
      destruct (decide (a = b)) as [<-|]; [rewrite lookup_insert_eq; eauto|by rewrite lookup_insert_ne].
    + intros b t1 k1 Hb. destruct (Hnode b t1 k1 Hb) as (nb & Hnb & Hor & Hsb & Hcb).
      destruct (decide (a = b)) as [<-|].
      * rewrite lookup_insert_eq. exists n'. simplify_eq. split_and!; try done; try lia. by right.
      * rewrite lookup_insert_ne by done. exists nb. split_and!; try done; lia.
    + intros b [nb Hb]. destruct (decide (a = b)) as [<-|]; [eauto|].
      rewrite lookup_insert_ne in Hb by done. eauto.
  - intros t' k'. unfold abs at 1, apply_write. simpl.
    change (tmap db' t' k') with (tmap db t' k'). case_decide as E.
    + simplify_eq. rewrite Ht. simpl. by rewrite lookup_insert_eq.
    + unfold abs. destruct (tmap db t' k') as [b|] eqn:Hb; simpl; [|done].
      destruct (ok_tab _ _ _ Hok t' k' b Hb) as (Hob & _).
      rewrite lookup_insert_ne; [done|]. intros <-. congruence.
Qed.

(** ... and, when the sequence number moves with the value, the other
    threads' view. *)
Lemma db_le_put own db a n n' :
  db_nodes db !! a = Some n -> mn_seq n <= mn_seq n' ->
  (mn_seq n' = mn_seq n -> mn_value n' = mn_value n) ->
  db_le own own db (set_nodes (<[a := n']> (db_nodes db)) db).
Proof.
  intros Hn Hs Hv. split; [done|auto|simpl; lia| |by apply tables_later_eq]. intros b nb Hb Hnb. simpl.
  destruct (decide (a = b)) as [<-|].
  - rewrite lookup_insert_eq. exists n'. simplify_eq. split_and!; done.
  - rewrite lookup_insert_ne by done. exists nb. split_and!; [done|lia|done].
Qed.

Lemma tmap_insert db t s s' t' k' :
  db_tables db !! t = Some s ->
  tmap (set_tables (<[t := s']> (db_tables db)) db) t' k' =
  if decide (t' = t) then ms_map s' !! k' else tmap db t' k'.
Proof.
  intros Ht. unfold tmap. simpl. case_decide as E.
  - subst. rewrite list_lookup_insert_eq; [done|]. by eapply lookup_lt_Some.
  - by rewrite list_lookup_insert_ne.
Qed.

(** The invariant reads the store through the records, the maps of the
    tables, the allocator and the snapshot. *)
Lemma db_ok_ext own w db db' :
  db_nodes db' = db_nodes db -> tables_eq db db' -> tables_later (db_tables db) (db_tables db') ->
  db_brk db <= db_brk db' ->
  db_snapshot db <= db_snapshot db' -> db_ok own w db ->
  db_ok own w db' /\ db_le own own db db' /\ forall t k, abs db' t k = abs db t k.
Proof.
  intros Hn Ht Hlt Hb Hs [Htab Hnode Hdom Hbrk Hsnap]. split_and!.
  - split; rewrite ?Hn; try lia.
    + intros t k a. rewrite Ht. auto.
    + intros a t k Ha. destruct (Hnode a t k Ha) as (n & ? & ? & ? & ?).
      exists n. rewrite Ht. split_and!; try done; lia.
    + intros a Ha%Hdom. lia.
  - split; [done|auto|done| |done]. rewrite Hn. apply evolves_refl.
  - intros t k. unfold abs. by rewrite Hn, Ht.
Qed.

Lemma db_ok_same own w db db' :
  db_nodes db' = db_nodes db -> db_tables db' = db_tables db -> db_brk db <= db_brk db' ->
  db_snapshot db <= db_snapshot db' -> db_ok own w db ->
  db_ok own w db' /\ db_le own own db db' /\ forall t k, abs db' t k = abs db t k.
Proof.
  intros Hn Ht Hb Hs Hok. apply db_ok_ext; try done; [|by apply tables_later_eq].
  intros t k. unfold tmap. by rewrite Ht.
Qed.

(** Inserting a new record for a key the table does not have. *)
Lemma db_ok_new own w db db' t k f :
  db_ok own w db -> 0 <= w -> tmap db t k = None -> db_brk db <= f < db_brk db' ->
  db_nodes db' = <[f := MemNode_init]> (db_nodes db) -> db_snapshot db' = db_snapshot db ->
  tables_later (db_tables db) (db_tables db') ->
  (forall t' k', tmap db' t' k' = if decide ((t', k') = (t, k)) then Some f else tmap db t' k') ->
  db_ok (<[f := (t, k)]> own) w db' /\ db_le own (<[f := (t, k)]> own) db db' /\
  forall t' k', abs db' t' k' = abs db t' k'.
Proof.
  intros Hok Hw Hnone Hf Hn Hs Hlt Ht.
  assert (forall b, is_Some (db_nodes db !! b) -> f <> b) as Hfb.
  { intros b Hb%(ok_dom _ _ _ Hok). lia. }
  assert (forall b tk, own !! b = Some tk -> f <> b) as Hfo.
  { intros b [t1 k1] Hb. apply Hfb.
    destruct (ok_node _ _ _ Hok b t1 k1 Hb) as (n & ? & _). eauto. }
  assert (own !! f = None) as Hof.
  { eapply db_ok_fresh; [done|lia]. }
  destruct Hok as [Htab Hnode Hdom Hbrk Hsnap]. split_and!.
  - split; rewrite ?Hn; try lia.
    + intros t1 k1 b Hb. rewrite Ht in Hb. case_decide as E.
      * simplify_eq. rewrite !lookup_insert_eq. split; [done|]. by exists MemNode_init.
      * destruct (Htab t1 k1 b Hb) as (Hob & n & Hnb & Hv).
        rewrite !lookup_insert_ne by eauto. eauto.
    + intros b t1 k1 Hb. destruct (decide (f = b)) as [<-|].
      * rewrite lookup_insert_eq in Hb. simplify_eq. rewrite Ht, lookup_insert_eq, decide_True by done.
        exists MemNode_init. simpl. split_and!; try done; try lia. by right.
      * rewrite lookup_insert_ne in Hb by done.
        destruct (Hnode b t1 k1 Hb) as (nb & ? & Hor & ? & ?). exists nb. rewrite Hs, Ht, lookup_insert_ne by done.
        split_and!; try done; try lia. destruct Hor as [|Hor]; [by left|right].
        case_decide; [|done]. simplify_eq.
    + intros b Hb. destruct (decide (f = b)) as [<-|]; [lia|].
      rewrite lookup_insert_ne in Hb by done. apply Hdom in Hb. lia.
  - split; [by apply insert_subseteq| |lia| |done].
    + intros b Hb. destruct (decide (f = b)) as [<-|]; [right; lia|left].
      by rewrite lookup_insert_ne in Hb.
    + intros b n [tk Hb] Hnb. exists n. rewrite Hn, lookup_insert_ne by eauto.
      split_and!; [done|lia|done].
  - intros t' k'. unfold abs. rewrite Ht. case_decide as E; simpl.
    + simplify_eq. by rewrite Hnone, Hn, lookup_insert_eq.
    + destruct (tmap db t' k') as [b|] eqn:Hb; simpl; [|done].
      destruct (Htab t' k' b Hb) as (_ & n & Hnb & _). by rewrite Hn, lookup_insert_ne by eauto.
Qed.

(** [GetWithInsert] gives the record of the key, which is in the table. *)
Lemma GetWithInsert_ok own w db t k n db' :
  db_ok own w db -> 0 <= w -> GetWithInsert t k db = Ok (n, db') ->
  db_ok (<[n := (t, k)]> own) w db' /\ db_le own (<[n := (t, k)]> own) db db' /\
  (forall t' k', abs db' t' k' = abs db t' k') /\ tmap db' t k = Some n.
Proof.
  intros Hok Hw Hg. unfold GetWithInsert in Hg.
  destruct (db_tables db !! t) as [s|] eqn:Ht; simpl in Hg; [|done].
  pose proof (tables_later_step _ _ _ _ Ht (ms_step_insert s k (db_brk db + sizeof_Obj))) as Hlater.
  destruct (ms_map s !! k) as [a|] eqn:Hk.
  - destruct (ms_insert_old s k (db_brk db + sizeof_Obj) a Hk) as (s' & Hs & Hm).
    unfold mbind, result_bind in Hg. rewrite Hs in Hg, Hlater. inv_ok. simplify_eq.
    assert (tables_eq db (set_tables (<[t := s']> (db_tables db)) db)) as Heq.
    { intros t' k'. rewrite (tmap_insert _ _ s) by done. case_decide; [|done].
      subst. unfold tmap. by rewrite Ht, Hm. }
    assert (tmap db t k = Some n) as Htk by (unfold tmap; by rewrite Ht).
    destruct (ok_tab _ _ _ Hok t k n Htk) as (Ho & _). rewrite insert_id by done.
    destruct (db_ok_ext own w db (set_tables (<[t := s']> (db_tables db)) db)) as (? & ? & ?); try done.
    split_and!; try done. by rewrite Heq.
  - destruct (ms_insert_new s k (db_brk db + sizeof_Obj) Hk) as (s' & Hs & Hm).
    unfold mbind, result_bind in Hg. rewrite Hs in Hg, Hlater. injection Hg as <- <-.
    assert (forall t' k', tmap (set_tables (<[t := s']> (db_tables db)) db) t' k' =
      if decide ((t', k') = (t, k)) then Some (db_brk db + sizeof_Obj) else tmap db t' k') as Heq.
    { intros t' k'. rewrite (tmap_insert _ _ s) by done. case_decide as E.
      - subst t'. rewrite Hm. case_decide as E; [simplify_eq; apply lookup_insert_eq|].
        rewrite lookup_insert_ne by congruence. unfold tmap. by rewrite Ht.
      - rewrite decide_False by congruence. done. }
    match goal with |- db_ok _ _ ?d /\ _ => destruct (db_ok_new own w db d t k (db_brk db + sizeof_Obj))
      as (? & ? & ?) end; try done.
    + unfold tmap. by rewrite Ht.
    + simpl. unfold sizeof_Obj. lia.
    + split_and!; try done. etrans; [exact (Heq t k)|]. by rewrite decide_True.
Qed.

(** ** The operations of a transaction *)

Definition with_buffer (b : list BufferNode) tx : TX P :=
  mkTX (tx_readset tx) (tx_writeset tx) (tx_deleteset tx) b (tx_abort tx) (tx_tl tx).

Lemma buffer_ok_insert own b t k n :
  buffer_ok own b -> own !! n = Some (t, k) -> buffer_ok own (<[t := mkBufferNode k n]> b).
Proof.
  intros Hb Hn t' e [(-> & <- & _)|[_ He]]%list_lookup_insert_Some; [by right|by apply Hb].
Qed.

Lemma add_check_true n db :
  add_check n db = Ok true <-> exists node, db_nodes db !! n = Some node /\ mn_value node <> HAVEREMOVED.
Proof.
  unfold add_check, node_at. destruct (db_nodes db !! n) as [node|]; simpl; [|naive_solver].
  unfold mbind, result_bind. split.
  - intros [= E%negb_true_iff%Z.eqb_neq]. eauto.
  - intros (? & [= ->] & E). by apply Z.eqb_neq in E as ->.
Qed.

Lemma find_node_ok own w db fill t k tx n tx' db' :
  db_ok own w db -> 0 <= w -> buffer_ok own (tx_buffer tx) ->
  find_node fill t k tx db = Ok (n, tx', db') ->
  db_ok (<[n := (t, k)]> own) w db' /\ db_le own (<[n := (t, k)]> own) db db' /\
  (forall t' k', abs db' t' k' = abs db t' k') /\ add_check n db' = Ok true /\
  exists b, tx' = with_buffer b tx /\ buffer_ok (<[n := (t, k)]> own) b.
Proof.
  intros Hok Hw Hbuf Hf. unfold find_node in Hf.
  destruct (tx_buffer tx !! t) as [b|] eqn:Hb; simpl in Hf; [|done].
  destruct (if bn_key b =? k then add_check (bn_node b) db else Ok false) as [[]|] eqn:Hhit;
    unfold mbind, result_bind in Hf; simpl in Hf; [| |done].
  - injection Hf as <- <- <-. destruct (Z.eqb_spec (bn_key b) k) as [<-|]; [|done].
    pose proof Hhit as (nd & Hn & _)%add_check_true.
    destruct (Hbuf t b Hb) as [E|Ho].
    { destruct (ok_dom _ _ _ Hok (bn_node b)) as [Hpos _]; [eauto|]. rewrite E in Hpos. done. }
    rewrite insert_id by done. split_and!; try done; [apply db_le_refl|].
    exists (tx_buffer tx). by destruct tx.
  - destruct (GetWithInsert t k db) as [[a db1]|] eqn:Hg; [|done]. injection Hf as <- <- <-.
    destruct (GetWithInsert_ok own w db t k a db1 Hok Hw Hg) as (Hok' & Hle & Habs & Ht).
    destruct (ok_tab _ _ _ Hok' t k a Ht) as (Ho & Hn).
    split_and!; try done; [by apply add_check_true|].
    destruct fill; [exists (<[t := mkBufferNode k a]> (tx_buffer tx))|exists (tx_buffer tx)].
    + split; [done|]. apply buffer_ok_insert; [|done]. by eapply buffer_ok_le.
    + split; [by destruct tx|]. by eapply buffer_ok_le.
Qed.

(** Uncontended, the retry loop of an [Add] ends in its first round. *)
Lemma add_node_ok own w db fuel fill t k tx n tx' db' :
  db_ok own w db -> 0 <= w -> buffer_ok own (tx_buffer tx) ->
  find_node fill t k tx db = Ok (n, tx', db') ->
  add_node (S fuel) fill t k tx db = Ok (n, tx', db').
Proof.
  intros Hok Hw Hbuf Hf. destruct (find_node_ok own w db fill t k tx n tx' db') as (_ & _ & _ & Hc & _);
    try done.
  simpl. rewrite Hf. unfold mbind, result_bind. by rewrite Hc.
Qed.

Lemma pools_in_insert (ps : list P) t p s :
  Forall (fun p => pool_in p s) ps -> pool_in p s -> Forall (fun p => pool_in p s) (<[t := p]> ps).
Proof. intros. by apply Forall_insert. Qed.

(** The effect of installing the writes [ws]. *)
Definition install own (w w' : Z) db db' (ws : list (nat * Z * addr)) : Prop :=
  db_ok own w' db' /\ db_le own own db db' /\ tables_eq db db' /\ db_snapshot db' = db_snapshot db /\
  forall t k, abs db' t k = apply_writes ws (abs db) t k.

Lemma GetMemNode_ok own w db t tl a tl' db' :
  db_ok own w db -> tl_ok own db tl -> GetMemNode t tl db = Ok (a, tl', db') ->
  install own w w db db' [] /\ tl_ok own db' tl' /\ unowned own db' a /\
  db_nodes db' = <[a := MemNode_init]> (db_nodes db).
Proof.
  intros Hok (s & Hs & Hp & Hr) Hg. unfold GetMemNode in Hg.
  destruct (tl_memnodesPool tl !! t) as [p|] eqn:Hpt; simpl in Hg; [|done].
  destruct (pool_get p) as [[mn p']|] eqn:Hget; [|done]. unfold mbind, result_bind in Hg. simpl in Hg.
  destruct (pool_in_get p s mn p') as [Hmn Hp']; [exact (Forall_lookup_1 _ _ _ _ Hp Hpt)|done|].
  set (db1 := if mn =? NULL then (malloc (sizeof_Obj + sizeof_MemNode) db).2 else db).
  assert (db_ok own w db1 /\ db_le own own db db1 /\ forall t k, abs db1 t k = abs db t k) as (Hok1 & Hle1 & Ha1).
  { unfold db1. destruct (mn =? NULL); [|split_and!; try done; apply db_le_refl].
    apply db_ok_same; simpl; try done. unfold sizeof_Obj, sizeof_MemNode. lia. }
  assert (exists a1, a1 = a /\ unowned own db1 a1 /\
    db' = set_nodes (<[a1 := MemNode_init]> (db_nodes db1)) db1 /\
    tl' = set_pools (tl_valuesPool tl) (<[t := p']> (tl_memnodesPool tl)) tl) as (a1 & -> & Hun & -> & ->).
  { unfold db1. destruct (Z.eqb_spec mn NULL); simpl in Hg; injection Hg as <- <- <-; eexists; split_and!; try done.
    - pose proof (ok_brk _ _ _ Hok). split.
      + apply (db_ok_fresh _ _ _ _ Hok). unfold sizeof_Obj. lia.
      + simpl. unfold sizeof_Obj, sizeof_MemNode. lia.
    - apply Hs. naive_solver. }
  destruct (db_ok_scratch own w db1 a MemNode_init) as (Hok2 & Hle2 & Ha2); try done.
  assert (db_le own own db (set_nodes (<[a := MemNode_init]> (db_nodes db1)) db1)) as Hle
    by (by eapply db_le_trans).
  split_and!.
  - split_and!; try done.
    + unfold db1. by destruct (mn =? NULL).
    + unfold db1. by destruct (mn =? NULL).
    + intros. by rewrite Ha2, Ha1.
  - eapply tl_ok_le; [exact Hle|]. exists s. split_and!; try done. by apply pools_in_insert.
  - done.
  - unfold db1. by destruct (mn =? NULL).
Qed.

(** Changing the counter or the reference count of a record. *)
Lemma db_ok_meta own w db a n n' :
  db_ok own w db -> db_nodes db !! a = Some n ->
  mn_seq n' = mn_seq n -> mn_value n' = mn_value n ->
  (is_Some (own !! a) -> 0 <= mn_counter n' <= db_snapshot db) ->
  let db' := set_nodes (<[a := n']> (db_nodes db)) db in
  db_ok own w db' /\ db_le own own db db' /\ forall t k, abs db' t k = abs db t k.
Proof.
  intros Hok Hn Hs Hv Hc db'. split_and!.
  - destruct Hok as [Htab Hnode Hdom Hbrk Hsnap]. split; try done; simpl.
    + intros t k b Hb. destruct (Htab t k b Hb) as (Ho & nb & Hnb & Hvb). split; [done|].
      destruct (decide (a = b)) as [<-|]; [rewrite lookup_insert_eq|rewrite lookup_insert_ne by done; eauto].
      exists n'. simplify_eq. by rewrite Hv.
    + intros b t k Hb. destruct (Hnode b t k Hb) as (nb & Hnb & Hor & Hsb & Hcb).
      destruct (decide (a = b)) as [<-|]; [rewrite lookup_insert_eq|rewrite lookup_insert_ne by done; by eauto].
      exists n'. simplify_eq. rewrite Hv, Hs. eauto.
    + intros b [nb Hb]. destruct (decide (a = b)) as [<-|]; [eauto|].
      rewrite lookup_insert_ne in Hb by done. eauto.
  - apply (db_le_put own db a n); [done|lia|done].
  - intros t k. unfold abs. simpl. change (tmap db' t k) with (tmap db t k).
    destruct (tmap db t k) as [b|]; simpl; [|done]. destruct (decide (a = b)) as [<-|].
    + rewrite lookup_insert_eq, Hn. simpl. by rewrite Hv.
    + by rewrite lookup_insert_ne.
Qed.

(** A record is in its table exactly when it has not been removed. *)
Lemma db_ok_live own w db a t k :
  db_ok own w db -> own !! a = Some (t, k) -> add_check a db = Ok true <-> tmap db t k = Some a.
Proof.
  intros Hok Ho. rewrite add_check_true. split.
  - intros (n & Hn & Hv). destruct (ok_node _ _ _ Hok a t k Ho) as (n' & Hn' & [|] & _); [congruence|done].
  - intros Ht. apply (ok_tab _ _ _ Hok) in Ht as [_ ?]. done.
Qed.

Lemma db_ok_weaken own w w' db : w <= w' -> db_ok own w db -> db_ok own w' db.
Proof.
  intros Hw [Htab Hnode Hdom Hbrk Hsnap]. split; try done.
  intros a t k Ha. destruct (Hnode a t k Ha) as (n & ? & ? & ? & ?). exists n. split_and!; try done; lia.
Qed.

(** The state in which a write set is being installed. *)
Record installing own (w : Z) ds tl db : Prop := {
  in_db : db_ok own w db;
  in_w : 0 <= w;
  in_tl : tl_ok own db tl;
  in_wf : ds_wf ds;
  in_ds : Forall (del_ok own db) (DELSet_entries ds)
}.

Definition to_write own db (kv : WSKV) : Prop := write_ok own kv /\ add_check (ws_node kv) db = Ok true.

(** The delete set after a write: one more entry when a value was deleted. *)
Lemma del_step own db db' (ds ds' : DELSet) (b : bool) kv m n n' :
  db_le own own db db' -> ds_wf ds -> Forall (del_ok own db) (DELSet_entries ds) ->
  own !! ws_node kv = Some (ws_tableid kv, ws_key kv) ->
  m !! ws_node kv = Some n -> db_nodes db' !! ws_node kv = Some n' ->
  mn_seq n' = u64 (mn_seq n + 1) -> (b = true -> mn_value n' = LOGICALDELETE) ->
  (if b then DELSet_Add m (ws_tableid kv) (ws_key kv) (ws_node kv) true ds else Ok ds) = Ok ds' ->
  ds_wf ds' /\ Forall (del_ok own db') (DELSet_entries ds').
Proof.
  intros Hle Hwf Hds Ho Hm Hn' Hs Hv Hadd.
  assert (Forall (del_ok own db') (DELSet_entries ds)) as Hds'.
  { eapply Forall_impl; [exact Hds|]. intros e [? ?]. split; eauto with euno. }
  destruct b; [|by simplify_eq].
  apply DELSet_Add_ok in Hadd as (? & n0 & Hn0 & ->); [|done]. simplify_eq. split; [done|].
  apply Forall_app. split; [done|]. apply Forall_singleton. split; [done|].
  exists n'. simpl. split_and!; [done|lia|auto].
Qed.

(** The write in place. *)
Lemma install_write own w db kv n n' :
  db_ok own w db -> 0 <= w -> w + 1 < max_writes -> to_write own db kv ->
  db_nodes db !! ws_node kv = Some n -> mn_seq n' = u64 (mn_seq n + 1) -> mn_value n' = ws_val kv ->
  0 <= mn_counter n' <= db_snapshot db ->
  install own w (w + 1) db (set_nodes (<[ws_node kv := n']> (db_nodes db)) db) [write_of kv].
Proof.
  intros Hok Hw Hmax [(Ho & Hv & _) Hlive] Hn Hs Hv' Hc.
  apply add_check_true in Hlive as (n0 & Hn0 & Hv0). assert (n0 = n) as -> by congruence.
  destruct (ok_node _ _ _ Hok _ _ _ Ho) as (n1 & Hn1 & _ & Hseq & _).
  assert (n1 = n) as -> by congruence.
  rewrite u64_small in Hs by (unfold max_writes in *; lia).
  destruct (db_ok_put own w (w + 1) db (ws_node kv) (ws_tableid kv) (ws_key kv) n n')
    as (? & Habs); try done; try lia.
  split_and!; try done; [apply (db_le_put own db _ n); [done|lia|lia]|]. intros t k. rewrite Habs, Hv'. done.
Qed.

Lemma apply_writes_ext ws D D' :
  (forall t k, D t k = D' t k) -> forall t k, apply_writes ws D t k = apply_writes ws D' t k.
Proof.
  revert D D'. induction ws as [|x ws IH]; intros D D' HD; simpl; [done|].
  apply IH. intros t k. unfold apply_write. by case_decide.
Qed.

Lemma install_trans own w1 w2 w3 db1 db2 db3 ws ws' :
  install own w1 w2 db1 db2 ws -> install own w2 w3 db2 db3 ws' ->
  install own w1 w3 db1 db3 (ws ++ ws').
Proof.
  intros (_ & Hle1 & Ht1 & Hs1 & Ha1) (Hok & Hle2 & Ht2 & Hs2 & Ha2). split_and!.
  - done.
  - by eapply db_le_trans.
  - intros t k. by rewrite Ht2, Ht1.
  - congruence.
  - intros t k. rewrite Ha2. unfold apply_writes. rewrite fold_left_app.
    by apply apply_writes_ext.
Qed.

Lemma installing_write own w db db' kv ds ds' tl m n n' (b : bool) :
  install own w (w + 1) db db' [write_of kv] -> 0 <= w -> ds_wf ds ->
  Forall (del_ok own db) (DELSet_entries ds) -> tl_ok own db' tl ->
  own !! ws_node kv = Some (ws_tableid kv, ws_key kv) ->
  m !! ws_node kv = Some n -> db_nodes db' !! ws_node kv = Some n' ->
  mn_seq n' = u64 (mn_seq n + 1) -> mn_value n' = ws_val kv ->
  (if (ws_val kv =? LOGICALDELETE) && b
   then DELSet_Add m (ws_tableid kv) (ws_key kv) (ws_node kv) true ds else Ok ds) = Ok ds' ->
  installing own (w + 1) ds' tl db'.
Proof.
  intros (Hok & Hle & _) Hw Hwf Hds Htl Ho Hm Hn' Hs Hv Hdel.
  eapply del_step in Hdel as [??]; try done; [split; done || lia|].
  intros [E _]%andb_true_iff. apply Z.eqb_eq in E. congruence.
Qed.

Lemma Write_one_ok own w db kv ds tl kv' ds' tl' db' :
  installing own w ds tl db -> w + 1 < max_writes -> to_write own db kv ->
  Write_one (db_snapshot db) kv ds tl db = Ok (kv', ds', tl', db') ->
  installing own (w + 1) ds' tl' db' /\ install own w (w + 1) db db' [write_of kv] /\
  dummy_ok own db' kv'.
Proof.
  intros [Hok Hw Htl Hwf Hds] Hmax Hkv Hone. pose proof Hkv as [(Ho & Hv & Hd) (n & Hn & Hvn)%add_check_true].
  unfold Write_one, node_at in Hone. rewrite Hn in Hone.
  unfold from_opt, mbind, result_bind in Hone.
  destruct (ok_node _ _ _ Hok _ _ _ Ho) as (n0 & Hn0 & _ & _ & Hc0). assert (n0 = n) as -> by congruence.
  pose proof (ok_snap _ _ _ Hok) as Hsn.
  set (n1 := if mn_counter n =? 0 then set_counter (db_snapshot db) n else n) in Hone.
  set (db1 := set_nodes (<[ws_node kv := n1]> (db_nodes db)) db) in Hone.
  assert (mn_seq n1 = mn_seq n /\ mn_value n1 = mn_value n /\ 0 <= mn_counter n1 <= db_snapshot db)
    as (Hs1 & Hv1 & Hc1) by (unfold n1; destruct (mn_counter n =? 0); simpl; split_and!; done || lia).
  destruct (db_ok_meta own w db (ws_node kv) n n1) as (Hok1 & Hle1 & Habs1); try done.
  fold db1 in Hok1, Hle1, Habs1.
  assert (db_nodes db1 !! ws_node kv = Some n1) as Hn1 by apply lookup_insert_eq.
  assert (to_write own db1 kv) as Hkv1.
  { split; [done|]. apply add_check_true. exists n1. rewrite Hv1. done. }
  assert (install own w w db db1 []) as Hin1 by done.
  destruct (mn_counter n1 =? db_snapshot db) eqn:Ec.
  - destruct (if (ws_val kv =? LOGICALDELETE) && negb (mn_value n1 =? LOGICALDELETE) then _ else _)
      as [ds1|] eqn:Hdel in Hone; [|done].
    injection Hone as <- <- <- <-.
    match goal with |- context [set_nodes (<[ws_node kv := ?m]> _) db1] => set (n' := m) end.
    pose proof (install_write own w db1 kv n1 n' Hok1 Hw Hmax Hkv1 Hn1 eq_refl eq_refl Hc1) as Hin2.
    pose proof (install_trans _ _ _ _ _ _ _ _ _ Hin1 Hin2) as Hin. simpl in Hin.
    split_and!; [|done|by left]. pose proof Hin as (_ & Hle2 & _).
    apply (installing_write own w db _ kv ds ds1 tl (db_nodes db1) n1 n' (negb (mn_value n1 =? LOGICALDELETE)));
      try done; [by eapply tl_ok_le|apply lookup_insert_eq].
  - replace (mn_counter n1 <? db_snapshot db) with true in Hone by lia.
    destruct (if (ws_val kv =? LOGICALDELETE) && negb (mn_value n1 =? LOGICALDELETE) then _ else _)
      as [ds1|] eqn:Hdel in Hone; [|done].
    destruct (GetMemNode (ws_tableid kv) tl db1) as [[[dummy tl2] db2]|] eqn:Hg; [|done].
    injection Hone as <- <- <- <-.
    destruct (GetMemNode_ok own w db1 (ws_tableid kv) tl dummy tl2 db2)
      as (Hin2 & Htl2 & Hun & Hnodes2); try done; [by eapply tl_ok_le|].
    match goal with |- context [<[ws_node kv := ?m]> (<[dummy := ?m2]> _)] => set (n' := m); set (d := m2) end.
    pose proof Hin2 as (Hok2 & _). 
    destruct (db_ok_scratch own w db2 dummy d Hok2 Hun) as (Hok3 & Hle3 & Habs3).
    set (db3 := set_nodes (<[dummy := d]> (db_nodes db2)) db2) in Hok3, Hle3, Habs3.
    assert (install own w w db2 db3 []) as Hin3 by done.
    assert (ws_node kv <> dummy) as Hne by (destruct Hun; congruence).
    assert (db_nodes db3 !! ws_node kv = Some n1) as Hn3.
    { simpl. by rewrite lookup_insert_ne, Hnodes2, lookup_insert_ne. }
    assert (to_write own db3 kv) as Hkv3.
    { split; [done|]. apply add_check_true. exists n1. by rewrite Hv1. }
    assert (0 <= db_snapshot db <= db_snapshot db3) as Hsn3.
    { destruct Hin2 as (_ & _ & _ & Hsn2 & _). simpl in Hsn2 |- *. lia. }
    pose proof (install_write own w db3 kv n1 n' Hok3 Hw Hmax Hkv3 Hn3 eq_refl eq_refl Hsn3) as Hin4.
    pose proof (install_trans _ _ _ _ _ _ _ _ _ Hin1 (install_trans _ _ _ _ _ _ _ _ _ Hin2
      (install_trans _ _ _ _ _ _ _ _ _ Hin3 Hin4))) as Hin. simpl in Hin.
    assert (db_le own own db2 (set_nodes (<[ws_node kv := n']> (db_nodes db3)) db3)) as Hle4.
    { eapply db_le_trans; [exact Hle3|]. apply Hin4. }
    split_and!; [|done|right; by eapply unowned_le].
    apply (installing_write own w db _ kv ds ds1 tl2 (db_nodes db1) n1 n' (negb (mn_value n1 =? LOGICALDELETE)));
      try done; [by eapply tl_ok_le|apply lookup_insert_eq].
Qed.

Lemma to_write_install own w w' db db' ws kv :
  db_ok own w db -> install own w w' db db' ws -> to_write own db kv -> to_write own db' kv.
Proof.
  intros Hok (Hok' & _ & Ht & _) [Hkv Hl]. split; [done|]. destruct Hkv as (Ho & _).
  apply (db_ok_live _ _ _ _ _ _ Hok' Ho). rewrite Ht. by apply (db_ok_live _ _ _ _ _ _ Hok Ho).
Qed.

Lemma Write_loop_ok own l : forall w db ds tl l' ds' tl' db',
  installing own w ds tl db -> w + Z.of_nat (length l) < max_writes -> Forall (to_write own db) l ->
  Write_loop (db_snapshot db) l ds tl db = Ok (l', ds', tl', db') ->
  installing own (w + Z.of_nat (length l)) ds' tl' db' /\
  install own w (w + Z.of_nat (length l)) db db' (write_of <$> l) /\
  Forall (dummy_ok own db') l' /\ length l' = length l.
Proof.
  induction l as [|kv l IH]; intros w db ds tl l' ds' tl' db' Hin Hmax Hl Hrun.
  - simpl in *. simplify_eq. rewrite Z.add_0_r. split_and!; try done.
    destruct Hin. split_and!; try done. apply db_le_refl.
  - simpl in Hrun. unfold mbind, result_bind in Hrun.
    destruct (Write_one _ kv ds tl db) as [[[[kv1 ds1] tl1] db1]|] eqn:H1w; [|done].
    rewrite length_cons, Nat2Z.inj_succ in Hmax |- *. apply Forall_cons in Hl as [Hkv Hl].
    destruct (Write_one_ok own w db kv ds tl kv1 ds1 tl1 db1) as (Hin1 & Hi1 & Hd1); try done; [lia|].
    pose proof Hi1 as (Hok1 & Hle1 & Ht1 & Hsn1 & _). rewrite <- Hsn1 in Hrun.
    destruct (Write_loop _ l ds1 tl1 db1) as [[[[l2 ds2] tl2] db2]|] eqn:H2w; [|done].
    injection Hrun as <- <- <- <-.
    destruct (IH (w + 1) db1 ds1 tl1 l2 ds2 tl2 db2) as (Hin2 & Hi2 & Hd2 & Hlen); try done; [lia| |].
    { eapply Forall_impl; [exact Hl|]. intros kv'. apply to_write_install with w (w + 1) [write_of kv].
      - apply Hin.
      - done. }
    replace (w + 1 + Z.of_nat (length l)) with (w + Z.succ (Z.of_nat (length l))) in * by lia.
    split_and!; [done| | |simpl; by rewrite Hlen].
    + exact (install_trans _ _ _ _ _ _ _ _ _ Hi1 Hi2).
    + constructor; [|done]. destruct Hi2 as (_ & Hle2 & _).
      destruct Hd1 as [|]; [by left|right; by eapply unowned_le].
Qed.

(** ** Validation *)

(** A read whose sequence number is still current read the current value. *)
Lemma log_current own w db r :
  db_ok own w db -> log_ok own db r -> read_current (read_word db) (seq_pair r) ->
  abs db (rl_table r) (rl_key r) = rl_val r.
Proof.
  intros Hok (Ho & _ & n & Hn & _ & HQ) Hcur. unfold read_current, read_word in Hcur.
  simpl in Hcur. rewrite Hn in Hcur. injection Hcur as Hcur. destruct (HQ Hcur) as [Hv Hr].
  destruct (ok_node _ _ _ Hok _ _ _ Ho) as (n0 & Hn0 & [?|Ht] & _); [congruence|].
  unfold abs. rewrite Ht. simpl. rewrite Hn. simpl. done.
Qed.

(** The RTM region of [End]: the reads are current and the writes are
    installed. *)
Lemma End_rtm_ok own w db tx log tx' db' :
  db_ok own w db -> 0 <= w -> thread_ok own db (mkThread tx Running log) ->
  w + Z.of_nat (length (WriteSet_entries (tx_writeset tx))) < max_writes ->
  End_rtm tx db = Ok (Some (tx', db')) ->
  Forall (fun r => abs db (rl_table r) (rl_key r) = rl_val r) log /\
  install own w (w + Z.of_nat (length (WriteSet_entries (tx_writeset tx)))) db db'
    (write_of <$> WriteSet_entries (tx_writeset tx)) /\
  thread_ok own db' (mkThread tx' Committed []).
Proof.
  intros Hok Hw [Hrs Hws Hds Hbuf Htl _ (Hreads & Hranges & Hlog & Hwr & Hdel)] Hmax Hend. simpl in *.
  rewrite app_nil_r in Hreads. unfold End_rtm in Hend.
  destruct (ReadSet_Validate _ _) as [v|] eqn:Hval; [|done].
  destruct (WriteSet_CheckWriteSet _ _) as [b|] eqn:Hchk; [|done].
  unfold mbind, result_bind in Hend. destruct (Z.eqb_spec v NO_CONFLICT) as [->|]; [|done].
  destruct b; [|done]. simpl in Hend.
  apply ReadSet_Validate_ok in Hval as [Hcur _]; last first.
  { rewrite Hreads. intros p (r & -> & Hr)%list_elem_of_fmap. rewrite Forall_forall in Hlog.
    destruct (Hlog r Hr) as (_ & ? & _). done. }
  assert (Forall (to_write own db) (WriteSet_entries (tx_writeset tx))) as Hto.
  { apply Check_loop_true in Hchk. eapply Forall_impl; [apply Forall_and; split; [exact Hwr|exact Hchk]|].
    intros kv [? ?]. split; [done|]. by apply add_check_true. }
  unfold WriteSet_Write in Hend. cbn [tx_writeset set_writeset tx_deleteset tx_tl] in Hend.
  change (WriteSet_entries (WriteSet_SetDBTX ?x)) with (WriteSet_entries x) in Hend.
  destruct (Write_loop _ _ _ _ _) as [[[[l ds] tl] db1]|] eqn:Hwl; [|done].
  unfold mbind, result_bind in Hend. injection Hend as <- <-.
  destruct (Write_loop_ok own (WriteSet_entries (tx_writeset tx)) w db (tx_deleteset tx) (tx_tl tx) l ds tl db1)
    as (Hin & Hi & Hd & Hlen); try done.
  { split; try done. by rewrite Hdel. }
  split_and!; [|done|].
  - apply Forall_forall. intros r Hr. rewrite Forall_forall in Hlog. rewrite Forall_forall in Hcur.
    eapply log_current; [done|by apply Hlog|]. apply Hcur. rewrite Hreads. by apply list_elem_of_fmap_2.
  - destruct Hin as [_ _ Htl' Hwf' Hds'], Hi as (_ & Hle & _).
    destruct (WriteSet_update (tx_writeset tx) l (ws_commitSN (tx_writeset tx)) true Hws Hlen) as [Hwf Hent].
    split; simpl; try done; by rewrite Hent.
Qed.

(** ** Removing records *)

(** Taking a deleted record out of its table. *)
Lemma db_ok_unlink own w db db' a t k n n' :
  db_ok own w db -> own !! a = Some (t, k) -> db_nodes db !! a = Some n ->
  mn_value n = LOGICALDELETE -> mn_value n' = HAVEREMOVED -> mn_seq n' = mn_seq n + 1 ->
  mn_counter n' = mn_counter n -> db_nodes db' = <[a := n']> (db_nodes db) ->
  db_brk db' = db_brk db -> db_snapshot db' = db_snapshot db ->
  tables_later (db_tables db) (db_tables db') ->
  (forall t' k', tmap db' t' k' = if decide ((t', k') = (t, k)) then None else tmap db t' k') ->
  db_ok own (w + 1) db' /\ db_le own own db db' /\ forall t k, abs db' t k = abs db t k.
Proof.
  intros Hok Ho Hn Hv Hv' Hs Hc Hm Hb Hsn Hlt Ht.
  assert (tmap db t k = Some a) as Hta.
  { apply (db_ok_live own w); [done..|]. apply add_check_true. exists n. by rewrite Hv. }
  split_and!.
  - destruct Hok as [Htab Hnode Hdom Hbrk Hsnap]. split; rewrite ?Hm, ?Hb, ?Hsn; try done.
    + intros t1 k1 b. rewrite Ht. case_decide as E; [done|]. intros Hb1.
      destruct (Htab t1 k1 b Hb1) as (Hob & ?). split; [done|].
      rewrite lookup_insert_ne; [done|]. congruence.
    + intros b t1 k1 Hob. destruct (Hnode b t1 k1 Hob) as (nb & Hnb & Hor & Hsb & Hcb).
      destruct (decide (a = b)) as [<-|Hne].
      * rewrite lookup_insert_eq. exists n'. assert (nb = n) as -> by congruence.
        split_and!; try done; try lia.
      * rewrite lookup_insert_ne by done. exists nb. split_and!; try done; try lia.
        destruct Hor as [|Hor]; [by left|right]. rewrite Ht. case_decide; [|done]. congruence.
    + intros b [nb Hb1]. destruct (decide (a = b)) as [<-|]; [eauto|].
      rewrite lookup_insert_ne in Hb1 by done. eauto.
  - split; [done|auto|lia| |done]. intros b nb Hb1 Hnb. rewrite Hm.
    destruct (decide (a = b)) as [<-|].
    + rewrite lookup_insert_eq. exists n'. assert (nb = n) as -> by congruence.
      split_and!; [done|lia|lia].
    + rewrite lookup_insert_ne by done. exists nb. split_and!; [done|lia|done].
  - intros t' k'. unfold abs. rewrite Ht. case_decide as E.
    + simplify_eq. rewrite Hta. simpl. rewrite Hn. simpl. by rewrite Hv.
    + destruct (tmap db t' k') as [b|] eqn:Hb1; simpl; [|done].
      destruct (ok_tab _ _ _ Hok _ _ _ Hb1) as (Hob & _).
      rewrite Hm, lookup_insert_ne; [done|]. congruence.
Qed.

(** [RMPool::Remove] keeps the database: a record leaves its table only when
    it has stayed deleted. *)
Lemma Remove_ok own w db o b db' :
  db_ok own w db -> 0 <= w -> w + 1 < max_writes ->
  own !! rm_node o = Some (rm_tableid o, rm_key o) ->
  stamp (db_nodes db) (rm_node o) (rm_seq o) (.= LOGICALDELETE) ->
  Remove o db = Ok (b, db') ->
  db_ok own (w + 1) db' /\ db_le own own db db' /\ forall t k, abs db' t k = abs db t k.
Proof.
  intros Hok Hw Hmax Ho (n & Hn & _ & HQ) Hrm. unfold Remove, node_at in Hrm. rewrite Hn in Hrm.
  unfold from_opt, mbind, result_bind in Hrm.
  destruct (Z.eqb_spec (mn_seq n) (rm_seq o)) as [E|].
  2:{ simplify_eq. split_and!; [by eapply db_ok_weaken; [|exact Hok]; lia|apply db_le_refl|done]. }
  specialize (HQ E).
  assert (tmap db (rm_tableid o) (rm_key o) = Some (rm_node o)) as Ht.
  { apply (db_ok_live own w); [done..|]. apply add_check_true. exists n. by rewrite HQ. }
  unfold GetWithDelete in Hrm. simpl in Hrm. unfold tmap in Ht.
  destruct (db_tables db !! rm_tableid o) as [s|] eqn:Hts; [|done]. simpl in Ht, Hrm.
  destruct (ms_delete_spec s (rm_key o)) as (s' & Hdel & Hmap). rewrite Ht in Hdel. simpl in Hdel.
  unfold mbind, result_bind in Hrm. rewrite Hdel in Hrm. simpl in Hrm.
  rewrite lookup_insert_eq in Hrm. simpl in Hrm. injection Hrm as <- <-.
  destruct (ok_node _ _ _ Hok _ _ _ Ho) as (n0 & Hn0 & _ & Hsq & _). assert (n0 = n) as -> by congruence.
  apply (db_ok_unlink own w db _ (rm_node o) (rm_tableid o) (rm_key o) n
    (set_seq (u64 (mn_seq n + 1)) (set_value HAVEREMOVED n))); try done.
  - simpl. apply u64_small. unfold max_writes in Hmax. lia.
  - simpl. apply insert_insert_eq.
  - pose proof (ms_step_delete s (rm_key o)) as Hstep. rewrite Hdel in Hstep.
    exact (tables_later_step _ _ _ _ Hts Hstep).
  - intros t' k'. unfold tmap. simpl. destruct (decide (t' = rm_tableid o)) as [->|Hne].
    + rewrite list_lookup_insert_eq by (by eapply lookup_lt_Some). simpl. rewrite Hmap.
      rewrite Hts. simpl. case_decide as E'; [simplify_eq; by rewrite lookup_delete_eq|].
      rewrite lookup_delete_ne; [done|]. congruence.
    + rewrite list_lookup_insert_ne by done. by rewrite decide_False by congruence.
Qed.

Lemma RemoveAll_unlink_ok own w db o ref db' :
  db_ok own w db -> 0 <= w -> w + 1 < max_writes ->
  own !! rm_node o = Some (rm_tableid o, rm_key o) ->
  stamp (db_nodes db) (rm_node o) (rm_seq o) (.= LOGICALDELETE) ->
  RemoveAll_unlink o db = Ok (ref, db') ->
  db_ok own (w + 1) db' /\ db_le own own db db' /\ forall t k, abs db' t k = abs db t k.
Proof.
  intros Hok Hw Hmax Ho Hst Hrun. unfold RemoveAll_unlink, node_at in Hrun.
  destruct (db_nodes db !! rm_node o) as [n|] eqn:Hn; [|done].
  unfold from_opt, mbind, result_bind in Hrun.
  destruct (Remove o _) as [[b db2]|] eqn:Hrm; [|done]. injection Hrun as <- <-.
  destruct (db_ok_meta own w db (rm_node o) n (set_gcRef (u32 (mn_gcRef n - 1)) n))
    as (Hok1 & Hle1 & Ha1); [done..| |].
  { intros _. destruct (ok_node _ _ _ Hok _ _ _ Ho) as (n0 & Hn0 & _ & _ & ?).
    by assert (n0 = n) as -> by congruence. }
  destruct (Remove_ok own w _ o b db2 Hok1 Hw Hmax Ho) as (Hok2 & Hle2 & Ha2); [|done|].
  - eauto with euno.
  - split_and!; [done|by eapply db_le_trans|]. intros. by rewrite Ha2, Ha1.
Qed.

(** ** Pools *)

Lemma AddDeletedNode_ok own db t a tl tl' :
  tl_ok own db tl -> unowned own db a -> AddDeletedNode t a tl = Ok tl' -> tl_ok own db tl'.
Proof.
  intros (s & Hs & Hp & Hr) Ha Hadd. unfold AddDeletedNode in Hadd.
  destruct (tl_memnodesPool tl !! t) as [p|] eqn:Hpt; simpl in Hadd; [|done].
  destruct (pool_add a 0 p) as [p'|] eqn:Hpa; [|done]. injection Hadd as <-.
  exists ({[a]} ∪ s). simpl. split_and!; [set_solver| |done]. apply pools_in_insert.
  - eapply Forall_impl; [exact Hp|]. intros q. apply pool_in_mono. set_solver.
  - eapply pool_in_add; [|done]. exact (Forall_lookup_1 _ _ _ _ Hp Hpt).
Qed.

Lemma AddDeletedValue_ok own db t v sn tl tl' :
  tl_ok own db tl -> AddDeletedValue t v sn tl = Ok tl' -> tl_ok own db tl'.
Proof. intros Htl Hadd. unfold AddDeletedValue in Hadd. inv_ok. by simplify_eq. Qed.

Lemma Collect_loop_ok own db sn l : forall tl tl',
  tl_ok own db tl -> Forall (dummy_ok own db) l ->
  Collect_loop (db_nodes db) sn l tl = Ok tl' -> tl_ok own db tl'.
Proof.
  induction l as [|kv l IH]; intros tl tl' Htl Hl Hrun; simpl in Hrun; [by simplify_eq|].
  apply Forall_cons in Hl as [Hkv Hl].
  destruct (if ValidateValue _ then _ else _) as [tl1|] eqn:E1 in Hrun; [|done].
  assert (tl_ok own db tl1) as Htl1.
  { destruct (ValidateValue _); [by eapply AddDeletedValue_ok|by simplify_eq]. }
  unfold mbind at 1, result_bind at 1 in Hrun.
  destruct (if ws_dummy kv =? NULL then _ else _) as [tl2|] eqn:E2 in Hrun; [|done].
  eapply IH; [|done|exact Hrun]. destruct (Z.eqb_spec (ws_dummy kv) NULL); [by simplify_eq|].
  destruct Hkv as [|Hun]; [done|].
  destruct (AddDeletedNode _ _ _) as [tl3|] eqn:E3 in E2; [|done].
  eapply AddDeletedNode_ok in E3; [|done..].
  destruct (node_at _ _) as [d|]; [|done]. unfold mbind, result_bind in E2.
  destruct (ValidateValue (mn_value d)); [by eapply AddDeletedValue_ok|by simplify_eq].
Qed.

Lemma gc_pools_ok sn s : forall ps ps',
  Forall (fun p => pool_in p s) ps -> gc_pools sn ps = Ok ps' -> Forall (fun p => pool_in p s) ps'.
Proof.
  induction ps as [|p ps IH]; intros ps' Hps Hrun; simpl in Hrun; [by simplify_eq|].
  apply Forall_cons in Hps as [Hp Hps]. inv_ok. simplify_eq. constructor; [|by apply IH].
  by eapply pool_in_gc.
Qed.

Lemma GC_ok own db sn tl tl' : tl_ok own db tl -> DBTables.GC sn tl = Ok tl' -> tl_ok own db tl'.
Proof.
  intros (s & Hs & Hp & Hr) Hrun. unfold DBTables.GC in Hrun.
  destruct (GC_needed tl); [|simplify_eq; by exists s]. inv_ok. simplify_eq.
  exists s. simpl. split_and!; try done. by eapply gc_pools_ok.
Qed.

Lemma AddRemoveNode_ok own w db e tl tl' db' :
  db_ok own w db -> tl_ok own db tl -> del_ok own db e ->
  AddRemoveNode (de_tableid e) (de_key e) (de_seq e) (de_node e) tl db = Ok (tl', db') ->
  db_ok own w db' /\ db_le own own db db' /\ (forall t k, abs db' t k = abs db t k) /\ tl_ok own db' tl'.
Proof.
  intros Hok Htl [Ho Hst] Hrun. unfold AddRemoveNode, AddRMObj, node_at in Hrun.
  destruct (db_nodes db !! de_node e) as [n|] eqn:Hn; [|done]. simpl in Hrun.
  unfold mbind, result_bind in Hrun. injection Hrun as <- <-.
  destruct (db_ok_meta own w db (de_node e) n (set_gcRef (u32 (mn_gcRef n + 1)) n))
    as (Hok1 & Hle1 & Ha1); [done..| |].
  { intros _. destruct (ok_node _ _ _ Hok _ _ _ Ho) as (n0 & Hn0 & _ & _ & ?).
    by assert (n0 = n) as -> by congruence. }
  split_and!; try done. destruct (tl_ok_le _ _ _ _ _ Hle1 Htl) as (s & Hs & Hp & Hr).
  exists s. split_and!; try done. constructor; [|done]. split; [done|].
  by apply (stamp_le _ _ _ _ _ _ _ Hle1).
Qed.

Lemma GCRM_loop_ok own w l : forall db tl tl' db',
  db_ok own w db -> tl_ok own db tl -> Forall (del_ok own db) l ->
  GCRM_loop l tl db = Ok (tl', db') ->
  db_ok own w db' /\ db_le own own db db' /\ (forall t k, abs db' t k = abs db t k) /\ tl_ok own db' tl'.
Proof.
  induction l as [|e l IH]; intros db tl tl' db' Hok Htl Hl Hrun; simpl in Hrun.
  - simplify_eq. split_and!; try done. apply db_le_refl.
  - apply Forall_cons in Hl as [He Hl].
    destruct (AddRemoveNode _ _ _ _ tl db) as [[tl1 db1]|] eqn:E; [|done].
    eapply AddRemoveNode_ok in E as (Hok1 & Hle1 & Ha1 & Htl1); [|done..].
    apply IH in Hrun as (Hok2 & Hle2 & Ha2 & Htl2); [|done..|].
    + split_and!; try done; [by eapply db_le_trans|]. intros. by rewrite Ha2, Ha1.
    + eapply Forall_impl; [exact Hl|]. intros e' [??]. split; eauto with euno.
Qed.

Lemma copy_value_ok own w db t bytes tx v tx' db' :
  db_ok own w db -> tl_ok own db (tx_tl tx) -> copy_value t bytes tx db = Ok (v, tx', db') ->
  db_ok own w db' /\ db_le own own db db' /\ (forall t k, abs db' t k = abs db t k) /\
  exists tl, tx' = set_tl tl tx /\ tl_ok own db' tl.
Proof.
  intros Hok Htl Hrun. unfold copy_value, GetEmptyValue in Hrun.
  destruct (tl_valuesPool (tx_tl tx) !! t) as [p|]; simpl in Hrun; [|done].
  destruct (pool_get p) as [[a p']|]; [|done]. unfold mbind, result_bind in Hrun.
  assert (forall db0 vs, db_nodes db0 = db_nodes db -> db_tables db0 = db_tables db ->
    db_brk db <= db_brk db0 -> db_snapshot db0 = db_snapshot db ->
    db_ok own w (set_vals vs db0) /\ db_le own own db (set_vals vs db0) /\
    forall t k, abs (set_vals vs db0) t k = abs db t k) as Hext.
  { intros db0 vs Hn Ht Hb Hs. apply db_ok_same; simpl; try done. lia. }
  assert (forall db0, db_le own own db db0 ->
    tl_ok own db0 (set_pools (<[t := p']> (tl_valuesPool (tx_tl tx))) (tl_memnodesPool (tx_tl tx)) (tx_tl tx))) as Htl'.
  { intros db0 Hle. destruct (tl_ok_le _ _ _ _ _ Hle Htl) as (s & ? & ? & ?). by exists s. }
  destruct (a =? NULL); injection Hrun as <- <- <-.
  - edestruct Hext as (Hok1 & Hle1 & Ha1); [..|split_and!; [exact Hok1|done|done|eauto]]; try done.
    simpl. unfold sizeof_Obj. lia.
  - edestruct (Hext db) as (Hok1 & Hle1 & Ha1); [..|split_and!; [exact Hok1|done|done|eauto]]; done.
Qed.

Lemma RCU_ok own w db r :
  db_ok own w db -> db_ok own w (set_rcu r db) /\ db_le own own db (set_rcu r db) /\
  forall t k, abs (set_rcu r db) t k = abs db t k.
Proof. intros Hok. by apply db_ok_same. Qed.

(** ** Steps *)

Lemma serial_snoc D H0' T :
  serial D (H0' ++ [T]) <->
  serial D H0' /\ Forall (fun r => replay H0' D r.1.1 r.1.2 = r.2) (t_reads T).
Proof. revert D. induction H0' as [|T' H0' IH]; intros D; simpl; [tauto|]. rewrite IH. tauto. Qed.

Lemma threads_insert own own' db db' (ths : gmap nat (Thread P)) i th :
  db_le own own' db db' -> (forall j th, ths !! j = Some th -> thread_ok own db th) ->
  thread_ok own' db' th -> forall j th', <[i := th]> ths !! j = Some th' -> thread_ok own' db' th'.
Proof.
  intros Hle Hall Hth j th' [[_ <-]|[_ Hj]]%lookup_insert_Some; [done|].
  eapply thread_ok_le; [done|]. by eapply Hall.
Qed.

(** What a step keeps: the invariant, and what the other threads rely on. *)
Definition sys_next (D0 : absdb) (s s' : Sys St P) : Prop :=
  sys_ok D0 s' /\ db_le (sy_own s) (sy_own s') (sy_db s) (sy_db s').

(** A step of thread [i] that leaves the abstract database as it is. *)
Lemma sys_ok_quiet D0 s i th own' w' db' :
  sys_ok D0 s -> sy_writes s <= w' ->
  db_ok own' w' db' -> db_le (sy_own s) own' (sy_db s) db' ->
  (forall t k, abs db' t k = abs (sy_db s) t k) -> thread_ok own' db' th ->
  sys_next D0 s (mkSys db' (<[i := th]> (sy_threads s)) own' w' (sy_hist s)).
Proof.
  intros (Hok & Hw & Hth & Habs & Hser) Hw' Hok' Hle Ha Ht. split; [|done].
  split_and!; simpl; try done; [lia| |].
  - by eapply threads_insert.
  - intros t k. by rewrite Ha, Habs.
Qed.

(** ... or the store as well. *)
Lemma sys_ok_local D0 s i th :
  sys_ok D0 s -> thread_ok (sy_own s) (sy_db s) th -> sys_next D0 s (set_thread i th s).
Proof.
  intros Hs Ht. pose proof Hs as (Hok & _).
  apply sys_ok_quiet; try done; apply db_le_refl.
Qed.

(** The invariant of a thread after [WriteSet::Add]. *)
Lemma thread_ok_Add own db tx log t k v n src :
  thread_ok own db (mkThread tx (AddNode t k src n) log) -> v <> HAVEREMOVED ->
  thread_ok own db (mkThread (set_writeset (WriteSet_Add t k v n (tx_writeset tx)) tx) Running log).
Proof.
  intros [Hrs Hws Hds Hbuf Htl Hat (? & ? & ? & Hwr & ?)] Hv. simpl in *.
  destruct (WriteSet_Add_spec t k v n (tx_writeset tx) Hws) as (Hwf & cv & cs & Hent).
  split; simpl; try done. split_and!; try done. rewrite Hent. apply Forall_app. split; [done|].
  by apply Forall_singleton.
Qed.

Lemma thread_ok_Begin own db th :
  thread_ok own db th -> thread_ok own db (mkThread (reset_sets (th_tx th)) Running []).
Proof.
  intros []. split; simpl; try done; eauto using ReadSet_Reset_wf, WriteSet_Reset_wf, DELSet_Reset_wf.
Qed.

(** The RTM region of [Get] records the read. *)
Lemma thread_ok_Get own db tx log t k label n tx' sq :
  thread_ok own db (mkThread tx (GotNode t k label n) log) ->
  Get_rtm n label tx db = Ok (Some tx') -> read_word db n = Some sq ->
  thread_ok own db (mkThread tx' (ReadRtm t k label n sq) log).
Proof.
  intros [Hrs Hws Hds Hbuf Htl [Ho Hlab] (Hreads & Hrange & Hlog & Hwr & Hdel)] Hget Hsq. simpl in *.
  unfold Get_rtm, node_at in Hget. destruct (db_nodes db !! n) as [nd|] eqn:Hn; simpl in Hget; [|done].
  unfold mbind, result_bind in Hget. destruct (Z.eqb_spec (mn_value nd) HAVEREMOVED); [done|].
  destruct (ReadSet_Add_spec (read_word db) n label (tx_readset tx) sq Hrs Hsq) as (r & Hr & Hwf & Hrd & Hrg).
  rewrite Hr in Hget. injection Hget as <-. rewrite app_nil_r in Hreads.
  unfold read_word in Hsq. rewrite Hn in Hsq. injection Hsq as <-.
  split; simpl; try done.
  - split_and!; try done. exists nd. split_and!; [done|lia|done].
  - rewrite Hrd, Hrg, Hreads. done.
Qed.

(** The value is read after the RTM region; if it is not the one the recorded
    sequence number stands for, that number is out of date. *)
Lemma thread_ok_value own db tx log t k label n sq v :
  thread_ok own db (mkThread tx (ReadRtm t k label n sq) log) ->
  Get_value n db = Ok v ->
  thread_ok own db (mkThread tx Running (log ++ [mkRLog t k label n sq v])).
Proof.
  intros [Hrs Hws Hds Hbuf Htl (Ho & Hlab & n0 & Hn0 & Hsq & HQ) (Hreads & Hrange & Hlog & Hwr & Hdel)] Hget.
  simpl in *. unfold Get_value, node_at in Hget. rewrite Hn0 in Hget. simpl in Hget. injection Hget as <-.
  split; simpl; try done. split_and!; try done.
  - by rewrite Hreads, fmap_app, app_nil_r.
  - apply Forall_app. split; [done|]. apply Forall_singleton. split_and!; try done.
    exists n0. simpl. split_and!; try done. auto.
Qed.

Lemma thread_ok_Get_lookup own w db tx log t k label n tx' db' :
  db_ok own w db -> 0 <= w -> thread_ok own db (mkThread tx Running log) -> label <> NO_CONFLICT ->
  Get_lookup t k tx db = Ok (n, tx', db') ->
  let own' := <[n := (t, k)]> own in
  db_ok own' w db' /\ db_le own own' db db' /\ (forall t k, abs db' t k = abs db t k) /\
  thread_ok own' db' (mkThread tx' (GotNode t k label n) log).
Proof.
  intros Hok Hw Hth Hlab Hget. unfold Get_lookup in Hget.
  destruct (GetWithInsert t k db) as [[a db1]|] eqn:Hg; [|done]. unfold mbind, result_bind in Hget.
  destruct (GetWithInsert_ok own w db t k a db1 Hok Hw Hg) as (Hok' & Hle & Habs & Ht).
  assert (thread_ok (<[a := (t, k)]> own) db1 (mkThread tx (GotNode t k label a) log)) as Hth'.
  { eapply thread_ok_le in Hth; [|exact Hle]. destruct Hth as [Hrs Hws Hds Hbuf Htl _ Hsets].
    split; try done. simpl. by rewrite lookup_insert_eq. }
  destruct (a =? NULL); injection Hget as <- <- <-; split_and!; try done.
  destruct Hth'. split; try done. simpl. apply buffer_ok_insert; [done|]. by rewrite lookup_insert_eq.
Qed.

Lemma thread_ok_find own w db tx log t k src fill n tx' db' :
  db_ok own w db -> 0 <= w -> thread_ok own db (mkThread tx Running log) ->
  find_node fill t k tx db = Ok (n, tx', db') ->
  let own' := <[n := (t, k)]> own in
  db_ok own' w db' /\ db_le own own' db db' /\ (forall t k, abs db' t k = abs db t k) /\
  thread_ok own' db' (mkThread tx' (AddNode t k src n) log).
Proof.
  intros Hok Hw Hth Hf.
  destruct (find_node_ok own w db fill t k tx n tx' db' Hok Hw (th_buf _ _ _ Hth) Hf)
    as (Hok' & Hle & Habs & _ & b & -> & Hb).
  split_and!; try done. eapply thread_ok_le in Hth; [|exact Hle].
  destruct Hth as [Hrs Hws Hds Hbuf Htl _ Hsets]. split; try done. simpl. by rewrite lookup_insert_eq.
Qed.

(** Back to the start of the operation. *)
Lemma thread_ok_restart own db th :
  thread_ok own db th -> pending (th_pc th) = [] ->
  match th_pc th with Running | AddNode _ _ _ _ | GotNode _ _ _ _ => True | _ => False end ->
  thread_ok own db (mkThread (th_tx th) Running (th_log th)).
Proof. intros [] Hp Hpc. split; simpl in *; try done. destruct th as [tx [] log]; done. Qed.

Lemma thread_ok_idle own db th tl :
  thread_ok own db th -> tl_ok own db tl -> thread_ok own db (mkThread (set_tl tl (th_tx th)) Idle []).
Proof. intros [] ?. by split. Qed.

Lemma step_commit_ok D0 s i th tx' db' :
  sys_ok D0 s -> sy_threads s !! i = Some th -> th_pc th = Running ->
  End_rtm (th_tx th) (sy_db s) = Ok (Some (tx', db')) ->
  sy_writes s + Z.of_nat (length (WriteSet_entries (tx_writeset (th_tx th)))) < max_writes ->
  sys_next D0 s (commit (mkTxn (read_of <$> th_log th)
                       (write_of <$> WriteSet_entries (tx_writeset (th_tx th))))
               (Z.of_nat (length (WriteSet_entries (tx_writeset (th_tx th)))))
               (set_thread i (mkThread tx' Committed []) (set_db db' s))).
Proof.
  intros (Hok & Hw & Hth & Habs & Hser) Hi Hpc Hend Hmax.
  destruct th as [tx pc log]. simpl in *. subst pc.
  destruct (End_rtm_ok _ _ _ tx log tx' db' Hok Hw (Hth _ _ Hi) Hmax Hend)
    as (Hreads & (Hok' & Hle & _ & _ & Ha) & Hth').
  split; [|done]. split_and!; simpl; try done; [lia| | |].
  - by eapply threads_insert.
  - intros t k. rewrite Ha. unfold replay. rewrite fold_left_app. simpl. by apply apply_writes_ext.
  - apply serial_snoc. split; [done|]. simpl. apply Forall_fmap. eapply Forall_impl; [exact Hreads|].
    intros r Hr. simpl. by rewrite <- Habs.
Qed.

Lemma step_collect_ok D0 s i th tx1 tx2 db2 db3 :
  sys_ok D0 s -> sy_threads s !! i = Some th -> th_pc th = Committed ->
  CollectOldVersions (th_tx th) (sy_db s) = Ok tx1 ->
  GCRMNodes tx1 (sy_db s) = Ok (tx2, db2) -> RCUTXEnd (tx_tl tx2) db2 = Ok db3 ->
  sys_next D0 s (set_thread i (mkThread tx2 Idle []) (set_db db3 s)).
Proof.
  intros Hs Hi Hpc Hcol Hgcrm Hrcu. pose proof Hs as (Hok & Hw & Hth & _).
  specialize (Hth i th Hi). pose proof (th_sets _ _ _ Hth) as Hsets. rewrite Hpc in Hsets.
  destruct Hsets as [Hdum Hdel].
  unfold CollectOldVersions in Hcol.
  destruct (Collect_loop _ _ _ _) as [tl1|] eqn:Hc; [|done]. injection Hcol as <-.
  eapply Collect_loop_ok in Hc; [|apply Hth|done].
  unfold GCRMNodes in Hgcrm.
  destruct (GCRM_loop _ _ _) as [[tl2 db2']|] eqn:Hg; [|done]. injection Hgcrm as <- <-.
  eapply GCRM_loop_ok in Hg as (Hok2 & Hle2 & Ha2 & Htl2); [|done..].
  unfold RCUTXEnd in Hrcu. destruct (RCU.EndTX _ _) as [r|]; [|done]. injection Hrcu as <-.
  destruct (RCU_ok _ _ _ r Hok2) as (Hok3 & Hle3 & Ha3).
  pose proof (db_le_trans _ _ _ _ _ _ Hle2 Hle3) as Hle.
  apply (sys_ok_quiet D0 s); simpl; try done.
  apply (thread_ok_idle _ _ th tl2); [exact (thread_ok_le _ _ _ _ _ Hle Hth)|].
  exact (tl_ok_le _ _ _ _ _ Hle3 Htl2).
Qed.

Lemma step_remove_ok D0 s i th o l ref db' :
  sys_ok D0 s -> sy_threads s !! i = Some th ->
  rmlist_ (tl_rmPool (tx_tl (th_tx th))) = o :: l ->
  RemoveAll_unlink o (sy_db s) = Ok (ref, db') -> sy_writes s + 1 < max_writes ->
  sys_next D0 s (mkSys db'
    (<[i := mkThread (set_tl (set_rmPool (rmpool_pop l (tl_rmPool (tx_tl (th_tx th))))
                       (tx_tl (th_tx th))) (th_tx th)) Idle []]> (sy_threads s))
    (sy_own s) (sy_writes s + 1) (sy_hist s)).
Proof.
  intros Hs Hi Hl Hrm Hmax. pose proof Hs as (Hok & Hw & Hth & _). specialize (Hth i th Hi).
  pose proof (th_pool _ _ _ Hth) as (st & Hst & Hp & Hr). rewrite Hl in Hr.
  apply Forall_cons in Hr as [[Ho Hstamp] Hr].
  destruct (RemoveAll_unlink_ok _ _ _ o ref db' Hok Hw Hmax Ho Hstamp Hrm) as (Hok' & Hle & Ha).
  apply (sys_ok_quiet D0 s); try done; [lia|].
  apply thread_ok_idle; [by eapply thread_ok_le|]. eapply tl_ok_le; [exact Hle|]. by exists st.
Qed.

Lemma step_ok D0 s s' : sys_ok D0 s -> step s s' -> sys_next D0 s s'.
Proof.
  intros Hs Hstep. pose proof Hs as (Hok & Hw & Hth & Habs & Hser).
  destruct Hstep as [i th tx' db' Hi Hpc Hb|i th t k src n tx' db' Hi Hpc Hf|i th t k src n Hi Hpc Hc
    |i th t k v n Hi Hpc Hc Hv|i th t k bytes n v tx' db' Hi Hpc Hc Hcp Hv
    |i th t k label n tx' db' Hi Hpc Hlab Hlk Hg|i th t k label n Hi Hpc Hr|i th t k label n tx' sq Hi Hpc Hr Hsq
    |i th t k label n sq v Hi Hpc Hv|i th tx' db' Hi Hpc Hab He Hm|i th Hi Hpc
    |i th tx1 tx2 db2 db3 Hi Hpc Hc Hg Hr|i th db' Hi Hpc Hr|i th sn tl' Hi Hpc Hg
    |i th o l ref db' Hi Hpc Hl Hr Hm|Hm].
  all: try (pose proof (Hth i th Hi) as Hti; destruct th as [tx pc log]; simpl in *; subst pc).
  - (* begin *)
    unfold Begin, RCUTXBegin in Hb. destruct (BeginTX _ _) as [r|]; [|done]. injection Hb as <- <-.
    destruct (RCU_ok _ _ _ r Hok) as (Hok' & Hle & Ha). apply (sys_ok_quiet D0 s); try done.
    apply (thread_ok_Begin _ _ (mkThread tx Idle log)). by eapply thread_ok_le.
  - (* add: the record *)
    edestruct thread_ok_find as (? & ? & ? & ?); [done..|]. by apply (sys_ok_quiet D0 s).
  - (* add: retry *)
    apply sys_ok_local; [done|]. by apply (thread_ok_restart _ _ _ Hti).
  - (* add *)
    apply sys_ok_local; [done|]. by eapply thread_ok_Add.
  - (* add a copy *)
    destruct (copy_value_ok _ _ _ _ _ _ _ _ _ Hok (th_pool _ _ _ Hti) Hcp) as (Hok' & Hle & Ha & tl & -> & Htl).
    apply (sys_ok_quiet D0 s); try done.
    apply (thread_ok_Add _ _ (set_tl tl tx) log t k v n (inr bytes)); [|done].
    eapply thread_ok_le in Hti; [|exact Hle]. destruct Hti. by split.
  - (* get: table *)
    edestruct thread_ok_Get_lookup as (? & ? & ? & ?); [done..|]. by apply (sys_ok_quiet D0 s).
  - (* get: retry *)
    apply sys_ok_local; [done|]. by apply (thread_ok_restart _ _ _ Hti).
  - (* get: RTM *)
    apply sys_ok_local; [done|]. by eapply thread_ok_Get.
  - (* get: value *)
    apply sys_ok_local; [done|]. by eapply thread_ok_value.
  - (* commit *)
    by apply (step_commit_ok D0 s i (mkThread tx Running log)).
  - (* fail *)
    apply sys_ok_local; [done|]. destruct Hti. by split.
  - (* collect *)
    by eapply (step_collect_ok D0 s i (mkThread tx Committed log)).
  - (* aborted *)
    unfold RCUTXEnd in Hr. destruct (EndTX _ _) as [r|]; [|done]. injection Hr as <-.
    destruct (RCU_ok _ _ _ r Hok) as (Hok' & Hle & Ha). apply (sys_ok_quiet D0 s); try done.
    eapply thread_ok_le in Hti; [|exact Hle]. destruct Hti. by split.
  - (* gc *)
    apply sys_ok_local; [done|]. eapply GC_ok in Hg; [|exact (th_pool _ _ _ Hti)].
    by apply (thread_ok_idle _ _ _ tl' Hti).
  - (* remove *)
    by apply (step_remove_ok D0 s i (mkThread tx Idle log) o l ref db').
  - (* snapshot *)
    destruct (db_ok_same (sy_own s) (sy_writes s) (sy_db s)
      (DBTables.set_snapshot (db_snapshot (sy_db s) + 1) (sy_db s))) as (Hok' & Hle & Ha); simpl; try done; [lia|].
    split; [|done]. split_and!; simpl; try done.
    intros i th Hi. eapply thread_ok_le; [done|]. by apply (Hth i).
Qed.

Lemma steps_ok D0 s s' : sys_ok D0 s -> rtc step s s' -> sys_next D0 s s'.
Proof.
  intros Hs Hr. induction Hr as [s|s1 s2 s3 Hstep _ IH]; [split; [done|apply db_le_refl]|].
  destruct (step_ok _ _ _ Hs Hstep) as [Hs2 Hle]. destruct (IH Hs2) as [Hs3 Hle'].
  split; [done|by eapply db_le_trans].
Qed.

(** ** Initial states *)

(** A store filled by [TupleInsert] before the transactions start. *)
Inductive loaded : gmap Z (nat * Z) -> DB St -> Prop :=
  | loaded_empty db :
      db_nodes db = ∅ -> (forall t s, db_tables db !! t = Some s -> ms_map s = ∅) ->
      0 < db_brk db -> 0 < db_snapshot db -> loaded ∅ db
  | loaded_insert own db t k bytes db' n :
      loaded own db -> TupleInsert t k bytes db = Ok db' -> tmap db' t k = Some n ->
      db_brk db + sizeof_Obj < HAVEREMOVED -> loaded (<[n := (t, k)]> own) db'.

(** Every thread has called the two [ThreadLocalInit]s. *)
Record initial (s : Sys St P) : Prop := {
  init_db : loaded (sy_own s) (sy_db s);
  init_threads i th : sy_threads s !! i = Some th ->
    exists number, th = mkThread (DBTX_ThreadLocalInit number (ThreadLocalInit i (sy_db s))) Idle [];
  init_writes : sy_writes s = 0;
  init_hist : sy_hist s = []
}.

Lemma TupleInsert_ok own db t k bytes db' :
  db_ok own 0 db -> db_brk db + sizeof_Obj < HAVEREMOVED -> TupleInsert t k bytes db = Ok db' ->
  exists n, tmap db' t k = Some n /\ db_ok (<[n := (t, k)]> own) 0 db' /\
    forall t' k', abs db' t' k' = apply_write (abs db) (t, k, db_brk db + sizeof_Obj) t' k'.
Proof.
  intros Hok Hbrk Hrun. unfold TupleInsert, Put in Hrun. cbn [malloc] in Hrun.
  set (db1 := set_vals _ _) in Hrun.
  destruct (db_ok_same own 0 db db1) as (Hok1 & _ & Ha1); try done.
  { simpl. unfold sizeof_Obj. lia. }
  destruct (GetWithInsert t k db1) as [[n db2]|] eqn:Hg; [|done]. unfold mbind, result_bind in Hrun.
  destruct (GetWithInsert_ok own 0 db1 t k n db2 Hok1) as (Hok2 & _ & Ha2 & Ht); [lia|done|].
  destruct (ok_tab _ _ _ Hok2 t k n Ht) as (Ho & nd & Hn & Hv).
  unfold node_at in Hrun. rewrite Hn in Hrun. simpl in Hrun. injection Hrun as <-.
  destruct (ok_node _ _ _ Hok2 n t k Ho) as (nd' & Hn' & _ & _ & Hc). assert (nd' = nd) as -> by congruence.
  destruct (db_ok_put (<[n := (t, k)]> own) 0 0 db2 n t k nd
    (set_seq 1 (set_value (db_brk db + sizeof_Obj) nd))) as [Hok3 Ha3]; try done; simpl; try lia.
  exists n. split_and!; try done. intros t' k'. etrans; [apply Ha3|]. unfold apply_write. simpl.
  by rewrite Ha2, Ha1.
Qed.

Lemma loaded_ok own db : loaded own db -> db_ok own 0 db.
Proof.
  induction 1 as [db Hn Ht Hb Hs|own db t k bytes db' n Hl IH Hrun Hn Hb].
  - assert (forall t k, tmap db t k = None) as Hnone.
    { intros t k. unfold tmap. destruct (db_tables db !! t) as [s|] eqn:E; simpl; [|done].
      by rewrite (Ht t s E), lookup_empty. }
    split; try done.
    + intros t k a. by rewrite Hnone.
    + intros a [n Ha]. by rewrite Hn, lookup_empty in Ha.
  - destruct (TupleInsert_ok own db t k bytes db' IH Hb Hrun) as (n' & Hn' & Hok & _). by simplify_eq.
Qed.

Lemma initial_ok s : initial s -> sys_ok (abs (sy_db s)) s.
Proof.
  intros [Hdb Hth Hw Hh]. apply loaded_ok in Hdb. split_and!.
  - by rewrite Hw.
  - lia.
  - intros i th Hi. destruct (Hth i th Hi) as (number & ->).
    split; simpl; eauto using ReadSet_new_wf, WriteSet_new_wf, DELSet_new_wf.
    + intros t e [-> _]%lookup_replicate_1. by left.
    + exists ∅. split_and!; [set_solver| |done]. simpl. apply Forall_replicate, pool_in_empty.
  - by rewrite Hh.
  - by rewrite Hh.
Qed.

Lemma sys_ok_reach s0 s : initial s0 -> rtc step s0 s -> sys_ok (abs (sy_db s0)) s.
Proof.
  intros Hi Hr. apply initial_ok in Hi. by apply (steps_ok _ s0).
Qed.

(** An uncontended [Get] returns what the database has for the key. *)
Lemma Get_abs own w db tx log fuel t k label :
  db_ok own w db -> 0 <= w -> thread_ok own db (mkThread tx Running log) ->
  is_Some (db_tables db !! t) -> WriteSet_Lookup (tx_writeset tx) t k = None ->
  exists tx' db', Get (S fuel) t k label tx db = Ok (abs db t k, tx', db').
Proof.
  intros Hok Hw Hth [s Hs] Hlk. unfold Get. rewrite Hlk. simpl.
  assert (exists n db', GetWithInsert t k db = Ok (n, db')) as (n & db' & Hg).
  { unfold GetWithInsert. rewrite Hs. simpl. unfold mbind, result_bind.
    destruct (ms_GetWithInsert s k _) as [[n []] s']; eauto. }
  destruct (GetWithInsert_ok own w db t k n db' Hok Hw Hg) as (Hok' & _ & Ha & Ht).
  destruct (ok_tab _ _ _ Hok' t k n Ht) as (Ho & nd & Hn & Hv).
  assert (n <> NULL) as Hnn by (destruct (ok_dom _ _ _ Hok' n); [eauto|unfold NULL; lia]).
  unfold Get_lookup. rewrite Hg. unfold mbind, result_bind. rewrite (proj2 (Z.eqb_neq _ _) Hnn).
  rewrite (proj2 (Z.eqb_neq _ _) Hnn). unfold Get_rtm, node_at. rewrite Hn.
  unfold from_opt, mbind, result_bind. rewrite (proj2 (Z.eqb_neq _ _) Hv).
  destruct (ReadSet_Add_spec (read_word db') n label (tx_readset tx) (mn_seq nd)) as (r & Hr & _).
  { apply Hth. }
  { unfold read_word. by rewrite Hn. }
  cbn [tx_readset set_buffer]. rewrite Hr. unfold Get_value, node_at. rewrite Hn. simpl. do 2 eexists. do 3 f_equal.
  rewrite <- Ha. unfold abs. rewrite Ht. simpl. by rewrite Hn.
Qed.

End invariant.

(** ** Results *)

Section results.
Context {St P : Type} `{MemstoreLaws St, PoolLaws P}.




End results.

(** ** Runs

    The operations of the threads as functions on the state, to build runs. *)

Definition ok_or {A} (d : A) (r : result A) : A := match r with Ok a => a | Fault _ => d end.

Definition is_ok {A} (r : result A) : bool := match r with Ok _ => true | Fault _ => false end.

Lemma is_ok_true {A} (r : result A) : is_ok r = true -> exists a, r = Ok a.
Proof. destruct r; [eauto|done]. Qed.

Definition is_some {A} (r : result (option A)) : bool :=
  match r with Ok (Some _) => true | _ => false end.

Lemma is_some_true {A} (r : result (option A)) : is_some r = true -> exists a, r = Ok (Some a).
Proof. destruct r as [[]|]; [eauto|done..]. Qed.

Section runs.
Context {St : Type} `{Memstore St}.

Definition w_thread (i : nat) (db : DB St) : Thread OBJPool :=
  mkThread (DBTX_ThreadLocalInit 1 (ThreadLocalInit i db)) Idle [].

Definition w_th (i : nat) (s : Sys St OBJPool) := default (w_thread i (sy_db s)) (sy_threads s !! i).

Definition w_begin (i : nat) (s : Sys St OBJPool) :=
  let '(tx, db) := ok_or (th_tx (w_th i s), sy_db s) (Begin (th_tx (w_th i s)) (sy_db s)) in
  set_thread i (mkThread tx Running []) (set_db db s).

Definition w_find (i : nat) (t : nat) (k : Z) (v : addr) (s : Sys St OBJPool) :=
  let '(n, tx, db) := ok_or (NULL, th_tx (w_th i s), sy_db s) (find_node true t k (th_tx (w_th i s)) (sy_db s)) in
  set_thread i (mkThread tx (AddNode t k (inl v) n) (th_log (w_th i s))) (touch n t k (set_db db s)).

Definition w_add (i : nat) (t : nat) (k : Z) (v n : addr) (s : Sys St OBJPool) :=
  let th := w_th i s in
  set_thread i (mkThread (set_writeset (WriteSet_Add t k v n (tx_writeset (th_tx th))) (th_tx th))
    Running (th_log th)) s.

Definition w_lookup (i : nat) (t : nat) (k label : Z) (s : Sys St OBJPool) :=
  let '(n, tx, db) := ok_or (NULL, th_tx (w_th i s), sy_db s) (Get_lookup t k (th_tx (w_th i s)) (sy_db s)) in
  set_thread i (mkThread tx (GotNode t k label n) (th_log (w_th i s))) (touch n t k (set_db db s)).

Definition w_rtm (i : nat) (t : nat) (k label n sq : Z) (s : Sys St OBJPool) :=
  let r := ok_or None (Get_rtm n label (th_tx (w_th i s)) (sy_db s)) in
  set_thread i (mkThread (default (th_tx (w_th i s)) r) (ReadRtm t k label n sq) (th_log (w_th i s))) s.

Definition w_value (i : nat) (t : nat) (k label n sq : Z) (s : Sys St OBJPool) :=
  let v := ok_or None (Get_value n (sy_db s)) in
  set_thread i (mkThread (th_tx (w_th i s)) Running (th_log (w_th i s) ++ [mkRLog t k label n sq v])) s.

Definition w_commit (i : nat) (s : Sys St OBJPool) :=
  let th := w_th i s in
  let '(tx, db) := default (th_tx th, sy_db s) (ok_or None (End_rtm (th_tx th) (sy_db s))) in
  commit (mkTxn (read_of <$> th_log th) (write_of <$> WriteSet_entries (tx_writeset (th_tx th))))
    (Z.of_nat (length (WriteSet_entries (tx_writeset (th_tx th)))))
    (set_thread i (mkThread tx Committed []) (set_db db s)).

Definition w_collect (i : nat) (s : Sys St OBJPool) :=
  let tx := th_tx (w_th i s) in
  let tx1 := ok_or tx (CollectOldVersions tx (sy_db s)) in
  let '(tx2, db2) := ok_or (tx1, sy_db s) (GCRMNodes tx1 (sy_db s)) in
  let db3 := ok_or db2 (RCUTXEnd (tx_tl tx2) db2) in
  set_thread i (mkThread tx2 Idle []) (set_db db3 s).

Definition w_node `{!MemstoreLaws St} (t : nat) (k : Z) (s : Sys St OBJPool) : addr := default 0 (tmap (sy_db s) t k).

(** Each function makes the step of its name when its conditions compute. *)
#[local] Ltac w_make H :=
  unfold w_th; rewrite ?H; simpl;
  repeat match goal with E : is_ok _ = true |- _ => apply is_ok_true in E as [? E]; rewrite ?E end;
  repeat match goal with x : (_ * _)%type |- _ => destruct x end; simpl.

Lemma w_begin_step i s th :
  sy_threads s !! i = Some th -> th_pc th = Idle ->
  is_ok (Begin (th_tx th) (sy_db s)) = true -> step s (w_begin i s).
Proof. intros Hi Hpc E. unfold w_begin. w_make Hi. by apply (step_begin s i th). Qed.

Lemma w_find_step i t k v s th :
  sy_threads s !! i = Some th -> th_pc th = Running ->
  is_ok (find_node true t k (th_tx th) (sy_db s)) = true -> step s (w_find i t k v s).
Proof. intros Hi Hpc E. unfold w_find. w_make Hi. by apply (step_add_find s i th t k (inl v)). Qed.

Lemma w_add_step i t k v n s th :
  sy_threads s !! i = Some th -> th_pc th = AddNode t k (inl v) n ->
  add_check n (sy_db s) = Ok true -> v <> HAVEREMOVED -> step s (w_add i t k v n s).
Proof. intros Hi Hpc E Hv. unfold w_add. w_make Hi. by apply (step_add s i th). Qed.

Lemma w_lookup_step i t k label s th :
  sy_threads s !! i = Some th -> th_pc th = Running -> label <> NO_CONFLICT ->
  WriteSet_Lookup (tx_writeset (th_tx th)) t k = None ->
  is_ok (Get_lookup t k (th_tx th) (sy_db s)) = true -> step s (w_lookup i t k label s).
Proof. intros Hi Hpc Hl Hn E. unfold w_lookup. w_make Hi. by apply (step_get_lookup s i th). Qed.

Lemma w_rtm_step i t k label n sq s th :
  sy_threads s !! i = Some th -> th_pc th = GotNode t k label n ->
  is_some (Get_rtm n label (th_tx th) (sy_db s)) = true ->
  read_word (sy_db s) n = Some sq -> step s (w_rtm i t k label n sq s).
Proof. intros Hi Hpc [tx E]%is_some_true Hs. unfold w_rtm. w_make Hi. rewrite E. by apply (step_get_rtm s i th). Qed.

Lemma w_value_step i t k label n sq s th :
  sy_threads s !! i = Some th -> th_pc th = ReadRtm t k label n sq ->
  is_ok (Get_value n (sy_db s)) = true -> step s (w_value i t k label n sq s).
Proof. intros Hi Hpc E. unfold w_value. w_make Hi. by apply (step_get_value s i th). Qed.

Lemma w_commit_step i s th :
  sy_threads s !! i = Some th -> th_pc th = Running -> tx_abort (th_tx th) = false ->
  is_some (End_rtm (th_tx th) (sy_db s)) = true ->
  sy_writes s + Z.of_nat (length (WriteSet_entries (tx_writeset (th_tx th)))) < max_writes ->
  step s (w_commit i s).
Proof.
  intros Hi Hpc Ha [[tx db] E]%is_some_true Hm. unfold w_commit. w_make Hi. rewrite E. by apply (step_commit s i th).
Qed.

Lemma w_collect_step i s th :
  sy_threads s !! i = Some th -> th_pc th = Committed ->
  is_ok (tx1 ← CollectOldVersions (th_tx th) (sy_db s); r ← GCRMNodes tx1 (sy_db s);
         RCUTXEnd (tx_tl r.1) r.2) = true ->
  step s (w_collect i s).
Proof.
  intros Hi Hpc [db3 E]%is_ok_true. unfold w_collect. w_make Hi. unfold mbind, result_bind in E.
  destruct (CollectOldVersions _ _) as [tx1|] eqn:E1 in E |- *; [|done]. simpl.
  destruct (GCRMNodes tx1 _) as [[tx2 db2]|] eqn:E2 in E |- *; [|done]. simpl in *. rewrite E.
  by apply (step_collect s i th tx1 _ db2).
Qed.

End runs.

(** ** A run

    A store with one loaded row and two threads: thread 0 writes key 5 and
    commits, then thread 1 reads key 5 and deletes key 7 and commits. *)

Definition w_db0 : DB (gmap Z addr) := mkDB ∅ ∅ 4096 [∅] 1 [2 ^ 63; 2 ^ 63].

Definition w_db1 : DB (gmap Z addr) := ok_or w_db0 (TupleInsert 0 7 [1; 2; 3] w_db0).

Definition w_node7 : addr := default 0 (tmap w_db1 0 7).

Definition w_sys : Sys (gmap Z addr) OBJPool :=
  mkSys w_db1 {[0%nat := w_thread 0 w_db1; 1%nat := w_thread 1 w_db1]} {[w_node7 := (0%nat, 7)]} 0 [].

Lemma w_initial : initial w_sys.
Proof.
  split; try done.
  - refine (loaded_insert ∅ w_db0 0 7 [1; 2; 3] w_db1 w_node7 _ _ _ _); try done.
    constructor; try done. intros [|t] s; simpl; [by intros [= <-]|]. by rewrite lookup_nil.
  - intros i th Hi. exists 1%nat. cbn [sy_threads w_sys] in Hi.
    apply lookup_insert_Some in Hi as [[<- <-]|[_ Hi]]; [done|].
    apply lookup_singleton_Some in Hi as [<- <-]. done.
Qed.

Definition w1 := w_begin 0 w_sys.
Definition w2 := w_find 0 0 5 1000 w1.
Definition w3 := w_add 0 0 5 1000 (w_node 0 5 w2) w2.
Definition w4 := w_commit 0 w3.
Definition w5 := w_begin 1 w4.
Definition w6 := w_lookup 1 0 5 3 w5.
Definition w7 := w_rtm 1 0 5 3 (w_node 0 5 w6) 1 w6.
Definition w8 := w_value 1 0 5 3 (w_node 0 5 w7) 1 w7.
Definition w9 := w_find 1 0 7 LOGICALDELETE w8.
Definition w10 := w_add 1 0 7 LOGICALDELETE (w_node 0 7 w9) w9.
Definition w11 := w_commit 1 w10.
Definition w12 := w_collect 1 w11.

Ltac w_compute := vm_compute; first [reflexivity | discriminate].

Lemma w_run5 : rtc step w_sys w5.
Proof.
  apply (rtc_l _ _ w1); [apply (w_begin_step 0 _ (w_th 0 w_sys)); w_compute|].
  apply (rtc_l _ _ w2); [apply (w_find_step 0 0 5 1000 _ (w_th 0 w1)); w_compute|].
  apply (rtc_l _ _ w3); [apply (w_add_step 0 0 5 1000 _ _ (w_th 0 w2)); w_compute|].
  apply (rtc_l _ _ w4); [apply (w_commit_step 0 _ (w_th 0 w3)); w_compute|].
  apply (rtc_l _ _ w5); [apply (w_begin_step 1 _ (w_th 1 w4)); w_compute|].
  apply rtc_refl.
Qed.

Lemma w_run12 : rtc step w_sys w12.
Proof.
  etrans; [exact w_run5|].
  apply (rtc_l _ _ w6); [apply (w_lookup_step 1 0 5 3 _ (w_th 1 w5)); w_compute|].
  apply (rtc_l _ _ w7); [apply (w_rtm_step 1 0 5 3 _ 1 _ (w_th 1 w6)); w_compute|].
  apply (rtc_l _ _ w8); [apply (w_value_step 1 0 5 3 _ 1 _ (w_th 1 w7)); w_compute|].
  apply (rtc_l _ _ w9); [apply (w_find_step 1 0 7 LOGICALDELETE _ (w_th 1 w8)); w_compute|].
  apply (rtc_l _ _ w10); [apply (w_add_step 1 0 7 LOGICALDELETE _ _ (w_th 1 w9)); w_compute|].
  apply (rtc_l _ _ w11); [apply (w_commit_step 1 _ (w_th 1 w10)); w_compute|].
  apply (rtc_l _ _ w12); [apply (w_collect_step 1 _ (w_th 1 w11)); w_compute|].
  apply rtc_refl.
Qed.



(** The record of key 7 is in thread 1's removal list and leaves the table. *)
Definition w_rm : RMObj := default (mkRMObj 0 0 NULL 0) (head (rmlist_ (tl_rmPool (tx_tl (th_tx (w_th 1 w12)))))).

Definition w_removed : DB (gmap Z addr) := (ok_or (false, w_db0) (Remove w_rm (sy_db w12))).2.

