(* ===== verification/DBTXIter.v ===== *)
(** * DBTX: range scans (db/dbtx.h, db/dbtx.cc)

    [DBTX::Iterator] walks a table and records in the read set, for every
    position, the link it came through and the sequence number of the record
    it found, so that [DBTX::End] notices a concurrent insertion or write. *)

From stdpp Require Import sorting.
From S2P Require Import Prelude OBJPool RCU MemStore LinkTable TxSets DBTables DBTX Serial SerialInv.

(** ** Data *)

(** [val_] is not initialised by the constructor. *)
Record DIter (I : Type) := mkDIter {
  di_tableid : nat;
  di_iter : I;
  di_cur : addr;
  di_val : addr;
  di_prev_link : addr
}.
Arguments mkDIter {I}.
Arguments di_tableid {I}.
Arguments di_iter {I}.
Arguments di_cur {I}.
Arguments di_val {I}.
Arguments di_prev_link {I}.

Section iterator.
Context {S P I : Type} `{Memstore S, Pool P, !MemIterator S I}.
Implicit Types (db : DB S) (tx : TX P) (it : DIter I).

Definition DIter_new (tableid : nat) db : result (DIter I) :=
  _ ← from_opt OutOfBounds (db_tables db !! tableid);
  Ok (mkDIter tableid it_new NULL NULL NULL).

Definition DIter_Valid it : bool := negb (di_cur it =? NULL).

Definition DIter_Key it : Z := it_Key (di_iter it).

(** [Value] also stores the record in the buffer of the table. *)
Definition DIter_Value it tx : result (addr * TX P) :=
  _ ← from_opt OutOfBounds (tx_buffer tx !! di_tableid it);
  Ok (di_val it, set_buffer (di_tableid it) (it_Key (di_iter it)) (di_cur it) tx).

Definition set_iter (i : I) (cur : addr) it : DIter I :=
  mkDIter (di_tableid it) i cur (di_val it) (di_prev_link it).

Definition add_link (i : I) tx : TX P :=
  set_readset (ReadSet_AddNext (it_GetLink i) (it_GetLinkTarget i) (tx_readset tx)) tx.

(** ** The RTM regions

    The record [cur_] is read; [visit] is the region of [Seek], [SeekToFirst]
    and [Prev], [visit_next] that of [Next], which records a link only when it
    differs from the last one. *)

Definition visit it tx db : result (DIter I * TX P) :=
  node ← node_at (db_nodes db) (di_cur it);
  let tx := add_link (di_iter it) tx in
  r ← ReadSet_Add (read_word db) (di_cur it) 0 (tx_readset tx);
  Ok (mkDIter (di_tableid it) (di_iter it) (di_cur it) (mn_value node) (di_prev_link it),
      set_readset r tx).

Definition visit_next it tx db : result (DIter I * TX P) :=
  node ← node_at (db_nodes db) (di_cur it);
  let same := di_prev_link it =? it_GetLink (di_iter it) in
  let tx := if same then tx else add_link (di_iter it) tx in
  r ← ReadSet_Add (read_word db) (di_cur it) 0 (tx_readset tx);
  Ok (mkDIter (di_tableid it) (di_iter it) (di_cur it) (mn_value node)
        (if same then di_prev_link it else it_GetLink (di_iter it)),
      set_readset r tx).

(** ** Moving *)

(** The loop of [Seek] and [SeekToFirst]. *)
Fixpoint seek_loop (fuel : nat) (s : S) it tx db : result (DIter I * TX P) :=
  match fuel with
  | O => Fault OutOfFuel
  | Datatypes.S fuel =>
      if it_Valid (di_iter it) then
        '(it, tx) ← visit it tx db;
        if ValidateValue (di_val it) then Ok (it, tx)
        else
          let i := (it_Next s (di_iter it)).2 in
          seek_loop fuel s (set_iter i (it_CurNode i) it) tx db
      else Ok (set_iter (di_iter it) NULL it, tx)
  end.

(** The end of the table right away: the link is recorded. *)
Definition seek_from (fuel : nat) (s : S) (i : I) it tx db : result (DIter I * TX P) :=
  let it := set_iter i (it_CurNode i) it in
  if it_Valid i then seek_loop fuel s it tx db else Ok (it, add_link i tx).

Definition DIter_Seek (fuel : nat) (key : Z) it tx db : result (DIter I * TX P) :=
  s ← from_opt OutOfBounds (db_tables db !! di_tableid it);
  seek_from fuel s (it_Seek s key (di_iter it)) it tx db.

Definition DIter_SeekToFirst (fuel : nat) it tx db : result (DIter I * TX P) :=
  s ← from_opt OutOfBounds (db_tables db !! di_tableid it);
  seek_from fuel s (it_SeekToFirst s (di_iter it)) it tx db.

Fixpoint next_loop (fuel : nat) (s : S) it tx db : result (DIter I * TX P) :=
  match fuel with
  | O => Fault OutOfFuel
  | Datatypes.S fuel =>
      if it_Valid (di_iter it) then
        '(it, tx) ← visit_next (set_iter (di_iter it) (it_CurNode (di_iter it)) it) tx db;
        if ValidateValue (di_val it) then Ok (it, tx)
        else next_loop fuel s (set_iter (it_Next s (di_iter it)).2 (di_cur it) it) tx db
      else Ok (set_iter (di_iter it) NULL it, tx)
  end.

(** Without [AGGRESSIVEDETECT] the answer of the table's [Next] is not used. *)
Definition DIter_Next (fuel : nat) it tx db : result (DIter I * TX P) :=
  s ← from_opt OutOfBounds (db_tables db !! di_tableid it);
  next_loop fuel s (set_iter (it_Next s (di_iter it)).2 (di_cur it) it) tx db.

Fixpoint prev_loop (fuel : nat) (s : S) it tx db : result (DIter I * TX P) :=
  match fuel with
  | O => Fault OutOfFuel
  | Datatypes.S fuel =>
      if it_Valid (di_iter it) then
        '(it, tx) ← visit (set_iter (di_iter it) (it_CurNode (di_iter it)) it) tx db;
        if ValidateValue (di_val it) then Ok (it, tx)
        else prev_loop fuel s (set_iter (it_Prev s (di_iter it)).2 (di_cur it) it) tx db
      else Ok (set_iter (di_iter it) NULL it, tx)
  end.

(** A table whose leaf has changed answers [false] and the transaction is
    marked to abort. *)
Definition DIter_Prev (fuel : nat) it tx db : result (DIter I * TX P) :=
  s ← from_opt OutOfBounds (db_tables db !! di_tableid it);
  let '(b, i) := it_Prev s (di_iter it) in
  if (b : bool) then prev_loop fuel s (set_iter i (di_cur it) it) tx db
  else Ok (set_iter i NULL it,
           mkTX (tx_readset tx) (tx_writeset tx) (tx_deleteset tx) (tx_buffer tx) true (tx_tl tx)).

(** ** A scan

    What the clients of the iterator do: [Seek], then [Next] until [n] rows are
    read or the iterator is not valid. *)

Fixpoint scan_rows (fuel n : nat) it tx db : result (list (Z * addr) * DIter I * TX P) :=
  match n with
  | O => Ok ([], it, tx)
  | Datatypes.S n =>
      if DIter_Valid it then
        '(it', tx') ← DIter_Next fuel it tx db;
        '(rows, it', tx') ← scan_rows fuel n it' tx' db;
        Ok ((DIter_Key it, di_val it) :: rows, it', tx')
      else Ok ([], it, tx)
  end.

Definition scan (fuel n : nat) (tableid : nat) (key : Z) tx db : result (list (Z * addr) * DIter I * TX P) :=
  it ← DIter_new tableid db;
  '(it, tx) ← DIter_Seek fuel key it tx db;
  scan_rows fuel n it tx db.

End iterator.

(** ** What a scan records *)

Section scan_ranges.
Context {St P I : Type} `{MemstoreLaws St, PoolLaws P} `{!MemIterator St I}
  `{!MemIteratorLaws St I} `{!LinkLaws St I}.
Implicit Types (tx : TX P) (it : DIter I) (r : ReadSet).
Context (db : DB St) (t : nat) (s : St).
Context (Hs : db_tables db !! t = Some s).
Context (Hnodes : forall k a, ms_map s !! k = Some a -> a <> NULL /\ is_Some (db_nodes db !! a)).

(** The read set has a sequence number or a link that vouches for key [x]. *)
Definition covered r (x : Z) : Prop :=
  (exists a n, ms_map s !! x = Some a /\ db_nodes db !! a = Some n /\
     mkRSSeqPair (mn_seq n) a 0 ∈ rs_reads r) \/
  (exists l v, mkRSSuccPair v l ∈ rs_ranges r /\ ms_guards s l v x /\ ms_link s l = Some v).

(** [r'] has all that [r] has. *)
Definition grown r r' : Prop :=
  rs_wf r' /\ (forall p, p ∈ rs_reads r -> p ∈ rs_reads r') /\
  (forall p, p ∈ rs_ranges r -> p ∈ rs_ranges r') /\
  (forall p, p ∈ rs_reads r' -> p ∈ rs_reads r \/ rs_label p = 0).

Lemma grown_refl r : rs_wf r -> grown r r.
Proof. unfold grown. auto. Qed.

Lemma grown_trans r1 r2 r3 : grown r1 r2 -> grown r2 r3 -> grown r1 r3.
Proof.
  intros (_ & A1 & B1 & C1) (Hwf & A2 & B2 & C2). split_and!; try done; auto.
  intros p [Hp|Hp]%C2; [|by right]. by apply C1.
Qed.

Lemma covered_grown r r' x : grown r r' -> covered r x -> covered r' x.
Proof.
  unfold covered. intros (_ & Hr & Hg & _) [(a & n & ? & ? & ?)|(l & v & ? & ? & ?)]; [left|right].
  - exists a, n. auto.
  - exists l, v. auto.
Qed.

Lemma grown_Add r r' sq a :
  rs_wf r' -> rs_reads r' = rs_reads r ++ [mkRSSeqPair sq a 0] -> rs_ranges r' = rs_ranges r -> grown r r'.
Proof.
  intros Hwf Hrd Hrg. split_and!; [done|rewrite Hrd; set_solver|by rewrite Hrg|].
  intros p. rewrite Hrd, elem_of_app, list_elem_of_singleton. intros [?| ->]; auto.
Qed.

(** The link of the position is in the read set. *)
Definition linked r (i : I) : Prop := mkRSSuccPair (it_GetLinkTarget i) (it_GetLink i) ∈ rs_ranges r.

(** [prev_link] was recorded with the word it holds. *)
Definition prev_ok r it : Prop :=
  di_prev_link it = NULL \/
  exists w, ms_link s (di_prev_link it) = Some w /\ mkRSSuccPair w (di_prev_link it) ∈ rs_ranges r.

Lemma linked_covered r (i : I) x :
  it_ok s i -> linked r i -> ms_guards s (it_GetLink i) (it_GetLinkTarget i) x -> covered r x.
Proof.
  intros Hok Hl Hg. right. exists (it_GetLink i), (it_GetLinkTarget i).
  split_and!; [done..|by apply link_word].
Qed.

Lemma prev_ok_grown r r' it it' :
  grown r r' -> di_prev_link it' = di_prev_link it -> prev_ok r it -> prev_ok r' it'.
Proof. unfold prev_ok. intros (_ & _ & Hg & _) ->. naive_solver. Qed.

Lemma add_link_spec (i : I) tx :
  rs_wf (tx_readset tx) ->
  grown (tx_readset tx) (tx_readset (add_link (S := St) i tx)) /\
  linked (tx_readset (add_link (S := St) i tx)) i.
Proof.
  intros Hwf. unfold add_link, linked. simpl.
  destruct (ReadSet_AddNext_spec (it_GetLink i) (it_GetLinkTarget i) (tx_readset tx) Hwf) as (Hwf' & Hr & Hg).
  split; [split_and!; [done|by rewrite Hr| |rewrite Hr; auto]|]; rewrite Hg; set_solver.
Qed.

(** What an RTM region of the iterator leaves. *)
Record visited it tx it' tx' : Prop := {
  vi_iter : di_iter it' = di_iter it;
  vi_table : di_tableid it' = di_tableid it;
  vi_cur : di_cur it' = di_cur it;
  vi_val n : db_nodes db !! di_cur it = Some n -> di_val it' = mn_value n;
  vi_grown : grown (tx_readset tx) (tx_readset tx');
  vi_link : linked (tx_readset tx') (di_iter it);
  vi_read n : db_nodes db !! di_cur it = Some n ->
    mkRSSeqPair (mn_seq n) (di_cur it) 0 ∈ rs_reads (tx_readset tx');
  vi_prev : prev_ok (tx_readset tx') it';
  vi_tx : exists r, tx' = set_readset r tx
}.

Lemma visit_spec it tx n :
  rs_wf (tx_readset tx) -> prev_ok (tx_readset tx) it -> db_nodes db !! di_cur it = Some n ->
  exists it' tx', visit it tx db = Ok (it', tx') /\ visited it tx it' tx'.
Proof.
  intros Hwf Hp Hn. destruct (add_link_spec (di_iter it) tx Hwf) as [Hg Hl].
  unfold visit, node_at. rewrite Hn. unfold from_opt, mbind, result_bind.
  destruct (ReadSet_Add_spec (read_word db) (di_cur it) 0 (tx_readset (add_link (S := St) (di_iter it) tx)) (mn_seq n))
    as (r & -> & Hwf' & Hrd & Hrg); [apply Hg|unfold read_word; by rewrite Hn|].
  assert (grown (tx_readset (add_link (S := St) (di_iter it) tx)) r) as Hg'.
  { by eapply grown_Add. }
  do 2 eexists. split; [done|]. split; simpl; try done.
  - intros n' ?. by simplify_eq.
  - by eapply grown_trans.
  - by apply Hg'.
  - intros n' ?. simplify_eq. rewrite Hrd. set_solver.
  - by eapply (prev_ok_grown _ _ it); [eapply grown_trans; [exact Hg|exact Hg']|..].
  - by exists r.
Qed.

Lemma visit_next_spec it tx n :
  rs_wf (tx_readset tx) -> prev_ok (tx_readset tx) it -> db_nodes db !! di_cur it = Some n ->
  it_ok s (di_iter it) ->
  exists it' tx', visit_next it tx db = Ok (it', tx') /\ visited it tx it' tx'.
Proof.
  intros Hwf Hp Hn Hok. unfold visit_next, node_at. rewrite Hn. unfold from_opt, mbind, result_bind.
  pose proof (link_not_null s _ Hok) as Hnn. pose proof (link_word s _ Hok) as Hw.
  set (tx1 := if di_prev_link it =? it_GetLink (di_iter it) then tx else add_link (S := St) (di_iter it) tx).
  assert (grown (tx_readset tx) (tx_readset tx1) /\ linked (tx_readset tx1) (di_iter it) /\
    exists r, tx1 = set_readset r tx) as (Hg & Hl & r0 & Hr0).
  { unfold tx1. destruct (Z.eqb_spec (di_prev_link it) (it_GetLink (di_iter it))) as [E|].
    - split; [by apply grown_refl|]. split; [|exists (tx_readset tx); by destruct tx].
      destruct Hp as [?|(w & Hw' & Hin)]; [congruence|].
      unfold linked. rewrite E in Hw', Hin. congruence.
    - destruct (add_link_spec (di_iter it) tx Hwf). split; [done|]. split; [done|]. by eexists. }
  destruct (ReadSet_Add_spec (read_word db) (di_cur it) 0 (tx_readset tx1) (mn_seq n))
    as (r & -> & Hwf' & Hrd & Hrg); [apply Hg|unfold read_word; by rewrite Hn|].
  assert (grown (tx_readset tx1) r) as Hg'.
  { by eapply grown_Add. }
  do 2 eexists. split; [done|]. split; simpl; try done.
  - intros n' ?. by simplify_eq.
  - by eapply grown_trans.
  - by apply Hg'.
  - intros n' ?. simplify_eq. rewrite Hrd. set_solver.
  - destruct (Z.eqb_spec (di_prev_link it) (it_GetLink (di_iter it))) as [E|].
    + by eapply (prev_ok_grown _ _ it); [eapply grown_trans; [exact Hg|exact Hg']|..].
    + right. exists (it_GetLinkTarget (di_iter it)). split; [done|]. by apply Hg'.
  - exists r. by rewrite Hr0.
Qed.

(** ** Walking forward *)

(** The keys from [lo] to the position: none has a value, and the read set, or
    the link the position will be recorded with, vouches for each. *)
Record walking (lo : Z) r (i : I) : Prop := {
  wk_ok : it_ok s i;
  wk_pos k : it_at i = Some k -> lo <= k;
  wk_gap x : lo <= x -> before x (it_at i) ->
    covered r x \/ (is_Some (it_at i) /\ ms_guards s (it_GetLink i) (it_GetLinkTarget i) x);
  wk_none x : lo <= x -> before x (it_at i) -> abs db t x = None
}.

(** An operation has ended at the first row from [lo]. *)
Record stands (lo : Z) tx it' tx' : Prop := {
  st_grown : grown (tx_readset tx) (tx_readset tx');
  st_tx : exists r, tx' = set_readset r tx;
  st_table : di_tableid it' = t;
  st_prev : prev_ok (tx_readset tx') it';
  st_ok : it_ok s (di_iter it');
  st_none x : lo <= x -> before x (it_at (di_iter it')) -> abs db t x = None;
  st_cov x : lo <= x -> before x (it_at (di_iter it')) -> covered (tx_readset tx') x;
  st_at : match it_at (di_iter it') with
    | Some k => lo <= k /\ di_cur it' <> NULL /\ abs db t k = Some (di_val it') /\
        covered (tx_readset tx') k /\ linked (tx_readset tx') (di_iter it')
    | None => di_cur it' = NULL
    end
}.

Lemma abs_row k a n :
  ms_map s !! k = Some a -> db_nodes db !! a = Some n -> abs db t k = visible (mn_value n).
Proof. intros Ha Hn. unfold abs, tmap. rewrite Hs. simpl. rewrite Ha. simpl. by rewrite Hn. Qed.

Lemma abs_absent k : ms_map s !! k = None -> abs db t k = None.
Proof. intros Ha. unfold abs, tmap. rewrite Hs. simpl. by rewrite Ha. Qed.

(** After a visit the walk may stop, ... *)
Lemma visited_stands lo it tx it' tx' k :
  di_tableid it = t -> walking lo (tx_readset tx) (di_iter it) -> it_at (di_iter it) = Some k ->
  di_cur it = it_CurNode (di_iter it) -> visited it tx it' tx' -> ValidateValue (di_val it') = true ->
  stands lo tx it' tx'.
Proof.
  intros Ht [Hok Hpos Hgap Hnone] Hk Hcur [Hi Htab Hc Hval Hg Hl Hrd Hp Htx] Hv.
  pose proof (it_CurNode_spec s _ k Hok Hk) as Ha. rewrite <- Hcur in Ha.
  destruct (Hnodes _ _ Ha) as [Hnn [n Hn]].
  split; rewrite ?Hi, ?Htab; try done.
  - intros x Hlo Hb. destruct (Hgap x Hlo Hb) as [?|[_ ?]]; [by eapply covered_grown|].
    by apply (linked_covered _ (di_iter it)).
  - rewrite Hk, Hc. split_and!; try done; [eauto| |].
    + rewrite (abs_row k _ n) by done. rewrite (Hval n Hn) in *. unfold visible. by rewrite Hv.
    + left. exists (di_cur it), n. split_and!; try done. auto.
Qed.

(** ... or go on to the next record. *)
Lemma visited_walking lo it tx it' tx' k :
  walking lo (tx_readset tx) (di_iter it) -> it_at (di_iter it) = Some k ->
  di_cur it = it_CurNode (di_iter it) -> visited it tx it' tx' -> ValidateValue (di_val it') = false ->
  walking lo (tx_readset tx') (it_Next s (di_iter it)).2.
Proof.
  intros [Hok Hpos Hgap Hnone] Hk Hcur [Hi Htab Hc Hval Hg Hl Hrd Hp Htx] Hv.
  pose proof (it_CurNode_spec s _ k Hok Hk) as Ha. rewrite <- Hcur in Ha.
  destruct (Hnodes _ _ Ha) as [Hnn [n Hn]]. destruct (it_Next_spec s _ k Hok Hk) as [Hok' Hleast].
  rewrite Hk in Hgap, Hnone. specialize (Hpos k Hk).
  assert (forall x, k < x -> before x (it_at (it_Next s (di_iter it)).2) -> ms_map s !! x = None) as Hskip.
  { intros x Hx Hb. destruct (ms_map s !! x) as [a|] eqn:E; [|done]. exfalso.
    destruct (it_at (it_Next s (di_iter it)).2) as [k'|]; simpl in *.
    - destruct Hleast as [_ Hl']. specialize (Hl' x (conj Hx (ex_intro _ a E))). lia.
    - apply (Hleast x). eauto. }
  split; [done| | |].
  - intros k' Hk'. rewrite Hk' in Hleast. destruct Hleast as [[? _] _]. lia.
  - intros x Hlo Hb. destruct (Z.lt_trichotomy x k) as [Hlt|[->|Hlt]].
    + left. destruct (Hgap x Hlo Hlt) as [?|[_ ?]]; [by eapply covered_grown|].
      by apply (linked_covered _ (di_iter it)).
    + left. left. exists (di_cur it), n. split_and!; try done. auto.
    + destruct (Next_guards s _ k x Hok Hk Hlt Hb) as [?|?]; [left|by right].
      by apply (linked_covered _ (di_iter it)).
  - intros x Hlo Hb. destruct (Z.lt_trichotomy x k) as [Hlt|[->|Hlt]]; [by apply Hnone| |].
    + rewrite (abs_row k _ n) by done. rewrite (Hval n Hn) in Hv. unfold visible. by rewrite Hv.
    + apply abs_absent. by apply Hskip.
Qed.

(** The records not yet passed: a walk passes one per round. *)
Definition rest (i : I) : gset Z := filter (fun x => ~ before x (it_at i)) (dom (ms_map s)).

Lemma rest_le (i : I) : (size (rest i) <= size (ms_map s))%nat.
Proof. rewrite <- size_dom. apply subseteq_size. unfold rest. set_solver. Qed.

Lemma rest_step (i : I) k :
  it_ok s i -> it_at i = Some k -> (size (rest (it_Next s i).2) < size (rest i))%nat.
Proof.
  intros Hok Hk. pose proof (it_CurNode_spec s _ k Hok Hk) as Ha.
  destruct (it_Next_spec s _ k Hok Hk) as [_ Hleast].
  apply subset_size. unfold rest. split.
  - intros x [Hb Hd]%elem_of_filter. apply elem_of_filter. split; [|done]. rewrite Hk. simpl.
    destruct (it_at (it_Next s i).2) as [k'|]; simpl in *; [|tauto]. destruct Hleast as [[? _] _]. lia.
  - intros Hsub. specialize (Hsub k). rewrite !elem_of_filter, Hk in Hsub. simpl in Hsub.
    destruct Hsub as [Hb _].
    + split; [lia|]. apply elem_of_dom. eauto.
    + apply Hb. destruct (it_at (it_Next s i).2) as [k'|]; simpl in *; [|done].
      destruct Hleast as [[? _] _]. lia.
Qed.

Lemma walking_end lo tx it :
  di_tableid it = t -> rs_wf (tx_readset tx) -> prev_ok (tx_readset tx) it ->
  walking lo (tx_readset tx) (di_iter it) -> it_at (di_iter it) = None ->
  stands lo tx (set_iter (di_iter it) NULL it) tx.
Proof.
  intros Ht Hwf Hp [Hok Hpos Hgap Hnone] E.
  split; simpl; rewrite ?E in *; try done.
  - by apply grown_refl.
  - exists (tx_readset tx). by destruct tx.
  - intros x Hlo Hb. destruct (Hgap x Hlo Hb) as [?|[[? ?] _]]; done.
Qed.

Lemma stands_trans lo tx tx1 it' tx' :
  grown (tx_readset tx) (tx_readset tx1) -> (exists r, tx1 = set_readset r tx) ->
  stands lo tx1 it' tx' -> stands lo tx it' tx'.
Proof.
  intros Hg [r1 ->] [Hg' [r ->] ? ? ? ? ? ?]. split; try done; [by eapply grown_trans|by exists r].
Qed.

Lemma Valid_at (i : I) : it_Valid i = true -> exists k, it_at i = Some k.
Proof. intros Hv. apply it_Valid_spec in Hv. by destruct Hv as [k ?]; eauto. Qed.

Lemma not_Valid_at (i : I) : it_Valid i = false -> it_at i = None.
Proof.
  intros E. destruct (it_at i) as [k|] eqn:Ek; [|done].
  assert (it_Valid i = true) by (apply it_Valid_spec; eauto). congruence.
Qed.

Lemma seek_loop_spec lo : forall fuel it tx,
  di_tableid it = t -> rs_wf (tx_readset tx) -> prev_ok (tx_readset tx) it ->
  walking lo (tx_readset tx) (di_iter it) -> di_cur it = it_CurNode (di_iter it) ->
  (size (rest (di_iter it)) < fuel)%nat ->
  exists it' tx', seek_loop fuel s it tx db = Ok (it', tx') /\ stands lo tx it' tx'.
Proof.
  induction fuel as [|fuel IH]; intros it tx Ht Hwf Hp Hw Hcur Hf; [lia|]. simpl.
  destruct (it_Valid (di_iter it)) eqn:Ev; [|apply not_Valid_at in Ev; eauto using walking_end].
  apply Valid_at in Ev as [k Hk]. pose proof (wk_ok _ _ _ Hw) as Hok.
  pose proof (it_CurNode_spec s _ k Hok Hk) as Ha. rewrite <- Hcur in Ha.
  destruct (Hnodes _ _ Ha) as [_ [n Hn]].
  destruct (visit_spec it tx n Hwf Hp Hn) as (it1 & tx1 & -> & Hv). unfold mbind, result_bind.
  destruct (ValidateValue (di_val it1)) eqn:Ev.
  - exists it1, tx1. split; [done|]. by eapply visited_stands.
  - pose proof (visited_walking lo it tx it1 tx1 k Hw Hk Hcur Hv Ev) as Hw1.
    pose proof (rest_step _ k Hok Hk) as Hr. destruct Hv as [Hi Htab Hc _ Hg _ _ Hp1 Htx]. rewrite Hi.
    destruct (IH (set_iter (it_Next s (di_iter it)).2 (it_CurNode (it_Next s (di_iter it)).2) it1) tx1)
      as (it' & tx' & E & Hst); simpl; try done; [congruence|apply Hg|lia|].
    exists it', tx'. split; [done|]. by eapply stands_trans.
Qed.

Lemma next_loop_spec lo : forall fuel it tx,
  di_tableid it = t -> rs_wf (tx_readset tx) -> prev_ok (tx_readset tx) it ->
  walking lo (tx_readset tx) (di_iter it) -> (size (rest (di_iter it)) < fuel)%nat ->
  exists it' tx', next_loop fuel s it tx db = Ok (it', tx') /\ stands lo tx it' tx'.
Proof.
  induction fuel as [|fuel IH]; intros it tx Ht Hwf Hp Hw Hf; [lia|]. simpl.
  destruct (it_Valid (di_iter it)) eqn:Ev; [|apply not_Valid_at in Ev; eauto using walking_end].
  apply Valid_at in Ev as [k Hk]. pose proof (wk_ok _ _ _ Hw) as Hok.
  destruct (Hnodes _ _ (it_CurNode_spec s _ k Hok Hk)) as [_ [n Hn]].
  set (it0 := set_iter (di_iter it) (it_CurNode (di_iter it)) it).
  destruct (visit_next_spec it0 tx n Hwf Hp Hn Hok) as (it1 & tx1 & -> & Hv). unfold mbind, result_bind.
  destruct (ValidateValue (di_val it1)) eqn:Ev.
  - exists it1, tx1. split; [done|]. by eapply (visited_stands lo it0).
  - pose proof (visited_walking lo it0 tx it1 tx1 k Hw Hk eq_refl Hv Ev) as Hw1.
    pose proof (rest_step _ k Hok Hk) as Hr. destruct Hv as [Hi Htab Hc _ Hg _ _ Hp1 Htx]. rewrite Hi.
    destruct (IH (set_iter (it_Next s (di_iter it)).2 (di_cur it1) it1) tx1)
      as (it' & tx' & E & Hst); simpl; try done; [by rewrite Htab|apply Hg|simpl in Hr; lia|].
    exists it', tx'. split; [done|]. by eapply stands_trans.
Qed.

(** [Seek] and [SeekToFirst]: the cursor stands at the first record from [lo]. *)
Lemma seek_from_spec lo fuel (i : I) it tx :
  di_tableid it = t -> rs_wf (tx_readset tx) -> prev_ok (tx_readset tx) it ->
  it_ok s i -> is_least (fun k => lo <= k /\ is_Some (ms_map s !! k)) (it_at i) ->
  (forall x, lo <= x -> before x (it_at i) -> ms_guards s (it_GetLink i) (it_GetLinkTarget i) x) ->
  (size (ms_map s) < fuel)%nat ->
  exists it' tx', seek_from fuel s i it tx db = Ok (it', tx') /\ stands lo tx it' tx'.
Proof.
  intros Ht Hwf Hp Hok Hleast Hguard Hf. unfold seek_from.
  assert (forall x, lo <= x -> before x (it_at i) -> abs db t x = None) as Hnone.
  { intros x Hlo Hb. apply abs_absent. destruct (ms_map s !! x) as [a|] eqn:E; [|done]. exfalso.
    destruct (it_at i) as [k|]; simpl in *.
    - destruct Hleast as [_ Hl]. specialize (Hl x (conj Hlo (ex_intro _ a E))). lia.
    - apply (Hleast x). eauto. }
  destruct (it_Valid i) eqn:Ev.
  - apply Valid_at in Ev as [k Hk]. apply (seek_loop_spec lo); simpl; try done.
    + split; try done.
      * intros k' Hk'. rewrite Hk' in Hleast. by destruct Hleast as [[? _] _].
      * intros x Hlo Hb. right. split; [eauto|]. auto.
    + pose proof (rest_le i). lia.
  - apply not_Valid_at in Ev. pose proof (it_CurNode_end s i Hok Ev) as Hcur.
    destruct (add_link_spec i tx Hwf) as [Hg Hl].
    do 2 eexists. split; [done|].
    split; cbn [di_iter di_tableid set_iter di_cur]; rewrite ?Ev; try done; [by eexists| |intros x Hlo _; apply Hnone; [done|by rewrite Ev]|].
    + by eapply prev_ok_grown.
    + intros x Hlo _. apply (linked_covered _ i); [done..|]. apply Hguard; [done|by rewrite Ev].
Qed.

Lemma Seek_stands fuel key it tx :
  di_tableid it = t -> rs_wf (tx_readset tx) -> prev_ok (tx_readset tx) it ->
  (size (ms_map s) < fuel)%nat ->
  exists it' tx', DIter_Seek fuel key it tx db = Ok (it', tx') /\ stands key tx it' tx'.
Proof.
  intros Ht Hwf Hp Hf. unfold DIter_Seek. rewrite Ht, Hs. simpl. unfold mbind, result_bind.
  destruct (it_Seek_spec s key (di_iter it)) as [Hok Hleast].
  apply seek_from_spec; try done. intros x Hlo Hb. by apply (Seek_guards s key (di_iter it)).
Qed.

(** [Next] from a row: the cursor stands at the first row after it. *)
Lemma Next_stands fuel it tx lo k tx0 :
  stands lo tx0 it tx -> it_at (di_iter it) = Some k -> (size (ms_map s) < fuel)%nat ->
  exists it' tx', DIter_Next fuel it tx db = Ok (it', tx') /\ stands (k + 1) tx it' tx'.
Proof.
  intros Hst Hk Hf. pose proof (st_at _ _ _ _ Hst) as Hat. rewrite Hk in Hat.
  destruct Hat as (_ & _ & _ & _ & Hl). pose proof (st_ok _ _ _ _ Hst) as Hok.
  destruct (it_Next_spec s _ k Hok Hk) as [Hok' Hleast].
  unfold DIter_Next. rewrite (st_table _ _ _ _ Hst), Hs. simpl. unfold mbind, result_bind.
  apply (next_loop_spec (k + 1)); simpl.
  - apply (st_table _ _ _ _ Hst).
  - apply (st_grown _ _ _ _ Hst).
  - apply (st_prev _ _ _ _ Hst).
  - split; [done| | |].
    + intros k' Hk'. rewrite Hk' in Hleast. destruct Hleast as [[? _] _]. lia.
    + intros x Hlo Hb. destruct (Next_guards s _ k x Hok Hk) as [?|?]; [lia|done| |by right].
      left. by apply (linked_covered _ (di_iter it)).
    + intros x Hlo Hb. apply abs_absent. destruct (ms_map s !! x) as [a|] eqn:E; [|done]. exfalso.
      assert (k < x) as Hx by lia.
      destruct (it_at (it_Next s (di_iter it)).2) as [k'|]; simpl in *.
      * destruct Hleast as [_ Hl']. specialize (Hl' x (conj Hx (ex_intro _ a E))). lia.
      * apply (Hleast x). eauto.
  - pose proof (rest_le (it_Next s (di_iter it)).2). lia.
Qed.

(** ** Whole scans *)

Definition rows_at (rows : list (Z * addr)) (x : Z) : option addr := (list_to_map rows : gmap Z addr) !! x.

(** A scan returns exactly the rows from [lo] to where it stops, and the read
    set vouches for all of them. *)
Record scanned (lo : Z) tx (rows : list (Z * addr)) it' tx' : Prop := {
  sc_grown : grown (tx_readset tx) (tx_readset tx');
  sc_rows x : lo <= x -> before x (it_at (di_iter it')) -> abs db t x = rows_at rows x;
  sc_cov x : lo <= x -> before x (it_at (di_iter it')) -> covered (tx_readset tx') x;
  sc_lo : Forall (fun p => lo <= p.1) rows;
  sc_sorted : StronglySorted (fun p q => p.1 < q.1) rows
}.

Lemma scanned_nil lo tx0 it tx : stands lo tx0 it tx -> scanned lo tx [] it tx.
Proof.
  intros Hst. split; [|apply (st_none _ _ _ _ Hst)|apply (st_cov _ _ _ _ Hst)|constructor..].
  apply grown_refl, (st_grown _ _ _ _ Hst).
Qed.

Lemma scan_rows_spec fuel : forall n lo it tx tx0,
  (size (ms_map s) < fuel)%nat -> stands lo tx0 it tx ->
  exists rows it' tx', scan_rows fuel n it tx db = Ok (rows, it', tx') /\ scanned lo tx rows it' tx' /\
    (length rows <= n)%nat /\ (it_at (di_iter it') = None \/ length rows = n).
Proof.
  induction n as [|n IH]; intros lo it tx tx0 Hf Hst.
  { exists [], it, tx. split; [done|]. split; [by eapply scanned_nil|auto]. }
  simpl. pose proof (st_at _ _ _ _ Hst) as Hat. unfold DIter_Valid.
  destruct (it_at (di_iter it)) as [k|] eqn:Hk.
  2:{ rewrite Hat. exists [], it, tx. split; [done|]. split; [by eapply scanned_nil|].
      rewrite Hk. simpl. split; [lia|by left]. }
  destruct Hat as (Hlo & Hcur & Habs & Hcov & Hl). rewrite (proj2 (Z.eqb_neq _ _) Hcur). cbn [negb].
  destruct (Next_stands fuel it tx lo k tx0 Hst Hk Hf) as (it1 & tx1 & -> & Hst1).
  unfold mbind, result_bind.
  destruct (IH (k + 1) it1 tx1 tx Hf Hst1) as (rows & it' & tx' & -> & [Hg Hrows Hc Hrlo Hsort] & Hn & Hend).
  do 3 eexists. split; [done|]. unfold DIter_Key. rewrite (it_Key_spec (di_iter it) k Hk).
  pose proof (grown_trans _ _ _ (st_grown _ _ _ _ Hst1) Hg) as Hg'.
  assert (Forall (fun p => k < p.1) rows) as Hgt.
  { eapply Forall_impl; [exact Hrlo|]. intros p. simpl. lia. }
  split; [|simpl; split; [lia|naive_solver]]. split; [done| | | |by constructor].
  - intros x Hx Hb. unfold rows_at. simpl. destruct (Z.lt_trichotomy x k) as [Hlt|[->|Hlt]].
    + rewrite lookup_insert_ne by lia. rewrite (st_none _ _ _ _ Hst x Hx) by (by rewrite Hk).
      destruct (list_to_map rows !! x) as [v|] eqn:E; [|done].
      apply elem_of_list_to_map_2 in E. rewrite Forall_forall in Hgt. specialize (Hgt _ E). simpl in Hgt. lia.
    + by rewrite lookup_insert_eq.
    + rewrite lookup_insert_ne by lia. apply Hrows; [lia|done].
  - intros x Hx Hb. destruct (Z.lt_trichotomy x k) as [Hlt|[->|Hlt]].
    + eapply covered_grown; [exact Hg'|]. apply (st_cov _ _ _ _ Hst); [done|by rewrite Hk].
    + by eapply covered_grown.
    + apply Hc; [lia|done].
  - constructor; [done|]. eapply Forall_impl; [exact Hgt|]. intros p. simpl. lia.
Qed.

Lemma scan_range fuel n key tx :
  rs_wf (tx_readset tx) -> (size (ms_map s) < fuel)%nat ->
  exists rows it' tx', scan fuel n t key tx db = Ok (rows, it', tx') /\ scanned key tx rows it' tx' /\
    (length rows <= n)%nat /\ (it_at (di_iter it') = None \/ length rows = n).
Proof.
  intros Hwf Hf. unfold scan, DIter_new. rewrite Hs. simpl. unfold mbind, result_bind.
  destruct (Seek_stands fuel key (mkDIter t it_new NULL NULL NULL) tx) as (it & tx1 & -> & Hst); try done.
  { by left. }
  destruct (scan_rows_spec fuel n key it tx1 tx Hf Hst) as (rows & it' & tx' & -> & [Hg Hr Hc Hlo Hso] & Hn).
  do 3 eexists. split; [done|]. split; [|done]. split; try done.
  by eapply grown_trans; [apply (st_grown _ _ _ _ Hst)|].
Qed.

End scan_ranges.

(** ** Scans and concurrent transactions *)

Section phantoms.
Context {St P I : Type} `{MemstoreLaws St, PoolLaws P} `{!MemIterator St I}
  `{!MemIteratorLaws St I} `{!LinkLaws St I}.
Implicit Types (db : DB St) (own : gmap Z (nat * Z)).

(** The links of table [t] are not in the memory of records or other tables. *)
Definition links_apart db (t : nat) : Prop :=
  forall st l, db_tables db !! t = Some st -> is_Some (ms_link st l) ->
  db_nodes db !! l = None /\
  forall t' st', t' <> t -> db_tables db !! t' = Some st' -> ms_link st' l = None.

Lemma link_word_at_table (ts : list St) t st l v :
  ts !! t = Some st -> ms_link st l = Some v ->
  (forall t' st', t' <> t -> ts !! t' = Some st' -> ms_link st' l = None) ->
  link_word_at ts l = Some v.
Proof.
  revert t. induction ts as [|st0 ts IH]; intros [|t] Ht Hv Hother; simpl in *; try done.
  - simplify_eq. by rewrite Hv.
  - rewrite (Hother O st0) by done. apply (IH t); try done.
    intros t' st' Hne. apply (Hother (S t')). lia.
Qed.

Lemma read_word_link db t st l v :
  links_apart db t -> db_tables db !! t = Some st -> is_Some (ms_link st l) ->
  read_word db l = Some v -> ms_link st l = Some v.
Proof.
  intros Hap Ht Hl. destruct (Hap st l Ht Hl) as [Hn Hother]. destruct Hl as [w Hw].
  unfold read_word. rewrite Hn, (link_word_at_table _ t st l w), Hw by done. done.
Qed.

Lemma guards_later s s' a v x : rtc ms_step s s' -> ms_guards s a v x -> ms_guards s' a v x.
Proof. induction 1; eauto using guards_step. Qed.

Lemma link_stays_later s s' a : rtc ms_step s s' -> is_Some (ms_link s a) -> is_Some (ms_link s' a).
Proof. induction 1; eauto using link_stays. Qed.

Lemma db_ok_nodes own w db t st :
  db_ok own w db -> db_tables db !! t = Some st ->
  forall k a, ms_map st !! k = Some a -> a <> NULL /\ is_Some (db_nodes db !! a).
Proof.
  intros Hok Ht k a Ha. assert (tmap db t k = Some a) as E by (unfold tmap; by rewrite Ht).
  destruct (ok_tab _ _ _ Hok t k a E) as (_ & n & Hn & _). split; [|eauto].
  destruct (ok_dom _ _ _ Hok a); [eauto|]. unfold NULL. lia.
Qed.

(** What the read set vouches for is still so when validation succeeds. *)
Lemma covered_stable own own' w w' db db' t st r x :
  db_ok own w db -> db_ok own' w' db' -> db_le own own' db db' -> links_apart db' t ->
  db_tables db !! t = Some st -> covered db st r x ->
  Forall (read_current (read_word db')) (rs_reads r) ->
  Forall (range_current (read_word db')) (rs_ranges r) ->
  abs db' t x = abs db t x.
Proof.
  intros Hok Hok' Hle Hap Ht Hcov Hrd Hrg. rewrite !Forall_forall in *.
  destruct Hcov as [(a & n & Ha & Hn & Hin)|(l & v & Hin & Hg & Hlv)].
  - assert (tmap db t x = Some a) as Htx by (unfold tmap; by rewrite Ht).
    destruct (ok_tab _ _ _ Hok t x a Htx) as (Ho & n0 & Hn0 & Hv). assert (n0 = n) as -> by congruence.
    specialize (Hrd _ Hin). unfold read_current, read_word in Hrd. simpl in Hrd.
    destruct (le_nodes _ _ _ _ Hle a n) as (n' & Hn' & _ & Heq); [eauto|done|]. rewrite Hn' in Hrd.
    specialize (Heq ltac:(congruence)). apply (own_le _ _ _ _ _ _ Hle) in Ho.
    destruct (ok_node _ _ _ Hok' a t x Ho) as (n1 & Hn1 & [E|E] & _); [congruence|].
    unfold abs. rewrite Htx, E. simpl. rewrite Hn, Hn'. simpl. by rewrite Heq.
  - destruct (le_tables _ _ _ _ Hle t st Ht) as (st' & Ht' & Hlater).
    specialize (Hrg _ Hin). unfold range_current in Hrg. simpl in Hrg.
    apply (read_word_link db' t st') in Hrg; [|done|done|by eapply link_stays_later].
    rewrite (abs_absent db t st Ht x (guards_absent _ _ _ _ Hg Hlv)).
    apply (abs_absent db' t st' Ht'). exact (guards_absent _ _ _ _ (guards_later _ _ _ _ _ Hlater Hg) Hrg).
Qed.

Lemma reads_labelled own db (th : Thread P) p :
  thread_ok own db th -> th_pc th = Running -> p ∈ rs_reads (tx_readset (th_tx th)) ->
  rs_label p <> NO_CONFLICT.
Proof.
  intros Hth Hpc Hp. pose proof (th_sets _ _ _ Hth) as Hsets. rewrite Hpc in Hsets.
  destruct Hsets as (Hr & _ & Hlog & _). rewrite Hr, app_nil_r in Hp.
  apply list_elem_of_fmap in Hp as (l & -> & Hl). rewrite Forall_forall in Hlog.
  by destruct (Hlog l Hl) as (_ & ? & _).
Qed.



End phantoms.

(** ** A run

    Rows 3, 7 and 9 are loaded.  Thread 0 scans from key 5 while thread 1
    overwrites row 3 and commits. *)

Definition sc_load (k : Z) (db : DB ltab) : DB ltab := ok_or db (TupleInsert 0 k [k] db).

Definition sc_db0 : DB ltab := mkDB ∅ ∅ 4096 [mkLtab ∅ 0 1] 1 [2 ^ 63; 2 ^ 63].
Definition sc_db1 := sc_load 3 sc_db0.
Definition sc_db2 := sc_load 7 sc_db1.
Definition sc_db3 := sc_load 9 sc_db2.

Definition sc_node (k : Z) : addr := default 0 (tmap sc_db3 0 k).

Definition sc_own : gmap Z (nat * Z) :=
  <[sc_node 9 := (0%nat, 9)]> (<[sc_node 7 := (0%nat, 7)]> (<[sc_node 3 := (0%nat, 3)]> ∅)).

Definition sc_sys : Sys ltab OBJPool :=
  mkSys sc_db3 {[0%nat := w_thread 0 sc_db3; 1%nat := w_thread 1 sc_db3]} sc_own 0 [].

Lemma sc_initial : initial sc_sys.
Proof.
  split; try done.
  - refine (loaded_insert _ sc_db2 0 9 [9] sc_db3 (sc_node 9) _ _ _ _); try done.
    refine (loaded_insert _ sc_db1 0 7 [7] sc_db2 (sc_node 7) _ _ _ _); try done.
    refine (loaded_insert ∅ sc_db0 0 3 [3] sc_db1 (sc_node 3) _ _ _ _); try done.
    constructor; try done. intros [|t] s; simpl; [by intros [= <-]|]. by rewrite lookup_nil.
  - intros i th Hi. exists 1%nat. cbn [sy_threads sc_sys] in Hi.
    apply lookup_insert_Some in Hi as [[<- <-]|[_ Hi]]; [done|].
    apply lookup_singleton_Some in Hi as [<- <-]. done.
Qed.

Definition sc1 := w_begin 0 sc_sys.
Definition sc2 := w_begin 1 sc1.
Definition sc3 := w_find 1 0 3 1000 sc2.
Definition sc4 := w_add 1 0 3 1000 (w_node 0 3 sc3) sc3.
Definition sc5 := w_commit 1 sc4.

Lemma sc_run1 : rtc step sc_sys sc1.
Proof. apply rtc_once, (w_begin_step 0 _ (w_th 0 sc_sys)); w_compute. Qed.

Lemma sc_run5 : rtc step sc1 sc5.
Proof.
  apply (rtc_l _ _ sc2); [apply (w_begin_step 1 _ (w_th 1 sc1)); w_compute|].
  apply (rtc_l _ _ sc3); [apply (w_find_step 1 0 3 1000 _ (w_th 1 sc2)); w_compute|].
  apply (rtc_l _ _ sc4); [apply (w_add_step 1 0 3 1000 _ _ (w_th 1 sc3)); w_compute|].
  apply (rtc_l _ _ sc5); [apply (w_commit_step 1 _ (w_th 1 sc4)); w_compute|].
  apply rtc_refl.
Qed.

Definition sc_table : ltab := default (mkLtab ∅ 0 1) (db_tables (sy_db sc1) !! 0%nat).

Definition sc_scan : list (Z * addr) * DIter liter * TX OBJPool :=
  ok_or ([], mkDIter 0 it_new NULL NULL NULL, th_tx (w_th 0 sc1))
    (scan (I := liter) 4 5 0 5 (th_tx (w_th 0 sc1)) (sy_db sc1)).


Lemma links_apart_single (db : DB ltab) st0 :
  db_tables db = [st0] -> db_nodes db !! lt_link st0 = None -> links_apart db 0.
Proof.
  intros Ht Hn st l Hst [v Hl]. rewrite Ht in Hst. injection Hst as <-.
  apply ltab_link_inv in Hl. subst l. split; [done|].
  intros [|t'] st' Hne; [done|]. by rewrite Ht.
Qed.

Lemma sc_links_apart : links_apart (sy_db sc5) 0.
Proof. eapply links_apart_single; vm_compute; reflexivity. Qed.

